(* ===== verification/_CoqProject ===== *)
-Q . S2P
Prelude.v
Bytes.v
RLP.v
RLPStream.v
RLPTypes.v
TrieKeys.v
TrieNode.v
TrieSpec.v
Trie.v
TrieMap.v
StackTrie.v
Emission.v
Units.v
ChainConfig.v
Difficulty.v
State.v
FeeMarket.v
StateTransition.v
GasAccounting.v
StateDB.v
Journal.v
StateRefinement.v
Finalise.v
Speculative.v
RotatingKing.v
Rewards.v
ValidatorRegistry.v
ValidatorStore.v
ValidatorSteps.v
ValidatorDemo.v
ShieldedCrypto.v
Merkle.v
ShieldedTree.v
NoteTree.v
ShieldedDemo.v
Stamps.v
StampRegistry.v
Token.v
Assets.v
AddressVotes.v
VoteRegistry.v
VoteDemo.v
ShieldedEnvelopes.v
Ledger.v
ShieldedOnly.v
ShieldedSpend.v
Shielded6.v
PoolSlots.v
Accumulator.v
PoolLedger.v
SpendRefinement.v
SpendSafety.v
LedgerSafety.v
RingSpend.v
PoolDemo.v
RingDemo.v
RLPValues.v
Oracle.v
OracleFeeds.v
OracleDemo.v
Headers.v
BlockValidator.v
HeaderFacts.v
AnchorChain.v
Finality.v
BlockRoots.v
HeaderDemo.v
RewardTail.v
RewardDemo.v
AccountAbstraction.v
UserOperations.v
UserDemo.v
PrivateExecution.v
PrivateRoots.v
PrivateDemo.v
LegacyPool.v
LegacyTree.v
LegacySpends.v
LegacyDemo.v
Waves.v
