(* ===== verification/Prelude.v ===== *)
(** * Verification of go-tkmchain

    A shallow embedding, in Rocq, of the consensus core of [go-tkmchain]: a
    descendant of go-ethereum that mines with RandomX, pays three parties per
    block (the main king, a rotating king and the miner), and has a fork,
    Antartical, that adds validators, stamps and votes, shielded pools, token
    policies, asset manifests, records in the headers and optimistic parallel
    execution.  Paths below are relative to [src/].

    ** The program and how its parts interact

    A block is finalised by [consensus/randomx]: the engine computes the block
    reward from the emission schedule ([reward.go]), asks the chain
    configuration ([params/config.go]) which forks are active and who the main
    king is, asks the king schedule ([consensus/rotatingking], repeated inside
    the engine) who the rotating king of the height is, splits the reward, and
    credits the parties, either implicitly or through reward transactions in the
    block body, which the processor compares with the expected ones
    ([core/state_processor.go]), by calling the world state ([core/state]).
    Difficulty comes from the parent header and the fork rules; the engine checks
    the anchor in a header ([anchor_validation.go]) and the block validator
    ([core/block_validator.go]) the roots and the certificates.

    Transactions run against the journaled state ([core/state_transition.go]); with
    Antartical they may run speculatively in waves
    ([consensus/antartical/parallel.go]) on copies of the state, whose write-sets
    ([core/state/speculative_delta.go]) are merged in order.  The data of a
    transaction may be an envelope of a protocol of its own: envelopes register,
    retire and slash validators ([core/validator_registry.go]), register stamps
    ([core/antartical_stamp.go]), vote against addresses ([core/address_vote.go]),
    spend and create private notes ([core/shielded_tx.go], which also dispatches the
    envelopes of the later pools, and [core/shielded_v3.go] to [shielded_v6.go]) whose
    money the ledger accounts for ([core/confidential_ledger.go]), report to feeds and
    relay messages ([core/oracle_crosschain.go]), carry user operations
    ([core/account_abstraction.go]) or transitions of the private machine
    ([core/private_tvm.go]).  All of these keep their state in storage slots of one
    account, the shielded pool, at hashes of a role and data.  After Antartical a
    policy ([core/private_execution.go], [core/shielded_only.go]) decides which
    transactions may execute.

    Accounts and storage are kept in Merkle Patricia tries ([trie]) whose nodes, like
    headers, transactions and records, are written with RLP ([rlp]); the lists of a
    block are committed to with a stack trie.  Token policies and asset manifests are
    data that contracts carry and that consensus validates.

    ** Files

    Foundations:
    - [Prelude]: machine integers ([u64], the 256-bit words of
      [holiman/uint256] as the class [Uint256]), results and early returns, the
      tactics and hint databases, list lemmas.
    - [Bytes]: byte strings, big-endian numbers, decimal numerals, searching.
    - [RLP]: [rlp/raw.go], [rlp/encbuffer.go] and the writers of [rlp/encode.go]
      on trees of byte strings.
    - [RLPStream]: the [Stream] of [rlp/decode.go] over a byte slice, a state and
      error monad with the source's kinds, limits and cached errors.
    - [RLPTypes]: the codec of Go values, [makeDecoder] and [makeWriter] on a
      universe of types (integers, byte strings and arrays, big integers,
      pointers, slices, arrays, structs with optional fields); [RLPValues]: what a
      decoded value looks like.

    Tries:
    - [TrieKeys]: [trie/encoding.go], key bytes, nibbles and compact keys.
    - [TrieNode]: [trie/node.go], [trie/node_enc.go] and [trie/hasher.go]: nodes,
      their encoding, collapsed references, and decoding.
    - [TrieSpec]: the canonical trie of a finite map, the specification.
    - [Trie]: [trie/trie.go]: [get], [insert], [delete] on nodes that may be
      unresolved hashes, over a node reader.
    - [TrieMap]: the trie refines finite maps, and its root commits to them.
    - [StackTrie]: [trie/stacktrie.go], [trie/list_hasher.go] and
      [core/types/hashing.go].

    Configuration, emission, difficulty, kings:
    - [Emission] (modules [RandomX], [Antartical]): [consensus/randomx/reward.go]
      and [consensus/antartical/rewards.go].  [CalculateBlockReward],
      [CalculateCirculatingSupply], [CalculateTotalSupplyCap], receipt fees,
      [RewardSharesAt].
    - [Units]: [FormatANTD] and [ParseANTD] on byte strings.
    - [ChainConfig]: [params/config.go], [params/antartical_features.go],
      [params/forks]: the configuration record, every [Is...] predicate, [Rules],
      the fork-order check, the compatibility check with its retry loop, the
      main-king address of a time, the configuration of the main network.
    - [Difficulty]: [CalcDifficulty] with its ratio, phone and emergency rules,
      the legacy floating-point estimate (IEEE binary64 from the Standard
      Library), the target test and the seed hash.
    - [RotatingKing]: [consensus/rotatingking]: manager, schedule, registration.
    - [Rewards]: reward distribution and finalisation in
      [consensus/randomx/randomx.go] and [reward.go], reward transactions of
      [core/types/transaction.go].
    - [RewardTail]: the check of a block's reward transactions in
      [core/state_processor.go]; [RewardDemo]: two blocks.

    State and transitions:
    - [State]: the interface [WorldState] the consensus code calls, with its
      laws, and a flat reference implementation.
    - [FeeMarket]: gas limit and base fee rules of [consensus/misc], the gas pool
      ([core/gaspool.go]) and gas budgets ([core/vm/gascosts.go]).
    - [StateTransition]: [core/state_transition.go] whole, over a class [TxState] of
      the state operations it uses; the interpreter, the shielded payouts and the
      other components it calls are the class [Components].
    - [GasAccounting]: the gas and coins of an applied message.
    - [StateDB]: [core/state]: [statedb.go], [state_object.go], [journal.go],
      [access_list.go], [transient_storage.go].  A [StateDB] record holds live
      objects over a database reader; setters append journal entries; a Go
      panic is [None].
    - [Journal]: what getters observe, the equivalence of states that differ in
      caches only, the step-by-step undoing of entries, executions as a step
      relation with nested snapshots.
    - [StateRefinement]: the setters through the getters, the [WorldState]
      instance of [StateDB], refinement of the flat maps.
    - [Finalise]: the transaction boundary.
    - [Speculative]: [core/state/speculative_delta.go].
    - [Waves]: [consensus/antartical/parallel.go] and conflict transcripts; its module
      [SerialOrder]: when speculation agrees with the serial order.

    Validators, stamps, votes, on any [WorldState]:
    - [ValidatorRegistry]: [core/validator_registry.go]: envelopes, slots, records,
      handlers, selection, reward transactions, and the dispatch in
      [core/state_processor.go].  [ValidatorStore]: the registry its storage slots
      hold.  [ValidatorSteps]: the registry as a step relation, and the chain around
      it.  [ValidatorDemo]: a concrete instance, its witnesses and a history.
    - [Stamps], [StampRegistry]: [core/antartical_stamp.go] and the registry it keeps.
    - [AddressVotes], [VoteRegistry], [VoteDemo]: [core/address_vote.go], the sets of
      voters it keeps, a stamp and a vote.

    Shielded pools:
    - [ShieldedCrypto]: [crypto/pqcrypto/shielded_v3.go] and its neighbours, the
      encrypted envelopes.
    - [Merkle]: Merkle trees of a list, the specification of both accumulators.
    - [ShieldedTree], [NoteTree], [ShieldedDemo]: the commitment trees of
      [core/shielded_v3_state.go] in storage, that they are Merkle trees, an instance.
    - [ShieldedEnvelopes]: the wire formats Shield1 to Shield6.
    - [Ledger]: [core/confidential_ledger.go]; [ShieldedOnly]: [core/shielded_only.go].
    - [ShieldedSpend]: the rules of Shield3, Shield4 and Shield5 ([core/shielded_v3.go],
      [shielded_v4.go], [shielded_v5.go], their state files, the statements of
      [zk/shielded3]).
    - [Shielded6]: [core/shielded_v6.go] with its state and recipient files: ring
      signatures over an output accumulator.
    - [PoolSlots]: the slots of the pool account; [Accumulator]: the accumulator of
      Shield6 is a Merkle tree; [PoolLedger]: the ledger in slots; [SpendRefinement]:
      the abstract pool of notes; [SpendSafety], [LedgerSafety], [RingSpend]: the
      theorems on spends; [PoolDemo], [RingDemo]: instances.
    - [LegacyPool]: [core/shielded_tx.go], the first pool, its tree of MiMC hashes with a
      stored path per note, the choice of the verifier, the dispatch, and
      [core/types/pq_migration.go].  [LegacyTree]: the tree as a list of notes;
      [LegacySpends]: the theorems; [LegacyDemo]: a deposit and a migration.

    Other envelopes:
    - [Oracle], [OracleFeeds], [OracleDemo]: [consensus/antartical/oracle.go],
      [crosschain.go] and [core/oracle_crosschain.go], the logs they keep, an instance.
    - [AccountAbstraction], [UserOperations], [UserDemo]:
      [consensus/antartical/account.go] and [core/account_abstraction.go].
    - [PrivateExecution], [PrivateRoots], [PrivateDemo]: [core/private_tvm.go] and the
      policy of [core/private_execution.go].
    - [Token]: the token-policy machine of [consensus/antartical/profile.go].
    - [Assets]: [core/tkmasset/manifest.go].

    Blocks:
    - [Headers]: headers and the records in their extra data
      ([consensus/antartical/anchors.go], [metadata.go], [finality.go], [witness.go],
      [gas.go], [profile.go], [consensus/randomx/anchor_validation.go]).
    - [BlockValidator]: [core/block_validator.go], receipts, [core/receipt_compat.go].
    - [HeaderFacts], [AnchorChain], [Finality], [BlockRoots]: what they commit to;
      [HeaderDemo]: instances.

    A Go struct is a [Record], an enumeration an [Inductive] type, a method a
    function from the receiver's old value to its new one, [(T, error)] a
    [result], a map a [gmap]; where the iteration order of a map can matter the
    order is a parameter and the theorems hold for all orders.  Names are the
    source's.

    ** What the theorems show

    - World state: [RevertToSnapshot] restores every answer of the snapshot and
      never panics on a valid id ([revert_restores_snapshot]); the journaled
      caching state refines flat maps ([statedb_refines_flat]); [Finalise] keeps
      the survivors and removes the rest in any order ([finalise_boundary]);
      a speculative delta merges exactly or is refused
      ([speculative_delta_merges]).
    - Tries: the three key encodings are inverse to each other
      ([key_encodings_roundtrip]); reading, writing and deleting through hash
      references refine a finite map and never run out of fuel
      ([trie_refines_map]); the root determines the map up to a Keccak collision
      ([trie_root_commits]); the stack trie computes the root of the trie it
      replaces ([stack_trie_root]), and the root of a block's list determines the
      list ([derive_sha_commits]).
    - RLP: the encoder buffer writes the recursive format
      ([encoder_refines_format]), encoding and splitting are inverse
      ([rlp_roundtrip]); the typed decoder accepts exactly the encodings of values
      of its type and never panics ([decode_exactly_encodings]), and values survive
      encoding and decoding ([rlp_values_roundtrip]).
    - Gas and fees: a base fee step stays in its bounds and headers are accepted
      exactly with that fee ([base_fee_step]), proposed gas limits are accepted
      ([calc_gas_limit_accepted]); the guarded intrinsic gas is the unbounded sum
      ([intrinsic_gas_exact]); a message is charged between its intrinsic cost and
      its limit before refunds and the block pool loses exactly what is charged
      ([gas_accounted]); the tip goes to the coinbase, unused gas back to the
      sender, and the coins destroyed are the base fee and the blob fee
      ([fees_conserved]).
    - Rewards: payments add up to the block reward modulo the word size and go
      to the right parties ([distribute_rewards_conserves],
      [kyoto_finalisation_bounded]); body rewards and implicit rewards agree
      ([body_rewards_match_implicit], with the case where they do not,
      [body_rewards_pay_old_main_king]); markers are appended once.  After Antartical
      an accepted tail of reward transactions mints at most the shares of its height
      when the configuration lists kings ([reward_tail_mints_shares]); when it does
      not, as on the main network, the amounts are not checked at all
      ([kingless_tail_unchecked]).
    - Validators: the handlers on storage slots implement the steps of an abstract
      registry, errors change nothing ([registry_refines]); bonds are backed by the
      pool ([bonds_backed]); a validator gets its bond back
      ([validator_bond_withdrawable]); the choice is proportional to the stakes
      ([selection_proportional]).
    - Stamps and votes: registrations append one stamp per address and owner
      ([stamp_registration]); an address is suspended exactly while fifteen owners
      vote against it ([address_votes_counted]).
    - Shielded pools: the stored root is the Merkle root of all notes
      ([note_tree_root]), and so is the root of the Shield6 outputs
      ([output_accumulator_root]); spends of all versions refine one abstract pool
      ([shielded_spend_refines]) in which no nullifier and no link tag is used twice
      ([no_double_spend]); the totals stay balanced and backed
      ([ledger_stays_backed]); a ring spend consumes a fresh key image
      ([ring_spends_once]); sealed envelopes open ([sealed_envelope_opens]).
    - The first pool: accepted transactions refine a pool of notes and nullifiers
      ([legacy_pool_refines]); every output gets, and keeps, a path to an accepted anchor
      ([legacy_notes_spendable]); after Antartical it only pays out
      ([antartical_legacy_migrates]).
    - Policy: after Antartical only private envelopes execute
      ([only_private_execution]).
    - Other envelopes: reports are logged once per round with rising rounds
      ([oracle_feed_log]); a message is relayed once ([cross_chain_relayed_once]); user
      operations run once in the order of their nonces and are charged for
      ([user_operations_in_order]); transitions of the private machine form one chain
      of roots ([private_roots_chain]).
    - Blocks: two certified blocks share a third of their signers
      ([finality_accountable]); an accepted anchor commits to all ancestors
      ([anchor_commits_ancestry]); a header fixes its body and receipts
      ([header_fixes_block]); an accepted header has no room for a certificate
      ([anchored_header_bare]).
    - Emission: the closed-form supply is the sum of the rewards of the blocks so far
      plus the drop of the reward since the start ([circulating_supply_exact]), it is
      capped, and the Antartical shares add up to the engine's reward until the
      engine's schedule ends.
    - Kings: the schedule is total and names active kings
      ([schedule_total_and_active]), round robin; the manager keeps its invariant under
      every operation, registrations act only after their activation height, rotation
      picks the next eligible king, the engine's copy of the schedule refines the
      manager's.
    - Configuration: compatible configurations give equal rules up to the head
      ([compatible_configs_same_rules]), the retry loop ends, accepted fork orders are
      ordered.
    - Difficulty: results are in range and slower blocks never raise them.
    - Tokens: the supply is the sum of the balances, and only the holder or the
      administrator can move, mint, burn or pause ([token_supply_invariant]).
    - Assets: encoding and parsing are inverse, for manifests, trailers and
      precompile input.
    - Waves: the schedule is a conflict-free partition, optimistic execution does
      not depend on the completion order, transcripts are canonical; a transcript of
      one wave makes the speculative results and the merged write-sets those of the
      serial order ([one_wave_is_serial]), while a retried wave keeps stale reads
      ([retry_keeps_stale_reads]).

    A theorem with hypotheses has a witness, a closed lemma that applies it to
    concrete data.

    ** Parameters, bounds and fuel

    Keccak-256, SHA-256, SHA-512, signature checks and sender recovery ([Externals],
    [Secp256k1], [PublicKeys]), the native proof library ([Native]), key encapsulation
    and encryption ([Primitives]), curve arithmetic and Groth16 ([Shield6Crypto],
    [LegacyVerifier]), MiMC ([FieldHash]),
    transaction and transcript hashes, state roots, the uint256 package ([Uint256]),
    the EVM ([Components], [EntryCalls]), the trie's node reader and the database
    reader are arguments of the definitions.  What is assumed of them is a named class
    or hypothesis: documented behaviour ([Uint256Overflow], [Keccak256],
    [PrimitiveLaws], [Digests], [EvmGas], [EvmCoins], [EntryLaws], [ReaderOk],
    [NoOrphanSlots]), and that the hashes do not collide on the slots in use
    ([SlotsDistinct], [NoCollision], [PoolDistinct], [TreeUse], [StampUse], [VoteUse],
    [LedgerUse], [SpendUse], [OutputUse], [ImageUse], [OracleUse], [MessageUse],
    [NonceUse], [TVMUse], [LegacyUse]).  [PolicyComponent] says that the policy [Components] hands
    to the state transition is the one of [PrivateExecution].

    The halving loops run at most [MaxHalvings + 1] times, as in the source; the king
    schedule takes fuel and [scheduleFuel] is proved sufficient for every height that
    does not wrap; [CheckCompatible] retries at most once per compared fork, and
    [compatFuel] covers them; the bisection of [sort.Search] gets one unit more than
    the length; the loops over encoded lists get the length of the input and consume
    a byte per turn, so do the decoders of nodes and of list elements; trie
    operations get [opFuel], twice the key length and two, since every second
    step at least consumes a nibble and the others resolve a hash; the stack trie
    gets one unit more than the key; appending to a commitment tree runs its 32
    levels.  [op_ok] in [Journal] states what the callers of [SetCode] and
    [CreateAccount] guarantee, and [setCode_unread_code_lost] shows why.

    ** What is not modelled

    The EVM and TVM interpreters and the precompile registry: an instruction set is a
    development of its own.  The proof systems and curve arithmetic: code outside the
    repository, or C and assembly.  The gas charged for proofs, the balance the
    transaction pool holds for a transaction, the wallet side of Shield6.  The loop of [StateProcessor.Process], its receipts and system
    calls, and block import, reorganisation and storage ([core/blockchain.go],
    [core/headerchain.go]); their checks on blocks are modelled.  Of [eof.go] and
    [precompiles.go] nothing, since consensus does not call them.  The transaction pool,
    networking, RPC, wallets, mining and tools are policy and I/O of one node.  Within
    [trie]: the committer, iterators, range proofs, the databases.  Within [rlp]: the
    stream over an unbuffered reader, raw values, interfaces, tail slices, and types
    with methods of their own.  Within [core/state]: hashing and committing tries,
    prefetching, the stateless witness, metrics.

    ** Open ends

    The [TxState] instance of [StateDB]; the loop of the processor over the components
    above; that a delta built from a run and merged equals the run; trie proofs. *)

From Stdlib Require Export ZArith Lia.
From stdpp Require Export base tactics list gmap strings.

#[global] Set Default Goal Selector "!".
#[global] Set Warnings "-clear-no-such-hyp".
#[global] Open Scope Z_scope.

(** ** Machine integers

    A Go [uint64] is a [Z] in the range [0, 2^64); every operation of the
    source that can wrap is written with [u64]. *)

Declare Scope tkm_scope.
Delimit Scope tkm_scope with tkm.

Definition two64 : Z := 18446744073709551616.
Definition maxU64 : Z := two64 - 1.
Definition u64 (x : Z) : Z := x mod two64.
Definition is_u64 (x : Z) : Prop := 0 <= x < two64.

Notation "a +₆₄ b" := (u64 (a + b)) (at level 50, left associativity) : tkm_scope.
Notation "a -₆₄ b" := (u64 (a - b)) (at level 50, left associativity) : tkm_scope.
Notation "a *₆₄ b" := (u64 (a * b)) (at level 40, left associativity) : tkm_scope.
#[global] Open Scope tkm_scope.

#[global] Instance is_u64_dec x : Decision (is_u64 x).
Proof. unfold is_u64. apply _. Defined.

Lemma u64_small x : is_u64 x → u64 x = x.
Proof. intros H. unfold u64. by rewrite Z.mod_small. Qed.

Lemma u64_range x : is_u64 (u64 x).
Proof. apply Z.mod_pos_bound. done. Qed.

Lemma u64_add_no_wrap a b : is_u64 a → is_u64 b → a + b < two64 → a +₆₄ b = a + b.
Proof. intros [? ?] [? ?] ?. apply u64_small. split; lia. Qed.

Lemma u64_sub_no_wrap a b : is_u64 a → is_u64 b → b <= a → a -₆₄ b = a - b.
Proof. intros [? ?] [? ?] ?. apply u64_small. split; lia. Qed.

(** Unsigned 256-bit words ([github.com/holiman/uint256], a third-party
    package): the interface the sources rely on, with the documented
    behaviour of each operation as a law. *)
Definition two256 : Z := 2 ^ 256.

Class Uint256 := {
  u256_add : Z → Z → Z;
  u256_sub : Z → Z → Z;
  u256_mul : Z → Z → Z;
  (** [uint256.FromBig]: the low 256 bits and the overflow flag *)
  u256_fromBig : Z → Z * bool;
  u256_add_spec x y : u256_add x y = (x + y) mod two256;
  u256_sub_spec x y : u256_sub x y = (x - y) mod two256;
  u256_mul_spec x y : u256_mul x y = (x * y) mod two256;
  u256_fromBig_spec x : u256_fromBig x = (x mod two256, bool_decide (two256 <= Z.abs x));
}.

(** A reference instance, used to run the definitions on concrete inputs. *)
Definition RefUint256 : Uint256 := {|
  u256_add x y := (x + y) mod two256;
  u256_sub x y := (x - y) mod two256;
  u256_mul x y := (x * y) mod two256;
  u256_fromBig x := (x mod two256, bool_decide (two256 <= Z.abs x));
  u256_add_spec _ _ := eq_refl;
  u256_sub_spec _ _ := eq_refl;
  u256_mul_spec _ _ := eq_refl;
  u256_fromBig_spec _ := eq_refl;
|}.

(** ** Errors

    A Go function returning [(T, error)] is a [result]. *)
Inductive result (E A : Type) : Type :=
| Ok (a : A)
| Err (e : E).
Arguments Ok {E A} a.
Arguments Err {E A} e.

#[global] Instance result_ret {E} : MRet (result E) := λ A a, Ok a.
#[global] Instance result_bind {E} : MBind (result E) := λ A B f m,
  match m with Ok a => f a | Err e => Err e end.

Definition is_ok {E A} (r : result E A) : bool :=
  match r with Ok _ => true | Err _ => false end.

Lemma bind_ok {E A B} (m : result E A) (f : A → result E B) b :
  m ≫= f = Ok b ↔ ∃ a, m = Ok a ∧ f a = Ok b.
Proof. destruct m; cbn; naive_solver. Qed.

Lemma Ok_inj {E A} (a b : A) : @Ok E A a = Ok b → a = b.
Proof. by intros [= ->]. Qed.

(** [fail_if c e]: the early return [if c { return e }]. *)
Definition fail_if {E} (c : bool) (e : E) : result E unit :=
  if c then Err e else Ok tt.

Lemma fail_if_ok {E} c (e : E) u : fail_if c e = Ok u ↔ c = false.
Proof. destruct c, u; cbn; naive_solver. Qed.

(** ** Automation *)

Create HintDb tkm.
#[export] Hint Resolve u64_range : tkm.
Create Rewrite HintDb tkmrw.
#[export] Hint Rewrite @bind_ok @fail_if_ok : tkmrw.

(** Linear arithmetic with quotients and remainders by constants. *)
Ltac divlia := Z.to_euclidean_division_equations; lia.

(** Splits every boolean test and comparison of the goal and context into
    the propositions it decides. *)
Ltac bool_to_prop :=
  repeat match goal with
  | H : _ && _ = true |- _ => apply andb_true_iff in H as [? ?]
  | H : _ || _ = false |- _ => apply orb_false_iff in H as [? ?]
  | H : negb _ = true |- _ => apply negb_true_iff in H
  | H : negb _ = false |- _ => apply negb_false_iff in H
  | H : (_ =? _)%Z = true |- _ => apply Z.eqb_eq in H
  | H : (_ =? _)%Z = false |- _ => apply Z.eqb_neq in H
  | H : (_ <? _)%Z = true |- _ => apply Z.ltb_lt in H
  | H : (_ <? _)%Z = false |- _ => apply Z.ltb_ge in H
  | H : (_ <=? _)%Z = true |- _ => apply Z.leb_le in H
  | H : (_ <=? _)%Z = false |- _ => apply Z.leb_gt in H
  | H : bool_decide _ = true |- _ => apply bool_decide_eq_true in H
  | H : bool_decide _ = false |- _ => apply bool_decide_eq_false in H
  end.

(** Case analysis on the tests of a conditional, keeping the outcomes. *)
Ltac case_if :=
  match goal with
  | |- context [if ?b then _ else _] => destruct b eqn:?; bool_to_prop
  end.
Ltac case_ifs := repeat case_if.

Ltac case_if_in H :=
  match type of H with
  | context [if ?b then _ else _] => destruct b eqn:?; bool_to_prop
  end.

(** The same for the first test in [H], naming its outcome [E]. *)
Ltac split_guard H E :=
  match type of H with
  | context [if ?b then _ else _] => destruct b eqn:E
  end.

(** ** Addresses and hashes

    A [common.Address] (20 bytes) and a [common.Hash] (32 bytes) are the
    big-endian number their bytes spell; the zero value is [0]. *)
Abbreviation address := Z (only parsing).
Abbreviation hash := Z (only parsing).
Definition zeroAddress : address := 0.
Definition zeroHash : hash := 0.
Definition is_address (a : Z) : Prop := 0 <= a < 2 ^ 160.
Definition is_hash (h : Z) : Prop := 0 <= h < 2 ^ 256.

(** ** Lists *)

Lemma filter_all {A} (P : A → Prop) `{∀ x, Decision (P x)} (l : list A) :
  Forall P l → base.filter P l = l.
Proof. induction 1 as [|x l Hx _ IH]; [done|]. by rewrite filter_cons_True, IH. Qed.

Lemma filter_ext_in {A} (P Q : A → Prop) `{∀ x, Decision (P x), ∀ x, Decision (Q x)} (l : list A) :
  (∀ x, x ∈ l → P x ↔ Q x) → base.filter P l = base.filter Q l.
Proof.
  induction l as [|x l IH]; intros Hl; [done|].
  assert (IH' : base.filter P l = base.filter Q l) by (apply IH; intros y Hy; apply Hl; by right).
  pose proof (Hl x ltac:(by left)) as Hx. rewrite !filter_cons, IH'.
  destruct (decide (P x)), (decide (Q x)); naive_solver.
Qed.

Lemma elem_of_drop {A} n (l : list A) x : x ∈ drop n l → x ∈ l.
Proof. intros H. rewrite <- (take_drop n l). apply elem_of_app. by right. Qed.

Lemma elem_of_take {A} n (l : list A) x : x ∈ take n l → x ∈ l.
Proof. intros H. rewrite <- (take_drop n l). apply elem_of_app. by left. Qed.

(** Sum of an integer-valued function over a list. *)
Definition zsum {A} (f : A → Z) (l : list A) : Z := foldr (λ x acc, f x + acc) 0 l.

Lemma zsum_app {A} (f : A → Z) l1 l2 : zsum f (l1 ++ l2) = zsum f l1 + zsum f l2.
Proof. induction l1 as [|x l IH]; cbn; [done|]. unfold zsum in *. lia. Qed.

Lemma zsum_cons {A} (f : A → Z) x l : zsum f (x :: l) = f x + zsum f l.
Proof. done. Qed.

Lemma zsum_nonneg {A} (f : A → Z) l : (∀ x, x ∈ l → 0 <= f x) → 0 <= zsum f l.
Proof.
  induction l as [|x l IH]; intros H; cbn; [lia|]. fold (zsum f l).
  pose proof (H x ltac:(by left)). specialize (IH ltac:(intros y Hy; apply H; by right)). lia.
Qed.
