(* ===== verification/Bytes.v ===== *)
(** * Byte strings and positional numbers

    Go [[]byte] and [string] values are lists of byte codes.  This file holds
    the standard-library routines the sources use on them ([bytes.Index],
    [bytes.LastIndex], [bytes.HasPrefix], [bytes.Compare],
    [binary.BigEndian], [big.Int.Bytes], [big.Int.SetBytes],
    [big.Int.String], [big.Int.SetString]) and the lemmas about them. *)

From S2P Require Import Prelude.
From Stdlib Require Ascii String.

Abbreviation bytes := (list Z) (only parsing).

Definition is_byte (b : Z) : Prop := 0 <= b < 256.
Abbreviation bytes_ok := (Forall is_byte).

#[global] Instance is_byte_dec b : Decision (is_byte b).
Proof. unfold is_byte. apply _. Defined.

(** A Go string literal. *)
Fixpoint str (s : String.string) : bytes :=
  match s with
  | String.EmptyString => []
  | String.String c s => Z.of_nat (Ascii.nat_of_ascii c) :: str s
  end.

(** ** Positional notation in a base *)
Section Positional.
Context (base : Z) (base_gt1 : 1 < base).

Definition digits_value (l : list Z) : Z := foldl (λ acc d, acc * base + d) 0 l.

(** The [n] low digits of [x], most significant first. *)
Fixpoint to_digits (n : nat) (x : Z) : list Z :=
  match n with
  | O => []
  | S n' => to_digits n' (x / base) ++ [x mod base]
  end.

Lemma digits_value_snoc l d : digits_value (l ++ [d]) = digits_value l * base + d.
Proof. unfold digits_value. by rewrite foldl_app. Qed.

Lemma digits_value_app l1 l2 :
  digits_value (l1 ++ l2) = digits_value l1 * base ^ Z.of_nat (length l2) + digits_value l2.
Proof using base_gt1.
  induction l2 as [|d l2 IH] using rev_ind; [rewrite app_nil_r; cbn; lia|].
  rewrite app_assoc, !digits_value_snoc, IH, length_app, Nat2Z.inj_add.
  rewrite Z.pow_add_r by lia. cbn. lia.
Qed.

Lemma length_to_digits n x : length (to_digits n x) = n.
Proof. revert x. induction n as [|n IH]; intros x; cbn; [done|]. rewrite length_app, IH. cbn. lia. Qed.

Lemma to_digits_range n x : Forall (λ d, 0 <= d < base) (to_digits n x).
Proof using base_gt1.
  revert x. induction n as [|n IH]; intros x; cbn; [done|].
  apply Forall_app. split; [apply IH|]. repeat constructor; apply Z.mod_pos_bound; lia.
Qed.

Lemma digits_value_to_digits n x : digits_value (to_digits n x) = x mod base ^ Z.of_nat n.
Proof using base_gt1.
  revert x. induction n as [|n IH]; intros x; cbn [to_digits].
  { by rewrite Z.mod_1_r. }
  rewrite digits_value_snoc, IH, Nat2Z.inj_succ, Z.pow_succ_r by lia.
  rewrite Z.rem_mul_r by (try apply Z.pow_nonzero; lia). lia.
Qed.

Lemma digits_value_bound l :
  Forall (λ d, 0 <= d < base) l → 0 <= digits_value l < base ^ Z.of_nat (length l).
Proof using base_gt1.
  induction l as [|d l IH] using rev_ind; intros H; [done|].
  apply Forall_app in H as [Hl Hd]. inversion_clear Hd as [|? ? Hd0 _].
  rewrite digits_value_snoc, length_app, Nat2Z.inj_add, Z.pow_add_r by lia.
  cbn. specialize (IH Hl). nia.
Qed.

Lemma to_digits_digits_value l :
  Forall (λ d, 0 <= d < base) l → to_digits (length l) (digits_value l) = l.
Proof using base_gt1.
  induction l as [|d l IH] using rev_ind; intros H; [done|].
  apply Forall_app in H as [Hl Hd]. inversion_clear Hd as [|? ? Hd0 _].
  rewrite length_app, Nat.add_1_r. cbn [to_digits]. rewrite digits_value_snoc.
  rewrite Z.div_add_l, Z.div_small, Z.add_0_r, IH by (done || lia).
  rewrite Z.add_comm, Z.mod_add, Z.mod_small by lia. done.
Qed.

(** Splitting a number's digits is dividing by a power of the base. *)
Lemma digits_value_take k l :
  Forall (λ d, 0 <= d < base) l → (k <= length l)%nat →
  digits_value (take k l) = digits_value l / base ^ Z.of_nat (length l - k).
Proof using base_gt1.
  intros H Hk. rewrite <- (take_drop k l) at 2. rewrite digits_value_app, length_drop.
  pose proof (digits_value_bound (drop k l) ltac:(by apply Forall_drop)) as Hb.
  rewrite length_drop in Hb. rewrite Z.div_add_l, Z.div_small by (try apply Z.pow_nonzero; lia). lia.
Qed.

(** How many digits [x] needs; zero needs none. *)
Fixpoint digit_count_fuel (fuel : nat) (x : Z) : nat :=
  match fuel with
  | O => 0
  | S f => if x <=? 0 then 0%nat else S (digit_count_fuel f (x / base))
  end.
Definition digit_count (x : Z) : nat := digit_count_fuel (Z.to_nat (Z.log2 x + 1)) x.

Lemma digit_count_fuel_bound f x :
  0 <= x < 2 ^ Z.of_nat f →
  x < base ^ Z.of_nat (digit_count_fuel f x) ∧
  (0 < x → base ^ (Z.of_nat (digit_count_fuel f x) - 1) <= x).
Proof using base_gt1.
  revert x. induction f as [|f IH]; intros x Hx; cbn [digit_count_fuel]; [cbn in *; lia|].
  destruct (x <=? 0) eqn:E; bool_to_prop; [cbn; lia|].
  rewrite Nat2Z.inj_succ, Z.pow_succ_r in Hx |- * by lia.
  assert (Hq : 0 <= x / base < 2 ^ Z.of_nat f).
  { split; [apply Z.div_pos; lia|]. apply Z.div_lt_upper_bound; nia. }
  destruct (IH _ Hq) as [Hhi Hlo]. set (c := digit_count_fuel f (x / base)) in *.
  pose proof (Z.div_mod x base ltac:(lia)). pose proof (Z.mod_pos_bound x base ltac:(lia)).
  split; [nia|]. intros _. replace (Z.succ (Z.of_nat c) - 1) with (Z.of_nat c) by lia.
  destruct (Z.lt_ge_cases 0 (x / base)) as [Hp|Hp].
  - specialize (Hlo Hp). replace (Z.of_nat c) with (1 + (Z.of_nat c - 1)) by lia.
    assert (Hc : c ≠ 0%nat) by (intros Hc; rewrite Hc in Hhi; cbn in Hhi; lia).
    rewrite Z.pow_add_r by lia. rewrite Z.pow_1_r. nia.
  - assert (Hc : c = 0%nat).
    { unfold c. destruct f; [done|]. cbn. rewrite (proj2 (Z.leb_le _ _)) by lia. done. }
    rewrite Hc. cbn. lia.
Qed.

Lemma digit_count_bound x :
  0 <= x → x < base ^ Z.of_nat (digit_count x) ∧ (0 < x → base ^ (Z.of_nat (digit_count x) - 1) <= x).
Proof using base_gt1.
  intros Hx. apply digit_count_fuel_bound. pose proof (Z.log2_nonneg x).
  rewrite Z2Nat.id by lia. split; [done|].
  destruct (Z.eq_dec x 0) as [->|]; [done|]. apply Z.log2_spec. lia.
Qed.

(** The digits of [x] without leading zeros ([[]] for zero). *)
Definition digits_of (x : Z) : list Z := to_digits (digit_count x) x.

Lemma digits_of_value x : 0 <= x → digits_value (digits_of x) = x.
Proof using base_gt1.
  intros Hx. unfold digits_of. rewrite digits_value_to_digits, Z.mod_small; [done|].
  split; [done|]. by apply digit_count_bound.
Qed.

Lemma digits_of_range x : Forall (λ d, 0 <= d < base) (digits_of x).
Proof using base_gt1. apply to_digits_range. Qed.

Lemma digits_of_nil x : 0 < x → digits_of x ≠ [].
Proof using base_gt1.
  intros Hx Hd. pose proof (digits_of_value x ltac:(lia)) as Hv. rewrite Hd in Hv. cbn in Hv. lia.
Qed.

(** No leading zero: the first digit is not 0. *)
Lemma digits_of_head x d l : 0 <= x → digits_of x = d :: l → d ≠ 0.
Proof using base_gt1.
  intros Hx Hd ->. pose proof (digits_of_value x Hx) as Hv. pose proof (digits_of_range x) as Hr.
  destruct (Z.eq_dec x 0) as [->|Hx0]; [done|].
  pose proof (proj2 (digit_count_bound x Hx) ltac:(lia)) as Hlo.
  assert (Hlen : digit_count x = S (length l)).
  { rewrite <- (length_to_digits (digit_count x) x). change (to_digits _ _) with (digits_of x).
    by rewrite Hd. }
  rewrite Hlen in Hlo. replace (Z.of_nat (S (length l)) - 1) with (Z.of_nat (length l)) in Hlo by lia.
  rewrite Hd in Hv, Hr. apply Forall_cons in Hr as [_ Hr].
  pose proof (digits_value_bound l Hr).
  change (0 :: l) with ([0] ++ l) in Hv. rewrite digits_value_app in Hv. cbn in Hv. lia.
Qed.
End Positional.

(** ** Big-endian bytes *)

(** [binary.BigEndian.PutUint64] and friends, [common.Address.Bytes],
    [common.Hash.Bytes]: exactly [n] bytes. *)
Definition be_bytes (n : nat) (x : Z) : bytes := to_digits 256 n x.

(** [binary.BigEndian.Uint64], [big.Int.SetBytes]. *)
Definition be_value (l : bytes) : Z := digits_value 256 l.

(** [big.Int.Bytes]: the absolute value without leading zeros. *)
Definition min_bytes (x : Z) : bytes := digits_of 256 (Z.abs x).

Lemma length_be_bytes n x : length (be_bytes n x) = n.
Proof. apply length_to_digits. Qed.

Lemma be_bytes_ok n x : bytes_ok (be_bytes n x).
Proof. apply to_digits_range. lia. Qed.

Lemma be_value_bytes n x : 0 <= x < 256 ^ Z.of_nat n → be_value (be_bytes n x) = x.
Proof.
  intros Hx. unfold be_value, be_bytes. rewrite digits_value_to_digits by lia. by apply Z.mod_small.
Qed.

Lemma be_bytes_value l : bytes_ok l → be_bytes (length l) (be_value l) = l.
Proof. intros H. by apply to_digits_digits_value. Qed.

Lemma be_bytes_inj n x y :
  0 <= x < 256 ^ Z.of_nat n → 0 <= y < 256 ^ Z.of_nat n → be_bytes n x = be_bytes n y → x = y.
Proof. intros Hx Hy H. by rewrite <- (be_value_bytes n x), H, be_value_bytes. Qed.

Lemma be_value_bound l : bytes_ok l → 0 <= be_value l < 256 ^ Z.of_nat (length l).
Proof. intros H. by apply digits_value_bound. Qed.

#[export] Hint Resolve be_bytes_ok : tkm.
#[export] Hint Rewrite length_be_bytes : tkmrw.

(** ** [bytes] package *)

(** [bytes.HasPrefix] *)
Fixpoint has_prefix (s prefix : bytes) {struct prefix} : bool :=
  match prefix, s with
  | [], _ => true
  | p :: prefix', c :: s' => (p =? c) && has_prefix s' prefix'
  | _ :: _, [] => false
  end.

(** [bytes.Index]: [None] is Go's [-1]. *)
Fixpoint index_of (s sep : bytes) : option nat :=
  if has_prefix s sep then Some 0%nat
  else match s with
       | [] => None
       | _ :: s' => S <$> index_of s' sep
       end.

(** [bytes.LastIndex] *)
Fixpoint last_index_of (s sep : bytes) : option nat :=
  match s with
  | [] => if has_prefix s sep then Some 0%nat else None
  | _ :: s' =>
      match last_index_of s' sep with
      | Some i => Some (S i)
      | None => if has_prefix s sep then Some 0%nat else None
      end
  end.

(** [bytes.Compare] and Go's [<] on strings: lexicographic. *)
Fixpoint bytes_compare (a b : bytes) : comparison :=
  match a, b with
  | [], [] => Eq
  | [], _ :: _ => Lt
  | _ :: _, [] => Gt
  | x :: a', y :: b' => match Z.compare x y with Eq => bytes_compare a' b' | c => c end
  end.

Lemma has_prefix_spec s p : has_prefix s p = true ↔ ∃ t, s = p ++ t.
Proof.
  revert s. induction p as [|c p IH]; intros s; cbn; [split; [eauto|done]|].
  destruct s as [|d s]; [split; [done|by intros [t [=]]]|].
  rewrite andb_true_iff, Z.eqb_eq, IH. split.
  - intros [-> [t ->]]. eauto.
  - intros [t [= -> ->]]. eauto.
Qed.

Lemma has_prefix_app p t : has_prefix (p ++ t) p = true.
Proof. apply has_prefix_spec. eauto. Qed.

Lemma has_prefix_false s p : has_prefix s p = false ↔ ∀ t, s ≠ p ++ t.
Proof.
  rewrite <- not_true_iff_false, has_prefix_spec. split; [eauto|by intros H [t Ht]; apply (H t)].
Qed.

(** [index_of s sep = Some i] is the first occurrence. *)
Lemma index_of_Some s sep i :
  index_of s sep = Some i →
  (∃ t, s = take i s ++ sep ++ t) ∧ ∀ j, (j < i)%nat → has_prefix (drop j s) sep = false.
Proof.
  revert i. induction s as [|c s IH]; intros i; cbn [index_of].
  - destruct (has_prefix [] sep) eqn:E; [|done]. intros [= <-]. split; [|intros; lia].
    apply has_prefix_spec in E as [t Ht]. exists t. done.
  - destruct (has_prefix (c :: s) sep) eqn:E.
    + intros [= <-]. split; [|intros; lia]. by apply has_prefix_spec.
    + intros H. apply fmap_Some in H as (k & Hk & ->). destruct (IH k Hk) as [[t Ht] Hf].
      split; [exists t; cbn; by rewrite <- Ht|].
      intros [|j] Hj; [done|]. cbn. apply Hf. lia.
Qed.

Lemma index_of_None s sep : index_of s sep = None ↔ ∀ l t, s ≠ l ++ sep ++ t.
Proof.
  induction s as [|c s IH]; cbn [index_of].
  - destruct (has_prefix [] sep) eqn:E.
    + apply has_prefix_spec in E as [t Ht]. split; [done|]. intros H. by destruct (H [] t).
    + split; [|done]. intros _ l t Hs. destruct l; [|done]. cbn in Hs.
      rewrite has_prefix_false in E. by apply (E t).
  - destruct (has_prefix (c :: s) sep) eqn:E.
    + apply has_prefix_spec in E as [t Ht]. split; [done|]. intros H. by destruct (H [] t).
    + rewrite fmap_None, IH. rewrite has_prefix_false in E. split.
      * intros H [|d l] t Hs; [by apply (E t)|]. cbn in Hs. simplify_eq. by apply (H l t).
      * intros H l t Hs. subst s. by apply (H (c :: l) t).
Qed.

(** A first occurrence known by its position. *)
Lemma index_of_intro s sep i :
  has_prefix (drop i s) sep = true → (i <= length s)%nat →
  (∀ j, (j < i)%nat → has_prefix (drop j s) sep = false) →
  index_of s sep = Some i.
Proof.
  revert s. induction i as [|i IH]; intros s Hp Hl Hf.
  - rewrite drop_0 in Hp. destruct s; cbn [index_of]; by rewrite Hp.
  - destruct s as [|c s]; [cbn in Hl; lia|]. cbn [index_of].
    rewrite (Hf 0%nat ltac:(lia) : has_prefix (c :: s) sep = false).
    rewrite (IH s); [done|done|cbn in Hl; lia|]. intros j Hj. apply (Hf (S j)). lia.
Qed.

Lemma last_index_of_None s sep : last_index_of s sep = None ↔ index_of s sep = None.
Proof.
  induction s as [|c s IH]; cbn [last_index_of index_of]; [by destruct (has_prefix [] sep)|].
  destruct (last_index_of s sep) eqn:E; destruct (has_prefix (c :: s) sep); try done.
  - split; [done|]. rewrite fmap_None. by intros H%IH.
  - rewrite fmap_None. by split; intros _; [apply IH|].
Qed.

(** An occurrence with none after it is the last one. *)
Lemma last_index_of_app l s sep :
  last_index_of s sep = Some 0%nat → last_index_of (l ++ s) sep = Some (length l).
Proof. intros H. induction l as [|c l IH]; cbn; [done|]. by rewrite IH. Qed.

(** Same-length byte strings compare like the numbers they spell. *)
Lemma bytes_compare_value a b :
  bytes_ok a → bytes_ok b → length a = length b →
  bytes_compare a b = Z.compare (be_value a) (be_value b).
Proof.
  revert b. induction a as [|x a IH]; intros [|y b] Ha Hb Hl; try done.
  apply Forall_cons in Ha as [Hx Ha]. apply Forall_cons in Hb as [Hy Hb]. injection Hl as Hl.
  change (x :: a) with ([x] ++ a). change (y :: b) with ([y] ++ b).
  unfold be_value. rewrite !digits_value_app, Hl by lia. cbn [bytes_compare app].
  pose proof (be_value_bound a Ha) as Ba. pose proof (be_value_bound b Hb) as Bb.
  unfold be_value in *. rewrite Hl in Ba. set (m := 256 ^ Z.of_nat (length b)) in *.
  change (digits_value 256 [x]) with x. change (digits_value 256 [y]) with y.
  destruct (Z.compare_spec x y) as [->|Hlt|Hgt].
  - rewrite IH by done. unfold be_value. symmetry. apply Z.add_compare_mono_l.
  - symmetry. apply Z.compare_lt_iff. nia.
  - symmetry. apply Z.compare_gt_iff. nia.
Qed.

Lemma be_bytes_compare n x y :
  0 <= x < 256 ^ Z.of_nat n → 0 <= y < 256 ^ Z.of_nat n →
  bytes_compare (be_bytes n x) (be_bytes n y) = Z.compare x y.
Proof.
  intros Hx Hy. rewrite bytes_compare_value by (auto with tkm; by rewrite !length_be_bytes).
  by rewrite !be_value_bytes.
Qed.

(** [common.Address.Bytes], [common.Hash.Bytes] *)
Definition address_bytes (a : address) : bytes := be_bytes 20 a.
Definition hash_bytes (h : hash) : bytes := be_bytes 32 h.

(** [common.BytesToHash]: the last 32 bytes, left-padded. *)
Definition BytesToHash (l : bytes) : hash :=
  be_value (if (32 <? length l)%nat then drop (length l - 32) l else l).

Definition BytesToAddress (l : bytes) : address :=
  be_value (if (20 <? length l)%nat then drop (length l - 20) l else l).

Lemma BytesToAddress_20 l : length l = 20%nat → BytesToAddress l = be_value l.
Proof. intros H. unfold BytesToAddress. by rewrite H. Qed.

Lemma BytesToHash_32 l : length l = 32%nat → BytesToHash l = be_value l.
Proof. intros H. unfold BytesToHash. by rewrite H. Qed.

(** ** Decimal strings of [big.Int] *)

Definition digit_char (d : Z) : Z := d + 48.

(** [big.Int.String] *)
Definition big_String (x : Z) : bytes :=
  if x =? 0 then [48]
  else (if x <? 0 then [45] else []) ++ (digit_char <$> digits_of 10 (Z.abs x)).

Definition is_digit_char (c : Z) : bool := (48 <=? c) && (c <=? 57).

Definition parse_digits (s : bytes) : option Z :=
  if bool_decide (s = []) then None
  else if forallb is_digit_char s then Some (digits_value 10 ((λ c, c - 48) <$> s)) else None.

(** [big.Int.SetString(s, 10)]: an optional sign, then at least one digit. *)
Definition big_SetString (s : bytes) : option Z :=
  match s with
  | 43 :: s' => parse_digits s'
  | 45 :: s' => Z.opp <$> parse_digits s'
  | _ => parse_digits s
  end.

Lemma parse_digits_chars ds :
  ds ≠ [] → Forall (λ d, 0 <= d < 10) ds →
  parse_digits (digit_char <$> ds) = Some (digits_value 10 ds).
Proof.
  intros Hne Hd. unfold parse_digits. rewrite bool_decide_false by (by destruct ds).
  rewrite (proj2 (forallb_forall _ _)).
  - do 2 f_equal. clear. induction ds as [|d ds IH]; [done|]. rewrite !fmap_cons, IH.
    f_equal. unfold digit_char. lia.
  - intros c Hc. apply list_elem_of_In, list_elem_of_fmap in Hc as (d & -> & Hin).
    rewrite Forall_forall in Hd. specialize (Hd d Hin). unfold is_digit_char, digit_char. lia.
Qed.

Lemma big_SetString_digits ds :
  ds ≠ [] → Forall (λ d, 0 <= d < 10) ds →
  big_SetString (digit_char <$> ds) = Some (digits_value 10 ds).
Proof.
  intros Hne Hd. rewrite <- parse_digits_chars by done. destruct ds as [|d ds]; [done|].
  apply Forall_cons in Hd as [Hd _]. cbn. unfold digit_char.
  destruct (d + 48) as [|p|p] eqn:E; try lia.
  assert (48 <= Z.pos p) by lia.
  do 6 (destruct p as [p|p|]; try done); lia.
Qed.

(** Printing then parsing a non-negative integer gives it back. *)
Lemma big_SetString_String x : 0 <= x → big_SetString (big_String x) = Some x.
Proof.
  intros Hx. unfold big_String. destruct (x =? 0) eqn:E0; bool_to_prop; [by subst|].
  rewrite (proj2 (Z.ltb_ge _ _)), Z.abs_eq, app_nil_l by lia.
  rewrite big_SetString_digits.
  - by rewrite digits_of_value by lia.
  - apply digits_of_nil; lia.
  - apply digits_of_range. lia.
Qed.
