(* ===== verification/RLP.v ===== *)
(** * Recursive length prefix

    [rlp/raw.go], [rlp/encbuffer.go] and the size helpers of [rlp/encode.go]:
    reading the head of a value, splitting strings, integers and lists off a
    byte slice, and the encoder buffer that keeps list heads apart from the
    string data until the sizes are known.

    The encoder is specified by [enc], the recursive definition of the format
    on trees of byte strings. *)

From S2P Require Import Prelude Bytes.

Module RLP.

(** ** Data *)

Inductive Kind := Byte | String_ | List_.

Inductive error :=
| ErrUnexpectedEOF
| ErrCanonSize
| ErrCanonInt
| ErrValueTooLarge
| ErrExpectedString
| ErrExpectedList
| errUintOverflow.

#[global] Instance Kind_eq_dec : EqDecision Kind.
Proof. solve_decision. Defined.

(** ** Heads *)

(** [bits.Len64] *)
Definition Len64 (i : Z) : Z := if i =? 0 then 0 else Z.log2 i + 1.

Definition intsize (i : Z) : Z := if i =? 0 then 1 else (Len64 i + 7) / 8.

(** The bytes [putint] writes. *)
Definition putint (i : Z) : bytes :=
  if i <? 2 ^ 8 then be_bytes 1 i
  else if i <? 2 ^ 16 then be_bytes 2 i
  else if i <? 2 ^ 24 then be_bytes 3 i
  else if i <? 2 ^ 32 then be_bytes 4 i
  else if i <? 2 ^ 40 then be_bytes 5 i
  else if i <? 2 ^ 48 then be_bytes 6 i
  else if i <? 2 ^ 56 then be_bytes 7 i
  else be_bytes 8 i.

Definition headsize (size : Z) : Z := if size <? 56 then 1 else 1 + intsize size.

(** The bytes [puthead] writes. *)
Definition puthead (smalltag largetag size : Z) : bytes :=
  if size <? 56 then [smalltag + size]
  else let s := putint size in (largetag + Z.of_nat (length s)) :: s.

(** ** Reading *)

(** [readSize]: the big-endian number in the first [slen] bytes *)
Definition readSize (b : bytes) (slen : Z) : result error Z :=
  if Z.of_nat (length b) <? slen then Err ErrUnexpectedEOF
  else
    let s := be_value (take (Z.to_nat slen) b) in
    if (s <? 56) || (default 0 (head b) =? 0) then Err ErrCanonSize else Ok s.

(** Kind, size of the tag, size of the content. *)
Definition readKind (buf : bytes) : result error (Kind * Z * Z) :=
  match buf with
  | [] => Err ErrUnexpectedEOF
  | b :: rest =>
      '(k, tagsize, contentsize) ←
        (if b <? 0x80 then Ok (Byte, 0, 1)
         else if b <? 0xB8 then
           let contentsize := b - 0x80 in
           if (contentsize =? 1) && match rest with c :: _ => c <? 128 | [] => false end
           then Err ErrCanonSize
           else Ok (String_, 1, contentsize)
         else if b <? 0xC0 then
           size ← readSize rest (b - 0xB7); Ok (String_, b - 0xB7 + 1, size)
         else if b <? 0xF8 then Ok (List_, 1, b - 0xC0)
         else size ← readSize rest (b - 0xF7); Ok (List_, b - 0xF7 + 1, size));
      if Z.of_nat (length buf) - tagsize <? contentsize then Err ErrValueTooLarge
      else Ok (k, tagsize, contentsize)
  end.

(** Kind, content and the bytes after the value. *)
Definition Split (b : bytes) : result error (Kind * bytes * bytes) :=
  '(k, ts, cs) ← readKind b;
  Ok (k, take (Z.to_nat cs) (drop (Z.to_nat ts) b), drop (Z.to_nat (ts + cs)) b).

Definition SplitString (b : bytes) : result error (bytes * bytes) :=
  '(k, content, rest) ← Split b;
  if decide (k = List_) then Err ErrExpectedString else Ok (content, rest).

Definition SplitUint64 (b : bytes) : result error (Z * bytes) :=
  '(content, rest) ← SplitString b;
  match content with
  | [] => Ok (0, rest)
  | [c] => if c =? 0 then Err ErrCanonInt else Ok (c, rest)
  | _ =>
      if 8 <? Z.of_nat (length content) then Err errUintOverflow
      else
        match readSize content (Z.of_nat (length content)) with
        | Err _ => Err ErrCanonInt
        | Ok x => Ok (x, rest)
        end
  end.

Definition SplitList (b : bytes) : result error (bytes * bytes) :=
  '(k, content, rest) ← Split b;
  if decide (k = List_) then Ok (content, rest) else Err ErrExpectedList.

(** The loop over the values of a list.  Each turn consumes at least one byte, so
    the fuel, the length of the input, does not run out. *)
Fixpoint splitValues (fuel : nat) (b : bytes) : result error (list bytes) :=
  match fuel, b with
  | _, [] => Ok []
  | O, _ => Err ErrUnexpectedEOF
  | S fuel, _ =>
      '(_, tagsize, size) ← readKind b;
      let n := Z.to_nat (tagsize + size) in
      elements ← splitValues fuel (drop n b);
      Ok (take n b :: elements)
  end.

(** [CountValues]: the number of values, or of those up to the first malformed
    one with its error; the fuel is that of [splitValues]. *)
Fixpoint countLoop (fuel : nat) (i : Z) (b : bytes) : Z * option error :=
  match fuel, b with
  | _, [] => (i, None)
  | O, _ => (i + 1, Some ErrUnexpectedEOF)
  | S fuel, _ =>
      match readKind b with
      | Err e => (i + 1, Some e)
      | Ok (_, tagsize, size) => countLoop fuel (i + 1) (drop (Z.to_nat (tagsize + size)) b)
      end
  end.

Definition CountValues (b : bytes) : Z * option error := countLoop (length b) 0 b.

Definition SplitListValues (b : bytes) : result error (list bytes) :=
  '(content, _) ← SplitList b;
  match CountValues content with
  | (_, Some e) => Err e
  | (_, None) => splitValues (length content) content
  end.

(** ** Writing *)

Definition AppendUint64 (b : bytes) (i : Z) : bytes :=
  if i =? 0 then b ++ [0x80]
  else if i <? 128 then b ++ [i]
  else let s := putint i in b ++ (0x80 + Z.of_nat (length s)) :: s.

Definition BytesSize (b : bytes) : Z :=
  match b with
  | [] => 1
  | [c] => if c <=? 0x7f then 1 else 2
  | _ => headsize (Z.of_nat (length b)) + Z.of_nat (length b)
  end.

Definition ListSize (contentSize : Z) : Z := headsize contentSize + contentSize.

Definition IntSize (x : Z) : Z := if x <? 0x80 then 1 else 1 + intsize x.

(** *** The encoder buffer *)

Record listhead := { offset : Z; lh_size : Z }.

Record encBuffer := { ebstr : bytes; lheads : list listhead; lhsize : Z }.

Definition emptyBuffer : encBuffer := {| ebstr := []; lheads := []; lhsize := 0 |}.

Definition eb_size (buf : encBuffer) : Z := Z.of_nat (length buf.(ebstr)) + buf.(lhsize).

(** [buf.str = append(buf.str, b...)] *)
Definition eb_Write (buf : encBuffer) (b : bytes) : encBuffer :=
  {| ebstr := buf.(ebstr) ++ b; lheads := buf.(lheads); lhsize := buf.(lhsize) |}.

Definition encodeStringHeader (buf : encBuffer) (size : Z) : encBuffer :=
  eb_Write buf (puthead 0x80 0xB7 size).

Definition writeBytes (buf : encBuffer) (b : bytes) : encBuffer :=
  match b with
  | [c] => if c <=? 0x7F then eb_Write buf [c] else eb_Write (encodeStringHeader buf 1) b
  | _ => eb_Write (encodeStringHeader buf (Z.of_nat (length b))) b
  end.

Definition writeUint64 (buf : encBuffer) (i : Z) : encBuffer :=
  if i =? 0 then eb_Write buf [0x80]
  else if i <? 128 then eb_Write buf [i]
  else let s := putint i in eb_Write buf ((0x80 + Z.of_nat (length s)) :: s).

(** [list]: opens a list; the head remembers where and the heads' size so far *)
Definition eb_list (buf : encBuffer) : nat * encBuffer :=
  (length buf.(lheads),
   {| ebstr := buf.(ebstr);
      lheads := buf.(lheads) ++ [{| offset := Z.of_nat (length buf.(ebstr)); lh_size := buf.(lhsize) |}];
      lhsize := buf.(lhsize) |}).

(** [listEnd]; a panic when the index is out of range *)
Definition listEnd (buf : encBuffer) (index : nat) : option encBuffer :=
  lh ← buf.(lheads) !! index;
  let size := eb_size buf - lh.(offset) - lh.(lh_size) in
  Some {| ebstr := buf.(ebstr);
          lheads := <[index := {| offset := lh.(offset); lh_size := size |}]> buf.(lheads);
          lhsize := if size <? 56 then buf.(lhsize) + 1 else buf.(lhsize) + (1 + intsize size) |}.

Definition listhead_encode (h : listhead) : bytes := puthead 0xC0 0xF7 h.(lh_size).

(** [copyTo]: string data and heads in order of offset *)
Fixpoint copyTo (str : bytes) (strpos : Z) (heads : list listhead) : bytes :=
  match heads with
  | [] => drop (Z.to_nat strpos) str
  | h :: heads =>
      take (Z.to_nat (h.(offset) - strpos)) (drop (Z.to_nat strpos) str)
      ++ listhead_encode h ++ copyTo str h.(offset) heads
  end.

Definition makeBytes (buf : encBuffer) : bytes := copyTo buf.(ebstr) 0 buf.(lheads).

Definition MergeListValues (elems : list bytes) : option bytes :=
  let '(index, buf) := eb_list emptyBuffer in
  buf ← listEnd (foldl eb_Write buf elems) index;
  Some (makeBytes buf).

(** *** Trees *)

(** A value: what the reflection-driven writer walks over. *)
Set Warnings "-register-all".
Inductive item :=
| Str (b : bytes)
| Lst (l : list item).

(** The writers of byte strings and of slices.  The writer of a struct does the
    same as that of a slice with at least one element. *)
Fixpoint writeItem (buf : encBuffer) (i : item) : option encBuffer :=
  match i with
  | Str b => Some (writeBytes buf b)
  | Lst [] => Some (eb_Write buf [0xC0])
  | Lst l =>
      let '(index, buf) := eb_list buf in
      buf ← foldl (λ r i, buf ← r; writeItem buf i) (Some buf) l;
      listEnd buf index
  end.

Definition EncodeToBytes (i : item) : option bytes := makeBytes <$> writeItem emptyBuffer i.

(** *** The format *)

Definition encStr (b : bytes) : bytes :=
  match b with
  | [c] => if c <=? 0x7F then [c] else puthead 0x80 0xB7 1 ++ b
  | _ => puthead 0x80 0xB7 (Z.of_nat (length b)) ++ b
  end.

Definition encList (content : bytes) : bytes := puthead 0xC0 0xF7 (Z.of_nat (length content)) ++ content.

Fixpoint enc (i : item) : bytes :=
  match i with
  | Str b => encStr b
  | Lst l => encList (concat (enc <$> l))
  end.

(** ** Heads *)

Lemma putint_spec i :
  0 <= i < two64 →
  ∃ n, putint i = be_bytes n i ∧ (1 <= n <= 8)%nat ∧ i < 256 ^ Z.of_nat n
    ∧ (n = 1%nat ∨ 256 ^ (Z.of_nat n - 1) <= i) ∧ Z.of_nat n = intsize i.
Proof.
  intros [H0 H64]. unfold two64 in H64.
  assert (Hlog : ∀ k, 1 <= k <= 8 → (k = 1 ∨ 256 ^ (k - 1) <= i) → i < 256 ^ k → intsize i = k).
  { intros k Hk Hlo Hhi. unfold intsize, Len64. destruct (Z.eqb_spec i 0) as [->|Hn].
    - destruct Hlo as [->|Hlo]; [done|]. pose proof (Z.pow_pos_nonneg 256 (k - 1)). lia.
    - change 256 with (2 ^ 8) in *. rewrite <- !Z.pow_mul_r in * by lia.
      assert (Z.log2 i < 8 * k) by (apply Z.log2_lt_pow2; lia).
      assert (8 * (k - 1) <= Z.log2 i).
      { destruct Hlo as [->|Hlo]; [pose proof (Z.log2_nonneg i); lia|]. apply Z.log2_le_pow2; lia. }
      divlia. }
  unfold putint. repeat case_if;
    [exists 1%nat|exists 2%nat|exists 3%nat|exists 4%nat|exists 5%nat|exists 6%nat|exists 7%nat|exists 8%nat];
    (split; [done|]); (split; [lia|]); cbn in *;
    (split; [lia|]); (split; [lia|]); symmetry; apply Hlog; lia.
Qed.

Lemma be_value_head b l : bytes_ok (b :: l) → be_value (b :: l) = b * 256 ^ Z.of_nat (length l) + be_value l.
Proof.
  intros _. change (b :: l) with ([b] ++ l). unfold be_value. rewrite digits_value_app by done. cbn. lia.
Qed.

(** Minimal big-endian bytes are what [putint] writes. *)
Lemma putint_be_value l :
  bytes_ok l → (1 <= length l <= 8)%nat → default 0 (head l) ≠ 0 → putint (be_value l) = l.
Proof.
  intros Hl Hn Hh. destruct l as [|b l]; [done|]. cbn in Hh.
  pose proof (be_value_bound _ Hl) as Hb. rewrite (be_value_head b l Hl) in *.
  pose proof (Forall_inv Hl) as Hbb. pose proof (be_value_bound _ (Forall_inv_tail Hl)) as Hbl.
  assert (Hlo : 256 ^ Z.of_nat (length l) <= b * 256 ^ Z.of_nat (length l) + be_value l).
  { unfold is_byte in Hbb. nia. }
  set (i := b * 256 ^ Z.of_nat (length l) + be_value l) in *.
  assert (Hi : 0 <= i < two64).
  { split; [lia|]. eapply Z.lt_le_trans; [apply Hb|]. change two64 with (256 ^ 8).
    apply Z.pow_le_mono_r; cbn in *; lia. }
  destruct (putint_spec i Hi) as (n & -> & Hn8 & Hhi & Hlon & _).
  assert (n = length (b :: l)) as ->.
  { cbn [length] in *. destruct (Nat.lt_trichotomy n (S (length l))) as [H|[H|H]]; [|done|].
    - assert (256 ^ Z.of_nat n <= 256 ^ Z.of_nat (length l)) by (apply Z.pow_le_mono_r; lia). lia.
    - destruct Hlon as [->|Hlon]; [lia|].
      assert (256 ^ Z.of_nat (S (length l)) <= 256 ^ (Z.of_nat n - 1)) by (apply Z.pow_le_mono_r; lia). lia. }
  unfold i. rewrite <- (be_value_head b l Hl). by apply be_bytes_value.
Qed.

Lemma putint_head i : 0 < i < two64 → default 0 (head (putint i)) ≠ 0.
Proof.
  intros Hi. destruct (putint_spec i) as (n & -> & Hn & Hhi & Hlo & _); [lia|].
  destruct (be_bytes n i) as [|b l] eqn:E; [pose proof (length_be_bytes n i) as Hl; rewrite E in Hl; cbn in Hl; lia|].
  cbn. intros ->. pose proof (be_bytes_ok n i) as Hok. pose proof (length_be_bytes n i) as Hl.
  pose proof (be_value_bytes n i ltac:(lia)) as Hv. rewrite E in *.
  rewrite be_value_head in Hv by done. cbn in Hl.
  pose proof (be_value_bound _ (Forall_inv_tail Hok)) as Hb.
  destruct Hlo as [->|Hlo].
  - destruct l; [|done]. cbn in *. lia.
  - replace (Z.of_nat n - 1) with (Z.of_nat (length l)) in Hlo by lia. lia.
Qed.

Lemma readSize_putint i rest :
  56 <= i < two64 → readSize (putint i ++ rest) (Z.of_nat (length (putint i))) = Ok i.
Proof.
  intros Hi. unfold readSize. rewrite length_app.
  destruct (Z.ltb_spec (Z.of_nat (length (putint i) + length rest)) (Z.of_nat (length (putint i)))); [lia|].
  rewrite Nat2Z.id, take_app_length.
  pose proof (putint_head i ltac:(lia)) as Hh.
  destruct (putint_spec i) as (n & E & Hn & Hhi & _); [lia|]. rewrite E in *.
  rewrite be_value_bytes by lia.
  destruct (be_bytes n i) as [|b l]; [done|]. cbn in *.
  apply Z.eqb_neq in Hh. rewrite Hh. destruct (Z.ltb_spec i 56); [lia|done].
Qed.

Lemma readSize_inv b slen s :
  bytes_ok b → 1 <= slen <= 8 → readSize b slen = Ok s →
  56 <= s < two64 ∧ putint s = take (Z.to_nat slen) b ∧ slen <= Z.of_nat (length b).
Proof.
  intros Hb Hs. unfold readSize. case_if; [done|]. destruct (_ || _) eqn:E; [done|]. intros [= <-].
  apply orb_false_iff in E as [H1 H2]. apply Z.ltb_ge in H1. apply Z.eqb_neq in H2.
  set (l := take (Z.to_nat slen) b) in *.
  assert (Hl : bytes_ok l) by (by apply Forall_take).
  assert (Hlen : length l = Z.to_nat slen) by (unfold l; rewrite length_take; lia).
  split_and!; [done| |apply putint_be_value; try done; [lia|]|done].
  - eapply Z.lt_le_trans; [by apply be_value_bound|]. change two64 with (256 ^ 8).
    apply Z.pow_le_mono_r; lia.
  - unfold l. destruct b as [|c b]; [cbn in *; lia|]. by destruct (Z.to_nat slen) eqn:E; [lia|].
Qed.

(** ** Reading back what was written *)

Lemma puthead_length small large size :
  0 <= size < two64 → Z.of_nat (length (puthead small large size)) = headsize size.
Proof.
  intros Hs. unfold puthead, headsize. case_if; [done|]. cbn [length].
  destruct (putint_spec size Hs) as (n & E & Hn & _ & _ & Hi). rewrite E, length_be_bytes. lia.
Qed.

(** A string that is not a single small byte. *)
Definition long_string (b : bytes) : Prop := match b with [c] => 128 <= c | _ => True end.

Lemma readKind_string b rest :
  long_string b → Z.of_nat (length b) < two64 →
  readKind (puthead 0x80 0xB7 (Z.of_nat (length b)) ++ b ++ rest)
  = Ok (String_, headsize (Z.of_nat (length b)), Z.of_nat (length b)).
Proof.
  intros Hb Hlen. set (n := Z.of_nat (length b)) in *. unfold puthead, headsize.
  destruct (Z.ltb_spec n 56) as [Hs|Hs].
  - cbn -[Z.of_nat]. replace (128 + n <? 128) with false by (symmetry; apply Z.ltb_ge; lia).
    replace (128 + n <? 184) with true by (symmetry; apply Z.ltb_lt; lia).
    replace (128 + n - 128) with n by lia.
    assert (Hc : (n =? 1) && match b ++ rest with c :: _ => c <? 128 | [] => false end = false).
    { destruct (Z.eqb_spec n 1) as [Hn|]; [|done]. cbn. destruct b as [|c [|]]; cbn in *; [lia| |lia].
      by apply Z.ltb_ge. }
    rewrite Hc. cbn -[Z.of_nat]. rewrite length_app.
    destruct (Z.ltb_spec (Z.of_nat (S (length b + length rest)) - 1) n); [lia|done].
  - destruct (putint_spec n) as (k & E & Hk & _ & _ & Hi); [lia|].
    assert (Hl : Z.of_nat (length (putint n)) = intsize n) by (rewrite E, length_be_bytes; lia).
    assert (1 <= intsize n <= 8) by lia.
    cbn -[Z.of_nat]. rewrite Hl.
    replace (183 + intsize n <? 128) with false by (symmetry; apply Z.ltb_ge; lia).
    replace (183 + intsize n <? 184) with false by (symmetry; apply Z.ltb_ge; lia).
    replace (183 + intsize n <? 192) with true by (symmetry; apply Z.ltb_lt; lia).
    replace (183 + intsize n - 183) with (Z.of_nat (length (putint n))) by lia.
    rewrite readSize_putint by lia. cbn -[Z.of_nat]. rewrite !length_app, Hl.
    replace (intsize n + 1) with (1 + intsize n) by lia.
    destruct (Z.ltb_spec (Z.of_nat (S (length (putint n) + (length b + length rest))) - (1 + intsize n)) n);
      [lia|done].
Qed.

Lemma readKind_list content rest :
  Z.of_nat (length content) < two64 →
  readKind (encList content ++ rest)
  = Ok (List_, headsize (Z.of_nat (length content)), Z.of_nat (length content)).
Proof.
  intros Hlen. unfold encList. rewrite <- app_assoc. set (n := Z.of_nat (length content)) in *.
  unfold puthead, headsize. destruct (Z.ltb_spec n 56) as [Hs|Hs].
  - cbn -[Z.of_nat]. replace (192 + n <? 128) with false by (symmetry; apply Z.ltb_ge; lia).
    replace (192 + n <? 184) with false by (symmetry; apply Z.ltb_ge; lia).
    replace (192 + n <? 192) with false by (symmetry; apply Z.ltb_ge; lia).
    replace (192 + n <? 248) with true by (symmetry; apply Z.ltb_lt; lia).
    cbn -[Z.of_nat]. replace (192 + n - 192) with n by lia. rewrite length_app.
    destruct (Z.ltb_spec (Z.of_nat (S (length content + length rest)) - 1) n); [lia|done].
  - destruct (putint_spec n) as (k & E & Hk & _ & _ & Hi); [lia|].
    assert (Hl : Z.of_nat (length (putint n)) = intsize n) by (rewrite E, length_be_bytes; lia).
    assert (1 <= intsize n <= 8) by lia.
    cbn -[Z.of_nat]. rewrite Hl.
    replace (247 + intsize n <? 128) with false by (symmetry; apply Z.ltb_ge; lia).
    replace (247 + intsize n <? 184) with false by (symmetry; apply Z.ltb_ge; lia).
    replace (247 + intsize n <? 192) with false by (symmetry; apply Z.ltb_ge; lia).
    replace (247 + intsize n <? 248) with false by (symmetry; apply Z.ltb_ge; lia).
    replace (247 + intsize n - 247) with (Z.of_nat (length (putint n))) by lia.
    rewrite readSize_putint by lia. cbn -[Z.of_nat]. rewrite !length_app, Hl.
    replace (intsize n + 1) with (1 + intsize n) by lia.
    destruct (Z.ltb_spec (Z.of_nat (S (length (putint n) + (length content + length rest))) - (1 + intsize n)) n);
      [lia|done].
Qed.

(** Splitting a head and its content. *)
Lemma Split_head head content rest k :
  readKind (head ++ content ++ rest) = Ok (k, Z.of_nat (length head), Z.of_nat (length content)) →
  Split (head ++ content ++ rest) = Ok (k, content, rest).
Proof.
  intros H. unfold Split. rewrite H. cbn. rewrite <- Nat2Z.inj_add, !Nat2Z.id.
  rewrite drop_app_length, take_app_length.
  replace (length head + length content)%nat with (length (head ++ content)) by apply length_app.
  by rewrite app_assoc, drop_app_length.
Qed.

Lemma encStr_small c : 0 <= c <= 0x7F → encStr [c] = [c].
Proof. intros Hc. cbn. by destruct (Z.leb_spec c 127); [|lia]. Qed.

Lemma encStr_long b : long_string b → encStr b = puthead 0x80 0xB7 (Z.of_nat (length b)) ++ b.
Proof.
  destruct b as [|c [|c' b]]; cbn; [done| |done]. intros Hc. by destruct (Z.leb_spec c 127); [lia|].
Qed.

Lemma long_string_dec b : bytes_ok b → long_string b ∨ ∃ c, b = [c] ∧ 0 <= c <= 0x7F.
Proof.
  intros Hb. destruct b as [|c [|]]; [by left| |by left].
  apply Forall_inv in Hb. unfold is_byte in Hb. cbn.
  destruct (Z.le_gt_cases 128 c); [by left|right]. exists c. split; [done|lia].
Qed.

Lemma Split_encStr b rest :
  bytes_ok b → Z.of_nat (length b) < two64 →
  ∃ k, k ≠ List_ ∧ Split (encStr b ++ rest) = Ok (k, b, rest).
Proof.
  intros Hb Hlen. destruct (long_string_dec b Hb) as [Hl|(c & -> & Hc)].
  - exists String_. split; [done|]. rewrite encStr_long, <- app_assoc by done.
    apply Split_head. rewrite puthead_length by lia. by apply readKind_string.
  - exists Byte. split; [done|]. rewrite encStr_small by done. unfold Split. cbn -[Z.of_nat].
    destruct (Z.ltb_spec c 128); [|lia]. cbn -[Z.of_nat].
    destruct (Z.ltb_spec (Z.of_nat (S (length rest)) - 0) 1); [lia|done].
Qed.

Lemma Split_encList content rest :
  Z.of_nat (length content) < two64 → Split (encList content ++ rest) = Ok (List_, content, rest).
Proof.
  intros Hlen. unfold encList. rewrite <- app_assoc. apply Split_head.
  rewrite puthead_length by lia. rewrite app_assoc. by apply readKind_list.
Qed.

(** ** Only canonical input is accepted *)

Lemma cut_head (c : Z) (r : bytes) (ts cs : Z) :
  1 <= ts → 0 <= cs → ts + cs <= Z.of_nat (length (c :: r)) →
  c :: r = c :: take (Z.to_nat (ts - 1)) r ++ take (Z.to_nat cs) (drop (Z.to_nat ts) (c :: r))
             ++ drop (Z.to_nat (ts + cs)) (c :: r).
Proof.
  intros Ht Hc Hl. rewrite Z2Nat.inj_add by lia. replace (Z.to_nat ts) with (S (Z.to_nat (ts - 1))) by lia.
  cbn [drop plus]. by rewrite <- drop_drop, take_drop, take_drop.
Qed.

(** The tag and its size bytes are the head [puthead] writes. *)
Lemma readKind_inv (c : Z) (r : bytes) k ts cs :
  bytes_ok (c :: r) → readKind (c :: r) = Ok (k, ts, cs) →
  ts + cs <= Z.of_nat (length (c :: r)) ∧
  match k with
  | Byte => ts = 0 ∧ cs = 1 ∧ c < 128
  | String_ => 1 <= ts ∧ 0 <= cs ∧ c :: take (Z.to_nat (ts - 1)) r = puthead 0x80 0xB7 cs
      ∧ (cs = 1 → ts = 1 ∧ ∀ x, head r = Some x → 128 <= x)
  | List_ => 1 <= ts ∧ 0 <= cs ∧ c :: take (Z.to_nat (ts - 1)) r = puthead 0xC0 0xF7 cs
  end.
Proof.
  intros Hok. pose proof (Forall_inv Hok) as Hc. pose proof (Forall_inv_tail Hok) as Hr.
  unfold is_byte in Hc. unfold readKind. intros ([[k0 ts0] cs0] & Hk & Hsz)%bind_ok.
  case_if_in Hsz; [done|]. apply Ok_inj in Hsz. injection Hsz as -> -> ->. split; [lia|].
  assert (Hlong : ∀ tag, 1 <= c - tag <= 8 → readSize r (c - tag) = Ok cs →
    56 <= cs ∧ c :: take (Z.to_nat (c - tag + 1 - 1)) r = puthead 0 tag cs).
  { intros tag Ht Hrs. destruct (readSize_inv r (c - tag) cs Hr Ht Hrs) as (Hcs & Hp & Hl).
    split; [lia|]. unfold puthead. destruct (Z.ltb_spec cs 56); [lia|]. rewrite Hp, length_take.
    replace (c - tag + 1 - 1) with (c - tag) by lia. f_equal. lia. }
  assert (Hput : ∀ small tag, 56 <= cs → puthead 0 tag cs = puthead small tag cs).
  { intros small tag Hcs. unfold puthead. destruct (Z.ltb_spec cs 56); [lia|done]. }
  repeat case_if_in Hk; try done.
  - by injection Hk as <- <- <-.
  - injection Hk as <- <- <-. split_and!; [lia|lia| |].
    + cbn. unfold puthead. destruct (Z.ltb_spec (c - 128) 56); [f_equal; lia|lia].
    + intros H1. split; [done|]. intros x Hx. destruct r as [|y r]; [done|]. injection Hx as ->.
      apply andb_false_iff in Heqb2 as [H%Z.eqb_neq|H%Z.ltb_ge]; lia.
  - apply bind_ok in Hk as (size & Hsize & Hk). apply Ok_inj in Hk. injection Hk as <- <- <-.
    destruct (Hlong 183) as [Hcs Hp]; [lia|done|]. split_and!; [lia|lia|rewrite Hp; by apply Hput|lia].
  - injection Hk as <- <- <-. split_and!; [lia|lia|].
    cbn. unfold puthead. destruct (Z.ltb_spec (c - 192) 56); [f_equal; lia|lia].
  - apply bind_ok in Hk as (size & Hsize & Hk). apply Ok_inj in Hk. injection Hk as <- <- <-.
    destruct (Hlong 247) as [Hcs Hp]; [lia|done|]. split_and!; [lia|lia|rewrite Hp; by apply Hput].
Qed.

(** What was split off is the canonical encoding of the content. *)
Lemma Split_canonical b k content rest :
  bytes_ok b → Split b = Ok (k, content, rest) →
  b = (if decide (k = List_) then encList content else encStr content) ++ rest.
Proof.
  intros Hok. unfold Split. intros ([[k0 ts] cs] & Hk & Heq)%bind_ok. apply Ok_inj in Heq.
  injection Heq as -> <- <-. destruct b as [|c r]; [done|].
  destruct (readKind_inv c r k ts cs Hok Hk) as (Hlen & Hinv). destruct k.
  - destruct Hinv as (-> & -> & Hc). cbn. pose proof (Forall_inv Hok) as Hb. unfold is_byte in Hb.
    change (Z.to_nat 0) with 0%nat. change (Z.to_nat (0 + 1)) with 1%nat. change (Z.to_nat 1) with 1%nat.
    cbn [drop take]. rewrite decide_False, encStr_small by (done || lia). done.
  - destruct Hinv as (Ht & Hc & Hp & H1). rewrite decide_False by done. rewrite (cut_head c r ts cs) at 1 by lia.
    rewrite app_comm_cons, Hp. set (content := take (Z.to_nat cs) (drop (Z.to_nat ts) (c :: r))).
    assert (Hl : Z.of_nat (length content) = cs).
    { unfold content. rewrite length_take, length_drop. lia. }
    rewrite encStr_long, Hl; [by rewrite app_assoc|].
    destruct content as [|x [|]] eqn:Ec; cbn; try done. cbn in Hl.
    destruct (H1 (eq_sym Hl)) as [-> Hx]. unfold content in Ec. subst cs.
    apply Hx. destruct r; [done|]. cbn in Ec. by injection Ec as ->.
  - destruct Hinv as (Ht & Hc & Hp). rewrite decide_True by done. rewrite (cut_head c r ts cs) at 1 by lia.
    rewrite app_comm_cons, Hp. unfold encList. rewrite length_take, length_drop.
    replace (Z.of_nat (Z.to_nat cs `min` (length (c :: r) - Z.to_nat ts))) with cs by lia.
    by rewrite app_assoc.
Qed.

(** ** The encoder buffer writes the format *)

Lemma item_ind' (P : item → Prop) :
  (∀ b, P (Str b)) → (∀ l, Forall P l → P (Lst l)) → ∀ i, P i.
Proof.
  intros HS HL. fix IH 1. intros [b|l]; [apply HS|]. apply HL.
  induction l as [|i l IHl]; constructor; [apply IH|apply IHl].
Qed.

(** The string data and the heads an item adds to the buffer, its list heads at
    absolute offsets starting at [pos]. *)
Fixpoint flat (i : item) : bytes :=
  match i with Str b => encStr b | Lst [] => [0xC0] | Lst l => concat (flat <$> l) end.

Fixpoint heads (pos : Z) (i : item) : list listhead :=
  match i with
  | Str _ | Lst [] => []
  | Lst l =>
      {| offset := pos; lh_size := Z.of_nat (length (concat (enc <$> l))) |}
      :: (fix go pos l :=
            match l with
            | [] => []
            | i :: l => heads pos i ++ go (pos + Z.of_nat (length (flat i))) l
            end) pos l
  end.

Fixpoint headsL (pos : Z) (l : list item) : list listhead :=
  match l with
  | [] => []
  | i :: l => heads pos i ++ headsL (pos + Z.of_nat (length (flat i))) l
  end.

Lemma heads_Lst pos l :
  l ≠ [] → heads pos (Lst l) = {| offset := pos; lh_size := Z.of_nat (length (concat (enc <$> l))) |} :: headsL pos l.
Proof. by destruct l. Qed.

Lemma flat_Lst l : l ≠ [] → flat (Lst l) = concat (flat <$> l).
Proof. by destruct l. Qed.

Lemma item_cases (P : item → Prop) :
  (∀ b, P (Str b)) → P (Lst []) → (∀ l, l ≠ [] → Forall P l → P (Lst l)) → ∀ i, P i.
Proof. intros HS HN HL. induction i as [b|[|i l] Hl] using item_ind'; [apply HS|apply HN|by apply HL]. Qed.

(** *** Interleaving heads and string data *)

(** The heads are in order, from position [pos] on. *)
Fixpoint chain (pos : Z) (hs : list listhead) : Prop :=
  match hs with [] => True | h :: hs => pos <= h.(offset) ∧ chain h.(offset) hs end.

(** [copyTo] on the data that is left. *)
Fixpoint render (pos : Z) (s : bytes) (hs : list listhead) : bytes :=
  match hs with
  | [] => s
  | h :: hs =>
      take (Z.to_nat (h.(offset) - pos)) s ++ listhead_encode h
      ++ render h.(offset) (drop (Z.to_nat (h.(offset) - pos)) s) hs
  end.

Lemma copyTo_render s pos hs :
  0 <= pos → chain pos hs → copyTo s pos hs = render pos (drop (Z.to_nat pos) s) hs.
Proof.
  revert pos. induction hs as [|h hs IH]; intros pos Hpos Hc; cbn; [done|]. destruct Hc as [Ho Hc].
  rewrite IH, drop_drop by (done || lia). do 3 f_equal. f_equal. lia.
Qed.

Lemma chain_mono pos pos' hs : pos' <= pos → chain pos hs → chain pos' hs.
Proof. destruct hs; cbn; [done|]. intros ? [? ?]. split; [lia|done]. Qed.

(** Data before the first head is copied. *)
Lemma render_skip pos x rest hs :
  chain (pos + Z.of_nat (length x)) hs →
  render pos (x ++ rest) hs = x ++ render (pos + Z.of_nat (length x)) rest hs.
Proof.
  destruct hs as [|h hs]; cbn; [done|]. intros [Ho _].
  replace (Z.to_nat (offset h - pos)) with (length x + Z.to_nat (offset h - (pos + Z.of_nat (length x))))%nat by lia.
  by rewrite take_app_add, drop_app_add, <- app_assoc.
Qed.

Lemma chain_headsL pos l hs :
  Forall (λ i, ∀ pos hs, chain (pos + Z.of_nat (length (flat i))) hs → chain pos (heads pos i ++ hs)) l →
  chain (pos + Z.of_nat (length (concat (flat <$> l)))) hs → chain pos (headsL pos l ++ hs).
Proof.
  intros Hl. revert pos. induction Hl as [|i l Hi _ IH]; intros pos Hc; cbn in *.
  { eapply chain_mono; [|exact Hc]. lia. }
  rewrite <- app_assoc. apply Hi, IH. rewrite length_app in Hc. eapply chain_mono; [|exact Hc]. lia.
Qed.

Lemma chain_heads i pos hs : chain (pos + Z.of_nat (length (flat i))) hs → chain pos (heads pos i ++ hs).
Proof.
  revert pos hs. induction i as [b| |l Hne IH] using item_cases; intros pos hs Hc.
  - cbn in *. eapply chain_mono; [|exact Hc]. lia.
  - cbn in *. eapply chain_mono; [|exact Hc]. lia.
  - rewrite flat_Lst in Hc by done. rewrite heads_Lst by done. cbn [app chain offset]. split; [lia|]. by apply chain_headsL.
Qed.

Lemma render_item i pos rest hs :
  chain (pos + Z.of_nat (length (flat i))) hs →
  render pos (flat i ++ rest) (heads pos i ++ hs) = enc i ++ render (pos + Z.of_nat (length (flat i))) rest hs.
Proof.
  revert pos rest hs. induction i as [b| |l Hne IH] using item_cases; intros pos rest hs Hc.
  - cbn in *. by apply render_skip.
  - by apply (render_skip pos [0xC0]).
  - rewrite heads_Lst, flat_Lst in * by done. clear Hne. cbn [app render offset]. rewrite Z.sub_diag. change (Z.to_nat 0) with 0%nat. rewrite take_0, drop_0, app_nil_l.
    cbn [enc]. unfold encList, listhead_encode. cbn [lh_size]. rewrite <- app_assoc. f_equal.
    revert pos Hc. induction IH as [|i l Hi _ IHl]; intros pos Hc.
    { cbn. f_equal. lia. }
    cbn in *. rewrite <- !app_assoc. rewrite length_app, Nat2Z.inj_add in *.
    rewrite Hi; [|apply chain_headsL]; cycle 1.
    { apply Forall_forall. intros j _. apply chain_heads. }
    { eapply chain_mono; [|exact Hc]. lia. }
    f_equal. rewrite IHl; [|eapply chain_mono; [|exact Hc]; lia]. f_equal. f_equal. lia.
Qed.

(** *** What writing an item does to the buffer *)

Lemma writeBytes_encStr buf b : writeBytes buf b = eb_Write buf (encStr b).
Proof.
  unfold writeBytes, encStr, encodeStringHeader, eb_Write. destruct b as [|c [|]]; cbn -[puthead Z.of_nat];
    [|case_if|]; cbn -[puthead Z.of_nat]; rewrite <- ?app_assoc; done.
Qed.

(** The buffer's content grows by the item's. *)
Record wrote (i : list item) (buf buf' : encBuffer) : Prop := {
  wr_str : buf'.(ebstr) = buf.(ebstr) ++ concat (flat <$> i);
  wr_heads : buf'.(lheads) = buf.(lheads) ++ headsL (Z.of_nat (length buf.(ebstr))) i;
  wr_size : eb_size buf' = eb_size buf + Z.of_nat (length (concat (enc <$> i)));
}.

Lemma wrote_nil buf : wrote [] buf buf.
Proof. constructor; cbn; rewrite ?app_nil_r; [done..|lia]. Qed.

Lemma wrote_cons i l buf1 buf2 buf3 : wrote [i] buf1 buf2 → wrote l buf2 buf3 → wrote (i :: l) buf1 buf3.
Proof.
  intros [S1 H1 E1] [S2 H2 E2]. cbn in *. rewrite app_nil_r in *. constructor; cbn.
  - by rewrite S2, S1, app_assoc.
  - rewrite H2, H1, S1, <- app_assoc, length_app, Nat2Z.inj_add. done.
  - rewrite E2, E1, length_app. lia.
Qed.

Lemma length_concat_elem {A} (x : list A) (l : list (list A)) :
  x ∈ l → (length x <= length (concat l))%nat.
Proof.
  induction l as [|y l IH]; intros H; [by apply elem_of_nil in H|]. cbn. rewrite length_app.
  apply elem_of_cons in H as [->|H]; [lia|]. specialize (IH H). lia.
Qed.

Lemma encList_length content : (length content <= length (encList content))%nat.
Proof. unfold encList. rewrite length_app. lia. Qed.

(** Closing the list that was opened at the end of [buf]. *)
Lemma listEnd_wrote l buf buf2 :
  l ≠ [] → Z.of_nat (length (concat (enc <$> l))) < two64 →
  wrote l (eb_list buf).2 buf2 →
  ∃ buf', listEnd buf2 (eb_list buf).1 = Some buf' ∧ wrote [Lst l] buf buf'.
Proof.
  intros Hne Hlen [S H E]. cbn in S, H. unfold listEnd. rewrite H, <- app_assoc. cbn [fst eb_list app].
  rewrite list_lookup_middle by done. cbn [mbind option_bind offset lh_size].
  set (n := Z.of_nat (length (concat (enc <$> l)))) in *.
  assert (Hsz : eb_size buf2 - Z.of_nat (length (ebstr buf)) - lhsize buf = n).
  { rewrite E. unfold eb_size. cbn. lia. }
  rewrite Hsz. eexists. split; [done|]. constructor; cbn [ebstr lheads].
  - rewrite S. cbn [fmap list_fmap concat]. by rewrite app_nil_r, flat_Lst.
  - replace (length (lheads buf)) with (length (lheads buf) + 0)%nat by lia.
    rewrite insert_app_r. cbn [headsL]. by rewrite app_nil_r, heads_Lst.
  - unfold eb_size at 1. cbn [ebstr lhsize]. cbn [fmap list_fmap concat enc]. rewrite app_nil_r.
    unfold encList. rewrite length_app, Nat2Z.inj_add, puthead_length by lia. fold n. unfold headsize.
    unfold eb_size in Hsz |- *. case_if; lia.
Qed.

Lemma writeItem_Lst buf l :
  l ≠ [] → writeItem buf (Lst l) =
    foldl (λ r i, buf ← r; writeItem buf i) (Some (eb_list buf).2) l ≫= λ b, listEnd b (eb_list buf).1.
Proof. by destruct l. Qed.

Lemma writeItem_wrote i buf :
  Z.of_nat (length (enc i)) < two64 → ∃ buf', writeItem buf i = Some buf' ∧ wrote [i] buf buf'.
Proof.
  revert buf. induction i as [b| |l Hne IH] using item_cases; intros buf Hlen.
  - eexists. split; [done|]. rewrite writeBytes_encStr. constructor; cbn; rewrite ?app_nil_r; [done..|].
    unfold eb_size; cbn. rewrite length_app. lia.
  - eexists. split; [done|]. constructor; cbn; rewrite ?app_nil_r; [done..|].
    unfold eb_size; cbn. rewrite length_app. cbn [length]. change (length (encList [])) with 1%nat. lia.
  - cbn in Hlen. pose proof (encList_length (concat (enc <$> l))) as Hc.
    assert (Hl : ∀ l', Forall (λ i, ∀ buf, Z.of_nat (length (enc i)) < two64 →
        ∃ buf', writeItem buf i = Some buf' ∧ wrote [i] buf buf') l' →
      (∀ i, i ∈ l' → Z.of_nat (length (enc i)) < two64) → ∀ buf,
      ∃ buf', foldl (λ r i, buf ← r; writeItem buf i) (Some buf) l' = Some buf' ∧ wrote l' buf buf').
    { clear. intros l' Hl'. induction Hl' as [|i l' Hi _ IHl]; intros Hsz buf.
      { exists buf. split; [done|apply wrote_nil]. }
      destruct (Hi buf) as (b1 & E1 & W1); [apply Hsz; by left|].
      destruct (IHl ltac:(intros j Hj; apply Hsz; by right) b1) as (b2 & E2 & W2).
      exists b2. split; [cbn; by rewrite E1|by eapply wrote_cons]. }
    destruct (Hl l IH) with (buf := (eb_list buf).2) as (buf2 & E2 & W2).
    { intros i Hi. assert (length (enc i) <= length (concat (enc <$> l)))%nat; [|lia].
      apply length_concat_elem, list_elem_of_fmap. eauto. }
    destruct (listEnd_wrote l buf buf2) as (buf' & E' & W'); [done|lia|done|].
    exists buf'. split; [|done]. rewrite writeItem_Lst, E2 by done. exact E'.
Qed.

Lemma wrote_makeBytes i buf : wrote [i] emptyBuffer buf → makeBytes buf = enc i.
Proof.
  intros [S H _]. cbn in S, H. rewrite app_nil_r in *.
  unfold makeBytes. rewrite H, S. change (Z.of_nat 0) with 0.
  rewrite copyTo_render; [|lia|].
  - pose proof (render_item i 0 [] [] I) as Hr. rewrite !app_nil_r in Hr. cbn in Hr.
    exact Hr.
  - rewrite <- (app_nil_r (heads 0 i)). by apply chain_heads.
Qed.

Lemma encoder_enc i :
  Z.of_nat (length (enc i)) < two64 → EncodeToBytes i = Some (enc i).
Proof.
  intros Hlen. destruct (writeItem_wrote i emptyBuffer Hlen) as (buf & E & W).
  unfold EncodeToBytes. rewrite E. cbn. by rewrite (wrote_makeBytes i buf W).
Qed.

(** The encoder buffer, which keeps list heads apart from the string data
    and splices them in at the end, writes exactly the recursive format, and the
    size it announces for its output is the output's length. *)
Theorem encoder_refines_format i :
  Z.of_nat (length (enc i)) < two64 →
  EncodeToBytes i = Some (enc i)
  ∧ ∃ buf, writeItem emptyBuffer i = Some buf ∧ eb_size buf = Z.of_nat (length (makeBytes buf)).
Proof.
  intros Hlen. split; [by apply encoder_enc|].
  pose proof (encoder_enc i Hlen) as E. unfold EncodeToBytes in E.
  destruct (writeItem_wrote i emptyBuffer Hlen) as (buf & Hw & W). exists buf. split; [done|].
  rewrite Hw in E. injection E as ->. rewrite (wr_size _ _ _ W). cbn. by rewrite app_nil_r.
Qed.

Lemma encoder_refines_format_witness :
  EncodeToBytes (Lst [Str [1; 2]; Lst [Str [200]; Lst []]; Str []])
  = Some [0xC8; 0x82; 1; 2; 0xC3; 0x81; 200; 0xC0; 0x80].
Proof.
  refine (proj1 (encoder_refines_format (Lst [Str [1; 2]; Lst [Str [200]; Lst []]; Str []]) _)).
  vm_compute. reflexivity.
Defined.

(** ** Round trips *)

(** Byte strings of octets, small enough for 64-bit lengths. *)
Inductive item_ok : item → Prop :=
| Str_ok b : bytes_ok b → Z.of_nat (length b) < two64 → item_ok (Str b)
| Lst_ok l : Forall item_ok l → Z.of_nat (length (concat (enc <$> l))) < two64 → item_ok (Lst l).

Definition kind_ok (i : item) (k : Kind) : Prop :=
  match i with Str _ => k ≠ List_ | Lst _ => k = List_ end.

Definition content_of (i : item) : bytes :=
  match i with Str b => b | Lst l => concat (enc <$> l) end.

Lemma Split_enc i rest :
  item_ok i → ∃ k, kind_ok i k ∧ Split (enc i ++ rest) = Ok (k, content_of i, rest).
Proof.
  intros Hok. destruct Hok as [b Hb Hl|l Hi Hl]; cbn.
  - destruct (Split_encStr b rest Hb Hl) as (k & ? & ?). eauto.
  - exists List_. split; [done|]. by apply Split_encList.
Qed.

Lemma enc_nonempty i : enc i ≠ [].
Proof.
  destruct i as [b|l]; cbn.
  - unfold encStr, puthead. destruct b as [|c [|]]; cbn; repeat case_if; done.
  - unfold encList, puthead. by case_if.
Qed.

(** The head of an encoding tells where it ends. *)
Lemma readKind_enc i rest :
  item_ok i → ∃ k ts cs, readKind (enc i ++ rest) = Ok (k, ts, cs)
    ∧ Z.to_nat (ts + cs) = length (enc i).
Proof.
  intros Hok. destruct (Split_enc i rest Hok) as (k & _ & Hs). unfold Split in Hs.
  apply bind_ok in Hs as ([[k' ts] cs] & Hk & Hs). exists k', ts, cs. split; [done|].
  apply Ok_inj in Hs. injection Hs as _ Hc Hr.
  assert (Hlen : (Z.to_nat (ts + cs) <= length (enc i ++ rest))%nat).
  { unfold readKind in Hk. destruct (enc i ++ rest) as [|c r]; [done|].
    apply bind_ok in Hk as ([[? ?] ?] & _ & Hk). case_if_in Hk; [done|].
    apply Ok_inj in Hk. injection Hk as -> -> ->. lia. }
  apply (f_equal length) in Hr. rewrite length_drop, length_app in Hr. rewrite length_app in Hlen. lia.
Qed.

(** The loop over a list's content finds its values. *)
Lemma splitValues_enc l fuel :
  Forall item_ok l → (length (concat (enc <$> l)) <= fuel)%nat →
  splitValues fuel (concat (enc <$> l)) = Ok (enc <$> l).
Proof.
  intros Hl. revert fuel. induction Hl as [|i l Hi _ IH]; intros fuel Hf; [by destruct fuel|].
  cbn in Hf |- *. rewrite length_app in Hf. pose proof (enc_nonempty i) as Hne.
  destruct (readKind_enc i (concat (enc <$> l)) Hi) as (k & ts & cs & Hk & Hn).
  destruct (enc i ++ concat (enc <$> l)) as [|c r] eqn:E; [by apply app_eq_nil in E as [? _]|].
  destruct fuel as [|fuel]; [destruct (enc i); [done|cbn in Hf; lia]|].
  cbn [splitValues]. rewrite Hk. cbn [mbind result_bind]. rewrite Hn, <- E, drop_app_length, take_app_length.
  rewrite IH by (destruct (enc i); [done|cbn in *; lia]). done.
Qed.

(** The counting loop agrees with the splitting loop. *)
Lemma countLoop_split fuel b i :
  match splitValues fuel b with
  | Ok elements => countLoop fuel i b = (i + Z.of_nat (length elements), None)
  | Err e => (countLoop fuel i b).2 = Some e
  end.
Proof.
  revert b i. induction fuel as [|fuel IH]; intros [|c b] i; cbn [splitValues countLoop];
    [by rewrite Z.add_0_r|done|by rewrite Z.add_0_r|].
  destruct (readKind (c :: b)) as [[[k ts] cs]|e]; cbn [mbind result_bind]; [|done].
  specialize (IH (drop (Z.to_nat (ts + cs)) (c :: b)) (i + 1)).
  destruct (splitValues fuel (drop (Z.to_nat (ts + cs)) (c :: b))) as [el|e]; cbn [mbind result_bind]; [|done].
  rewrite IH. cbn [length]. f_equal. lia.
Qed.

Lemma SplitListValues_enc l :
  item_ok (Lst l) → SplitListValues (enc (Lst l)) = Ok (enc <$> l).
Proof.
  intros Hok. destruct (Split_enc (Lst l) [] Hok) as (k & -> & Hs). rewrite app_nil_r in Hs.
  inversion Hok as [|l' Hl Hlen]; subst. unfold SplitListValues, SplitList. rewrite Hs. cbn [mbind result_bind].
  rewrite decide_True by done. unfold CountValues. cbn [content_of mbind result_bind].
  pose proof (countLoop_split (length (concat (enc <$> l))) (concat (enc <$> l)) 0) as Hc.
  rewrite splitValues_enc in Hc |- * by done. by rewrite Hc.
Qed.

(** Encodings are prefix-free, hence the format is injective. *)
Lemma enc_prefix_free i j r r' :
  item_ok i → item_ok j → enc i ++ r = enc j ++ r' → i = j ∧ r = r'.
Proof.
  revert j r r'. induction i as [b|l IH] using item_ind'; intros j r r' Hi Hj E;
    destruct (Split_enc _ r Hi) as (k & Hk & Hs); destruct (Split_enc _ r' Hj) as (k' & Hk' & Hs');
    rewrite E, Hs' in Hs; injection Hs as -> Hc Hr; (split; [|done]); clear E Hs' r r' Hr.
  - destruct j as [b'|l']; [by f_equal|]. by cbn in *; subst.
  - destruct j as [b'|l']; [by cbn in *; subst|]. f_equal. cbn in Hc.
    inversion Hi as [|? Hl _]; inversion Hj as [|? Hl' _]; subst. clear Hi Hj Hk Hk'.
    revert l' Hl' Hc. induction IH as [|i l Hii _ IHl]; intros [|j l'] Hl' Hc; cbn in Hc; [done|..].
    + apply app_eq_nil in Hc as [Hc _]. by apply enc_nonempty in Hc.
    + symmetry in Hc. apply app_eq_nil in Hc as [Hc _]. by apply enc_nonempty in Hc.
    + inversion Hl; inversion Hl'; subst. symmetry in Hc.
      destruct (Hii j (concat (enc <$> l)) (concat (enc <$> l'))) as [-> Hrest]; [done..|].
      f_equal. by apply IHl.
Qed.

(** RLP round trip and uniqueness.  What the encoder writes for a tree of
    byte strings, followed by anything, splits into the tree's kind, its content
    and the rest; the values of an encoded list are the encodings of its
    elements, in order; and no two trees share an encoding. *)
Theorem rlp_roundtrip i j rest :
  item_ok i → item_ok j → Z.of_nat (length (enc i)) < two64 → Z.of_nat (length (enc j)) < two64 →
  ∃ b, EncodeToBytes i = Some b
  ∧ (∃ k, kind_ok i k ∧ Split (b ++ rest) = Ok (k, content_of i, rest))
  ∧ (∀ l, i = Lst l → ∃ bs, Some <$> bs = EncodeToBytes <$> l ∧ SplitListValues b = Ok bs)
  ∧ (EncodeToBytes j = Some b → i = j).
Proof.
  intros Hi Hj Li Lj. exists (enc i). rewrite !encoder_enc by done. split; [done|]. split; [by apply Split_enc|].
  split.
  - intros l ->. exists (enc <$> l). split; [|by apply SplitListValues_enc].
    rewrite <- list_fmap_compose. apply list_fmap_ext. intros n i Hn. symmetry. apply encoder_enc.
    pose proof (length_concat_elem (enc i) (enc <$> l)) as Hle. pose proof (encList_length (concat (enc <$> l))).
    cbn in Li. assert (enc i ∈ enc <$> l) by (apply list_elem_of_fmap; eauto using list_elem_of_lookup_2).
    specialize (Hle ltac:(done)). lia.
  - intros [= E]. symmetry in E. apply (enc_prefix_free i j [] []); rewrite ?app_nil_r; done.
Qed.

Lemma rlp_roundtrip_witness :
  let i := Lst [Str [1; 2]; Str [200]] in
  ∃ b, EncodeToBytes i = Some b ∧ ∃ k, kind_ok i k ∧ Split (b ++ [9]) = Ok (k, content_of i, [9]).
Proof.
  cbv zeta. assert (H : item_ok (Lst [Str [1; 2]; Str [200]])).
  { repeat constructor; unfold is_byte; cbn; lia. }
  destruct (rlp_roundtrip (Lst [Str [1; 2]; Str [200]]) (Lst [Str [1; 2]; Str [200]]) [9] H H) as (b & Hb & Hs & _);
    [reflexivity..|]. exact (ex_intro _ b (conj Hb Hs)).
Defined.

(** *** Integers *)

Lemma encStr_bytes b : bytes_ok (encStr b) → bytes_ok b.
Proof.
  unfold encStr. destruct b as [|c [|]]; [done| |]; [case_if; [done|]|]; by intros [_ H]%Forall_app.
Qed.

Lemma single_uint c rest :
  bytes_ok [c] → c ≠ 0 → is_u64 c ∧ encStr [c] ++ rest = AppendUint64 [] c ++ rest.
Proof.
  intros Hc Hn. apply Forall_inv in Hc. unfold is_byte in Hc.
  split; [unfold is_u64, two64; lia|]. unfold encStr, AppendUint64. rewrite (proj2 (Z.eqb_neq _ _) Hn).
  destruct (Z.leb_spec c 0x7F), (Z.ltb_spec c 128); try lia; [done|].
  unfold putint. destruct (Z.ltb_spec c (2 ^ 8)); [|cbn in *; lia].
  cbn. by rewrite Z.mod_small by lia.
Qed.

Lemma long_uint c0 c1 content x rest rest' :
  bytes_ok (c0 :: c1 :: content) →
  (if 8 <? Z.of_nat (length (c0 :: c1 :: content)) then Err errUintOverflow
   else match readSize (c0 :: c1 :: content) (Z.of_nat (length (c0 :: c1 :: content))) with
        | Ok x => Ok (x, rest')
        | Err _ => Err ErrCanonInt
        end) = Ok (x, rest) →
  is_u64 x ∧ encStr (c0 :: c1 :: content) ++ rest' = AppendUint64 [] x ++ rest.
Proof.
  set (l := c0 :: c1 :: content). intros Hb. destruct (Z.ltb_spec 8 (Z.of_nat (length l))); [done|].
  destruct (readSize _ _) as [y|] eqn:Er; [|done]. intros [= -> ->].
  destruct (readSize_inv l (Z.of_nat (length l)) x Hb) as (Hx & Hp & _); [cbn in *; lia|done|].
  rewrite Nat2Z.id, firstn_all in Hp. split; [unfold is_u64; lia|]. f_equal.
  rewrite encStr_long by done. unfold AppendUint64, puthead.
  destruct (Z.ltb_spec (Z.of_nat (length l)) 56); [|lia].
  destruct (Z.eqb_spec x 0); [lia|]. destruct (Z.ltb_spec x 128) as [Hs|_]; [|by rewrite Hp].
  exfalso. apply (f_equal length) in Hp. unfold putint in Hp.
  destruct (Z.ltb_spec x (2 ^ 8)); [|cbn in *; lia]. rewrite length_be_bytes in Hp. done.
Qed.

(** The reader accepts canonical input only.  Whatever [Split] takes off a
    byte slice is the encoding of the content it returns, and whatever
    [SplitUint64] takes off is what [AppendUint64] writes for the number. *)
Theorem rlp_canonical b :
  bytes_ok b →
  (∀ k content rest, Split b = Ok (k, content, rest) →
     b = (if decide (k = List_) then encList content else encStr content) ++ rest)
  ∧ (∀ x rest, SplitUint64 b = Ok (x, rest) → is_u64 x ∧ b = AppendUint64 [] x ++ rest).
Proof.
  intros Hb. split; [intros; by apply Split_canonical|]. intros x rest Hu.
  unfold SplitUint64, SplitString in Hu. apply bind_ok in Hu as ([content rest'] & Hs & Hu).
  apply bind_ok in Hs as ([[k c] r] & Hsp & Hs). case_decide as Hk; [done|]. apply Ok_inj in Hs.
  injection Hs as -> ->. pose proof (Split_canonical b k content rest' Hb Hsp) as Hc.
  rewrite decide_False in Hc by done. subst b. apply Forall_app in Hb as [Hb _].
  apply encStr_bytes in Hb. destruct content as [|c0 [|c1 content]].
  - injection Hu as <- <-. split; [by split|done].
  - case_if_in Hu; [done|]. injection Hu as <- <-. by apply single_uint.
  - by apply long_uint.
Qed.

Lemma rlp_canonical_witness : [0x82; 4; 0; 7] = AppendUint64 [] 1024 ++ [7].
Proof.
  apply (rlp_canonical [0x82; 4; 0; 7]); [repeat constructor; unfold is_byte; lia|]. vm_compute. reflexivity.
Defined.
(** ** Facts for the users of the format *)

Lemma SplitString_enc b rest :
  bytes_ok b → Z.of_nat (length b) < two64 → SplitString (encStr b ++ rest) = Ok (b, rest).
Proof.
  intros Hb Hl. unfold SplitString. destruct (Split_encStr b rest Hb Hl) as (k & Hk & ->).
  cbn. by rewrite decide_False.
Qed.

(** A string that is not a single small byte is of kind [String_]. *)
Lemma Split_long b rest :
  long_string b → Z.of_nat (length b) < two64 → Split (encStr b ++ rest) = Ok (String_, b, rest).
Proof.
  intros Hb Hl. rewrite encStr_long, <- app_assoc by done. apply Split_head.
  rewrite puthead_length by lia. by apply readKind_string.
Qed.

Lemma SplitList_enc content rest :
  Z.of_nat (length content) < two64 → SplitList (encList content ++ rest) = Ok (content, rest).
Proof. intros Hl. unfold SplitList. by rewrite Split_encList. Qed.

Lemma CountValues_enc l :
  Forall item_ok l → CountValues (concat (enc <$> l)) = (Z.of_nat (length l), None).
Proof.
  intros Hl. unfold CountValues.
  pose proof (countLoop_split (length (concat (enc <$> l))) (concat (enc <$> l)) 0) as Hc.
  rewrite splitValues_enc in Hc by done. rewrite Hc, length_fmap. done.
Qed.

Lemma puthead_length_le small large size :
  0 <= size < two64 → 1 <= Z.of_nat (length (puthead small large size)) <= 9.
Proof.
  intros Hs. rewrite puthead_length by done. unfold headsize.
  destruct (putint_spec size Hs) as (k & _ & Hk & _ & _ & Hi). case_if; lia.
Qed.

Lemma encStr_length_le b :
  Z.of_nat (length b) < two64 → Z.of_nat (length (encStr b)) <= Z.of_nat (length b) + 9.
Proof.
  intros Hl. unfold encStr. destruct b as [|c [|d b]].
  - done.
  - case_if; done.
  - rewrite length_app. pose proof (puthead_length_le 0x80 0xB7 (Z.of_nat (length (c :: d :: b)))). lia.
Qed.

Lemma encList_length_le content :
  Z.of_nat (length content) < two64 →
  Z.of_nat (length content) + 1 <= Z.of_nat (length (encList content)) <= Z.of_nat (length content) + 9.
Proof.
  intros Hl. unfold encList. rewrite length_app.
  pose proof (puthead_length_le 0xC0 0xF7 (Z.of_nat (length content))). lia.
Qed.

(** A list written piece by piece into a fresh buffer. *)
Lemma list_of_writes elems :
  Z.of_nat (length (concat elems)) < two64 →
  makeBytes <$> listEnd (foldl eb_Write (eb_list emptyBuffer).2 elems) (eb_list emptyBuffer).1
  = Some (encList (concat elems)).
Proof.
  intros Hl. assert (E : ∀ buf, foldl eb_Write buf elems
    = {| ebstr := ebstr buf ++ concat elems; lheads := lheads buf; lhsize := lhsize buf |}).
  { clear. induction elems as [|e elems IH]; intros buf; cbn; [by rewrite app_nil_r; destruct buf|].
    rewrite IH. cbn. by rewrite <- app_assoc. }
  rewrite E. cbn -[Z.of_nat puthead]. unfold eb_size. cbn -[Z.of_nat puthead].
  unfold makeBytes. cbn -[Z.of_nat puthead]. rewrite take_0. cbn -[Z.of_nat puthead].
  unfold listhead_encode, encList. cbn -[Z.of_nat puthead]. do 3 f_equal. lia.
Qed.
End RLP.
