(* ===== verification/RLPStream.v ===== *)
(** * The streaming RLP decoder

    The [Stream] of [rlp/decode.go] over a byte slice: the value ahead is peeked
    at and cached, nested lists keep a stack of limits, and every read is checked
    against the innermost limit and the remaining input.

    The top of the stack of limits is the head of the list. *)

From S2P Require Import Prelude Bytes RLP.
Import RLP.

Module RLPStream.

(** ** Data *)

(** The messages of [decodeError]; type and context are left out. *)
Inductive decodeMsg :=
| MsgCanonInt | MsgCanonSize | MsgExpectedList | MsgExpectedString
| MsgTooLong | MsgTooShort | MsgTooMany | MsgTooFew | MsgNilKind | MsgBool.

Inductive streamError :=
| sEOL
| sEOF
| sUnexpectedEOF
| sCanonSize
| sCanonInt
| sElemTooLarge
| sValueTooLarge
| sExpectedString
| sExpectedList
| sUintOverflow
| sUint256Large
| sNotInList
| sNotAtEOL
| sMoreThanOneValue
| sWrongSize
| sPanic
| sDecode (msg : decodeMsg).

(** [kind] is -1 in the source when nothing is cached; [sr] is the [sliceReader]. *)
Record Stream := {
  sr : bytes;
  remaining : Z;
  ssize : Z;
  kinderr : option streamError;
  stack : list Z;
  skind : option Kind;
  byteval : Z;
  limited : bool;
}.

(** Reading functions: a result, and the stream afterwards. *)
Definition D (A : Type) : Type := Stream → result streamError A * Stream.

#[global] Instance D_ret : MRet D := λ A a s, (Ok a, s).
#[global] Instance D_bind : MBind D := λ A B f m s,
  match m s with
  | (Ok a, s) => f a s
  | (Err e, s) => (Err e, s)
  end.

Definition fail {A} (e : streamError) : D A := λ s, (Err e, s).

(** [s.kind = -1] *)
Definition rearm (s : Stream) : Stream :=
  {| sr := s.(sr); remaining := s.(remaining); ssize := s.(ssize); kinderr := s.(kinderr); stack := s.(stack);
     skind := None; byteval := s.(byteval); limited := s.(limited) |}.

Definition set_stack (st : list Z) (s : Stream) : Stream :=
  {| sr := s.(sr); remaining := s.(remaining); ssize := s.(ssize); kinderr := s.(kinderr); stack := st;
     skind := s.(skind); byteval := s.(byteval); limited := s.(limited) |}.

Definition set_remaining (n : Z) (s : Stream) : Stream :=
  {| sr := s.(sr); remaining := n; ssize := s.(ssize); kinderr := s.(kinderr); stack := s.(stack);
     skind := s.(skind); byteval := s.(byteval); limited := s.(limited) |}.

Definition set_sr (r : bytes) (s : Stream) : Stream :=
  {| sr := r; remaining := s.(remaining); ssize := s.(ssize); kinderr := s.(kinderr); stack := s.(stack);
     skind := s.(skind); byteval := s.(byteval); limited := s.(limited) |}.

Definition set_byteval (b : Z) (s : Stream) : Stream :=
  {| sr := s.(sr); remaining := s.(remaining); ssize := s.(ssize); kinderr := s.(kinderr); stack := s.(stack);
     skind := s.(skind); byteval := b; limited := s.(limited) |}.

Definition set_size (n : Z) (s : Stream) : Stream :=
  {| sr := s.(sr); remaining := s.(remaining); ssize := n; kinderr := s.(kinderr); stack := s.(stack);
     skind := s.(skind); byteval := s.(byteval); limited := s.(limited) |}.

(** [s.kind, s.size, s.kinderr = ...] *)
Definition set_ahead (k : Kind) (size : Z) (e : option streamError) (s : Stream) : Stream :=
  {| sr := s.(sr); remaining := s.(remaining); ssize := size; kinderr := e; stack := s.(stack);
     skind := Some k; byteval := s.(byteval); limited := s.(limited) |}.

(** ** Operations *)

(** [Reset] on a [sliceReader], which is none of the readers whose length is
    discovered: without a limit the stream is not limited. *)
Definition Reset (s : Stream) (r : bytes) (inputLimit : Z) : Stream :=
  {| sr := r; remaining := if 0 <? inputLimit then inputLimit else s.(remaining); ssize := 0; kinderr := None;
     stack := []; skind := None; byteval := 0; limited := 0 <? inputLimit |}.

Definition listLimit (s : Stream) : bool * Z :=
  match s.(stack) with
  | [] => (false, 0)
  | l :: _ => (true, l)
  end.

(** The subtractions are guarded and do not wrap. *)
Definition willRead (n : Z) : D unit := λ s,
  let s := rearm s in
  match s.(stack) with
  | l :: st =>
      if l <? n then (Err sElemTooLarge, s)
      else
        let s := set_stack ((l - n) :: st) s in
        if s.(limited) then
          if s.(remaining) <? n then (Err sValueTooLarge, s) else (Ok (), set_remaining (s.(remaining) - n) s)
        else (Ok (), s)
  | [] =>
      if s.(limited) then
        if s.(remaining) <? n then (Err sValueTooLarge, s) else (Ok (), set_remaining (s.(remaining) - n) s)
      else (Ok (), s)
  end.

(** [sliceReader.Read], as often as [readFull] calls it *)
Definition sliceRead (n : Z) : D bytes := λ s,
  if n <=? Z.of_nat (length s.(sr)) then (Ok (take (Z.to_nat n) s.(sr)), set_sr (drop (Z.to_nat n) s.(sr)) s)
  else (Err sUnexpectedEOF, set_sr [] s).

Definition readFull (n : Z) : D bytes := _ ← willRead n; sliceRead n.

Definition sliceReadByte : D Z := λ s,
  match s.(sr) with
  | [] => (Err sUnexpectedEOF, s)
  | b :: r => (Ok b, set_sr r s)
  end.

Definition readByte : D Z := _ ← willRead 1; sliceReadByte.

(** [readUint] for sizes up to 8; a larger size panics *)
Definition readUint (size : Z) : D Z :=
  if size =? 0 then (λ s, (Ok 0, rearm s))
  else if size =? 1 then readByte
  else if 8 <? size then fail sPanic
  else
    b ← readFull size;
    if default 0 (head b) =? 0 then fail sCanonSize else mret (be_value b).

(** [size, err = s.readUint(n)], with the check both large tags make *)
Definition readLargeSize (k : Kind) (n : Z) (s : Stream) : Kind * Z * option streamError * Stream :=
  match readUint n s with
  | (Ok size, s) => (k, size, if size <? 56 then Some sCanonSize else None, s)
  | (Err e, s) => (k, 0, Some e, s)
  end.

(** [readKind]: kind and size are returned along with the error *)
Definition stream_readKind (s : Stream) : Kind * Z * option streamError * Stream :=
  match readByte s with
  | (Err e, s) =>
      let e := match s.(stack), e with
               | [], sUnexpectedEOF | [], sValueTooLarge => sEOF
               | _, e => e
               end in
      (Byte, 0, Some e, s)
  | (Ok b, s) =>
      let s := set_byteval 0 s in
      if b <? 0x80 then (Byte, 0, None, set_byteval b s)
      else if b <? 0xB8 then (String_, b - 0x80, None, s)
      else if b <? 0xC0 then readLargeSize String_ (b - 0xB7) s
      else if b <? 0xF8 then (List_, b - 0xC0, None, s)
      else readLargeSize List_ (b - 0xF7) s
  end.

(** [Kind] *)
Definition peek : D (Kind * Z) := λ s,
  match s.(skind) with
  | Some k => (match s.(kinderr) with None => Ok (k, s.(ssize)) | Some e => Err e end, s)
  | None =>
      let '(inList, limit) := listLimit s in
      if inList && (limit =? 0) then (Err sEOL, s)
      else
        let '(k, size, e, s) := stream_readKind s in
        let e := match e with
                 | Some e => Some e
                 | None =>
                     if inList && (limit <? size) then Some sElemTooLarge
                     else if s.(limited) && (s.(remaining) <? size) then Some sValueTooLarge
                     else None
                 end in
        (match e with None => Ok (k, size) | Some e => Err e end, set_ahead k size e s)
  end.

Definition rearmed : D unit := λ s, (Ok (), rearm s).
Definition getByteval : D Z := λ s, (Ok s.(byteval), s).

(** The byte that the tag itself holds. *)
Definition takeByteval : D Z := b ← getByteval; _ ← rearmed; mret b.

(** [size == 1 && b[0] < 128] *)
Definition shortByte (size : Z) (b : bytes) : bool := (size =? 1) && (default 0 (head b) <? 128).

Definition stream_Bytes : D bytes :=
  '(k, size) ← peek;
  match k with
  | Byte => b ← takeByteval; mret [b]
  | String_ => b ← readFull size; if shortByte size b then fail sCanonSize else mret b
  | List_ => fail sExpectedString
  end.

(** [ReadBytes] into a slice of length [n] *)
Definition ReadBytes (n : nat) : D bytes :=
  '(k, size) ← peek;
  match k with
  | Byte => if (n =? 1)%nat then b ← takeByteval; mret [b] else fail sWrongSize
  | String_ =>
      if negb (Z.of_nat n =? size) then fail sWrongSize
      else b ← readFull size; if shortByte size b then fail sCanonSize else mret b
  | List_ => fail sExpectedString
  end.

Definition Raw : D bytes :=
  '(k, size) ← peek;
  match k with
  | Byte => b ← takeByteval; mret [b]
  | String_ => b ← readFull size; mret (puthead 0x80 0xB7 size ++ b)
  | List_ => b ← readFull size; mret (puthead 0xC0 0xF7 size ++ b)
  end.

(** [readUint] with the error renamed for integers. *)
Definition readInt (size : Z) : D Z := λ s,
  match readUint size s with
  | (Err sCanonSize, s) => (Err sCanonInt, s)
  | r => r
  end.

Definition stream_uint (maxbits : Z) : D Z :=
  '(k, size) ← peek;
  match k with
  | Byte => b ← getByteval; if b =? 0 then fail sCanonInt else takeByteval
  | String_ =>
      if maxbits / 8 <? size then fail sUintOverflow
      else v ← readInt size; if (0 <? size) && (v <? 128) then fail sCanonSize else mret v
  | List_ => fail sExpectedString
  end.

Definition stream_Bool : D bool :=
  num ← stream_uint 8;
  if num =? 0 then mret false else if num =? 1 then mret true else fail (sDecode MsgBool).

Definition stream_List : D Z :=
  '(k, size) ← peek;
  match k with
  | List_ => λ s,
      let st := match s.(stack) with
                | limit :: st => (limit -₆₄ size) :: st
                | [] => []
                end in
      (Ok size, set_size 0 (rearm (set_stack (size :: st) s)))
  | _ => fail sExpectedList
  end.

Definition ListEnd : D unit := λ s,
  match s.(stack) with
  | [] => (Err sNotInList, s)
  | limit :: st => if 0 <? limit then (Err sNotAtEOL, s) else (Ok (), set_size 0 (rearm (set_stack st s)))
  end.

Definition MoreDataInList (s : Stream) : bool := 0 <? (listLimit s).2.

(** The bytes of an integer: [decodeBigInt] and [ReadUint256] differ in the sizes
    they take. *)
Definition intBuffer (large : bool) : D bytes :=
  '(k, size) ← peek;
  match k with
  | List_ => fail sExpectedString
  | Byte => b ← takeByteval; mret [b]
  | String_ =>
      if size =? 0 then _ ← rearmed; mret []
      else if size <=? 32 then b ← readFull size; if shortByte size b then fail sCanonSize else mret b
      else if large then readFull size else fail sUint256Large
  end.

(** [len(buffer) > 0 && buffer[0] == 0] *)
Definition leadingZero (b : bytes) : bool := match b with c :: _ => c =? 0 | [] => false end.

Definition stream_decodeBigInt : D Z :=
  b ← intBuffer true; if leadingZero b then fail sCanonInt else mret (be_value b).

Definition ReadUint256 : D Z :=
  b ← intBuffer false; if leadingZero b then fail sCanonInt else mret (be_value b).

(** ** States *)

(** The input and the limits; the stream is limited to its input. *)
Definition pos (s : Stream) (r : bytes) (st : list Z) : Prop :=
  s.(sr) = r ∧ s.(stack) = st ∧ s.(remaining) = Z.of_nat (length r) ∧ s.(limited) = true.

(** Before a value. *)
Definition at_ (s : Stream) (r : bytes) (st : list Z) : Prop := pos s r st ∧ s.(skind) = None.

(** After the tag of a value. *)
Definition ahead (s : Stream) (k : Kind) (size bv : Z) (r : bytes) (st : list Z) : Prop :=
  pos s r st ∧ s.(skind) = Some k ∧ s.(ssize) = size ∧ s.(kinderr) = None ∧ (k = Byte → s.(byteval) = bv).

(** [n] bytes fit into the innermost list. *)
Definition fits (n : Z) (st : list Z) : Prop := match st with [] => True | l :: _ => n <= l end.

Definition less (n : Z) (st : list Z) : list Z := match st with [] => [] | l :: st => (l - n) :: st end.

Lemma less_less m n st : less m (less n st) = less (n + m) st.
Proof. destruct st; [done|]. cbn. f_equal. lia. Qed.

Lemma less_0 st : less 0 st = st.
Proof. destruct st; [done|]. cbn. f_equal. lia. Qed.

Lemma fits_split m n st : 0 <= m → fits (n + m) st → fits n st ∧ fits m (less n st).
Proof. destruct st; cbn; lia. Qed.

Lemma willRead_ok n s r st :
  pos s r st → n <= Z.of_nat (length r) → fits n st →
  ∃ s', willRead n s = (Ok (), s') ∧ s'.(sr) = r ∧ s'.(stack) = less n st ∧ s'.(remaining) = Z.of_nat (length r) - n
    ∧ s'.(limited) = true ∧ s'.(skind) = None ∧ s'.(byteval) = s.(byteval).
Proof.
  intros (Hr & Hst & Hrem & Hlim) Hn Hf. unfold willRead. cbn [stack rearm]. rewrite Hst.
  destruct st as [|l st]; cbn [fits less] in *; cbn [limited remaining rearm set_stack]; rewrite ?Hlim, ?Hrem.
  - rewrite (proj2 (Z.ltb_ge _ _)) by lia. eexists. split; [done|]. cbn. by rewrite Hst.
  - rewrite !(proj2 (Z.ltb_ge _ _)) by lia. eexists. split; [done|]. done.
Qed.

Lemma willRead_inv n s r st s' :
  pos s r st → willRead n s = (Ok (), s') → n <= Z.of_nat (length r) ∧ fits n st.
Proof.
  intros (Hr & Hst & Hrem & Hlim). unfold willRead. cbn [stack rearm]. rewrite Hst.
  destruct st as [|l st]; cbn [fits]; cbn [limited remaining rearm set_stack]; rewrite ?Hlim, ?Hrem; repeat case_if; try done; lia.
Qed.

Lemma readFull_ok n s r st :
  pos s r st → 0 <= n <= Z.of_nat (length r) → fits n st →
  ∃ s', readFull n s = (Ok (take (Z.to_nat n) r), s') ∧ at_ s' (drop (Z.to_nat n) r) (less n st) ∧ s'.(byteval) = s.(byteval).
Proof.
  intros Hp Hn Hf. destruct (willRead_ok n s r st Hp) as (s1 & E & H1 & H2 & H3 & H4 & H5 & H6); [lia|done|].
  unfold readFull, mbind, D_bind. rewrite E. unfold sliceRead. rewrite H1, (proj2 (Z.leb_le _ _)) by lia.
  eexists. split; [done|]. split; [|done]. repeat split; cbn; [done| |done|done]. rewrite H3, length_drop. lia.
Qed.

Lemma readFull_inv n s r st b s' :
  pos s r st → 0 <= n → readFull n s = (Ok b, s') →
  n <= Z.of_nat (length r) ∧ fits n st ∧ b = take (Z.to_nat n) r ∧ at_ s' (drop (Z.to_nat n) r) (less n st)
  ∧ s'.(byteval) = s.(byteval).
Proof.
  intros Hp Hn E. assert (Hok : n <= Z.of_nat (length r) ∧ fits n st).
  { unfold readFull, mbind, D_bind in E. destruct (willRead n s) as [[[]|] s1] eqn:Ew; [|done]. by eapply willRead_inv. }
  destruct Hok as [Hl Hf]. destruct (readFull_ok n s r st Hp) as (s1 & E1 & ?); [lia|done|].
  rewrite E1 in E. injection E as <- <-. done.
Qed.

Lemma readByte_ok s c r st :
  pos s (c :: r) st → fits 1 st →
  ∃ s', readByte s = (Ok c, s') ∧ at_ s' r (less 1 st) ∧ s'.(byteval) = s.(byteval).
Proof.
  intros Hp Hf. destruct (willRead_ok 1 s (c :: r) st Hp) as (s1 & E & H1 & H2 & H3 & H4 & H5 & H6); [cbn; lia|done|].
  unfold readByte, mbind, D_bind. rewrite E. unfold sliceReadByte. rewrite H1.
  eexists. split; [done|]. split; [|done]. repeat split; cbn; [done| |done|done]. rewrite H3. cbn [length]. lia.
Qed.

Lemma readByte_inv s r st c s' :
  pos s r st → readByte s = (Ok c, s') →
  ∃ r', r = c :: r' ∧ fits 1 st ∧ at_ s' r' (less 1 st) ∧ s'.(byteval) = s.(byteval).
Proof.
  intros Hp E. assert (Hok : 1 <= Z.of_nat (length r) ∧ fits 1 st).
  { unfold readByte, mbind, D_bind in E. destruct (willRead 1 s) as [[[]|] s1] eqn:Ew; [|done]. by eapply willRead_inv. }
  destruct Hok as [Hl Hf]. destruct r as [|c' r]; [cbn in Hl; lia|].
  destruct (readByte_ok s c' r st Hp Hf) as (s1 & E1 & ?). rewrite E1 in E. injection E as <- <-. eauto.
Qed.

(** ** Tags *)

Definition tag (k : Kind) (size bv : Z) : bytes :=
  match k with
  | Byte => [bv]
  | String_ => puthead 0x80 0xB7 size
  | List_ => puthead 0xC0 0xF7 size
  end.

Definition tag_ok (k : Kind) (size bv : Z) : Prop :=
  match k with Byte => 0 <= bv < 128 ∧ size = 0 | _ => 0 <= size < two64 end.

Lemma readUint_putint i s rest st :
  0 < i < two64 → pos s (putint i ++ rest) st → fits (Z.of_nat (length (putint i))) st →
  ∃ s', readUint (Z.of_nat (length (putint i))) s = (Ok i, s')
    ∧ at_ s' rest (less (Z.of_nat (length (putint i))) st) ∧ s'.(byteval) = s.(byteval).
Proof.
  intros Hi Hp Hf. pose proof (putint_head i Hi) as Hh. destruct (putint_spec i) as (n & E & Hn & Hhi & _); [lia|].
  rewrite E in *. rewrite length_be_bytes in *. unfold readUint. rewrite (proj2 (Z.eqb_neq _ _)) by lia.
  destruct (Z.eqb_spec (Z.of_nat n) 1) as [En|En].
  - assert (n = 1%nat) as -> by lia. cbn [be_bytes to_digits app Z.of_nat] in *. change (i / 256 mod 1) with 0 in *.
    destruct (readByte_ok s (i mod 256) rest st) as (s' & E' & Hs'); [exact Hp|done|].
    exists s'. rewrite E'. split; [|done]. rewrite Z.mod_small by (cbn in Hhi; lia). done.
  - rewrite (proj2 (Z.ltb_ge _ _)) by lia.
    destruct (readFull_ok (Z.of_nat n) s (be_bytes n i ++ rest) st Hp) as (s' & E' & Hat & Hbv); [|done|].
    { rewrite length_app, length_be_bytes. lia. }
    rewrite Nat2Z.id in *.
    assert (Ht : take n (be_bytes n i ++ rest) = be_bytes n i) by (rewrite take_app_length'; [done|by rewrite length_be_bytes]).
    assert (Hd : drop n (be_bytes n i ++ rest) = rest) by (rewrite drop_app_length'; [done|by rewrite length_be_bytes]).
    unfold mbind, D_bind. rewrite E', Ht. rewrite (proj2 (Z.eqb_neq _ _) Hh), be_value_bytes by lia. rewrite Hd in Hat. by exists s'.
Qed.

Lemma readUint_inv n s r st i s' :
  1 <= n <= 8 → bytes_ok r → pos s r st → readUint n s = (Ok i, s') → 0 < i →
  ∃ r', r = putint i ++ r' ∧ n = Z.of_nat (length (putint i)) ∧ fits n st ∧ at_ s' r' (less n st) ∧ s'.(byteval) = s.(byteval)
    ∧ i < two64.
Proof.
  intros Hn Hb Hp E Hi. unfold readUint in E. rewrite (proj2 (Z.eqb_neq _ _)) in E by lia.
  destruct (Z.eqb_spec n 1) as [->|Hn1].
  - apply (readByte_inv _ _ _ _ _ Hp) in E as (r' & -> & Hf & Hat & Hbv). apply Forall_cons in Hb as [[? ?] _].
    assert (Ep : putint i = [i]).
    { unfold putint. rewrite (proj2 (Z.ltb_lt _ _)) by lia. cbn. by rewrite Z.mod_small by lia. }
    exists r'. rewrite Ep. split_and!; try done. unfold two64. lia.
  - rewrite (proj2 (Z.ltb_ge _ _)) in E by lia. unfold mbind, D_bind in E.
    destruct (readFull n s) as [[b|] s1] eqn:Er; [|done].
    destruct (Z.eqb_spec (default 0 (head b)) 0) as [|Hh]; [done|]. injection E as <- <-.
    apply (readFull_inv _ _ _ _ _ _ Hp) in Er as (Hl & Hf & -> & Hat & Hbv); [|lia].
    assert (Hlt : length (take (Z.to_nat n) r) = Z.to_nat n) by (rewrite length_take; lia).
    assert (Hbt : bytes_ok (take (Z.to_nat n) r)) by (by apply Forall_take).
    assert (Ep : putint (be_value (take (Z.to_nat n) r)) = take (Z.to_nat n) r) by (apply putint_be_value; [done|lia|done]).
    exists (drop (Z.to_nat n) r). rewrite Ep, Hlt, take_drop. split_and!; try done; [lia|].
    pose proof (be_value_bound _ Hbt) as Hbd. rewrite Hlt, Z2Nat.id in Hbd by lia.
    change two64 with (256 ^ 8). assert (256 ^ n <= 256 ^ 8) by (apply Z.pow_le_mono_r; lia). lia.
Qed.

Lemma readKind_ok k size bv s rest st :
  tag_ok k size bv → pos s (tag k size bv ++ rest) st → fits (Z.of_nat (length (tag k size bv))) st →
  ∃ s', stream_readKind s = (k, size, None, s') ∧ at_ s' rest (less (Z.of_nat (length (tag k size bv))) st)
    ∧ (k = Byte → s'.(byteval) = bv).
Proof.
  assert (Hset : ∀ s r st b, at_ s r st → at_ (set_byteval b s) r st) by done.
  intros Hok Hp Hf. unfold stream_readKind.
  assert (Hlarge : ∀ t l, k ≠ Byte → tag k size bv = puthead t l size → 56 <= size →
    ∃ n s1 s2, (1 <= n <= 8) ∧ readByte s = (Ok (l + n), s1) ∧ readUint n (set_byteval 0 s1) = (Ok size, s2)
      ∧ at_ s2 rest (less (Z.of_nat (length (tag k size bv))) st)).
  { intros t l Hk Ht H56. rewrite Ht in *. unfold puthead in *. rewrite (proj2 (Z.ltb_ge _ _)) in * by lia.
    assert (Hsz : 0 < size < two64) by (destruct k; [done|cbn in Hok; lia..]).
    cbn [length app] in *. rewrite Nat2Z.inj_succ in *.
    destruct (readByte_ok _ _ _ _ Hp) as (s1 & E1 & Hat1 & _); [destruct st; [done|]; cbn in *; lia|].
    destruct (putint_spec size) as (n & En & Hn & _); [lia|].
    destruct (readUint_putint size (set_byteval 0 s1) rest (less 1 st)) as (s2 & E2 & Hat2 & _);
      [done|apply (Hset _ _ _ _ Hat1)|destruct st; [done|]; cbn in *; lia|].
    exists (Z.of_nat (length (putint size))), s1, s2. split; [rewrite En, length_be_bytes; lia|].
    split; [done|]. split; [done|]. rewrite less_less in Hat2. by replace (Z.succ _) with (1 + Z.of_nat (length (putint size))) by lia. }
  destruct k; cbn [tag tag_ok] in *.
  - destruct Hok as [Hbv ->]. destruct (readByte_ok s bv rest st Hp Hf) as (s1 & E1 & Hat & _). rewrite E1.
    rewrite (proj2 (Z.ltb_lt bv 0x80)) by lia. eexists. split; [done|]. by split; [apply Hset, Hset|].
  - destruct (Z.ltb_spec size 56) as [Hs|Hs].
    + unfold puthead in *. rewrite (proj2 (Z.ltb_lt _ _)) in * by done.
      destruct (readByte_ok s _ rest st Hp Hf) as (s1 & E1 & Hat & _). rewrite E1.
      rewrite (proj2 (Z.ltb_ge _ 0x80)), (proj2 (Z.ltb_lt _ 0xB8)) by lia.
      replace (0x80 + size - 0x80) with size by lia. eexists. split; [done|]. by split; [apply Hset|].
    + destruct (Hlarge 0x80 0xB7) as (n & s1 & s2 & Hn & E1 & E2 & Hat); [done..|]. rewrite E1.
      rewrite (proj2 (Z.ltb_ge _ 0x80)), (proj2 (Z.ltb_ge _ 0xB8)), (proj2 (Z.ltb_lt _ 0xC0)) by lia.
      replace (0xB7 + n - 0xB7) with n by lia. unfold readLargeSize. rewrite E2, (proj2 (Z.ltb_ge _ _)) by lia. by exists s2.
  - destruct (Z.ltb_spec size 56) as [Hs|Hs].
    + unfold puthead in *. rewrite (proj2 (Z.ltb_lt _ _)) in * by done.
      destruct (readByte_ok s _ rest st Hp Hf) as (s1 & E1 & Hat & _). rewrite E1.
      rewrite (proj2 (Z.ltb_ge _ 0x80)), (proj2 (Z.ltb_ge _ 0xB8)), (proj2 (Z.ltb_ge _ 0xC0)), (proj2 (Z.ltb_lt _ 0xF8)) by lia.
      replace (0xC0 + size - 0xC0) with size by lia. eexists. split; [done|]. by split; [apply Hset|].
    + destruct (Hlarge 0xC0 0xF7) as (n & s1 & s2 & Hn & E1 & E2 & Hat); [done..|]. rewrite E1.
      rewrite (proj2 (Z.ltb_ge _ 0x80)), (proj2 (Z.ltb_ge _ 0xB8)), (proj2 (Z.ltb_ge _ 0xC0)), (proj2 (Z.ltb_ge _ 0xF8)) by lia.
      replace (0xF7 + n - 0xF7) with n by lia. unfold readLargeSize. rewrite E2, (proj2 (Z.ltb_ge _ _)) by lia. by exists s2.
Qed.

Lemma stream_readKind_inv k size s r st s' :
  bytes_ok r → pos s r st → stream_readKind s = (k, size, None, s') →
  ∃ bv r', tag_ok k size bv ∧ r = tag k size bv ++ r' ∧ fits (Z.of_nat (length (tag k size bv))) st
    ∧ at_ s' r' (less (Z.of_nat (length (tag k size bv))) st) ∧ (k = Byte → s'.(byteval) = bv).
Proof.
  assert (Hset : ∀ s r st b, at_ s r st → at_ (set_byteval b s) r st) by done.
  intros Hb Hp E. unfold stream_readKind in E.
  destruct (readByte s) as [[c|e] s1] eqn:E1; [|by destruct (stack s1), e].
  apply (readByte_inv _ _ _ _ _ Hp) in E1 as (r1 & -> & Hf & Hat & _).
  apply Forall_cons in Hb as [[Hc0 Hc1] Hb1].
  assert (Hlarge : ∀ k0 t l, readLargeSize k0 (c - l) (set_byteval 0 s1) = (k, size, None, s') → 1 <= c - l <= 8 → k0 ≠ Byte →
     (∀ sz bv, tag k0 sz bv = puthead t l sz) →
     ∃ r', k = k0 ∧ 0 <= size < two64 ∧ c :: r1 = puthead t l size ++ r' ∧ fits (Z.of_nat (length (puthead t l size))) st
        ∧ at_ s' r' (less (Z.of_nat (length (puthead t l size))) st)).
  { intros k0 t l El Hl Hk0 Ht. unfold readLargeSize in El.
    destruct (readUint (c - l) (set_byteval 0 s1)) as [[sz|] s2] eqn:Eu; [|done].
    destruct (Z.ltb_spec sz 56) as [|H56]; [done|]. injection El as <- <- <-.
    destruct (readUint_inv (c - l) (set_byteval 0 s1) r1 (less 1 st) sz s2 Hl Hb1 (proj1 Hat) Eu ltac:(lia))
      as (r2 & Er & Elen & Hf2 & Hat2 & _ & H64).
    exists r2. unfold puthead. rewrite (proj2 (Z.ltb_ge _ _)) by done. cbn [length app]. rewrite less_less in Hat2.
    split; [done|]. split; [lia|]. split; [rewrite Er; f_equal; lia|].
    rewrite Nat2Z.inj_succ, <- Elen. replace (Z.succ (c - l)) with (1 + (c - l)) by lia.
    split; [|done]. destruct st; [done|]. cbn in *. lia. }
  assert (Hsmall : ∀ t l, t <= c < t + 56 → puthead t l (c - t) = [c]).
  { intros t l Ht. unfold puthead. rewrite (proj2 (Z.ltb_lt _ _)) by lia. f_equal. lia. }
  cbn zeta in E. repeat (case_if_in E).
  - injection E as <- <- <-. exists c, r1. split; [cbn; lia|]. by split_and!; [| |apply Hset, Hset|].
  - injection E as <- <- <-. exists 0, r1. cbn [tag tag_ok]. rewrite (Hsmall 0x80 0xB7) by lia. split; [unfold two64; lia|]. by split_and!; [| |apply Hset|].
  - apply (Hlarge String_ 0x80 0xB7) in E as (r2 & -> & H64 & -> & Hf2 & Hat2); [|lia|done|done]. exists 0, r2. by split_and!.
  - injection E as <- <- <-. exists 0, r1. cbn [tag tag_ok]. rewrite (Hsmall 0xC0 0xF7) by lia. split; [unfold two64; lia|]. by split_and!; [| |apply Hset|].
  - apply (Hlarge List_ 0xC0 0xF7) in E as (r2 & -> & H64 & -> & Hf2 & Hat2); [|lia|done|done]. exists 0, r2. by split_and!.
Qed.

(** ** The value ahead *)

Lemma bind_Ok {A B} (m : D A) (f : A → D B) s a s' : m s = (Ok a, s') → (m ≫= f) s = f a s'.
Proof. intros E. unfold mbind, D_bind. by rewrite E. Qed.

Lemma bind_Ok_inv {A B} (m : D A) (f : A → D B) s b s' :
  (m ≫= f) s = (Ok b, s') → ∃ a s1, m s = (Ok a, s1) ∧ f a s1 = (Ok b, s').
Proof. unfold mbind, D_bind. destruct (m s) as [[a|] s1]; [eauto|done]. Qed.

Lemma tag_length k size bv : 1 <= Z.of_nat (length (tag k size bv)).
Proof. destruct k; cbn; [lia|..]; unfold puthead; case_if; cbn; lia. Qed.

Lemma peek_ok k size bv s rest st :
  tag_ok k size bv → at_ s (tag k size bv ++ rest) st → size <= Z.of_nat (length rest) →
  fits (Z.of_nat (length (tag k size bv)) + size) st →
  ∃ s1, peek s = (Ok (k, size), s1) ∧ ahead s1 k size bv rest (less (Z.of_nat (length (tag k size bv))) st).
Proof.
  intros Hok [Hp Hk] Hsz Hf. pose proof (tag_length k size bv) as Hl.
  assert (Hsz0 : 0 <= size) by (destruct k; cbn in Hok; lia).
  destruct (readKind_ok k size bv s rest st) as (s1 & E & [Hp1 _] & Hbv); [done|done|destruct st; [done|]; cbn in *; lia|].
  unfold peek. rewrite Hk, E. unfold listLimit. rewrite (proj1 (proj2 Hp)).
  assert (Hrem : (remaining s1 <? size) = false).
  { destruct Hp1 as (_ & _ & -> & _). apply Z.ltb_ge. lia. }
  assert (Hah : ahead (set_ahead k size None s1) k size bv rest (less (Z.of_nat (length (tag k size bv))) st)) by (by split).
  destruct st as [|l st]; cbn [andb].
  - rewrite Hrem, andb_false_r. by eexists.
  - cbn [fits] in Hf. rewrite (proj2 (Z.eqb_neq _ _)), (proj2 (Z.ltb_ge _ _)), Hrem, andb_false_r by lia. by eexists.
Qed.

Lemma peek_inv s r st k size s1 :
  bytes_ok r → at_ s r st → peek s = (Ok (k, size), s1) →
  ∃ bv rest, tag_ok k size bv ∧ r = tag k size bv ++ rest ∧ size <= Z.of_nat (length rest)
    ∧ fits (Z.of_nat (length (tag k size bv))) st
    ∧ ahead s1 k size bv rest (less (Z.of_nat (length (tag k size bv))) st).
Proof.
  intros Hb [Hp Hk] E. unfold peek in E. rewrite Hk in E. destruct (listLimit s) as [inList limit].
  destruct (inList && (limit =? 0)); [done|]. destruct (stream_readKind s) as [[[k' sz] e] s2] eqn:Er.
  destruct e as [e|]; [done|]. destruct (inList && (limit <? sz)); [done|].
  destruct (limited s2 && (remaining s2 <? sz)) eqn:El; [done|]. injection E as <- <- <-.
  apply (stream_readKind_inv _ _ _ _ _ _ Hb Hp) in Er as (bv & rest & Hok & -> & Hf & [Hp2 _] & Hbv).
  exists bv, rest. split_and!; [done|done| |done|by split].
  destruct Hp2 as (_ & _ & Hrem & Hlim). rewrite Hlim, Hrem in El. cbn in El. by apply Z.ltb_ge.
Qed.

(** A second look finds the cached answer. *)
Lemma peek_again s ks s1 : peek s = (Ok ks, s1) → peek s1 = (Ok ks, s1).
Proof.
  unfold peek. destruct (skind s) as [k|] eqn:Hk.
  - intros [= E <-]. by rewrite Hk, E.
  - destruct (listLimit s) as [inList limit]. destruct (inList && (limit =? 0)); [done|].
    destruct (stream_readKind s) as [[[k' sz] e] s2]. intros [= E <-]. cbn. by rewrite E.
Qed.

(** *** The end of a list *)

(** Errors other than the end of a list and a panic. *)
Definition loud (e : streamError) : Prop := e ≠ sEOL ∧ e ≠ sPanic.

Lemma bind_Err {A B} (m : D A) (f : A → D B) s e s' :
  (m ≫= f) s = (Err e, s') → m s = (Err e, s') ∨ ∃ a s1, m s = (Ok a, s1) ∧ f a s1 = (Err e, s').
Proof. unfold mbind, D_bind. destruct (m s) as [[a|] s1]; [eauto|]. intros [= -> ->]. by left. Qed.

Lemma willRead_err n s e s' : willRead n s = (Err e, s') → loud e.
Proof. unfold willRead. destruct (stack _); repeat case_if; try done; by intros [= <- _]. Qed.

Lemma readFull_err n s e s' : readFull n s = (Err e, s') → loud e.
Proof.
  intros [?%willRead_err|(? & s1 & _ & E)]%bind_Err; [done|]. unfold sliceRead in E. case_if_in E; [done|]. by injection E as <- _.
Qed.

Lemma readByte_err s e s' : readByte s = (Err e, s') → loud e.
Proof.
  intros [?%willRead_err|(? & s1 & _ & E)]%bind_Err; [done|]. unfold sliceReadByte in E.
  destruct (sr s1); [by injection E as <- _|done].
Qed.

Lemma readUint_err n s e s' : n <= 8 → readUint n s = (Err e, s') → loud e.
Proof.
  intros Hn. unfold readUint. case_if; [done|]. case_if; [apply readByte_err|]. case_if; [lia|].
  intros [?%readFull_err|(? & s1 & _ & E)]%bind_Err; [done|]. case_if_in E; [by injection E as <- _|done].
Qed.

Lemma readKind_err s k size e s' :
  (∀ c, head s.(sr) = Some c → c < 256) → stream_readKind s = (k, size, Some e, s') → loud e.
Proof.
  intros Hc. unfold stream_readKind. destruct (readByte s) as [[c|e0] s1] eqn:E.
  - assert (Hl : ∀ k0 n s0, n <= 8 → readLargeSize k0 n s0 = (k, size, Some e, s') → loud e).
    { intros k0 n s0 Hn. unfold readLargeSize. destruct (readUint n s0) as [[sz|e1] s2] eqn:Eu; [case_if|]; [by intros [= _ _ <- _]|done|].
      intros [= _ _ -> _]. by apply readUint_err in Eu. }
    assert (Hc' : c < 256).
    { apply Hc. unfold readByte, mbind, D_bind in E. destruct (willRead 1 s) as [[[]|] s2] eqn:Ew; [|done].
      assert (Hsr : sr s2 = sr s) by (unfold willRead in Ew; destruct (stack _); repeat case_if_in Ew; by simplify_eq).
      unfold sliceReadByte in E. rewrite Hsr in E. destruct (sr s); by simplify_eq. }
    cbn zeta. repeat case_if; try done; apply Hl; lia.
  - intros H. apply readByte_err in E. destruct (stack s1), e0; injection H as _ _ <- _; done.
Qed.

(** Looking ahead fails with a proper error or at the end of a list. *)
Lemma peek_err s r st e s' :
  bytes_ok r → at_ s r st → peek s = (Err e, s') → loud e ∨ e = sEOL ∧ s' = s ∧ ∃ st0, st = 0 :: st0.
Proof.
  intros Hb [(Hr & Hst & _) Hk]. assert (Hc : ∀ c, head (sr s) = Some c → c < 256).
  { intros c. rewrite Hr. destruct Hb as [|d r [? ?]]; [done|]. by intros [= <-]. }
  unfold peek, listLimit. rewrite Hk, Hst. destruct st as [|l st]; cbn [andb].
  - destruct (stream_readKind s) as [[[k' sz] [e'|]] s2] eqn:Er.
    + intros [= -> _]. left. by eapply readKind_err.
    + repeat case_if; try done; intros [= <- _]; by left.
  - destruct (Z.eqb_spec l 0) as [->|]; [intros [= <- <-]; right; eauto|].
    destruct (stream_readKind s) as [[[k' sz] [e'|]] s2] eqn:Er.
    + intros [= -> _]. left. by eapply readKind_err.
    + repeat case_if; try done; intros [= <- _]; by left.
Qed.

Lemma peek_at_end s r st : at_ s r (0 :: st) → peek s = (Err sEOL, s).
Proof. intros [(_ & Hst & _) Hk]. unfold peek, listLimit. by rewrite Hk, Hst. Qed.

(** *** Strings *)

Lemma takeByteval_ok s k size bv r st :
  ahead s k size bv r st → k = Byte → ∃ s', takeByteval s = (Ok bv, s') ∧ at_ s' r st.
Proof. intros (Hp & _ & _ & _ & Hbv) Hk. exists (rearm s). split; [|by split]. unfold takeByteval, mbind, D_bind. cbn. by rewrite Hbv. Qed.

(** How the stream meets a string. *)
Inductive meets_string (s1 : Stream) (b rest : bytes) (st : list Z) : Kind → Z → Prop :=
| meets_byte c :
    b = [c] → 0 <= c < 128 → ahead s1 Byte 0 c rest (less 1 st) → meets_string s1 b rest st Byte 0
| meets_long n bv :
    long_string b → n + Z.of_nat (length b) = Z.of_nat (length (encStr b)) → fits (Z.of_nat (length b)) (less n st) →
    ahead s1 String_ (Z.of_nat (length b)) bv (b ++ rest) (less n st) →
    meets_string s1 b rest st String_ (Z.of_nat (length b)).

Lemma peek_string s b rest st :
  bytes_ok b → Z.of_nat (length b) < two64 → at_ s (encStr b ++ rest) st → fits (Z.of_nat (length (encStr b))) st →
  ∃ k size s1, peek s = (Ok (k, size), s1) ∧ meets_string s1 b rest st k size.
Proof.
  intros Hb Hl Hat Hf. destruct (long_string_dec b Hb) as [Hlong|(c & -> & Hc)].
  - rewrite encStr_long in * by done. set (n := Z.of_nat (length b)) in *. rewrite <- app_assoc in Hat.
    rewrite length_app, Nat2Z.inj_add in Hf. fold n in Hf.
    destruct (peek_ok String_ n 0 s (b ++ rest) st) as (s1 & E & Hah); [cbn; lia|exact Hat|rewrite length_app; lia|exact Hf|].
    exists String_, n, s1. split; [done|]. eapply meets_long; [done| |exact (proj2 (fits_split n _ st ltac:(lia) Hf))|exact Hah].
    rewrite encStr_long, length_app by done. fold n. cbn [tag]. lia.
  - rewrite encStr_small in * by done.
    destruct (peek_ok Byte 0 c s rest st) as (s1 & E & Hah); [cbn; lia|exact Hat|lia|exact Hf|].
    exists Byte, 0, s1. split; [done|]. eapply meets_byte; [done|lia|done].
Qed.

Lemma length_1 {A} (l : list A) : length l = 1%nat → ∃ x, l = [x].
Proof. destruct l as [|x [|]]; try done. eauto. Qed.

Lemma shortByte_false b : shortByte (Z.of_nat (length b)) b = false ↔ long_string b.
Proof.
  unfold shortByte, long_string. destruct b as [|c [|d b]]; cbn [length head default]; [done| |].
  - change (default 0 (Some c)) with c. change (Z.of_nat 1 =? 1) with true. cbn [andb]. apply Z.ltb_ge.
  - rewrite (proj2 (Z.eqb_neq _ _)) by lia. done.
Qed.

(** The string branch of every reader: the bytes, when they are long. *)
Lemma read_long_ok s b bv rest st n :
  ahead s String_ (Z.of_nat (length b)) bv (b ++ rest) (less n st) → fits (Z.of_nat (length b)) (less n st) →
  n + Z.of_nat (length b) = Z.of_nat (length (encStr b)) →
  ∃ s', readFull (Z.of_nat (length b)) s = (Ok b, s') ∧ at_ s' rest (less (Z.of_nat (length (encStr b))) st).
Proof.
  intros (Hp & _) Hf Hn. destruct (readFull_ok (Z.of_nat (length b)) _ _ _ Hp) as (s' & E & Hat & _); [rewrite length_app|exact Hf|].
  { lia. }
  exists s'. rewrite Nat2Z.id, take_app_length in E. rewrite Nat2Z.id, drop_app_length, less_less, Hn in Hat. done.
Qed.

Lemma stream_Bytes_ok s b rest st :
  bytes_ok b → Z.of_nat (length b) < two64 → at_ s (encStr b ++ rest) st → fits (Z.of_nat (length (encStr b))) st →
  ∃ s', stream_Bytes s = (Ok b, s') ∧ at_ s' rest (less (Z.of_nat (length (encStr b))) st).
Proof.
  intros Hb Hl Hat Hf. destruct (peek_string s b rest st Hb Hl Hat Hf) as (k & size & s1 & E & Hm).
  unfold stream_Bytes. rewrite (bind_Ok _ _ _ _ _ E). destruct Hm as [c -> Hc Hah|n bv Hlong Hn Hfn Hah].
  - destruct (takeByteval_ok _ _ _ _ _ _ Hah eq_refl) as (s' & E' & Hat'). rewrite (bind_Ok _ _ _ _ _ E').
    exists s'. rewrite encStr_small by lia. done.
  - destruct (read_long_ok _ _ _ _ _ _ Hah Hfn Hn) as (s' & E' & Hat'). rewrite (bind_Ok _ _ _ _ _ E').
    rewrite (proj2 (shortByte_false b)) by done. by exists s'.
Qed.

(** What a reader of strings takes off the input. *)
Definition took (b : bytes) (s' : Stream) (r : bytes) (st : list Z) : Prop :=
  ∃ r', r = encStr b ++ r' ∧ bytes_ok b ∧ Z.of_nat (length b) < two64 ∧ fits (Z.of_nat (length (encStr b))) st
    ∧ at_ s' r' (less (Z.of_nat (length (encStr b))) st).

Lemma took_byte s r st size s1 s' b :
  bytes_ok r → at_ s r st → peek s = (Ok (Byte, size), s1) → takeByteval s1 = (Ok b, s') → took [b] s' r st ∧ 0 <= b < 128.
Proof.
  intros Hb Hat E E'. destruct (peek_inv _ _ _ _ _ _ Hb Hat E) as (bv & rest & [Hbv ->] & -> & _ & Hf & Hah).
  destruct (takeByteval_ok _ _ _ _ _ _ Hah eq_refl) as (s2 & E2 & Hat2). rewrite E2 in E'. injection E' as -> ->.
  split; [|done]. exists rest. rewrite encStr_small by lia. split_and!; [done| |done..]. apply Forall_singleton. unfold is_byte. lia.
Qed.

Lemma took_long s r st size s1 s' b :
  bytes_ok r → at_ s r st → peek s = (Ok (String_, size), s1) → readFull size s1 = (Ok b, s') →
  Z.of_nat (length b) = size ∧ (long_string b → took b s' r st).
Proof.
  intros Hb Hat E E'. destruct (peek_inv _ _ _ _ _ _ Hb Hat E) as (bv & rest & Hsz & -> & Hle & Hf & Hah).
  destruct Hah as (Hp & _). cbn [tag tag_ok] in *. destruct (readFull_inv size _ _ _ _ _ Hp ltac:(lia) E') as (_ & Hf2 & -> & Hat2 & _).
  cbn [tag tag_ok] in *. apply Forall_app in Hb as [_ Hb].
  assert (Hlen : Z.of_nat (length (take (Z.to_nat size) rest)) = size) by (rewrite length_take; lia).
  split; [done|]. intros Hlong. exists (drop (Z.to_nat size) rest). rewrite encStr_long by done. rewrite Hlen.
  rewrite <- app_assoc, take_drop. split; [done|]. split; [by apply Forall_take|]. split; [lia|].
  rewrite length_app, Nat2Z.inj_add, Hlen. rewrite less_less in Hat2. split; [|done]. destruct st; [done|]. cbn in *. lia.
Qed.

Lemma stream_Bytes_inv s r st b s' :
  bytes_ok r → at_ s r st → stream_Bytes s = (Ok b, s') → took b s' r st.
Proof.
  intros Hb Hat E. unfold stream_Bytes in E. apply bind_Ok_inv in E as ([k size] & s1 & E1 & E). destruct k; [| |done].
  - apply bind_Ok_inv in E as (c & s2 & E2 & [= <- <-]). by eapply took_byte.
  - apply bind_Ok_inv in E as (b' & s2 & E2 & E). destruct (took_long _ _ _ _ _ _ _ Hb Hat E1 E2) as [Hlen Ht].
    destruct (shortByte size b') eqn:Es; [done|]. injection E as <- <-. apply Ht, shortByte_false. by rewrite Hlen.
Qed.

(** *** Integers *)

Lemma min_bytes_count n x : 0 < x → 256 ^ (Z.of_nat n - 1) <= x < 256 ^ Z.of_nat n → min_bytes x = be_bytes n x.
Proof.
  intros Hx [Hlo Hhi]. unfold min_bytes, digits_of, be_bytes. rewrite Z.abs_eq by lia. f_equal.
  destruct (digit_count_bound 256 ltac:(lia) x ltac:(lia)) as [Hhi' Hlo']. specialize (Hlo' Hx).
  set (k := digit_count 256 x) in *. destruct (Nat.lt_trichotomy k n) as [H|[H|H]]; [|done|].
  - assert (256 ^ Z.of_nat k <= 256 ^ (Z.of_nat n - 1)) by (apply Z.pow_le_mono_r; lia). lia.
  - assert (256 ^ Z.of_nat n <= 256 ^ (Z.of_nat k - 1)) by (apply Z.pow_le_mono_r; lia). lia.
Qed.

Lemma min_bytes_be_value b : bytes_ok b → leadingZero b = false → min_bytes (be_value b) = b.
Proof.
  intros Hb Hz. destruct b as [|c b]; [done|]. cbn in Hz. apply Z.eqb_neq in Hz.
  pose proof (be_value_bound _ Hb) as Hhi. pose proof (Forall_inv Hb) as Hc. unfold is_byte in Hc.
  pose proof (be_value_bound _ (Forall_inv_tail Hb)) as Hb'.
  assert (Hlo : 256 ^ Z.of_nat (length b) <= be_value (c :: b)) by (rewrite (be_value_head c b Hb); nia).
  pose proof (Z.pow_pos_nonneg 256 (Z.of_nat (length b)) ltac:(lia) ltac:(lia)).
  rewrite (min_bytes_count (length (c :: b))); [by apply be_bytes_value|lia|].
  cbn [length] in *. replace (Z.of_nat (S (length b)) - 1) with (Z.of_nat (length b)) by lia. lia.
Qed.

Lemma min_bytes_spec x : 0 <= x → be_value (min_bytes x) = x ∧ bytes_ok (min_bytes x) ∧ leadingZero (min_bytes x) = false.
Proof.
  intros Hx. unfold min_bytes. rewrite Z.abs_eq by done.
  split; [by apply digits_of_value|]. split; [apply digits_of_range; lia|].
  destruct (digits_of 256 x) as [|d l] eqn:E; [done|]. cbn. apply Z.eqb_neq. by eapply (digits_of_head 256).
Qed.

Lemma min_bytes_length x n : 0 <= x < 256 ^ Z.of_nat n → (length (min_bytes x) <= n)%nat.
Proof.
  intros Hx. unfold min_bytes, digits_of. rewrite Z.abs_eq, length_to_digits by lia.
  destruct (digit_count_bound 256 ltac:(lia) x ltac:(lia)) as [_ Hlo].
  destruct (decide (digit_count 256 x <= n)%nat) as [|Hn]; [done|]. exfalso.
  destruct (Z.eq_dec x 0) as [->|]; [change (digit_count 256 0) with 0%nat in Hn; lia|].
  assert (256 ^ Z.of_nat n <= 256 ^ (Z.of_nat (digit_count 256 x) - 1)) by (apply Z.pow_le_mono_r; lia). lia.
Qed.

Lemma putint_min i : 0 < i < two64 → putint i = min_bytes i.
Proof.
  intros Hi. destruct (putint_spec i) as (n & -> & Hn & Hhi & Hlo & _); [lia|]. symmetry. apply min_bytes_count; [lia|].
  split; [|done]. destruct Hlo as [->|]; [cbn; lia|done].
Qed.

Lemma leadingZero_head b : b ≠ [] → leadingZero b = (default 0 (head b) =? 0).
Proof. by destruct b. Qed.

(** Long strings without leading zero are at least 128. *)
Lemma long_value b : bytes_ok b → long_string b → leadingZero b = false → b ≠ [] → 128 <= be_value b.
Proof.
  intros Hb Hl Hz Hn. destruct b as [|c [|d b]]; [done|cbn in *; lia|].
  cbn in Hz. apply Z.eqb_neq in Hz. rewrite (be_value_head c (d :: b) Hb). pose proof (Forall_inv Hb) as [? ?].
  pose proof (be_value_bound _ (Forall_inv_tail Hb)). cbn [length] in *. rewrite Nat2Z.inj_succ, Z.pow_succ_r in * by lia.
  pose proof (Z.pow_pos_nonneg 256 (Z.of_nat (length b)) ltac:(lia) ltac:(lia)). nia.
Qed.

Lemma readInt_ok s b bv rest st n :
  ahead s String_ (Z.of_nat (length b)) bv (b ++ rest) (less n st) → fits (Z.of_nat (length b)) (less n st) →
  n + Z.of_nat (length b) = Z.of_nat (length (encStr b)) → bytes_ok b → leadingZero b = false → (length b <= 8)%nat →
  ∃ s', readInt (Z.of_nat (length b)) s = (Ok (be_value b), s') ∧ at_ s' rest (less (Z.of_nat (length (encStr b))) st).
Proof.
  intros Hah Hf Hn Hb Hz H8. unfold readInt, readUint. destruct b as [|c [|d b]].
  - cbn [length Z.of_nat]. exists (rearm s). split; [done|]. destruct Hah as (Hp & _). cbn in Hn. split; [|done].
    replace (Z.of_nat (length (encStr []))) with n by (cbn in *; lia). exact Hp.
  - change (Z.of_nat (length [c])) with 1 in *. change (1 =? 0) with false. change (1 =? 1) with true. cbv iota. destruct Hah as (Hp & _).
    destruct (readByte_ok s c rest (less n st) Hp Hf) as (s' & -> & Hat & _). exists s'. split; [done|].
    rewrite less_less in Hat. by rewrite Hn in Hat.
  - rewrite !(proj2 (Z.eqb_neq _ _)) by (cbn [length]; lia). rewrite (proj2 (Z.ltb_ge _ _)) by lia.
    destruct (read_long_ok _ _ _ _ _ _ Hah Hf Hn) as (s' & E & Hat). unfold mbind, D_bind. rewrite E.
    rewrite <- leadingZero_head, Hz by done. by exists s'.
Qed.

Lemma stream_uint_ok m s x rest st :
  (m <= 8)%nat → 0 <= x < 256 ^ Z.of_nat m → at_ s (encStr (min_bytes x) ++ rest) st →
  fits (Z.of_nat (length (encStr (min_bytes x)))) st →
  ∃ s', stream_uint (8 * Z.of_nat m) s = (Ok x, s') ∧ at_ s' rest (less (Z.of_nat (length (encStr (min_bytes x)))) st).
Proof.
  intros Hm Hx Hat Hf. destruct (min_bytes_spec x) as (Hv & Hb & Hz); [lia|]. pose proof (min_bytes_length x m Hx) as Hl.
  destruct (peek_string s _ rest st Hb ltac:(unfold two64; lia) Hat Hf) as (k & size & s1 & E & Hmt).
  unfold stream_uint. rewrite (bind_Ok _ _ _ _ _ E). destruct Hmt as [c Ec Hc Hah|n bv Hlong Hn Hfn Hah].
  - rewrite Ec in *. cbn in Hz. assert (c = x) as -> by (rewrite <- Hv; done). destruct (takeByteval_ok _ _ _ _ _ _ Hah eq_refl) as (s' & E' & Hat').
    unfold mbind at 1, D_bind, getByteval. destruct Hah as (_ & _ & _ & _ & Hbv). rewrite Hbv, Hz by done. exists s'. by rewrite encStr_small by lia.
  - replace (8 * Z.of_nat m / 8) with (Z.of_nat m) by (rewrite Z.mul_comm, Z.div_mul; lia).
    rewrite (proj2 (Z.ltb_ge _ _)) by lia.
    destruct (readInt_ok _ _ _ _ _ _ Hah Hfn Hn Hb Hz ltac:(lia)) as (s' & E' & Hat'). rewrite (bind_Ok _ _ _ _ _ E'). rewrite Hv.
    exists s'. split; [|done]. destruct (min_bytes x) as [|c b] eqn:Em; [done|].
    pose proof (long_value _ Hb Hlong Hz ltac:(done)) as H128. rewrite Hv in H128.
    rewrite (proj2 (Z.ltb_ge x 128)), andb_false_r by lia. done.
Qed.

Lemma readUint_string_inv s r st size s1 v s' :
  bytes_ok r → at_ s r st → peek s = (Ok (String_, size), s1) → size <= 8 → readUint size s1 = (Ok v, s') →
  ∃ b, Z.of_nat (length b) = size ∧ v = be_value b ∧ ((2 <= length b)%nat → leadingZero b = false)
    ∧ (long_string b → took b s' r st).
Proof.
  intros Hb Hat E H8 E'. pose proof E as Epk. destruct (peek_inv _ _ _ _ _ _ Hb Hat E) as (bv & rest & Hsz & -> & Hle & Hf & Hah).
  cbn in Hsz. unfold readUint in E'. destruct (Z.eqb_spec size 0) as [->|Hs0].
  { injection E' as <- <-. destruct Hah as (Hp & _). exists []. split; [done|]. split; [done|]. split; [cbn; lia|].
    intros _. exists rest. split_and!; try done. }
  destruct (Z.eqb_spec size 1) as [->|Hs1].
  - destruct Hah as (Hp & _). apply (readByte_inv _ _ _ _ _ Hp) in E' as (r' & -> & Hf1 & Hat' & _).
    apply Forall_app in Hb as [_ Hb]. apply Forall_cons in Hb as [Hv _].
    exists [v]. split; [done|]. split; [done|]. split; [cbn; lia|]. intros Hlong. exists r'. rewrite encStr_long by done.
    rewrite less_less in Hat'. cbn [tag length] in *. rewrite <- app_assoc, length_app, Nat2Z.inj_add. cbn [length app].
    change (Z.of_nat 1) with 1 in *. split_and!; [done|by apply Forall_singleton|done| |done]. destruct st; [done|]. cbn in *. lia.
  - rewrite (proj2 (Z.ltb_ge _ _)) in E' by lia. apply bind_Ok_inv in E' as (b & s2 & E2 & E').
    destruct (took_long _ _ _ _ _ _ _ Hb Hat Epk E2) as [Hlen Ht].
    destruct (default 0 (head b) =? 0) eqn:Ez; [done|]. injection E' as <- <-. exists b. split; [done|]. split; [done|].
    split; [|done]. intros _. rewrite leadingZero_head; [done|]. intros ->. cbn in Hlen. lia.
Qed.

Lemma stream_uint_inv m s r st x s' :
  (m <= 8)%nat → bytes_ok r → at_ s r st → stream_uint (8 * Z.of_nat m) s = (Ok x, s') → (0 < m)%nat →
  took (min_bytes x) s' r st ∧ 0 <= x < 256 ^ Z.of_nat m.
Proof.
  intros Hm Hb Hat E Hm0. unfold stream_uint in E. apply bind_Ok_inv in E as ([k size] & s1 & E1 & E).
  assert (Hpow : 256 <= 256 ^ Z.of_nat m) by (change 256 with (256 ^ 1) at 1; apply Z.pow_le_mono_r; lia).
  destruct k; [| |done].
  - unfold mbind, D_bind, getByteval in E. destruct (Z.eqb_spec (byteval s1) 0) as [|Hz]; [done|].
    assert (Hx : byteval s1 = x) by (unfold takeByteval, mbind, D_bind, getByteval in E; cbn in E; by injection E).
    destruct (took_byte _ _ _ _ _ _ _ Hb Hat E1 E) as [Ht Hx128]. assert (Em : min_bytes x = [x]).
    { rewrite <- (min_bytes_be_value [x]); [by cbn|apply Forall_singleton; unfold is_byte; lia|cbn; apply Z.eqb_neq; lia]. }
    rewrite Em. split; [done|lia].
  - replace (8 * Z.of_nat m / 8) with (Z.of_nat m) in E by (rewrite Z.mul_comm, Z.div_mul; lia).
    destruct (Z.ltb_spec (Z.of_nat m) size) as [|Hsm]; [done|]. apply bind_Ok_inv in E as (v & s2 & E2 & E).
    destruct ((0 <? size) && (v <? 128)) eqn:Ec; [done|]. injection E as <- <-.
    assert (Er : readUint size s1 = (Ok v, s2)).
    { unfold readInt in E2. destruct (readUint size s1) as [[?|[]] ?]; done. }
    destruct (readUint_string_inv _ _ _ _ _ _ _ Hb Hat E1 ltac:(lia) Er) as (b & Hlen & Hv & Hz & Ht).
    assert (Hlong : long_string b).
    { destruct b as [|c [|]]; [done| |done]. cbn in Hlen, Hv |- *. subst size v. cbn in Ec. by apply Z.ltb_ge. }
    destruct (Ht Hlong) as (r' & Hr & Hbb & H64 & Hf & Hat').
    assert (Hz' : leadingZero b = false).
    { destruct b as [|c [|d b]]; [done| |apply Hz; cbn; lia]. cbn in Hlong |- *. apply Z.eqb_neq. lia. }
    rewrite Hv, min_bytes_be_value by done. split; [by apply Ht|].
    pose proof (be_value_bound _ Hbb) as Hbd. assert (256 ^ Z.of_nat (length b) <= 256 ^ Z.of_nat m) by (apply Z.pow_le_mono_r; lia). lia.
Qed.

Lemma intBuffer_ok large s b rest st :
  bytes_ok b → Z.of_nat (length b) < two64 → (large = false → (length b <= 32)%nat) →
  at_ s (encStr b ++ rest) st → fits (Z.of_nat (length (encStr b))) st →
  ∃ s', intBuffer large s = (Ok b, s') ∧ at_ s' rest (less (Z.of_nat (length (encStr b))) st).
Proof.
  intros Hb Hl Hlg Hat Hf. destruct (peek_string s b rest st Hb Hl Hat Hf) as (k & size & s1 & E & Hm).
  unfold intBuffer. rewrite (bind_Ok _ _ _ _ _ E). destruct Hm as [c -> Hc Hah|n bv Hlong Hn Hfn Hah].
  - destruct (takeByteval_ok _ _ _ _ _ _ Hah eq_refl) as (s' & E' & Hat'). rewrite (bind_Ok _ _ _ _ _ E').
    exists s'. rewrite encStr_small by lia. done.
  - destruct (Z.eqb_spec (Z.of_nat (length b)) 0) as [H0|H0].
    + destruct b; [|done]. destruct Hah as (Hp & _). exists (rearm s1). split; [done|]. split; [|done].
      replace (Z.of_nat (length (encStr []))) with n by (cbn in *; lia). exact Hp.
    + destruct (read_long_ok _ _ _ _ _ _ Hah Hfn Hn) as (s' & E' & Hat'). exists s'. split; [|done].
      case_if; [|destruct large; [done|specialize (Hlg eq_refl); lia] ].
      rewrite (bind_Ok _ _ _ _ _ E'). by rewrite (proj2 (shortByte_false b)).
Qed.

Lemma intBuffer_inv large s r st b s' :
  bytes_ok r → at_ s r st → intBuffer large s = (Ok b, s') → took b s' r st ∧ (large = false → (length b <= 32)%nat).
Proof.
  intros Hb Hat E. unfold intBuffer in E. apply bind_Ok_inv in E as ([k size] & s1 & E1 & E). destruct k; [| |done].
  - apply bind_Ok_inv in E as (c & s2 & E2 & [= <- <-]). split; [by eapply took_byte|cbn; lia].
  - destruct (Z.eqb_spec size 0) as [->|H0].
    { injection E as <- <-. assert (Er : readUint 0 s1 = (Ok 0, rearm s1)) by done.
      destruct (readUint_string_inv _ _ _ _ _ _ _ Hb Hat E1 ltac:(lia) Er) as ([|] & Hlen & _ & _ & Ht); [|done].
      split; [by apply Ht|cbn; lia]. }
    destruct (Z.leb_spec size 32) as [H32|H32].
    + apply bind_Ok_inv in E as (b' & s2 & E2 & E). destruct (took_long _ _ _ _ _ _ _ Hb Hat E1 E2) as [Hlen Ht].
      destruct (shortByte size b') eqn:Es; [done|]. injection E as <- <-. rewrite <- Hlen in Es.
      split; [by apply Ht, shortByte_false|lia].
    + destruct large; [|done]. destruct (took_long _ _ _ _ _ _ _ Hb Hat E1 E) as [Hlen Ht]. split; [|done].
      apply Ht. destruct b as [|? [|]]; cbn in *; lia.
Qed.

End RLPStream.
