(* ===== verification/RLPTypes.v ===== *)
(** * RLP of Go values

    The decoders and writers that [rlp/decode.go] and [rlp/encode.go] assemble by
    reflection, one per Go type: [makeDecoder] and [makeWriter] as functions on a
    universe of types.

    [RawValue], interfaces, tail slices, strings and types with methods of their
    own are not in the universe. *)

From S2P Require Import Prelude Bytes RLP RLPStream.
Import RLP RLPStream.

Module RLPTypes.
Set Warnings "-register-all".

(** ** Types and values *)

Inductive rtype :=
| RUint (bits : Z)                        (** [uint8] to [uint64] *)
| RBool
| RByteSlice
| RByteArray (n : nat)
| RBigInt                                 (** [*big.Int] *)
| RU256                                   (** [*uint256.Int] *)
| RPtr (t : rtype)
| RNilPtr (k : Kind) (t : rtype)          (** a field tagged "nil", "nilString" or "nilList" *)
| RSlice (t : rtype)
| RArray (n : nat) (t : rtype)
| RStruct (fs : list (bool * rtype)).     (** the flag: tagged "optional" *)

(** A pointer that is not nil is written as what it points to. *)
Inductive rval :=
| VNil
| VNum (n : Z)
| VBool (b : bool)
| VBytes (b : bytes)
| VList (l : list rval).

(** [reflect.Zero] *)
Fixpoint zeroOf (ty : rtype) : rval :=
  match ty with
  | RUint _ => VNum 0
  | RBool => VBool false
  | RByteArray n => VBytes (replicate n 0)
  | RArray n t => VList (replicate n (zeroOf t))
  | RStruct fs => VList ((λ f, zeroOf f.2) <$> fs)
  | RByteSlice | RBigInt | RU256 | RPtr _ | RNilPtr _ _ | RSlice _ => VNil
  end.

Section Fields.
Context {A B C : Type} (f : A → B → C).
Fixpoint map2 (l : list A) (k : list B) : list C :=
  match l, k with
  | x :: l, y :: k => f x y :: map2 l k
  | _, _ => []
  end.
End Fields.

(** [reflect.Value.IsZero] *)
Fixpoint isZero (ty : rtype) (v : rval) : bool :=
  match ty, v with
  | RUint _, VNum n => n =? 0
  | RBool, VBool b => negb b
  | RByteArray _, VBytes b => forallb (λ c, c =? 0) b
  | RArray _ t, VList l => forallb (isZero t) l
  | RStruct fs, VList l => forallb id (map2 (λ f, isZero f.2) fs l)
  | (RByteSlice | RBigInt | RU256 | RPtr _ | RNilPtr _ _ | RSlice _), VNil => true
  | _, _ => false
  end.

(** ** Decoders *)

Definition wrapStreamError (e : streamError) : streamError :=
  match e with
  | sCanonInt => sDecode MsgCanonInt
  | sCanonSize => sDecode MsgCanonSize
  | sExpectedList => sDecode MsgExpectedList
  | sExpectedString => sDecode MsgExpectedString
  | sUintOverflow => sDecode MsgTooLong
  | sNotAtEOL => sDecode MsgTooMany
  | e => e
  end.

Definition wrap {A} (m : D A) : D A := λ s,
  match m s with
  | (Err e, s) => (Err (wrapStreamError e), s)
  | r => r
  end.

Definition decodeByteArray (n : nat) : D rval :=
  '(k, size) ← peek;
  match k with
  | Byte =>
      if (n =? 0)%nat then fail (sDecode MsgTooLong)
      else if (1 <? n)%nat then fail (sDecode MsgTooShort)
      else b ← takeByteval; mret (VBytes [b])
  | String_ =>
      if Z.of_nat n <? size then fail (sDecode MsgTooLong)
      else if size <? Z.of_nat n then fail (sDecode MsgTooShort)
      else b ← readFull size; if shortByte size b then fail (wrapStreamError sCanonSize) else mret (VBytes b)
  | List_ => fail (wrapStreamError sExpectedString)
  end.

Section Lists.
Context (dec : D rval).

(** [decodeSliceElems]; every element takes a byte, the fuel is one more than the
    bytes left. *)
Fixpoint decodeElems (fuel : nat) : D (list rval) :=
  match fuel with
  | O => fail sPanic
  | S fuel => λ s,
      match dec s with
      | (Err sEOL, s) => (Ok [], s)
      | (Err e, s) => (Err e, s)
      | (Ok v, s) => (vs ← decodeElems fuel; mret (v :: vs)) s
      end
  end.

Definition decodeSliceElems : D (list rval) := λ s, decodeElems (S (length s.(sr))) s.

Definition decodeListSlice : D rval :=
  size ← wrap stream_List;
  if size =? 0 then _ ← ListEnd; mret (VList [])
  else vs ← decodeSliceElems; _ ← ListEnd; mret (VList vs).

Fixpoint arrayElems (n : nat) : D (list rval) :=
  match n with
  | O => mret []
  | S n => λ s,
      match dec s with
      | (Err sEOL, s) => (Err (sDecode MsgTooFew), s)
      | (Err e, s) => (Err e, s)
      | (Ok v, s) => (vs ← arrayElems n; mret (v :: vs)) s
      end
  end.

Definition decodeListArray (n : nat) : D rval :=
  _ ← wrap stream_List;
  vs ← arrayElems n;
  _ ← wrap ListEnd;
  mret (VList vs).

(** [makeNilPtrDecoder] *)
Definition decodeNilPtr (nilKind : Kind) : D rval :=
  '(k, size) ← wrap peek;
  if bool_decide (k ≠ Byte) && (size =? 0) then
    if bool_decide (k ≠ nilKind) then fail (sDecode MsgNilKind)
    else _ ← rearmed; mret VNil
  else dec.
End Lists.

Section StructFields.
Context (dec : rtype → D rval).

(** The loop of [makeStructDecoder] over the fields. *)
Fixpoint decodeFields (fs : list (bool * rtype)) : D (list rval) :=
  match fs with
  | [] => mret []
  | (optional, t) :: fs' => λ s,
      match dec t s with
      | (Err sEOL, s) =>
          if optional then (Ok ((λ f, zeroOf f.2) <$> fs), s) else (Err (sDecode MsgTooFew), s)
      | (Err e, s) => (Err e, s)
      | (Ok v, s) => (vs ← decodeFields fs'; mret (v :: vs)) s
      end
  end.
End StructFields.

(** [makeDecoder] *)
Fixpoint decodeType (ty : rtype) : D rval :=
  match ty with
  | RUint bits => n ← wrap (stream_uint bits); mret (VNum n)
  | RBool => b ← wrap stream_Bool; mret (VBool b)
  | RByteSlice => b ← wrap stream_Bytes; mret (VBytes b)
  | RByteArray n => decodeByteArray n
  | RBigInt => n ← wrap stream_decodeBigInt; mret (VNum n)
  | RU256 => n ← wrap ReadUint256; mret (VNum n)
  | RPtr t => decodeType t
  | RNilPtr k t => decodeNilPtr (decodeType t) k
  | RSlice t => decodeListSlice (decodeType t)
  | RArray n t => decodeListArray (decodeType t) n
  | RStruct fs =>
      _ ← wrap stream_List;
      vs ← decodeFields decodeType fs;
      _ ← wrap ListEnd;
      mret (VList vs)
  end.

(** [DecodeBytes] with a stream from the pool *)
Definition DecodeBytes (pooled : Stream) (b : bytes) (ty : rtype) : result streamError rval :=
  match decodeType ty (Reset pooled b (Z.of_nat (length b))) with
  | (Err e, _) => Err e
  | (Ok v, s) => match s.(sr) with [] => Ok v | _ => Err sMoreThanOneValue end
  end.

(** ** Writers *)

Definition writeBool (buf : encBuffer) (b : bool) : encBuffer := eb_Write buf (if b then [0x01] else [0x80]).

(** [math.ReadBits] fills the slice with the big-endian bytes. *)
Definition writeBigInt (buf : encBuffer) (i : Z) : encBuffer :=
  let bitlen := Len64 i in
  if bitlen <=? 64 then writeUint64 buf i
  else
    let length := Z.shiftr (Z.land (bitlen + 7) (-8)) 3 in
    eb_Write (encodeStringHeader buf length) (be_bytes (Z.to_nat length) i).

Definition writeUint256 (buf : encBuffer) (z : Z) : encBuffer :=
  let bitlen := Len64 z in
  if bitlen <=? 64 then writeUint64 buf z
  else
    let nBytes := (bitlen + 7) / 8 in
    eb_Write buf ((0x80 + nBytes) :: drop (32 - Z.to_nat nBytes) (be_bytes 32 z)).

(** [makeByteArrayWriter] *)
Definition writeByteArray (buf : encBuffer) (b : bytes) : encBuffer :=
  match b with
  | [] => eb_Write buf [0x80]
  | [c] => if c <=? 0x7f then eb_Write buf [c] else eb_Write buf [0x81; c]
  | _ => eb_Write (encodeStringHeader buf (Z.of_nat (length b))) b
  end.

(** [DefaultNilValue] *)
Definition DefaultNilValue (t : rtype) : Kind :=
  match t with
  | RUint _ | RBool | RByteSlice | RByteArray _ => String_
  | _ => List_
  end.

Definition nilEncoding (k : Kind) : Z := match k with List_ => 0xC0 | _ => 0x80 end.

(** The index after the last field that is not zero, but at least [first]. *)
Fixpoint afterLast (zeros : list bool) : nat :=
  match zeros with
  | [] => 0
  | z :: zeros => match afterLast zeros with O => if z then 0 else 1 | n => S n end
  end.

Fixpoint firstOptionalField (fs : list (bool * rtype)) : nat :=
  match fs with
  | [] => 0
  | (optional, _) :: fs => if optional then 0 else S (firstOptionalField fs)
  end.

(** How many fields the struct writer writes. *)
Definition writtenFields (fs : list (bool * rtype)) (vs : list rval) : nat :=
  Nat.max (firstOptionalField fs) (afterLast (map2 (λ f, isZero f.2) fs vs)).

(** Writes in turn; [None] is an error. *)
Fixpoint writeAll (ws : list (encBuffer → option encBuffer)) (buf : encBuffer) : option encBuffer :=
  match ws with
  | [] => Some buf
  | w :: ws => buf ← w buf; writeAll ws buf
  end.

(** [w.list], the content, [w.listEnd] *)
Definition writeList (ws : list (encBuffer → option encBuffer)) (buf : encBuffer) : option encBuffer :=
  let '(index, buf) := eb_list buf in
  buf ← writeAll ws buf;
  listEnd buf index.

(** [makeWriter]; [None] is [ErrNegativeBigInt], or a value not of the type. *)
Fixpoint writeType (ty : rtype) (v : rval) (buf : encBuffer) {struct ty} : option encBuffer :=
  match ty, v with
  | RUint _, VNum n => Some (writeUint64 buf n)
  | RBool, VBool b => Some (writeBool buf b)
  | RByteSlice, VBytes b => Some (writeBytes buf b)
  | RByteSlice, VNil => Some (writeBytes buf [])
  | RByteArray _, VBytes b => Some (writeByteArray buf b)
  | (RBigInt | RU256), VNil => Some (eb_Write buf [0x80])
  | RBigInt, VNum n => if n <? 0 then None else Some (writeBigInt buf n)
  | RU256, VNum n => Some (writeUint256 buf n)
  | RPtr t, VNil => Some (eb_Write buf [nilEncoding (DefaultNilValue t)])
  | RPtr t, v => writeType t v buf
  | RNilPtr k _, VNil => Some (eb_Write buf [nilEncoding k])
  | RNilPtr _ t, v => writeType t v buf
  | RSlice _, (VNil | VList []) | RArray _ _, VList [] => Some (eb_Write buf [0xC0])
  | (RSlice t | RArray _ t), VList vs => writeList (writeType t <$> vs) buf
  | RStruct fs, VList vs => writeList (take (writtenFields fs vs) (map2 (λ f, writeType f.2) fs vs)) buf
  | _, _ => None
  end.

Definition EncodeValue (ty : rtype) (v : rval) : option bytes := makeBytes <$> writeType ty v emptyBuffer.

(** ** Specification *)

Definition emptyItem (k : Kind) : item := match k with List_ => Lst [] | _ => Str [] end.

Section DenoteFields.
Context (den : rtype → rval → item → Prop).

(** Optional fields may be missing at the end; they are zero then. *)
Fixpoint denoteFields (fs : list (bool * rtype)) (vs : list rval) (js : list item) {struct fs} : Prop :=
  match fs with
  | [] => vs = [] ∧ js = []
  | (optional, t) :: fs' =>
      (∃ v vs' i js', vs = v :: vs' ∧ js = i :: js' ∧ den t v i ∧ denoteFields fs' vs' js')
      ∨ (optional = true ∧ js = [] ∧ vs = (λ f, zeroOf f.2) <$> fs)
  end.
End DenoteFields.

(** [denote ty v i]: the tree [i] stands for the value [v] of the type. *)
Fixpoint denote (ty : rtype) (v : rval) (i : item) {struct ty} : Prop :=
  match ty with
  | RUint bits => ∃ n, v = VNum n ∧ i = Str (min_bytes n) ∧ 0 <= n < 2 ^ bits
  | RBool => ∃ b : bool, v = VBool b ∧ i = Str (if b then [1] else [])
  | RByteSlice => ∃ b, v = VBytes b ∧ i = Str b
  | RByteArray n => ∃ b, v = VBytes b ∧ i = Str b ∧ length b = n
  | RBigInt => ∃ n, v = VNum n ∧ i = Str (min_bytes n) ∧ 0 <= n
  | RU256 => ∃ n, v = VNum n ∧ i = Str (min_bytes n) ∧ 0 <= n < 2 ^ 256
  | RPtr t => denote t v i
  | RNilPtr k t => v = VNil ∧ i = emptyItem k ∨ denote t v i ∧ i ≠ Str [] ∧ i ≠ Lst []
  | RSlice t => ∃ vs js, v = VList vs ∧ i = Lst js ∧ Forall2 (denote t) vs js
  | RArray n t => ∃ vs js, v = VList vs ∧ i = Lst js ∧ Forall2 (denote t) vs js ∧ length vs = n
  | RStruct fs => ∃ vs js, v = VList vs ∧ i = Lst js ∧ denoteFields denote fs vs js
  end.

(** No optional field. *)
Fixpoint plain (ty : rtype) : bool :=
  match ty with
  | RPtr t | RNilPtr _ t | RSlice t | RArray _ t => plain t
  | RStruct fs => forallb (λ f, negb f.1 && plain f.2) fs
  | _ => true
  end.

(** Values of the type are not nil. *)
Definition nonnil (ty : rtype) : bool := match ty with RNilPtr _ _ | RPtr _ => false | _ => true end.

(** Once a field is optional, the later ones are. *)
Fixpoint optionalSuffix (fs : list (bool * rtype)) : bool :=
  match fs with
  | [] => true
  | (optional, _) :: fs => (negb optional || forallb fst fs) && optionalSuffix fs
  end.

(** The struct types of the program: a first field that is required, optional
    fields last. *)
Definition wf_fields (fs : list (bool * rtype)) : bool :=
  match fs with (false, _) :: _ => optionalSuffix fs | _ => false end.

(** Integers of a machine width, pointers to values. *)
Fixpoint wf_type (ty : rtype) : bool :=
  match ty with
  | RUint bits => (bits =? 8) || (bits =? 16) || (bits =? 32) || (bits =? 64)
  | RPtr t => nonnil t && wf_type t
  | RNilPtr k t => bool_decide (k ≠ Byte) && nonnil t && plain t && wf_type t
  | RSlice t | RArray _ t => wf_type t
  | RStruct fs => wf_fields fs && forallb (λ f, wf_type f.2) fs
  | _ => true
  end.

Lemma rtype_ind' (P : rtype → Prop) :
  (∀ bits, P (RUint bits)) → P RBool → P RByteSlice → (∀ n, P (RByteArray n)) → P RBigInt → P RU256 →
  (∀ t, P t → P (RPtr t)) → (∀ k t, P t → P (RNilPtr k t)) → (∀ t, P t → P (RSlice t)) →
  (∀ n t, P t → P (RArray n t)) → (∀ fs, Forall (λ f, P f.2) fs → P (RStruct fs)) → ∀ ty, P ty.
Proof.
  intros H1 H2 H3 H4 H5 H6 H7 H8 H9 H10 H11. fix IH 1. intros [bits| | |n| | |t|k t|t|n t|fs];
    [apply H1|apply H2|apply H3|apply H4|apply H5|apply H6|apply H7, IH|apply H8, IH|apply H9, IH|apply H10, IH|].
  apply H11. induction fs as [|[o t] fs IHfs]; constructor; [apply IH|exact IHfs].
Qed.

(** ** Reading what was written *)

(** The reader takes the item off the stream and returns [a]. *)
Definition accepts {A} (d : D A) (a : A) (i : item) : Prop :=
  ∀ s rest st, at_ s (enc i ++ rest) st → fits (Z.of_nat (length (enc i))) st → Forall is_u64 st →
  ∃ s', d s = (Ok a, s') ∧ at_ s' rest (less (Z.of_nat (length (enc i))) st).

(** The same for the content of a list. *)
Definition acceptsL {A} (d : D A) (a : A) (js : list item) : Prop :=
  ∀ s rest st, at_ s (concat (enc <$> js) ++ rest) (Z.of_nat (length (concat (enc <$> js))) :: st) → Forall is_u64 st →
  Z.of_nat (length (concat (enc <$> js))) < two64 →
  ∃ s', d s = (Ok a, s') ∧ at_ s' rest (0 :: st).

(** At the end of a list the reader reports it. *)
Definition ends {A} (d : D A) : Prop := ∀ s r st, at_ s r (0 :: st) → d s = (Err sEOL, s).

Lemma wrap_Ok {A} (m : D A) s a s' : wrap m s = (Ok a, s') ↔ m s = (Ok a, s').
Proof. unfold wrap. destruct (m s) as [[|] ?]; done. Qed.

Lemma wrap_bind_Ok {A B} (m : D A) (f : A → D B) s a s' : m s = (Ok a, s') → (wrap m ≫= f) s = f a s'.
Proof. intros E. apply bind_Ok. by apply wrap_Ok. Qed.

Lemma accepts_map {A B} (m : D A) (f : A → B) a i : accepts m a i → accepts (x ← wrap m; mret (f x)) (f a) i.
Proof. intros Ha s rest st Hat Hf Hu. destruct (Ha s rest st Hat Hf Hu) as (s' & E & ?). exists s'. by rewrite (wrap_bind_Ok _ _ _ _ _ E). Qed.

Lemma ends_peek {A} (f : Kind * Z → D A) : ends (peek ≫= f).
Proof. intros s r st Hat. unfold mbind, D_bind. by rewrite (peek_at_end _ _ _ Hat). Qed.

Lemma ends_wrap {A B} (m : D A) (f : A → D B) : ends m → ends (wrap m ≫= f).
Proof. intros He s r st Hat. unfold mbind, D_bind, wrap. by rewrite (He _ _ _ Hat). Qed.

Lemma ends_bind {A B} (m : D A) (f : A → D B) : ends m → ends (m ≫= f).
Proof. intros He s r st Hat. unfold mbind, D_bind. by rewrite (He _ _ _ Hat). Qed.

Lemma decodeType_ends ty : ends (decodeType ty).
Proof.
  induction ty as [bits| | |n| | |t IH|k t IH|t IH|n t IH|fs IH] using rtype_ind'; cbn [decodeType].
  - apply ends_wrap, ends_peek.
  - apply ends_wrap, ends_bind, ends_peek.
  - apply ends_wrap, ends_peek.
  - apply ends_peek.
  - apply ends_wrap, ends_bind, ends_peek.
  - apply ends_wrap, ends_bind, ends_peek.
  - exact IH.
  - unfold decodeNilPtr. apply ends_wrap. intros s r st Hat. by apply (peek_at_end _ r st).
  - apply ends_wrap, ends_peek.
  - apply ends_wrap, ends_peek.
  - apply ends_wrap, ends_peek.
Qed.

Lemma accepts_list {A} (inner : Z → D A) (a : A) js (w : D unit → D unit) :
  (∀ m s s', m s = (Ok (), s') → w m s = (Ok (), s')) →
  item_ok (Lst js) → acceptsL (inner (Z.of_nat (length (concat (enc <$> js))))) a js →
  accepts (size ← wrap stream_List; x ← inner size; _ ← w ListEnd; mret x) a (Lst js).
Proof.
  intros Hw Hok Ha s rest st Hat Hf Hu. inversion Hok as [|? Hi Hl]; subst.
  set (content := concat (enc <$> js)) in *. set (n := Z.of_nat (length content)) in *.
  assert (Et : enc (Lst js) = tag List_ n 0 ++ content) by done.
  rewrite Et, <- app_assoc in Hat. rewrite Et, length_app, Nat2Z.inj_add in Hf |- *. fold n in Hf |- *.
  destruct (peek_ok List_ n 0 s (content ++ rest) st) as (s1 & E1 & Hp1 & _); [cbn; lia|done|rewrite length_app; lia|done|].
  set (k := Z.of_nat (length (tag List_ n 0))) in *.
  assert (El : ∃ s2, stream_List s = (Ok n, s2) ∧ at_ s2 (content ++ rest) (n :: less (k + n) st)).
  { eexists. unfold stream_List. rewrite (bind_Ok _ _ _ _ _ E1). split; [done|]. destruct Hp1 as (H1 & H2 & H3 & H4).
    repeat split; cbn; [done| |done|done]. rewrite H2. destruct st as [|l st]; [done|]. cbn. f_equal. f_equal.
    apply Forall_cons in Hu as [Hlu _]. cbn in Hf. unfold u64, is_u64 in *. rewrite Z.mod_small; lia. }
  destruct El as (s2 & E2 & Hat2). rewrite (wrap_bind_Ok _ _ _ _ _ E2).
  destruct (Ha s2 rest (less (k + n) st)) as (s3 & E3 & Hat3); [done| |done|].
  { destruct st as [|l st]; [done|]. apply Forall_cons in Hu as [Hlu Hu]. cbn in Hf |- *. constructor; [|done]. unfold is_u64 in *. lia. }
  rewrite (bind_Ok _ _ _ _ _ E3). destruct Hat3 as [(H1 & H2 & H3 & H4) H5].
  assert (E4 : ListEnd s3 = (Ok (), set_size 0 (rearm (set_stack (less (k + n) st) s3)))) by (unfold ListEnd; by rewrite H2).
  rewrite (bind_Ok _ _ _ _ _ (Hw _ _ _ E4)). eexists. split; [done|]. repeat split; done.
Qed.

(** *** Contents of lists *)

Lemma acceptsL_cons {A} (d : D rval) (k : rval → D A) v a i js :
  accepts d v i → acceptsL (k v) a js → acceptsL (x ← d; k x) a (i :: js).
Proof.
  intros Hd Hk s rest st Hat Hu Hlen. cbn [fmap list_fmap concat] in *. rewrite length_app in *. rewrite <- app_assoc in Hat.
  destruct (Hd s (concat (enc <$> js) ++ rest) (Z.of_nat (length (enc i) + length (concat (enc <$> js))) :: st)) as (s1 & E1 & Hat1);
    [done|cbn; lia|constructor; [unfold is_u64; lia|done]|].
  rewrite (bind_Ok _ _ _ _ _ E1). cbn [less] in Hat1.
  replace (Z.of_nat (length (enc i) + length (concat (enc <$> js))) - Z.of_nat (length (enc i)))
    with (Z.of_nat (length (concat (enc <$> js)))) in Hat1 by lia.
  destruct (Hk s1 rest st Hat1 Hu) as (s2 & E2 & Hat2); [lia|]. eauto.
Qed.

Lemma acceptsL_map {A B} (d : D A) (f : A → B) a js : acceptsL d a js → acceptsL (x ← d; mret (f x)) (f a) js.
Proof. intros Ha s rest st Hat Hu Hl. destruct (Ha s rest st Hat Hu Hl) as (s' & E & ?). exists s'. by rewrite (bind_Ok _ _ _ _ _ E). Qed.

Lemma acceptsL_ext {A} (d d' : D A) a js :
  (∀ s b s', d s = (Ok b, s') → d' s = (Ok b, s')) → acceptsL d a js → acceptsL d' a js.
Proof. intros He Ha s rest st Hat Hu Hl. destruct (Ha s rest st Hat Hu Hl) as (s' & E & ?). exists s'. by rewrite (He _ _ _ E). Qed.

Lemma acceptsL_elems dec vs js fuel :
  ends dec → Forall2 (accepts dec) vs js → (length js < fuel)%nat → acceptsL (decodeElems dec fuel) vs js.
Proof.
  intros He Hf. revert fuel. induction Hf as [|v i vs js Hv _ IH]; intros fuel Hlen; (destruct fuel as [|fuel]; [cbn in Hlen; lia|]).
  - intros s rest st Hat Hu _. exists s. cbn [decodeElems]. by rewrite (He _ _ _ Hat).
  - apply (acceptsL_ext (x ← dec; vs ← decodeElems dec fuel; mret (x :: vs))).
    { intros s b s' E. cbn [decodeElems]. unfold mbind at 1, D_bind in E. destruct (dec s) as [[x|e] s1]; [done|done]. }
    apply (acceptsL_cons dec (λ x, vs ← decodeElems dec fuel; mret (x :: vs)) v); [done|].
    apply acceptsL_map, IH. cbn in Hlen. lia.
Qed.

Lemma acceptsL_array dec vs js : Forall2 (accepts dec) vs js → acceptsL (arrayElems dec (length vs)) vs js.
Proof.
  induction 1 as [|v i vs js Hv _ IH]; cbn [length arrayElems].
  - intros s rest st Hat _ _. by exists s.
  - apply (acceptsL_ext (x ← dec; vs ← arrayElems dec (length vs); mret (x :: vs))).
    { intros s b s' E. unfold mbind at 1, D_bind in E. destruct (dec s) as [[x|e] s1]; done. }
    apply (acceptsL_cons dec (λ x, ws ← arrayElems dec (length vs); mret (x :: ws)) v); [done|]. by apply acceptsL_map.
Qed.

Lemma acceptsL_fields fs vs js :
  Forall (λ f, ∀ v i, denote f.2 v i → item_ok i → accepts (decodeType f.2) v i) fs →
  Forall item_ok js → denoteFields denote fs vs js → acceptsL (decodeFields decodeType fs) vs js.
Proof.
  intros Hfs. revert vs js. induction Hfs as [|[o t] fs Ht _ IH]; intros vs js Hok Hd; cbn [denoteFields] in Hd.
  - destruct Hd as [-> ->]. intros s rest st Hat _ _. by exists s.
  - cbn [snd] in Ht. destruct Hd as [(v & vs' & i & js' & -> & -> & Hv & Hd)|(-> & -> & ->)].
    + apply Forall_cons in Hok as [Hi Hok]. cbn [decodeFields].
      apply (acceptsL_ext (x ← decodeType t; vs ← decodeFields decodeType fs; mret (x :: vs))).
      { intros s b s' E. unfold mbind at 1, D_bind in E. destruct (decodeType t s) as [[x|e] s1]; done. }
      apply (acceptsL_cons (decodeType t) (λ x, ws ← decodeFields decodeType fs; mret (x :: ws)) v); [by apply Ht|].
      by apply acceptsL_map, IH.
    + intros s rest st Hat _ _. exists s. cbn [decodeFields]. by rewrite (decodeType_ends t _ _ _ Hat).
Qed.

(** *** Values *)

(** Every decoder starts by looking ahead. *)
Lemma peek_bind {A} (f : Kind * Z → D A) s ks s1 : peek s = (Ok ks, s1) → (peek ≫= f) s1 = (peek ≫= f) s.
Proof. intros E. unfold mbind, D_bind. by rewrite E, (peek_again _ _ _ E). Qed.

Lemma decode_peek ty s ks s1 : peek s = (Ok ks, s1) → decodeType ty s1 = decodeType ty s.
Proof.
  intros E.
  assert (Hb : ∀ A B (m : D A) (f : A → D B), m s1 = m s → (m ≫= f) s1 = (m ≫= f) s) by (intros A B m f Em; unfold mbind, D_bind; by rewrite Em).
  assert (Hw : ∀ A (m : D A), m s1 = m s → wrap m s1 = wrap m s) by (intros A m Em; unfold wrap; by rewrite Em).
  assert (Hp : ∀ A (f : Kind * Z → D A), (peek ≫= f) s1 = (peek ≫= f) s) by (intros; by eapply peek_bind).
  induction ty as [bits| | |n| | |t IH|k t IH|t IH|n t IH|fs IH] using rtype_ind'; cbn [decodeType];
    try (exact IH); try (apply Hp); apply Hb, Hw; try apply Hp; try (apply Hb, Hp).
  by rewrite E, (peek_again _ _ _ E).
Qed.

Lemma two_pow_bytes m : 256 ^ Z.of_nat m = 2 ^ (8 * Z.of_nat m).
Proof. change 256 with (2 ^ 8). rewrite <- Z.pow_mul_r by lia. done. Qed.

Lemma wf_uint bits : wf_type (RUint bits) → ∃ m, bits = 8 * Z.of_nat m ∧ (0 < m <= 8)%nat.
Proof.
  cbn. intros H. apply Is_true_true in H. repeat (apply orb_true_iff in H as [H|H]); apply Z.eqb_eq in H; subst;
    [exists 1%nat|exists 2%nat|exists 4%nat|exists 8%nat]; split; lia.
Qed.

Lemma accepts_uint m n : (m <= 8)%nat → 0 <= n < 256 ^ Z.of_nat m → accepts (stream_uint (8 * Z.of_nat m)) n (Str (min_bytes n)).
Proof. intros Hm Hn s rest st Hat Hf _. by apply stream_uint_ok. Qed.

Lemma accepts_bool b : accepts stream_Bool b (Str (if b then [1] else [])).
Proof.
  intros s rest st Hat Hf Hu. set (n := if b then 1 else 0).
  assert (E : (if b then [1] else []) = min_bytes n) by (by destruct b). rewrite E in *.
  destruct (accepts_uint 1 n) with (s := s) (rest := rest) (st := st) as (s' & E' & Hat'); [lia|destruct b; cbn; lia|done..|].
  exists s'. split; [|done]. unfold stream_Bool. change (8 * Z.of_nat 1) with 8 in E'. rewrite (bind_Ok _ _ _ _ _ E'). by destruct b.
Qed.

Lemma accepts_int large n :
  0 <= n → (large = false → n < 2 ^ 256) → item_ok (Str (min_bytes n)) →
  accepts (b ← intBuffer large; if leadingZero b then fail sCanonInt else mret (be_value b)) n (Str (min_bytes n)).
Proof.
  intros Hn Hlg Hok s rest st Hat Hf Hu. inversion Hok; subst. destruct (min_bytes_spec n Hn) as (Hv & Hb & Hz).
  destruct (intBuffer_ok large s (min_bytes n) rest st) as (s' & E & Hat'); [done|done| |done|done|].
  { intros El. apply min_bytes_length. rewrite two_pow_bytes. specialize (Hlg El). cbn in *. lia. }
  rewrite (bind_Ok _ _ _ _ _ E), Hz, Hv. by exists s'.
Qed.

Lemma accepts_byteArray b : item_ok (Str b) → accepts (decodeByteArray (length b)) (VBytes b) (Str b).
Proof.
  intros Hok s rest st Hat Hf Hu. inversion Hok as [? Hb Hl|]; subst.
  destruct (peek_string s b rest st Hb Hl Hat Hf) as (k & size & s1 & E & Hm).
  unfold decodeByteArray. rewrite (bind_Ok _ _ _ _ _ E). destruct Hm as [c -> Hc Hah|n bv Hlong Hn Hfn Hah].
  - cbn [length Nat.eqb Nat.ltb Nat.leb]. destruct (takeByteval_ok _ _ _ _ _ _ Hah eq_refl) as (s' & E' & Hat').
    rewrite (bind_Ok _ _ _ _ _ E'). exists s'. cbn [enc]. by rewrite encStr_small by lia.
  - rewrite Z.ltb_irrefl. destruct (read_long_ok _ _ _ _ _ _ Hah Hfn Hn) as (s' & E' & Hat'). rewrite (bind_Ok _ _ _ _ _ E').
    rewrite (proj2 (shortByte_false b)) by done. by exists s'.
Qed.

(** What looking ahead finds at an item. *)
Lemma peek_item i s rest st :
  item_ok i → at_ s (enc i ++ rest) st → fits (Z.of_nat (length (enc i))) st →
  ∃ k size s1, peek s = (Ok (k, size), s1)
    ∧ (bool_decide (k ≠ Byte) && (size =? 0) = true → i = emptyItem k)
    ∧ (∀ k0, k0 ≠ Byte → i = emptyItem k0 →
        k = k0 ∧ size = 0 ∧ at_ (rearm s1) rest (less (Z.of_nat (length (enc i))) st)).
Proof.
  intros Hok Hat Hf. destruct Hok as [b Hb Hl|l Hi Hl].
  - destruct (peek_string s b rest st Hb Hl Hat Hf) as (k & size & s1 & E & Hm). exists k, size, s1. split; [done|].
    destruct Hm as [c -> Hc Hah|n bv Hlong Hn Hfn Hah].
    + split; [done|]. by intros [] Hk0.
    + split; [destruct b; [done|]; intros [_ H]%andb_true_iff; apply Z.eqb_eq in H; cbn in H; lia|]. intros [] Hk0 [= ->]; try done. split; [done|]. split; [done|].
      destruct Hah as (Hp & _). split; [|done].
      replace (Z.of_nat (length (enc (Str [])))) with n by (cbn in *; lia). exact Hp.
  - set (content := concat (enc <$> l)) in *. set (n := Z.of_nat (length content)) in *.
    assert (Et : enc (Lst l) = tag List_ n 0 ++ content) by done.
    rewrite Et, <- app_assoc in Hat. rewrite Et, length_app, Nat2Z.inj_add in Hf.
    destruct (peek_ok List_ n 0 s (content ++ rest) st) as (s1 & E1 & Hp1 & _); [cbn; lia|done|rewrite length_app; lia|done|].
    exists List_, n, s1. split; [done|]. split.
    + destruct l as [|i l]; [done|]. intros [_ H]%andb_true_iff. apply Z.eqb_eq in H. unfold n, content in H. cbn in H. rewrite length_app in H.
      pose proof (enc_nonempty i) as Hne. destruct (enc i); [done|]. cbn in H. lia.
    + by intros [] Hk0 [= ->].
Qed.

Lemma accepts_nil k d : k ≠ Byte → accepts (decodeNilPtr d k) VNil (emptyItem k).
Proof.
  intros Hk s rest st Hat Hf Hu. assert (Hok : item_ok (emptyItem k)) by (by destruct k; repeat constructor).
  destruct (peek_item _ s rest st Hok Hat Hf) as (k' & size & s1 & E & _ & Hem).
  destruct (Hem k Hk eq_refl) as (-> & -> & Hat'). exists (rearm s1). split; [|done].
  unfold decodeNilPtr. rewrite (wrap_bind_Ok _ _ _ _ _ E). rewrite bool_decide_true by done. cbn [andb Z.eqb].
  by rewrite bool_decide_false by (intros H; by apply H).
Qed.

Lemma accepts_nonnil k ty v i :
  item_ok i → i ≠ Str [] → i ≠ Lst [] → accepts (decodeType ty) v i → accepts (decodeNilPtr (decodeType ty) k) v i.
Proof.
  intros Hok Hs Hl Ha s rest st Hat Hf Hu. destruct (peek_item _ s rest st Hok Hat Hf) as (k' & size & s1 & E & Hem & _).
  destruct (Ha s rest st Hat Hf Hu) as (s' & E' & Hat'). exists s'. split; [|done].
  unfold decodeNilPtr. rewrite (wrap_bind_Ok _ _ _ _ _ E).
  destruct (bool_decide (k' ≠ Byte) && (size =? 0)) eqn:Ec.
  - exfalso. specialize (Hem eq_refl). destruct k'; done.
  - by rewrite (decode_peek _ _ _ _ E).
Qed.

Lemma length_enc_elems (js : list item) : (length js <= length (concat (enc <$> js)))%nat.
Proof.
  induction js as [|i js IH]; [done|]. cbn. rewrite length_app. pose proof (enc_nonempty i) as Hne. destruct (enc i); [done|]. cbn. lia.
Qed.

Lemma acceptsL_slice dec vs js : ends dec → Forall2 (accepts dec) vs js → acceptsL (decodeSliceElems dec) vs js.
Proof.
  intros He Hf s rest st Hat Hu Hl. unfold decodeSliceElems. pose proof Hat as [(Hr & _) _]. rewrite Hr.
  apply (acceptsL_elems dec vs js); [done|done| |done..].
  rewrite length_app. pose proof (length_enc_elems js). lia.
Qed.

Lemma accepts_Forall2 ty vs js :
  (∀ v i, denote ty v i → item_ok i → accepts (decodeType ty) v i) →
  Forall item_ok js → Forall2 (denote ty) vs js → Forall2 (accepts (decodeType ty)) vs js.
Proof. intros Ht Hok Hd. induction Hd; [constructor|]. apply Forall_cons in Hok as [? ?]. constructor; auto. Qed.

(** The three list decoders in one shape. *)
Definition sliceInner (dec : D rval) (size : Z) : D rval :=
  if size =? 0 then mret (VList []) else vs ← decodeSliceElems dec; mret (VList vs).

Lemma decodeListSlice_eq dec s :
  (size ← wrap stream_List; x ← sliceInner dec size; _ ← ListEnd; mret x) s = decodeListSlice dec s.
Proof.
  unfold decodeListSlice, sliceInner, mbind, D_bind. destruct (wrap stream_List s) as [[n|] s1]; [|done].
  case_if; [done|]. by destruct (decodeSliceElems dec s1) as [[?|] ?].
Qed.

Lemma decodeListArray_eq dec n s :
  (size ← wrap stream_List; x ← (vs ← arrayElems dec n; mret (VList vs)); _ ← wrap ListEnd; mret x) s = decodeListArray dec n s.
Proof.
  unfold decodeListArray, mbind, D_bind. destruct (wrap stream_List s) as [[m|] s1]; [|done]. by destruct (arrayElems dec n s1) as [[?|] ?].
Qed.

Lemma decodeStruct_eq fs s :
  (size ← wrap stream_List; x ← (vs ← decodeFields decodeType fs; mret (VList vs)); _ ← wrap ListEnd; mret x) s
  = decodeType (RStruct fs) s.
Proof.
  cbn [decodeType]. unfold mbind, D_bind. destruct (wrap stream_List s) as [[m|] s1]; [|done].
  by destruct (decodeFields decodeType fs s1) as [[?|] ?].
Qed.

Lemma accepts_ext {A} (d d' : D A) a i : (∀ s, d s = d' s) → accepts d a i → accepts d' a i.
Proof. intros He Ha s rest st Hat Hf Hu. rewrite <- He. by apply Ha. Qed.

Lemma sliceInner_accepts dec vs js :
  ends dec → Forall2 (accepts dec) vs js → acceptsL (sliceInner dec (Z.of_nat (length (concat (enc <$> js))))) (VList vs) js.
Proof.
  intros He Hf. unfold sliceInner. destruct (Z.eqb_spec (Z.of_nat (length (concat (enc <$> js)))) 0) as [E|_].
  - pose proof (length_enc_elems js). destruct js; [|cbn in *; lia]. inversion Hf; subst. intros s rest st Hat _ _. by exists s.
  - by apply acceptsL_map, acceptsL_slice.
Qed.

(** A decoder returns the value of every tree that stands for one. *)
Lemma decodeType_accepts ty v i : wf_type ty → denote ty v i → item_ok i → accepts (decodeType ty) v i.
Proof.
  revert v i. induction ty as [bits| | |n| | |t IH|k t IH|t IH|n t IH|fs IH] using rtype_ind'; intros v i Hw Hd Hok; cbn [denote decodeType] in *.
  - destruct Hd as (n & -> & -> & Hn). destruct (wf_uint bits Hw) as (m & -> & Hm).
    apply (accepts_map _ VNum), accepts_uint; [lia|by rewrite two_pow_bytes].
  - destruct Hd as (b & -> & ->). apply (accepts_map _ VBool), accepts_bool.
  - destruct Hd as (b & -> & ->). apply (accepts_map _ VBytes). intros s rest st Hat Hf _. inversion Hok; subst. by apply stream_Bytes_ok.
  - destruct Hd as (b & -> & -> & <-). by apply accepts_byteArray.
  - destruct Hd as (n & -> & -> & Hn). by apply (accepts_map _ VNum), accepts_int.
  - destruct Hd as (n & -> & -> & Hn). apply (accepts_map _ VNum), accepts_int; [lia|lia|done].
  - apply andb_True in Hw as [_ Hw]. auto.
  - apply andb_True in Hw as [Hw Hwt]. apply andb_True in Hw as [Hw _]. apply andb_True in Hw as [Hk _].
    apply bool_decide_unpack in Hk. destruct Hd as [[-> ->]|(Hd & Hs & Hl)]; [by apply accepts_nil|]. apply accepts_nonnil; auto.
  - destruct Hd as (vs & js & -> & -> & Hd). inversion Hok as [|? Hi Hl]; subst.
    apply (accepts_ext _ _ _ _ (decodeListSlice_eq _)), (accepts_list (sliceInner _) _ js id); [done|done|].
    apply sliceInner_accepts; [apply decodeType_ends|]. apply accepts_Forall2; auto.
  - destruct Hd as (vs & js & -> & -> & Hd & <-). inversion Hok as [|? Hi Hl]; subst.
    apply (accepts_ext _ _ _ _ (decodeListArray_eq _ _)), (accepts_list (λ _, ws ← arrayElems _ _; mret (VList ws)) _ js wrap).
    + intros m s s' E. by apply wrap_Ok.
    + done.
    + apply acceptsL_map, acceptsL_array, accepts_Forall2; auto.
  - destruct Hd as (vs & js & -> & -> & Hd). inversion Hok as [|? Hi Hl]; subst. apply andb_True in Hw as [_ Hw].
    apply (accepts_ext _ _ _ _ (decodeStruct_eq _)), (accepts_list (λ _, ws ← decodeFields decodeType fs; mret (VList ws)) _ js wrap).
    + intros m s s' E. by apply wrap_Ok.
    + done.
    + apply acceptsL_map, acceptsL_fields; [|done|done]. apply forallb_True in Hw. rewrite Forall_forall in *.
      intros f Hf v i. apply IH; [done|]. by apply (Hw f).
Qed.

(** ** Reading arbitrary input

    The check in [Kind] uses the limit from before the tag was read, so a list may
    claim more than its enclosing list has left; the limit of the enclosing list
    then wraps around.  Such a limit is beyond the end of the input, stays beyond
    it, and makes the enclosing [ListEnd] fail. *)

Definition beyond (st : list Z) (r : bytes) : Prop :=
  match st with l :: _ => Z.of_nat (length r) < l | [] => False end.

(** The outcome of a read that returned: what is left, and what was read unless
    the innermost limit has wrapped.  Something was read unless nothing may be. *)
Definition consumed (R : list item → Prop) (s' : Stream) (r : bytes) (st : list Z) : Prop :=
  ∃ r' st', at_ s' r' st' ∧ (∃ p, r = p ++ r' ∧ (R [] ∨ p ≠ [])) ∧ tail st' = tail st ∧ length st' = length st ∧ Forall is_u64 st'
    ∧ (beyond st r → beyond st' r')
    ∧ (beyond st' r'
       ∨ ∃ js, R js ∧ Forall item_ok js ∧ r = concat (enc <$> js) ++ r'
           ∧ fits (Z.of_nat (length (concat (enc <$> js)))) st
           ∧ st' = less (Z.of_nat (length (concat (enc <$> js)))) st).

Definition input_ok (r : bytes) (st : list Z) : Prop :=
  bytes_ok r ∧ Z.of_nat (length r) < two64 ∧ Forall is_u64 st.

Definition reads {A} (d : D A) (R : A → list item → Prop) : Prop :=
  ∀ s r st a s', input_ok r st → at_ s r st → d s = (Ok a, s') → consumed (R a) s' r st.

Definition single {A} (R : A → item → Prop) (a : A) (js : list item) : Prop := ∃ i, js = [i] ∧ R a i.

Lemma beyond_less n r r' st :
  Z.of_nat (length r) = n + Z.of_nat (length r') → beyond st r → beyond (less n st) r'.
Proof. destruct st; [done|]. cbn. lia. Qed.

Lemma u64_less n st : Forall is_u64 st → 0 <= n → fits n st → Forall is_u64 (less n st).
Proof. intros Hu Hn Hf. destruct Hu as [|l st Hl Hu]; [constructor|]. cbn in *. constructor; [unfold is_u64 in *; lia|done]. Qed.

(** A string taken off the input. *)
Lemma took_consumed (R : list item → Prop) b s' r st :
  input_ok r st → took b s' r st → R [Str b] → consumed R s' r st.
Proof.
  intros (_ & _ & Hu) (r' & -> & Hb & Hl & Hf & Hat) HR. exists r', (less (Z.of_nat (length (encStr b))) st).
  assert (Ec : concat (enc <$> [Str b]) = encStr b) by (cbn; by rewrite app_nil_r).
  split_and!; [done| |by destruct st|by destruct st|apply u64_less; [done|lia|done]| |].
  - exists (encStr b). split; [done|]. right. apply (enc_nonempty (Str b)).
  - apply beyond_less. rewrite length_app. lia.
  - right. exists [Str b]. rewrite Ec. split_and!; try done. by repeat constructor.
Qed.

Lemma reads_took {A} (d : D A) (R : A → list item → Prop) :
  (∀ s r st a s', input_ok r st → at_ s r st → d s = (Ok a, s') → ∃ b, took b s' r st ∧ R a [Str b]) → reads d R.
Proof. intros H s r st a s' Hi Hat E. destruct (H _ _ _ _ _ Hi Hat E) as (b & Ht & HR). by eapply took_consumed. Qed.

Lemma reads_map {A B} (m : D A) (f : A → B) (R : B → list item → Prop) :
  reads m (λ a, R (f a)) → reads (x ← wrap m; mret (f x)) R.
Proof.
  intros Hm s r st b s' Hi Hat E. apply bind_Ok_inv in E as (a & s1 & E1 & [= <- <-]).
  exact (Hm s r st a s1 Hi Hat (proj1 (wrap_Ok _ _ _ _) E1)).
Qed.

Lemma reads_map' {A B} (m : D A) (f : A → B) (R : B → list item → Prop) :
  reads m (λ a, R (f a)) → reads (x ← m; mret (f x)) R.
Proof.
  intros Hm s r st b s' Hi Hat E. apply bind_Ok_inv in E as (a & s1 & E1 & [= <- <-]). by apply (Hm s r st a s1).
Qed.

Lemma reads_ext {A} (d d' : D A) R : (∀ s, d s = d' s) → reads d R → reads d' R.
Proof. intros He Hd s r st a s' Hi Hat E. rewrite <- He in E. by eapply Hd. Qed.

Lemma reads_impl {A} (d : D A) (R R' : A → list item → Prop) : (∀ a js, R a js → R' a js) → reads d R → reads d R'.
Proof.
  intros HR Hd s r st a s' Hi Hat E. destruct (Hd s r st a s' Hi Hat E) as (r' & st' & H1 & H2 & H3 & H4 & H5 & H6 & [H7|(js & Hjs & H7)]);
    exists r', st'; (split_and!; try done); [destruct H2 as (p & -> & [?|?]); eauto|by left|destruct H2 as (p & -> & [?|?]); eauto|right; exists js; split; auto].
Qed.

Lemma input_ok_suffix p r st st' : input_ok (p ++ r) st → Forall is_u64 st' → input_ok r st'.
Proof.
  intros (Hb & Hl & _) Hu. apply Forall_app in Hb as [_ Hb]. rewrite length_app in Hl. split; [done|]. split; [lia|done].
Qed.

(** Nothing read. *)
Lemma reads_ret {A} (a : A) (R : A → list item → Prop) : R a [] → reads (mret a) R.
Proof.
  intros HR s r st b s' (_ & _ & Hu) Hat [= <- <-]. exists r, st. split_and!; try done; [exists []; auto|].
  right. exists []. cbn. rewrite less_0. split_and!; try done. destruct Hu as [|l st0 Hl _]; [done|]. cbn. unfold is_u64 in Hl. lia.
Qed.

(** One read after the other. *)
Lemma consumed_bind (R R' : list item → Prop) s1 s2 r st :
  input_ok r st → consumed R s1 r st →
  (∀ r1 st1, input_ok r1 st1 → at_ s1 r1 st1 → consumed R' s2 r1 st1) →
  consumed (λ js, ∃ js1 js2, js = js1 ++ js2 ∧ R js1 ∧ R' js2) s2 r st.
Proof.
  intros Hi (r1 & st1 & Hat1 & (p & -> & Hp) & Ht1 & Hl1 & Hu1 & Hb1 & Hc1) H2.
  assert (Hi1 : input_ok r1 st1) by (by eapply input_ok_suffix).
  destruct (H2 r1 st1 Hi1 Hat1) as (r2 & st2 & Hat2 & (q & -> & Hq) & Ht2 & Hl2 & Hu2 & Hb2 & Hc2).
  exists r2, st2. split_and!; [done| |congruence|congruence|done|auto|].
  { exists (p ++ q). split; [by rewrite app_assoc|]. destruct p; [|by right]. destruct q; [|by right].
    destruct Hp as [Hp|?], Hq as [Hq|?]; try done. left. by exists [], []. }
  destruct Hc2 as [Hc2|(js2 & HR2 & Hok2 & Er2 & Hf2 & ->)]; [by left|].
  destruct Hc1 as [Hc1|(js1 & HR1 & Hok1 & Er1 & Hf1 & ->)]; [left; by apply Hb2|].
  right. exists (js1 ++ js2). split; [eauto|]. split; [by apply Forall_app|]. rewrite fmap_app, concat_app, length_app, Nat2Z.inj_add.
  rewrite less_less. split_and!; [rewrite Er1, Er2; by rewrite app_assoc| |done].
  destruct st; [done|]. cbn in *. lia.
Qed.

Lemma reads_bind {A B} (d : D A) (k : A → D B) R (R' : A → B → list item → Prop) :
  reads d R → (∀ a, reads (k a) (R' a)) →
  reads (d ≫= k) (λ b js, ∃ a js1 js2, js = js1 ++ js2 ∧ R a js1 ∧ R' a b js2).
Proof.
  intros Hd Hk s r st b s' Hi Hat E. apply bind_Ok_inv in E as (a & s1 & E1 & E2).
  pose proof (consumed_bind (R a) (R' a b) s1 s' r st Hi (Hd _ _ _ _ _ Hi Hat E1)) as Hc.
  destruct Hc as (r' & st' & H1 & H2 & H3 & H4 & H5 & H6 & H7); [intros r1 st1 Hi1 Hat1; by apply (Hk a s1 r1 st1 b s')|].
  exists r', st'. split_and!; try done.
  { destruct H2 as (p & -> & [(js1 & js2 & ? & ? & ?)|?]); [|by eauto]. exists p. split; [done|]. left. eauto 8. }
  destruct H7 as [H7|(js & (js1 & js2 & -> & ? & ?) & H7)]; [by left|]. right. exists (js1 ++ js2). split; [eauto 8|done].
Qed.

(** *** Lists *)

Lemma stream_List_inv s r st n s' :
  input_ok r st → at_ s r st → stream_List s = (Ok n, s') →
  ∃ rest st', r = tag List_ n 0 ++ rest ∧ 0 <= n <= Z.of_nat (length rest)
    ∧ fits (Z.of_nat (length (tag List_ n 0))) st ∧ at_ s' rest (n :: st') ∧ Forall is_u64 (n :: st')
    ∧ st' = match less (Z.of_nat (length (tag List_ n 0))) st with l :: t => (l -₆₄ n) :: t | [] => [] end.
Proof.
  intros (Hb & Hl & Hu) Hat E. unfold stream_List in E. apply bind_Ok_inv in E as ([k size] & s1 & E1 & E).
  destruct k; [done|done|]. injection E as -> <-.
  destruct (peek_inv _ _ _ _ _ _ Hb Hat E1) as (bv & rest & Hsz & -> & Hle & Hf & (H1 & H2 & H3 & H4) & _).
  cbn [tag tag_ok] in *. exists rest, (match less (Z.of_nat (length (puthead 0xC0 0xF7 n))) st with l :: t => (l -₆₄ n) :: t | [] => [] end).
  split; [done|]. split; [lia|]. split; [done|]. split; [|split].
  - split; [split_and!|]; cbn; try done. by rewrite H2.
  - rewrite length_app in Hl. constructor; [unfold is_u64; lia|]. destruct Hu as [|l t Hlu Hu]; [constructor|]. cbn. constructor; [apply u64_range|done].
  - done.
Qed.

Lemma ListEnd_inv s r st s' :
  at_ s r st → Forall is_u64 st → ListEnd s = (Ok (), s') → ∃ st', st = 0 :: st' ∧ at_ s' r st'.
Proof.
  intros [(H1 & H2 & H3 & H4) H5] Hu E. unfold ListEnd in E. rewrite H2 in E. destruct st as [|l st]; [done|].
  destruct (Z.ltb_spec 0 l) as [|Hl]; [done|]. injection E as <-. apply Forall_cons in Hu as [[? _] _].
  exists st. split; [f_equal; lia|]. by repeat split.
Qed.

Lemma reads_list {A} (inner : Z → D A) (RL : A → list item → Prop) (w : D unit → D unit) :
  (∀ s s', w ListEnd s = (Ok (), s') → ListEnd s = (Ok (), s')) →
  (∀ n, reads (inner n) RL) →
  reads (size ← wrap stream_List; x ← inner size; _ ← w ListEnd; mret x) (single (λ a i, ∃ js, i = Lst js ∧ RL a js)).
Proof.
  intros Hw Hin s r st a s' Hi Hat E. apply bind_Ok_inv in E as (n & s1 & E1 & E).
  apply bind_Ok_inv in E as (x & s2 & E2 & E). apply bind_Ok_inv in E as ([] & s3 & E3 & [= <- <-]).
  apply (proj1 (wrap_Ok _ _ _ _)) in E1. pose proof Hi as (Hb & Hlen & Hu).
  destruct (stream_List_inv _ _ _ _ _ Hi Hat E1) as (rest & st1 & -> & Hn & Hf & Hat1 & Hu1 & Est1).
  set (k := Z.of_nat (length (tag List_ n 0))) in *.
  assert (Hi1 : input_ok rest (n :: st1)) by (by eapply input_ok_suffix).
  destruct (Hin n s1 rest (n :: st1) x s2 Hi1 Hat1 E2) as (r2 & st2 & Hat2 & _ & Ht2 & Hl2 & Hu2 & _ & Hc2).
  destruct (ListEnd_inv _ _ _ _ Hat2 Hu2 (Hw _ _ E3)) as (st3 & -> & Hat3). cbn in Ht2, Hl2. subst st3.
  destruct Hc2 as [Hc2|(js & HR & Hok & -> & _ & Est)]; [cbn in Hc2; lia|]. cbn in Est. injection Est as Est.
  set (content := concat (enc <$> js)) in *. assert (En : n = Z.of_nat (length content)) by lia.
  assert (Ee : enc (Lst js) = tag List_ n 0 ++ content) by (rewrite En; done).
  rewrite !length_app in Hlen. apply Forall_cons in Hu1 as [Hnu Hu1].
  exists r2, st1. split_and!; [done| | | |done| |].
  - exists (tag List_ n 0 ++ content). split; [by rewrite app_assoc|]. right. rewrite <- Ee. apply enc_nonempty.
  - rewrite Est1. by destruct st.
  - rewrite Est1. by destruct st.
  - rewrite Est1. destruct st as [|l t]; [done|]. cbn [beyond less fits] in *. rewrite !length_app. apply Forall_cons in Hu as [Hlu _]. unfold u64, is_u64 in *.
    intros Hbe. rewrite Z.mod_small; lia.
  - assert (Ec : concat (enc <$> [Lst js]) = enc (Lst js)) by (cbn [fmap list_fmap concat]; by rewrite app_nil_r).
    assert (Elen : Z.of_nat (length (enc (Lst js))) = k + n) by (rewrite Ee, length_app, Nat2Z.inj_add, <- En; done).
    assert (Hdec : fits (k + n) st ∨ ¬ fits (k + n) st) by (destruct st; cbn; lia). destruct Hdec as [Hfn|Hfn].
    + right. exists [Lst js]. rewrite Ec, Elen. split_and!; [exists (Lst js); eauto|apply Forall_singleton; constructor; [done|unfold is_u64 in Hnu; fold content; lia]|by rewrite Ee, <- app_assoc|done|].
      rewrite Est1. destruct st as [|l t]; [done|]. cbn [less fits] in *. f_equal. apply Forall_cons in Hu as [Hlu _]. unfold u64, is_u64 in *. rewrite Z.mod_small; lia.
    + left. destruct st as [|l t]; [by destruct Hfn|]. rewrite Est1. cbn [beyond less fits] in *. apply Forall_cons in Hu as [Hlu _]. unfold u64, is_u64 in *.
      rewrite <- (Z.mod_unique (l - k - n) two64 (-1) (l - k - n + two64)); lia.
Qed.

(** The end of a list is noticed before anything is read. *)
Definition eol_clean {A} (d : D A) : Prop :=
  ∀ s r st s', input_ok r st → at_ s r st → d s = (Err sEOL, s') → s' = s.

Lemma reads_cons dec (den : rval → item → Prop) (rest : D (list rval)) (RL : list rval → list item → Prop) :
  reads dec (single den) → reads rest RL →
  reads (x ← dec; vs ← rest; mret (x :: vs)) (λ vs js, ∃ v vs' i js', vs = v :: vs' ∧ js = i :: js' ∧ den v i ∧ RL vs' js').
Proof.
  intros Hd Hr. eapply reads_impl; [|apply (reads_bind dec _ _ (λ v ws js, ∃ vs', ws = v :: vs' ∧ RL vs' js) Hd)].
  - intros ws js (v & js1 & js2 & -> & (i & -> & Hi) & vs' & -> & HR). cbn. eauto 10.
  - intros v. apply reads_map'. eapply reads_impl; [|exact Hr]. eauto.
Qed.

Lemma reads_stop (R : list item → Prop) s r st s' :
  input_ok r st → at_ s r st → R [] → s' = s → consumed R s' r st.
Proof. intros Hi Hat HR ->. by apply (reads_ret () (λ _, R) HR s r st () s). Qed.

Lemma reads_elems dec den fuel :
  reads dec (single den) → eol_clean dec → reads (decodeElems dec fuel) (Forall2 den).
Proof.
  intros Hd He. induction fuel as [|fuel IH]; [done|]. intros s r st vs s' Hi Hat E. cbn [decodeElems] in E.
  destruct (dec s) as [[v|e] s1] eqn:Ed.
  - assert (E' : (x ← dec; vs ← decodeElems dec fuel; mret (x :: vs)) s = (Ok vs, s')) by (unfold mbind at 1, D_bind; by rewrite Ed).
    eapply (reads_impl _ _ (Forall2 den)) in E'; [exact E'| |by apply (reads_cons dec den _ _ Hd IH)|done|done].
    intros ws js (v' & vs' & i & js' & -> & -> & ? & ?). by constructor.
  - destruct e; try done. injection E as <- <-. apply reads_stop with s; [done|done|constructor|by apply (He _ _ _ _ Hi Hat Ed)].
Qed.

Lemma reads_array dec den n :
  reads dec (single den) → reads (arrayElems dec n) (λ vs js, Forall2 den vs js ∧ length vs = n).
Proof.
  intros Hd. induction n as [|n IH]; [apply reads_ret; by split|]. intros s r st vs s' Hi Hat E. cbn [arrayElems] in E.
  destruct (dec s) as [[v|e] s1] eqn:Ed; [|by destruct e].
  assert (E' : (x ← dec; vs ← arrayElems dec n; mret (x :: vs)) s = (Ok vs, s')) by (unfold mbind at 1, D_bind; by rewrite Ed).
  eapply (reads_impl _ _ (λ vs js, Forall2 den vs js ∧ length vs = S n)) in E'; [exact E'| |by apply (reads_cons dec den _ _ Hd IH)|done|done].
  intros ws js (v' & vs' & i & js' & -> & -> & ? & ? & <-). by repeat constructor.
Qed.

Lemma reads_fields fs :
  Forall (λ f, reads (decodeType f.2) (single (denote f.2)) ∧ eol_clean (decodeType f.2)) fs →
  reads (decodeFields decodeType fs) (denoteFields denote fs).
Proof.
  induction 1 as [|[o t] fs [Ht He] _ IH]; [apply reads_ret; by split|]. cbn [snd] in *. intros s r st vs s' Hi Hat E. cbn [decodeFields] in E.
  destruct (decodeType t s) as [[v|e] s1] eqn:Ed.
  - assert (E' : (x ← decodeType t; vs ← decodeFields decodeType fs; mret (x :: vs)) s = (Ok vs, s')) by (unfold mbind at 1, D_bind; by rewrite Ed).
    eapply (reads_impl _ _ (denoteFields denote ((o, t) :: fs))) in E'; [exact E'| |by apply (reads_cons _ (denote t) _ _ Ht IH)|done|done].
    intros ws js H. left. exact H.
  - destruct e; try done. destruct o; [|done]. injection E as <- <-.
    apply reads_stop with s; [done|done|by right|by apply (He _ _ _ _ Hi Hat Ed)].
Qed.

(** *** Errors *)

(** A reader fails with a proper error, or at the end of a list before reading. *)
Definition clean {A} (d : D A) : Prop :=
  ∀ s r st e s', input_ok r st → at_ s r st → d s = (Err e, s') → loud e ∨ e = sEOL ∧ s' = s.

Lemma clean_eol {A} (d : D A) : clean d → eol_clean d.
Proof. intros Hc s r st s' Hi Hat E. destruct (Hc _ _ _ _ _ Hi Hat E) as [[? _]|[_ ->]]; done. Qed.

Lemma clean_peek {A} (f : Kind * Z → D A) :
  (∀ ks s e s', f ks s = (Err e, s') → loud e) → clean (peek ≫= f).
Proof.
  intros Hf s r st e s' (Hb & _) Hat [E|(ks & s1 & _ & E)]%bind_Err; [|left; by eapply Hf].
  destruct (peek_err _ _ _ _ _ Hb Hat E) as [?|(? & ? & _)]; auto.
Qed.

Lemma wrap_loud e : loud e → loud (wrapStreamError e).
Proof. by destruct e. Qed.

Lemma clean_wrap {A} (m : D A) : clean m → clean (wrap m).
Proof.
  intros Hm s r st e s' Hi Hat E. unfold wrap in E. destruct (m s) as [[a|e0] s1] eqn:Em; [done|]. injection E as <- <-.
  destruct (Hm _ _ _ _ _ Hi Hat Em) as [?|[-> ->]]; [left; by apply wrap_loud|by right].
Qed.

Lemma clean_bind {A B} (m : D A) (f : A → D B) :
  clean m → (∀ a s e s', f a s = (Err e, s') → loud e) → clean (m ≫= f).
Proof. intros Hm Hf s r st e s' Hi Hat [E|(a & s1 & _ & E)]%bind_Err; [by apply (Hm s r st)|left; by eapply Hf]. Qed.

Lemma mret_no_err {A} (a : A) s e s' : (mret a : D A) s = (Err e, s') → loud e.
Proof. done. Qed.

Lemma takeByteval_no_err s e s' : takeByteval s = (Err e, s') → loud e.
Proof. done. Qed.

Lemma readString_err size f s e s' :
  (b ← readFull size; if shortByte size b then fail f else mret b) s = (Err e, s') → loud f → loud e.
Proof. intros [?%readFull_err|(b & s1 & _ & E)]%bind_Err Hf; [done|]. case_if_in E; [by injection E as <- _|done]. Qed.

Lemma stream_Bytes_clean : clean stream_Bytes.
Proof.
  apply clean_peek. intros [[] size] s e s' E; [done|by eapply readString_err|by injection E as <- _].
Qed.

Lemma stream_uint_clean m : (m <= 8)%nat → clean (stream_uint (8 * Z.of_nat m)).
Proof.
  intros Hm. apply clean_peek. intros [[] size] s e s' E; [| |by injection E as <- _].
  - unfold mbind, D_bind, getByteval in E. case_if_in E; [by injection E as <- _|done].
  - replace (8 * Z.of_nat m / 8) with (Z.of_nat m) in E by (rewrite Z.mul_comm, Z.div_mul; lia).
    destruct (Z.ltb_spec (Z.of_nat m) size); [by injection E as <- _|].
    apply bind_Err in E as [E|(v & s1 & _ & E)]; [|case_if_in E; [by injection E as <- _|done] ].
    unfold readInt in E. destruct (readUint size s) as [[?|e0] ?] eqn:Eu; [done|]. apply readUint_err in Eu; [|lia].
    destruct e0; by injection E as <- _.
Qed.

Lemma intBuffer_clean large : clean (intBuffer large).
Proof.
  apply clean_peek. intros [[] size] s e s' E; [done| |by injection E as <- _].
  case_if_in E; [done|]. case_if_in E; [by eapply readString_err|]. destruct large; [by eapply readFull_err|by injection E as <- _].
Qed.

Lemma decodeByteArray_clean n : clean (decodeByteArray n).
Proof.
  apply clean_peek. intros [[] size] s e s' E; [|do 2 (case_if_in E; [by injection E as <- _|])|by injection E as <- _].
  - repeat case_if_in E; try (by injection E as <- _). done.
  - apply bind_Err in E as [?%readFull_err|(b & s1 & _ & E)]; [done|]. case_if_in E; [by injection E as <- _|done].
Qed.

(** Inside a list the end is never reported to the outside. *)
Definition loudL {A} (d : D A) : Prop :=
  ∀ s r st e s', input_ok r st → at_ s r st → d s = (Err e, s') → loud e.

Lemma consumed_next (R : list item → Prop) s' r st :
  consumed R s' r st → input_ok r st → ¬ R [] →
  ∃ r' st', input_ok r' st' ∧ at_ s' r' st' ∧ (length r' < length r)%nat.
Proof.
  intros (r' & st' & Hat & (p & -> & Hp) & _ & _ & Hu & _) Hi HR. exists r', st'. split; [by eapply input_ok_suffix|]. split; [done|].
  destruct Hp as [?|Hp]; [done|]. rewrite length_app. destruct p; [done|]. cbn. lia.
Qed.

Lemma single_nil {A} (R : A → item → Prop) a : ¬ single R a [].
Proof. by intros (i & [=] & _). Qed.

Lemma elems_loud dec (R : rval → item → Prop) fuel s r st e s' :
  reads dec (single R) → clean dec → input_ok r st → at_ s r st → (length r < fuel)%nat →
  decodeElems dec fuel s = (Err e, s') → loud e.
Proof.
  intros Hr Hc. revert s r st. induction fuel as [|fuel IH]; intros s r st Hi Hat Hf E; [lia|]. cbn [decodeElems] in E.
  destruct (dec s) as [[v|e0] s1] eqn:Ed.
  - apply bind_Err in E as [E|(vs & s2 & _ & E)]; [|done].
    destruct (consumed_next _ _ _ _ (Hr _ _ _ _ _ Hi Hat Ed) Hi (single_nil R v)) as (r1 & st1 & Hi1 & Hat1 & Hlt).
    eapply IH; [exact Hi1|exact Hat1|lia|exact E].
  - destruct (Hc _ _ _ _ _ Hi Hat Ed) as [Hl|[-> ->]]; [|done].
    destruct e0; (by destruct Hl) || by injection E as <- _.
Qed.

Lemma array_loud dec (R : rval → item → Prop) n : reads dec (single R) → clean dec → loudL (arrayElems dec n).
Proof.
  intros Hr Hc. induction n as [|n IH]; intros s r st e s' Hi Hat E; [done|]. cbn [arrayElems] in E.
  destruct (dec s) as [[v|e0] s1] eqn:Ed.
  - apply bind_Err in E as [E|(vs & s2 & _ & E)]; [|done].
    destruct (consumed_next _ _ _ _ (Hr _ _ _ _ _ Hi Hat Ed) Hi (single_nil R v)) as (r1 & st1 & Hi1 & Hat1 & _). by eapply IH.
  - destruct (Hc _ _ _ _ _ Hi Hat Ed) as [Hl|[-> ->]]; [|by injection E as <- _].
    destruct e0; (by destruct Hl) || by injection E as <- _.
Qed.

Lemma fields_loud fs :
  Forall (λ f, reads (decodeType f.2) (single (denote f.2)) ∧ clean (decodeType f.2)) fs → loudL (decodeFields decodeType fs).
Proof.
  induction 1 as [|[o t] fs [Hr Hc] _ IH]; intros s r st e s' Hi Hat E; [done|]. cbn [decodeFields snd] in *.
  destruct (decodeType t s) as [[v|e0] s1] eqn:Ed.
  - apply bind_Err in E as [E|(vs & s2 & _ & E)]; [|done].
    destruct (consumed_next _ _ _ _ (Hr _ _ _ _ _ Hi Hat Ed) Hi (single_nil (denote t) v)) as (r1 & st1 & Hi1 & Hat1 & _). by eapply IH.
  - destruct (Hc _ _ _ _ _ Hi Hat Ed) as [Hl|[-> ->]]; [|destruct o; [done|by injection E as <- _] ].
    destruct e0; (by destruct Hl) || by injection E as <- _.
Qed.

Lemma stream_List_clean : clean stream_List.
Proof. apply clean_peek. intros [[] size] s e s' E; (by injection E as <- _) || done. Qed.

Lemma ListEnd_loud s e s' : ListEnd s = (Err e, s') → loud e.
Proof. unfold ListEnd. destruct (stack s); [by intros [= <- _]|]. case_if; by intros [= <- _]. Qed.

Lemma list_clean {A} (inner : Z → D A) (w : D unit → D unit) :
  (∀ s e s', w ListEnd s = (Err e, s') → loud e) → (∀ n, loudL (inner n)) →
  clean (size ← wrap stream_List; x ← inner size; _ ← w ListEnd; mret x).
Proof.
  intros Hw Hin s r st e s' Hi Hat [E|(n & s1 & E1 & E)]%bind_Err; [by apply (clean_wrap _ stream_List_clean s r st)|]. left.
  apply (proj1 (wrap_Ok _ _ _ _)) in E1. destruct (stream_List_inv _ _ _ _ _ Hi Hat E1) as (rest & st1 & -> & _ & _ & Hat1 & Hu1 & _).
  apply bind_Err in E as [E|(x & s2 & _ & E)]; [eapply Hin; [|exact Hat1|exact E]; by eapply input_ok_suffix|].
  apply bind_Err in E as [E|(u & s3 & _ & E)]; [by eapply Hw|done].
Qed.

Lemma wrap_ListEnd_loud s e s' : wrap ListEnd s = (Err e, s') → loud e.
Proof.
  unfold wrap. destruct (ListEnd s) as [[?|e0] s1] eqn:E; [done|]. intros [= <- _]. apply wrap_loud. by eapply ListEnd_loud.
Qed.

Lemma clean_ext {A} (d d' : D A) : (∀ s, d s = d' s) → clean d → clean d'.
Proof. intros He Hd s r st e s' Hi Hat E. rewrite <- He in E. by apply (Hd s r st). Qed.

(** *** Values *)

Lemma reads_uint m :
  (0 < m <= 8)%nat → reads (stream_uint (8 * Z.of_nat m)) (λ n, single (λ n i, i = Str (min_bytes n) ∧ 0 <= n < 256 ^ Z.of_nat m) n).
Proof.
  intros Hm. apply reads_took. intros s r st n s' (Hb & _) Hat E.
  destruct (stream_uint_inv m s r st n s' ltac:(lia) Hb Hat E ltac:(lia)) as [Ht Hn]. exists (min_bytes n). split; [done|].
  by exists (Str (min_bytes n)).
Qed.

Lemma reads_bool : reads stream_Bool (single (λ b i, i = Str (if b : bool then [1] else []))).
Proof.
  unfold stream_Bool. intros s r st b s' Hi Hat E. apply bind_Ok_inv in E as (n & s1 & E1 & E).
  pose proof (reads_uint 1 ltac:(lia) s r st n s1 Hi Hat E1) as Hc.
  assert (Hs : s1 = s' ∧ (b = true ∧ n = 1 ∨ b = false ∧ n = 0)).
  { destruct (Z.eqb_spec n 0); [injection E as <- <-; auto|]. destruct (Z.eqb_spec n 1); [injection E as <- <-; auto|done]. }
  destruct Hs as [<- Hb]. destruct Hc as (r' & st' & H1 & (p & Hp & [Hn|Hn]) & H3 & H4 & H5 & H6 & H7); [by apply single_nil in Hn|].
  exists r', st'. split_and!; try done; [eauto|]. destruct H7 as [?|(js & (i & -> & -> & _) & H7)]; [by left|]. right.
  eexists. split; [|exact H7]. eexists. split; [done|]. by destruct Hb as [[-> ->]|[-> ->]].
Qed.

Lemma reads_bytes : reads stream_Bytes (single (λ b i, i = Str b)).
Proof.
  apply reads_took. intros s r st b s' (Hb & _) Hat E. exists b. split; [by apply (stream_Bytes_inv s)|]. by exists (Str b).
Qed.

Lemma reads_int large :
  reads (b ← intBuffer large; if leadingZero b then fail sCanonInt else mret (be_value b))
    (single (λ n i, i = Str (min_bytes n) ∧ 0 <= n ∧ (large = false → n < 2 ^ 256))).
Proof.
  apply reads_took. intros s r st n s' (Hb & _) Hat E. apply bind_Ok_inv in E as (b & s1 & E1 & E).
  destruct (leadingZero b) eqn:Hz; [done|]. injection E as <- <-. destruct (intBuffer_inv _ _ _ _ _ _ Hb Hat E1) as [Ht Hl].
  exists b. split; [done|]. pose proof Ht as (r' & _ & Hbb & _). exists (Str b). rewrite min_bytes_be_value by done.
  pose proof (be_value_bound _ Hbb) as Hbd. split_and!; [done|done|lia|]. intros El. specialize (Hl El).
  assert (256 ^ Z.of_nat (length b) <= 256 ^ 32) by (apply Z.pow_le_mono_r; lia). change (2 ^ 256) with (256 ^ 32). lia.
Qed.

Lemma reads_byteArray n : reads (decodeByteArray n) (single (denote (RByteArray n))).
Proof.
  apply reads_took. intros s r st v s' (Hb & _) Hat E. unfold decodeByteArray in E. apply bind_Ok_inv in E as ([k size] & s1 & E1 & E).
  destruct k; [| |done].
  - destruct (Nat.eqb_spec n 0); [done|]. destruct (Nat.ltb_spec 1 n); [done|]. apply bind_Ok_inv in E as (c & s2 & E2 & [= <- <-]).
    destruct (took_byte _ _ _ _ _ _ _ Hb Hat E1 E2) as [Ht _]. exists [c]. split; [done|]. exists (Str [c]). split; [done|].
    exists [c]. split_and!; [done|done|cbn; lia].
  - destruct (Z.ltb_spec (Z.of_nat n) size); [done|]. destruct (Z.ltb_spec size (Z.of_nat n)); [done|].
    apply bind_Ok_inv in E as (b & s2 & E2 & E). destruct (took_long _ _ _ _ _ _ _ Hb Hat E1 E2) as [Hlen Ht].
    destruct (shortByte size b) eqn:Es; [done|]. injection E as <- <-. rewrite <- Hlen in Es.
    exists b. split; [by apply Ht, shortByte_false|]. exists (Str b). split; [done|]. exists b. split_and!; [done|done|lia].
Qed.

Lemma reads_nilptr k ty :
  k ≠ Byte → reads (decodeType ty) (single (denote ty)) → reads (decodeNilPtr (decodeType ty) k) (single (denote (RNilPtr k ty))).
Proof.
  intros Hk Hr s r st v s' Hi Hat E. pose proof Hi as (Hb & Hl & Hu). unfold decodeNilPtr in E.
  apply bind_Ok_inv in E as ([k' size] & s1 & E1 & E). apply (proj1 (wrap_Ok _ _ _ _)) in E1.
  destruct (bool_decide (k' ≠ Byte) && (size =? 0)) eqn:Ec.
  - apply andb_true_iff in Ec as [Hk' Hs]. apply bool_decide_eq_true in Hk'. apply Z.eqb_eq in Hs. subst size.
    destruct (decide (k' = k)) as [->|Hne]; [|by rewrite bool_decide_true in E].
    rewrite bool_decide_false in E by (intros H; by apply H). injection E as <- <-.
    destruct (peek_inv _ _ _ _ _ _ Hb Hat E1) as (bv & rest & _ & -> & _ & Hf & Hp & _).
    assert (Et : tag k 0 bv = concat (enc <$> [emptyItem k])) by (by destruct k).
    rewrite Et in *. exists rest, (less (Z.of_nat (length (concat (enc <$> [emptyItem k])))) st).
    split_and!; [by split| |by destruct st|by destruct st|by apply u64_less; [|lia|]|apply beyond_less; rewrite length_app; lia|].
    + eexists. split; [done|]. right. by destruct k.
    + right. exists [emptyItem k]. split_and!; [|by destruct k; repeat constructor|done..]. exists (emptyItem k). split; [done|]. by left.
  - rewrite (decode_peek _ _ _ _ E1) in E. destruct (Hr s r st v s' Hi Hat E) as (r' & st' & H1 & (p & Hp & [Hn|Hn]) & H3 & H4 & H5 & H6 & H7); [by apply single_nil in Hn|].
    exists r', st'. split_and!; try done; [eauto|]. destruct H7 as [?|(js & (i & -> & Hd) & Hok & Er & Hf & Es)]; [by left|]. right.
    exists [i]. split_and!; try done. exists i. split; [done|]. right. split; [done|].
    apply Forall_inv in Hok. cbn [fmap list_fmap concat] in Er, Hf. rewrite app_nil_r in Er, Hf. rewrite Er in Hat.
    destruct (peek_item i s r' st Hok Hat Hf) as (k2 & size2 & s2 & E2 & _ & He). rewrite E1 in E2. injection E2 as -> -> ->.
    split; intros ->.
    + destruct (He String_ ltac:(done) eq_refl) as (-> & -> & _). done.
    + destruct (He List_ ltac:(done) eq_refl) as (-> & -> & _). done.
Qed.

Lemma decodeType_reads ty : wf_type ty → reads (decodeType ty) (single (denote ty)) ∧ clean (decodeType ty).
Proof.
  induction ty as [bits| | |n| | |t IH|k t IH|t IH|n t IH|fs IH] using rtype_ind'; intros Hw; cbn [decodeType].
  - destruct (wf_uint bits Hw) as (m & -> & Hm). split.
    + apply (reads_map _ VNum). eapply reads_impl; [|by apply reads_uint]. intros n js (i & -> & -> & Hn). rewrite two_pow_bytes in Hn.
      eexists. split; [done|]. by exists n.
    + apply clean_bind; [apply clean_wrap, stream_uint_clean; lia|done].
  - split.
    + apply (reads_map _ VBool). eapply reads_impl; [|apply reads_bool]. intros b js (i & -> & ->). eexists. split; [done|]. by exists b.
    + apply clean_bind; [|done]. apply clean_wrap, clean_bind; [apply (stream_uint_clean 1); lia|].
      intros n s e s' E. repeat (case_if_in E); try done. by injection E as <- _.
  - split; [|apply clean_bind; [apply clean_wrap, stream_Bytes_clean|done] ].
    apply (reads_map _ VBytes). eapply reads_impl; [|apply reads_bytes]. intros b js (i & -> & ->). eexists. split; [done|]. by exists b.
  - split; [apply reads_byteArray|apply decodeByteArray_clean].
  - split.
    + apply (reads_map _ VNum). eapply reads_impl; [|apply (reads_int true)]. intros n js (i & -> & -> & Hn & _). eexists. split; [done|]. by exists n.
    + apply clean_bind; [|done]. apply clean_wrap, clean_bind; [apply intBuffer_clean|]. intros b s e s' E. case_if_in E; [by injection E as <- _|done].
  - split.
    + apply (reads_map _ VNum). eapply reads_impl; [|apply (reads_int false)]. intros n js (i & -> & -> & Hn & Hb). eexists. split; [done|].
      exists n. split_and!; [done..|by apply Hb].
    + apply clean_bind; [|done]. apply clean_wrap, clean_bind; [apply intBuffer_clean|]. intros b s e s' E. case_if_in E; [by injection E as <- _|done].
  - apply andb_True in Hw as [_ Hw]. exact (IH Hw).
  - apply andb_True in Hw as [Hw Hwt]. apply andb_True in Hw as [Hw _]. apply andb_True in Hw as [Hk%bool_decide_unpack _].
    destruct (IH Hwt) as [Hr Hc]. split; [by apply reads_nilptr|]. intros s r st e s' Hi Hat E.
    unfold decodeNilPtr in E. apply bind_Err in E as [E|([k' size] & s1 & E1 & E)].
    + eapply (clean_wrap peek); [|exact Hi|exact Hat|exact E]. intros s0 r0 st0 e0 s0' (Hb & _) Hat0 E0.
      destruct (peek_err _ _ _ _ _ Hb Hat0 E0) as [?|(? & ? & _)]; auto.
    + apply (proj1 (wrap_Ok _ _ _ _)) in E1. case_if_in E; [case_if_in E; [left; by injection E as <- _|done]|].
      rewrite (decode_peek _ _ _ _ E1) in E. by apply (Hc s r st).
  - destruct (IH Hw) as [Hr Hc]. split.
    + apply (reads_ext _ _ _ (decodeListSlice_eq _)). eapply reads_impl; [|apply (reads_list (sliceInner _) (λ v js, ∃ vs, v = VList vs ∧ Forall2 (denote t) vs js) id)].
      * intros v js (i & -> & ks & -> & vs & -> & Hd). eexists. split; [done|]. by exists vs, ks.
      * done.
      * intros n. unfold sliceInner. case_if; [apply reads_ret; by exists []|]. apply (reads_map' _ VList). eapply reads_impl; [|intros s r st a s' Hi Hat E; eapply reads_elems; [exact Hr|by apply clean_eol|exact Hi|exact Hat|exact E] ].
        intros vs js Hd. by exists vs.
    + apply (clean_ext _ _ (decodeListSlice_eq _)), (list_clean (sliceInner _) id); [exact ListEnd_loud|]. intros n s r st e s' Hi Hat E. unfold sliceInner in E.
      case_if_in E; [done|]. apply bind_Err in E as [E|(vs & s1 & _ & E)]; [|done].
      eapply elems_loud; [exact Hr|exact Hc|exact Hi|exact Hat| |exact E]. destruct Hat as [(-> & _) _]. lia.
  - destruct (IH Hw) as [Hr Hc]. split.
    + apply (reads_ext _ _ _ (decodeListArray_eq _ _)). eapply reads_impl; [|apply (reads_list (λ _, ws ← arrayElems _ _; mret (VList ws)) (λ v js, ∃ vs, v = VList vs ∧ Forall2 (denote t) vs js ∧ length vs = n) wrap)].
      * intros v js (i & -> & ks & -> & vs & -> & Hd & Hl). eexists. split; [done|]. by exists vs, ks.
      * intros s s' E. by apply (proj1 (wrap_Ok _ _ _ _)).
      * intros _. apply (reads_map' _ VList). eapply reads_impl; [|by apply reads_array]. intros vs js Hd. by exists vs.
    + apply (clean_ext _ _ (decodeListArray_eq _ _)), (list_clean (λ _, ws ← arrayElems _ _; mret (VList ws)) wrap); [exact wrap_ListEnd_loud|]. intros _ s r st e s' Hi Hat E.
      apply bind_Err in E as [E|(vs & s1 & _ & E)]; [|done]. by eapply array_loud.
  - apply andb_True in Hw as [_ Hw]. apply forallb_True in Hw.
    assert (Hfs : Forall (λ f, reads (decodeType f.2) (single (denote f.2)) ∧ clean (decodeType f.2)) fs).
    { rewrite Forall_forall in *. intros f Hf. apply IH; [done|]. by apply (Hw f). }
    split.
    + apply (reads_ext _ _ _ (decodeStruct_eq _)). eapply reads_impl; [|apply (reads_list (λ _, ws ← decodeFields decodeType fs; mret (VList ws)) (λ v js, ∃ vs, v = VList vs ∧ denoteFields denote fs vs js) wrap)].
      * intros v js (i & -> & ks & -> & vs & -> & Hd). eexists. split; [done|]. by exists vs, ks.
      * intros s s' E. by apply (proj1 (wrap_Ok _ _ _ _)).
      * intros _. apply (reads_map' _ VList). eapply reads_impl; [|apply reads_fields; eapply Forall_impl; [exact Hfs|]; intros f [? ?]; split; [done|by apply clean_eol] ].
        intros vs js Hd. by exists vs.
    + apply (clean_ext _ _ (decodeStruct_eq _)), (list_clean (λ _, ws ← decodeFields decodeType fs; mret (VList ws)) wrap); [exact wrap_ListEnd_loud|]. intros _ s r st e s' Hi Hat E.
      apply bind_Err in E as [E|(vs & s1 & _ & E)]; [|done]. by eapply fields_loud.
Qed.

(** ** What the writers write *)

Fixpoint canon (ty : rtype) (v : rval) {struct ty} : item :=
  match ty, v with
  | (RUint _ | RBigInt | RU256), VNum n => Str (min_bytes n)
  | RBool, VBool b => Str (if b then [1] else [])
  | (RByteSlice | RByteArray _), VBytes b => Str b
  | RPtr t, VNil => emptyItem (DefaultNilValue t)
  | RPtr t, v => canon t v
  | RNilPtr k _, VNil => emptyItem k
  | RNilPtr _ t, v => canon t v
  | (RSlice t | RArray _ t), VList vs => Lst (canon t <$> vs)
  | RSlice _, VNil => Lst []
  | RStruct fs, VList vs => Lst (take (writtenFields fs vs) (map2 (λ f, canon f.2) fs vs))
  | _, _ => Str []
  end.

Lemma nonnil_denote ty v i : nonnil ty → denote ty v i → v ≠ VNil.
Proof. destruct ty; cbn; try done; naive_solver. Qed.

Lemma isZero_zeroOf ty : isZero ty (zeroOf ty) = true.
Proof.
  induction ty as [bits| | |n| | |t IH|k t IH|t IH|n t IH|fs IH] using rtype_ind'; try done; cbn.
  - by induction n.
  - induction n; [done|]. cbn. by rewrite IH.
  - induction IH as [|f fs Hf _ IHfs]; [done|]. cbn. by rewrite Hf.
Qed.

Lemma isZero_denote ty v i : wf_type ty → denote ty v i → isZero ty v = true → v = zeroOf ty.
Proof.
  revert v i. induction ty as [bits| | |n| | |t IH|k t IH|t IH|n t IH|fs IH] using rtype_ind'; intros v i Hw Hd Hz; cbn [denote isZero zeroOf] in *.
  - destruct Hd as (n & -> & _). apply Z.eqb_eq in Hz. by subst.
  - destruct Hd as (b & -> & _). by destruct b.
  - by destruct Hd as (b & -> & _).
  - destruct Hd as (b & -> & _ & <-). f_equal. induction b as [|c b IHb]; [done|]. cbn in *. apply andb_true_iff in Hz as [Hc Hz].
    apply Z.eqb_eq in Hc. subst. f_equal. auto.
  - by destruct Hd as (n & -> & _).
  - by destruct Hd as (n & -> & _).
  - by destruct v.
  - by destruct v.
  - by destruct Hd as (vs & js & -> & _).
  - destruct Hd as (vs & js & -> & _ & Hd & <-). f_equal. induction Hd as [|v j vs js Hv Hd IHd]; [done|]. cbn in *.
    apply andb_true_iff in Hz as [Hv' Hz]. f_equal; eauto.
  - destruct Hd as (vs & js & -> & _ & Hd). f_equal. apply andb_True in Hw as [_ Hw]. revert vs js Hd Hz.
    induction IH as [|[o t] fs Ht _ IHfs]; intros vs js Hd Hz; cbn in *; [by destruct Hd as [-> _]|]. apply andb_True in Hw as [Hwt Hw].
    destruct Hd as [(v & vs' & i' & js' & -> & -> & Hv & Hd)|(_ & _ & ->)]; [|done]. apply andb_true_iff in Hz as [Hzv Hz].
    f_equal; [by eapply Ht|by eapply IHfs].
Qed.

Lemma afterLast_zeros n : afterLast (replicate n true) = 0%nat.
Proof. induction n as [|n IH]; [done|]. cbn. by rewrite IH. Qed.

Lemma map2_zeros fs : map2 (λ f, isZero f.2) fs ((λ f : bool * rtype, zeroOf f.2) <$> fs) = replicate (length fs) true.
Proof. induction fs as [|[o t] fs IH]; [done|]. cbn. by rewrite isZero_zeroOf, IH. Qed.

Lemma written_required t fs v vs : writtenFields ((false, t) :: fs) (v :: vs) = S (writtenFields fs vs).
Proof. unfold writtenFields. cbn [firstOptionalField map2 afterLast]. destruct (afterLast _); [case_if|]; lia. Qed.

Lemma written_optional fs vs : forallb fst fs → writtenFields fs vs = afterLast (map2 (λ f, isZero f.2) fs vs).
Proof. unfold writtenFields. destruct fs as [|[[] t] fs]; [done|done|]. done. Qed.

Lemma optional_missing fs vs : forallb fst fs → denoteFields denote fs vs [] → vs = (λ f : bool * rtype, zeroOf f.2) <$> fs.
Proof.
  destruct fs as [|[[] t] fs]; cbn; [by intros _ [-> _]| |done]. intros _ [(? & ? & ? & ? & _ & [=] & _)|(_ & _ & ->)]. done.
Qed.

Lemma fields_canon fs vs js :
  optionalSuffix fs → forallb (λ f, wf_type f.2) fs →
  Forall (λ f, ∀ v i, wf_type f.2 → denote f.2 v i → denote f.2 v (canon f.2 v) ∧ (plain f.2 → canon f.2 v = i)) fs →
  denoteFields denote fs vs js → denoteFields denote fs vs (take (writtenFields fs vs) (map2 (λ f, canon f.2) fs vs)).
Proof.
  intros Ho Hw Hfs. revert vs js Ho Hw. induction Hfs as [|[o t] fs Ht _ IH]; intros vs js Ho Hw Hd.
  { by destruct Hd as [-> _]. }
  cbn [optionalSuffix forallb snd] in *. apply andb_True in Ho as [Hopt Ho]. apply andb_True in Hw as [Hwt Hw].
  destruct Hd as [(v & vs' & i & js' & -> & -> & Hv & Hd)|(-> & -> & ->)].
  - specialize (IH vs' js' Ho Hw Hd). destruct (Ht v i Hwt Hv) as [Hv' _]. destruct o.
    + cbn [negb orb] in Hopt. rewrite (written_optional ((true, t) :: fs)) by done. cbn [map2 afterLast snd].
      rewrite written_optional in IH by done. destruct (afterLast (map2 _ fs vs')) as [|n] eqn:En.
      * cbn [take] in IH. apply optional_missing in IH; [|done]. destruct (isZero t v) eqn:Ez.
        -- right. cbn [take]. split_and!; [done..|]. cbn. f_equal; [by eapply isZero_denote|done].
        -- left. cbn [take]. eexists v, vs', _, []. split_and!; [done..|]. subst vs'.
           destruct fs as [|[[] t'] fs]; [done|by right|done].
      * left. cbn [take]. eexists v, vs', _, _. split_and!; [done..|]. exact IH.
    + rewrite written_required. left. cbn [take map2]. by eexists v, vs', _, _.
  - rewrite written_optional by done. rewrite map2_zeros, afterLast_zeros. by right.
Qed.

Lemma fields_plain fs vs js :
  forallb (λ f, negb f.1 && plain f.2) fs → forallb (λ f, wf_type f.2) fs →
  Forall (λ f, ∀ v i, wf_type f.2 → denote f.2 v i → denote f.2 v (canon f.2 v) ∧ (plain f.2 → canon f.2 v = i)) fs →
  denoteFields denote fs vs js → take (writtenFields fs vs) (map2 (λ f, canon f.2) fs vs) = js.
Proof.
  intros Hp Hw Hfs. revert vs js Hp Hw. induction Hfs as [|[o t] fs Ht _ IH]; intros vs js Hp Hw Hd.
  { by destruct Hd as [-> ->]. }
  cbn [forallb fst snd] in *. apply andb_True in Hp as [[Ho Hpt]%andb_True Hp]. apply andb_True in Hw as [Hwt Hw]. destruct o; [done|].
  destruct Hd as [(v & vs' & i & js' & -> & -> & Hv & Hd)|([=] & _)]. rewrite written_required. cbn [map2 take snd]. f_equal; [by apply Ht|eauto].
Qed.

(** The encoder writes a tree that stands for the value; without optional fields
    there is only one. *)
Lemma canon_denote ty v i : wf_type ty → denote ty v i → denote ty v (canon ty v) ∧ (plain ty → canon ty v = i).
Proof.
  revert v i. induction ty as [bits| | |n| | |t IH|k t IH|t IH|n t IH|fs IH] using rtype_ind'; intros v i Hw Hd; cbn [denote plain] in *.
  - destruct Hd as (n & -> & -> & Hn). eauto 10.
  - destruct Hd as (b & -> & ->). eauto.
  - destruct Hd as (b & -> & ->). eauto.
  - destruct Hd as (b & -> & -> & Hl). eauto 10.
  - destruct Hd as (n & -> & -> & Hn). eauto 10.
  - destruct Hd as (n & -> & -> & Hn). eauto 10.
  - apply andb_True in Hw as [Hn Hw]. pose proof (nonnil_denote _ _ _ Hn Hd). destruct v; try done; by apply IH.
  - apply andb_True in Hw as [Hw Hwt]. apply andb_True in Hw as [Hw Hp]. apply andb_True in Hw as [_ Hn].
    destruct Hd as [[-> ->]|(Hd & Hs & Hl)]; [by split; [left|]|]. pose proof (nonnil_denote _ _ _ Hn Hd).
    destruct (IH v i Hwt Hd) as [Hd' Hi]. rewrite (Hi Hp) in *.
    assert (Ec : canon (RNilPtr k t) v = canon t v) by (by destruct v). rewrite Ec, (Hi Hp). auto.
  - destruct Hd as (vs & js & -> & -> & Hd). split.
    + exists vs, (canon t <$> vs). split_and!; [done..|]. induction Hd as [|v j vs js Hv Hd IHd]; constructor; [by eapply IH|done].
    + intros Hp. cbn. f_equal. induction Hd as [|v j vs js Hv Hd IHd]; [done|]. cbn. f_equal; [by eapply IH|done].
  - destruct Hd as (vs & js & -> & -> & Hd & <-). cbn [wf_type] in Hw. split.
    + exists vs, (canon t <$> vs). split_and!; [done..| |done]. induction Hd as [|v j vs js Hv Hd IHd]; constructor; [by eapply IH|done].
    + intros Hp. cbn. f_equal. induction Hd as [|v j vs js Hv Hd IHd]; [done|]. cbn. f_equal; [by eapply IH|done].
  - destruct Hd as (vs & js & -> & -> & Hd). apply andb_True in Hw as [Hf Hw]. split.
    + eexists vs, _. split_and!; [done..|]. eapply fields_canon; [|done|exact IH|done]. by destruct fs as [|[[] ?] ?].
    + intros Hp. cbn. f_equal. by eapply fields_plain.
Qed.

(** *** Through the buffer *)

Lemma wrote_str b buf : wrote [Str b] buf (eb_Write buf (encStr b)).
Proof.
  constructor; cbn; rewrite ?app_nil_r; [done..|]. unfold eb_size; cbn. rewrite length_app. lia.
Qed.

Lemma wrote_nothing buf : wrote [Lst []] buf (eb_Write buf [0xC0]).
Proof.
  constructor; cbn; rewrite ?app_nil_r; [done..|]. unfold eb_size; cbn. rewrite length_app. cbn [length].
  change (length (encList [])) with 1%nat. lia.
Qed.

Lemma wrote_emptyItem k buf : wrote [emptyItem k] buf (eb_Write buf [nilEncoding k]).
Proof. destruct k; [apply (wrote_str [])|apply (wrote_str [])|apply wrote_nothing]. Qed.

Lemma eb_Write_app buf a b : eb_Write (eb_Write buf a) b = eb_Write buf (a ++ b).
Proof. unfold eb_Write. cbn. by rewrite app_assoc. Qed.

Lemma min_bytes_long n : 128 <= n → long_string (min_bytes n).
Proof.
  intros Hn. destruct (min_bytes_spec n) as (Hv & _); [lia|]. unfold long_string. destruct (min_bytes n) as [|c [|]]; try done. cbn in Hv. lia.
Qed.

Lemma writeUint64_min buf n : 0 <= n < two64 → writeUint64 buf n = eb_Write buf (encStr (min_bytes n)).
Proof.
  intros Hn. unfold writeUint64. destruct (Z.eqb_spec n 0) as [->|Hn0]; [done|]. rewrite putint_min by lia.
  destruct (Z.ltb_spec n 128).
  - assert (Em : min_bytes n = [n]) by (rewrite <- putint_min by lia; unfold putint; rewrite (proj2 (Z.ltb_lt _ _)) by lia; cbn; by rewrite Z.mod_small by lia).
    rewrite Em. cbn [encStr]. by rewrite (proj2 (Z.leb_le _ _)) by lia.
  - rewrite encStr_long by (by apply min_bytes_long). pose proof (min_bytes_length n 8 Hn) as Hl. unfold puthead.
    rewrite (proj2 (Z.ltb_lt (Z.of_nat (length (min_bytes n))) 56)) by lia. done.
Qed.

Lemma min_bytes_bitlen n : 0 < n → min_bytes n = be_bytes (Z.to_nat ((Len64 n + 7) / 8)) n.
Proof.
  intros Hn. unfold Len64. rewrite (proj2 (Z.eqb_neq n 0)) by lia. pose proof (Z.log2_spec n Hn) as [Hlo Hhi]. pose proof (Z.log2_nonneg n).
  set (l := Z.log2 n) in *. assert (Hq : (l + 1 + 7) / 8 = l / 8 + 1) by divlia. rewrite Hq. set (q := l / 8) in *.
  assert (Hl : 8 * q <= l < 8 * q + 8) by (unfold q; divlia).
  apply min_bytes_count; [done|]. rewrite Z2Nat.id by lia. change 256 with (2 ^ 8). rewrite <- !Z.pow_mul_r by lia.
  assert (2 ^ (8 * (q + 1 - 1)) <= 2 ^ l) by (apply Z.pow_le_mono_r; lia).
  assert (2 ^ Z.succ l <= 2 ^ (8 * (q + 1))) by (apply Z.pow_le_mono_r; lia). lia.
Qed.

Lemma Len64_le n : 0 <= n → (Len64 n <= 64 ↔ n < two64).
Proof.
  intros Hn. unfold Len64, two64. destruct (Z.eqb_spec n 0) as [->|]; [lia|]. change 18446744073709551616 with (2 ^ 64).
  rewrite (Z.log2_lt_pow2 n 64) by lia. lia.
Qed.

Lemma round_to_bytes x : 0 <= x → Z.shiftr (Z.land x (-8)) 3 = x / 8.
Proof.
  intros Hx. rewrite Z.shiftr_land, !Z.shiftr_div_pow2 by lia. change (-8 / 2 ^ 3) with (-1). rewrite Z.land_m1_r. done.
Qed.

Lemma writeBigInt_min buf n : 0 <= n → writeBigInt buf n = eb_Write buf (encStr (min_bytes n)).
Proof.
  intros Hn. unfold writeBigInt. destruct (Z.leb_spec (Len64 n) 64) as [H|H]; [apply writeUint64_min; split; [done|by apply Len64_le]|].
  assert (H64 : two64 <= n) by (destruct (Z.lt_ge_cases n two64) as [Hlt|]; [apply Len64_le in Hlt; lia|done]).
  rewrite round_to_bytes by lia. rewrite encStr_long by (apply min_bytes_long; unfold two64 in H64; lia).
  rewrite (min_bytes_bitlen n) by (unfold two64 in H64; lia). unfold encodeStringHeader. rewrite eb_Write_app, length_be_bytes, Z2Nat.id by divlia. done.
Qed.

Lemma be_bytes_drop n m x : (n <= m)%nat → 0 <= x < 256 ^ Z.of_nat n → drop (m - n) (be_bytes m x) = be_bytes n x.
Proof.
  intros Hnm Hx. rewrite <- (be_bytes_value (drop (m - n) (be_bytes m x))) by (apply Forall_drop, be_bytes_ok).
  rewrite length_drop, length_be_bytes. replace (m - (m - n))%nat with n by lia. f_equal.
  assert (Hm : be_value (be_bytes m x) = x).
  { apply be_value_bytes. assert (256 ^ Z.of_nat n <= 256 ^ Z.of_nat m) by (apply Z.pow_le_mono_r; lia). lia. }
  assert (Hs : be_value (take (m - n) (be_bytes m x) ++ drop (m - n) (be_bytes m x)) = x) by (by rewrite take_drop).
  unfold be_value in Hs. rewrite digits_value_app in Hs by lia. fold (be_value (take (m - n) (be_bytes m x))) in Hs.
  fold (be_value (drop (m - n) (be_bytes m x))) in Hs. rewrite length_drop, length_be_bytes in Hs. replace (m - (m - n))%nat with n in Hs by lia.
  pose proof (be_value_bound (take (m - n) (be_bytes m x)) ltac:(apply Forall_take, be_bytes_ok)).
  pose proof (be_value_bound (drop (m - n) (be_bytes m x)) ltac:(apply Forall_drop, be_bytes_ok)) as Hd.
  set (a := be_value (take _ _)) in *. set (c := be_value (drop _ _)) in *. set (w := 256 ^ Z.of_nat n) in *.
  destruct (Z.eq_dec a 0) as [Ha|Ha]; [lia|]. assert (w <= a * w) by nia. lia.
Qed.

Lemma writeUint256_min buf n : 0 <= n < 2 ^ 256 → writeUint256 buf n = eb_Write buf (encStr (min_bytes n)).
Proof.
  intros [Hn Hn']. unfold writeUint256. destruct (Z.leb_spec (Len64 n) 64) as [H|H]; [apply writeUint64_min; split; [done|by apply Len64_le]|].
  assert (H64 : two64 <= n) by (destruct (Z.lt_ge_cases n two64) as [Hlt|]; [apply Len64_le in Hlt; lia|done]).
  unfold two64 in H64. rewrite encStr_long by (apply min_bytes_long; lia).
  pose proof (min_bytes_length n 32 ltac:(change (256 ^ Z.of_nat 32) with (2 ^ 256); lia)) as Hl.
  pose proof (min_bytes_bitlen n ltac:(lia)) as Em. pose proof (min_bytes_spec n Hn) as (Hv & Hb & _).
  assert (Hln : length (min_bytes n) = Z.to_nat ((Len64 n + 7) / 8)) by (rewrite Em, length_be_bytes; done).
  unfold puthead. rewrite (proj2 (Z.ltb_lt (Z.of_nat (length (min_bytes n))) 56)) by lia. cbn [app]. f_equal.
  rewrite Hln, Z2Nat.id by divlia. f_equal. pose proof (be_value_bound _ Hb) as Hbd. rewrite Hv, Hln in Hbd.
  rewrite be_bytes_drop; [by rewrite <- Em|lia|done].
Qed.

Lemma writeByteArray_enc buf b : writeByteArray buf b = eb_Write buf (encStr b).
Proof.
  destruct b as [|c [|d b]]; [done| |]; cbn [writeByteArray encStr]; [by case_if|]. unfold encodeStringHeader. by rewrite eb_Write_app.
Qed.

Definition writes (w : encBuffer → option encBuffer) (i : item) : Prop :=
  ∀ buf, ∃ buf', w buf = Some buf' ∧ wrote [i] buf buf'.

Lemma writeAll_wrote ws js buf : Forall2 writes ws js → ∃ buf', writeAll ws buf = Some buf' ∧ wrote js buf buf'.
Proof.
  intros H. revert buf. induction H as [|w j ws js Hw _ IH]; intros buf; [exists buf; split; [done|apply wrote_nil]|].
  destruct (Hw buf) as (b1 & E1 & W1). destruct (IH b1) as (b2 & E2 & W2). exists b2. cbn. rewrite E1. split; [done|]. by eapply wrote_cons.
Qed.

Lemma writeList_wrote ws js buf :
  js ≠ [] → Z.of_nat (length (concat (enc <$> js))) < two64 → Forall2 writes ws js →
  ∃ buf', writeList ws buf = Some buf' ∧ wrote [Lst js] buf buf'.
Proof.
  intros Hne Hl Hw. unfold writeList. destruct (writeAll_wrote ws js (eb_list buf).2 Hw) as (b1 & E1 & W1).
  destruct (listEnd_wrote js buf b1 Hne Hl W1) as (b2 & E2 & W2). destruct (eb_list buf) as [index b0] eqn:E. cbn in *. rewrite E1. cbn. eauto.
Qed.

Lemma enc_elem_small j js : j ∈ js → Z.of_nat (length (enc (Lst js))) < two64 → Z.of_nat (length (enc j)) < two64.
Proof.
  intros Hj Hl. cbn in Hl. pose proof (encList_length (concat (enc <$> js))).
  assert (length (enc j) <= length (concat (enc <$> js)))%nat; [|lia]. apply length_concat_elem, list_elem_of_fmap. eauto.
Qed.

(** Fields up to the last one written hold values. *)
Lemma fields_write fs vs js :
  Forall (λ f, ∀ v i, wf_type f.2 → denote f.2 v i → Z.of_nat (length (enc (canon f.2 v))) < two64 → writes (writeType f.2 v) (canon f.2 v)) fs →
  optionalSuffix fs → forallb (λ f, wf_type f.2) fs → denoteFields denote fs vs js →
  (∀ j, j ∈ take (writtenFields fs vs) (map2 (λ f, canon f.2) fs vs) → Z.of_nat (length (enc j)) < two64) →
  Forall2 writes (take (writtenFields fs vs) (map2 (λ f, writeType f.2) fs vs)) (take (writtenFields fs vs) (map2 (λ f, canon f.2) fs vs)).
Proof.
  intros Hfs. revert vs js. induction Hfs as [|[o t] fs Ht _ IH]; intros vs js Ho Hw Hd Hs; cbn [optionalSuffix forallb snd] in *.
  { destruct Hd as [-> _]. constructor. }
  apply andb_True in Ho as [Hopt Ho]. apply andb_True in Hw as [Hwt Hw].
  destruct Hd as [(v & vs' & i & js' & -> & -> & Hv & Hd)|(-> & -> & ->)].
  - assert (Hcase : writtenFields ((o, t) :: fs) (v :: vs') = S (writtenFields fs vs')
             ∨ (writtenFields ((o, t) :: fs) (v :: vs') <= 1)%nat ∧ writtenFields fs vs' = 0%nat).
    { destruct o; [|left; apply written_required]. cbn in Hopt. rewrite !written_optional by done. cbn [map2 afterLast snd].
      destruct (afterLast _); [right|by left]. split; [case_if; lia|done]. }
    assert (Hrest : ∀ n, (S n <= writtenFields ((o, t) :: fs) (v :: vs'))%nat → Z.of_nat (length (enc (canon t v))) < two64).
    { intros n Hn. apply Hs. cbn [map2 snd]. destruct (writtenFields _ _); [lia|]. cbn. by left. }
    destruct Hcase as [Ew|[Hle E0]].
    + rewrite Ew in *. cbn [map2 take snd]. constructor; [apply (Ht v i); [done..|]; apply (Hrest 0%nat); lia|].
      eapply IH; [done|done|exact Hd|]. intros j Hj. apply Hs. cbn [map2 take snd]. by right.
    + destruct (writtenFields ((o, t) :: fs) (v :: vs')) as [|[|n] ] eqn:Ew; [constructor| |lia]. cbn [map2 take snd].
      constructor; [apply (Ht v i); [done..|]; apply (Hrest 0%nat); lia|]. rewrite !take_0. constructor.
  - rewrite written_optional, map2_zeros, afterLast_zeros by done. constructor.
Qed.

Lemma elems_write t ws js :
  (∀ w j, denote t w j → Z.of_nat (length (enc (canon t w))) < two64 → writes (writeType t w) (canon t w)) →
  Forall2 (denote t) ws js → Z.of_nat (length (enc (Lst (canon t <$> ws)))) < two64 →
  Forall2 writes (writeType t <$> ws) (canon t <$> ws).
Proof.
  intros IH Hd Hs. assert (Hsz : ∀ w, w ∈ ws → Z.of_nat (length (enc (canon t w))) < two64).
  { intros w Hin. eapply enc_elem_small; [|exact Hs]. apply list_elem_of_fmap. eauto. }
  clear Hs. induction Hd as [|w j ws js Hw _ IHd]; constructor; [by apply (IH w j); [|apply Hsz; left]|].
  apply IHd. intros w' Hin. apply Hsz. by right.
Qed.

Lemma writeType_wrote ty v i :
  wf_type ty → denote ty v i → Z.of_nat (length (enc (canon ty v))) < two64 → writes (writeType ty v) (canon ty v).
Proof.
  revert v i. induction ty as [bits| | |n| | |t IH|k t IH|t IH|n t IH|fs IH] using rtype_ind'; intros v i Hw Hd Hs buf; cbn [denote] in Hd.
  - destruct Hd as (n & -> & -> & Hn). destruct (wf_uint bits Hw) as (m & -> & Hm). eexists. split; [done|]. cbn [canon].
    rewrite writeUint64_min; [apply wrote_str|]. split; [lia|]. assert (2 ^ (8 * Z.of_nat m) <= 2 ^ 64) by (apply Z.pow_le_mono_r; lia). unfold two64. lia.
  - destruct Hd as (b & -> & ->). eexists. split; [done|]. destruct b; apply wrote_str.
  - destruct Hd as (b & -> & ->). eexists. split; [done|]. rewrite writeBytes_encStr. apply wrote_str.
  - destruct Hd as (b & -> & -> & Hl). eexists. split; [done|]. rewrite writeByteArray_enc. apply wrote_str.
  - destruct Hd as (n & -> & -> & Hn). eexists. cbn [writeType]. rewrite (proj2 (Z.ltb_ge _ _)) by done. split; [done|].
    rewrite writeBigInt_min by done. apply wrote_str.
  - destruct Hd as (n & -> & -> & Hn). eexists. split; [done|]. rewrite writeUint256_min by done. apply wrote_str.
  - apply andb_True in Hw as [Hn Hw]. pose proof (nonnil_denote _ _ _ Hn Hd). destruct v; try done; by apply (IH _ i).
  - apply andb_True in Hw as [Hw Hwt]. apply andb_True in Hw as [Hw Hp]. apply andb_True in Hw as [_ Hn].
    destruct Hd as [[-> ->]|(Hd & _)]; [eexists; split; [done|]; apply wrote_emptyItem|].
    pose proof (nonnil_denote _ _ _ Hn Hd). destruct v; try done; by apply (IH _ i).
  - destruct Hd as (vs & js & -> & -> & Hd). cbn [canon wf_type] in *. destruct vs as [|v vs]; [eexists; split; [done|]; apply wrote_nothing|].
    apply (writeList_wrote (writeType t <$> v :: vs)); [done|pose proof (encList_length (concat (enc <$> (canon t <$> v :: vs)))); cbn [enc] in Hs; lia|].
    eapply elems_write; [|exact Hd|exact Hs]. intros w j. by apply IH.
  - destruct Hd as (vs & js & -> & -> & Hd & <-). cbn [canon wf_type] in *. destruct vs as [|v vs]; [eexists; split; [done|]; apply wrote_nothing|].
    apply (writeList_wrote (writeType t <$> v :: vs)); [done|pose proof (encList_length (concat (enc <$> (canon t <$> v :: vs)))); cbn [enc] in Hs; lia|].
    eapply elems_write; [|exact Hd|exact Hs]. intros w j. by apply IH.
  - destruct Hd as (vs & js & -> & -> & Hd). cbn [canon wf_type] in *. apply andb_True in Hw as [Hf Hw].
    assert (Hne : take (writtenFields fs vs) (map2 (λ f, canon f.2) fs vs) ≠ []).
    { destruct fs as [|[[] t] fs]; [done|done|]. destruct Hd as [(v & vs' & i & js' & -> & _)|([=] & _)]. by rewrite written_required. }
    apply writeList_wrote; [done| |].
    + pose proof (encList_length (concat (enc <$> take (writtenFields fs vs) (map2 (λ f, canon f.2) fs vs)))). cbn [enc] in Hs. lia.
    + eapply fields_write; [exact IH| |done|exact Hd|]; [by destruct fs as [|[[] ?] ?]|]. intros j Hj. by eapply enc_elem_small.
Qed.

Lemma EncodeValue_canon ty v i :
  wf_type ty → denote ty v i → Z.of_nat (length (enc (canon ty v))) < two64 → EncodeValue ty v = Some (enc (canon ty v)).
Proof.
  intros Hw Hd Hs. destruct (writeType_wrote ty v i Hw Hd Hs emptyBuffer) as (buf & E & W). unfold EncodeValue. rewrite E. cbn.
  by rewrite (wrote_makeBytes _ _ W).
Qed.

(** Without input every decoder reports its end. *)
Lemma decodeType_empty ty pooled : ∃ s', decodeType ty (Reset pooled [] 0) = (Err sEOF, s').
Proof.
  set (s := Reset pooled [] 0). assert (Hp : ∃ s1, peek s = (Err sEOF, s1)) by (eexists; reflexivity).
  assert (Hb : ∀ A B (m : D A) (f : A → D B), (∃ s', m s = (Err sEOF, s')) → ∃ s', (m ≫= f) s = (Err sEOF, s')).
  { intros A B m f (s' & E). exists s'. unfold mbind, D_bind. by rewrite E. }
  assert (Hw : ∀ A (m : D A), (∃ s', m s = (Err sEOF, s')) → ∃ s', wrap m s = (Err sEOF, s')).
  { intros A m (s' & E). exists s'. unfold wrap. by rewrite E. }
  induction ty as [bits| | |n| | |t IH|k t IH|t IH|n t IH|fs IH] using rtype_ind'; cbn [decodeType]; try exact IH;
    try (apply Hb, Hp); apply Hb, Hw; try exact Hp; try (apply Hb, Hp); apply Hb, Hb, Hp.
Qed.

Lemma Reset_at pooled b : b ≠ [] → at_ (Reset pooled b (Z.of_nat (length b))) b [].
Proof.
  intros Hb. unfold at_, pos, Reset. cbn. rewrite (proj2 (Z.ltb_lt _ _)) by (destruct b; [done|cbn; lia]). done.
Qed.

Lemma item_ok_enc_bytes i : item_ok i → bytes_ok (enc i).
Proof.
  assert (Hput : ∀ t l n, 0 <= t → t + 55 < 256 → 0 <= l → l + 8 < 256 → 0 <= n < two64 → bytes_ok (puthead t l n)).
  { intros t l n Ht Ht' Hl Hl' Hn. unfold puthead. case_if; [constructor; [unfold is_byte; lia|constructor]|].
    destruct (putint_spec n Hn) as (k & -> & Hk & _). constructor; [rewrite length_be_bytes; unfold is_byte; lia|apply be_bytes_ok]. }
  induction i as [b|l IH] using item_ind'; intros Hok; inversion Hok as [? Hb Hl|? Hi Hl]; subst; cbn [enc].
  - unfold encStr. destruct b as [|c [|d b]]; [by apply Forall_app; split; [apply Hput; cbn; unfold two64; lia|]| |apply Forall_app; split; [apply Hput; lia|done] ].
    case_if; [done|]. apply Forall_app. split; [apply Hput; unfold two64; lia|done].
  - unfold encList. apply Forall_app. split; [apply Hput; lia|]. apply Forall_concat, Forall_fmap. clear -IH Hi.
    induction IH; [constructor|]. apply Forall_cons in Hi as [? ?]. constructor; cbn; auto.
Qed.

Lemma DecodeBytes_enc pooled ty v i :
  wf_type ty → denote ty v i → item_ok i → DecodeBytes pooled (enc i) ty = Ok v.
Proof.
  intros Hw Hd Hok. pose proof (enc_nonempty i) as Hne. unfold DecodeBytes. pose proof (Reset_at pooled (enc i) Hne) as Hat.
  destruct (decodeType_accepts ty v i Hw Hd Hok (Reset pooled (enc i) (Z.of_nat (length (enc i)))) [] []) as (s' & E & [(Hr & _) _]);
    [by rewrite app_nil_r|done|constructor|]. rewrite E, Hr. done.
Qed.

Lemma DecodeBytes_inv pooled ty v b :
  wf_type ty → bytes_ok b → Z.of_nat (length b) < two64 → DecodeBytes pooled b ty = Ok v →
  ∃ i, denote ty v i ∧ item_ok i ∧ b = enc i.
Proof.
  intros Hw Hb Hl E. unfold DecodeBytes in E. destruct b as [|c b].
  { destruct (decodeType_empty ty pooled) as (s' & Es). change (Z.of_nat (@length Z [])) with 0 in E. by rewrite Es in E. }
  pose proof (Reset_at pooled (c :: b) ltac:(done)) as Hat.
  destruct (decodeType ty _) as [[v'|] s'] eqn:Ed; [|done].
  destruct (proj1 (decodeType_reads ty Hw) _ _ _ _ _ (conj Hb (conj Hl (Forall_nil_2 _))) Hat Ed)
    as (r' & st' & [(Hr & _) _] & _ & _ & Hlst & _ & _ & [Hbe|(js & (i & -> & Hd) & Hok & Er & _)]).
  - destruct st'; [done|]. cbn in Hlst. done.
  - rewrite Hr in E. destruct r'; [|done]. injection E as ->. exists i. split; [done|]. split; [by apply Forall_inv in Hok|].
    cbn [fmap list_fmap concat] in Er. by rewrite !app_nil_r in Er.
Qed.

(** ** Theorems *)

(** C27: the decoder accepts exactly the encodings.  For every type of the
    universe, [DecodeBytes] returns a value precisely on the RLP encoding of a tree
    that stands for that value; it never panics, whatever the input; and when the
    type has no optional field, writing the decoded value gives the input back, so
    every value has one encoding. *)
Theorem decode_exactly_encodings pooled ty b :
  wf_type ty → bytes_ok b → Z.of_nat (length b) < two64 →
  (∀ v, DecodeBytes pooled b ty = Ok v ↔ ∃ i, denote ty v i ∧ item_ok i ∧ b = enc i)
  ∧ DecodeBytes pooled b ty ≠ Err sPanic
  ∧ (plain ty → ∀ v, DecodeBytes pooled b ty = Ok v → EncodeValue ty v = Some b).
Proof.
  intros Hw Hb Hl. split; [|split].
  - intros v. split; [by apply DecodeBytes_inv|]. intros (i & Hd & Hok & ->). by apply DecodeBytes_enc.
  - unfold DecodeBytes. destruct b as [|c b].
    { destruct (decodeType_empty ty pooled) as (s' & Es). change (Z.of_nat (@length Z [])) with 0. by rewrite Es. }
    pose proof (Reset_at pooled (c :: b) ltac:(done)) as Hat.
    destruct (decodeType ty _) as [[v|e] s'] eqn:Ed; [by destruct (sr s')|]. intros [= ->].
    destruct (proj2 (decodeType_reads ty Hw) _ _ _ _ _ (conj Hb (conj Hl (Forall_nil_2 _))) Hat Ed) as [[_ ?]|[? _]]; done.
  - intros Hp v E. destruct (DecodeBytes_inv pooled ty v b Hw Hb Hl E) as (i & Hd & Hok & ->).
    destruct (canon_denote ty v i Hw Hd) as [_ Hc]. rewrite (EncodeValue_canon ty v i Hw Hd); rewrite (Hc Hp); done.
Qed.

(** A struct like that of a validator record. *)
Definition sampleType : rtype :=
  RStruct [(false, RUint 64); (false, RByteArray 2); (false, RByteSlice); (false, RNilPtr String_ (RByteArray 2)); (false, RBigInt); (true, RUint 64); (true, RU256)].
Definition sampleStream : Stream :=
  {| sr := []; remaining := 7; ssize := 0; kinderr := None; stack := [3]; skind := None; byteval := 0; limited := false |}.
Definition sampleBytes : bytes := [0xC9; 0x07; 0x82; 1; 2; 0x80; 0x80; 0x82; 4; 0].
Definition sampleValue : rval := VList [VNum 7; VBytes [1; 2]; VBytes []; VNil; VNum 1024; VNum 0; VNil].

Lemma decode_exactly_encodings_witness :
  DecodeBytes sampleStream sampleBytes sampleType = Ok sampleValue
  ∧ ∃ i, denote sampleType sampleValue i ∧ item_ok i ∧ sampleBytes = enc i.
Proof.
  assert (E : DecodeBytes sampleStream sampleBytes sampleType = Ok sampleValue) by (vm_compute; reflexivity).
  split; [exact E|]. refine (proj1 (proj1 (decode_exactly_encodings sampleStream sampleType sampleBytes _ _ _) sampleValue) E).
  - vm_compute. exact I.
  - apply (bool_decide_unpack _). vm_compute. exact I.
  - vm_compute. reflexivity.
Defined.

(** C28: RLP round trip of Go values.  Every value that a tree stands for is
    encoded without error, and its encoding, whatever optional fields the encoder
    leaves out at the end, decodes to the same value. *)
Theorem rlp_values_roundtrip pooled ty v i :
  wf_type ty → denote ty v i → item_ok (canon ty v) → Z.of_nat (length (enc (canon ty v))) < two64 →
  ∃ b, EncodeValue ty v = Some b ∧ DecodeBytes pooled b ty = Ok v.
Proof.
  intros Hw Hd Hok Hs. exists (enc (canon ty v)). split; [by eapply EncodeValue_canon|].
  apply DecodeBytes_enc; [done| |done]. by eapply canon_denote.
Qed.

Lemma rlp_values_roundtrip_witness :
  ∃ b, EncodeValue sampleType sampleValue = Some b ∧ DecodeBytes sampleStream b sampleType = Ok sampleValue ∧ b = sampleBytes.
Proof.
  destruct (DecodeBytes_inv sampleStream sampleType sampleValue sampleBytes) as (i & Hd & _).
  { vm_compute. exact I. } { apply (bool_decide_unpack _). vm_compute. exact I. } { vm_compute. reflexivity. } { vm_compute. reflexivity. }
  destruct (rlp_values_roundtrip sampleStream sampleType sampleValue i) as (b & H1 & H2).
  - vm_compute. exact I.
  - exact Hd.
  - vm_compute. constructor; [|reflexivity]. repeat (constructor; [constructor; [repeat constructor; unfold is_byte; lia|reflexivity]|]). constructor.
  - vm_compute. reflexivity.
  - exists b. split; [exact H1|]. split; [exact H2|]. revert H1. vm_compute. by intros [= <-].
Defined.

(** A list claims one byte more than its enclosing list has left, and is opened:
    the enclosing list's limit wraps around.  [List] reports no [ErrElemTooLarge],
    the byte behind the enclosing list is read as the inner list's, and the
    enclosing list then seems to have more data. *)
Lemma list_overruns_enclosing_list :
  let s1 := (stream_List (Reset sampleStream [0xC1; 0xC1; 0x05] 3)).2 in
  let s2 := (stream_List s1).2 in
  let s3 := (stream_uint 64 s2).2 in
  let s4 := (ListEnd s3).2 in
  (stream_List s1).1 = Ok 1 ∧ s2.(stack) = [1; two64 - 1] ∧ (stream_uint 64 s2).1 = Ok 5 ∧ (ListEnd s3).1 = Ok ()
  ∧ MoreDataInList s4 = true.
Proof. split_and!; vm_compute; reflexivity. Qed.

End RLPTypes.
