(* ===== verification/TrieKeys.v ===== *)
(** * Key encodings of the Merkle Patricia trie

    [trie/encoding.go]: a key is a byte string, or one nibble per byte with an
    optional terminator ([HEX]), or packed nibbles behind a flag ([COMPACT]). *)

From S2P Require Import Prelude Bytes.

Module TrieKeys.

(** ** Definitions *)

Definition hasTerm (s : bytes) : bool :=
  match last s with Some c => c =? 16 | None => false end.

(** [nibbles[ni]<<4 | nibbles[ni+1]] on bytes *)
Definition packNibbles (a b : Z) : Z := Z.lor (Z.shiftl a 4 mod 256) b.

(** The bytes [decodeNibbles] writes; its callers pass an even number of nibbles. *)
Fixpoint decodeNibbles (nibbles : bytes) : bytes :=
  match nibbles with
  | a :: b :: nibbles => packNibbles a b :: decodeNibbles nibbles
  | _ => []
  end.

Definition hexToCompact (hex : bytes) : bytes :=
  let terminator := if hasTerm hex then 1 else 0 in
  let hex := if hasTerm hex then take (length hex - 1) hex else hex in
  let flag := Z.shiftl terminator 5 in
  match hex with
  | first :: rest =>
      if Nat.odd (length hex)
      then Z.lor (Z.lor flag (Z.shiftl 1 4)) first :: decodeNibbles rest
      else flag :: decodeNibbles hex
  | [] => [flag]
  end.

(** The loop of [hexToCompactInPlace]: it reads the buffer it writes to. *)
Fixpoint compactLoop (fuel hexLen : nat) (hex : bytes) (bi ni : nat) : bytes :=
  match fuel with
  | O => hex
  | S fuel =>
      if (ni <? hexLen)%nat
      then compactLoop fuel hexLen
             (<[bi := packNibbles (hex !!! ni) (hex !!! (ni + 1)%nat)]> hex) (bi + 1) (ni + 2)
      else hex
  end.

(** [None]: the empty buffer has no byte to put the flag in, a panic *)
Definition hexToCompactInPlace (hex : bytes) : option bytes :=
  let term := bool_decide (0 < length hex)%nat && (hex !!! (length hex - 1)%nat =? 16) in
  let hexLen := if term then (length hex - 1)%nat else length hex in
  let firstByte := if term then Z.shiftl 1 5 else 0 in
  let binLen := (hexLen / 2 + 1)%nat in
  let '(firstByte, ni) :=
    if Nat.odd hexLen then (Z.lor (Z.lor firstByte (Z.shiftl 1 4)) (hex !!! 0%nat), 1%nat)
    else (firstByte, 0%nat) in
  let hex := compactLoop hexLen hexLen hex 1 ni in
  match hex with
  | [] => None
  | _ => Some (take binLen (<[0%nat := firstByte]> hex))
  end.

Definition nibblesOf (b : Z) : bytes := [b / 16; b mod 16].

(** [writeHexKey]: the nibbles, no terminator *)
Definition writeHexKey (key : bytes) : bytes := concat (nibblesOf <$> key).

Definition keybytesToHex (key : bytes) : bytes := concat (nibblesOf <$> key) ++ [16].

Definition compactToHex (compact : bytes) : bytes :=
  match compact with
  | [] => compact
  | _ =>
      let base := keybytesToHex compact in
      let base := if base !!! 0%nat <? 2 then take (length base - 1) base else base in
      let chop := 2 - Z.land (base !!! 0%nat) 1 in
      drop (Z.to_nat chop) base
  end.

(** [None]: the panic on a key of odd length *)
Definition hexToKeybytes (hex : bytes) : option bytes :=
  let hex := if hasTerm hex then take (length hex - 1) hex else hex in
  if Nat.odd (length hex) then None else Some (decodeNibbles hex).

Fixpoint prefixLen (a b : bytes) : nat :=
  match a, b with
  | x :: a, y :: b => if x =? y then S (prefixLen a b) else O
  | _, _ => O
  end.

(** ** Nibbles and terminated keys *)

Definition is_nibble (x : Z) : Prop := 0 <= x < 16.
Abbreviation nibbles_ok := (Forall is_nibble).

#[global] Instance is_nibble_dec x : Decision (is_nibble x).
Proof. unfold is_nibble. apply _. Defined.

(** A key as [keybytesToHex] makes it, or what is left of one on the way down. *)
Definition hexkey (k : bytes) : Prop := ∃ p, nibbles_ok p ∧ k = p ++ [16].

Lemma hasTerm_snoc p x : hasTerm (p ++ [x]) = (x =? 16).
Proof. unfold hasTerm. by rewrite last_snoc. Qed.

Lemma hasTerm_nibbles p : nibbles_ok p → hasTerm p = false.
Proof.
  intros Hp. destruct p as [|x p _] using rev_ind; [done|]. rewrite hasTerm_snoc.
  apply Forall_app in Hp as [_ Hx]. inversion Hx as [|? ? [? ?] _]; subst. apply Z.eqb_neq. lia.
Qed.

Lemma take_snoc (p : bytes) x : take (length (p ++ [x]) - 1) (p ++ [x]) = p.
Proof. rewrite length_app. cbn. rewrite Nat.add_sub. apply take_app_length. Qed.

Lemma hexkey_cons x k : hexkey (x :: k) ↔ (x = 16 ∧ k = []) ∨ (is_nibble x ∧ hexkey k).
Proof.
  split.
  - intros ([|y p] & Hp & [= -> ->]); [by left|]. right. apply Forall_cons in Hp as [? ?]. split; [done|]. by exists p.
  - intros [[-> ->]|[Hx (p & Hp & ->)]]; [by exists []|]. exists (x :: p). split; [by constructor|done].
Qed.

Lemma hexkey_nonnil k : hexkey k → k ≠ [].
Proof. intros ([|] & _ & ->); done. Qed.

Lemma hexkey_app p k : nibbles_ok p → hexkey k → hexkey (p ++ k).
Proof. intros Hp (q & Hq & ->). exists (p ++ q). split; [by apply Forall_app|]. by rewrite app_assoc. Qed.

Lemma hexkey_app_inv p k : k ≠ [] → hexkey (p ++ k) → nibbles_ok p ∧ hexkey k.
Proof.
  intros Hk (q & Hq & E). destruct k as [|x k _] using rev_ind; [done|].
  rewrite app_assoc in E. apply app_inj_tail in E as [<- ->]. apply Forall_app in Hq as [? ?].
  split; [done|]. by exists k.
Qed.

Lemma hexkey_hasTerm k : hexkey k → hasTerm k = true.
Proof. intros (p & _ & ->). by rewrite hasTerm_snoc. Qed.

(** Terminated keys are prefix-free. *)
Lemma hexkey_prefix_free k r : hexkey k → hexkey (k ++ r) → r = [].
Proof.
  intros (p & Hp & ->) (q & Hq & E). destruct r as [|x r _] using rev_ind; [done|].
  rewrite app_assoc in E. apply app_inj_tail in E as [<- _].
  rewrite <- app_assoc in Hq. apply Forall_app in Hq as [_ Hq]. inversion Hq as [|? ? [? ?] _]; subst. lia.
Qed.

Lemma half_succ_even n : Nat.odd n = false → (S n / 2 = n / 2)%nat.
Proof.
  intros Hn. destruct (Nat.Even_or_Odd n) as [[m ->]|[m ->]].
  - replace (S (2 * m)) with (1 + m * 2)%nat by lia. rewrite Nat.div_add by lia.
    by rewrite (Nat.mul_comm 2), Nat.div_mul by lia.
  - by rewrite Nat.add_1_r, Nat.odd_succ, Nat.even_mul in Hn.
Qed.

(** ** Packing *)

Lemma packNibbles_spec a b : is_nibble a → is_nibble b → packNibbles a b = 16 * a + b.
Proof.
  intros [? ?] [? ?]. unfold packNibbles. rewrite Z.shiftl_mul_pow2 by lia. change (2 ^ 4) with 16.
  rewrite Z.mod_small by lia. rewrite Z.lor_comm.
  assert (Hl : Z.land b (a * 16) = 0).
  { apply Z.bits_inj'. intros n Hn. rewrite Z.land_spec, Z.bits_0. apply andb_false_iff.
    destruct (Z_lt_ge_dec n 4).
    - right. change 16 with (2 ^ 4). by rewrite Z.mul_pow2_bits_low.
    - left. destruct (decide (b = 0)) as [->|]; [apply Z.bits_0|]. apply Z.bits_above_log2; [lia|].
      apply Z.log2_lt_pow2; [lia|]. assert (2 ^ 4 <= 2 ^ n) by (apply Z.pow_le_mono_r; lia). lia. }
  rewrite <- Z.lxor_lor by done. rewrite <- Z.add_nocarry_lxor by done. lia.
Qed.

Lemma nibblesOf_pack a b : is_nibble a → is_nibble b → nibblesOf (packNibbles a b) = [a; b].
Proof. intros Ha Hb. rewrite packNibbles_spec by done. destruct Ha, Hb. unfold nibblesOf. repeat f_equal; divlia. Qed.

Lemma pack_nibblesOf c : is_byte c → packNibbles (c / 16) (c mod 16) = c.
Proof. intros [? ?]. rewrite packNibbles_spec; [divlia|..]; unfold is_nibble; divlia. Qed.

Lemma nibblesOf_ok c : is_byte c → nibbles_ok (nibblesOf c).
Proof. intros [? ?]. repeat constructor; unfold is_nibble; divlia. Qed.

Lemma writeHexKey_ok key : bytes_ok key → nibbles_ok (writeHexKey key).
Proof.
  induction 1 as [|c key Hc _ IH]; [constructor|]. apply Forall_app. split; [by apply nibblesOf_ok|done].
Qed.

Lemma length_writeHexKey key : length (writeHexKey key) = (2 * length key)%nat.
Proof. induction key as [|c key IH]; [done|]. unfold writeHexKey in *. cbn in *. lia. Qed.

Lemma keybytesToHex_hexkey key : bytes_ok key → hexkey (keybytesToHex key).
Proof. intros Hk. exists (writeHexKey key). split; [by apply writeHexKey_ok|done]. Qed.

(** Induction two nibbles at a time. *)
Lemma pairs_ind (P : bytes → Prop) :
  P [] → (∀ x, P [x]) → (∀ x y l, P l → P (x :: y :: l)) → ∀ l, P l.
Proof.
  intros H0 H1 H2. fix IH 1. intros [|x [|y l]]; [done|apply H1|]. apply H2, IH.
Qed.

Lemma decodeNibbles_write key : bytes_ok key → decodeNibbles (writeHexKey key) = key.
Proof.
  induction 1 as [|c key Hc _ IH]; [done|]. unfold writeHexKey in *. cbn [fmap list_fmap concat nibblesOf app decodeNibbles].
  by rewrite pack_nibblesOf, IH.
Qed.

Lemma write_decodeNibbles l :
  nibbles_ok l → Nat.odd (length l) = false → writeHexKey (decodeNibbles l) = l.
Proof.
  induction l as [|x|x y l IH] using pairs_ind; intros Hl Ho; [done..|].
  apply Forall_cons in Hl as [Hx Hl]. apply Forall_cons in Hl as [Hy Hl].
  unfold writeHexKey in *. cbn [decodeNibbles fmap list_fmap concat]. by rewrite nibblesOf_pack, IH.
Qed.

Lemma decodeNibbles_bytes l : nibbles_ok l → bytes_ok (decodeNibbles l).
Proof.
  induction l as [|x|x y l IH] using pairs_ind; intros Hl; cbn; [constructor..|].
  apply Forall_cons in Hl as [Hx Hl]. apply Forall_cons in Hl as [Hy Hl]. constructor; [|by apply IH].
  rewrite packNibbles_spec by done. destruct Hx, Hy. unfold is_byte. lia.
Qed.

Lemma writeHexKey_inj key key' :
  bytes_ok key → bytes_ok key' → keybytesToHex key = keybytesToHex key' → key = key'.
Proof.
  intros H H' E. apply app_inj_tail in E as [E _].
  rewrite <- (decodeNibbles_write key), <- (decodeNibbles_write key') by done. unfold writeHexKey. by rewrite E.
Qed.

Lemma length_decodeNibbles l : Nat.odd (length l) = false → length (decodeNibbles l) = (length l / 2)%nat.
Proof.
  induction l as [|x|x y l IH] using pairs_ind; intros Ho; [done..|]. cbn [decodeNibbles length].
  rewrite IH by done. replace (S (S (length l))) with (length l + 1 * 2)%nat by lia.
  rewrite Nat.div_add by lia. lia.
Qed.

(** ** Round trips *)

Lemma flag_or c x : c = 1 ∨ c = 3 → is_nibble x → Z.lor (c * 16) x = c * 16 + x.
Proof.
  intros Hc Hx. pose proof (packNibbles_spec c x) as Hs. unfold packNibbles in Hs.
  rewrite Z.shiftl_mul_pow2 in Hs by lia. change (2 ^ 4) with 16 in Hs. rewrite Z.mod_small in Hs by lia.
  rewrite Hs; [lia|unfold is_nibble; lia|done].
Qed.

(** The flag byte of a compact key and the nibbles after it. *)
Lemma hexToCompact_shape p (term : bool) :
  nibbles_ok p →
  hexToCompact (p ++ if term then [16] else [])
  = match p with
    | x :: r => if Nat.odd (length p) then ((if term then 2 else 0) + 1) * 16 + x :: decodeNibbles r
                else (if term then 32 else 0) :: decodeNibbles p
    | [] => [if term then 32 else 0]
    end.
Proof.
  intros Hp. unfold hexToCompact.
  assert ((if hasTerm (p ++ if term then [16] else []) then
      take (length (p ++ if term then [16] else []) - 1) (p ++ if term then [16] else [])
      else p ++ if term then [16] else []) = p ∧ hasTerm (p ++ if term then [16] else []) = term) as [E1 E2]; [|rewrite E1, E2].
  { destruct term; [by rewrite hasTerm_snoc, take_snoc|]. by rewrite app_nil_r, hasTerm_nibbles. }
  destruct p as [|x r]; [by destruct term|]. case_if; [|by destruct term].
  apply Forall_cons in Hp as [[? ?] _]. f_equal.
  destruct term; [apply (flag_or 3)|apply (flag_or 1)]; unfold is_nibble; lia.
Qed.

Lemma compactToHex_cons c rest :
  is_byte c → c / 16 <= 3 →
  compactToHex (c :: rest)
  = drop (if Z.odd (c / 16) then 1 else 2) (nibblesOf c)
    ++ writeHexKey rest ++ (if c / 16 <? 2 then [] else [16]).
Proof.
  intros [? ?] Hc. unfold compactToHex, keybytesToHex. cbn [fmap list_fmap concat nibblesOf app].
  change (((c / 16) :: _) !!! 0%nat) with (c / 16). fold (writeHexKey rest).
  assert (Hq : c / 16 = 0 ∨ c / 16 = 1 ∨ c / 16 = 2 ∨ c / 16 = 3) by divlia.
  assert (Ht : take (length (c / 16 :: c mod 16 :: writeHexKey rest ++ [16]) - 1)
      (c / 16 :: c mod 16 :: writeHexKey rest ++ [16]) = c / 16 :: c mod 16 :: writeHexKey rest).
  { apply (take_snoc (c / 16 :: c mod 16 :: writeHexKey rest)). }
  rewrite Ht. destruct Hq as [Hq | [Hq | [Hq | Hq] ] ]; rewrite Hq; cbn; by rewrite ?app_nil_r.
Qed.

Lemma compact_hex_roundtrip p (term : bool) :
  nibbles_ok p →
  compactToHex (hexToCompact (p ++ if term then [16] else [])) = p ++ if term then [16] else [].
Proof.
  intros Hp. rewrite hexToCompact_shape by done. destruct p as [|x r]; [by destruct term|].
  destruct (Nat.odd (length (x :: r))) eqn:Ho.
  - apply Forall_cons in Hp as [[? ?] Hr].
    assert (Hd : Nat.odd (length r) = false).
    { cbn in Ho. by rewrite Nat.odd_succ, <- Nat.negb_odd, negb_true_iff in Ho. }
    set (t := if term then 2 else 0).
    assert (Hq : ((t + 1) * 16 + x) / 16 = t + 1) by (unfold t; destruct term; divlia).
    assert (Hm : ((t + 1) * 16 + x) mod 16 = x) by (unfold t; destruct term; divlia).
    rewrite compactToHex_cons; [|unfold is_byte, t; destruct term; lia|rewrite Hq; unfold t; destruct term; lia].
    unfold nibblesOf. rewrite Hq, Hm, write_decodeNibbles by done. unfold t. by destruct term.
  - rewrite compactToHex_cons; [|unfold is_byte; destruct term; lia|by destruct term].
    rewrite write_decodeNibbles by done. by destruct term.
Qed.

(** ** The in-place conversion *)

Lemma lookup_total_insert_ne_nat (l : bytes) i j x : i ≠ j → <[i:=x]> l !!! j = l !!! j.
Proof. intros H. by rewrite list_lookup_total_insert_ne. Qed.

(** The loop packs the nibbles from [ni] on into the bytes from [bi] on. *)
Lemma compactLoop_spec fuel hexLen l buf bi ni :
  length l = (hexLen - ni)%nat → Nat.odd (length l) = false → (length l <= fuel)%nat →
  (hexLen <= length buf)%nat → (1 <= bi <= ni + 1)%nat → (∀ j, (ni <= j < hexLen)%nat → buf !!! j = l !!! (j - ni)%nat) →
  take (bi + length l / 2) (compactLoop fuel hexLen buf bi ni) = take bi buf ++ decodeNibbles l
  ∧ length (compactLoop fuel hexLen buf bi ni) = length buf.
Proof.
  revert fuel buf bi ni. induction l as [|x|x y l IH] using pairs_ind; intros fuel buf bi ni Hl Ho Hf Hb Hbi Hv.
  - rewrite Nat.add_0_r, app_nil_r. destruct fuel as [|fuel]; [done|]. cbn [compactLoop length] in *.
    destruct (Nat.ltb_spec ni hexLen); [lia|done].
  - done.
  - cbn [length] in Hl, Hf. destruct fuel as [|fuel]; [lia|]. cbn [compactLoop].
    destruct (Nat.ltb_spec ni hexLen); [|lia].
    assert (Hx : buf !!! ni = x) by (rewrite Hv by lia; by rewrite Nat.sub_diag).
    assert (Hy : buf !!! (ni + 1)%nat = y) by (rewrite Hv by lia; by replace (ni + 1 - ni)%nat with 1%nat by lia).
    rewrite Hx, Hy. cbn [decodeNibbles].
    assert (Hd : (length (x :: y :: l) / 2 = S (length l / 2))%nat).
    { cbn [length]. replace (S (S (length l))) with (length l + 1 * 2)%nat by lia. rewrite Nat.div_add by lia. lia. }
    destruct (IH fuel (<[bi:=packNibbles x y]> buf) (bi + 1)%nat (ni + 2)%nat) as [E1 E2]; try (lia || done).
    + by rewrite length_insert.
    + intros j Hj. rewrite lookup_total_insert_ne_nat by lia. rewrite Hv by lia.
      by replace (j - ni)%nat with (S (S (j - (ni + 2)))) by lia.
    + rewrite length_insert in E2. split; [|done].
      replace (bi + _)%nat with (bi + 1 + length l / 2)%nat by lia. rewrite E1.
      rewrite Nat.add_1_r. erewrite take_S_r by (apply list_lookup_insert_eq; lia).
      rewrite take_insert_ge by lia. by rewrite <- app_assoc.
Qed.

Lemma hexToCompactInPlace_eq p (term : bool) :
  nibbles_ok p → p ++ (if term then [16] else []) ≠ [] →
  hexToCompactInPlace (p ++ if term then [16] else [])
  = Some (hexToCompact (p ++ if term then [16] else [])).
Proof.
  intros Hp Hne. rewrite hexToCompact_shape by done. unfold hexToCompactInPlace.
  set (hex := p ++ if term then [16] else []) in *.
  assert (Ht : bool_decide (0 < length hex)%nat && (hex !!! (length hex - 1)%nat =? 16) = term).
  { rewrite bool_decide_true by (destruct hex; [done|cbn; lia]). cbn. unfold hex in *. destruct term.
    - rewrite length_app. cbn [length]. rewrite Nat.add_sub. rewrite lookup_total_app_r by lia. by rewrite Nat.sub_diag.
    - rewrite app_nil_r in *. destruct p as [|x p _] using rev_ind; [done|].
      rewrite length_app. cbn [length]. rewrite Nat.add_sub, lookup_total_app_r, Nat.sub_diag by lia. cbn.
      apply Forall_app in Hp as [_ Hx]. inversion Hx as [|? ? [? ?] _]; subst. apply Z.eqb_neq. lia. }
  rewrite Ht. assert (Hlen : (if term then (length hex - 1)%nat else length hex) = length p).
  { unfold hex. destruct term; rewrite length_app; cbn; lia. }
  rewrite Hlen. assert (Hhex : (length p <= length hex ∧ 1 <= length hex)%nat).
  { unfold hex in *. split; [rewrite length_app; lia|]. destruct (p ++ _); [done|cbn; lia]. }
  assert (Hv : ∀ j, (j < length p)%nat → hex !!! j = p !!! j) by (intros j Hj; unfold hex; by rewrite lookup_total_app_l).
  assert (Hgen : ∀ l ni first, length l = (length p - ni)%nat → Nat.odd (length l) = false → (ni <= 1)%nat →
    (length p / 2 = length l / 2)%nat → (∀ j, (ni <= j < length p)%nat → p !!! j = l !!! (j - ni)%nat) →
    match compactLoop (length p) (length p) hex 1 ni with
    | [] => None
    | _ => Some (take (length p / 2 + 1) (<[0%nat:=first]> (compactLoop (length p) (length p) hex 1 ni)))
    end = Some (first :: decodeNibbles l)).
  { intros l ni first Hl Ho Hni Hdiv Hpl.
    destruct (compactLoop_spec (length p) (length p) l hex 1 ni) as [E1 E2]; try (lia || done).
    { intros j Hj. rewrite Hv by lia. by apply Hpl. }
    destruct (compactLoop (length p) (length p) hex 1 ni) as [|z r]; [cbn in E2; lia|].
    cbn [list_insert insert]. rewrite Nat.add_comm, Hdiv. cbn [Nat.add take]. do 2 f_equal.
    cbn [Nat.add take] in E1. destruct hex; [cbn in *; lia|]. cbn in E1. by injection E1. }
  destruct p as [|x r].
  - etrans; [refine (Hgen [] 0%nat (if term then 1 ≪ 5 else 0) _ _ _ _ _); [done|done|lia|done|intros; cbn in *; lia]|by destruct term].
  - destruct (Nat.odd (length (x :: r))) eqn:Ho.
    + assert (Hd : Nat.odd (length r) = false).
      { cbn [length] in Ho. by rewrite Nat.odd_succ, <- Nat.negb_odd, negb_true_iff in Ho. }
      rewrite (Hgen r 1%nat); [| cbn; lia|done|lia| |].
      * f_equal. f_equal. rewrite Hv by (cbn; lia). cbn [lookup_total list_lookup_total].
        apply Forall_cons in Hp as [Hx _]. destruct term; [by apply (flag_or 3); [right|]|by apply (flag_or 1); [left|] ].
      * by apply half_succ_even.
      * intros j Hj. by replace j with (S (j - 1)) at 1 by lia.
    + rewrite (Hgen (x :: r) 0%nat); [by destruct term|lia|done|lia|done|]. intros j Hj. by rewrite Nat.sub_0_r.
Qed.

Lemma length_hexToCompact p (term : bool) :
  nibbles_ok p → length (hexToCompact (p ++ if term then [16] else [])) = (length p / 2 + 1)%nat.
Proof.
  intros Hp. rewrite hexToCompact_shape by done. destruct p as [|x r]; [done|].
  destruct (Nat.odd (length (x :: r))) eqn:Ho; cbn [length].
  - cbn [length] in Ho. rewrite Nat.odd_succ, <- Nat.negb_odd, negb_true_iff in Ho.
    rewrite length_decodeNibbles, half_succ_even by done. lia.
  - rewrite length_decodeNibbles by done. cbn [length]. lia.
Qed.

Lemma hexToCompact_bytes p (term : bool) :
  nibbles_ok p → bytes_ok (hexToCompact (p ++ if term then [16] else [])).
Proof.
  intros Hp. rewrite hexToCompact_shape by done. destruct p as [|x r].
  - repeat constructor; unfold is_byte; destruct term; lia.
  - case_if; constructor.
    + apply Forall_cons in Hp as [[? ?] _]. unfold is_byte. destruct term; lia.
    + apply Forall_cons in Hp as [_ Hp]. by apply decodeNibbles_bytes.
    + unfold is_byte. destruct term; lia.
    + by apply decodeNibbles_bytes.
Qed.

(** The three key encodings are inverse to each other: a byte key survives
    the way to nibbles and back, nibbles with or without the terminator survive
    the compact form, and the conversion that overwrites its own input computes
    the same compact form as the one that allocates. *)
Theorem key_encodings_roundtrip key p (term : bool) :
  bytes_ok key → nibbles_ok p →
  let hex := p ++ (if term then [16] else []) in
  hexToKeybytes (keybytesToHex key) = Some key
  ∧ keybytesToHex key = writeHexKey key ++ [16]
  ∧ compactToHex (hexToCompact hex) = hex
  ∧ (hex ≠ [] → hexToCompactInPlace hex = Some (hexToCompact hex))
  ∧ length (hexToCompact hex) = (length p / 2 + 1)%nat.
Proof.
  intros Hk Hp hex. split_and!.
  - unfold hexToKeybytes, keybytesToHex. rewrite hasTerm_snoc, take_snoc. cbn [Z.eqb Pos.eqb]. fold (writeHexKey key).
    rewrite length_writeHexKey, Nat.odd_mul. cbn. by rewrite decodeNibbles_write.
  - done.
  - by apply compact_hex_roundtrip.
  - intros Hne. by apply hexToCompactInPlace_eq.
  - by apply length_hexToCompact.
Qed.

Lemma key_encodings_roundtrip_witness :
  hexToCompactInPlace [1; 2; 3; 16] = Some [0x31; 0x23] ∧ hexToKeybytes (keybytesToHex [0xAB]) = Some [0xAB].
Proof.
  destruct (key_encodings_roundtrip [0xAB] [1; 2; 3] true) as (H1 & _ & _ & H2 & _);
    [repeat constructor; unfold is_byte; lia|repeat constructor; unfold is_nibble; lia|].
  split; [|exact H1]. exact (H2 ltac:(done)).
Defined.

End TrieKeys.
