(* ===== verification/TrieNode.v ===== *)
(** * Trie nodes and their consensus encoding

    [trie/node.go], [trie/node_enc.go] and [trie/hasher.go]: the node types with
    their cache flags, decoding a node from the database, encoding one for
    hashing, and the recursive hash with its cache.

    The specification is a plain tree without hashes or caches, [tree], with its
    encoding [encTree]: a child of fewer than 32 bytes is embedded, a larger one
    is replaced by its hash. *)

From S2P Require Import Prelude Bytes RLP TrieKeys.
Import RLP TrieKeys.

Module TrieNode.
Set Warnings "-register-all".

(** ** Nodes *)

(** A nil hash is [None]. *)
Record nodeFlag := { fhash : option bytes; dirty : bool }.

(** The [node] interface; [nilNode] is Go's nil. *)
Inductive node :=
| nilNode
| valueNode (v : bytes)
| shortNode (Key : bytes) (Val : node) (flags : nodeFlag)
| fullNode (Children : list node) (flags : nodeFlag)
| hashNode (h : bytes).

Inductive trieError := MissingNodeError | ErrDecode | ErrCommitted | ErrPanic.

(** [cache]: the cached hash and the dirty flag *)
Definition cache (n : node) : option bytes * bool :=
  match n with
  | fullNode _ f | shortNode _ _ f => (f.(fhash), f.(dirty))
  | _ => (None, true)
  end.

(** ** Decoding *)

(** Decoding errors are one value: their texts are not modelled. *)
Definition wrapError {A} (r : result RLP.error A) : result trieError A :=
  match r with Ok a => Ok a | Err _ => Err ErrDecode end.

Definition hashLen : Z := 32.

Definition decodeRef (decodeNode : bytes → result trieError node) (buf : bytes) : result trieError (node * bytes) :=
  '(kind, val, rest) ← wrapError (Split buf);
  if decide (kind = List_) then
    let size := Z.of_nat (length buf) - Z.of_nat (length rest) in
    if hashLen <=? size then Err ErrDecode
    else n ← decodeNode buf; Ok (n, rest)
  else if decide (kind = String_) then
    if decide (length val = 0%nat) then Ok (nilNode, rest)
    else if decide (length val = 32%nat) then Ok (hashNode val, rest)
    else Err ErrDecode
  else Err ErrDecode.

Definition decodeShort (decodeNode : bytes → result trieError node) (hash : option bytes) (elems : bytes) :
    result trieError node :=
  '(kbuf, rest) ← wrapError (SplitString elems);
  let flag := {| fhash := hash; dirty := false |} in
  let key := compactToHex kbuf in
  if hasTerm key then
    '(val, _) ← wrapError (SplitString rest);
    Ok (shortNode key (valueNode val) flag)
  else
    '(r, _) ← decodeRef decodeNode rest;
    Ok (shortNode key r flag).

(** The loop of [decodeFull] over the sixteen references. *)
Fixpoint decodeChildren (n : nat) (decodeNode : bytes → result trieError node) (elems : bytes) :
    result trieError (list node * bytes) :=
  match n with
  | O => Ok ([], elems)
  | S n =>
      '(cld, rest) ← decodeRef decodeNode elems;
      '(cs, rest) ← decodeChildren n decodeNode rest;
      Ok (cld :: cs, rest)
  end.

Definition decodeFull (decodeNode : bytes → result trieError node) (hash : option bytes) (elems : bytes) :
    result trieError node :=
  '(cs, rest) ← decodeChildren 16 decodeNode elems;
  '(val, _) ← wrapError (SplitString rest);
  let v := match val with [] => nilNode | _ => valueNode val end in
  Ok (fullNode (cs ++ [v]) {| fhash := hash; dirty := false |}).

(** An embedded node is shorter than the node around it: the length of the
    buffer is enough fuel. *)
Fixpoint decodeFuel (fuel : nat) (hash : option bytes) (buf : bytes) : result trieError node :=
  match fuel, buf with
  | S fuel, _ :: _ =>
      '(elems, _) ← wrapError (SplitList buf);
      match CountValues elems with
      | (_, Some _) => Err ErrDecode
      | (c, None) =>
          if c =? 2 then decodeShort (decodeFuel fuel None) hash elems
          else if c =? 17 then decodeFull (decodeFuel fuel None) hash elems
          else Err ErrDecode
      end
  | _, _ => Err ErrDecode
  end.

Definition decodeNodeUnsafe (hash : option bytes) (buf : bytes) : result trieError node :=
  decodeFuel (length buf) hash buf.

(** ** Encoding and hashing *)

(** [rlp.EmptyString] *)
Definition EmptyString : bytes := [0x80].

Definition leafNodeEncoder_encode (w : encBuffer) (Key Val : bytes) : option encBuffer :=
  let '(offset, w) := eb_list w in
  listEnd (writeBytes (writeBytes w Key) Val) offset.

Definition extNodeEncoder_encode (w : encBuffer) (Key Val : bytes) : option encBuffer :=
  let '(offset, w) := eb_list w in
  let w := writeBytes w Key in
  let w :=
    match Val with
    | [] => eb_Write w EmptyString
    | _ => if Z.of_nat (length Val) <? 32 then eb_Write w Val else writeBytes w Val
    end in
  listEnd w offset.

(** One turn of [fullnodeEncoder.encode]. *)
Definition writeChild (w : encBuffer) (ic : nat * bytes) : encBuffer :=
  let '(i, c) := ic in
  if decide (length c = 0%nat) then eb_Write w EmptyString
  else if (i =? 16)%nat || (32 <=? Z.of_nat (length c)) then writeBytes w c
  else eb_Write w c.

Definition fullnodeEncoder_encode (w : encBuffer) (Children : list bytes) : option encBuffer :=
  let '(offset, w) := eb_list w in
  listEnd (foldl writeChild w (imap pair Children)) offset.

(** [encodedBytes]: the bytes of a buffer that was empty before the encoder ran *)
Definition encodedBytes (w : option encBuffer) : option bytes := makeBytes <$> w.

Section Hasher.
(** Keccak-256. *)
Context (keccak : bytes → bytes).

(** [hash]: the reference to a node (its hash, or its encoding when it is short
    and not the root) and the node with its cache filled in; [None] is the panic
    on a node that cannot be hashed.  With the parallel flag the source hashes the
    children in goroutines that write to distinct entries; the result is the same. *)
Fixpoint hasher_hash (n : node) (force : bool) {struct n} : option (bytes * node) :=
  match n with
  | shortNode k v f =>
      match f.(fhash) with
      | Some h => Some (h, n)
      | None =>
          '(enc, v') ←
            (if hasTerm k then
               match v with
               | valueNode val =>
                   enc ← encodedBytes (leafNodeEncoder_encode emptyBuffer (hexToCompact k) val);
                   Some (enc, v)
               | _ => None
               end
             else
               '(val, v') ← hasher_hash v false;
               enc ← encodedBytes (extNodeEncoder_encode emptyBuffer (hexToCompact k) val);
               Some (enc, v'));
          if (Z.of_nat (length enc) <? 32) && negb force then Some (enc, shortNode k v' f)
          else
            let hash := keccak enc in
            Some (hash, shortNode k v' {| fhash := Some hash; dirty := f.(dirty) |})
      end
  | fullNode cs f =>
      match f.(fhash) with
      | Some h => Some (h, n)
      | None =>
          refs ← (fix go (i : nat) (cs : list node) : option (list (bytes * node)) :=
                    match cs with
                    | [] => Some []
                    | c :: cs =>
                        r ← (match c with
                             | nilNode => Some ([], c)
                             | _ =>
                                 if (i =? 16)%nat
                                 then match c with valueNode val => Some (val, c) | _ => None end
                                 else hasher_hash c false
                             end);
                        rs ← go (S i) cs;
                        Some (r :: rs)
                    end) 0%nat cs;
          enc ← encodedBytes (fullnodeEncoder_encode emptyBuffer (fst <$> refs));
          if (Z.of_nat (length enc) <? 32) && negb force then Some (enc, fullNode (snd <$> refs) f)
          else
            let hash := keccak enc in
            Some (hash, fullNode (snd <$> refs) {| fhash := Some hash; dirty := f.(dirty) |})
      end
  | hashNode h => Some (h, n)
  | _ => None
  end.

(** ** The specification *)

(** A trie as a plain tree. *)
Inductive tree :=
| TNil
| TVal (v : bytes)
| TShort (k : bytes) (t : tree)
| TFull (ts : list tree).

(** The RLP value of a trie node.  A parent refers to a child by the child
    itself when its encoding is shorter than a hash, and by its hash otherwise. *)
Definition refTo (i : item) : item :=
  if Z.of_nat (length (enc i)) <? 32 then i else Str (keccak (enc i)).

Fixpoint treeItem (t : tree) : item :=
  let ref t := match t with TNil | TVal _ => treeItem t | _ => refTo (treeItem t) end in
  match t with
  | TNil => Str []
  | TVal v => Str v
  | TShort k t => Lst [Str (hexToCompact k); ref t]
  | TFull ts => Lst (ref <$> ts)
  end.

Definition refItem (t : tree) : item :=
  match t with TNil | TVal _ => treeItem t | _ => refTo (treeItem t) end.

Definition encTree (t : tree) : bytes := enc (treeItem t).

Lemma treeItem_short k t : treeItem (TShort k t) = Lst [Str (hexToCompact k); refItem t].
Proof. by destruct t. Qed.

Lemma treeItem_full ts : treeItem (TFull ts) = Lst (refItem <$> ts).
Proof. done. Qed.

Lemma tree_ind' (P : tree → Prop) :
  P TNil → (∀ v, P (TVal v)) → (∀ k t, P t → P (TShort k t)) → (∀ ts, Forall P ts → P (TFull ts)) → ∀ t, P t.
Proof.
  intros HN HV HS HF. fix IH 1. intros [|v|k t|ts]; [done|apply HV|apply HS, IH|]. apply HF.
  induction ts as [|t ts IHl]; constructor; [apply IH|apply IHl].
Qed.

(** *** Canonical tries *)

Definition value_ok (v : bytes) : Prop := v ≠ [] ∧ bytes_ok v.

Definition valueTree (o : option bytes) : tree := match o with Some v => TVal v | None => TNil end.

(** At least two entries of a branch are in use. *)
Definition two_children (ts : list tree) : Prop :=
  ∃ i j ti tj, i ≠ j ∧ ts !! i = Some ti ∧ ti ≠ TNil ∧ ts !! j = Some tj ∧ tj ≠ TNil.

(** A non-empty canonical trie: leaves with terminated keys, extensions that
    lead to a branch, branches with at least two entries. *)
Inductive wf : tree → Prop :=
| wf_leaf k v : hexkey k → value_ok v → wf (TShort k (TVal v))
| wf_ext k ts : k ≠ [] → nibbles_ok k → wf (TFull ts) → wf (TShort k (TFull ts))
| wf_full cs o :
    length cs = 16%nat → Forall (λ t, t = TNil ∨ wf t) cs →
    match o with Some v => value_ok v | None => True end →
    two_children (cs ++ [valueTree o]) → wf (TFull (cs ++ [valueTree o])).

(** Keys and values short enough for 64-bit lengths. *)
Inductive sized : tree → Prop :=
| sized_nil : sized TNil
| sized_val v : Z.of_nat (length v) < 2 ^ 32 → sized (TVal v)
| sized_short k t : Z.of_nat (length k) < 2 ^ 32 → sized t → sized (TShort k t)
| sized_full ts : length ts = 17%nat → Forall sized ts → sized (TFull ts).

(** What a branch or a short node may hold. *)
Definition entry (t : tree) : Prop := t = TNil ∨ (∃ v, t = TVal v ∧ value_ok v) ∨ wf t.

Lemma wf_short_inv k t :
  wf (TShort k t) →
  (∃ v, hexkey k ∧ t = TVal v ∧ value_ok v) ∨ (k ≠ [] ∧ nibbles_ok k ∧ wf t ∧ ∃ ts, t = TFull ts).
Proof. inversion 1; subst; [left|right]; eauto. Qed.

Lemma wf_full_inv ts :
  wf (TFull ts) → ∃ cs o, ts = cs ++ [valueTree o] ∧ length cs = 16%nat ∧ Forall (λ t, t = TNil ∨ wf t) cs
    ∧ match o with Some v => value_ok v | None => True end ∧ two_children ts.
Proof. inversion 1; subst; eauto 10. Qed.

Lemma entry_short k t : entry (TShort k t) → wf (TShort k t).
Proof. intros [[=]|[(? & [=] & _)|?] ]. done. Qed.

Lemma entry_full ts : entry (TFull ts) → wf (TFull ts).
Proof. intros [[=]|[(? & [=] & _)|?] ]. done. Qed.

Lemma wf_short_entry k t : wf (TShort k t) → entry t.
Proof. intros [(v & _ & -> & Hv)|(_ & _ & Hw & _)]%wf_short_inv; [right; left; eauto|by right; right]. Qed.

Lemma wf_full_entries ts : wf (TFull ts) → Forall entry ts ∧ length ts = 17%nat.
Proof.
  intros (cs & o & -> & Hl & Hc & Ho & _)%wf_full_inv. split; [|rewrite length_app; cbn; lia].
  apply Forall_app. split.
  - eapply Forall_impl; [exact Hc|]. intros t [->|Ht]; [by left|by right; right].
  - constructor; [|constructor]. destruct o as [v|]; [right; left; eauto|by left].
Qed.

Lemma wf_short_key k t : wf (TShort k t) → ∃ p (term : bool), nibbles_ok p ∧ k = p ++ if term then [16] else [].
Proof.
  intros [(v & (p & Hp & ->) & _)|(_ & Hk & _)]%wf_short_inv; [by exists p, true|]. exists k, false. by rewrite app_nil_r.
Qed.

Lemma wf_short_term k t : wf (TShort k t) → hasTerm k = match t with TVal _ => true | _ => false end.
Proof.
  intros [(v & Hk & -> & _)|(_ & Hk & _ & ts & ->)]%wf_short_inv; [by apply hexkey_hasTerm|by apply hasTerm_nibbles].
Qed.

End Hasher.

(** The documented facts about Keccak-256 the development relies on. *)
Class Keccak256 (keccak : bytes → bytes) := {
  keccak_length b : length (keccak b) = 32%nat;
  keccak_bytes b : bytes_ok (keccak b);
}.

Section Codec.
Context (keccak : bytes → bytes) {HK : Keccak256 keccak}.
Local Abbreviation encTree := (encTree keccak).
Local Abbreviation treeItem := (treeItem keccak).
Local Abbreviation refItem := (refItem keccak).

Lemma refTo_bound i : item_ok i → item_ok (refTo keccak i) ∧ Z.of_nat (length (enc (refTo keccak i))) <= 33.
Proof.
  intros Hi. unfold refTo. case_if; [split; [done|lia]|]. cbn.
  pose proof (keccak_length (enc i)) as Hl. pose proof (keccak_bytes (enc i)) as Hb. split.
  - constructor; [done|]. rewrite Hl. done.
  - rewrite encStr_long; [|destruct (keccak (enc i)) as [|? [|]]; done].
    by rewrite Hl, length_app, Nat2Z.inj_add, puthead_length, Hl.
Qed.

Lemma concat_bound (l : list item) (c : Z) :
  Forall (λ i, Z.of_nat (length (enc i)) <= c) l →
  Z.of_nat (length (concat (enc <$> l))) <= Z.of_nat (length l) * c.
Proof.
  induction 1 as [|i l Hi _ IH]; [cbn; lia|]. cbn [fmap list_fmap concat length]. rewrite length_app. lia.
Qed.

Lemma tree_items_ok t :
  entry t → sized t →
  item_ok (treeItem t) ∧ item_ok (refItem t) ∧ Z.of_nat (length (enc (refItem t))) <= 2 ^ 32 + 9.
Proof.
  induction t as [|v|k t IH|ts IH] using tree_ind'; intros He Hs.
  - split_and!; [by constructor; [constructor|]..|]. change (Z.of_nat 1 <= 2 ^ 32 + 9). lia.
  - destruct He as [[=]|[(v' & [= <-] & Hne & Hv)|Hw] ]; [|by inversion Hw].
    inversion Hs as [|? Hl| |]; subst. assert (Hl' : Z.of_nat (length v) < two64) by (unfold two64; lia).
    split_and!; [by constructor..|]. cbn. pose proof (encStr_length_le v Hl'). lia.
  - apply entry_short in He. pose proof (wf_short_entry _ _ He) as He'.
    inversion Hs as [| |? ? Hl Hs'|]; subst. destruct (IH He' Hs') as (_ & Hr & Hb).
    destruct (wf_short_key _ _ He) as (p & term & Hp & ->).
    pose proof (length_hexToCompact p term Hp) as Hc. pose proof (hexToCompact_bytes p term Hp) as Hcb.
    assert (Hc2 : Z.of_nat (length p / 2 + 1) < 2 ^ 32 + 1).
    { rewrite length_app in Hl. pose proof (Nat.Div0.div_le_upper_bound (length p) 2 (length p)). lia. }
    assert (Hi : item_ok (treeItem (TShort (p ++ if term then [16] else []) t))).
    { rewrite treeItem_short. constructor.
      - repeat constructor; [done| |done]. rewrite Hc. unfold two64. lia.
      - cbn [fmap list_fmap concat enc]. rewrite !length_app.
        assert (Z.of_nat (length (hexToCompact (p ++ if term then [16] else []))) < two64)
          by (rewrite Hc; unfold two64; lia).
        pose proof (encStr_length_le (hexToCompact (p ++ if term then [16] else []))). cbn [length].
        rewrite Hc in *. unfold two64 in *. lia. }
    split; [done|]. destruct (refTo_bound _ Hi). split; [done|].
    change (refItem (TShort (p ++ if term then [16] else []) t))
      with (refTo keccak (treeItem (TShort (p ++ if term then [16] else []) t))). lia.
  - apply entry_full in He. destruct (wf_full_entries _ He) as [Hes H17]. inversion Hs as [| | |? _ Hss]; subst.
    assert (Hall : Forall (λ t, item_ok (refItem t) ∧ Z.of_nat (length (enc (refItem t))) <= 2 ^ 32 + 9) ts).
    { apply Forall_forall. intros t Ht. rewrite !Forall_forall in *. by destruct (IH t) as (_ & ? & ?); auto. }
    assert (Hi : item_ok (treeItem (TFull ts))).
    { rewrite treeItem_full. constructor.
      - apply Forall_fmap. eapply Forall_impl; [exact Hall|]. by intros t [? _].
      - pose proof (concat_bound (refItem <$> ts) (2 ^ 32 + 9)) as Hb. rewrite length_fmap, H17 in Hb.
        unfold two64. enough (Z.of_nat (length (concat (enc <$> (refItem <$> ts)))) <= 17 * (2 ^ 32 + 9)) by lia.
        apply Hb. apply Forall_fmap. eapply Forall_impl; [exact Hall|]. by intros t [_ ?]. }
    split; [done|]. destruct (refTo_bound _ Hi). split; [done|].
    change (refItem (TFull ts)) with (refTo keccak (treeItem (TFull ts))). lia.
Qed.

(** *** Decoding an encoded node *)

(** The node a parent's encoding holds for a child: the child itself when it is
    embedded, its hash otherwise. *)
Fixpoint embed (t : tree) : node :=
  match t with
  | TNil => nilNode
  | TVal v => valueNode v
  | TShort k t' =>
      if Z.of_nat (length (encTree t)) <? 32 then shortNode k (embed t') {| fhash := None; dirty := false |}
      else hashNode (keccak (encTree t))
  | TFull ts =>
      if Z.of_nat (length (encTree t)) <? 32 then fullNode (embed <$> ts) {| fhash := None; dirty := false |}
      else hashNode (keccak (encTree t))
  end.

(** A node read back from its encoding, with the hash it was asked for. *)
Definition shallow (h : option bytes) (t : tree) : node :=
  match t with
  | TShort k t' => shortNode k (embed t') {| fhash := h; dirty := false |}
  | TFull ts => fullNode (embed <$> ts) {| fhash := h; dirty := false |}
  | _ => nilNode
  end.

Lemma embed_small t : wf t → Z.of_nat (length (encTree t)) < 32 → embed t = shallow None t.
Proof.
  intros Hw Hl. destruct t; [by inversion Hw..| |]; cbn [embed shallow]; case_if; done || lia.
Qed.

Lemma embed_large t : wf t → 32 <= Z.of_nat (length (encTree t)) → embed t = hashNode (keccak (encTree t)).
Proof.
  intros Hw Hl. destruct t; [by inversion Hw..| |]; cbn [embed]; case_if; done || lia.
Qed.

Lemma refItem_wf t : wf t → refItem t = refTo keccak (treeItem t).
Proof. destruct t; [by inversion 1..|done|done]. Qed.

Lemma wf_treeItem t : wf t → ∃ l, treeItem t = Lst l.
Proof. destruct t; [by inversion 1..| |]; rewrite ?treeItem_short, ?treeItem_full; eauto. Qed.

Lemma decodeRef_enc dec t rest :
  t = TNil ∨ wf t → sized t →
  (wf t → Z.of_nat (length (encTree t)) < 32 → dec (encTree t ++ rest) = Ok (shallow None t)) →
  decodeRef dec (enc (refItem t) ++ rest) = Ok (embed t, rest).
Proof.
  intros Ht Hs Hdec. unfold decodeRef. destruct Ht as [->|Hw].
  { change (enc (refItem TNil)) with (encStr []). by rewrite Split_long. }
  destruct (tree_items_ok t) as (Hi & _ & _); [by right; right|done|].
  destruct (wf_treeItem t Hw) as [l Hl]. rewrite refItem_wf by done. unfold refTo. fold (encTree t).
  destruct (Z.ltb_spec (Z.of_nat (length (encTree t))) 32) as [Hsm|Hlg].
  - destruct (Split_enc _ rest Hi) as (k & Hk & Hsp). unfold TrieNode.encTree in *. rewrite Hsp. rewrite Hl in Hk.
    cbn in Hk. subst k. cbn [wrapError mbind result_bind]. rewrite decide_True by done.
    rewrite length_app. unfold hashLen.
    replace (32 <=? _) with false by (symmetry; apply Z.leb_gt; lia).
    rewrite Hdec by done. cbn. by rewrite embed_small.
  - cbn [enc]. pose proof (keccak_length (encTree t)) as Hkl.
    rewrite Split_long; [|destruct (keccak (encTree t)) as [|? [|]]; done|by rewrite Hkl].
    cbn [wrapError mbind result_bind]. rewrite decide_False by done. rewrite decide_True by done.
    rewrite decide_False by lia. rewrite decide_True by done. by rewrite embed_large.
Qed.

Lemma decodeChildren_enc dec cs rest :
  Forall (λ t, ∀ rest, decodeRef dec (enc (refItem t) ++ rest) = Ok (embed t, rest)) cs →
  decodeChildren (length cs) dec (concat (enc <$> (refItem <$> cs)) ++ rest) = Ok (embed <$> cs, rest).
Proof.
  induction 1 as [|t cs Ht _ IH]; [done|]. cbn [length decodeChildren fmap list_fmap concat].
  rewrite <- app_assoc, Ht. cbn [mbind result_bind]. by rewrite IH.
Qed.

Lemma sized_lookup ts t : sized (TFull ts) → t ∈ ts → sized t.
Proof. inversion 1 as [| | |? _ Hs]; subst. rewrite Forall_forall in Hs. auto. Qed.

(** The encoding of a short node is longer than that of what it embeds. *)
Lemma enc_Lst_length l i :
  item_ok (Lst l) → i ∈ l → (length (enc i) < length (enc (Lst l)))%nat.
Proof.
  intros Hok Hi. inversion Hok as [|? _ Hlen]; subst. pose proof (encList_length_le _ Hlen) as Hle.
  pose proof (length_concat_elem (enc i) (enc <$> l)) as Hc. cbn [enc].
  assert (enc i ∈ enc <$> l) by (apply list_elem_of_fmap; eauto). specialize (Hc ltac:(done)). lia.
Qed.

Lemma valueTree_entry o : match o with Some v => value_ok v | None => True end → entry (valueTree o).
Proof. destruct o; intros; [right; left; eauto|by left]. Qed.

Lemma decode_value o rest :
  match o with Some v => value_ok v | None => True end → sized (valueTree o) →
  SplitString (enc (refItem (valueTree o)) ++ rest) = Ok (match o with Some v => v | None => [] end, rest).
Proof.
  intros Ho Hs. destruct o as [v|]; cbn in *.
  - inversion Hs as [|? Hl| |]; subst. apply SplitString_enc; [apply Ho|unfold two64; lia].
  - by apply (SplitString_enc []).
Qed.

Lemma decode_enc t :
  wf t → sized t → ∀ fuel h rest, (length (encTree t) <= fuel)%nat →
  decodeFuel fuel h (encTree t ++ rest) = Ok (shallow h t).
Proof.
  induction t as [|v|k t IH|ts IH] using tree_ind'; intros Hw Hs fuel h rest Hf; [by inversion Hw..| |];
    destruct (tree_items_ok _ (or_intror (or_intror Hw)) Hs) as (Hi & _ & _).
  - pose proof (wf_short_term _ _ Hw) as Hterm. pose proof (wf_short_entry _ _ Hw) as He.
    destruct (wf_short_key _ _ Hw) as (p & term & Hp & Hk). inversion Hs as [| |? ? Hlk Hst|]; subst.
    unfold TrieNode.encTree in *. rewrite treeItem_short in *.
    set (l := [Str (hexToCompact (p ++ if term then [16] else [])); refItem t]) in *.
    assert (Hin : refItem t ∈ l) by (right; left).
    pose proof (enc_Lst_length l _ Hi Hin) as Hlt.
    inversion Hi as [|? Hall Hlen]; subst. pose proof (Forall_inv Hall) as Hstr.
    inversion Hstr as [? Hbk Hlk'|]; subst.
    destruct fuel as [|fuel]; [lia|]. destruct (enc (Lst l)) as [|e0 es] eqn:Ee; [cbn in Hlt; lia|].
    cbn [app decodeFuel]. change (e0 :: es ++ rest) with ((e0 :: es) ++ rest). rewrite <- Ee. cbn [enc].
    rewrite SplitList_enc by done. cbn [wrapError mbind result_bind]. rewrite CountValues_enc by done.
    cbn [length l]. change (Z.of_nat 2 =? 2) with true. cbv iota. unfold decodeShort.
    unfold l. cbn [fmap list_fmap concat enc]. rewrite SplitString_enc by done. cbn [wrapError mbind result_bind].
    rewrite compact_hex_roundtrip, Hterm by done. destruct t as [|v|k' t'|ts'].
    + apply wf_short_inv in Hw as [(v & _ & [=] & _)|(_ & _ & Hw & _)]. inversion Hw.
    + destruct He as [[=]|[(v' & [= <-] & Hv)|Hw'] ]; [|by inversion Hw'].
      inversion Hst as [|? Hlv| |]; subst.
      change (enc (refItem (TVal v))) with (encStr v). rewrite (SplitString_enc v []) by (first [apply Hv|unfold two64; lia]). done.
    + apply wf_short_inv in Hw as [(v & _ & [=] & _)|(_ & _ & _ & ts & [=])].
    + apply entry_full in He. rewrite decodeRef_enc; [done|by right|done|]. intros _ Hsm. apply IH; [done..|].
      unfold TrieNode.encTree in *. rewrite (refItem_wf _ He) in Hlt. unfold refTo in Hlt.
      rewrite (proj2 (Z.ltb_lt _ _) Hsm) in Hlt. lia.
  - destruct (wf_full_inv _ Hw) as (cs & o & -> & H16 & Hcs & Ho & _).
    unfold TrieNode.encTree in *. rewrite treeItem_full in *. inversion Hi as [|? Hall Hlen]; subst.
    destruct fuel as [|fuel]; [exfalso; pose proof (encList_length_le _ Hlen); cbn [enc] in Hf; lia|].
    destruct (enc (Lst (refItem <$> cs ++ [valueTree o]))) as [|e0 es] eqn:Ee.
    { exfalso. pose proof (encList_length_le _ Hlen) as Hle. cbn [enc] in Ee. rewrite Ee in Hle. cbn in Hle. lia. }
    cbn [app decodeFuel]. change (e0 :: es ++ rest) with ((e0 :: es) ++ rest). rewrite <- Ee in Hf |- *. cbn [enc].
    rewrite SplitList_enc by done. cbn [wrapError mbind result_bind]. rewrite CountValues_enc by done.
    rewrite length_fmap, length_app, H16. change (Z.of_nat (16 + length [valueTree o])) with 17. cbv iota.
    change (17 =? 2) with false. change (17 =? 17) with true. cbv iota. unfold decodeFull.
    rewrite !fmap_app, concat_app. rewrite <- H16, decodeChildren_enc.
    + cbn [mbind result_bind fmap list_fmap concat]. rewrite decode_value; [|done|].
      * cbn [wrapError mbind result_bind shallow]. rewrite fmap_app. do 2 f_equal. f_equal.
        destruct o as [[|]|]; [by destruct Ho|done..].
      * eapply sized_lookup; [done|]. apply elem_of_app. right. by left.
    + apply Forall_forall. intros t Ht rest'. rewrite Forall_forall in Hcs, IH.
      assert (Ht' : t ∈ cs ++ [valueTree o]) by (apply elem_of_app; by left).
      apply decodeRef_enc; [by apply Hcs|by eapply sized_lookup|]. intros Hwt Hsm. apply IH; [done..| |].
      { by eapply sized_lookup. }
      assert (Hin : refItem t ∈ refItem <$> cs ++ [valueTree o]) by (apply list_elem_of_fmap; eauto).
      pose proof (enc_Lst_length _ _ Hi Hin) as Hlt. rewrite (refItem_wf _ Hwt) in Hlt. unfold refTo in Hlt.
      unfold TrieNode.encTree in *. rewrite (proj2 (Z.ltb_lt _ _) Hsm) in Hlt. lia.
Qed.

(** ** Nodes in memory *)

(** [avail p t]: the database can supply the tree [t] at path [p]. *)
Section Represent.
Context (avail : bytes → tree → Prop).

(** A cached hash is the node's; a clean node is in the database or embedded. *)
Definition flag_ok (p : bytes) (f : nodeFlag) (t : tree) : Prop :=
  match f.(fhash) with
  | Some h => h = keccak (encTree t) ∧ (p = [] ∨ 32 <= Z.of_nat (length (encTree t)))
              ∧ (f.(dirty) = false → avail p t)
  | None => f.(dirty) = false → p ≠ [] ∧ Z.of_nat (length (encTree t)) < 32
  end.

(** The tree a partly loaded node at path [p] stands for. *)
Inductive rep : bytes → node → tree → Prop :=
| rep_nil p : rep p nilNode TNil
| rep_val p v : rep p (valueNode v) (TVal v)
| rep_short p k n t f : rep (p ++ k) n t → flag_ok p f (TShort k t) → rep p (shortNode k n f) (TShort k t)
| rep_full p cs ts f :
    length cs = length ts →
    (∀ i c t, cs !! i = Some c → ts !! i = Some t → rep (p ++ [Z.of_nat i]) c t) →
    flag_ok p f (TFull ts) → rep p (fullNode cs f) (TFull ts)
| rep_hash p t : wf t → sized t → 32 <= Z.of_nat (length (encTree t)) → avail p t →
    rep p (hashNode (keccak (encTree t))) t.

(** The reference [hash] returns. *)
Definition refBytes (force : bool) (t : tree) : bytes :=
  if (Z.of_nat (length (encTree t)) <? 32) && negb force then encTree t else keccak (encTree t).

Lemma enc_refItem t : wf t → enc (refItem t) = if Z.of_nat (length (encTree t)) <? 32 then encTree t else encStr (keccak (encTree t)).
Proof. intros Hw. rewrite refItem_wf by done. unfold refTo, TrieNode.encTree. by case_if. Qed.

Lemma encTree_nonnil t : encTree t ≠ [].
Proof. apply enc_nonempty. Qed.

Lemma leaf_encoding k v :
  wf (TShort k (TVal v)) → sized (TShort k (TVal v)) →
  encodedBytes (leafNodeEncoder_encode emptyBuffer (hexToCompact k) v) = Some (encTree (TShort k (TVal v))).
Proof.
  intros Hw Hs. destruct (tree_items_ok _ (or_intror (or_intror Hw)) Hs) as (Hi & _).
  unfold encodedBytes, leafNodeEncoder_encode. unfold TrieNode.encTree. rewrite treeItem_short in *.
  inversion Hi as [|? _ Hlen]; subst.
  pose proof (list_of_writes [encStr (hexToCompact k); encStr v]) as Hlw. cbn [foldl] in Hlw.
  destruct (eb_list emptyBuffer) as [off w]. rewrite !writeBytes_encStr. by apply Hlw.
Qed.

Lemma ext_encoding k t :
  wf (TShort k t) → sized (TShort k t) → wf t →
  encodedBytes (extNodeEncoder_encode emptyBuffer (hexToCompact k) (refBytes false t)) = Some (encTree (TShort k t)).
Proof.
  intros Hw Hs Hwt. destruct (tree_items_ok _ (or_intror (or_intror Hw)) Hs) as (Hi & _).
  unfold encodedBytes, extNodeEncoder_encode. change (encTree (TShort k t)) with (enc (treeItem (TShort k t))). rewrite treeItem_short in *.
  inversion Hi as [|? _ Hlen]; subst.
  pose proof (list_of_writes [encStr (hexToCompact k); enc (refItem t)]) as Hlw. cbn [foldl] in Hlw.
  destruct (eb_list emptyBuffer) as [off w]. rewrite !writeBytes_encStr. cbn [fst snd] in Hlw.
  etrans; [|by apply Hlw]. do 2 f_equal. rewrite enc_refItem by done. unfold refBytes. cbn [negb].
  rewrite andb_true_r. destruct (Z.ltb_spec (Z.of_nat (length (encTree t))) 32).
  - pose proof (encTree_nonnil t). destruct (encTree t) as [|e es] eqn:Ee; [done|]. rewrite <- Ee in *.
    by rewrite (proj2 (Z.ltb_lt _ _)).
  - pose proof (keccak_length (encTree t)) as Hl. destruct (keccak (encTree t)) as [|e es]; [done|]. by rewrite Hl.
Qed.

(** What the encoder of a branch writes for each reference. *)
Lemma writeChild_ref w i t r :
  (i < 16)%nat ∧ (t = TNil ∧ r = [] ∨ wf t ∧ r = refBytes false t) ∨ i = 16%nat ∧ entry t ∧ ¬ wf t ∧ r = match t with TVal v => v | _ => [] end →
  writeChild w (i, r) = eb_Write w (enc (refItem t)).
Proof.
  intros H. unfold writeChild. destruct H as [(Hi & [[-> ->]|[Hw ->]])|(-> & He & Hnw & ->)]; [done|..].
  - rewrite enc_refItem by done. unfold refBytes. cbn [negb]. rewrite andb_true_r.
    replace (i =? 16)%nat with false by (symmetry; apply Nat.eqb_neq; lia). cbn [orb].
    destruct (Z.ltb_spec (Z.of_nat (length (encTree t))) 32).
    + rewrite decide_False by (pose proof (encTree_nonnil t); destruct (encTree t); done).
      by rewrite (proj2 (Z.leb_gt _ _)).
    + rewrite keccak_length. cbn. apply writeBytes_encStr.
  - destruct He as [-> | [(v & -> & Hne & _) | ?] ]; [done| |done]. rewrite decide_False by (destruct v; done).
    cbn [Nat.eqb orb]. apply writeBytes_encStr.
Qed.

Lemma full_encoding ts (rs : list bytes) :
  wf (TFull ts) → sized (TFull ts) → length rs = 17%nat →
  (∀ i t r, ts !! i = Some t → rs !! i = Some r →
     (i < 16)%nat ∧ (t = TNil ∧ r = [] ∨ wf t ∧ r = refBytes false t)
     ∨ i = 16%nat ∧ entry t ∧ ¬ wf t ∧ r = match t with TVal v => v | _ => [] end) →
  encodedBytes (fullnodeEncoder_encode emptyBuffer rs) = Some (encTree (TFull ts)).
Proof.
  intros Hw Hs Hlen Hr. destruct (tree_items_ok _ (or_intror (or_intror Hw)) Hs) as (Hi & _).
  destruct (wf_full_entries _ Hw) as [_ H17].
  unfold encodedBytes, fullnodeEncoder_encode. change (encTree (TFull ts)) with (enc (treeItem (TFull ts))). rewrite treeItem_full in *.
  inversion Hi as [|? _ Hlt]; subst. cbn [enc]. rewrite <- list_of_writes by done.
  destruct (eb_list emptyBuffer) as [off w]. cbn [fst snd]. do 2 f_equal. clear Hi Hlt Hw Hs.
  assert (Hgen : ∀ n rs ts w, length rs = length ts →
    (∀ i t r, ts !! i = Some t → rs !! i = Some r →
       (n + i < 16)%nat ∧ (t = TNil ∧ r = [] ∨ wf t ∧ r = refBytes false t)
       ∨ (n + i)%nat = 16%nat ∧ entry t ∧ ¬ wf t ∧ r = match t with TVal v => v | _ => [] end) →
    foldl writeChild w (imap (λ i, pair (n + i)%nat) rs) = foldl eb_Write w (enc <$> (refItem <$> ts))).
  { clear -HK. intros n rs. revert n. induction rs as [|r rs IH]; intros n [|t ts] w Hl Hr; try done.
    cbn [imap foldl fmap list_fmap]. rewrite (writeChild_ref w _ t).
    - assert (Himap : imap ((λ i, pair (n + i)%nat) ∘ S) rs = imap (λ i, pair (S n + i)%nat) rs).
      { apply imap_ext. intros i x _. cbn. f_equal. lia. }
      rewrite Himap. apply IH; [cbn in Hl; lia|].
      intros i t' r' Ht' Hr'. specialize (Hr (S i) t' r' Ht' Hr'). by replace (S n + i)%nat with (n + S i)%nat by lia.
    - apply (Hr 0%nat); done. }
  apply (Hgen 0%nat); [lia|done].
Qed.

(** The loop of [hash] over the children of a branch. *)
Fixpoint hashChildren (i : nat) (cs : list node) : option (list (bytes * node)) :=
  match cs with
  | [] => Some []
  | c :: cs =>
      r ← (match c with
           | nilNode => Some ([], c)
           | _ =>
               if (i =? 16)%nat
               then match c with valueNode val => Some (val, c) | _ => None end
               else hasher_hash keccak c false
           end);
      rs ← hashChildren (S i) cs;
      Some (r :: rs)
  end.

Lemma hasher_hash_full cs f force :
  hasher_hash keccak (fullNode cs f) force =
  match f.(fhash) with
  | Some h => Some (h, fullNode cs f)
  | None =>
      refs ← hashChildren 0 cs;
      enc ← encodedBytes (fullnodeEncoder_encode emptyBuffer (fst <$> refs));
      if (Z.of_nat (length enc) <? 32) && negb force then Some (enc, fullNode (snd <$> refs) f)
      else Some (keccak enc, fullNode (snd <$> refs) {| fhash := Some (keccak enc); dirty := f.(dirty) |})
  end.
Proof. done. Qed.

Lemma rep_wf_node p n t : rep p n t → wf t →
  (∃ k v f, n = shortNode k v f) ∨ (∃ cs f, n = fullNode cs f) ∨ ∃ h, n = hashNode h.
Proof. intros Hr Hw. destruct Hr; [by inversion Hw..| | |]; eauto 10. Qed.

(** The reference of a node and its updated cache. *)
Definition hash_spec (p : bytes) (n : node) (t : tree) (force : bool) : Prop :=
  ∃ n', hasher_hash keccak n force = Some (refBytes force t, n') ∧ rep p n' t.

(** A cached hash is the reference. *)
Lemma cached_ref p f t force h :
  flag_ok p f t → f.(fhash) = Some h → (p = [] → force = true) → h = refBytes force t.
Proof.
  unfold flag_ok. intros Hf E Hp. rewrite E in Hf. destruct Hf as (-> & Hsz & _). unfold refBytes.
  destruct (Z.ltb_spec (Z.of_nat (length (encTree t))) 32); [|done].
  destruct Hsz as [->|]; [by rewrite Hp|lia].
Qed.

(** The flag after the hash was computed. *)
Lemma flag_ok_fill p f t force :
  flag_ok p f t → f.(fhash) = None → (force = true → p = []) →
  (Z.of_nat (length (encTree t)) <? 32) && negb force = false →
  flag_ok p {| fhash := Some (keccak (encTree t)); dirty := f.(dirty) |} t.
Proof.
  intros Hf E Hp Hb. unfold flag_ok in *. rewrite E in Hf. cbn. split_and!; [done| |].
  - destruct force; [left; auto|right]. rewrite andb_true_r in Hb. by apply Z.ltb_ge in Hb.
  - intros Hd. destruct (Hf Hd) as [Hp' Hl]. destruct force; [by rewrite Hp in Hp'|].
    rewrite (proj2 (Z.ltb_lt _ _) Hl) in Hb. done.
Qed.

Lemma hash_children_spec p i cs ts :
  length cs = length ts → (i + length ts = 17)%nat →
  (∀ j c t, cs !! j = Some c → ts !! j = Some t → rep (p ++ [Z.of_nat (i + j)]) c t) →
  (∀ j t, ts !! j = Some t → (i + j < 16)%nat ∧ (t = TNil ∨ wf t) ∨ (i + j = 16)%nat ∧ entry t ∧ ¬ wf t) →
  Forall (λ t, wf t → ∀ p n, p ≠ [] → rep p n t → hash_spec p n t false) ts →
  ∃ refs, hashChildren i cs = Some refs ∧ length refs = length ts
    ∧ (∀ j c t, (snd <$> refs) !! j = Some c → ts !! j = Some t → rep (p ++ [Z.of_nat (i + j)]) c t)
    ∧ (∀ j t r, ts !! j = Some t → (fst <$> refs) !! j = Some r →
       (i + j < 16)%nat ∧ (t = TNil ∧ r = [] ∨ wf t ∧ r = refBytes false t)
       ∨ (i + j = 16)%nat ∧ entry t ∧ ¬ wf t ∧ r = match t with TVal v => v | _ => [] end).
Proof.
  revert i ts. induction cs as [|c cs IH]; intros i [|t ts] Hl Hi Hr Hw Hh; try done.
  { exists []. split_and!; [done|done|intros; done|intros; done]. }
  apply Forall_cons in Hh as [Hh Hhs]. cbn [length] in Hl, Hi.
  destruct (IH (S i) ts) as (refs & E & Hlr & Hreps & Hrefs); [lia|lia| | |done|].
  { intros j c' t' Hc Ht. specialize (Hr (S j) c' t' Hc Ht). by replace (S i + j)%nat with (i + S j)%nat by lia. }
  { intros j t' Ht. specialize (Hw (S j) t' Ht). by replace (S i + j)%nat with (i + S j)%nat by lia. }
  pose proof (Hr 0%nat c t eq_refl eq_refl) as Hc. pose proof (Hw 0%nat t eq_refl) as Ht.
  rewrite Nat.add_0_r in Hc, Ht.
  assert (Hone : ∃ r c', match c with
      | nilNode => Some ([], c)
      | _ => if (i =? 16)%nat then match c with valueNode val => Some (val, c) | _ => None end
             else hasher_hash keccak c false end = Some (r, c') ∧ rep (p ++ [Z.of_nat i]) c' t
      ∧ ((i < 16)%nat ∧ (t = TNil ∧ r = [] ∨ wf t ∧ r = refBytes false t)
       ∨ i = 16%nat ∧ entry t ∧ ¬ wf t ∧ r = match t with TVal v => v | _ => [] end)).
  { destruct Ht as [(Hlt & [->|Hwt])|(-> & He & Hnw)].
    - inversion Hc as [| | | |? ? Hbad]; subst; [|by inversion Hbad]. eexists _, _. split_and!; [done|done|]. left; auto.
    - destruct (Hh Hwt (p ++ [Z.of_nat i]) c ltac:(by destruct p) Hc) as (c' & E' & Hc').
      exists (refBytes false t), c'. split_and!; [|done|by left; auto].
      replace (i =? 16)%nat with false by (symmetry; apply Nat.eqb_neq; lia).
      destruct (rep_wf_node _ _ _ Hc Hwt) as [(? & ? & ? & ->)|[(? & ? & ->)|(? & ->)]]; done.
    - destruct He as [-> | [(v & -> & Hv) | ?] ]; [| |done].
      + inversion Hc as [| | | |? ? Hbad]; subst; [|by inversion Hbad]. eexists _, _. split_and!; [done|done|].
        right. split_and!; [done|by left|done|done].
      + inversion Hc as [| | | |? ? Hbad]; subst; [|by inversion Hbad]. eexists _, _. split_and!; [done|done|].
        right. split_and!; [done|right; left; eauto|done|done]. }
  destruct Hone as (r & c' & E1 & Hc' & Hr'). exists ((r, c') :: refs). cbn [hashChildren]. rewrite E1, E.
  split_and!; [done|cbn; lia| |].
  - intros [|j] c0 t0; cbn [fmap list_fmap lookup list_lookup]; [intros [= <-] [= <-]; by rewrite Nat.add_0_r|].
    intros H1 H2. specialize (Hreps j c0 t0 H1 H2). by replace (i + S j)%nat with (S i + j)%nat by lia.
  - intros [|j] t0 r0; cbn [fmap list_fmap lookup list_lookup]; [intros [= <-] [= <-]; by rewrite Nat.add_0_r|].
    intros H1 H2. specialize (Hrefs j t0 r0 H1 H2). by replace (i + S j)%nat with (S i + j)%nat by lia.
Qed.

(** [hash] computes the reference of the tree a node stands for. *)
Lemma hasher_hash_spec t :
  wf t → sized t → ∀ p n force, (p = [] ↔ force = true) → rep p n t → hash_spec p n t force.
Proof.
  induction t as [|v|k t IH|ts IH] using tree_ind'; intros Hw Hs p n force Hp Hr; [by inversion Hw..| |].
  - inversion Hr as [| |? ? v ? f Hv Hf| |? ? ? ? Hlg Hav]; subst; cycle 1.
    { eexists. split; [|exact Hr]. cbn. do 2 f_equal. unfold refBytes. by rewrite (proj2 (Z.ltb_ge _ _)). }
    unfold hash_spec. cbn [hasher_hash]. destruct (fhash f) as [h|] eqn:Eh.
    { eexists. split; [|exact Hr]. do 2 f_equal. eapply cached_ref; [done|done|]. by apply Hp. }
    pose proof (wf_short_term _ _ Hw) as Hterm. inversion Hs as [| |? ? _ Hst|]; subst.
    assert (Henc : ∃ v', (if hasTerm k then match v with
          | valueNode val => enc ← encodedBytes (leafNodeEncoder_encode emptyBuffer (hexToCompact k) val); Some (enc, v)
          | _ => None end
        else '(val, v') ← hasher_hash keccak v false;
             enc ← encodedBytes (extNodeEncoder_encode emptyBuffer (hexToCompact k) val); Some (enc, v'))
      = Some (encTree (TShort k t), v') ∧ rep (p ++ k) v' t).
    { rewrite Hterm. destruct (wf_short_inv _ _ Hw) as [(v0 & Hk & -> & Hv0)|(Hk & _ & Hwt & ts & Et)].
      - inversion Hv as [| | | |? ? Hbad]; subst; [|by inversion Hbad]. exists (valueNode v0).
        rewrite leaf_encoding by done. split; [done|constructor].
      - destruct (IH Hwt Hst (p ++ k) v false) as (v' & E & Hv'); [|done|].
        { split; [|done]. intros H. apply app_eq_nil in H as [_ ?]. done. }
        exists v'. rewrite E. cbn [mbind option_bind]. rewrite ext_encoding by done. subst t. done. }
    destruct Henc as (v' & -> & Hv'). cbn [mbind option_bind]. unfold refBytes.
    destruct ((Z.of_nat (length (encTree (TShort k t))) <? 32) && negb force) eqn:Hb.
    + eexists. split; [done|]. by constructor.
    + eexists. split; [done|]. constructor; [done|]. eapply flag_ok_fill; [done..|by apply Hp|done].
  - inversion Hr as [| | |? cs ? f Hl Hcs Hf|? ? ? ? Hlg Hav]; subst; cycle 1.
    { eexists. split; [|exact Hr]. cbn. do 2 f_equal. unfold refBytes. by rewrite (proj2 (Z.ltb_ge _ _)). }
    unfold hash_spec. rewrite hasher_hash_full. destruct (fhash f) as [h|] eqn:Eh.
    { eexists. split; [|exact Hr]. do 2 f_equal. eapply cached_ref; [done|done|]. by apply Hp. }
    destruct (wf_full_entries _ Hw) as [_ H17].
    destruct (hash_children_spec p 0 cs ts) as (refs & -> & Hlr & Hreps & Hrefs); [done|lia|done| | |].
    { intros j t Ht. destruct (wf_full_inv _ Hw) as (cs' & o & -> & H16 & Hcs' & Ho & _).
      destruct (decide (j < 16)%nat).
      - left. split; [lia|]. rewrite lookup_app_l in Ht by lia. by eapply Forall_lookup_1 in Hcs'.
      - right. rewrite lookup_app_r in Ht by lia. apply list_lookup_singleton_Some in Ht as [Hj <-].
        split_and!; [lia|by apply valueTree_entry|]. destruct o; by inversion 1. }
    { apply Forall_forall. intros t Ht Hwt p' n' Hne Hrn. rewrite Forall_forall in IH.
      apply IH; [done|done|by eapply sized_lookup|by split|done]. }
    cbn [mbind option_bind]. rewrite (full_encoding ts) by (done || (rewrite length_fmap; lia)).
    cbn [mbind option_bind]. unfold refBytes.
    destruct ((Z.of_nat (length (encTree (TFull ts))) <? 32) && negb force) eqn:Hb.
    + eexists. split; [done|]. constructor; [rewrite length_fmap; lia|done|done].
    + eexists. split; [done|]. constructor; [rewrite length_fmap; lia|done|].
      eapply flag_ok_fill; [done..|by apply Hp|done].
Qed.

End Represent.
End Codec.
End TrieNode.
