(* ===== verification/TrieSpec.v ===== *)
(** * Canonical tries as finite maps

    The entries of a tree, and the fact on which state roots rest: a canonical
    trie is determined by its entries, whatever operations built it. *)

From S2P Require Import Prelude Bytes TrieKeys TrieNode.
Import TrieKeys TrieNode.

Module TrieSpec.

(** ** Entries *)

(** [has t k v]: the tree maps the terminated key [k] to [v]. *)
Inductive has : tree → bytes → bytes → Prop :=
| has_val v : has (TVal v) [] v
| has_short k t key v : has t key v → has (TShort k t) (k ++ key) v
| has_full ts c t key v : 0 <= c → ts !! Z.to_nat c = Some t → has t key v → has (TFull ts) (c :: key) v.

Lemma has_nil_inv k v : ¬ has TNil k v.
Proof. by inversion 1. Qed.

Lemma has_val_inv v k w : has (TVal v) k w ↔ k = [] ∧ w = v.
Proof. split; [by inversion 1|]. intros [-> ->]. constructor. Qed.

Lemma has_short_inv k t key v : has (TShort k t) key v ↔ ∃ r, key = k ++ r ∧ has t r v.
Proof. split; [inversion 1; subst; eauto|]. intros (r & -> & ?). by constructor. Qed.

Lemma has_full_inv ts key v :
  has (TFull ts) key v ↔ ∃ c r t, key = c :: r ∧ 0 <= c ∧ ts !! Z.to_nat c = Some t ∧ has t r v.
Proof. split; [inversion 1; subst; eauto 10|]. intros (c & r & t & -> & ? & ? & ?). by econstructor. Qed.

Lemma has_full_cons ts c r v :
  has (TFull ts) (c :: r) v ↔ 0 <= c ∧ ∃ t, ts !! Z.to_nat c = Some t ∧ has t r v.
Proof.
  rewrite has_full_inv. split.
  - intros (? & ? & t & [= <- <-] & ? & ? & ?). eauto.
  - intros (? & t & ? & ?). eauto 10.
Qed.

(** Children of a branch, by position. *)
Lemma wf_full_lookup ts i t :
  wf (TFull ts) → ts !! i = Some t →
  (i < 16)%nat ∧ (t = TNil ∨ wf t) ∨ i = 16%nat ∧ (t = TNil ∨ ∃ v, t = TVal v ∧ value_ok v).
Proof.
  intros (cs & o & -> & H16 & Hcs & Ho & _)%wf_full_inv Hi. destruct (decide (i < 16)%nat).
  - left. rewrite lookup_app_l in Hi by lia. split; [done|]. by eapply Forall_lookup_1 in Hcs.
  - right. rewrite lookup_app_r in Hi by lia. apply list_lookup_singleton_Some in Hi as [Hi <-].
    split; [lia|]. destruct o; [right; eauto|by left].
Qed.

Lemma wf_full_length ts : wf (TFull ts) → length ts = 17%nat.
Proof. intros Hw. apply wf_full_entries in Hw as [_ ?]. done. Qed.

(** The converse: a branch is canonical when its children are. *)
Lemma wf_full_intro ts :
  length ts = 17%nat →
  (∀ i t, ts !! i = Some t →
     (i < 16)%nat ∧ (t = TNil ∨ wf t) ∨ i = 16%nat ∧ (t = TNil ∨ ∃ v, t = TVal v ∧ value_ok v)) →
  two_children ts → wf (TFull ts).
Proof.
  intros H17 Hts H2. destruct ts as [|t cs _] using rev_ind; [done|]. rewrite length_app in H17. cbn in H17.
  assert (Hl : length cs = 16%nat) by lia.
  assert (Ht : ∃ o, t = valueTree o ∧ match o with Some v => value_ok v | None => True end).
  { destruct (Hts 16%nat t) as [[? _]|[_ [->|(v & -> & Hv)]]]; [|lia|by exists None|by exists (Some v)].
    rewrite lookup_app_r, Hl by lia. done. }
  destruct Ht as (o & -> & Ho). constructor; [done| |done|done]. apply Forall_lookup_2. intros i t Hi.
  destruct (Hts i t) as [[_ ?]|[-> _]]; [by apply lookup_app_l_Some|done|].
  apply lookup_lt_Some in Hi. lia.
Qed.

Lemma has_hexkey t k v : wf t → has t k v → hexkey k ∧ value_ok v.
Proof.
  revert k. induction t as [|w|k' t IH|ts IH] using tree_ind'; intros k Hw Hh; [by inversion Hw..| |].
  - apply has_short_inv in Hh as (r & -> & Hr).
    apply wf_short_inv in Hw as [(w & Hk & -> & Hv)|(_ & Hk & Hw & _)].
    + apply has_val_inv in Hr as [-> ->]. by rewrite app_nil_r.
    + destruct (IH r Hw Hr) as [? ?]. split; [by apply hexkey_app|done].
  - apply has_full_inv in Hh as (c & r & t & -> & Hc & Ht & Hr).
    destruct (wf_full_lookup _ _ _ Hw Ht) as [[Hi [->|Hwt]]|[Hi [->|(w & -> & Hv)]]]; try (by inversion Hr).
    + rewrite Forall_forall in IH. destruct (IH t (list_elem_of_lookup_2 _ _ _ Ht) r Hwt Hr) as [? ?].
      split; [|done]. apply hexkey_cons. right. split; [|done]. unfold is_nibble. lia.
    + apply has_val_inv in Hr as [-> ->]. split; [|done]. apply hexkey_cons. left. split; [lia|done].
Qed.

Lemma has_functional t k v w : has t k v → has t k w → v = w.
Proof.
  intros H. revert w. induction H as [v|k t key v _ IH|ts c t key v Hc Ht _ IH]; intros w Hw.
  - by apply has_val_inv in Hw as [_ ->].
  - apply has_short_inv in Hw as (r & E & Hr). apply app_inv_head in E. subst. auto.
  - apply has_full_cons in Hw as (_ & t' & Ht' & Hr). rewrite Ht in Ht'. injection Ht' as <-. auto.
Qed.

(** A canonical trie has an entry. *)
Lemma wf_inhabited t : wf t → ∃ k v, has t k v.
Proof.
  induction t as [|w|k' t IH|ts IH] using tree_ind'; intros Hw; [by inversion Hw..| |].
  - destruct (wf_short_inv _ _ Hw) as [(w & Hk & -> & Hv)|(_ & Hk & Hwt & _)].
    + exists (k' ++ []), w. repeat constructor.
    + destruct (IH Hwt) as (k & v & Hh). exists (k' ++ k), v. by constructor.
  - destruct (wf_full_inv _ Hw) as (_ & _ & _ & _ & _ & _ & (i & j & ti & tj & _ & Hi & Hti & _)).
    destruct (wf_full_lookup _ _ _ Hw Hi) as [[Hlt [->|Hwt]]|[-> [->|(w & -> & Hv)]]]; try done.
    + rewrite Forall_forall in IH. destruct (IH ti (list_elem_of_lookup_2 _ _ _ Hi) Hwt) as (k & v & Hh).
      exists (Z.of_nat i :: k), v. econstructor; [lia|by rewrite Nat2Z.id|done].
    + exists [16], w. econstructor; [lia|done|constructor].
Qed.

(** A child of a branch that is not nil has an entry. *)
Lemma child_inhabited ts i t :
  wf (TFull ts) → ts !! i = Some t → t ≠ TNil → ∃ k v, has t k v.
Proof.
  intros Hw Hi Ht. destruct (wf_full_lookup _ _ _ Hw Hi) as [[_ [->|Hwt]]|[_ [->|(v & -> & _)]]]; try done.
  - by apply wf_inhabited.
  - exists [], v. constructor.
Qed.

(** The entries of a branch do not share their first nibble. *)
Lemma full_two_heads ts :
  wf (TFull ts) → ∃ c d k l v w, c ≠ d ∧ has (TFull ts) (c :: k) v ∧ has (TFull ts) (d :: l) w.
Proof.
  intros Hw. destruct (wf_full_inv _ Hw) as (_ & _ & _ & _ & _ & _ & (i & j & ti & tj & Hij & Hi & Hti & Hj & Htj)).
  destruct (child_inhabited _ _ _ Hw Hi Hti) as (k & v & Hk). destruct (child_inhabited _ _ _ Hw Hj Htj) as (l & w & Hl).
  exists (Z.of_nat i), (Z.of_nat j), k, l, v, w. split; [lia|].
  split; econstructor; try lia; rewrite ?Nat2Z.id; done.
Qed.

(** ** Canonicity *)

Definition same (t t' : tree) : Prop := ∀ k v, has t k v ↔ has t' k v.

Lemma same_sym t t' : same t t' → same t' t.
Proof. intros H k v. by rewrite (H k v). Qed.

(** A short node is not a branch: its entries share a nibble. *)
Lemma short_full_differ k t ts : wf (TShort k t) → wf (TFull ts) → ¬ same (TShort k t) (TFull ts).
Proof.
  intros Hs Hf H. destruct (full_two_heads _ Hf) as (c & d & k1 & k2 & v & w & Hcd & H1 & H2).
  apply H, has_short_inv in H1 as (r1 & E1 & _). apply H, has_short_inv in H2 as (r2 & E2 & _).
  assert (k ≠ []).
  { apply wf_short_inv in Hs as [(? & Hk & _)|(? & _)]; [by apply hexkey_nonnil|done]. }
  destruct k as [|x k]; [done|]. injection E1 as -> _. injection E2 as -> _. done.
Qed.

(** Two prefixes of one key. *)
Lemma common_prefix (a b x y : bytes) : a ++ x = b ++ y → (∃ r, b = a ++ r) ∨ (∃ c r, a = b ++ c :: r).
Proof.
  revert b. induction a as [|z a IH]; intros [|z' b] E; cbn in *; [by left; exists []|by left; eauto|by right; eauto|].
  injection E as <- E. destruct (IH b E) as [(r & ->)|(c & r & ->)]; [left|right]; eauto.
Qed.

(** An extension's key is the longest common prefix of its entries. *)
Lemma ext_key_le k k' t ts :
  wf (TFull ts) → same (TShort k (TFull ts)) (TShort k' t) → ∃ r, k = k' ++ r.
Proof.
  intros Hf H. destruct (full_two_heads _ Hf) as (c & d & k1 & k2 & v & w & Hcd & H1 & H2).
  pose proof (proj1 (H _ _) (has_short k _ _ _ H1)) as G1. pose proof (proj1 (H _ _) (has_short k _ _ _ H2)) as G2.
  apply has_short_inv in G1 as (r1 & E1 & _). apply has_short_inv in G2 as (r2 & E2 & _).
  destruct (common_prefix k' k r1 (c :: k1)) as [(r & ->)|(x & r & ->)]; [by symmetry|eauto|].
  exfalso. rewrite <- app_assoc in E1, E2. apply app_inv_head in E1, E2. injection E1 as -> _. injection E2 as -> _. done.
Qed.

Lemma same_under k t t' : same (TShort k t) (TShort k t') → same t t'.
Proof.
  intros H r v. split; intros Hr.
  - pose proof (proj1 (H _ _) (has_short k _ _ _ Hr)) as (r' & E & ?)%has_short_inv. apply app_inv_head in E. by subst.
  - pose proof (proj2 (H _ _) (has_short k _ _ _ Hr)) as (r' & E & ?)%has_short_inv. apply app_inv_head in E. by subst.
Qed.

Lemma same_child ts ts' i t t' :
  same (TFull ts) (TFull ts') → ts !! i = Some t → ts' !! i = Some t' → same t t'.
Proof.
  intros H Hi Hi' r v. specialize (H (Z.of_nat i :: r) v). rewrite !has_full_cons, !Nat2Z.id in H. split; intros Hr.
  - destruct (proj1 H) as (_ & t0 & Ht0 & ?); [split; [lia|eauto]|]. by simplify_eq.
  - destruct (proj2 H) as (_ & t0 & Ht0 & ?); [split; [lia|eauto]|]. by simplify_eq.
Qed.

Lemma same_nil t : entry t → same t TNil → t = TNil.
Proof.
  intros [-> | [(v & -> & _)|Hw] ] H; [done| |].
  - exfalso. apply (has_nil_inv [] v), H. constructor.
  - exfalso. destruct (wf_inhabited t Hw) as (k & v & Hh). by apply (has_nil_inv k v), H.
Qed.

(** The entries determine the tree. *)
Lemma canonical t t' : entry t → entry t' → same t t' → t = t'.
Proof.
  revert t'. induction t as [|v|k t IH|ts IH] using tree_ind'; intros t' He He' H.
  - symmetry. apply same_nil; [done|by apply same_sym].
  - pose proof (proj1 (H [] v) (has_val v)) as G. destruct He' as [-> | [(v' & -> & _)|Hw] ].
    + by apply has_nil_inv in G.
    + apply has_val_inv in G as [_ ->]. done.
    + apply has_hexkey in G as [G%hexkey_nonnil _]; done.
  - apply entry_short in He. destruct t' as [|v'|k' t'|ts'].
    + apply same_nil; [by right; right|done].
    + exfalso. pose proof (proj2 (H [] v') (has_val v')) as G. by apply has_hexkey in G as [G%hexkey_nonnil _].
    + apply entry_short in He'.
      assert (Hkk : k = k').
      { destruct (wf_short_inv _ _ He) as [(v & Hk & -> & Hv)|(_ & Hk & Hw & ts & ->)];
          destruct (wf_short_inv _ _ He') as [(v' & Hk' & -> & Hv')|(_ & Hk' & Hw' & ts' & ->)].
        - pose proof (proj1 (H (k ++ []) v) (has_short k _ _ _ (has_val v))) as (r & E & G)%has_short_inv.
          apply has_val_inv in G as [-> _]. by rewrite !app_nil_r in E.
        - exfalso. destruct (ext_key_le k' k (TVal v) ts') as (r & ->); [done|by apply same_sym|].
          apply Forall_app in Hk' as [Hk' _]. apply hexkey_hasTerm in Hk. by rewrite hasTerm_nibbles in Hk.
        - exfalso. destruct (ext_key_le k k' (TVal v') ts) as (r & ->); [done|done|].
          apply Forall_app in Hk as [Hk _]. apply hexkey_hasTerm in Hk'. by rewrite hasTerm_nibbles in Hk'.
        - destruct (ext_key_le k k' (TFull ts') ts) as (r & E); [done..|].
          destruct (ext_key_le k' k (TFull ts) ts') as (r' & E'); [done|by apply same_sym|].
          rewrite E in E' at 1. rewrite E' in E at 1. apply (f_equal length) in E'. rewrite !length_app in E'.
          destruct r; [|cbn in E'; lia]. rewrite E in *. clear -E'. destruct r' as [|]; [|cbn in E'; lia].
          by rewrite !app_nil_r. }
      subst k'. f_equal. apply IH; [by eapply wf_short_entry|by eapply wf_short_entry|by eapply same_under].
    + exfalso. apply (short_full_differ k t ts'); [done|by apply entry_full|done].
  - apply entry_full in He. destruct t' as [|v'|k' t'|ts'].
    + apply same_nil; [by right; right|done].
    + exfalso. pose proof (proj2 (H [] v') (has_val v')) as G. by apply has_hexkey in G as [G%hexkey_nonnil _].
    + exfalso. apply (short_full_differ k' t' ts); [by apply entry_short|done|by apply same_sym].
    + apply entry_full in He'. f_equal. apply (list_eq_same_length _ _ 17); [by rewrite wf_full_length..|].
      intros i t t' _ Hi Hi'. rewrite Forall_forall in IH. apply IH; [by eapply list_elem_of_lookup_2| | |].
      * destruct (wf_full_entries _ He) as [Hes _]. by eapply Forall_lookup_1.
      * destruct (wf_full_entries _ He') as [Hes _]. by eapply Forall_lookup_1.
      * by eapply same_child.
Qed.

End TrieSpec.
