(* ===== verification/Trie.v ===== *)
(** * The Merkle Patricia trie

    [trie/trie.go] with [trie/tracer.go] and [trie/trie_reader.go]: lookup,
    insertion and deletion on a trie whose nodes are loaded from the database on
    demand, the tracers that record what was loaded, created and removed, and the
    root hash.

    Nodes are mutated in place in the source.  A failing operation therefore
    returns, beside the error, the node as it was left ([Err (e, n)]). *)

From S2P Require Import Prelude Bytes RLP TrieKeys TrieNode TrieSpec.
Import RLP TrieKeys TrieNode TrieSpec.

Module Trie.

(** ** Definitions *)

(** What the tracers are told, in order. *)
Inductive event :=
| onInsert (path : bytes)
| onDelete (path : bytes)
| Put (path blob : bytes).

(** Events, and the result or the error with the node left behind. *)
Definition M (A : Type) : Type := list event * result (trieError * node) A.

Definition ret {A} (a : A) : M A := ([], Ok a).
Definition throw {A} (e : trieError) (n : node) : M A := ([], Err (e, n)).
Definition tell {A} (ev : event) (m : M A) : M A := (ev :: m.1, m.2).

(** Runs [f] on the result; an error leaves the node [left n'] behind when it
    left [n'] in the part that failed. *)
Definition andThen {A B} (m : M A) (left : node → node) (f : A → M B) : M B :=
  match m with
  | (ev, Ok a) => (ev ++ (f a).1, (f a).2)
  | (ev, Err (e, n')) => (ev, Err (e, left n'))
  end.

Definition newFlag : nodeFlag := {| fhash := None; dirty := true |}.

Section Reader.
(** [reader.Node]: the blob of the node at a path with a given hash; [None] is a
    [MissingNodeError]. *)
Context (reader : bytes → bytes → option bytes).

Definition resolveAndTrack (h : bytes) (prefix : bytes) : M node :=
  match reader prefix h with
  | None => throw MissingNodeError (hashNode h)
  | Some blob =>
      tell (Put prefix blob)
        match decodeNodeUnsafe (Some h) blob with
        | Ok n => ret n
        | Err e => throw e (hashNode h)
        end
  end.

Definition resolve (n : node) (prefix : bytes) : M node :=
  match n with hashNode h => resolveAndTrack h prefix | _ => ret n end.

(** [get]: the value, the node to link in and whether a node was resolved.  The
    source passes the whole key and a position; here [prefix] is [key[:pos]] and
    [key] is [key[pos:]]. *)
Fixpoint get (fuel : nat) (n : node) (prefix key : bytes) : M (option bytes * node * bool) :=
  match fuel with
  | O => throw ErrPanic n
  | S fuel =>
      match n with
      | nilNode => ret (None, nilNode, false)
      | valueNode v => ret (Some v, n, false)
      | shortNode k v f =>
          if has_prefix key k then
            andThen (get fuel v (prefix ++ k) (drop (length k) key)) (λ _, n) (λ '(value, newnode, didResolve),
              ret (value, if didResolve : bool then shortNode k newnode f else n, didResolve))
          else ret (None, n, false)
      | fullNode cs f =>
          match key with
          | c :: key' =>
              match cs !! Z.to_nat c with
              | Some child =>
                  andThen (get fuel child (prefix ++ [c]) key') (λ _, n) (λ '(value, newnode, didResolve),
                    ret (value, if didResolve : bool then fullNode (<[Z.to_nat c := newnode]> cs) f else n, didResolve))
              | None => throw ErrPanic n
              end
          | [] => throw ErrPanic n
          end
      | hashNode h =>
          andThen (resolveAndTrack h prefix) (λ _, n) (λ child,
          andThen (get fuel child prefix key) (λ _, n) (λ '(value, newnode, _),
            ret (value, newnode, true)))
      end
  end.

(** [insert]: whether the trie changed, and the new node. *)
Fixpoint insert (fuel : nat) (n : node) (prefix key : bytes) (value : node) : M (bool * node) :=
  match fuel with
  | O => throw ErrPanic n
  | S fuel =>
      match key with
      | [] =>
          match n with
          | valueNode v =>
              match value with
              | valueNode w => ret (negb (bool_decide (v = w)), value)
              | _ => throw ErrPanic n
              end
          | _ => ret (true, value)
          end
      | c :: key' =>
          match n with
          | shortNode k v f =>
              let matchlen := prefixLen key k in
              if (matchlen =? length k)%nat then
                andThen (insert fuel v (prefix ++ take matchlen key) (drop matchlen key) value)
                  (λ v', shortNode k v' f) (λ '(dirty, nn),
                if negb dirty then ret (false, n) else ret (true, shortNode k nn newFlag))
              else
                match k !! matchlen, key !! matchlen with
                | Some ki, Some ci =>
                    andThen (insert fuel nilNode (prefix ++ take (matchlen + 1) k) (drop (matchlen + 1) k) v)
                      (λ _, n) (λ '(_, b1),
                    andThen (insert fuel nilNode (prefix ++ take (matchlen + 1) key) (drop (matchlen + 1) key) value)
                      (λ _, n) (λ '(_, b2),
                    let branch := fullNode (<[Z.to_nat ci := b2]> (<[Z.to_nat ki := b1]> (replicate 17 nilNode))) newFlag in
                    if (matchlen =? 0)%nat then ret (true, branch)
                    else tell (onInsert (prefix ++ take matchlen key))
                           (ret (true, shortNode (take matchlen key) branch newFlag))))
                | _, _ => throw ErrPanic n
                end
          | fullNode cs f =>
              match cs !! Z.to_nat c with
              | Some child =>
                  andThen (insert fuel child (prefix ++ [c]) key' value)
                    (λ c', fullNode (<[Z.to_nat c := c']> cs) f) (λ '(dirty, nn),
                  if negb dirty then ret (false, n)
                  else ret (true, fullNode (<[Z.to_nat c := nn]> cs) newFlag))
              | None => throw ErrPanic n
              end
          | nilNode => tell (onInsert prefix) (ret (true, shortNode key value newFlag))
          | hashNode h =>
              andThen (resolveAndTrack h prefix) (λ _, n) (λ rn,
              andThen (insert fuel rn prefix key value) (λ _, n) (λ '(dirty, nn),
              if negb dirty then ret (false, rn) else ret (true, nn)))
          | valueNode _ => throw ErrPanic n
          end
      end
  end.

(** The scan of [delete]: -1 when every child is nil, the position of the only
    child that is not, -2 when there are more. *)
Fixpoint scanChildren (i : Z) (pos : Z) (cs : list node) : Z :=
  match cs with
  | [] => pos
  | nilNode :: cs => scanChildren (i + 1) pos cs
  | _ :: cs => if pos =? -1 then scanChildren (i + 1) i cs else -2
  end.

Fixpoint delete (fuel : nat) (n : node) (prefix key : bytes) : M (bool * node) :=
  match fuel with
  | O => throw ErrPanic n
  | S fuel =>
      match n with
      | shortNode k v f =>
          let matchlen := prefixLen key k in
          if (matchlen <? length k)%nat then ret (false, n)
          else if (matchlen =? length key)%nat then tell (onDelete prefix) (ret (true, nilNode))
          else
            andThen (delete fuel v (prefix ++ take (length k) key) (drop (length k) key))
              (λ v', shortNode k v' f) (λ '(dirty, child),
            if negb dirty then ret (false, n)
            else
              match child with
              | shortNode k' v' _ =>
                  tell (onDelete (prefix ++ k)) (ret (true, shortNode (k ++ k') v' newFlag))
              | _ => ret (true, shortNode k child newFlag)
              end)
      | fullNode cs f =>
          match key with
          | c :: key' =>
              match cs !! Z.to_nat c with
              | Some child =>
                  andThen (delete fuel child (prefix ++ [c]) key')
                    (λ c', fullNode (<[Z.to_nat c := c']> cs) f) (λ '(dirty, nn),
                  if negb dirty then ret (false, n)
                  else
                    let cs' := <[Z.to_nat c := nn]> cs in
                    let n' := fullNode cs' newFlag in
                    match nn with
                    | nilNode =>
                        let pos := scanChildren 0 (-1) cs' in
                        if 0 <=? pos then
                          match cs' !! Z.to_nat pos with
                          | Some only =>
                              if negb (pos =? 16) then
                                andThen (resolve only (prefix ++ [pos])) (λ _, n') (λ cnode,
                                match cnode with
                                | shortNode k v _ =>
                                    tell (onDelete (prefix ++ [pos])) (ret (true, shortNode (pos :: k) v newFlag))
                                | _ => ret (true, shortNode [pos] only newFlag)
                                end)
                              else ret (true, shortNode [pos] only newFlag)
                          | None => throw ErrPanic n'
                          end
                        else ret (true, n')
                    | _ => ret (true, n')
                    end)
              | None => throw ErrPanic n
              end
          | [] => throw ErrPanic n
          end
      | valueNode _ => ret (true, nilNode)
      | nilNode => ret (false, nilNode)
      | hashNode h =>
          andThen (resolveAndTrack h prefix) (λ _, n) (λ rn,
          andThen (delete fuel rn prefix key) (λ _, n) (λ '(dirty, nn),
          if negb dirty then ret (false, rn) else ret (true, nn)))
      end
  end.

(** ** The trie *)

Record opTracer := { inserts : gset bytes; deletes : gset bytes }.

Definition tracer_onInsert (t : opTracer) (path : bytes) : opTracer :=
  if decide (path ∈ t.(deletes))
  then {| inserts := t.(inserts); deletes := t.(deletes) ∖ {[path]} |}
  else {| inserts := t.(inserts) ∪ {[path]}; deletes := t.(deletes) |}.

Definition tracer_onDelete (t : opTracer) (path : bytes) : opTracer :=
  if decide (path ∈ t.(inserts))
  then {| inserts := t.(inserts) ∖ {[path]}; deletes := t.(deletes) |}
  else {| inserts := t.(inserts); deletes := t.(deletes) ∪ {[path]} |}.

Record Trie := {
  root : node;
  committed : bool;
  unhashed : Z;
  uncommitted : Z;
  tracer : opTracer;
  prevalues : gmap bytes bytes;
}.

Definition applyEvent (t : Trie) (ev : event) : Trie :=
  match ev with
  | onInsert path =>
      {| root := t.(root); committed := t.(committed); unhashed := t.(unhashed); uncommitted := t.(uncommitted);
         tracer := tracer_onInsert t.(tracer) path; prevalues := t.(prevalues) |}
  | onDelete path =>
      {| root := t.(root); committed := t.(committed); unhashed := t.(unhashed); uncommitted := t.(uncommitted);
         tracer := tracer_onDelete t.(tracer) path; prevalues := t.(prevalues) |}
  | Put path blob =>
      {| root := t.(root); committed := t.(committed); unhashed := t.(unhashed); uncommitted := t.(uncommitted);
         tracer := t.(tracer); prevalues := <[path := blob]> t.(prevalues) |}
  end.

Definition setRoot (t : Trie) (n : node) : Trie :=
  {| root := n; committed := t.(committed); unhashed := t.(unhashed); uncommitted := t.(uncommitted);
     tracer := t.(tracer); prevalues := t.(prevalues) |}.

(** [t.unhashed++; t.uncommitted++] *)
Definition countUpdate (t : Trie) : Trie :=
  {| root := t.(root); committed := t.(committed); unhashed := t.(unhashed) + 1; uncommitted := t.(uncommitted) + 1;
     tracer := t.(tracer); prevalues := t.(prevalues) |}.

(** Two steps per nibble of the key: resolving a node and descending into it. *)
Definition opFuel (hexkey : bytes) : nat := 2 * length hexkey + 2.

(** [types.EmptyRootHash] *)
Definition EmptyRootHash : bytes :=
  be_bytes 32 0x56e81f171bcc55a6ff8345e692c0f86e5b48e01b996cadc001622fb5e363b421.

Definition emptyTrie (n : node) : Trie :=
  {| root := n; committed := false; unhashed := 0; uncommitted := 0;
     tracer := {| inserts := ∅; deletes := ∅ |}; prevalues := ∅ |}.

(** [New]; the root is a 32-byte hash *)
Definition New (rootHash : bytes) : result trieError Trie :=
  if bool_decide (rootHash = replicate 32 0) || bool_decide (rootHash = EmptyRootHash) then Ok (emptyTrie nilNode)
  else
    match resolveAndTrack rootHash [] with
    | (ev, Ok n) => Ok (setRoot (foldl applyEvent (emptyTrie nilNode) ev) n)
    | (_, Err (e, _)) => Err e
    end.

(** [Get] *)
Definition trie_Get (t : Trie) (key : bytes) : result trieError (option bytes) * Trie :=
  if t.(committed) then (Err ErrCommitted, t)
  else
    let k := keybytesToHex key in
    let '(ev, r) := get (opFuel k) t.(root) [] k in
    let t := foldl applyEvent t ev in
    match r with
    | Ok (value, newroot, didResolve) => (Ok value, if didResolve : bool then setRoot t newroot else t)
    | Err (e, _) => (Err e, t)
    end.

(** The end of [update] and [Delete]: link the new root, or leave the old one as
    the failing operation left it. *)
Definition finish (t : Trie) (m : M (bool * node)) : option trieError * Trie :=
  let '(ev, r) := m in
  let t := foldl applyEvent t ev in
  match r with
  | Ok (_, n) => (None, setRoot t n)
  | Err (e, n) => (Some e, setRoot t n)
  end.

(** [Update] *)
Definition trie_Update (t : Trie) (key value : bytes) : option trieError * Trie :=
  if t.(committed) then (Some ErrCommitted, t)
  else
    let t := countUpdate t in
    let k := keybytesToHex key in
    match value with
    | [] => finish t (delete (opFuel k) t.(root) [] k)
    | _ => finish t (insert (opFuel k) t.(root) [] k (valueNode value))
    end.

(** [Delete] *)
Definition trie_Delete (t : Trie) (key : bytes) : option trieError * Trie :=
  if t.(committed) then (Some ErrCommitted, t)
  else
    let t := countUpdate t in
    let k := keybytesToHex key in
    finish t (delete (opFuel k) t.(root) [] k).

(** [Hash]: the root hash, with the caches filled in; [None] is a panic *)
Definition trie_Hash (keccak : bytes → bytes) (t : Trie) : option (bytes * Trie) :=
  match t.(root) with
  | nilNode => Some (EmptyRootHash, t)
  | n =>
      '(h, n') ← hasher_hash keccak n true;
      Some (h, {| root := n'; committed := t.(committed); unhashed := 0; uncommitted := t.(uncommitted);
                  tracer := t.(tracer); prevalues := t.(prevalues) |})
  end.

(** ** Loading nodes *)

Context (keccak : bytes → bytes) {HK : Keccak256 keccak}.
Local Abbreviation encTree := (encTree keccak).
Local Abbreviation embed := (embed keccak).
Local Abbreviation shallow := (shallow keccak).

(** The database holds every node of the tree that is not embedded, and the root,
    at its path and under its hash. *)
Inductive stored : bytes → tree → Prop :=
| stored_nil p : stored p TNil
| stored_val p v : stored p (TVal v)
| stored_short p k t :
    (p = [] ∨ 32 <= Z.of_nat (length (encTree (TShort k t))) →
     reader p (keccak (encTree (TShort k t))) = Some (encTree (TShort k t))) →
    stored (p ++ k) t → stored p (TShort k t)
| stored_full p ts :
    (p = [] ∨ 32 <= Z.of_nat (length (encTree (TFull ts))) →
     reader p (keccak (encTree (TFull ts))) = Some (encTree (TFull ts))) →
    (∀ i t, ts !! i = Some t → stored (p ++ [Z.of_nat i]) t) → stored p (TFull ts).

Local Abbreviation rep := (rep keccak stored).
Local Abbreviation flag_ok := (flag_ok keccak stored).

Lemma newFlag_ok p t : flag_ok p newFlag t.
Proof. done. Qed.

(** The node embedded in a parent, or its hash, stands for the stored child. *)
Lemma embed_rep t : entry t → sized t → ∀ p, p ≠ [] → stored p t → rep p (embed t) t.
Proof.
  induction t as [|v|k t IH|ts IH] using tree_ind'; intros He Hs p Hp Hst; [constructor..| |].
  - apply entry_short in He. cbn [TrieNode.embed]. case_if.
    + inversion Hst as [| |? ? ? _ Hst'|]; subst. inversion Hs as [| |? ? _ Hs'|]; subst. constructor.
      * apply IH; [by eapply wf_short_entry|done|by intros [? _]%app_eq_nil|done].
      * intros _. done.
    + by constructor.
  - apply entry_full in He. cbn [TrieNode.embed]. case_if.
    + inversion Hst as [| | |? ? _ Hst']; subst. constructor; [by rewrite length_fmap| |intros _; done].
      intros i c t Hc Ht. rewrite list_lookup_fmap, Ht in Hc. injection Hc as <-.
      rewrite Forall_forall in IH. pose proof (list_elem_of_lookup_2 _ _ _ Ht). apply IH; [done| |by eapply sized_lookup|by destruct p|auto].
      destruct (wf_full_entries _ He) as [Hes _]. by eapply Forall_lookup_1.
    + by constructor.
Qed.

Lemma shallow_rep t h p :
  wf t → sized t → stored p t → (p = [] ∨ 32 <= Z.of_nat (length (encTree t))) →
  h = keccak (encTree t) → rep p (shallow (Some h) t) t.
Proof.
  intros Hw Hs Hst Hp ->. destruct t as [|v|k t|ts]; [by inversion Hw..| |].
  - pose proof Hst as Hst0. inversion Hst as [| |? ? ? _ Hst'|]; subst. inversion Hs as [| |? ? _ Hs'|]; subst. cbn. constructor; [|done].
    apply embed_rep; [by eapply wf_short_entry|done| |done]. intros [_ ->]%app_eq_nil.
    apply wf_short_inv in Hw as [(? & Hk%hexkey_nonnil & _)|(? & _)]; done.
  - pose proof Hst as Hst0. inversion Hst as [| | |? ? _ Hst']; subst. cbn. constructor; [by rewrite length_fmap| |done].
    intros i c t Hc Ht. rewrite list_lookup_fmap, Ht in Hc. injection Hc as <-.
    pose proof (list_elem_of_lookup_2 _ _ _ Ht). apply embed_rep; [|by eapply sized_lookup|by destruct p|auto].
    destruct (wf_full_entries _ Hw) as [Hes _]. by eapply Forall_lookup_1.
Qed.

Lemma stored_reader p t :
  wf t → stored p t → p = [] ∨ 32 <= Z.of_nat (length (encTree t)) →
  reader p (keccak (encTree t)) = Some (encTree t).
Proof. intros Hw Hst Hp. inversion Hst; subst; [by inversion Hw..|auto|auto]. Qed.

(** Resolving a stored node gives a node that stands for the same tree and is
    not itself a hash. *)
Lemma resolve_spec p t :
  wf t → sized t → stored p t → p = [] ∨ 32 <= Z.of_nat (length (encTree t)) →
  ∃ ev rn, resolveAndTrack (keccak (encTree t)) p = (ev, Ok rn) ∧ rep p rn t ∧ ∀ h, rn ≠ hashNode h.
Proof.
  intros Hw Hs Hst Hp. unfold resolveAndTrack. rewrite stored_reader by done.
  unfold decodeNodeUnsafe. pose proof (decode_enc keccak t Hw Hs (length (encTree t)) (Some (keccak (encTree t))) []) as Hd.
  rewrite app_nil_r in Hd. rewrite Hd by done. eexists _, _. split; [done|]. split; [by apply shallow_rep|].
  destruct t; [by inversion Hw..|done|done].
Qed.

(** ** Positions on the way down *)

(** What a node may stand for when [key] is left to follow. *)
Definition slot (t : tree) (key : bytes) : Prop :=
  hexkey key ∧ (t = TNil ∨ wf t) ∨ key = [] ∧ (t = TNil ∨ ∃ v, t = TVal v ∧ value_ok v).

Lemma slot_full ts c key :
  wf (TFull ts) → hexkey (c :: key) → ∃ t, ts !! Z.to_nat c = Some t ∧ 0 <= c <= 16 ∧ slot t key.
Proof.
  intros Hw Hk. apply hexkey_cons in Hk. assert (Hc : 0 <= c <= 16).
  { destruct Hk as [[-> _]|[[? ?] _]]; lia. }
  destruct (lookup_lt_is_Some_2 ts (Z.to_nat c)) as [t Ht]; [rewrite wf_full_length by done; lia|].
  exists t. split_and!; [done|lia|lia|].
  destruct (wf_full_lookup _ _ _ Hw Ht) as [[Hi Hwt]|[Hi Hv]], Hk as [[-> ->]|[[? ?] Hk]]; try (cbn in Hi; lia).
  - by left.
  - by right.
Qed.

Lemma slot_short k t r : wf (TShort k t) → hexkey (k ++ r) → slot t r ∧ t ≠ TNil.
Proof.
  intros Hw Hk. apply wf_short_inv in Hw as [(v & Hv & -> & Hok)|(Hne & Hn & Hw & ts & ->)].
  - apply hexkey_prefix_free in Hk as ->; [|done]. split; [right; eauto|done].
  - split; [|done]. left. split; [|by right]. destruct r as [|x r]; [|by apply hexkey_app_inv in Hk as [_ ?]].
    rewrite app_nil_r in Hk. apply hexkey_hasTerm in Hk. by rewrite hasTerm_nibbles in Hk.
Qed.

(** A child in place of another. *)
Lemma slot_child ts c key t t' :
  wf (TFull ts) → hexkey (c :: key) → ts !! Z.to_nat c = Some t → slot t' key →
  ∀ i u, <[Z.to_nat c := t']> ts !! i = Some u →
    (i < 16)%nat ∧ (u = TNil ∨ wf u) ∨ i = 16%nat ∧ (u = TNil ∨ ∃ v, u = TVal v ∧ value_ok v).
Proof.
  intros Hw Hk Ht Hs i u Hi. apply hexkey_cons in Hk. apply list_lookup_insert_Some in Hi as [(<- & <- & _)|[_ Hi]].
  - destruct Hk as [[-> ->]|[[? ?] Hk]], Hs as [[Hk' Ht']|[Hk' Ht']].
    + by apply hexkey_nonnil in Hk'.
    + by right.
    + left. split; [lia|done].
    + by apply hexkey_nonnil in Hk.
  - by eapply wf_full_lookup.
Qed.

Definition fuel_ok (fuel : nat) (n : node) (key : bytes) : Prop :=
  (2 * length key + match n with hashNode _ => 2 | _ => 1 end <= fuel)%nat.

Lemma opFuel_ok n key : fuel_ok (opFuel key) n key.
Proof. unfold fuel_ok, opFuel. destruct n; lia. Qed.

(** A child's key is shorter. *)
Lemma fuel_ok_child fuel n n' key key' :
  fuel_ok (S fuel) n key → (∀ h, n ≠ hashNode h) → (length key' < length key)%nat → fuel_ok fuel n' key'.
Proof. unfold fuel_ok. intros Hf Hn Hl. destruct n'; destruct n; try lia; by destruct (Hn h). Qed.

Lemma fuel_ok_resolved fuel h n' key : fuel_ok (S fuel) (hashNode h) key → (∀ h, n' ≠ hashNode h) → fuel_ok fuel n' key.
Proof. unfold fuel_ok. intros Hf Hn. destruct n'; try lia. by destruct (Hn h0). Qed.

Lemma short_key_nonnil k t : wf (TShort k t) → k ≠ [].
Proof. intros [(? & Hk%hexkey_nonnil & _)|(? & _)]%wf_short_inv; done. Qed.

(** ** Lookup *)

Definition lookup_spec (t : tree) (key : bytes) (o : option bytes) : Prop := ∀ v, o = Some v ↔ has t key v.

Lemma has_prefix_short k t key :
  has_prefix key k = false → lookup_spec (TShort k t) key None.
Proof.
  intros Hp v. split; [done|]. intros (r & -> & _)%has_short_inv. by rewrite has_prefix_app in Hp.
Qed.

Lemma get_spec fuel n p key t :
  slot t key → rep p n t → fuel_ok fuel n key →
  ∃ ev o n' r, get fuel n p key = (ev, Ok (o, n', r)) ∧ lookup_spec t key o ∧ rep p n' t.
Proof.
  revert n p key t. induction fuel as [|fuel IH]; intros n p key t Hsl Hr Hf; [unfold fuel_ok in Hf; destruct n; lia|].
  destruct Hr as [p|p v|p k n t f Hn Hfl|p cs ts f Hl Hcs Hfl|p t Hw Hs Hlg Hst]; cbn [get].
  - eexists _, _, _, _. split; [done|]. split; [intros v; split; [done|by intros ?%has_nil_inv]|constructor].
  - eexists _, _, _, _. split; [done|]. split; [|constructor]. intros w. rewrite has_val_inv.
    destruct Hsl as [[_ [[=]|Hw]]|[-> _]]; [by inversion Hw|]. split; [by intros [= ->]|]. by intros [_ ->].
  - destruct Hsl as [[Hk [[=]|Hw]]|[_ [[=]|(? & [=] & _)]]]. destruct (has_prefix key k) eqn:Hp.
    + apply has_prefix_spec in Hp as [r ->]. rewrite drop_app_length.
      destruct (slot_short k t r Hw Hk) as [Hsl _].
      destruct (IH n (p ++ k) r t Hsl Hn) as (ev & o & n' & b & -> & Ho & Hn').
      { eapply fuel_ok_child; [exact Hf|done|]. rewrite length_app. pose proof (short_key_nonnil _ _ Hw). destruct k; [done|cbn; lia]. }
      eexists _, o, _, b. split; [done|]. split.
      * intros v. rewrite (Ho v), has_short_inv. split; [eauto|]. intros (r' & E%app_inv_head & ?). by subst.
      * destruct b; by constructor.
    + eexists _, _, _, _. split; [done|]. split; [by apply has_prefix_short|by constructor].
  - destruct Hsl as [[Hk [[=]|Hw]]|[_ [[=]|(? & [=] & _)]]]. destruct key as [|c key]; [by apply hexkey_nonnil in Hk|].
    destruct (slot_full ts c key Hw Hk) as (t & Ht & Hc & Hsl).
    destruct (lookup_lt_is_Some_2 cs (Z.to_nat c)) as [child Hchild].
    { rewrite Hl, wf_full_length by done. lia. }
    rewrite Hchild. pose proof (Hcs _ _ _ Hchild Ht) as Hrc. rewrite Z2Nat.id in Hrc by lia.
    destruct (IH child (p ++ [c]) key t Hsl Hrc) as (ev & o & n' & b & -> & Ho & Hn').
    { eapply fuel_ok_child; [exact Hf|done|cbn; lia]. }
    eexists _, o, _, b. split; [done|]. split.
    + intros v. rewrite (Ho v), has_full_cons. split; [|intros (_ & t' & Ht' & ?); by simplify_eq].
      intros Hh. split; [lia|eauto].
    + destruct b; constructor; try done; [by rewrite length_insert|].
      intros i c' t' Hc' Ht'. apply list_lookup_insert_Some in Hc' as [(<- & <- & _)|[_ Hc']]; [|auto].
      rewrite Z2Nat.id by lia. by simplify_eq.
  - destruct (resolve_spec p t Hw Hs Hst (or_intror Hlg)) as (ev & rn & E & Hrn & Hne). rewrite E. cbn [andThen].
    destruct (IH rn p key t Hsl Hrn) as (ev' & o & n' & b & -> & Ho & Hn').
    { by eapply fuel_ok_resolved. }
    eexists _, o, _, _. by split.
Qed.

(** ** Insertion *)

(** [t'] is [t] with [key] bound to [v]. *)
Definition upd (t : tree) (key v : bytes) (t' : tree) : Prop :=
  ∀ k w, has t' k w ↔ (k = key ∧ w = v) ∨ (k ≠ key ∧ has t k w).

Lemma prefixLen_spec a b :
  ∃ p r s, a = p ++ r ∧ b = p ++ s ∧ prefixLen a b = length p
    ∧ match r, s with x :: _, y :: _ => x ≠ y | _, _ => True end.
Proof.
  revert b. induction a as [|x a IH]; intros b; [by exists [], [], b|].
  destruct b as [|y b]; [by exists [], (x :: a), []|]. cbn. destruct (Z.eqb_spec x y) as [->|Hne].
  - destruct (IH b) as (p & r & q & -> & -> & E & H). exists (y :: p), r, q. split_and!; [done..| |done]. cbn. by rewrite E.
  - by exists [], (x :: a), (y :: b).
Qed.

(** A subtree under a possibly empty key. *)
Definition graft (k : bytes) (t : tree) : tree := match k with [] => t | _ => TShort k t end.
Definition graftNode (k : bytes) (n : node) : node := match k with [] => n | _ => shortNode k n newFlag end.

Lemma insert_nil fuel p k n : ∃ ev, insert (S fuel) nilNode p k n = (ev, Ok (true, graftNode k n)).
Proof. destruct k; cbn; eauto. Qed.

Lemma graft_rep p k n t : rep (p ++ k) n t → rep p (graftNode k n) (graft k t).
Proof.
  intros Hr. destruct k as [|x k]; cbn; [by rewrite app_nil_r in Hr|]. constructor; [done|apply newFlag_ok].
Qed.

Lemma has_graft k t key v : has (graft k t) key v ↔ ∃ r, key = k ++ r ∧ has t r v.
Proof.
  destruct k as [|x k]; cbn [graft]; [|apply has_short_inv]. split; [eauto|]. by intros (r & -> & ?).
Qed.

(** The rest of a canonical short node below one of its nibbles. *)
Lemma graft_slot q x k t : wf (TShort (q ++ x :: k) t) →
  nibbles_ok q ∧ ((x = 16 ∧ k = [] ∧ ∃ v, graft k t = TVal v ∧ value_ok v) ∨ (is_nibble x ∧ wf (graft k t))).
Proof.
  intros [(v & Hk & -> & Hv)|(_ & Hk & Hw & ts & ->)]%wf_short_inv.
  - apply hexkey_app_inv in Hk as [Hq Hk]; [|done]. split; [done|].
    apply hexkey_cons in Hk as [[-> ->]|[Hx Hk]]; [left; eauto|right]. split; [done|].
    destruct k; [by apply hexkey_nonnil in Hk|]. by constructor.
  - apply Forall_app in Hk as [Hq Hk]. apply Forall_cons in Hk as [Hx Hk]. split; [done|]. right. split; [done|].
    destruct k; [done|]. by constructor.
Qed.

(** The branch that splits two keys. *)
Definition splitTree (x y : Z) (tx ty : tree) : list tree :=
  <[Z.to_nat y := ty]> (<[Z.to_nat x := tx]> (replicate 17 TNil)).

Lemma splitTree_lookup x y tx ty i t :
  0 <= x <= 16 → 0 <= y <= 16 → x ≠ y →
  splitTree x y tx ty !! i = Some t ↔
  i = Z.to_nat y ∧ t = ty ∨ i = Z.to_nat x ∧ t = tx ∨ i ≠ Z.to_nat x ∧ i ≠ Z.to_nat y ∧ (i < 17)%nat ∧ t = TNil.
Proof.
  intros Hx Hy Hne. unfold splitTree. rewrite !list_lookup_insert_Some, length_insert, length_replicate, lookup_replicate.
  split.
  - intros [(<- & <- & _)|[? [(<- & <- & _)|[? [? ?] ] ] ] ]; [by left|by right; left|]. right; right. auto.
  - intros [[-> ->]|[[-> ->]|(? & ? & ? & ->)]]; [left; split_and!; [done|done|lia]| |].
    + right. split; [lia|]. left. split_and!; [done|done|lia].
    + right. split; [done|]. right. done.
Qed.

Lemma splitTree_wf x y tx ty :
  x ≠ y →
  (x = 16 ∧ (∃ v, tx = TVal v ∧ value_ok v) ∨ is_nibble x ∧ wf tx) →
  (y = 16 ∧ (∃ v, ty = TVal v ∧ value_ok v) ∨ is_nibble y ∧ wf ty) →
  wf (TFull (splitTree x y tx ty)).
Proof.
  intros Hne Hx Hy. assert (Bx : 0 <= x <= 16) by (destruct Hx as [[-> _]|[[? ?] _]]; lia).
  assert (By : 0 <= y <= 16) by (destruct Hy as [[-> _]|[[? ?] _]]; lia). apply wf_full_intro.
  - unfold splitTree. by rewrite !length_insert, length_replicate.
  - intros i t Hi. apply splitTree_lookup in Hi as [[-> ->]|[[-> ->]|(? & ? & ? & ->)]]; [..|done|done|done].
    + destruct Hy as [[-> ?]|[[? ?] ?]]; [by right; auto|]. left. split; [lia|auto].
    + destruct Hx as [[-> ?]|[[? ?] ?]]; [by right; auto|]. left. split; [lia|auto].
    + destruct (decide (i = 16%nat)); [right|left; split; [lia|]]; auto.
  - assert (Nx : tx ≠ TNil) by (destruct Hx as [(_ & v & -> & _)|[_ Hw]]; [done|intros ->; inversion Hw]).
    assert (Ny : ty ≠ TNil) by (destruct Hy as [(_ & v & -> & _)|[_ Hw]]; [done|intros ->; inversion Hw]).
    exists (Z.to_nat x), (Z.to_nat y), tx, ty. split_and!; [lia| |done| |done]; apply splitTree_lookup; auto.
Qed.

Lemma has_split x y tx ty key v :
  0 <= x <= 16 → 0 <= y <= 16 → x ≠ y →
  has (TFull (splitTree x y tx ty)) key v ↔
  (∃ r, key = x :: r ∧ has tx r v) ∨ (∃ r, key = y :: r ∧ has ty r v).
Proof.
  intros Hx Hy Hne. rewrite has_full_inv. split.
  - intros (c & r & t & -> & Hc & Ht & Hh).
    apply splitTree_lookup in Ht as [[E ->]|[[E ->]|(? & ? & ? & ->)]]; [..|done|done|done].
    + right. exists r. split; [f_equal; lia|done].
    + left. exists r. split; [f_equal; lia|done].
    + by apply has_nil_inv in Hh.
  - intros [(r & -> & Hh)|(r & -> & Hh)].
    + exists x, r, tx. split_and!; [done|lia| |done]. apply splitTree_lookup; auto.
    + exists y, r, ty. split_and!; [done|lia| |done]. apply splitTree_lookup; auto.
Qed.

Lemma split_rep p x y nx ny tx ty :
  0 <= x <= 16 → 0 <= y <= 16 → x ≠ y → rep (p ++ [x]) nx tx → rep (p ++ [y]) ny ty →
  rep p (fullNode (<[Z.to_nat y := ny]> (<[Z.to_nat x := nx]> (replicate 17 nilNode))) newFlag)
        (TFull (splitTree x y tx ty)).
Proof.
  intros Bx By Hne Hx Hy. constructor; [|..|apply newFlag_ok].
  - unfold splitTree. by rewrite !length_insert, !length_replicate.
  - intros i c t Hc Ht. apply splitTree_lookup in Ht; [|done..].
    rewrite !list_lookup_insert_Some, lookup_replicate in Hc.
    destruct Hc as [(<- & <- & _)|[? [(<- & <- & _)|[? [-> ?] ] ] ] ].
    + destruct Ht as [[_ ->]|[[? _]|(_ & ? & _)]]; [by rewrite Z2Nat.id by lia|lia|done].
    + destruct Ht as [[? _]|[[_ ->]|(? & _)]]; [lia|by rewrite Z2Nat.id by lia|done].
    + destruct Ht as [[-> _]|[[-> _]|(? & ? & ? & ->)]]; [done|done|constructor].
Qed.

(** Splitting a short node at the first difference. *)
Lemma split_upd q x k y key t v :
  wf (TShort (q ++ x :: k) t) → hexkey (q ++ y :: key) → x ≠ y → value_ok v →
  let t' := graft q (TFull (splitTree x y (graft k t) (graft key (TVal v)))) in
  0 <= x <= 16 ∧ 0 <= y <= 16 ∧ wf t' ∧ upd (TShort (q ++ x :: k) t) (q ++ y :: key) v t'.
Proof.
  intros Hw Hk Hne Hv. cbv zeta.
  pose proof (graft_slot _ _ _ _ Hw) as [Hq Hx].
  pose proof (graft_slot q y key (TVal v) (wf_leaf _ _ Hk Hv)) as [_ Hy].
  assert (Hx' : x = 16 ∧ (∃ v, graft k t = TVal v ∧ value_ok v) ∨ is_nibble x ∧ wf (graft k t)) by (destruct Hx as [(? & _ & ?)|?]; auto).
  assert (Hy' : y = 16 ∧ (∃ w, graft key (TVal v) = TVal w ∧ value_ok w) ∨ is_nibble y ∧ wf (graft key (TVal v)))
    by (destruct Hy as [(? & _ & ?)|?]; auto).
  assert (Bx : 0 <= x <= 16) by (destruct Hx' as [[-> _]|[[? ?] _]]; lia).
  assert (By : 0 <= y <= 16) by (destruct Hy' as [[-> _]|[[? ?] _]]; lia).
  pose proof (splitTree_wf x y _ _ Hne Hx' Hy') as Hwf. split; [done|]. split; [done|]. split.
  - destruct q; [done|]. by constructor.
  - intros K w. rewrite has_graft. setoid_rewrite has_split; [|done..]. setoid_rewrite has_graft.
    rewrite has_short_inv. split.
    + intros (r & -> & [(r' & -> & r2 & -> & Hh)|(r' & -> & r2 & -> & [-> ->]%has_val_inv)]).
      * right. split; [intros [= ? ?]%app_inv_head; done|]. exists r2. by rewrite <- !app_assoc.
      * left. by rewrite app_nil_r.
    + intros [[-> ->]|(_ & r & -> & Hh)].
      * exists (y :: key). split; [done|]. right. exists key. split; [done|]. exists []. rewrite app_nil_r. split; [done|constructor].
      * exists (x :: k ++ r). rewrite <- app_assoc. split; [done|]. left. eauto.
Qed.

Lemma insert_split q x k y key t v p n :
  wf (TShort (q ++ x :: k) t) → hexkey (q ++ y :: key) → x ≠ y → value_ok v →
  rep (p ++ q ++ x :: k) n t →
  let branch := fullNode (<[Z.to_nat y := graftNode key (valueNode v)]>
                  (<[Z.to_nat x := graftNode k n]> (replicate 17 nilNode))) newFlag in
  let t' := graft q (TFull (splitTree x y (graft k t) (graft key (TVal v)))) in
  rep p (graftNode q branch) t' ∧ wf t' ∧ upd (TShort (q ++ x :: k) t) (q ++ y :: key) v t'.
Proof.
  intros Hw Hk Hne Hv Hr. cbv zeta. destruct (split_upd q x k y key t v Hw Hk Hne Hv) as (Bx & By & Hwf & Hu).
  split; [|done]. apply graft_rep, split_rep; [done..| |].
  - apply graft_rep. rewrite <- !app_assoc. done.
  - apply graft_rep. constructor.
Qed.

Lemma upd_short k t r v t' : upd t r v t' → upd (TShort k t) (k ++ r) v (TShort k t').
Proof.
  intros H K w. rewrite !has_short_inv. split.
  - intros (r' & -> & Hh). apply H in Hh as [[-> ->]|[? ?]]; [by left|right].
    split; [by intros ?%app_inv_head|eauto].
  - intros [[-> ->]|(Hne & r' & -> & Hh)]; exists r + exists r'; (split; [done|]); apply H; [by left|right].
    split; [by intros ->|done].
Qed.

Lemma upd_full ts c t r v t' :
  0 <= c → ts !! Z.to_nat c = Some t → upd t r v t' → upd (TFull ts) (c :: r) v (TFull (<[Z.to_nat c := t']> ts)).
Proof.
  clear reader. intros Hc Ht H K w. pose proof (lookup_lt_Some _ _ _ Ht) as Hlt. destruct K as [|d K].
  { rewrite !has_full_inv. naive_solver. }
  rewrite !has_full_cons. destruct (decide (c = d)) as [<-|Hne].
  - rewrite list_lookup_insert_eq by done. split.
    + intros (_ & ? & [= <-] & Hh). apply H in Hh as [[-> ->]|[? ?]]; [by left|right]. split; [by intros [= ->]|eauto].
    + intros [[[= ->] ->]|(Hd & _ & ? & Ht' & Hh)]; (split; [done|]); exists t'; (split; [done|]); apply H; [by left|].
      simplify_eq. right. split; [by intros ->|done].
  - split.
    + intros (Hd & u & Hu & Hh). rewrite list_lookup_insert_ne in Hu by lia. right. split; [naive_solver|eauto].
    + intros [[[= ? _] _]|(_ & Hd & u & Hu & Hh)]; [done|]. split; [done|]. exists u. rewrite list_lookup_insert_ne by lia. done.
Qed.

Lemma upd_has_same t key v : has t key v → upd t key v t.
Proof.
  intros Hh k w. split; [|by intros [[-> ->]|[_ ?]]]. intros Hk.
  destruct (decide (k = key)) as [->|]; [|by right]. left. split; [done|by eapply has_functional].
Qed.

(** A branch with one child replaced by something. *)
Lemma full_insert_wf ts c key t t' :
  wf (TFull ts) → hexkey (c :: key) → 0 <= c → ts !! Z.to_nat c = Some t → slot t' key → t' ≠ TNil →
  wf (TFull (<[Z.to_nat c := t']> ts)).
Proof.
  intros Hw Hk Hc Ht Hs Hne. apply wf_full_intro.
  - rewrite length_insert. by apply wf_full_length.
  - by eapply slot_child.
  - destruct (wf_full_inv _ Hw) as (_ & _ & _ & _ & _ & _ & (i & j & ti & tj & Hij & Hi & Hti & Hj & Htj)).
    pose proof (lookup_lt_Some _ _ _ Ht) as Hlt. unfold two_children.
    assert (Hkeep : ∀ i ti, ts !! i = Some ti → ti ≠ TNil →
      ∃ ti', <[Z.to_nat c := t']> ts !! i = Some ti' ∧ ti' ≠ TNil).
    { intros i' ti' Hi' Hn. destruct (decide (i' = Z.to_nat c)) as [->|]; [exists t'; by rewrite list_lookup_insert_eq|].
      exists ti'. by rewrite list_lookup_insert_ne by congruence. }
    destruct (Hkeep i ti Hi Hti) as (ti' & ? & ?). destruct (Hkeep j tj Hj Htj) as (tj' & ? & ?).
    exists i, j, ti', tj'. done.
Qed.

Lemma full_insert_rep p cs ts f c n t :
  length cs = length ts → (∀ i c t, cs !! i = Some c → ts !! i = Some t → rep (p ++ [Z.of_nat i]) c t) →
  0 <= c → rep (p ++ [c]) n t → flag_ok p f (TFull (<[Z.to_nat c := t]> ts)) →
  rep p (fullNode (<[Z.to_nat c := n]> cs) f) (TFull (<[Z.to_nat c := t]> ts)).
Proof.
  intros Hl Hcs Hc Hn Hf. constructor; [by rewrite !length_insert| |done].
  intros i c' t' Hc' Ht'.
  apply list_lookup_insert_Some in Hc' as [(<- & <- & Hlt)|[Hne Hc']].
  - rewrite list_lookup_insert_eq in Ht' by lia. injection Ht' as <-. by rewrite Z2Nat.id.
  - rewrite list_lookup_insert_ne in Ht' by done. auto.
Qed.

Definition isFull (t : tree) : Prop := match t with TFull _ => True | _ => False end.

(** What [insert] and its recursive calls establish. *)
Definition insert_post (m : M (bool * node)) (p key : bytes) (t : tree) (v : bytes) : Prop :=
  ∃ ev dirty n' t', m = (ev, Ok (dirty, n'))
    ∧ rep p n' t' ∧ slot t' key ∧ t' ≠ TNil ∧ upd t key v t' ∧ (dirty = false → t' = t) ∧ (isFull t → isFull t').

(** A value in the last slot of a branch or below a leaf's key. *)
Lemma insert_value fuel n p t v :
  t = TNil ∨ (∃ w, t = TVal w ∧ value_ok w) → rep p n t → value_ok v →
  insert_post (insert (S fuel) n p [] (valueNode v)) p [] t v.
Proof.
  intros Ht Hr Hv.
  assert (E : ∃ d, insert (S fuel) n p [] (valueNode v) = ([], Ok (d, valueNode v)) ∧ (d = false → t = TVal v)).
  { destruct Ht as [->|(w & -> & Hw)].
    - inversion Hr as [| | | |? ? Hbad]; subst; [|by inversion Hbad]. by exists true.
    - inversion Hr as [| | | |? ? Hbad]; subst; [|by inversion Hbad]. cbn. eexists. split; [done|].
      rewrite negb_false_iff, bool_decide_eq_true. by intros ->. }
  destruct E as (d & E & Hd). exists [], d, (valueNode v), (TVal v).
  split_and!; [done|constructor|right; eauto|done| |by intros ->; symmetry; auto|by destruct Ht as [->|(? & -> & _)]].
  intros k w. rewrite has_val_inv. split; [auto|]. intros [?|[Hne Hh]]; [done|].
  destruct Ht as [->|(w' & -> & _)]; [by apply has_nil_inv in Hh|]. by apply has_val_inv in Hh as [-> _].
Qed.

(** A short node whose key is a prefix of the inserted one. *)
Lemma insert_short_wf k t r t' :
  wf (TShort k t) → hexkey (k ++ r) → slot t' r → t' ≠ TNil → (isFull t → isFull t') → wf (TShort k t').
Proof.
  intros Hw Hk Hs Hne Hfull. destruct (wf_short_inv _ _ Hw) as [(w & Hq & -> & _)|(Hq & Hqn & _ & ts & ->)].
  - pose proof (hexkey_prefix_free _ _ Hq Hk) as ->.
    destruct Hs as [[Hbad _]|[_ [->|(w' & -> & ?)]]]; [by apply hexkey_nonnil in Hbad|done|]. by constructor.
  - destruct Hs as [[_ [->|Hw']]|[-> _]]; [done| |].
    + destruct t'; try (by destruct (Hfull I)). by constructor.
    + rewrite app_nil_r in Hk. apply hexkey_hasTerm in Hk. by rewrite hasTerm_nibbles in Hk.
Qed.

Lemma insert_spec fuel n p key t v :
  slot t key → rep p n t → value_ok v → fuel_ok fuel n key →
  insert_post (insert fuel n p key (valueNode v)) p key t v.
Proof.
  revert n p key t. induction fuel as [|fuel IH]; intros n p key t Hsl Hr Hv Hf; [unfold fuel_ok in Hf; destruct n; lia|].
  destruct Hsl as [[Hk Ht]|[-> Ht]]; [|by apply insert_value].
  destruct key as [|c key]; [by apply hexkey_nonnil in Hk|].
  destruct Hr as [p|p w|p k n t f Hn Hfl|p cs ts f Hl Hcs Hfl|p t Hw Hs Hlg Hst]; cbn [insert].
  - eexists _, _, _, (TShort (c :: key) (TVal v)). split; [done|]. split; [by constructor; [constructor|]|].
    split; [left; split; [done|right; by constructor]|]. split_and!; [done| |done|done].
    intros K w. rewrite has_short_inv. split.
    + intros (r & -> & [-> ->]%has_val_inv). rewrite app_nil_r. by left.
    + intros [[-> ->]|[_ ?%has_nil_inv]]; [|done]. exists []. rewrite app_nil_r. split; [done|constructor].
  - destruct Ht as [[=]|Hw]. by inversion Hw.
  - destruct Ht as [[=]|Hw].
    destruct (prefixLen_spec (c :: key) k) as (q & r & s & E1 & E2 & E3 & Hd). rewrite E1 in *. rewrite E3. subst k.
    rewrite length_app. destruct s as [|x s].
    + rewrite app_nil_r in *. rewrite Nat.add_0_r, Nat.eqb_refl, take_app_length, drop_app_length.
      destruct (slot_short q t r Hw Hk) as [Hsl Hnn].
      destruct (IH n (p ++ q) r t Hsl Hn Hv) as (ev & d & n' & t' & -> & Hn' & Hsl' & Hnn' & Hu & Hsame & Hfull).
      { eapply fuel_ok_child; [exact Hf|done|]. rewrite length_app. pose proof (short_key_nonnil _ _ Hw). destruct q; [done|cbn; lia]. }
      cbn [andThen]. destruct d; cbn [negb]; eexists _, _, _, (TShort q t'); (split; [done|]).
      * split; [by constructor|]. split_and!; [|done|by apply upd_short|done|done].
        left. split; [done|]. right. by eapply insert_short_wf.
      * rewrite (Hsame eq_refl) in *. split; [by constructor|]. split_and!; [left; auto|done|by apply upd_short|done|done].
    + assert (Hne : r ≠ []).
      { intros ->. rewrite app_nil_r in Hk. destruct (graft_slot _ _ _ _ Hw) as [Hq _].
        apply hexkey_hasTerm in Hk. by rewrite hasTerm_nibbles in Hk. }
      destruct r as [|y r]; [done|].
      replace (length q =? _)%nat with false by (symmetry; apply Nat.eqb_neq; cbn; lia).
      rewrite !list_lookup_middle by done. rewrite !Nat.add_1_r.
      assert (Hdr : ∀ z (l : bytes), drop (S (length q)) (q ++ z :: l) = l).
      { intros z l. rewrite (cons_middle z q l), app_assoc, (drop_app_length' (q ++ [z])); [done|rewrite length_app; cbn; lia]. }
      rewrite !Hdr. destruct fuel as [|fuel]; [unfold fuel_ok in Hf; rewrite length_app in Hf; cbn in Hf; lia|].
      destruct (insert_nil fuel (p ++ take (S (length q)) (q ++ x :: s)) s n) as [ev1 E4]. rewrite E4. cbn [andThen].
      destruct (insert_nil fuel (p ++ take (S (length q)) (q ++ y :: r)) r (valueNode v)) as [ev2 E5]. rewrite E5. cbn [andThen].
      destruct (insert_split q x s y r t v p n Hw Hk) as (Hrep & Hwf & Hupd); [congruence|done|done|].
      cbv zeta in *. set (t' := graft q _) in *.
      assert (Hpost : slot t' (q ++ y :: r) ∧ t' ≠ TNil ∧ (isFull (TShort (q ++ x :: s) t) → isFull t')).
      { split; [left; auto|]. split; [intros E; rewrite E in Hwf; inversion Hwf|done]. }
      destruct Hpost as (Hp1 & Hp2 & Hp3). rewrite take_app_length.
      destruct q as [|q0 q]; cbn [length Nat.eqb]; eexists _, _, _, t'; (split; [done|]); by split_and!.
  - destruct Ht as [[=]|Hw]. destruct (slot_full ts c key Hw Hk) as (t & Ht & Hc & Hsl).
    destruct (lookup_lt_is_Some_2 cs (Z.to_nat c)) as [child Hchild].
    { rewrite Hl, wf_full_length by done. lia. }
    rewrite Hchild. pose proof (Hcs _ _ _ Hchild Ht) as Hrc. rewrite Z2Nat.id in Hrc by lia.
    destruct (IH child (p ++ [c]) key t Hsl Hrc Hv) as (ev & d & n' & t' & -> & Hn' & Hsl' & Hnn' & Hu & Hsame & _).
    { eapply fuel_ok_child; [exact Hf|done|cbn; lia]. }
    cbn [andThen]. destruct d; cbn [negb].
    + eexists _, _, _, (TFull (<[Z.to_nat c := t']> ts)). split; [done|].
      split; [apply full_insert_rep; [done|done|lia|done|apply newFlag_ok]|]. split_and!; [|done| |done|done].
      * left. split; [done|]. right. eapply full_insert_wf; [done|done|lia|done..].
      * eapply upd_full; [lia|done..].
    + rewrite (Hsame eq_refl) in *. eexists _, _, _, (TFull ts). split; [done|]. split; [by constructor|].
      split_and!; [left; auto|done| |done|done].
      assert (Hu' : upd (TFull ts) (c :: key) v (TFull (<[Z.to_nat c := t]> ts))) by (eapply upd_full; [lia|done..]).
      by rewrite list_insert_id in Hu'.
  - destruct (resolve_spec p t Hw Hs Hst (or_intror Hlg)) as (ev & rn & E & Hrn & Hne). rewrite E. cbn [andThen].
    destruct (IH rn p (c :: key) t) as (ev' & d & n' & t' & -> & Hn' & Hpost); [by left|done|done|by eapply fuel_ok_resolved|].
    cbn [andThen]. destruct d; cbn [negb].
    + eexists _, _, _, t'. by split.
    + destruct Hpost as (? & ? & ? & Hsame & ?). rewrite (Hsame eq_refl) in *. eexists _, _, _, t. split; [done|]. by split_and!.
Qed.

(** ** Deletion *)

(** [t'] is [t] without [key]. *)
Definition del (t : tree) (key : bytes) (t' : tree) : Prop := ∀ k w, has t' k w ↔ k ≠ key ∧ has t k w.

Lemma del_absent t key : (∀ w, ¬ has t key w) → del t key t.
Proof. intros H k w. split; [|by intros [_ ?]]. intros Hh. split; [|done]. intros ->. by eapply H. Qed.

Lemma del_short k t r t' : del t r t' → del (TShort k t) (k ++ r) (TShort k t').
Proof.
  intros H K w. rewrite !has_short_inv. split.
  - intros (r' & -> & Hh). apply H in Hh as [? ?]. split; [by intros ?%app_inv_head|eauto].
  - intros (Hne & r' & -> & Hh). exists r'. split; [done|]. apply H. split; [by intros ->|done].
Qed.

Lemma del_full ts c t r t' :
  0 <= c → ts !! Z.to_nat c = Some t → del t r t' → del (TFull ts) (c :: r) (TFull (<[Z.to_nat c := t']> ts)).
Proof.
  clear reader. intros Hc Ht H K w. pose proof (lookup_lt_Some _ _ _ Ht) as Hlt. destruct K as [|d K].
  { rewrite !has_full_inv. naive_solver. }
  rewrite !has_full_cons. destruct (decide (c = d)) as [<-|Hne].
  - rewrite list_lookup_insert_eq by done. split.
    + intros (_ & ? & [= <-] & Hh). apply H in Hh as [? ?]. split; [by intros [= ->]|eauto].
    + intros (Hd & _ & ? & Ht' & Hh). split; [done|]. exists t'. split; [done|]. apply H. simplify_eq. split; [by intros ->|done].
  - split.
    + intros (Hd & u & Hu & Hh). rewrite list_lookup_insert_ne in Hu by lia. split; [naive_solver|eauto].
    + intros (_ & Hd & u & Hu & Hh). split; [done|]. exists u. by rewrite list_lookup_insert_ne by lia.
Qed.

Definition delete_post (m : M (bool * node)) (p key : bytes) (t : tree) : Prop :=
  ∃ ev dirty n' t', m = (ev, Ok (dirty, n'))
    ∧ rep p n' t' ∧ slot t' key ∧ del t key t' ∧ (dirty = false → t' = t) ∧ (dirty = true → ∀ h, n' ≠ hashNode h).

(** The scan for a single remaining child. *)
Lemma scan_found i pos cs :
  0 <= pos →
  (scanChildren i pos cs = pos ∧ Forall (eq nilNode) cs)
  ∨ (scanChildren i pos cs = -2 ∧ ∃ j c, cs !! j = Some c ∧ c ≠ nilNode).
Proof.
  revert i. induction cs as [|c cs IH]; intros i Hp; [by left|]. cbn.
  replace (pos =? -1) with false by (symmetry; apply Z.eqb_neq; lia).
  destruct c; try (right; split; [done|]; exists 0%nat; eexists; split; [done|done]).
  destruct (IH (i + 1) Hp) as [[? ?]|(? & j & c & ? & ?)]; [left; auto|right]. split; [done|]. exists (S j), c. done.
Qed.

Lemma scan_spec i cs :
  0 <= i →
  (scanChildren i (-1) cs = -1 ∧ Forall (eq nilNode) cs)
  ∨ (∃ j c, scanChildren i (-1) cs = i + Z.of_nat j ∧ cs !! j = Some c ∧ c ≠ nilNode
       ∧ ∀ j' c', cs !! j' = Some c' → j' ≠ j → c' = nilNode)
  ∨ (scanChildren i (-1) cs = -2
       ∧ ∃ j j' c c', j ≠ j' ∧ cs !! j = Some c ∧ c ≠ nilNode ∧ cs !! j' = Some c' ∧ c' ≠ nilNode).
Proof.
  revert i. induction cs as [|c cs IH]; intros i Hi; [by left|].
  assert (Hcase : c = nilNode ∨ c ≠ nilNode) by (destruct c; auto). destruct Hcase as [->|Hc].
  - cbn. destruct (IH (i + 1)) as [[? ?]|[(j & c & -> & ? & ? & Ho)|(? & j & j' & c & c' & ? & ? & ? & ? & ?)]]; [lia|..].
    + left. auto.
    + right; left. exists (S j), c. split_and!; [lia|done|done|]. intros [|j'] c' Hj' Hne; [by injection Hj'|].
      apply (Ho j'); [done|congruence].
    + right; right. split; [done|]. exists (S j), (S j'), c, c'. split_and!; try done. congruence.
  - assert (E : scanChildren i (-1) (c :: cs) = scanChildren (i + 1) i cs) by (by destruct c). rewrite E.
    destruct (scan_found (i + 1) i cs Hi) as [[-> Hall]|(-> & j & c' & Hj & Hc')].
    + right; left. exists 0%nat, c. split_and!; [lia|done|done|]. intros [|j'] c' Hj' Hne; [done|].
      symmetry. by eapply Forall_lookup_1.
    + right; right. split; [done|]. exists 0%nat, (S j), c, c'. done.
Qed.

Lemma rep_nil_iff p n t : rep p n t → (n = nilNode ↔ t = TNil).
Proof. intros Hr. destruct Hr as [| | | |p t Hw]; try done. split; [done|]. intros ->. by inversion Hw. Qed.

(** A branch with a single entry is the entry behind its nibble. *)
Lemma has_single ts j t :
  (j < 17)%nat → ts !! j = Some t → (∀ j' t', ts !! j' = Some t' → j' ≠ j → t' = TNil) →
  same (TFull ts) (TShort [Z.of_nat j] t).
Proof.
  intros Hj Ht Ho K w. rewrite has_full_inv, has_short_inv. split.
  - intros (c & r & t' & -> & Hc & Ht' & Hh). destruct (decide (Z.to_nat c = j)) as [<-|Hne].
    + simplify_eq. exists r. split; [|done]. by rewrite Z2Nat.id.
    + rewrite (Ho _ _ Ht' Hne) in Hh. by apply has_nil_inv in Hh.
  - intros (r & -> & Hh). exists (Z.of_nat j), r, t. split_and!; [done|lia|by rewrite Nat2Z.id|done].
Qed.

Lemma has_short_short k k' t : same (TShort k (TShort k' t)) (TShort (k ++ k') t).
Proof.
  intros K w. rewrite !has_short_inv. split.
  - intros (r & -> & (r' & -> & Hh)%has_short_inv). exists r'. by rewrite app_assoc.
  - intros (r & -> & Hh). exists (k' ++ r). rewrite app_assoc. split; [done|]. by constructor.
Qed.

(** Merging a nibble path into a canonical subtree. *)
Lemma merge_short_wf k k' t : nibbles_ok k → wf (TShort k' t) → wf (TShort (k ++ k') t).
Proof.
  intros Hk Hw. destruct (wf_short_inv _ _ Hw) as [(v & Hk' & -> & Hv)|(Hne & Hk' & Hwt & ts & ->)].
  - constructor; [by apply hexkey_app|done].
  - constructor; [by destruct k|by apply Forall_app|done].
Qed.

Lemma del_same t key t1 t2 : del t key t1 → same t1 t2 → del t key t2.
Proof. intros H Hs k w. by rewrite <- (Hs k w). Qed.

(** Deleting one key from a branch leaves something. *)
Lemma del_full_nonnil ts key t' : wf (TFull ts) → del (TFull ts) key t' → t' ≠ TNil.
Proof.
  intros Hw Hd ->. destruct (full_two_heads _ Hw) as (c & d & k & l & v & w & Hcd & H1 & H2).
  destruct (decide (key = c :: k)) as [->|Hne].
  - apply (has_nil_inv (d :: l) w), Hd. split; [congruence|done].
  - apply (has_nil_inv (c :: k) v), Hd. done.
Qed.

(** Reducing a branch from which an entry was deleted. *)
Lemma reduce_spec p cs ts c key :
  wf (TFull ts) → hexkey (c :: key) → 0 <= c → (∃ t, ts !! Z.to_nat c = Some t) →
  length cs = length ts → (∀ i c t, cs !! i = Some c → ts !! i = Some t → rep (p ++ [Z.of_nat i]) c t) →
  let cs' := <[Z.to_nat c := nilNode]> cs in
  let ts' := <[Z.to_nat c := TNil]> ts in
  let pos := scanChildren 0 (-1) cs' in
  ∃ ev n' t',
    (if 0 <=? pos then
       match cs' !! Z.to_nat pos with
       | Some only =>
           if negb (pos =? 16) then
             andThen (resolve only (p ++ [pos])) (λ _, fullNode cs' newFlag) (λ cnode,
             match cnode with
             | shortNode k v _ => tell (onDelete (p ++ [pos])) (ret (true, shortNode (pos :: k) v newFlag))
             | _ => ret (true, shortNode [pos] only newFlag)
             end)
           else ret (true, shortNode [pos] only newFlag)
       | None => throw ErrPanic (fullNode cs' newFlag)
       end
     else ret (true, fullNode cs' newFlag)) = (ev, Ok (true, n'))
    ∧ rep p n' t' ∧ wf t' ∧ same (TFull ts') t' ∧ ∀ h, n' ≠ hashNode h.
Proof.
  intros Hw Hk Hc [t0 Ht0] Hl Hcs. cbv zeta.
  set (cs' := <[Z.to_nat c := nilNode]> cs). set (ts' := <[Z.to_nat c := TNil]> ts).
  pose proof (wf_full_length _ Hw) as H17. pose proof (lookup_lt_Some _ _ _ Ht0) as Hlt.
  assert (Hrep : rep p (fullNode cs' newFlag) (TFull ts')).
  { apply full_insert_rep; [done|done|done|constructor|apply newFlag_ok]. }
  assert (Hslots : ∀ i u, ts' !! i = Some u →
    (i < 16)%nat ∧ (u = TNil ∨ wf u) ∨ i = 16%nat ∧ (u = TNil ∨ ∃ v, u = TVal v ∧ value_ok v)).
  { eapply slot_child; [done|done|done|]. apply hexkey_cons in Hk as [[_ ->]|[_ ?]]; [right|left]; auto. }
  assert (Hrep' : ∀ i c t, cs' !! i = Some c → ts' !! i = Some t → rep (p ++ [Z.of_nat i]) c t).
  { inversion Hrep; subst. done. }
  assert (Hnil : ∀ i c t, cs' !! i = Some c → ts' !! i = Some t → (c = nilNode ↔ t = TNil)).
  { intros i c1 t1 Hc1 Ht1. eapply rep_nil_iff. by apply (Hrep' i). }
  assert (Hlen : length cs' = 17%nat ∧ length ts' = 17%nat) by (unfold cs', ts'; rewrite !length_insert; lia).
  destruct Hlen as [Hlc Hlts].
  assert (Hat : ∀ i c1, cs' !! i = Some c1 → ∃ t1, ts' !! i = Some t1).
  { intros i c1 Hi. apply lookup_lt_Some in Hi. apply lookup_lt_is_Some_2. lia. }
  destruct (scan_spec 0 cs' ltac:(lia)) as [[Es Hall]|[(j & c1 & Es & Hj & Hc1 & Ho)|(Es & j & j' & c1 & c2 & Hjj & Hj & Hc1 & Hj' & Hc2)]].
  - exfalso. destruct (wf_full_inv _ Hw) as (_ & _ & _ & _ & _ & _ & (i & j & ti & tj & Hij & Hi & Hti & Hj & Htj)).
    assert (Hsome : ∃ i ti, ts !! i = Some ti ∧ ti ≠ TNil ∧ i ≠ Z.to_nat c).
    { destruct (decide (i = Z.to_nat c)); [exists j, tj|exists i, ti]; split_and!; try done. congruence. }
    destruct Hsome as (i' & ti' & Hi' & Hn' & Hne). assert (Hi2 : ts' !! i' = Some ti') by (unfold ts'; by rewrite list_lookup_insert_ne by congruence).
    destruct (lookup_lt_is_Some_2 cs' i') as [ci Hci]; [apply lookup_lt_Some in Hi2; lia|].
    apply Hn', (Hnil i' ci ti' Hci Hi2). symmetry. by eapply Forall_lookup_1.
  - rewrite Es, Z.add_0_l. rewrite (proj2 (Z.leb_le _ _)) by lia. rewrite Nat2Z.id, Hj.
    destruct (Hat j c1 Hj) as [t1 Ht1]. assert (Hn1 : t1 ≠ TNil) by (intros E; by apply Hc1, (Hnil j c1 t1 Hj Ht1)).
    pose proof (Hrep' j c1 t1 Hj Ht1) as Hr1. pose proof (lookup_lt_Some _ _ _ Hj) as Hjl.
    assert (Hsame : same (TFull ts') (TShort [Z.of_nat j] t1)).
    { apply has_single; [lia|done|]. intros j2 t2 Ht2 Hne. destruct (lookup_lt_is_Some_2 cs' j2) as [c2 Hc2]; [apply lookup_lt_Some in Ht2; lia|].
      apply (Hnil j2 c2 t2 Hc2 Ht2). by eapply Ho. }
    destruct (Hslots j t1 Ht1) as [[Hj16 [->|Hw1]]|[-> [->|(v & -> & Hv)]]]; try done.
    + replace (Z.of_nat j =? 16) with false by (symmetry; apply Z.eqb_neq; lia). cbn [negb].
      assert (Hcn : ∃ ev cnode, resolve c1 (p ++ [Z.of_nat j]) = (ev, Ok cnode) ∧ rep (p ++ [Z.of_nat j]) cnode t1 ∧ ∀ h, cnode ≠ hashNode h).
      { destruct Hr1 as [| | | |? ? ? Hs Hlg Hst]; try (eexists _, _; split; [done|]; split; [by constructor|done]).
        cbn [resolve]. apply resolve_spec; auto. }
      assert (Hnj : nibbles_ok [Z.of_nat j]) by (repeat constructor; lia).
      destruct Hcn as (ev & cnode & -> & Hrc & Hnh). cbn [andThen].
      assert (Hkind : (∃ k v f tv, cnode = shortNode k v f ∧ t1 = TShort k tv) ∨ (∃ cs f ts, cnode = fullNode cs f ∧ t1 = TFull ts)).
      { destruct Hrc; [by inversion Hw1..|left; eauto 10|right; eauto 10|by destruct (Hnh (keccak (encTree t)))]. }
      destruct Hkind as [(k & v & f & tv & -> & ->)|(cs1 & f & ts1 & -> & ->)].
      * eexists _, _, (TShort (Z.of_nat j :: k) tv). split; [done|]. inversion Hrc as [| |? ? ? ? ? Hv _| |]; subst.
        split; [constructor; [|apply newFlag_ok]; by rewrite cons_middle, app_assoc|].
        split; [by apply (merge_short_wf [Z.of_nat j])|]. split; [|done].
        intros K w. rewrite (Hsame K w). apply (has_short_short [Z.of_nat j] k tv).
      * eexists _, _, (TShort [Z.of_nat j] (TFull ts1)). split; [done|]. split; [constructor; [done|apply newFlag_ok]|].
        split; [by constructor|]. by split.
    + cbn [Z.of_nat Z.eqb negb]. eexists _, _, (TShort [Z.of_nat 16] (TVal v)). split; [done|].
      split; [constructor; [done|apply newFlag_ok]|]. split; [constructor; [by exists []|done]|]. by split.
  - rewrite Es. cbn. eexists _, _, (TFull ts'). split; [done|]. split; [done|]. split; [|by split].
    destruct (Hat j c1 Hj) as [t1 Ht1]. destruct (Hat j' c2 Hj') as [t2 Ht2].
    apply wf_full_intro; [done|done|]. exists j, j', t1, t2. split_and!; [done|done| |done|].
    + intros E. by apply Hc1, (Hnil j c1 t1 Hj Ht1).
    + intros E. by apply Hc2, (Hnil j' c2 t2 Hj' Ht2).
Qed.

Lemma delete_spec fuel n p key t :
  slot t key → rep p n t → fuel_ok fuel n key → delete_post (delete fuel n p key) p key t.
Proof.
  revert n p key t. induction fuel as [|fuel IH]; intros n p key t Hsl Hr Hf; [unfold fuel_ok in Hf; destruct n; lia|].
  destruct Hr as [p|p v|p k n t f Hn Hfl|p cs ts f Hl Hcs Hfl|p t Hw Hs Hlg Hst]; cbn [delete].
  - eexists _, _, _, TNil. split; [done|]. split_and!; [constructor|done| |done|done].
    apply del_absent. intros w. apply has_nil_inv.
  - destruct Hsl as [[_ [[=]|Hw]]|[-> _]]; [by inversion Hw|].
    eexists _, _, _, TNil. split; [done|]. split_and!; [constructor|by right; auto| |done|done].
    intros k w. rewrite has_val_inv. split; [by intros ?%has_nil_inv|naive_solver].
  - destruct Hsl as [[Hk [[=]|Hw]]|[_ [[=]|(? & [=] & _)]]].
    destruct (prefixLen_spec key k) as (q & r & s & E1 & E2 & E3 & Hd). rewrite E3. subst key k. rewrite !length_app.
    destruct s as [|x s]; cycle 1.
    { replace (length q <? _)%nat with true by (symmetry; apply Nat.ltb_lt; cbn; lia).
      eexists _, _, _, _. split; [done|]. split; [by constructor|]. split_and!; [left; auto| |done|done].
      apply del_absent. intros w (r' & E & _)%has_short_inv. rewrite <- app_assoc in E. apply app_inv_head in E.
      destruct r as [|y r]; [done|]. injection E as -> _. done. }
    rewrite app_nil_r in *. cbn [length]. rewrite Nat.add_0_r, Nat.ltb_irrefl.
    destruct (slot_short q t r Hw Hk) as [Hsl Hnn]. destruct r as [|y r].
    + rewrite app_nil_r in *. cbn [length]. rewrite Nat.add_0_r, Nat.eqb_refl.
      eexists _, _, _, TNil. split; [done|]. split_and!; [constructor|left; auto| |done|done].
      destruct Hsl as [[Hbad _]|[_ [->|(v & -> & Hv)]]]; [by apply hexkey_nonnil in Hbad|done|].
      intros K w. rewrite has_short_inv. split; [by intros ?%has_nil_inv|]. intros (Hne & r & -> & [-> _]%has_val_inv).
      by rewrite app_nil_r in Hne.
    + replace (length q =? _)%nat with false by (symmetry; apply Nat.eqb_neq; cbn; lia).
      rewrite take_app_length, drop_app_length.
      destruct (IH n (p ++ q) (y :: r) t Hsl Hn) as (ev & d & n1 & t1 & -> & Hn1 & Hsl1 & Hd1 & Hsame & Hnh).
      { eapply fuel_ok_child; [exact Hf|done|]. rewrite length_app. pose proof (short_key_nonnil _ _ Hw). destruct q; [done|cbn; lia]. }
      cbn [andThen]. destruct d; cbn [negb]; cycle 1.
      { rewrite (Hsame eq_refl) in *. eexists _, _, _, (TShort q t). split; [done|]. split; [by constructor|].
        split_and!; [left; auto|by apply del_short|done|done]. }
      destruct (wf_short_inv _ _ Hw) as [(v & _ & -> & _)|(_ & Hqn & Hwt & ts & ->)].
      { destruct Hsl as [[_ [[=]|Hbad]]|[[=] _]]. by inversion Hbad. }
      pose proof (del_full_nonnil _ _ _ Hwt Hd1) as Hne1.
      destruct Hsl1 as [[_ [->|Hw1]]|[[=] _]]; [done|].
      pose proof (del_short q _ _ _ Hd1) as Hds.
      remember (p ++ q) as pq eqn:Ep in Hn1.
      destruct Hn1 as [p1|p1 v1|p1 k1 n1 t1 f1 Hr1 _|p1 cs1 ts1 f1 Hl1 Hc1 Hf1|p1 t1 ? ? ? ?];
        [by inversion Hw1..| | |by destruct (Hnh eq_refl (keccak (encTree t1)))].
      * eexists _, _, _, (TShort (q ++ k1) t1). split; [done|]. split; [constructor; [by rewrite app_assoc, <- Ep|apply newFlag_ok]|].
        split_and!; [left; split; [done|right; by apply merge_short_wf]| |done|done].
        eapply del_same; [exact Hds|apply has_short_short].
      * eexists _, _, _, (TShort q (TFull ts1)). split; [done|].
        split; [constructor; [rewrite <- Ep; by constructor|apply newFlag_ok]|].
        split_and!; [left; split; [done|right]|done|done|done]. constructor; [by eapply short_key_nonnil|done|done].
  - destruct Hsl as [[Hk [[=]|Hw]]|[_ [[=]|(? & [=] & _)]]]. destruct key as [|c key]; [by apply hexkey_nonnil in Hk|].
    destruct (slot_full ts c key Hw Hk) as (t & Ht & Hc & Hsl).
    destruct (lookup_lt_is_Some_2 cs (Z.to_nat c)) as [child Hchild].
    { rewrite Hl, wf_full_length by done. lia. }
    rewrite Hchild. pose proof (Hcs _ _ _ Hchild Ht) as Hrc. rewrite Z2Nat.id in Hrc by lia.
    destruct (IH child (p ++ [c]) key t Hsl Hrc) as (ev & d & n1 & t1 & -> & Hn1 & Hsl1 & Hd1 & Hsame & Hnh).
    { eapply fuel_ok_child; [exact Hf|done|cbn; lia]. }
    pose proof (del_full ts c t key t1 (proj1 Hc) Ht Hd1) as Hdf.
    cbn [andThen]. destruct d; cbn [negb]; cycle 1.
    { rewrite (Hsame eq_refl) in *. eexists _, _, _, (TFull ts). split; [done|]. split; [by constructor|].
      split_and!; [left; auto| |done|done]. by rewrite list_insert_id in Hdf. }
    assert (Hcase : n1 = nilNode ∨ n1 ≠ nilNode) by (destruct n1; auto). destruct Hcase as [->|Hnn].
    + apply rep_nil_iff in Hn1 as [E _]. rewrite (E eq_refl) in *.
      destruct (reduce_spec p cs ts c key Hw Hk (proj1 Hc) (ex_intro _ t Ht) Hl Hcs) as (ev' & n' & t' & E' & Hn' & Hw' & Hs' & Hnh').
      cbv zeta in *. eexists _, true, n', t'. split; [by rewrite E'|]. split; [done|].
      split_and!; [left; auto| |done|done]. by eapply del_same.
    + assert (Hne1 : t1 ≠ TNil) by (intros ->; by apply Hnn, (rep_nil_iff _ _ _ Hn1)).
      eexists _, true, (fullNode (<[Z.to_nat c := n1]> cs) newFlag), (TFull (<[Z.to_nat c := t1]> ts)).
      split; [by destruct n1|]. split; [apply full_insert_rep; [done|done|lia|done|apply newFlag_ok]|].
      split_and!; [left; split; [done|right]|done|done|done]. eapply full_insert_wf; [done|done|lia|done..].
  - destruct (resolve_spec p t Hw Hs Hst (or_intror Hlg)) as (ev & rn & E & Hrn & Hne). rewrite E. cbn [andThen].
    destruct (IH rn p key t Hsl Hrn) as (ev' & d & n' & t' & -> & Hn' & Hsl' & Hd' & Hsame & Hnh).
    { by eapply fuel_ok_resolved. }
    cbn [andThen]. destruct d; cbn [negb].
    + eexists _, true, n', t'. by split_and!.
    + rewrite (Hsame eq_refl) in *. eexists _, false, rn, t. by split_and!.
Qed.

End Reader.
End Trie.
