(* ===== verification/TrieMap.v ===== *)
(** * The trie as a map with a commitment

    What the trie promises to the state database: lookups, updates and
    deletions act like those of a finite map whatever part of the trie is in
    memory, and the root hash is determined by the map and determines it. *)

From S2P Require Import Prelude Bytes RLP TrieKeys TrieNode TrieSpec Trie.
Import RLP TrieKeys TrieNode TrieSpec Trie.

Module TrieMap.

(** ** Maps and trees *)

(** The tree's entries are those of the map, under the nibbles of the key. *)
Definition models (t : tree) (m : gmap bytes bytes) : Prop :=
  ∀ k v, has t k v ↔ ∃ key, bytes_ok key ∧ k = keybytesToHex key ∧ m !! key = Some v.

(** Keys are byte strings; keys and values are short enough for 64-bit lengths. *)
Definition small (m : gmap bytes bytes) : Prop :=
  ∀ key v, m !! key = Some v → bytes_ok key ∧ Z.of_nat (length key) < 2 ^ 30 ∧ Z.of_nat (length v) < 2 ^ 32.

Lemma models_empty : models TNil ∅.
Proof.
  intros k v. split; [by intros ?%has_nil_inv|]. intros (key & _ & _ & H). by rewrite lookup_empty in H.
Qed.

Lemma models_lookup t m key v :
  models t m → bytes_ok key → has t (keybytesToHex key) v ↔ m !! key = Some v.
Proof.
  intros Hm Hk. rewrite (Hm _ v). split; [|eauto]. intros (key' & Hk' & E & H). by apply writeHexKey_inj in E as <-.
Qed.

Lemma models_upd t m key v t' :
  models t m → bytes_ok key → upd t (keybytesToHex key) v t' → models t' (<[key := v]> m).
Proof.
  intros Hm Hk Hu k w. rewrite (Hu k w). split.
  - intros [[-> ->]|[Hne Hh]]; [exists key; by rewrite lookup_insert_eq|].
    apply Hm in Hh as (key' & Hk' & -> & H). exists key'. split_and!; [done..|]. rewrite lookup_insert_ne; [done|by intros ->].
  - intros (key' & Hk' & -> & H). destruct (decide (key = key')) as [->|Hne].
    + rewrite lookup_insert_eq in H. injection H as ->. by left.
    + rewrite lookup_insert_ne in H by done. right. split; [by intros ?%writeHexKey_inj|]. apply Hm. eauto.
Qed.

Lemma models_del t m key t' :
  models t m → bytes_ok key → del t (keybytesToHex key) t' → models t' (base.delete key m).
Proof.
  intros Hm Hk Hd k w. rewrite (Hd k w). split.
  - intros [Hne Hh]. apply Hm in Hh as (key' & Hk' & -> & H). exists key'. split_and!; [done..|].
    rewrite lookup_delete_ne; [done|by intros ->].
  - intros (key' & Hk' & -> & H). apply lookup_delete_Some in H as [Hne H].
    split; [by intros ?%writeHexKey_inj|]. apply Hm. eauto.
Qed.

(** The map determines the canonical tree. *)
Lemma models_canonical t t' m : entry t → entry t' → models t m → models t' m → t = t'.
Proof. intros He He' H H'. apply canonical; [done..|]. intros k v. by rewrite (H k v), (H' k v). Qed.

Lemma models_functional t m m' :
  small m → small m' → models t m → models t m' → m = m'.
Proof.
  intros Hs Hs' H H'.
  assert (Hb : ∀ key v, m !! key = Some v → bytes_ok key) by (intros key v E; by apply (Hs key v)).
  assert (Hb' : ∀ key v, m' !! key = Some v → bytes_ok key) by (intros key v E; by apply (Hs' key v)).
  apply map_eq. intros key. apply option_eq. intros v. split; intros E.
  - by rewrite <- (models_lookup t m'), (models_lookup t m) by eauto.
  - by rewrite <- (models_lookup t m), (models_lookup t m') by eauto.
Qed.

(** A canonical tree with short entries is sized. *)
Lemma sized_intro t :
  wf t → (∀ k v, has t k v → Z.of_nat (length k) < 2 ^ 32 ∧ Z.of_nat (length v) < 2 ^ 32) → sized t.
Proof.
  induction t as [|v|k t IH|ts IH] using tree_ind'; intros Hw Hh; [by inversion Hw..| |].
  - assert (Hin : ∃ r v, has t r v).
    { destruct (wf_short_inv _ _ Hw) as [(v & _ & -> & _)|(_ & _ & Hwt & _)]; [exists [], v; constructor|by apply wf_inhabited]. }
    destruct Hin as (r & v & Hr). constructor.
    + destruct (Hh _ _ (has_short k _ _ _ Hr)) as [Hl _]. rewrite length_app in Hl. lia.
    + destruct (wf_short_inv _ _ Hw) as [(w & _ & -> & _)|(_ & _ & Hwt & _)].
      * constructor. apply (Hh (k ++ []) w). repeat constructor.
      * apply IH; [done|]. intros r' v' Hr'. destruct (Hh _ _ (has_short k _ _ _ Hr')) as [Hl ?].
        rewrite length_app in Hl. split; [lia|done].
  - constructor; [by apply wf_full_length|]. apply Forall_lookup_2. intros i t Hi.
    assert (Hsub : ∀ k v, has t k v → Z.of_nat (length k) < 2 ^ 32 ∧ Z.of_nat (length v) < 2 ^ 32).
    { intros k v Hk. destruct (Hh (Z.of_nat i :: k) v) as [Hl ?]; [econstructor; [lia|by rewrite Nat2Z.id|done]|].
      cbn [length] in Hl. split; [lia|done]. }
    destruct (wf_full_lookup _ _ _ Hw Hi) as [[_ [->|Hwt]]|[_ [->|(v & -> & _)]]]; try constructor.
    + rewrite Forall_forall in IH. apply IH; [by eapply list_elem_of_lookup_2|done|done].
    + apply (Hsub [] v). constructor.
Qed.

Lemma models_sized t m : wf t → models t m → small m → sized t.
Proof.
  intros Hw Hm Hs. apply sized_intro; [done|]. intros k v Hh. apply Hm in Hh as (key & _ & -> & H).
  destruct (Hs key v H) as (_ & ? & ?). change (keybytesToHex key) with (writeHexKey key ++ [16]).
  rewrite length_app, length_writeHexKey. cbn. lia.
Qed.

(** ** Operations *)

Inductive op :=
| Get (key : bytes)
| Update (key value : bytes)
| Delete (key : bytes)
| Hash.

Inductive out :=
| Value (v : option bytes)
| Done
| RootHash (h : bytes)
| Failed (e : trieError).

(** A call on the trie; [None] is a panic. *)
Definition call (reader : bytes → bytes → option bytes) (keccak : bytes → bytes) (T : Trie) (o : op) : option (out * Trie) :=
  match o with
  | Get key =>
      let '(r, T) := trie_Get reader T key in
      Some (match r with Ok v => Value v | Err e => Failed e end, T)
  | Update key value =>
      let '(e, T) := trie_Update reader T key value in
      Some (match e with None => Done | Some e => Failed e end, T)
  | Delete key =>
      let '(e, T) := trie_Delete reader T key in
      Some (match e with None => Done | Some e => Failed e end, T)
  | Hash => '(h, T) ← trie_Hash keccak T; Some (RootHash h, T)
  end.

Fixpoint calls (reader : bytes → bytes → option bytes) (keccak : bytes → bytes) (T : Trie) (os : list op) :
    option (list out * Trie) :=
  match os with
  | [] => Some ([], T)
  | o :: os =>
      '(r, T) ← call reader keccak T o;
      '(rs, T) ← calls reader keccak T os;
      Some (r :: rs, T)
  end.

(** *** The specification on maps *)

Definition map_step (m : gmap bytes bytes) (o : op) : gmap bytes bytes :=
  match o with
  | Update key [] | Delete key => base.delete key m
  | Update key value => <[key := value]> m
  | Get _ | Hash => m
  end.

(** The hash of a map: that of its canonical trie. *)
Definition root_of (keccak : bytes → bytes) (m : gmap bytes bytes) (h : bytes) : Prop :=
  ∃ t, (t = TNil ∨ wf t) ∧ models t m
    ∧ h = match t with TNil => EmptyRootHash | _ => keccak (encTree keccak t) end.

Definition out_ok (keccak : bytes → bytes) (m : gmap bytes bytes) (o : op) (r : out) : Prop :=
  match o with
  | Get key => r = Value (m !! key)
  | Update _ _ | Delete _ => r = Done
  | Hash => ∃ h, r = RootHash h ∧ root_of keccak m h
  end.

Fixpoint outs_ok (keccak : bytes → bytes) (m : gmap bytes bytes) (os : list op) (rs : list out) : Prop :=
  match os, rs with
  | [], [] => True
  | o :: os, r :: rs => out_ok keccak m o r ∧ outs_ok keccak (map_step m o) os rs
  | _, _ => False
  end.

(** Keys and values are byte strings of reasonable length. *)
Definition op_ok (o : op) : Prop :=
  match o with
  | Get key | Delete key => bytes_ok key
  | Update key value =>
      bytes_ok key ∧ bytes_ok value ∧ Z.of_nat (length key) < 2 ^ 30 ∧ Z.of_nat (length value) < 2 ^ 32
  | Hash => True
  end.

Section Theorems.
Context (reader : bytes → bytes → option bytes) (keccak : bytes → bytes) {HK : Keccak256 keccak}.

(** A trie in use stands for a map; any part of it may still be in the database. *)
Definition trie_ok (T : Trie) (m : gmap bytes bytes) : Prop :=
  T.(committed) = false ∧ small m
  ∧ ∃ t, (t = TNil ∨ wf t) ∧ models t m ∧ rep keccak (stored reader keccak) [] T.(root) t.

Lemma root_foldl T ev : root (foldl applyEvent T ev) = root T ∧ committed (foldl applyEvent T ev) = committed T.
Proof. revert T. induction ev as [|e ev IH]; intros T; [done|]. cbn. destruct (IH (applyEvent T e)) as [-> ->]. by destruct e. Qed.

Lemma key_slot t key : t = TNil ∨ wf t → bytes_ok key → slot t (keybytesToHex key).
Proof. intros Ht Hk. left. split; [by apply keybytesToHex_hexkey|done]. Qed.

Lemma slot_hexkey t key : slot t (keybytesToHex key) → t = TNil ∨ wf t.
Proof. intros [[_ ?]|[E _]]; [done|]. by destruct (writeHexKey key) eqn:Ew; unfold writeHexKey, keybytesToHex in *; rewrite Ew in E. Qed.

Lemma small_insert m key v :
  small m → bytes_ok key → Z.of_nat (length key) < 2 ^ 30 → Z.of_nat (length v) < 2 ^ 32 → small (<[key := v]> m).
Proof. intros Hs Hb Hk Hv k w. rewrite lookup_insert_Some. intros [[-> ->]|[_ H]]; [done|]. by apply Hs. Qed.

Lemma small_delete m key : small m → small (base.delete key m).
Proof. intros Hs k w. rewrite lookup_delete_Some. intros [_ H]. by apply Hs. Qed.

Lemma delete_call T m key :
  trie_ok T m → bytes_ok key →
  ∃ T', finish (countUpdate T) (delete reader (opFuel (keybytesToHex key)) (root T) [] (keybytesToHex key)) = (None, T')
    ∧ trie_ok T' (base.delete key m).
Proof.
  intros (Hc & Hs & t & Ht & Hm & Hr) Hk.
  destruct (delete_spec reader keccak (opFuel (keybytesToHex key)) (root T) [] (keybytesToHex key) t)
    as (ev & d & n' & t' & E & Hr' & Hsl & Hd & _); [by apply key_slot|done|apply opFuel_ok|].
  rewrite E. cbn. eexists. split; [done|]. pose proof (root_foldl (countUpdate T) ev) as [_ Hcm].
  split; [by cbn; rewrite Hcm|]. split; [by apply small_delete|]. exists t'. split; [by eapply slot_hexkey|].
  split; [by eapply models_del|done].
Qed.

Lemma call_spec T m o :
  trie_ok T m → op_ok o →
  ∃ r T', call reader keccak T o = Some (r, T') ∧ out_ok keccak m o r ∧ trie_ok T' (map_step m o).
Proof.
  intros Hok Ho. pose proof Hok as (Hc & Hs & t & Ht & Hm & Hr). destruct o as [key|key value|key|]; cbn [call].
  - unfold trie_Get. rewrite Hc.
    destruct (get_spec reader keccak (opFuel (keybytesToHex key)) (root T) [] (keybytesToHex key) t)
      as (ev & o & n' & b & E & Hl & Hr'); [by apply key_slot|done|apply opFuel_ok|].
    rewrite E. cbv zeta. eexists _, _. split; [done|]. split.
    + cbn. f_equal. apply option_eq. intros v. rewrite (Hl v). by apply models_lookup.
    + pose proof (root_foldl T ev) as [Hrt Hcm]. split; [by destruct b; cbn; rewrite Hcm|]. split; [done|].
      exists t. split_and!; [done..|]. destruct b; cbn; [done|]. by rewrite Hrt.
  - destruct Ho as (Hk & Hv & Hkl & Hvl). unfold trie_Update. rewrite Hc. destruct value as [|b value].
    + destruct (delete_call T m key Hok Hk) as (T' & E & Hok'). cbn [root countUpdate]. cbv zeta. rewrite E.
      eexists _, _. split; [done|]. split; [done|exact Hok'].
    + destruct (insert_spec reader keccak (opFuel (keybytesToHex key)) (root T) [] (keybytesToHex key) t (b :: value))
        as (ev & d & n' & t' & E & Hr' & Hsl & _ & Hu & _); [by apply key_slot|done|done|apply opFuel_ok|].
      cbn [root countUpdate]. cbv zeta. rewrite E. cbn. eexists _, _. split; [done|]. split; [done|].
      pose proof (root_foldl (countUpdate T) ev) as [_ Hcm]. split; [by cbn; rewrite Hcm|].
      split; [by apply small_insert|]. exists t'. split; [by eapply slot_hexkey|]. split; [by eapply models_upd|done].
  - unfold trie_Delete. rewrite Hc. destruct (delete_call T m key Hok Ho) as (T' & E & Hok').
    cbn [root countUpdate]. cbv zeta. rewrite E. eexists _, _. split; [done|]. split; [done|exact Hok'].
  - unfold trie_Hash. destruct Ht as [->|Hw].
    + apply rep_nil_iff in Hr as Hn. rewrite (proj2 Hn eq_refl). eexists _, _. split; [done|]. split; [|done].
      eexists. split; [done|]. exists TNil. split_and!; [by left|done|done].
    + destruct (hasher_hash_spec keccak (stored reader keccak) t Hw (models_sized _ _ Hw Hm Hs) [] (root T) true) as (n' & E & Hr'); [done|done|].
      assert (Hne : root T ≠ nilNode) by (intros En; apply (rep_nil_iff _ _ _ _ _ Hr) in En; subst; inversion Hw).
      destruct (root T) as [| | | |] eqn:ERt; try done; rewrite E; cbn [mbind option_bind]; (eexists _, _; split; [done|]; split).
      all: try (eexists; split; [done|]; exists t; split_and!; [by right|done|unfold refBytes; rewrite andb_false_r; destruct t; try done; by inversion Hw]).
      all: split; [done|]; split; [done|]; exists t; split_and!; [by right|done|done].
Qed.

(** Opening a trie that is in the database. *)
Lemma New_ok t m :
  wf t → sized t → models t m → small m → stored reader keccak [] t →
  keccak (encTree keccak t) ≠ replicate 32 0 → keccak (encTree keccak t) ≠ EmptyRootHash →
  ∃ T, New reader (keccak (encTree keccak t)) = Ok T ∧ trie_ok T m.
Proof.
  intros Hw Hs Hm Hsm Hst Hz He. unfold New. rewrite !bool_decide_false by done. cbn [orb].
  destruct (resolve_spec reader keccak [] t Hw Hs Hst (or_introl eq_refl)) as (ev & rn & -> & Hr & _).
  eexists. split; [done|]. pose proof (root_foldl (emptyTrie nilNode) ev) as [_ Hcm].
  split; [by cbn; rewrite Hcm|]. split; [done|]. exists t. auto.
Qed.

Lemma empty_ok : trie_ok (emptyTrie nilNode) ∅.
Proof.
  split; [done|]. split; [by intros ? ?|]. exists TNil. split; [by left|]. split; [apply models_empty|constructor].
Qed.

End Theorems.

(** ** The root hash *)

Definition collision (keccak : bytes → bytes) : Prop := ∃ a b, a ≠ b ∧ keccak a = keccak b.

Section Binding.
Context (keccak : bytes → bytes) {HK : Keccak256 keccak}.
Local Abbreviation encTree := (encTree keccak).
Local Abbreviation treeItem := (treeItem keccak).
Local Abbreviation refItem := (refItem keccak).

Lemma encTree_treeItem t t' :
  entry t → entry t' → sized t → sized t' → encTree t = encTree t' → treeItem t = treeItem t'.
Proof.
  intros He He' Hs Hs' E. destruct (tree_items_ok keccak t He Hs) as (Hi & _).
  destruct (tree_items_ok keccak t' He' Hs') as (Hi' & _).
  apply (enc_prefix_free _ _ [] [] Hi Hi'). by rewrite !app_nil_r.
Qed.

(** Two references that agree. *)
Lemma refItem_inj t t' :
  (t = TNil ∨ wf t) → (t' = TNil ∨ wf t') → sized t → sized t' →
  (wf t → wf t' → treeItem t = treeItem t' → t = t' ∨ collision keccak) →
  refItem t = refItem t' → t = t' ∨ collision keccak.
Proof.
  intros Ht Ht' Hs Hs' IH E. assert (Hnil : ∀ u, wf u → refItem u ≠ Str []).
  { intros u Hu. rewrite refItem_wf by done. unfold refTo. destruct (wf_treeItem keccak u Hu) as [l El]. case_if; [by rewrite El|].
    intros [= Hk]. pose proof (keccak_length (enc (treeItem u))) as Hl. by rewrite Hk in Hl. }
  destruct Ht as [->|Hw], Ht' as [->|Hw']; [by left| | |].
  - by destruct (Hnil t').
  - by destruct (Hnil t).
  - rewrite !refItem_wf in E by done. unfold refTo in E.
    destruct (wf_treeItem keccak t Hw) as [l El]. destruct (wf_treeItem keccak t' Hw') as [l' El'].
    case_if_in E; case_if_in E; [by apply IH|by rewrite El in E|by rewrite El' in E|].
    injection E as E. destruct (decide (enc (treeItem t) = enc (treeItem t'))) as [Ee|Hne]; [|right; by eexists _, _].
    apply IH; [done..|]. by apply encTree_treeItem; [right; right|right; right|..].
Qed.

Lemma treeItem_inj t t' :
  wf t → wf t' → sized t → sized t' → treeItem t = treeItem t' → t = t' ∨ collision keccak.
Proof.
  revert t'. induction t as [|v|k t IH|ts IH] using tree_ind'; intros t' Hw Hw' Hs Hs' E; [by inversion Hw..| |].
  - destruct t' as [| |k' t'|ts']; [by inversion Hw'..| |].
    + rewrite !treeItem_short in E. injection E as Ek Er.
      assert (k' = k) as ->.
      { destruct (wf_short_key _ _ Hw) as (p & b & Hp & ->). destruct (wf_short_key _ _ Hw') as (p' & b' & Hp' & ->).
        rewrite <- (compact_hex_roundtrip p b), <- (compact_hex_roundtrip p' b') by done. by rewrite Ek. }
      inversion Hs as [| |? ? _ Hst|]; inversion Hs' as [| |? ? _ Hst'|]; subst.
      destruct (wf_short_inv _ _ Hw) as [(v & Hk & -> & Hv)|(_ & Hk & Hwt & ts & ->)];
        destruct (wf_short_inv _ _ Hw') as [(v' & Hk' & -> & Hv')|(_ & Hk' & Hwt' & ts' & ->)].
      * injection Er as ->. by left.
      * apply hexkey_hasTerm in Hk. by rewrite hasTerm_nibbles in Hk.
      * apply hexkey_hasTerm in Hk'. by rewrite hasTerm_nibbles in Hk'.
      * destruct (refItem_inj (TFull ts) (TFull ts')) as [->|]; auto.
    + rewrite treeItem_short, treeItem_full in E. injection E as E. apply (f_equal length) in E.
      rewrite length_fmap, wf_full_length in E by done. done.
  - destruct t' as [| |k' t'|ts']; [by inversion Hw'..| |].
    + rewrite treeItem_short, treeItem_full in E. injection E as E. apply (f_equal length) in E.
      rewrite length_fmap, wf_full_length in E by done. done.
    + rewrite !treeItem_full in E. injection E as E.
      destruct (wf_full_entries _ Hw) as [_ H17]. destruct (wf_full_entries _ Hw') as [_ H17'].
      assert (Hall : (∀ i t t', ts !! i = Some t → ts' !! i = Some t' → t = t' ∨ collision keccak)).
      { intros i t t' Hi Hi'. assert (Er : refItem t = refItem t').
        { apply (f_equal (λ l, l !! i)) in E. rewrite !list_lookup_fmap, Hi, Hi' in E. by injection E. }
        pose proof (list_elem_of_lookup_2 _ _ _ Hi) as Hin. pose proof (list_elem_of_lookup_2 _ _ _ Hi') as Hin'.
        pose proof (sized_lookup _ _ Hs Hin) as Hst. pose proof (sized_lookup _ _ Hs' Hin') as Hst'.
        destruct (wf_full_lookup _ _ _ Hw Hi) as [[Hlt Ht]|[Hlt Ht]];
          destruct (wf_full_lookup _ _ _ Hw' Hi') as [[Hlt' Ht']|[Hlt' Ht']]; try lia.
        - apply refItem_inj; [done..| |done]. intros Hwt Hwt' Et. rewrite Forall_forall in IH. by apply IH.
        - left. destruct Ht as [->|(v & -> & Hne & _)], Ht' as [->|(v' & -> & Hne' & _)]; [done| | |];
            injection Er as Ev; subst; done. }
      assert (Hdec : (∀ i t t', ts !! i = Some t → ts' !! i = Some t' → t = t') ∨ collision keccak).
      { clear -Hall H17 H17'. revert ts' H17' Hall. rewrite <- H17. clear H17. induction ts as [|t ts IHl]; intros [|t' ts'] Hl Hall; try done; [by left|].
        destruct (Hall 0%nat t t' eq_refl eq_refl) as [->|]; [|by right].
        destruct (IHl ts' ltac:(cbn in Hl; lia)) as [Heq|]; [intros i; apply (Hall (S i))| |by right].
        left. intros [|i] u u' Hu Hu'; [by simplify_eq/=|by apply (Heq i)]. }
      destruct Hdec as [Heq|]; [left|by right]. f_equal. apply (list_eq_same_length _ _ 17); [done|done|].
      intros i u u' _ Hu Hu'. by apply (Heq i).
Qed.

Lemma root_of_functional m h h' : root_of keccak m h → root_of keccak m h' → h = h'.
Proof.
  intros (t & Ht & Hm & ->) (t' & Ht' & Hm' & ->). f_equal.
  rewrite (models_canonical t t' m); [done| | |done|done]; [destruct Ht|destruct Ht']; unfold entry; auto.
Qed.

Lemma root_of_binding m m' h :
  keccak EmptyString = EmptyRootHash → small m → small m' →
  root_of keccak m h → root_of keccak m' h → m = m' ∨ collision keccak.
Proof.
  intros HE Hs Hs' (t & Ht & Hm & ->) (t' & Ht' & Hm' & E).
  assert (Hne : ∀ u, wf u → encTree u ≠ EmptyString).
  { intros u Hu Eu. destruct (wf_treeItem keccak u Hu) as [l El]. unfold TrieNode.encTree in Eu. rewrite El in Eu.
    cbn in Eu. unfold encList, puthead in Eu. case_if_in Eu; cbn in Eu; injection Eu as Eu; lia. }
  destruct Ht as [->|Hw], Ht' as [->|Hw'].
  - left. by eapply models_functional.
  - right. exists EmptyString, (encTree t'). split; [by symmetry; apply Hne|]. rewrite HE, E. destruct t'; [by inversion Hw'..|done|done].
  - right. exists (encTree t), EmptyString. split; [by apply Hne|]. rewrite HE, <- E. destruct t; [by inversion Hw..|done|done].
  - assert (E' : keccak (encTree t) = keccak (encTree t')).
    { destruct t; [by inversion Hw..| |]; (destruct t'; [by inversion Hw'..| |]); done. }
    destruct (decide (encTree t = encTree t')) as [Ee|Hn]; [|right; by eexists _, _].
    assert (St : sized t) by (by eapply models_sized). assert (St' : sized t') by (by eapply models_sized).
    destruct (treeItem_inj t t') as [->|]; [done..| | |by right].
    + apply encTree_treeItem; [by right; right|by right; right|done..].
    + left. by eapply models_functional.
Qed.

End Binding.

(** ** Theorems *)

(** A hash function and a database to run the definitions on: two leaves of more
    than 32 bytes, none of them in memory. *)
Definition toyHash (b : bytes) : bytes :=
  if decide (b = EmptyString) then EmptyRootHash else be_bytes 32 (be_value (1 :: b)).

#[global] Instance toyHash_ok : Keccak256 toyHash.
Proof. split; intros b; unfold toyHash; case_decide; apply length_be_bytes || apply be_bytes_ok. Qed.

Definition toyLeaf (x : Z) : tree := TShort [2; 16] (TVal (replicate 40 x)).
Definition toyTree : tree :=
  TFull [TNil; toyLeaf 5; TNil; toyLeaf 6; TNil; TNil; TNil; TNil; TNil; TNil; TNil; TNil; TNil; TNil; TNil; TNil; TNil].
Definition toyMap : gmap bytes bytes := {[ [0x12] := replicate 40 5; [0x32] := replicate 40 6 ]}.

Definition toyDb (path h : bytes) : option bytes :=
  match path with
  | [] => Some (encTree toyHash toyTree)
  | [x] => if x =? 1 then Some (encTree toyHash (toyLeaf 5)) else if x =? 3 then Some (encTree toyHash (toyLeaf 6)) else None
  | _ => None
  end.

Lemma toyLeaf_wf x : is_byte x → wf (toyLeaf x).
Proof.
  intros Hx. constructor; [exists [2]; split; [repeat constructor; lia|done]|]. split; [done|].
  by apply Forall_replicate.
Qed.

Lemma toyTree_wf : wf toyTree ∧ sized toyTree.
Proof.
  assert (H5 : wf (toyLeaf 5)) by (apply toyLeaf_wf; unfold is_byte; lia).
  assert (H6 : wf (toyLeaf 6)) by (apply toyLeaf_wf; unfold is_byte; lia). split.
  - apply wf_full_intro; [done| |].
    + intros i t Hi. do 17 (destruct i as [|i]; [cbn in Hi; injection Hi as <-; (left; split; [lia|by auto]) || (right; by auto)|]). done.
    + exists 1%nat, 3%nat, (toyLeaf 5), (toyLeaf 6). done.
  - constructor; [done|]. repeat constructor.
Qed.

Lemma toyTree_models : models toyTree toyMap ∧ small toyMap.
Proof.
  assert (Hm : ∀ key v, toyMap !! key = Some v ↔ key = [0x12] ∧ v = replicate 40 5 ∨ key = [0x32] ∧ v = replicate 40 6).
  { intros key v. unfold toyMap. rewrite lookup_insert_Some, lookup_singleton_Some. naive_solver. }
  split.
  - intros k v. setoid_rewrite Hm. split.
    + intros (c & r & t & -> & Hc & Ht & Hh)%has_full_inv.
      assert (Hcase : t = TNil ∨ c = 1 ∧ t = toyLeaf 5 ∨ c = 3 ∧ t = toyLeaf 6).
      { revert Ht. generalize (Z.to_nat c), (Z2Nat.id c Hc). intros i <- Hi.
        do 17 (destruct i as [|i]; [cbn in Hi; injection Hi as <-; by auto|]). done. }
      destruct Hcase as [->|[[-> ->]|[-> ->]]]; [by apply has_nil_inv in Hh|..];
        apply has_short_inv in Hh as (r' & -> & [-> ->]%has_val_inv).
      * exists [0x12]. split; [repeat constructor; unfold is_byte; lia|]. split; [done|by left].
      * exists [0x32]. split; [repeat constructor; unfold is_byte; lia|]. split; [done|by right].
    + intros (key & _ & -> & [[-> ->]|[-> ->]]).
      * apply (has_full _ 1 (toyLeaf 5) [2; 16]); [lia|done|]. apply (has_short [2; 16] _ []). constructor.
      * apply (has_full _ 3 (toyLeaf 6) [2; 16]); [lia|done|]. apply (has_short [2; 16] _ []). constructor.
  - intros key v H. apply Hm in H as [[-> ->]|[-> ->]]; (split; [repeat constructor; unfold is_byte; lia|done]).
Qed.

Lemma toyTree_stored : stored toyDb toyHash [] toyTree.
Proof.
  constructor; [done|]. intros i t Hi.
  do 17 (destruct i as [|i]; [cbn in Hi; injection Hi as <-; solve [constructor | constructor; [by intros _|constructor] ]|]). done.
Qed.

Lemma toyTrie : ∃ T, New toyDb (toyHash (encTree toyHash toyTree)) = Ok T ∧ trie_ok toyDb toyHash T toyMap.
Proof.
  destruct toyTree_wf as [H1 H2], toyTree_models as [H3 H4].
  apply (New_ok toyDb toyHash toyTree toyMap H1 H2 H3 H4 toyTree_stored);
    apply (bool_decide_unpack _); vm_compute; exact I.
Qed.

(** C3: the trie is a map.  On any trie in use, whatever part of it is still in
    the database, every sequence of lookups, updates (an empty value deletes),
    deletions and hashings runs without an error or a panic, each lookup returns
    what the map holds at that point, each hash is that of the map's canonical
    trie, and the trie ends up standing for the final map. *)
Theorem trie_refines_map reader keccak {HK : Keccak256 keccak} T m os :
  trie_ok reader keccak T m → Forall op_ok os →
  ∃ rs T', calls reader keccak T os = Some (rs, T') ∧ outs_ok keccak m os rs
    ∧ trie_ok reader keccak T' (foldl map_step m os).
Proof.
  intros Hok Hos. revert T m Hok. induction Hos as [|o os Ho _ IH]; intros T m Hok; [by exists [], T|].
  destruct (call_spec reader keccak T m o Hok Ho) as (r & T1 & E1 & Hr & Hok1).
  destruct (IH T1 _ Hok1) as (rs & T2 & E2 & Hrs & Hok2).
  exists (r :: rs), T2. cbn [calls]. rewrite E1. cbn [mbind option_bind]. by rewrite E2.
Qed.

Lemma trie_refines_map_witness :
  ∃ T rs T', trie_ok toyDb toyHash T toyMap
    ∧ calls toyDb toyHash T [Get [0x12]; Delete [0x12]; Hash; Get [0x12]] = Some (rs, T')
    ∧ outs_ok toyHash toyMap [Get [0x12]; Delete [0x12]; Hash; Get [0x12]] rs.
Proof.
  destruct toyTrie as (T & _ & Hok).
  destruct (trie_refines_map toyDb toyHash T toyMap [Get [0x12]; Delete [0x12]; Hash; Get [0x12]] Hok) as (rs & T' & H1 & H2 & _).
  { repeat constructor; unfold is_byte; lia. }
  exists T, rs, T'. exact (conj Hok (conj H1 H2)).
Defined.

(** C25: the root hash commits to the map.  Tries of the same map have the same
    root hash, whatever operations built them, whatever is cached and whatever
    database they sit on; and tries of different maps with the same root hash
    exhibit two byte strings with the same Keccak hash. *)
Theorem trie_root_commits keccak {HK : Keccak256 keccak} reader reader' T T' m m' h h' U U' :
  trie_ok reader keccak T m → trie_ok reader' keccak T' m' → keccak EmptyString = EmptyRootHash →
  trie_Hash keccak T = Some (h, U) → trie_Hash keccak T' = Some (h', U') →
  (m = m' → h = h') ∧ (h = h' → m = m' ∨ collision keccak).
Proof.
  intros Hok Hok' HE Hh Hh'.
  assert (Hroot : ∀ reader T m h U, trie_ok reader keccak T m → trie_Hash keccak T = Some (h, U) → root_of keccak m h).
  { clear -HK. intros reader T m h U Hok E. destruct (call_spec reader keccak T m Hash Hok I) as (r & T' & Ec & (h' & -> & Hr) & _).
    cbn in Ec. rewrite E in Ec. cbn in Ec. by injection Ec as -> _. }
  pose proof (Hroot _ _ _ _ _ Hok Hh) as Hr. pose proof (Hroot _ _ _ _ _ Hok' Hh') as Hr'. split.
  - intros ->. by eapply root_of_functional.
  - intros ->. apply (root_of_binding keccak m m' h'); [done|apply Hok|apply Hok'|done|done].
Qed.

Lemma hash_defined reader keccak {HK : Keccak256 keccak} T m :
  trie_ok reader keccak T m → ∃ h U, trie_Hash keccak T = Some (h, U).
Proof.
  intros Hok. destruct (call_spec reader keccak T m Hash Hok I) as (r & T' & E & _). cbn in E.
  destruct (trie_Hash keccak T) as [[h U]|]; [eauto|done].
Qed.

(** The same map read from the database and built in memory. *)
Lemma trie_root_commits_witness :
  ∃ T T' h h' U U', New toyDb (toyHash (encTree toyHash toyTree)) = Ok T
    ∧ trie_ok (λ _ _, None) toyHash T' toyMap
    ∧ trie_Hash toyHash T = Some (h, U) ∧ trie_Hash toyHash T' = Some (h', U') ∧ h = h'.
Proof.
  destruct toyTrie as (T & HN & Hok).
  destruct (call_spec (λ _ _, None) toyHash _ _ (Update [0x32] (replicate 40 6)) (empty_ok _ _)) as (r1 & T1 & _ & _ & Hok1).
  { repeat split; cbn; repeat constructor; unfold is_byte; lia. }
  destruct (call_spec (λ _ _, None) toyHash _ _ (Update [0x12] (replicate 40 5)) Hok1) as (r2 & T2 & _ & _ & Hok2).
  { repeat split; cbn; repeat constructor; unfold is_byte; lia. }
  destruct (hash_defined _ _ _ _ Hok) as (h & U & Hh). destruct (hash_defined _ _ _ _ Hok2) as (h' & U' & Hh').
  exists T, T2, h, h', U, U'. split; [exact HN|]. split; [exact Hok2|]. split; [exact Hh|]. split; [exact Hh'|].
  refine (proj1 (trie_root_commits toyHash toyDb (λ _ _, None) T T2 toyMap _ h h' U U' Hok Hok2 _ Hh Hh') _); reflexivity.
Defined.

End TrieMap.
