(* ===== verification/StackTrie.v ===== *)
(** * The stack trie and list roots

    [trie/stacktrie.go]: a trie that takes its keys in ascending order and hashes
    a subtree as soon as no later key can reach it; and [DeriveSha] of
    [core/types/hashing.go], which uses it for the transaction, receipt and
    withdrawal roots of a block.

    Slices come from pools in the source; the pools only recycle memory. *)

From Stdlib Require Import Sorting.Sorted.
From S2P Require Import Prelude Bytes RLP TrieKeys TrieNode TrieSpec Trie TrieMap.
Import RLP TrieKeys TrieNode TrieSpec Trie TrieMap.

Module StackTrie.
Set Warnings "-register-all".

(** ** Definitions *)

(** The node types; a branch has sixteen children. *)
Inductive stNode :=
| stEmpty
| stBranch (children : list (option stNode))
| stExt (key : bytes) (child : stNode)
| stLeaf (key val : bytes)
| stHashed (val : bytes).

(** The nodes handed to the [onTrieNode] callback: path, hash, blob. *)
Abbreviation commits := (list (bytes * bytes * bytes)) (only parsing).

Section Stack.
Context (keccak : bytes → bytes).

(** The end of [hash]: the value of the hashed node, and its commit. *)
Definition seal (path blob : bytes) : bytes * commits :=
  if (Z.of_nat (length blob) <? 32) && (0 <? Z.of_nat (length path)) then (blob, [])
  else (keccak blob, [(path, keccak blob, blob)]).

(** [hash]: the value the node has once it is of type [hashedNode]; [None] is a
    panic. *)
Fixpoint st_hash (st : stNode) (path : bytes) {struct st} : option (bytes * commits) :=
  match st with
  | stHashed val => Some (val, [])
  | stEmpty => Some (EmptyRootHash, [])
  | stBranch cs =>
      '(vals, out) ←
        (fix go (i : nat) (cs : list (option stNode)) : option (list bytes * commits) :=
           match cs with
           | [] => Some ([], [])
           | None :: cs => '(vals, out) ← go (S i) cs; Some ([] :: vals, out)
           | Some c :: cs =>
               '(v, o) ← st_hash c (path ++ [Z.of_nat i]);
               '(vals, out) ← go (S i) cs;
               Some (v :: vals, o ++ out)
           end) 0%nat cs;
      blob ← encodedBytes (fullnodeEncoder_encode emptyBuffer (vals ++ [[]]));
      let '(v, o) := seal path blob in Some (v, out ++ o)
  | stExt k c =>
      '(val, out) ← st_hash c (path ++ k);
      key ← hexToCompactInPlace k;
      blob ← encodedBytes (extNodeEncoder_encode emptyBuffer key val);
      let '(v, o) := seal path blob in Some (v, out ++ o)
  | stLeaf k val =>
      key ← hexToCompactInPlace (k ++ [16]);
      blob ← encodedBytes (leafNodeEncoder_encode emptyBuffer key val);
      Some (seal path blob)
  end.

(** [t.hash(n, path)] as a statement: the node afterwards. *)
Definition hashNow (st : stNode) (path : bytes) : option (stNode * commits) :=
  '(v, out) ← st_hash st path; Some (stHashed v, out).

(** [getDiffIndex]; [None]: the key is shorter than the chunk, a panic *)
Fixpoint getDiffIndex (chunk key : bytes) : option nat :=
  match chunk, key with
  | [], _ => Some 0%nat
  | _ :: _, [] => None
  | x :: chunk, y :: key => if x =? y then S <$> getDiffIndex chunk key else Some 0%nat
  end.

(** The nearest elder sibling is hashed. *)
Fixpoint hashElder (i : nat) (cs : list (option stNode)) (path : bytes) : option (list (option stNode) * commits) :=
  match i with
  | O => Some (cs, [])
  | S i =>
      match cs !! i with
      | Some (Some (stHashed _)) => Some (cs, [])
      | Some (Some c) =>
          '(c', out) ← hashNow c (path ++ [Z.of_nat i]);
          Some (<[i := Some c']> cs, out)
      | _ => hashElder i cs path
      end
  end.

Definition noChildren : list (option stNode) := replicate 16 None.

(** [insert]; the fuel bounds the depth, at most the length of the key. *)
Fixpoint st_insert (fuel : nat) (st : stNode) (key value path : bytes) : option (stNode * commits) :=
  match fuel with
  | O => None
  | S fuel =>
      match st with
      | stBranch cs =>
          match key with
          | [] => None
          | c :: key' =>
              let idx := Z.to_nat c in
              '(cs, out) ← hashElder idx cs path;
              child ← cs !! idx;
              match child with
              | None => Some (stBranch (<[idx := Some (stLeaf key' value)]> cs), out)
              | Some child =>
                  '(child', out') ← st_insert fuel child key' value (path ++ [c]);
                  Some (stBranch (<[idx := Some child']> cs), out ++ out')
              end
          end
      | stExt k child =>
          diffidx ← getDiffIndex k key;
          if (diffidx =? length k)%nat then
            '(child', out) ← st_insert fuel child (drop diffidx key) value (path ++ take diffidx key);
            Some (stExt k child', out)
          else
            '(n, out) ← (if (diffidx <? length k - 1)%nat
                         then hashNow (stExt (drop (diffidx + 1) k) child) (path ++ take (diffidx + 1) k)
                         else hashNow child (path ++ k));
            origIdx ← k !! diffidx;
            newIdx ← key !! diffidx;
            let p := stBranch (<[Z.to_nat newIdx := Some (stLeaf (drop (diffidx + 1) key) value)]>
                               (<[Z.to_nat origIdx := Some n]> noChildren)) in
            Some (if (diffidx =? 0)%nat then p else stExt (take diffidx k) p, out)
      | stLeaf k val =>
          diffidx ← getDiffIndex k key;
          if (length k <=? diffidx)%nat then None
          else
            '(n, out) ← hashNow (stLeaf (drop (diffidx + 1) k) val) (path ++ take (diffidx + 1) k);
            origIdx ← k !! diffidx;
            newIdx ← key !! diffidx;
            let p := stBranch (<[Z.to_nat newIdx := Some (stLeaf (drop (diffidx + 1) key) value)]>
                               (<[Z.to_nat origIdx := Some n]> noChildren)) in
            Some (if (diffidx =? 0)%nat then p else stExt (take diffidx k) p, out)
      | stEmpty => Some (stLeaf key value, [])
      | stHashed _ => None
      end
  end.

Record StackTrie := { stroot : stNode; lastKey : bytes; out : commits }.

Definition NewStackTrie : StackTrie := {| stroot := stEmpty; lastKey := []; out := [] |}.

(** [Reset]: the callback's past calls are not undone *)
Definition st_Reset (t : StackTrie) : StackTrie := {| stroot := stEmpty; lastKey := []; out := t.(out) |}.

Definition TrieKey (key : bytes) : bytes := removelast (keybytesToHex key).

Inductive stError := ErrEmptyValue | ErrKeyOrder.

(** [Update]; [None] is a panic, as on the empty key *)
Definition st_Update (t : StackTrie) (key value : bytes) : option (option stError * StackTrie) :=
  match value with
  | [] => Some (Some ErrEmptyValue, t)
  | _ =>
      match key with
      | [] => None
      | _ =>
          let k := writeHexKey key in
          match bytes_compare t.(lastKey) k with
          | Lt =>
              '(st, o) ← st_insert (S (length k)) t.(stroot) k value [];
              Some (None, {| stroot := st; lastKey := k; out := t.(out) ++ o |})
          | _ => Some (Some ErrKeyOrder, t)
          end
      end
  end.

Definition st_Hash (t : StackTrie) : option (bytes * StackTrie) :=
  '(v, o) ← st_hash t.(stroot) [];
  Some (v, {| stroot := stHashed v; lastKey := t.(lastKey); out := t.(out) ++ o |}).

(** ** [DeriveSha] *)

(** [hasher.Update]: the returned error is dropped *)
Definition deriveUpdate (t : StackTrie) (i : nat) (value : bytes) : option StackTrie :=
  snd <$> st_Update t (AppendUint64 [] (Z.of_nat i)) value.

(** The loop [for i := from; i < to; i++] over the encoded elements. *)
Fixpoint deriveLoop (n : nat) (i : nat) (l : list bytes) (t : StackTrie) : option StackTrie :=
  match n with
  | O => Some t
  | S n => v ← l !! i; t ← deriveUpdate t i v; deriveLoop n (S i) l t
  end.

(** [l] holds the encodings [EncodeIndex] gives for the elements. *)
Definition DeriveSha (l : list bytes) (hasher : StackTrie) : option bytes :=
  let len := length l in
  t ← deriveLoop (Nat.min len 128 - 1) 1 l (st_Reset hasher);
  t ← (if (0 <? len)%nat then v ← l !! 0%nat; deriveUpdate t 0 v else Some t);
  t ← deriveLoop (len - 128) 128 l t;
  fst <$> st_Hash t.

(** ** What a node stands for *)

Context {HK : Keccak256 keccak}.
Local Abbreviation encTree := (encTree keccak).
Local Abbreviation refBytes := (refBytes keccak).

(** Every node of the tree that has a hash of its own was handed out. *)
Inductive covered (D : commits) : bytes → tree → Prop :=
| cov_nil p : covered D p TNil
| cov_val p v : covered D p (TVal v)
| cov_short p k t :
    (p = [] ∨ 32 <= Z.of_nat (length (encTree (TShort k t))) →
     (p, keccak (encTree (TShort k t)), encTree (TShort k t)) ∈ D) →
    covered D (p ++ k) t → covered D p (TShort k t)
| cov_full p ts :
    (p = [] ∨ 32 <= Z.of_nat (length (encTree (TFull ts))) →
     (p, keccak (encTree (TFull ts)), encTree (TFull ts)) ∈ D) →
    (∀ i t, ts !! i = Some t → covered D (p ++ [Z.of_nat i]) t) → covered D p (TFull ts).

Inductive strep (D : commits) : bytes → stNode → tree → Prop :=
| sr_leaf p k v : nibbles_ok k → strep D p (stLeaf k v) (TShort (k ++ [16]) (TVal v))
| sr_ext p k c t : strep D (p ++ k) c t → strep D p (stExt k c) (TShort k t)
| sr_branch p cs ts :
    length cs = 16%nat → length ts = 16%nat →
    (∀ i t, cs !! i = Some None → ts !! i = Some t → t = TNil) →
    (∀ i c t, cs !! i = Some (Some c) → ts !! i = Some t → strep D (p ++ [Z.of_nat i]) c t) →
    strep D p (stBranch cs) (TFull (ts ++ [TNil]))
| sr_hashed p t : p ≠ [] → wf t → sized t → covered D p t → strep D p (stHashed (refBytes false t)) t.

Lemma covered_mono D D' p t : D ⊆ D' → covered D p t → covered D' p t.
Proof. intros Hs. induction 1; constructor; eauto. Qed.

Lemma strep_mono D D' p st t : D ⊆ D' → strep D p st t → strep D' p st t.
Proof. intros Hs. induction 1; econstructor; eauto using covered_mono. Qed.

Lemma sub_l D (o : commits) : D ⊆ D ++ o.
Proof. set_solver. Qed.

(** The entries of the tree determine which children exist. *)
Lemma strep_wf_node D p st t : strep D p st t → wf t → st ≠ stEmpty.
Proof. by destruct 1. Qed.

Lemma seal_spec p t :
  let blob := encTree t in
  seal p blob = (refBytes (bool_decide (p = [])) t,
                 if (Z.of_nat (length blob) <? 32) && negb (bool_decide (p = [])) then [] else [(p, keccak blob, blob)]).
Proof.
  cbv zeta. unfold seal, TrieNode.refBytes.
  assert (E : (0 <? Z.of_nat (length p)) = negb (bool_decide (p = []))).
  { destruct p; [done|]. rewrite bool_decide_false by done. apply Z.ltb_lt. cbn. lia. }
  rewrite E. by case_if.
Qed.

(** The commit covers the node itself. *)
Lemma seal_covers p t D :
  p = [] ∨ 32 <= Z.of_nat (length (encTree t)) →
  (p, keccak (encTree t), encTree t) ∈ D ++ (seal p (encTree t)).2.
Proof.
  intros Hp. rewrite (seal_spec p t). cbn [snd]. apply elem_of_app. right.
  assert (E : (Z.of_nat (length (encTree t)) <? 32) && negb (bool_decide (p = [])) = false).
  { destruct Hp as [->|Hl]; [by rewrite andb_false_r|]. by rewrite (proj2 (Z.ltb_ge _ _)). }
  rewrite E. by left.
Qed.

(** The loop of [hash] over a branch. *)
Section HashBranch.
Context (path : bytes).

Fixpoint hashBranch (i : nat) (cs : list (option stNode)) : option (list bytes * commits) :=
  match cs with
  | [] => Some ([], [])
  | None :: cs => '(vals, out) ← hashBranch (S i) cs; Some ([] :: vals, out)
  | Some c :: cs =>
      '(v, o) ← st_hash c (path ++ [Z.of_nat i]);
      '(vals, out) ← hashBranch (S i) cs;
      Some (v :: vals, o ++ out)
  end.

End HashBranch.

Lemma st_hash_branch cs path :
  st_hash (stBranch cs) path =
  '(vals, out) ← hashBranch path 0 cs;
  blob ← encodedBytes (fullnodeEncoder_encode emptyBuffer (vals ++ [[]]));
  let '(v, o) := seal path blob in Some (v, out ++ o).
Proof. done. Qed.

Definition hash_post (D : commits) (p : bytes) (st : stNode) (t : tree) : Prop :=
  ∃ o, st_hash st p = Some (refBytes (bool_decide (p = [])) t, o) ∧ covered (D ++ o) p t.

Lemma hashBranch_spec D p i cs ts :
  length cs = length ts →
  (∀ j t, cs !! j = Some None → ts !! j = Some t → t = TNil) →
  (∀ j c t, cs !! j = Some (Some c) → ts !! j = Some t → strep D (p ++ [Z.of_nat (i + j)]) c t) →
  Forall (λ t, (t = TNil ∨ wf t) ∧ sized t) ts →
  Forall (λ t, wf t → ∀ p st, strep D p st t → hash_post D p st t) ts →
  ∃ vals o, hashBranch p i cs = Some (vals, o) ∧ length vals = length ts
    ∧ (∀ j t r, ts !! j = Some t → vals !! j = Some r → t = TNil ∧ r = [] ∨ wf t ∧ r = refBytes false t)
    ∧ (∀ j t, ts !! j = Some t → covered (D ++ o) (p ++ [Z.of_nat (i + j)]) t).
Proof.
  revert i ts. induction cs as [|c cs IH]; intros i [|t ts] Hl Hn Hr Hw Hh; try done.
  { exists [], []. split_and!; [done|done|intros; done|intros; done]. }
  apply Forall_cons in Hh as [Hh Hhs]. apply Forall_cons in Hw as [[Hwt Hst] Hws].
  destruct (IH (S i) ts) as (vals & o & E & Hlv & Hv & Hc); [cbn in Hl; lia|intros j t' Hj Ht'; apply (Hn (S j) t' Hj Ht')| |done|done|].
  { intros j c' t' Hj Ht'. specialize (Hr (S j) c' t' Hj Ht'). by replace (S i + j)%nat with (i + S j)%nat by lia. }
  destruct c as [c|].
  - pose proof (Hr 0%nat c t eq_refl eq_refl) as Hrc. rewrite Nat.add_0_r in Hrc.
    assert (Hwt' : wf t).
    { destruct Hwt as [->|?]; [|done]. inversion Hrc as [| | |? ? ? Hbad]; subst. by inversion Hbad. }
    destruct (Hh Hwt' _ _ Hrc) as (o1 & E1 & Hc1). rewrite bool_decide_false in E1 by (by destruct p).
    cbn [hashBranch]. rewrite E1. cbn [mbind option_bind]. rewrite E. cbn [mbind option_bind].
    exists (refBytes false t :: vals), (o1 ++ o). split_and!; [done|cbn; lia| |].
    + intros [|j] t' r; cbn; [intros [= <-] [= <-]; by right|apply Hv].
    + intros [|j] t'; cbn.
      * intros [= <-]. rewrite Nat.add_0_r. eapply covered_mono; [|exact Hc1]. set_solver.
      * intros Ht'. replace (i + S j)%nat with (S i + j)%nat by lia. eapply covered_mono; [|by apply Hc]. set_solver.
  - pose proof (Hn 0%nat t eq_refl eq_refl) as ->. cbn [hashBranch]. rewrite E. cbn [mbind option_bind].
    exists ([] :: vals), o. split_and!; [done|cbn; lia| |].
    + intros [|j] t' r; cbn; [intros [= <-] [= <-]; by left|apply Hv].
    + intros [|j] t'; cbn; [intros [= <-]; constructor|].
      intros Ht'. replace (i + S j)%nat with (S i + j)%nat by lia. by apply Hc.
Qed.

(** [hash] of a node gives the reference of its tree, and every node of the tree
    has been handed out afterwards. *)
Lemma st_hash_spec D t : wf t → sized t → ∀ p st, strep D p st t → hash_post D p st t.
Proof.
  induction t as [|v|k t IH|ts IH] using tree_ind'; intros Hw Hs p st Hr; [by inversion Hw..| |].
  - inversion Hr as [? k0 v Hk0|? ? c ? Hc| |? ? Hp _ _ Hcov]; subst.
    + cbn [st_hash]. unfold hash_post.
      pose proof (hexToCompactInPlace_eq k0 true Hk0 ltac:(by destruct k0)) as Hip. cbn [st_hash]. rewrite Hip. cbn [mbind option_bind].
      rewrite (leaf_encoding keccak) by done. cbn [mbind option_bind].
      destruct (seal p (encTree (TShort (k0 ++ [16]) (TVal v)))) as [r o] eqn:Es.
      pose proof (seal_spec p (TShort (k0 ++ [16]) (TVal v))) as Hsp. cbv zeta in Hsp. rewrite Es in Hsp.
      exists o. split; [by injection Hsp as -> _|].
      constructor; [|constructor]. intros Hp. pose proof (seal_covers p _ D Hp) as Hin. by rewrite Es in Hin.
    + destruct (wf_short_inv _ _ Hw) as [(v & _ & -> & _)|(Hk & Hkn & Hwt & ts & ->)].
      { inversion Hc as [| | |? ? ? Hbad]; subst. by inversion Hbad. }
      inversion Hs as [| |? ? _ Hst|]; subst.
      destruct (IH Hwt Hst (p ++ k) c Hc) as (o1 & E1 & Hc1).
      rewrite bool_decide_false in E1 by (by intros [_ ?]%app_eq_nil).
      unfold hash_post. cbn [st_hash]. rewrite E1. cbn [mbind option_bind].
      pose proof (hexToCompactInPlace_eq k false Hkn) as Hip. rewrite app_nil_r in Hip. rewrite Hip by done.
      cbn [mbind option_bind]. rewrite (ext_encoding keccak) by done. cbn [mbind option_bind].
      destruct (seal p (encTree (TShort k (TFull ts)))) as [r o] eqn:Es.
      pose proof (seal_spec p (TShort k (TFull ts))) as Hsp. cbv zeta in Hsp. rewrite Es in Hsp.
      exists (o1 ++ o). split; [by injection Hsp as -> _|].
      constructor; [|eapply covered_mono; [|exact Hc1]; set_solver].
      intros Hp. pose proof (seal_covers p _ D Hp) as Hin. rewrite Es in Hin. cbn in Hin. set_solver.
    + exists []. rewrite bool_decide_false by done. rewrite app_nil_r. by split.
  - inversion Hr as [|? ? ? ? Hc|? cs ts' Hlc Hlt Hn Hcs|? ? Hp _ _ Hcov]; subst.
    + destruct (wf_full_inv _ Hw) as (cs0 & o0 & E0 & H16 & Hcs0 & _ & _).
      apply app_inj_tail in E0 as [<- Eo].
      assert (Hchildren : Forall (λ t, (t = TNil ∨ wf t) ∧ sized t) ts').
      { apply Forall_forall. intros t Ht. split; [rewrite Forall_forall in Hcs0; auto|].
        eapply sized_lookup; [exact Hs|]. apply elem_of_app. by left. }
      destruct (hashBranch_spec D p 0 cs ts') as (vals & o1 & E1 & Hlv & Hv & Hcv); [lia|done|done|done| |].
      { apply Forall_forall. intros t Ht Hwt. rewrite Forall_forall in IH, Hchildren. apply IH; [|done|by apply Hchildren].
        apply elem_of_app. by left. }
      unfold hash_post. rewrite st_hash_branch, E1. cbn [mbind option_bind].
      rewrite (full_encoding keccak (ts' ++ [TNil])); [|done|done|rewrite length_app; cbn; lia|].
      * cbn [mbind option_bind]. destruct (seal p (encTree (TFull (ts' ++ [TNil])))) as [r o] eqn:Es.
        pose proof (seal_spec p (TFull (ts' ++ [TNil]))) as Hsp. cbv zeta in Hsp. rewrite Es in Hsp.
        exists (o1 ++ o). split; [by injection Hsp as -> _|]. constructor.
        -- intros Hp. pose proof (seal_covers p _ D Hp) as Hin. rewrite Es in Hin. cbn in Hin. set_solver.
        -- intros i t Hi. destruct (decide (i < 16)%nat).
           ++ rewrite lookup_app_l in Hi by lia. eapply covered_mono; [|by apply (Hcv i)]. set_solver.
           ++ rewrite lookup_app_r in Hi by lia. apply list_lookup_singleton_Some in Hi as [_ <-]. constructor.
      * intros i t r Ht Hr'. destruct (decide (i < 16)%nat).
        -- left. split; [done|]. rewrite lookup_app_l in Ht by lia; rewrite lookup_app_l in Hr' by lia. by apply (Hv i).
        -- right. rewrite lookup_app_r in Ht by lia; rewrite lookup_app_r in Hr' by lia.
           apply list_lookup_singleton_Some in Ht as [Hi <-]. apply list_lookup_singleton_Some in Hr' as [_ <-].
           split_and!; [lia|by left|by inversion 1|done].
    + exists []. rewrite bool_decide_false by done. rewrite app_nil_r. by split.
Qed.

Lemma hashNow_spec D t p st :
  wf t → sized t → p ≠ [] → strep D p st t →
  ∃ o n, hashNow st p = Some (n, o) ∧ strep (D ++ o) p n t.
Proof.
  intros Hw Hs Hp Hr. destruct (st_hash_spec D t Hw Hs p st Hr) as (o & E & Hc).
  rewrite bool_decide_false in E by done. unfold hashNow. rewrite E. cbn. eexists o, _. split; [done|]. by constructor.
Qed.

(** ** Insertion on the right *)

(** The path to the last key is not hashed, and nothing is to its right. *)
Inductive frontier : stNode → bytes → Prop :=
| fr_leaf k v : frontier (stLeaf k v) k
| fr_ext k c r : frontier c r → frontier (stExt k c) (k ++ r)
| fr_branch cs c s r :
    0 <= c < 16 → cs !! Z.to_nat c = Some (Some s) → frontier s r →
    (∀ i x, (Z.to_nat c < i)%nat → cs !! i = Some x → x = None) → frontier (stBranch cs) (c :: r).

Lemma compare_app q a b : bytes_compare (q ++ a) (q ++ b) = bytes_compare a b.
Proof. induction q as [|x q IH]; cbn; [done|]. by rewrite Z.compare_refl. Qed.

Lemma compare_cons_lt x y a b : bytes_compare (x :: a) (y :: b) = Lt → x ≠ y → x < y.
Proof. cbn. intros H Hne. destruct (Z.compare_spec x y); [done|done|done]. Qed.

(** [key] comes after [last] and does not extend it. *)
Definition after (last key : bytes) : Prop := bytes_compare last key = Lt ∧ ∀ r, key ≠ last ++ r.

Lemma after_app q a b : after (q ++ a) (q ++ b) → after a b.
Proof.
  intros [Hc Hp]. rewrite compare_app in Hc. split; [done|]. intros r ->. by apply (Hp r); rewrite app_assoc.
Qed.

(** Where a chunk that starts the last key and a later key part. *)
Lemma getDiffIndex_spec chunk r key :
  after (chunk ++ r) key →
  ∃ q, (chunk = q ∧ (∃ key', key = q ++ key' ∧ after r key') ∧ getDiffIndex chunk key = Some (length q))
    ∨ ∃ x s y key', chunk = q ++ x :: s ∧ key = q ++ y :: key' ∧ x < y ∧ getDiffIndex chunk key = Some (length q).
Proof.
  revert key. induction chunk as [|x chunk IH]; intros key Ha.
  { exists []. left. split; [done|]. split; [by exists key|done]. }
  destruct key as [|y key]; [by destruct Ha|]. cbn [getDiffIndex]. destruct (Z.eqb_spec x y) as [->|Hne].
  - destruct (IH key) as (q & [(-> & (key' & -> & Ha') & E)|(x' & s & y' & key' & -> & -> & Hlt & E)]).
    { apply (after_app [y]). done. }
    + exists (y :: q). left. split; [done|]. split; [by exists key'|]. by rewrite E.
    + exists (y :: q). right. exists x', s, y', key'. split_and!; [done..|]. by rewrite E.
  - exists []. right. exists x, chunk, y, key. split_and!; [done..| |done].
    destruct Ha as [Hc _]. by apply compare_cons_lt in Hc.
Qed.

(** A child of a branch in its new place. *)
Lemma strep_branch_insert D p cs ts i c t :
  strep D p (stBranch cs) (TFull (ts ++ [TNil])) → (i < 16)%nat →
  strep D (p ++ [Z.of_nat i]) c t →
  strep D p (stBranch (<[i := Some c]> cs)) (TFull (<[i := t]> ts ++ [TNil])).
Proof.
  intros Hr Hi Hc. inversion Hr as [| |? ? ts' Hlc Hlt Hn Hcs|]; subst.
  match goal with E : _ ++ [TNil] = _ ++ [TNil] |- _ => apply app_inj_tail in E as [-> _] end.
  constructor; [by rewrite length_insert..| |].
  - intros j t' Hj Ht'. apply list_lookup_insert_Some in Hj as [(_ & [=] & _)|[Hne Hj]].
    rewrite list_lookup_insert_ne in Ht' by done. eauto.
  - intros j c' t' Hj Ht'. apply list_lookup_insert_Some in Hj as [(<- & [= <-] & _)|[Hne Hj]].
    + rewrite list_lookup_insert_eq in Ht' by lia. by injection Ht' as <-.
    + rewrite list_lookup_insert_ne in Ht' by done. eauto.
Qed.

Lemma strep_branch_inv D p cs ts :
  strep D p (stBranch cs) (TFull ts) →
  ∃ ts', ts = ts' ++ [TNil] ∧ length cs = 16%nat ∧ length ts' = 16%nat
    ∧ (∀ i t, cs !! i = Some None → ts' !! i = Some t → t = TNil)
    ∧ (∀ i c t, cs !! i = Some (Some c) → ts' !! i = Some t → strep D (p ++ [Z.of_nat i]) c t).
Proof. inversion 1; subst. eauto 10. Qed.

Lemma strep_wf_child D p c t : strep D p c t → t = TNil ∨ wf t → wf t.
Proof.
  intros Hr [->|?]; [|done]. inversion Hr as [| | |? ? ? Hbad]; subst. by inversion Hbad.
Qed.

(** Hashing the nearest elder sibling changes nothing to the right of it. *)
Lemma hashElder_spec D p cs ts i :
  strep D p (stBranch cs) (TFull ts) → wf (TFull ts) → sized (TFull ts) → (i <= 16)%nat →
  ∃ cs' o, hashElder i cs p = Some (cs', o) ∧ strep (D ++ o) p (stBranch cs') (TFull ts)
    ∧ ∀ j, (i <= j)%nat → cs' !! j = cs !! j.
Proof.
  intros Hr Hw Hs. destruct (strep_branch_inv _ _ _ _ Hr) as (ts' & -> & Hlc & Hlt & Hn & Hcs).
  induction i as [|i IH]; intros Hi; cbn [hashElder].
  { exists cs, []. rewrite app_nil_r. by split_and!. }
  destruct (lookup_lt_is_Some_2 cs i) as [[c|] Hc]; [lia| |].
  - rewrite Hc. destruct (lookup_lt_is_Some_2 ts' i) as [t Ht]; [lia|].
    assert (Htt : (ts' ++ [TNil]) !! i = Some t) by (by apply lookup_app_l_Some).
    pose proof (Hcs i c t Hc Ht) as Hrc.
    assert (Hcase : (∃ v, c = stHashed v) ∨ ∀ v, c ≠ stHashed v) by (destruct c; eauto).
    destruct Hcase as [(v & ->)|Hnh].
    { exists cs, []. rewrite app_nil_r. by split_and!. }
    assert (Hwt : wf t).
    { destruct (wf_full_lookup _ _ _ Hw Htt) as [[_ Ht']|[-> _]]; [|lia]. by eapply strep_wf_child. }
    assert (Hst : sized t) by (eapply sized_lookup; [done|by eapply list_elem_of_lookup_2]).
    destruct (hashNow_spec D t (p ++ [Z.of_nat i]) c Hwt Hst) as (o & n & E & Hrn); [by destruct p|done|].
    exists (<[i := Some n]> cs), o. split; [destruct c; try (by rewrite E); by destruct (Hnh val)|]. split.
    + rewrite <- (list_insert_id ts' i t) by done. apply strep_branch_insert; [|lia|done].
      eapply strep_mono; [apply sub_l|done].
    + intros j Hj. rewrite list_lookup_insert_ne by lia. done.
  - rewrite Hc. destruct IH as (cs' & o & E & Hr' & Hkeep); [lia|]. exists cs', o. split_and!; [done|done|].
    intros j Hj. apply Hkeep. lia.
Qed.

Definition insert_post (D : commits) (p : bytes) (m : option (stNode * commits)) (t : tree) (key v : bytes) : Prop :=
  ∃ st o t', m = Some (st, o) ∧ strep (D ++ o) p st t' ∧ wf t' ∧ upd t (key ++ [16]) v t' ∧ frontier st key
    ∧ (isFull t → isFull t').

Lemma upd_nil k v : upd TNil k v (TShort k (TVal v)).
Proof.
  intros K w. rewrite has_short_inv. split.
  - intros (r & -> & [-> ->]%has_val_inv). rewrite app_nil_r. by left.
  - intros [[-> ->]|[_ ?%has_nil_inv]]; [|done]. exists []. rewrite app_nil_r. split; [done|constructor].
Qed.

(** The sixteen children of the branch that splits two keys. *)
Lemma splitTree_16 x y tx ty :
  0 <= x < 16 → 0 <= y < 16 →
  splitTree x y tx ty = <[Z.to_nat y := ty]> (<[Z.to_nat x := tx]> (replicate 16 TNil)) ++ [TNil].
Proof.
  intros Hx Hy. unfold splitTree. change (replicate 17 TNil) with (replicate 16 TNil ++ [TNil]).
  rewrite !insert_app_l; [done|rewrite ?length_insert, length_replicate; lia..].
Qed.

(** Splitting a chunk: the old part is hashed, the new part is a leaf. *)
Lemma split_post D p q x k y key t v n o :
  wf (TShort (q ++ x :: k) t) → is_nibble x → nibbles_ok (q ++ y :: key) → x < y → value_ok v →
  strep (D ++ o) (p ++ q ++ [x]) n (graft k t) →
  let b := stBranch (<[Z.to_nat y := Some (stLeaf key v)]> (<[Z.to_nat x := Some n]> noChildren)) in
  insert_post D p (Some (if (length q =? 0)%nat then b else stExt q b, o)) (TShort (q ++ x :: k) t) (q ++ y :: key) v.
Proof.
  intros Hw [Hx0 Hx1] Hk Hlt Hv Hn. cbv zeta.
  pose proof Hk as Hk0. apply Forall_app in Hk0 as [Hqn Hk0]. apply Forall_cons in Hk0 as [[Hy0 Hy1] Hkn].
  destruct (split_upd q x k y (key ++ [16]) t v Hw) as (_ & _ & Hwf & Hu); [|lia|done|].
  { exists (q ++ y :: key). split; [done|]. by rewrite <- app_assoc. }
  rewrite splitTree_16 in Hwf, Hu by lia.
  assert (El : graft (key ++ [16]) (TVal v) = TShort (key ++ [16]) (TVal v)) by (by destruct key).
  rewrite El in Hwf, Hu.
  set (b := stBranch _). set (t' := graft q _) in *. exists (if (length q =? 0)%nat then b else stExt q b), o, t'.
  assert (Hb : strep (D ++ o) (p ++ q) b (TFull (<[Z.to_nat y := TShort (key ++ [16]) (TVal v)]> (<[Z.to_nat x := graft k t]> (replicate 16 TNil)) ++ [TNil]))).
  { apply strep_branch_insert; [|lia|rewrite Z2Nat.id by lia; by constructor].
    apply strep_branch_insert; [|lia|rewrite Z2Nat.id, <- app_assoc by lia; done].
    constructor; [done|done|..].
    - intros i t1 _ Ht. by apply lookup_replicate in Ht as [-> _].
    - intros i c t1 Hc. by apply lookup_replicate in Hc as [[=] _]. }
  assert (Hf : frontier b (y :: key)).
  { econstructor; [lia|apply list_lookup_insert_eq; rewrite length_insert; cbn; lia|constructor|].
    intros i z Hi Hz. rewrite !list_lookup_insert_ne in Hz by lia. by apply lookup_replicate in Hz as [-> _]. }
  assert (Hkey : (q ++ y :: key) ++ [16] = q ++ y :: key ++ [16]) by (by rewrite <- app_assoc). unfold t' in *.
  destruct q as [|q0 q]; cbn [length Nat.eqb graft].
  - rewrite app_nil_r in Hb. by split_and!.
  - split_and!; [done|by constructor|done| | |done].
    + rewrite Hkey. done.
    + by constructor.
Qed.

Lemma drop_take_middle (q : bytes) x s :
  drop (length q + 1) (q ++ x :: s) = s ∧ take (length q + 1) (q ++ x :: s) = q ++ [x].
Proof.
  rewrite (cons_middle x q s), app_assoc. replace (length q + 1)%nat with (length (q ++ [x])) by (rewrite length_app; done).
  by rewrite drop_app_length, take_app_length.
Qed.

(** The old part of an extension below the nibble where the keys part. *)
Lemma hash_rest D p q x s c t :
  wf (TShort (q ++ x :: s) t) → sized (TShort (q ++ x :: s) t) → isFull t → strep D (p ++ q ++ x :: s) c t →
  ∃ n o, (if (length q <? length (q ++ x :: s) - 1)%nat
          then hashNow (stExt (drop (length q + 1) (q ++ x :: s)) c) (p ++ take (length q + 1) (q ++ x :: s))
          else hashNow c (p ++ q ++ x :: s)) = Some (n, o)
    ∧ strep (D ++ o) (p ++ q ++ [x]) n (graft s t).
Proof.
  intros Hw Hs Hfull Hc. destruct (drop_take_middle q x s) as [-> ->].
  inversion Hs as [| |? ? Hl Hst|]; subst.
  destruct (wf_short_inv _ _ Hw) as [(v & _ & -> & _)|(_ & Hk & Hwt & ts & ->)]; [done|].
  apply Forall_app in Hk as [_ Hk]. apply Forall_cons in Hk as [_ Hk]. rewrite length_app in Hl |- *. cbn [length] in *.
  destruct s as [|s0 s].
  - replace (length q <? _)%nat with false by (symmetry; apply Nat.ltb_ge; cbn; lia).
    destruct (hashNow_spec D (TFull ts) (p ++ q ++ [x]) c) as (o & n & E & Hn); [done|done|by destruct p, q|done|]. eauto.
  - replace (length q <? _)%nat with true by (symmetry; apply Nat.ltb_lt; cbn; lia).
    destruct (hashNow_spec D (TShort (s0 :: s) (TFull ts)) (p ++ q ++ [x]) (stExt (s0 :: s) c)) as (o & n & E & Hn).
    + by constructor.
    + constructor; [cbn [length] in *; lia|done].
    + by destruct p, q.
    + constructor. by rewrite <- !app_assoc.
    + eauto.
Qed.

Lemma st_insert_spec D fuel st p last key t v :
  strep D p st t → wf t → sized t → frontier st last → after last key → nibbles_ok key → value_ok v →
  (length key < fuel)%nat → insert_post D p (st_insert fuel st key v p) t key v.
Proof.
  revert D st p last key t. induction fuel as [|fuel IH]; intros D st p last key t Hr Hw Hs Hf Ha Hk Hv Hfuel; [lia|].
  destruct Hf as [k val|k c r Hf|cs c s r Hc Hlook Hf Hright]; cbn [st_insert].
  - inversion Hr as [? ? ? Hkn| | |]; subst.
    destruct (getDiffIndex_spec k [] key) as (q & [(-> & (key' & -> & _) & _)|(x & s & y & key' & -> & -> & Hlt & ->)]); [by rewrite app_nil_r| |].
    { exfalso. by apply (proj2 Ha key'). }
    cbn [mbind option_bind]. rewrite length_app. cbn [length].
    replace (length q + S (length s) <=? length q)%nat with false by (symmetry; apply Nat.leb_gt; lia).
    destruct (drop_take_middle q x s) as [-> ->]. destruct (drop_take_middle q y key') as [-> _].
    apply Forall_app in Hkn as [Hqn Hkn]. apply Forall_cons in Hkn as [Hx Hsn].
    rewrite <- app_assoc in Hw, Hs |- *. cbn [app] in Hw, Hs |- *.
    assert (Hwl : wf (TShort (s ++ [16]) (TVal val))).
    { apply wf_short_inv in Hw as [(w & _ & [= <-] & Hw)|(_ & _ & _ & ts & [=])]. constructor; [by exists s|done]. }
    inversion Hs as [| |? ? Hl Hst|]; subst. rewrite length_app in Hl. cbn [length] in Hl.
    destruct (hashNow_spec D (TShort (s ++ [16]) (TVal val)) (p ++ q ++ [x]) (stLeaf s val)) as (o & n & E & Hn).
    { done. } { constructor; [lia|done]. } { by destruct p, q. } { by constructor. }
    rewrite E. cbn [mbind option_bind]. rewrite !list_lookup_middle by done. cbn [mbind option_bind]. rewrite take_app_length.
    assert (Hpost := split_post D p q x (s ++ [16]) y key' (TVal val) v n o Hw Hx Hk Hlt Hv).
    apply Hpost. by destruct s.
  - inversion Hr as [|? ? ? ? Hc| |]; subst.
    destruct (wf_short_inv _ _ Hw) as [(w & _ & -> & _)|(Hkne & Hkn & Hwt & ts & ->)].
    { inversion Hc as [| | |? ? ? Hbad]; subst. by inversion Hbad. }
    inversion Hs as [| |? ? _ Hst|]; subst.
    destruct (getDiffIndex_spec k r key Ha) as (q & [(-> & (key' & -> & Ha') & ->)|(x & s & y & key' & -> & -> & Hlt & ->)]).
    + cbn [mbind option_bind]. rewrite Nat.eqb_refl, drop_app_length, take_app_length.
      apply Forall_app in Hk as [_ Hk'].
      destruct (IH D c (p ++ q) r key' (TFull ts)) as (st' & o & t' & E & Hr' & Hw' & Hu & Hf' & Hfull); [done..| |].
      { rewrite length_app in Hfuel. destruct q; [done|cbn in Hfuel; lia]. }
      rewrite E. cbn [mbind option_bind]. exists (stExt q st'), o, (TShort q t'). split_and!.
      * done.
      * by constructor.
      * destruct t'; try (by destruct (Hfull I)). by constructor.
      * rewrite <- app_assoc. by apply upd_short.
      * by constructor.
      * done.
    + cbn [mbind option_bind].
      replace (length q =? _)%nat with false by (symmetry; apply Nat.eqb_neq; rewrite length_app; cbn; lia).
      destruct (hash_rest D p q x s c (TFull ts) Hw Hs I Hc) as (n & o & E & Hn). rewrite E. cbn [mbind option_bind].
      rewrite !list_lookup_middle by done. cbn [mbind option_bind]. rewrite take_app_length.
      destruct (drop_take_middle q y key') as [-> _].
      apply Forall_app in Hkn as [_ Hkn]. apply Forall_cons in Hkn as [Hx _].
      by apply (split_post D p q x s y key' (TFull ts) v n o).
  - destruct t as [| | |ts]; [by inversion Hr as [| | |? ? ? Hbad]; subst; inversion Hbad..|].
    destruct key as [|d key]; [by destruct Ha|]. apply Forall_cons in Hk as [[Hd0 Hd1] Hk].
    destruct (hashElder_spec D p cs ts (Z.to_nat d)) as (cs' & o & E & Hr' & Hkeep); [done..|lia|].
    rewrite E. cbn [mbind option_bind]. pose proof (Hkeep (Z.to_nat d) ltac:(lia)) as Hcd. rewrite Hcd.
    destruct (strep_branch_inv _ _ _ _ Hr') as (ts' & -> & Hlc & Hlt & Hn & Hcs).
    destruct (lookup_lt_is_Some_2 ts' (Z.to_nat d)) as [td Htd]; [lia|].
    assert (Htd' : (ts' ++ [TNil]) !! Z.to_nat d = Some td) by (by apply lookup_app_l_Some).
    assert (Hhex : hexkey (d :: key ++ [16])).
    { exists (d :: key). split; [by constructor|done]. }
    assert (Hwd : td = TNil ∨ wf td) by (destruct (wf_full_lookup _ _ _ Hw Htd') as [[_ ?]|[? _]]; [done|lia]).
    assert (Hbuild : ∀ st' o' t', strep (D ++ o ++ o') (p ++ [d]) st' t' → wf t' → upd td (key ++ [16]) v t' → frontier st' key →
        (∀ i x, (Z.to_nat d < i)%nat → cs' !! i = Some x → x = None) →
        insert_post D p (Some (stBranch (<[Z.to_nat d := Some st']> cs'), o ++ o')) (TFull (ts' ++ [TNil])) (d :: key) v).
    { intros st' o' t' Hst' Hwt' Hut Hft Hrt. eexists _, _, (TFull (<[Z.to_nat d := t']> ts' ++ [TNil])). split; [done|].
      assert (Ei : <[Z.to_nat d := t']> (ts' ++ [TNil]) = <[Z.to_nat d := t']> ts' ++ [TNil]) by (apply insert_app_l; lia).
      split_and!.
      - apply strep_branch_insert; [|lia|by rewrite Z2Nat.id]. eapply strep_mono; [|exact Hr']. set_solver.
      - rewrite <- Ei. eapply full_insert_wf; [done|exact Hhex|lia|done| |by intros ->; inversion Hwt'].
        left. split; [|by right]. exists key. done.
      - rewrite <- Ei. exact (upd_full _ d td _ v t' Hd0 Htd' Hut).
      - econstructor; [lia|apply list_lookup_insert_eq; lia|done|]. intros i x Hi Hx.
        rewrite list_lookup_insert_ne in Hx by lia. eauto.
      - done. }
    destruct (decide (c = d)) as [->|Hcd'].
    + rewrite Hlook. cbn [mbind option_bind].
      pose proof (Hcs _ _ _ (eq_trans Hcd Hlook) Htd) as Hrs. rewrite Z2Nat.id in Hrs by lia.
      assert (Hwt : wf td) by (by eapply strep_wf_child).
      destruct (IH (D ++ o) s (p ++ [d]) r key td) as (st' & o' & t' & E' & Hrt & Hwt' & Hut & Hft & _).
      { done. } { done. } { eapply sized_lookup; [done|by eapply list_elem_of_lookup_2]. } { done. } { by apply (after_app [d]). } { done. } { done. } { cbn in Hfuel; lia. }
      rewrite E'. cbn [mbind option_bind]. rewrite <- app_assoc in Hrt. eapply Hbuild; try done.
      intros i x Hi Hx. rewrite Hkeep in Hx by lia. eauto.
    + assert (Hlt' : c < d).
      { destruct Ha as [Hcmp _]. by apply compare_cons_lt in Hcmp. }
      assert (Hnone : cs !! Z.to_nat d = Some None).
      { destruct (lookup_lt_is_Some_2 cs (Z.to_nat d)) as [z Hz]; [apply strep_branch_inv in Hr as (? & _ & ? & _); lia|].
        rewrite Hz. f_equal. eapply Hright; [|exact Hz]. lia. }
      rewrite Hnone. cbn [mbind option_bind]. rewrite <- (app_nil_r o).
      apply (Hbuild (stLeaf key v) [] (TShort (key ++ [16]) (TVal v))).
      * by constructor.
      * constructor; [by exists key|done].
      * assert (td = TNil) as -> by (eapply Hn; [by rewrite Hcd|done]). apply upd_nil.
      * constructor.
      * intros i x Hi Hx. rewrite Hkeep in Hx by lia. eapply Hright; [|exact Hx]. lia.
Qed.

(** ** The stack trie *)

Lemma compare_nibbles a b :
  bytes_ok a → bytes_ok b → bytes_compare (writeHexKey a) (writeHexKey b) = bytes_compare a b.
Proof.
  intros Ha. revert b. induction Ha as [|x a Hx Ha IH]; intros [|y b] Hb; [done..|].
  apply Forall_cons in Hb as [Hy Hb]. destruct Hx, Hy. unfold writeHexKey in *.
  cbn [fmap list_fmap concat nibblesOf app bytes_compare]. rewrite IH by done.
  destruct (Z.compare_spec x y) as [->|Hlt|Hgt]; [by rewrite !Z.compare_refl|..].
  - destruct (Z.compare_spec (x / 16) (y / 16)) as [E| |]; [|done|divlia].
    destruct (Z.compare_spec (x mod 16) (y mod 16)) as [E'| |]; [divlia|done|divlia].
  - destruct (Z.compare_spec (x / 16) (y / 16)) as [E| |]; [|divlia|done].
    destruct (Z.compare_spec (x mod 16) (y mod 16)) as [E'| |]; [divlia|divlia|done].
Qed.

Lemma writeHexKey_app a b : writeHexKey (a ++ b) = writeHexKey a ++ writeHexKey b.
Proof. unfold writeHexKey. by rewrite fmap_app, concat_app. Qed.

Lemma prefix_nibbles a b r :
  bytes_ok a → bytes_ok b → writeHexKey b = writeHexKey a ++ r → ∃ r', b = a ++ r'.
Proof.
  intros Ha. revert b. induction Ha as [|x a Hx Ha IH]; intros b Hb E; [by exists b|].
  destruct b as [|y b]; [done|]. apply Forall_cons in Hb as [Hy Hb]. destruct Hx, Hy. unfold writeHexKey in *.
  cbn [fmap list_fmap concat nibblesOf app] in E. injection E as E1 E2 E3.
  destruct (IH b Hb E3) as (r' & ->). exists r'. cbn. f_equal. divlia.
Qed.

Lemma after_nibbles a b : bytes_ok a → bytes_ok b → after a b → after (writeHexKey a) (writeHexKey b).
Proof.
  intros Ha Hb [Hc Hp]. split; [by rewrite compare_nibbles|]. intros r E.
  destruct (prefix_nibbles a b r Ha Hb E) as (r' & ->). by apply (Hp r').
Qed.

(** A stack trie that has taken the entries of [m], the last of them under [last]. *)
Definition st_ok (T : StackTrie) (last : option bytes) (m : gmap bytes bytes) : Prop :=
  small m ∧
  match last with
  | None => m = ∅ ∧ T.(stroot) = stEmpty ∧ T.(lastKey) = []
  | Some key =>
      bytes_ok key ∧ T.(lastKey) = writeHexKey key
      ∧ ∃ t, wf t ∧ models t m ∧ strep T.(out) [] T.(stroot) t ∧ frontier T.(stroot) (writeHexKey key)
  end.

Definition entry_ok (key v : bytes) : Prop :=
  bytes_ok key ∧ key ≠ [] ∧ value_ok v ∧ Z.of_nat (length key) < 2 ^ 30 ∧ Z.of_nat (length v) < 2 ^ 32.

Lemma st_Update_spec T last m key v :
  st_ok T last m → entry_ok key v → match last with None => True | Some l => after l key end →
  ∃ T', st_Update T key v = Some (None, T') ∧ st_ok T' (Some key) (<[key := v]> m).
Proof.
  intros [Hsm Hok] (Hkb & Hkne & Hv & Hkl & Hvl) Ha. unfold st_Update.
  destruct v as [|v0 v]; [by destruct Hv|]. destruct key as [|k0 key]; [done|].
  assert (Hsm' : small (<[k0 :: key := v0 :: v]> m)) by (by apply small_insert).
  destruct last as [l|].
  - destruct Hok as (Hlb & Hlast & t & Hw & Hm & Hr & Hf).
    pose proof (after_nibbles _ _ Hlb Hkb Ha) as Ha'. rewrite Hlast, (proj1 Ha').
    destruct (st_insert_spec (out T) (S (length (writeHexKey (k0 :: key)))) (stroot T) [] (writeHexKey l)
      (writeHexKey (k0 :: key)) t (v0 :: v)) as (st & o & t' & E & Hr' & Hw' & Hu & Hf' & _);
      [done|done|by eapply models_sized|done|done|by apply writeHexKey_ok|done|lia|].
    rewrite E. cbn [mbind option_bind]. eexists. split; [done|]. split; [done|]. split; [done|]. split; [done|].
    exists t'. split_and!; [done| |done|done]. eapply models_upd; [exact Hm|done|exact Hu].
  - destruct Hok as (-> & Hroot & Hlast). rewrite Hlast.
    assert (E : bytes_compare [] (writeHexKey (k0 :: key)) = Lt) by done. rewrite E, Hroot. cbn [st_insert mbind option_bind].
    eexists. split; [done|]. split; [done|]. split; [done|]. split; [done|].
    exists (TShort (keybytesToHex (k0 :: key)) (TVal (v0 :: v))). split_and!.
    + constructor; [by apply keybytesToHex_hexkey|done].
    + eapply models_upd; [apply models_empty|done|apply upd_nil].
    + constructor. by apply writeHexKey_ok.
    + constructor.
Qed.

(** The hash is that of the entries' canonical trie, and the nodes handed out make
    up a database from which that trie can be opened. *)
Lemma st_Hash_spec T last m :
  st_ok T last m →
  ∃ h T', st_Hash T = Some (h, T') ∧ root_of keccak m h
    ∧ (last ≠ None → ∃ t, wf t ∧ sized t ∧ models t m ∧ h = keccak (encTree t) ∧ covered T'.(out) [] t).
Proof.
  intros [Hsm Hok]. unfold st_Hash. destruct last as [l|].
  - destruct Hok as (_ & _ & t & Hw & Hm & Hr & _). assert (Hs : sized t) by (by eapply models_sized).
    destruct (st_hash_spec (out T) t Hw Hs [] (stroot T) Hr) as (o & E & Hc). rewrite E. cbn.
    assert (Eh : refBytes true t = keccak (encTree t)) by (unfold TrieNode.refBytes; by rewrite andb_false_r).
    rewrite bool_decide_true in * by done. rewrite Eh. eexists _, _. split; [done|]. split.
    + exists t. split; [by right|]. split; [done|]. destruct t; [by inversion Hw..|done|done].
    + intros _. exists t. by split_and!.
  - destruct Hok as (-> & Hroot & _). rewrite Hroot. cbn. eexists _, _. split; [done|]. split; [|done].
    exists TNil. split; [by left|]. split; [apply models_empty|done].
Qed.

(** A database that holds what was handed out holds the trie. *)
Lemma covered_stored D reader p t :
  (∀ p h b, (p, h, b) ∈ D → reader p h = Some b) → covered D p t → stored reader keccak p t.
Proof. intros HD. induction 1; constructor; auto. Qed.

(** *** Runs of updates *)

Fixpoint st_Updates (t : StackTrie) (kvs : list (bytes * bytes)) : option (option stError * StackTrie) :=
  match kvs with
  | [] => Some (None, t)
  | (key, v) :: kvs =>
      '(e, t) ← st_Update t key v;
      match e with None => st_Updates t kvs | Some e => Some (Some e, t) end
  end.

Definition insertAll (m : gmap bytes bytes) (kvs : list (bytes * bytes)) : gmap bytes bytes :=
  foldl (λ m kv, <[kv.1 := kv.2]> m) m kvs.

(** The keys ascend and none is a prefix of the next. *)
Definition ascending (kvs : list (bytes * bytes)) : Prop := Sorted (λ a b, after a.1 b.1) kvs.

Lemma st_ok_reset T : st_ok (st_Reset T) None ∅.
Proof. split; [by intros ? ?|done]. Qed.

Lemma st_Updates_spec T last m kvs :
  st_ok T last m → Forall (λ kv, entry_ok kv.1 kv.2) kvs → ascending kvs →
  match last, kvs with Some l, (k, _) :: _ => after l k | _, _ => True end →
  ∃ T' last', st_Updates T kvs = Some (None, T') ∧ st_ok T' last' (insertAll m kvs) ∧ (kvs ≠ [] → last' ≠ None).
Proof.
  revert T last m. induction kvs as [|[k v] kvs IH]; intros T last m Hok Hes Hso Hl; [by exists T, last|].
  apply Forall_cons in Hes as [He Hes]. apply Sorted_inv in Hso as [Hso Hhd].
  destruct (st_Update_spec T last m k v Hok He) as (T1 & E & Hok1); [by destruct last|].
  destruct (IH T1 (Some k) (<[k := v]> m) Hok1 Hes Hso) as (T2 & l2 & E2 & Hok2 & Hn2).
  { destruct kvs as [|[k' v'] kvs]; [done|]. by apply HdRel_inv in Hhd. }
  cbn [st_Updates]. rewrite E. cbn [mbind option_bind]. exists T2, l2. split; [done|]. split; [done|].
  intros _. destruct kvs; [|by apply Hn2]. cbn in E2. injection E2 as ->. by destruct l2; [|destruct Hok2 as [_ (Hm & _)]; exfalso; revert Hm; apply insert_non_empty].
Qed.

(** *** Keys of list elements *)

Definition indexKey (i : nat) : bytes := AppendUint64 [] (Z.of_nat i).

Lemma indexKey_small i : (0 < i < 128)%nat → indexKey i = [Z.of_nat i].
Proof.
  intros Hi. unfold indexKey, AppendUint64. rewrite (proj2 (Z.eqb_neq _ _)), (proj2 (Z.ltb_lt _ _)) by lia. done.
Qed.

Lemma indexKey_large i :
  (128 <= i)%nat → Z.of_nat i < two64 →
  ∃ n, indexKey i = (0x80 + Z.of_nat n) :: be_bytes n (Z.of_nat i) ∧ (1 <= n <= 8)%nat
    ∧ Z.of_nat i < 256 ^ Z.of_nat n ∧ (n = 1%nat ∨ 256 ^ (Z.of_nat n - 1) <= Z.of_nat i).
Proof.
  intros Hi H64. unfold indexKey, AppendUint64. rewrite (proj2 (Z.eqb_neq _ _)), (proj2 (Z.ltb_ge _ _)) by lia.
  destruct (putint_spec (Z.of_nat i)) as (n & -> & Hn & Hhi & Hlo & _); [lia|].
  exists n. cbn. by rewrite length_be_bytes.
Qed.

Lemma after_cons x y a b : x < y → after (x :: a) (y :: b).
Proof. intros Hxy. split; [cbn; by rewrite (proj2 (Z.compare_lt_iff _ _))|]. intros r [= ? _]. lia. Qed.

Lemma after_same_length a b : bytes_compare a b = Lt → length a = length b → after a b.
Proof.
  intros Hc Hl. split; [done|]. intros r E. rewrite E, length_app in Hl. destruct r; [|cbn in Hl; lia].
  rewrite app_nil_r in E. subst. rewrite <- (app_nil_r a), compare_app in Hc. done.
Qed.

Lemma index_after i j :
  Z.of_nat j < two64 → (0 < i < j)%nat ∨ (0 < i < 128)%nat ∧ j = 0%nat ∨ i = 0%nat ∧ (128 <= j)%nat →
  after (indexKey i) (indexKey j).
Proof.
  intros Hj [H|[[Hi ->]|[-> H]]].
  - destruct (decide (j < 128)%nat) as [|Hj1]; [rewrite !indexKey_small by lia; apply after_cons; lia|].
    destruct (indexKey_large j) as (n & -> & Hn & Hjn & Hjl); [lia..|].
    destruct (decide (i < 128)%nat) as [|Hi1]; [rewrite indexKey_small by lia; apply after_cons; lia|].
    destruct (indexKey_large i) as (k & -> & Hk & Hik & Hil); [lia..|].
    destruct (Nat.lt_trichotomy k n) as [Hlt|[->|Hlt]]; [apply after_cons; lia| |].
    + apply after_same_length; [|cbn; by rewrite !length_be_bytes].
      cbn [bytes_compare]. rewrite Z.compare_refl, be_bytes_compare by lia. apply Z.compare_lt_iff. lia.
    + assert (256 ^ Z.of_nat n <= 256 ^ (Z.of_nat k - 1)) by (apply Z.pow_le_mono_r; lia).
      destruct Hil; lia.
  - rewrite indexKey_small by lia. change (indexKey 0) with [0x80]. apply after_cons. lia.
  - destruct (indexKey_large j) as (n & -> & Hn & _); [lia..|]. change (indexKey 0) with [0x80]. apply after_cons. lia.
Qed.

Lemma after_irrefl a : ¬ after a a.
Proof. intros [_ H]. apply (H []). by rewrite app_nil_r. Qed.

Lemma indexKey_inj i j : Z.of_nat i < two64 → Z.of_nat j < two64 → indexKey i = indexKey j → i = j.
Proof.
  intros Hi Hj E. destruct (decide (i = j)); [done|]. exfalso.
  assert (Ha : after (indexKey i) (indexKey j) ∨ after (indexKey j) (indexKey i)).
  { destruct (decide (i = 0)%nat) as [->|], (decide (j = 0)%nat) as [->|]; [lia| | |].
    - destruct (decide (j < 128)%nat); [right|left]; apply index_after; lia.
    - destruct (decide (i < 128)%nat); [left|right]; apply index_after; lia.
    - destruct (decide (i < j)%nat); [left|right]; apply index_after; lia. }
  rewrite E in Ha. by destruct Ha as [?%after_irrefl|?%after_irrefl].
Qed.

Lemma indexKey_entry i v : Z.of_nat i < two64 → value_ok v → Z.of_nat (length v) < 2 ^ 32 → entry_ok (indexKey i) v.
Proof.
  intros Hi Hv Hl. destruct (decide (i = 0)%nat) as [->|Hi0].
  { change (indexKey 0) with [0x80]. split_and!; try done. by repeat constructor. }
  destruct (decide (i < 128)%nat) as [|Hi1].
  - rewrite indexKey_small by lia. split_and!; try done. repeat constructor; lia.
  - destruct (indexKey_large i) as (n & -> & Hn & _); [lia..|]. split_and!; try done.
    + constructor; [unfold is_byte; lia|apply be_bytes_ok].
    + cbn. rewrite length_be_bytes. lia.
Qed.

(** *** The list root *)

(** The map of a list: elements under the encodings of their indices. *)
Definition indexMap (l : list bytes) : gmap bytes bytes := list_to_map (imap (λ i v, (indexKey i, v)) l).

(** [m] holds the elements of [l] at the indices in [S]. *)
Definition indexed (l : list bytes) (S : nat → Prop) (m : gmap bytes bytes) : Prop :=
  ∀ key v, m !! key = Some v ↔ ∃ i, S i ∧ l !! i = Some v ∧ key = indexKey i.

Definition list_ok (l : list bytes) : Prop :=
  Z.of_nat (length l) < two64 ∧ Forall (λ v, value_ok v ∧ Z.of_nat (length v) < 2 ^ 32) l.

Lemma list_ok_lookup l i v : list_ok l → l !! i = Some v → Z.of_nat i < two64 ∧ entry_ok (indexKey i) v.
Proof.
  intros [Hl Hv] Hi. pose proof (lookup_lt_Some _ _ _ Hi). destruct (Forall_lookup_1 _ _ _ _ Hv Hi) as [??].
  assert (Z.of_nat i < two64) by lia. split; [done|]. by apply indexKey_entry.
Qed.

Lemma indexed_insert l S S' m i v :
  list_ok l → indexed l S m → l !! i = Some v → (∀ j, S' j ↔ S j ∨ j = i) → indexed l S' (<[indexKey i := v]> m).
Proof.
  intros Hl Hm Hi HS key w. rewrite lookup_insert_Some, (Hm key w). destruct (list_ok_lookup _ _ _ Hl Hi) as [Hi64 _]. split.
  - intros [[<- <-]|[_ (j & Hj & Hw & ->)]]; [exists i|exists j]; rewrite HS; auto.
  - intros (j & [Hj| ->]%HS & Hw & ->).
    + destruct (decide (i = j)) as [->|Hne]; [left; by simplify_eq|]. right. split; [|eauto].
      intros E. apply Hne, indexKey_inj; [done|by eapply list_ok_lookup|done].
    + left. by simplify_eq.
Qed.

Lemma indexed_indexMap l : list_ok l → indexed l (λ _, True) (indexMap l).
Proof.
  intros Hl key v. unfold indexMap. rewrite <- elem_of_list_to_map.
  - rewrite elem_of_lookup_imap. split.
    + intros (i & w & [= -> ->] & Hi). eauto.
    + intros (i & _ & Hi & ->). eauto.
  - rewrite NoDup_alt. intros i j key' Hi Hj. rewrite !list_lookup_fmap, !list_lookup_imap in *.
    destruct (l !! i) as [v1|] eqn:Ei; [|done]. destruct (l !! j) as [v2|] eqn:Ej; [|done]. cbn in *. simplify_eq.
    destruct (list_ok_lookup _ _ _ Hl Ei) as [? _], (list_ok_lookup _ _ _ Hl Ej) as [? _]. by apply indexKey_inj.
Qed.

Lemma indexed_unique l S S' m m' :
  (∀ i v, l !! i = Some v → S i ↔ S' i) → indexed l S m → indexed l S' m' → m = m'.
Proof.
  intros HS H H'. apply map_eq. intros key. apply option_eq. intros v. rewrite (H key v), (H' key v).
  split; intros (i & Hi & Hl & ->); exists i; (split; [by eapply HS|done]).
Qed.

Lemma indexMap_inj l l' : list_ok l → list_ok l' → indexMap l = indexMap l' → l = l'.
Proof.
  intros Hl Hl' E. apply list_eq. intros i. apply option_eq. intros v.
  pose proof (indexed_indexMap l Hl) as H. pose proof (indexed_indexMap l' Hl') as H'. rewrite <- E in H'.
  split; intros Hi.
  - destruct (proj1 (H' (indexKey i) v)) as (j & _ & Hj & Ej); [apply H; eauto|].
    apply indexKey_inj in Ej as ->; [done|by eapply (list_ok_lookup l)|by eapply (list_ok_lookup l')].
  - destruct (proj1 (H (indexKey i) v)) as (j & _ & Hj & Ej); [apply H'; eauto|].
    apply indexKey_inj in Ej as ->; [done|by eapply (list_ok_lookup l')|by eapply (list_ok_lookup l)].
Qed.

(** The state between the loops of [DeriveSha]. *)
Definition derive_ok (l : list bytes) (T : StackTrie) (last : option nat) (S : nat → Prop) : Prop :=
  ∃ m, st_ok T (indexKey <$> last) m ∧ indexed l S m.

Definition may_follow (last : option nat) (i : nat) : Prop :=
  match last with None => True | Some j => after (indexKey j) (indexKey i) end.

Lemma deriveUpdate_spec l T last S S' i v :
  list_ok l → derive_ok l T last S → l !! i = Some v → may_follow last i → (∀ j, S' j ↔ S j ∨ j = i) →
  ∃ T', deriveUpdate T i v = Some T' ∧ derive_ok l T' (Some i) S'.
Proof.
  intros Hl (m & Hok & Hm) Hi Hf HS. destruct (list_ok_lookup _ _ _ Hl Hi) as [_ He].
  destruct (st_Update_spec T (indexKey <$> last) m (indexKey i) v Hok He) as (T' & E & Hok'); [by destruct last|].
  unfold deriveUpdate. fold (indexKey i). rewrite E. exists T'. split; [done|]. eexists. split; [exact Hok'|].
  by eapply indexed_insert.
Qed.

Lemma deriveLoop_spec l n i T last S :
  list_ok l → (0 < i)%nat → (i + n <= length l)%nat ∨ n = 0%nat → derive_ok l T last S → (n ≠ 0%nat → may_follow last i) →
  ∃ T', deriveLoop n i l T = Some T'
    ∧ derive_ok l T' (if decide (n = 0)%nat then last else Some (i + n - 1)%nat) (λ j, S j ∨ (i <= j < i + n)%nat).
Proof.
  intros Hl. revert i T last S. induction n as [|n IH]; intros i T last S Hi Hn Hok Hf; cbn [deriveLoop].
  { exists T. split; [done|]. destruct Hok as (m & Hok & Hm). exists m. split; [done|].
    intros key v. rewrite (Hm key v). split; intros (j & Hj & H); exists j; (split; [|done]); [by left|]. destruct Hj; [done|lia]. }
  destruct (lookup_lt_is_Some_2 l i) as [v Hv]; [lia|]. rewrite Hv. cbn [mbind option_bind].
  destruct (deriveUpdate_spec l T last S (λ j, S j ∨ j = i) i v) as (T1 & E1 & H1); [done..|by apply Hf|done|].
  rewrite E1. cbn [mbind option_bind].
  destruct (IH (Datatypes.S i) T1 (Some i) (λ j, S j ∨ j = i)) as (T2 & E2 & H2); [lia|lia|done| |].
  { intros Hn0. destruct Hl as [Hl _]. apply index_after; [lia|left; lia]. }
  exists T2. split; [done|]. destruct H2 as (m & Hok2 & Hm2). exists m. split.
  - destruct (decide (Datatypes.S n = 0)%nat); [lia|]. destruct (decide (n = 0)%nat) as [->|].
    + by replace (i + 1 - 1)%nat with i by lia.
    + by replace (i + Datatypes.S n - 1)%nat with (Datatypes.S i + n - 1)%nat by lia.
  - intros key w. rewrite (Hm2 key w). split; intros (j & Hj & H); exists j; (split; [|done]).
    + destruct Hj as [[?| ->]|?]; [by left|right; lia|right; lia].
    + destruct Hj as [?|Hj]; [by left; left|]. destruct (decide (j = i)); [by left; right|right; lia].
Qed.

Lemma DeriveSha_spec l hasher :
  list_ok l → ∃ h, DeriveSha l hasher = Some h ∧ root_of keccak (indexMap l) h.
Proof.
  intros Hl. pose proof Hl as [H64 _]. unfold DeriveSha.
  assert (H0 : derive_ok l (st_Reset hasher) None (λ _, False)).
  { exists ∅. split; [apply st_ok_reset|]. intros key v. rewrite lookup_empty. split; [done|]. by intros (? & [] & _). }
  destruct (deriveLoop_spec l (Nat.min (length l) 128 - 1) 1 (st_Reset hasher) None (λ _, False)) as (T1 & E1 & H1); [done|lia|lia|done|done|].
  rewrite E1. cbn [mbind option_bind]. clear E1 H0.
  set (l1 := if decide _ then _ else _) in H1.
  assert (Hend : ∀ T last S m, st_ok T last m → indexed l S m → (∀ i, (i < length l)%nat → S i) →
            ∃ h, fst <$> st_Hash T = Some h ∧ root_of keccak (indexMap l) h).
  { intros T last S m Hok Hm HS. destruct (st_Hash_spec T last m Hok) as (h & T' & E & Hr & _). rewrite E.
    exists h. split; [done|]. rewrite (indexed_unique l (λ _, True) S (indexMap l) m); [done| |by apply indexed_indexMap|done].
    intros i v Hi. split; [|done]. intros _. apply HS. by eapply lookup_lt_Some. }
  destruct (Nat.ltb_spec 0 (length l)) as [Hne|Hz].
  - destruct (lookup_lt_is_Some_2 l 0) as [v Hv]; [lia|]. rewrite Hv. cbn [mbind option_bind].
    destruct (deriveUpdate_spec l T1 l1 _ (λ j, j = 0 ∨ (1 <= j < 1 + (Nat.min (length l) 128 - 1)))%nat 0 v Hl H1 Hv) as (T2 & E2 & H2).
    { unfold l1. destruct (decide _); [done|]. apply index_after; [lia|]. right. left. lia. }
    { intros j. tauto. }
    rewrite E2. cbn [mbind option_bind].
    destruct (deriveLoop_spec l (length l - 128) 128 T2 (Some 0%nat) _ Hl ltac:(lia) ltac:(lia) H2) as (T3 & E3 & m & Hok & Hm).
    { intros Hn. apply index_after; [lia|]. right. right. lia. }
    rewrite E3. cbn [mbind option_bind]. eapply Hend; [exact Hok|exact Hm|]. intros i Hi. cbn. lia.
  - replace (length l - 128)%nat with 0%nat by lia. cbn [mbind option_bind deriveLoop].
    destruct H1 as (m & Hok & Hm). eapply Hend; [exact Hok|exact Hm|lia].
Qed.

Lemma indexMap_small l : list_ok l → small (indexMap l).
Proof.
  intros Hl key v H. apply (indexed_indexMap l Hl) in H as (i & _ & Hi & ->).
  destruct (list_ok_lookup _ _ _ Hl Hi) as [_ (? & _ & _ & ? & ?)]. done.
Qed.

End Stack.

(** ** Theorems *)

(** C26: the stack trie computes what the trie computes.  Entries in ascending
    order, none a prefix of the next, are all accepted; the hash is the root hash
    of their map's canonical trie; and a database holding the nodes handed to the
    callback opens, with [trie.New], to a trie of exactly that map. *)
Theorem stack_trie_root keccak {HK : Keccak256 keccak} hasher kvs :
  Forall (λ kv, entry_ok kv.1 kv.2) kvs → ascending kvs →
  ∃ T h T', st_Updates keccak (st_Reset hasher) kvs = Some (None, T) ∧ st_Hash keccak T = Some (h, T')
    ∧ root_of keccak (insertAll ∅ kvs) h
    ∧ ∀ reader, kvs ≠ [] → h ≠ replicate 32 0 → h ≠ EmptyRootHash →
        (∀ p hash b, (p, hash, b) ∈ T'.(out) → reader p hash = Some b) →
        ∃ t, New reader h = Ok t ∧ trie_ok reader keccak t (insertAll ∅ kvs).
Proof.
  intros Hes Hso. destruct (st_Updates_spec keccak (st_Reset hasher) None ∅ kvs) as (T & last & E & Hok & Hl);
    [apply st_ok_reset|done|done|done|].
  destruct (st_Hash_spec keccak T last _ Hok) as (h & T' & Eh & Hr & Ht). exists T, h, T'. split_and!; [done..|].
  intros reader Hne H0 He Hd. destruct (Ht (Hl Hne)) as (t & Hw & Hs & Hm & -> & Hc).
  eapply New_ok; [done..|apply Hok|by eapply covered_stored|done|done].
Qed.

Definition toyEntries : list (bytes * bytes) := [([0x12], replicate 40 5); ([0x32], replicate 40 6)].

Lemma stack_trie_root_witness :
  ∃ T h T', st_Updates toyHash (st_Reset NewStackTrie) toyEntries = Some (None, T)
    ∧ st_Hash toyHash T = Some (h, T') ∧ root_of toyHash (insertAll ∅ toyEntries) h.
Proof.
  destruct (stack_trie_root toyHash NewStackTrie toyEntries) as (T & h & T' & H1 & H2 & H3 & _).
  - repeat constructor; cbn; try done; unfold is_byte; lia.
  - repeat constructor; try done.
  - exists T, h, T'. exact (conj H1 (conj H2 H3)).
Defined.

(** The root of a list commits to the list.  [DeriveSha], whatever its hasher
    was used for before, never fails on lists of fewer than 2^64 non-empty
    encodings, although it drops the hasher's errors; its hash is the root hash of
    the trie that maps encoded indices to elements; and two lists with the same
    root are equal, or exhibit two byte strings with the same Keccak hash. *)
Theorem derive_sha_commits keccak {HK : Keccak256 keccak} l l' hasher hasher' :
  list_ok l → list_ok l' → keccak EmptyString = EmptyRootHash →
  ∃ h h', DeriveSha keccak l hasher = Some h ∧ DeriveSha keccak l' hasher' = Some h'
    ∧ root_of keccak (indexMap l) h ∧ (l = l' → h = h') ∧ (h = h' → l = l' ∨ collision keccak).
Proof.
  intros Hl Hl' HE. destruct (DeriveSha_spec keccak l hasher Hl) as (h & E & Hr).
  destruct (DeriveSha_spec keccak l' hasher' Hl') as (h' & E' & Hr'). exists h, h'.
  split_and!; [done..| |].
  - intros ->. by eapply root_of_functional.
  - intros ->. destruct (root_of_binding keccak (indexMap l) (indexMap l') h') as [Em|]; [done|by apply indexMap_small..|done|done| |by right].
    left. by apply indexMap_inj.
Qed.

(** The loops cross the index 128, where the encoding of the index grows. *)
Definition toyList : list bytes := (λ i, [Z.of_nat i mod 256; 7]) <$> seq 0 130.

Lemma derive_sha_commits_witness :
  ∃ h h', DeriveSha toyHash toyList NewStackTrie = Some h ∧ DeriveSha toyHash [[1]; [2; 3]] NewStackTrie = Some h'
    ∧ root_of toyHash (indexMap toyList) h.
Proof.
  destruct (derive_sha_commits toyHash toyList [[1]; [2; 3]] NewStackTrie NewStackTrie) as (h & h' & H1 & H2 & H3 & _).
  - split; [done|]. apply (bool_decide_unpack _). vm_compute. exact I.
  - split; [done|]. repeat constructor; done.
  - reflexivity.
  - exists h, h'. exact (conj H1 (conj H2 H3)).
Defined.

End StackTrie.
