(* ===== verification/Emission.v ===== *)
(** * Block-reward emission

    The halving schedule of [consensus/randomx/reward.go] and the Antartical
    per-role shares of [consensus/antartical/rewards.go].  Amounts are
    [big.Int] values in wei, so they are [Z]; block numbers are [uint64]. *)

From S2P Require Import Prelude.

Definition oneTKM : Z := 1000000000000000000.

(** ** [consensus/randomx/reward.go] *)
Module RandomX.

Definition DefaultBlocksPerHalving : Z := 4 * 365 * 24 * 60 * 60 / 120.
Definition InitialBlockReward : Z := 200 * oneTKM.
Definition GenesisPremine : Z := 60000000 * oneTKM.
Definition BlocksPerHalving : Z := DefaultBlocksPerHalving.
Definition MaxHalvings : Z := 64.

(** The [for] loop of [CalculateBlockReward]: [i] iterations are left. *)
Fixpoint halve_loop (i : nat) (reward : Z) : Z :=
  match i with
  | O => reward
  | S i' =>
      let reward := reward / 2 in
      if reward <? oneTKM then 0 else halve_loop i' reward
  end.

Definition CalculateBlockReward (blockNumber : Z) : Z :=
  let halvingPeriod := blockNumber / BlocksPerHalving in
  let halvingPeriod := if MaxHalvings <? halvingPeriod then MaxHalvings else halvingPeriod in
  halve_loop (Z.to_nat halvingPeriod) InitialBlockReward.

Definition CalculateTotalReward (blockReward : Z) (transactionFees : option Z) : Z :=
  match transactionFees with
  | Some fees => if 0 <? fees then blockReward + fees else blockReward
  | None => blockReward
  end.

(** The loop of [CalculateTotalSupplyCap]: [n] values of [h] are left. *)
Fixpoint supply_cap_loop (n : nat) (total currentReward : Z) : Z :=
  match n with
  | O => total
  | S n' =>
      let total := total + currentReward * BlocksPerHalving in
      let currentReward := currentReward / 2 in
      if currentReward <? oneTKM then total else supply_cap_loop n' total currentReward
  end.

Definition CalculateTotalSupplyCap : Z :=
  supply_cap_loop (Z.to_nat (MaxHalvings + 1)) GenesisPremine InitialBlockReward.

(** The loop of [CalculateCirculatingSupply]; [remainingBlocks] is a [uint64]
    that the body never takes below zero. *)
Fixpoint circulating_loop (n : nat) (total currentReward remainingBlocks : Z) : Z :=
  match n with
  | O => total
  | S n' =>
      if 0 <? remainingBlocks then
        let blocksInPeriod :=
          if remainingBlocks <? BlocksPerHalving then remainingBlocks else BlocksPerHalving in
        let total := total + currentReward * blocksInPeriod in
        let remainingBlocks := remainingBlocks -₆₄ blocksInPeriod in
        let currentReward := currentReward / 2 in
        if currentReward <? oneTKM then total
        else circulating_loop n' total currentReward remainingBlocks
      else total
  end.

Definition CalculateCirculatingSupply (blockNumber : Z) : Z :=
  circulating_loop (Z.to_nat (MaxHalvings + 1)) GenesisPremine InitialBlockReward blockNumber.

(** *** Receipts *)
Record Receipt := { GasUsed : Z; EffectiveGasPrice : option Z }.

(** [GetTotalTransactionFees]: [baseFee] is [header.BaseFee]; a [nil] receipt is
    [None]. *)
Definition receiptFee (baseFee : option Z) (r : option Receipt) : Z :=
  match r with
  | Some r =>
      if 0 <? r.(GasUsed) then
        match (match r.(EffectiveGasPrice) with Some p => Some p | None => baseFee end) with
        | Some price => r.(GasUsed) * price
        | None => 0
        end
      else 0
  | None => 0
  end.

Definition GetTotalTransactionFees (baseFee : option Z) (receipts : list (option Receipt)) : Z :=
  foldl (λ totalFees r, totalFees + receiptFee baseFee r) 0 receipts.

(** *** The schedule in closed form *)

(** The first block that mints nothing: eight full halving periods. *)
Definition emissionEnd : Z := 8 * BlocksPerHalving.

Lemma halve_loop_exhausted k : halve_loop (8 + k) InitialBlockReward = 0.
Proof. reflexivity. Qed.

Lemma halve_loop_active p :
  (p < 8)%nat → halve_loop p InitialBlockReward = InitialBlockReward / 2 ^ Z.of_nat p.
Proof. intros H. do 8 (destruct p as [|p]; [reflexivity|]). lia. Qed.

(** A block's reward is [200 TKM / 2^(n / BlocksPerHalving)] for eight periods
    and nothing afterwards. *)
Lemma reward_closed_form n :
  0 <= n →
  CalculateBlockReward n =
    if n <? emissionEnd then InitialBlockReward / 2 ^ (n / BlocksPerHalving) else 0.
Proof.
  intros Hn. unfold CalculateBlockReward, emissionEnd, MaxHalvings.
  change BlocksPerHalving with 1051200.
  pose proof (Z.div_mod n 1051200 ltac:(lia)). pose proof (Z.mod_pos_bound n 1051200 ltac:(lia)).
  set (q := n / 1051200) in *. destruct (n <? 8 * 1051200) eqn:E; bool_to_prop.
  - assert (0 <= q < 8) by lia. case_if; [lia|].
    rewrite halve_loop_active by lia. by rewrite Z2Nat.id by lia.
  - assert (8 <= q) by lia. case_if; [by apply (halve_loop_exhausted 56)|].
    replace (Z.to_nat q) with (8 + Z.to_nat (q - 8))%nat by lia. apply halve_loop_exhausted.
Qed.

Lemma reward_nonneg n : 0 <= n → 0 <= CalculateBlockReward n <= InitialBlockReward.
Proof.
  intros Hn. rewrite reward_closed_form by done. case_if; [|by vm_compute].
  assert (0 <= n / BlocksPerHalving) by (apply Z.div_pos; [lia|reflexivity]).
  assert (0 < 2 ^ (n / BlocksPerHalving)) by (apply Z.pow_pos_nonneg; lia).
  split; [apply Z.div_pos; [discriminate|lia]|].
  apply Z.div_le_upper_bound; [lia|]. unfold InitialBlockReward, oneTKM. nia.
Qed.

(** The rewards of the blocks [1 .. n], one by one; the genesis block has none. *)
Fixpoint minted (n : nat) : Z :=
  match n with
  | O => 0
  | S n' => minted n' + CalculateBlockReward (Z.of_nat n)
  end.

(** How many of [m] blocks belong to the current period. *)
Definition clampPeriod (m : Z) : Z := Z.max 0 (Z.min BlocksPerHalving m).

(** What [k] iterations of the circulating-supply loop add, period by period. *)
Fixpoint periodSum (k : nat) (reward m : Z) : Z :=
  match k with
  | O => 0
  | S k' =>
      reward * clampPeriod m +
      (if reward / 2 <? oneTKM then 0 else periodSum k' (reward / 2) (m - BlocksPerHalving))
  end.

Lemma clampPeriod_step m :
  clampPeriod (m + 1) = clampPeriod m + (if (0 <=? m) && (m <? BlocksPerHalving) then 1 else 0).
Proof. unfold clampPeriod. change BlocksPerHalving with 1051200. case_ifs; lia. Qed.

Lemma periodSum_nonpos k r m : m <= 0 → periodSum k r m = 0.
Proof.
  revert r m. induction k as [|k IH]; intros r m Hm; [done|]. cbn.
  rewrite IH by (change BlocksPerHalving with 1051200; lia).
  replace (clampPeriod m) with 0 by (unfold clampPeriod; change BlocksPerHalving with 1051200; lia).
  case_if; lia.
Qed.

Lemma circulating_loop_sum k total r m :
  is_u64 m → circulating_loop k total r m = total + periodSum k r m.
Proof.
  revert total r m. induction k as [|k IH]; intros total r m Hm; cbn; [lia|].
  destruct (0 <? m) eqn:E0; bool_to_prop; cycle 1.
  { change (total = total + periodSum (S k) r m). rewrite periodSum_nonpos; lia. }
  unfold is_u64 in Hm. change BlocksPerHalving with 1051200 in *.
  set (b := if m <? 1051200 then m else 1051200).
  assert (Hb : 0 <= b <= m) by (unfold b; case_if; lia).
  assert (Hc : clampPeriod m = b) by
    (unfold clampPeriod, b; change BlocksPerHalving with 1051200; case_if; lia).
  rewrite Hc, u64_sub_no_wrap by (unfold is_u64; lia).
  destruct (r / 2 <? oneTKM); [lia|]. rewrite IH by (unfold is_u64; lia).
  destruct (m <? 1051200) eqn:E1; bool_to_prop; subst b; [|lia].
  rewrite !periodSum_nonpos by lia. lia.
Qed.

Lemma periodSum_schedule m :
  periodSum (Z.to_nat (MaxHalvings + 1)) InitialBlockReward m =
  foldr (λ h acc, InitialBlockReward / 2 ^ h * clampPeriod (m - h * BlocksPerHalving) + acc) 0
    [0; 1; 2; 3; 4; 5; 6; 7].
Proof.
  change (Z.to_nat (MaxHalvings + 1)) with 65%nat. unfold periodSum.
  repeat match goal with |- context [if ?b then _ else _] =>
    let v := eval vm_compute in b in change b with v; cbv iota end.
  cbn [foldr].
  repeat match goal with |- context [?a / ?b] =>
    let v := eval vm_compute in (a / b) in change (a / b) with v end.
  repeat first [done | apply (f_equal2 Z.add); [do 2 f_equal; lia|]].
Qed.

Lemma circulating_step m :
  0 <= m → is_u64 (m + 1) →
  CalculateCirculatingSupply (m + 1) = CalculateCirculatingSupply m + CalculateBlockReward m.
Proof.
  intros H0 [? Hm]. unfold CalculateCirculatingSupply.
  rewrite !circulating_loop_sum, !periodSum_schedule by (unfold is_u64; lia).
  rewrite reward_closed_form by done. unfold emissionEnd. cbn [foldr].
  change BlocksPerHalving with 1051200.
  repeat match goal with |- context [clampPeriod (m + 1 - ?h)] =>
    replace (m + 1 - h) with (m - h + 1) by lia; rewrite (clampPeriod_step (m - h)) end.
  change BlocksPerHalving with 1051200.
  pose proof (Z.div_mod m 1051200 ltac:(lia)). pose proof (Z.mod_pos_bound m 1051200 ltac:(lia)).
  set (q := m / 1051200) in *.
  assert (Hq : q = 0 ∨ q = 1 ∨ q = 2 ∨ q = 3 ∨ q = 4 ∨ q = 5 ∨ q = 6 ∨ q = 7 ∨ 8 <= q) by lia.
  repeat (destruct Hq as [Hq|Hq]); try rewrite Hq in *;
    repeat match goal with |- context [if ?b then _ else _] =>
      first [replace b with true by lia | replace b with false by lia]; cbv iota end; lia.
Qed.

(** The cap is what the schedule mints in total. *)
Lemma supply_cap_value :
  CalculateTotalSupplyCap = CalculateCirculatingSupply emissionEnd.
Proof. by vm_compute. Qed.

Lemma circulating_exhausted n :
  is_u64 n → emissionEnd <= n → CalculateCirculatingSupply n = CalculateTotalSupplyCap.
Proof.
  intros Hn He. rewrite supply_cap_value. unfold CalculateCirculatingSupply.
  rewrite !circulating_loop_sum, !periodSum_schedule by done. f_equal. cbn [foldr].
  unfold emissionEnd in *. change BlocksPerHalving with 1051200 in *.
  repeat match goal with |- context [clampPeriod ?x] => replace (clampPeriod x) with 1051200
    by (unfold clampPeriod; change BlocksPerHalving with 1051200; lia) end. done.
Qed.

Lemma circulating_monotone (n k : nat) :
  is_u64 (Z.of_nat (n + k)) →
  CalculateCirculatingSupply (Z.of_nat n) <= CalculateCirculatingSupply (Z.of_nat (n + k)).
Proof.
  induction k as [|k IH]; intros H; [rewrite Nat.add_0_r; lia|]. unfold is_u64 in *.
  replace (Z.of_nat (n + S k)) with (Z.of_nat (n + k) + 1) by lia.
  rewrite circulating_step by (unfold is_u64; lia).
  pose proof (reward_nonneg (Z.of_nat (n + k)) ltac:(lia)). specialize (IH ltac:(lia)). lia.
Qed.

(** The supply only grows, never passes [CalculateTotalSupplyCap], and
    reaches it exactly when the eighth halving period ends. *)
Theorem supply_capped (n m : Z) (Hn : 0 <= n) (Hnm : n <= m) (Hm : is_u64 m) :
  CalculateCirculatingSupply n <= CalculateCirculatingSupply m <= CalculateTotalSupplyCap ∧
  (CalculateCirculatingSupply m = CalculateTotalSupplyCap ↔ emissionEnd <= m).
Proof.
  unfold is_u64 in Hm.
  assert (Hmono : ∀ a b, 0 <= a <= b → b < two64 →
    CalculateCirculatingSupply a <= CalculateCirculatingSupply b).
  { intros a b Hab Hb. pose proof (circulating_monotone (Z.to_nat a) (Z.to_nat (b - a))) as H.
    rewrite Nat2Z.inj_add, !Z2Nat.id in H by lia.
    replace (a + (b - a)) with b in H by lia. apply H. unfold is_u64. lia. }
  split; [split; [apply Hmono; lia|]|].
  - destruct (decide (emissionEnd <= m)).
    + rewrite circulating_exhausted; [lia|unfold is_u64; lia|done].
    + rewrite supply_cap_value. apply Hmono; [lia|done].
  - split; [|intros; apply circulating_exhausted; [unfold is_u64; lia|done]].
    intros Heq. apply Z.nlt_ge. intros Hlt.
    assert (H1 : CalculateCirculatingSupply (m + 1) <= CalculateTotalSupplyCap).
    { rewrite supply_cap_value. apply Hmono; [lia|done]. }
    rewrite circulating_step in H1 by (unfold is_u64, emissionEnd, two64 in *;
      change BlocksPerHalving with 1051200 in *; lia).
    rewrite reward_closed_form in H1 by lia.
    destruct (m <? emissionEnd) eqn:E; bool_to_prop; [|lia].
    assert (0 < InitialBlockReward / 2 ^ (m / BlocksPerHalving)); [|lia].
    assert (0 <= m / BlocksPerHalving <= 7).
    { clear H1 Heq. unfold emissionEnd in *. change BlocksPerHalving with 1051200 in *. divlia. }
    apply Z.div_str_pos. split; [apply Z.pow_pos_nonneg; lia|].
    transitivity (2 ^ 7); [apply Z.pow_le_mono_r; lia|by vm_compute].
Qed.

Lemma supply_capped_witness :
  CalculateCirculatingSupply 5 <= CalculateCirculatingSupply 8409600 <= CalculateTotalSupplyCap ∧
  (CalculateCirculatingSupply 8409600 = CalculateTotalSupplyCap ↔ emissionEnd <= 8409600).
Proof. apply (supply_capped 5 8409600); done. Defined.

Lemma minted_exact (n : nat) : is_u64 (Z.of_nat n) →
  CalculateCirculatingSupply (Z.of_nat n) = GenesisPremine + minted n + (CalculateBlockReward 0 - CalculateBlockReward (Z.of_nat n)).
Proof.
  intros Hn. unfold is_u64 in Hn. induction n as [|n IH]; [done|]. cbn [minted].
  replace (CalculateCirculatingSupply (Z.of_nat (S n))) with (CalculateCirculatingSupply (Z.of_nat n + 1)) by (f_equal; lia).
  rewrite circulating_step by (unfold is_u64; lia). rewrite IH by lia. lia.
Qed.

(** C29: The closed form for the circulating supply against the rewards of the
    blocks [1 .. n], summed block by block.  It exceeds the premine and these rewards by
    exactly the drop of the reward since the start, since the period loop counts the
    genesis block and not block [n]: by nothing in the first halving period, and never
    by more than one initial reward.  So what the schedule mints never passes the
    closed form, nor the total supply cap, and from the eighth halving on it stays
    one initial reward below the cap. *)
Theorem circulating_supply_exact (n : nat) (Hn : is_u64 (Z.of_nat n)) :
  CalculateCirculatingSupply (Z.of_nat n) = GenesisPremine + minted n + (CalculateBlockReward 0 - CalculateBlockReward (Z.of_nat n))
  ∧ 0 <= CalculateBlockReward 0 - CalculateBlockReward (Z.of_nat n) <= InitialBlockReward
  ∧ (Z.of_nat n < BlocksPerHalving → CalculateCirculatingSupply (Z.of_nat n) = GenesisPremine + minted n)
  ∧ GenesisPremine + minted n <= CalculateTotalSupplyCap
  ∧ (emissionEnd <= Z.of_nat n → GenesisPremine + minted n = CalculateTotalSupplyCap - InitialBlockReward).
Proof.
  pose proof (minted_exact n Hn) as E. pose proof (reward_nonneg (Z.of_nat n) ltac:(lia)) as Hr. change (CalculateBlockReward 0) with InitialBlockReward in *.
  destruct (supply_capped 0 (Z.of_nat n) ltac:(lia) ltac:(lia) Hn) as [Hcap Hend]. split_and!; [done|lia|lia| |lia|].
  - intros Hp. rewrite reward_closed_form in E by lia. unfold emissionEnd in E. change BlocksPerHalving with 1051200 in *.
    destruct (Z.ltb_spec (Z.of_nat n) (8 * 1051200)); [|lia]. rewrite (Z.div_small (Z.of_nat n)), Z.pow_0_r, Z.div_1_r in E by lia. lia.
  - intros He. apply Hend in He as Ec. rewrite reward_closed_form, (proj2 (Z.ltb_ge _ _)) in E by lia. lia.
Qed.

(** At the first halving the closed form is 100 TKM ahead. *)
Lemma circulating_supply_exact_witness :
  CalculateCirculatingSupply 1051200 = GenesisPremine + minted (Z.to_nat 1051200) + 100 * oneTKM.
Proof.
  pose proof (circulating_supply_exact (Z.to_nat 1051200)) as H. rewrite Z2Nat.id in H by discriminate. exact (proj1 (H ltac:(done))).
Defined.
End RandomX.

(** ** [consensus/antartical/rewards.go] *)
Module Antartical.
Import RandomX.

(** [nil] shares are [None]. *)
Record RewardShares := {
  Miner : option Z;
  Validator : option Z;
  Rotating : option Z;
  MainKing : option Z;
}.

Definition InitialRewardShares : RewardShares := {|
  Miner := Some (90 * oneTKM);
  Validator := Some (70 * oneTKM);
  Rotating := Some (35 * oneTKM);
  MainKing := Some (5 * oneTKM);
|}.

Definition Total (r : RewardShares) : Z :=
  foldl (λ total share, match share with Some s => total + s | None => total end) 0
    [r.(Miner); r.(Validator); r.(Rotating); r.(MainKing)].

Definition halveShares (s : RewardShares) : RewardShares :=
  let half := fmap (λ x, x / 2) in
  {| Miner := half s.(Miner); Validator := half s.(Validator);
     Rotating := half s.(Rotating); MainKing := half s.(MainKing) |}.

(** The loop counts [i] down from [blockNumber / blocksPerHalving]. *)
Definition RewardSharesAt (blockNumber blocksPerHalving : Z) : RewardShares :=
  if blocksPerHalving =? 0 then InitialRewardShares
  else Nat.iter (Z.to_nat (blockNumber / blocksPerHalving)) halveShares InitialRewardShares.

Definition sharesAfter (k : nat) : RewardShares :=
  let cut x := Some (x / 2 ^ Z.of_nat k) in
  {| Miner := cut (90 * oneTKM); Validator := cut (70 * oneTKM);
     Rotating := cut (35 * oneTKM); MainKing := cut (5 * oneTKM) |}.

Lemma halve_pow x k : x / 2 ^ Z.of_nat k / 2 = x / 2 ^ Z.of_nat (S k).
Proof.
  rewrite Nat2Z.inj_succ, Z.pow_succ_r, (Z.mul_comm 2) by lia.
  apply Z.div_div; [apply Z.pow_nonzero; lia|lia].
Qed.

Lemma iter_halve k : Nat.iter k halveShares InitialRewardShares = sharesAfter k.
Proof.
  induction k as [|k IH]; [done|]. rewrite Nat.iter_succ, IH.
  unfold halveShares, sharesAfter. by rewrite <- !halve_pow.
Qed.

Lemma RewardSharesAt_period n :
  RewardSharesAt n BlocksPerHalving = sharesAfter (Z.to_nat (n / BlocksPerHalving)).
Proof. unfold RewardSharesAt. rewrite iter_halve. done. Qed.

Lemma shares_total_is_block_reward_lemma (n : Z) :
  0 <= n < emissionEnd → Total (RewardSharesAt n BlocksPerHalving) = CalculateBlockReward n.
Proof.
  intros Hn.
  rewrite RewardSharesAt_period, reward_closed_form by lia. case_if; [|lia].
  unfold emissionEnd in Hn. change BlocksPerHalving with 1051200 in *.
  set (q := n / 1051200).
  assert (Hq : 0 <= q <= 7) by (unfold q; divlia). clearbody q. clear -Hq.
  assert (Hd : q = 0 ∨ q = 1 ∨ q = 2 ∨ q = 3 ∨ q = 4 ∨ q = 5 ∨ q = 6 ∨ q = 7) by lia.
  repeat (destruct Hd as [Hd|Hd]); subst; by vm_compute.
Qed.

(** While the schedule mints coins, the four Antartical shares add up to
    exactly the RandomX block reward of the same height: no wei is created or
    lost by the split, halvings included. *)
Theorem shares_total_is_block_reward (n : Z) (Hn : 0 <= n < emissionEnd) :
  Total (RewardSharesAt n BlocksPerHalving) = CalculateBlockReward n.
Proof. by apply shares_total_is_block_reward_lemma. Qed.

Lemma shares_total_is_block_reward_witness :
  Total (RewardSharesAt 7358400 BlocksPerHalving) = CalculateBlockReward 7358400.
Proof. apply shares_total_is_block_reward. split; [lia|by vm_compute]. Defined.

(** The validator share does not stop with the schedule.  From
    [emissionEnd] to the end of the 66th period a block's RandomX reward is
    zero, yet the validator share of the same height is positive. *)
Theorem validator_share_outlives_schedule (n : Z)
    (Hn : emissionEnd <= n < 66 * BlocksPerHalving) :
  CalculateBlockReward n = 0 ∧
  ∃ v, (RewardSharesAt n BlocksPerHalving).(Validator) = Some v ∧ 0 < v.
Proof.
  unfold emissionEnd in Hn. split.
  - rewrite reward_closed_form by (change BlocksPerHalving with 1051200 in *; lia).
    unfold emissionEnd. case_if; [lia|done].
  - rewrite RewardSharesAt_period. eexists; split; [done|].
    change BlocksPerHalving with 1051200 in *.
    apply Z.div_str_pos. split; [apply Z.pow_pos_nonneg; lia|].
    transitivity (2 ^ 65); [apply Z.pow_le_mono_r; divlia|by vm_compute].
Qed.

Lemma validator_share_outlives_schedule_witness :
  CalculateBlockReward 8409600 = 0 ∧
  ∃ v, (RewardSharesAt 8409600 BlocksPerHalving).(Validator) = Some v ∧ 0 < v.
Proof. apply validator_share_outlives_schedule. split; by vm_compute. Defined.
End Antartical.
