(* ===== verification/Units.v ===== *)
(** * TKM amounts as decimal strings

    [FormatANTD] and [ParseANTD] of [consensus/randomx/reward.go]. *)

From S2P Require Import Prelude Bytes Emission.

Module Units.

(** The loop [for len(s) < 18 { s = "0" + s }]. *)
Definition padLeft (n : nat) (s : bytes) : bytes := replicate (n - length s) 48 ++ s.

(** The loop [for len(s) < 18 { s += "0" }]. *)
Definition padRight (n : nat) (s : bytes) : bytes := s ++ replicate (n - length s) 48.

(** The loop that drops trailing zeros while more than six characters are
    left; [fuel] is the length, and each iteration drops one character. *)
Fixpoint trimZeros (fuel : nat) (s : bytes) : bytes :=
  match fuel with
  | O => s
  | S f =>
      if (6 <? length s)%nat && bool_decide (last s = Some 48)
      then trimZeros f (take (length s - 1) s)
      else s
  end.

(** A [nil] amount is [None]. *)
Definition FormatANTD (amount : option Z) : bytes :=
  match amount with
  | None => str "0"
  | Some amount =>
      let whole := amount / oneTKM in
      let remainder := amount mod oneTKM in
      if remainder =? 0 then big_String whole
      else
        let remainderStr := padLeft 18 (big_String remainder) in
        let remainderStr := trimZeros (length remainderStr) remainderStr in
        big_String whole ++ str "." ++ take (min 6 (length remainderStr)) remainderStr
  end.

Inductive parseError := InvalidNumberFormat | InvalidWholeNumber | InvalidFractionalPart.

Definition ParseANTD (amountStr : bytes) : result parseError Z :=
  match index_of amountStr (str ".") with
  | None =>
      match big_SetString amountStr with
      | None => Err InvalidNumberFormat
      | Some whole => Ok (whole * oneTKM)
      end
  | Some decimalIdx =>
      let wholeStr := take decimalIdx amountStr in
      let fracStr := drop (decimalIdx + 1) amountStr in
      match big_SetString wholeStr with
      | None => Err InvalidWholeNumber
      | Some whole =>
          let fracStr := padRight 18 fracStr in
          let fracStr := if (18 <? length fracStr)%nat then take 18 fracStr else fracStr in
          match big_SetString fracStr with
          | None => Err InvalidFractionalPart
          | Some frac => Ok (whole * oneTKM + frac)
          end
      end
  end.

(** ** Lemmas *)

Lemma trimZeros_take6 fuel s : take 6 (trimZeros fuel s) = take 6 s ∧
  (6 <= length s → 6 <= length (trimZeros fuel s))%nat.
Proof.
  revert s. induction fuel as [|f IH]; intros s; [done|]. cbn [trimZeros].
  destruct ((6 <? length s)%nat && _) eqn:E; [|done].
  apply andb_true_iff in E as [Hl _]. apply Nat.ltb_lt in Hl.
  destruct (IH (take (length s - 1) s)) as [H1 H2]. rewrite H1, take_take, length_take in *.
  rewrite (Nat.min_l 6) by lia. split; [done|]. lia.
Qed.

(** The padded remainder is the remainder's eighteen decimal digits. *)
Lemma padLeft_digits r :
  0 < r < oneTKM → padLeft 18 (big_String r) = digit_char <$> to_digits 10 18 r.
Proof.
  intros Hr. unfold padLeft, big_String.
  rewrite (proj2 (Z.eqb_neq r 0)), (proj2 (Z.ltb_ge r 0)), app_nil_l, Z.abs_eq by lia.
  set (ds := digits_of 10 r).
  assert (Hv : digits_value 10 ds = r) by (apply digits_of_value; lia).
  assert (Hd : Forall (λ d, 0 <= d < 10) ds) by (apply digits_of_range; lia).
  assert (Hlen : (length ds <= 18)%nat).
  { pose proof (proj2 (digit_count_bound 10 ltac:(lia) r ltac:(lia)) ltac:(lia)) as Hlo.
    unfold ds, digits_of. rewrite length_to_digits.
    destruct (le_gt_dec (digit_count 10 r) 18) as [|Hgt]; [done|].
    assert (10 ^ 18 <= 10 ^ (Z.of_nat (digit_count 10 r) - 1)) by (apply Z.pow_le_mono_r; lia).
    unfold oneTKM in *. lia. }
  rewrite length_fmap. transitivity (digit_char <$> (replicate (18 - length ds) 0 ++ ds)).
  { rewrite fmap_app, fmap_replicate. done. }
  f_equal. rewrite <- (to_digits_digits_value 10 ltac:(lia) (replicate (18 - length ds) 0 ++ ds)).
  - f_equal; [rewrite length_app, length_replicate; lia|].
    rewrite digits_value_app, Hv by lia.
    assert (Hz : ∀ n, digits_value 10 (replicate n 0) = 0).
    { intros n. induction n as [|n IH]; [done|]. rewrite replicate_S_end, digits_value_snoc, IH. lia. }
    rewrite Hz. lia.
  - apply Forall_app. split; [apply Forall_replicate; lia|done].
Qed.

Lemma fraction_digits r :
  0 < r < oneTKM →
  let s := padLeft 18 (big_String r) in
  let t := trimZeros (length s) s in
  take (min 6 (length t)) t = digit_char <$> take 6 (to_digits 10 18 r).
Proof.
  intros Hr s t. destruct (trimZeros_take6 (length s) s) as [H1 H2]. fold t in H1, H2.
  unfold s in *. rewrite padLeft_digits in * by done.
  rewrite length_fmap, length_to_digits in H2. specialize (H2 ltac:(lia)).
  rewrite Nat.min_l by lia. rewrite H1. symmetry. apply fmap_take.
Qed.

Lemma big_String_chars x : 0 <= x → Forall (λ c, 48 <= c <= 57) (big_String x).
Proof.
  intros Hx. unfold big_String. destruct (x =? 0); [repeat constructor; lia|].
  rewrite (proj2 (Z.ltb_ge x 0)), app_nil_l by lia.
  apply Forall_fmap. eapply Forall_impl; [apply digits_of_range; lia|].
  intros d Hd. cbn in *. unfold digit_char. lia.
Qed.

Lemma no_dot_prefix s t j :
  Forall (λ c, 48 <= c <= 57) s → (j < length s)%nat →
  has_prefix (drop j (s ++ t)) (str ".") = false.
Proof.
  intros Hs Hj. rewrite drop_app_le by lia.
  destruct (drop j s) as [|c l] eqn:E.
  { apply (f_equal length) in E. rewrite length_drop in E. cbn in E. lia. }
  assert (Hc : 48 <= c <= 57).
  { apply (Forall_drop _ j) in Hs. rewrite E in Hs. by apply Forall_cons in Hs as [? _]. }
  change (str ".") with [46]. cbn [has_prefix app]. rewrite (proj2 (Z.eqb_neq 46 c)) by lia. done.
Qed.

Lemma index_dot s t :
  Forall (λ c, 48 <= c <= 57) s → index_of (s ++ str "." ++ t) (str ".") = Some (length s).
Proof.
  intros Hs. apply index_of_intro.
  - rewrite drop_app_length. apply has_prefix_app.
  - rewrite length_app. lia.
  - intros j Hj. by apply no_dot_prefix.
Qed.

Lemma index_no_dot s : Forall (λ c, 48 <= c <= 57) s → index_of s (str ".") = None.
Proof.
  intros Hs. apply index_of_None. intros l t ->.
  apply Forall_app in Hs as [_ Hs]. change (str ".") with [46] in Hs.
  apply Forall_cons in Hs as [Hc _]. cbn in Hc. lia.
Qed.

(** Parsing a formatted non-negative amount gives the amount rounded down
    to six decimals, [10^12] wei; amounts on that grid round-trip exactly. *)
Theorem parse_format (x : Z) (Hx : 0 <= x) :
  ParseANTD (FormatANTD (Some x)) = Ok (x / 10 ^ 12 * 10 ^ 12).
Proof.
  unfold FormatANTD. set (w := x / oneTKM). set (r := x mod oneTKM).
  assert (Hw : 0 <= w) by (apply Z.div_pos; done).
  assert (Hr : 0 <= r < oneTKM) by (by apply Z.mod_pos_bound).
  assert (Hxr : x = w * oneTKM + r) by (unfold w, r, oneTKM; divlia).
  assert (HT : oneTKM = 10 ^ 6 * 10 ^ 12) by done.
  destruct (r =? 0) eqn:E; bool_to_prop.
  - unfold ParseANTD. rewrite index_no_dot by (by apply big_String_chars).
    rewrite big_SetString_String by done. f_equal. rewrite Hxr, E, HT.
    rewrite Z.add_0_r, Z.mul_assoc, Z.div_mul by done. done.
  - rewrite fraction_digits by lia. set (ds := take 6 (to_digits 10 18 r)).
    unfold ParseANTD. rewrite index_dot by (by apply big_String_chars).
    rewrite take_app_length, big_SetString_String by done.
    rewrite <- drop_drop, drop_app_length.
    change (drop 1 (str "." ++ ?t)) with t.
    assert (Hlen : length ds = 6%nat) by (unfold ds; by rewrite length_take, length_to_digits).
    assert (Hds : Forall (λ d, 0 <= d < 10) ds) by (apply Forall_take, to_digits_range; lia).
    unfold padRight. rewrite length_fmap, Hlen.
    rewrite length_app, length_fmap, Hlen, length_replicate. cbn [Nat.ltb Nat.leb Nat.add Nat.sub].
    change (replicate 12 48) with (digit_char <$> replicate 12 0). rewrite <- fmap_app.
    rewrite big_SetString_digits; cycle 1.
    { by destruct ds. }
    { apply Forall_app. split; [done|]. apply Forall_replicate. lia. }
    f_equal. rewrite digits_value_app by lia. rewrite length_replicate.
    change (digits_value 10 (replicate 12 0)) with 0. change (Z.of_nat 12) with 12.
    assert (Hv : digits_value 10 ds = r / 10 ^ 12).
    { unfold ds. rewrite digits_value_take by
        (rewrite ?length_to_digits; try apply to_digits_range; lia).
      rewrite length_to_digits, digits_value_to_digits, Z.mod_small by (unfold oneTKM in *; lia). done. }
    rewrite Hv, Z.add_0_r, Hxr, HT, Z.mul_assoc, Z.div_add_l by done. lia.
Qed.

Lemma parse_format_witness :
  FormatANTD (Some 1250000000000000000) = str "1.250000" ∧
  ParseANTD (FormatANTD (Some 1250000000000000000)) = Ok 1250000000000000000.
Proof. split; [reflexivity|]. apply (parse_format 1250000000000000000). lia. Defined.

(** The sign of the integer part is not carried to the fraction, and the
    fraction may carry a sign of its own, so ["-1.5"] is parsed as minus one
    half and ["1.-5"] is accepted. *)
Theorem parse_signed_fraction :
  ParseANTD (str "-1.5") = Ok (- 500000000000000000) ∧
  ParseANTD (str "1.-5") = Ok 950000000000000000.
Proof. by vm_compute. Qed.

End Units.
