(* ===== verification/ChainConfig.v ===== *)
(** * Chain configuration

    [params/config.go] and [params/antartical_features.go]: the fork schedule of
    a network, the rules it selects for a block, the validation of the schedule
    and the compatibility check of a stored schedule against a new one.  Block
    numbers are [big.Int], timestamps [uint64]; a [nil] pointer is [None].
    [sha256.Sum256] is a parameter. *)

From Stdlib Require Import Sorted.
From S2P Require Import Prelude Bytes.

Module ChainConfig.

(** ** Schedule *)

Record ChainConfig := {
  ChainID : option Z;
  MergeOverride : bool;
  HomesteadBlock : option Z;
  DAOForkBlock : option Z;
  EIP150Block : option Z;
  EIP155Block : option Z;
  EIP158Block : option Z;
  ByzantiumBlock : option Z;
  ConstantinopleBlock : option Z;
  PetersburgBlock : option Z;
  IstanbulBlock : option Z;
  BerlinBlock : option Z;
  LondonBlock : option Z;
  RandomXTxBlock : option Z;
  RandomXMoneroBlock : option Z;
  ArrowGlacierBlock : option Z;
  GrayGlacierBlock : option Z;
  ShanghaiTime : option Z;
  CancunTime : option Z;
  PragueTime : option Z;
  OsakaTime : option Z;
  BPO1Time : option Z;
  BPO2Time : option Z;
  BPO3Time : option Z;
  BPO4Time : option Z;
  BPO5Time : option Z;
  AmsterdamTime : option Z;
  UBTTime : option Z;
  EDATime : option Z;
  KyotoTime : option Z;
  PhoneTime : option Z;
  PrivacyCommitmentTime : option Z;
  QuantumResistantTime : option Z;
  PQMigrationRecoveryTime : option Z;
  AntarticalTime : option Z;
  UsernameNetworkTime : option Z;
  ValidatorTransactionTime : option Z;
  ShieldedOnlyTime : option Z;
  ConfidentialLedgerTime : option Z;
  Shield5Time : option Z;
  Shield6Time : option Z;
  Shield6RecipientTime : option Z;
  Shield6RecipientKey : bytes;
  Shield6RecipientKeyHash : hash;
  Shield6RegistrationKey : bytes;
  Shield6RegistrationKeyHash : hash;
  Shield6RecipientProvingKeyHash : hash;
  Shield6RegistrationProvingKeyHash : hash;
  EnableUBTAtGenesis : bool;
  MainKingAddress : address;
  PostQuantumMainKingAddress : address;
  ShieldedGroth16VerifyingKey : bytes;
}.

Definition isBlockForked (s : option Z) (head : Z) : bool :=
  match s with Some b => b <=? head | None => false end.

Definition isTimestampForked (s : option Z) (head : Z) : bool :=
  match s with Some t => t <=? head | None => false end.

Definition configBlockEqual (x y : option Z) : bool :=
  match x, y with
  | None, None => true
  | Some x, Some y => x =? y
  | _, _ => false
  end.

Definition configTimestampEqual (x y : option Z) : bool :=
  match x, y with
  | None, None => true
  | Some x, Some y => x =? y
  | _, _ => false
  end.

(** ** Fork predicates *)
Section Forks.
Context (c : ChainConfig).
Implicit Types num time : Z.

Definition IsHomestead num : bool := isBlockForked c.(HomesteadBlock) num.
Definition IsDAOFork num : bool := isBlockForked c.(DAOForkBlock) num.
Definition IsEIP150 num : bool := isBlockForked c.(EIP150Block) num.
Definition IsEIP155 num : bool := isBlockForked c.(EIP155Block) num.
Definition IsEIP158 num : bool := isBlockForked c.(EIP158Block) num.
Definition IsByzantium num : bool := isBlockForked c.(ByzantiumBlock) num.
Definition IsConstantinople num : bool := isBlockForked c.(ConstantinopleBlock) num.
Definition IsPetersburg num : bool :=
  isBlockForked c.(PetersburgBlock) num
  || bool_decide (c.(PetersburgBlock) = None) && isBlockForked c.(ConstantinopleBlock) num.
Definition IsIstanbul num : bool := isBlockForked c.(IstanbulBlock) num.
Definition IsBerlin num : bool := isBlockForked c.(BerlinBlock) num.
Definition IsLondon num : bool := isBlockForked c.(LondonBlock) num.
Definition IsRandomXTx num : bool := IsLondon num && isBlockForked c.(RandomXTxBlock) num.
Definition IsRandomXMonero num : bool := IsRandomXTx num && isBlockForked c.(RandomXMoneroBlock) num.
Definition IsArrowGlacier num : bool := isBlockForked c.(ArrowGlacierBlock) num.
Definition IsGrayGlacier num : bool := isBlockForked c.(GrayGlacierBlock) num.
Definition IsEip1559 num : bool := IsLondon num.

Definition IsShanghai num time : bool := IsLondon num && isTimestampForked c.(ShanghaiTime) time.
Definition IsCancun num time : bool := IsLondon num && isTimestampForked c.(CancunTime) time.
Definition IsPrague num time : bool := IsLondon num && isTimestampForked c.(PragueTime) time.
Definition IsOsaka num time : bool := IsLondon num && isTimestampForked c.(OsakaTime) time.
Definition IsBPO1 num time : bool := IsLondon num && isTimestampForked c.(BPO1Time) time.
Definition IsBPO2 num time : bool := IsLondon num && isTimestampForked c.(BPO2Time) time.
Definition IsBPO3 num time : bool := IsLondon num && isTimestampForked c.(BPO3Time) time.
Definition IsBPO4 num time : bool := IsLondon num && isTimestampForked c.(BPO4Time) time.
Definition IsBPO5 num time : bool := IsLondon num && isTimestampForked c.(BPO5Time) time.
Definition IsAmsterdam num time : bool := IsLondon num && isTimestampForked c.(AmsterdamTime) time.
Definition IsUBT num time : bool := IsLondon num && isTimestampForked c.(UBTTime) time.
Definition IsEDA num time : bool := IsLondon num && isTimestampForked c.(EDATime) time.
Definition IsKyoto num time : bool := IsLondon num && isTimestampForked c.(KyotoTime) time.
Definition IsPhone num time : bool := IsLondon num && isTimestampForked c.(PhoneTime) time.
Definition IsPrivacyCommitments num time : bool := IsLondon num && isTimestampForked c.(PrivacyCommitmentTime) time.
Definition IsQuantumResistant num time : bool := IsLondon num && isTimestampForked c.(QuantumResistantTime) time.
Definition IsAntartical num time : bool := IsLondon num && isTimestampForked c.(AntarticalTime) time.

Definition IsShieldedOnly num time : bool :=
  IsAntartical num time && IsPrivacyCommitments num time && isTimestampForked c.(ShieldedOnlyTime) time.
Definition IsConfidentialLedger num time : bool :=
  IsAntartical num time && IsPrivacyCommitments num time && isTimestampForked c.(ConfidentialLedgerTime) time.
Definition IsShield5 num time : bool :=
  IsAntartical num time && IsPrivacyCommitments num time && isTimestampForked c.(Shield5Time) time.
Definition IsShield6 num time : bool :=
  IsAntartical num time && IsPrivacyCommitments num time && isTimestampForked c.(Shield6Time) time.
Definition IsShield6Recipients num time : bool :=
  IsShield6 num time && isTimestampForked c.(Shield6RecipientTime) time.
Definition IsTkmnetRequired num time : bool := IsAntartical num time.
Definition IsUsernameNetworkActive num time : bool :=
  IsAntartical num time && isTimestampForked c.(UsernameNetworkTime) time.
Definition IsValidatorTransactionsActive num time : bool :=
  IsAntartical num time && isTimestampForked c.(ValidatorTransactionTime) time.
Definition IsPQMigrationAllowed num time : bool :=
  if negb (IsQuantumResistant num time) then true
  else IsLondon num && isTimestampForked c.(PQMigrationRecoveryTime) time.

Definition MainKingAddressAt num time : address :=
  if bool_decide (c.(PostQuantumMainKingAddress) ≠ zeroAddress) && IsQuantumResistant num time
  then c.(PostQuantumMainKingAddress) else c.(MainKingAddress).

Definition IsUBTGenesis : bool := c.(EnableUBTAtGenesis).
End Forks.

(** ** Antartical features ([params/antartical_features.go]) *)

Inductive AntarticalFeature :=
| FeatureAccountAbstraction
| FeatureParallelExecution
| FeatureAlternativeEVM
| FeatureFormalVerification
| FeatureMultidimensionalGas
| FeatureBlobGas
| FeatureNativePrivacy
| FeatureStatelessVerkle
| FeatureNativeRandomness
| FeatureOracles
| FeatureCrossChain
| FeatureEOF
| FeatureModularPrecompiles
| FeatureDeterministicGas
| FeatureSingleSlotFinality
| FeatureBlockHashAnchors.

#[global] Instance AntarticalFeature_eq_dec : EqDecision AntarticalFeature.
Proof. solve_decision. Defined.

(** The catalogue: feature and consensus readiness. *)
Definition antarticalFeatureInfo : list (AntarticalFeature * bool) :=
  [(FeatureAccountAbstraction, false);
   (FeatureParallelExecution, false);
   (FeatureAlternativeEVM, false);
   (FeatureFormalVerification, false);
   (FeatureMultidimensionalGas, false);
   (FeatureBlobGas, true);
   (FeatureNativePrivacy, true);
   (FeatureStatelessVerkle, false);
   (FeatureNativeRandomness, false);
   (FeatureOracles, false);
   (FeatureCrossChain, false);
   (FeatureEOF, false);
   (FeatureModularPrecompiles, false);
   (FeatureDeterministicGas, true);
   (FeatureSingleSlotFinality, false);
   (FeatureBlockHashAnchors, true)].

Definition AntarticalFeatureConsensusReady (feature : AntarticalFeature) : bool :=
  match base.filter (λ e, e.1 = feature) antarticalFeatureInfo with
  | (_, ready) :: _ => ready
  | [] => false
  end.

Definition IsAntarticalFeatureActive (c : ChainConfig) (feature : AntarticalFeature) (num time : Z) : bool :=
  if negb (IsAntartical c num time) then false
  else existsb (λ e, bool_decide (e.1 = feature)) antarticalFeatureInfo.

Definition IsAntarticalConsensusFeatureActive (c : ChainConfig) (feature : AntarticalFeature) (num time : Z) : bool :=
  IsAntarticalFeatureActive c feature num time && AntarticalFeatureConsensusReady feature.

(** ** Rules *)

Definition TKMProfileLegacyVersion : Z := 0.
Definition TKMProfileAntarticalVersion : Z := 1.

Record RulesT := {
  R_IsHomestead : bool;
  R_IsEIP150 : bool;
  R_IsEIP155 : bool;
  R_IsEIP158 : bool;
  R_IsByzantium : bool;
  R_IsConstantinople : bool;
  R_IsPetersburg : bool;
  R_IsIstanbul : bool;
  R_IsBerlin : bool;
  R_IsLondon : bool;
  R_IsRandomXTx : bool;
  R_IsRandomXMonero : bool;
  R_IsArrowGlacier : bool;
  R_IsGrayGlacier : bool;
  R_IsShanghai : bool;
  R_IsCancun : bool;
  R_IsPrague : bool;
  R_IsOsaka : bool;
  R_IsBPO1 : bool;
  R_IsBPO2 : bool;
  R_IsBPO3 : bool;
  R_IsBPO4 : bool;
  R_IsBPO5 : bool;
  R_IsAmsterdam : bool;
  R_IsUBT : bool;
  R_IsKyoto : bool;
  R_IsPhone : bool;
  R_IsQuantumResistant : bool;
  R_IsAntartical : bool;
  R_IsShieldedOnly : bool;
  R_IsConfidentialLedger : bool;
  R_IsTkmnetRequired : bool;
  R_IsPQMigrationAllowed : bool;
  R_IsAccountAbstraction : bool;
  R_IsParallelExecution : bool;
  R_IsAlternativeEVM : bool;
  R_IsFormalVerification : bool;
  R_IsMultidimensionalGas : bool;
  R_IsBlobGas : bool;
  R_IsNativePrivacy : bool;
  R_IsStatelessVerkle : bool;
  R_IsNativeRandomness : bool;
  R_IsNativeOracles : bool;
  R_IsCrossChainStandards : bool;
  R_IsEOF : bool;
  R_IsModularPrecompiles : bool;
  R_IsDeterministicGas : bool;
  R_IsSingleSlotFinality : bool;
  R_IsBlockHashAnchors : bool;
  R_IsEIP2929 : bool;
  R_IsEIP4762 : bool;
  R_TKMProfileVersion : Z;
  R_IsMerge : bool;
}.

Definition Rules (c : ChainConfig) (num : Z) (isMerge : bool) (timestamp : Z) : RulesT := {|
  R_IsHomestead := IsHomestead c num;
  R_IsEIP150 := IsEIP150 c num;
  R_IsEIP155 := IsEIP155 c num;
  R_IsEIP158 := IsEIP158 c num;
  R_IsByzantium := IsByzantium c num;
  R_IsConstantinople := IsConstantinople c num;
  R_IsPetersburg := IsPetersburg c num;
  R_IsIstanbul := IsIstanbul c num;
  R_IsBerlin := IsBerlin c num;
  R_IsLondon := IsLondon c num;
  R_IsRandomXTx := IsRandomXTx c num;
  R_IsRandomXMonero := IsRandomXMonero c num;
  R_IsArrowGlacier := IsArrowGlacier c num;
  R_IsGrayGlacier := IsGrayGlacier c num;
  R_IsShanghai := IsShanghai c num timestamp;
  R_IsCancun := IsCancun c num timestamp;
  R_IsPrague := IsPrague c num timestamp;
  R_IsOsaka := IsOsaka c num timestamp;
  R_IsBPO1 := IsBPO1 c num timestamp;
  R_IsBPO2 := IsBPO2 c num timestamp;
  R_IsBPO3 := IsBPO3 c num timestamp;
  R_IsBPO4 := IsBPO4 c num timestamp;
  R_IsBPO5 := IsBPO5 c num timestamp;
  R_IsAmsterdam := IsAmsterdam c num timestamp;
  R_IsUBT := IsUBT c num timestamp;
  R_IsKyoto := IsKyoto c num timestamp;
  R_IsPhone := IsPhone c num timestamp;
  R_IsQuantumResistant := IsQuantumResistant c num timestamp;
  R_IsAntartical := IsAntartical c num timestamp;
  R_IsShieldedOnly := IsShieldedOnly c num timestamp;
  R_IsConfidentialLedger := IsConfidentialLedger c num timestamp;
  R_IsTkmnetRequired := IsTkmnetRequired c num timestamp;
  R_IsPQMigrationAllowed := IsPQMigrationAllowed c num timestamp;
  R_IsAccountAbstraction := IsAntarticalConsensusFeatureActive c FeatureAccountAbstraction num timestamp;
  R_IsParallelExecution := IsAntarticalConsensusFeatureActive c FeatureParallelExecution num timestamp;
  R_IsAlternativeEVM := IsAntarticalConsensusFeatureActive c FeatureAlternativeEVM num timestamp;
  R_IsFormalVerification := IsAntarticalConsensusFeatureActive c FeatureFormalVerification num timestamp;
  R_IsMultidimensionalGas := IsAntarticalConsensusFeatureActive c FeatureMultidimensionalGas num timestamp;
  R_IsBlobGas := IsAntarticalConsensusFeatureActive c FeatureBlobGas num timestamp;
  R_IsNativePrivacy := IsAntarticalConsensusFeatureActive c FeatureNativePrivacy num timestamp;
  R_IsStatelessVerkle := IsAntarticalConsensusFeatureActive c FeatureStatelessVerkle num timestamp;
  R_IsNativeRandomness := IsAntarticalConsensusFeatureActive c FeatureNativeRandomness num timestamp;
  R_IsNativeOracles := IsAntarticalConsensusFeatureActive c FeatureOracles num timestamp;
  R_IsCrossChainStandards := IsAntarticalConsensusFeatureActive c FeatureCrossChain num timestamp;
  R_IsEOF := IsAntarticalConsensusFeatureActive c FeatureEOF num timestamp;
  R_IsModularPrecompiles := IsAntarticalConsensusFeatureActive c FeatureModularPrecompiles num timestamp;
  R_IsDeterministicGas := IsAntarticalConsensusFeatureActive c FeatureDeterministicGas num timestamp;
  R_IsSingleSlotFinality := IsAntarticalConsensusFeatureActive c FeatureSingleSlotFinality num timestamp;
  R_IsBlockHashAnchors := IsAntarticalConsensusFeatureActive c FeatureBlockHashAnchors num timestamp;
  R_IsEIP2929 := IsBerlin c num && negb (IsUBT c num timestamp);
  R_IsEIP4762 := IsUBT c num timestamp;
  R_TKMProfileVersion :=
    if IsAntartical c num timestamp then TKMProfileAntarticalVersion else TKMProfileLegacyVersion;
  R_IsMerge := isMerge || c.(MergeOverride);
|}.

(** ** Validation of the schedule *)

Inductive orderError :=
| ErrRecipientBeforeShield6
| ErrRecipientKeyPin
| ErrProvingKeyHashes
| ErrRegistrationKeyPin
| ErrConfidentialPrerequisites
| ErrConfidentialShieldedOnly
| ErrConfidentialBeforeAntartical
| ErrShield5Prerequisites
| ErrShield5BeforeAntartical
| ErrShield6Prerequisites
| ErrShield6BeforeAntartical
| ErrShieldedOnlyPrerequisites
| ErrValidatorPrerequisites
| ErrValidatorBeforeAntartical
| ErrBlockOrder (lastName name : String.string)
| ErrTimeOrder (lastName name : String.string).

Section Order.
Context (sha256 : bytes → hash).

(** A key is pinned when it is non-empty, at most 64 KiB, and hashes to the
    non-zero pin. *)
Definition keyPinned (key : bytes) (pin : hash) : bool :=
  negb ((length key =? 0)%nat || (64 * 1024 <? Z.of_nat (length key))
        || bool_decide (pin = zeroHash) || negb (sha256 key =? pin)).

Definition isNil (x : option Z) : bool := bool_decide (x = None).

(** [*a < *b] for pointers known to be set. *)
Definition before (a b : option Z) : bool :=
  match a, b with Some a, Some b => a <? b | _, _ => false end.

Definition checkShield6Recipient (c : ChainConfig) : result orderError unit :=
  match c.(Shield6RecipientTime) with
  | None => Ok tt
  | Some t =>
      _ ← fail_if (isNil c.(Shield6Time) || before (Some t) c.(Shield6Time)) ErrRecipientBeforeShield6;
      _ ← fail_if (negb (keyPinned c.(Shield6RecipientKey) c.(Shield6RecipientKeyHash))) ErrRecipientKeyPin;
      _ ← fail_if (bool_decide (c.(Shield6RecipientProvingKeyHash) = zeroHash)
                   || bool_decide (c.(Shield6RegistrationProvingKeyHash) = zeroHash)) ErrProvingKeyHashes;
      fail_if (negb (keyPinned c.(Shield6RegistrationKey) c.(Shield6RegistrationKeyHash))) ErrRegistrationKeyPin
  end.

Definition lacksPrivacyForks (c : ChainConfig) : bool :=
  isNil c.(AntarticalTime) || isNil c.(PrivacyCommitmentTime) || isNil c.(QuantumResistantTime).

Definition checkPrerequisites (c : ChainConfig) : result orderError unit :=
  let lacksAll := lacksPrivacyForks c || isNil c.(LondonBlock) in
  let set x := negb (isNil x) in
  _ ← fail_if (set c.(ConfidentialLedgerTime) && lacksAll) ErrConfidentialPrerequisites;
  _ ← fail_if (set c.(ConfidentialLedgerTime) && set c.(ShieldedOnlyTime)) ErrConfidentialShieldedOnly;
  _ ← fail_if (before c.(ConfidentialLedgerTime) c.(AntarticalTime)) ErrConfidentialBeforeAntartical;
  _ ← fail_if (set c.(Shield5Time) && lacksAll) ErrShield5Prerequisites;
  _ ← fail_if (before c.(Shield5Time) c.(AntarticalTime)) ErrShield5BeforeAntartical;
  _ ← fail_if (set c.(Shield6Time) && lacksAll) ErrShield6Prerequisites;
  _ ← fail_if (before c.(Shield6Time) c.(AntarticalTime)) ErrShield6BeforeAntartical;
  _ ← fail_if (set c.(ShieldedOnlyTime) && lacksAll) ErrShieldedOnlyPrerequisites;
  _ ← fail_if (set c.(ValidatorTransactionTime) && lacksPrivacyForks c) ErrValidatorPrerequisites;
  fail_if (before c.(ValidatorTransactionTime) c.(AntarticalTime)) ErrValidatorBeforeAntartical.

(** Name, activation block, and whether the fork may be skipped. *)
Definition blockForks (c : ChainConfig) : list (String.string * option Z * bool) :=
  [("homesteadBlock", c.(HomesteadBlock), false);
   ("daoForkBlock", c.(DAOForkBlock), true);
   ("eip150Block", c.(EIP150Block), false);
   ("eip155Block", c.(EIP155Block), false);
   ("eip158Block", c.(EIP158Block), false);
   ("byzantiumBlock", c.(ByzantiumBlock), false);
   ("constantinopleBlock", c.(ConstantinopleBlock), false);
   ("petersburgBlock", c.(PetersburgBlock), true);
   ("istanbulBlock", c.(IstanbulBlock), false);
   ("berlinBlock", c.(BerlinBlock), false);
   ("londonBlock", c.(LondonBlock), false);
   ("randomXTxBlock", c.(RandomXTxBlock), true);
   ("randomXMoneroBlock", c.(RandomXMoneroBlock), true);
   ("arrowGlacierBlock", c.(ArrowGlacierBlock), true);
   ("grayGlacierBlock", c.(GrayGlacierBlock), true)]%string.

Definition timeForks (c : ChainConfig) : list (String.string * option Z) :=
  [("shanghaiTime", c.(ShanghaiTime));
   ("edaTime", c.(EDATime));
   ("kyotoTime", c.(KyotoTime));
   ("phoneTime", c.(PhoneTime));
   ("privacyCommitmentTime", c.(PrivacyCommitmentTime));
   ("quantumResistantTime", c.(QuantumResistantTime));
   ("pqMigrationRecoveryTime", c.(PQMigrationRecoveryTime));
   ("cancunTime", c.(CancunTime));
   ("pragueTime", c.(PragueTime));
   ("osakaTime", c.(OsakaTime));
   ("bpo1Time", c.(BPO1Time));
   ("bpo2Time", c.(BPO2Time));
   ("bpo3Time", c.(BPO3Time));
   ("bpo4Time", c.(BPO4Time));
   ("bpo5Time", c.(BPO5Time));
   ("amsterdamTime", c.(AmsterdamTime));
   ("ubtTime", c.(UBTTime));
   ("antarticalTime", c.(AntarticalTime));
   ("shield5Time", c.(Shield5Time));
   ("shieldedOnlyTime", c.(ShieldedOnlyTime));
   ("usernameNetworkTime", c.(UsernameNetworkTime))]%string.

(** The loop over [blockForks]; an unset required fork forgets the last block. *)
Fixpoint checkBlockOrder (lastName : String.string) (lastBlock : option Z)
    (forks : list (String.string * option Z * bool)) : result orderError unit :=
  match forks with
  | [] => Ok tt
  | (name, None, optional) :: rest =>
      if optional then checkBlockOrder lastName lastBlock rest else checkBlockOrder name None rest
  | (name, Some block, _) :: rest =>
      if before (Some block) lastBlock then Err (ErrBlockOrder lastName name)
      else checkBlockOrder name (Some block) rest
  end.

Fixpoint checkTimeOrder (lastName : String.string) (lastTime : option Z)
    (forks : list (String.string * option Z)) : result orderError unit :=
  match forks with
  | [] => Ok tt
  | (_, None) :: rest => checkTimeOrder lastName lastTime rest
  | (name, Some time) :: rest =>
      if before (Some time) lastTime then Err (ErrTimeOrder lastName name)
      else checkTimeOrder name (Some time) rest
  end.

Definition CheckConfigForkOrder (c : option ChainConfig) : result orderError unit :=
  match c with
  | None => Ok tt
  | Some c =>
      _ ← checkShield6Recipient c;
      _ ← checkPrerequisites c;
      _ ← checkBlockOrder "" None (blockForks c);
      checkTimeOrder "" None (timeForks c)
  end.
End Order.

(** ** Compatibility of two schedules *)

Record ConfigCompatError := {
  What : String.string;
  StoredBlock : option Z;
  NewBlock : option Z;
  StoredTime : option Z;
  NewTime : option Z;
  RewindToBlock : Z;
  RewindToTime : Z;
}.

Definition isForkBlockIncompatible (storedBlock newBlock : option Z) (head : Z) : bool :=
  negb (Bool.eqb (isBlockForked storedBlock head) (isBlockForked newBlock head))
  || isBlockForked storedBlock head && negb (configBlockEqual storedBlock newBlock).

Definition isForkTimestampIncompatible (storedTime newTime : option Z) (head : Z) : bool :=
  negb (Bool.eqb (isTimestampForked storedTime head) (isTimestampForked newTime head))
  || isTimestampForked storedTime head && negb (configTimestampEqual storedTime newTime).

Definition newBlockCompatError (what : String.string) (storedBlock newBlock : option Z) : ConfigCompatError :=
  let rew :=
    match storedBlock, newBlock with
    | None, _ => newBlock
    | Some s, None => Some s
    | Some s, Some n => if s <? n then Some s else Some n
    end in
  let rewind := match rew with Some r => if 0 <? r then u64 (r - 1) else 0 | None => 0 end in
  {| What := what; StoredBlock := storedBlock; NewBlock := newBlock; StoredTime := None; NewTime := None;
     RewindToBlock := rewind; RewindToTime := 0 |}.

Definition newTimestampCompatError (what : String.string) (storedTime newTime : option Z) : ConfigCompatError :=
  let prev t := if 0 <? t then t -₆₄ 1 else 0 in
  let rewind :=
    match storedTime, newTime with
    | None, Some n => prev n
    | Some s, None => prev s
    | Some s, Some n => if s <? n then prev s else prev n
    | None, None => 0
    end in
  {| What := what; StoredBlock := None; NewBlock := None; StoredTime := storedTime; NewTime := newTime;
     RewindToBlock := 0; RewindToTime := rewind |}.

(** One guard of [checkCompatible], as a function of the head. *)
Definition check := Z → Z → option ConfigCompatError.

Definition blockCheck (what : String.string) (stored new : option Z) : check := λ headBlock _,
  if isForkBlockIncompatible stored new headBlock then Some (newBlockCompatError what stored new) else None.

Definition timeCheck (what : String.string) (stored new : option Z) : check := λ _ headTimestamp,
  if isForkTimestampIncompatible stored new headTimestamp then Some (newTimestampCompatError what stored new) else None.

Definition petersburgCheck (c newcfg : ChainConfig) : check := λ headBlock _,
  if isForkBlockIncompatible c.(PetersburgBlock) newcfg.(PetersburgBlock) headBlock
     && isForkBlockIncompatible c.(ConstantinopleBlock) newcfg.(PetersburgBlock) headBlock
  then Some (newBlockCompatError "Petersburg fork block" c.(PetersburgBlock) newcfg.(PetersburgBlock)) else None.

Definition sameRecipientKeys (c newcfg : ChainConfig) : bool :=
  bool_decide (c.(Shield6RecipientKeyHash) = newcfg.(Shield6RecipientKeyHash))
  && bool_decide (c.(Shield6RecipientKey) = newcfg.(Shield6RecipientKey))
  && bool_decide (c.(Shield6RecipientProvingKeyHash) = newcfg.(Shield6RecipientProvingKeyHash))
  && bool_decide (c.(Shield6RegistrationProvingKeyHash) = newcfg.(Shield6RegistrationProvingKeyHash))
  && bool_decide (c.(Shield6RegistrationKeyHash) = newcfg.(Shield6RegistrationKeyHash))
  && bool_decide (c.(Shield6RegistrationKey) = newcfg.(Shield6RegistrationKey)).

Definition recipientKeyCheck (c newcfg : ChainConfig) : check := λ headBlock headTimestamp,
  if (IsShield6Recipients c headBlock headTimestamp || IsShield6Recipients newcfg headBlock headTimestamp)
     && negb (sameRecipientKeys c newcfg)
  then Some (newTimestampCompatError "Shield6 recipient verification key" c.(Shield6RecipientTime) newcfg.(Shield6RecipientTime))
  else None.

Definition groth16Check (c newcfg : ChainConfig) : check := λ headBlock headTimestamp,
  if IsPrivacyCommitments c headBlock headTimestamp
     && negb (bool_decide (c.(ShieldedGroth16VerifyingKey) = newcfg.(ShieldedGroth16VerifyingKey)))
  then Some {| What := "Shielded Groth16 verifying key"; StoredBlock := Some headBlock; NewBlock := Some headBlock;
               StoredTime := None; NewTime := None; RewindToBlock := headBlock; RewindToTime := 0 |}
  else None.

Definition addressCheck (what : String.string) (a b : address) : check := λ _ _,
  if bool_decide (a ≠ b)
  then Some {| What := what; StoredBlock := None; NewBlock := None; StoredTime := None; NewTime := None;
               RewindToBlock := 0; RewindToTime := 0 |}
  else None.

(** The guards of [checkCompatible] in source order. *)
Definition compatChecks (c newcfg : ChainConfig) : list check :=
  [blockCheck "Homestead fork block" c.(HomesteadBlock) newcfg.(HomesteadBlock);
   blockCheck "DAO fork block" c.(DAOForkBlock) newcfg.(DAOForkBlock);
   blockCheck "EIP150 fork block" c.(EIP150Block) newcfg.(EIP150Block);
   blockCheck "EIP155 fork block" c.(EIP155Block) newcfg.(EIP155Block);
   blockCheck "EIP158 fork block" c.(EIP158Block) newcfg.(EIP158Block);
   blockCheck "Byzantium fork block" c.(ByzantiumBlock) newcfg.(ByzantiumBlock);
   blockCheck "Constantinople fork block" c.(ConstantinopleBlock) newcfg.(ConstantinopleBlock);
   petersburgCheck c newcfg;
   blockCheck "Istanbul fork block" c.(IstanbulBlock) newcfg.(IstanbulBlock);
   blockCheck "Berlin fork block" c.(BerlinBlock) newcfg.(BerlinBlock);
   blockCheck "London fork block" c.(LondonBlock) newcfg.(LondonBlock);
   blockCheck "RandomX transaction fork block" c.(RandomXTxBlock) newcfg.(RandomXTxBlock);
   blockCheck "RandomX Monero proof fork block" c.(RandomXMoneroBlock) newcfg.(RandomXMoneroBlock);
   timeCheck "Shanghai fork timestamp" c.(ShanghaiTime) newcfg.(ShanghaiTime);
   timeCheck "Cancun fork timestamp" c.(CancunTime) newcfg.(CancunTime);
   timeCheck "Prague fork timestamp" c.(PragueTime) newcfg.(PragueTime);
   timeCheck "Osaka fork timestamp" c.(OsakaTime) newcfg.(OsakaTime);
   timeCheck "BPO1 fork timestamp" c.(BPO1Time) newcfg.(BPO1Time);
   timeCheck "BPO2 fork timestamp" c.(BPO2Time) newcfg.(BPO2Time);
   timeCheck "BPO3 fork timestamp" c.(BPO3Time) newcfg.(BPO3Time);
   timeCheck "BPO4 fork timestamp" c.(BPO4Time) newcfg.(BPO4Time);
   timeCheck "BPO5 fork timestamp" c.(BPO5Time) newcfg.(BPO5Time);
   timeCheck "Amsterdam fork timestamp" c.(AmsterdamTime) newcfg.(AmsterdamTime);
   timeCheck "UBT fork timestamp" c.(UBTTime) newcfg.(UBTTime);
   timeCheck "EDA fork timestamp" c.(EDATime) newcfg.(EDATime);
   timeCheck "Kyoto fork timestamp" c.(KyotoTime) newcfg.(KyotoTime);
   timeCheck "Phone fork timestamp" c.(PhoneTime) newcfg.(PhoneTime);
   timeCheck "Privacy commitment fork timestamp" c.(PrivacyCommitmentTime) newcfg.(PrivacyCommitmentTime);
   timeCheck "Quantum-resistant transaction fork timestamp" c.(QuantumResistantTime) newcfg.(QuantumResistantTime);
   timeCheck "PQ migration recovery fork timestamp" c.(PQMigrationRecoveryTime) newcfg.(PQMigrationRecoveryTime);
   timeCheck "Antartical fork timestamp" c.(AntarticalTime) newcfg.(AntarticalTime);
   timeCheck "Shield5 fork timestamp" c.(Shield5Time) newcfg.(Shield5Time);
   timeCheck "Shield6 fork timestamp" c.(Shield6Time) newcfg.(Shield6Time);
   timeCheck "Shield6 recipient-proof fork timestamp" c.(Shield6RecipientTime) newcfg.(Shield6RecipientTime);
   recipientKeyCheck c newcfg;
   timeCheck "Shielded-only fork timestamp" c.(ShieldedOnlyTime) newcfg.(ShieldedOnlyTime);
   timeCheck "Confidential ledger timestamp" c.(ConfidentialLedgerTime) newcfg.(ConfidentialLedgerTime);
   timeCheck "Username network fork timestamp" c.(UsernameNetworkTime) newcfg.(UsernameNetworkTime);
   timeCheck "Validator transaction fork timestamp" c.(ValidatorTransactionTime) newcfg.(ValidatorTransactionTime);
   groth16Check c newcfg;
   addressCheck "main king address" c.(MainKingAddress) newcfg.(MainKingAddress);
   addressCheck "post-quantum main king address" c.(PostQuantumMainKingAddress) newcfg.(PostQuantumMainKingAddress)].

Fixpoint firstError (checks : list check) (headBlock headTimestamp : Z) : option ConfigCompatError :=
  match checks with
  | [] => None
  | ch :: rest =>
      match ch headBlock headTimestamp with
      | Some err => Some err
      | None => firstError rest headBlock headTimestamp
      end
  end.

Definition checkCompatible (c newcfg : option ChainConfig) (headBlock headTimestamp : Z) : option ConfigCompatError :=
  match c, newcfg with
  | Some c, Some newcfg => firstError (compatChecks c newcfg) headBlock headTimestamp
  | _, _ => None
  end.

(** The loop of [CheckCompatible]; the outer [None] means that [fuel] iterations
    did not suffice. *)
Fixpoint compatLoop (fuel : nat) (c newcfg : option ChainConfig) (headBlock headTimestamp : Z)
    (lastErr : option ConfigCompatError) : option (option ConfigCompatError) :=
  match fuel with
  | O => None
  | S f =>
      match checkCompatible c newcfg headBlock headTimestamp with
      | None => Some lastErr
      | Some err =>
          if match lastErr with
             | Some l => (err.(RewindToBlock) =? l.(RewindToBlock)) && (err.(RewindToTime) =? l.(RewindToTime))
             | None => false
             end
          then Some (Some err)
          else compatLoop f c newcfg
                 (if err.(RewindToBlock) =? 0 then headBlock else err.(RewindToBlock))
                 (if err.(RewindToTime) =? 0 then headTimestamp else err.(RewindToTime)) (Some err)
      end
  end.

(** One iteration per guard that can fail, one that repeats the last error, and
    one that finds none. *)
Definition compatFuel : nat := 45.

Definition CheckCompatible (c newcfg : option ChainConfig) (headBlock headTimestamp : Z) : option (option ConfigCompatError) :=
  compatLoop compatFuel c newcfg headBlock headTimestamp None.

(** ** Timestamp forks by name *)

Inductive Fork := ForkLondon | ForkShanghai | ForkCancun | ForkPrague | ForkOsaka
  | ForkBPO1 | ForkBPO2 | ForkBPO3 | ForkBPO4 | ForkBPO5 | ForkAmsterdam.

Definition Timestamp (c : ChainConfig) (fork : Fork) : option Z :=
  match fork with
  | ForkShanghai => c.(ShanghaiTime)
  | ForkCancun => c.(CancunTime)
  | ForkPrague => c.(PragueTime)
  | ForkOsaka => c.(OsakaTime)
  | ForkBPO1 => c.(BPO1Time)
  | ForkBPO2 => c.(BPO2Time)
  | ForkBPO3 => c.(BPO3Time)
  | ForkBPO4 => c.(BPO4Time)
  | ForkBPO5 => c.(BPO5Time)
  | ForkAmsterdam => c.(AmsterdamTime)
  | ForkLondon => None
  end.

Definition LatestFork (c : ChainConfig) (timestamp : Z) : Fork :=
  foldl (λ latest fork, match Timestamp c fork with Some t => if t <=? timestamp then fork else latest | None => latest end)
    ForkLondon
    [ForkShanghai; ForkCancun; ForkPrague; ForkOsaka; ForkBPO1; ForkBPO2; ForkBPO3; ForkBPO4; ForkBPO5; ForkAmsterdam].

(** ** Compatible schedules agree on the past *)

Lemma incompatible_false s n head num :
  isForkBlockIncompatible s n head = false → num <= head → isBlockForked s num = isBlockForked n num.
Proof.
  unfold isForkBlockIncompatible, isBlockForked, configBlockEqual.
  destruct s as [a|], n as [b|]; cbn; intros H Hle; bool_to_prop; try done.
  - destruct (Z.leb_spec a head), (Z.leb_spec b head); cbn in *; bool_to_prop; try done; [by subst|].
    destruct (Z.leb_spec a num), (Z.leb_spec b num); try done; lia.
  - destruct (Z.leb_spec a head), (Z.leb_spec a num); cbn in *; try done; lia.
  - destruct (Z.leb_spec b head), (Z.leb_spec b num); cbn in *; try done; lia.
Qed.

Lemma blockCheck_None w s n hb ht num :
  blockCheck w s n hb ht = None → num <= hb → isBlockForked s num = isBlockForked n num.
Proof. unfold blockCheck. case_if; [done|]. intros _. by apply incompatible_false. Qed.

Lemma timeCheck_None w s n hb ht time :
  timeCheck w s n hb ht = None → time <= ht → isTimestampForked s time = isTimestampForked n time.
Proof. unfold timeCheck. case_if; [done|]. intros _. by apply incompatible_false. Qed.

Lemma addressCheck_None w a b hb ht : addressCheck w a b hb ht = None → a = b.
Proof. unfold addressCheck. destruct (decide (a = b)); [done|]. by rewrite bool_decide_true. Qed.

Lemma firstError_None checks hb ht :
  firstError checks hb ht = None ↔ Forall (λ ch, ch hb ht = None) checks.
Proof.
  induction checks as [|ch checks IH]; cbn; [by split|]. rewrite Forall_cons, <- IH.
  destruct (ch hb ht); naive_solver.
Qed.

(** Turns the passed guards of [checkCompatible] into equations between the fork
    predicates of the two schedules. *)
Ltac guards_to_equations Hb Ht :=
  repeat match goal with
  | H : blockCheck _ _ _ _ _ = None |- _ => apply (λ H, blockCheck_None _ _ _ _ _ _ H Hb) in H
  | H : timeCheck _ _ _ _ _ = None |- _ => apply (λ H, timeCheck_None _ _ _ _ _ _ H Ht) in H
  | H : addressCheck _ _ _ _ _ = None |- _ => apply addressCheck_None in H
  end.

Ltac rewrite_forks :=
  repeat match goal with
  | H : isBlockForked _ _ = _ |- _ => rewrite H; clear H
  | H : isTimestampForked _ _ = _ |- _ => rewrite H; clear H
  end.

(** C32: When [checkCompatible] accepts a new schedule at a head, and the two schedules
    agree on the Petersburg, Arrow Glacier and Gray Glacier blocks and on the in-memory
    merge switch, which the check does not fully compare, they select the same rules and
    the same main king for every block at or below that head. *)
Theorem compatible_configs_same_rules (c n : ChainConfig) (hb ht num time : Z) (isMerge : bool)
    (Hok : checkCompatible (Some c) (Some n) hb ht = None)
    (Hpet : c.(PetersburgBlock) = n.(PetersburgBlock))
    (Harrow : c.(ArrowGlacierBlock) = n.(ArrowGlacierBlock))
    (Hgray : c.(GrayGlacierBlock) = n.(GrayGlacierBlock))
    (Hmerge : c.(MergeOverride) = n.(MergeOverride))
    (Hnum : num <= hb) (Htime : time <= ht) :
  Rules c num isMerge time = Rules n num isMerge time ∧
  MainKingAddressAt c num time = MainKingAddressAt n num time.
Proof.
  apply (firstError_None (compatChecks c n)) in Hok. unfold compatChecks in Hok.
  rewrite !Forall_cons in Hok. destruct_and! Hok. guards_to_equations Hnum Htime.
  unfold Rules, MainKingAddressAt, IsAntarticalConsensusFeatureActive, IsAntarticalFeatureActive,
    IsPetersburg, IsPQMigrationAllowed, IsShieldedOnly, IsConfidentialLedger, IsTkmnetRequired,
    IsAntartical, IsPrivacyCommitments, IsQuantumResistant, IsRandomXMonero, IsRandomXTx,
    IsHomestead, IsEIP150, IsEIP155, IsEIP158, IsByzantium, IsConstantinople, IsIstanbul, IsBerlin,
    IsArrowGlacier, IsGrayGlacier, IsShanghai, IsCancun, IsPrague, IsOsaka, IsBPO1, IsBPO2, IsBPO3,
    IsBPO4, IsBPO5, IsAmsterdam, IsUBT, IsKyoto, IsPhone, IsLondon.
  rewrite_forks. rewrite Hpet, Harrow, Hgray, Hmerge.
  repeat match goal with H : _ c = _ n |- _ => rewrite H; clear H end. done.
Qed.

(** ** The compatibility loop *)

(** The head after one rewind. *)
Definition rewindHead (rewind head : Z) : Z := if rewind =? 0 then head else rewind.

(** What makes a guard converge: it stays passed when the head moves back, and
    rewinding by its own error either passes it or leaves the head alone. *)
Definition converges (ch : check) : Prop :=
  (∀ hb ht hb' ht', hb' <= hb → ht' <= ht → ch hb ht = None → ch hb' ht' = None) ∧
  (∀ hb ht e, is_u64 hb → is_u64 ht → ch hb ht = Some e →
    let hb' := rewindHead e.(RewindToBlock) hb in
    let ht' := rewindHead e.(RewindToTime) ht in
    0 <= hb' <= hb ∧ 0 <= ht' <= ht ∧ (ch hb' ht' = None ∨ hb' = hb ∧ ht' = ht)).

(** The smaller of two optional activations. *)
Definition optMin (s n : option Z) : option Z :=
  match s, n with
  | Some a, Some b => Some (Z.min a b)
  | Some a, None | None, Some a => Some a
  | None, None => None
  end.

Lemma incompatible_antitone s n head head' :
  head' <= head → isForkBlockIncompatible s n head = false → isForkBlockIncompatible s n head' = false.
Proof.
  intros Hle H. pose proof (incompatible_false s n head head' H Hle) as He.
  unfold isForkBlockIncompatible in *. rewrite He. rewrite eqb_reflx. cbn.
  destruct (isBlockForked n head') eqn:En; [|done]. cbn.
  assert (Hs : isBlockForked s head = true).
  { unfold isBlockForked in He |- *. destruct s; [|done]. apply Z.leb_le in He. apply Z.leb_le. lia. }
  rewrite Hs in H. apply orb_false_iff in H as [_ H]. done.
Qed.

Lemma incompatible_min s n head :
  isForkBlockIncompatible s n head = true → ∃ m, optMin s n = Some m ∧ m <= head.
Proof.
  unfold isForkBlockIncompatible, isBlockForked. destruct s as [a|], n as [b|]; cbn; intros H.
  - eexists. split; [done|]. destruct (Z.leb_spec a head), (Z.leb_spec b head); cbn in H; try done; lia.
  - eexists. split; [done|]. destruct (Z.leb_spec a head); [done|]. done.
  - eexists. split; [done|]. destruct (Z.leb_spec b head); [done|]. done.
  - done.
Qed.

Lemma incompatible_below_min s n head m :
  optMin s n = Some m → head < m → isForkBlockIncompatible s n head = false.
Proof.
  unfold isForkBlockIncompatible, isBlockForked. destruct s as [a|], n as [b|]; cbn; intros [= <-] H.
  - by rewrite !(proj2 (Z.leb_gt _ _)) by lia.
  - by rewrite !(proj2 (Z.leb_gt _ _)) by lia.
  - by rewrite !(proj2 (Z.leb_gt _ _)) by lia.
Qed.

(** Where the two error constructors rewind to. *)
Definition rewindOf (m : option Z) : Z := match m with Some m => if 0 <? m then u64 (m - 1) else 0 | None => 0 end.

Lemma newBlockCompatError_rewind w s n :
  RewindToBlock (newBlockCompatError w s n) = rewindOf (optMin s n) ∧ RewindToTime (newBlockCompatError w s n) = 0.
Proof.
  split; [|done]. unfold newBlockCompatError, rewindOf. destruct s as [a|], n as [b|]; cbn; try done.
  destruct (Z.ltb_spec a b); [rewrite Z.min_l by lia|rewrite Z.min_r by lia]; done.
Qed.

Lemma newTimestampCompatError_rewind w s n :
  RewindToTime (newTimestampCompatError w s n) = rewindOf (optMin s n) ∧ RewindToBlock (newTimestampCompatError w s n) = 0.
Proof.
  split; [|done]. unfold newTimestampCompatError, rewindOf. destruct s as [a|], n as [b|]; cbn; try done.
  destruct (Z.ltb_spec a b); [rewrite Z.min_l by lia|rewrite Z.min_r by lia]; done.
Qed.

Lemma rewindHead_of m head :
  is_u64 head → m <= head →
  let head' := rewindHead (rewindOf (Some m)) head in
  0 <= head' <= head ∧ (head' < m ∨ head' = head).
Proof.
  intros [H1 H2] Hm. unfold rewindHead, rewindOf. destruct (Z.ltb_spec 0 m); [|cbn; lia].
  rewrite u64_small by (unfold is_u64; lia). destruct (Z.eqb_spec (m - 1) 0); lia.
Qed.

Lemma blockCheck_converges w s n : converges (blockCheck w s n).
Proof.
  split.
  - intros hb ht hb' ht' Hb Ht. unfold blockCheck. case_if; [done|]. intros _.
    by rewrite (incompatible_antitone s n hb hb').
  - intros hb ht e Ub Ut. unfold blockCheck. case_if; [|done]. intros [= <-].
    apply incompatible_min in Heqb as (m&Hm&Hle). destruct (newBlockCompatError_rewind w s n) as [-> ->].
    rewrite Hm. pose proof (rewindHead_of m hb Ub Hle) as (Hr&Hc). cbn zeta in *.
    change (rewindHead 0 ht) with ht. unfold is_u64 in *. split; [lia|]. split; [lia|].
    destruct Hc as [Hc|Hc]; [left|by right]. by rewrite (incompatible_below_min s n _ m).
Qed.

Lemma timeCheck_converges w s n : converges (timeCheck w s n).
Proof.
  split.
  - intros hb ht hb' ht' Hb Ht. unfold timeCheck. case_if; [done|]. intros _.
    change isForkTimestampIncompatible with isForkBlockIncompatible in *.
    by rewrite (incompatible_antitone s n ht ht').
  - intros hb ht e Ub Ut. unfold timeCheck. case_if; [|done]. intros [= <-].
    change isForkTimestampIncompatible with isForkBlockIncompatible in *.
    apply incompatible_min in Heqb as (m&Hm&Hle). destruct (newTimestampCompatError_rewind w s n) as [-> ->].
    rewrite Hm. pose proof (rewindHead_of m ht Ut Hle) as (Hr&Hc). cbn zeta in *.
    change (rewindHead 0 hb) with hb. unfold is_u64 in *. split; [lia|]. split; [lia|].
    destruct Hc as [Hc|Hc]; [left|by right]. by rewrite (incompatible_below_min s n _ m).
Qed.

Lemma petersburgCheck_converges c n : converges (petersburgCheck c n).
Proof.
  split.
  - intros hb ht hb' ht' Hb Ht. unfold petersburgCheck. destruct (_ && _) eqn:E; [done|]. intros _.
    apply andb_false_iff in E as [E|E]; rewrite (incompatible_antitone _ _ hb hb' Hb E), ?andb_false_r; done.
  - intros hb ht e Ub Ut. unfold petersburgCheck. destruct (_ && _) eqn:E; [|done]. intros [= <-].
    apply andb_true_iff in E as [E _]. apply incompatible_min in E as (m&Hm&Hle).
    destruct (newBlockCompatError_rewind "Petersburg fork block" c.(PetersburgBlock) n.(PetersburgBlock)) as [-> ->].
    rewrite Hm. pose proof (rewindHead_of m hb Ub Hle) as (Hr&Hc). cbn zeta in *.
    change (rewindHead 0 ht) with ht. unfold is_u64 in *. split; [lia|]. split; [lia|].
    destruct Hc as [Hc|Hc]; [left|by right]. by rewrite (incompatible_below_min _ _ _ m).
Qed.

Lemma forked_antitone s head head' : head' <= head → isBlockForked s head = false → isBlockForked s head' = false.
Proof. unfold isBlockForked. destruct s; [|done]. rewrite !Z.leb_gt. lia. Qed.

Lemma timestamp_forked_antitone s head head' :
  head' <= head → isTimestampForked s head = false → isTimestampForked s head' = false.
Proof. apply forked_antitone. Qed.

(** Every fork predicate is a conjunction of activations, so it is downward
    closed in block number and time. *)
Ltac antitone :=
  intros; repeat match goal with
  | H : _ && _ = false |- _ => apply andb_false_iff in H as [H|H]
  end;
  match goal with
  | H : isBlockForked ?s ?h = false, L : ?h' <= ?h |- _ => rewrite (forked_antitone s h h' L H)
  | H : isTimestampForked ?s ?h = false, L : ?h' <= ?h |- _ => rewrite (timestamp_forked_antitone s h h' L H)
  end; cbn; by rewrite ?andb_false_r.

Lemma IsPrivacyCommitments_antitone c hb ht hb' ht' :
  hb' <= hb → ht' <= ht → IsPrivacyCommitments c hb ht = false → IsPrivacyCommitments c hb' ht' = false.
Proof. unfold IsPrivacyCommitments, IsLondon. antitone. Qed.

Lemma IsShield6Recipients_antitone c hb ht hb' ht' :
  hb' <= hb → ht' <= ht → IsShield6Recipients c hb ht = false → IsShield6Recipients c hb' ht' = false.
Proof.
  unfold IsShield6Recipients, IsShield6, IsAntartical, IsPrivacyCommitments, IsLondon. antitone.
Qed.

Lemma IsShield6Recipients_time c hb ht :
  IsShield6Recipients c hb ht = true → ∃ t, c.(Shield6RecipientTime) = Some t ∧ t <= ht.
Proof.
  unfold IsShield6Recipients. intros [_ H]%andb_true_iff. unfold isTimestampForked in H.
  destruct c.(Shield6RecipientTime) as [t|]; [|done]. exists t. split; [done|]. by apply Z.leb_le.
Qed.

Lemma IsShield6Recipients_before c hb ht :
  (∀ t, c.(Shield6RecipientTime) = Some t → ht < t) → IsShield6Recipients c hb ht = false.
Proof.
  intros H. apply not_true_iff_false. intros (t&Ht&Hle)%IsShield6Recipients_time. specialize (H t Ht). lia.
Qed.

Lemma optMin_le s n m : optMin s n = Some m → (∀ t, s = Some t → m <= t) ∧ (∀ t, n = Some t → m <= t).
Proof. destruct s as [a|], n as [b|]; cbn; intros [= <-]; split; intros t [= <-]; lia. Qed.

Lemma recipientKeyCheck_converges c n : converges (recipientKeyCheck c n).
Proof.
  split.
  - intros hb ht hb' ht' Hb Ht. unfold recipientKeyCheck. destruct (_ && _) eqn:E; [done|]. intros _.
    apply andb_false_iff in E as [E|E]; [|by rewrite E, andb_false_r]. apply orb_false_iff in E as [E1 E2].
    by rewrite !(IsShield6Recipients_antitone _ hb ht hb' ht').
  - intros hb ht e Ub Ut. unfold recipientKeyCheck. destruct (_ && _) eqn:E; [|done]. intros [= <-].
    apply andb_true_iff in E as [E _].
    destruct (newTimestampCompatError_rewind "Shield6 recipient verification key"
      c.(Shield6RecipientTime) n.(Shield6RecipientTime)) as [-> ->].
    assert (Hm : ∃ m, optMin c.(Shield6RecipientTime) n.(Shield6RecipientTime) = Some m ∧ m <= ht).
    { apply orb_true_iff in E as [(t&->&Hle)%IsShield6Recipients_time|(t&->&Hle)%IsShield6Recipients_time].
      - destruct n.(Shield6RecipientTime); eexists; (split; [done|]); lia.
      - destruct c.(Shield6RecipientTime); eexists; (split; [done|]); lia. }
    destruct Hm as (m&Hm&Hle). rewrite Hm. pose proof (rewindHead_of m ht Ut Hle) as (Hr&Hc). cbn zeta in *.
    change (rewindHead 0 hb) with hb. unfold is_u64 in *. split; [lia|]. split; [lia|].
    destruct Hc as [Hc|Hc]; [left|by right]. apply optMin_le in Hm as [H1 H2].
    rewrite !IsShield6Recipients_before; [done| |].
    + intros t Ht. specialize (H2 t Ht). lia.
    + intros t Ht. specialize (H1 t Ht). lia.
Qed.

Lemma groth16Check_converges c n : converges (groth16Check c n).
Proof.
  split.
  - intros hb ht hb' ht' Hb Ht. unfold groth16Check. destruct (_ && _) eqn:E; [done|]. intros _.
    apply andb_false_iff in E as [E|E]; [|by rewrite E, andb_false_r].
    by rewrite (IsPrivacyCommitments_antitone _ hb ht hb' ht').
  - intros hb ht e [? ?] [? ?]. unfold groth16Check. destruct (_ && _) eqn:E; [|done]. intros [= <-].
    unfold rewindHead. cbn. destruct (Z.eqb_spec hb 0); subst; split_and!; try lia; by right.
Qed.

Lemma addressCheck_converges w a b : converges (addressCheck w a b).
Proof.
  split; [done|]. intros hb ht e [? ?] [? ?]. unfold addressCheck. case_if; [|done]. intros [= <-].
  unfold rewindHead. cbn. lia.
Qed.

Ltac converge :=
  lazymatch goal with
  | |- converges (blockCheck _ _ _) => apply blockCheck_converges
  | |- converges (timeCheck _ _ _) => apply timeCheck_converges
  | |- converges (petersburgCheck _ _) => apply petersburgCheck_converges
  | |- converges (recipientKeyCheck _ _) => apply recipientKeyCheck_converges
  | |- converges (groth16Check _ _) => apply groth16Check_converges
  | |- converges (addressCheck _ _ _) => apply addressCheck_converges
  end.

Lemma compatChecks_converge c n : Forall converges (compatChecks c n).
Proof.
  unfold compatChecks. repeat (apply Forall_cons_2; [converge|]). apply Forall_nil_2.
Qed.

Lemma firstError_Some checks hb ht e :
  firstError checks hb ht = Some e → ∃ ch, ch ∈ checks ∧ ch hb ht = Some e.
Proof.
  induction checks as [|ch checks IH]; cbn; [done|]. destruct (ch hb ht) eqn:E.
  - intros [= ->]. exists ch. split; [by left|done].
  - intros (ch'&?&?)%IH. exists ch'. split; [by right|done].
Qed.

(** How many guards fail at a head. *)
Fixpoint failing (checks : list check) (hb ht : Z) : nat :=
  match checks with
  | [] => 0
  | ch :: rest => (match ch hb ht with Some _ => 1 | None => 0 end + failing rest hb ht)%nat
  end.

Lemma failing_length checks hb ht : (failing checks hb ht <= length checks)%nat.
Proof. induction checks as [|ch checks IH]; cbn; [done|]. destruct (ch hb ht); lia. Qed.

Lemma failing_antitone checks hb ht hb' ht' :
  Forall converges checks → hb' <= hb → ht' <= ht → (failing checks hb' ht' <= failing checks hb ht)%nat.
Proof.
  intros Hc Hb Ht. induction Hc as [|ch checks [Hm _] _ IH]; cbn; [done|].
  destruct (ch hb ht) eqn:E; [destruct (ch hb' ht'); lia|]. rewrite (Hm hb ht hb' ht') by done. lia.
Qed.

Lemma failing_decreases checks hb ht hb' ht' ch :
  Forall converges checks → hb' <= hb → ht' <= ht → ch ∈ checks → ch hb ht ≠ None → ch hb' ht' = None →
  (failing checks hb' ht' < failing checks hb ht)%nat.
Proof.
  intros Hc Hb Ht Hin Hf Hp. induction Hc as [|ch' checks [Hm Hs] Hc IH]; [by apply elem_of_nil in Hin|].
  pose proof (failing_antitone checks hb ht hb' ht' Hc Hb Ht) as Ha. cbn.
  apply elem_of_cons in Hin as [->|Hin].
  - rewrite Hp. destruct (ch' hb ht); [lia|done].
  - specialize (IH Hin). destruct (ch' hb ht) eqn:E; [destruct (ch' hb' ht'); lia|].
    rewrite (Hm hb ht hb' ht') by done. lia.
Qed.

Section Loop.
Context (c n : ChainConfig).
Let checks := compatChecks c n.

(** Progress of the loop: enough fuel for the failing guards returns, and the
    answer is an error once one has been seen. *)
Lemma compatLoop_returns fuel hb ht lastErr :
  is_u64 hb → is_u64 ht → (failing checks hb ht + 2 <= fuel)%nat →
  ∃ r, compatLoop fuel (Some c) (Some n) hb ht lastErr = Some r ∧
    (r = None ↔ lastErr = None ∧ firstError checks hb ht = None).
Proof.
  revert hb ht lastErr. induction fuel as [|f IH]; intros hb ht lastErr Ub Ut Hf; [lia|].
  cbn [compatLoop checkCompatible]. fold checks.
  destruct (firstError checks hb ht) as [e|] eqn:E; [|exists lastErr; split; [done|]; tauto].
  case_if; [exists (Some e); split; [done|]; naive_solver|].
  destruct (firstError_Some _ _ _ _ E) as (ch&Hin&Hch).
  pose proof (compatChecks_converge c n) as Hc. fold checks in Hc.
  pose proof (proj1 (Forall_forall _ _) Hc ch Hin) as [_ Hs].
  specialize (Hs hb ht e Ub Ut Hch) as (Hhb&Hht&Hnext). cbn zeta in *.
  fold (rewindHead e.(RewindToBlock) hb) (rewindHead e.(RewindToTime) ht).
  set (hb' := rewindHead e.(RewindToBlock) hb) in *. set (ht' := rewindHead e.(RewindToTime) ht) in *.
  destruct Hnext as [Hp|[-> ->]].
  - pose proof (failing_decreases checks hb ht hb' ht' ch Hc ltac:(lia) ltac:(lia) Hin ltac:(by rewrite Hch) Hp).
    unfold is_u64 in *.
    destruct (IH hb' ht' (Some e)) as (r&Hr&Hn); [lia..|]. exists r. split; [done|]. naive_solver.
  - destruct f as [|f]; [lia|]. cbn [compatLoop checkCompatible]. fold checks. rewrite E, !Z.eqb_refl. cbn.
    exists (Some e). split; [done|]. naive_solver.
Qed.
End Loop.

(** The compatibility loop always returns, after at most one iteration per
    guard and two more, and it returns no error exactly when the schedules are
    compatible at the head it was given. *)
Theorem check_compatible_terminates (c n : option ChainConfig) (hb ht : Z)
    (Hb : is_u64 hb) (Ht : is_u64 ht) :
  ∃ r, CheckCompatible c n hb ht = Some r ∧ (r = None ↔ checkCompatible c n hb ht = None).
Proof.
  unfold CheckCompatible. destruct c as [c|], n as [n|]; try (by exists None).
  destruct (compatLoop_returns c n compatFuel hb ht None Hb Ht) as (r&Hr&Hn).
  - etrans; [apply Nat.add_le_mono_r, failing_length|]. unfold compatFuel, compatChecks. cbn [length]. lia.
  - exists r. split; [done|]. cbn [checkCompatible]. tauto.
Qed.

(** ** The schedule order *)

Lemma checkTimeOrder_sorted lastName lastTime forks :
  checkTimeOrder lastName lastTime forks = Ok tt →
  StronglySorted Z.le (omap snd forks) ∧
  ∀ last, lastTime = Some last → Forall (Z.le last) (omap snd forks).
Proof.
  revert lastName lastTime. induction forks as [|[name [t|]] forks IH]; intros lastName lastTime; cbn.
  - intros _. split; [constructor|]. intros; constructor.
  - case_if; [done|]. intros (Hs&Hl)%IH. specialize (Hl t eq_refl). split; [by constructor|].
    intros last ->. assert (last <= t) by (apply Z.ltb_ge; done). constructor; [done|].
    eapply Forall_impl; [done|]. cbn. lia.
  - apply IH.
Qed.

Lemma checkBlockOrder_sorted lastName lastBlock forks :
  Forall (λ '(_, b, optional), optional = false → b ≠ None) forks →
  checkBlockOrder lastName lastBlock forks = Ok tt →
  StronglySorted Z.le (omap (λ f, f.1.2) forks) ∧
  ∀ last, lastBlock = Some last → Forall (Z.le last) (omap (λ f, f.1.2) forks).
Proof.
  intros Hreq. revert lastName lastBlock.
  induction Hreq as [|[[name [b|]] optional] forks Hr Hreq IH]; intros lastName lastBlock; cbn.
  - intros _. split; [constructor|]. intros; constructor.
  - case_if; [done|]. intros (Hs&Hl)%IH. specialize (Hl b eq_refl). split; [by constructor|].
    intros last ->. assert (last <= b) by (apply Z.ltb_ge; done). constructor; [done|].
    eapply Forall_impl; [done|]. cbn. lia.
  - destruct optional; [apply IH|]. by destruct (Hr eq_refl).
Qed.

Lemma keyPinned_hash sha256 key pin : keyPinned sha256 key pin = true → sha256 key = pin.
Proof. unfold keyPinned. intros H. bool_to_prop. done. Qed.

(** A schedule accepted by [CheckConfigForkOrder] has its timestamp forks in
    the documented order, activates recipient proofs only at or after Shield6 and
    Antartical and with a verification key that hashes to its pin, and, when every
    required block fork is set, has its block forks in order too. *)
Theorem fork_order_sound (sha256 : bytes → hash) (c : ChainConfig)
    (Hok : CheckConfigForkOrder sha256 (Some c) = Ok tt) :
  StronglySorted Z.le (omap snd (timeForks c)) ∧
  (∀ t, c.(Shield6RecipientTime) = Some t →
    ∃ t6 ta, c.(Shield6Time) = Some t6 ∧ c.(AntarticalTime) = Some ta ∧ ta <= t6 <= t ∧
      sha256 c.(Shield6RecipientKey) = c.(Shield6RecipientKeyHash)) ∧
  (Forall (λ '(_, b, optional), optional = false → b ≠ None) (blockForks c) →
    StronglySorted Z.le (omap (λ f, f.1.2) (blockForks c))).
Proof.
  unfold CheckConfigForkOrder in Hok. apply bind_ok in Hok as ([]&Hrec&Hok).
  apply bind_ok in Hok as ([]&Hpre&Hok). apply bind_ok in Hok as ([]&Hblk&Htime).
  split; [by apply checkTimeOrder_sorted in Htime as [? _]|].
  split; [|intros Hreq; by apply checkBlockOrder_sorted in Hblk as [? _]].
  intros t Ht. unfold checkShield6Recipient in Hrec. rewrite Ht in Hrec.
  apply bind_ok in Hrec as (?&H6%fail_if_ok&Hrec). apply bind_ok in Hrec as (?&Hkey%fail_if_ok&_).
  apply negb_false_iff, keyPinned_hash in Hkey.
  apply orb_false_iff in H6 as [H6n H6]. destruct c.(Shield6Time) as [t6|] eqn:E6; [|done]. cbn in H6.
  assert (H6a : before (Some t6) c.(AntarticalTime) = false ∧ isNil c.(AntarticalTime) = false).
  { unfold checkPrerequisites, lacksPrivacyForks in Hpre. rewrite E6 in Hpre.
    do 5 (apply bind_ok in Hpre as (?&_&Hpre)).
    apply bind_ok in Hpre as (?&Hl%fail_if_ok&Hpre). apply bind_ok in Hpre as (?&Hb%fail_if_ok&_).
    split; [done|]. change (negb (isNil (Some t6))) with true in Hl. cbn [andb] in Hl.
    by repeat apply orb_false_iff in Hl as [Hl ?]. }
  destruct H6a as [Hb Hn]. destruct c.(AntarticalTime) as [ta|]; [|done]. cbn in Hb.
  exists t6, ta. apply Z.ltb_ge in H6, Hb. split_and!; done.
Qed.

(** ** The production schedule *)

(** [params.MainnetChainConfig]; the three verification keys, long byte literals
    of the source, are arguments. *)
Definition MainnetChainConfig (recipientKey registrationKey groth16Key : bytes) : ChainConfig := {|
  ChainID := Some 8979;
  MergeOverride := false;
  HomesteadBlock := Some 0; DAOForkBlock := None; EIP150Block := Some 0; EIP155Block := Some 0;
  EIP158Block := Some 0; ByzantiumBlock := Some 0; ConstantinopleBlock := Some 0; PetersburgBlock := Some 0;
  IstanbulBlock := Some 0; BerlinBlock := Some 0; LondonBlock := Some 0;
  RandomXTxBlock := Some 2450; RandomXMoneroBlock := Some 20374;
  ArrowGlacierBlock := None; GrayGlacierBlock := None;
  ShanghaiTime := Some 0; CancunTime := Some 1790812800; PragueTime := None; OsakaTime := None;
  BPO1Time := None; BPO2Time := None; BPO3Time := None; BPO4Time := None; BPO5Time := None;
  AmsterdamTime := None; UBTTime := None; EDATime := Some 0;
  KyotoTime := Some 1784115119; PhoneTime := Some 1784709000;
  PrivacyCommitmentTime := Some 1786341600; QuantumResistantTime := Some 1786341600;
  PQMigrationRecoveryTime := Some 1786687200; AntarticalTime := Some 1790812800;
  UsernameNetworkTime := Some 1791151200; ValidatorTransactionTime := Some 1791226800;
  ShieldedOnlyTime := None; ConfidentialLedgerTime := Some 1793989014; Shield5Time := None;
  Shield6Time := Some 1793989014; Shield6RecipientTime := Some 1793989014;
  Shield6RecipientKey := recipientKey;
  Shield6RecipientKeyHash := 0xb886cb6016714aa81f67ce69b072bf3bac80d22fbd11a37a23c8972116190e69;
  Shield6RegistrationKey := registrationKey;
  Shield6RegistrationKeyHash := 0x6b49266796cfe21018111a45ad50c16f3755ed551eccf4a2e5e72c703db7d328;
  Shield6RecipientProvingKeyHash := 0xcaacd815f1c18172c7faa9c0a64c615543979af31e1bebf3d57b93ac778b64cf;
  Shield6RegistrationProvingKeyHash := 0x4cdf9ce4d4013b58f6b9da2997c64b6134e17c5fb9e6494cb36722dac2b2d3c3;
  EnableUBTAtGenesis := false;
  MainKingAddress := 0xc40f4a0b4df81f8f67a88b179a8b2271107a9ac2;
  PostQuantumMainKingAddress := 0xb14bBd5BD6E2e7CD74E88931ef439D253Eb6B58f;
  ShieldedGroth16VerifyingKey := groth16Key;
|}.

(** A hash that maps the two one-byte keys used below to the mainnet pins. *)
Definition demoSha256 (key : bytes) : hash :=
  if bool_decide (key = [1]) then 0xb886cb6016714aa81f67ce69b072bf3bac80d22fbd11a37a23c8972116190e69
  else 0x6b49266796cfe21018111a45ad50c16f3755ed551eccf4a2e5e72c703db7d328.

Definition demoMainnet (groth16Key : bytes) : ChainConfig := MainnetChainConfig [1] [2] groth16Key.

Lemma mainnet_order_ok : CheckConfigForkOrder demoSha256 (Some (demoMainnet [3])) = Ok tt.
Proof. by vm_compute. Qed.

Lemma fork_order_sound_witness :
  CheckConfigForkOrder demoSha256 (Some (demoMainnet [3])) = Ok tt ∧
  StronglySorted Z.le (omap snd (timeForks (demoMainnet [3]))).
Proof.
  split; [exact mainnet_order_ok|]. by apply (fork_order_sound demoSha256 (demoMainnet [3]) mainnet_order_ok).
Defined.

(** Before the privacy fork the Groth16 key may still be changed. *)
Lemma compatible_configs_same_rules_witness :
  checkCompatible (Some (demoMainnet [3])) (Some (demoMainnet [4])) 30000 1784709001 = None ∧
  Rules (demoMainnet [3]) 20374 false 1784115119 = Rules (demoMainnet [4]) 20374 false 1784115119 ∧
  MainKingAddressAt (demoMainnet [3]) 20374 1784115119 = MainKingAddressAt (demoMainnet [4]) 20374 1784115119.
Proof.
  assert (H : checkCompatible (Some (demoMainnet [3])) (Some (demoMainnet [4])) 30000 1784709001 = None) by (by vm_compute).
  split; [done|]. apply (compatible_configs_same_rules _ _ 30000 1784709001); try done; lia.
Defined.

Lemma check_compatible_terminates_witness :
  ∃ r, CheckCompatible (Some (demoMainnet [3])) (Some (demoMainnet [4])) 30000 1790812800 = Some r ∧
    (r = None ↔ checkCompatible (Some (demoMainnet [3])) (Some (demoMainnet [4])) 30000 1790812800 = None).
Proof. apply check_compatible_terminates; done. Defined.

(** A schedule that sets only three block forks. *)
Definition sparseConfig (homestead eip155 arrow : option Z) : ChainConfig := {|
  ChainID := None; MergeOverride := false;
  HomesteadBlock := homestead; DAOForkBlock := None; EIP150Block := None; EIP155Block := eip155; EIP158Block
  := None; ByzantiumBlock := None; ConstantinopleBlock := None; PetersburgBlock := None; IstanbulBlock :=
  None; BerlinBlock := None; LondonBlock := None; RandomXTxBlock := None; RandomXMoneroBlock := None;
  ArrowGlacierBlock := arrow; GrayGlacierBlock := None; ShanghaiTime := None; CancunTime := None; PragueTime
  := None; OsakaTime := None; BPO1Time := None; BPO2Time := None; BPO3Time := None; BPO4Time := None;
  BPO5Time := None; AmsterdamTime := None; UBTTime := None; EDATime := None; KyotoTime := None; PhoneTime :=
  None; PrivacyCommitmentTime := None; QuantumResistantTime := None; PQMigrationRecoveryTime := None;
  AntarticalTime := None; UsernameNetworkTime := None; ValidatorTransactionTime := None; ShieldedOnlyTime :=
  None; ConfidentialLedgerTime := None; Shield5Time := None; Shield6Time := None; Shield6RecipientTime :=
  None;
  Shield6RecipientKey := []; Shield6RecipientKeyHash := 0; Shield6RegistrationKey := []; Shield6RegistrationKeyHash := 0;
  Shield6RecipientProvingKeyHash := 0; Shield6RegistrationProvingKeyHash := 0; EnableUBTAtGenesis := false;
  MainKingAddress := 0; PostQuantumMainKingAddress := 0; ShieldedGroth16VerifyingKey := [] |}.

(** Two gaps of the checks.  A required fork left unset makes
    [CheckConfigForkOrder] forget the earlier ones, so it accepts EIP155 before
    Homestead; and [checkCompatible] never looks at the glacier forks, so it
    accepts a schedule whose rules differ at the head. *)
Lemma fork_checks_gaps sha256 :
  CheckConfigForkOrder sha256 (Some (sparseConfig (Some 10) (Some 5) None)) = Ok tt ∧
  (let c := sparseConfig None None (Some 3) in
   let n := sparseConfig None None (Some 9) in
   checkCompatible (Some c) (Some n) 5 0 = None ∧ Rules c 5 false 0 ≠ Rules n 5 false 0).
Proof.
  split; [done|]. split; [done|]. intros H. by apply (f_equal R_IsArrowGlacier) in H.
Qed.
End ChainConfig.
