(* ===== verification/Difficulty.v ===== *)
(** * Difficulty adjustment

    [RandomX.CalcDifficulty] and its helpers in [consensus/randomx/randomx.go],
    the older float-based retarget of [consensus/randomx/difficulty.go], the
    Monero-style proof test and the RandomX seed epochs.  Difficulties are
    [big.Int], times [uint64]. *)

From Stdlib Require Import SpecFloat.
From S2P Require Import Prelude Bytes ChainConfig.

Module Difficulty.

Definition GenesisDifficulty : Z := 3.
Definition MinDifficulty : Z := 1310.
Definition EDAMinDifficulty : Z := 16.
Definition MaxDifficulty : Z := 10 ^ 30.
Definition TargetBlockTime : Z := 120.
Definition EDAThreshold : Z := 7 * 60.
Definition EgyptEDAThreshold : Z := 30.
(** [params.EgyptChainConfig.ChainID] *)
Definition egyptChainID : Z := 8980.

Record Header := { Number : Z; Time : Z; hd_Difficulty : Z }.

(** ** [RandomX.CalcDifficulty] *)

Fixpoint edaLoop (reductions : nat) (num den : Z) (newDiff minDiff : Z) : Z :=
  match reductions with
  | O => newDiff
  | S r =>
      let newDiff := newDiff * num / den in
      if newDiff <=? minDiff then minDiff else edaLoop r num den newDiff minDiff
  end.

Definition applyMainnetEDAReductions (currentDiff reductions minDiff : Z) : Z :=
  edaLoop (Z.to_nat reductions) 75 100 currentDiff minDiff.

Definition applyEDAReductions (currentDiff reductions minDiff : Z) : Z :=
  edaLoop (Z.to_nat reductions) 1 4 currentDiff minDiff.

(** The two one-sided adjustments of [calcPhoneDifficulty]: proportional to the
    deviation, at most a quarter, at least one. *)
Definition phoneAdjustment (currentDiff delta denom : Z) : Z :=
  let adjustment := currentDiff * delta / denom in
  let bound := currentDiff / 4 in
  let adjustment := if bound <? adjustment then bound else adjustment in
  if adjustment =? 0 then 1 else adjustment.

(** The final clamp of [calcPhoneDifficulty]. *)
Definition clampDifficulty (minDiff newDiff : Z) : Z :=
  if newDiff <? minDiff then minDiff
  else if MaxDifficulty <? newDiff then MaxDifficulty else newDiff.

Definition calcPhoneDifficulty (currentDiff : option Z) (blockTime targetTime minDiff : Z) : Z :=
  match currentDiff with
  | None => minDiff
  | Some currentDiff =>
      if currentDiff <=? 0 then minDiff
      else if blockTime =? 0 then currentDiff
      else
        let targetTime := if targetTime =? 0 then TargetBlockTime else targetTime in
        let newDiff :=
          if targetTime <? blockTime then
            let newDiff := currentDiff - phoneAdjustment currentDiff (blockTime - targetTime) (targetTime *₆₄ 8) in
            if EDAThreshold <=? blockTime then
              let reductions := blockTime / EDAThreshold in
              if 1 <? reductions then applyMainnetEDAReductions newDiff (reductions - 1) minDiff else newDiff
            else newDiff
          else if blockTime <? targetTime then
            currentDiff + phoneAdjustment currentDiff (targetTime - blockTime) (targetTime *₆₄ 4)
          else currentDiff in
        clampDifficulty minDiff newDiff
  end.

Definition isEgyptConfig (c : option ChainConfig.ChainConfig) : bool :=
  match c with
  | Some c => match c.(ChainConfig.ChainID) with Some id => id =? egyptChainID | None => false end
  | None => false
  end.

(** The ratio-based branch: [targetTime / diff] in percent, between one half and
    two. *)
Definition ratioDifficulty (currentDiff diff : Z) : Z :=
  let ratio := TargetBlockTime * 100 / diff in
  let ratio := if 200 <? ratio then 200 else ratio in
  let ratio := if ratio <? 50 then 50 else ratio in
  let newDiff := currentDiff * ratio / 100 in
  if newDiff <? MinDifficulty then MinDifficulty
  else if MaxDifficulty <? newDiff then MaxDifficulty else newDiff.

(** [config] is the chain's configuration, [None] for a nil chain. *)
Definition CalcDifficulty (config : option ChainConfig.ChainConfig) (time : Z) (parent : option Header) : Z :=
  match parent with
  | None => GenesisDifficulty
  | Some parent =>
      let diff := if parent.(Time) <? time then time -₆₄ parent.(Time) else parent.(Time) -₆₄ time in
      let currentDiff := parent.(hd_Difficulty) in
      let next := parent.(Number) + 1 in
      let plain :=
        if TargetBlockTime *₆₄ 10 <? diff then currentDiff
        else if 0 <? diff then ratioDifficulty currentDiff diff
        else currentDiff in
      match config with
      | None => plain
      | Some c =>
          if ChainConfig.IsPhone c next time
          then calcPhoneDifficulty (Some currentDiff) diff TargetBlockTime EDAMinDifficulty
          else if isEgyptConfig config && (EgyptEDAThreshold <=? diff)
          then applyEDAReductions currentDiff (diff / EgyptEDAThreshold) EDAMinDifficulty
          else if ChainConfig.IsEDA c next time && (EDAThreshold <=? diff)
          then applyMainnetEDAReductions currentDiff (diff / EDAThreshold) EDAMinDifficulty
          else plain
      end
  end.

(** ** Proof test and seed epochs *)

(** [bytes] reversed is the little-endian reading of the hash. *)
Definition meetsMoneroDifficulty (h : hash) (difficulty : option Z) : bool :=
  match difficulty with
  | None => false
  | Some difficulty =>
      if difficulty <=? 0 then false
      else be_value (rev (hash_bytes h)) * difficulty <? two256
  end.

Definition RandomXEpochLength : Z := 2048.

(** [RandomX.epoch]; [configured] is [rx.config.EpochLength], [None] for a nil
    configuration. *)
Definition epoch (configured : option Z) (blockNum : Z) : Z :=
  blockNum / match configured with Some l => if 0 <? l then l else RandomXEpochLength | None => RandomXEpochLength end.

Definition epochForBlock (config : option ChainConfig.ChainConfig) (configured : option Z) (blockNum : Z) : Z :=
  let blockNum :=
    match config with
    | Some c =>
        match c.(ChainConfig.RandomXTxBlock) with
        | Some b => let activation := u64 b in if activation <=? blockNum then blockNum - activation else 0
        | None => blockNum
        end
    | None => blockNum
    end in
  epoch configured blockNum.

Section Seed.
(** Keccak-256 is a parameter. *)
Context (keccak256 : bytes → bytes).

Definition genesisSeedText : bytes := str "randomx_epoch_0_genesis".

(** [i] counts the iterations done; [n] are left. *)
Fixpoint seedLoop (n i : nat) (seed : bytes) : bytes :=
  match n with
  | O => seed
  | S n' => seedLoop n' (S i) (if (i =? 0)%nat then keccak256 genesisSeedText else keccak256 seed)
  end.

Definition seedHash (epoch : Z) : hash :=
  if epoch =? 0 then BytesToHash (keccak256 genesisSeedText)
  else BytesToHash (seedLoop (Z.to_nat epoch) 0 (repeat 0 32)).
End Seed.

(** ** [difficulty.go]: the float-based retarget *)

Definition TargetBlockTimeSeconds : Z := 120.
Definition InitialDifficulty : Z := 50.
Definition MaxAdjustmentPercent : Z := 25.
Definition LinearProgressionBlocks : Z := 100.

(** IEEE binary64. *)
Definition f64_of_Z (x : Z) : spec_float := binary_normalize 53 1024 x 0 false.
Definition f64_div : spec_float → spec_float → spec_float := SFdiv 53 1024.
Definition f64_mul : spec_float → spec_float → spec_float := SFmul 53 1024.
Definition f64_sub : spec_float → spec_float → spec_float := SFsub 53 1024.

(** The low 64 bits as a signed integer ([big.Int.Int64]). *)
Definition i64 (x : Z) : Z := (x + 2 ^ 63) mod two64 - 2 ^ 63.

Section Float.
(** Go leaves the conversion of an out-of-range float to the implementation. *)
Context (int64_out_of_range : spec_float → Z).

(** [int64(f)]: truncation towards zero. *)
Definition int64_of_f64 (f : spec_float) : Z :=
  match f with
  | S754_zero _ => 0
  | S754_finite s m e =>
      let a := if 0 <=? e then Zpos m * 2 ^ e else Zpos m / 2 ^ (- e) in
      let v := if s then - a else a in
      if (- 2 ^ 63 <=? v) && (v <? 2 ^ 63) then v else int64_out_of_range f
  | _ => int64_out_of_range f
  end.

(** [int64(float64(d.Int64()) * (ratio - 1.0))] *)
Definition scaledChange (parentDiff : Z) (ratio : spec_float) : Z :=
  int64_of_f64 (f64_mul (f64_of_Z (i64 parentDiff)) (f64_sub ratio (f64_of_Z 1))).

(** The clamp shared by [increaseDifficulty] and [decreaseDifficulty]. *)
Definition clampChange (parentDiff change : Z) : Z :=
  let bound := parentDiff * MaxAdjustmentPercent / 100 in
  let change := if bound <? change then bound else change in
  if change <=? 0 then 1 else change.

Definition increaseDifficulty (parentDiff actualTime : Z) : Z :=
  let ratio := f64_div (f64_of_Z TargetBlockTimeSeconds) (f64_of_Z actualTime) in
  parentDiff + clampChange parentDiff (scaledChange parentDiff ratio).

Definition decreaseDifficulty (parentDiff actualTime : Z) : Z :=
  let ratio := f64_div (f64_of_Z actualTime) (f64_of_Z TargetBlockTimeSeconds) in
  let newDiff := parentDiff - clampChange parentDiff (scaledChange parentDiff ratio) in
  if newDiff <? GenesisDifficulty then GenesisDifficulty else newDiff.

Definition calculateDynamicDifficulty (currentTimestamp : Z) (parent : Header) : Z :=
  let actualTime := if parent.(Time) <? currentTimestamp then currentTimestamp -₆₄ parent.(Time) else 0 in
  let actualTime := if actualTime =? 0 then TargetBlockTimeSeconds else actualTime in
  let parentDiff := parent.(hd_Difficulty) in
  let newDiff :=
    if actualTime <? TargetBlockTimeSeconds then increaseDifficulty parentDiff actualTime
    else if TargetBlockTimeSeconds <? actualTime then decreaseDifficulty parentDiff actualTime
    else parentDiff in
  if newDiff <? GenesisDifficulty then GenesisDifficulty else newDiff.

(** The package-level [CalcDifficulty]; [now] is the system clock, read when no
    block time is given. *)
Definition CalcDifficultyLegacy (now blockTime : Z) (parent : Header) : Z :=
  let currentHeight := u64 parent.(Number) in
  let currentTimestamp := if blockTime =? 0 then now else blockTime in
  if currentHeight =? 0 then GenesisDifficulty
  else if currentHeight <? LinearProgressionBlocks then
    let diff := (InitialDifficulty - GenesisDifficulty) * currentHeight / LinearProgressionBlocks + GenesisDifficulty in
    if diff <? GenesisDifficulty then GenesisDifficulty else diff
  else calculateDynamicDifficulty currentTimestamp parent.

Definition CalculateNextDifficulty (now : Z) (parent : option Header) : Z :=
  match parent with
  | None => GenesisDifficulty
  | Some parent => CalcDifficultyLegacy now 0 parent
  end.
End Float.

(** ** Emergency reductions in closed form *)

Definition reduce (num den d : Z) : Z := d * num / den.

Lemma reduce_le num den d : 0 <= num <= den → 0 < den → 0 <= d → 0 <= reduce num den d <= d.
Proof.
  intros H1 H2 H3. unfold reduce. split; [apply Z.div_pos; nia|]. apply Z.div_le_upper_bound; nia.
Qed.

Lemma reduce_mono num den d d' : 0 <= num → 0 < den → d <= d' → reduce num den d <= reduce num den d'.
Proof. intros H1 H2 H3. unfold reduce. apply Z.div_le_mono; nia. Qed.

Lemma iter_reduce_le num den k d :
  0 <= num <= den → 0 < den → 0 <= d → 0 <= Nat.iter k (reduce num den) d <= d.
Proof.
  intros H1 H2 H3. induction k as [|k IH]; [cbn; lia|]. rewrite Nat.iter_succ.
  pose proof (reduce_le num den (Nat.iter k (reduce num den) d) H1 H2 ltac:(lia)). lia.
Qed.

Lemma iter_reduce_mono num den k d d' :
  0 <= num → 0 < den → d <= d' → Nat.iter k (reduce num den) d <= Nat.iter k (reduce num den) d'.
Proof.
  intros H1 H2 H3. induction k as [|k IH]; [done|]. rewrite !Nat.iter_succ. by apply reduce_mono.
Qed.

Lemma iter_reduce_antitone num den k k' d :
  0 <= num <= den → 0 < den → 0 <= d → (k <= k')%nat →
  Nat.iter k' (reduce num den) d <= Nat.iter k (reduce num den) d.
Proof.
  intros H1 H2 H3 Hk. replace k' with ((k' - k) + k)%nat by lia. rewrite Nat.iter_add.
  apply iter_reduce_le; [done|done|]. by apply iter_reduce_le.
Qed.

(** Up to the floor, the loop with its early exit is the plain iteration. *)
Lemma edaLoop_iter k num den d m :
  0 <= num <= den → 0 < den → 0 <= d →
  Z.max m (edaLoop k num den d m) = Z.max m (Nat.iter k (reduce num den) d).
Proof.
  intros H1 H2. revert d. induction k as [|k IH]; intros d H3; [done|]. cbn [edaLoop].
  rewrite Nat.iter_succ_r. fold (reduce num den d).
  pose proof (reduce_le num den d H1 H2 H3). case_if.
  - pose proof (iter_reduce_le num den k (reduce num den d) H1 H2 ltac:(lia)). lia.
  - apply IH. lia.
Qed.

Lemma edaLoop_ge k num den d m : 0 <= num <= den → 0 < den → (0 < k)%nat → m <= edaLoop k num den d m.
Proof.
  intros H1 H2 Hk. revert d. destruct k as [|k]; [lia|]. clear Hk. induction k as [|k IH]; intros d.
  - cbn. case_if; lia.
  - cbn [edaLoop]. case_if; [lia|]. apply IH.
Qed.

Lemma edaLoop_le k num den d m :
  0 <= num <= den → 0 < den → 0 <= d → edaLoop k num den d m <= Z.max m d.
Proof.
  intros H1 H2 H3. pose proof (edaLoop_iter k num den d m H1 H2 H3) as He.
  pose proof (iter_reduce_le num den k d H1 H2 H3). lia.
Qed.

(** ** The Phone retarget *)

Lemma phoneAdjustment_bounds cur delta denom :
  0 < cur → 0 <= delta → 0 < denom →
  1 <= phoneAdjustment cur delta denom <= Z.max 1 (cur / 4).
Proof.
  intros H1 H2 H3. unfold phoneAdjustment. cbn zeta.
  assert (0 <= cur * delta / denom) by (apply Z.div_pos; nia).
  assert (0 <= cur / 4) by (apply Z.div_pos; lia).
  revert H H0. generalize (cur * delta / denom) (cur / 4). intros x b ??.
  destruct (Z.ltb_spec b x); repeat case_if; lia.
Qed.

Lemma phoneAdjustment_mono cur delta delta' denom :
  0 < cur → 0 <= delta <= delta' → 0 < denom →
  phoneAdjustment cur delta denom <= phoneAdjustment cur delta' denom.
Proof.
  intros H1 H2 H3. unfold phoneAdjustment. cbn zeta.
  assert (0 <= cur * delta / denom <= cur * delta' / denom).
  { split; [apply Z.div_pos; nia|]. apply Z.div_le_mono; nia. }
  assert (0 <= cur / 4) by (apply Z.div_pos; lia).
  revert H H0. generalize (cur * delta / denom) (cur * delta' / denom) (cur / 4). intros x y b ??.
  destruct (Z.ltb_spec b x), (Z.ltb_spec b y); repeat case_if; lia.
Qed.

Lemma clampDifficulty_max m d :
  m <= MaxDifficulty → clampDifficulty m d = Z.min MaxDifficulty (Z.max m d).
Proof. intros H. unfold clampDifficulty. repeat case_if; lia. Qed.

(** The retarget before the final clamp, with the reductions in closed form. *)
Definition phoneTarget (cur blockTime : Z) : Z :=
  if TargetBlockTime <? blockTime then
    Nat.iter (Z.to_nat (blockTime / EDAThreshold - 1)) (reduce 75 100)
      (cur - phoneAdjustment cur (blockTime - TargetBlockTime) 960)
  else if blockTime <? TargetBlockTime then
    cur + phoneAdjustment cur (TargetBlockTime - blockTime) 480
  else cur.

Lemma calcPhoneDifficulty_closed cur bt m :
  0 < cur → 0 < bt → m <= MaxDifficulty →
  calcPhoneDifficulty (Some cur) bt TargetBlockTime m = Z.min MaxDifficulty (Z.max m (phoneTarget cur bt)).
Proof.
  intros Hc Hb Hm. unfold calcPhoneDifficulty. rewrite (proj2 (Z.leb_gt cur 0)), (proj2 (Z.eqb_neq bt 0)) by lia.
  change (TargetBlockTime =? 0) with false. cbv iota zeta.
  change (TargetBlockTime *₆₄ 8) with 960. change (TargetBlockTime *₆₄ 4) with 480.
  rewrite clampDifficulty_max by done. f_equal. unfold phoneTarget, TargetBlockTime, EDAThreshold.
  destruct (Z.ltb_spec 120 bt); [|done].
  pose proof (phoneAdjustment_bounds cur (bt - 120) 960 Hc ltac:(lia) ltac:(lia)).
  set (d := cur - _). assert (0 <= d) by (unfold d; divlia).
  change (7 * 60) with 420 in *. destruct (Z.leb_spec 420 bt).
  - destruct (Z.ltb_spec 1 (bt / 420)).
    + unfold applyMainnetEDAReductions. by apply edaLoop_iter.
    + by replace (Z.to_nat (bt / 420 - 1)) with 0%nat by lia.
  - by replace (Z.to_nat (bt / 420 - 1)) with 0%nat by divlia.
Qed.

Lemma phoneTarget_le cur bt : 0 < cur → 0 < bt → phoneTarget cur bt <= cur + Z.max 1 (cur / 4).
Proof.
  intros Hc Hb. unfold phoneTarget, TargetBlockTime, EDAThreshold. repeat case_if.
  - pose proof (phoneAdjustment_bounds cur (bt - 120) 960 Hc ltac:(lia) ltac:(lia)).
    set (d := cur - _). assert (0 <= d) by (unfold d; divlia).
    pose proof (iter_reduce_le 75 100 (Z.to_nat (bt / (7 * 60) - 1)) d ltac:(lia) ltac:(lia) ltac:(lia)). lia.
  - pose proof (phoneAdjustment_bounds cur (120 - bt) 480 Hc ltac:(lia) ltac:(lia)). lia.
  - lia.
Qed.

Lemma phoneTarget_slow_le cur bt : 0 < cur → TargetBlockTime < bt → phoneTarget cur bt <= cur.
Proof.
  intros Hc Hb. unfold phoneTarget. rewrite (proj2 (Z.ltb_lt _ _)) by done. unfold TargetBlockTime in *.
  pose proof (phoneAdjustment_bounds cur (bt - 120) 960 Hc ltac:(lia) ltac:(lia)).
  set (d := cur - _). assert (0 <= d) by (unfold d; divlia).
  pose proof (iter_reduce_le 75 100 (Z.to_nat (bt / EDAThreshold - 1)) d ltac:(lia) ltac:(lia) ltac:(lia)). lia.
Qed.

Lemma phoneTarget_fast_ge cur bt : 0 < cur → 0 < bt <= TargetBlockTime → cur <= phoneTarget cur bt.
Proof.
  intros Hc Hb. unfold phoneTarget, TargetBlockTime in *. repeat case_if; try lia.
  pose proof (phoneAdjustment_bounds cur (120 - bt) 480 Hc ltac:(lia) ltac:(lia)). lia.
Qed.

Lemma phoneTarget_antitone cur bt bt' : 0 < cur → 0 < bt → bt <= bt' → phoneTarget cur bt' <= phoneTarget cur bt.
Proof.
  intros Hc Hb Hle. destruct (Z.le_gt_cases bt TargetBlockTime) as [H1|H1];
    destruct (Z.le_gt_cases bt' TargetBlockTime) as [H2|H2].
  - unfold phoneTarget, TargetBlockTime in *. rewrite !(proj2 (Z.ltb_ge 120 _)) by lia.
    destruct (Z.ltb_spec bt 120), (Z.ltb_spec bt' 120); try lia.
    + pose proof (phoneAdjustment_mono cur (120 - bt') (120 - bt) 480 Hc ltac:(lia) ltac:(lia)). lia.
    + pose proof (phoneAdjustment_bounds cur (120 - bt) 480 Hc ltac:(lia) ltac:(lia)). lia.
  - pose proof (phoneTarget_fast_ge cur bt Hc ltac:(lia)). pose proof (phoneTarget_slow_le cur bt' Hc H2). lia.
  - lia.
  - unfold phoneTarget. rewrite !(proj2 (Z.ltb_lt _ _)) by lia. unfold TargetBlockTime, EDAThreshold in *.
    pose proof (phoneAdjustment_mono cur (bt - 120) (bt' - 120) 960 Hc ltac:(lia) ltac:(lia)).
    pose proof (phoneAdjustment_bounds cur (bt' - 120) 960 Hc ltac:(lia) ltac:(lia)).
    set (d := cur - phoneAdjustment cur (bt - 120) 960) in *. set (d' := cur - phoneAdjustment cur (bt' - 120) 960) in *.
    assert (0 <= d') by (unfold d'; divlia). assert (d' <= d) by lia.
    transitivity (Nat.iter (Z.to_nat (bt' / (7 * 60) - 1)) (reduce 75 100) d).
    + apply iter_reduce_mono; lia.
    + assert (bt / (7 * 60) <= bt' / (7 * 60)) by (apply Z.div_le_mono; lia).
      apply iter_reduce_antitone; lia.
Qed.

(** Under the Phone rules a slower block never raises the difficulty: the new
    difficulty is antitone in the (non-zero) block time across the rising, steady,
    falling and emergency regimes; it stays between the emergency minimum and the
    maximum and rises by at most a quarter (or one). *)
Theorem phone_difficulty_antitone (cur bt bt' : Z)
    (Hcur : 0 < cur) (Hbt : 0 < bt) (Hle : bt <= bt') :
  calcPhoneDifficulty (Some cur) bt' TargetBlockTime EDAMinDifficulty <=
    calcPhoneDifficulty (Some cur) bt TargetBlockTime EDAMinDifficulty ∧
  EDAMinDifficulty <= calcPhoneDifficulty (Some cur) bt TargetBlockTime EDAMinDifficulty <= MaxDifficulty ∧
  calcPhoneDifficulty (Some cur) bt TargetBlockTime EDAMinDifficulty <=
    Z.max EDAMinDifficulty (cur + Z.max 1 (cur / 4)).
Proof.
  assert (Hm : EDAMinDifficulty <= MaxDifficulty) by done.
  rewrite !calcPhoneDifficulty_closed by (done || lia).
  assert (Hup : phoneTarget cur bt <= cur + Z.max 1 (cur / 4)) by (by apply phoneTarget_le).
  pose proof (phoneTarget_antitone cur bt bt' Hcur Hbt Hle). lia.
Qed.

Lemma phone_difficulty_antitone_witness :
  calcPhoneDifficulty (Some 100000) 900 TargetBlockTime EDAMinDifficulty <=
    calcPhoneDifficulty (Some 100000) 121 TargetBlockTime EDAMinDifficulty.
Proof. apply (phone_difficulty_antitone 100000 121 900); lia. Defined.

(** ** The engine's retarget *)

Lemma calcPhoneDifficulty_bounds cur bt lo :
  lo <= EDAMinDifficulty → lo <= cur <= MaxDifficulty → 0 <= bt →
  lo <= calcPhoneDifficulty (Some cur) bt TargetBlockTime EDAMinDifficulty <= Z.min MaxDifficulty (Z.max MinDifficulty (2 * cur)).
Proof.
  intros Hlo Hcur Hbt. assert (EDAMinDifficulty <= MinDifficulty) by done. assert (MinDifficulty <= MaxDifficulty) by done.
  destruct (Z.leb_spec cur 0).
  { unfold calcPhoneDifficulty. rewrite (proj2 (Z.leb_le cur 0)) by lia. lia. }
  destruct (Z.eqb_spec bt 0) as [->|].
  { unfold calcPhoneDifficulty. rewrite (proj2 (Z.leb_gt cur 0)) by lia. change (0 =? 0) with true. cbv iota. lia. }
  rewrite calcPhoneDifficulty_closed by lia. pose proof (phoneTarget_le cur bt ltac:(lia) ltac:(lia)).
  assert (cur / 4 <= cur) by divlia. unfold EDAMinDifficulty in *. lia.
Qed.

Lemma ratioDifficulty_bounds cur diff :
  0 < diff → 0 <= cur →
  MinDifficulty <= ratioDifficulty cur diff <= Z.min MaxDifficulty (Z.max MinDifficulty (2 * cur)).
Proof.
  intros Hd Hc. assert (MinDifficulty <= MaxDifficulty) by done. unfold ratioDifficulty.
  set (ratio := TargetBlockTime * 100 / diff). cbn zeta.
  assert (Hr : ∃ r, (if (if 200 <? ratio then 200 else ratio) <? 50 then 50 else if 200 <? ratio then 200 else ratio) = r
    ∧ 50 <= r <= 200).
  { eexists. split; [done|]. destruct (Z.ltb_spec 200 ratio); case_if; lia. }
  destruct Hr as (r&->&Hr). assert (cur * r / 100 <= 2 * cur) by (apply Z.div_le_upper_bound; nia).
  repeat case_if; lia.
Qed.

Lemma eda_bounds k num den cur lo :
  0 <= num <= den → 0 < den → lo <= EDAMinDifficulty → 0 <= cur → lo <= cur <= MaxDifficulty →
  lo <= edaLoop k num den cur EDAMinDifficulty <= Z.min MaxDifficulty (Z.max MinDifficulty (2 * cur)).
Proof.
  intros H1 H2 Hlo Hc Hcur. assert (EDAMinDifficulty <= MinDifficulty) by done.
  assert (EDAMinDifficulty <= MaxDifficulty) by done.
  pose proof (edaLoop_le k num den cur EDAMinDifficulty H1 H2 Hc).
  destruct k as [|k]; [cbn; lia|]. pose proof (edaLoop_ge (S k) num den cur EDAMinDifficulty H1 H2 ltac:(lia)). lia.
Qed.

(** One retarget step keeps the difficulty in range on every branch.  If the
    parent's difficulty lies between a floor of at most the emergency minimum
    (such as the genesis difficulty) and the maximum, so does the child's, and it
    never more than doubles unless it is lifted to the minimum difficulty. *)
Theorem difficulty_step_in_range (config : option ChainConfig.ChainConfig) (time : Z) (parent : Header) (lo : Z)
    (Hlo : 0 <= lo <= EDAMinDifficulty) (Hd : lo <= parent.(hd_Difficulty) <= MaxDifficulty)
    (Ht : is_u64 time) (Hp : is_u64 parent.(Time)) :
  lo <= CalcDifficulty config time (Some parent) <= MaxDifficulty ∧
  CalcDifficulty config time (Some parent) <= Z.max MinDifficulty (2 * parent.(hd_Difficulty)).
Proof.
  set (cur := parent.(hd_Difficulty)) in *.
  enough (lo <= CalcDifficulty config time (Some parent) <= Z.min MaxDifficulty (Z.max MinDifficulty (2 * cur))) by lia.
  unfold CalcDifficulty. fold cur.
  set (diff := if _ <? time then _ else _).
  assert (Hdiff : 0 <= diff) by (unfold diff; case_if; apply u64_range).
  assert (MinDifficulty <= MaxDifficulty) by done. assert (EDAMinDifficulty <= MinDifficulty) by done.
  set (plain := if _ <? diff then cur else _).
  assert (Hplain : lo <= plain <= Z.min MaxDifficulty (Z.max MinDifficulty (2 * cur))).
  { unfold plain. repeat case_if; try lia.
    pose proof (ratioDifficulty_bounds cur diff ltac:(lia) ltac:(lia)). lia. }
  destruct config as [c|]; [|done]. cbn zeta. case_if; [by apply calcPhoneDifficulty_bounds; try lia|].
  case_if; [apply eda_bounds; lia|]. case_if; [apply eda_bounds; lia|done].
Qed.

Lemma difficulty_step_in_range_witness :
  3 <= CalcDifficulty None 10000 (Some {| Number := 4; Time := 9970; hd_Difficulty := 5000 |}) <= MaxDifficulty ∧
  CalcDifficulty None 10000 (Some {| Number := 4; Time := 9970; hd_Difficulty := 5000 |}) <= Z.max MinDifficulty (2 * 5000).
Proof.
  apply (difficulty_step_in_range None 10000 {| Number := 4; Time := 9970; hd_Difficulty := 5000 |} 3);
    cbn; split; done.
Defined.

(** ** Proof test and seeds *)

(** The product test is the usual comparison with a target. *)
Lemma monero_test_is_target h d :
  0 < d → meetsMoneroDifficulty h (Some d) = true ↔ be_value (rev (hash_bytes h)) <= (two256 - 1) / d.
Proof.
  intros Hd. unfold meetsMoneroDifficulty. rewrite (proj2 (Z.leb_gt d 0)) by lia. rewrite Z.ltb_lt.
  split; intros H; [apply Z.div_le_lower_bound; lia|].
  pose proof (Z.mul_div_le (two256 - 1) d Hd). nia.
Qed.

(** A harder difficulty accepts fewer hashes. *)
Lemma monero_test_antitone h d d' :
  0 < d → d <= d' → meetsMoneroDifficulty h (Some d') = true → meetsMoneroDifficulty h (Some d) = true.
Proof.
  intros Hd Hle. rewrite !monero_test_is_target by lia. intros H. etrans; [exact H|].
  apply Z.div_le_compat_l; [|lia]. assert (1 <= two256) by done. lia.
Qed.

(** The seed of an epoch is the genesis text hashed [max 1 epoch] times, so the
    first two epochs share their seed. *)
Lemma seedLoop_iter keccak n i seed :
  (0 < i)%nat → seedLoop keccak n i seed = Nat.iter n keccak seed.
Proof.
  revert i seed. induction n as [|n IH]; intros i seed Hi; [done|]. cbn [seedLoop].
  replace (i =? 0)%nat with false by (symmetry; apply Nat.eqb_neq; lia).
  rewrite IH by lia. by rewrite Nat.iter_succ_r.
Qed.

Lemma seedHash_iter keccak e :
  0 <= e → seedHash keccak e = BytesToHash (Nat.iter (Z.to_nat (Z.max 1 e)) keccak genesisSeedText).
Proof.
  intros He. unfold seedHash. destruct (Z.eqb_spec e 0) as [->|]; [done|].
  rewrite Z.max_r by lia. f_equal. destruct (Z.to_nat e) as [|m] eqn:E; [lia|].
  cbn [seedLoop]. change (0 =? 0)%nat with true. cbv iota. rewrite seedLoop_iter by lia.
  by rewrite Nat.iter_succ_r.
Qed.

(** ** The float-based retarget *)

(** Whatever the floating-point computation yields, a step changes the difficulty
    by at most a quarter (or one) and never goes below the genesis difficulty. *)
Lemma legacy_difficulty_bounded oor now bt (parent : Header) :
  LinearProgressionBlocks <= u64 parent.(Number) → GenesisDifficulty <= parent.(hd_Difficulty) →
  let d := parent.(hd_Difficulty) in
  let step := Z.max 1 (d * MaxAdjustmentPercent / 100) in
  Z.max GenesisDifficulty (d - step) <= CalcDifficultyLegacy oor now bt parent <= d + step.
Proof.
  intros Hn Hd d step. unfold CalcDifficultyLegacy, LinearProgressionBlocks in *.
  rewrite (proj2 (Z.eqb_neq _ 0)), (proj2 (Z.ltb_ge _ _)) by lia.
  unfold calculateDynamicDifficulty. fold d.
  assert (Hc : ∀ x, 1 <= clampChange d x <= step) by (intros x; unfold clampChange, step; repeat case_if; lia).
  set (t := if _ =? 0 then _ else _). set (new := if t <? _ then _ else _).
  assert (Hnew : d - step <= new <= d + step).
  { unfold new, increaseDifficulty, decreaseDifficulty. destruct (t <? _).
    - match goal with |- context [clampChange d ?x] => pose proof (Hc x) end. lia.
    - destruct (_ <? t); [|lia]. match goal with |- context [clampChange d ?x] => pose proof (Hc x) end.
      fold d in Hd. case_if; lia. }
  fold d in Hd. cbn zeta. case_if; lia.
Qed.

Lemma legacy_difficulty_linear oor now bt (parent : Header) :
  0 < u64 parent.(Number) < LinearProgressionBlocks →
  GenesisDifficulty <= CalcDifficultyLegacy oor now bt parent <= InitialDifficulty.
Proof.
  intros Hn. unfold CalcDifficultyLegacy, LinearProgressionBlocks, InitialDifficulty, GenesisDifficulty in *.
  rewrite (proj2 (Z.eqb_neq _ 0)), (proj2 (Z.ltb_lt _ _)) by lia. case_if; divlia.
Qed.

(** A block mined in half the target time doubles the change before the cap. *)
Example legacy_fast_block :
  increaseDifficulty (λ _, 0) 1000 60 = 1250 ∧ increaseDifficulty (λ _, 0) 1000 110 = 1090 ∧
  decreaseDifficulty (λ _, 0) 1000 132 = 900.
Proof. by vm_compute. Qed.
End Difficulty.
