(* ===== verification/State.v ===== *)
(** * The world-state interface

    What the consensus code asks of [core/state.StateDB] (the
    [vm.StateDB] interface of [core/vm/interface.go]): reading and changing
    balances, nonces and storage slots.  The consensus components are verified
    against the laws of this class; [StateRefinement.v] shows that the journaled
    implementation of [core/state] satisfies them. *)

From S2P Require Import Prelude.

Class WorldState {U : Uint256} (S : Type) := {
  GetBalance : S → address → Z;
  AddBalance : S → address → Z → S;
  SubBalance : S → address → Z → S;
  GetNonce : S → address → Z;
  SetNonce : S → address → Z → S;
  GetState : S → address → hash → hash;
  SetState : S → address → hash → hash → S;
  GetCodeSize : S → address → Z;

  balance_range s a : 0 <= GetBalance s a < two256;

  GetBalance_Add s a v b : 0 <= v < two256 →
    GetBalance (AddBalance s a v) b =
      if decide (a = b) then u256_add (GetBalance s a) v else GetBalance s b;
  GetBalance_Sub s a v b : 0 <= v < two256 →
    GetBalance (SubBalance s a v) b =
      if decide (a = b) then u256_sub (GetBalance s a) v else GetBalance s b;
  GetBalance_SetState s a k v b : GetBalance (SetState s a k v) b = GetBalance s b;
  GetBalance_SetNonce s a n b : GetBalance (SetNonce s a n) b = GetBalance s b;

  GetState_SetState s a k v b k' :
    GetState (SetState s a k v) b k' =
      if decide (a = b ∧ k = k') then v else GetState s b k';
  GetState_Add s a v b k : GetState (AddBalance s a v) b k = GetState s b k;
  GetState_Sub s a v b k : GetState (SubBalance s a v) b k = GetState s b k;
  GetState_SetNonce s a n b k : GetState (SetNonce s a n) b k = GetState s b k;

  GetNonce_SetNonce s a n b :
    GetNonce (SetNonce s a n) b = if decide (a = b) then n else GetNonce s b;
  GetNonce_Add s a v b : GetNonce (AddBalance s a v) b = GetNonce s b;
  GetNonce_Sub s a v b : GetNonce (SubBalance s a v) b = GetNonce s b;
  GetNonce_SetState s a k v b : GetNonce (SetState s a k v) b = GetNonce s b;

  GetCodeSize_Add s a v b : GetCodeSize (AddBalance s a v) b = GetCodeSize s b;
  GetCodeSize_Sub s a v b : GetCodeSize (SubBalance s a v) b = GetCodeSize s b;
  GetCodeSize_SetState s a k v b : GetCodeSize (SetState s a k v) b = GetCodeSize s b;
  GetCodeSize_SetNonce s a n b : GetCodeSize (SetNonce s a n) b = GetCodeSize s b;
}.

Create Rewrite HintDb state.
#[export] Hint Rewrite @GetBalance_SetState @GetBalance_SetNonce @GetState_Add @GetState_Sub
  @GetState_SetNonce @GetNonce_Add @GetNonce_Sub @GetNonce_SetState @GetNonce_SetNonce
  @GetCodeSize_Add @GetCodeSize_Sub @GetCodeSize_SetState @GetCodeSize_SetNonce : state.
Ltac ws_simpl := autorewrite with state in *.

(** ** Derived lemmas *)
Section Derived.
Context {U : Uint256} {S : Type} {W : WorldState S}.

(** Crediting a list of accounts in order. *)
Definition credit (s : S) (credits : list (address * Z)) : S :=
  foldl (λ s '(a, v), AddBalance s a v) s credits.

(** What a credit list pays to one account. *)
Definition credited (credits : list (address * Z)) (a : address) : Z :=
  foldr (λ '(b, v) acc, (if decide (b = a) then v else 0) + acc) 0 credits.

Definition credit_total (credits : list (address * Z)) : Z :=
  foldr (λ '(_, v) acc, v + acc) 0 credits.

Definition credits_ok (credits : list (address * Z)) : Prop :=
  Forall (λ '(_, v), 0 <= v < two256) credits.

Lemma GetState_SetState_eq s a k v : GetState (SetState s a k v) a k = v.
Proof. rewrite GetState_SetState. by rewrite decide_True. Qed.

Lemma GetState_SetState_ne s a k v b k' :
  (a ≠ b ∨ k ≠ k') → GetState (SetState s a k v) b k' = GetState s b k'.
Proof. intros H. rewrite GetState_SetState, decide_False; [done|]. naive_solver. Qed.

(** Credits add up modulo [2^256]. *)
Lemma GetBalance_credit s credits a :
  credits_ok credits →
  GetBalance (credit s credits) a = (GetBalance s a + credited credits a) mod two256.
Proof.
  unfold credited. revert s. induction credits as [|[b v] cs IH]; intros s Hok; cbn.
  { rewrite Z.add_0_r, Z.mod_small; [done|]. apply balance_range. }
  apply Forall_cons in Hok as [Hv Hok]. fold (credit (AddBalance s b v) cs).
  rewrite IH by done. rewrite GetBalance_Add by done.
  destruct (decide (b = a)) as [->|].
  - rewrite u256_add_spec, Zplus_mod_idemp_l. f_equal. lia.
  - by rewrite Z.add_0_l.
Qed.

Lemma GetState_credit s credits b k : GetState (credit s credits) b k = GetState s b k.
Proof.
  revert s. induction credits as [|[a v] cs IH]; intros s; cbn; [done|].
  fold (credit (AddBalance s a v) cs). rewrite IH. apply GetState_Add.
Qed.

Lemma credit_app s l1 l2 : credit (credit s l1) l2 = credit s (l1 ++ l2).
Proof. unfold credit. by rewrite foldl_app. Qed.

Lemma credited_app l1 l2 a : credited (l1 ++ l2) a = credited l1 a + credited l2 a.
Proof. unfold credited. induction l1 as [|[b v] l IH]; cbn; [done|]. lia. Qed.

Lemma credit_total_app l1 l2 : credit_total (l1 ++ l2) = credit_total l1 + credit_total l2.
Proof. unfold credit_total. induction l1 as [|[b v] l IH]; cbn; [done|]. lia. Qed.
End Derived.

(** ** A flat reference implementation

    Maps instead of tries and journals; used to run the consensus definitions
    on concrete inputs. *)
Record flatState := {
  fs_balance : gmap Z Z;
  fs_nonce : gmap Z Z;
  fs_storage : gmap (Z * Z) Z;
}.

Definition flat_set_balance (s : flatState) (a v : Z) : flatState :=
  {| fs_balance := <[a := v mod two256]> s.(fs_balance);
     fs_nonce := s.(fs_nonce); fs_storage := s.(fs_storage) |}.

Definition emptyFlat : flatState := {| fs_balance := ∅; fs_nonce := ∅; fs_storage := ∅ |}.

#[refine] Definition FlatWorldState : @WorldState RefUint256 flatState := {|
  GetBalance s a := default 0 (s.(fs_balance) !! a) mod two256;
  AddBalance s a v := flat_set_balance s a (default 0 (s.(fs_balance) !! a) mod two256 + v);
  SubBalance s a v := flat_set_balance s a (default 0 (s.(fs_balance) !! a) mod two256 - v);
  GetNonce s a := default 0 (s.(fs_nonce) !! a);
  SetNonce s a n := {| fs_balance := s.(fs_balance);
    fs_nonce := <[a := n]> s.(fs_nonce); fs_storage := s.(fs_storage) |};
  GetState s a k := default 0 (s.(fs_storage) !! (a, k));
  SetState s a k v := {| fs_balance := s.(fs_balance); fs_nonce := s.(fs_nonce);
    fs_storage := <[(a, k) := v]> s.(fs_storage) |};
  GetCodeSize _ _ := 0;
|}.
Proof.
  all: intros; cbn -[Z.modulo two256]; try done.
  - by apply Z.mod_pos_bound.
  - rewrite lookup_insert. case_decide; [|done]. subst. cbn [from_option id]. by rewrite Z.mod_mod.
  - rewrite lookup_insert. case_decide; [|done]. subst. cbn [from_option id]. by rewrite Z.mod_mod.
  - rewrite lookup_insert. case_decide as H; case_decide as H'; naive_solver.
  - rewrite lookup_insert. by case_decide.
Defined.
