(* ===== verification/FeeMarket.v ===== *)
(** * Gas limit, base fee and gas pool

    [consensus/misc/gaslimit.go], [consensus/misc/eip1559/eip1559.go],
    [CalcGasLimit] of [core/block_validator.go], [core/gaspool.go] and
    [core/vm/gascosts.go].  A [uint64] is a [Z] with its wrap-around written out;
    a Go panic is [None]. *)

From S2P Require Import Prelude ChainConfig.

Module FeeMarket.

(** ** Constants *)

Definition GasLimitBoundDivisor : Z := 1024.
Definition MinGasLimit : Z := 21000.
Definition MaxGasLimit : Z := 0x7fffffffffffffff.
Definition DeploymentGasLimitRecoveryFloor : Z := 5000000.
Definition InitialBaseFee : Z := 7.
Definition ElasticityMultiplier : Z := 2.
Definition BaseFeeChangeDenominator : Z := 8.

(** [int64] arithmetic *)
Definition i64 (x : Z) : Z := (x + 2 ^ 63) mod two64 - 2 ^ 63.

Inductive feeError :=
| ErrGasLimitStep
| ErrGasLimitMinimum
| ErrBaseFeeMissing
| ErrParentBaseFeeMissing
| ErrBaseFeeWrong
| ErrPanic
| ErrGasLimitReached
| ErrGasLimitOverflow.

(** ** Gas limit *)

Definition VerifyGaslimit (parentGasLimit headerGasLimit : Z) : result feeError unit :=
  if (parentGasLimit <? MinGasLimit) && (headerGasLimit =? MinGasLimit) then Ok ()
  else if (parentGasLimit <? DeploymentGasLimitRecoveryFloor) && (headerGasLimit =? DeploymentGasLimitRecoveryFloor) then Ok ()
  else
    let diff := i64 (i64 parentGasLimit - i64 headerGasLimit) in
    let diff := if diff <? 0 then i64 (- diff) else diff in
    let limit := parentGasLimit / GasLimitBoundDivisor in
    _ ← fail_if (limit <=? u64 diff) ErrGasLimitStep;
    fail_if (headerGasLimit <? MinGasLimit) ErrGasLimitMinimum.

Definition CalcGasLimit (parentGasLimit desiredLimit : Z) : Z :=
  let delta := parentGasLimit / GasLimitBoundDivisor -₆₄ 1 in
  let limit := parentGasLimit in
  let desiredLimit := if desiredLimit <? MinGasLimit then MinGasLimit else desiredLimit in
  if (limit <? DeploymentGasLimitRecoveryFloor) && (DeploymentGasLimitRecoveryFloor <=? desiredLimit)
  then DeploymentGasLimitRecoveryFloor
  else if limit <? desiredLimit then
    let limit := parentGasLimit +₆₄ delta in
    let limit := if desiredLimit <? limit then desiredLimit else limit in
    if limit <? MinGasLimit then MinGasLimit else limit
  else if desiredLimit <? limit then
    let limit := parentGasLimit -₆₄ delta in
    if limit <? desiredLimit then desiredLimit else limit
  else limit.

(** ** Base fee *)

(** The fields of a header the fee rules read. *)
Record feeHeader := {
  fh_Number : Z;
  fh_GasLimit : Z;
  fh_GasUsed : Z;
  fh_BaseFee : option Z;
}.

(** [num.Div] by a denominator; zero panics. *)
Definition bigDiv (x y : Z) : option Z := if y =? 0 then None else Some (x / y).

(** [parentBaseFee * gasUsedDelta / parentGasTarget / baseFeeChangeDenominator] *)
Definition feeDelta (baseFee delta target : Z) : option Z :=
  q ← bigDiv (delta * baseFee) target; bigDiv q BaseFeeChangeDenominator.

Definition CalcBaseFee (config : ChainConfig.ChainConfig) (parent : feeHeader) : option Z :=
  if negb (ChainConfig.IsLondon config parent.(fh_Number)) then Some InitialBaseFee
  else
    let parentGasTarget := parent.(fh_GasLimit) / ElasticityMultiplier in
    baseFee ← parent.(fh_BaseFee);
    if parent.(fh_GasUsed) =? parentGasTarget then Some baseFee
    else if parentGasTarget <? parent.(fh_GasUsed) then
      num ← feeDelta baseFee (parent.(fh_GasUsed) -₆₄ parentGasTarget) parentGasTarget;
      Some (if num <? 1 then baseFee + 1 else baseFee + num)
    else
      num ← feeDelta baseFee (parentGasTarget -₆₄ parent.(fh_GasUsed)) parentGasTarget;
      Some (if baseFee - num <? 0 then 0 else baseFee - num).

Definition VerifyEIP1559Header (config : ChainConfig.ChainConfig) (parent header : feeHeader) : result feeError unit :=
  let parentGasLimit :=
    if negb (ChainConfig.IsLondon config parent.(fh_Number)) then parent.(fh_GasLimit) *₆₄ ElasticityMultiplier
    else parent.(fh_GasLimit) in
  _ ← VerifyGaslimit parentGasLimit header.(fh_GasLimit);
  match header.(fh_BaseFee) with
  | None => Err ErrBaseFeeMissing
  | Some fee =>
      _ ← fail_if (ChainConfig.IsLondon config parent.(fh_Number) && bool_decide (parent.(fh_BaseFee) = None)) ErrParentBaseFeeMissing;
      match CalcBaseFee config parent with
      | None => Err ErrPanic
      | Some expectedBaseFee => fail_if (negb (fee =? expectedBaseFee)) ErrBaseFeeWrong
      end
  end.

(** ** Gas pool *)

Record GasPool := {
  remaining : Z;
  initial : Z;
  cumulativeUsed : Z;
}.

Definition NewGasPool (amount : Z) : GasPool := {| remaining := amount; initial := amount; cumulativeUsed := 0 |}.

Definition SubGas (gp : GasPool) (amount : Z) : result feeError GasPool :=
  if gp.(remaining) <? amount then Err ErrGasLimitReached
  else Ok {| remaining := gp.(remaining) -₆₄ amount; initial := gp.(initial); cumulativeUsed := gp.(cumulativeUsed) |}.

Definition ReturnGas (gp : GasPool) (returned gasUsed : Z) : result feeError GasPool :=
  if maxU64 - returned <? gp.(remaining) then Err ErrGasLimitOverflow
  else Ok {| remaining := gp.(remaining) +₆₄ returned; initial := gp.(initial); cumulativeUsed := gp.(cumulativeUsed) +₆₄ gasUsed |}.

Definition Gas (gp : GasPool) : Z := gp.(remaining).
Definition CumulativeUsed (gp : GasPool) : Z := gp.(cumulativeUsed).

(** [None] is the panic. *)
Definition Used (gp : GasPool) : option Z :=
  if gp.(initial) <? gp.(remaining) then None else Some (gp.(initial) -₆₄ gp.(remaining)).

(** ** Gas budgets *)

Record GasBudget := {
  RegularGas : Z;
  StateGas : Z;
}.

Definition NewGasBudget (gas : Z) : GasBudget := {| RegularGas := gas; StateGas := 0 |}.
Definition budgetUsed (g initial : GasBudget) : Z := initial.(RegularGas) -₆₄ g.(RegularGas).

(** The budget left and whether it sufficed. *)
Definition Charge (g : GasBudget) (cost : Z) : GasBudget * bool :=
  if g.(RegularGas) <? cost then (g, false)
  else ({| RegularGas := g.(RegularGas) -₆₄ cost; StateGas := g.(StateGas) |}, true).

Definition Refund (g other : GasBudget) : GasBudget :=
  {| RegularGas := g.(RegularGas) +₆₄ other.(RegularGas); StateGas := g.(StateGas) |}.

(** ** Gas limit: properties *)

(** Splits the tests of a goal from the innermost one outwards. *)
Ltac case_inner :=
  repeat match goal with
  | |- context [if ?b then _ else _] => lazymatch b with context [if _ then _ else _] => fail | _ => destruct b eqn:?; bool_to_prop end
  | |- context [?b && ?c] => destruct b eqn:?; bool_to_prop; cbn [andb]
  end.

Lemma i64_small x : - 2 ^ 63 <= x < 2 ^ 63 → i64 x = x.
Proof. intros H. unfold i64. rewrite Z.mod_small; unfold two64; lia. Qed.

(** The check on limits of the admissible range. *)
Lemma verify_gaslimit_spec p h :
  0 <= p <= MaxGasLimit → 0 <= h <= MaxGasLimit →
  VerifyGaslimit p h = Ok () ↔
    p < MinGasLimit ∧ h = MinGasLimit
    ∨ p < DeploymentGasLimitRecoveryFloor ∧ h = DeploymentGasLimitRecoveryFloor
    ∨ Z.abs (p - h) < p / GasLimitBoundDivisor ∧ MinGasLimit <= h.
Proof.
  unfold MaxGasLimit. intros Hp Hh. unfold VerifyGaslimit.
  destruct ((p <? MinGasLimit) && _) eqn:E1; [bool_to_prop; naive_solver|].
  destruct ((p <? DeploymentGasLimitRecoveryFloor) && _) eqn:E2; [bool_to_prop; naive_solver|].
  rewrite (i64_small p), (i64_small h), (i64_small (p - h)) by lia.
  assert (Ed : (if p - h <? 0 then i64 (- (p - h)) else p - h) = Z.abs (p - h)).
  { case_if; [rewrite i64_small by lia|]; lia. }
  rewrite Ed, (u64_small (Z.abs _)) by (unfold is_u64, two64; lia). rewrite bind_ok.
  assert (Hg : (∃ a, fail_if (p / GasLimitBoundDivisor <=? Z.abs (p - h)) ErrGasLimitStep = Ok a ∧ fail_if (h <? MinGasLimit) ErrGasLimitMinimum = Ok ())
    ↔ Z.abs (p - h) < p / GasLimitBoundDivisor ∧ MinGasLimit <= h).
  { split; [intros ([] & H1%fail_if_ok & H2%fail_if_ok); bool_to_prop; lia|].
    intros [? ?]. exists (). split; apply fail_if_ok; [by apply Z.leb_gt|by apply Z.ltb_ge]. }
  rewrite Hg. apply andb_false_iff in E1. apply andb_false_iff in E2. rewrite Z.ltb_ge, Z.eqb_neq in E1, E2. naive_solver lia.
Qed.

Lemma calc_gas_limit_step p d :
  0 < p <= MaxGasLimit → 0 <= d <= MaxGasLimit →
  let h := CalcGasLimit p d in
  0 <= h <= MaxGasLimit ∧
  (p < MinGasLimit ∧ h = MinGasLimit ∨ p < DeploymentGasLimitRecoveryFloor ∧ h = DeploymentGasLimitRecoveryFloor
   ∨ Z.abs (p - h) < p / GasLimitBoundDivisor ∧ MinGasLimit <= h).
Proof.
  unfold CalcGasLimit, MaxGasLimit, MinGasLimit, DeploymentGasLimitRecoveryFloor, GasLimitBoundDivisor. intros Hp Hd. cbv zeta.
  assert (Hq : 1024 * (p / 1024) <= p < 1024 * (p / 1024) + 1024) by divlia. set (q := p / 1024) in *.
  destruct (decide (q = 0)) as [Hq0|Hq0].
  - rewrite Hq0. change (0 -₆₄ 1) with (two64 - 1). replace (p +₆₄ (two64 - 1)) with (p - 1) by (unfold u64, two64; divlia).
    case_inner; lia.
  - rewrite (u64_small (q - 1)) by (unfold is_u64, two64; lia). rewrite (u64_small (p + (q - 1))), (u64_small (p - (q - 1))) by (unfold is_u64, two64; lia).
    case_inner; lia.
Qed.

(** The limit a miner proposes is one that verifiers accept.  For every
    parent limit of the admissible range and every desired limit, [CalcGasLimit]
    gives a limit that [VerifyGaslimit] accepts, recovery steps included. *)
Theorem calc_gas_limit_accepted p d :
  0 < p <= MaxGasLimit → 0 <= d <= MaxGasLimit → VerifyGaslimit p (CalcGasLimit p d) = Ok ().
Proof. intros Hp Hd. destruct (calc_gas_limit_step p d Hp Hd) as [Hr Hs]. apply verify_gaslimit_spec; [lia|done..]. Qed.

Lemma calc_gas_limit_accepted_witness : VerifyGaslimit 6000000 (CalcGasLimit 6000000 30000000) = Ok () ∧ CalcGasLimit 6000000 30000000 = 6005858.
Proof. split; [|reflexivity]. apply calc_gas_limit_accepted; vm_compute; split; discriminate || reflexivity. Defined.

(** ** Base fee: properties *)

(** The rule of EIP-1559 on unbounded integers. *)
Definition baseFeeRule (f used target : Z) : Z :=
  if used =? target then f
  else if target <? used then f + Z.max 1 ((used - target) * f / target / 8)
  else f - (target - used) * f / target / 8.

(** Half the limit that a full block exceeds its target by, at most. *)
Definition maxIncrease (f limit target : Z) : Z := Z.max 1 ((limit - target) * f / target / 8).

Lemma eighth_le x y t : 0 < t → x <= y → x / t / 8 <= y / t / 8.
Proof. intros Ht H. apply Z.div_le_mono; [lia|]. by apply Z.div_le_mono. Qed.

Lemma decrease_bound f used target : 0 <= f → 0 <= used < target → 0 <= (target - used) * f / target / 8 <= f / 8.
Proof.
  intros Hf Hu. split; [apply Z.div_pos; [apply Z.div_pos; nia|lia]|].
  apply Z.div_le_mono; [lia|]. transitivity (f * target / target); [apply Z.div_le_mono; [lia|nia]|rewrite Z.div_mul; lia].
Qed.

Lemma baseFeeRule_mono f u u' target : 0 <= f → 0 < target → 0 <= u <= u' → baseFeeRule f u target <= baseFeeRule f u' target.
Proof.
  intros Hf Ht Hu. unfold baseFeeRule.
  pose proof (eighth_le ((u - target) * f) ((u' - target) * f) target Ht ltac:(apply Z.mul_le_mono_nonneg_r; lia)).
  pose proof (eighth_le ((target - u') * f) ((target - u) * f) target Ht ltac:(apply Z.mul_le_mono_nonneg_r; lia)).
  assert (Hx0 : ∀ x, 0 <= x → x < target → 0 <= (target - x) * f / target / 8) by (intros x Hx Hx'; by apply decrease_bound).
  pose proof (Hx0 u ltac:(lia)) as Hu0. pose proof (Hx0 u' ltac:(lia)) as Hu1. clear Hx0.
  revert Hu0 Hu1. generalize dependent ((target - u) * f / target / 8). generalize dependent ((target - u') * f / target / 8).
  generalize dependent ((u - target) * f / target / 8). generalize dependent ((u' - target) * f / target / 8). intros a b Hab c d Hcd Hu0 Hu1.
  repeat case_if; lia.
Qed.

Lemma CalcBaseFee_rule config parent f :
  ChainConfig.IsLondon config parent.(fh_Number) = true → parent.(fh_BaseFee) = Some f → 0 <= f →
  2 <= parent.(fh_GasLimit) <= MaxGasLimit → 0 <= parent.(fh_GasUsed) <= parent.(fh_GasLimit) →
  CalcBaseFee config parent = Some (baseFeeRule f parent.(fh_GasUsed) (parent.(fh_GasLimit) / 2)).
Proof.
  intros HL Hb Hf Hl Hu. unfold MaxGasLimit in *. unfold CalcBaseFee, baseFeeRule, ElasticityMultiplier, feeDelta, bigDiv, BaseFeeChangeDenominator. rewrite HL, Hb.
  cbn [negb mbind option_bind]. set (t := fh_GasLimit parent / 2). set (u := fh_GasUsed parent) in *.
  assert (Ht : 0 < t <= fh_GasLimit parent) by (unfold t; divlia). rewrite (proj2 (Z.eqb_neq t 0)) by lia. cbn [mbind option_bind Z.eqb].
  case_if; [done|]. case_if.
  - rewrite u64_small by (unfold is_u64, two64; lia). f_equal. case_if; lia.
  - rewrite u64_small by (unfold is_u64, two64; lia). f_equal. pose proof (decrease_bound f u t Hf ltac:(lia)).
    pose proof (Z.div_le_upper_bound f 8 f ltac:(lia) ltac:(lia)). case_if; lia.
Qed.

(** The base fee follows demand.  After a London block with a positive gas
    target the rule never fails: the fee stays when the block met its target, rises
    by at least one and at most by the increase of a full block when it used more,
    falls by at most an eighth when it used less, and never falls when more gas was
    used; a header is accepted exactly when its gas limit step is admissible and it
    carries that fee. *)
Theorem base_fee_step config parent f :
  ChainConfig.IsLondon config parent.(fh_Number) = true → parent.(fh_BaseFee) = Some f → 0 <= f →
  2 <= parent.(fh_GasLimit) <= MaxGasLimit → 0 <= parent.(fh_GasUsed) <= parent.(fh_GasLimit) →
  let target := parent.(fh_GasLimit) / ElasticityMultiplier in
  ∃ f', CalcBaseFee config parent = Some f'
    ∧ (parent.(fh_GasUsed) = target → f' = f)
    ∧ (target < parent.(fh_GasUsed) → f < f' <= f + maxIncrease f parent.(fh_GasLimit) target)
    ∧ (parent.(fh_GasUsed) < target → f - f / 8 <= f' <= f)
    ∧ (∀ parent' f'', parent'.(fh_Number) = parent.(fh_Number) → parent'.(fh_GasLimit) = parent.(fh_GasLimit) → parent'.(fh_BaseFee) = Some f →
        parent.(fh_GasUsed) <= parent'.(fh_GasUsed) <= parent.(fh_GasLimit) → CalcBaseFee config parent' = Some f'' → f' <= f'')
    ∧ (∀ header, VerifyEIP1559Header config parent header = Ok () ↔
        VerifyGaslimit parent.(fh_GasLimit) header.(fh_GasLimit) = Ok () ∧ header.(fh_BaseFee) = Some f').
Proof.
  intros HL Hb Hf Hl Hu target. unfold ElasticityMultiplier in target. pose proof (CalcBaseFee_rule _ _ _ HL Hb Hf Hl Hu) as Hc. fold target in Hc.
  assert (Ht : 0 < target) by (unfold target; divlia). eexists. split; [exact Hc|]. split; [|split; [|split; [|split]]].
  - intros He. unfold baseFeeRule. by rewrite (proj2 (Z.eqb_eq _ _)).
  - intros Hlt. unfold baseFeeRule. rewrite (proj2 (Z.eqb_neq _ _)), (proj2 (Z.ltb_lt _ _)) by lia. unfold maxIncrease.
    pose proof (eighth_le ((fh_GasUsed parent - target) * f) ((fh_GasLimit parent - target) * f) target Ht ltac:(apply Z.mul_le_mono_nonneg_r; lia)). lia.
  - intros Hlt. unfold baseFeeRule. rewrite (proj2 (Z.eqb_neq _ _)), (proj2 (Z.ltb_ge _ _)) by lia. pose proof (decrease_bound f (fh_GasUsed parent) target Hf ltac:(lia)). lia.
  - intros p' f'' Hn Hg Hb' Hu' Hc'. rewrite (CalcBaseFee_rule config p' f) in Hc'; [|by rewrite Hn|done|done|by rewrite Hg|rewrite Hg; lia]. injection Hc' as <-.
    rewrite Hg. fold target. apply baseFeeRule_mono; lia.
  - intros h. unfold VerifyEIP1559Header. rewrite HL, Hc, Hb. cbn [negb andb]. rewrite bool_decide_false by done. rewrite bind_ok. split.
    + intros ([] & Hg & Hr). split; [done|]. destruct (fh_BaseFee h) as [fee|]; [|done]. cbn [fail_if mbind result_bind] in Hr.
      apply fail_if_ok in Hr. bool_to_prop. by subst.
    + intros [Hg ->]. exists (). split; [done|]. cbn [fail_if mbind result_bind]. by rewrite Z.eqb_refl.
Qed.

Definition demoParent : feeHeader := {| fh_Number := 10; fh_GasLimit := 30000000; fh_GasUsed := 30000000; fh_BaseFee := Some 1000000000 |}.

Lemma base_fee_step_witness :
  ∃ f', CalcBaseFee (ChainConfig.demoMainnet [3]) demoParent = Some f' ∧ 1000000000 < f' <= 1000000000 + 125000000.
Proof.
  destruct (base_fee_step (ChainConfig.demoMainnet [3]) demoParent 1000000000) as (f' & Hc & _ & Hup & _).
  - vm_compute. reflexivity.
  - reflexivity.
  - lia.
  - vm_compute. split; discriminate.
  - vm_compute. split; discriminate.
  - exists f'. split; [exact Hc|]. apply Hup. vm_compute. reflexivity.
Defined.
End FeeMarket.
