(* ===== verification/StateTransition.v ===== *)
(** * Applying a message

    [core/state_transition.go] with [IntrinsicGasWithShield3] of
    [core/shielded_v3.go]: a message buys its gas, pays the intrinsic cost, runs in
    the EVM, gets its unused gas back and pays the miner.

    The EVM, the shielded-pool envelopes, stamps, private execution and signature
    recovery are other components; their operations are arguments, grouped in the
    class [Components].  A message is one that [TransactionToMessage] builds, whose
    numbers are not nil.  Tracing, burn logs and the access events of EIP-4762 do not
    change accounts and are left out. *)

From S2P Require Import Prelude Bytes State ChainConfig FeeMarket.
Import ChainConfig FeeMarket.

Module StateTransition.

(** ** Interfaces *)

(** The rest of [vm.StateDB] that a transition uses. *)
Class TxState {U : Uint256} (S : Type) {W : WorldState S} := {
  GetCode : S → address → bytes;
  SetCode : S → address → bytes → S;
  Exist : S → address → bool;
  GetRefund : S → Z;
  AddRefund : S → Z → S;
  AddAddressToAccessList : S → address → S;
  (** rules, sender, coinbase, recipient, access list *)
  Prepare : S → RulesT → address → address → option address → list (address * list hash) → S;

  GetBalance_SetCode s a c b : GetBalance (SetCode s a c) b = GetBalance s b;
  GetBalance_AddRefund s n b : GetBalance (AddRefund s n) b = GetBalance s b;
  GetBalance_AddAddress s a b : GetBalance (AddAddressToAccessList s a) b = GetBalance s b;
  GetBalance_Prepare s r a c t l b : GetBalance (Prepare s r a c t l) b = GetBalance s b;
  GetNonce_SetCode s a c b : GetNonce (SetCode s a c) b = GetNonce s b;
  GetNonce_AddRefund s n b : GetNonce (AddRefund s n) b = GetNonce s b;
  GetNonce_AddAddress s a b : GetNonce (AddAddressToAccessList s a) b = GetNonce s b;
  GetNonce_Prepare s r a c t l b : GetNonce (Prepare s r a c t l) b = GetNonce s b;
  GetRefund_range s : is_u64 (GetRefund s);
}.

#[export] Hint Rewrite @GetBalance_SetCode @GetBalance_AddRefund @GetBalance_AddAddress @GetBalance_Prepare @GetNonce_SetCode
  @GetNonce_AddRefund @GetNonce_AddAddress @GetNonce_Prepare : state.

(** [MulOverflow] and [AddOverflow] of the uint256 package: the low word and
    whether the result did not fit. *)
Class Uint256Overflow {U : Uint256} := {
  u256_mulOverflow : Z → Z → Z * bool;
  u256_addOverflow : Z → Z → Z * bool;
  u256_mulOverflow_spec x y : u256_mulOverflow x y = (x * y mod two256, bool_decide (two256 <= x * y));
  u256_addOverflow_spec x y : u256_addOverflow x y = ((x + y) mod two256, bool_decide (two256 <= x + y));
}.

Definition RefUint256Overflow : @Uint256Overflow RefUint256 := {|
  u256_mulOverflow x y := (x * y mod two256, bool_decide (two256 <= x * y));
  u256_addOverflow x y := ((x + y) mod two256, bool_decide (two256 <= x + y));
  u256_mulOverflow_spec _ _ := eq_refl;
  u256_addOverflow_spec _ _ := eq_refl;
|}.

Inductive stError :=
| ErrNonceTooHigh | ErrNonceTooLow | ErrNonceMax
| ErrFeeCapVeryHigh | ErrTipVeryHigh | ErrValueOverflow | ErrBlobFeeCapOverflow
| ErrStampUnverified | ErrStampState | ErrPrivateExecution
| ErrTxTypeNotSupported | ErrRandomXRecipient | ErrPQMigration
| ErrGasLimitTooHigh | ErrSenderNoEOA
| ErrFeeCapMissing | ErrTipAboveFeeCap | ErrFeeCapTooLow
| ErrBlobTxCreate | ErrMissingBlobHashes | ErrTooManyBlobs | ErrBlobHashVersion
| ErrBlobFeeCapMissing | ErrBlobFeeCapTooLow
| ErrSetCodeTxCreate | ErrEmptyAuthList
| ErrInsufficientFunds | ErrInvalidBlobBaseFee | ErrInvalidBaseFee | ErrInvalidShieldedTx
| ErrGasUintOverflow | ErrIntrinsicGas | ErrFloorDataGas
| ErrInsufficientFundsForTransfer | ErrMaxInitCodeSize
| ErrPool (e : feeError)
| ErrSender
| ErrNilPanic  (** a nil base fee is dereferenced, or [MustFromBig] panics *)
| ErrOther (n : Z).

(** ** Constants *)

Definition TxGas : Z := 21000.
Definition TxGasContractCreation : Z := 53000.
Definition TxDataZeroGas : Z := 4.
Definition TxDataNonZeroGasFrontier : Z := 68.
Definition TxDataNonZeroGasEIP2028 : Z := 16.
Definition InitCodeWordGas : Z := 2.
Definition TxAccessListAddressGas : Z := 2400.
Definition TxAccessListStorageKeyGas : Z := 1900.
Definition TxTokenPerNonZeroByte : Z := 4.
Definition TxCostFloorPerToken : Z := 10.
Definition TxCostFloorPerToken7976 : Z := 16.
Definition CallNewAccountGas : Z := 25000.
Definition TxAuthTupleGas : Z := 12500.
Definition RefundQuotient : Z := 2.
Definition RefundQuotientEIP3529 : Z := 5.
Definition MaxTxGas : Z := 16777216.
Definition BlobTxMaxBlobs : Z := 6.
Definition BlobTxBlobGasPerBlob : Z := 131072.
Definition MaxInitCodeSize : Z := 2 * 24576.
Definition MaxInitCodeSizeAmsterdam : Z := 2 * 32768.
Definition AddressLength : Z := 20.
Definition HashLength : Z := 32.
Definition ConfidentialPrepaidGas : Z := 7000000.
Definition ShieldedFeePrepaid : Z := 1.
Definition PQTkmTxType : Z := 6.
Definition RandomXTxType : Z := 5.
Definition ShieldedPoolAddress : address := 0xf7.
Definition DelegationPrefix : bytes := [0xef; 0x01; 0x00].

(** ** Data *)

Record SetCodeAuthorization := {
  au_ChainID : Z;
  au_Address : address;
  au_Nonce : Z;
  (** the signature, read by [Authority] only *)
  au_Signature : Z * Z * Z;
}.

Record Message := {
  shieldedTransactionHash : hash;
  antarticalStampTransactionHash : hash;
  antarticalStampBeneficiary : address;
  To : option address;
  From : address;
  Nonce : Z;
  Value : Z;
  GasLimit : Z;
  GasPrice : Z;
  GasFeeCap : Z;
  GasTipCap : Z;
  Data : bytes;
  AccessList : list (address * list hash);
  BlobGasFeeCap : Z;
  BlobHashes : option (list hash);
  SetCodeAuthorizations : option (list SetCodeAuthorization);
  TxType : Z;
  SkipNonceChecks : bool;
  SkipTransactionChecks : bool;
}.

(** The block context and the configuration of an EVM. *)
Record blockContext := {
  bc_config : ChainConfig;
  BlockNumber : Z;
  Time : Z;
  BaseFee : option Z;
  BlobBaseFee : option Z;
  Coinbase : address;
  hasRandom : bool;
  NoBaseFee : bool;
}.

Inductive vmError := ErrExecutionReverted | ErrExecution (n : Z).

Record ExecutionResult := {
  UsedGas : Z;
  MaxUsedGas : Z;
  er_Err : option vmError;
  ReturnData : bytes;
}.

(** The other components a transition calls. *)
Class Components (S : Type) := {
  (** [evm.Call] and [evm.Create] with what the precompiles and the interpreter do:
      the returned data, the gas left, the state and the error *)
  evm_Call : blockContext → S → address → address → bytes → GasBudget → Z → bytes * GasBudget * S * option vmError;
  evm_Create : blockContext → S → address → bytes → GasBudget → Z → bytes * GasBudget * S * option vmError;
  (** the fee mode of a V3, V4 or V5 envelope; [None] for other data *)
  shieldedFeeMode : bytes → option (result stError Z);
  confidentialFeeTicket : hash → hash;
  (** the data to be charged and the gas of the proof in it *)
  ShieldedV3GasData : bytes → result stError (bytes * Z);
  HasAntarticalStampPrefix : bytes → bool;
  (** the slot of a stamp's beneficiary *)
  stampSlot : address → hash;
  ValidateAntarticalStampState : S → address → option address → Z → bytes → result stError unit;
  ValidatePrivateExecutionMessage : ChainConfig → Z → Z → Z → option address → Z → bytes → result stError unit;
  HasPQMigrationDataPrefix : bytes → bool;
  ValidPQMigrationDataForRecipient : bytes → address → bool;
  Authority : SetCodeAuthorization → option address;
  (** [DecodeAntarticalStamp] and the beneficiary of the stamp *)
  stampBeneficiary : address → bytes → result stError address;
}.

(** ** Intrinsic gas *)

Definition toWordSize (size : Z) : Z :=
  if maxU64 - 31 <? size then maxU64 / 32 + 1 else (size + 31) / 32.

(** [gas += n * price] behind the test that it does not overflow *)
Definition addGas (gas price n : Z) : result stError Z :=
  if (maxU64 - gas) / price <? n then Err ErrGasUintOverflow else Ok (gas +₆₄ n * price).

Definition countZero (data : bytes) : Z := Z.of_nat (length (base.filter (λ b, b = 0) data)).
Definition storageKeys (l : list (address * list hash)) : Z := Z.of_nat (foldr (λ e n, length e.2 + n)%nat 0%nat l).

Definition IntrinsicGas (data : bytes) (accessList : list (address * list hash)) (authList : option (list SetCodeAuthorization))
    (isContractCreation isHomestead isEIP2028 isEIP3860 isAmsterdam : bool) : result stError Z :=
  let gas := if isContractCreation && isHomestead then TxGasContractCreation else TxGas in
  let dataLen := Z.of_nat (length data) in
  gas ←
    (if 0 <? dataLen then
       let z := countZero data in
       let nz := dataLen - z in
       gas ← addGas gas (if isEIP2028 then TxDataNonZeroGasEIP2028 else TxDataNonZeroGasFrontier) nz;
       gas ← addGas gas TxDataZeroGas z;
       if isContractCreation && isEIP3860 then addGas gas InitCodeWordGas (toWordSize dataLen) else Ok gas
     else Ok gas);
  let addresses := Z.of_nat (length accessList) in
  gas ← addGas gas TxAccessListAddressGas addresses;
  gas ← addGas gas TxAccessListStorageKeyGas (storageKeys accessList);
  gas ←
    (if isAmsterdam then
       gas ← addGas gas (AddressLength * TxCostFloorPerToken7976 * TxTokenPerNonZeroByte) addresses;
       addGas gas (HashLength * TxCostFloorPerToken7976 * TxTokenPerNonZeroByte) (storageKeys accessList)
     else Ok gas);
  Ok (match authList with None => gas | Some l => gas +₆₄ u64 (Z.of_nat (length l) * CallNewAccountGas) end).

(** ** Messages *)

(** The fields of a transaction. *)
Record Transaction := {
  tx_Hash : hash;
  tx_Type : Z;
  tx_Nonce : Z;
  tx_Gas : Z;
  tx_GasPrice : Z;
  tx_GasFeeCap : Z;
  tx_GasTipCap : Z;
  tx_To : option address;
  tx_Value : Z;
  tx_Data : bytes;
  tx_AccessList : list (address * list hash);
  tx_SetCodeAuthorizations : option (list SetCodeAuthorization);
  tx_BlobHashes : option (list hash);
  tx_BlobGasFeeCap : option Z;
}.

(** ** The transition *)

Section Transition.
Context {U : Uint256} {O : Uint256Overflow} {S : Type} {W : WorldState S} {T : TxState S} {C : Components S}.

Definition IntrinsicGasWithShield3 (data : bytes) (access : list (address * list hash)) (auth : option (list SetCodeAuthorization))
    (creation homestead eip2028 eip3860 amsterdam active : bool) : result stError Z :=
  '(data, proofGas) ← (if active then ShieldedV3GasData data else Ok (data, 0));
  gas ← IntrinsicGas data access auth creation homestead eip2028 eip3860 amsterdam;
  if maxU64 - gas <? proofGas then Err ErrGasUintOverflow else Ok (gas +₆₄ proofGas).

Definition FloorDataGas (rules : RulesT) (data : bytes) (accessList : list (address * list hash)) : result stError Z :=
  '(data, proofGas) ← (if rules.(R_IsAntartical) then ShieldedV3GasData data else Ok (data, 0));
  '(tokens, tokenCost) ←
    (if rules.(R_IsAmsterdam) then
       let dataLen := Z.of_nat (length data) in
       _ ← fail_if (maxU64 / TxTokenPerNonZeroByte <? dataLen) ErrGasUintOverflow;
       let tokens := u64 (dataLen * TxTokenPerNonZeroByte) in
       tokens ← addGas tokens (AddressLength * TxTokenPerNonZeroByte) (Z.of_nat (length accessList));
       tokens ← addGas tokens (HashLength * TxTokenPerNonZeroByte) (storageKeys accessList);
       Ok (tokens, TxCostFloorPerToken7976)
     else
       let z := countZero data in
       let nz := Z.of_nat (length data) - z in
       _ ← fail_if (maxU64 / TxTokenPerNonZeroByte <? nz) ErrGasUintOverflow;
       let tokens := u64 (nz * TxTokenPerNonZeroByte) in
       _ ← fail_if (maxU64 - tokens <? z) ErrGasUintOverflow;
       Ok (tokens +₆₄ z, TxCostFloorPerToken));
  _ ← fail_if ((maxU64 - TxGas) / tokenCost <? tokens) ErrGasUintOverflow;
  Ok (u64 (TxGas + tokens * tokenCost + proofGas)).

(** [uint256.FromBig], failing on overflow *)
Definition fromBig (e : stError) (x : Z) : result stError Z :=
  let '(z, overflow) := u256_fromBig x in if overflow then Err e else Ok z.

(** [from] is what [types.Sender] recovers. *)
Definition TransactionToMessage (from : option address) (tx : Transaction) (baseFee : option Z) : result stError Message :=
  match from with
  | None => Err ErrSender
  | Some from =>
      gasPrice ← fromBig ErrFeeCapVeryHigh tx.(tx_GasPrice);
      gasFeeCap ← fromBig ErrFeeCapVeryHigh tx.(tx_GasFeeCap);
      gasTipCap ← fromBig ErrTipVeryHigh tx.(tx_GasTipCap);
      value ← fromBig ErrValueOverflow tx.(tx_Value);
      blobGasFeeCap ← fromBig ErrBlobFeeCapOverflow (default 0 tx.(tx_BlobGasFeeCap));
      beneficiary ← (if HasAntarticalStampPrefix tx.(tx_Data) then stampBeneficiary from tx.(tx_Data) else Ok zeroAddress);
      gasPrice ←
        match baseFee with
        | None => Ok gasPrice
        | Some baseFee =>
            let effectiveGasPrice := baseFee + tx.(tx_GasTipCap) in
            let effectiveGasPrice := if tx.(tx_GasFeeCap) <? effectiveGasPrice then tx.(tx_GasFeeCap) else effectiveGasPrice in
            fromBig ErrNilPanic effectiveGasPrice
        end;
      Ok {| shieldedTransactionHash := tx.(tx_Hash);
            antarticalStampTransactionHash := if HasAntarticalStampPrefix tx.(tx_Data) then tx.(tx_Hash) else zeroHash;
            antarticalStampBeneficiary := beneficiary; To := tx.(tx_To); From := from; Nonce := tx.(tx_Nonce); Value := value;
            GasLimit := tx.(tx_Gas); GasPrice := gasPrice; GasFeeCap := gasFeeCap; GasTipCap := gasTipCap; Data := tx.(tx_Data);
            AccessList := tx.(tx_AccessList); BlobGasFeeCap := blobGasFeeCap; BlobHashes := tx.(tx_BlobHashes);
            SetCodeAuthorizations := tx.(tx_SetCodeAuthorizations); TxType := tx.(tx_Type); SkipNonceChecks := false;
            SkipTransactionChecks := false |}
  end.

(** [stateTransition] without the message and the EVM *)
Record transition := {
  confidentialPrepaid : bool;
  gp : GasPool;
  initialBudget : GasBudget;
  gasRemaining : GasBudget;
  state : S;
}.

Definition newStateTransition (st : S) (pool : GasPool) : transition :=
  {| confidentialPrepaid := false; gp := pool; initialBudget := NewGasBudget 0; gasRemaining := NewGasBudget 0; state := st |}.

Definition withState (t : transition) (st : S) : transition :=
  {| confidentialPrepaid := t.(confidentialPrepaid); gp := t.(gp); initialBudget := t.(initialBudget);
     gasRemaining := t.(gasRemaining); state := st |}.
Definition withRemaining (t : transition) (g : GasBudget) : transition :=
  {| confidentialPrepaid := t.(confidentialPrepaid); gp := t.(gp); initialBudget := t.(initialBudget);
     gasRemaining := g; state := t.(state) |}.

Definition gasUsed (t : transition) : Z := budgetUsed t.(gasRemaining) t.(initialBudget).
Definition blobGasUsed (msg : Message) : Z := u64 (Z.of_nat (length (default [] msg.(BlobHashes))) * BlobTxBlobGasPerBlob).

(** [MulOverflow], failing when the product does not fit *)
Definition mulChecked (e : stError) (x y : Z) : result stError Z :=
  let '(z, overflow) := u256_mulOverflow x y in if overflow then Err e else Ok z.
Definition addChecked (e : stError) (x y : Z) : result stError Z :=
  let '(z, overflow) := u256_addOverflow x y in if overflow then Err e else Ok z.

(** [uint256.FromBig] of a fee that must be there *)
Definition toWord (e : stError) (fee : option Z) : result stError Z :=
  match fee with
  | None => Err ErrNilPanic
  | Some x => let '(z, overflow) := u256_fromBig x in if overflow then Err e else Ok z
  end.

(** The confidential fee: the ticket of a verified note debit pays the gas. *)
Definition buyPrepaid (msg : Message) (t : transition) : result stError transition :=
  _ ← fail_if (negb (msg.(TxType) =? PQTkmTxType) || negb (default zeroAddress msg.(To) =? ShieldedPoolAddress) || negb (msg.(Value) =? 0)
               || negb (msg.(GasLimit) =? ConfidentialPrepaidGas) || negb (msg.(GasFeeCap) =? msg.(GasTipCap))
               || (msg.(shieldedTransactionHash) =? zeroHash)) ErrInvalidShieldedTx;
  let fee := msg.(GasLimit) * msg.(GasFeeCap) in
  let ticket := confidentialFeeTicket msg.(shieldedTransactionHash) in
  _ ← fail_if ((fee <=? 0) || (two256 <=? fee) || negb (GetState t.(state) ShieldedPoolAddress ticket =? fee)) ErrInvalidShieldedTx;
  match SubGas t.(gp) msg.(GasLimit) with
  | Err e => Err (ErrPool e)
  | Ok pool =>
      Ok {| confidentialPrepaid := true; gp := pool; initialBudget := NewGasBudget msg.(GasLimit);
            gasRemaining := NewGasBudget msg.(GasLimit); state := SetState t.(state) ShieldedPoolAddress ticket zeroHash |}
  end.

(** What the sender must own, and what it pays now. *)
Definition gasCost (ctx : blockContext) (msg : Message) : result stError (Z * Z) :=
  mgval ← mulChecked ErrInsufficientFunds msg.(GasLimit) msg.(GasPrice);
  balanceCheck ← mulChecked ErrInsufficientFunds msg.(GasLimit) msg.(GasFeeCap);
  balanceCheck ← addChecked ErrInsufficientFunds balanceCheck msg.(Value);
  let blobGas := blobGasUsed msg in
  if IsCancun ctx.(bc_config) ctx.(BlockNumber) ctx.(Time) && (0 <? blobGas) then
    blobBalanceCheck ← mulChecked ErrInsufficientFunds blobGas msg.(BlobGasFeeCap);
    balanceCheck ← addChecked ErrInsufficientFunds balanceCheck blobBalanceCheck;
    blobBaseFee ← toWord ErrInvalidBlobBaseFee ctx.(BlobBaseFee);
    blobFee ← mulChecked ErrInsufficientFunds blobGas blobBaseFee;
    mgval ← addChecked ErrInsufficientFunds mgval blobFee;
    Ok (balanceCheck, mgval)
  else Ok (balanceCheck, mgval).

Definition buyPublic (ctx : blockContext) (msg : Message) (t : transition) : result stError transition :=
  '(balanceCheck, mgval) ← gasCost ctx msg;
  _ ← fail_if (GetBalance t.(state) msg.(From) <? balanceCheck) ErrInsufficientFunds;
  match SubGas t.(gp) msg.(GasLimit) with
  | Err e => Err (ErrPool e)
  | Ok pool =>
      Ok {| confidentialPrepaid := t.(confidentialPrepaid); gp := pool; initialBudget := NewGasBudget msg.(GasLimit);
            gasRemaining := NewGasBudget msg.(GasLimit); state := SubBalance t.(state) msg.(From) mgval |}
  end.

(** An error leaves the transition as it was. *)
Definition buyGas (ctx : blockContext) (msg : Message) (t : transition) : result stError transition :=
  if IsConfidentialLedger ctx.(bc_config) ctx.(BlockNumber) ctx.(Time) then
    match shieldedFeeMode msg.(Data) with
    | Some (Err e) => Err e
    | Some (Ok mode) => if mode =? ShieldedFeePrepaid then buyPrepaid msg t else buyPublic ctx msg t
    | None => buyPublic ctx msg t
    end
  else buyPublic ctx msg t.

(** ** Checks before execution *)

Definition IsPQMigrationTxType (txType : Z) : bool := (txType =? 0) || (txType =? 1) || (txType =? 2).

(** [types.ParseDelegation] *)
Definition ParseDelegation (b : bytes) : option address :=
  if negb (length b =? 23)%nat || negb (has_prefix b DelegationPrefix) then None else Some (BytesToAddress (drop 3 b)).
Definition AddressToDelegation (a : address) : bytes := DelegationPrefix ++ address_bytes a.

(** [kzg4844.IsValidVersionedHash] *)
Definition IsValidVersionedHash (h : hash) : bool := h / 2 ^ 248 =? 1.

Definition checkNonce (msg : Message) (st : S) : result stError unit :=
  if msg.(SkipNonceChecks) then Ok ()
  else
    let stNonce := GetNonce st msg.(From) in
    if stNonce <? msg.(Nonce) then Err ErrNonceTooHigh
    else if msg.(Nonce) <? stNonce then Err ErrNonceTooLow
    else fail_if (stNonce +₆₄ 1 <? stNonce) ErrNonceMax.

(** [Int.Sign] of the fixed-width integers: the top bit makes a word negative. *)
Definition u256Sign (z : Z) : Z := if z =? 0 then 0 else if z <? 2 ^ 255 then 1 else -1.

(** The checks of a message that is a transaction. *)
Definition checkTransaction (ctx : blockContext) (msg : Message) (st : S) : result stError unit :=
  let config := ctx.(bc_config) in
  let number := ctx.(BlockNumber) in
  let time := ctx.(Time) in
  if msg.(SkipTransactionChecks) then Ok ()
  else
    _ ← (if IsAntartical config number time then
           _ ← fail_if (HasAntarticalStampPrefix msg.(Data) &&
                 ((msg.(antarticalStampTransactionHash) =? zeroHash)
                  || negb (GetState st ShieldedPoolAddress (stampSlot msg.(antarticalStampBeneficiary)) =? msg.(antarticalStampTransactionHash))))
                 ErrStampUnverified;
           ValidateAntarticalStampState st msg.(From) msg.(To) msg.(Value) msg.(Data)
         else Ok ());
    _ ← ValidatePrivateExecutionMessage config number time msg.(TxType) msg.(To) msg.(Value) msg.(Data);
    _ ← (if msg.(TxType) =? RandomXTxType then
           _ ← fail_if (negb (IsRandomXTx config number)) ErrTxTypeNotSupported;
           fail_if (bool_decide (msg.(To) = None)) ErrRandomXRecipient
         else Ok ());
    isPQMigration ←
      (if HasPQMigrationDataPrefix msg.(Data) then
         _ ← fail_if (match msg.(To) with None => true | Some a => negb (ValidPQMigrationDataForRecipient msg.(Data) a) end) ErrPQMigration;
         Ok ((0 <? u256Sign msg.(Value)) && IsPQMigrationTxType msg.(TxType))
       else Ok false);
    _ ← fail_if (IsQuantumResistant config number time && negb (msg.(TxType) =? PQTkmTxType)
                 && negb (isPQMigration && IsPQMigrationAllowed config number time)) ErrTxTypeNotSupported;
    _ ← fail_if (IsOsaka config number time && negb (IsAmsterdam config number time) && (MaxTxGas <? msg.(GasLimit))) ErrGasLimitTooHigh;
    let code := GetCode st msg.(From) in
    fail_if (negb (length code =? 0)%nat && bool_decide (ParseDelegation code = None)) ErrSenderNoEOA.

Definition checkFees (ctx : blockContext) (msg : Message) : result stError unit :=
  if IsLondon ctx.(bc_config) ctx.(BlockNumber) then
    if ctx.(NoBaseFee) && (msg.(GasFeeCap) =? 0) && (msg.(GasTipCap) =? 0) then Ok ()
    else
      match ctx.(BaseFee) with
      | None => Err ErrFeeCapMissing
      | Some baseFee =>
          _ ← fail_if (msg.(GasFeeCap) <? msg.(GasTipCap)) ErrTipAboveFeeCap;
          fail_if (msg.(GasFeeCap) <? baseFee) ErrFeeCapTooLow
      end
  else Ok ().

Definition checkBlobs (ctx : blockContext) (msg : Message) : result stError unit :=
  match msg.(BlobHashes) with
  | None => Ok ()
  | Some hashes =>
      _ ← fail_if (bool_decide (msg.(To) = None)) ErrBlobTxCreate;
      _ ← fail_if (length hashes =? 0)%nat ErrMissingBlobHashes;
      _ ← fail_if (IsOsaka ctx.(bc_config) ctx.(BlockNumber) ctx.(Time) && (BlobTxMaxBlobs <? Z.of_nat (length hashes))) ErrTooManyBlobs;
      fail_if (negb (forallb IsValidVersionedHash hashes)) ErrBlobHashVersion
  end.

Definition checkBlobFee (ctx : blockContext) (msg : Message) : result stError unit :=
  if IsCancun ctx.(bc_config) ctx.(BlockNumber) ctx.(Time) && (0 <? blobGasUsed msg) then
    if ctx.(NoBaseFee) && (msg.(BlobGasFeeCap) =? 0) then Ok ()
    else
      match ctx.(BlobBaseFee) with
      | None => Err ErrBlobFeeCapMissing
      | Some fee => fail_if (msg.(BlobGasFeeCap) <? fee) ErrBlobFeeCapTooLow
      end
  else Ok ().

Definition checkAuthorizations (msg : Message) : result stError unit :=
  match msg.(SetCodeAuthorizations) with
  | None => Ok ()
  | Some l =>
      _ ← fail_if (bool_decide (msg.(To) = None)) ErrSetCodeTxCreate;
      fail_if (length l =? 0)%nat ErrEmptyAuthList
  end.

Definition preCheck (ctx : blockContext) (msg : Message) (t : transition) : result stError transition :=
  _ ← checkNonce msg t.(state);
  _ ← checkTransaction ctx msg t.(state);
  _ ← checkFees ctx msg;
  _ ← checkBlobs ctx msg;
  _ ← checkBlobFee ctx msg;
  _ ← checkAuthorizations msg;
  buyGas ctx msg t.

(** ** Authorizations *)

(** The authority, when the authorization is valid, and the state with it in the
    access list. *)
Definition validateAuthorization (ctx : blockContext) (auth : SetCodeAuthorization) (st : S) : option address * S :=
  if negb (auth.(au_ChainID) =? 0) && negb (bool_decide (ctx.(bc_config).(ChainID) = Some auth.(au_ChainID))) then (None, st)
  else if auth.(au_Nonce) +₆₄ 1 <? auth.(au_Nonce) then (None, st)
  else
    match Authority auth with
    | None => (None, st)
    | Some authority =>
        let st := AddAddressToAccessList st authority in
        let code := GetCode st authority in
        if negb (length code =? 0)%nat && bool_decide (ParseDelegation code = None) then (None, st)
        else if negb (GetNonce st authority =? auth.(au_Nonce)) then (None, st)
        else (Some authority, st)
    end.

Definition applyAuthorization (ctx : blockContext) (auth : SetCodeAuthorization) (st : S) : S :=
  match validateAuthorization ctx auth st with
  | (None, st) => st
  | (Some authority, st) =>
      let st := if Exist st authority then AddRefund st (CallNewAccountGas - TxAuthTupleGas) else st in
      let st := SetNonce st authority (auth.(au_Nonce) +₆₄ 1) in
      if auth.(au_Address) =? zeroAddress then SetCode st authority []
      else SetCode st authority (AddressToDelegation auth.(au_Address))
  end.

(** ** Execution *)

Definition calcRefund (ctx : blockContext) (t : transition) : GasBudget :=
  let refund :=
    if negb (IsLondon ctx.(bc_config) ctx.(BlockNumber)) then gasUsed t / RefundQuotient else gasUsed t / RefundQuotientEIP3529 in
  let refund := if GetRefund t.(state) <? refund then GetRefund t.(state) else refund in
  NewGasBudget refund.

Definition returnGas (msg : Message) (t : transition) : transition :=
  withState t (AddBalance t.(state) msg.(From) (u256_mul t.(gasRemaining).(RegularGas) msg.(GasPrice))).

(** [vm.CheckMaxInitCodeSize] *)
Definition CheckMaxInitCodeSize (rules : RulesT) (size : Z) : result stError unit :=
  if rules.(R_IsAmsterdam) then fail_if (MaxInitCodeSizeAmsterdam <? size) ErrMaxInitCodeSize
  else if rules.(R_IsShanghai) then fail_if (MaxInitCodeSize <? size) ErrMaxInitCodeSize
  else Ok ().

(** Clauses 4 to 6: the budget behind the intrinsic cost, and the floor cost. *)
Definition chargeIntrinsic (msg : Message) (rules : RulesT) (t : transition) : result stError (transition * Z) :=
  let creation := bool_decide (msg.(To) = None) in
  cost ← IntrinsicGasWithShield3 msg.(Data) msg.(AccessList) msg.(SetCodeAuthorizations) creation rules.(R_IsHomestead)
           rules.(R_IsIstanbul) rules.(R_IsShanghai) rules.(R_IsAmsterdam) rules.(R_IsAntartical);
  let '(g, sufficient) := Charge t.(gasRemaining) cost in
  _ ← fail_if (negb sufficient) ErrIntrinsicGas;
  let t := withRemaining t g in
  floorDataGas ←
    (if rules.(R_IsPrague) then
       floor ← FloorDataGas rules msg.(Data) msg.(AccessList);
       _ ← fail_if (msg.(GasLimit) <? floor) ErrFloorDataGas;
       Ok floor
     else Ok 0);
  _ ← fail_if (negb (msg.(Value) =? 0) && (GetBalance t.(state) msg.(From) <? msg.(Value))) ErrInsufficientFundsForTransfer;
  _ ← (if creation then CheckMaxInitCodeSize rules (Z.of_nat (length msg.(Data))) else Ok ());
  Ok (t, floorDataGas).

(** The creation or the call, with the nonce and the authorizations before a call. *)
Definition runMessage (ctx : blockContext) (msg : Message) (rules : RulesT) (t : transition) : bytes * transition * option vmError :=
  let st := Prepare t.(state) rules msg.(From) ctx.(Coinbase) msg.(To) msg.(AccessList) in
  match msg.(To) with
  | None =>
      let '(ret, g, st, err) := evm_Create ctx st msg.(From) msg.(Data) t.(gasRemaining) msg.(Value) in
      (ret, withState (withRemaining t g) st, err)
  | Some to =>
      let st := SetNonce st msg.(From) (GetNonce st msg.(From) +₆₄ 1) in
      let st := foldl (λ st auth, applyAuthorization ctx auth st) st (default [] msg.(SetCodeAuthorizations)) in
      let st := match ParseDelegation (GetCode st to) with Some a => AddAddressToAccessList st a | None => st end in
      let '(ret, g, st, err) := evm_Call ctx st msg.(From) to msg.(Data) t.(gasRemaining) msg.(Value) in
      (ret, withState (withRemaining t g) st, err)
  end.

(** The gas after execution: refund, then the floor; with the peak. *)
Definition settleGas (ctx : blockContext) (rules : RulesT) (floorDataGas : Z) (t : transition) : transition * Z :=
  let t := if t.(confidentialPrepaid) then withRemaining t (NewGasBudget 0) else t in
  let peakGasUsed := gasUsed t in
  let t := if t.(confidentialPrepaid) then t else withRemaining t (Refund t.(gasRemaining) (calcRefund ctx t)) in
  if rules.(R_IsPrague) then
    let used := gasUsed t in
    let t := if used <? floorDataGas then withRemaining t (Charge t.(gasRemaining) (floorDataGas -₆₄ used)).1 else t in
    (t, if peakGasUsed <? floorDataGas then floorDataGas else peakGasUsed)
  else (t, peakGasUsed).

(** What the miner is paid for each unit of gas. *)
Definition effectiveTip (ctx : blockContext) (msg : Message) (rules : RulesT) : result stError Z :=
  if rules.(R_IsLondon) then
    baseFee ← toWord ErrInvalidBaseFee ctx.(BaseFee);
    Ok (u256_sub msg.(GasPrice) baseFee)
  else Ok msg.(GasPrice).

Definition payCoinbase (ctx : blockContext) (msg : Message) (tip : Z) (t : transition) : transition :=
  if t.(confidentialPrepaid) then t
  else if ctx.(NoBaseFee) && (msg.(GasFeeCap) =? 0) && (msg.(GasTipCap) =? 0) then t
  else withState t (AddBalance t.(state) ctx.(Coinbase) (u256_mul (gasUsed t) tip)).

Definition withPool (t : transition) (pool : GasPool) : transition :=
  {| confidentialPrepaid := t.(confidentialPrepaid); gp := pool; initialBudget := t.(initialBudget);
     gasRemaining := t.(gasRemaining); state := t.(state) |}.

(** The result and what the transition leaves behind: after the gas was bought an
    error does not take it back. *)
Definition execute (ctx : blockContext) (msg : Message) (t : transition) : result stError ExecutionResult * transition :=
  match preCheck ctx msg t with
  | Err e => (Err e, t)
  | Ok t =>
  let rules := Rules ctx.(bc_config) ctx.(BlockNumber) ctx.(hasRandom) ctx.(Time) in
  match chargeIntrinsic msg rules t with
  | Err e => (Err e, t)
  | Ok (t, floorDataGas) =>
  let '(ret, t, vmerr) := runMessage ctx msg rules t in
  let '(t, peakGasUsed) := settleGas ctx rules floorDataGas t in
  let t := if t.(confidentialPrepaid) then t else returnGas msg t in
  let returned := if rules.(R_IsAmsterdam) then t.(initialBudget).(RegularGas) -₆₄ peakGasUsed else t.(gasRemaining).(RegularGas) in
  match ReturnGas t.(gp) returned (gasUsed t) with
  | Err e => (Err (ErrPool e), t)
  | Ok pool =>
  let t := withPool t pool in
  match effectiveTip ctx msg rules with
  | Err e => (Err e, t)
  | Ok tip =>
      let t := payCoinbase ctx msg tip t in
      (Ok {| UsedGas := gasUsed t; MaxUsedGas := peakGasUsed; er_Err := vmerr; ReturnData := ret |}, t)
  end
  end
  end
  end.

Definition ApplyMessage (ctx : blockContext) (msg : Message) (pool : option GasPool) (st : S) : result stError ExecutionResult * transition :=
  let pool := match pool with Some p => p | None => NewGasPool msg.(GasLimit) end in
  execute ctx msg (newStateTransition st pool).
End Transition.
End StateTransition.
