(* ===== verification/GasAccounting.v ===== *)
(** * What a message pays

    The gas and the fees of [StateTransition]: the gas reported, the gas the block
    is charged, and where the coins go. *)

From S2P Require Import Prelude Bytes State ChainConfig FeeMarket StateTransition.
Import ChainConfig FeeMarket StateTransition.

Module GasAccounting.

Section Accounting.
Context {U : Uint256} {O : Uint256Overflow} {S : Type} {W : WorldState S} {T : TxState S} {C : Components S}.
Local Abbreviation transition := (@StateTransition.transition S).

(** The EVM leaves at most the gas it got. *)
Class EvmGas := {
  call_gas ctx st a b d g v :
    0 <= g.(RegularGas) → 0 <= (evm_Call ctx st a b d g v).1.1.2.(RegularGas) <= g.(RegularGas);
  create_gas ctx st a d g v :
    0 <= g.(RegularGas) → 0 <= (evm_Create ctx st a d g v).1.1.2.(RegularGas) <= g.(RegularGas);
}.

(** ** Words *)

Lemma mulChecked_ok e x y z : 0 <= x * y → mulChecked e x y = Ok z → z = x * y ∧ x * y < two256.
Proof.
  intros H0. unfold mulChecked. rewrite u256_mulOverflow_spec. case_bool_decide; [done|]. intros [= <-].
  rewrite Z.mod_small; lia.
Qed.

Lemma addChecked_ok e x y z : 0 <= x + y → addChecked e x y = Ok z → z = x + y ∧ x + y < two256.
Proof.
  intros H0. unfold addChecked. rewrite u256_addOverflow_spec. case_bool_decide; [done|]. intros [= <-].
  rewrite Z.mod_small; lia.
Qed.

Lemma toWord_ok e fee z : toWord e fee = Ok z → ∃ x, fee = Some x ∧ Z.abs x < two256 ∧ z = x mod two256.
Proof.
  unfold toWord. destruct fee as [x|]; [|done]. rewrite u256_fromBig_spec. case_bool_decide; [done|]. intros [= <-]. exists x. split_and!; [done|lia|done].
Qed.

(** ** Buying *)

(** The numbers of a message are words. *)
Record msg_ok (msg : Message) : Prop := {
  mo_limit : is_u64 msg.(GasLimit);
  mo_price : 0 <= msg.(GasPrice) < two256;
  mo_feecap : 0 <= msg.(GasFeeCap) < two256;
  mo_value : 0 <= msg.(Value) < two256;
  mo_blobcap : 0 <= msg.(BlobGasFeeCap) < two256;
}.

Definition pool_ok (p : GasPool) : Prop := 0 <= p.(remaining) <= p.(initial) ∧ is_u64 p.(initial).

Lemma SubGas_ok p n p' :
  pool_ok p → 0 <= n → SubGas p n = Ok p' →
  n <= p.(remaining) ∧ p'.(remaining) = p.(remaining) - n ∧ p'.(initial) = p.(initial) ∧ p'.(cumulativeUsed) = p.(cumulativeUsed).
Proof.
  intros [Hr Hi] Hn. unfold SubGas. case_if; [done|]. intros [= <-]. cbn. rewrite u64_small; [done|]. unfold is_u64 in *. lia.
Qed.

(** The fee for blobs that a message pays. *)
Definition blobFee (ctx : blockContext) (msg : Message) : Z :=
  if IsCancun ctx.(bc_config) ctx.(BlockNumber) ctx.(Time) then blobGasUsed msg * default 0 ctx.(BlobBaseFee) else 0.

Lemma blobGas_nonneg msg : 0 <= blobGasUsed msg.
Proof. apply u64_range. Qed.

Lemma gasCost_ok ctx msg bc mg :
  msg_ok msg → 0 <= default 0 ctx.(BlobBaseFee) → gasCost ctx msg = Ok (bc, mg) →
  mg = msg.(GasLimit) * msg.(GasPrice) + blobFee ctx msg ∧ 0 <= mg < two256
  ∧ bc = msg.(GasLimit) * msg.(GasFeeCap) + msg.(Value)
         + (if IsCancun ctx.(bc_config) ctx.(BlockNumber) ctx.(Time) then blobGasUsed msg * msg.(BlobGasFeeCap) else 0).
Proof.
  intros [Hl Hp Hf Hv Hb] Hbb. unfold is_u64 in Hl. pose proof (blobGas_nonneg msg) as Hg. unfold gasCost, blobFee. intros H.
  apply bind_ok in H as (m & Hm & H). apply mulChecked_ok in Hm as [-> Hm]; [|nia].
  apply bind_ok in H as (b & H1 & H). apply mulChecked_ok in H1 as [-> H1]; [|nia].
  apply bind_ok in H as (b & H2 & H). apply addChecked_ok in H2 as [-> H2]; [|nia].
  destruct (IsCancun _ _ _) eqn:Hc; cbn [andb] in H; [|injection H as <- <-; split_and!; nia].
  destruct (0 <? blobGasUsed msg) eqn:Hz; bool_to_prop.
  - apply bind_ok in H as (b & H3 & H). apply mulChecked_ok in H3 as [-> H3]; [|nia].
    apply bind_ok in H as (b & H4 & H). apply addChecked_ok in H4 as [-> H4]; [|nia].
    apply bind_ok in H as (w & H5 & H). apply toWord_ok in H5 as (x & Hx & Hx' & ->). rewrite Hx in *. cbn [default from_option id] in *.
    rewrite Z.mod_small in H by lia.
    apply bind_ok in H as (b & H6 & H). apply mulChecked_ok in H6 as [-> H6]; [|nia].
    apply bind_ok in H as (b & H7 & H). apply addChecked_ok in H7 as [-> H7]; [|nia]. injection H as <- <-. split_and!; nia.
  - injection H as <- <-. replace (blobGasUsed msg) with 0 by lia. split_and!; nia.
Qed.

(** What buying gas does to a fresh transition. *)
Definition bought (ctx : blockContext) (msg : Message) (st : S) (p : GasPool) (t : transition) : Prop :=
  t.(initialBudget) = NewGasBudget msg.(GasLimit) ∧ t.(gasRemaining) = NewGasBudget msg.(GasLimit)
  ∧ msg.(GasLimit) <= p.(remaining) ∧ t.(gp).(remaining) = p.(remaining) - msg.(GasLimit)
  ∧ t.(gp).(initial) = p.(initial) ∧ t.(gp).(cumulativeUsed) = p.(cumulativeUsed)
  ∧ (t.(confidentialPrepaid) = true ∧ (∀ b, GetBalance t.(state) b = GetBalance st b)
     ∨ t.(confidentialPrepaid) = false ∧ ∃ bc mg, gasCost ctx msg = Ok (bc, mg) ∧ bc <= GetBalance st msg.(From)
         ∧ t.(state) = SubBalance st msg.(From) mg).

Lemma buyGas_ok ctx msg st p t :
  msg_ok msg → pool_ok p → buyGas ctx msg (newStateTransition st p) = Ok t → bought ctx msg st p t.
Proof.
  intros Hmsg Hp. destruct (mo_limit _ Hmsg) as [Hl _].
  assert (Hpub : buyPublic ctx msg (newStateTransition st p) = Ok t → bought ctx msg st p t).
  { unfold buyPublic. cbn [state gp newStateTransition]. intros H. apply bind_ok in H as ([bc mg] & Hc & H). apply bind_ok in H as ([] & Hf & H).
    apply fail_if_ok in Hf. bool_to_prop. destruct (SubGas p _) as [p'|] eqn:Hs; [|done]. injection H as <-.
    destruct (SubGas_ok _ _ _ Hp Hl Hs) as (? & ? & ? & ?). split_and!; try done. right. eauto 10. }
  assert (Hpre : buyPrepaid msg (newStateTransition st p) = Ok t → bought ctx msg st p t).
  { unfold buyPrepaid. cbn [state gp newStateTransition]. intros H. apply bind_ok in H as ([] & _ & H). apply bind_ok in H as ([] & _ & H).
    destruct (SubGas p _) as [p'|] eqn:Hs; [|done]. injection H as <-.
    destruct (SubGas_ok _ _ _ Hp Hl Hs) as (? & ? & ? & ?). split_and!; try done. left. split; [done|]. intros b. cbn. by rewrite GetBalance_SetState. }
  unfold buyGas. destruct (IsConfidentialLedger _ _ _); [|done]. destruct (shieldedFeeMode _) as [[mode|]|]; [|done..]. by case_if.
Qed.

(** ** Intrinsic and floor gas *)

Lemma addGas_eq gas price n :
  is_u64 gas → 0 < price → 0 <= n → addGas gas price n = if gas + n * price <? two64 then Ok (gas + n * price) else Err ErrGasUintOverflow.
Proof.
  intros Hg Hp Hn. unfold addGas, maxU64. unfold is_u64 in Hg.
  pose proof (Z.mul_div_le (two64 - 1 - gas) price ltac:(lia)). pose proof (Z.mul_succ_div_gt (two64 - 1 - gas) price ltac:(lia)).
  set (q := (two64 - 1 - gas) / price) in *. case_if.
  - rewrite (proj2 (Z.ltb_ge _ _)) by nia. done.
  - rewrite (proj2 (Z.ltb_lt _ _)) by nia. rewrite u64_small; [done|]. unfold is_u64. nia.
Qed.

(** Adding in turn fails exactly when the sum does not fit. *)
Lemma addGas_bind {A} x price n (f : Z → result stError A) m k :
  0 <= x → 0 < price → 0 <= n → 0 <= m → (∀ y, is_u64 y → f y = if y + m <? two64 then k (y + m) else Err ErrGasUintOverflow) →
  (if x <? two64 then addGas x price n ≫= f else Err ErrGasUintOverflow)
  = if x + (n * price + m) <? two64 then k (x + (n * price + m)) else Err ErrGasUintOverflow.
Proof.
  intros Hx Hp Hn Hm Hf. destruct (x <? two64) eqn:Hlt; bool_to_prop.
  - rewrite addGas_eq by (unfold is_u64; done || lia). destruct (x + n * price <? two64) eqn:E; bool_to_prop; cbn [mbind result_bind].
    + rewrite Hf by (unfold is_u64; nia). by replace (x + n * price + m) with (x + (n * price + m)) by lia.
    + by rewrite (proj2 (Z.ltb_ge _ _)) by nia.
  - by rewrite (proj2 (Z.ltb_ge _ _)) by nia.
Qed.

Lemma countZero_range d : 0 <= countZero d <= Z.of_nat (length d).
Proof. unfold countZero. pose proof (length_filter (λ b : Z, b = 0) d). lia. Qed.

(** The intrinsic gas on unbounded integers, without the authorizations. *)
Definition intrinsicCost (data : bytes) (access : list (address * list hash)) (creation homestead eip2028 eip3860 amsterdam : bool) : Z :=
  let z := countZero data in
  let nz := Z.of_nat (length data) - z in
  (if creation && homestead then 53000 else 21000)
  + (nz * (if eip2028 then 16 else 68) + (z * 4 + ((if creation && eip3860 then (Z.of_nat (length data) + 31) / 32 * 2 else 0)
  + (Z.of_nat (length access) * 2400 + (storageKeys access * 1900
  + (if amsterdam then Z.of_nat (length access) * 1280 + storageKeys access * 2048 else 0)))))).

Lemma data_cost_nonneg (data : bytes) : 0 <= (Z.of_nat (length data) + 31) / 32 * 2.
Proof. apply Z.mul_nonneg_nonneg; [apply Z.div_pos|]; lia. Qed.

(** The part behind the data. *)
Definition accessPart (access : list (address * list hash)) (auth : option (list SetCodeAuthorization)) (am : bool) (gas : Z) : result stError Z :=
  gas ← addGas gas TxAccessListAddressGas (Z.of_nat (length access));
  gas ← addGas gas TxAccessListStorageKeyGas (storageKeys access);
  gas ← (if am then
           gas ← addGas gas (AddressLength * TxCostFloorPerToken7976 * TxTokenPerNonZeroByte) (Z.of_nat (length access));
           addGas gas (HashLength * TxCostFloorPerToken7976 * TxTokenPerNonZeroByte) (storageKeys access)
         else Ok gas);
  Ok (match auth with None => gas | Some l => gas +₆₄ u64 (Z.of_nat (length l) * CallNewAccountGas) end).

Lemma addGas_step {A} (f : Z → result stError A) y price n m k :
  is_u64 y → 0 < price → 0 <= n → 0 <= m → (∀ y, is_u64 y → f y = if y + m <? two64 then k (y + m) else Err ErrGasUintOverflow) →
  addGas y price n ≫= f = if y + (n * price + m) <? two64 then k (y + (n * price + m)) else Err ErrGasUintOverflow.
Proof.
  intros Hy Hp Hn Hm Hf. rewrite <- (addGas_bind y price n f m k) by (done || apply Hy). unfold is_u64 in Hy. by rewrite (proj2 (Z.ltb_lt _ _)) by lia.
Qed.

Definition authCost (auth : option (list SetCodeAuthorization)) : Z := Z.of_nat (length (default [] auth)) * CallNewAccountGas.

Lemma u64_add_u64 x y : x +₆₄ u64 y = u64 (x + y).
Proof. unfold u64. by rewrite Z.add_mod_idemp_r. Qed.

Lemma accessPart_eq (access : list (address * list hash)) auth (am : bool) gas :
  is_u64 gas →
  let m := Z.of_nat (length access) * 2400 + (storageKeys access * 1900
           + (if am then Z.of_nat (length access) * 1280 + storageKeys access * 2048 else 0)) in
  accessPart access auth am gas = if gas + m <? two64 then Ok (u64 (gas + m + authCost auth)) else Err ErrGasUintOverflow.
Proof.
  intros Hg m. subst m. assert (Hs : 0 <= storageKeys access) by (unfold storageKeys; lia). unfold accessPart.
  apply addGas_step with (k := λ g, Ok (u64 (g + authCost auth))) (m := storageKeys access * 1900 + (if am then _ else _));
    [done|done|lia|destruct am; lia|]. intros y Hy.
  apply addGas_step with (k := λ g, Ok (u64 (g + authCost auth))) (m := if am then _ else _); [done|done|done|destruct am; lia|]. clear y Hy. intros y Hy.
  assert (Hlast : ∀ y, is_u64 y →
    @Ok stError Z (match auth with None => y | Some l => y +₆₄ u64 (Z.of_nat (length l) * CallNewAccountGas) end) = Ok (u64 (y + authCost auth))).
  { intros z Hz. unfold authCost. destruct auth; cbn; [by rewrite u64_add_u64|]. by rewrite Z.add_0_r, u64_small. }
  destruct am.
  - transitivity (g ← addGas y (AddressLength * TxCostFloorPerToken7976 * TxTokenPerNonZeroByte) (Z.of_nat (length access));
                  g ← addGas g (HashLength * TxCostFloorPerToken7976 * TxTokenPerNonZeroByte) (storageKeys access);
                  @Ok stError Z (match auth with None => g | Some l => g +₆₄ u64 (Z.of_nat (length l) * CallNewAccountGas) end)).
    { by destruct (addGas y _ _). }
    apply addGas_step with (k := λ g, Ok (u64 (g + authCost auth))) (m := storageKeys access * 2048); [done|done|lia|lia|]. clear y Hy. intros y Hy.
    replace (storageKeys access * 2048) with (storageKeys access * 2048 + 0) by lia.
    apply addGas_step with (k := λ g, Ok (u64 (g + authCost auth))) (m := 0); [done|done|lia|lia|]. clear y Hy. intros y Hy. rewrite Z.add_0_r, Hlast by done.
    unfold is_u64 in Hy. by rewrite (proj2 (Z.ltb_lt _ _)) by lia.
  - cbn [mbind result_bind]. rewrite Z.add_0_r, Hlast by done. unfold is_u64 in Hy. by rewrite (proj2 (Z.ltb_lt _ _)) by lia.
Qed.

(** The intrinsic gas is the sum it should be.  [IntrinsicGas], which guards
    each addition, fails exactly when the sum of the base cost, the data, the init
    code and the access list does not fit into 64 bits, and otherwise is that sum
    with the cost of the authorizations added, modulo [2^64] as the source does not
    guard the last addition. *)
Theorem intrinsic_gas_exact data access auth cr hs e28 e38 am :
  Z.of_nat (length data) < two64 - 31 →
  IntrinsicGas data access auth cr hs e28 e38 am
  = if intrinsicCost data access cr hs e28 e38 am <? two64
    then Ok (u64 (intrinsicCost data access cr hs e28 e38 am + authCost auth)) else Err ErrGasUintOverflow.
Proof.
  intros Hlen. pose proof (countZero_range data) as Hz. assert (Hs : 0 <= storageKeys access) by (unfold storageKeys; lia).
  pose proof (data_cost_nonneg data) as Hw. unfold IntrinsicGas, intrinsicCost.
  set (g0 := if cr && hs then TxGasContractCreation else TxGas). set (m := Z.of_nat (length access) * 2400 + _).
  assert (Hm : 0 <= m) by (unfold m; destruct am; lia).
  assert (Hg0 : is_u64 g0) by (unfold g0; by destruct (cr && hs)).
  change (if cr && hs then 53000 else 21000) with g0.
  set (k := λ g, Ok (E := stError) (u64 (g + authCost auth))).
  assert (Hacc : ∀ y, is_u64 y → accessPart access auth am y = if y + m <? two64 then k (y + m) else Err ErrGasUintOverflow).
  { intros y Hy. by rewrite accessPart_eq. }
  destruct (0 <? Z.of_nat (length data)) eqn:Hd; bool_to_prop.
  - transitivity (g ← addGas g0 (if e28 then TxDataNonZeroGasEIP2028 else TxDataNonZeroGasFrontier) (Z.of_nat (length data) - countZero data);
                  g ← addGas g TxDataZeroGas (countZero data);
                  g ← (if cr && e38 then addGas g InitCodeWordGas (toWordSize (Z.of_nat (length data))) else Ok g); accessPart access auth am g).
    { destruct (addGas g0 _ _) as [g|]; [|done]. cbn [mbind result_bind]. by destruct (addGas g TxDataZeroGas _). }
    replace (if e28 then 16 else 68) with (if e28 then TxDataNonZeroGasEIP2028 else TxDataNonZeroGasFrontier) by done.
    set (w := if cr && e38 then (Z.of_nat (length data) + 31) / 32 * 2 else 0). assert (Hw' : 0 <= w) by (unfold w; by destruct (cr && e38)).
    apply addGas_step with (k := k); [done|by destruct e28|lia|lia|]. intros y Hy.
    apply addGas_step with (k := k); [done|done|lia|lia|]. clear y Hy. intros y Hy. unfold w. destruct (cr && e38).
    + unfold toWordSize, maxU64. rewrite (proj2 (Z.ltb_ge _ _)) by lia. apply addGas_step with (k := k); [done|done|apply Z.div_pos; lia|done|done].
    + cbn [mbind result_bind]. rewrite Z.add_0_l. by apply Hacc.
  - assert (Hnil : data = []) by (destruct data; [done|cbn in Hd; lia]). subst data. cbn [mbind result_bind]. fold (accessPart access auth am g0).
    rewrite Hacc by done. change (countZero []) with 0. change (Z.of_nat (@length Z [])) with 0.
    replace (g0 + ((0 - 0) * (if e28 then 16 else 68) + (0 * 4 + ((if cr && e38 then (0 + 31) / 32 * 2 else 0) + m)))) with (g0 + m); [done|].
    destruct (cr && e38); change ((0 + 31) / 32) with 0; lia.
Qed.

(** ** After execution *)

Definition quotient (ctx : blockContext) : Z := if IsLondon ctx.(bc_config) ctx.(BlockNumber) then RefundQuotientEIP3529 else RefundQuotient.

Lemma gasUsed_small (t : transition) :
  0 <= t.(gasRemaining).(RegularGas) <= t.(initialBudget).(RegularGas) → is_u64 t.(initialBudget).(RegularGas) →
  gasUsed t = t.(initialBudget).(RegularGas) - t.(gasRemaining).(RegularGas).
Proof. intros H1 H2. unfold gasUsed, budgetUsed. apply u64_small. unfold is_u64 in *. lia. Qed.

Lemma calcRefund_spec ctx (t : transition) :
  0 <= gasUsed t → let r := (calcRefund ctx t).(RegularGas) in 0 <= r <= gasUsed t / quotient ctx ∧ r <= GetRefund t.(state).
Proof.
  intros H r. pose proof (GetRefund_range t.(state)) as [Hr _]. subst r. unfold calcRefund, quotient. cbn [RegularGas NewGasBudget].
  destruct (IsLondon _ _); cbn [negb]; (assert (0 <= gasUsed t / RefundQuotientEIP3529) by (by apply Z.div_pos)); (assert (0 <= gasUsed t / RefundQuotient) by (by apply Z.div_pos));
    case_if; lia.
Qed.

(** What the settlement leaves, for the gas limit [G] and the gas [g] the EVM left. *)
Lemma settle_spec ctx rules floor (t : transition) :
  let G := t.(initialBudget).(RegularGas) in
  let g := t.(gasRemaining).(RegularGas) in
  is_u64 G → 0 <= g <= G → 0 <= floor → (R_IsPrague rules = true → floor <= G) →
  let t' := (settleGas ctx rules floor t).1 in
  let peak := (settleGas ctx rules floor t).2 in
  t'.(initialBudget) = t.(initialBudget) ∧ t'.(gp) = t.(gp) ∧ t'.(state) = t.(state) ∧ t'.(confidentialPrepaid) = t.(confidentialPrepaid)
  ∧ 0 <= t'.(gasRemaining).(RegularGas) ∧ t'.(gasRemaining).(RegularGas) = G - gasUsed t'
  ∧ 0 <= gasUsed t' <= peak ∧ peak <= G ∧ G - g <= peak ∧ peak - gasUsed t' <= peak / quotient ctx
  ∧ (R_IsPrague rules = true → floor <= gasUsed t') ∧ (t.(confidentialPrepaid) = true → gasUsed t' = G).
Proof.
  intros G g HG Hg Hf HfG t' peak.
  set (t0 := if t.(confidentialPrepaid) then withRemaining t (NewGasBudget 0) else t).
  set (t1 := if t0.(confidentialPrepaid) then t0 else withRemaining t0 (Refund t0.(gasRemaining) (calcRefund ctx t0))).
  assert (Hq : 0 < quotient ctx) by (unfold quotient; by destruct (IsLondon _ _)).
  assert (H0 : t0.(initialBudget) = t.(initialBudget) ∧ t0.(gp) = t.(gp) ∧ t0.(state) = t.(state) ∧ t0.(confidentialPrepaid) = t.(confidentialPrepaid)
    ∧ 0 <= t0.(gasRemaining).(RegularGas) <= g ∧ (t.(confidentialPrepaid) = true → t0.(gasRemaining).(RegularGas) = 0)).
  { unfold t0. destruct (confidentialPrepaid t) eqn:Hp; cbn; split_and!; try done; lia. }
  destruct H0 as (E1 & E2 & E3 & E4 & B0 & P0).
  assert (Hu0 : gasUsed t0 = G - t0.(gasRemaining).(RegularGas)) by (rewrite gasUsed_small; rewrite E1; [done|lia|done]).
  assert (H1 : t1.(initialBudget) = t.(initialBudget) ∧ t1.(gp) = t.(gp) ∧ t1.(state) = t.(state) ∧ t1.(confidentialPrepaid) = t.(confidentialPrepaid)
    ∧ t0.(gasRemaining).(RegularGas) <= t1.(gasRemaining).(RegularGas) <= t0.(gasRemaining).(RegularGas) + gasUsed t0 / quotient ctx
    ∧ (t.(confidentialPrepaid) = true → t1.(gasRemaining).(RegularGas) = 0)).
  { assert (0 <= gasUsed t0 / quotient ctx <= gasUsed t0) by (split; [apply Z.div_pos; lia|apply Z.div_le_upper_bound; nia]).
    unfold t1. rewrite E4. destruct (confidentialPrepaid t) eqn:Hp.
    - specialize (P0 eq_refl). split_and!; try done; lia.
    - cbn [withRemaining initialBudget gp state confidentialPrepaid gasRemaining]. split_and!; try done; cbn [Refund RegularGas];
        destruct (calcRefund_spec ctx t0 ltac:(lia)) as [Hr _]; rewrite u64_small by (unfold is_u64 in *; lia); lia. }
  destruct H1 as (F1 & F2 & F3 & F4 & B1 & P1).
  assert (Hdiv : 0 <= gasUsed t0 / quotient ctx <= gasUsed t0) by (split; [apply Z.div_pos; lia|apply Z.div_le_upper_bound; nia]).
  assert (Hu1 : gasUsed t1 = G - t1.(gasRemaining).(RegularGas)) by (rewrite gasUsed_small; rewrite F1; [done|lia|done]).
  subst t' peak. unfold settleGas. fold t0. fold t1. destruct (R_IsPrague rules) eqn:Hpr; cbn [fst snd].
  - specialize (HfG eq_refl).
    assert (Hpk : (if gasUsed t0 <? floor then floor else gasUsed t0) = Z.max (gasUsed t0) floor) by (case_if; lia). rewrite Hpk.
    assert (Hmono : gasUsed t0 / quotient ctx <= Z.max (gasUsed t0) floor / quotient ctx) by (apply Z.div_le_mono; lia).
    destruct (gasUsed t1 <? floor) eqn:Hlt; bool_to_prop.
    + unfold Charge. rewrite (u64_small (floor - gasUsed t1)) by (unfold is_u64 in *; lia).
      rewrite (proj2 (Z.ltb_ge _ _)) by lia. cbn [fst]. rewrite (u64_small (_ - _)) by (unfold is_u64 in *; lia).
      set (t2 := withRemaining t1 _).
      assert (Hu2 : gasUsed t2 = floor) by (rewrite gasUsed_small; unfold t2; cbn; rewrite F1; fold G; [lia|lia|done]).
      rewrite Hu2. unfold t2. cbn [withRemaining initialBudget gp state confidentialPrepaid gasRemaining RegularGas].
      assert (0 <= Z.max (gasUsed t0) floor / quotient ctx) by (apply Z.div_pos; lia).
      split_and!; try done; try lia. intros Hpp. specialize (P1 Hpp). specialize (P0 Hpp). lia.
    + split_and!; try done; try lia. intros Hpp. specialize (P1 Hpp). lia.
  - split_and!; try done; try lia. intros Hpp. specialize (P1 Hpp). lia.
Qed.

(** A transition with another budget and state, and the same pool and payer. *)
Definition same_frame (t t' : transition) : Prop :=
  t'.(initialBudget) = t.(initialBudget) ∧ t'.(gp) = t.(gp) ∧ t'.(confidentialPrepaid) = t.(confidentialPrepaid).

Lemma run_spec {EG : EvmGas} ctx msg rules (t : transition) :
  0 <= t.(gasRemaining).(RegularGas) →
  let t' := (runMessage ctx msg rules t).1.2 in
  same_frame t t' ∧ 0 <= t'.(gasRemaining).(RegularGas) <= t.(gasRemaining).(RegularGas).
Proof.
  intros Hg. unfold runMessage. destruct (To msg) as [to|].
  - set (st := match ParseDelegation _ with Some _ => _ | None => _ end). pose proof (call_gas ctx st (From msg) to (Data msg) (gasRemaining t) (Value msg) Hg) as H.
    destruct (evm_Call _ _ _ _ _ _ _) as [[[ret g] st'] err]. cbn in *. by split.
  - set (st := Prepare _ _ _ _ _ _). pose proof (create_gas ctx st (From msg) (Data msg) (gasRemaining t) (Value msg) Hg) as H.
    destruct (evm_Create _ _ _ _ _ _) as [[[ret g] st'] err]. cbn in *. by split.
Qed.

Lemma intrinsic_u64 data access auth cr hs e28 e38 am act g :
  IntrinsicGasWithShield3 data access auth cr hs e28 e38 am act = Ok g → is_u64 g.
Proof.
  unfold IntrinsicGasWithShield3. intros H. apply bind_ok in H as ([d p] & _ & H). apply bind_ok in H as (c & _ & H).
  case_if_in H; [done|]. injection H as <-. apply u64_range.
Qed.

Lemma floor_u64 rules data access g : FloorDataGas rules data access = Ok g → is_u64 g.
Proof.
  unfold FloorDataGas. intros H. apply bind_ok in H as ([d p] & _ & H). apply bind_ok in H as ([k c] & _ & H).
  apply bind_ok in H as ([] & _ & H). injection H as <-. apply u64_range.
Qed.

Lemma charge_spec msg rules (t t' : transition) floor :
  is_u64 t.(gasRemaining).(RegularGas) → chargeIntrinsic msg rules t = Ok (t', floor) →
  same_frame t t' ∧ t'.(state) = t.(state) ∧ 0 <= t'.(gasRemaining).(RegularGas) <= t.(gasRemaining).(RegularGas)
  ∧ 0 <= floor ∧ (R_IsPrague rules = true → floor <= msg.(GasLimit) ∧ FloorDataGas rules msg.(Data) msg.(AccessList) = Ok floor)
  ∧ ∃ cost, IntrinsicGasWithShield3 msg.(Data) msg.(AccessList) msg.(SetCodeAuthorizations) (bool_decide (msg.(To) = None)) rules.(R_IsHomestead)
      rules.(R_IsIstanbul) rules.(R_IsShanghai) rules.(R_IsAmsterdam) rules.(R_IsAntartical) = Ok cost
      ∧ t'.(gasRemaining).(RegularGas) = t.(gasRemaining).(RegularGas) - cost.
Proof.
  intros Hu H. unfold chargeIntrinsic in H. apply bind_ok in H as (cost & Hc & H). pose proof (intrinsic_u64 _ _ _ _ _ _ _ _ _ _ Hc) as Hcu.
  unfold Charge in H. destruct (RegularGas (gasRemaining t) <? cost) eqn:Hlt; [done|]. apply Z.ltb_ge in Hlt. cbn [negb fail_if mbind result_bind] in H.
  apply bind_ok in H as (fl & Hfl & H). apply bind_ok in H as ([] & _ & H). apply bind_ok in H as ([] & _ & H). injection H as <- <-.
  cbn [withRemaining gasRemaining state RegularGas]. unfold is_u64 in *. rewrite u64_small by (unfold is_u64; lia).
  assert (Hf : 0 <= fl ∧ (R_IsPrague rules = true → fl <= GasLimit msg ∧ FloorDataGas rules (Data msg) (AccessList msg) = Ok fl)).
  { destruct (R_IsPrague rules); [|by injection Hfl as <-]. apply bind_ok in Hfl as (f & Hf & Hfl). apply bind_ok in Hfl as ([] & Hg & Hfl).
    apply fail_if_ok in Hg. bool_to_prop. injection Hfl as <-. pose proof (floor_u64 _ _ _ _ Hf) as [? _]. done. }
  destruct Hf as [Hf0 Hf1]. split_and!; try done; try lia. by exists cost.
Qed.

Lemma ReturnGas_ok p r u :
  0 <= r → 0 <= p.(remaining) → p.(remaining) + r < two64 →
  ReturnGas p r u = Ok {| remaining := p.(remaining) + r; initial := p.(initial); cumulativeUsed := p.(cumulativeUsed) +₆₄ u |}.
Proof.
  intros Hr Hp Hs. unfold ReturnGas, maxU64. rewrite (proj2 (Z.ltb_ge _ _)) by lia. rewrite (u64_small (_ + r)); [done|]. unfold is_u64. lia.
Qed.

Lemma preCheck_buy ctx msg (t t' : transition) : preCheck ctx msg t = Ok t' → buyGas ctx msg t = Ok t' ∧ checkFees ctx msg = Ok () ∧ checkBlobFee ctx msg = Ok ().
Proof.
  unfold preCheck. intros H. apply bind_ok in H as ([] & _ & H). apply bind_ok in H as ([] & _ & H). apply bind_ok in H as ([] & Hf & H).
  apply bind_ok in H as ([] & _ & H). apply bind_ok in H as ([] & Hb & H). by apply bind_ok in H as ([] & _ & H).
Qed.

Definition rulesOf (ctx : blockContext) : RulesT := Rules ctx.(bc_config) ctx.(BlockNumber) ctx.(hasRandom) ctx.(Time).

(** The stages of a successful execution: gas bought, intrinsic cost charged, run,
    settled. *)
Inductive stages (ctx : blockContext) (msg : Message) (st : S) (p : GasPool) (r : ExecutionResult) (t' : transition) : Prop :=
| Stages (t1 t2 t3 t4 : transition) (floor tip : Z) :
    bought ctx msg st p t1 → checkFees ctx msg = Ok () → checkBlobFee ctx msg = Ok () →
    chargeIntrinsic msg (rulesOf ctx) t1 = Ok (t2, floor) →
    runMessage ctx msg (rulesOf ctx) t2 = (r.(ReturnData), t3, r.(er_Err)) →
    settleGas ctx (rulesOf ctx) floor t3 = (t4, r.(MaxUsedGas)) → gasUsed t4 = r.(UsedGas) →
    effectiveTip ctx msg (rulesOf ctx) = Ok tip →
    t'.(gp) = {| remaining := p.(remaining) - (if (rulesOf ctx).(R_IsAmsterdam) then r.(MaxUsedGas) else r.(UsedGas));
                 initial := p.(initial); cumulativeUsed := p.(cumulativeUsed) +₆₄ r.(UsedGas) |} →
    t'.(state) = (payCoinbase ctx msg tip (if t4.(confidentialPrepaid) then t4 else returnGas msg t4)).(state) →
    t'.(confidentialPrepaid) = t4.(confidentialPrepaid) →
    stages ctx msg st p r t'.

Lemma settled_frame {EG : EvmGas} ctx msg st p t1 t2 t3 floor rules :
  msg_ok msg → bought ctx msg st p t1 → chargeIntrinsic msg rules t1 = Ok (t2, floor) → (runMessage ctx msg rules t2).1.2 = t3 →
  same_frame t1 t3 ∧ t3.(initialBudget).(RegularGas) = msg.(GasLimit) ∧ 0 <= t3.(gasRemaining).(RegularGas) <= msg.(GasLimit)
  ∧ 0 <= floor ∧ (R_IsPrague rules = true → floor <= msg.(GasLimit)) ∧ t2.(state) = t1.(state) ∧ same_frame t1 t2
  ∧ t3.(gasRemaining).(RegularGas) <= t2.(gasRemaining).(RegularGas).
Proof.
  intros Hm (Hi & Hr & _) Hc <-. destruct (charge_spec msg rules t1 t2 floor) as (F12 & Hst & Hb2 & Hf & Hpr & _); [by rewrite Hr; apply (mo_limit _ Hm)|done|].
  destruct (run_spec ctx msg rules t2 ltac:(lia)) as [F23 Hb3]. rewrite Hr in Hb2. cbn [RegularGas NewGasBudget] in Hb2.
  destruct F12 as (A1 & A2 & A3). destruct F23 as (A4 & A5 & A6).
  split_and!; try done; try lia; [split_and!; congruence|rewrite A4, A1, Hi; done|]. intros Hp. by apply Hpr.
Qed.

(** The pool takes the unused gas back without fail. *)
Lemma execute_stages {EG : EvmGas} ctx msg st p r t' :
  msg_ok msg → pool_ok p → execute ctx msg (newStateTransition st p) = (Ok r, t') → stages ctx msg st p r t'.
Proof.
  intros Hm Hp H. unfold execute in H. fold (rulesOf ctx) in H. destruct (preCheck ctx msg _) as [t1|] eqn:E1; [|done].
  apply preCheck_buy in E1 as (E1 & Hcf & Hcb). pose proof (buyGas_ok _ _ _ _ _ Hm Hp E1) as Hb.
  destruct (chargeIntrinsic msg (rulesOf ctx) t1) as [[t2 floor]|] eqn:E2; [|done].
  destruct (runMessage ctx msg (rulesOf ctx) t2) as [[ret t3] vmerr] eqn:E3.
  destruct (settled_frame ctx msg st p t1 t2 t3 floor (rulesOf ctx) Hm Hb E2 ltac:(by rewrite E3)) as ((Fi & Fg & Fp) & HG & Hg & Hf & Hfl & _ & _ & _).
  pose proof (settle_spec ctx (rulesOf ctx) floor t3) as Hs. cbv zeta in Hs. rewrite HG in Hs.
  destruct Hs as (S1 & S2 & S3 & S4 & S5 & S6 & S7 & S8 & _); [apply (mo_limit _ Hm)|lia|done|done|].
  destruct (settleGas ctx (rulesOf ctx) floor t3) as [t4 peak] eqn:E4. cbn [fst snd] in *.
  set (t5 := if confidentialPrepaid t4 then t4 else returnGas msg t4) in *.
  assert (F5 : gasUsed t5 = gasUsed t4 ∧ t5.(gp) = t4.(gp) ∧ t5.(initialBudget) = t4.(initialBudget) ∧ t5.(gasRemaining) = t4.(gasRemaining))
    by (unfold t5; by destruct (confidentialPrepaid t4)).
  destruct F5 as (F5u & F5g & F5i & F5r). destruct Hb as (B1 & B2 & B3 & B4 & B5 & B6 & B7). destruct Hp as [Hpr Hpi]. destruct (mo_limit _ Hm) as [Hl0 Hl1].
  rewrite F5u, F5g, F5i, F5r, S1, Fi, B1 in H. cbn [RegularGas NewGasBudget] in H. rewrite (u64_small (GasLimit msg - peak)) in H by (unfold is_u64; lia). rewrite S6 in H.
  set (back := if R_IsAmsterdam (rulesOf ctx) then GasLimit msg - peak else GasLimit msg - gasUsed t4) in H.
  assert (Hback : 0 <= back <= GasLimit msg) by (unfold back; destruct (R_IsAmsterdam _); lia).
  rewrite ReturnGas_ok in H by (rewrite ?S2, ?Fg, ?B4; unfold is_u64 in *; lia).
  destruct (effectiveTip ctx msg (rulesOf ctx)) as [tip|] eqn:E5; [|done]. injection H as <- <-.
  assert (Hpay : ∀ pool, gasUsed (payCoinbase ctx msg tip (withPool t5 pool)) = gasUsed t4 ∧ (payCoinbase ctx msg tip (withPool t5 pool)).(gp) = pool
      ∧ (payCoinbase ctx msg tip (withPool t5 pool)).(state) = (payCoinbase ctx msg tip t5).(state)
      ∧ (payCoinbase ctx msg tip (withPool t5 pool)).(confidentialPrepaid) = t5.(confidentialPrepaid)).
  { intros pool. unfold payCoinbase. cbn [withPool confidentialPrepaid]. repeat case_if; rewrite <- F5u; done. }
  destruct (Hpay {| remaining := remaining (gp t4) + back; initial := initial (gp t4); cumulativeUsed := cumulativeUsed (gp t4) +₆₄ gasUsed t4 |})
    as (P1 & P2 & P3 & P4).
  apply (Stages _ _ _ _ _ _ t1 t2 t3 t4 floor tip); try done; cbn [ReturnData er_Err MaxUsedGas UsedGas].
  - rewrite P2, P1, S2, Fg, B4, B5, B6. f_equal. unfold back. destruct (R_IsAmsterdam _); lia.
  - rewrite P4. unfold t5. destruct (confidentialPrepaid t4) eqn:Hcp; by rewrite ?Hcp.
Qed.

(** C33: Gas is accounted for.  When a message is applied, the peak use of gas, before
    refunds, is at least the intrinsic cost and at most the gas limit, which the
    block's pool held.  The gas charged is the peak less a refund of at most a fifth
    (before London half) of it, so it may be below the intrinsic cost, but from
    Prague on it is at least the floor of the data.  The block's pool loses exactly the
    gas charged (from Amsterdam on the peak), never underflows and counts the use. *)
Theorem gas_accounted {EG : EvmGas} ctx msg st p r t' :
  msg_ok msg → pool_ok p → execute ctx msg (newStateTransition st p) = (Ok r, t') →
  0 <= r.(UsedGas) <= r.(MaxUsedGas) ∧ r.(MaxUsedGas) <= msg.(GasLimit) <= p.(remaining)
  ∧ r.(MaxUsedGas) - r.(UsedGas) <= r.(MaxUsedGas) / quotient ctx
  ∧ (∃ cost, IntrinsicGasWithShield3 msg.(Data) msg.(AccessList) msg.(SetCodeAuthorizations) (bool_decide (msg.(To) = None))
       (rulesOf ctx).(R_IsHomestead) (rulesOf ctx).(R_IsIstanbul) (rulesOf ctx).(R_IsShanghai) (rulesOf ctx).(R_IsAmsterdam)
       (rulesOf ctx).(R_IsAntartical) = Ok cost ∧ cost <= r.(MaxUsedGas))
  ∧ ((rulesOf ctx).(R_IsPrague) = true →
     ∃ floor, FloorDataGas (rulesOf ctx) msg.(Data) msg.(AccessList) = Ok floor ∧ floor <= r.(UsedGas))
  ∧ t'.(gp) = {| remaining := p.(remaining) - (if (rulesOf ctx).(R_IsAmsterdam) then r.(MaxUsedGas) else r.(UsedGas));
                 initial := p.(initial); cumulativeUsed := p.(cumulativeUsed) +₆₄ r.(UsedGas) |}
  ∧ pool_ok t'.(gp) ∧ Used t'.(gp) = Some (p.(initial) - p.(remaining) + (if (rulesOf ctx).(R_IsAmsterdam) then r.(MaxUsedGas) else r.(UsedGas))).
Proof.
  intros Hm Hp H. destruct (execute_stages _ _ _ _ _ _ Hm Hp H) as [t1 t2 t3 t4 floor tip Hb _ _ Hc Hr Hs Hu _ Hpool _ _].
  destruct (settled_frame ctx msg st p t1 t2 t3 floor (rulesOf ctx) Hm Hb Hc ltac:(by rewrite Hr)) as ((Fi & Fg & Fp) & HG & Hg & Hf & Hfl & _ & _ & Hg3).
  pose proof (settle_spec ctx (rulesOf ctx) floor t3) as Hss. cbv zeta in Hss. rewrite HG, Hs in Hss. cbn [fst snd] in Hss. rewrite Hu in Hss.
  destruct Hss as (_ & _ & _ & _ & _ & _ & S7 & S8 & S9 & S10 & S11 & _); [apply (mo_limit _ Hm)|lia|done|done|].
  destruct Hb as (B1 & B2 & B3 & _). destruct (mo_limit _ Hm) as [Hl0 Hl1].
  destruct (charge_spec msg (rulesOf ctx) t1 t2 floor) as (_ & _ & _ & _ & Hfe & cost & Hcost & Hcg); [by rewrite B2; apply (mo_limit _ Hm)|done|].
  rewrite B2 in Hcg. cbn [RegularGas NewGasBudget] in Hcg. destruct Hp as [Hpr Hpi].
  set (taken := if R_IsAmsterdam (rulesOf ctx) then MaxUsedGas r else UsedGas r) in *.
  assert (Ht : 0 <= taken <= GasLimit msg) by (unfold taken; destruct (R_IsAmsterdam _); lia). rewrite Hpool.
  split_and!; try done; try lia.
  - exists cost. split; [done|lia].
  - intros Hpg. exists floor. split; [by apply Hfe|by apply S11].
  - unfold pool_ok. cbn. split; [lia|done].
  - unfold Used. cbn. rewrite (proj2 (Z.ltb_ge _ _)) by lia. rewrite u64_small by (unfold is_u64 in *; lia). f_equal. lia.
Qed.

(** ** Fees *)

(** The coins of a list of accounts. *)
Definition coins (L : list address) (st : S) : Z := zsum (GetBalance st) L.

Lemma zsum_at (f g : Z → Z) (L : list Z) a d :
  NoDup L → a ∈ L → (∀ b, g b = f b + if decide (a = b) then d else 0) → zsum g L = zsum f L + d.
Proof.
  intros Hn Ha Hg. revert Ha. induction Hn as [|x L Hx Hn IH]; intros Ha; [by apply elem_of_nil in Ha|]. rewrite !zsum_cons, Hg.
  apply elem_of_cons in Ha as [->|Ha].
  - rewrite decide_True by done. assert (He : zsum g L = zsum f L); [|lia]. clear -Hx Hg. induction L as [|y L IH]; [done|].
    rewrite !zsum_cons, Hg, decide_False by set_solver. rewrite IH by set_solver. lia.
  - rewrite decide_False by (by intros ->). rewrite IH by done. lia.
Qed.

Lemma balance_le_coins L st a : a ∈ L → GetBalance st a <= coins L st.
Proof.
  unfold coins. induction L as [|x L IH]; intros Ha; [by apply elem_of_nil in Ha|]. rewrite zsum_cons.
  pose proof (balance_range st x). pose proof (zsum_nonneg (GetBalance st) L (λ y _, proj1 (balance_range st y))).
  apply elem_of_cons in Ha as [->|Ha]; [lia|]. specialize (IH Ha). lia.
Qed.

(** A credit to an account of the list arrives in full. *)
Lemma credit_exact L st a v b :
  a ∈ L → 0 <= v → coins L st + v < two256 → GetBalance (AddBalance st a v) b = GetBalance st b + if decide (a = b) then v else 0.
Proof.
  intros Ha Hv Hs. pose proof (balance_range st a). pose proof (balance_le_coins L st a Ha).
  pose proof (zsum_nonneg (GetBalance st) L (λ y _, proj1 (balance_range st y))) as Hz. fold (coins L st) in Hz.
  rewrite GetBalance_Add, u256_add_spec by lia. case_decide; [subst|lia]. rewrite Z.mod_small; lia.
Qed.

Lemma coins_add L st a v :
  NoDup L → a ∈ L → 0 <= v → coins L st + v < two256 → coins L (AddBalance st a v) = coins L st + v.
Proof. intros Hn Ha Hv Hs. apply (zsum_at _ _ L a v Hn Ha). intros b. by apply (credit_exact L). Qed.

Lemma debit_exact st a v b : 0 <= v <= GetBalance st a → GetBalance (SubBalance st a v) b = GetBalance st b - if decide (a = b) then v else 0.
Proof.
  intros Hv. pose proof (balance_range st a). rewrite GetBalance_Sub, u256_sub_spec by lia. case_decide; [subst|lia]. rewrite Z.mod_small; lia.
Qed.

Lemma coins_sub L st a v : NoDup L → a ∈ L → 0 <= v <= GetBalance st a → coins L (SubBalance st a v) = coins L st - v.
Proof.
  intros Hn Ha Hv. replace (coins L st - v) with (coins L st + - v) by lia. apply (zsum_at _ _ L a (- v) Hn Ha). intros b.
  rewrite debit_exact by done. case_decide; lia.
Qed.

(** What the base fee takes out of circulation. *)
Definition burned (ctx : blockContext) (msg : Message) (r : ExecutionResult) : Z :=
  (if (rulesOf ctx).(R_IsLondon) then r.(UsedGas) * default 0 ctx.(BaseFee) else 0) + blobFee ctx msg.

(** The EVM creates no coins. *)
Class EvmCoins (L : list address) := {
  call_coins ctx st a b d g v : coins L (evm_Call ctx st a b d g v).1.2 <= coins L st;
  create_coins ctx st a d g v : coins L (evm_Create ctx st a d g v).1.2 <= coins L st;
}.

Lemma coins_same L st st' : (∀ b, GetBalance st' b = GetBalance st b) → coins L st' = coins L st.
Proof. intros H. unfold coins. induction L as [|x L IH]; [done|]. by rewrite !zsum_cons, IH, H. Qed.

Lemma authorization_balance ctx auth st b : GetBalance (applyAuthorization ctx auth st) b = GetBalance st b.
Proof.
  unfold applyAuthorization, validateAuthorization. repeat case_match; simplify_eq; by autorewrite with state.
Qed.

Lemma run_coins {L} {EC : EvmCoins L} ctx msg rules (t : transition) :
  coins L (runMessage ctx msg rules t).1.2.(state) <= coins L t.(state).
Proof.
  unfold runMessage. destruct (To msg) as [to|].
  - set (st := match ParseDelegation _ with Some _ => _ | None => _ end).
    assert (Hst : coins L st = coins L t.(state)).
    { apply coins_same. intros b. assert (Ha : ∀ l s, GetBalance (foldl (λ st auth, applyAuthorization ctx auth st) s l) b = GetBalance s b).
      { induction l as [|x l IH]; intros s; [done|]. cbn. rewrite IH. apply authorization_balance. }
      unfold st. destruct (ParseDelegation _); autorewrite with state; rewrite Ha; by autorewrite with state. }
    pose proof (call_coins (L := L) ctx st (From msg) to (Data msg) (gasRemaining t) (Value msg)) as H.
    destruct (evm_Call _ _ _ _ _ _ _) as [[[ret g] st'] err]. cbn in *. lia.
  - set (st := Prepare _ _ _ _ _ _).
    assert (Hst : coins L st = coins L t.(state)) by (apply coins_same; intros b; unfold st; by autorewrite with state).
    pose proof (create_coins (L := L) ctx st (From msg) (Data msg) (gasRemaining t) (Value msg)) as H.
    destruct (evm_Create _ _ _ _ _ _) as [[[ret g] st'] err]. cbn in *. lia.
Qed.

(** The blob fee a message pays is within its cap. *)
Lemma blobFee_le ctx msg :
  ctx.(NoBaseFee) = false → checkBlobFee ctx msg = Ok () →
  blobFee ctx msg <= if IsCancun ctx.(bc_config) ctx.(BlockNumber) ctx.(Time) then blobGasUsed msg * msg.(BlobGasFeeCap) else 0.
Proof.
  intros Hn Hc. pose proof (blobGas_nonneg msg) as Hg. unfold checkBlobFee, blobFee in *. rewrite Hn in Hc.
  destruct (IsCancun _ _ _); [|done]. cbn [andb] in Hc. destruct (0 <? blobGasUsed msg) eqn:Hz; bool_to_prop; [|replace (blobGasUsed msg) with 0 by lia; lia].
  destruct (BlobBaseFee ctx) as [f|]; [|done]. apply fail_if_ok in Hc. bool_to_prop. cbn. nia.
Qed.

(** Buying the gas takes its price and the blob fee from the sender. *)
Lemma bought_sub ctx msg st p t :
  msg_ok msg → bought ctx msg st p t → t.(confidentialPrepaid) = false →
  ctx.(NoBaseFee) = false → checkBlobFee ctx msg = Ok () → 0 <= default 0 ctx.(BlobBaseFee) → msg.(GasPrice) <= msg.(GasFeeCap) →
  let cost := msg.(GasLimit) * msg.(GasPrice) + blobFee ctx msg in
  t.(state) = SubBalance st msg.(From) cost ∧ 0 <= cost <= GetBalance st msg.(From) ∧ 0 <= msg.(GasLimit) * msg.(GasPrice) < two256 ∧ 0 <= blobFee ctx msg.
Proof.
  intros Hm (_ & _ & _ & _ & _ & _ & Hb) Hpre Hnb Hcb Hbb Hcap cost.
  destruct Hb as [[Hb _]|[_ (bc & mg & Hc & Hle & ->)]]; [congruence|].
  destruct (gasCost_ok _ _ _ _ Hm Hbb Hc) as (-> & Hmg & ->). pose proof (blobFee_le ctx msg Hnb Hcb) as Hbl.
  destruct (mo_limit _ Hm) as [Hl _]. destruct (mo_price _ Hm) as [Hp _]. destruct (mo_value _ Hm) as [Hv _].
  assert (Hbf : 0 <= blobFee ctx msg) by (unfold blobFee; destruct (IsCancun _ _ _); [apply Z.mul_nonneg_nonneg; [apply blobGas_nonneg|done]|done]).
  split; [done|]. split; [|split; [nia|done]]. unfold cost. split; [nia|]. assert (GasLimit msg * GasPrice msg <= GasLimit msg * GasFeeCap msg) by nia. lia.
Qed.

(** The tip of a message whose price is at least the base fee. *)
Lemma tip_spec ctx msg tip :
  0 <= default 0 ctx.(BaseFee) <= msg.(GasPrice) → msg_ok msg → effectiveTip ctx msg (rulesOf ctx) = Ok tip →
  tip = msg.(GasPrice) - (if (rulesOf ctx).(R_IsLondon) then default 0 ctx.(BaseFee) else 0) ∧ 0 <= tip <= msg.(GasPrice).
Proof.
  intros Hb Hm. pose proof (mo_price _ Hm) as Hp. unfold effectiveTip. destruct (R_IsLondon _).
  - intros H. apply bind_ok in H as (b & Hw & H). apply toWord_ok in Hw as (x & Hx & _ & ->). rewrite Hx in *. cbn [default from_option id] in *.
    injection H as <-. rewrite (Z.mod_small x), u256_sub_spec, Z.mod_small by lia. lia.
  - intros [= <-]. lia.
Qed.

(** C15: Fees go where they should.  When a public message is applied, the sender and
    nobody else pays the gas limit at the gas price and the blob fee before the run;
    after the run the sender alone gets the unused gas back at the price it was bought,
    the coinbase alone gets the tip, which is the price less the base fee from London
    on, for the gas used, and no other balance changes outside the run.  So the coins
    of every set of accounts that contains the sender and the coinbase change by what
    the run does to them, less exactly the gas used at the base fee and the blob fee,
    and nothing is created.  Assumes that the fee is not prepaid in the pool, that base
    fees are checked, a price between the base fee and the fee cap, an EVM
    that creates no coins, and a set that holds fewer than [2^256]. *)
Theorem fees_conserved {EG : EvmGas} L {EC : EvmCoins L} ctx msg st p r t' :
  msg_ok msg → pool_ok p → execute ctx msg (newStateTransition st p) = (Ok r, t') → t'.(confidentialPrepaid) = false →
  NoDup L → msg.(From) ∈ L → ctx.(Coinbase) ∈ L → coins L st < two256 →
  ctx.(NoBaseFee) = false → 0 <= default 0 ctx.(BlobBaseFee) →
  0 <= default 0 ctx.(BaseFee) <= msg.(GasPrice) → msg.(GasPrice) <= msg.(GasFeeCap) →
  ∃ t2 t3, runMessage ctx msg (rulesOf ctx) t2 = (r.(ReturnData), t3, r.(er_Err))
    ∧ (∀ a, GetBalance t2.(state) a = GetBalance st a - if decide (msg.(From) = a) then msg.(GasLimit) * msg.(GasPrice) + blobFee ctx msg else 0)
    ∧ (∀ a, GetBalance t'.(state) a = GetBalance t3.(state) a
         + (if decide (msg.(From) = a) then (msg.(GasLimit) - r.(UsedGas)) * msg.(GasPrice) else 0)
         + (if decide (ctx.(Coinbase) = a) then r.(UsedGas) * (msg.(GasPrice) - if (rulesOf ctx).(R_IsLondon) then default 0 ctx.(BaseFee) else 0) else 0))
    ∧ coins L t'.(state) = coins L st + (coins L t3.(state) - coins L t2.(state)) - burned ctx msg r
    ∧ coins L t'.(state) + burned ctx msg r <= coins L st.
Proof.
  intros Hm Hp H Hpre Hn Hfrom Hcb Htot Hnb Hbb Hbase Hcap.
  destruct (execute_stages _ _ _ _ _ _ Hm Hp H) as [t1 t2 t3 t4 floor tip Hb _ Hcbf Hc Hr Hs Hu Htip _ Hst Hpre4].
  destruct (settled_frame ctx msg st p t1 t2 t3 floor (rulesOf ctx) Hm Hb Hc ltac:(by rewrite Hr)) as ((Fi & Fg & Fp) & HG & Hg & Hf & Hfl & E12 & _ & _).
  pose proof (settle_spec ctx (rulesOf ctx) floor t3) as Hss. cbv zeta in Hss. rewrite HG, Hs in Hss. cbn [fst snd] in Hss. rewrite Hu in Hss.
  destruct Hss as (_ & _ & S3 & S4 & S5 & S6 & S7 & S8 & _); [apply (mo_limit _ Hm)|lia|done|done|].
  rewrite Hpre in Hpre4. rewrite <- Hpre4 in Hst. assert (Hpre1 : t1.(confidentialPrepaid) = false) by congruence.
  destruct (bought_sub _ _ _ _ _ Hm Hb Hpre1 Hnb Hcbf Hbb Hcap) as (E1 & Hcost & Hmg & Hbf).
  pose proof (coins_sub L st _ _ Hn Hfrom Hcost) as C1. rewrite <- E1 in C1.
  destruct (tip_spec _ _ _ Hbase Hm Htip) as [Htip' Htr]. destruct (mo_price _ Hm) as [Hp0 Hp1].
  pose proof (run_coins (L := L) ctx msg (rulesOf ctx) t2) as Hrun. rewrite Hr in Hrun. cbn [fst snd] in Hrun. rewrite E12, C1 in Hrun.
  rewrite <- Htip'. set (rem := RegularGas (gasRemaining t4)) in *. set (used := UsedGas r) in *. set (G := GasLimit msg) in *. set (P := GasPrice msg) in *.
  assert (Hrp : 0 <= rem * P <= G * P) by nia. assert (Hut : 0 <= used * tip <= used * P) by nia. assert (Hsum : rem * P + used * P = G * P) by nia.
  assert (E5 : (returnGas msg t4).(state) = AddBalance t3.(state) msg.(From) (rem * P)).
  { unfold returnGas. cbn [withState state]. fold rem P. by rewrite u256_mul_spec, Z.mod_small, S3 by lia. }
  assert (C5 : coins L (returnGas msg t4).(state) = coins L t3.(state) + rem * P) by (rewrite E5; apply coins_add; [done|done|lia|lia]).
  assert (E6 : t'.(state) = AddBalance (returnGas msg t4).(state) ctx.(Coinbase) (used * tip)).
  { rewrite Hst. unfold payCoinbase. cbn [returnGas withState confidentialPrepaid]. rewrite <- Hpre4, Hnb. cbn [andb withState state].
    change (gasUsed {| confidentialPrepaid := confidentialPrepaid t4 |}) with (gasUsed t4).
    replace (gasUsed _) with used by (rewrite <- Hu; done). rewrite u256_mul_spec, Z.mod_small by lia. done. }
  assert (C6 : coins L t'.(state) = coins L t3.(state) + rem * P + used * tip) by (rewrite E6, coins_add; [by rewrite <- C5|done|done|lia|rewrite C5; lia]).
  exists t2, t3. split; [done|]. split; [intros a; rewrite E12, E1; by apply debit_exact|]. split.
  { intros a. rewrite E6, (credit_exact L), E5, (credit_exact L); [|done|lia|lia|done|lia|rewrite C5; lia]. replace (G - used) with rem by lia. done. }
  rewrite C6. unfold burned. fold used. rewrite E12, C1.
  assert (Hub : used * tip = used * P - used * (if R_IsLondon (rulesOf ctx) then default 0 (BaseFee ctx) else 0)) by (rewrite Htip'; fold P; nia).
  destruct (R_IsLondon (rulesOf ctx)); lia.
Qed.

(** The price a transaction pays: the base fee and the tip, up to the fee cap. *)
Lemma effective_price from tx b msg :
  TransactionToMessage from tx (Some b) = Ok msg → 0 <= b → 0 <= tx.(tx_GasTipCap) → 0 <= tx.(tx_GasFeeCap) →
  msg.(GasPrice) = Z.min (b + tx.(tx_GasTipCap)) tx.(tx_GasFeeCap) ∧ msg.(GasPrice) <= msg.(GasFeeCap)
  ∧ (b <= tx.(tx_GasFeeCap) → b <= msg.(GasPrice)).
Proof.
  assert (Hfb : ∀ e x z, 0 <= x → fromBig e x = Ok z → z = x).
  { intros e x z Hx. unfold fromBig. rewrite u256_fromBig_spec. case_bool_decide; [done|]. intros [= <-]. rewrite Z.mod_small; lia. }
  unfold TransactionToMessage. destruct from; [|done]. intros H Hb Ht Hc. apply bind_ok in H as (? & _ & H).
  apply bind_ok in H as (cap & Hcap & H). apply Hfb in Hcap as ->; [|done]. do 4 apply bind_ok in H as (? & _ & H).
  apply bind_ok in H as (price & Hpr & H). injection H as <-. cbn [GasPrice GasFeeCap]. apply Hfb in Hpr; [|case_if; lia]. subst price. case_if; lia.
Qed.
End Accounting.

(** ** An instance *)

#[local] Existing Instance RefUint256.
#[local] Existing Instance FlatWorldState.
#[local] Existing Instance RefUint256Overflow.

(** Flat maps without code, with a refund of 3000. *)
#[refine] Definition DemoTxState : TxState flatState := {|
  GetCode _ _ := [];
  SetCode s _ _ := s;
  Exist _ _ := true;
  GetRefund _ := 3000;
  AddRefund s _ := s;
  AddAddressToAccessList s _ := s;
  Prepare s _ _ _ _ _ := s;
|}.
Proof. all: intros; done. Defined.
#[local] Existing Instance DemoTxState.

(** An EVM that uses half of its gas and changes nothing. *)
Definition DemoComponents : Components flatState := {|
  evm_Call _ st _ _ data g _ := (data, {| RegularGas := g.(RegularGas) / 2; StateGas := 0 |}, st, None);
  evm_Create _ st _ data g _ := (data, {| RegularGas := g.(RegularGas) / 2; StateGas := 0 |}, st, None);
  shieldedFeeMode _ := None;
  confidentialFeeTicket h := h;
  ShieldedV3GasData data := Ok (data, 0);
  HasAntarticalStampPrefix _ := false;
  stampSlot a := a;
  ValidateAntarticalStampState _ _ _ _ _ := Ok ();
  ValidatePrivateExecutionMessage _ _ _ _ _ _ _ := Ok ();
  HasPQMigrationDataPrefix _ := false;
  ValidPQMigrationDataForRecipient _ _ := false;
  Authority _ := None;
  stampBeneficiary a _ := Ok a;
|}.
#[local] Existing Instance DemoComponents.

#[local] Instance demo_gas : EvmGas.
Proof.
  split; intros; cbn; (split; [apply Z.div_pos; lia|apply Z.div_le_upper_bound; lia]).
Defined.

#[local] Instance demo_coins L : EvmCoins L.
Proof. split; intros; cbn; lia. Defined.

Definition demoContext : blockContext := {|
  bc_config := demoMainnet [3]; BlockNumber := 10; Time := 0; BaseFee := Some 7; BlobBaseFee := Some 1; Coinbase := 3; hasRandom := false; NoBaseFee := false |}.

Definition demoMessage : Message := {|
  shieldedTransactionHash := 9; antarticalStampTransactionHash := 0; antarticalStampBeneficiary := 0; To := Some 2; From := 1; Nonce := 0;
  Value := 100; GasLimit := 90000; GasPrice := 10; GasFeeCap := 12; GasTipCap := 3; Data := [0; 5]; AccessList := []; BlobGasFeeCap := 0;
  BlobHashes := None; SetCodeAuthorizations := None; TxType := 2; SkipNonceChecks := false; SkipTransactionChecks := false |}.

Definition demoState : flatState := AddBalance emptyFlat 1 5000000.
Definition demoPool : GasPool := NewGasPool 30000000.
Definition demoResult : ExecutionResult := {| UsedGas := 52510; MaxUsedGas := 55510; er_Err := None; ReturnData := [0; 5] |}.
Definition demoFinal : transition := (execute demoContext demoMessage (newStateTransition demoState demoPool)).2.

Lemma demo_execute : execute demoContext demoMessage (newStateTransition demoState demoPool) = (Ok demoResult, demoFinal).
Proof. vm_compute. reflexivity. Qed.

Lemma demo_msg_ok : msg_ok demoMessage.
Proof. split; vm_compute; split; discriminate || reflexivity. Qed.

Lemma demo_pool_ok : pool_ok demoPool.
Proof. split; vm_compute; split; discriminate || reflexivity. Qed.

(** The EVM of the instance moves no money. *)
Lemma demo_run_keeps t t' a ret err : runMessage demoContext demoMessage (rulesOf demoContext) t = (ret, t', err) → GetBalance t'.(state) a = GetBalance t.(state) a.
Proof. unfold runMessage. cbn. intros [= _ <- _]. done. Qed.

Lemma gas_accounted_witness :
  0 <= UsedGas demoResult <= MaxUsedGas demoResult ∧ Used demoFinal.(gp) = Some 52510.
Proof.
  destruct (gas_accounted demoContext demoMessage demoState demoPool demoResult demoFinal demo_msg_ok demo_pool_ok demo_execute)
    as (H1 & _ & _ & _ & _ & _ & _ & H2).
  split; [exact H1|exact H2].
Defined.

(** The coinbase, which had nothing, has the tip. *)
Lemma fees_conserved_witness :
  GetBalance demoFinal.(state) 3 = 52510 * 3 ∧ coins [1; 2; 3] demoFinal.(state) + burned demoContext demoMessage demoResult <= coins [1; 2; 3] demoState
  ∧ burned demoContext demoMessage demoResult = 367570.
Proof.
  destruct (fees_conserved [1; 2; 3] demoContext demoMessage demoState demoPool demoResult demoFinal demo_msg_ok demo_pool_ok demo_execute)
    as (t2 & t3 & Hrun & H2 & Hpay & _ & H).
  - vm_compute. reflexivity.
  - apply (bool_decide_unpack _). vm_compute. exact I.
  - apply (bool_decide_unpack _). vm_compute. exact I.
  - apply (bool_decide_unpack _). vm_compute. exact I.
  - vm_compute. reflexivity.
  - reflexivity.
  - vm_compute. discriminate.
  - vm_compute. split; discriminate.
  - vm_compute. discriminate.
  - split; [|split; [exact H|vm_compute; reflexivity]]. rewrite (Hpay 3), (demo_run_keeps t2 t3 3 _ _ Hrun), (H2 3). reflexivity.
Defined.

Lemma intrinsic_gas_exact_witness :
  IntrinsicGas [0; 5] [(7, [1; 2])] None true true true true false = Ok (u64 (intrinsicCost [0; 5] [(7, [1; 2])] true true true true false + 0)).
Proof. rewrite intrinsic_gas_exact by (vm_compute; reflexivity). vm_compute. reflexivity. Defined.
End GasAccounting.
