(* ===== verification/StateDB.v ===== *)
(** * The journaled world state

    [core/state]: the live account objects over a read-only database
    ([state_object.go], [statedb.go]), the EIP-2930 access list
    ([access_list.go]), transient storage ([transient_storage.go]) and the
    journal of reversible modifications ([journal.go]).

    An operation maps a [StateDB] to a [StateDB]; a Go panic (a nil
    dereference, a slice bound, an explicit [panic]) is [None].  A
    [*stateObject] is the entry of [stateObjects] under its address, and a write
    through the pointer updates that entry.  The database reader, Keccak-256
    and 256-bit words are parameters.  Metrics, tries, the prefetcher, the
    stateless witness and the EIP-7928 read list are not part of the model:
    nothing here reads them back. *)

From S2P Require Import Prelude Bytes State.

Module StateDB.

(** ** Data *)

Record StateAccount := mkAccount {
  Nonce : Z;
  Balance : Z;
  Root : hash;
  CodeHash : hash;
}.

Abbreviation Storage := (gmap Z Z) (only parsing).

Record stateObject := {
  obj_address : address;
  obj_origin : option StateAccount;
  data : StateAccount;
  code : bytes;
  originStorage : Storage;
  dirtyStorage : Storage;
  pendingStorage : Storage;
  uncommittedStorage : Storage;
  dirtyCode : bool;
  selfDestructed : bool;
  newContract : bool;
}.

Inductive mutationType := update | deletion.
Record mutation := { typ : mutationType; applied : bool }.

Record Log := {
  log_Address : address;
  log_Topics : list hash;
  log_Data : bytes;
  log_TxHash : hash;
  log_TxIndex : Z;
  log_Index : Z;
}.

(** [addresses] maps an account to its index in [slots], or -1. *)
Record AccessList := mkAccessList {
  addresses : gmap Z Z;
  slots : list (gset Z);
}.

Inductive journalEntry :=
| createObjectChange (account : address)
| createContractChange (account : address)
| selfDestructChange (account : address)
| balanceChange (account : address) (prev : Z)
| nonceChange (account : address) (prev : Z)
| storageChange (account : address) (key prevvalue origvalue : hash)
| codeChange (account : address) (prevCode : bytes)
| refundChange (prev : Z)
| addLogChange (txhash : hash)
| touchChange (account : address)
| accessListAddAccountChange (address : address)
| accessListAddSlotChange (address : address) (slot : hash)
| transientStorageChange (account : address) (key prevalue : hash).

Record revision := { rev_id : Z; journalIndex : nat }.

Record Journal := {
  entries : list journalEntry;
  dirties : gmap Z Z;
  validRevisions : list revision;
  nextRevisionId : Z;
}.

(** What [dbErr] remembers: which read failed. *)
Inductive dbError :=
| ErrAccount (a : address) (e : string)
| ErrStorage (e : string)
| ErrCodeNotFound (h : hash).

Record StateDB := {
  stateObjects : gmap Z stateObject;
  stateObjectsDestruct : gmap Z stateObject;
  mutations : gmap Z mutation;
  dbErr : option dbError;
  refund : Z;
  thash : hash;
  txIndex : Z;
  logs : gmap Z (list Log);
  logSize : Z;
  preimages : gmap Z bytes;
  accessList : AccessList;
  transientStorage : gmap (Z * Z) Z;
  accessReads : gset Z;
  accessWrites : gset Z;
  storageReads : gmap (Z * Z) Z;
  storageWrites : gmap (Z * Z) Z;
  journal : Journal;
}.

(** ** Field updates *)

Definition set_data (v : _) (s : stateObject) : stateObject :=
  {| obj_address := s.(obj_address); obj_origin := s.(obj_origin); data := v;
     code := s.(code); originStorage := s.(originStorage);
     dirtyStorage := s.(dirtyStorage); pendingStorage := s.(pendingStorage);
     uncommittedStorage := s.(uncommittedStorage); dirtyCode := s.(dirtyCode);
     selfDestructed := s.(selfDestructed); newContract := s.(newContract) |}.
Definition set_code (v : _) (s : stateObject) : stateObject :=
  {| obj_address := s.(obj_address); obj_origin := s.(obj_origin); data := s.(data);
     code := v; originStorage := s.(originStorage); dirtyStorage := s.(dirtyStorage);
     pendingStorage := s.(pendingStorage); uncommittedStorage := s.(uncommittedStorage);
     dirtyCode := s.(dirtyCode); selfDestructed := s.(selfDestructed);
     newContract := s.(newContract) |}.
Definition set_originStorage (v : _) (s : stateObject) : stateObject :=
  {| obj_address := s.(obj_address); obj_origin := s.(obj_origin); data := s.(data);
     code := s.(code); originStorage := v; dirtyStorage := s.(dirtyStorage);
     pendingStorage := s.(pendingStorage); uncommittedStorage := s.(uncommittedStorage);
     dirtyCode := s.(dirtyCode); selfDestructed := s.(selfDestructed);
     newContract := s.(newContract) |}.
Definition set_dirtyStorage (v : _) (s : stateObject) : stateObject :=
  {| obj_address := s.(obj_address); obj_origin := s.(obj_origin); data := s.(data);
     code := s.(code); originStorage := s.(originStorage); dirtyStorage := v;
     pendingStorage := s.(pendingStorage); uncommittedStorage := s.(uncommittedStorage);
     dirtyCode := s.(dirtyCode); selfDestructed := s.(selfDestructed);
     newContract := s.(newContract) |}.
Definition set_pendingStorage (v : _) (s : stateObject) : stateObject :=
  {| obj_address := s.(obj_address); obj_origin := s.(obj_origin); data := s.(data);
     code := s.(code); originStorage := s.(originStorage);
     dirtyStorage := s.(dirtyStorage); pendingStorage := v;
     uncommittedStorage := s.(uncommittedStorage); dirtyCode := s.(dirtyCode);
     selfDestructed := s.(selfDestructed); newContract := s.(newContract) |}.
Definition set_uncommittedStorage (v : _) (s : stateObject) : stateObject :=
  {| obj_address := s.(obj_address); obj_origin := s.(obj_origin); data := s.(data);
     code := s.(code); originStorage := s.(originStorage);
     dirtyStorage := s.(dirtyStorage); pendingStorage := s.(pendingStorage);
     uncommittedStorage := v; dirtyCode := s.(dirtyCode);
     selfDestructed := s.(selfDestructed); newContract := s.(newContract) |}.
Definition set_dirtyCode (v : _) (s : stateObject) : stateObject :=
  {| obj_address := s.(obj_address); obj_origin := s.(obj_origin); data := s.(data);
     code := s.(code); originStorage := s.(originStorage);
     dirtyStorage := s.(dirtyStorage); pendingStorage := s.(pendingStorage);
     uncommittedStorage := s.(uncommittedStorage); dirtyCode := v;
     selfDestructed := s.(selfDestructed); newContract := s.(newContract) |}.
Definition set_selfDestructed (v : _) (s : stateObject) : stateObject :=
  {| obj_address := s.(obj_address); obj_origin := s.(obj_origin); data := s.(data);
     code := s.(code); originStorage := s.(originStorage);
     dirtyStorage := s.(dirtyStorage); pendingStorage := s.(pendingStorage);
     uncommittedStorage := s.(uncommittedStorage); dirtyCode := s.(dirtyCode);
     selfDestructed := v; newContract := s.(newContract) |}.
Definition set_newContract (v : _) (s : stateObject) : stateObject :=
  {| obj_address := s.(obj_address); obj_origin := s.(obj_origin); data := s.(data);
     code := s.(code); originStorage := s.(originStorage);
     dirtyStorage := s.(dirtyStorage); pendingStorage := s.(pendingStorage);
     uncommittedStorage := s.(uncommittedStorage); dirtyCode := s.(dirtyCode);
     selfDestructed := s.(selfDestructed); newContract := v |}.

Definition set_stateObjects (v : _) (s : StateDB) : StateDB :=
  {| stateObjects := v; stateObjectsDestruct := s.(stateObjectsDestruct);
     mutations := s.(mutations); dbErr := s.(dbErr); refund := s.(refund);
     thash := s.(thash); txIndex := s.(txIndex); logs := s.(logs); logSize := s.(logSize);
     preimages := s.(preimages); accessList := s.(accessList);
     transientStorage := s.(transientStorage); accessReads := s.(accessReads);
     accessWrites := s.(accessWrites); storageReads := s.(storageReads);
     storageWrites := s.(storageWrites); journal := s.(journal) |}.
Definition set_stateObjectsDestruct (v : _) (s : StateDB) : StateDB :=
  {| stateObjects := s.(stateObjects); stateObjectsDestruct := v;
     mutations := s.(mutations); dbErr := s.(dbErr); refund := s.(refund);
     thash := s.(thash); txIndex := s.(txIndex); logs := s.(logs); logSize := s.(logSize);
     preimages := s.(preimages); accessList := s.(accessList);
     transientStorage := s.(transientStorage); accessReads := s.(accessReads);
     accessWrites := s.(accessWrites); storageReads := s.(storageReads);
     storageWrites := s.(storageWrites); journal := s.(journal) |}.
Definition set_mutations (v : _) (s : StateDB) : StateDB :=
  {| stateObjects := s.(stateObjects); stateObjectsDestruct := s.(stateObjectsDestruct);
     mutations := v; dbErr := s.(dbErr); refund := s.(refund); thash := s.(thash);
     txIndex := s.(txIndex); logs := s.(logs); logSize := s.(logSize);
     preimages := s.(preimages); accessList := s.(accessList);
     transientStorage := s.(transientStorage); accessReads := s.(accessReads);
     accessWrites := s.(accessWrites); storageReads := s.(storageReads);
     storageWrites := s.(storageWrites); journal := s.(journal) |}.
Definition set_dbErr (v : _) (s : StateDB) : StateDB :=
  {| stateObjects := s.(stateObjects); stateObjectsDestruct := s.(stateObjectsDestruct);
     mutations := s.(mutations); dbErr := v; refund := s.(refund); thash := s.(thash);
     txIndex := s.(txIndex); logs := s.(logs); logSize := s.(logSize);
     preimages := s.(preimages); accessList := s.(accessList);
     transientStorage := s.(transientStorage); accessReads := s.(accessReads);
     accessWrites := s.(accessWrites); storageReads := s.(storageReads);
     storageWrites := s.(storageWrites); journal := s.(journal) |}.
Definition set_refund (v : _) (s : StateDB) : StateDB :=
  {| stateObjects := s.(stateObjects); stateObjectsDestruct := s.(stateObjectsDestruct);
     mutations := s.(mutations); dbErr := s.(dbErr); refund := v; thash := s.(thash);
     txIndex := s.(txIndex); logs := s.(logs); logSize := s.(logSize);
     preimages := s.(preimages); accessList := s.(accessList);
     transientStorage := s.(transientStorage); accessReads := s.(accessReads);
     accessWrites := s.(accessWrites); storageReads := s.(storageReads);
     storageWrites := s.(storageWrites); journal := s.(journal) |}.
Definition set_thash (v : _) (s : StateDB) : StateDB :=
  {| stateObjects := s.(stateObjects); stateObjectsDestruct := s.(stateObjectsDestruct);
     mutations := s.(mutations); dbErr := s.(dbErr); refund := s.(refund); thash := v;
     txIndex := s.(txIndex); logs := s.(logs); logSize := s.(logSize);
     preimages := s.(preimages); accessList := s.(accessList);
     transientStorage := s.(transientStorage); accessReads := s.(accessReads);
     accessWrites := s.(accessWrites); storageReads := s.(storageReads);
     storageWrites := s.(storageWrites); journal := s.(journal) |}.
Definition set_txIndex (v : _) (s : StateDB) : StateDB :=
  {| stateObjects := s.(stateObjects); stateObjectsDestruct := s.(stateObjectsDestruct);
     mutations := s.(mutations); dbErr := s.(dbErr); refund := s.(refund);
     thash := s.(thash); txIndex := v; logs := s.(logs); logSize := s.(logSize);
     preimages := s.(preimages); accessList := s.(accessList);
     transientStorage := s.(transientStorage); accessReads := s.(accessReads);
     accessWrites := s.(accessWrites); storageReads := s.(storageReads);
     storageWrites := s.(storageWrites); journal := s.(journal) |}.
Definition set_logs (v : _) (s : StateDB) : StateDB :=
  {| stateObjects := s.(stateObjects); stateObjectsDestruct := s.(stateObjectsDestruct);
     mutations := s.(mutations); dbErr := s.(dbErr); refund := s.(refund);
     thash := s.(thash); txIndex := s.(txIndex); logs := v; logSize := s.(logSize);
     preimages := s.(preimages); accessList := s.(accessList);
     transientStorage := s.(transientStorage); accessReads := s.(accessReads);
     accessWrites := s.(accessWrites); storageReads := s.(storageReads);
     storageWrites := s.(storageWrites); journal := s.(journal) |}.
Definition set_logSize (v : _) (s : StateDB) : StateDB :=
  {| stateObjects := s.(stateObjects); stateObjectsDestruct := s.(stateObjectsDestruct);
     mutations := s.(mutations); dbErr := s.(dbErr); refund := s.(refund);
     thash := s.(thash); txIndex := s.(txIndex); logs := s.(logs); logSize := v;
     preimages := s.(preimages); accessList := s.(accessList);
     transientStorage := s.(transientStorage); accessReads := s.(accessReads);
     accessWrites := s.(accessWrites); storageReads := s.(storageReads);
     storageWrites := s.(storageWrites); journal := s.(journal) |}.
Definition set_preimages (v : _) (s : StateDB) : StateDB :=
  {| stateObjects := s.(stateObjects); stateObjectsDestruct := s.(stateObjectsDestruct);
     mutations := s.(mutations); dbErr := s.(dbErr); refund := s.(refund);
     thash := s.(thash); txIndex := s.(txIndex); logs := s.(logs); logSize := s.(logSize);
     preimages := v; accessList := s.(accessList);
     transientStorage := s.(transientStorage); accessReads := s.(accessReads);
     accessWrites := s.(accessWrites); storageReads := s.(storageReads);
     storageWrites := s.(storageWrites); journal := s.(journal) |}.
Definition set_accessList (v : _) (s : StateDB) : StateDB :=
  {| stateObjects := s.(stateObjects); stateObjectsDestruct := s.(stateObjectsDestruct);
     mutations := s.(mutations); dbErr := s.(dbErr); refund := s.(refund);
     thash := s.(thash); txIndex := s.(txIndex); logs := s.(logs); logSize := s.(logSize);
     preimages := s.(preimages); accessList := v; transientStorage := s.(transientStorage);
     accessReads := s.(accessReads); accessWrites := s.(accessWrites);
     storageReads := s.(storageReads); storageWrites := s.(storageWrites);
     journal := s.(journal) |}.
Definition set_transientStorage (v : _) (s : StateDB) : StateDB :=
  {| stateObjects := s.(stateObjects); stateObjectsDestruct := s.(stateObjectsDestruct);
     mutations := s.(mutations); dbErr := s.(dbErr); refund := s.(refund);
     thash := s.(thash); txIndex := s.(txIndex); logs := s.(logs); logSize := s.(logSize);
     preimages := s.(preimages); accessList := s.(accessList); transientStorage := v;
     accessReads := s.(accessReads); accessWrites := s.(accessWrites);
     storageReads := s.(storageReads); storageWrites := s.(storageWrites);
     journal := s.(journal) |}.
Definition set_accessReads (v : _) (s : StateDB) : StateDB :=
  {| stateObjects := s.(stateObjects); stateObjectsDestruct := s.(stateObjectsDestruct);
     mutations := s.(mutations); dbErr := s.(dbErr); refund := s.(refund);
     thash := s.(thash); txIndex := s.(txIndex); logs := s.(logs); logSize := s.(logSize);
     preimages := s.(preimages); accessList := s.(accessList);
     transientStorage := s.(transientStorage); accessReads := v;
     accessWrites := s.(accessWrites); storageReads := s.(storageReads);
     storageWrites := s.(storageWrites); journal := s.(journal) |}.
Definition set_accessWrites (v : _) (s : StateDB) : StateDB :=
  {| stateObjects := s.(stateObjects); stateObjectsDestruct := s.(stateObjectsDestruct);
     mutations := s.(mutations); dbErr := s.(dbErr); refund := s.(refund);
     thash := s.(thash); txIndex := s.(txIndex); logs := s.(logs); logSize := s.(logSize);
     preimages := s.(preimages); accessList := s.(accessList);
     transientStorage := s.(transientStorage); accessReads := s.(accessReads);
     accessWrites := v; storageReads := s.(storageReads);
     storageWrites := s.(storageWrites); journal := s.(journal) |}.
Definition set_storageReads (v : _) (s : StateDB) : StateDB :=
  {| stateObjects := s.(stateObjects); stateObjectsDestruct := s.(stateObjectsDestruct);
     mutations := s.(mutations); dbErr := s.(dbErr); refund := s.(refund);
     thash := s.(thash); txIndex := s.(txIndex); logs := s.(logs); logSize := s.(logSize);
     preimages := s.(preimages); accessList := s.(accessList);
     transientStorage := s.(transientStorage); accessReads := s.(accessReads);
     accessWrites := s.(accessWrites); storageReads := v;
     storageWrites := s.(storageWrites); journal := s.(journal) |}.
Definition set_storageWrites (v : _) (s : StateDB) : StateDB :=
  {| stateObjects := s.(stateObjects); stateObjectsDestruct := s.(stateObjectsDestruct);
     mutations := s.(mutations); dbErr := s.(dbErr); refund := s.(refund);
     thash := s.(thash); txIndex := s.(txIndex); logs := s.(logs); logSize := s.(logSize);
     preimages := s.(preimages); accessList := s.(accessList);
     transientStorage := s.(transientStorage); accessReads := s.(accessReads);
     accessWrites := s.(accessWrites); storageReads := s.(storageReads);
     storageWrites := v; journal := s.(journal) |}.
Definition set_journal (v : _) (s : StateDB) : StateDB :=
  {| stateObjects := s.(stateObjects); stateObjectsDestruct := s.(stateObjectsDestruct);
     mutations := s.(mutations); dbErr := s.(dbErr); refund := s.(refund);
     thash := s.(thash); txIndex := s.(txIndex); logs := s.(logs); logSize := s.(logSize);
     preimages := s.(preimages); accessList := s.(accessList);
     transientStorage := s.(transientStorage); accessReads := s.(accessReads);
     accessWrites := s.(accessWrites); storageReads := s.(storageReads);
     storageWrites := s.(storageWrites); journal := v |}.

(** A write through the pointer to the live object of an address. *)
Definition modObj (a : address) (f : stateObject → stateObject) (s : StateDB) : StateDB :=
  set_stateObjects (alter f a s.(stateObjects)) s.

(** ** Access lists *)

Definition newAccessList : AccessList := {| addresses := ∅; slots := [] |}.

Definition ContainsAddress (al : AccessList) (a : address) : bool :=
  bool_decide (is_Some (al.(addresses) !! a)).

(** [al.slots[idx]]: a panic out of range. *)
Definition slotsAt (al : AccessList) (idx : Z) : option (gset Z) :=
  if idx <? 0 then None else al.(slots) !! Z.to_nat idx.

Definition Contains (al : AccessList) (a : address) (slot : hash) : option (bool * bool) :=
  match al.(addresses) !! a with
  | None => Some (false, false)
  | Some idx =>
      if idx =? -1 then Some (true, false)
      else set ← slotsAt al idx; Some (true, bool_decide (slot ∈ set))
  end.

Definition AddAddress (al : AccessList) (a : address) : bool * AccessList :=
  match al.(addresses) !! a with
  | Some _ => (false, al)
  | None => (true, mkAccessList (<[a := -1]> al.(addresses)) al.(slots))
  end.

(** The flags say which journal entries are due. *)
Definition AddSlot (al : AccessList) (a : address) (slot : hash)
  : option (bool * bool * AccessList) :=
  let fresh absent :=
    Some (absent, true,
      mkAccessList (<[a := Z.of_nat (length al.(slots))]> al.(addresses)) (al.(slots) ++ [{[slot]}])) in
  match al.(addresses) !! a with
  | None => fresh true
  | Some idx =>
      if idx =? -1 then fresh false
      else
        slotmap ← slotsAt al idx;
        if bool_decide (slot ∈ slotmap) then Some (false, false, al)
        else Some (false, true,
               mkAccessList al.(addresses) (<[Z.to_nat idx := {[slot]} ∪ slotmap]> al.(slots)))
  end.

Definition DeleteSlot (al : AccessList) (a : address) (slot : hash) : option AccessList :=
  idx ← al.(addresses) !! a;
  slotmap ← slotsAt al idx;
  let slotmap' := slotmap ∖ {[slot]} in
  if bool_decide (slotmap' = ∅)
  then Some (mkAccessList (<[a := -1]> al.(addresses)) (take (Z.to_nat idx) al.(slots)))
  else Some (mkAccessList al.(addresses) (<[Z.to_nat idx := slotmap']> al.(slots))).

Definition DeleteAddress (al : AccessList) (a : address) : AccessList :=
  mkAccessList (delete a al.(addresses)) al.(slots).

(** ** Transient storage *)

Definition transient_Set (t : gmap (Z * Z) Z) (a : address) (key value : hash) : gmap (Z * Z) Z :=
  if value =? zeroHash then delete (a, key) t else <[(a, key) := value]> t.

Definition transient_Get (t : gmap (Z * Z) Z) (a : address) (key : hash) : hash :=
  default zeroHash (t !! (a, key)).

(** ** The journal *)

Definition newJournal : Journal :=
  {| entries := []; dirties := ∅; validRevisions := []; nextRevisionId := 0 |}.

(** [entry.dirtied()] *)
Definition dirtied (e : journalEntry) : option address :=
  match e with
  | createObjectChange a | selfDestructChange a | balanceChange a _ | nonceChange a _
  | storageChange a _ _ _ | codeChange a _ | touchChange a => Some a
  | createContractChange _ | refundChange _ | addLogChange _ | accessListAddAccountChange _
  | accessListAddSlotChange _ _ | transientStorageChange _ _ _ => None
  end.

Definition dirty_inc (a : address) (d : gmap Z Z) : gmap Z Z := <[a := default 0 (d !! a) + 1]> d.

(** [j.dirties[addr]--], dropping the count when it reaches zero *)
Definition dirty_dec (a : address) (d : gmap Z Z) : gmap Z Z :=
  if default 0 (d !! a) - 1 =? 0 then delete a d else <[a := default 0 (d !! a) - 1]> d.

Definition set_dirties (d : gmap Z Z) (j : Journal) : Journal :=
  {| entries := j.(entries); dirties := d; validRevisions := j.(validRevisions);
     nextRevisionId := j.(nextRevisionId) |}.

Definition journal_append (e : journalEntry) (j : Journal) : Journal :=
  {| entries := j.(entries) ++ [e];
     dirties := match dirtied e with Some a => dirty_inc a j.(dirties) | None => j.(dirties) end;
     validRevisions := j.(validRevisions); nextRevisionId := j.(nextRevisionId) |}.

Definition journal_dirty (a : address) (j : Journal) : Journal :=
  set_dirties (dirty_inc a j.(dirties)) j.

Definition journal_snapshot (j : Journal) : Z * Journal :=
  (j.(nextRevisionId),
   {| entries := j.(entries); dirties := j.(dirties);
      validRevisions := j.(validRevisions)
        ++ [{| rev_id := j.(nextRevisionId); journalIndex := length j.(entries) |}];
      nextRevisionId := j.(nextRevisionId) + 1 |}).

Definition ripemd : address := 3.

(** The entry is appended by the operation on the state that owns the journal. *)
Definition appendEntry (e : journalEntry) (s : StateDB) : StateDB :=
  set_journal (journal_append e s.(journal)) s.

(** [touchChange] also marks the RIPEMD precompile dirty for good. *)
Definition journal_touchChange (a : address) (s : StateDB) : StateDB :=
  let s := appendEntry (touchChange a) s in
  if a =? ripemd then set_journal (journal_dirty a s.(journal)) s else s.

(** [sort.Search]: bisection for the least index at which [f] holds. *)
Fixpoint search_loop (fuel : nat) (f : nat → bool) (i j : nat) : nat :=
  match fuel with
  | O => i
  | S fuel =>
      if (i <? j)%nat then
        let h := Nat.div2 (i + j) in
        if f h then search_loop fuel f i h else search_loop fuel f (S h) j
      else i
  end.

Definition sortSearch (n : nat) (f : nat → bool) : nat := search_loop (S n) f 0 n.

(** ** Reading the database *)

(** The [Reader] interface of [core/state/reader.go] at a fixed state root. *)
Record Reader := {
  rAccount : address → result string (option StateAccount);
  rStorage : address → hash → result string hash;
  rCode : address → hash → bytes;
  rCodeSize : address → hash → Z;
}.

Section Operations.
Context {U : Uint256}.
(** [crypto.Keccak256Hash] and the reader bound to the pre-state root *)
Context (Keccak256Hash : bytes → hash) (reader : Reader).

Definition EmptyCodeHash : hash := Keccak256Hash [].
Definition EmptyRootHash : hash :=
  0x56e81f171bcc55a6ff8345e692c0f86e5b48e01b996cadc001622fb5e363b421.

Definition NewEmptyStateAccount : StateAccount :=
  {| Nonce := 0; Balance := 0; Root := EmptyRootHash; CodeHash := EmptyCodeHash |}.

(** *** Recording what an execution touched *)

Definition setError (e : dbError) (s : StateDB) : StateDB :=
  match s.(dbErr) with None => set_dbErr (Some e) s | Some _ => s end.

Definition recordRead (a : address) (s : StateDB) : StateDB :=
  set_accessReads ({[a]} ∪ s.(accessReads)) s.

Definition recordWrite (a : address) (s : StateDB) : StateDB :=
  set_accessWrites ({[a]} ∪ s.(accessWrites)) s.

(** The first observed value is kept. *)
Definition recordStorageRead (a : address) (key value : hash) (s : StateDB) : StateDB :=
  match s.(storageReads) !! (a, key) with
  | Some _ => s
  | None => set_storageReads (<[(a, key) := value]> s.(storageReads)) s
  end.

Definition recordStorageWrite (a : address) (key value : hash) (s : StateDB) : StateDB :=
  set_storageWrites (<[(a, key) := value]> s.(storageWrites)) s.

Definition ResetAccessSummary (s : StateDB) : StateDB :=
  set_accessReads ∅ (set_accessWrites ∅ (set_storageReads ∅ (set_storageWrites ∅ s))).

(** *** State objects *)

Definition newObject (a : address) (acct : option StateAccount) : stateObject :=
  {| obj_address := a; obj_origin := acct; data := default NewEmptyStateAccount acct; code := [];
     originStorage := ∅; dirtyStorage := ∅; pendingStorage := ∅; uncommittedStorage := ∅;
     dirtyCode := false; selfDestructed := false; newContract := false |}.

Definition empty (o : stateObject) : bool :=
  (o.(data).(Nonce) =? 0) && (o.(data).(Balance) =? 0) && (o.(data).(CodeHash) =? EmptyCodeHash).

Definition setBalance (amount : Z) (o : stateObject) : stateObject :=
  set_data (mkAccount o.(data).(Nonce) amount o.(data).(Root) o.(data).(CodeHash)) o.

Definition setNonce (nonce : Z) (o : stateObject) : stateObject :=
  set_data (mkAccount nonce o.(data).(Balance) o.(data).(Root) o.(data).(CodeHash)) o.

Definition setCode (codeHash : hash) (c : bytes) (o : stateObject) : stateObject :=
  set_dirtyCode true
    (set_data (mkAccount o.(data).(Nonce) o.(data).(Balance) o.(data).(Root) codeHash)
      (set_code c o)).

Definition setState (key value origin : hash) (o : stateObject) : stateObject :=
  if value =? origin then set_dirtyStorage (delete key o.(dirtyStorage)) o
  else set_dirtyStorage (<[key := value]> o.(dirtyStorage)) o.

Definition markSelfdestructed (o : stateObject) : stateObject := set_selfDestructed true o.

Definition cacheOrigin (key value : hash) (o : stateObject) : stateObject :=
  set_originStorage (<[key := value]> o.(originStorage)) o.

(** [stateObject.GetCommittedState]; [o] is the current value of the object. *)
Definition obj_GetCommittedState (o : stateObject) (key : hash) (s : StateDB) : hash * StateDB :=
  let a := o.(obj_address) in
  let s := match o.(originStorage) !! key with
           | Some value => recordStorageRead a key value s
           | None => s
           end in
  match o.(pendingStorage) !! key, o.(originStorage) !! key with
  | Some value, _ => (value, s)
  | None, Some value => (value, s)
  | None, None =>
      if bool_decide (is_Some (s.(stateObjectsDestruct) !! a)) then
        (zeroHash, recordStorageRead a key zeroHash (modObj a (cacheOrigin key zeroHash) s))
      else
        match reader.(rStorage) a key with
        | Err e => (zeroHash, setError (ErrStorage e) s)
        | Ok value => (value, recordStorageRead a key value (modObj a (cacheOrigin key value) s))
        end
  end.

Definition obj_GetState (o : stateObject) (key : hash) (s : StateDB) : hash * StateDB :=
  match o.(dirtyStorage) !! key with
  | Some value => (value, s)
  | None => obj_GetCommittedState o key s
  end.

(** The current and the committed value. *)
Definition obj_getState (o : stateObject) (key : hash) (s : StateDB) : hash * hash * StateDB :=
  let '(origin, s) := obj_GetCommittedState o key s in
  match o.(dirtyStorage) !! key with
  | Some value => (value, origin, s)
  | None => (origin, origin, s)
  end.

Definition obj_SetState (o : stateObject) (key value : hash) (s : StateDB) : StateDB :=
  let '(prev, origin, s) := obj_getState o key s in
  if prev =? value then s
  else
    let a := o.(obj_address) in
    let s := recordStorageWrite a key value s in
    let s := appendEntry (storageChange a key prev origin) s in
    modObj a (setState key value origin) s.

Definition obj_SetBalance (o : stateObject) (amount : Z) (s : StateDB) : StateDB :=
  let a := o.(obj_address) in
  modObj a (setBalance amount) (appendEntry (balanceChange a o.(data).(Balance)) s).

Definition obj_AddBalance (o : stateObject) (amount : Z) (s : StateDB) : StateDB :=
  if amount =? 0 then
    if empty o then journal_touchChange o.(obj_address) s else s
  else obj_SetBalance o (u256_add o.(data).(Balance) amount) s.

Definition obj_SetNonce (o : stateObject) (nonce : Z) (s : StateDB) : StateDB :=
  let a := o.(obj_address) in
  modObj a (setNonce nonce) (appendEntry (nonceChange a o.(data).(Nonce)) s).

(** The journal keeps the cached code, which need not be loaded yet. *)
Definition obj_SetCode (o : stateObject) (codeHash : hash) (c : bytes) (s : StateDB) : StateDB :=
  let a := o.(obj_address) in
  modObj a (setCode codeHash c) (appendEntry (codeChange a o.(code)) s).

Definition obj_Code (o : stateObject) (s : StateDB) : bytes * StateDB :=
  if negb (bool_decide (o.(code) = [])) then (o.(code), s)
  else if o.(data).(CodeHash) =? EmptyCodeHash then ([], s)
  else
    let a := o.(obj_address) in
    let c := reader.(rCode) a o.(data).(CodeHash) in
    let s := if bool_decide (c = []) then setError (ErrCodeNotFound o.(data).(CodeHash)) s else s in
    (c, modObj a (set_code c) s).

Definition obj_CodeSize (o : stateObject) (s : StateDB) : Z * StateDB :=
  if negb (bool_decide (o.(code) = [])) then (Z.of_nat (length o.(code)), s)
  else if o.(data).(CodeHash) =? EmptyCodeHash then (0, s)
  else
    let size := reader.(rCodeSize) o.(obj_address) o.(data).(CodeHash) in
    (size, if size =? 0 then setError (ErrCodeNotFound o.(data).(CodeHash)) s else s).

(** *** Looking accounts up *)

Definition setStateObject (o : stateObject) (s : StateDB) : StateDB :=
  set_stateObjects (<[o.(obj_address) := o]> s.(stateObjects)) s.

Definition getStateObject (a : address) (s : StateDB) : option stateObject * StateDB :=
  let s := recordRead a s in
  match s.(stateObjects) !! a with
  | Some obj => (Some obj, s)
  | None =>
      if bool_decide (is_Some (s.(stateObjectsDestruct) !! a)) then (None, s)
      else
        match reader.(rAccount) a with
        | Err e => (None, setError (ErrAccount a e) s)
        | Ok None => (None, s)
        | Ok (Some acct) =>
            let obj := newObject a (Some acct) in
            (Some obj, setStateObject obj s)
        end
  end.

Definition createObject (a : address) (s : StateDB) : stateObject * StateDB :=
  let s := recordWrite a s in
  let obj := newObject a None in
  (obj, setStateObject obj (appendEntry (createObjectChange a) s)).

Definition getOrNewStateObject (a : address) (s : StateDB) : stateObject * StateDB :=
  let '(obj, s) := getStateObject a s in
  match obj with Some obj => (obj, s) | None => createObject a s end.

(** *** Getters *)

(** The shape the getters share: a default when the account is absent. *)
Definition withObject {A} (a : address) (dflt : A)
  (f : stateObject → StateDB → A * StateDB) (s : StateDB) : A * StateDB :=
  let '(obj, s) := getStateObject a s in
  match obj with Some obj => f obj s | None => (dflt, s) end.

Definition Exist (a : address) : StateDB → bool * StateDB :=
  withObject a false (λ _ s, (true, s)).
Definition Empty (a : address) : StateDB → bool * StateDB :=
  withObject a true (λ obj s, (empty obj, s)).
Definition GetBalance (a : address) : StateDB → Z * StateDB :=
  withObject a 0 (λ obj s, (obj.(data).(Balance), s)).
Definition GetNonce (a : address) : StateDB → Z * StateDB :=
  withObject a 0 (λ obj s, (obj.(data).(Nonce), s)).
Definition GetStorageRoot (a : address) : StateDB → hash * StateDB :=
  withObject a zeroHash (λ obj s, (obj.(data).(Root), s)).
Definition GetCode (a : address) : StateDB → bytes * StateDB := withObject a [] obj_Code.
Definition GetCodeSize (a : address) : StateDB → Z * StateDB := withObject a 0 obj_CodeSize.
Definition GetCodeHash (a : address) : StateDB → hash * StateDB :=
  withObject a zeroHash (λ obj s, (obj.(data).(CodeHash), s)).
Definition GetState (a : address) (key : hash) : StateDB → hash * StateDB :=
  withObject a zeroHash (λ obj, obj_GetState obj key).
Definition GetCommittedState (a : address) (key : hash) : StateDB → hash * StateDB :=
  withObject a zeroHash (λ obj, obj_GetCommittedState obj key).
Definition HasSelfDestructed (a : address) : StateDB → bool * StateDB :=
  withObject a false (λ obj s, (obj.(selfDestructed), s)).
Definition IsNewContract (a : address) : StateDB → bool * StateDB :=
  withObject a false (λ obj s, (obj.(newContract), s)).
Definition Touch (a : address) (s : StateDB) : StateDB := (getStateObject a s).2.
Definition GetTransientState (a : address) (key : hash) (s : StateDB) : hash :=
  transient_Get s.(transientStorage) a key.
Definition GetRefund (s : StateDB) : Z := s.(refund).
Definition AddressInAccessList (a : address) (s : StateDB) : bool :=
  ContainsAddress s.(accessList) a.
Definition SlotInAccessList (a : address) (slot : hash) (s : StateDB) : option (bool * bool) :=
  Contains s.(accessList) a slot.

(** *** Setters *)

(** [recordWrite], the object (created when absent), then the write. *)
Definition onObject (a : address) (f : stateObject → StateDB → StateDB) (s : StateDB) : StateDB :=
  let '(obj, s) := getOrNewStateObject a (recordWrite a s) in f obj s.

Definition AddBalance (a : address) (amount : Z) : StateDB → StateDB :=
  onObject a (λ obj, obj_AddBalance obj amount).
Definition SubBalance (a : address) (amount : Z) : StateDB → StateDB :=
  onObject a (λ obj s, if amount =? 0 then s
                       else obj_SetBalance obj (u256_sub obj.(data).(Balance) amount) s).
Definition SetBalance (a : address) (amount : Z) : StateDB → StateDB :=
  onObject a (λ obj, obj_SetBalance obj amount).
Definition SetNonce (a : address) (nonce : Z) : StateDB → StateDB :=
  onObject a (λ obj, obj_SetNonce obj nonce).
Definition SetCode (a : address) (c : bytes) : StateDB → StateDB :=
  onObject a (λ obj, obj_SetCode obj (Keccak256Hash c) c).
Definition SetState (a : address) (key value : hash) : StateDB → StateDB :=
  onObject a (λ obj, obj_SetState obj key value).

Definition SelfDestruct (a : address) (s : StateDB) : StateDB :=
  let '(obj, s) := getStateObject a (recordWrite a s) in
  match obj with
  | None => s
  | Some obj =>
      if obj.(selfDestructed) then s
      else modObj a markSelfdestructed (appendEntry (selfDestructChange a) s)
  end.

Definition CreateAccount (a : address) (s : StateDB) : StateDB := (createObject a s).2.

(** A nil dereference when the account does not exist. *)
Definition CreateContract (a : address) (s : StateDB) : option StateDB :=
  let '(obj, s) := getStateObject a s in
  obj ← obj;
  Some (if obj.(newContract) then s
        else appendEntry (createContractChange a) (modObj a (set_newContract true) s)).

Definition setTransientState (a : address) (key value : hash) (s : StateDB) : StateDB :=
  set_transientStorage (transient_Set s.(transientStorage) a key value) s.

Definition SetTransientState (a : address) (key value : hash) (s : StateDB) : StateDB :=
  let prev := GetTransientState a key s in
  if prev =? value then s
  else setTransientState a key value (appendEntry (transientStorageChange a key prev) s).

Definition AddRefund (gas : Z) (s : StateDB) : StateDB :=
  set_refund (s.(refund) +₆₄ gas) (appendEntry (refundChange s.(refund)) s).

Definition SubRefund (gas : Z) (s : StateDB) : option StateDB :=
  if s.(refund) <? gas then None
  else Some (set_refund (s.(refund) -₆₄ gas) (appendEntry (refundChange s.(refund)) s)).

Definition AddLog (a : address) (topics : list hash) (d : bytes) (s : StateDB) : StateDB :=
  let h := s.(thash) in
  let log := {| log_Address := a; log_Topics := topics; log_Data := d; log_TxHash := h;
                log_TxIndex := s.(txIndex); log_Index := s.(logSize) |} in
  set_logSize (s.(logSize) +₆₄ 1)
    (set_logs (<[h := default [] (s.(logs) !! h) ++ [log]]> s.(logs))
      (appendEntry (addLogChange h) s)).

Definition AddPreimage (h : hash) (preimage : bytes) (s : StateDB) : StateDB :=
  match s.(preimages) !! h with
  | Some _ => s
  | None => set_preimages (<[h := preimage]> s.(preimages)) s
  end.

Definition AddAddressToAccessList (a : address) (s : StateDB) : StateDB :=
  let '(added, al) := AddAddress s.(accessList) a in
  let s := set_accessList al s in
  if added then appendEntry (accessListAddAccountChange a) s else s.

Definition AddSlotToAccessList (a : address) (slot : hash) (s : StateDB) : option StateDB :=
  '(addrMod, slotMod, al) ← AddSlot s.(accessList) a slot;
  let s := set_accessList al s in
  let s := if addrMod : bool then appendEntry (accessListAddAccountChange a) s else s in
  Some (if slotMod : bool then appendEntry (accessListAddSlotChange a slot) s else s).

Definition SetTxContext (h : hash) (ti : Z) (s : StateDB) : StateDB :=
  set_txIndex ti (set_thash h s).

(** *** Undoing *)

(** A write through [s.getStateObject(account)], a nil dereference when absent *)
Definition derefObject (a : address) (f : stateObject → stateObject) (s : StateDB) : option StateDB :=
  let '(obj, s) := getStateObject a s in
  obj ← obj; Some (modObj a f s).

(** [entry.revert] *)
Definition revertEntry (e : journalEntry) (s : StateDB) : option StateDB :=
  match e with
  | createObjectChange a => Some (set_stateObjects (delete a s.(stateObjects)) s)
  | createContractChange a => derefObject a (set_newContract false) s
  | selfDestructChange a =>
      let '(obj, s) := getStateObject a s in
      Some match obj with Some _ => modObj a (set_selfDestructed false) s | None => s end
  | balanceChange a prev => derefObject a (setBalance prev) s
  | nonceChange a prev => derefObject a (setNonce prev) s
  | storageChange a key prevvalue origvalue => derefObject a (setState key prevvalue origvalue) s
  | codeChange a prevCode => derefObject a (setCode (Keccak256Hash prevCode) prevCode) s
  | refundChange prev => Some (set_refund prev s)
  | addLogChange h =>
      let l := default [] (s.(logs) !! h) in
      let s := set_logSize (s.(logSize) -₆₄ 1) s in
      match l with
      | [] => None
      | [_] => Some (set_logs (delete h s.(logs)) s)
      | _ => Some (set_logs (<[h := take (length l - 1) l]> s.(logs)) s)
      end
  | touchChange _ => Some s
  | accessListAddAccountChange a => Some (set_accessList (DeleteAddress s.(accessList) a) s)
  | accessListAddSlotChange a slot =>
      al ← DeleteSlot s.(accessList) a slot; Some (set_accessList al s)
  | transientStorageChange a key prev => Some (setTransientState a key prev s)
  end.

(** One turn of the loop of [journal.revert]. *)
Definition revertStep (e : journalEntry) (s : StateDB) : option StateDB :=
  s ← revertEntry e s;
  Some match dirtied e with
       | Some a => set_journal (set_dirties (dirty_dec a s.(journal).(dirties)) s.(journal)) s
       | None => s
       end.

(** Undoes the entries of a list, the last one first. *)
Definition revertEntries (es : list journalEntry) (s : StateDB) : option StateDB :=
  foldr (λ e r, r ≫= revertStep e) (Some s) es.

Definition truncate (n : nat) (revs : list revision) (j : Journal) : Journal :=
  {| entries := take n j.(entries); dirties := j.(dirties); validRevisions := revs;
     nextRevisionId := j.(nextRevisionId) |}.

Definition journal_revert (n : nat) (s : StateDB) : option StateDB :=
  s' ← revertEntries (drop n s.(journal).(entries)) s;
  Some (set_journal (truncate n s'.(journal).(validRevisions) s'.(journal)) s').

Definition RevertToSnapshot (revid : Z) (s : StateDB) : option StateDB :=
  let revs := s.(journal).(validRevisions) in
  let idx := sortSearch (length revs)
    (λ i, match revs !! i with Some r => revid <=? r.(rev_id) | None => false end) in
  r ← revs !! idx;
  if negb (r.(rev_id) =? revid) then None
  else
    s' ← journal_revert r.(journalIndex) s;
    Some (set_journal (truncate r.(journalIndex) (take idx revs) s'.(journal)) s').

Definition Snapshot (s : StateDB) : Z * StateDB :=
  let '(id, j) := journal_snapshot s.(journal) in (id, set_journal j s).

Definition NewWithReader : StateDB :=
  {| stateObjects := ∅; stateObjectsDestruct := ∅; mutations := ∅; dbErr := None; refund := 0;
     thash := zeroHash; txIndex := 0; logs := ∅; logSize := 0; preimages := ∅;
     accessList := newAccessList; transientStorage := ∅; accessReads := ∅; accessWrites := ∅;
     storageReads := ∅; storageWrites := ∅; journal := newJournal |}.

(** *** Transaction boundaries *)

Definition journal_reset (_ : Journal) : Journal := newJournal.

Definition clearJournalAndRefund (s : StateDB) : StateDB :=
  set_refund 0 (set_journal (journal_reset s.(journal)) s).

Definition markDelete (a : address) (s : StateDB) : StateDB :=
  set_mutations (<[a := {| typ := deletion; applied := false |}]> s.(mutations)) s.

Definition markUpdate (a : address) (s : StateDB) : StateDB :=
  set_mutations (<[a := {| typ := update; applied := false |}]> s.(mutations)) s.

(** The body of the loop of [stateObject.finalise]: one dirty slot. *)
Definition finaliseSlot (a : address) (s : StateDB) (slot : hash * hash) : StateDB :=
  let '(key, value) := slot in
  match s.(stateObjects) !! a with
  | None => s
  | Some o =>
      let s :=
        match o.(uncommittedStorage) !! key with
        | Some origin =>
            if origin =? value
            then modObj a (λ o, set_uncommittedStorage (delete key o.(uncommittedStorage)) o) s
            else s
        | None =>
            let '(c, s) := obj_GetCommittedState o key s in
            modObj a (λ o, set_uncommittedStorage (<[key := c]> o.(uncommittedStorage)) o) s
        end in
      modObj a (λ o, set_pendingStorage (<[key := value]> o.(pendingStorage)) o) s
  end.

Definition obj_finalise (o : stateObject) (s : StateDB) : StateDB :=
  let a := o.(obj_address) in
  let s := foldl (finaliseSlot a) s (map_to_list o.(dirtyStorage)) in
  modObj a (λ o, set_newContract false (set_dirtyStorage ∅ o)) s.

(** The body of the loop of [Finalise]: one dirty address. *)
Definition finaliseAccount (deleteEmptyObjects : bool) (s : StateDB) (a : address) : StateDB :=
  match s.(stateObjects) !! a with
  | None => s
  | Some obj =>
      if obj.(selfDestructed) || (deleteEmptyObjects && empty obj) then
        let s := markDelete a (set_stateObjects (delete obj.(obj_address) s.(stateObjects)) s) in
        match s.(stateObjectsDestruct) !! obj.(obj_address) with
        | Some _ => s
        | None => set_stateObjectsDestruct (<[obj.(obj_address) := obj]> s.(stateObjectsDestruct)) s
        end
      else markUpdate a (obj_finalise obj s)
  end.

(** The loop runs over the keys of a Go map, in no fixed order. *)
Definition Finalise_in (order : list address) (deleteEmptyObjects : bool) (s : StateDB) : StateDB :=
  clearJournalAndRefund (foldl (finaliseAccount deleteEmptyObjects) s order).

Definition Finalise (deleteEmptyObjects : bool) (s : StateDB) : StateDB :=
  Finalise_in (map_to_list s.(journal).(dirties)).*1 deleteEmptyObjects s.

(** [Prepare], with the rules as flags; a panic when both pricing schemes are on. *)
Definition addTuple (al : AccessList) (el : address * list hash) : option AccessList :=
  let '(_, al) := AddAddress al el.1 in
  foldl (λ r key, al ← r; '(_, _, al) ← AddSlot al el.1 key; Some al) (Some al) el.2.

Definition Prepare (isEIP2929 isEIP4762 isShanghai : bool) (sender coinbase : address)
    (dst : option address) (precompiles : list address) (list : list (address * list hash))
    (s : StateDB) : option StateDB :=
  if isEIP2929 && isEIP4762 then None
  else
    s ← (if isEIP2929 then
           let add al a := (AddAddress al a).2 in
           let al := add newAccessList sender in
           let al := match dst with Some a => add al a | None => al end in
           let al := foldl add al precompiles in
           al ← foldl (λ r el, al ← r; addTuple al el) (Some al) list;
           let al := if isShanghai then add al coinbase else al in
           Some (set_accessList al s)
         else Some s);
    Some (set_transientStorage ∅ s).

End Operations.
End StateDB.
