(* ===== verification/Journal.v ===== *)
(** * Reverting the journaled world state

    What a reader of [core/state.StateDB] can observe ([peek], [committed],
    [codeOf]), the equivalence of states with equal observations, and the
    theorem that [RevertToSnapshot] restores every observation of the snapshot
    whatever operations, nested snapshots and reverts ran in between. *)

From S2P Require Import Prelude Bytes State StateDB.

Module Journal.
Import StateDB.

(** ** Observations *)

Section Theory.
Context {U : Uint256} (Keccak256Hash : bytes → hash) (reader : Reader).

Local Abbreviation newObject := (newObject Keccak256Hash).
Local Abbreviation EmptyCodeHash := (EmptyCodeHash Keccak256Hash).
Local Abbreviation getStateObject := (getStateObject Keccak256Hash reader).
Local Abbreviation revertEntry := (revertEntry Keccak256Hash reader).
Local Abbreviation revertStep := (revertStep Keccak256Hash reader).
Local Abbreviation revertEntries := (revertEntries Keccak256Hash reader).

(** The object [getStateObject] would return, without loading it. *)
Definition load (d : gmap Z stateObject) (a : address) : option stateObject :=
  match d !! a with
  | Some _ => None
  | None =>
      match reader.(rAccount) a with
      | Ok (Some acct) => Some (newObject a (Some acct))
      | _ => None
      end
  end.

Definition peek (s : StateDB) (a : address) : option stateObject :=
  match s.(stateObjects) !! a with
  | Some o => Some o
  | None => load s.(stateObjectsDestruct) a
  end.

(** The committed value of a slot of object [o]. *)
Definition committed (d : gmap Z stateObject) (o : stateObject) (key : hash) : hash :=
  match o.(pendingStorage) !! key, o.(originStorage) !! key with
  | Some v, _ => v
  | None, Some v => v
  | None, None =>
      match d !! o.(obj_address) with
      | Some _ => zeroHash
      | None => match reader.(rStorage) o.(obj_address) key with Ok v => v | Err _ => zeroHash end
      end
  end.

Definition codeOf (o : stateObject) : bytes :=
  match o.(code) with
  | [] => if o.(data).(CodeHash) =? EmptyCodeHash then []
          else reader.(rCode) o.(obj_address) o.(data).(CodeHash)
  | c => c
  end.

(** Objects that differ only in what they have cached. *)
Record obj_eqv (d : gmap Z stateObject) (o1 o2 : stateObject) : Prop := {
  oe_address : o1.(obj_address) = o2.(obj_address);
  oe_origin : o1.(obj_origin) = o2.(obj_origin);
  oe_data : o1.(data) = o2.(data);
  oe_dirty : o1.(dirtyStorage) = o2.(dirtyStorage);
  oe_pending : o1.(pendingStorage) = o2.(pendingStorage);
  oe_uncommitted : o1.(uncommittedStorage) = o2.(uncommittedStorage);
  oe_destructed : o1.(selfDestructed) = o2.(selfDestructed);
  oe_new : o1.(newContract) = o2.(newContract);
  oe_committed k : committed d o1 k = committed d o2 k;
  oe_code : codeOf o1 = codeOf o2;
}.

(** States a transaction cannot tell apart.  The access summaries, the
    memorised database error, the preimages and the permanent mark of the RIPEMD
    precompile are outside the journal. *)
Record eqv (s1 s2 : StateDB) : Prop := {
  eq_objects a : option_Forall2 (obj_eqv s1.(stateObjectsDestruct)) (peek s1 a) (peek s2 a);
  eq_destruct : s1.(stateObjectsDestruct) = s2.(stateObjectsDestruct);
  eq_mutations : s1.(mutations) = s2.(mutations);
  eq_refund : s1.(refund) = s2.(refund);
  eq_thash : s1.(thash) = s2.(thash);
  eq_txIndex : s1.(txIndex) = s2.(txIndex);
  eq_logs : s1.(logs) = s2.(logs);
  eq_logSize : s1.(logSize) = s2.(logSize);
  eq_accessList : s1.(accessList) = s2.(accessList);
  eq_transient : s1.(transientStorage) = s2.(transientStorage);
  eq_dirties a : a ≠ ripemd → s1.(journal).(dirties) !! a = s2.(journal).(dirties) !! a;
}.

Local Infix "≈" := eqv (at level 70).

#[global] Instance obj_eqv_equivalence d : Equivalence (obj_eqv d).
Proof.
  split.
  - intros o. by constructor.
  - intros o1 o2 []. constructor; intros; by symmetry.
  - intros o1 o2 o3 [] []. constructor; intros; etrans; eauto.
Qed.

#[global] Instance eqv_equivalence : Equivalence eqv.
Proof.
  split.
  - intros s. by constructor.
  - intros s1 s2 []. constructor; try congruence; intros.
    + rewrite <- eq_destruct0. specialize (eq_objects0 a). inversion eq_objects0; by constructor.
    + symmetry. auto.
  - intros s1 s2 s3 [] []. constructor; try congruence; intros.
    + rewrite <- eq_destruct0 in eq_objects1. etrans; [apply eq_objects0 | apply eq_objects1].
    + etrans; auto.
Qed.

(** ** Reader laws

    What [core/state/reader.go] documents: balances are 256-bit words, code is
    stored under its hash, and [CodeSize] is the size of [Code]. *)
Class ReaderOk : Prop := {
  reader_balance a acct : reader.(rAccount) a = Ok (Some acct) → 0 <= acct.(Balance) < two256;
  reader_code a h : reader.(rCode) a h ≠ [] → Keccak256Hash (reader.(rCode) a h) = h;
  reader_codeSize a h : reader.(rCodeSize) a h = Z.of_nat (length (reader.(rCode) a h));
}.

(** ** Well-formedness *)

Record obj_wf (d : gmap Z stateObject) (a : address) (o : stateObject) : Prop := {
  ow_address : o.(obj_address) = a;
  ow_balance : 0 <= o.(data).(Balance) < two256;
  ow_dirty k v : o.(dirtyStorage) !! k = Some v → v ≠ committed d o k;
  ow_code : codeOf o ≠ [] → Keccak256Hash (codeOf o) = o.(data).(CodeHash);
}.

Record al_wf (al : AccessList) : Prop := {
  aw_index a i : al.(addresses) !! a = Some i →
    i = -1 ∨ (0 <= i ∧ ∃ set, al.(slots) !! Z.to_nat i = Some set);
  aw_slots set : set ∈ al.(slots) → set ≠ ∅;
}.

Record wf (s : StateDB) : Prop := {
  wf_objects a o : peek s a = Some o → obj_wf s.(stateObjectsDestruct) a o;
  wf_accessList : al_wf s.(accessList);
  wf_logs h l : s.(logs) !! h = Some l → l ≠ [];
  wf_logSize : is_u64 s.(logSize);
  wf_refund : is_u64 s.(refund);
  wf_transient k v : s.(transientStorage) !! k = Some v → v ≠ zeroHash;
}.

(** Dirty counts are positive; the RIPEMD mark is not counted by entries. *)
Definition positive (d : gmap Z Z) : Prop := ∀ a n, a ≠ ripemd → d !! a = Some n → 0 < n.

Definition dirties_wf (s : StateDB) : Prop := positive s.(journal).(dirties).

Lemma dirties_wf_eqv s1 s2 : s1 ≈ s2 → dirties_wf s1 → dirties_wf s2.
Proof. intros E Hd a n Ha. rewrite <- (eq_dirties _ _ E a Ha). by apply Hd. Qed.

Lemma obj_wf_eqv d a o1 o2 : obj_eqv d o1 o2 → obj_wf d a o1 → obj_wf d a o2.
Proof.
  intros [] []. constructor; try congruence.
  - intros k v. rewrite <- oe_dirty0, <- oe_committed0. apply ow_dirty0.
  - rewrite <- oe_code0, <- oe_data0. done.
Qed.

Lemma wf_eqv s1 s2 : s1 ≈ s2 → wf s1 → wf s2.
Proof.
  intros [] []. constructor; try congruence.
  - intros a o Ho. specialize (eq_objects0 a). rewrite Ho in eq_objects0.
    inversion eq_objects0 as [o1 ? E Ha|]; subst. rewrite <- eq_destruct0.
    eapply obj_wf_eqv; eauto.
  - rewrite <- eq_logs0. done.
  - rewrite <- eq_transient0. done.
Qed.

(** ** Updates of one object *)

(** Everything observable outside the objects and the journal. *)
Definition rest (s : StateDB) :=
  (s.(stateObjectsDestruct), s.(mutations), s.(refund), s.(thash), s.(txIndex), s.(logs),
   s.(logSize), s.(accessList), s.(transientStorage)).

Lemma eqv_rest s1 s2 : s1 ≈ s2 → rest s1 = rest s2.
Proof. intros []. unfold rest. congruence. Qed.

Lemma rest_destruct s1 s2 : rest s1 = rest s2 → s1.(stateObjectsDestruct) = s2.(stateObjectsDestruct).
Proof. by intros [= ]. Qed.

Lemma eqv_intro s1 s2 :
  (∀ a, option_Forall2 (obj_eqv s1.(stateObjectsDestruct)) (peek s1 a) (peek s2 a)) →
  rest s1 = rest s2 →
  (∀ a, a ≠ ripemd → s1.(journal).(dirties) !! a = s2.(journal).(dirties) !! a) →
  s1 ≈ s2.
Proof. intros Ho [= ] Hd. by constructor. Qed.

(** [s'] is [s] with the object of [a] replaced by [o]. *)
Record upd (a : address) (o : option stateObject) (s s' : StateDB) : Prop := {
  upd_peek b : peek s' b = if decide (a = b) then o else peek s b;
  upd_rest : rest s' = rest s;
}.

Lemma upd_eqv a o1 o2 s1 s2 s1' s2' :
  upd a o1 s1 s1' → upd a o2 s2 s2' → s1 ≈ s2 →
  option_Forall2 (obj_eqv s1.(stateObjectsDestruct)) o1 o2 →
  (∀ b, b ≠ ripemd → s1'.(journal).(dirties) !! b = s2'.(journal).(dirties) !! b) →
  s1' ≈ s2'.
Proof.
  intros [P1 R1] [P2 R2] E Ho Hd. apply eqv_intro; [|by rewrite R1, R2; apply eqv_rest|done].
  intros b. rewrite (rest_destruct _ _ R1), P1, P2. case_decide; [done|]. apply E.
Qed.

Lemma upd_trans a o o' s s' s'' : upd a o s s' → upd a o' s' s'' → upd a o' s s''.
Proof.
  intros [P R] [P' R']. constructor; [|congruence].
  intros b. rewrite P', P. by case_decide.
Qed.

Lemma upd_id a s : upd a (peek s a) s s.
Proof. constructor; [|done]. intros b. by case_decide; subst. Qed.

Lemma upd_same a s s' :
  upd a (peek s a) s s' →
  (∀ b, b ≠ ripemd → s'.(journal).(dirties) !! b = s.(journal).(dirties) !! b) → s' ≈ s.
Proof. intros Hu Hd. eapply upd_eqv; [done|apply upd_id| |done|done]; reflexivity. Qed.

Lemma upd_modObj a f s o :
  s.(stateObjects) !! a = Some o → upd a (Some (f o)) s (modObj a f s).
Proof.
  intros Ho. constructor; [|done]. intros b. unfold peek; cbn.
  case_decide; subst; [by rewrite lookup_alter, decide_True, Ho|].
  by rewrite lookup_alter_ne.
Qed.

Lemma peek_live s a o : s.(stateObjects) !! a = Some o → peek s a = Some o.
Proof. unfold peek. by intros ->. Qed.

(** [getStateObject] answers [peek], and its only effect is to load the object. *)
Lemma getStateObject_spec a s :
  ∃ s', getStateObject a s = (peek s a, s') ∧ upd a (peek s a) s s'
    ∧ s'.(journal) = s.(journal) ∧ s'.(stateObjects) !! a = peek s a.
Proof.
  unfold getStateObject, peek, load; cbn.
  destruct (stateObjects s !! a) as [o|] eqn:Eo.
  { eexists. split_and!; [done| |done|done]. constructor; [|done].
    intros b. unfold peek; cbn. case_decide; subst; [by rewrite Eo|done]. }
  destruct (stateObjectsDestruct s !! a) eqn:Ed; cbn.
  { eexists. split_and!; [done| |done|done]. constructor; [|done].
    intros b. unfold peek, load; cbn. case_decide; subst; [by rewrite Eo, Ed|done]. }
  destruct (rAccount reader a) as [[acct|]|e] eqn:Er; cbn.
  - eexists. split_and!; [done| |done|cbn; by rewrite lookup_insert, decide_True]. constructor; [|done].
    intros b. unfold peek, load; cbn. rewrite lookup_insert. by case_decide.
  - eexists. split_and!; [done| |done|done]. constructor; [|done].
    intros b. unfold peek, load; cbn. case_decide; subst; [by rewrite Eo, Ed, Er|done].
  - unfold setError; cbn. destruct (dbErr s); cbn;
      (eexists; split_and!; [done| |done|done]; constructor; [|done];
       intros b; unfold peek, load; cbn; case_decide; subst; [by rewrite Eo, Ed, Er|done]).
Qed.

(** ** Undoing respects the equivalence *)

Lemma eqv_peek s1 s2 a o1 :
  s1 ≈ s2 → peek s1 a = Some o1 →
  ∃ o2, peek s2 a = Some o2 ∧ obj_eqv s1.(stateObjectsDestruct) o1 o2.
Proof.
  intros E H1. pose proof (eq_objects _ _ E a) as H. rewrite H1 in H.
  inversion H as [? o2 Ho|]; subst. eauto.
Qed.

Lemma eqv_peek_None s1 s2 a : s1 ≈ s2 → peek s1 a = None → peek s2 a = None.
Proof.
  intros E H1. pose proof (eq_objects _ _ E a) as H. rewrite H1 in H. by inversion H.
Qed.

(** Object updates that map equivalent objects to equivalent objects. *)
Definition respects (f : stateObject → stateObject) : Prop :=
  ∀ d o1 o2, obj_eqv d o1 o2 → obj_eqv d (f o1) (f o2).

Ltac solve_respects :=
  intros ? ? ? []; constructor; cbn; try congruence; auto;
  unfold codeOf in *; cbn; match goal with H : obj_address _ = _ |- _ => rewrite ?H end; congruence.

Lemma respects_setBalance v : respects (setBalance v).
Proof. solve_respects. Qed.
Lemma respects_setNonce v : respects (setNonce v).
Proof. solve_respects. Qed.
Lemma respects_setCode h c : respects (setCode h c).
Proof. solve_respects. Qed.
Lemma respects_newContract b : respects (set_newContract b).
Proof. solve_respects. Qed.
Lemma respects_selfDestructed b : respects (set_selfDestructed b).
Proof. solve_respects. Qed.
Lemma respects_setState k v o : respects (setState k v o).
Proof. intros d o1 o2 E. unfold setState. case_if; revert d o1 o2 E; solve_respects. Qed.

#[local] Hint Resolve respects_setBalance respects_setNonce respects_setCode respects_newContract
  respects_selfDestructed respects_setState : tkm.

Lemma derefObject_spec a f s o :
  peek s a = Some o →
  ∃ s', derefObject Keccak256Hash reader a f s = Some s' ∧ upd a (Some (f o)) s s'
    ∧ s'.(journal) = s.(journal).
Proof.
  intros Ho. destruct (getStateObject_spec a s) as (s1 & E & Hu & Hj & Hl).
  unfold derefObject. rewrite E, Ho in *. cbn. eexists. split_and!; [done| |done].
  eapply upd_trans; [done|]. by apply upd_modObj.
Qed.

Lemma derefObject_none a f s :
  peek s a = None → derefObject Keccak256Hash reader a f s = None.
Proof.
  intros Ho. destruct (getStateObject_spec a s) as (s1 & E & _).
  unfold derefObject. by rewrite E, Ho.
Qed.

Lemma derefObject_proper a f s1 s2 s1' :
  respects f → s1 ≈ s2 → derefObject Keccak256Hash reader a f s1 = Some s1' →
  ∃ s2', derefObject Keccak256Hash reader a f s2 = Some s2' ∧ s1' ≈ s2'.
Proof.
  intros Hf E H. destruct (peek s1 a) as [o1|] eqn:Ho1; [|by rewrite derefObject_none in H].
  destruct (eqv_peek s1 s2 a o1) as (o2 & Ho2 & Ho); [done..|].
  destruct (derefObject_spec a f s1 o1) as (u1 & E1 & U1 & J1); [done|].
  destruct (derefObject_spec a f s2 o2) as (u2 & E2 & U2 & J2); [done|].
  rewrite E1 in H. injection H as <-. exists u2. split; [done|].
  eapply upd_eqv; [done..| |].
  - constructor. by apply Hf.
  - intros b Hb. rewrite J1, J2. by apply E.
Qed.

Lemma eqv_set_journal s j :
  (∀ b, b ≠ ripemd → j.(dirties) !! b = s.(journal).(dirties) !! b) → set_journal j s ≈ s.
Proof. intros H. apply eqv_intro; [|done|done]. intros a. reflexivity. Qed.

Lemma revertEntry_journal e s s' : revertEntry e s = Some s' → s'.(journal) = s.(journal).
Proof.
  assert (Hd : ∀ a f, derefObject Keccak256Hash reader a f s = Some s' → journal s' = journal s).
  { intros a f H. destruct (peek s a) as [o|] eqn:Ho; [|by rewrite derefObject_none in H].
    destruct (derefObject_spec a f s o Ho) as (u & E & _ & J). rewrite E in H. by injection H as <-. }
  destruct e; cbn; eauto; try (by intros [= <-]).
  - destruct (getStateObject_spec account s) as (u & E & _ & J & _). rewrite E.
    intros [= <-]. by destruct (peek s account).
  - repeat case_match; by intros [= <-].
  - intros (al & _ & [= <-])%bind_Some. done.
Qed.

Lemma upd_delete a s :
  upd a (load s.(stateObjectsDestruct) a) s (set_stateObjects (delete a s.(stateObjects)) s).
Proof.
  constructor; [|done]. intros b. unfold peek; cbn. rewrite lookup_delete. by case_decide; subst.
Qed.

(** States that agree on the objects and on the journal's dirty counts. *)
Lemma eqv_frame s1 s2 s1' s2' :
  s1 ≈ s2 → (∀ a, peek s1' a = peek s1 a) → (∀ a, peek s2' a = peek s2 a) →
  s1'.(stateObjectsDestruct) = s1.(stateObjectsDestruct) →
  s1'.(journal) = s1.(journal) → s2'.(journal) = s2.(journal) → rest s1' = rest s2' → s1' ≈ s2'.
Proof.
  intros E P1 P2 D J1 J2 R. apply eqv_intro; [|done|].
  - intros a. rewrite P1, P2, D. apply E.
  - intros a Ha. rewrite J1, J2. by apply E.
Qed.

Lemma revertEntry_proper e s1 s2 s1' :
  s1 ≈ s2 → revertEntry e s1 = Some s1' →
  ∃ s2', revertEntry e s2 = Some s2' ∧ s1' ≈ s2'.
Proof.
  intros E. pose proof E as [].
  destruct e as [a|a|a|a v|a v|a k v o|a c|v|h|a|a|a k|a k v]; cbn;
    try (apply derefObject_proper; auto with tkm);
    try (intros [= <-]; eexists; split; [done|];
         by apply (eqv_frame s1 s2); unfold rest; cbn; try congruence).
  - intros [= <-]. eexists. split; [done|].
    eapply upd_eqv; [apply upd_delete..|done|rewrite eq_destruct0; reflexivity|done].
  - destruct (getStateObject_spec a s1) as (u1 & E1 & U1 & J1 & L1).
    destruct (getStateObject_spec a s2) as (u2 & E2 & U2 & J2 & L2).
    rewrite E1, E2. intros [= <-]. eexists. split; [done|].
    destruct (peek s1 a) as [o1|] eqn:P1.
    + destruct (eqv_peek s1 s2 a o1) as (o2 & P2 & Ho); [done..|]. rewrite P2 in *.
      eapply upd_eqv; [eapply upd_trans, upd_modObj; eassumption..|done| |].
      * constructor. by apply respects_selfDestructed.
      * intros b Hb. cbn. rewrite J1, J2. auto.
    + rewrite (eqv_peek_None s1 s2) in * by done.
      eapply upd_eqv; [done..|constructor|]. intros b Hb. rewrite J1, J2. auto.
  - rewrite eq_logs0, eq_logSize0.
    destruct (default [] (logs s2 !! h)) as [|l1 [|l2 ls]]; [done|..];
      (intros [= <-]; eexists; split; [done|]; by apply (eqv_frame s1 s2); unfold rest; cbn; try congruence).
  - rewrite eq_accessList0. intros (al & Hal & [= <-])%bind_Some. rewrite Hal. cbn.
    eexists. split; [done|]. by apply (eqv_frame s1 s2); unfold rest; cbn; try congruence.
Qed.

Lemma revertStep_proper e s1 s2 s1' :
  s1 ≈ s2 → revertStep e s1 = Some s1' →
  ∃ s2', revertStep e s2 = Some s2' ∧ s1' ≈ s2'.
Proof.
  intros E (u1 & H1 & [= <-])%bind_Some.
  destruct (revertEntry_proper e s1 s2 u1) as (u2 & H2 & E2); [done..|].
  unfold StateDB.revertStep. rewrite H2. cbn. eexists. split; [done|].
  destruct (dirtied e) as [a|]; [|done].
  apply eqv_intro; [apply E2|by apply (eqv_rest u1 u2)|].
  intros b Hb. cbn. unfold dirty_dec. pose proof (eq_dirties _ _ E2) as Hd.
  destruct (decide (a = ripemd)) as [->|Ha].
  - repeat case_if; rewrite ?lookup_delete_ne, ?lookup_insert_ne by done; auto.
  - rewrite (Hd a) by done. case_if; rewrite ?lookup_delete, ?lookup_insert; case_decide; auto.
Qed.

Lemma revertEntries_cons e es s : revertEntries (e :: es) s = revertEntries es s ≫= revertStep e.
Proof. done. Qed.

Lemma revertEntries_app es1 es2 s :
  revertEntries (es1 ++ es2) s = revertEntries es2 s ≫= revertEntries es1.
Proof.
  unfold StateDB.revertEntries. rewrite foldr_app. generalize (foldr (λ e r, r ≫= revertStep e) (Some s) es2).
  intros [u|]; cbn; [done|]. induction es1 as [|e es IH]; cbn; [done|]. by rewrite IH.
Qed.

Lemma revertEntries_proper es s1 s2 s1' :
  s1 ≈ s2 → revertEntries es s1 = Some s1' →
  ∃ s2', revertEntries es s2 = Some s2' ∧ s1' ≈ s2'.
Proof.
  intros E. revert s1'. induction es as [|e es IH]; intros s1'.
  { intros [= <-]. eauto. }
  rewrite !revertEntries_cons. intros (u1 & H1 & Hs)%bind_Some. destruct (IH u1 H1) as (u2 & -> & E2). cbn.
  by eapply revertStep_proper.
Qed.

(** Undoing leaves the list of entries and the revisions to the caller. *)
Lemma revertEntries_journal es s s' :
  revertEntries es s = Some s' →
  s'.(journal).(entries) = s.(journal).(entries)
  ∧ s'.(journal).(validRevisions) = s.(journal).(validRevisions)
  ∧ s'.(journal).(nextRevisionId) = s.(journal).(nextRevisionId).
Proof.
  revert s'. induction es as [|e es IH]; intros s'; cbn; [by intros [= <-]|].
  intros (u & Hu & (w & Hw & [= <-])%bind_Some)%bind_Some.
  destruct (IH u Hu) as (E1 & E2 & E3). apply revertEntry_journal in Hw.
  destruct (dirtied e); cbn; rewrite Hw; done.
Qed.

(** ** Steps the journal can undo *)

(** [s'] follows from [s] by changes that the entries [es], appended to the
    journal, take back. *)
Record undoable (es : list journalEntry) (s s' : StateDB) : Prop := {
  un_entries : s'.(journal).(entries) = s.(journal).(entries) ++ es;
  un_revisions : s'.(journal).(validRevisions) = s.(journal).(validRevisions);
  un_next : s'.(journal).(nextRevisionId) = s.(journal).(nextRevisionId);
  un_undo : ∃ u, revertEntries es s' = Some u ∧ u ≈ s;
}.

Lemma undoable_trans es1 es2 s1 s2 s3 :
  undoable es1 s1 s2 → undoable es2 s2 s3 → undoable (es1 ++ es2) s1 s3.
Proof.
  intros [N1 R1 X1 (u1 & H1 & E1)] [N2 R2 X2 (u2 & H2 & E2)]. constructor; try congruence.
  - by rewrite N2, N1, app_assoc.
  - rewrite revertEntries_app, H2. cbn.
    destruct (revertEntries_proper es1 s2 u2 u1) as (u & Hu & Eu); [by symmetry|done|].
    exists u. split; [done|]. by rewrite <- Eu.
Qed.

(** Loading and recording: nothing to undo. *)
Lemma undoable_nil s s' :
  s' ≈ s → s'.(journal) = set_dirties s'.(journal).(dirties) s.(journal) → undoable [] s s'.
Proof.
  intros E J. constructor; [rewrite J, app_nil_r; done|by rewrite J|by rewrite J|by exists s'].
Qed.

Lemma dirty_dec_inc a d b :
  positive d → b ≠ ripemd → dirty_dec a (dirty_inc a d) !! b = d !! b.
Proof.
  intros Hd Hb. destruct (decide (a = ripemd)) as [->|Ha].
  { unfold dirty_dec, dirty_inc. case_if; by rewrite ?lookup_delete_ne, ?lookup_insert_ne. } unfold dirty_dec, dirty_inc. rewrite lookup_insert, decide_True by done. cbn [default].
  destruct (d !! a) as [n|] eqn:En; cbn.
  - specialize (Hd a n Ha En). replace (n + 1 - 1) with n by lia. case_if; [lia|].
    rewrite insert_insert_eq. rewrite lookup_insert. by case_decide; subst.
  - change (0 + 1 - 1 =? 0) with true. cbn iota.
    rewrite lookup_delete. case_decide; subst; [done|]. by rewrite lookup_insert_ne.
Qed.

(** One entry, appended before or after the change it describes. *)
Lemma undoable_entry e s s' u :
  dirties_wf s →
  s'.(journal) = journal_append e s.(journal) →
  revertEntry e s' = Some u →
  (∀ a, option_Forall2 (obj_eqv u.(stateObjectsDestruct)) (peek u a) (peek s a)) →
  rest u = rest s → undoable [e] s s'.
Proof.
  intros Hw J Hu Ho R. constructor; rewrite ?J; try done.
  cbn. unfold StateDB.revertStep. rewrite Hu. cbn. eexists. split; [done|].
  apply revertEntry_journal in Hu.
  destruct (dirtied e) as [a|] eqn:Ee; apply eqv_intro; try done.
  - intros b Hb. cbn. rewrite Hu, J. cbn. rewrite Ee. apply dirty_dec_inc; [apply Hw|done].
  - intros b Hb. rewrite Hu, J. cbn. by rewrite Ee.
Qed.

(** A step that keeps the state well-formed and can be undone. *)
Definition good (s s' : StateDB) : Prop :=
  wf s → dirties_wf s → (∃ es, undoable es s s') ∧ wf s' ∧ dirties_wf s'.

#[global] Instance good_preorder : PreOrder good.
Proof.
  split.
  - intros s Hw Hd. split; [|done]. exists []. by apply undoable_nil; [|destruct (journal s)].
  - intros s1 s2 s3 G1 G2 Hw Hd. destruct (G1 Hw Hd) as ([es1 H1] & Hw2 & Hd2).
    destruct (G2 Hw2 Hd2) as ([es2 H2] & Hw3 & Hd3). split; [|done].
    exists (es1 ++ es2). by eapply undoable_trans.
Qed.

Lemma good_eqv s s' :
  s' ≈ s → s'.(journal) = set_dirties s'.(journal).(dirties) s.(journal) →
  (dirties_wf s → dirties_wf s') → good s s'.
Proof.
  intros E J D Hw Hd. split_and!; auto.
  - exists []. by apply undoable_nil.
  - by eapply wf_eqv; [symmetry|].
Qed.

(** Changes of the caches and of the access summaries. *)
Lemma good_upd a s s' : upd a (peek s a) s s' → s'.(journal) = s.(journal) → good s s'.
Proof.
  intros Hu J. apply good_eqv.
  - eapply upd_same; [done|]. intros b Hb. by rewrite J.
  - rewrite J. by destruct (journal s).
  - unfold dirties_wf. by rewrite J.
Qed.

Lemma good_frame s s' :
  s'.(stateObjects) = s.(stateObjects) → rest s' = rest s → s'.(journal) = s.(journal) → good s s'.
Proof.
  intros Ho R J. apply (good_upd 0); [|done]. constructor; [|done]. intros b.
  unfold peek. rewrite Ho, (rest_destruct _ _ R). by case_decide; subst.
Qed.

Lemma good_getStateObject a s : good s (getStateObject a s).2.
Proof.
  destruct (getStateObject_spec a s) as (s' & -> & Hu & J & _). by eapply good_upd.
Qed.

Lemma wf_upd a o s s' :
  upd a (Some o) s s' → obj_wf s.(stateObjectsDestruct) a o → wf s → wf s'.
Proof.
  intros [P [= R1 R2 R3 R4 R5 R6 R7 R8 R9]] Ho []. constructor; try congruence.
  - intros b ob. rewrite P, R1. case_decide; subst; [by intros [= <-]|auto].
  - rewrite R6. done.
  - rewrite R9. done.
Qed.

Lemma dirty_inc_positive a d : positive d → positive (dirty_inc a d).
Proof.
  intros Hd b n Hb. unfold dirty_inc. rewrite lookup_insert. case_decide; subst; [|by apply Hd].
  intros [= <-]. destruct (d !! b) as [m|] eqn:E; cbn; [|lia]. specialize (Hd _ _ Hb E). lia.
Qed.

Lemma dirties_wf_append e s s' :
  s'.(journal) = journal_append e s.(journal) → dirties_wf s → dirties_wf s'.
Proof.
  unfold dirties_wf. intros -> Hd. cbn. destruct (dirtied e); [by apply dirty_inc_positive|done].
Qed.

(** A journalled write to the object of [a]: [g] takes [f] back. *)
Lemma good_object a o e f g s s' :
  peek s a = Some o → upd a (Some (f o)) s s' →
  s'.(journal) = journal_append e s.(journal) →
  (∀ t, is_Some (peek t a) → revertEntry e t = derefObject Keccak256Hash reader a g t) →
  (wf s → obj_eqv s.(stateObjectsDestruct) (g (f o)) o) →
  (wf s → obj_wf s.(stateObjectsDestruct) a (f o)) →
  good s s'.
Proof.
  intros Ho Hu J Hr Hg Hf Hw Hd.
  assert (Ho' : peek s' a = Some (f o)) by (by rewrite (upd_peek _ _ _ _ Hu), decide_True).
  destruct (derefObject_spec a g s' (f o) Ho') as (u & Eu & Uu & Ju).
  split_and!; [|by eapply wf_upd; eauto|by eapply dirties_wf_append].
  exists [e]. assert (Hs := upd_trans _ _ _ _ _ _ Hu Uu).
  apply (undoable_entry e s s' u); auto; [by rewrite Hr| |apply Hs].
  intros b. rewrite (upd_peek _ _ _ _ Hs). case_decide; subst; [|reflexivity].
  rewrite Ho. constructor. rewrite (rest_destruct _ _ (upd_rest _ _ _ _ Hs)). auto.
Qed.

(** A journalled change outside the objects. *)
Lemma good_rest e s s' u :
  s'.(journal) = journal_append e s.(journal) →
  s'.(stateObjects) = s.(stateObjects) → s'.(stateObjectsDestruct) = s.(stateObjectsDestruct) →
  (wf s → revertEntry e s' = Some u ∧ u.(stateObjects) = s.(stateObjects) ∧ rest u = rest s) →
  (wf s → wf s') → good s s'.
Proof.
  intros J O D Hu Hwf Hw Hd. split_and!; [|auto|by eapply dirties_wf_append].
  destruct (Hu Hw) as (Hr & O' & R). exists [e]. eapply undoable_entry; eauto.
  intros b. unfold peek. rewrite O', (rest_destruct _ _ R). reflexivity.
Qed.

(** ** The operations are undoable *)

Lemma obj_wf_set d a o acct :
  obj_wf d a o → 0 <= acct.(Balance) < two256 → acct.(CodeHash) = o.(data).(CodeHash) →
  obj_wf d a (set_data acct o).
Proof.
  intros [] Hb Hc. constructor; try done.
  unfold codeOf in *. cbn. by rewrite Hc.
Qed.

Lemma good_cache a o o' s s' :
  upd a (Some o') s s' → peek s a = Some o → obj_eqv s.(stateObjectsDestruct) o' o →
  s'.(journal) = s.(journal) → good s s'.
Proof.
  intros Hu Ho E J. apply good_eqv.
  - eapply upd_eqv; [done|apply upd_id|reflexivity|rewrite Ho; by constructor|]. by rewrite J.
  - rewrite J. by destruct (journal s).
  - unfold dirties_wf. by rewrite J.
Qed.

Lemma recordStorageRead_frame a k v s :
  let s' := recordStorageRead a k v s in
  s'.(stateObjects) = s.(stateObjects) ∧ rest s' = rest s ∧ s'.(journal) = s.(journal).
Proof. unfold recordStorageRead. by destruct (_ !! _). Qed.

Lemma setError_frame e s :
  let s' := setError e s in
  s'.(stateObjects) = s.(stateObjects) ∧ rest s' = rest s ∧ s'.(journal) = s.(journal).
Proof. unfold setError. by destruct (dbErr s). Qed.

Lemma upd_frame a o s s1 s2 :
  upd a o s s1 → s2.(stateObjects) = s1.(stateObjects) → rest s2 = rest s1 → upd a o s s2.
Proof.
  intros [P R] Ho R'. constructor; [|congruence]. intros b.
  unfold peek at 1. rewrite Ho, (rest_destruct _ _ R'). apply P.
Qed.

Lemma cacheOrigin_eqv d o k v :
  o.(pendingStorage) !! k = None → o.(originStorage) !! k = None → committed d o k = v →
  obj_eqv d (cacheOrigin k v o) o.
Proof.
  intros Hp Ho Hc. constructor; try done. intros k'. unfold committed. cbn.
  destruct (decide (k = k')) as [<-|Hk].
  - rewrite Hp, lookup_insert, decide_True by done. rewrite <- Hc. unfold committed. by rewrite Hp, Ho.
  - by rewrite lookup_insert_ne.
Qed.

(** [GetCommittedState] answers [committed] and at most caches the slot. *)
Lemma obj_GetCommittedState_spec o key s :
  s.(stateObjects) !! o.(obj_address) = Some o →
  ∃ o' s', obj_GetCommittedState reader o key s = (committed s.(stateObjectsDestruct) o key, s')
    ∧ upd o.(obj_address) (Some o') s s' ∧ obj_eqv s.(stateObjectsDestruct) o' o
    ∧ s'.(journal) = s.(journal) ∧ s'.(stateObjects) !! o.(obj_address) = Some o'.
Proof.
  intros Hl. unfold obj_GetCommittedState.
  set (a := obj_address o) in *.
  set (s0 := match originStorage o !! key with Some v => recordStorageRead a key v s | None => s end).
  assert (H0 : stateObjects s0 = stateObjects s ∧ rest s0 = rest s ∧ journal s0 = journal s).
  { unfold s0. destruct (originStorage o !! key); [apply recordStorageRead_frame|done]. }
  destruct H0 as (O0 & R0 & J0).
  assert (Huse : ∀ v, committed (stateObjectsDestruct s) o key = v →
    ∃ o' s', (v, s0) = (committed (stateObjectsDestruct s) o key, s')
    ∧ upd a (Some o') s s' ∧ obj_eqv (stateObjectsDestruct s) o' o
    ∧ journal s' = journal s ∧ stateObjects s' !! a = Some o').
  { intros v <-. exists o, s0. split_and!; [done| |reflexivity|done|by rewrite O0].
    eapply upd_frame; [|done..]. rewrite <- (peek_live s a o Hl). apply upd_id. }
  assert (Hcache : ∀ v, pendingStorage o !! key = None → originStorage o !! key = None →
    committed (stateObjectsDestruct s) o key = v →
    ∃ o' s', (v, recordStorageRead a key v (modObj a (cacheOrigin key v) s0))
      = (committed (stateObjectsDestruct s) o key, s')
    ∧ upd a (Some o') s s' ∧ obj_eqv (stateObjectsDestruct s) o' o
    ∧ journal s' = journal s ∧ stateObjects s' !! a = Some o').
  { intros v Hp Ho Hc. rewrite Hc. exists (cacheOrigin key v o). eexists.
    destruct (recordStorageRead_frame a key v (modObj a (cacheOrigin key v) s0)) as (O1 & R1 & J1).
    split_and!; [done| |by apply cacheOrigin_eqv|by rewrite J1|rewrite O1].
    - eapply upd_frame; [|done..].
      eapply upd_trans, upd_modObj; [|by rewrite O0].
      eapply upd_frame; [apply upd_id|done..].
    - cbn. rewrite lookup_alter, decide_True by done. by rewrite O0, Hl. }
  pose proof (rest_destruct _ _ R0) as D0.
  destruct (pendingStorage o !! key) as [v|] eqn:Ep.
  { apply Huse. unfold committed. by rewrite Ep. }
  destruct (originStorage o !! key) as [v|] eqn:Eo.
  { apply Huse. unfold committed. by rewrite Ep, Eo. }
  assert (Ec : committed (stateObjectsDestruct s) o key
    = match stateObjectsDestruct s !! a with
      | Some _ => zeroHash
      | None => match rStorage reader a key with Ok v => v | Err _ => zeroHash end end).
  { unfold committed. by rewrite Ep, Eo. }
  rewrite D0. case_bool_decide as Hb.
  - apply Hcache; auto. rewrite Ec. by destruct Hb as [? ->].
  - destruct (stateObjectsDestruct s !! a) eqn:Ed; [exfalso; eauto|].
    destruct (rStorage reader a key) as [v|e] eqn:Er; [apply Hcache; auto; by rewrite Ec|].
    rewrite Ec. exists o. eexists. destruct (setError_frame (ErrStorage e) s0) as (O1 & R1 & J1).
    split_and!; [done| |reflexivity|by rewrite J1|by rewrite O1, O0].
    eapply upd_frame; [|done..]. eapply upd_frame; [|done..].
    rewrite <- (peek_live s a o Hl). apply upd_id.
Qed.

(** The object a setter works on: live, under its own address. *)
Definition live (s : StateDB) (o : stateObject) : Prop :=
  s.(stateObjects) !! o.(obj_address) = Some o.

Lemma live_wf s o : live s o → wf s → obj_wf s.(stateObjectsDestruct) o.(obj_address) o.
Proof. intros Hl Hw. apply Hw. by apply peek_live. Qed.

(** A journalled write to a live object. *)
Lemma good_write o e f g s :
  live s o →
  (∀ t, is_Some (peek t o.(obj_address)) →
     revertEntry e t = derefObject Keccak256Hash reader o.(obj_address) g t) →
  (wf s → obj_eqv s.(stateObjectsDestruct) (g (f o)) o) →
  (wf s → obj_wf s.(stateObjectsDestruct) o.(obj_address) (f o)) →
  good s (modObj o.(obj_address) f (appendEntry e s)).
Proof.
  intros Hl Hr Hg Hf. eapply good_object; [by apply peek_live| |done|done|done|done].
  destruct (upd_modObj _ f (appendEntry e s) o Hl) as [P R]. by constructor.
Qed.

Lemma good_SetBalance o v s : live s o → 0 <= v < two256 → good s (obj_SetBalance o v s).
Proof.
  intros Hl Hv. apply good_write with (g := setBalance o.(data).(Balance)); try done.
  - intros Hw. destruct o as [? ? [] ? ? ? ? ? ? ? ?]. reflexivity.
  - intros Hw. by apply obj_wf_set; [apply live_wf|..].
Qed.

Lemma good_SetNonce o v s : live s o → good s (obj_SetNonce o v s).
Proof.
  intros Hl. apply good_write with (g := setNonce o.(data).(Nonce)); try done.
  - intros Hw. destruct o as [? ? [] ? ? ? ? ? ? ? ?]. reflexivity.
  - intros Hw. pose proof (live_wf _ _ Hl Hw). apply obj_wf_set; [done|apply H|done].
Qed.

(** The cached code is the code: it is loaded, or there is none. *)
Definition codeLoaded (o : stateObject) : Prop :=
  o.(code) ≠ [] ∨ o.(data).(CodeHash) = EmptyCodeHash.

Lemma codeOf_setCode c o : codeOf (setCode (Keccak256Hash c) c o) = c.
Proof.
  unfold codeOf; cbn. destruct c; [|done]. unfold StateDB.EmptyCodeHash. by rewrite Z.eqb_refl.
Qed.

Lemma codeOf_loaded o : codeLoaded o → codeOf o = o.(code).
Proof.
  intros [H|H]; unfold codeOf; destruct (code o); try done. by rewrite H, Z.eqb_refl.
Qed.

Lemma good_SetCode o c s :
  live s o → codeLoaded o → good s (obj_SetCode o (Keccak256Hash c) c s).
Proof.
  intros Hl Hc. apply good_write with (g := setCode (Keccak256Hash o.(code)) o.(code)); try done.
  - intros Hw. pose proof (live_wf _ _ Hl Hw) as [].
    assert (Hh : Keccak256Hash (code o) = CodeHash (data o)).
    { destruct Hc as [Hc|Hc].
      - rewrite <- ow_code0; rewrite codeOf_loaded by (by left); done.
      - rewrite codeOf_loaded in ow_code0 by (by right).
        destruct (decide (code o = [])) as [->|Hn]; [by rewrite Hc|auto]. }
    constructor; try done; cbn.
    + rewrite Hh. by destruct (data o).
    + by rewrite codeOf_setCode, codeOf_loaded.
  - intros Hw. pose proof (live_wf _ _ Hl Hw) as []. constructor; try done.
    by rewrite codeOf_setCode.
Qed.

Lemma committed_setState d k v w o k' : committed d (setState k v w o) k' = committed d o k'.
Proof. unfold setState. by case_if. Qed.

Lemma obj_eqv_dirty d o o' :
  o' = set_dirtyStorage o.(dirtyStorage) o' → set_dirtyStorage ∅ o' = set_dirtyStorage ∅ o →
  obj_eqv d o' o.
Proof. destruct o, o'. intros [= <-] [= ]. subst. reflexivity. Qed.

Lemma setState_undo d a o k v :
  let w := committed d o k in
  let prev := default w (o.(dirtyStorage) !! k) in
  obj_wf d a o → obj_eqv d (setState k prev w (setState k v w o)) o.
Proof.
  intros w prev []. apply obj_eqv_dirty; [|unfold setState; by repeat case_if].
  assert (Hd : dirtyStorage (setState k prev w (setState k v w o)) = dirtyStorage o).
  { apply map_eq. intros k'. unfold setState, prev.
    destruct (dirtyStorage o !! k) as [p|] eqn:Ep; cbn.
    - specialize (ow_dirty0 _ _ Ep). fold w in ow_dirty0.
      repeat case_if; try done; cbn; rewrite !lookup_insert; case_decide; subst; try done;
        by rewrite ?lookup_delete_ne, ?lookup_insert_ne.
    - rewrite Z.eqb_refl. case_if; cbn; rewrite !lookup_delete; case_decide; subst; try done;
        by rewrite ?lookup_delete_ne, ?lookup_insert_ne. }
  rewrite <- Hd. unfold setState. by repeat case_if.
Qed.

Lemma setState_wf d a o k v : obj_wf d a o → obj_wf d a (setState k v (committed d o k) o).
Proof.
  intros []. constructor.
  - unfold setState. by case_if.
  - unfold setState. by case_if.
  - intros k' v'. rewrite committed_setState. unfold setState. case_if; cbn.
    + rewrite lookup_delete. case_decide; [done|auto].
    + rewrite lookup_insert. case_decide; subst; [by intros [= <-]|auto].
  - unfold setState. by case_if.
Qed.

Lemma good_SetState o k v s :
  live s o → good s (obj_SetState reader o k v s).
Proof.
  intros Hl. unfold obj_SetState, obj_getState.
  destruct (obj_GetCommittedState_spec o k s Hl) as (o' & s1 & E & Hu & Ho & J & Hl'). rewrite E.
  assert (G1 : good s s1) by (eapply good_cache; [done|by apply peek_live|done|done]).
  set (w := committed (stateObjectsDestruct s) o k) in *.
  transitivity s1; [done|].
  replace (match dirtyStorage o !! k with Some v0 => (v0, w, s1) | None => (w, w, s1) end)
    with (default w (dirtyStorage o !! k), w, s1) by (by destruct (dirtyStorage o !! k)).
  case_if; [reflexivity|].
  transitivity (recordStorageWrite (obj_address o) k v s1); [by apply good_frame|].
  destruct Ho. assert (Hw : w = committed (stateObjectsDestruct s1) o' k).
  { unfold w. by rewrite (rest_destruct _ _ (upd_rest _ _ _ _ Hu)), oe_committed0. }
  rewrite <- oe_address0, <- oe_dirty0, Hw.
  set (s2 := recordStorageWrite (obj_address o') k v s1).
  assert (Hl2 : live s2 o') by (unfold live; by rewrite oe_address0).
  change (stateObjectsDestruct s1) with (stateObjectsDestruct s2).
  eapply good_write; [done|intros t _; reflexivity| |]; intros Hwf.
  - eapply setState_undo. by apply live_wf.
  - by apply setState_wf, live_wf.
Qed.

Lemma newObject_wf d a : obj_wf d a (newObject a None).
Proof.
  constructor; try done. unfold codeOf; cbn. unfold StateDB.EmptyCodeHash. by rewrite Z.eqb_refl.
Qed.

Lemma peek_None s a : peek s a = None → s.(stateObjects) !! a = None ∧ load s.(stateObjectsDestruct) a = None.
Proof. unfold peek. by destruct (stateObjects s !! a). Qed.

Lemma good_createObject a s :
  peek s a = None → good s (createObject Keccak256Hash a s).2.
Proof.
  intros Hn. unfold createObject. cbn.
  transitivity (recordWrite a s); [by apply good_frame|].
  set (s1 := recordWrite a s). set (o := newObject a None).
  set (s2 := setStateObject o (appendEntry (createObjectChange a) s1)).
  assert (Hu : upd a (Some o) s1 s2).
  { constructor; [|done]. intros b. unfold peek at 1; cbn. rewrite lookup_insert.
    by case_decide. }
  intros Hw Hd. split_and!; [|eapply wf_upd; [done|apply newObject_wf|done]|by eapply dirties_wf_append].
  exists [createObjectChange a]. eapply undoable_entry; [done..| |done].
  assert (Hu' := upd_trans _ _ _ _ _ _ Hu (upd_delete a s2)).
  intros b. rewrite (upd_peek _ _ _ _ Hu'). case_decide; subst; [|reflexivity].
  cbn. apply (peek_None s b) in Hn as Hn'. destruct Hn' as [_ ->].
  change (peek s1 b) with (peek s b). rewrite Hn. constructor.
Qed.

Lemma getOrNewStateObject_spec a s :
  wf s →
  ∃ o s', getOrNewStateObject Keccak256Hash reader a s = (o, s') ∧ good s s'
    ∧ o = default (newObject a None) (peek s a) ∧ o.(obj_address) = a ∧ live s' o.
Proof.
  intros Hw. unfold getOrNewStateObject.
  destruct (getStateObject_spec a s) as (s' & E & Hu & J & Hl). rewrite E.
  pose proof (good_upd _ _ _ Hu J) as G.
  destruct (peek s a) as [o|] eqn:Ho.
  - exists o, s'. pose proof (ow_address _ _ _ (wf_objects _ Hw _ _ Ho)) as Ha.
    split_and!; try done. unfold live. by rewrite Ha.
  - destruct (createObject Keccak256Hash a s') as [o s2] eqn:Ec.
    exists o, s2. injection Ec as <- <-. split_and!; try done.
    + transitivity s'; [done|]. apply good_createObject.
      by rewrite (upd_peek _ _ _ _ Hu), decide_True.
    + unfold live. cbn. by rewrite lookup_insert, decide_True.
Qed.

Lemma good_onObject a f s :
  (∀ o s', o = default (newObject a None) (peek s a) → o.(obj_address) = a → live s' o → wf s' →
    good s' (f o s')) →
  good s (onObject Keccak256Hash reader a f s).
Proof.
  intros Hf Hw Hd. unfold onObject.
  assert (G0 : good s (recordWrite a s)) by (by apply good_frame).
  destruct (G0 Hw Hd) as (_ & Hw1 & Hd1).
  destruct (getOrNewStateObject_spec a (recordWrite a s) Hw1) as (o & s' & E & G & Ho & Ha & Hl).
  rewrite E. destruct (G Hw1 Hd1) as (_ & Hw2 & _).
  assert (Hg : good s (f o s')); [|by apply Hg]. transitivity (recordWrite a s); [done|].
  transitivity s'; [done|]. by apply Hf.
Qed.

Lemma u256_range x y : 0 <= u256_add x y < two256 ∧ 0 <= u256_sub x y < two256.
Proof. rewrite u256_add_spec, u256_sub_spec. split; apply Z.mod_pos_bound; done. Qed.

Lemma good_touch a s : good s (journal_touchChange a s).
Proof.
  unfold journal_touchChange.
  assert (G : good s (appendEntry (touchChange a) s)).
  { eapply good_rest; [done..|intros _; cbn; split; [done|split; done]|].
    intros Hw. by destruct Hw; constructor. }
  case_if; [|done]. transitivity (appendEntry (touchChange a) s); [done|]. subst a.
  apply good_eqv; [|done|].
  - apply eqv_set_journal. intros b Hb. cbn. unfold dirty_inc. by rewrite !lookup_insert_ne.
  - intros Hd. exact (dirty_inc_positive ripemd _ Hd).
Qed.

Lemma good_AddBalance a v s : good s (AddBalance Keccak256Hash reader a v s).
Proof.
  apply good_onObject. intros o s' _ _ Hl _. unfold obj_AddBalance. case_if.
  - case_if; [apply good_touch|reflexivity].
  - apply good_SetBalance; [done|apply u256_range; exact 0].
Qed.

Lemma good_SubBalance a v s : good s (SubBalance Keccak256Hash reader a v s).
Proof.
  apply good_onObject. intros o s' _ _ Hl _. case_if; [reflexivity|].
  apply good_SetBalance; [done|apply u256_range].
Qed.

Lemma good_SelfDestruct a s : good s (SelfDestruct Keccak256Hash reader a s).
Proof.
  unfold SelfDestruct. set (s0 := recordWrite a s). transitivity s0; [by apply good_frame|].
  destruct (getStateObject_spec a s0) as (s' & E & Hu & J & Hl). rewrite E.
  assert (G : good s0 s') by (by eapply good_upd).
  destruct (peek s0 a) as [o|] eqn:Ho; [|done]. case_if; [done|]. transitivity s'; [done|].
  apply good_object with (a := a) (o := o) (e := selfDestructChange a) (f := markSelfdestructed)
    (g := set_selfDestructed false); try done.
  - by apply peek_live.
  - destruct (upd_modObj a markSelfdestructed (appendEntry (selfDestructChange a) s') o Hl) as [P R].
    by constructor.
  - intros t [ot Hot]. destruct (getStateObject_spec a t) as (t' & Et & _).
    cbn. unfold derefObject. by rewrite Et, Hot.
  - intros Hw. apply peek_live, (wf_objects _ Hw) in Hl. by destruct Hl; constructor.
Qed.

Lemma good_CreateContract a s s' : CreateContract Keccak256Hash reader a s = Some s' → good s s'.
Proof.
  unfold CreateContract. destruct (getStateObject_spec a s) as (s1 & E & Hu & J & Hl). rewrite E.
  intros (o & Ho & [= <-])%bind_Some. rewrite Ho in *.
  transitivity s1; [eapply good_upd; [by rewrite Ho|done]|]. case_if; [reflexivity|].
  apply good_object with (a := a) (o := o) (e := createContractChange a) (f := set_newContract true)
    (g := set_newContract false); try done.
  - by apply peek_live.
  - destruct (upd_modObj a (set_newContract true) s1 o Hl) as [P R]. by constructor.
  - intros Hw. apply peek_live, (wf_objects _ Hw) in Hl. by destruct Hl; constructor.
Qed.

Lemma good_SetTransientState a k v s : good s (SetTransientState a k v s).
Proof.
  unfold SetTransientState. case_if; [reflexivity|].
  set (prev := GetTransientState a k s) in *.
  eapply good_rest; [done..|intros Hw|intros []; constructor; try done].
  - split; [done|]. split; [done|]. unfold rest; cbn. f_equal. apply map_eq. intros [b k'].
    unfold transient_Set, prev, GetTransientState, transient_Get in *.
    destruct (transientStorage s !! (a, k)) as [p|] eqn:Ep; cbn in *.
    + pose proof (wf_transient _ Hw _ _ Ep). repeat case_if; subst; try done;
        rewrite ?lookup_insert, ?lookup_delete; case_decide; simplify_eq; try done;
        by rewrite ?lookup_insert_ne, ?lookup_delete_ne.
    + case_if; rewrite ?lookup_insert, ?lookup_delete; case_decide; simplify_eq; try done;
        by rewrite ?lookup_insert_ne, ?lookup_delete_ne.
  - cbn. unfold transient_Set. intros [b k'] w. case_if; rewrite ?lookup_delete, ?lookup_insert;
      case_decide; simplify_eq; eauto.
    by intros [= <-].
Qed.

Lemma good_setRefund v s :
  is_u64 v → good s (set_refund v (appendEntry (refundChange s.(refund)) s)).
Proof.
  intros Hv. eapply good_rest; [done..|intros Hw; by split_and!|].
  intros []. by constructor.
Qed.

Lemma revert_addLog h l log s :
  s.(logs) !! h = Some (l ++ [log]) →
  revertEntry (addLogChange h) s
  = Some (set_logs (match l with [] => delete h s.(logs) | _ => <[h := l]> s.(logs) end)
      (set_logSize (s.(logSize) -₆₄ 1) s)).
Proof.
  intros E. unfold StateDB.revertEntry. rewrite E. cbn [default from_option id].
  assert (Ht : take (length (l ++ [log]) - 1) (l ++ [log]) = l).
  { rewrite length_app, Nat.add_sub. apply take_app_length. }
  rewrite Ht. by destruct l as [|x [|y l]].
Qed.

Lemma good_AddLog a topics d s : good s (AddLog a topics d s).
Proof.
  unfold AddLog. set (h := thash s). set (log := Build_Log _ _ _ _ _ _).
  eapply good_rest; [done..|intros Hw|intros []; constructor; try done].
  - split; [eapply revert_addLog; cbn; by rewrite lookup_insert, decide_True|].
    split; [done|]. unfold rest; cbn.
    assert (Hu : (u64 (logSize s + 1) -₆₄ 1) = logSize s).
    { unfold u64. rewrite Zminus_mod_idemp_l, Z.add_simpl_r. apply u64_small, Hw. }
    rewrite Hu. do 3 f_equal.
    destruct (logs s !! h) as [l|] eqn:El; cbn.
    + pose proof (wf_logs _ Hw _ _ El). destruct l; [done|]. by rewrite insert_insert_eq, insert_id.
    + by rewrite delete_insert_id.
  - cbn. intros h' l'. rewrite lookup_insert. case_decide; [|apply wf_logs0].
    intros [= <-]. by destruct (default [] (logs s !! h)).
  - cbn. apply u64_range.
Qed.

(** *** Access lists *)

Lemma slotsAt_of_nat al (n : nat) : slotsAt al (Z.of_nat n) = al.(slots) !! n.
Proof. unfold slotsAt. case_if; [lia|]. by rewrite Nat2Z.id. Qed.

Lemma DeleteSlot_fresh al a slot :
  al.(addresses) !! a = Some (-1) →
  DeleteSlot (mkAccessList (<[a := Z.of_nat (length al.(slots))]> al.(addresses))
    (al.(slots) ++ [{[slot]}])) a slot = Some al.
Proof.
  intros Ha. unfold DeleteSlot. cbn. rewrite lookup_insert, decide_True by done. cbn.
  rewrite slotsAt_of_nat. cbn. rewrite list_lookup_middle by done. cbn.
  rewrite bool_decide_eq_true_2 by set_solver. rewrite Nat2Z.id, take_app_length.
  rewrite insert_insert_eq, insert_id by done. by destruct al.
Qed.

Lemma DeleteSlot_existing al a slot idx set :
  al.(addresses) !! a = Some idx → slotsAt al idx = Some set → slot ∉ set → set ≠ ∅ →
  DeleteSlot (mkAccessList al.(addresses) (<[Z.to_nat idx := {[slot]} ∪ set]> al.(slots))) a slot
  = Some al.
Proof.
  intros Ha Hs Hn Hne. unfold DeleteSlot. cbn. rewrite Ha. cbn.
  unfold slotsAt in *. case_if; [done|]. cbn.
  rewrite list_lookup_insert_eq by (by eapply lookup_lt_Some). cbn.
  replace (({[slot]} ∪ set) ∖ {[slot]}) with set by set_solver.
  rewrite bool_decide_eq_false_2 by done. rewrite list_insert_insert_eq, list_insert_id by done.
  by destruct al.
Qed.

Lemma al_wf_fresh al a slot :
  al_wf al → al_wf (mkAccessList (<[a := Z.of_nat (length al.(slots))]> al.(addresses))
    (al.(slots) ++ [{[slot]}])).
Proof.
  intros []. constructor; cbn.
  - intros b i. rewrite lookup_insert. case_decide; subst.
    + intros [= <-]. right. split; [lia|]. rewrite Nat2Z.id. eexists. by apply list_lookup_middle.
    + intros Hi. destruct (aw_index0 b i Hi) as [?|[? [set ?]]]; [by left|right].
      split; [done|]. exists set. by apply lookup_app_l_Some.
  - intros set [H|H%list_elem_of_singleton]%elem_of_app; [auto|]. set_solver.
Qed.

Lemma al_wf_existing al idx slot set :
  al_wf al → al_wf (mkAccessList al.(addresses) (<[Z.to_nat idx := {[slot]} ∪ set]> al.(slots))).
Proof.
  intros []. constructor; cbn.
  - intros b i Hi. destruct (aw_index0 b i Hi) as [?|[? Hs]]; [by left|right]. split; [done|].
    apply lookup_lt_is_Some. rewrite length_insert. by apply lookup_lt_is_Some.
  - intros st Hst. apply list_elem_of_lookup in Hst as [i Hi].
    apply list_lookup_insert_Some in Hi as [(_ & <- & _)|(_ & Hi)]; [set_solver|].
    apply aw_slots0. by eapply list_elem_of_lookup_2.
Qed.

Lemma wf_set_accessList al e s : wf s → al_wf al → wf (appendEntry e (set_accessList al s)).
Proof. intros [] Hal. by constructor. Qed.

(** The entry records what the access list gained. *)
Lemma good_accessList e al s :
  (wf s → al_wf al ∧ revertEntry e (appendEntry e (set_accessList al s))
    = Some (set_accessList s.(accessList) (appendEntry e (set_accessList al s)))) →
  good s (appendEntry e (set_accessList al s)).
Proof.
  intros H. eapply good_rest; [done..|intros Hw|intros Hw; by apply wf_set_accessList, H].
  split; [by apply H|done].
Qed.

Lemma good_AddAddress a s : good s (AddAddressToAccessList a s).
Proof.
  unfold AddAddressToAccessList, AddAddress.
  destruct (addresses (accessList s) !! a) eqn:Ea; [by apply good_frame; destruct s|].
  apply good_accessList. intros [Ho [] ? ? ? ?]. split.
  - constructor; cbn; [|done]. intros b i. rewrite lookup_insert. case_decide; [|apply aw_index0].
    intros [= <-]. by left.
  - cbn. unfold DeleteAddress; cbn. rewrite delete_insert_id by done. by destruct (accessList s).
Qed.

Lemma good_AddSlot a slot s s' : AddSlotToAccessList a slot s = Some s' → good s s'.
Proof.
  assert (Hfresh : ∀ s, addresses (accessList s) !! a = Some (-1) →
    good s (appendEntry (accessListAddSlotChange a slot) (set_accessList (mkAccessList
      (<[a := Z.of_nat (length (slots (accessList s)))]> (addresses (accessList s)))
      (slots (accessList s) ++ [{[slot]}])) s))).
  { clear s s'. intros s Ha. apply good_accessList. intros Hw. split.
    - by apply al_wf_fresh, Hw.
    - cbn [StateDB.revertEntry accessList set_accessList appendEntry set_journal].
      by rewrite DeleteSlot_fresh. }
  unfold AddSlotToAccessList, AddSlot.
  destruct (addresses (accessList s) !! a) as [idx|] eqn:Ea; cbn.
  - case_if; cbn.
    { intros [= <-]. apply Hfresh. by rewrite Ea; f_equal. }
    destruct (slotsAt (accessList s) idx) as [set|] eqn:Es; cbn; [|done].
    case_bool_decide; cbn; intros [= <-]; [by apply good_frame; destruct s|].
    apply good_accessList. intros Hw. split; [by apply al_wf_existing, Hw|].
    cbn [StateDB.revertEntry accessList set_accessList appendEntry set_journal].
    erewrite DeleteSlot_existing; try done. apply (wf_accessList _ Hw).
    unfold slotsAt in Es. case_if_in Es; [done|]. by eapply list_elem_of_lookup_2.
  - intros [= <-]. pose proof (good_AddAddress a s) as G.
    unfold AddAddressToAccessList, AddAddress in G. rewrite Ea in G.
    set (s1 := appendEntry _ _) in G. transitivity s1; [done|].
    specialize (Hfresh s1). cbn in Hfresh. rewrite insert_insert_eq in Hfresh.
    rewrite lookup_insert, decide_True in Hfresh by done. by apply Hfresh.
Qed.

(** *** Reads *)

Lemma good_obj_Code o s : live s o → good s (obj_Code Keccak256Hash reader o s).2.
Proof.
  intros Hl. unfold obj_Code. case_if; [reflexivity|]. case_if; [reflexivity|]. cbn.
  set (c := rCode reader (obj_address o) (CodeHash (data o))).
  set (s1 := if bool_decide (c = []) then _ else s).
  assert (H1 : stateObjects s1 = stateObjects s ∧ rest s1 = rest s ∧ journal s1 = journal s).
  { unfold s1. case_bool_decide; [apply setError_frame|done]. }
  destruct H1 as (O1 & R1 & J1). transitivity s1; [by apply good_frame|].
  eapply (good_cache (obj_address o) o (set_code c o)).
  - apply (upd_modObj _ (set_code c)). by rewrite O1.
  - apply peek_live. by rewrite O1.
  - constructor; try done. unfold codeOf. cbn. rewrite Heqb. apply Z.eqb_neq in Heqb0. rewrite Heqb0.
    fold c. by destruct c.
  - done.
Qed.

(** A getter only loads what it reads. *)
Lemma good_withObject {A} a (dflt : A) f s :
  (∀ o s', o.(obj_address) = a → live s' o → good s' (f o s').2) →
  good s (withObject Keccak256Hash reader a dflt f s).2.
Proof.
  intros Hf Hw Hd. unfold withObject.
  destruct (getStateObject_spec a s) as (s' & E & Hu & J & Hl). rewrite E.
  assert (G : good s s') by (by eapply good_upd).
  destruct (peek s a) as [o|] eqn:Ho; [|by apply G].
  pose proof (ow_address _ _ _ (wf_objects _ Hw _ _ Ho)) as Ha.
  assert (Hg : good s (f o s').2); [|by apply Hg].
  transitivity s'; [done|]. apply Hf; [done|]. unfold live. by rewrite Ha.
Qed.

Lemma good_GetCode a s : good s (GetCode Keccak256Hash reader a s).2.
Proof. apply good_withObject. intros o s' _ Hl. by apply good_obj_Code. Qed.

Lemma good_GetState a k s : good s (GetState Keccak256Hash reader a k s).2.
Proof.
  apply good_withObject. intros o s' _ Hl. unfold obj_GetState.
  destruct (dirtyStorage o !! k); [reflexivity|].
  destruct (obj_GetCommittedState_spec o k s' Hl) as (o' & s1 & -> & Hu & Ho & J & _).
  eapply good_cache; [done|by apply peek_live|done..].
Qed.

Lemma good_AddPreimage h c s : good s (AddPreimage h c s).
Proof. unfold AddPreimage. destruct (_ !! _); [reflexivity|by apply good_frame]. Qed.

(** ** Revisions *)

(** Ids grow strictly and journal indices weakly along the stack. *)
Definition revs_sorted (revs : list revision) : Prop :=
  ∀ i j ri rj, (i < j)%nat → revs !! i = Some ri → revs !! j = Some rj →
    ri.(rev_id) < rj.(rev_id) ∧ (ri.(journalIndex) <= rj.(journalIndex))%nat.

(** The bisection of [sort.Search]. *)
Lemma search_loop_spec n fuel f i j :
  (j - i < fuel)%nat → (i <= j <= n)%nat →
  (∀ x y, (x <= y < n)%nat → f x = true → f y = true) →
  let r := search_loop fuel f i j in
  (i <= r <= j)%nat ∧ (∀ x, (i <= x < r)%nat → f x = false) ∧ (∀ x, (r <= x < j)%nat → f x = true).
Proof.
  intros Hfuel Hij Hmono. revert i j Hfuel Hij. induction fuel as [|fuel IH]; intros i j Hfuel Hij; [lia|].
  cbn [search_loop]. destruct (Nat.ltb_spec i j) as [Hlt|Hge]; [|split_and!; intros; lia].
  pose proof (Nat.div2_div (i + j)) as Hd2.
  assert (Hh : (i <= Nat.div2 (i + j) < j)%nat).
  { rewrite Hd2. pose proof (Nat.div_mod_eq (i + j) 2). pose proof (Nat.mod_upper_bound (i + j) 2). lia. }
  set (h := Nat.div2 (i + j)) in *. destruct (f h) eqn:Efh.
  - destruct (IH i h ltac:(lia) ltac:(lia)) as (R1 & R2 & R3). split_and!; [lia..|done|].
    intros x Hx. destruct (decide (x < h)%nat); [apply R3; lia|]. apply (Hmono h); [lia|done].
  - destruct (IH (S h) j ltac:(lia) ltac:(lia)) as (R1 & R2 & R3). split_and!; [lia..| |done].
    intros x Hx. destruct (decide (x <= h)%nat); [|apply R2; lia].
    destruct (f x) eqn:Efx; [|done]. rewrite (Hmono x h) in Efh by (lia || done). done.
Qed.

(** The search of [revertToSnapshot] finds the revision with the given id. *)
Lemma find_revision revs i r :
  revs_sorted revs → revs !! i = Some r →
  sortSearch (length revs)
    (λ i, match revs !! i with Some r' => r.(rev_id) <=? r'.(rev_id) | None => false end) = i.
Proof.
  intros Hs Hi. set (f := λ i, _).
  assert (Hf : ∀ j rj, revs !! j = Some rj → f j = true ↔ (i <= j)%nat).
  { intros j rj Hj. unfold f. rewrite Hj, Z.leb_le. destruct (Nat.lt_trichotomy i j) as [H|[->|H]].
    - destruct (Hs i j r rj) as [? _]; [done..|]. split; [lia|]. intros. lia.
    - simplify_eq. split; [lia|]. intros. lia.
    - destruct (Hs j i rj r) as [? _]; [done..|]. split; intros; lia. }
  apply lookup_lt_Some in Hi as Hlt.
  destruct (search_loop_spec (length revs) (S (length revs)) f 0 (length revs)) as (R1 & R2 & R3);
    [lia|lia| |].
  { intros x y Hxy Hx. destruct (lookup_lt_is_Some_2 revs x) as [rx Ex]; [lia|].
    destruct (lookup_lt_is_Some_2 revs y) as [ry Ey]; [lia|].
    apply (Hf _ _ Ex) in Hx. apply (Hf _ _ Ey). lia. }
  unfold sortSearch. set (res := search_loop _ _ _ _) in *. apply Nat.le_antisymm.
  - destruct (decide (res <= i)%nat) as [|Hn]; [done|].
    specialize (R2 i ltac:(lia)). rewrite (proj2 (Hf i r Hi) ltac:(lia)) in R2. done.
  - destruct (decide (res < length revs)%nat) as [Hn|]; [|lia].
    destruct (lookup_lt_is_Some_2 revs res Hn) as [rr Er]. apply (Hf _ _ Er), R3. lia.
Qed.

(** Every revision on the stack can be undone, to a well-formed state. *)
Record coherent (s : StateDB) : Prop := {
  co_wf : wf s;
  co_dirties : dirties_wf s;
  co_sorted : revs_sorted s.(journal).(validRevisions);
  co_bound r : r ∈ s.(journal).(validRevisions) →
    r.(rev_id) < s.(journal).(nextRevisionId) ∧ (r.(journalIndex) <= length s.(journal).(entries))%nat;
  co_undo r : r ∈ s.(journal).(validRevisions) →
    ∃ u, revertEntries (drop r.(journalIndex) s.(journal).(entries)) s = Some u
      ∧ wf u ∧ dirties_wf u;
}.

(** What can be undone to [b] before an undoable step can be undone after it. *)
Lemma undo_through es n s s' b :
  undoable es s s' → (n <= length s.(journal).(entries))%nat →
  (∃ u, revertEntries (drop n s.(journal).(entries)) s = Some u ∧ u ≈ b) →
  ∃ u, revertEntries (drop n s'.(journal).(entries)) s' = Some u ∧ u ≈ b.
Proof.
  intros [N _ _ (w & Hw & Ew)] Hn (u & Hu & Eu).
  rewrite N, drop_app_le, revertEntries_app, Hw by done. cbn.
  destruct (λ E, revertEntries_proper _ s w u E Hu) as (u' & Hu' & Eu'); [by symmetry|].
  exists u'. split; [done|]. by rewrite <- Eu'.
Qed.

(** The same after undoing a suffix of the journal. *)
Lemma undo_below n m es s s1 s2 b :
  (n <= m)%nat → (m <= length es)%nat →
  revertEntries (drop m es) s = Some s1 → s2 ≈ s1 →
  (∃ u, revertEntries (drop n es) s = Some u ∧ u ≈ b) →
  ∃ u, revertEntries (drop n (take m es)) s2 = Some u ∧ u ≈ b.
Proof.
  intros Hnm Hm Hs1 E (u & Hu & Eu).
  rewrite <- (take_drop m es), drop_app_le, revertEntries_app, Hs1 in Hu by (rewrite length_take; lia).
  cbn in Hu. destruct (λ E, revertEntries_proper _ s1 s2 u E Hu) as (u' & Hu' & Eu'); [by symmetry|].
  exists u'. split; [done|]. by rewrite <- Eu'.
Qed.

Lemma coherent_good s s' : good s s' → coherent s → coherent s'.
Proof.
  intros G []. destruct (G co_wf0 co_dirties0) as ([es Hes] & Hw & Hd).
  pose proof Hes as [N R X _]. constructor; try done; rewrite ?R, ?X; try done.
  - intros r Hr. destruct (co_bound0 r Hr). rewrite N, length_app. split; [done|lia].
  - intros r Hr. destruct (co_undo0 r Hr) as (u & Hu & Hwu & Hdu).
    destruct (undo_through es (journalIndex r) s s' u) as (u' & Hu' & Eu'); [done|by apply co_bound0| |].
    { exists u. split; [done|reflexivity]. }
    exists u'. split_and!; [done|by eapply wf_eqv; [symmetry|]|by eapply dirties_wf_eqv; [symmetry|]].
Qed.

Lemma eqv_Snapshot s : (Snapshot s).2 ≈ s.
Proof. apply eqv_set_journal. done. Qed.

Lemma coherent_Snapshot s : coherent s → coherent (Snapshot s).2.
Proof.
  intros []. pose proof (eqv_Snapshot s) as E. symmetry in E.
  constructor; [by eapply wf_eqv|by eapply dirties_wf_eqv|..]; cbn.
  - intros i j ri rj Hij Hi Hj. apply lookup_app_Some in Hj as [Hj|[Hl Hj]].
    + apply (co_sorted0 i j); [done| |done]. rewrite lookup_app_l in Hi; [done|].
      apply lookup_lt_Some in Hj. lia.
    + apply list_lookup_singleton_Some in Hj as [Hj0 <-]. rewrite lookup_app_l in Hi by lia.
      apply list_elem_of_lookup_2, co_bound0 in Hi. cbn. lia.
  - intros r [Hr|Hr%list_elem_of_singleton]%elem_of_app.
    + apply co_bound0 in Hr. lia.
    + subst r. cbn. lia.
  - intros r [Hr|Hr%list_elem_of_singleton]%elem_of_app.
    + destruct (co_undo0 r Hr) as (u & Hu & Hwu & Hdu).
      destruct (revertEntries_proper _ s (Snapshot s).2 u E Hu) as (u' & Hu' & Eu').
      exists u'. split_and!; [done|by eapply wf_eqv|by eapply dirties_wf_eqv].
    + subst r. cbn. rewrite drop_all. eexists. split_and!; [done|by eapply wf_eqv|by eapply dirties_wf_eqv].
Qed.

(** What [RevertToSnapshot] does with a valid revision. *)
Lemma RevertToSnapshot_valid i r s :
  coherent s → s.(journal).(validRevisions) !! i = Some r →
  ∃ u s', revertEntries (drop r.(journalIndex) s.(journal).(entries)) s = Some u
    ∧ RevertToSnapshot Keccak256Hash reader r.(rev_id) s = Some s' ∧ s' ≈ u
    ∧ s'.(journal).(entries) = take r.(journalIndex) s.(journal).(entries)
    ∧ s'.(journal).(validRevisions) = take i s.(journal).(validRevisions)
    ∧ s'.(journal).(nextRevisionId) = s.(journal).(nextRevisionId)
    ∧ wf s' ∧ dirties_wf s'.
Proof.
  intros [] Hi. destruct (co_undo0 r) as (u & Hu & Hwu & Hdu); [by eapply list_elem_of_lookup_2|].
  destruct (revertEntries_journal _ _ _ Hu) as (N & R & X).
  unfold RevertToSnapshot, journal_revert. rewrite (find_revision _ i r) by done. rewrite Hi. cbn.
  rewrite Z.eqb_refl, Hu. cbn. exists u. eexists. split; [done|]. split; [done|].
  set (s' := set_journal _ _). assert (E : s' ≈ u).
  { etrans; apply eqv_set_journal; done. }
  split_and!; cbn; rewrite ?N, ?R, ?X; try done.
  - by rewrite take_take, Nat.min_id.
  - by eapply wf_eqv; [symmetry|].
Qed.

(** ** Executions *)

(** The calls a transaction makes between a snapshot and its revert, reads,
    nested snapshots and nested reverts included. *)
Inductive Op :=
| OpAddBalance (a : address) (v : Z)
| OpSubBalance (a : address) (v : Z)
| OpSetBalance (a : address) (v : Z)
| OpSetNonce (a : address) (n : Z)
| OpSetCode (a : address) (c : bytes)
| OpSetState (a : address) (k v : hash)
| OpSelfDestruct (a : address)
| OpCreateAccount (a : address)
| OpCreateContract (a : address)
| OpSetTransientState (a : address) (k v : hash)
| OpAddRefund (gas : Z)
| OpSubRefund (gas : Z)
| OpAddLog (a : address) (topics : list hash) (d : bytes)
| OpAddPreimage (h : hash) (c : bytes)
| OpAddAddress (a : address)
| OpAddSlot (a : address) (slot : hash)
| OpTouch (a : address)
| OpGetCode (a : address)
| OpGetState (a : address) (k : hash)
| OpSnapshot
| OpRevert (id : Z).

Definition exec (op : Op) (s : StateDB) : option StateDB :=
  match op with
  | OpAddBalance a v => Some (AddBalance Keccak256Hash reader a v s)
  | OpSubBalance a v => Some (SubBalance Keccak256Hash reader a v s)
  | OpSetBalance a v => Some (SetBalance Keccak256Hash reader a v s)
  | OpSetNonce a n => Some (SetNonce Keccak256Hash reader a n s)
  | OpSetCode a c => Some (SetCode Keccak256Hash reader a c s)
  | OpSetState a k v => Some (SetState Keccak256Hash reader a k v s)
  | OpSelfDestruct a => Some (SelfDestruct Keccak256Hash reader a s)
  | OpCreateAccount a => Some (CreateAccount Keccak256Hash a s)
  | OpCreateContract a => CreateContract Keccak256Hash reader a s
  | OpSetTransientState a k v => Some (SetTransientState a k v s)
  | OpAddRefund gas => Some (AddRefund gas s)
  | OpSubRefund gas => SubRefund gas s
  | OpAddLog a topics d => Some (AddLog a topics d s)
  | OpAddPreimage h c => Some (AddPreimage h c s)
  | OpAddAddress a => Some (AddAddressToAccessList a s)
  | OpAddSlot a slot => AddSlotToAccessList a slot s
  | OpTouch a => Some (Touch Keccak256Hash reader a s)
  | OpGetCode a => Some (GetCode Keccak256Hash reader a s).2
  | OpGetState a k => Some (GetState Keccak256Hash reader a k s).2
  | OpSnapshot => Some (Snapshot s).2
  | OpRevert id => RevertToSnapshot Keccak256Hash reader id s
  end.

(** What the callers guarantee: [CreateAccount] only where there is no account,
    [SetCode] only after the previous code was read, and balances that are
    256-bit words. *)
Definition op_ok (op : Op) (s : StateDB) : Prop :=
  match op with
  | OpSetBalance _ v => 0 <= v < two256
  | OpCreateAccount a => peek s a = None
  | OpSetCode a _ => ∀ o, peek s a = Some o → codeLoaded o
  | _ => True
  end.

Inductive steps : StateDB → list Op → StateDB → Prop :=
| steps_nil s : steps s [] s
| steps_cons s op s' ops s'' :
    op_ok op s → exec op s = Some s' → steps s' ops s'' → steps s (op :: ops) s''.

(** [steps] by evaluation. *)
Definition op_okb (op : Op) (s : StateDB) : bool :=
  match op with
  | OpSetBalance _ v => (0 <=? v) && (v <? two256)
  | OpCreateAccount a => bool_decide (peek s a = None)
  | OpSetCode a _ =>
      match peek s a with
      | None => true
      | Some o => negb (bool_decide (o.(code) = [])) || (o.(data).(CodeHash) =? EmptyCodeHash)
      end
  | _ => true
  end.

Fixpoint run (ops : list Op) (s : StateDB) : option StateDB :=
  match ops with
  | [] => Some s
  | op :: ops => if op_okb op s then exec op s ≫= run ops else None
  end.

Lemma op_okb_ok op s : op_okb op s = true → op_ok op s.
Proof.
  destruct op; cbn; try done; intros H.
  - bool_to_prop. lia.
  - intros o Ho. rewrite Ho in H. apply orb_true_iff in H as [H|H]; [left|right]; bool_to_prop; done.
  - bool_to_prop. done.
Qed.

Lemma run_steps ops s s' : run ops s = Some s' → steps s ops s'.
Proof.
  revert s. induction ops as [|op ops IH]; intros s; cbn; [intros [= <-]; constructor|].
  destruct (op_okb op s) eqn:Hok; [|done]. intros (s1 & Hx & Hr)%bind_Some.
  econstructor; [by apply op_okb_ok|done|by apply IH].
Qed.

(** Every call but [Snapshot] and [RevertToSnapshot] is an undoable step. *)
Lemma good_exec op s s' :
  op_ok op s → exec op s = Some s' →
  good s s' ∨ op = OpSnapshot ∨ ∃ id, op = OpRevert id.
Proof.
  destruct op; cbn; intros Hok Hx; eauto; left; try injection Hx as <-.
  - apply good_AddBalance.
  - apply good_SubBalance.
  - apply good_onObject. intros o u _ _ Hl _. by apply good_SetBalance.
  - apply good_onObject. intros o u _ _ Hl _. by apply good_SetNonce.
  - apply good_onObject. intros o u Ho _ Hl _. apply good_SetCode; [done|].
    destruct (peek s a) as [p|]; cbn in Ho; subst; [by apply Hok|by right].
  - apply good_onObject. intros o u _ _ Hl _. by apply good_SetState.
  - apply good_SelfDestruct.
  - by apply good_createObject.
  - by eapply good_CreateContract.
  - apply good_SetTransientState.
  - apply good_setRefund, u64_range.
  - unfold SubRefund in Hx. case_if_in Hx; [done|]. injection Hx as <-. apply good_setRefund, u64_range.
  - apply good_AddLog.
  - apply good_AddPreimage.
  - apply good_AddAddress.
  - by eapply good_AddSlot.
  - apply good_getStateObject.
  - apply good_GetCode.
  - apply good_GetState.
Qed.

(** An id that is not on the stack cannot be reverted to. *)
Lemma RevertToSnapshot_inv id s s' :
  RevertToSnapshot Keccak256Hash reader id s = Some s' →
  ∃ i r, s.(journal).(validRevisions) !! i = Some r ∧ r.(rev_id) = id.
Proof.
  unfold RevertToSnapshot. intros (r & Hr & Hx)%bind_Some.
  case_if_in Hx; [done|]. eauto.
Qed.

Lemma coherent_Revert id s s' :
  coherent s → RevertToSnapshot Keccak256Hash reader id s = Some s' → coherent s'.
Proof.
  intros Hc Hx. destruct (RevertToSnapshot_inv _ _ _ Hx) as (i & r & Hi & <-).
  destruct (RevertToSnapshot_valid i r s Hc Hi) as (u & t & Hu & Ht & E & N & R & X & Hw & Hd).
  rewrite Ht in Hx. injection Hx as ->. destruct Hc. constructor; [done..| | |]; rewrite ?N, ?R, ?X.
  - intros a b ra rb Hab Ha Hb. apply lookup_take_Some in Ha as [Ha _], Hb as [Hb _]. eauto.
  - intros q Hq. apply list_elem_of_lookup in Hq as [j Hj]. apply lookup_take_Some in Hj as [Hj Hji].
    destruct (co_sorted0 j i q r) as [Hid Hix]; [done..|].
    destruct (co_bound0 q) as [? ?]; [by eapply list_elem_of_lookup_2|].
    destruct (co_bound0 r) as [? ?]; [by eapply list_elem_of_lookup_2|].
    rewrite length_take. lia.
  - intros q Hq. apply list_elem_of_lookup in Hq as [j Hj]. apply lookup_take_Some in Hj as [Hj Hji].
    destruct (co_sorted0 j i q r) as [Hid Hix]; [done..|].
    destruct (co_undo0 q) as (v & Hv & Hwv & Hdv); [by eapply list_elem_of_lookup_2|].
    destruct (undo_below (journalIndex q) (journalIndex r) (entries (journal s)) s u s' v)
      as (v' & Hv' & Ev'); [done| |done|done| |].
    + apply co_bound0. by eapply list_elem_of_lookup_2.
    + exists v. split; [done|reflexivity].
    + exists v'. split_and!; [done|by eapply wf_eqv; [symmetry|]|by eapply dirties_wf_eqv; [symmetry|]].
Qed.

Lemma coherent_exec op s s' : op_ok op s → exec op s = Some s' → coherent s → coherent s'.
Proof.
  intros Hok Hx Hc. destruct (good_exec op s s' Hok Hx) as [G|[->|[id ->]]].
  - by eapply coherent_good.
  - injection Hx as <-. by apply coherent_Snapshot.
  - by eapply coherent_Revert.
Qed.

(** ** What the getters see *)

(** Every getter of the [vm.StateDB] interface, at one account and slot. *)
Definition observe (a : address) (k : hash) (s : StateDB) :=
  (((Exist Keccak256Hash reader a s).1, (Empty Keccak256Hash reader a s).1,
    (GetBalance Keccak256Hash reader a s).1, (GetNonce Keccak256Hash reader a s).1,
    (GetStorageRoot Keccak256Hash reader a s).1, (GetCodeHash Keccak256Hash reader a s).1,
    (GetCode Keccak256Hash reader a s).1, (GetCodeSize Keccak256Hash reader a s).1),
   ((GetState Keccak256Hash reader a k s).1, (GetCommittedState Keccak256Hash reader a k s).1,
    (HasSelfDestructed Keccak256Hash reader a s).1, (IsNewContract Keccak256Hash reader a s).1),
   (GetTransientState a k s, GetRefund s, AddressInAccessList a s, SlotInAccessList a k s,
    s.(logs), s.(logSize))).

(** What a getter answers: a function of [peek]. *)
Lemma withObject_answer {A} a (dflt : A) f g s :
  wf s →
  (∀ o s', o.(obj_address) = a → live s' o → s'.(stateObjectsDestruct) = s.(stateObjectsDestruct) →
     (f o s').1 = g o) →
  (withObject Keccak256Hash reader a dflt f s).1 = match peek s a with Some o => g o | None => dflt end.
Proof.
  intros Hw Hf. unfold withObject.
  destruct (getStateObject_spec a s) as (s' & E & Hu & J & Hl). rewrite E.
  destruct (peek s a) as [o|] eqn:Ho; [|done].
  pose proof (ow_address _ _ _ (wf_objects _ Hw _ _ Ho)) as Ha.
  apply Hf; [done|unfold live; by rewrite Ha|]. apply rest_destruct, Hu.
Qed.

Lemma obj_Code_answer o s : (obj_Code Keccak256Hash reader o s).1 = codeOf o.
Proof. unfold obj_Code, codeOf. destruct (code o); cbn; [|done]. by case_if. Qed.

Lemma obj_CodeSize_answer o s :
  ReaderOk → (obj_CodeSize Keccak256Hash reader o s).1 = Z.of_nat (length (codeOf o)).
Proof.
  intros []. unfold obj_CodeSize, codeOf. destruct (code o); cbn; [|done].
  case_if; cbn; [done|]. apply reader_codeSize0.
Qed.

(** The getters' answers in terms of [peek]. *)
Definition view (a : address) (k : hash) (s : StateDB) :=
  let d := s.(stateObjectsDestruct) in
  match peek s a with
  | None => ((false, true, 0, 0, zeroHash, zeroHash, [], 0), (zeroHash, zeroHash, false, false))
  | Some o =>
      ((true, empty Keccak256Hash o, o.(data).(Balance), o.(data).(Nonce), o.(data).(Root),
        o.(data).(CodeHash), codeOf o, Z.of_nat (length (codeOf o))),
       (default (committed d o k) (o.(dirtyStorage) !! k), committed d o k,
        o.(selfDestructed), o.(newContract)))
  end.

Lemma observe_view a k s :
  ReaderOk → wf s →
  observe a k s =
    (view a k s,
     (GetTransientState a k s, GetRefund s, AddressInAccessList a s, SlotInAccessList a k s,
      s.(logs), s.(logSize))).
Proof.
  intros HR Hw. unfold observe, view. f_equal.
  assert (Hst : ∀ o s', o.(obj_address) = a → live s' o →
    stateObjectsDestruct s' = stateObjectsDestruct s →
    (obj_GetCommittedState reader o k s').1 = committed (stateObjectsDestruct s) o k).
  { intros o s' _ Hl Hd. destruct (obj_GetCommittedState_spec o k s' Hl) as (? & ? & -> & _).
    by rewrite Hd. }
  unfold Exist, Empty, GetBalance, GetNonce, GetStorageRoot, GetCodeHash, GetCode, GetCodeSize,
    GetState, GetCommittedState, HasSelfDestructed, IsNewContract.
  rewrite (withObject_answer a false _ (λ _, true)), (withObject_answer a true _ (empty Keccak256Hash)),
    (withObject_answer a 0 (λ o s, (Balance (data o), s)) (λ o, Balance (data o))),
    (withObject_answer a 0 (λ o s, (Nonce (data o), s)) (λ o, Nonce (data o))),
    (withObject_answer a zeroHash (λ o s, (Root (data o), s)) (λ o, Root (data o))),
    (withObject_answer a zeroHash (λ o s, (CodeHash (data o), s)) (λ o, CodeHash (data o))),
    (withObject_answer a [] _ codeOf), (withObject_answer a 0 _ (λ o, Z.of_nat (length (codeOf o)))),
    (withObject_answer a zeroHash (λ o, obj_GetState reader o k)
       (λ o, default (committed (stateObjectsDestruct s) o k) (dirtyStorage o !! k))),
    (withObject_answer a zeroHash (λ o, obj_GetCommittedState reader o k)
       (λ o, committed (stateObjectsDestruct s) o k)),
    (withObject_answer a false (λ o s, (selfDestructed o, s)) selfDestructed),
    (withObject_answer a false (λ o s, (newContract o, s)) newContract); try done; auto.
  - by destruct (peek s a).
  - intros o s' Ha Hl Hd. unfold obj_GetState. destruct (dirtyStorage o !! k); [done|]. by apply Hst.
  - intros o s' _ _ _. by apply obj_CodeSize_answer.
  - intros o s' _ _ _. apply obj_Code_answer.
Qed.

(** Equivalent states answer every getter alike. *)
Lemma eqv_observe a k s1 s2 : ReaderOk → s1 ≈ s2 → wf s1 → observe a k s1 = observe a k s2.
Proof.
  intros HR E Hw. rewrite !observe_view by (done || by eapply wf_eqv). pose proof E as [].
  unfold GetTransientState, GetRefund, AddressInAccessList, SlotInAccessList.
  rewrite eq_transient0, eq_refund0, eq_accessList0, eq_logs0, eq_logSize0. f_equal.
  unfold view. rewrite eq_destruct0 in *. specialize (eq_objects0 a).
  destruct (peek s1 a) as [o1|], (peek s2 a) as [o2|]; inversion eq_objects0 as [? ? Ho|]; [|done].
  subst. destruct Ho. unfold empty. by rewrite oe_data0, oe_code0, oe_dirty0, oe_committed0, oe_destructed0, oe_new0.
Qed.

(** ** Snapshots *)

(** While revision [id], taken at [s0], is on the stack of [s]: the stack and
    the journal below it are those of [s0], and undoing the rest gives [s0]. *)
Record tracks (s0 : StateDB) (id : Z) (s : StateDB) : Prop := {
  tr_next : id < s.(journal).(nextRevisionId);
  tr_rev i r : s.(journal).(validRevisions) !! i = Some r → r.(rev_id) = id →
    r.(journalIndex) = length s0.(journal).(entries)
    ∧ take i s.(journal).(validRevisions) = s0.(journal).(validRevisions)
    ∧ take r.(journalIndex) s.(journal).(entries) = s0.(journal).(entries)
    ∧ ∃ u, revertEntries (drop r.(journalIndex) s.(journal).(entries)) s = Some u ∧ u ≈ s0;
}.

Lemma tracks_init s : coherent s → tracks s s.(journal).(nextRevisionId) (Snapshot s).2.
Proof.
  intros []. constructor; cbn; [lia|]. intros i r Hi Hid.
  apply lookup_app_Some in Hi as [Hi|[Hl Hi]].
  - apply list_elem_of_lookup_2, co_bound0 in Hi. lia.
  - apply list_lookup_singleton_Some in Hi as [Hi <-]. cbn.
    replace i with (length (validRevisions (journal s))) by lia.
    rewrite take_app_length, drop_all, firstn_all. split_and!; try done.
    eexists. split; [done|]. apply eqv_Snapshot.
Qed.

Lemma tracks_good s0 id s s' : coherent s → good s s' → tracks s0 id s → tracks s0 id s'.
Proof.
  intros [] G []. destruct (G co_wf0 co_dirties0) as ([es Hes] & _).
  pose proof Hes as [N R X _]. constructor; [by rewrite X|]. rewrite R, N. intros i r Hi Hid.
  destruct (tr_rev0 i r Hi Hid) as (Hr & T1 & T2 & Hu).
  assert (Hb : (journalIndex r <= length (entries (journal s)))%nat)
    by (eapply co_bound0, list_elem_of_lookup_2, Hi).
  split_and!; [done..|by rewrite take_app_le|]. rewrite <- N. by eapply undo_through.
Qed.

Lemma tracks_Snapshot s0 id s : tracks s0 id s → tracks s0 id (Snapshot s).2.
Proof.
  intros []. constructor; cbn; [lia|]. intros i r Hi Hid.
  apply lookup_app_Some in Hi as [Hi|[Hl Hi]].
  - destruct (tr_rev0 i r Hi Hid) as (Hr & T1 & T2 & u & Hu & Eu).
    pose proof (eqv_Snapshot s) as E. symmetry in E.
    destruct (revertEntries_proper _ s (Snapshot s).2 u E Hu) as (u' & Hu' & Eu').
    split_and!; [done| |done|exists u'; split; [done|by rewrite <- Eu']].
    rewrite take_app_le; [done|]. apply lookup_lt_Some in Hi. lia.
  - apply list_lookup_singleton_Some in Hi as [_ <-]. cbn in Hid. lia.
Qed.

Lemma tracks_Revert s0 id id' s s' :
  coherent s → RevertToSnapshot Keccak256Hash reader id' s = Some s' →
  tracks s0 id s → tracks s0 id s'.
Proof.
  intros Hc Hx []. destruct (RevertToSnapshot_inv _ _ _ Hx) as (j & q & Hj & <-).
  destruct (RevertToSnapshot_valid j q s Hc Hj) as (v & t & Hv & Ht & E & N & R & X & _).
  rewrite Ht in Hx. injection Hx as ->. constructor; [by rewrite X|]. rewrite R, N. intros i r Hi Hid.
  apply lookup_take_Some in Hi as [Hi Hij]. destruct (tr_rev0 i r Hi Hid) as (Hr & T1 & T2 & Hu).
  destruct (co_sorted _ Hc i j r q) as [_ Hle]; [done..|].
  split_and!; [done|by rewrite take_take, Nat.min_l by lia|by rewrite take_take, Nat.min_l by lia|].
  eapply (undo_below _ _ _ s); [done| |done|done|done].
  eapply (co_bound _ Hc), list_elem_of_lookup_2, Hj.
Qed.

Lemma steps_tracks s0 id s ops s' :
  steps s ops s' → coherent s → tracks s0 id s → coherent s' ∧ tracks s0 id s'.
Proof.
  induction 1 as [|s op s1 ops s2 Hok Hx _ IH]; intros Hc Ht; [done|].
  apply IH; [by eapply coherent_exec|]. destruct (good_exec op s s1 Hok Hx) as [G|[->|[id' ->]]].
  - by eapply tracks_good.
  - injection Hx as <-. by apply tracks_Snapshot.
  - by eapply tracks_Revert.
Qed.

Lemma coherent_steps s ops s' : steps s ops s' → coherent s → coherent s'.
Proof. induction 1; eauto using coherent_exec. Qed.

Lemma coherent_new : ReaderOk → coherent NewWithReader.
Proof.
  intros []. constructor; try done.
  - constructor; try done; [|constructor; cbn; [done|]].
    + intros a o. unfold peek, load; cbn. destruct (rAccount reader a) as [[acct|]|] eqn:Ea; try done.
      intros [= <-]. constructor; [done|cbn; eauto|done|].
      unfold codeOf; cbn. destruct (_ =? _); [done|]. apply reader_code0.
    + intros set Hs. by apply elem_of_nil in Hs.
  - intros r Hr. by apply elem_of_nil in Hr.
  - intros r Hr. by apply elem_of_nil in Hr.
Qed.
End Theory.

(** C4: [RevertToSnapshot] restores the snapshot.  Within one transaction, take a
    snapshot in a state reached by the calls of the [vm.StateDB] interface that a
    transaction makes, run more of them, with nested snapshots and reverts, and revert
    to it while its id is still valid: the revert does not panic, the journal and the
    stack of revisions are those of the snapshot, and every getter answers as it did,
    although loaded objects, cached slots and cached code stay behind.  The calls are
    those of [op_ok]: [SetCode] where the old code was loaded and [CreateAccount] where
    there is no account, with balances that are words; [Finalise], which ends
    the transaction, is not among them. *)
Theorem revert_restores_snapshot {U : Uint256} (Keccak256Hash : bytes → hash) (reader : Reader)
    before s id s1 ops s2 r :
  ReaderOk Keccak256Hash reader →
  steps Keccak256Hash reader NewWithReader before s →
  Snapshot s = (id, s1) →
  steps Keccak256Hash reader s1 ops s2 →
  r ∈ s2.(journal).(validRevisions) → r.(rev_id) = id →
  ∃ s3, RevertToSnapshot Keccak256Hash reader id s2 = Some s3
    ∧ s3.(journal).(entries) = s.(journal).(entries)
    ∧ s3.(journal).(validRevisions) = s.(journal).(validRevisions)
    ∧ eqv Keccak256Hash reader s3 s
    ∧ ∀ a k, observe Keccak256Hash reader a k s3 = observe Keccak256Hash reader a k s.
Proof.
  intros HR Hb Hs Hops Hr Hid. pose proof (coherent_steps _ _ _ _ _ Hb (coherent_new _ _ HR)) as Hc.
  assert (s1 = (Snapshot s).2 ∧ id = s.(journal).(nextRevisionId)) as [-> ->] by (by injection Hs as <- <-).
  destruct (steps_tracks _ _ s s.(journal).(nextRevisionId) _ _ _ Hops) as [Hc2 Ht2];
    [by apply coherent_Snapshot|by apply tracks_init|].
  apply list_elem_of_lookup in Hr as [i Hi].
  destruct (tr_rev _ _ _ _ _ Ht2 i r Hi Hid) as (Hn & T1 & T2 & u & Hu & Eu).
  destruct (RevertToSnapshot_valid _ _ i r s2 Hc2 Hi) as (v & s3 & Hv & Hx & E & N & R & X & Hw & Hd).
  rewrite Hu in Hv. injection Hv as <-. rewrite Hid in Hx. exists s3.
  assert (E3 : eqv Keccak256Hash reader s3 s) by (by etrans).
  split_and!; [done|congruence|congruence|done|]. intros a k. by apply eqv_observe.
Qed.

(** *** A concrete run *)

Definition toyKeccak (l : bytes) : hash := foldl (λ acc b, acc * 257 + b + 1) 7 l.

(** Account 9 holds 100, code [96; 1] and the slot 5 = 77. *)
Definition toyReader : Reader := {|
  rAccount a := Ok (if a =? 9 then Some (mkAccount 3 100 EmptyRootHash (toyKeccak [96; 1])) else None);
  rStorage a k := Ok (if (a =? 9) && (k =? 5) then 77 else 0);
  rCode _ h := if h =? toyKeccak [96; 1] then [96; 1] else [];
  rCodeSize _ h := if h =? toyKeccak [96; 1] then 2 else 0;
|}.

Lemma toyReader_ok : ReaderOk toyKeccak toyReader.
Proof.
  constructor; cbn.
  - intros a acct. case_if; [|done]. intros [= <-]. cbn. split; [lia|done].
  - intros _ h. case_if; [by subst|done].
  - intros _ h. by case_if.
Qed.

Definition toyBefore : list Op := [OpAddBalance 9 5; OpSetState 9 5 78; OpAddAddress 9].

Definition toyOps : list Op :=
  [OpGetCode 9; OpSetCode 9 [1; 2; 3]; OpSetState 9 5 77; OpSetState 9 6 1; OpSnapshot;
   OpSubBalance 9 50; OpAddBalance 10 50; OpCreateContract 10; OpAddSlot 10 4; OpAddLog 9 [1] [2];
   OpRevert 1; OpAddRefund 3; OpSelfDestruct 9; OpSetTransientState 9 1 2; OpAddBalance 3 0].

Abbreviation toyRun := (@run RefUint256 toyKeccak toyReader) (only parsing).
Definition toyS : StateDB := default NewWithReader (toyRun toyBefore NewWithReader).
Definition toyS2 : StateDB := default NewWithReader (toyRun toyOps (Snapshot toyS).2).

Lemma revert_restores_snapshot_witness :
  ∃ s3, @RevertToSnapshot toyKeccak toyReader 0 toyS2 = Some s3
    ∧ (@GetBalance toyKeccak toyReader 9 toyS2).1 = 105
    ∧ (@HasSelfDestructed toyKeccak toyReader 9 toyS2).1 = true
    ∧ ∀ a k, observe toyKeccak toyReader a k s3 = observe toyKeccak toyReader a k toyS.
Proof.
  destruct (@revert_restores_snapshot RefUint256 toyKeccak toyReader toyBefore toyS 0 (Snapshot toyS).2
    toyOps toyS2 {| rev_id := 0; journalIndex := 3 |}) as (s3 & H1 & _ & _ & _ & H2).
  - exact toyReader_ok.
  - apply run_steps. vm_compute. reflexivity.
  - vm_compute. reflexivity.
  - apply run_steps. vm_compute. reflexivity.
  - apply list_elem_of_lookup_2 with 0%nat. vm_compute. reflexivity.
  - reflexivity.
  - exists s3. split; [exact H1|]. split; [vm_compute; reflexivity|].
    split; [vm_compute; reflexivity|exact H2].
Defined.

(** Why [op_ok] asks for the code to be read before [SetCode]: the journal
    keeps the cached code, which is empty when nobody read it, and the revert
    then leaves the account without code. *)
Lemma setCode_unread_code_lost :
  let s0 := (Snapshot NewWithReader).2 in
  let s1 := SetCode toyKeccak toyReader 9 [1; 2; 3] s0 in
  (GetCode toyKeccak toyReader 9 s0).1 = [96; 1]
  ∧ ((λ s2, ((GetCode toyKeccak toyReader 9 s2).1, (GetCodeHash toyKeccak toyReader 9 s2).1))
      <$> RevertToSnapshot toyKeccak toyReader 0 s1) = Some ([], EmptyCodeHash toyKeccak).
Proof. vm_compute. auto. Qed.
End Journal.
