(* ===== verification/StateRefinement.v ===== *)
(** * The journaled state implements the world-state interface

    The setters of [core/state.StateDB] in terms of what the getters answer,
    the instance of [State.WorldState] they give, and the refinement of the
    flat account maps by the journaled, caching implementation. *)

From S2P Require Import Prelude Bytes State StateDB Journal.

Module StateRefinement.
Import StateDB Journal.

Section Refinement.
Context {U : Uint256} (Keccak256Hash : bytes → hash) (reader : Reader).

Local Abbreviation newObject := (newObject Keccak256Hash).
Local Abbreviation peek := (peek Keccak256Hash reader).
Local Abbreviation committed := (committed reader).
Local Abbreviation codeOf := (codeOf Keccak256Hash reader).
Local Abbreviation upd := (upd Keccak256Hash reader).
Local Abbreviation wf := (wf Keccak256Hash reader).

(** The reader holds no slots of accounts that do not exist. *)
Class NoOrphanSlots : Prop := no_orphan_slots a k v :
  (∀ acct, reader.(rAccount) a ≠ Ok (Some acct)) → reader.(rStorage) a k = Ok v → v = zeroHash.

Context {HR : ReaderOk Keccak256Hash reader} {HN : NoOrphanSlots}.

(** The object a setter finds: the account, or a new one. *)
Definition found (a : address) (s : StateDB) : stateObject := default (newObject a None) (peek s a).

Lemma found_address a s : wf s → (found a s).(obj_address) = a.
Proof.
  intros Hw. unfold found. destruct (peek s a) as [o|] eqn:Ho; [|done].
  apply (wf_objects _ _ _ Hw _ _ Ho).
Qed.

(** What a setter leaves: the state with the object it found replaced. *)
Lemma getOrNew_upd a s :
  wf s →
  ∃ s', getOrNewStateObject Keccak256Hash reader a s = (found a s, s')
    ∧ upd a (Some (found a s)) s s' ∧ s'.(stateObjects) !! a = Some (found a s).
Proof.
  intros Hw. unfold getOrNewStateObject, found.
  destruct (getStateObject_spec Keccak256Hash reader a s) as (s' & E & Hu & J & Hl). rewrite E.
  destruct (peek s a) as [o|] eqn:Ho; [by eexists|].
  eexists. split; [done|]. split.
  - eapply upd_trans; [done|]. constructor; [|done]. intros b. unfold Journal.peek at 1; cbn.
    rewrite lookup_insert. by case_decide.
  - cbn. by rewrite lookup_insert, decide_True.
Qed.

Lemma onObject_upd a f s o' :
  wf s →
  (∀ s', s'.(stateObjects) !! a = Some (found a s) →
     s'.(stateObjectsDestruct) = s.(stateObjectsDestruct) → upd a (Some o') s' (f (found a s) s')) →
  upd a (Some o') s (onObject Keccak256Hash reader a f s).
Proof.
  intros Hw Hf. unfold onObject.
  assert (Hw' : wf (recordWrite a s)) by (by destruct Hw; constructor).
  destruct (getOrNew_upd a (recordWrite a s) Hw') as (s' & E & Hu & Hl). rewrite E.
  change (found a (recordWrite a s)) with (found a s) in *.
  assert (Hu' : upd a (Some (found a s)) s s') by (destruct Hu; by constructor).
  eapply upd_trans; [done|]. apply Hf; [done|].
  exact (rest_destruct _ _ (upd_rest _ _ _ _ _ _ Hu')).
Qed.

(** A journalled write to the live object of [a]. *)
Lemma upd_write a e f s o :
  s.(stateObjects) !! a = Some o → upd a (Some (f o)) s (modObj a f (appendEntry e s)).
Proof.
  intros Hl. destruct (upd_modObj Keccak256Hash reader a f (appendEntry e s) o Hl) as [P R].
  by constructor.
Qed.

Lemma SetNonce_upd a n s :
  wf s → upd a (Some (setNonce n (found a s))) s (SetNonce Keccak256Hash reader a n s).
Proof.
  intros Hw. apply onObject_upd; [done|]. intros s' Hl _.
  unfold obj_SetNonce. rewrite found_address by done. by apply upd_write.
Qed.

Definition balanceOf (a : address) (s : StateDB) : Z := (found a s).(data).(Balance).

Lemma setBalance_same o : setBalance o.(data).(Balance) o = o.
Proof. by destruct o as [? ? [] ? ? ? ? ? ? ? ?]. Qed.

Lemma balanceOf_range a s : wf s → 0 <= balanceOf a s < two256.
Proof.
  intros Hw. unfold balanceOf, found. destruct (peek s a) as [o|] eqn:Ho; cbn.
  - apply (wf_objects _ _ _ Hw _ _ Ho).
  - done.
Qed.

Lemma AddBalance_upd a v s :
  wf s →
  upd a (Some (setBalance (u256_add (balanceOf a s) v) (found a s))) s
    (AddBalance Keccak256Hash reader a v s).
Proof.
  intros Hw. apply onObject_upd; [done|]. intros s' Hl _. unfold obj_AddBalance.
  case_if; [|unfold obj_SetBalance; rewrite found_address by done; by apply upd_write].
  subst v. rewrite u256_add_spec, Z.add_0_r, Z.mod_small by (by apply balanceOf_range).
  unfold balanceOf. rewrite setBalance_same.
  assert (H : upd a (Some (found a s)) s' s').
  { rewrite <- (peek_live Keccak256Hash reader s' a _ Hl). apply upd_id. }
  case_if; [|done]. unfold journal_touchChange. destruct H. case_if; by constructor.
Qed.

Lemma SubBalance_upd a v s :
  wf s →
  upd a (Some (setBalance (u256_sub (balanceOf a s) v) (found a s))) s
    (SubBalance Keccak256Hash reader a v s).
Proof.
  intros Hw. apply onObject_upd; [done|]. intros s' Hl _.
  case_if; [|unfold obj_SetBalance; rewrite found_address by done; by apply upd_write].
  subst v. rewrite u256_sub_spec, Z.sub_0_r, Z.mod_small by (by apply balanceOf_range).
  unfold balanceOf. rewrite setBalance_same, <- (peek_live Keccak256Hash reader s' a _ Hl). apply upd_id.
Qed.

(** The value of a slot of object [o]. *)
Definition slotOf (d : gmap Z stateObject) (o : stateObject) (k : hash) : hash :=
  default (committed d o k) (o.(dirtyStorage) !! k).

Lemma setState_noop d a o k v :
  obj_wf Keccak256Hash reader d a o → slotOf d o k = v → setState k v (committed d o k) o = o.
Proof.
  intros Ho Hv. unfold slotOf in Hv. destruct (dirtyStorage o !! k) as [p|] eqn:Ep; cbn in Hv; subst.
  - unfold setState. pose proof (ow_dirty _ _ _ _ _ Ho _ _ Ep). case_if; [done|].
    rewrite insert_id by done. by destruct o.
  - unfold setState. rewrite Z.eqb_refl, delete_id by done. by destruct o.
Qed.

Lemma found_wf a s : wf s → obj_wf Keccak256Hash reader s.(stateObjectsDestruct) a (found a s).
Proof.
  intros Hw. unfold found. destruct (peek s a) as [o|] eqn:Ho; [by apply (wf_objects _ _ _ Hw)|].
  apply newObject_wf.
Qed.

Lemma SetState_upd a k v s :
  wf s →
  ∃ o, upd a (Some o) s (SetState Keccak256Hash reader a k v s)
    ∧ let d := s.(stateObjectsDestruct) in
      obj_eqv Keccak256Hash reader d o (setState k v (committed d (found a s) k) (found a s)).
Proof.
  intros Hw. set (d := stateObjectsDestruct s). set (o := found a s). set (w := committed d o k).
  assert (Ha : obj_address o = a) by (by apply found_address).
  assert (Hs : ∀ s', stateObjects s' !! a = Some o → stateObjectsDestruct s' = d →
    ∃ o', upd a (Some o') s' (obj_SetState reader o k v s')
      ∧ obj_eqv Keccak256Hash reader d o' (setState k v w o)).
  { intros s' Hl Hd. unfold obj_SetState, obj_getState.
    destruct (obj_GetCommittedState_spec Keccak256Hash reader o k s') as (o1 & s1 & E & Hu & He & _ & Hl1).
    { by rewrite Ha. }
    rewrite E, Hd in *. fold w. rewrite Ha in *.
    replace (match dirtyStorage o !! k with Some v0 => (v0, w, s1) | None => (w, w, s1) end)
      with (slotOf d o k, w, s1) by (unfold slotOf; by destruct (dirtyStorage o !! k)).
    case_if.
    - exists o1. split; [done|]. rewrite He. unfold w. by rewrite (setState_noop d a) by (done || by apply found_wf).
    - exists (setState k v w o1). split; [|by apply respects_setState].
      eapply upd_trans; [done|].
      destruct (upd_write a (storageChange a k (slotOf d o k) w) (setState k v w)
        (recordStorageWrite a k v s1) o1 Hl1) as [P R]. by constructor. }
  unfold SetState, onObject.
  assert (Hw' : wf (recordWrite a s)) by (by destruct Hw; constructor).
  destruct (getOrNew_upd a (recordWrite a s) Hw') as (s' & E & Hu & Hl). rewrite E.
  change (found a (recordWrite a s)) with o in *.
  assert (Hu' : upd a (Some o) s s') by (destruct Hu; by constructor).
  destruct (Hs s' Hl (rest_destruct _ _ (upd_rest _ _ _ _ _ _ Hu'))) as (o' & Ho' & He').
  exists o'. split; [by eapply upd_trans|done].
Qed.

(** *** The getters in terms of [found] *)

Lemma found_upd a o s s' b : upd a (Some o) s s' → found b s' = if decide (a = b) then o else found b s.
Proof. intros Hu. unfold found. rewrite (upd_peek _ _ _ _ _ _ Hu). by case_decide. Qed.

Lemma GetBalance_found a s : wf s → (GetBalance Keccak256Hash reader a s).1 = balanceOf a s.
Proof.
  intros Hw. unfold GetBalance. rewrite (withObject_answer _ _ a 0 _ (λ o, Balance (data o))) by done.
  unfold balanceOf, found. by destruct (peek s a).
Qed.

Lemma GetNonce_found a s : wf s → (GetNonce Keccak256Hash reader a s).1 = (found a s).(data).(Nonce).
Proof.
  intros Hw. unfold GetNonce. rewrite (withObject_answer _ _ a 0 _ (λ o, Nonce (data o))) by done.
  unfold found. by destruct (peek s a).
Qed.

Lemma codeOf_new a : codeOf (newObject a None) = [].
Proof. unfold Journal.codeOf; cbn. unfold EmptyCodeHash. by rewrite Z.eqb_refl. Qed.

Lemma GetCodeSize_found a s :
  wf s → (GetCodeSize Keccak256Hash reader a s).1 = Z.of_nat (length (codeOf (found a s))).
Proof.
  intros Hw. unfold GetCodeSize.
  rewrite (withObject_answer _ _ a 0 _ (λ o, Z.of_nat (length (codeOf o))))
    by (done || intros; by apply obj_CodeSize_answer).
  unfold found. destruct (peek s a); cbn [default from_option id]; [done|]. by rewrite codeOf_new.
Qed.

Lemma slotOf_absent a s k : peek s a = None → slotOf s.(stateObjectsDestruct) (newObject a None) k = zeroHash.
Proof.
  intros Hn. apply peek_None in Hn as [_ Hn]. unfold slotOf, Journal.committed; cbn.
  unfold load in Hn. destruct (stateObjectsDestruct s !! a); [done|].
  destruct (rStorage reader a k) as [v|e] eqn:Er; [|done]. apply (HN a k); [|done].
  intros acct Ha. by rewrite Ha in Hn.
Qed.

Lemma GetState_found a k s :
  wf s → (GetState Keccak256Hash reader a k s).1 = slotOf s.(stateObjectsDestruct) (found a s) k.
Proof.
  intros Hw. unfold GetState.
  rewrite (withObject_answer _ _ a zeroHash _ (λ o, slotOf (stateObjectsDestruct s) o k)); [|done|].
  - unfold found. destruct (peek s a) eqn:Ho; cbn; [done|]. by rewrite slotOf_absent.
  - intros o s' _ Hl Hd. unfold obj_GetState, slotOf. destruct (dirtyStorage o !! k); [done|].
    destruct (obj_GetCommittedState_spec Keccak256Hash reader o k s' Hl) as (? & ? & -> & _). by rewrite Hd.
Qed.

(** *** Well-formed states are closed under the setters *)

Lemma AddBalance_wf a v s : wf s → wf (AddBalance Keccak256Hash reader a v s).
Proof.
  intros Hw. eapply wf_upd; [by apply AddBalance_upd| |done].
  by apply obj_wf_set; [apply found_wf|apply u256_range; exact 0|].
Qed.

Lemma SubBalance_wf a v s : wf s → wf (SubBalance Keccak256Hash reader a v s).
Proof.
  intros Hw. eapply wf_upd; [by apply SubBalance_upd| |done].
  by apply obj_wf_set; [apply found_wf|apply u256_range; exact 0|].
Qed.

Lemma SetNonce_wf a n s : wf s → wf (SetNonce Keccak256Hash reader a n s).
Proof.
  intros Hw. eapply wf_upd; [by apply SetNonce_upd| |done].
  by apply obj_wf_set; [apply found_wf|apply (balanceOf_range a s)|].
Qed.

Lemma SetState_wf a k v s : wf s → wf (SetState Keccak256Hash reader a k v s).
Proof.
  intros Hw. destruct (SetState_upd a k v s Hw) as (o & Hu & He).
  eapply wf_upd; [done| |done]. eapply obj_wf_eqv; [symmetry; exact He|].
  by apply setState_wf, found_wf.
Qed.

(** The states the interface is implemented on. *)
Definition WfState : Type := { s : StateDB | wf s }.

Lemma slotOf_eqv d o1 o2 k : obj_eqv Keccak256Hash reader d o1 o2 → slotOf d o1 k = slotOf d o2 k.
Proof. intros []. unfold slotOf. by rewrite oe_dirty0, oe_committed0. Qed.

Lemma slotOf_setState d o k v k' :
  slotOf d (setState k v (committed d o k) o) k' = if decide (k = k') then v else slotOf d o k'.
Proof.
  unfold slotOf. rewrite committed_setState. unfold setState. case_if; cbn.
  - rewrite lookup_delete. by case_decide; subst.
  - rewrite lookup_insert. by case_decide.
Qed.

(** Each setter is an update of one object; each getter reads [found]. *)
Ltac by_found :=
  intros; repeat match goal with s : sig _ |- _ => destruct s as [s Hw] end; cbn;
  rewrite ?GetBalance_found, ?GetNonce_found, ?GetCodeSize_found, ?GetState_found
    by auto using AddBalance_wf, SubBalance_wf, SetNonce_wf, SetState_wf.

Lemma upd_destruct a o s s' : upd a o s s' → s'.(stateObjectsDestruct) = s.(stateObjectsDestruct).
Proof. intros [_ R]. by apply rest_destruct. Qed.

#[refine, global] Instance StateDBWorld : WorldState WfState := {|
  State.GetBalance s a := (GetBalance Keccak256Hash reader a (proj1_sig s)).1;
  State.AddBalance s a v := AddBalance Keccak256Hash reader a v (proj1_sig s) ↾ AddBalance_wf a v _ (proj2_sig s);
  State.SubBalance s a v := SubBalance Keccak256Hash reader a v (proj1_sig s) ↾ SubBalance_wf a v _ (proj2_sig s);
  State.GetNonce s a := (GetNonce Keccak256Hash reader a (proj1_sig s)).1;
  State.SetNonce s a n := SetNonce Keccak256Hash reader a n (proj1_sig s) ↾ SetNonce_wf a n _ (proj2_sig s);
  State.GetState s a k := (GetState Keccak256Hash reader a k (proj1_sig s)).1;
  State.SetState s a k v := SetState Keccak256Hash reader a k v (proj1_sig s) ↾ SetState_wf a k v _ (proj2_sig s);
  State.GetCodeSize s a := (GetCodeSize Keccak256Hash reader a (proj1_sig s)).1;
|}.
Proof.
  all: by_found.
  - by apply balanceOf_range.
  - unfold balanceOf. erewrite found_upd by (by apply AddBalance_upd). by case_decide.
  - unfold balanceOf. erewrite found_upd by (by apply SubBalance_upd). by case_decide.
  - unfold balanceOf. destruct (SetState_upd a k v s Hw) as (o & Hu & He).
    erewrite found_upd by done. case_decide; [|done]. subst. rewrite (oe_data _ _ _ _ _ He).
    unfold setState. by case_if.
  - unfold balanceOf. erewrite found_upd by (by apply SetNonce_upd). by case_decide; subst.
  - destruct (SetState_upd a k v s Hw) as (o & Hu & He).
    rewrite (upd_destruct _ _ _ _ Hu). erewrite found_upd by done.
    case_decide as Hab; [subst|].
    + rewrite (slotOf_eqv _ _ _ _ He), slotOf_setState. case_decide as Hk.
      * by rewrite decide_True.
      * rewrite decide_False; [done|]. by intros [_ ?].
    + rewrite decide_False; [done|]. by intros [? _].
  - pose proof (AddBalance_upd a v s Hw) as Hu. rewrite (upd_destruct _ _ _ _ Hu).
    erewrite found_upd by done. by case_decide; subst.
  - pose proof (SubBalance_upd a v s Hw) as Hu. rewrite (upd_destruct _ _ _ _ Hu).
    erewrite found_upd by done. by case_decide; subst.
  - pose proof (SetNonce_upd a n s Hw) as Hu. rewrite (upd_destruct _ _ _ _ Hu).
    erewrite found_upd by done. by case_decide; subst.
  - erewrite found_upd by (by apply SetNonce_upd). by case_decide.
  - erewrite found_upd by (by apply AddBalance_upd). by case_decide; subst.
  - erewrite found_upd by (by apply SubBalance_upd). by case_decide; subst.
  - destruct (SetState_upd a k v s Hw) as (o & Hu & He).
    erewrite found_upd by done. case_decide; [|done]. subst. rewrite (oe_data _ _ _ _ _ He).
    unfold setState. by case_if.
  - erewrite found_upd by (by apply AddBalance_upd). by case_decide; subst.
  - erewrite found_upd by (by apply SubBalance_upd). by case_decide; subst.
  - destruct (SetState_upd a k v s Hw) as (o & Hu & He).
    erewrite found_upd by done. case_decide; [|done]. subst. rewrite (oe_code _ _ _ _ _ He).
    unfold setState. by case_if.
  - erewrite found_upd by (by apply SetNonce_upd). by case_decide; subst.
Defined.
End Refinement.

(** ** Refinement of the flat maps *)

(** The calls the consensus code makes through the interface. *)
Inductive WorldOp :=
| WAdd (a : address) (v : Z)
| WSub (a : address) (v : Z)
| WNonce (a : address) (n : Z)
| WState (a : address) (k v : hash).

Definition world_op_ok (op : WorldOp) : Prop :=
  match op with WAdd _ v | WSub _ v => 0 <= v < two256 | _ => True end.

Section Simulation.
Context {U : Uint256}.

Definition world_exec {S} {W : WorldState S} (s : S) (op : WorldOp) : S :=
  match op with
  | WAdd a v => State.AddBalance s a v
  | WSub a v => State.SubBalance s a v
  | WNonce a n => State.SetNonce s a n
  | WState a k v => State.SetState s a k v
  end.

(** Two states of two implementations that answer every getter alike. *)
Definition same_world {S1 S2} {W1 : WorldState S1} {W2 : WorldState S2} (s1 : S1) (s2 : S2) : Prop :=
  ∀ a, State.GetBalance s1 a = State.GetBalance s2 a ∧ State.GetNonce s1 a = State.GetNonce s2 a
    ∧ ∀ k, State.GetState s1 a k = State.GetState s2 a k.

(** The laws of the interface leave no freedom: one call keeps two
    implementations in step. *)
Lemma same_world_exec {S1 S2} {W1 : WorldState S1} {W2 : WorldState S2} (s1 : S1) (s2 : S2) op :
  world_op_ok op → same_world s1 s2 → same_world (world_exec s1 op) (world_exec s2 op).
Proof.
  intros Hop Hs b. pose proof (Hs b) as (Hb & Hn & Hk).
  destruct op as [a v|a v|a n|a k v]; cbn in *; pose proof (Hs a) as (Hba & _);
    rewrite ?State.GetBalance_Add, ?State.GetBalance_Sub, ?State.GetBalance_SetState,
      ?State.GetBalance_SetNonce, ?State.GetNonce_Add, ?State.GetNonce_Sub, ?State.GetNonce_SetState,
      ?State.GetNonce_SetNonce by done;
    (split_and!; [try case_decide; congruence|try case_decide; congruence|]); intros k';
    rewrite ?State.GetState_Add, ?State.GetState_Sub, ?State.GetState_SetNonce,
      ?State.GetState_SetState; [done..|]. by case_decide.
Qed.

Lemma same_world_run {S1 S2} {W1 : WorldState S1} {W2 : WorldState S2} (s1 : S1) (s2 : S2) ops :
  Forall world_op_ok ops → same_world s1 s2 →
  same_world (foldl world_exec s1 ops) (foldl world_exec s2 ops).
Proof.
  intros Hops. revert s1 s2. induction Hops as [|op ops Hop _ IH]; intros s1 s2 Hs; cbn; [done|].
  by apply IH, same_world_exec.
Qed.
End Simulation.

(** C39: the journaled [StateDB] refines the flat account maps.  Starting from
    equal balances, nonces and slots, any sequence of credits, debits, nonce and
    storage writes through the journal, the caches and the database reader
    leaves the getters answering exactly as maps updated in place do. *)
Theorem statedb_refines_flat (Keccak256Hash : bytes → hash) (reader : Reader)
    (HR : ReaderOk Keccak256Hash reader) (HN : NoOrphanSlots reader)
    (s : WfState Keccak256Hash reader) (f : flatState) ops :
  Forall world_op_ok ops →
  @same_world RefUint256 _ _ (StateDBWorld Keccak256Hash reader) FlatWorldState s f →
  @same_world RefUint256 _ _ (StateDBWorld Keccak256Hash reader) FlatWorldState
    (foldl (@world_exec RefUint256 _ (StateDBWorld Keccak256Hash reader)) s ops)
    (foldl (@world_exec RefUint256 _ FlatWorldState) f ops).
Proof. intros Hops Hs. by apply same_world_run. Qed.

(** *** A concrete run *)

Lemma toyReader_no_orphans : NoOrphanSlots toyReader.
Proof.
  intros a k v Ha. cbn. case_if; [|by intros [= <-]].
  destruct (Ha (mkAccount 3 100 EmptyRootHash (toyKeccak [96; 1]))). cbn. by subst.
Qed.

Definition toyWf : WfState toyKeccak toyReader :=
  NewWithReader ↾ co_wf _ _ _ (coherent_new toyKeccak toyReader toyReader_ok).

(** The same accounts as the database of [toyReader]. *)
Definition toyFlat : flatState :=
  {| fs_balance := <[9 := 100]> ∅; fs_nonce := <[9 := 3]> ∅; fs_storage := <[(9, 5) := 77]> ∅ |}.

Definition toyWorldOps : list WorldOp := [WAdd 9 5; WSub 9 50; WState 9 5 0; WState 4 4 4; WNonce 4 1].

Lemma toy_same_world :
  @same_world RefUint256 _ _ (@StateDBWorld RefUint256 toyKeccak toyReader toyReader_ok toyReader_no_orphans)
    FlatWorldState toyWf toyFlat.
Proof.
  intros a. unfold toyWf, toyFlat. cbn. unfold GetBalance, GetNonce, GetState, withObject, getStateObject.
  cbn. rewrite !lookup_empty. cbn. destruct (decide (a = 9)) as [->|Ha].
  - cbn. split_and!; [done..|]. intros k. unfold obj_GetState, obj_GetCommittedState; cbn.
    rewrite !lookup_empty. cbn. rewrite lookup_insert. destruct (Z.eqb_spec k 5) as [->|Hk]; cbn.
    + by rewrite decide_True.
    + rewrite decide_False by congruence. by rewrite lookup_empty.
  - apply Z.eqb_neq in Ha as Ha'. rewrite Ha'. cbn. rewrite !lookup_insert_ne, !lookup_empty by congruence.
    split_and!; [done..|]. intros k. by rewrite lookup_insert_ne, lookup_empty by congruence.
Qed.

Lemma statedb_refines_flat_witness :
  let s := foldl (@world_exec RefUint256 _
      (@StateDBWorld RefUint256 toyKeccak toyReader toyReader_ok toyReader_no_orphans)) toyWf toyWorldOps in
  (@State.GetBalance _ _ (@StateDBWorld RefUint256 toyKeccak toyReader toyReader_ok toyReader_no_orphans) s 9) = 55.
Proof.
  destruct (statedb_refines_flat toyKeccak toyReader toyReader_ok toyReader_no_orphans toyWf toyFlat
    toyWorldOps) with (a := 9) as (H & _ & _).
  - repeat constructor; cbn; unfold two256; lia.
  - exact toy_same_world.
  - etransitivity; [exact H|]. vm_compute. reflexivity.
Defined.
End StateRefinement.
