(* ===== verification/Finalise.v ===== *)
(** * The transaction boundary

    [StateDB.Finalise]: the dirty accounts are deleted or their dirty slots
    become the committed values, in whatever order Go iterates the map of dirty
    addresses, and the journal starts anew. *)

From S2P Require Import Prelude Bytes State StateDB Journal StateRefinement.

Module Finalise.
Import StateDB Journal StateRefinement.

Section Theory.
Context {U : Uint256} (Keccak256Hash : bytes → hash) (reader : Reader).

Local Abbreviation committed := (committed reader).
Local Abbreviation finaliseSlot := (finaliseSlot reader).

(** [s'] differs from [s] in the objects at [a] only. *)
Record local_at (a : address) (s s' : StateDB) : Prop := {
  la_objects b : b ≠ a → s'.(stateObjects) !! b = s.(stateObjects) !! b;
  la_destruct b : b ≠ a → s'.(stateObjectsDestruct) !! b = s.(stateObjectsDestruct) !! b;
  la_rest : (s'.(thash), s'.(txIndex), s'.(logs), s'.(logSize), s'.(accessList), s'.(transientStorage))
    = (s.(thash), s.(txIndex), s.(logs), s.(logSize), s.(accessList), s.(transientStorage));
}.

#[local] Instance local_at_preorder a : PreOrder (local_at a).
Proof.
  split; [by constructor|]. intros s1 s2 s3 [O1 D1 R1] [O2 D2 R2].
  constructor; [intros; rewrite O2, O1 by done; done|intros; rewrite D2, D1 by done; done|congruence].
Qed.

Lemma local_modObj a f s : local_at a s (modObj a f s).
Proof. constructor; try done. intros b Hb. cbn. by rewrite lookup_alter_ne. Qed.

Lemma local_recordStorageRead a b k v s : local_at a s (recordStorageRead b k v s).
Proof. unfold recordStorageRead. destruct (_ !! _); by constructor. Qed.

Lemma local_setError a e s : local_at a s (setError e s).
Proof. unfold setError. destruct (dbErr s); by constructor. Qed.

Lemma local_GetCommittedState o k s :
  local_at o.(obj_address) s (obj_GetCommittedState reader o k s).2.
Proof.
  unfold obj_GetCommittedState. set (s0 := match originStorage o !! k with Some _ => _ | None => _ end).
  assert (H0 : local_at (obj_address o) s s0).
  { unfold s0. destruct (originStorage o !! k); [apply local_recordStorageRead|reflexivity]. }
  assert (Hc : ∀ v, local_at (obj_address o) s
    (recordStorageRead (obj_address o) k v (modObj (obj_address o) (cacheOrigin k v) s0))).
  { intros v. etrans; [exact H0|]. etrans; [apply local_modObj|apply local_recordStorageRead]. }
  repeat case_match; cbn; auto. etrans; [exact H0|apply local_setError].
Qed.

(** What the loop over the dirty slots keeps of an object. *)
Record same_account (o o' : stateObject) : Prop := {
  sa_address : o'.(obj_address) = o.(obj_address);
  sa_origin : o'.(obj_origin) = o.(obj_origin);
  sa_data : o'.(data) = o.(data);
  sa_code : codeOf Keccak256Hash reader o' = codeOf Keccak256Hash reader o;
  sa_destructed : o'.(selfDestructed) = o.(selfDestructed);
}.

#[local] Instance same_account_preorder : PreOrder same_account.
Proof. split; [by constructor|]. intros o1 o2 o3 [] []. constructor; congruence. Qed.

(** One slot: the written value is the committed one. *)
Lemma finaliseSlot_spec a s k v o :
  s.(stateObjects) !! a = Some o → o.(obj_address) = a →
  ∃ o', (finaliseSlot a s (k, v)).(stateObjects) !! a = Some o' ∧ same_account o o'
    ∧ local_at a s (finaliseSlot a s (k, v))
    ∧ (finaliseSlot a s (k, v)).(stateObjectsDestruct) = s.(stateObjectsDestruct)
    ∧ ∀ k', committed s.(stateObjectsDestruct) o' k'
        = if decide (k = k') then v else committed s.(stateObjectsDestruct) o k'.
Proof.
  intros Hl Ha. set (d := stateObjectsDestruct s).
  set (pend := λ o, set_pendingStorage (<[k := v]> (pendingStorage o)) o).
  assert (Hpend : ∀ o1 k', (∀ k'', committed d o1 k'' = committed d o k'') → obj_address o1 = a →
    committed d (pend o1) k' = if decide (k = k') then v else committed d o k').
  { intros o1 k' H1 Ha1. rewrite <- (H1 k'). unfold Journal.committed, pend; cbn.
    rewrite lookup_insert. by case_decide. }
  assert (Hmod : ∀ s1 o1, stateObjects s1 !! a = Some o1 → same_account o o1 → local_at a s s1 →
    stateObjectsDestruct s1 = d → (∀ k', committed d o1 k' = committed d o k') →
    ∃ o', stateObjects (modObj a pend s1) !! a = Some o' ∧ same_account o o'
      ∧ local_at a s (modObj a pend s1) ∧ stateObjectsDestruct (modObj a pend s1) = d
      ∧ ∀ k', committed d o' k' = if decide (k = k') then v else committed d o k').
  { intros s1 o1 Hl1 Hs1 L1 D1 C1. exists (pend o1). split_and!.
    - cbn. by rewrite lookup_alter, decide_True, Hl1.
    - etrans; [done|]. by constructor.
    - etrans; [done|apply local_modObj].
    - done.
    - intros k'. apply Hpend; [done|]. rewrite (sa_address _ _ Hs1). done. }
  unfold finaliseSlot, StateDB.finaliseSlot. rewrite Hl. fold pend.
  destruct (uncommittedStorage o !! k) as [origin|].
  - case_if.
    + eapply Hmod; [cbn; by rewrite lookup_alter, decide_True, Hl|by constructor|apply local_modObj|done|done].
    + apply (Hmod s o); done || reflexivity.
  - destruct (obj_GetCommittedState_spec Keccak256Hash reader o k s) as (o1 & s1 & E & Hu & He & _ & Hl1).
    { by rewrite Ha. }
    pose proof (local_GetCommittedState o k s) as L. rewrite E, Ha in *. cbn in L. destruct He.
    eapply Hmod.
    + cbn. by rewrite lookup_alter, decide_True, Hl1.
    + constructor; cbn; done.
    + etrans; [done|apply local_modObj].
    + cbn. by rewrite (rest_destruct _ _ (upd_rest _ _ _ _ _ _ Hu)).
    + exact oe_committed0.
Qed.

(** The loop over the dirty slots. *)
Lemma finaliseSlots_spec a l s o :
  NoDup l.*1 → s.(stateObjects) !! a = Some o → o.(obj_address) = a →
  ∃ o', (foldl (finaliseSlot a) s l).(stateObjects) !! a = Some o' ∧ same_account o o'
    ∧ local_at a s (foldl (finaliseSlot a) s l)
    ∧ (foldl (finaliseSlot a) s l).(stateObjectsDestruct) = s.(stateObjectsDestruct)
    ∧ ∀ k, committed s.(stateObjectsDestruct) o' k
        = default (committed s.(stateObjectsDestruct) o k) ((list_to_map l : gmap Z Z) !! k).
Proof.
  revert s o. induction l as [|[k v] l IH]; intros s o Hnd Hl Ha.
  { exists o. split_and!; done || reflexivity. }
  apply NoDup_cons in Hnd as [Hk Hnd].
  destruct (finaliseSlot_spec a s k v o Hl Ha) as (o1 & Hl1 & S1 & L1 & D1 & C1).
  destruct (IH (finaliseSlot a s (k, v)) o1) as (o' & Hl' & S' & L' & D' & C');
    [done|done|by rewrite (sa_address _ _ S1)|].
  exists o'. split_and!; [done|by etrans|by etrans|by etrans|].
  intros k'. rewrite D1 in C'. rewrite C', C1. cbn. rewrite lookup_insert.
  case_decide; [|done]. subst k'. rewrite (not_elem_of_list_to_map_1 l k); done.
Qed.

(** [stateObject.finalise]: the slots' values become the committed ones. *)
Lemma obj_finalise_spec o s :
  live s o →
  ∃ o', (obj_finalise reader o s).(stateObjects) !! o.(obj_address) = Some o' ∧ same_account o o'
    ∧ local_at o.(obj_address) s (obj_finalise reader o s)
    ∧ (obj_finalise reader o s).(stateObjectsDestruct) = s.(stateObjectsDestruct)
    ∧ o'.(dirtyStorage) = ∅ ∧ o'.(newContract) = false
    ∧ ∀ k, committed s.(stateObjectsDestruct) o' k = slotOf reader s.(stateObjectsDestruct) o k.
Proof.
  intros Hl.
  destruct (finaliseSlots_spec (obj_address o) (map_to_list (dirtyStorage o)) s o)
    as (o1 & Hl1 & S1 & L1 & D1 & C1); [apply NoDup_fst_map_to_list|done|done|].
  unfold obj_finalise. set (s1 := foldl _ _ _) in *.
  exists (set_newContract false (set_dirtyStorage ∅ o1)). split_and!.
  - cbn. by rewrite lookup_alter, decide_True, Hl1.
  - etrans; [done|]. by constructor.
  - etrans; [done|apply local_modObj].
  - done.
  - done.
  - done.
  - intros k. unfold slotOf. rewrite <- (list_to_map_to_list (dirtyStorage o)) at 1. by rewrite <- C1.
Qed.

(** ** The loop over the dirty addresses *)

Definition doomed (del : bool) (o : stateObject) : bool :=
  o.(selfDestructed) || (del && empty Keccak256Hash o).

(** What [Finalise] makes of the account [a]. *)
Definition settled (del : bool) (a : address) (s s' : StateDB) : Prop :=
  match s.(stateObjects) !! a with
  | None => s'.(stateObjects) !! a = None
      ∧ s'.(stateObjectsDestruct) !! a = s.(stateObjectsDestruct) !! a
  | Some o =>
      if doomed del o
      then s'.(stateObjects) !! a = None ∧ is_Some (s'.(stateObjectsDestruct) !! a)
      else s'.(stateObjectsDestruct) !! a = s.(stateObjectsDestruct) !! a
        ∧ ∃ o', s'.(stateObjects) !! a = Some o' ∧ same_account o o'
          ∧ o'.(dirtyStorage) = ∅ ∧ o'.(newContract) = false
          ∧ ∀ k, committed s'.(stateObjectsDestruct) o' k = slotOf reader s.(stateObjectsDestruct) o k
  end.

Lemma committed_local d1 d2 o k :
  d1 !! o.(obj_address) = d2 !! o.(obj_address) → committed d1 o k = committed d2 o k.
Proof. intros H. unfold Journal.committed. by rewrite H. Qed.

Definition keyed (s : StateDB) : Prop := ∀ a o, s.(stateObjects) !! a = Some o → o.(obj_address) = a.

(** The outcome at [a] only depends on the entries for [a] before ... *)
Lemma settled_before del a s0 s s' :
  keyed s0 → s.(stateObjects) !! a = s0.(stateObjects) !! a →
  s.(stateObjectsDestruct) !! a = s0.(stateObjectsDestruct) !! a →
  settled del a s s' → settled del a s0 s'.
Proof.
  intros Hk Ho Hd. unfold settled. rewrite Ho, Hd.
  destruct (stateObjects s0 !! a) as [o|] eqn:E; [|done]. destruct (doomed del o); [done|].
  intros (? & o' & ? & ? & ? & ? & Hc). split; [done|]. exists o'. split_and!; try done.
  intros k. rewrite Hc. unfold slotOf. by rewrite (committed_local _ (stateObjectsDestruct s0)) by (by rewrite (Hk _ _ E)).
Qed.

(** ... and after. *)
Lemma settled_after del a s s1 s' :
  keyed s → s'.(stateObjects) !! a = s1.(stateObjects) !! a →
  s'.(stateObjectsDestruct) !! a = s1.(stateObjectsDestruct) !! a →
  settled del a s s1 → settled del a s s'.
Proof.
  intros Hk Ho Hd. unfold settled. rewrite Ho, Hd.
  destruct (stateObjects s !! a) as [o|] eqn:E; [|done]. destruct (doomed del o); [done|].
  intros (? & o' & ? & Hs & ? & ? & Hc). split; [done|]. exists o'. split_and!; try done.
  intros k. rewrite <- Hc. apply committed_local. by rewrite (sa_address _ _ Hs), (Hk _ _ E).
Qed.

Lemma finaliseAccount_spec del a s :
  keyed s →
  let s' := finaliseAccount Keccak256Hash reader del s a in
  local_at a s s' ∧ settled del a s s' ∧ keyed s'.
Proof.
  intros Hk. unfold finaliseAccount, settled. fold (doomed del).
  destruct (stateObjects s !! a) as [o|] eqn:E; [|by split_and!; [reflexivity|..]].
  pose proof (Hk _ _ E) as Ha. fold (doomed del o). destruct (doomed del o) eqn:Ed.
  - assert (Hkey : ∀ b ob, delete a (stateObjects s) !! b = Some ob → obj_address ob = b).
    { intros b ob. rewrite lookup_delete. case_decide; [done|apply Hk]. }
    rewrite Ha. cbn. destruct (stateObjectsDestruct s !! a) eqn:Es.
    + split_and!; [constructor; cbn; [|done|done]|cbn; by rewrite lookup_delete, decide_True|cbn; by rewrite Es|done].
      intros b Hb. by rewrite lookup_delete_ne.
    + split_and!; [constructor; cbn; [| |done]|cbn; by rewrite lookup_delete, decide_True
        |cbn; by rewrite lookup_insert, decide_True|done].
      * intros b Hb. by rewrite lookup_delete_ne.
      * intros b Hb. by rewrite lookup_insert_ne.
  - destruct (obj_finalise_spec o s) as (o' & Hl' & S & L & D & Hd & Hn & Hc); [by unfold live; rewrite Ha|].
    rewrite Ha in *. set (s1 := obj_finalise reader o s) in *. clearbody s1. split_and!.
    + destruct L. by constructor.
    + cbn. by rewrite D.
    + exists o'. split_and!; try done. intros k. cbn. by rewrite D.
    + intros b ob. cbn. destruct (decide (b = a)) as [->|Hb].
      * rewrite Hl'. intros [= <-]. by rewrite (sa_address _ _ S).
      * rewrite (la_objects _ _ _ L) by done. apply Hk.
Qed.

Lemma finaliseAccounts_spec del order s :
  NoDup order → keyed s →
  let s' := foldl (finaliseAccount Keccak256Hash reader del) s order in
  keyed s' ∧ (∀ a, a ∈ order → settled del a s s')
  ∧ (∀ a, a ∉ order → s'.(stateObjects) !! a = s.(stateObjects) !! a
       ∧ s'.(stateObjectsDestruct) !! a = s.(stateObjectsDestruct) !! a)
  ∧ (s'.(thash), s'.(txIndex), s'.(logs), s'.(logSize), s'.(accessList), s'.(transientStorage))
    = (s.(thash), s.(txIndex), s.(logs), s.(logSize), s.(accessList), s.(transientStorage)).
Proof.
  revert s. induction order as [|b order IH]; intros s Hnd Hk; cbn.
  { split_and!; try done. intros a Ha. by apply elem_of_nil in Ha. }
  apply NoDup_cons in Hnd as [Hb Hnd].
  destruct (finaliseAccount_spec del b s Hk) as (L & S & Hk1).
  set (s1 := finaliseAccount _ _ _ s b) in *. destruct (IH s1 Hnd Hk1) as (Hk' & Hin & Hout & R).
  split_and!; [done| | |rewrite R; apply L].
  - intros a [->|Ha]%elem_of_cons.
    + destruct (Hout b Hb). by eapply settled_after.
    + assert (a ≠ b) by (by intros ->). eapply settled_before; [done| | |by apply Hin]; by apply L.
  - intros a [Hab Ha]%not_elem_of_cons. destruct (Hout a Ha) as [-> ->]. split; by apply L.
Qed.

(** ** The accounts after the boundary *)

Local Abbreviation peek := (peek Keccak256Hash reader).
Local Abbreviation wf := (wf Keccak256Hash reader).

Lemma wf_keyed s : wf s → keyed s.
Proof. intros Hw a o Ho. eapply (ow_address _ _ _ _ _ (wf_objects _ _ _ Hw _ _ (peek_live _ _ _ _ _ Ho))). Qed.

(** The account survives with its slots' values. *)
Record survives (d d' : gmap Z stateObject) (o o' : stateObject) : Prop := {
  su_account : same_account o o';
  su_slot k : slotOf reader d' o' k = slotOf reader d o k;
  su_dirty k v : o'.(dirtyStorage) !! k = Some v → v ≠ committed d' o' k;
}.

Definition deleted (order : list address) (del : bool) (s : StateDB) (a : address) : Prop :=
  a ∈ order ∧ ∃ o, s.(stateObjects) !! a = Some o ∧ doomed del o = true.

Lemma survives_same s a o d' :
  wf s → peek s a = Some o → d' !! a = s.(stateObjectsDestruct) !! a →
  survives s.(stateObjectsDestruct) d' o o.
Proof.
  intros Hw Ho Hd. pose proof (wf_objects _ _ _ Hw _ _ Ho) as [Ha _ Hdirty _].
  assert (Hc : ∀ k, committed d' o k = committed (stateObjectsDestruct s) o k).
  { intros k. apply committed_local. by rewrite Ha. }
  constructor; [reflexivity|..].
  - intros k. unfold slotOf. by rewrite Hc.
  - intros k v. rewrite Hc. apply Hdirty.
Qed.

Lemma peek_unloaded s s' a :
  s.(stateObjects) !! a = None → s'.(stateObjects) !! a = None →
  s'.(stateObjectsDestruct) !! a = s.(stateObjectsDestruct) !! a → peek s' a = peek s a.
Proof. intros H H' Hd. unfold Journal.peek, load. by rewrite H, H', Hd. Qed.

Lemma finalise_accounts del order s a :
  NoDup order → wf s →
  let s' := foldl (finaliseAccount Keccak256Hash reader del) s order in
  (deleted order del s a → peek s' a = None) ∧
  (¬ deleted order del s a →
     option_Forall2 (survives s.(stateObjectsDestruct) s'.(stateObjectsDestruct)) (peek s a) (peek s' a)).
Proof.
  intros Hnd Hw s'. destruct (finaliseAccounts_spec del order s Hnd (wf_keyed s Hw)) as (_ & Hin & Hout & _).
  fold s' in Hin, Hout. split.
  - intros (Ha & o & Ho & Hd). specialize (Hin a Ha). unfold settled in Hin. rewrite Ho, Hd in Hin.
    destruct Hin as [Hn [od Hod]]. unfold Journal.peek, load. by rewrite Hn, Hod.
  - intros Hnot. destruct (decide (a ∈ order)) as [Ha|Ha].
    + specialize (Hin a Ha). unfold settled in Hin. destruct (stateObjects s !! a) as [o|] eqn:Ho.
      * destruct (doomed del o) eqn:Ed; [exfalso; apply Hnot; by split; [|exists o]|].
        destruct Hin as (Hd & o' & Ho' & Hs & Hdirty & _ & Hc).
        rewrite (peek_live _ _ _ _ _ Ho), (peek_live _ _ _ _ _ Ho'). constructor. constructor; [done|..].
        -- intros k. unfold slotOf at 1. rewrite Hdirty. apply Hc.
        -- rewrite Hdirty. intros k v Hv. done.
      * destruct Hin as [Hn Hd]. rewrite (peek_unloaded s s' a) by done.
        destruct (peek s a) as [o|] eqn:Hp; constructor. by eapply survives_same.
    + destruct (Hout a Ha) as [Ho Hd].
      assert (Hp : peek s' a = peek s a) by (unfold Journal.peek, load; by rewrite Ho, Hd).
      rewrite Hp. destruct (peek s a) as [o|] eqn:Ep; constructor. by eapply survives_same.
Qed.

Lemma Finalise_wf del order s : NoDup order → wf s → wf (Finalise_in Keccak256Hash reader order del s).
Proof.
  intros Hnd Hw. destruct (finaliseAccounts_spec del order s Hnd (wf_keyed s Hw)) as (_ & _ & _ & [= R1 R2 R3 R4 R5 R6]).
  unfold Finalise_in. pose proof (λ a, finalise_accounts del order s a Hnd Hw) as Hacc. cbn in Hacc.
  set (s' := foldl _ _ _) in *. destruct Hw. constructor; cbn; rewrite ?R3, ?R4, ?R5, ?R6; try done.
  intros a o'. change (peek (clearJournalAndRefund s') a) with (peek s' a). intros Ho'.
  destruct (Hacc a) as [Hdel Hsurv].
  assert (Hnot : ¬ deleted order del s a) by (intros H; by rewrite Hdel in Ho').
  specialize (Hsurv Hnot). rewrite Ho' in Hsurv. inversion Hsurv as [o ? Hs Ho|]; subst.
  symmetry in Ho. apply wf_objects0 in Ho as []. destruct Hs as [[] Hslot Hd].
  constructor; [congruence|by rewrite sa_data0|exact Hd|by rewrite sa_code0, sa_data0].
Qed.
End Theory.

(** A getter whose answer survives the boundary. *)
Lemma withObject_survives {U : Uint256} (Keccak256Hash : bytes → hash) (reader : Reader)
    {A} a (dflt : A) f g g' s s' :
  wf Keccak256Hash reader s → wf Keccak256Hash reader s' →
  option_Forall2 (survives Keccak256Hash reader s.(stateObjectsDestruct) s'.(stateObjectsDestruct))
    (peek Keccak256Hash reader s a) (peek Keccak256Hash reader s' a) →
  (∀ o t, live t o → t.(stateObjectsDestruct) = s.(stateObjectsDestruct) → (f o t).1 = g o) →
  (∀ o t, live t o → t.(stateObjectsDestruct) = s'.(stateObjectsDestruct) → (f o t).1 = g' o) →
  (∀ o o', survives Keccak256Hash reader s.(stateObjectsDestruct) s'.(stateObjectsDestruct) o o' →
     g' o' = g o) →
  (withObject Keccak256Hash reader a dflt f s').1 = (withObject Keccak256Hash reader a dflt f s).1.
Proof.
  intros Hw Hw' Hs Hf Hf' Hg. rewrite (withObject_answer _ _ a dflt f g s) by auto.
  rewrite (withObject_answer _ _ a dflt f g' s') by auto. destruct Hs; auto.
Qed.

Lemma obj_GetState_answer {U : Uint256} (Keccak256Hash : bytes → hash) reader o k t :
  live t o → (obj_GetState reader o k t).1 = slotOf reader t.(stateObjectsDestruct) o k.
Proof.
  intros Hl. unfold obj_GetState, slotOf. destruct (dirtyStorage o !! k); [done|].
  by destruct (obj_GetCommittedState_spec Keccak256Hash reader o k t Hl) as (? & ? & -> & _).
Qed.

(** The account [a] does not outlive the transaction. *)
Definition swept (Keccak256Hash : bytes → hash) (del : bool) (s : StateDB) (a : address) : Prop :=
  is_Some (s.(journal).(dirties) !! a)
  ∧ ∃ o, s.(stateObjects) !! a = Some o ∧ doomed Keccak256Hash del o = true.

(** C38: [Finalise] at a transaction boundary, for every order in which Go
    visits the dirty addresses.  The journal is empty and the refund zero; a
    dirty account that self-destructed, or that is empty when empty accounts are
    swept, no longer exists; every other account answers its getters as before,
    and a dirty one has its current slots as committed values. *)
Theorem finalise_boundary {U : Uint256} (Keccak256Hash : bytes → hash) (reader : Reader)
    del order s a k :
  wf Keccak256Hash reader s →
  NoDup order → (∀ b, b ∈ order ↔ is_Some (s.(journal).(dirties) !! b)) →
  let s' := Finalise_in Keccak256Hash reader order del s in
  s'.(journal) = newJournal ∧ GetRefund s' = 0 ∧ wf Keccak256Hash reader s'
  ∧ (swept Keccak256Hash del s a → (Exist Keccak256Hash reader a s').1 = false)
  ∧ (¬ swept Keccak256Hash del s a →
       (GetBalance Keccak256Hash reader a s').1 = (GetBalance Keccak256Hash reader a s).1
       ∧ (GetNonce Keccak256Hash reader a s').1 = (GetNonce Keccak256Hash reader a s).1
       ∧ (GetCode Keccak256Hash reader a s').1 = (GetCode Keccak256Hash reader a s).1
       ∧ (GetState Keccak256Hash reader a k s').1 = (GetState Keccak256Hash reader a k s).1
       ∧ (is_Some (s.(journal).(dirties) !! a) → is_Some (s.(stateObjects) !! a) →
            (GetCommittedState Keccak256Hash reader a k s').1 = (GetState Keccak256Hash reader a k s).1
            ∧ (IsNewContract Keccak256Hash reader a s').1 = false)).
Proof.
  intros Hw Hnd Hord s'. pose proof (Finalise_wf Keccak256Hash reader del order s Hnd Hw) as Hw'.
  destruct (finalise_accounts Keccak256Hash reader del order s a Hnd Hw) as [Hdel Hsurv].
  destruct (finaliseAccounts_spec Keccak256Hash reader del order s Hnd (wf_keyed _ _ s Hw)) as (_ & Hin & _).
  assert (Hsw : swept Keccak256Hash del s a ↔ deleted Keccak256Hash order del s a).
  { unfold swept, deleted. by rewrite Hord. }
  split_and!; [done|done|done|..].
  - intros Hs%Hsw. apply Hdel in Hs. unfold Exist.
    rewrite (withObject_answer _ _ a false _ (λ _, true)) by done.
    change (peek Keccak256Hash reader s' a) with
      (peek Keccak256Hash reader (foldl (finaliseAccount Keccak256Hash reader del) s order) a).
    by rewrite Hs.
  - intros Hs. rewrite Hsw in Hs. specialize (Hsurv Hs).
    change (stateObjectsDestruct (foldl _ s order)) with (stateObjectsDestruct s') in Hsurv.
    change (peek Keccak256Hash reader (foldl _ s order) a) with (peek Keccak256Hash reader s' a) in Hsurv.
    assert (Hslot : ∀ u o t, live t o → stateObjectsDestruct t = stateObjectsDestruct u →
      (obj_GetState reader o k t).1 = slotOf reader (stateObjectsDestruct u) o k).
    { intros u o t Hl <-. by apply (obj_GetState_answer Keccak256Hash). }
    split_and!.
    + apply (withObject_survives _ _ _ _ _ (λ o, Balance (data o)) (λ o, Balance (data o)));
        try done. intros o o' [[] _ _]. congruence.
    + apply (withObject_survives _ _ _ _ _ (λ o, Nonce (data o)) (λ o, Nonce (data o)));
        try done. intros o o' [[] _ _]. congruence.
    + apply (withObject_survives _ _ _ _ _ (codeOf Keccak256Hash reader) (codeOf Keccak256Hash reader));
        try done; [intros; apply obj_Code_answer..|]. intros o o' [[] _ _]. congruence.
    + apply (withObject_survives _ _ _ _ _ (λ o, slotOf reader (stateObjectsDestruct s) o k)
        (λ o, slotOf reader (stateObjectsDestruct s') o k)); try done; [apply Hslot..|].
      intros o o' []. done.
    + intros Hdirty [o Ho]. apply Hord in Hdirty as Ha. specialize (Hin a Ha). unfold settled in Hin.
      rewrite Ho in Hin. destruct (doomed Keccak256Hash del o) eqn:Ed; [exfalso; apply Hs; by split; [|exists o]|].
      destruct Hin as (Hd & o' & Ho' & Hsame & _ & Hnew & Hc).
      unfold GetCommittedState, GetState, IsNewContract.
      rewrite (withObject_answer _ _ a zeroHash _ (λ o, slotOf reader (stateObjectsDestruct s) o k) s)
        by (done || intros; by apply Hslot).
      rewrite (withObject_answer _ _ a zeroHash _ (λ o, committed reader (stateObjectsDestruct s') o k) s').
      * rewrite (withObject_answer _ _ a false _ newContract s') by done.
        rewrite (peek_live _ _ _ _ _ Ho), (peek_live _ _ s' a o' Ho'). split; [apply Hc|done].
      * done.
      * intros p t _ Hl <-. by destruct (obj_GetCommittedState_spec Keccak256Hash reader p k t Hl) as (? & ? & -> & _).
Qed.

(** The order [Finalise] itself takes. *)
Lemma dirties_order (d : gmap Z Z) :
  NoDup (map_to_list d).*1 ∧ ∀ b, b ∈ (map_to_list d).*1 ↔ is_Some (d !! b).
Proof.
  split; [apply NoDup_fst_map_to_list|]. intros b. rewrite list_elem_of_fmap. split.
  - intros ([c n] & -> & H%elem_of_map_to_list). cbn. eauto.
  - intros [n Hn]. exists (b, n). by rewrite elem_of_map_to_list.
Qed.

(** The run of [Journal.toyOps]: account 9 self-destructs. *)
Lemma toyS2_wf : @wf toyKeccak toyReader toyS2.
Proof.
  apply co_wf, (@coherent_steps RefUint256 _ _ (Snapshot toyS).2 toyOps toyS2).
  - apply run_steps. vm_compute. reflexivity.
  - apply coherent_Snapshot, (@coherent_steps RefUint256 _ _ NewWithReader toyBefore toyS).
    + apply run_steps. vm_compute. reflexivity.
    + apply coherent_new, toyReader_ok.
Qed.

Lemma finalise_boundary_witness :
  (Exist toyKeccak toyReader 9 toyS2).1 = true
  ∧ (Exist toyKeccak toyReader 9 (Finalise toyKeccak toyReader true toyS2)).1 = false.
Proof.
  split; [vm_compute; reflexivity|].
  destruct (@finalise_boundary RefUint256 toyKeccak toyReader true
    (map_to_list (dirties (journal toyS2))).*1 toyS2 9 0) as (_ & _ & _ & H & _).
  - exact toyS2_wf.
  - apply dirties_order.
  - apply dirties_order.
  - apply H. split; [vm_compute; eauto|]. eexists. split; [vm_compute; reflexivity|]. reflexivity.
Defined.
End Finalise.
