(* ===== verification/Speculative.v ===== *)
(** * Speculative write-sets

    [core/state/speculative_delta.go]: the optimistic executor runs a
    transaction on a copy of the state, exports what it changed as a delta, and
    merges the delta into the canonical state when every value it started from
    is still there.

    A [nil] Go slice of code is [None]; the state keeps an empty code as the
    [nil] its callers pass. *)

From S2P Require Import Prelude Bytes State StateDB Journal StateRefinement Finalise.

Module Speculative.
Import StateDB Journal StateRefinement.

Record SpeculativeSlot := mkSlot { slot_Key : hash; slot_Origin : hash; slot_Value : hash }.

Record SpeculativeRead := { read_Address : address; read_Key : hash; read_Value : hash }.

Record SpeculativeAccount := {
  acc_Address : address;
  acc_Origin : option StateAccount;
  acc_Current : option StateAccount;
  acc_Slots : list SpeculativeSlot;
  acc_Code : option bytes;
}.

Record SpeculativeDelta := { Accounts : list SpeculativeAccount; Reads : list SpeculativeRead }.

Inductive speculativeError := ErrSpeculativeDelta.

(** ** Orders

    Accounts are sorted by [Address.Hex] (EIP-55 mixed case), slots by
    [Hash.Hex], reads by their bytes. *)

Definition hexDigit (n : Z) : Z := if n <? 10 then 48 + n else 87 + n.

(** The [n] hexadecimal digits of [x], most significant first. *)
Definition hexDigits (n : nat) (x : Z) : bytes :=
  (λ i, hexDigit (Z.land (Z.shiftr x (4 * (Z.of_nat n - 1 - Z.of_nat i))) 15)) <$> seq 0 n.

(** [Address.checksumHex] without the constant [0x] *)
Definition checksumHex (Keccak256Hash : bytes → hash) (a : address) : bytes :=
  let buf := hexDigits 40 a in
  let h := Keccak256Hash buf in
  imap (λ i c, if (57 <? c) && (7 <? Z.land (Z.shiftr h (252 - 4 * Z.of_nat i)) 15) then c - 32 else c) buf.

(** Go's [<] on strings. *)
Fixpoint bytesLt (x y : bytes) : bool :=
  match x, y with
  | _, [] => false
  | [], _ => true
  | a :: x, b :: y => (a <? b) || ((a =? b) && bytesLt x y)
  end.

(** [sort.Slice] by a key. *)
Fixpoint insertBy {A} (lt : A → A → bool) (x : A) (l : list A) : list A :=
  match l with
  | [] => [x]
  | y :: l' => if lt y x then y :: insertBy lt x l' else x :: l
  end.

Definition sortBy {A} (lt : A → A → bool) (l : list A) : list A := foldr (insertBy lt) [] l.

Lemma insertBy_perm {A} lt (x : A) l : insertBy lt x l ≡ₚ x :: l.
Proof. induction l as [|y l IH]; cbn; [done|]. case_if; [|done]. rewrite IH. constructor. Qed.

Lemma sortBy_perm {A} lt (l : list A) : sortBy lt l ≡ₚ l.
Proof. induction l as [|x l IH]; cbn; [done|]. by rewrite insertBy_perm, IH. Qed.

Section Operations.
Context {U : Uint256} (Keccak256Hash : bytes → hash) (reader : Reader).

(** The read half of [StateDB.StorageAccessSummary]. *)
Definition storageReadSummary (s : StateDB) : list SpeculativeRead :=
  sortBy (λ x y, (x.(read_Address) <? y.(read_Address))
            || ((x.(read_Address) =? y.(read_Address)) && (x.(read_Key) <? y.(read_Key))))
    ((λ '((a, k), v), {| read_Address := a; read_Key := k; read_Value := v |})
       <$> map_to_list s.(storageReads)).

(** The slots of one account; an origin that was never loaded refuses the delta. *)
Definition deltaSlots (obj : stateObject) : result speculativeError (list SpeculativeSlot) :=
  slots ← foldr (λ '(key, value) r,
            slots ← r;
            match obj.(originStorage) !! key with
            | None => Err ErrSpeculativeDelta
            | Some origin => Ok (mkSlot key origin value :: slots)
            end) (Ok []) (map_to_list obj.(pendingStorage));
  Ok (sortBy (λ x y, x.(slot_Key) <? y.(slot_Key)) slots).

Definition deltaAccount (s : StateDB) (a : address) (m : mutation)
  : result speculativeError SpeculativeAccount :=
  match m.(typ), s.(stateObjects) !! a with
  | deletion, _ | _, None => Err ErrSpeculativeDelta
  | update, Some obj =>
      _ ← fail_if (obj.(selfDestructed)
            || (bool_decide (obj.(obj_origin) = None)
                && negb (obj.(data).(Root) =? EmptyRootHash))) ErrSpeculativeDelta;
      slots ← deltaSlots obj;
      Ok {| acc_Address := a; acc_Origin := obj.(obj_origin); acc_Current := Some obj.(data);
            acc_Slots := slots;
            acc_Code := if obj.(dirtyCode) && negb (bool_decide (obj.(code) = []))
                        then Some obj.(code) else None |}
  end.

Definition BuildSpeculativeDelta (s : StateDB) : result speculativeError SpeculativeDelta * StateDB :=
  match s.(dbErr) with
  | Some _ => (Err ErrSpeculativeDelta, s)
  | None =>
      let s := Finalise Keccak256Hash reader true s in
      (accounts ← foldr (λ '(a, m) r, accounts ← r; account ← deltaAccount s a m; Ok (account :: accounts))
                    (Ok []) (map_to_list s.(mutations));
       Ok {| Accounts := sortBy (λ x y, bytesLt (checksumHex Keccak256Hash x.(acc_Address))
                                          (checksumHex Keccak256Hash y.(acc_Address))) accounts;
             Reads := storageReadSummary s |},
       s)
  end.

Definition accountsEqual (a b : option StateAccount) : bool :=
  match a, b with
  | None, None => true
  | Some a, Some b =>
      (a.(Nonce) =? b.(Nonce)) && (a.(Root) =? b.(Root)) && (a.(CodeHash) =? b.(CodeHash))
      && (a.(Balance) =? b.(Balance))
  | _, _ => false
  end.

(** Checks [GetState] against a list of expected values, stopping at the first
    mismatch; the reads load what they touch. *)
Fixpoint checkSlots (expected : list (address * hash * hash)) (s : StateDB) : bool * StateDB :=
  match expected with
  | [] => (true, s)
  | (a, k, v) :: rest =>
      let '(w, s) := GetState Keccak256Hash reader a k s in
      if w =? v then checkSlots rest s else (false, s)
  end.

Fixpoint checkAccounts (accounts : list SpeculativeAccount) (s : StateDB) : bool * StateDB :=
  match accounts with
  | [] => (true, s)
  | account :: rest =>
      let '(obj, s) := getStateObject Keccak256Hash reader account.(acc_Address) s in
      if accountsEqual (data <$> obj) account.(acc_Origin) then
        let '(ok, s) := checkSlots ((λ slot, (account.(acc_Address), slot.(slot_Key), slot.(slot_Origin)))
                                     <$> account.(acc_Slots)) s in
        if ok then checkAccounts rest s else (false, s)
      else (false, s)
  end.

(** [true] when the delta can be applied. *)
Definition CanApplySpeculativeDelta (delta : SpeculativeDelta) (s : StateDB) : bool * StateDB :=
  let '(ok, s) := checkSlots ((λ r, (r.(read_Address), r.(read_Key), r.(read_Value))) <$> delta.(Reads)) s in
  if ok then checkAccounts delta.(Accounts) s else (false, s).

(** The body of the loop of [ApplySpeculativeDelta]. *)
Definition applyAccount (account : SpeculativeAccount) (s : StateDB) : result speculativeError StateDB :=
  let a := account.(acc_Address) in
  let s := match account.(acc_Origin) with None => CreateAccount Keccak256Hash a s | Some _ => s end in
  match account.(acc_Current) with
  | None => Err ErrSpeculativeDelta
  | Some current =>
      let s := SetBalance Keccak256Hash reader a current.(Balance) s in
      let s := SetNonce Keccak256Hash reader a current.(Nonce) s in
      let s := foldl (λ s slot, SetState Keccak256Hash reader a slot.(slot_Key) slot.(slot_Value) s)
                 s account.(acc_Slots) in
      Ok match account.(acc_Code) with Some c => SetCode Keccak256Hash reader a c s | None => s end
  end.

Fixpoint applyAccounts (accounts : list SpeculativeAccount) (s : StateDB) : result speculativeError StateDB :=
  match accounts with
  | [] => Ok s
  | account :: rest => s ← applyAccount account s; applyAccounts rest s
  end.

Definition ApplySpeculativeDelta (delta : SpeculativeDelta) (s : StateDB)
  : result speculativeError StateDB :=
  let '(ok, s) := CanApplySpeculativeDelta delta s in
  if ok then applyAccounts delta.(Accounts) s else Err ErrSpeculativeDelta.
End Operations.

(** ** What applying a delta does *)

Section Theory.
Context {U : Uint256} (Keccak256Hash : bytes → hash) (reader : Reader).
Context {HR : ReaderOk Keccak256Hash reader} {HN : NoOrphanSlots reader}.

Local Abbreviation wf := (wf Keccak256Hash reader).
Local Abbreviation peek := (peek Keccak256Hash reader).
Local Abbreviation upd := (upd Keccak256Hash reader).
Local Abbreviation found := (found Keccak256Hash reader).
Local Abbreviation codeOf := (codeOf Keccak256Hash reader).
Local Abbreviation slotOf := (slotOf reader).
Local Abbreviation checkSlots := (checkSlots Keccak256Hash reader).
Local Abbreviation checkAccounts := (checkAccounts Keccak256Hash reader).

(** The answers of the getters that a delta is about. *)
Definition account_view (a : address) (s : StateDB) :=
  ((found a s).(data).(Balance), (found a s).(data).(Nonce), codeOf (found a s)).

Definition slot_view (a : address) (k : hash) (s : StateDB) : hash :=
  slotOf s.(stateObjectsDestruct) (found a s) k.

(** States that answer alike and have the same accounts. *)
Record same_view (s s' : StateDB) : Prop := {
  sv_wf : wf s → wf s';
  sv_account a : account_view a s' = account_view a s;
  sv_slot a k : slot_view a k s' = slot_view a k s;
  sv_absent a : peek s' a = None ↔ peek s a = None;
  sv_data a : data <$> peek s' a = data <$> peek s a;
}.

#[global] Instance same_view_preorder : PreOrder same_view.
Proof.
  split; [by constructor|]. intros s1 s2 s3 [] []. constructor; intros; try congruence; auto.
  etrans; eauto.
Qed.

Lemma eqv_same_view s s' : eqv Keccak256Hash reader s' s → same_view s s'.
Proof.
  intros E. assert (Hd := eq_destruct _ _ _ _ E).
  assert (H : ∀ a, option_Forall2 (obj_eqv Keccak256Hash reader (stateObjectsDestruct s)) (peek s' a) (peek s a)).
  { intros a. rewrite <- Hd. apply E. }
  constructor.
  - intros Hw. eapply wf_eqv; [symmetry; exact E|done].
  - intros a. specialize (H a). unfold account_view, StateRefinement.found.
    destruct (peek s' a), (peek s a); inversion H as [? ? Ho|]; subst; cbn; [|done].
    destruct Ho. by rewrite oe_data0, oe_code0.
  - intros a k. specialize (H a). unfold slot_view, StateRefinement.found. rewrite Hd.
    destruct (peek s' a), (peek s a); inversion H as [? ? Ho|]; subst; cbn; [|done].
    eapply slotOf_eqv, Ho.
  - intros a. specialize (H a). by inversion H.
  - intros a. specialize (H a). inversion H as [? ? Ho|]; [|done]. cbn. by rewrite (oe_data _ _ _ _ _ Ho).
Qed.

(** Reads change caches only. *)
Lemma GetState_same_view a k s :
  wf s → same_view s (GetState Keccak256Hash reader a k s).2.
Proof.
  intros Hw. apply eqv_same_view. unfold GetState, withObject.
  destruct (getStateObject_spec Keccak256Hash reader a s) as (s' & E & Hu & J & Hl). rewrite E.
  assert (E' : eqv Keccak256Hash reader s' s) by (eapply upd_same; [done|by rewrite J]).
  destruct (peek s a) as [o|] eqn:Ho; [|done]. cbn.
  assert (Ha : obj_address o = a) by (eapply (ow_address _ _ _ _ _ (wf_objects _ _ _ Hw _ _ Ho))).
  unfold obj_GetState. destruct (dirtyStorage o !! k); [done|].
  destruct (obj_GetCommittedState_spec Keccak256Hash reader o k s') as (o' & s1 & E1 & Hu1 & He1 & J1 & _);
    [by rewrite Ha|]. rewrite E1. cbn. etrans; [|exact E'].
  eapply upd_eqv; [exact Hu1|apply upd_id|reflexivity| |by rewrite J1].
  rewrite (peek_live _ _ s' (obj_address o) o) by (by rewrite Ha). by constructor.
Qed.

Lemma checkSlots_spec expected s :
  wf s →
  same_view s (checkSlots expected s).2
  ∧ ((checkSlots expected s).1 = true ↔ Forall (λ '(a, k, v), slot_view a k s = v) expected).
Proof.
  revert s. induction expected as [|[[a k] v] rest IH]; intros s Hw; cbn.
  { split; [reflexivity|]. split; [by constructor|done]. }
  pose proof (GetState_same_view a k s Hw) as Hv. pose proof (GetState_found _ _ a k s Hw) as Hg.
  destruct (GetState Keccak256Hash reader a k s) as [w s1]. cbn in *. subst w.
  fold (slot_view a k s). case_if; cbn.
  - destruct (IH s1) as [Hv1 Hok]; [by apply Hv|]. split; [by etrans|].
    rewrite Forall_cons, Hok. split.
    + intros Hr. split; [done|]. eapply Forall_impl; [exact Hr|]. intros [[b k'] v'] <-. symmetry. apply Hv.
    + intros [_ Hr]. eapply Forall_impl; [exact Hr|]. intros [[b k'] v'] <-. apply Hv.
  - split; [done|]. rewrite Forall_cons. split; [done|]. by intros [? _].
Qed.

Lemma accountsEqual_spec x y : accountsEqual x y = true ↔ x = y.
Proof.
  unfold accountsEqual. destruct x as [[]|], y as [[]|]; cbn; [|done..].
  rewrite !andb_true_iff, !Z.eqb_eq. naive_solver.
Qed.

(** The account and the slots a delta entry expects. *)
Definition expects (s : StateDB) (account : SpeculativeAccount) : Prop :=
  data <$> peek s account.(acc_Address) = account.(acc_Origin)
  ∧ Forall (λ slot, slot_view account.(acc_Address) slot.(slot_Key) s = slot.(slot_Origin)) account.(acc_Slots).

Lemma expects_same_view s s' account : same_view s s' → expects s' account ↔ expects s account.
Proof.
  intros Hv. unfold expects. rewrite (sv_data _ _ Hv). apply and_iff_compat_l, Forall_iff.
  intros slot. by rewrite (sv_slot _ _ Hv).
Qed.

Lemma checkAccounts_spec accounts s :
  wf s →
  same_view s (checkAccounts accounts s).2
  ∧ ((checkAccounts accounts s).1 = true ↔ Forall (expects s) accounts).
Proof.
  revert s. induction accounts as [|account rest IH]; intros s Hw; cbn.
  { split; [reflexivity|]. split; [by constructor|done]. }
  destruct (getStateObject_spec Keccak256Hash reader (acc_Address account) s) as (s1 & E & Hu & J & _).
  rewrite E. assert (Hv1 : same_view s s1) by (eapply eqv_same_view, upd_same; [done|by rewrite J]).
  assert (Hw1 : wf s1) by (by apply Hv1). rewrite Forall_cons.
  destruct (accountsEqual _ _) eqn:Ea; cbn; cycle 1.
  { split; [done|]. split; [done|]. intros [[Hd%accountsEqual_spec _] _]. by rewrite Hd in Ea. }
  apply accountsEqual_spec in Ea.
  destruct (checkSlots_spec ((λ slot, (acc_Address account, slot_Key slot, slot_Origin slot)) <$> acc_Slots account) s1)
    as [Hv2 Hok]; [done|].
  destruct (checkSlots _ s1) as [ok s2]. cbn in *. assert (Hv12 : same_view s s2) by (by etrans).
  assert (Hslots : Forall (λ slot, slot_view (acc_Address account) (slot_Key slot) s = slot_Origin slot)
      (acc_Slots account) ↔ ok = true).
  { rewrite Hok, Forall_fmap. apply Forall_iff. intros slot. cbn. by rewrite (sv_slot _ _ Hv1). }
  destruct ok.
  - destruct (IH s2) as [Hv3 Hok3]; [by apply Hv12|]. split; [by etrans|].
    rewrite Hok3. unfold expects at 2. rewrite Hslots.
    rewrite (Forall_iff (expects s2) rest (expects s)) by (intros; by apply expects_same_view). tauto.
  - split; [done|]. unfold expects. rewrite Hslots. split; [done|]. by intros [[_ ?] _].
Qed.

(** *** The setters, seen through the getters *)

(** Only the account [a] may differ, and [s'] is well formed. *)
Record only (a : address) (s s' : StateDB) : Prop := {
  on_wf : wf s';
  on_peek b : b ≠ a → peek s' b = peek s b;
  on_destruct : s'.(stateObjectsDestruct) = s.(stateObjectsDestruct);
}.

Lemma only_trans a s1 s2 s3 : only a s1 s2 → only a s2 s3 → only a s1 s3.
Proof. intros [] []. constructor; [done|intros b Hb; by rewrite on_peek1, on_peek0|congruence]. Qed.

Lemma only_upd a o s s' :
  wf s → obj_wf Keccak256Hash reader s.(stateObjectsDestruct) a o → upd a (Some o) s s' → only a s s'.
Proof.
  intros Hw Ho Hu. constructor.
  - by eapply wf_upd.
  - intros b Hb. rewrite (upd_peek _ _ _ _ _ _ Hu). by rewrite decide_False.
  - apply rest_destruct, Hu.
Qed.

Lemma only_views a s s' b k :
  only a s s' → b ≠ a →
  account_view b s' = account_view b s ∧ slot_view b k s' = slot_view b k s ∧ peek s' b = peek s b.
Proof.
  intros [] Hb. unfold account_view, slot_view, StateRefinement.found. by rewrite on_peek0, on_destruct0.
Qed.

Lemma SetBalance_view a v s :
  wf s → 0 <= v < two256 →
  let s' := SetBalance Keccak256Hash reader a v s in
  only a s s' ∧ account_view a s' = (v, (account_view a s).1.2, (account_view a s).2)
  ∧ (∀ k, slot_view a k s' = slot_view a k s).
Proof.
  intros Hw Hv s'.
  assert (Hu : upd a (Some (setBalance v (found a s))) s s').
  { apply onObject_upd; [done|]. intros s1 Hl _. unfold obj_SetBalance.
    rewrite found_address by done. by apply upd_write. }
  split; [eapply only_upd; [done| |done]; by apply obj_wf_set; [apply found_wf|..]|].
  unfold account_view, slot_view. rewrite (found_upd _ _ a _ s s' a Hu), decide_True by done.
  rewrite (upd_destruct _ _ _ _ _ _ Hu). done.
Qed.

Lemma SetNonce_view a n s :
  wf s →
  let s' := SetNonce Keccak256Hash reader a n s in
  only a s s' ∧ account_view a s' = ((account_view a s).1.1, n, (account_view a s).2)
  ∧ (∀ k, slot_view a k s' = slot_view a k s).
Proof.
  intros Hw s'. pose proof (SetNonce_upd _ _ a n s Hw) as Hu. fold s' in Hu.
  split; [eapply only_upd; [done| |done]; apply obj_wf_set; [by apply found_wf|by apply balanceOf_range|done]|].
  unfold account_view, slot_view. rewrite (found_upd _ _ a _ s s' a Hu), decide_True by done.
  rewrite (upd_destruct _ _ _ _ _ _ Hu). done.
Qed.

Lemma SetState_view a k v s :
  wf s →
  let s' := SetState Keccak256Hash reader a k v s in
  only a s s' ∧ account_view a s' = account_view a s
  ∧ (∀ k', slot_view a k' s' = if decide (k = k') then v else slot_view a k' s).
Proof.
  intros Hw s'. destruct (SetState_upd _ _ a k v s Hw) as (o & Hu & He). fold s' in Hu. cbn in He.
  split.
  { eapply only_upd; [done| |done]. eapply obj_wf_eqv; [symmetry; exact He|]. by apply setState_wf, found_wf. }
  unfold account_view, slot_view. rewrite (found_upd _ _ a _ s s' a Hu), decide_True by done.
  rewrite (upd_destruct _ _ _ _ _ _ Hu). split.
  - rewrite (oe_data _ _ _ _ _ He), (oe_code _ _ _ _ _ He). unfold setState. by case_if.
  - intros k'. rewrite (slotOf_eqv _ _ _ _ _ _ He), slotOf_setState. by case_decide.
Qed.

Lemma SetCode_view a c s :
  wf s →
  let s' := SetCode Keccak256Hash reader a c s in
  only a s s' ∧ account_view a s' = ((account_view a s).1, c)
  ∧ (∀ k, slot_view a k s' = slot_view a k s).
Proof.
  intros Hw s'.
  assert (Hu : upd a (Some (setCode (Keccak256Hash c) c (found a s))) s s').
  { apply onObject_upd; [done|]. intros s1 Hl _. unfold obj_SetCode.
    rewrite found_address by done. by apply upd_write. }
  split.
  { eapply only_upd; [done| |done]. pose proof (found_wf _ _ a s Hw) as [Ha Hb Hd _].
    constructor; try done. by rewrite codeOf_setCode. }
  unfold account_view, slot_view. rewrite (found_upd _ _ a _ s s' a Hu), decide_True by done.
  rewrite (upd_destruct _ _ _ _ _ _ Hu), codeOf_setCode. done.
Qed.

Lemma CreateAccount_view a s :
  wf s → peek s a = None →
  let s' := CreateAccount Keccak256Hash a s in
  only a s s' ∧ account_view a s' = account_view a s ∧ (∀ k, slot_view a k s' = slot_view a k s).
Proof.
  intros Hw Hn s'.
  assert (Hu : upd a (Some (newObject Keccak256Hash a None)) s s').
  { constructor; [|done]. intros b. unfold Journal.peek at 1; cbn. rewrite lookup_insert. by case_decide. }
  split; [eapply only_upd; [done|apply newObject_wf|done]|].
  unfold account_view, slot_view. rewrite (found_upd _ _ a _ s s' a Hu), decide_True by done.
  rewrite (upd_destruct _ _ _ _ _ _ Hu). unfold StateRefinement.found. by rewrite Hn.
Qed.

(** The value a list of slots gives a key. *)
Definition slotValue (slots : list SpeculativeSlot) (k : hash) : option hash :=
  (list_to_map ((λ slot, (slot.(slot_Key), slot.(slot_Value))) <$> slots) : gmap Z Z) !! k.

Lemma setSlots_view a slots s :
  wf s → NoDup (slot_Key <$> slots) →
  let s' := foldl (λ s slot, SetState Keccak256Hash reader a (slot_Key slot) (slot_Value slot) s) s slots in
  only a s s' ∧ account_view a s' = account_view a s
  ∧ (∀ k, slot_view a k s' = default (slot_view a k s) (slotValue slots k)).
Proof.
  revert s. induction slots as [|[key o v] slots IH]; intros s Hw Hnd; cbn.
  { split; [by constructor|]. by split. }
  apply NoDup_cons in Hnd as [Hk Hnd]. cbn in Hk.
  destruct (SetState_view a key v s Hw) as (O1 & A1 & S1). set (s1 := SetState _ _ a key v s) in *.
  destruct (IH s1) as (O2 & A2 & S2); [apply O1|done|].
  split; [by eapply only_trans|]. split; [by rewrite A2|]. intros k. rewrite S2, S1.
  unfold slotValue. cbn. rewrite lookup_insert. case_decide; [subst k|done].
  rewrite not_elem_of_list_to_map_1; [done|]. by rewrite <- list_fmap_compose.
Qed.

(** One account of the delta. *)
Lemma applyAccount_spec account cur s :
  wf s → account.(acc_Current) = Some cur → 0 <= cur.(Balance) < two256 →
  NoDup (slot_Key <$> account.(acc_Slots)) →
  (account.(acc_Origin) = None → peek s account.(acc_Address) = None) →
  ∃ s', applyAccount Keccak256Hash reader account s = Ok s'
    ∧ only account.(acc_Address) s s'
    ∧ account_view account.(acc_Address) s'
      = (cur.(Balance), cur.(Nonce), default (account_view account.(acc_Address) s).2 account.(acc_Code))
    ∧ ∀ k, slot_view account.(acc_Address) k s'
        = default (slot_view account.(acc_Address) k s) (slotValue account.(acc_Slots) k).
Proof.
  intros Hw Hc Hb Hnd Ho. unfold applyAccount. rewrite Hc. set (a := acc_Address account) in *.
  set (s0 := match acc_Origin account with Some _ => s | None => CreateAccount Keccak256Hash a s end).
  assert (H0 : only a s s0 ∧ account_view a s0 = account_view a s ∧ (∀ k, slot_view a k s0 = slot_view a k s)).
  { unfold s0. destruct (acc_Origin account); [|by apply CreateAccount_view; auto].
    split; [by constructor|by split]. }
  destruct H0 as (O0 & A0 & S0).
  destruct (SetBalance_view a (Balance cur) s0) as (O1 & A1 & S1); [apply O0|done|].
  destruct (SetNonce_view a (Nonce cur) (SetBalance Keccak256Hash reader a (Balance cur) s0)) as (O2 & A2 & S2);
    [apply O1|].
  set (s2 := SetNonce _ _ a _ _) in *.
  destruct (setSlots_view a (acc_Slots account) s2) as (O3 & A3 & S3); [apply O2|done|].
  set (s3 := foldl _ s2 _) in *.
  assert (O : only a s s3) by (repeat (eapply only_trans; [eassumption|]); by constructor; [apply O3|..]).
  destruct (acc_Code account) as [c|].
  - destruct (SetCode_view a c s3) as (O4 & A4 & S4); [apply O3|]. eexists. split; [done|].
    split; [by eapply only_trans|]. rewrite A4, A3, A2, A1. split; [done|].
    intros k. by rewrite S4, S3, S2, S1, S0.
  - exists s3. split; [done|]. split; [done|]. rewrite A3, A2, A1, A0. split; [done|].
    intros k. by rewrite S3, S2, S1, S0.
Qed.

(** *** The whole delta *)

(** What [BuildSpeculativeDelta] guarantees of its maps: one entry per account
    and per slot, and 256-bit balances. *)
Definition account_ok (account : SpeculativeAccount) : Prop :=
  NoDup (slot_Key <$> account.(acc_Slots))
  ∧ ∃ cur, account.(acc_Current) = Some cur ∧ 0 <= cur.(Balance) < two256.

(** The account after the merge. *)
Definition merged (s s' : StateDB) (account : SpeculativeAccount) : Prop :=
  let a := account.(acc_Address) in
  ∃ cur, account.(acc_Current) = Some cur
    ∧ account_view a s' = (cur.(Balance), cur.(Nonce), default (account_view a s).2 account.(acc_Code))
    ∧ ∀ k, slot_view a k s' = default (slot_view a k s) (slotValue account.(acc_Slots) k).

Lemma applyAccounts_spec accounts s :
  wf s → NoDup (acc_Address <$> accounts) → Forall account_ok accounts →
  Forall (λ account, account.(acc_Origin) = None → peek s account.(acc_Address) = None) accounts →
  ∃ s', applyAccounts Keccak256Hash reader accounts s = Ok s' ∧ wf s'
    ∧ Forall (merged s s') accounts
    ∧ ∀ a k, a ∉ acc_Address <$> accounts →
        account_view a s' = account_view a s ∧ slot_view a k s' = slot_view a k s.
Proof.
  revert s. induction accounts as [|account accounts IH]; intros s Hw Hnd Hok Ho.
  { exists s. by split_and!. }
  apply Forall_cons in Hok as [(Hk & cur & Hc & Hb) Hok], Ho as [Ho Hos].
  apply NoDup_cons in Hnd as [Ha Hnd].
  destruct (applyAccount_spec account cur s) as (s1 & E1 & O1 & A1 & S1); [done..|].
  destruct (IH s1) as (s' & E & Hw' & Hm & Hother); [apply O1|done|done| |].
  { rewrite Forall_forall in Hos |- *. intros acct Hin Hn.
    rewrite (on_peek _ _ _ O1); [by apply Hos|]. intros Heq. apply Ha. apply list_elem_of_fmap. eauto. }
  exists s'. cbn. rewrite E1. split; [exact E|]. split; [done|]. split.
  - apply Forall_cons. split.
    + exists cur. split; [done|]. destruct (Hother (acc_Address account) 0) as [A2 _]; [done|].
      split; [by rewrite A2|]. intros k. destruct (Hother (acc_Address account) k) as [_ S2]; [done|].
      by rewrite S2.
    + rewrite Forall_forall in Hm |- *. intros acct Hin. destruct (Hm acct Hin) as (cur' & Hc' & Av & Sv).
      assert (Hne : acc_Address acct ≠ acc_Address account).
      { intros Heq. apply Ha. apply list_elem_of_fmap. eauto. }
      exists cur'. split; [done|]. split.
      * rewrite Av. by destruct (only_views _ _ _ _ 0 O1 Hne) as [-> _].
      * intros k. rewrite Sv. by destruct (only_views _ _ _ _ k O1 Hne) as (_ & -> & _).
  - intros a k Hn. cbn in Hn. apply not_elem_of_cons in Hn as [Hne Hn].
    destruct (Hother a k Hn) as [-> ->]. by destruct (only_views _ _ _ a k O1 Hne) as (-> & -> & _).
Qed.

Lemma expects_absent s account :
  expects s account → account.(acc_Origin) = None → peek s account.(acc_Address) = None.
Proof. intros [H _] Hn. rewrite Hn in H. by destruct (peek s (acc_Address account)). Qed.

Lemma account_view_getters a s :
  wf s → account_view a s = ((GetBalance Keccak256Hash reader a s).1, (GetNonce Keccak256Hash reader a s).1,
    (GetCode Keccak256Hash reader a s).1).
Proof.
  intros Hw. rewrite (GetBalance_found _ _ a s Hw), (GetNonce_found _ _ a s Hw). unfold account_view, balanceOf.
  f_equal. unfold GetCode. rewrite (withObject_answer _ _ a [] _ codeOf) by (done || intros; apply obj_Code_answer).
  unfold StateRefinement.found. destruct (peek s a); [done|]. cbn. apply codeOf_new.
Qed.

Lemma slot_view_getters a k s : wf s → slot_view a k s = (GetState Keccak256Hash reader a k s).1.
Proof. intros Hw. by rewrite (GetState_found _ _ a k s Hw). Qed.
End Theory.

(** Merging a speculative delta.  The delta is refused exactly when a slot
    the execution read, an account it changed or a slot it wrote no longer has
    the value it started from; otherwise it is applied: each of its accounts
    gets the balance, nonce, slots and new code of the speculative run, slots
    it did not write and accounts it does not list are left as they were. *)
Theorem speculative_delta_merges {U : Uint256} (Keccak256Hash : bytes → hash) (reader : Reader)
    (HR : ReaderOk Keccak256Hash reader) (HN : NoOrphanSlots reader) delta s :
  wf Keccak256Hash reader s →
  NoDup (acc_Address <$> delta.(Accounts)) → Forall account_ok delta.(Accounts) →
  let unchanged :=
    Forall (λ r, (GetState Keccak256Hash reader r.(read_Address) r.(read_Key) s).1 = r.(read_Value)) delta.(Reads)
    ∧ Forall (expects Keccak256Hash reader s) delta.(Accounts) in
  (¬ unchanged → ApplySpeculativeDelta Keccak256Hash reader delta s = Err ErrSpeculativeDelta)
  ∧ (unchanged →
      ∃ s', ApplySpeculativeDelta Keccak256Hash reader delta s = Ok s' ∧ wf Keccak256Hash reader s'
      ∧ Forall (λ account, ∃ cur, account.(acc_Current) = Some cur
          ∧ let a := account.(acc_Address) in
            (GetBalance Keccak256Hash reader a s').1 = cur.(Balance)
            ∧ (GetNonce Keccak256Hash reader a s').1 = cur.(Nonce)
            ∧ (GetCode Keccak256Hash reader a s').1
              = default (GetCode Keccak256Hash reader a s).1 account.(acc_Code)
            ∧ ∀ k, (GetState Keccak256Hash reader a k s').1
                = default (GetState Keccak256Hash reader a k s).1 (slotValue account.(acc_Slots) k))
          delta.(Accounts)
      ∧ ∀ a k, a ∉ acc_Address <$> delta.(Accounts) →
          (GetBalance Keccak256Hash reader a s').1 = (GetBalance Keccak256Hash reader a s).1
          ∧ (GetNonce Keccak256Hash reader a s').1 = (GetNonce Keccak256Hash reader a s).1
          ∧ (GetCode Keccak256Hash reader a s').1 = (GetCode Keccak256Hash reader a s).1
          ∧ (GetState Keccak256Hash reader a k s').1 = (GetState Keccak256Hash reader a k s).1).
Proof.
  intros Hw Hnd Hok unchanged. unfold ApplySpeculativeDelta, CanApplySpeculativeDelta.
  destruct (checkSlots_spec Keccak256Hash reader
    ((λ r, (read_Address r, read_Key r, read_Value r)) <$> Reads delta) s Hw) as [Hv1 Hs1].
  destruct (checkSlots _ _ _ s) as [ok1 s1]. cbn in *.
  assert (Hr : Forall (λ r, (GetState Keccak256Hash reader (read_Address r) (read_Key r) s).1 = read_Value r)
    (Reads delta) ↔ ok1 = true).
  { rewrite Hs1, Forall_fmap. apply Forall_iff. intros r. cbn.
    by rewrite (slot_view_getters Keccak256Hash reader). }
  destruct (checkAccounts_spec Keccak256Hash reader (Accounts delta) s1) as [Hv2 Hs2]; [by apply Hv1|].
  rewrite (Forall_iff (expects _ _ s1) _ (expects Keccak256Hash reader s)) in Hs2
    by (intros; by apply expects_same_view).
  unfold unchanged. rewrite Hr. destruct ok1; cbn; [|split; [done|by intros [? _]]].
  destruct (checkAccounts _ _ _ s1) as [ok2 s2]. cbn in *. rewrite <- Hs2.
  destruct ok2; cbn; [|split; [done|by intros [_ ?]]].
  split; [intros Hn; exfalso; by apply Hn|]. intros _.
  assert (Hv : same_view Keccak256Hash reader s s2) by (by etrans).
  apply proj1 in Hs2. specialize (Hs2 eq_refl).
  assert (Hw2 : wf Keccak256Hash reader s2) by (by apply Hv).
  destruct (applyAccounts_spec Keccak256Hash reader (Accounts delta) s2) as (s' & E & Hw' & Hm & Hother); try done.
  { eapply Forall_impl; [exact Hs2|]. intros account He%(expects_same_view _ _ _ _ _ Hv).
    by apply expects_absent. }
  exists s'. split; [done|]. split; [done|]. split.
  - eapply Forall_impl; [exact Hm|]. intros account (cur & Hc & Av & Sv). exists cur. split; [done|]. cbn.
    rewrite (sv_account _ _ _ _ Hv), !account_view_getters in Av by done. injection Av as -> -> ->.
    split_and!; try done. intros k. specialize (Sv k). rewrite (sv_slot _ _ _ _ Hv) in Sv.
    by rewrite <- !slot_view_getters.
  - intros a k Ha. destruct (Hother a k Ha) as [Av Sv].
    rewrite (sv_account _ _ _ _ Hv), !account_view_getters in Av by done. injection Av as -> -> ->.
    rewrite (sv_slot _ _ _ _ Hv) in Sv. by rewrite <- !slot_view_getters.
Qed.

(** *** Concrete runs on [Journal.toyReader] *)

(** A transaction moves 40 from account 9 to account 8 and writes two slots. *)
Definition toyTx : list Op :=
  [OpSubBalance 9 40; OpAddBalance 8 40; OpSetState 9 5 1; OpSetState 9 6 2].
Definition toySpec : StateDB := default NewWithReader (toyRun toyTx NewWithReader).
Definition toyDelta : SpeculativeDelta :=
  match (BuildSpeculativeDelta toyKeccak toyReader toySpec).1 with
  | Ok d => d
  | Err _ => {| Accounts := []; Reads := [] |}
  end.

Lemma speculative_delta_merges_witness :
  acc_Address <$> toyDelta.(Accounts) = [8; 9]
  ∧ ∃ s', ApplySpeculativeDelta toyKeccak toyReader toyDelta NewWithReader = Ok s'
      ∧ (GetBalance toyKeccak toyReader 9 s').1 = 60.
Proof.
  split; [vm_compute; reflexivity|].
  assert (Hacc : Accounts toyDelta = [
    {| acc_Address := 8; acc_Origin := None; acc_Current := Some (mkAccount 0 40 EmptyRootHash (toyKeccak []));
       acc_Slots := []; acc_Code := None |};
    {| acc_Address := 9; acc_Origin := Some (mkAccount 3 100 EmptyRootHash (toyKeccak [96; 1]));
       acc_Current := Some (mkAccount 3 60 EmptyRootHash (toyKeccak [96; 1]));
       acc_Slots := [mkSlot 5 77 1; mkSlot 6 0 2]; acc_Code := None |}]) by (vm_compute; reflexivity).
  destruct (@speculative_delta_merges RefUint256 toyKeccak toyReader toyReader_ok toyReader_no_orphans
    toyDelta NewWithReader) as [_ H].
  - exact (proj2_sig toyWf).
  - rewrite Hacc. apply (bool_decide_unpack _). vm_compute. exact I.
  - rewrite Hacc. repeat constructor; cbn; try set_solver;
      eexists; (split; [reflexivity|]); cbn; unfold two256; lia.
  - destruct H as (s' & Hs & _ & Hm & _).
    + split; [|rewrite Hacc; repeat constructor].
      replace (Reads toyDelta) with [{| read_Address := 9; read_Key := 5; read_Value := 77 |};
        {| read_Address := 9; read_Key := 6; read_Value := 0 |}] by (vm_compute; reflexivity).
      repeat constructor.
    + exists s'. split; [exact Hs|]. rewrite Hacc in Hm.
      apply Forall_cons_1 in Hm as [_ Hm]. apply Forall_cons_1 in Hm as [Hm _].
      destruct Hm as (cur & [= <-] & Hb & _). exact Hb.
Defined.

(** Account 9 loses its code, as when an EIP-7702 delegation is removed. *)
Definition toyClear : list Op := [OpGetCode 9; OpSetCode 9 []; OpSetNonce 9 4].
Definition toyCleared : StateDB := default NewWithReader (toyRun toyClear NewWithReader).

(** Clearing an account's code (the removal of an EIP-7702 delegation,
    [SetCode] with [nil]) is lost by the merge: the delta carries no code, and
    the canonical state keeps the old one, where the serial execution has none. *)
Theorem speculative_merge_keeps_cleared_code :
  let build := BuildSpeculativeDelta toyKeccak toyReader toyCleared in
  (GetCode toyKeccak toyReader 9 build.2).1 = []
  ∧ match build.1 with
    | Ok delta =>
        match ApplySpeculativeDelta toyKeccak toyReader delta NewWithReader with
        | Ok s' => (GetNonce toyKeccak toyReader 9 s').1 = 4
                   ∧ (GetCode toyKeccak toyReader 9 s').1 = [96; 1]
        | Err _ => False
        end
    | Err _ => False
    end.
Proof. vm_compute. auto. Qed.
End Speculative.
