(* ===== verification/RotatingKing.v ===== *)
(** * The rotating-king schedule

    [consensus/rotatingking]: the manager's configuration and state
    ([types.go]), its operations ([manager.go]) and the registration rules and
    commitment ([registration.go]).  The mutex is not modelled: every exported
    method takes it for its whole body, so an execution is a sequence of the
    operations below.  [time.Now] is an argument [now]. *)

From S2P Require Import Prelude Bytes Emission.

Module RotatingKing.

(** ** Data *)

Record KingRotation := {
  rot_BlockHeight : Z;
  rot_PreviousKing : address;
  rot_NewKing : address;
  rot_Timestamp : Z;
  rot_Reward : Z;
  rot_WasEligible : bool;
  rot_Reason : bytes;
}.

Record RotatingKingState := {
  CurrentKingIndex : nat;
  RotationHeight : Z;
  NextRotationAt : Z;
  LastUpdated : Z;
  RotationCount : Z;
  KingsHistory : list KingRotation;
  TotalRewardsDistributed : Z;
  KingRewards : gmap Z Z;
}.

Record RotatingKingConfig := {
  ChainID : option Z;
  RotationInterval : Z;
  RotationOffset : Z;
  KingAddresses : list address;
  ActivationHeights : gmap Z Z;
  ActivationDelay : Z;
  MinStakeRequired : Z;
}.

Record RotatingKingManager := {
  config : RotatingKingConfig;
  state : RotatingKingState;
  mainKing : address;
}.

Definition EligibilityThreshold : Z := 100000 * oneTKM.

Inductive error :=
| ErrInvalidRegistration
| ErrInsufficientStake
| ErrDuplicateRegistration
| ErrNoKings
| ErrRotationNotDue (next : Z)
| ErrNoEligibleKing (height : Z)
| PanicIndexOutOfRange.

(** ** Construction *)

Definition NewRotatingKingManagerForChain (chainID : option Z) (mainKing : address)
    (kingAddresses : list address) (rotationInterval now : Z) : RotatingKingManager := {|
  config := {|
    ChainID := chainID;
    RotationInterval := rotationInterval;
    RotationOffset := 0;
    KingAddresses := kingAddresses;
    ActivationHeights := ∅;
    ActivationDelay := 2;
    MinStakeRequired := EligibilityThreshold;
  |};
  state := {|
    CurrentKingIndex := 0;
    RotationHeight := 0;
    NextRotationAt := rotationInterval;
    LastUpdated := now;
    RotationCount := 0;
    KingsHistory := [];
    TotalRewardsDistributed := 0;
    KingRewards := ∅;
  |};
  mainKing := mainKing;
|}.

Definition NewRotatingKingManager (mainKing : address) (kingAddresses : list address)
    (rotationInterval now : Z) : RotatingKingManager :=
  NewRotatingKingManagerForChain None mainKing kingAddresses rotationInterval now.

(** ** Queries

    Indexing out of range panics in Go; the queries return [None] there. *)

Definition GetCurrentKing (m : RotatingKingManager) : option address :=
  if bool_decide (m.(config).(KingAddresses) = []) then Some zeroAddress
  else m.(config).(KingAddresses) !! m.(state).(CurrentKingIndex).

Definition GetNextKing (m : RotatingKingManager) : option address :=
  if bool_decide (m.(config).(KingAddresses) = []) then Some zeroAddress
  else
    let nextIndex := ((m.(state).(CurrentKingIndex) + 1) mod length m.(config).(KingAddresses))%nat in
    m.(config).(KingAddresses) !! nextIndex.

Definition IsCurrentKing (m : RotatingKingManager) (a : address) : option bool :=
  if bool_decide (m.(config).(KingAddresses) = []) then Some false
  else (λ k, bool_decide (k = a)) <$> m.(config).(KingAddresses) !! m.(state).(CurrentKingIndex).

Definition IsMainKing (m : RotatingKingManager) (a : address) : bool :=
  bool_decide (m.(mainKing) = a).

Definition IsKing (m : RotatingKingManager) (a : address) : option bool :=
  if IsMainKing m a then Some true else IsCurrentKing m a.

Definition ShouldRotate (m : RotatingKingManager) (blockHeight : Z) : bool :=
  m.(state).(NextRotationAt) <=? blockHeight.

(** ** The deterministic schedule *)

(** A missing activation height reads as Go's zero value. *)
Definition activationHeight (c : RotatingKingConfig) (a : address) : Z :=
  default 0 (c.(ActivationHeights) !! a).

Definition activeKingAddressesAtLocked (c : RotatingKingConfig) (blockHeight : Z) : list address :=
  base.filter (λ a, ¬ (blockHeight < activationHeight c a)) c.(KingAddresses).

(** [None] is Go's [-1]. *)
Fixpoint indexOfKingAddress (addresses : list address) (a : address) : option nat :=
  match addresses with
  | [] => None
  | candidate :: rest =>
      if decide (candidate = a) then Some 0%nat else S <$> indexOfKingAddress rest a
  end.

(** The body of the loop of [kingAtHeightLocked]. *)
Definition kingStep (c : RotatingKingConfig) (current : address) (height : Z) : address :=
  let active := activeKingAddressesAtLocked c height in
  match active with
  | [] => current
  | first :: _ =>
      match indexOfKingAddress active current with
      | None => first
      | Some index =>
          if decide (current = zeroAddress) then first
          else if height =? 0 then current
          else default zeroAddress (active !! ((index + 1) mod length active)%nat)
      end
  end.

(** The loop; [height] is a [uint64], so adding the interval may wrap.  [None]
    means that [fuel] iterations did not reach the end. *)
Fixpoint kingLoop (fuel : nat) (c : RotatingKingConfig) (interval blockHeight height : Z)
    (current : address) : option address :=
  match fuel with
  | O => None
  | S f =>
      if height <=? blockHeight
      then kingLoop f c interval blockHeight (height +₆₄ interval) (kingStep c current height)
      else Some current
  end.

Definition effectiveInterval (c : RotatingKingConfig) : Z :=
  if c.(RotationInterval) =? 0 then 100 else c.(RotationInterval).

Definition kingAtHeightLocked (fuel : nat) (m : RotatingKingManager) (blockHeight : Z) : option address :=
  kingLoop fuel m.(config) (effectiveInterval m.(config)) blockHeight 0 zeroAddress.

(** One iteration per rotation boundary up to [blockHeight], and the final
    test. *)
Definition scheduleFuel (interval blockHeight : Z) : nat := (Z.to_nat (blockHeight / interval) + 2)%nat.

Definition GetKingAtHeight (m : RotatingKingManager) (blockHeight : Z) : option address :=
  kingAtHeightLocked (scheduleFuel (effectiveInterval m.(config)) blockHeight) m blockHeight.

(** ** Operations *)

Definition withConfig (m : RotatingKingManager) (c : RotatingKingConfig) : RotatingKingManager :=
  {| config := c; state := m.(state); mainKing := m.(mainKing) |}.
Definition withState (m : RotatingKingManager) (s : RotatingKingState) : RotatingKingManager :=
  {| config := m.(config); state := s; mainKing := m.(mainKing) |}.
Definition setKings (c : RotatingKingConfig) (kings : list address) (heights : gmap Z Z) : RotatingKingConfig := {|
  ChainID := c.(ChainID);
  RotationInterval := c.(RotationInterval);
  RotationOffset := c.(RotationOffset);
  KingAddresses := kings;
  ActivationHeights := heights;
  ActivationDelay := c.(ActivationDelay);
  MinStakeRequired := c.(MinStakeRequired);
|}.

Definition SetRotationInterval (m : RotatingKingManager) (interval : Z) : RotatingKingManager :=
  if interval =? 0 then m
  else
    let c := m.(config) in
    let s := m.(state) in
    {| config := {|
         ChainID := c.(ChainID);
         RotationInterval := interval;
         RotationOffset := c.(RotationOffset);
         KingAddresses := c.(KingAddresses);
         ActivationHeights := c.(ActivationHeights);
         ActivationDelay := c.(ActivationDelay);
         MinStakeRequired := c.(MinStakeRequired) |};
       state := {|
         CurrentKingIndex := s.(CurrentKingIndex);
         RotationHeight := s.(RotationHeight);
         NextRotationAt := s.(RotationHeight) +₆₄ interval;
         LastUpdated := s.(LastUpdated);
         RotationCount := s.(RotationCount);
         KingsHistory := s.(KingsHistory);
         TotalRewardsDistributed := s.(TotalRewardsDistributed);
         KingRewards := s.(KingRewards) |};
       mainKing := m.(mainKing) |}.

Definition AddKingAddressAt (m : RotatingKingManager) (a : address) (activation : Z) : RotatingKingManager :=
  if decide (a = zeroAddress) then m
  else
    let c := m.(config) in
    if decide (a ∈ c.(KingAddresses)) then
      match c.(ActivationHeights) !! a with
      | Some currentHeight =>
          if negb (activation =? 0) && (activation <? currentHeight)
          then withConfig m (setKings c c.(KingAddresses) (<[a := activation]> c.(ActivationHeights)))
          else m
      | None => m
      end
    else
      withConfig m (setKings c (c.(KingAddresses) ++ [a])
        (if activation =? 0 then c.(ActivationHeights)
         else <[a := activation]> c.(ActivationHeights))).

Definition AddKingAddress (m : RotatingKingManager) (a : address) : RotatingKingManager :=
  AddKingAddressAt m a 0.

(** *** Registration ([registration.go]) *)

Record KingRegistration := {
  reg_Address : address;
  reg_Stake : Z;
  reg_AddedHeight : Z;
  reg_ActivationHeight : Z;
  reg_RegistrationHash : hash;
}.

(** A [nil] stake or minimum is [None]. *)
Definition ValidateRegistration (a : address) (stake : option Z) (currentHeight activationDelay : Z)
    (minimumStake : option Z) : result error unit :=
  match stake, minimumStake with
  | Some stake, Some minimumStake =>
      if bool_decide (a = zeroAddress) || (stake <? 0) || (minimumStake <? 0) then Err ErrInvalidRegistration
      else if stake <? minimumStake then Err ErrInsufficientStake
      else if maxU64 -₆₄ activationDelay <? currentHeight then Err ErrInvalidRegistration
      else Ok tt
  | _, _ => Err ErrInvalidRegistration
  end.

(** The right-aligned 32-byte word of a number: longer encodings keep their
    low 32 bytes. *)
Definition rightWord (x : Z) : bytes :=
  let b := min_bytes x in
  let b := if (32 <? length b)%nat then drop (length b - 32) b else b in
  replicate (32 - length b) 0 ++ b.

Definition registrationDomain : bytes := str "TKM-ROTATING-KING-REGISTRATION-V2".

Definition registrationPayload (chainID : option Z) (a : address) (stake : option Z)
    (addedHeight activation : Z) : bytes :=
  let stake := default 0 stake in
  let chainWord :=
    match chainID with
    | Some id => if 0 <=? id then rightWord id else replicate 32 0
    | None => replicate 32 0
    end in
  registrationDomain ++ chainWord ++ address_bytes a ++ rightWord stake
    ++ be_bytes 8 addedHeight ++ be_bytes 8 activation.

Section Registration.
(** [crypto.Keccak256Hash] *)
Context (keccak256 : bytes → hash).

Definition RegistrationHashForChain (chainID : option Z) (a : address) (stake : option Z)
    (addedHeight activation : Z) : hash :=
  keccak256 (registrationPayload chainID a stake addedHeight activation).

Definition RegisterKingAt (m : RotatingKingManager) (a : address) (currentHeight : Z)
    (balance : option Z) : result error (RotatingKingManager * KingRegistration) :=
  let c := m.(config) in
  _ ← ValidateRegistration a balance currentHeight c.(ActivationDelay) (Some c.(MinStakeRequired));
  if decide (a ∈ c.(KingAddresses)) then Err ErrDuplicateRegistration
  else
    let activation := currentHeight +₆₄ c.(ActivationDelay) in
    let registration := {|
      reg_Address := a;
      reg_Stake := default 0 balance;
      reg_AddedHeight := currentHeight;
      reg_ActivationHeight := activation;
      reg_RegistrationHash :=
        RegistrationHashForChain c.(ChainID) a balance currentHeight activation;
    |} in
    Ok (withConfig m (setKings c (c.(KingAddresses) ++ [a])
          (<[a := activation]> c.(ActivationHeights))), registration).
End Registration.

(** *** Rotation *)

(** [balance != nil && balance.Cmp(min) >= 0] *)
Definition eligible (minStake : Z) (balance : option Z) : bool :=
  match balance with Some b => minStake <=? b | None => false end.

(** The search loop: [i], ..., [len-1]. *)
Fixpoint findEligible (n : nat) (i : nat) (kings : list address) (current : nat) (minStake : Z)
    (getBalance : address → option Z) : option (nat * address) :=
  match n with
  | O => None
  | S n' =>
      let candidateIndex := ((current + i) mod length kings)%nat in
      let candidate := default zeroAddress (kings !! candidateIndex) in
      if eligible minStake (getBalance candidate) then Some (candidateIndex, candidate)
      else findEligible n' (S i) kings current minStake getBalance
  end.

(** [stateProvider] is [None] for [nil]. *)
Definition RotateToNextKing (m : RotatingKingManager) (blockHeight : Z)
    (stateProvider : option (address → option Z)) (now : Z) : result error RotatingKingManager :=
  let c := m.(config) in
  let s := m.(state) in
  let kings := c.(KingAddresses) in
  if bool_decide (kings = []) then Err ErrNoKings
  else if blockHeight <? s.(NextRotationAt) then Err (ErrRotationNotDue s.(NextRotationAt))
  else
    match kings !! s.(CurrentKingIndex) with
    | None => Err PanicIndexOutOfRange
    | Some previousKing =>
        let newIndex := ((s.(CurrentKingIndex) + 1) mod length kings)%nat in
        let newKing := default zeroAddress (kings !! newIndex) in
        choice ←
          match stateProvider with
          | None => Ok (newIndex, newKing)
          | Some getBalance =>
              if eligible c.(MinStakeRequired) (getBalance newKing) then Ok (newIndex, newKing)
              else
                match findEligible (length kings - 1) 1 kings s.(CurrentKingIndex)
                        c.(MinStakeRequired) getBalance with
                | Some found => Ok found
                | None => Err (ErrNoEligibleKing blockHeight)
                end
          end;
        let '(newIndex, newKing) := choice in
        let rotation := {|
          rot_BlockHeight := blockHeight;
          rot_PreviousKing := previousKing;
          rot_NewKing := newKing;
          rot_Timestamp := now;
          rot_Reward := 0;
          rot_WasEligible := true;
          rot_Reason := [];
        |} in
        let history := s.(KingsHistory) ++ [rotation] in
        let history := if (100 <? length history)%nat then drop 1 history else history in
        Ok (withState m {|
          CurrentKingIndex := newIndex;
          RotationHeight := blockHeight;
          NextRotationAt := blockHeight +₆₄ c.(RotationInterval);
          LastUpdated := now;
          RotationCount := s.(RotationCount) +₆₄ 1;
          KingsHistory := history;
          TotalRewardsDistributed := s.(TotalRewardsDistributed);
          KingRewards := s.(KingRewards);
        |})
    end.

(** ** The schedule as a fold over the rotation boundaries *)

(** The boundaries number [k], ..., [k+n-1]. *)
Fixpoint boundariesFrom (k n : nat) (interval : Z) : list Z :=
  match n with
  | O => []
  | S n' => Z.of_nat k * interval :: boundariesFrom (S k) n' interval
  end.

Lemma boundariesFrom_snoc k n interval :
  boundariesFrom k (S n) interval = boundariesFrom k n interval ++ [Z.of_nat (k + n) * interval].
Proof.
  revert k. induction n as [|n IH]; intros k; [cbn; do 2 f_equal; lia|].
  change (boundariesFrom k (S (S n)) interval)
    with (Z.of_nat k * interval :: boundariesFrom (S k) (S n) interval).
  rewrite IH. cbn [boundariesFrom app]. do 5 f_equal. lia.
Qed.

(** The king after the boundaries [0, I, ..., K*I] have been processed. *)
Definition scheduledKing (c : RotatingKingConfig) (interval : Z) (K : nat) : address :=
  foldl (kingStep c) zeroAddress (boundariesFrom 0 (S K) interval).

Lemma scheduledKing_S c interval K :
  scheduledKing c interval (S K) =
    kingStep c (scheduledKing c interval K) (Z.of_nat (S K) * interval).
Proof. unfold scheduledKing. by rewrite (boundariesFrom_snoc 0 (S K)), foldl_app. Qed.

Lemma kingLoop_unfold f c interval blockHeight height current :
  kingLoop (S f) c interval blockHeight height current =
    if height <=? blockHeight
    then kingLoop f c interval blockHeight (height +₆₄ interval) (kingStep c current height)
    else Some current.
Proof. done. Qed.

(** The loop visits the boundaries up to [blockHeight] and stops, provided the
    next boundary still fits a [uint64]. *)
Lemma kingLoop_fold c interval blockHeight n k current :
  0 < interval → 0 <= blockHeight → blockHeight + interval < two64 →
  Z.of_nat (k + n) = blockHeight / interval + 1 →
  kingLoop (S n) c interval blockHeight (Z.of_nat k * interval) current =
    Some (foldl (kingStep c) current (boundariesFrom k n interval)).
Proof.
  intros HI Hb Hov. pose proof (Z.div_mod blockHeight interval ltac:(lia)) as Hdm.
  pose proof (Z.mod_pos_bound blockHeight interval HI) as Hmod.
  revert k current. induction n as [|n IH]; intros k current Hk; rewrite kingLoop_unfold.
  - rewrite (proj2 (Z.leb_gt _ _)); [done|].
    assert (Z.of_nat k = blockHeight / interval + 1) by lia. nia.
  - assert (Hkb : Z.of_nat k * interval <= blockHeight).
    { assert (Z.of_nat k <= blockHeight / interval) by lia. nia. }
    rewrite (proj2 (Z.leb_le _ _)) by done.
    rewrite u64_small by (unfold is_u64; nia).
    replace (Z.of_nat k * interval + interval) with (Z.of_nat (S k) * interval) by lia.
    rewrite IH by lia. done.
Qed.

Lemma effectiveInterval_pos c : is_u64 c.(RotationInterval) → 0 < effectiveInterval c.
Proof. unfold is_u64, effectiveInterval. intros. case_if; lia. Qed.

Lemma GetKingAtHeight_scheduled m h :
  is_u64 m.(config).(RotationInterval) → 0 <= h →
  h + effectiveInterval m.(config) < two64 →
  GetKingAtHeight m h =
    Some (scheduledKing m.(config) (effectiveInterval m.(config))
            (Z.to_nat (h / effectiveInterval m.(config)))).
Proof.
  intros HI Hh Hov. pose proof (effectiveInterval_pos _ HI).
  unfold GetKingAtHeight, kingAtHeightLocked, scheduleFuel, scheduledKing.
  set (I := effectiveInterval _) in *. pose proof (Z.div_pos h I Hh ltac:(done)).
  replace (Z.to_nat (h / I) + 2)%nat with (S (S (Z.to_nat (h / I)))) by lia.
  apply (kingLoop_fold m.(config) I h (S (Z.to_nat (h / I))) 0 zeroAddress); lia.
Qed.

(** ** Facts about the active set *)

Lemma elem_of_active c h a :
  a ∈ activeKingAddressesAtLocked c h ↔ a ∈ c.(KingAddresses) ∧ activationHeight c a <= h.
Proof. unfold activeKingAddressesAtLocked. rewrite list_elem_of_filter. naive_solver lia. Qed.

Lemma indexOf_Some l a i : indexOfKingAddress l a = Some i → l !! i = Some a.
Proof.
  revert i. induction l as [|x l IH]; intros i; cbn; [done|].
  case_decide; [by intros [= <-]; subst|]. intros H'. apply fmap_Some in H' as (j & ? & ->). by apply IH.
Qed.

Lemma indexOf_None l a : indexOfKingAddress l a = None ↔ a ∉ l.
Proof.
  induction l as [|x l IH]; cbn; [set_solver|]. case_decide; [set_solver|].
  rewrite fmap_None, IH. set_solver.
Qed.

Lemma indexOf_NoDup l a i : NoDup l → l !! i = Some a → indexOfKingAddress l a = Some i.
Proof.
  intros Hnd Hi. destruct (indexOfKingAddress l a) as [j|] eqn:E.
  - f_equal. apply indexOf_Some in E. by eapply NoDup_lookup.
  - apply indexOf_None in E. by apply list_elem_of_lookup_2 in Hi.
Qed.

(** A step keeps a king that is active, or the previous value when nobody is. *)
Lemma kingStep_active c current h :
  activeKingAddressesAtLocked c h ≠ [] → kingStep c current h ∈ activeKingAddressesAtLocked c h.
Proof.
  intros Hne. unfold kingStep. destruct (activeKingAddressesAtLocked c h) as [|x l] eqn:E; [done|].
  destruct (indexOfKingAddress (x :: l) current) as [i|] eqn:Ei; [|by left].
  case_decide; [by left|]. case_if.
  - apply indexOf_Some in Ei. by eapply list_elem_of_lookup_2.
  - destruct (lookup_lt_is_Some_2 (x :: l) ((i + 1) mod length (x :: l))) as [k Hk].
    { apply Nat.mod_upper_bound. done. }
    rewrite Hk. by eapply list_elem_of_lookup_2.
Qed.

Lemma kingStep_none c current h :
  activeKingAddressesAtLocked c h = [] → kingStep c current h = current.
Proof. intros H. unfold kingStep. by rewrite H. Qed.

(** Activation only grows with the height. *)
Lemma active_monotone c h h' a :
  h <= h' → a ∈ activeKingAddressesAtLocked c h → a ∈ activeKingAddressesAtLocked c h'.
Proof. rewrite !elem_of_active. intros. destruct_and!. split; [done|lia]. Qed.

Lemma scheduledKing_active c I K :
  0 <= I →
  scheduledKing c I K ∈ activeKingAddressesAtLocked c (Z.of_nat K * I) ∨
  (scheduledKing c I K = zeroAddress ∧ activeKingAddressesAtLocked c (Z.of_nat K * I) = []).
Proof.
  intros HI. induction K as [|K IH].
  - change (scheduledKing c I 0) with (kingStep c zeroAddress (Z.of_nat 0 * I)).
    destruct (decide (activeKingAddressesAtLocked c (Z.of_nat 0 * I) = [])) as [E|E].
    + right. by rewrite kingStep_none.
    + left. by apply kingStep_active.
  - rewrite scheduledKing_S.
    destruct (decide (activeKingAddressesAtLocked c (Z.of_nat (S K) * I) = [])) as [E|E].
    + right. rewrite kingStep_none by done. destruct IH as [IH|[IH _]]; [|done].
      apply (active_monotone _ _ (Z.of_nat (S K) * I)) in IH; [|nia]. rewrite E in IH. set_solver.
    + left. by apply kingStep_active.
Qed.

(** C40: the schedule is total and only ever names an activated king.  Below the
    [uint64] horizon the loop of [kingAtHeightLocked] ends, its answer depends
    only on the rotation period of the height, and it is a configured king whose
    activation height has passed at the period's first block, or the zero address
    when no king is active there. *)
Theorem schedule_total_and_active (m : RotatingKingManager) (h : Z)
    (HI : is_u64 m.(config).(RotationInterval)) (Hh : 0 <= h)
    (Hov : h + effectiveInterval m.(config) < two64) :
  ∃ k, GetKingAtHeight m h = Some k ∧
    let I := effectiveInterval m.(config) in
    let start := h / I * I in
    GetKingAtHeight m start = Some k ∧
    ((k ∈ m.(config).(KingAddresses) ∧ activationHeight m.(config) k <= start) ∨
     (k = zeroAddress ∧ ∀ a, a ∈ m.(config).(KingAddresses) → start < activationHeight m.(config) a)).
Proof.
  pose proof (effectiveInterval_pos _ HI) as HIpos.
  eexists. split; [by apply GetKingAtHeight_scheduled|]. cbv zeta.
  set (I := effectiveInterval m.(config)) in *.
  pose proof (Z.div_mod h I ltac:(lia)). pose proof (Z.mod_pos_bound h I HIpos).
  pose proof (Z.div_pos h I Hh HIpos).
  split.
  - rewrite GetKingAtHeight_scheduled by first [done | fold I; nia]. fold I. by rewrite Z.div_mul by lia.
  - pose proof (scheduledKing_active m.(config) I (Z.to_nat (h / I)) ltac:(lia)) as Ha.
    rewrite Z2Nat.id in Ha by lia. destruct Ha as [Ha|[Hz He]].
    + left. by apply elem_of_active in Ha.
    + right. split; [done|]. intros a Hin. apply Z.nle_gt. intros Hle.
      assert (a ∈ activeKingAddressesAtLocked m.(config) (h / I * I)) as Hc
        by (by apply elem_of_active).
      rewrite He in Hc. set_solver.
Qed.

(** ** Round robin *)

Lemma active_all c h :
  (∀ a, a ∈ c.(KingAddresses) → activationHeight c a <= h) →
  activeKingAddressesAtLocked c h = c.(KingAddresses).
Proof.
  intros H. apply filter_all, Forall_forall. intros a Ha. specialize (H a Ha). lia.
Qed.

Lemma scheduledKing_round_robin c I K :
  0 < I → c.(KingAddresses) ≠ [] → NoDup c.(KingAddresses) → zeroAddress ∉ c.(KingAddresses) →
  (∀ a, a ∈ c.(KingAddresses) → activationHeight c a = 0) →
  c.(KingAddresses) !! (K mod length c.(KingAddresses))%nat = Some (scheduledKing c I K).
Proof.
  intros HI Hne Hnd Hz Hact. set (kings := c.(KingAddresses)) in *.
  assert (Hlen : length kings ≠ 0%nat) by (by destruct kings).
  assert (Hall : ∀ h, 0 <= h → activeKingAddressesAtLocked c h = kings).
  { intros h Hh. apply active_all. intros a Ha. rewrite Hact; [lia|done]. }
  induction K as [|K IH].
  - rewrite Nat.Div0.mod_0_l. change (scheduledKing c I 0) with (kingStep c zeroAddress 0).
    unfold kingStep. rewrite Hall by lia. destruct kings as [|x l] eqn:E; [done|].
    by rewrite (proj2 (indexOf_None _ _) Hz).
  - rewrite scheduledKing_S. unfold kingStep. rewrite Hall by nia.
    set (cur := scheduledKing c I K) in *.
    destruct kings as [|x l] eqn:E; [done|]. rewrite <- E in *.
    rewrite (indexOf_NoDup kings cur (K mod length kings)) by done.
    rewrite decide_False by (intros ->; apply Hz; by eapply list_elem_of_lookup_2).
    rewrite (proj2 (Z.eqb_neq _ 0)) by nia.
    replace (S K mod length kings)%nat with ((K mod length kings + 1) mod length kings)%nat.
    + destruct (lookup_lt_is_Some_2 kings ((K mod length kings + 1) mod length kings)) as [k Hk].
      { by apply Nat.mod_upper_bound. }
      by rewrite Hk.
    + rewrite Nat.Div0.add_mod_idemp_l. f_equal. lia.
Qed.

(** With distinct, non-zero kings that are all active from genesis the
    schedule is a round robin: block [h] belongs to king number
    [(h / interval) mod n]. *)
Theorem schedule_round_robin (m : RotatingKingManager) (h : Z)
    (HI : is_u64 m.(config).(RotationInterval)) (Hh : 0 <= h)
    (Hov : h + effectiveInterval m.(config) < two64)
    (Hne : m.(config).(KingAddresses) ≠ [])
    (Hnd : NoDup m.(config).(KingAddresses))
    (Hz : zeroAddress ∉ m.(config).(KingAddresses))
    (Hact : ∀ a, a ∈ m.(config).(KingAddresses) → activationHeight m.(config) a = 0) :
  GetKingAtHeight m h =
    m.(config).(KingAddresses)
      !! (Z.to_nat (h / effectiveInterval m.(config)) mod length m.(config).(KingAddresses))%nat.
Proof.
  rewrite GetKingAtHeight_scheduled by done. symmetry. apply scheduledKing_round_robin; try done.
  by apply effectiveInterval_pos.
Qed.

(** The loop has no such bound on its own.  At the largest [uint64] height
    its condition can never fail, so no number of iterations produces a king. *)
Theorem schedule_diverges_at_max_height (m : RotatingKingManager) (fuel : nat) :
  kingAtHeightLocked fuel m maxU64 = None.
Proof.
  unfold kingAtHeightLocked. assert (H0 : is_u64 0) by done. revert H0.
  generalize 0 at 1 2 as height. generalize zeroAddress as cur.
  induction fuel as [|f IH]; intros cur height Hh; [done|]. rewrite kingLoop_unfold.
  unfold is_u64, maxU64 in *. rewrite (proj2 (Z.leb_le _ _)) by lia. apply IH. apply u64_range.
Qed.

(** ** Registration *)

Lemma rightWord_spec x : 0 <= x < two256 → rightWord x = be_bytes 32 x.
Proof.
  intros [Hx Hx']. unfold rightWord, min_bytes. rewrite Z.abs_eq by done.
  set (b := digits_of 256 x).
  assert (Hv : digits_value 256 b = x) by (apply digits_of_value; lia).
  assert (Hr : bytes_ok b) by (apply digits_of_range; lia).
  assert (Hlen : (length b <= 32)%nat).
  { unfold b, digits_of. rewrite length_to_digits.
    destruct (le_gt_dec (digit_count 256 x) 32) as [|Hgt]; [done|].
    destruct (Z.eq_dec x 0) as [->|Hx0]; [change (digit_count 256 0) with 0%nat in Hgt; lia|].
    pose proof (proj2 (digit_count_bound 256 ltac:(lia) x Hx) ltac:(lia)).
    assert (256 ^ 32 <= 256 ^ (Z.of_nat (digit_count 256 x) - 1)) by (apply Z.pow_le_mono_r; lia).
    assert (two256 = 256 ^ 32) by done. lia. }
  rewrite (proj2 (Nat.ltb_ge 32 (length b))) by done.
  rewrite <- (be_bytes_value (replicate (32 - length b) 0 ++ b)).
  - rewrite length_app, length_replicate. f_equal; [lia|].
    unfold be_value. rewrite digits_value_app, Hv by lia.
    assert (Hz : ∀ n, digits_value 256 (replicate n 0) = 0).
    { intros n. induction n as [|n IH]; [done|]. rewrite replicate_S_end, digits_value_snoc, IH. lia. }
    rewrite Hz. lia.
  - apply Forall_app. split; [|done]. apply Forall_replicate. unfold is_byte. lia.
Qed.

(** The registration commitment is computed from an injective encoding.
    Two registrations with 256-bit chain IDs and stakes share a payload only when
    the chain, the address, the stake and both heights agree, so a registration
    cannot be reinterpreted at another height or replayed on another chain. *)
Theorem registration_payload_injective (c1 c2 a1 a2 s1 s2 h1 h2 v1 v2 : Z)
    (Hc : 0 <= c1 < two256 ∧ 0 <= c2 < two256)
    (Ha : is_address a1 ∧ is_address a2)
    (Hs : 0 <= s1 < two256 ∧ 0 <= s2 < two256)
    (Hh : is_u64 h1 ∧ is_u64 h2) (Hv : is_u64 v1 ∧ is_u64 v2)
    (Heq : registrationPayload (Some c1) a1 (Some s1) h1 v1 =
           registrationPayload (Some c2) a2 (Some s2) h2 v2) :
  c1 = c2 ∧ a1 = a2 ∧ s1 = s2 ∧ h1 = h2 ∧ v1 = v2.
Proof.
  destruct Hc as [Hc1 Hc2], Ha as [Ha1 Ha2], Hs as [Hs1 Hs2], Hh as [Hh1 Hh2], Hv as [Hv1 Hv2].
  unfold registrationPayload in Heq. cbn [default from_option id] in Heq.
  rewrite !(proj2 (Z.leb_le 0 _)), !rightWord_spec in Heq by lia.
  apply app_inv_head in Heq. unfold address_bytes in Heq.
  apply app_inj_1 in Heq as [E1 Heq]; [|by rewrite !length_be_bytes].
  apply app_inj_1 in Heq as [E2 Heq]; [|by rewrite !length_be_bytes].
  apply app_inj_1 in Heq as [E3 Heq]; [|by rewrite !length_be_bytes].
  apply app_inj_1 in Heq as [E4 E5]; [|by rewrite !length_be_bytes].
  assert (H32 : two256 = 256 ^ Z.of_nat 32) by done.
  assert (H8 : two64 = 256 ^ Z.of_nat 8) by done.
  unfold is_address, is_u64 in *.
  repeat split; eapply be_bytes_inj; try eassumption; rewrite <- ?H32, <- ?H8; try lia;
    change (256 ^ Z.of_nat 20) with (2 ^ 160); lia.
Qed.

Lemma registration_payload_injective_witness :
  8980 = 8980 ∧ 7 = 7 ∧ 5 = 5 ∧ 10 = 10 ∧ 12 = 12.
Proof.
  apply (registration_payload_injective 8980 8980 7 7 5 5 10 10 12 12);
    unfold is_address, is_u64; repeat split; try done; lia.
Defined.

(** Configurations that agree on the kings active up to a height schedule the
    same kings up to it. *)
Lemma scheduledKing_ext c c' I K :
  (∀ k, (k <= K)%nat → activeKingAddressesAtLocked c' (Z.of_nat k * I) =
                       activeKingAddressesAtLocked c (Z.of_nat k * I)) →
  scheduledKing c' I K = scheduledKing c I K.
Proof.
  induction K as [|K IH]; intros H.
  - unfold scheduledKing. cbn [boundariesFrom foldl]. unfold kingStep. by rewrite (H 0%nat).
  - rewrite !scheduledKing_S, IH by (intros; apply H; lia). unfold kingStep. by rewrite H by lia.
Qed.

Lemma active_append c a activation h :
  a ∉ c.(KingAddresses) → h < activation →
  activeKingAddressesAtLocked
    (setKings c (c.(KingAddresses) ++ [a]) (<[a := activation]> c.(ActivationHeights))) h =
  activeKingAddressesAtLocked c h.
Proof.
  intros Ha Hh. unfold activeKingAddressesAtLocked, activationHeight. cbn.
  rewrite filter_app, (filter_cons_False _ a), filter_nil, app_nil_r.
  - apply filter_ext_in. intros b Hb. rewrite lookup_insert_ne by (by intros ->). done.
  - rewrite lookup_insert_eq. cbn. lia.
Qed.

Lemma ValidateRegistration_ok a stake h d minStake :
  ValidateRegistration a stake h d minStake = Ok tt ↔
  ∃ s ms, stake = Some s ∧ minStake = Some ms ∧ a ≠ zeroAddress ∧ 0 <= ms <= s ∧ h <= maxU64 -₆₄ d.
Proof.
  unfold ValidateRegistration. destruct stake as [s|], minStake as [ms|]; try naive_solver.
  split.
  - intros H. repeat case_if_in H; try done. exists s, ms. repeat split; try done; try lia.
  - intros (? & ? & [= <-] & [= <-] & Ha & Hs & Hh).
    rewrite bool_decide_false by done. rewrite !(proj2 (Z.ltb_ge _ _)) by lia. done.
Qed.

(** A successful registration appends the address once, activates it
    exactly [ActivationDelay] blocks later without wrapping, and leaves the
    schedule of every earlier block unchanged. *)
Theorem registration_is_prospective (keccak256 : bytes → hash) (m m' : RotatingKingManager)
    (a h : Z) (balance : option Z) (r : KingRegistration)
    (Hh : is_u64 h) (Hd : is_u64 m.(config).(ActivationDelay))
    (HI : is_u64 m.(config).(RotationInterval))
    (Hok : RegisterKingAt keccak256 m a h balance = Ok (m', r)) :
  m'.(config).(KingAddresses) = m.(config).(KingAddresses) ++ [a] ∧
  (a ∉ m.(config).(KingAddresses)) ∧ a ≠ zeroAddress ∧
  (∃ b, balance = Some b ∧ m.(config).(MinStakeRequired) <= b) ∧
  r.(reg_ActivationHeight) = h + m.(config).(ActivationDelay) ∧
  activationHeight m'.(config) a = r.(reg_ActivationHeight) ∧
  ∀ g, 0 <= g < r.(reg_ActivationHeight) → g + effectiveInterval m.(config) < two64 →
    GetKingAtHeight m' g = GetKingAtHeight m g.
Proof.
  unfold RegisterKingAt in Hok. apply bind_ok in Hok as ([] & Hv & Hok).
  apply ValidateRegistration_ok in Hv as (s & ms & Hs & Hms & Ha & Hle & Hov).
  case_decide as Hin; [done|]. injection Hok as <- <-. injection Hms as <-.
  unfold is_u64 in *. rewrite u64_sub_no_wrap in Hov by (unfold is_u64, maxU64; lia).
  unfold maxU64 in Hov. cbn [reg_ActivationHeight].
  assert (Hact : h +₆₄ m.(config).(ActivationDelay) = h + m.(config).(ActivationDelay)).
  { apply u64_add_no_wrap; unfold is_u64; lia. }
  rewrite Hact. split; [done|]. split; [done|]. split; [done|].
  split; [exists s; split; [done|lia]|]. split; [done|].
  split. { unfold activationHeight. cbn. by rewrite lookup_insert_eq. }
  intros g Hg Hgov. rewrite !GetKingAtHeight_scheduled by (unfold is_u64; done || lia).
  change (effectiveInterval (config (withConfig _ _))) with (effectiveInterval m.(config)).
  pose proof (effectiveInterval_pos m.(config) HI). set (I := effectiveInterval m.(config)) in *.
  f_equal. apply scheduledKing_ext. intros k Hk. cbn [config withConfig].
  apply active_append; [done|].
  pose proof (Z.div_mod g I ltac:(lia)). pose proof (Z.mod_pos_bound g I ltac:(done)).
  assert (Z.of_nat k <= g / I) by (apply Nat2Z.inj_le in Hk; rewrite Z2Nat.id in Hk by
    (apply Z.div_pos; lia); lia). nia.
Qed.

(** ** Concrete managers *)

Definition demo : RotatingKingManager :=
  NewRotatingKingManagerForChain (Some 8980) 99 [11; 22; 33] 100 0.

Lemma schedule_total_and_active_witness :
  ∃ k, GetKingAtHeight demo 250 = Some k ∧
    let I := effectiveInterval demo.(config) in
    let start := 250 / I * I in
    GetKingAtHeight demo start = Some k ∧
    ((k ∈ demo.(config).(KingAddresses) ∧ activationHeight demo.(config) k <= start) ∨
     (k = zeroAddress ∧ ∀ a, a ∈ demo.(config).(KingAddresses) → start < activationHeight demo.(config) a)).
Proof. apply (schedule_total_and_active demo 250); done. Defined.

Lemma schedule_round_robin_witness : GetKingAtHeight demo 250 = Some 33.
Proof.
  rewrite (schedule_round_robin demo 250); try done.
  - by apply (bool_decide_unpack _).
  - by apply (bool_decide_unpack _).
Defined.

Lemma registration_is_prospective_witness :
  let m := demo in
  let c := m.(config) in
  let m' := withConfig m (setKings c [11; 22; 33; 44] (<[44 := 152]> ∅)) in
  m'.(config).(KingAddresses) = m.(config).(KingAddresses) ++ [44] ∧
  (44 ∉ m.(config).(KingAddresses)) ∧ 44 ≠ zeroAddress ∧
  (∃ b, Some EligibilityThreshold = Some b ∧ m.(config).(MinStakeRequired) <= b) ∧
  152 = 150 + m.(config).(ActivationDelay) ∧
  activationHeight m'.(config) 44 = 152 ∧
  ∀ g, 0 <= g < 152 → g + effectiveInterval m.(config) < two64 →
    GetKingAtHeight m' g = GetKingAtHeight m g.
Proof.
  exact (registration_is_prospective (λ _, 0) demo _ 44 150 (Some EligibilityThreshold)
    {| reg_Address := 44; reg_Stake := EligibilityThreshold; reg_AddedHeight := 150;
       reg_ActivationHeight := 152; reg_RegistrationHash := 0 |}
    ltac:(done) ltac:(done) ltac:(done) ltac:(reflexivity)).
Defined.

(** ** Rotation as a state machine *)

Inductive step (keccak256 : bytes → hash) : RotatingKingManager → RotatingKingManager → Prop :=
| step_interval m i : step keccak256 m (SetRotationInterval m i)
| step_add m a h : step keccak256 m (AddKingAddressAt m a h)
| step_register m m' a h b r :
    RegisterKingAt keccak256 m a h b = Ok (m', r) → step keccak256 m m'
| step_rotate m m' h p now :
    RotateToNextKing m h p now = Ok m' → step keccak256 m m'.

(** The current index stays inside the king list and the history is bounded. *)
Definition manager_inv (m : RotatingKingManager) : Prop :=
  (m.(state).(CurrentKingIndex) < Nat.max 1 (length m.(config).(KingAddresses)))%nat ∧
  (length m.(state).(KingsHistory) <= 100)%nat ∧
  Forall (λ r, r.(rot_NewKing) ∈ m.(config).(KingAddresses)) m.(state).(KingsHistory).

(** The search returns the first eligible candidate. *)
Lemma findEligible_Some n i kings cur minStake bal j k :
  kings ≠ [] →
  findEligible n i kings cur minStake bal = Some (j, k) →
  ∃ d, (i <= d < i + n)%nat ∧ j = ((cur + d) mod length kings)%nat ∧ kings !! j = Some k ∧
    eligible minStake (bal k) = true ∧
    ∀ d' k', (i <= d' < d)%nat → kings !! ((cur + d') mod length kings)%nat = Some k' →
      eligible minStake (bal k') = false.
Proof.
  intros Hne. revert i. induction n as [|n IH]; intros i; [done|]. cbn [findEligible].
  destruct (lookup_lt_is_Some_2 kings ((cur + i) mod length kings)) as [x Hx].
  { apply Nat.mod_upper_bound. by destruct kings. }
  rewrite Hx. cbn [default from_option id].
  destruct (eligible minStake (bal x)) eqn:E.
  - intros [= <- <-]. exists i. split; [lia|]. repeat split; try done. intros; lia.
  - intros H. destruct (IH _ H) as (d & Hd & -> & Hk & He & Hf). exists d.
    split; [lia|]. repeat split; try done. intros d' k' Hd' Hk'.
    destruct (decide (d' = i)) as [->|]; [congruence|]. apply (Hf d'); [lia|done].
Qed.

Lemma findEligible_None n i kings cur minStake bal d k :
  findEligible n i kings cur minStake bal = None → (i <= d < i + n)%nat →
  kings !! ((cur + d) mod length kings)%nat = Some k → eligible minStake (bal k) = false.
Proof.
  revert i. induction n as [|n IH]; intros i H Hd Hk; [lia|]. cbn [findEligible] in H.
  case_if_in H; [done|]. destruct (decide (d = i)) as [->|]; [by rewrite Hk in *|].
  apply (IH (S i)); [done|lia|done].
Qed.

Definition rotation_choice (m : RotatingKingManager) (p : option (address → option Z)) (j : nat) (k : address) : Prop :=
  let kings := m.(config).(KingAddresses) in
  let cur := m.(state).(CurrentKingIndex) in
  ∃ d, (1 <= d < Nat.max 2 (length kings))%nat ∧ j = ((cur + d) mod length kings)%nat ∧ kings !! j = Some k ∧
    match p with
    | None => d = 1%nat
    | Some bal =>
        eligible m.(config).(MinStakeRequired) (bal k) = true ∧
        ∀ d' k', (1 <= d' < d)%nat → kings !! ((cur + d') mod length kings)%nat = Some k' →
          eligible m.(config).(MinStakeRequired) (bal k') = false
    end.

(** A successful rotation, field by field. *)
Lemma RotateToNextKing_ok m h p now m' :
  RotateToNextKing m h p now = Ok m' →
  m'.(config) = m.(config) ∧ m'.(mainKing) = m.(mainKing) ∧
  m.(state).(NextRotationAt) <= h ∧
  (∃ k, rotation_choice m p m'.(state).(CurrentKingIndex) k ∧
        last m'.(state).(KingsHistory) = Some {|
          rot_BlockHeight := h;
          rot_PreviousKing := default zeroAddress
            (m.(config).(KingAddresses) !! m.(state).(CurrentKingIndex));
          rot_NewKing := k; rot_Timestamp := now; rot_Reward := 0;
          rot_WasEligible := true; rot_Reason := [] |} ∧
        ∀ r, r ∈ m'.(state).(KingsHistory) → r.(rot_NewKing) = k ∨ r ∈ m.(state).(KingsHistory)) ∧
  m'.(state).(RotationHeight) = h ∧
  m'.(state).(NextRotationAt) = h +₆₄ m.(config).(RotationInterval) ∧
  m'.(state).(RotationCount) = m.(state).(RotationCount) +₆₄ 1 ∧
  (length m'.(state).(KingsHistory) <= Nat.max 100 (length m.(state).(KingsHistory)))%nat.
Proof.
  unfold RotateToNextKing. set (kings := m.(config).(KingAddresses)).
  set (cur := m.(state).(CurrentKingIndex)). intros H.
  case_if_in H; [done|]. case_if_in H; [done|].
  destruct (kings !! cur) as [prev|] eqn:Hprev; [|done].
  assert (Hn : (cur < length kings)%nat) by (by eapply lookup_lt_Some).
  apply bind_ok in H as ([j k] & Hc & H). injection H as <-.
  assert (Hch : rotation_choice m p j k).
  { destruct (lookup_lt_is_Some_2 kings ((cur + 1) mod length kings)) as [x Hx].
    { apply Nat.mod_upper_bound. lia. }
    rewrite Hx in Hc. cbn [default from_option id] in Hc. unfold rotation_choice. fold kings cur.
    destruct p as [bal|]; [case_if_in Hc|].
    - injection Hc as <- <-. exists 1%nat. repeat split; try done; lia.
    - destruct (findEligible _ _ _ _ _ _) as [[j' k']|] eqn:Hf; [|done]. injection Hc as -> ->.
      apply findEligible_Some in Hf as (d & Hd & -> & Hk & He & Hall); [|by destruct kings].
      exists d. repeat split; try done; lia.
    - injection Hc as <- <-. exists 1%nat. repeat split; try done; lia. }
  cbn [config state mainKing withState CurrentKingIndex RotationHeight NextRotationAt RotationCount KingsHistory].
  repeat split; try done.
  - exists k. split; [done|]. cbn [default from_option id]. split.
    + case_if; [|by rewrite last_snoc].
      apply Nat.ltb_lt in Heqb1. rewrite length_app in Heqb1. cbn in Heqb1.
      rewrite drop_app_le by lia. by rewrite last_snoc.
    + intros r Hr. assert (r ∈ m.(state).(KingsHistory) ++ [_]) as Hr' by (case_if_in Hr; [by apply elem_of_drop in Hr|exact Hr]).
      apply elem_of_app in Hr' as [?|Hr']; [by right|]. left. apply list_elem_of_singleton in Hr'. by subst.
  - case_if; rewrite ?length_drop, length_app; cbn.
    + lia.
    + apply Nat.ltb_ge in Heqb1. rewrite length_app in Heqb1. cbn in Heqb1. lia.
Qed.

(** A due rotation hands over to the first eligible king after the current
    one in cyclic order, the current one excluded, and fails, changing nothing,
    exactly when none of them holds the minimum stake. *)
Theorem rotation_selects_next_eligible (m : RotatingKingManager) (h now : Z)
    (bal : address → option Z)
    (Hcur : (m.(state).(CurrentKingIndex) < length m.(config).(KingAddresses))%nat)
    (Hdue : m.(state).(NextRotationAt) <= h) :
  match RotateToNextKing m h (Some bal) now with
  | Ok m' => ∃ k, rotation_choice m (Some bal) m'.(state).(CurrentKingIndex) k ∧
               GetCurrentKing m' = Some k ∧
               m'.(state).(NextRotationAt) = h +₆₄ m.(config).(RotationInterval)
  | Err e => e = ErrNoEligibleKing h ∧
      ∀ d k, (1 <= d < Nat.max 2 (length m.(config).(KingAddresses)))%nat →
        m.(config).(KingAddresses) !!
          ((m.(state).(CurrentKingIndex) + d) mod length m.(config).(KingAddresses))%nat = Some k →
        eligible m.(config).(MinStakeRequired) (bal k) = false
  end.
Proof.
  destruct (RotateToNextKing m h (Some bal) now) as [m'|e] eqn:E.
  - apply RotateToNextKing_ok in E as (Hc & _ & _ & (k & Hk & _) & _ & Hn & _).
    exists k. split; [done|]. split; [|done].
    destruct Hk as (d & _ & _ & Hl & _). unfold GetCurrentKing. rewrite Hc.
    rewrite bool_decide_false; [done|]. intros Hnil. by rewrite Hnil in Hl.
  - unfold RotateToNextKing in E. rewrite bool_decide_false in E
      by (intros Hnil; rewrite Hnil in Hcur; cbn in Hcur; lia).
    rewrite (proj2 (Z.ltb_ge _ _)) in E by done.
    destruct (lookup_lt_is_Some_2 _ _ Hcur) as [prev Hprev]. rewrite Hprev in E.
    set (kings := m.(config).(KingAddresses)) in *. set (cur := m.(state).(CurrentKingIndex)) in *.
    destruct (lookup_lt_is_Some_2 kings ((cur + 1) mod length kings)) as [x Hx].
    { apply Nat.mod_upper_bound. lia. }
    rewrite Hx in E. cbn [default from_option id] in E.
    destruct (eligible (MinStakeRequired (config m)) (bal x)) eqn:He; [done|].
    destruct (findEligible _ _ _ _ _ _) as [[? ?]|] eqn:Hf; [done|]. injection E as <-.
    split; [done|]. intros d k Hd Hk. destruct (decide (d = 1%nat)) as [->|]; [by simplify_eq|].
    eapply findEligible_None; [done| |done]. lia.
Qed.

Lemma rotation_selects_next_eligible_witness :
  let bal := λ a, if decide (a = 22) then Some 0 else Some EligibilityThreshold in
  match RotateToNextKing demo 100 (Some bal) 7 with
  | Ok m' => ∃ k, rotation_choice demo (Some bal) m'.(state).(CurrentKingIndex) k ∧
               GetCurrentKing m' = Some k ∧
               m'.(state).(NextRotationAt) = 100 +₆₄ demo.(config).(RotationInterval)
  | Err e => e = ErrNoEligibleKing 100 ∧
      ∀ d k, (1 <= d < Nat.max 2 (length demo.(config).(KingAddresses)))%nat →
        demo.(config).(KingAddresses) !!
          ((demo.(state).(CurrentKingIndex) + d) mod length demo.(config).(KingAddresses))%nat = Some k →
        eligible demo.(config).(MinStakeRequired) (bal k) = false
  end.
Proof. apply (rotation_selects_next_eligible demo 100 7); [cbn; lia|done]. Defined.

(** *** The invariant *)

Lemma inv_grow m c :
  manager_inv m → (∃ l, c.(KingAddresses) = m.(config).(KingAddresses) ++ l) → manager_inv (withConfig m c).
Proof.
  intros (Hi & Hh & Hf) [l Hl]. unfold manager_inv. cbn. rewrite Hl, length_app.
  split; [lia|]. split; [done|]. eapply Forall_impl; [exact Hf|]. intros r Hr. apply elem_of_app. by left.
Qed.

Lemma step_inv keccak256 m m' : step keccak256 m m' → manager_inv m → manager_inv m'.
Proof.
  intros Hs Hm. destruct Hs as [m i|m a h|m m' a h b r Hr|m m' h p now Hr].
  - unfold SetRotationInterval. by case_if.
  - unfold AddKingAddressAt. case_decide; [done|]. case_decide.
    + destruct (_ !! a); [|done]. case_if; [|done]. apply inv_grow; [done|]. exists []. by rewrite app_nil_r.
    + apply inv_grow; [done|]. by exists [a].
  - unfold RegisterKingAt in Hr. apply bind_ok in Hr as (? & _ & Hr). case_decide; [done|].
    injection Hr as <- <-. apply inv_grow; [done|]. by exists [a].
  - destruct Hm as (Hi & Hh & Hf).
    apply RotateToNextKing_ok in Hr as (Hc & _ & _ & (k & (d & _ & _ & Hk & _) & _ & Hin) & _ & _ & _ & Hlen).
    unfold manager_inv. rewrite Hc. split; [apply lookup_lt_Some in Hk; lia|]. split; [lia|].
    rewrite Forall_forall in Hf |- *. intros r Hr. destruct (Hin r Hr) as [->|Hr']; [|by apply Hf].
    by eapply list_elem_of_lookup_2.
Qed.

(** In every state the manager can reach, the current index designates a
    configured king (so no query or rotation panics), the history holds at most
    100 records, and each records a king that is still configured. *)
Theorem manager_invariant (keccak256 : bytes → hash) (chainID : option Z) (mk : address)
    (kings : list address) (interval now : Z) (m : RotatingKingManager)
    (Hreach : rtc (step keccak256) (NewRotatingKingManagerForChain chainID mk kings interval now) m) :
  manager_inv m ∧ is_Some (GetCurrentKing m) ∧ is_Some (GetNextKing m) ∧
  ∀ h p t, RotateToNextKing m h p t ≠ Err PanicIndexOutOfRange.
Proof.
  assert (Hinv : manager_inv m).
  { assert (H0 : manager_inv (NewRotatingKingManagerForChain chainID mk kings interval now)).
    { unfold manager_inv. cbn. repeat split; [lia|lia|done]. }
    revert H0. induction Hreach as [|x y z Hxy _ IH]; [done|]. intros Hx. eapply IH, step_inv; done. }
  split; [done|]. destruct Hinv as (Hi & _ & _).
  unfold GetCurrentKing, GetNextKing, RotateToNextKing. set (ks := m.(config).(KingAddresses)) in *.
  destruct (decide (ks = [])) as [E|E].
  { rewrite bool_decide_true by done. repeat split; try (by eexists). done. }
  rewrite bool_decide_false by done. assert (length ks ≠ 0%nat) by (by destruct ks).
  assert (Hcur : is_Some (ks !! m.(state).(CurrentKingIndex))) by (apply lookup_lt_is_Some; lia).
  split; [done|]. split; [apply lookup_lt_is_Some, Nat.mod_upper_bound; lia|].
  intros h p t. destruct Hcur as [x ->]. case_if; [done|].
  destruct p as [bal|]; [|done]. destruct (eligible _ _); [done|].
  by destruct (findEligible _ _ _ _ _ _) as [[? ?]|].
Qed.

Lemma manager_invariant_witness :
  let m := AddKingAddressAt (SetRotationInterval demo 50) 44 7 in
  manager_inv m ∧ is_Some (GetCurrentKing m) ∧ is_Some (GetNextKing m) ∧
  ∀ h p t, RotateToNextKing m h p t ≠ Err PanicIndexOutOfRange.
Proof.
  apply (manager_invariant (λ _, 0) (Some 8980) 99 [11; 22; 33] 100 0).
  eapply rtc_l; [apply step_interval|]. eapply rtc_l; [apply step_add|]. apply rtc_refl.
Defined.

End RotatingKing.
