(* ===== verification/Rewards.v ===== *)
(** * Paying block rewards

    [DistributeRewards] and [DistributeUncleReward] of
    [consensus/randomx/reward.go] and the engine's reward code of
    [consensus/randomx/randomx.go]: the shares of a block, the synthetic reward
    transactions that record them, and the two ways the engine credits them
    (implicitly at finalisation, or from the reward transactions of the body).
    State changes go through the [WorldState] interface; the logging calls are
    left out. *)

From S2P Require Import Prelude Bytes Emission State RotatingKing.

Module Rewards.
Import RandomX Antartical.

(** [uint256.MustFromBig] panics when the value needs more than 256 bits. *)
Inductive panic := PanicUint256Overflow.

Definition MustFromBig {U : Uint256} (x : Z) : result panic Z :=
  let '(v, overflow) := u256_fromBig x in
  if overflow then Err PanicUint256Overflow else Ok v.

(** ** Synthetic reward transactions ([core/types/transaction.go]) *)

Definition blockRewardTxPrefix : bytes := str "tkmchain:blockreward:v1:".

Definition BlockRewardMainKing : Z := 0.
Definition BlockRewardRotatingKing : Z := 1.
Definition BlockRewardMiner : Z := 2.
Definition BlockRewardValidator : Z := 3.

(** The fields of a legacy transaction that matter here; other transaction
    types have [tx_Type <> 0]. *)
Record Transaction := {
  tx_Type : Z;
  tx_Nonce : Z;
  tx_To : option address;
  tx_Value : Z;
  tx_Gas : Z;
  tx_GasPrice : Z;
  tx_Data : bytes;
}.

#[global] Instance Transaction_eq_dec : EqDecision Transaction.
Proof. solve_decision. Defined.

(** The prefix, eight bytes of height, and one byte of kind. *)
Definition rewardData (blockNumber kind : Z) : bytes :=
  blockRewardTxPrefix ++ be_bytes 8 blockNumber ++ [kind mod 256].

Definition NewBlockRewardTx (blockNumber kind : Z) (to : address) (amount : option Z) : Transaction := {|
  tx_Type := 0;
  tx_Nonce := (blockNumber *₆₄ 3) +₆₄ kind;
  tx_To := Some to;
  tx_Value := default 0 amount;
  tx_Gas := 0;
  tx_GasPrice := 0;
  tx_Data := rewardData blockNumber kind;
|}.

Definition NewValidatorRewardTx (blockNumber : Z) (to : address) (amount : option Z) : Transaction := {|
  tx_Type := 0;
  tx_Nonce := (blockNumber *₆₄ 4) +₆₄ BlockRewardValidator;
  tx_To := Some to;
  tx_Value := default 0 amount;
  tx_Gas := 0;
  tx_GasPrice := 0;
  tx_Data := rewardData blockNumber BlockRewardValidator;
|}.

Definition IsBlockRewardTx (tx : option Transaction) : bool :=
  match tx with
  | None => false
  | Some tx =>
      if negb (tx.(tx_Type) =? 0) || negb (tx.(tx_Gas) =? 0) || negb (tx.(tx_GasPrice) =? 0) then false
      else (length tx.(tx_Data) =? length blockRewardTxPrefix + 9)%nat
           && bool_decide (take (length blockRewardTxPrefix) tx.(tx_Data) = blockRewardTxPrefix)
  end.

Definition BlockRewardKind (tx : option Transaction) : option Z :=
  match tx with
  | Some t => if IsBlockRewardTx (Some t) then last t.(tx_Data) else None
  | None => None
  end.

Definition IsValidatorRewardTx (tx : option Transaction) : bool :=
  bool_decide (BlockRewardKind tx = Some BlockRewardValidator).

(** ** The engine *)

(** The part of [randomx.Config] and of the chain configuration the reward code
    reads; [chainAntartical] is [rx.chain.Config().IsAntartical]. *)
Record Config := {
  PostQuantumMainKingAddress : address;
  QuantumResistantTime : option Z;
  AntarticalTime : option Z;
}.

Record Engine := {
  rx_config : option Config;
  rx_mainKing : address;
  rx_rotatingKings : list address;
  rx_rotatingKingActivations : gmap Z Z;
  rx_rotationInterval : Z;
  rx_chainAntartical : option (Z → Z → bool);
}.

Record Header := {
  Number : Z;
  Time : Z;
  Coinbase : address;
}.

Definition mainKingAt (rx : Engine) (header : Header) : address :=
  match rx.(rx_config) with
  | None => zeroAddress
  | Some cfg =>
      match cfg.(QuantumResistantTime) with
      | Some t =>
          if bool_decide (cfg.(PostQuantumMainKingAddress) ≠ zeroAddress) && (t <=? header.(Time))
          then cfg.(PostQuantumMainKingAddress) else rx.(rx_mainKing)
      | None => rx.(rx_mainKing)
      end
  end.

Definition antarticalActive (rx : Engine) (header : Header) : bool :=
  let byChain :=
    match rx.(rx_chainAntartical) with
    | Some isAntartical => isAntartical header.(Number) header.(Time)
    | None => false
    end in
  byChain ||
  match rx.(rx_config) with
  | Some cfg => match cfg.(AntarticalTime) with Some t => t <=? header.(Time) | None => false end
  | None => false
  end.

(** *** The engine's own king schedule *)

Definition activeRotatingKingsAtLocked (rx : Engine) (blockNumber : Z) : list address :=
  base.filter (λ a, ¬ (blockNumber < default 0 (rx.(rx_rotatingKingActivations) !! a)))
    rx.(rx_rotatingKings).

Definition rotatingKingStep (rx : Engine) (current : address) (height : Z) : address :=
  let active := activeRotatingKingsAtLocked rx height in
  match active with
  | [] => current
  | first :: _ =>
      match RotatingKing.indexOfKingAddress active current with
      | None => first
      | Some index =>
          if decide (current = zeroAddress) then first
          else if height =? 0 then current
          else default zeroAddress (active !! ((index + 1) mod length active)%nat)
      end
  end.

Fixpoint rotatingKingLoop (fuel : nat) (rx : Engine) (blockNumber height : Z) (current : address) : option address :=
  match fuel with
  | O => None
  | S f =>
      if height <=? blockNumber
      then rotatingKingLoop f rx blockNumber (height +₆₄ rx.(rx_rotationInterval))
             (rotatingKingStep rx current height)
      else Some current
  end.

(** [getRotatingKing] with the fuel of [RotatingKing.scheduleFuel]; [None] would
    mean that the loop has not ended. *)
Definition getRotatingKing (rx : Engine) (blockNumber : Z) : option address :=
  if bool_decide (rx.(rx_rotatingKings) = []) || (rx.(rx_rotationInterval) =? 0) then Some zeroAddress
  else rotatingKingLoop (RotatingKing.scheduleFuel rx.(rx_rotationInterval) blockNumber) rx blockNumber 0 zeroAddress.

Definition SetRotationInterval (rx : Engine) (interval : Z) : Engine :=
  if interval =? 0 then rx
  else {| rx_config := rx.(rx_config); rx_mainKing := rx.(rx_mainKing); rx_rotatingKings := rx.(rx_rotatingKings);
          rx_rotatingKingActivations := rx.(rx_rotatingKingActivations); rx_rotationInterval := interval;
          rx_chainAntartical := rx.(rx_chainAntartical) |}.

Definition AddRotatingKingAt (rx : Engine) (a : address) (activation : Z) : Engine :=
  if decide (a = zeroAddress) then rx
  else
    let acts := rx.(rx_rotatingKingActivations) in
    let set kings acts := {|
      rx_config := rx.(rx_config); rx_mainKing := rx.(rx_mainKing); rx_rotatingKings := kings;
      rx_rotatingKingActivations := acts; rx_rotationInterval := rx.(rx_rotationInterval);
      rx_chainAntartical := rx.(rx_chainAntartical) |} in
    if decide (a ∈ rx.(rx_rotatingKings)) then
      match acts !! a with
      | Some current => if activation <? current then set rx.(rx_rotatingKings) (<[a := activation]> acts) else rx
      | None => set rx.(rx_rotatingKings) (<[a := activation]> acts)
      end
    else set (rx.(rx_rotatingKings) ++ [a]) (<[a := activation]> acts).

(** *** Shares *)

Record Shares := {
  sh_mainKing : address; sh_mainKingReward : Z;
  sh_rotatingKing : address; sh_rotatingKingReward : Z;
  sh_miner : address; sh_minerReward : Z;
}.

Definition mkShares (mk : address) (mkr : Z) (rk : address) (rkr : Z) (mi : address) (mir : Z) : Shares :=
  {| sh_mainKing := mk; sh_mainKingReward := mkr; sh_rotatingKing := rk;
     sh_rotatingKingReward := rkr; sh_miner := mi; sh_minerReward := mir |}.

(** The 10/40/50 split with the rounding remainder added to the miner. *)
Definition percentSplit (total : Z) : Z * Z * Z :=
  let mainKingReward := total * 10 / 100 in
  let rotatingKingReward := total * 40 / 100 in
  let minerReward := total * 50 / 100 in
  let actualTotal := mainKingReward + rotatingKingReward + minerReward in
  let minerReward := if actualTotal =? total then minerReward else minerReward + (total - actualTotal) in
  (mainKingReward, rotatingKingReward, minerReward).

(** The Antartical branch shared by [rewardShares] and [rewardMarkerShares]. *)
Definition antarticalSplit (mk rk miner : address) (blockNumber : Z) : Shares :=
  let shares := RewardSharesAt blockNumber DefaultBlocksPerHalving in
  let mainKingReward := default 0 shares.(Antartical.MainKing) in
  let rotatingKingReward := default 0 shares.(Antartical.Rotating) in
  let minerReward := default 0 shares.(Antartical.Miner) in
  let '(mainKingReward, minerReward) :=
    if decide (mk = zeroAddress) then (0, minerReward + mainKingReward) else (mainKingReward, minerReward) in
  let '(rotatingKingReward, minerReward) :=
    if decide (rk = zeroAddress) then (0, minerReward + rotatingKingReward) else (rotatingKingReward, minerReward) in
  mkShares mk mainKingReward rk rotatingKingReward miner minerReward.

(** The redirection of an unassigned share in [rewardShares] and
    [DistributeRewards]. *)
Definition redirectUnassigned (mk rk : address) (mkr rkr mir : Z) : Z * Z * Z :=
  let '(mkr, mir) := if decide (mk = zeroAddress) then (0, mir + mkr) else (mkr, mir) in
  if decide (rk = zeroAddress) then
    if decide (mk = zeroAddress) then (mkr, 0, mir + rkr) else (mkr + rkr, 0, mir)
  else (mkr, rkr, mir).

(** [rewardShares]; the king of the block, [getRotatingKing], is the argument
    [rk]. *)
Definition rewardShares (rx : Engine) (rk : address) (header : Header) (totalReward : option Z) : Shares :=
  let mk := mainKingAt rx header in
  let miner := header.(Coinbase) in
  let total := default 0 totalReward in
  if total =? 0 then mkShares mk 0 rk 0 miner 0
  else if antarticalActive rx header then antarticalSplit mk rk miner header.(Number)
  else
    let '(mkr, rkr, mir) := percentSplit total in
    let '(mkr, rkr, mir) := redirectUnassigned mk rk mkr rkr mir in
    mkShares mk mkr rk rkr miner mir.

Definition rewardMarkerShares (rx : Engine) (rk : address) (header : Header) (totalReward : option Z) : Shares :=
  let mk := mainKingAt rx header in
  let miner := header.(Coinbase) in
  let total := default 0 totalReward in
  if total =? 0 then mkShares mk 0 rk 0 miner 0
  else if antarticalActive rx header then antarticalSplit mk rk miner header.(Number)
  else
    let '(mkr, rkr, mir) := percentSplit total in
    if decide (mk = zeroAddress) then mkShares mk 0 rk 0 miner (mir + mkr + rkr)
    else mkShares mk mkr rk rkr miner mir.

(** *** Reward transactions *)

Definition RewardTransactions (rx : Engine) (rk : address) (header : Header) : list Transaction :=
  let blockNumber := header.(Number) in
  let totalReward := CalculateTotalReward (CalculateBlockReward blockNumber) None in
  let sh := rewardMarkerShares rx rk header (Some totalReward) in
  (if (0 <? sh.(sh_mainKingReward)) && bool_decide (sh.(sh_mainKing) ≠ zeroAddress)
   then [NewBlockRewardTx blockNumber BlockRewardMainKing sh.(sh_mainKing) (Some sh.(sh_mainKingReward))] else []) ++
  (if 0 <? sh.(sh_rotatingKingReward)
   then [NewBlockRewardTx blockNumber BlockRewardRotatingKing sh.(sh_rotatingKing) (Some sh.(sh_rotatingKingReward))] else []) ++
  (if (0 <? sh.(sh_minerReward)) && bool_decide (sh.(sh_miner) ≠ zeroAddress)
   then [NewBlockRewardTx blockNumber BlockRewardMiner sh.(sh_miner) (Some sh.(sh_minerReward))] else []).

Definition fallbackRewardTransactions (rx : Engine) (rk : address) (header : Header) : list Transaction :=
  let blockNumber := header.(Number) in
  let totalReward := CalculateTotalReward (CalculateBlockReward blockNumber) None in
  let sh := rewardShares rx rk header (Some totalReward) in
  let rotatingTx := NewBlockRewardTx blockNumber BlockRewardRotatingKing sh.(sh_rotatingKing) (Some sh.(sh_rotatingKingReward)) in
  (if (0 <? sh.(sh_mainKingReward)) && bool_decide (sh.(sh_mainKing) ≠ zeroAddress)
   then [NewBlockRewardTx blockNumber BlockRewardMainKing sh.(sh_mainKing) (Some sh.(sh_mainKingReward))] else []) ++
  (if (0 <? sh.(sh_rotatingKingReward)) && bool_decide (sh.(sh_rotatingKing) ≠ zeroAddress) then [rotatingTx]
   else if bool_decide (sh.(sh_rotatingKing) = zeroAddress) && (0 <? sh.(sh_mainKingReward))
           && bool_decide (sh.(sh_mainKing) ≠ zeroAddress) then [rotatingTx]
   else []) ++
  (if (0 <? sh.(sh_minerReward)) && bool_decide (sh.(sh_miner) ≠ zeroAddress)
   then [NewBlockRewardTx blockNumber BlockRewardMiner sh.(sh_miner) (Some sh.(sh_minerReward))] else []).

Definition legacyRewardTransactions (rx : Engine) (rk : address) (header : Header) : list Transaction :=
  let blockNumber := header.(Number) in
  let totalReward := CalculateTotalReward (CalculateBlockReward blockNumber) None in
  let '(mkr, rkr, mir) := if 0 <? totalReward then percentSplit totalReward else (0, 0, 0) in
  [NewBlockRewardTx blockNumber BlockRewardMainKing (mainKingAt rx header) (Some mkr);
   NewBlockRewardTx blockNumber BlockRewardRotatingKing rk (Some rkr);
   NewBlockRewardTx blockNumber BlockRewardMiner header.(Coinbase) (Some mir)].

(** [Transaction.Hash] (Keccak of the RLP form) is a parameter. *)
Section Hashing.
Context (txHash : Transaction → hash).

Fixpoint sameRewardTransactions (a b : list Transaction) : bool :=
  match a, b with
  | [], [] => true
  | x :: a, y :: b => (txHash x =? txHash y) && sameRewardTransactions a b
  | _, _ => false
  end.

Definition containsRewardTransactionSet (candidates : list (list Transaction)) (target : list Transaction) : bool :=
  existsb (λ candidate, sameRewardTransactions candidate target) candidates.

Definition CompatibleRewardTransactions (rx : Engine) (rk : address) (header : Header) : list (list Transaction) :=
  let canonical := RewardTransactions rx rk header in
  if antarticalActive rx header then [canonical]
  else
    foldl (λ candidates candidate,
        if (0 <? length candidate)%nat && negb (containsRewardTransactionSet candidates candidate)
        then candidates ++ [candidate] else candidates)
      [canonical] [legacyRewardTransactions rx rk header; fallbackRewardTransactions rx rk header].

Definition appendRewardTransactions (txs rewards : list Transaction) : list Transaction :=
  match rewards with
  | [] => txs
  | _ =>
      if (length rewards <=? length txs)%nat
         && sameRewardTransactions (drop (length txs - length rewards) txs) rewards
      then txs else txs ++ rewards
  end.
End Hashing.

Definition rewardKind (tx : Transaction) : Z := default (-1) (last tx.(tx_Data)).

(** ** Crediting the state *)
Section Pay.
Context {U : Uint256} {S : Type} {W : WorldState S}.

Definition pay (s : S) (a : address) (amount : Z) : result panic S :=
  v ← MustFromBig amount; Ok (AddBalance s a v).

Definition payIf (c : bool) (s : S) (a : address) (amount : Z) : result panic S :=
  if c then pay s a amount else Ok s.

(** [reward.go: DistributeRewards]; the result is the new state and the returned
    total. *)
Definition DistributeRewards (s : S) (mk rk miner : address) (totalReward : option Z) : result panic (S * Z) :=
  let total := default 0 totalReward in
  if total =? 0 then Ok (s, 0)
  else
    let '(mkr, rkr, mir) := percentSplit total in
    let '(mkr, rkr, mir) := redirectUnassigned mk rk mkr rkr mir in
    s ← payIf ((0 <? mkr) && bool_decide (mk ≠ zeroAddress)) s mk mkr;
    s ← payIf ((0 <? rkr) && bool_decide (rk ≠ zeroAddress)) s rk rkr;
    s ← payIf ((0 <? mir) && bool_decide (miner ≠ zeroAddress)) s miner mir;
    Ok (s, total).

(** [reward.go: DistributeUncleReward] *)
Definition DistributeUncleReward (s : S) (uncleCoinbase : address) (uncleNumber blockNumber blockReward : Z) : result panic S :=
  let adjustment := uncleNumber + 8 - blockNumber in
  if 0 <? adjustment then pay s uncleCoinbase (blockReward * adjustment / 8) else Ok s.

Definition distributeRewardsToState (rx : Engine) (rk : address) (s : S) (header : Header) (totalReward : option Z) : result panic S :=
  let sh := rewardShares rx rk header totalReward in
  s ← payIf ((0 <? sh.(sh_mainKingReward)) && bool_decide (sh.(sh_mainKing) ≠ zeroAddress)) s sh.(sh_mainKing) sh.(sh_mainKingReward);
  s ← payIf ((0 <? sh.(sh_rotatingKingReward)) && bool_decide (sh.(sh_rotatingKing) ≠ zeroAddress)) s sh.(sh_rotatingKing) sh.(sh_rotatingKingReward);
  payIf ((0 <? sh.(sh_minerReward)) && bool_decide (sh.(sh_miner) ≠ zeroAddress)) s sh.(sh_miner) sh.(sh_minerReward).

(** One iteration of the crediting loop of [distributeBodyRewardTransactions]. *)
Definition payRewardTx (rx : Engine) (s : S) (tx : Transaction) : result panic S :=
  match tx.(tx_To) with
  | None => Ok s
  | Some to =>
      if tx.(tx_Value) =? 0 then Ok s
      else
        let recipient :=
          if (rewardKind tx =? BlockRewardRotatingKing) && bool_decide (to = zeroAddress)
             && bool_decide (rx.(rx_mainKing) ≠ zeroAddress)
          then rx.(rx_mainKing) else to in
        if decide (recipient = zeroAddress) then Ok s else pay s recipient tx.(tx_Value)
  end.

(** The body's transactions from its first reward transaction on. *)
Fixpoint rewardSuffix (txs : list Transaction) : list Transaction :=
  match txs with
  | [] => []
  | tx :: rest => if IsBlockRewardTx (Some tx) then tx :: rest else rewardSuffix rest
  end.

(** [None] is the [false] result: the body carries no reward suffix. *)
Definition distributeBodyRewardTransactions (rx : Engine) (s : S) (txs : list Transaction) : option (result panic S) :=
  match rewardSuffix txs with
  | [] => None
  | rewards =>
      if forallb (λ tx, IsBlockRewardTx (Some tx)) rewards
      then Some (foldl (λ acc tx, s ← acc; payRewardTx rx s tx) (Ok s) rewards)
      else None
  end.

Definition distributeKyotoEmptyBlockRewards (rx : Engine) (s : S) (header : Header) (blockReward : option Z) : result panic S :=
  let blockReward := default 0 blockReward in
  if blockReward =? 0 then Ok s
  else
    let mainKingReward := blockReward * 50 / 100 in
    let minerReward := blockReward - mainKingReward in
    let mk := mainKingAt rx header in
    s ← payIf (bool_decide (mk ≠ zeroAddress) && (0 <? mainKingReward)) s mk mainKingReward;
    payIf (bool_decide (header.(Coinbase) ≠ zeroAddress) && (0 <? minerReward)) s header.(Coinbase) minerReward.

Record Withdrawal := { wd_Address : address; wd_Amount : Z }.

Definition applyWithdrawals (s : S) (withdrawals : list Withdrawal) : S :=
  foldl (λ s w, AddBalance s w.(wd_Address) (u256_mul w.(wd_Amount) 1000000000)) s withdrawals.

(** [params.SystemAddress] and the slot [keccak256("randomx.rotatingking")]. *)
Context (systemAddress : address) (rotatingKingStateSlot : hash).

Definition writeRotatingKingToStateValue (s : S) (rk : address) : S :=
  SetState s systemAddress rotatingKingStateSlot rk.

Definition skipImplicitRewards (isKyoto : option (Z → Z → bool)) (header : Header) (txs : list Transaction) : bool :=
  match isKyoto with
  | Some kyoto =>
      if kyoto header.(Number) header.(Time) then forallb (λ tx, negb (IsBlockRewardTx (Some tx))) txs
      else false
  | None => false
  end.

(** [finalizeRewards]; [isKyoto] is [chain.Config().IsKyoto], [None] for a nil
    chain, and [rk] is the king of the block. *)
Definition finalizeRewards (isKyoto : option (Z → Z → bool)) (rx : Engine) (rk : address) (s : S)
    (header : Header) (withdrawals : list Withdrawal) (txs : list Transaction) : result panic S :=
  let s := applyWithdrawals s withdrawals in
  let s := writeRotatingKingToStateValue s rk in
  if decide (header.(Coinbase) = zeroAddress) then Ok s
  else
    match distributeBodyRewardTransactions rx s txs with
    | Some r => r
    | None =>
        let blockReward := CalculateBlockReward header.(Number) in
        if skipImplicitRewards isKyoto header txs
        then distributeKyotoEmptyBlockRewards rx s header (Some blockReward)
        else if 0 <? blockReward then distributeRewardsToState rx rk s header (Some blockReward)
        else Ok s
    end.

(** *** Historical Kyoto blocks *)

(** The shares are those of the block's own king [rk]; only the recipient of the
    rotating share is [king]. *)
Definition distributeRewardsToStateWithRotatingKing (rx : Engine) (rk : address) (s : S) (header : Header)
    (totalReward : option Z) (king : address) : result panic S :=
  let sh := rewardShares rx rk header totalReward in
  let mk := sh.(sh_mainKing) in
  let '(mkr, rkr, mir) :=
    if decide (king = zeroAddress) then
      if decide (mk ≠ zeroAddress)
      then (sh.(sh_mainKingReward) + sh.(sh_rotatingKingReward), 0, sh.(sh_minerReward))
      else (sh.(sh_mainKingReward), 0, sh.(sh_minerReward) + sh.(sh_rotatingKingReward))
    else (sh.(sh_mainKingReward), sh.(sh_rotatingKingReward), sh.(sh_minerReward)) in
  s ← payIf ((0 <? mkr) && bool_decide (mk ≠ zeroAddress)) s mk mkr;
  s ← payIf ((0 <? rkr) && bool_decide (king ≠ zeroAddress)) s king rkr;
  payIf ((0 <? mir) && bool_decide (sh.(sh_miner) ≠ zeroAddress)) s sh.(sh_miner) mir.

Definition historicalRotatingKingAddresses : list address :=
  [0x08959f2d8aaeb6a1a27a2dc3f6d0b07fd1fba21a; 0xa934a0a34a11eaeadc9a850d1017db2cb2216672;
   0xa76a7a2ec8c25400739ef5556cca8ae0c6247123; 0x577ebcf6d33f394e153156b1570fef0ab0ab4b3a;
   0x7a1e6b083943a95d45e8f3a07b90f93e63c0dbae; 0x4901ae660c6346c633d09a800056368d3cd6199c;
   0xcea49fe4228945e23aa5fa3ddfdc643ceabae1e7; 0x5a23aeec3ae9d21c93f5c560b4e080a6e3a68479;
   0xa5fa147d3705e2fc6aa80314c22f2673fef7a0ba; 0x618d891c7faafc4769c398100d9ff0eca1e48ffb;
   0xf4829bb30f5f0b8d009a1f1f2fffb891878b2f73; 0xb53681fc516570aa8c73266762c5494db7e5a260;
   0x4f8194062c21cfe921d294e79c6b913efc8f70ce]%Z.

(** The candidate finalisations of [FinalizeKyotoEmptyBlockForRoot], in the
    order the code tries them. *)
Definition kyotoCandidates (rx : Engine) (rk : address) (header : Header) : list (S → result panic S) :=
  let blockReward := CalculateBlockReward header.(Number) in
  [λ s, distributeKyotoEmptyBlockRewards rx (writeRotatingKingToStateValue s rk) header (Some blockReward);
   λ s, distributeKyotoEmptyBlockRewards rx s header (Some blockReward);
   λ s, Ok (writeRotatingKingToStateValue s rk);
   λ s, Ok s;
   λ s, distributeRewardsToState rx rk (writeRotatingKingToStateValue s rk) header (Some blockReward)] ++
  historicalRotatingKingAddresses ≫= λ king,
    [λ s, distributeKyotoEmptyBlockRewards rx (writeRotatingKingToStateValue s king) header (Some blockReward);
     λ s, Ok (writeRotatingKingToStateValue s king);
     λ s, distributeRewardsToStateWithRotatingKing rx rk (writeRotatingKingToStateValue s king) header (Some blockReward) king].

(** The first candidate whose state root is [targetRoot]. *)
Fixpoint firstMatchingRoot (intermediateRoot : S → hash) (targetRoot : hash)
    (candidates : list (S → result panic S)) (s : S) : result panic (option S) :=
  match candidates with
  | [] => Ok None
  | apply :: rest =>
      s' ← apply s;
      if intermediateRoot s' =? targetRoot then Ok (Some s')
      else firstMatchingRoot intermediateRoot targetRoot rest s
  end.

(** [Ok None] is the [false] result, which leaves the state as it was;
    [intermediateRoot] is [StateDB.IntermediateRoot(eip158)]. *)
Definition FinalizeKyotoEmptyBlockForRoot (intermediateRoot : S → hash) (isKyoto : option (Z → Z → bool))
    (rx : Engine) (rk : address) (header : Header) (s : S) (txs : option (list Transaction))
    (targetRoot : hash) : result panic (option S) :=
  match isKyoto, txs with
  | Some kyoto, Some txs =>
      if negb (kyoto header.(Number) header.(Time)) || bool_decide (header.(Coinbase) = zeroAddress) then Ok None
      else if existsb (λ tx, IsBlockRewardTx (Some tx)) txs then Ok None
      else firstMatchingRoot intermediateRoot targetRoot (kyotoCandidates rx rk header) s
  | _, _ => Ok None
  end.
End Pay.

(** ** Reward transactions and their markers *)

Lemma NewBlockRewardTx_is_reward n kind to v : IsBlockRewardTx (Some (NewBlockRewardTx n kind to v)) = true.
Proof.
  unfold IsBlockRewardTx, NewBlockRewardTx, rewardData. cbn [tx_Type tx_Gas tx_GasPrice tx_Data].
  rewrite !length_app, length_be_bytes, take_app_length. cbn. by rewrite bool_decide_true.
Qed.

Lemma rewardKind_NewBlockRewardTx n kind to v :
  0 <= kind < 256 → rewardKind (NewBlockRewardTx n kind to v) = kind.
Proof.
  intros H. unfold rewardKind, NewBlockRewardTx, rewardData. cbn [tx_Data].
  rewrite app_assoc, last_snoc. cbn. by rewrite Z.mod_small.
Qed.

(** ** Shares *)

Lemma percentSplit_spec total mkr rkr mir :
  0 <= total → percentSplit total = (mkr, rkr, mir) →
  mkr = total * 10 / 100 ∧ rkr = total * 40 / 100 ∧ mir = total - mkr - rkr ∧
  0 <= mkr ∧ 0 <= rkr ∧ 0 <= mir.
Proof.
  intros H. unfold percentSplit. intros [= <- <- <-]. case_if; divlia.
Qed.

Lemma redirectUnassigned_spec mk rk a b c mkr rkr mir :
  0 <= a → 0 <= b → 0 <= c → redirectUnassigned mk rk a b c = (mkr, rkr, mir) →
  mkr + rkr + mir = a + b + c ∧ 0 <= mkr ∧ 0 <= rkr ∧ 0 <= mir ∧
  (mk = zeroAddress → mkr = 0) ∧ (rk = zeroAddress → rkr = 0).
Proof.
  intros ???. unfold redirectUnassigned.
  destruct (decide (mk = zeroAddress)), (decide (rk = zeroAddress)); intros [= <- <- <-]; lia.
Qed.

(** The credits a share assignment stands for. *)
Definition creditIf (a : address) (v : Z) : list (address * Z) :=
  if (0 <? v) && bool_decide (a ≠ zeroAddress) then [(a, v)] else [].

Definition shareCredits (sh : Shares) : list (address * Z) :=
  creditIf sh.(sh_mainKing) sh.(sh_mainKingReward) ++
  creditIf sh.(sh_rotatingKing) sh.(sh_rotatingKingReward) ++
  creditIf sh.(sh_miner) sh.(sh_minerReward).

Lemma creditIf_ok a v : v < two256 → credits_ok (creditIf a v).
Proof. intros H. unfold creditIf. case_if; repeat constructor; lia. Qed.

Lemma creditIf_cases a v :
  0 <= v → creditIf a v = [(a, v)] ∧ a ≠ zeroAddress ∨ creditIf a v = [] ∧ (v = 0 ∨ a = zeroAddress).
Proof.
  intros H. unfold creditIf. destruct (Z.ltb_spec 0 v); cbn; [|right; split; [done|left; lia]].
  case_bool_decide; cbn; [by left|right]. split; [done|]. right. destruct (decide (a = zeroAddress)); [done|tauto].
Qed.

Lemma creditIf_total a v :
  0 <= v → credit_total (creditIf a v) = if decide (a = zeroAddress) then 0 else v.
Proof.
  intros H. destruct (creditIf_cases a v H) as [[-> ?]|[-> ?]]; cbn; repeat case_decide; destruct_or?; try done; lia.
Qed.

Lemma credited_creditIf a v b :
  0 <= v → credited (creditIf a v) b = if decide (a = b ∧ b ≠ zeroAddress) then v else 0.
Proof.
  intros H. destruct (creditIf_cases a v H) as [[-> ?]|[-> ?]]; cbn; repeat case_decide;
    destruct_and?; destruct_or?; subst; try done; try lia; tauto.
Qed.

Lemma credited_creditIf_eq a v : 0 <= v → a ≠ zeroAddress → credited (creditIf a v) a = v.
Proof. intros. rewrite credited_creditIf, decide_True; done. Qed.

Lemma credited_creditIf_ne a v b : a ≠ b → credited (creditIf a v) b = 0.
Proof.
  intros H. unfold creditIf. case_if; [|done]. cbn. rewrite decide_False by done. done.
Qed.

Definition shares_ok (sh : Shares) : Prop :=
  0 <= sh.(sh_mainKingReward) < two256 ∧ 0 <= sh.(sh_rotatingKingReward) < two256 ∧
  0 <= sh.(sh_minerReward) < two256.

Lemma shareCredits_ok sh : shares_ok sh → credits_ok (shareCredits sh).
Proof.
  intros (?&?&?). unfold shareCredits, credits_ok. rewrite !Forall_app.
  repeat split; apply creditIf_ok; lia.
Qed.

Lemma antarticalSplit_ok mk rk miner n : shares_ok (antarticalSplit mk rk miner n).
Proof.
  unfold antarticalSplit. change DefaultBlocksPerHalving with BlocksPerHalving.
  rewrite RewardSharesAt_period. unfold sharesAfter. cbn [Miner Validator Rotating MainKing default].
  set (k := Z.to_nat _).
  assert (Hc : ∀ x, 0 <= x → 0 <= x / 2 ^ Z.of_nat k <= x).
  { intros x Hx. assert (0 < 2 ^ Z.of_nat k) by (apply Z.pow_pos_nonneg; lia).
    split; [by apply Z.div_pos|]. apply Z.div_le_upper_bound; [lia|]. nia. }
  pose proof (Hc (90 * oneTKM) ltac:(done)) as H1. pose proof (Hc (35 * oneTKM) ltac:(done)) as H2.
  pose proof (Hc (5 * oneTKM) ltac:(done)) as H3.
  assert (200 * oneTKM < two256) by done. unfold oneTKM in *. unfold from_option, id.
  revert H1 H2 H3. generalize (90 * 1000000000000000000 / 2 ^ Z.of_nat k)
    (35 * 1000000000000000000 / 2 ^ Z.of_nat k) (5 * 1000000000000000000 / 2 ^ Z.of_nat k).
  intros x y z ???. unfold shares_ok.
  destruct (decide (mk = zeroAddress)), (decide (rk = zeroAddress)); cbn; lia.
Qed.

Lemma rewardShares_ok rx rk h total :
  0 <= total < two256 → shares_ok (rewardShares rx rk h (Some total)).
Proof.
  intros H. unfold rewardShares. cbn [default from_option].
  case_if; [by repeat split|]. case_if; [apply antarticalSplit_ok|].
  destruct (percentSplit _) as [[a b] c] eqn:E1. destruct (redirectUnassigned _ _ _ _ _) as [[x y] z] eqn:E2.
  apply percentSplit_spec in E1; [|cbn; lia]. apply redirectUnassigned_spec in E2; [|lia..].
  unfold shares_ok, mkShares; cbn in *. lia.
Qed.

Section PayLemmas.
Context {U : Uint256} {S : Type} {W : WorldState S}.
Implicit Types s : S.

Lemma MustFromBig_ok x : 0 <= x < two256 → MustFromBig x = Ok x.
Proof.
  intros H. unfold MustFromBig. rewrite u256_fromBig_spec, Z.mod_small by done.
  rewrite bool_decide_false; [done|]. rewrite Z.abs_eq; lia.
Qed.

Lemma pay_ok s a v : 0 <= v < two256 → pay s a v = Ok (credit s [(a, v)]).
Proof. intros H. unfold pay. by rewrite MustFromBig_ok. Qed.

Lemma payIf_creditIf s a v :
  0 <= v < two256 →
  payIf ((0 <? v) && bool_decide (a ≠ zeroAddress)) s a v = Ok (credit s (creditIf a v)).
Proof. intros H. unfold payIf, creditIf. case_if; [by apply pay_ok|done]. Qed.

Lemma distributeRewardsToState_credits rx rk s h total :
  shares_ok (rewardShares rx rk h total) →
  distributeRewardsToState rx rk s h total = Ok (credit s (shareCredits (rewardShares rx rk h total))).
Proof.
  intros (?&?&?). unfold distributeRewardsToState, shareCredits.
  rewrite payIf_creditIf by done. cbn. rewrite payIf_creditIf by done. cbn.
  rewrite payIf_creditIf by done. by rewrite !credit_app, app_assoc.
Qed.

Lemma creditIf_recipient a v (l : list address) :
  a ∈ l → Forall (λ '(a, v), 0 < v ∧ a ≠ zeroAddress ∧ a ∈ l) (creditIf a v).
Proof. intros H. unfold creditIf. case_if; [|constructor]. repeat constructor; done. Qed.

Lemma shareCredits_recipients sh :
  Forall (λ '(a, v), 0 < v ∧ a ≠ zeroAddress ∧ a ∈ [sh.(sh_mainKing); sh.(sh_rotatingKing); sh.(sh_miner)])
    (shareCredits sh).
Proof.
  unfold shareCredits. rewrite !Forall_app. repeat split; apply creditIf_recipient; set_solver.
Qed.

(** [DistributeRewards] mints exactly the total it is given: it credits only
    the named, non-zero recipients, the credits add up to the total whenever there
    is a miner (an unassigned king share is redirected, never lost), and three
    distinct recipients get 10%, 40% and the rest with the rounding remainder. *)
Theorem distribute_rewards_conserves (s : S) (mk rk miner : address) (total : Z)
    (Htotal : 0 <= total < two256) :
  ∃ credits,
    DistributeRewards s mk rk miner (Some total) = Ok (credit s credits, total) ∧
    credits_ok credits ∧
    Forall (λ '(a, v), 0 < v ∧ a ≠ zeroAddress ∧ a ∈ [mk; rk; miner]) credits ∧
    (miner ≠ zeroAddress → credit_total credits = total) ∧
    (∀ a, GetBalance (credit s credits) a = (GetBalance s a + credited credits a) mod two256) ∧
    (mk ≠ zeroAddress → rk ≠ zeroAddress → miner ≠ zeroAddress → NoDup [mk; rk; miner] →
      credited credits mk = total * 10 / 100 ∧ credited credits rk = total * 40 / 100 ∧
      credited credits miner = total - total * 10 / 100 - total * 40 / 100).
Proof.
  unfold DistributeRewards. cbn [default from_option id].
  destruct (Z.eqb_spec total 0) as [->|Hne].
  { exists []. split; [done|]. split; [constructor|]. split; [constructor|]. split; [done|].
    split; [|done]. intros a. apply (GetBalance_credit s []). constructor. }
  destruct (percentSplit total) as [[a b] c] eqn:E1.
  destruct (redirectUnassigned mk rk a b c) as [[mkr rkr] mir] eqn:E2.
  apply percentSplit_spec in E1 as (Ea&Eb&Ec&?&?&?); [|lia].
  pose proof E2 as E3. apply redirectUnassigned_spec in E2 as (Hsum&?&?&?&Hmk&Hrk); [|lia..].
  set (sh := mkShares mk mkr rk rkr miner mir).
  assert (Hsh : shares_ok sh) by (unfold shares_ok, sh; cbn; lia).
  exists (shareCredits sh). split.
  { rewrite payIf_creditIf by lia. cbn. rewrite payIf_creditIf by lia. cbn.
    rewrite payIf_creditIf by lia. unfold shareCredits, sh. cbn. by rewrite !credit_app, app_assoc. }
  split; [by apply shareCredits_ok|]. split; [exact (shareCredits_recipients sh)|]. split.
  { intros Hm. unfold shareCredits, sh. cbn. rewrite !credit_total_app, !creditIf_total by lia.
    repeat case_decide; try done; lia. }
  split; [intros; by apply GetBalance_credit, shareCredits_ok|].
  intros ??? Hnd. apply NoDup_cons in Hnd as [Hn1 Hnd]. apply NoDup_cons in Hnd as [Hn2 _].
  rewrite !not_elem_of_cons in Hn1, Hn2.
  unfold redirectUnassigned in E3. rewrite !decide_False in E3 by done. injection E3 as <- <- <-.
  destruct_and!. unfold shareCredits, sh. cbn. rewrite !credited_app.
  rewrite !credited_creditIf_eq by done.
  rewrite !credited_creditIf_ne by set_solver. lia.
Qed.

(** *** The reward suffix of a body *)

(** Who the crediting loop pays for a marker of a given kind. *)
Definition markerRecipient (rx : Engine) (kind : Z) (to : address) : address :=
  if (kind =? BlockRewardRotatingKing) && bool_decide (to = zeroAddress)
     && bool_decide (rx.(rx_mainKing) ≠ zeroAddress) then rx.(rx_mainKing) else to.

Lemma markerRecipient_nonzero rx kind to : to ≠ zeroAddress → markerRecipient rx kind to = to.
Proof.
  intros H. unfold markerRecipient. rewrite (bool_decide_false (to = zeroAddress)) by done.
  by rewrite andb_false_r.
Qed.

Lemma payRewardTx_marker rx s n kind to v :
  0 <= kind < 256 → 0 <= v < two256 →
  payRewardTx rx s (NewBlockRewardTx n kind to (Some v)) = Ok (credit s (creditIf (markerRecipient rx kind to) v)).
Proof.
  intros Hk Hv. unfold payRewardTx. rewrite rewardKind_NewBlockRewardTx by done.
  cbn [tx_To tx_Value NewBlockRewardTx default from_option id].
  fold (markerRecipient rx kind to). set (r := markerRecipient rx kind to).
  unfold creditIf. destruct (Z.eqb_spec v 0) as [->|?]; [done|].
  rewrite (proj2 (Z.ltb_lt 0 v)) by lia. cbn [andb].
  destruct (decide (r = zeroAddress)).
  - by rewrite bool_decide_false by tauto.
  - rewrite bool_decide_true by done. by apply pay_ok.
Qed.

Definition markerTxs (n : Z) (l : list (Z * address * Z)) : list Transaction :=
  (λ '(kind, to, v), NewBlockRewardTx n kind to (Some v)) <$> l.

Definition markerCredits (rx : Engine) (l : list (Z * address * Z)) : list (address * Z) :=
  l ≫= λ '(kind, to, v), creditIf (markerRecipient rx kind to) v.

Definition markers_ok (l : list (Z * address * Z)) : Prop :=
  Forall (λ '(kind, _, v), 0 <= kind < 256 ∧ 0 <= v < two256) l.

Lemma pay_markers rx s n l :
  markers_ok l →
  foldl (λ acc tx, s ← acc; payRewardTx rx s tx) (Ok s) (markerTxs n l) = Ok (credit s (markerCredits rx l)).
Proof.
  unfold markers_ok. revert s. induction l as [|[[kind to] v] l IH]; intros s Hl; [done|].
  apply Forall_cons in Hl as [[Hk Hv] Hl]. cbn [markerTxs fmap list_fmap foldl].
  change (Ok s ≫= ?f) with (f s). cbv beta iota. rewrite payRewardTx_marker by done.
  fold (markerTxs n l). rewrite IH by done. by rewrite credit_app.
Qed.

Lemma markerTxs_reward n l : forallb (λ tx, IsBlockRewardTx (Some tx)) (markerTxs n l) = true.
Proof.
  induction l as [|[[kind to] v] l IH]; [done|]. cbn [markerTxs fmap list_fmap forallb].
  by rewrite NewBlockRewardTx_is_reward.
Qed.

Definition no_rewards (txs : list Transaction) : Prop := Forall (λ tx, IsBlockRewardTx (Some tx) = false) txs.

Lemma rewardSuffix_app txs l : no_rewards txs → rewardSuffix (txs ++ l) = rewardSuffix l.
Proof. induction 1 as [|tx txs Htx _ IH]; [done|]. cbn [app rewardSuffix]. by rewrite Htx. Qed.

Lemma distributeBody_none rx s txs : no_rewards txs → distributeBodyRewardTransactions rx s txs = None.
Proof.
  intros H. unfold distributeBodyRewardTransactions.
  by rewrite <- (app_nil_r txs), rewardSuffix_app.
Qed.

Lemma distributeBody_markers rx s txs n l :
  no_rewards txs → markers_ok l → l ≠ [] →
  distributeBodyRewardTransactions rx s (txs ++ markerTxs n l) = Some (Ok (credit s (markerCredits rx l))).
Proof.
  intros Htx Hl Hne. unfold distributeBodyRewardTransactions. rewrite rewardSuffix_app by done.
  destruct l as [|m l]; [done|]. pose proof (markerTxs_reward n (m :: l)) as Hr.
  rewrite <- (pay_markers rx s n (m :: l)) by done.
  assert (Hs : rewardSuffix (markerTxs n (m :: l)) = markerTxs n (m :: l)).
  { destruct m as [[kind to] v]. cbn [markerTxs fmap list_fmap rewardSuffix]. by rewrite NewBlockRewardTx_is_reward. }
  rewrite Hs. destruct (markerTxs n (m :: l)) eqn:E; [by destruct m as [[kind to] v]|]. by rewrite Hr.
Qed.

Lemma percentSplit_0 : percentSplit 0 = (0, 0, 0).
Proof. done. Qed.

(** The markers of [RewardTransactions]. *)
Definition shareMarkers (sh : Shares) : list (Z * address * Z) :=
  (if (0 <? sh.(sh_mainKingReward)) && bool_decide (sh.(sh_mainKing) ≠ zeroAddress)
   then [(BlockRewardMainKing, sh.(sh_mainKing), sh.(sh_mainKingReward))] else []) ++
  (if 0 <? sh.(sh_rotatingKingReward)
   then [(BlockRewardRotatingKing, sh.(sh_rotatingKing), sh.(sh_rotatingKingReward))] else []) ++
  (if (0 <? sh.(sh_minerReward)) && bool_decide (sh.(sh_miner) ≠ zeroAddress)
   then [(BlockRewardMiner, sh.(sh_miner), sh.(sh_minerReward))] else []).

Lemma RewardTransactions_markers rx rk h :
  RewardTransactions rx rk h =
    markerTxs h.(Number) (shareMarkers (rewardMarkerShares rx rk h (Some (CalculateBlockReward h.(Number))))).
Proof. unfold RewardTransactions, shareMarkers. cbn [CalculateTotalReward]. by repeat case_if. Qed.

Lemma shareMarkers_ok sh : shares_ok sh → markers_ok (shareMarkers sh).
Proof.
  intros (?&?&?). unfold shareMarkers, markers_ok. rewrite !Forall_app.
  repeat split; case_if; repeat constructor; try done; lia.
Qed.

Lemma rewardMarkerShares_ok rx rk h total :
  0 <= total < two256 → shares_ok (rewardMarkerShares rx rk h (Some total)).
Proof.
  intros H. unfold rewardMarkerShares. cbn [default from_option].
  case_if; [by repeat split|]. case_if; [apply antarticalSplit_ok|].
  destruct (percentSplit _) as [[a b] c] eqn:E1. apply percentSplit_spec in E1; [|cbn; lia].
  unfold id in *. destruct (decide (mainKingAt rx h = zeroAddress)); unfold shares_ok, mkShares; cbn in *; lia.
Qed.

Lemma markerCredits_share rx sh a :
  shares_ok sh →
  credited (markerCredits rx (shareMarkers sh)) a =
    credited (creditIf sh.(sh_mainKing) sh.(sh_mainKingReward)) a +
    credited (creditIf (markerRecipient rx BlockRewardRotatingKing sh.(sh_rotatingKing)) sh.(sh_rotatingKingReward)) a +
    credited (creditIf sh.(sh_miner) sh.(sh_minerReward)) a.
Proof.
  intros (?&?&?). unfold markerCredits, shareMarkers. rewrite !bind_app, !credited_app.
  rewrite Z.add_assoc. f_equal; [f_equal|].
  - destruct (_ && _) eqn:E; cbn; rewrite ?app_nil_r; unfold creditIf; by rewrite E.
  - destruct (0 <? _) eqn:E; cbn; rewrite ?app_nil_r; [done|]. unfold creditIf. by rewrite E.
  - destruct (_ && _) eqn:E; cbn; rewrite ?app_nil_r; unfold creditIf; by rewrite E.
Qed.

(** *** Finalisation *)

(** Two states a client of the balance and storage reads cannot tell apart. *)
Definition same_accounts (s1 s2 : S) : Prop :=
  (∀ a, GetBalance s1 a = GetBalance s2 a) ∧ (∀ a k, GetState s1 a k = GetState s2 a k).

Lemma same_accounts_credit s l1 l2 :
  credits_ok l1 → credits_ok l2 → (∀ a, credited l1 a = credited l2 a) →
  same_accounts (credit s l1) (credit s l2).
Proof.
  intros H1 H2 H. split; intros.
  - by rewrite !GetBalance_credit, H by done.
  - by rewrite !GetState_credit.
Qed.

#[global] Instance same_accounts_equiv : Equivalence same_accounts.
Proof.
  split.
  - by split.
  - intros ?? [H1 H2]. by split; intros; rewrite ?H1, ?H2.
  - intros ??? [H1 H2] [H3 H4]. split; intros; rewrite ?H1, ?H2; auto.
Qed.

Lemma markerCredits_ok l : markers_ok l → ∀ rx, credits_ok (markerCredits rx l).
Proof.
  intros H rx. induction H as [|[[kind to] v] l [? Hv] _ IH]; [constructor|].
  unfold credits_ok, markerCredits. cbn. apply Forall_app. split; [apply creditIf_ok; lia|done].
Qed.

(** Marker shares and real shares pay every account the same. *)
Lemma marker_shares_credited rx rk h total a :
  0 <= total < two256 →
  antarticalActive rx h = true ∨ mainKingAt rx h ≠ zeroAddress →
  rk ≠ zeroAddress ∨ mainKingAt rx h = rx.(rx_mainKing) →
  credited (markerCredits rx (shareMarkers (rewardMarkerShares rx rk h (Some total)))) a =
    credited (shareCredits (rewardShares rx rk h (Some total))) a.
Proof.
  intros Ht Hking Hrot. rewrite markerCredits_share by by apply rewardMarkerShares_ok.
  unfold shareCredits. rewrite !credited_app, Z.add_assoc.
  unfold rewardMarkerShares, rewardShares. cbn [default from_option id].
  destruct (Z.eqb_spec total 0); [done|]. destruct (antarticalActive rx h).
  { unfold antarticalSplit. do 2 case_decide; cbn; try done.
    all: f_equal; f_equal. all: by rewrite markerRecipient_nonzero by done. }
  destruct Hking as [?|Hking]; [done|].
  destruct (percentSplit total) as [[x y] z] eqn:E. apply percentSplit_spec in E as (?&?&?&?&?&?); [|lia].
  unfold redirectUnassigned. destruct (decide (mainKingAt rx h = zeroAddress)); [done|].
  destruct (decide (rk = zeroAddress)) as [Hrk|Hrk]; cbn; rewrite ?credited_creditIf by lia.
  - assert (Hm : markerRecipient rx BlockRewardRotatingKing rk = mainKingAt rx h).
    { unfold markerRecipient. cbn. rewrite bool_decide_true by done.
      destruct Hrot as [?|Hrot]; [done|]. rewrite bool_decide_true; [done|]. congruence. }
    rewrite Hm. repeat case_decide; lia.
  - rewrite markerRecipient_nonzero by done. lia.
Qed.

Lemma rewardMarkerShares_percent rx rk h total :
  antarticalActive rx h = false → mainKingAt rx h ≠ zeroAddress → 0 < total →
  rewardMarkerShares rx rk h (Some total) =
    mkShares (mainKingAt rx h) (total * 10 / 100) rk (total * 40 / 100) h.(Coinbase)
      (total - total * 10 / 100 - total * 40 / 100).
Proof.
  intros Hant Hpq Ht. unfold rewardMarkerShares. cbn [default from_option id].
  rewrite Hant, (proj2 (Z.eqb_neq total 0)) by lia.
  destruct (percentSplit total) as [[x y] z] eqn:E. apply percentSplit_spec in E as (->&->&->&_); [|lia].
  by rewrite decide_False.
Qed.

Lemma rewardShares_no_rotating rx rk h total :
  antarticalActive rx h = false → mainKingAt rx h ≠ zeroAddress → rk = zeroAddress → 0 < total →
  rewardShares rx rk h (Some total) =
    mkShares (mainKingAt rx h) (total * 10 / 100 + total * 40 / 100) rk 0 h.(Coinbase)
      (total - total * 10 / 100 - total * 40 / 100).
Proof.
  intros Hant Hpq Hrk Ht. unfold rewardShares. cbn [default from_option id].
  rewrite Hant, (proj2 (Z.eqb_neq total 0)) by lia.
  destruct (percentSplit total) as [[x y] z] eqn:E. apply percentSplit_spec in E as (->&->&->&_); [|lia].
  unfold redirectUnassigned. destruct (decide (mainKingAt rx h = zeroAddress)); [done|].
  by rewrite decide_True.
Qed.

Section Finalize.
Context (systemAddress : address) (slot : hash).
Context (isKyoto : option (Z → Z → bool)) (rx : Engine) (rk : address) (h : Header)
  (wds : list Withdrawal) (txs : list Transaction).
Context (Hn : 0 <= h.(Number)) (Htxs : no_rewards txs).
Context (Hkyoto : match isKyoto with Some f => f h.(Number) h.(Time) = false | None => True end).

Local Abbreviation finalize s := (finalizeRewards systemAddress slot isKyoto rx rk s h wds).
Let reward := CalculateBlockReward h.(Number).
Let prepared (s : S) := writeRotatingKingToStateValue systemAddress slot (applyWithdrawals s wds) rk.

Lemma reward_bound : 0 <= reward < two256.
Proof. pose proof (reward_nonneg _ Hn). assert (InitialBlockReward < two256) by done. unfold reward. lia. Qed.

Lemma finalize_implicit s :
  finalize s txs =
    Ok (if decide (h.(Coinbase) = zeroAddress) then prepared s
        else credit (prepared s) (shareCredits (rewardShares rx rk h (Some reward)))).
Proof.
  unfold finalizeRewards. case_decide; [done|].
  rewrite distributeBody_none by done. pose proof reward_bound as Hr. fold reward.
  assert (Hs : skipImplicitRewards isKyoto h txs = false).
  { unfold skipImplicitRewards. destruct isKyoto as [f|]; [by rewrite Hkyoto|done]. }
  rewrite Hs. case_if.
  - apply distributeRewardsToState_credits, rewardShares_ok. done.
  - unfold rewardShares. cbn. replace (reward =? 0) with true by (symmetry; apply Z.eqb_eq; lia). done.
Qed.

Lemma finalize_body s :
  finalize s (txs ++ RewardTransactions rx rk h) =
    if decide (shareMarkers (rewardMarkerShares rx rk h (Some reward)) = []) then finalize s txs
    else Ok (if decide (h.(Coinbase) = zeroAddress) then prepared s
             else credit (prepared s)
                    (markerCredits rx (shareMarkers (rewardMarkerShares rx rk h (Some reward))))).
Proof.
  rewrite RewardTransactions_markers. fold reward. case_decide as Hm.
  { rewrite Hm. by rewrite app_nil_r. }
  unfold finalizeRewards. case_decide; [done|].
  rewrite distributeBody_markers; [done..| |done].
  apply shareMarkers_ok, rewardMarkerShares_ok, reward_bound.
Qed.

(** A block that records its rewards as the transactions of
    [RewardTransactions] and a block without reward transactions are finalised to
    the same balances and storage, provided some main king is set, and either a
    rotating king is set or the main king is the configured one. *)
Theorem body_rewards_match_implicit (s : S)
    (Hking : antarticalActive rx h = true ∨ mainKingAt rx h ≠ zeroAddress)
    (Hrot : rk ≠ zeroAddress ∨ mainKingAt rx h = rx.(rx_mainKing)) :
  ∃ s1 s2,
    finalizeRewards systemAddress slot isKyoto rx rk s h wds (txs ++ RewardTransactions rx rk h) = Ok s1 ∧
    finalizeRewards systemAddress slot isKyoto rx rk s h wds txs = Ok s2 ∧
    same_accounts s1 s2.
Proof.
  pose proof reward_bound as Hr. rewrite finalize_body, finalize_implicit.
  case_decide as Hm.
  { eexists _, _. split; [done|]. split; [done|]. reflexivity. }
  case_decide; (eexists _, _; split; [done|]; split; [done|]); [reflexivity|].
  apply same_accounts_credit.
  - by apply markerCredits_ok, shareMarkers_ok, rewardMarkerShares_ok.
  - by apply shareCredits_ok, rewardShares_ok.
  - intros a. by apply marker_shares_credited.
Qed.

(** When the post-quantum main king has replaced the configured one and no
    rotating king is set, the reward transactions of a body pay the rotating
    share (40%) to the configured main king, which the same block without reward
    transactions pays nothing: the two finalisations disagree. *)
Theorem body_rewards_pay_old_main_king (s : S)
    (Hcb : h.(Coinbase) ≠ zeroAddress) (Hr : 0 < CalculateBlockReward h.(Number))
    (Hant : antarticalActive rx h = false)
    (Hpq : mainKingAt rx h ≠ zeroAddress) (Hold : rx.(rx_mainKing) ≠ zeroAddress)
    (Hne : mainKingAt rx h ≠ rx.(rx_mainKing)) (Hrk : rk = zeroAddress) :
  ∃ s1 s2,
    finalizeRewards systemAddress slot isKyoto rx rk s h wds (txs ++ RewardTransactions rx rk h) = Ok s1 ∧
    finalizeRewards systemAddress slot isKyoto rx rk s h wds txs = Ok s2 ∧
    GetBalance s1 rx.(rx_mainKing) =
      (GetBalance s2 rx.(rx_mainKing) + CalculateBlockReward h.(Number) * 40 / 100) mod two256.
Proof.
  pose proof reward_bound as Hb. rewrite finalize_body, finalize_implicit.
  fold reward in Hr |- *.
  pose proof (rewardMarkerShares_percent rx rk h reward Hant Hpq Hr) as Hsm.
  pose proof (rewardShares_no_rotating rx rk h reward Hant Hpq Hrk Hr) as Hss.
  rewrite (decide_False (P := h.(Coinbase) = _)) by done. rewrite decide_False.
  2:{ rewrite Hsm. unfold shareMarkers. cbn. rewrite (bool_decide_true (h.(Coinbase) ≠ _)) by done.
      rewrite (proj2 (Z.ltb_lt 0 (reward - _ - _))) by divlia. cbn. rewrite app_assoc. by intros [_ ?]%app_nil. }
  eexists _, _. split; [done|]. split; [done|].
  rewrite GetBalance_credit by by apply shareCredits_ok, rewardShares_ok.
  rewrite decide_False by done.
  rewrite GetBalance_credit by by apply markerCredits_ok, shareMarkers_ok, rewardMarkerShares_ok.
  rewrite markerCredits_share by by apply rewardMarkerShares_ok.
  unfold shareCredits. rewrite Hsm, Hss, !credited_app. cbn [sh_mainKing sh_mainKingReward sh_rotatingKing
    sh_rotatingKingReward sh_miner sh_minerReward mkShares].
  assert (Hrec : markerRecipient rx BlockRewardRotatingKing rk = rx.(rx_mainKing)).
  { unfold markerRecipient. cbn. by rewrite !bool_decide_true. }
  rewrite Hrec, credited_creditIf_eq by (done || divlia).
  rewrite !(credited_creditIf_ne (mainKingAt rx h)) by done.
  rewrite (credited_creditIf_ne rk) by (subst; done).
  rewrite Zplus_mod_idemp_l. f_equal. lia.
Qed.
End Finalize.

(** *** Historical Kyoto finalisation *)

(** [s'] differs from [s] in balances only by credits of at most [cap]. *)
Definition mints_at_most (cap : Z) (s s' : S) : Prop :=
  ∃ credits, credits_ok credits ∧ 0 <= credit_total credits <= cap ∧
    ∀ a, GetBalance s' a = (GetBalance s a + credited credits a) mod two256.

Lemma mints_credit cap s l :
  credits_ok l → credit_total l <= cap → mints_at_most cap s (credit s l).
Proof.
  intros Hl Hc. exists l. split; [done|]. split; [|intros a; by apply GetBalance_credit].
  split; [|done]. clear Hc. unfold credit_total. induction Hl as [|[a v] l Hv _ IH]; cbn in *; lia.
Qed.

Lemma mints_write cap sys slot s s' rk :
  mints_at_most cap (writeRotatingKingToStateValue sys slot s rk) s' → mints_at_most cap s s'.
Proof.
  intros (l&?&?&Hb). exists l. split; [done|]. split; [done|]. intros a. rewrite Hb.
  unfold writeRotatingKingToStateValue. by ws_simpl.
Qed.

Lemma kyoto_split_mints rx s h reward :
  0 <= reward < two256 →
  ∃ s', distributeKyotoEmptyBlockRewards rx s h (Some reward) = Ok s' ∧ mints_at_most reward s s'.
Proof.
  intros Hr. unfold distributeKyotoEmptyBlockRewards. cbn [default from_option id].
  destruct (Z.eqb_spec reward 0) as [->|?]; [by eexists; split; [|by apply (mints_credit 0 s []); [constructor|]]|].
  set (x := reward * 50 / 100). assert (0 <= x <= reward) by (unfold x; divlia).
  rewrite !(andb_comm (bool_decide _)). rewrite payIf_creditIf by lia. cbn [mbind result_bind].
  rewrite payIf_creditIf by lia. eexists. split; [done|]. rewrite credit_app. apply mints_credit.
  - apply Forall_app. split; apply creditIf_ok; lia.
  - rewrite credit_total_app, !creditIf_total by lia. repeat case_decide; lia.
Qed.

Lemma antarticalSplit_total mk rk miner n :
  0 <= n → CalculateBlockReward n ≠ 0 →
  let sh := antarticalSplit mk rk miner n in
  sh.(sh_mainKingReward) + sh.(sh_rotatingKingReward) + sh.(sh_minerReward) <= CalculateBlockReward n.
Proof.
  intros Hn Hr. cbn zeta.
  assert (n < emissionEnd) by (rewrite reward_closed_form in Hr by done; case_if_in Hr; done).
  rewrite <- shares_total_is_block_reward_lemma by done.
  unfold antarticalSplit. change DefaultBlocksPerHalving with BlocksPerHalving.
  rewrite RewardSharesAt_period. unfold sharesAfter, Total. cbn -[Z.div Z.pow Z.of_nat Z.mul oneTKM].
  set (k := Z.to_nat _).
  assert (0 <= 70 * oneTKM / 2 ^ Z.of_nat k).
  { apply Z.div_pos; [done|]. apply Z.pow_pos_nonneg; lia. }
  do 2 case_decide; cbn -[Z.div Z.pow Z.of_nat Z.mul oneTKM]; lia.
Qed.

Lemma rewardShares_total rx rk h :
  0 <= h.(Number) →
  let sh := rewardShares rx rk h (Some (CalculateBlockReward h.(Number))) in
  sh.(sh_mainKingReward) + sh.(sh_rotatingKingReward) + sh.(sh_minerReward) <= CalculateBlockReward h.(Number).
Proof.
  intros Hn. cbn zeta. pose proof (reward_nonneg _ Hn). set (r := CalculateBlockReward h.(Number)) in *.
  unfold rewardShares. cbn [default from_option id]. destruct (Z.eqb_spec r 0); [cbn; lia|].
  case_if; [by apply antarticalSplit_total|].
  destruct (percentSplit _) as [[a b] c] eqn:E1. destruct (redirectUnassigned _ _ _ _ _) as [[x y] z] eqn:E2.
  apply percentSplit_spec in E1; [|lia]. apply redirectUnassigned_spec in E2; [|lia..]. cbn. lia.
Qed.

Lemma shareCredits_mints sh cap s :
  shares_ok sh → sh.(sh_mainKingReward) + sh.(sh_rotatingKingReward) + sh.(sh_minerReward) <= cap →
  mints_at_most cap s (credit s (shareCredits sh)).
Proof.
  intros Hok Hc. apply mints_credit; [by apply shareCredits_ok|]. destruct Hok as (?&?&?).
  unfold shareCredits. rewrite !credit_total_app, !creditIf_total by lia. repeat case_decide; lia.
Qed.

Lemma implicit_mints rx rk s h :
  0 <= h.(Number) →
  let reward := CalculateBlockReward h.(Number) in
  ∃ s', distributeRewardsToState rx rk s h (Some reward) = Ok s' ∧ mints_at_most reward s s'.
Proof.
  intros Hn reward. pose proof (reward_bound h Hn) as Hb. pose proof (rewardShares_ok rx rk h reward Hb) as Hok.
  rewrite distributeRewardsToState_credits by done. eexists. split; [done|].
  apply shareCredits_mints; [done|]. by apply rewardShares_total.
Qed.

Lemma implicit_king_mints rx rk s h king :
  0 <= h.(Number) →
  let reward := CalculateBlockReward h.(Number) in
  ∃ s', distributeRewardsToStateWithRotatingKing rx rk s h (Some reward) king = Ok s' ∧ mints_at_most reward s s'.
Proof.
  intros Hn reward. pose proof (reward_bound h Hn) as Hb.
  pose proof (rewardShares_ok rx rk h reward Hb) as (?&?&?).
  pose proof (rewardShares_total rx rk h Hn) as Ht. fold reward in Ht. cbn zeta in Ht.
  unfold distributeRewardsToStateWithRotatingKing. set (sh := rewardShares rx rk h (Some reward)) in *.
  destruct (if decide (king = zeroAddress) then _ else _) as [[x y] z] eqn:E.
  assert (0 <= x ∧ 0 <= y ∧ 0 <= z ∧ x + y + z <= reward) by (repeat case_decide; injection E as <- <- <-; lia).
  fold reward in Hb. rewrite payIf_creditIf by lia. cbn [mbind result_bind].
  rewrite payIf_creditIf by lia. cbn [mbind result_bind]. rewrite payIf_creditIf by lia.
  eexists. split; [done|]. rewrite !credit_app.
  apply (shareCredits_mints (mkShares sh.(sh_mainKing) x king y sh.(sh_miner) z)); unfold shares_ok; cbn; lia.
Qed.

Lemma kyotoCandidate_mints sys slot rx rk h s f :
  0 <= h.(Number) → f ∈ kyotoCandidates sys slot rx rk h →
  ∃ s', f s = Ok s' ∧ mints_at_most (CalculateBlockReward h.(Number)) s s'.
Proof.
  intros Hn Hf. pose proof (reward_bound h Hn) as Hb.
  assert (Hid : ∀ s0, mints_at_most (CalculateBlockReward h.(Number)) s0 s0).
  { intros s0. apply (mints_credit _ s0 []); [constructor|cbn; lia]. }
  assert (Hky : ∀ s0, ∃ s', distributeKyotoEmptyBlockRewards rx s0 h (Some (CalculateBlockReward h.(Number))) = Ok s'
    ∧ mints_at_most (CalculateBlockReward h.(Number)) s0 s') by (intros; by apply kyoto_split_mints).
  pose proof (λ k, implicit_mints rx rk (writeRotatingKingToStateValue sys slot s k) h Hn) as Him.
  pose proof (λ k, implicit_king_mints rx rk (writeRotatingKingToStateValue sys slot s k) h k Hn) as Hik.
  cbn zeta in Him, Hik.
  assert (Hw : ∀ k (r : result panic S), (∃ s', r = Ok s' ∧ mints_at_most (CalculateBlockReward h.(Number))
      (writeRotatingKingToStateValue sys slot s k) s') →
    ∃ s', r = Ok s' ∧ mints_at_most (CalculateBlockReward h.(Number)) s s').
  { intros k r (s'&?&?). exists s'. split; [done|]. by eapply mints_write. }
  unfold kyotoCandidates in Hf. rewrite elem_of_app, list_elem_of_bind in Hf.
  destruct Hf as [Hf|(king&Hf&_)]; rewrite !elem_of_cons, elem_of_nil in Hf; destruct_or?; subst; try done;
    eauto.
Qed.

Lemma firstMatchingRoot_spec root target s fs :
  (∀ f, f ∈ fs → ∃ s', f s = Ok s') →
  ∃ r, firstMatchingRoot root target fs s = Ok r ∧
    match r with
    | Some s' => root s' = target ∧ ∃ i f, fs !! i = Some f ∧ f s = Ok s' ∧
                   ∀ j g, (j < i)%nat → fs !! j = Some g → ∃ t, g s = Ok t ∧ root t ≠ target
    | None => ∀ f, f ∈ fs → ∃ t, f s = Ok t ∧ root t ≠ target
    end.
Proof.
  induction fs as [|f fs IH]; intros Hok; cbn [firstMatchingRoot].
  { exists None. split; [done|]. set_solver. }
  destruct (Hok f ltac:(by left)) as [t Ht]. rewrite Ht. cbn [mbind result_bind].
  destruct (Z.eqb_spec (root t) target) as [He|He].
  { exists (Some t). split; [done|]. split; [done|]. exists 0%nat, f. split; [done|]. split; [done|]. lia. }
  destruct IH as (r&Hr&Hm); [intros g Hg; apply Hok; by right|].
  exists r. split; [done|]. destruct r as [s'|].
  - destruct Hm as (?&i&g&?&?&Hj). split; [done|]. exists (Datatypes.S i), g. split; [done|]. split; [done|].
    intros [|j] g' ? Hg'; cbn in Hg'; [injection Hg' as <-; by exists t|]. apply (Hj j); [lia|done].
  - intros g [->|Hg]%elem_of_cons; [by exists t|by apply Hm].
Qed.

(** On a Kyoto block without reward transactions the historical
    finalisation never panics; it answers with a state exactly when one of its
    candidate finalisations reaches the target root, picks the first such
    candidate, and whatever it accepts mints at most the block reward. *)
Theorem kyoto_finalisation_bounded (sys : address) (slot : hash) (root : S → hash) (kyoto : Z → Z → bool)
    (rx : Engine) (rk : address) (h : Header) (s : S) (txs : list Transaction) (target : hash)
    (Hn : 0 <= h.(Number)) (Hk : kyoto h.(Number) h.(Time) = true)
    (Hcb : h.(Coinbase) ≠ zeroAddress) (Htxs : no_rewards txs) :
  ∃ r, FinalizeKyotoEmptyBlockForRoot sys slot root (Some kyoto) rx rk h s (Some txs) target = Ok r ∧
    match r with
    | Some s' =>
        root s' = target ∧ mints_at_most (CalculateBlockReward h.(Number)) s s' ∧
        ∃ i f, kyotoCandidates sys slot rx rk h !! i = Some f ∧ f s = Ok s' ∧
          ∀ j g, (j < i)%nat → kyotoCandidates sys slot rx rk h !! j = Some g → ∃ t, g s = Ok t ∧ root t ≠ target
    | None => ∀ f, f ∈ kyotoCandidates sys slot rx rk h → ∃ t, f s = Ok t ∧ root t ≠ target
    end.
Proof.
  unfold FinalizeKyotoEmptyBlockForRoot. rewrite Hk, bool_decide_false by done. cbn [negb orb].
  replace (existsb _ txs) with false.
  2:{ symmetry. clear -Htxs. induction Htxs as [|tx txs Ht _ IH]; [done|]. cbn [existsb]. by rewrite Ht, IH. }
  destruct (firstMatchingRoot_spec root target s (kyotoCandidates sys slot rx rk h)) as (r&Hr&Hm).
  { intros f Hf. destruct (kyotoCandidate_mints sys slot rx rk h s f Hn Hf) as (s'&?&_). by exists s'. }
  exists r. split; [done|]. destruct r as [s'|]; [|done].
  destruct Hm as (?&i&f&Hi&Hf&Hj). split; [done|]. split; [|by exists i, f].
  destruct (kyotoCandidate_mints sys slot rx rk h s f Hn) as (t&Ht&?); [by eapply list_elem_of_lookup_2|].
  rewrite Hf in Ht. by injection Ht as <-.
Qed.
End PayLemmas.

Lemma distribute_rewards_conserves_witness :
  GetBalance (WorldState := FlatWorldState) emptyFlat 2 = 0 ∧
  ∃ credits, DistributeRewards (W := FlatWorldState) emptyFlat 1 2 3 (Some 1007)
               = Ok (credit (W := FlatWorldState) emptyFlat credits, 1007) ∧
    credited credits 3 = 505.
Proof.
  split; [done|].
  destruct (distribute_rewards_conserves (W := FlatWorldState) emptyFlat 1 2 3 1007 ltac:(split; [lia|done]))
    as (cs&?&_&_&_&_&Hc). exists cs. split; [done|].
  apply Hc; [done..|]. repeat constructor; set_solver.
Defined.

(** ** The engine's schedule and the manager's *)

(** The engine keeps its own copy of the king list; it mirrors the manager's
    when kings, interval and effective activation heights agree. *)
Definition mirrors (rx : Engine) (m : RotatingKing.RotatingKingManager) : Prop :=
  rx.(rx_rotatingKings) = m.(RotatingKing.config).(RotatingKing.KingAddresses) ∧
  rx.(rx_rotationInterval) = m.(RotatingKing.config).(RotatingKing.RotationInterval) ∧
  rx.(rx_rotationInterval) ≠ 0 ∧
  ∀ a, default 0 (rx.(rx_rotatingKingActivations) !! a) = RotatingKing.activationHeight m.(RotatingKing.config) a.

(** The updates [eth/backend.go] sends to both. *)
Inductive kingUpdate := AddKing (a : address) (activation : Z) | SetInterval (interval : Z).

Definition updateEngine (rx : Engine) (u : kingUpdate) : Engine :=
  match u with
  | AddKing a activation => AddRotatingKingAt rx a activation
  | SetInterval interval => SetRotationInterval rx interval
  end.

Definition updateManager (m : RotatingKing.RotatingKingManager) (u : kingUpdate) : RotatingKing.RotatingKingManager :=
  match u with
  | AddKing a activation => RotatingKing.AddKingAddressAt m a activation
  | SetInterval interval => RotatingKing.SetRotationInterval m interval
  end.

Definition freshUpdate (rx : Engine) (u : kingUpdate) : Prop :=
  match u with
  | AddKing a _ => (a ∉ rx_rotatingKings rx) ∧ (rx.(rx_rotatingKingActivations) !! a) = None
  | SetInterval _ => True
  end.

Fixpoint fresh_updates (rx : Engine) (us : list kingUpdate) : Prop :=
  match us with
  | [] => True
  | u :: us => freshUpdate rx u ∧ fresh_updates (updateEngine rx u) us
  end.

Lemma updateEngine_nonempty rx u : rx.(rx_rotatingKings) ≠ [] → (updateEngine rx u).(rx_rotatingKings) ≠ [].
Proof.
  intros H. destruct u as [a act|i]; cbn; unfold AddRotatingKingAt, SetRotationInterval.
  - repeat case_decide; try done; repeat case_match; try done. cbn. by destruct (rx_rotatingKings rx).
  - by case_if.
Qed.

Lemma mirrors_update rx m u :
  mirrors rx m → freshUpdate rx u →
  mirrors (updateEngine rx u) (updateManager m u).
Proof.
  intros (Hk&Hi&Hnz&Ha) Hf. destruct u as [a act|interval]; cbn in Hf |- *.
  - destruct Hf as [Hf Hfa]. unfold AddRotatingKingAt, RotatingKing.AddKingAddressAt. rewrite <- Hk.
    case_decide; [by split_and!|]. rewrite !(decide_False (P := a ∈ _)) by done.
    split_and!; cbn; [by rewrite Hk|done..|].
    intros b. unfold RotatingKing.activationHeight in *. cbn.
    pose proof (Ha a) as H0. rewrite Hfa in H0.
    destruct (Z.eqb_spec act 0) as [->|?].
    + destruct (decide (a = b)) as [<-|]; [by rewrite lookup_insert_eq|]. by rewrite lookup_insert_ne.
    + destruct (decide (a = b)) as [<-|]; [by rewrite !lookup_insert_eq|]. by rewrite !lookup_insert_ne.
  - unfold SetRotationInterval, RotatingKing.SetRotationInterval.
    destruct (Z.eqb_spec interval 0); by split_and!.
Qed.

Lemma mirrors_step rx m current height :
  mirrors rx m → rotatingKingStep rx current height = RotatingKing.kingStep m.(RotatingKing.config) current height.
Proof.
  intros (Hk&_&_&Ha). unfold rotatingKingStep, RotatingKing.kingStep.
  replace (activeRotatingKingsAtLocked rx height)
    with (RotatingKing.activeKingAddressesAtLocked m.(RotatingKing.config) height); [done|].
  unfold activeRotatingKingsAtLocked, RotatingKing.activeKingAddressesAtLocked. rewrite Hk.
  apply filter_ext_in. intros a _. by rewrite Ha.
Qed.

Lemma mirrors_loop rx m f h height current :
  mirrors rx m →
  rotatingKingLoop f rx h height current =
    RotatingKing.kingLoop f m.(RotatingKing.config) rx.(rx_rotationInterval) h height current.
Proof.
  intros Hm. revert height current. induction f as [|f IH]; intros height current; [done|].
  cbn. rewrite <- (mirrors_step rx m) by done. by rewrite IH.
Qed.

Lemma mirrors_schedule rx m h :
  mirrors rx m → rx.(rx_rotatingKings) ≠ [] → getRotatingKing rx h = RotatingKing.GetKingAtHeight m h.
Proof.
  intros Hm Hne. pose proof Hm as (Hk&Hi&Hnz&_). unfold getRotatingKing.
  rewrite bool_decide_false, (proj2 (Z.eqb_neq _ 0)) by done. cbn [orb].
  unfold RotatingKing.GetKingAtHeight, RotatingKing.kingAtHeightLocked, RotatingKing.effectiveInterval.
  rewrite <- Hi, (proj2 (Z.eqb_neq _ 0)) by done.
  by apply mirrors_loop.
Qed.

(** The engine and the manager schedule the same king.  Starting from
    mirrored king lists, any sequence of first-time registrations (at any
    activation height) and interval changes sent to both leaves
    [RandomX.getRotatingKing] and [RotatingKingManager.GetKingAtHeight] equal at
    every height. *)
Theorem engine_schedule_refines_manager (us : list kingUpdate) (rx : Engine) (m : RotatingKing.RotatingKingManager)
    (Hm : mirrors rx m) (Hne : rx.(rx_rotatingKings) ≠ [])
    (Hfresh : fresh_updates rx us) (h : Z) :
  getRotatingKing (foldl updateEngine rx us) h = RotatingKing.GetKingAtHeight (foldl updateManager m us) h.
Proof.
  revert rx m Hm Hne Hfresh. induction us as [|u us IH]; intros rx m Hm Hne Hf; [by apply mirrors_schedule|].
  destruct Hf as [Hu Hf]. cbn. apply IH; [by apply mirrors_update| |done].
  by apply updateEngine_nonempty.
Qed.

Lemma engine_schedule_refines_manager_witness :
  let rx := {| rx_config := None; rx_mainKing := 9; rx_rotatingKings := [11; 22; 33];
               rx_rotatingKingActivations := ∅; rx_rotationInterval := 100; rx_chainAntartical := None |} in
  let us := [AddKing 44 350; SetInterval 50; AddKing 55 0] in
  mirrors rx RotatingKing.demo ∧
  getRotatingKing (foldl updateEngine rx us) 799 =
    RotatingKing.GetKingAtHeight (foldl updateManager RotatingKing.demo us) 799.
Proof.
  intros rx us. assert (mirrors rx RotatingKing.demo) by (by split_and!).
  split; [done|]. apply engine_schedule_refines_manager; [done|done|].
  cbn. split_and!; try done; set_solver.
Defined.

(** ** Nonces and markers of reward transactions *)

(** The three-way reward nonces [3 * height + kind] are pairwise distinct,
    but the four-way validator nonce does not avoid them: below the [uint64]
    horizon every validator reward shares its nonce with an ordinary reward of a
    later or equal height.  The transactions themselves still differ, by the
    height and kind in their data. *)
Theorem validator_nonce_collides (b : Z) (to to' : address) (v v' : option Z)
    (Hb : 0 <= b) (Hov : 4 * b + 3 < two64) :
  ∃ b' kind, kind ∈ [BlockRewardMainKing; BlockRewardRotatingKing; BlockRewardMiner] ∧ b <= b' ∧
    tx_Nonce (NewValidatorRewardTx b to v) = tx_Nonce (NewBlockRewardTx b' kind to' v') ∧
    tx_Data (NewValidatorRewardTx b to v) ≠ tx_Data (NewBlockRewardTx b' kind to' v').
Proof.
  exists ((4 * b + 3) / 3), ((4 * b + 3) mod 3). cbn [tx_Nonce tx_Data NewValidatorRewardTx NewBlockRewardTx].
  assert (Hk : 0 <= (4 * b + 3) mod 3 < 3) by (by apply Z.mod_pos_bound).
  pose proof (Z.div_mod (4 * b + 3) 3 ltac:(lia)).
  set (q := (4 * b + 3) / 3) in *. set (r := (4 * b + 3) mod 3) in *. unfold BlockRewardValidator.
  split; [rewrite !elem_of_cons; unfold BlockRewardMainKing, BlockRewardRotatingKing, BlockRewardMiner; lia|].
  split; [lia|]. split.
  - rewrite !u64_small by (unfold is_u64; rewrite ?u64_small; unfold is_u64; lia). lia.
  - unfold rewardData. rewrite !app_assoc. intros [_ He]%app_inj_tail.
    rewrite !Z.mod_small in He by lia. lia.
Qed.

Lemma validator_nonce_collides_witness :
  ∃ b' kind, kind ∈ [BlockRewardMainKing; BlockRewardRotatingKing; BlockRewardMiner] ∧ 7 <= b' ∧
    tx_Nonce (NewValidatorRewardTx 7 1 None) = tx_Nonce (NewBlockRewardTx b' kind 2 None) ∧
    tx_Data (NewValidatorRewardTx 7 1 None) ≠ tx_Data (NewBlockRewardTx b' kind 2 None).
Proof. apply validator_nonce_collides; [lia|done]. Defined.

Section Append.
Context (txHash : Transaction → hash).

Lemma sameRewardTransactions_refl l : sameRewardTransactions txHash l l = true.
Proof. induction l as [|x l IH]; [done|]. cbn. by rewrite Z.eqb_refl. Qed.

Lemma sameRewardTransactions_spec a b :
  sameRewardTransactions txHash a b = true ↔ txHash <$> a = txHash <$> b.
Proof.
  revert b. induction a as [|x a IH]; intros [|y b]; cbn; try done.
  rewrite andb_true_iff, IH, Z.eqb_eq. split; [by intros [-> ->]|by intros [= -> ->]].
Qed.

Lemma appendRewardTransactions_suffix txs rewards :
  ∃ front suffix, appendRewardTransactions txHash txs rewards = front ++ suffix ∧
    txHash <$> suffix = txHash <$> rewards ∧ (front = txs ∨ front ++ suffix = txs).
Proof.
  destruct rewards as [|r rewards]; cbn [appendRewardTransactions].
  { exists txs, []. rewrite app_nil_r. auto. }
  destruct (_ && _) eqn:E; bool_to_prop; [|exists txs, (r :: rewards); auto].
  exists (take (length txs - length (r :: rewards)) txs), (drop (length txs - length (r :: rewards)) txs).
  rewrite take_drop. split; [done|]. split; [by apply sameRewardTransactions_spec|by right].
Qed.

(** [appendRewardTransactions] always leaves the reward transactions at the
    end of the body (up to transaction hash), keeps the other transactions in
    place, and a second application changes nothing. *)
Theorem append_rewards_idempotent (txs rewards : list Transaction) :
  let body := appendRewardTransactions txHash txs rewards in
  appendRewardTransactions txHash body rewards = body ∧
  ∃ front suffix, body = front ++ suffix ∧ txHash <$> suffix = txHash <$> rewards ∧
    (front = txs ∨ body = txs).
Proof.
  cbn zeta. destruct (appendRewardTransactions_suffix txs rewards) as (front&suffix&He&Hs&Hf).
  rewrite He. split; [|exists front, suffix; auto].
  assert (Hl : length suffix = length rewards).
  { apply (f_equal length) in Hs. by rewrite !length_fmap in Hs. }
  destruct rewards as [|r rewards]; cbn [appendRewardTransactions]; [done|].
  rewrite length_app, Hl. rewrite (proj2 (Nat.leb_le _ _)) by lia.
  replace (drop _ (front ++ suffix)) with suffix.
  - by rewrite (proj2 (sameRewardTransactions_spec _ _) Hs).
  - rewrite drop_app_ge by lia. by replace (_ - _ - _)%nat with 0%nat by lia.
Qed.
End Append.

(** ** Concrete finalisations *)

Definition demoEngine (pq : address) : Engine := {|
  rx_config := Some {| PostQuantumMainKingAddress := pq; QuantumResistantTime := Some 1000; AntarticalTime := None |};
  rx_mainKing := 7; rx_rotatingKings := [11; 22]; rx_rotatingKingActivations := ∅;
  rx_rotationInterval := 100; rx_chainAntartical := None |}.

Definition demoHeader : Header := {| Number := 5; Time := 2000; Coinbase := 42 |}.

Lemma body_rewards_match_implicit_witness :
  ∃ s1 s2,
    finalizeRewards (W := FlatWorldState) 1 2 None (demoEngine 0) 0 emptyFlat demoHeader []
      ([] ++ RewardTransactions (demoEngine 0) 0 demoHeader) = Ok s1 ∧
    finalizeRewards (W := FlatWorldState) 1 2 None (demoEngine 0) 0 emptyFlat demoHeader [] [] = Ok s2 ∧
    same_accounts (W := FlatWorldState) s1 s2.
Proof.
  apply (body_rewards_match_implicit (W := FlatWorldState)); [done|constructor|done|by right|by right].
Defined.

Lemma body_rewards_pay_old_main_king_witness :
  ∃ s1 s2,
    finalizeRewards (W := FlatWorldState) 1 2 None (demoEngine 8) 0 emptyFlat demoHeader []
      ([] ++ RewardTransactions (demoEngine 8) 0 demoHeader) = Ok s1 ∧
    finalizeRewards (W := FlatWorldState) 1 2 None (demoEngine 8) 0 emptyFlat demoHeader [] [] = Ok s2 ∧
    GetBalance (WorldState := FlatWorldState) s1 7 =
      (GetBalance (WorldState := FlatWorldState) s2 7 + CalculateBlockReward 5 * 40 / 100) mod two256.
Proof.
  apply (body_rewards_pay_old_main_king (W := FlatWorldState) 1 2 None (demoEngine 8) 0 demoHeader);
    try done; constructor.
Defined.

Lemma kyoto_finalisation_bounded_witness :
  ∃ r, FinalizeKyotoEmptyBlockForRoot (W := FlatWorldState) 1 2
         (λ s, GetBalance (WorldState := FlatWorldState) s 7) (Some (λ _ _, true)) (demoEngine 0) 0 demoHeader
         emptyFlat (Some []) (100 * oneTKM) = Ok (Some r) ∧
    mints_at_most (W := FlatWorldState) (CalculateBlockReward 5) emptyFlat r.
Proof.
  destruct (kyoto_finalisation_bounded (W := FlatWorldState) 1 2
    (λ s, GetBalance (WorldState := FlatWorldState) s 7) (λ _ _, true) (demoEngine 0) 0 demoHeader
    emptyFlat [] (100 * oneTKM)) as ([r|]&Hr&Hm); [done|done|done|constructor| |].
  - exists r. split; [done|]. apply Hm.
  - exfalso. clear Hm. by vm_compute in Hr.
Defined.
End Rewards.
