(* ===== verification/ValidatorRegistry.v ===== *)
(** * The validator registry

    [core/validator_registry.go]: validators register with a bond, exit, withdraw
    and are slashed by transactions whose data carries an envelope; the registry
    itself lives in storage slots of the shielded pool's account, a queue of
    addresses and one RLP record per validator cut into 32-byte chunks.

    The world state is any instance of [WorldState].  SHA-512, SHA-256, Keccak,
    signature checks and the recovery of a transaction's sender are arguments. *)

From stdpp Require Import sorting.
From S2P Require Import Prelude Bytes RLP RLPStream RLPTypes State Emission ChainConfig Rewards.
Import RLP RLPStream RLPTypes.

Module ValidatorRegistry.

(** ** Constants *)

Definition ValidatorRegistrationMagic : bytes := str "TKMVALREG1".
Definition ValidatorSlashMagic : bytes := str "TKMVSLASH1".
Definition ValidatorExitMagic : bytes := str "TKMVALEXIT1".
Definition ValidatorWithdrawalMagic : bytes := str "TKMVALWD1".
Definition ValidatorEnvelopeVersion : Z := 1.
Definition ValidatorActivationDelay : Z := 720.
Definition ValidatorUnbondingPeriod : Z := 21600.
Definition ValidatorMaxSetSize : Z := 4096.
Definition ValidatorBondTKM : Z := 500000.
Definition ValidatorRegistrationFeeTKM : Z := 100.
Definition Ether : Z := 10 ^ 18.

(** of [consensus/antartical/rewards.go] *)
Definition DefaultBlocksPerHalving : Z := 4 * 365 * 24 * 60 * 60 / 120.

(** [params.MaxBlockSize - 64*1024] *)
Definition ShieldedV3MaxTxSize : Z := 8388608 - 64 * 1024.
Definition ShieldedPoolAddress : address := 0xf7.
Definition PQTkmTxType : Z := 6.
Definition AlgorithmMLDSA87 : bytes := str "ML-DSA-87".

Definition validatorAmount (tkm : Z) : Z := tkm * Ether.
Definition ValidatorBondWei : Z := validatorAmount ValidatorBondTKM.
Definition ValidatorRegistrationFeeWei : Z := validatorAmount ValidatorRegistrationFeeTKM.

Inductive vError :=
| ErrValidatorNotActive
| ErrValidatorAlreadyRegistered
| ErrValidatorSetFull
| ErrValidatorNotFound
| ErrValidatorEvidenceInvalid
| ErrValidatorRewardInvalid
| ErrInvalidShieldedTx
| ErrDecode (e : streamError)
| ErrEncode
| ErrSender
| ErrAddress
| ErrText (msg : String.string).

(** ** Data *)

Record ValidatorRegistration := {
  vr_Version : Z;
  vr_PublicKey : bytes;
  vr_RewardAddress : address;
  vr_ActivationHeight : Z;
}.

Record ValidatorSlashEvidence := {
  ve_Version : Z;
  ve_Validator : address;
  ve_Height : Z;
  ve_BlockHashA : hash;
  ve_BlockHashB : hash;
  ve_SignatureA : bytes;
  ve_SignatureB : bytes;
  ve_PublicKey : bytes;
}.

Record ValidatorRecord := {
  Version : Z;
  Address : address;
  PublicKey : bytes;
  RewardAddress : address;
  Stake : Z;
  ActivationHeight : Z;
  ExitHeight : Z;
  JailedUntil : Z;
  RegisteredAt : Z;
  SlashCount : Z;
}.

(** What the handlers read of a transaction; [vt_PQ] is the result of
    [PQTkmFields] without the signature. *)
Record vtx := {
  vt_Type : Z;
  vt_To : option address;
  vt_Value : Z;
  vt_ChainId : Z;
  vt_Data : bytes;
  vt_PQ : option (bytes * bytes);
  vt_Hash : hash;
}.

(** *** The structs as RLP types *)

Definition registrationType : rtype :=
  RStruct [(false, RUint 64); (false, RByteSlice); (false, RByteArray 20); (false, RUint 64)].
Definition evidenceType : rtype :=
  RStruct [(false, RUint 64); (false, RByteArray 20); (false, RUint 64); (false, RByteArray 32); (false, RByteArray 32);
           (false, RByteSlice); (false, RByteSlice); (false, RByteSlice)].
Definition actionType : rtype := RStruct [(false, RUint 64)].
Definition recordType : rtype :=
  RStruct [(false, RUint 64); (false, RByteArray 20); (false, RByteSlice); (false, RByteArray 20); (false, RBigInt);
           (false, RUint 64); (false, RUint 64); (false, RUint 64); (false, RUint 64); (false, RUint 64)].

Definition registrationVal (e : ValidatorRegistration) : rval :=
  VList [VNum e.(vr_Version); VBytes e.(vr_PublicKey); VBytes (address_bytes e.(vr_RewardAddress)); VNum e.(vr_ActivationHeight)].
Definition registrationOf (v : rval) : option ValidatorRegistration :=
  match v with
  | VList [VNum a; VBytes b; VBytes c; VNum d] =>
      Some {| vr_Version := a; vr_PublicKey := b; vr_RewardAddress := be_value c; vr_ActivationHeight := d |}
  | _ => None
  end.

Definition evidenceVal (e : ValidatorSlashEvidence) : rval :=
  VList [VNum e.(ve_Version); VBytes (address_bytes e.(ve_Validator)); VNum e.(ve_Height); VBytes (hash_bytes e.(ve_BlockHashA));
         VBytes (hash_bytes e.(ve_BlockHashB)); VBytes e.(ve_SignatureA); VBytes e.(ve_SignatureB); VBytes e.(ve_PublicKey)].
Definition evidenceOf (v : rval) : option ValidatorSlashEvidence :=
  match v with
  | VList [VNum a; VBytes b; VNum c; VBytes d; VBytes e; VBytes f; VBytes g; VBytes h] =>
      Some {| ve_Version := a; ve_Validator := be_value b; ve_Height := c; ve_BlockHashA := be_value d; ve_BlockHashB := be_value e;
              ve_SignatureA := f; ve_SignatureB := g; ve_PublicKey := h |}
  | _ => None
  end.

Definition recordVal (r : ValidatorRecord) : rval :=
  VList [VNum r.(Version); VBytes (address_bytes r.(Address)); VBytes r.(PublicKey); VBytes (address_bytes r.(RewardAddress));
         VNum r.(Stake); VNum r.(ActivationHeight); VNum r.(ExitHeight); VNum r.(JailedUntil); VNum r.(RegisteredAt); VNum r.(SlashCount)].
Definition recordOf (v : rval) : option ValidatorRecord :=
  match v with
  | VList [VNum a; VBytes b; VBytes c; VBytes d; VNum e; VNum f; VNum g; VNum h; VNum i; VNum j] =>
      Some {| Version := a; Address := be_value b; PublicKey := c; RewardAddress := be_value d; Stake := e; ActivationHeight := f;
              ExitHeight := g; JailedUntil := h; RegisteredAt := i; SlashCount := j |}
  | _ => None
  end.

(** The fields [ProcessValidatorAction] and [ProcessValidatorSlash] assign: an exit
    keeps the stake, a withdrawal and a slash set it to zero. *)
Definition withExit (r : ValidatorRecord) (stake exit jailed slashes : Z) : ValidatorRecord :=
  {| Version := r.(Version); Address := r.(Address); PublicKey := r.(PublicKey); RewardAddress := r.(RewardAddress); Stake := stake;
     ActivationHeight := r.(ActivationHeight); ExitHeight := exit; JailedUntil := jailed; RegisteredAt := r.(RegisteredAt);
     SlashCount := slashes |}.

Definition activeAt (r : ValidatorRecord) (height : Z) : bool :=
  (0 <? r.(Stake)) && (r.(ActivationHeight) <=? height)
  && ((r.(ExitHeight) =? 0) || (height <? r.(ExitHeight))) && (r.(JailedUntil) <=? height).

(** ** Envelopes *)

(** The code outside the module: [types.Sender] for the signer of a block,
    [pqcrypto]'s signature check and size of a public key, the hashes, the stream
    [rlp.DecodeBytes] takes from its pool. *)
Class Externals := {
  Sender : ChainConfig.ChainConfig → Z → Z → vtx → option address;
  VerifyMLDSA87 : bytes → bytes → bytes → bool;
  MLDSA87PublicKeySize : nat;
  keccak : bytes → bytes;
  sha256 : bytes → bytes;
  sha512 : bytes → bytes;
  pooled : Stream;
}.

Section Registry.
Context {X : Externals}.

Definition HasValidatorRegistrationPrefix (data : bytes) : bool := has_prefix data ValidatorRegistrationMagic.
Definition HasValidatorSlashPrefix (data : bytes) : bool := has_prefix data ValidatorSlashMagic.
Definition HasValidatorExitPrefix (data : bytes) : bool := has_prefix data ValidatorExitMagic.
Definition HasValidatorWithdrawalPrefix (data : bytes) : bool := has_prefix data ValidatorWithdrawalMagic.

Definition isValidatorProtocolEnvelope (data : bytes) : bool :=
  HasValidatorRegistrationPrefix data || HasValidatorSlashPrefix data || HasValidatorExitPrefix data
  || HasValidatorWithdrawalPrefix data.

(** [rlp.DecodeBytes] into a struct; the second failure cannot happen. *)
Definition decodeInto {A} (t : rtype) (of_ : rval → option A) (b : bytes) : result vError A :=
  match DecodeBytes pooled b t with
  | Err e => Err (ErrDecode e)
  | Ok v => match of_ v with Some a => Ok a | None => Err (ErrDecode sPanic) end
  end.

(** [data[len(prefix):]] of an envelope of admissible size *)
Definition payload (prefix data : bytes) : result vError bytes :=
  if negb (has_prefix data prefix) || (ShieldedV3MaxTxSize <? Z.of_nat (length data)) then Err ErrInvalidShieldedTx
  else Ok (drop (length prefix) data).

Definition encodeWith (prefix : bytes) (t : rtype) (v : rval) : result vError bytes :=
  match EncodeValue t v with None => Err ErrEncode | Some p => Ok (prefix ++ p) end.

Definition EncodeValidatorRegistration (e : option ValidatorRegistration) : result vError bytes :=
  match e with
  | None => Err ErrInvalidShieldedTx
  | Some e => encodeWith ValidatorRegistrationMagic registrationType (registrationVal e)
  end.

Definition DecodeValidatorRegistration (data : bytes) : result vError ValidatorRegistration :=
  p ← payload ValidatorRegistrationMagic data; decodeInto registrationType registrationOf p.

Definition EncodeValidatorSlash (e : option ValidatorSlashEvidence) : result vError bytes :=
  match e with
  | None => Err ErrInvalidShieldedTx
  | Some e => encodeWith ValidatorSlashMagic evidenceType (evidenceVal e)
  end.

Definition DecodeValidatorSlash (data : bytes) : result vError ValidatorSlashEvidence :=
  p ← payload ValidatorSlashMagic data; decodeInto evidenceType evidenceOf p.

(** The action is its version. *)
Definition encodeValidatorAction (prefix : bytes) (action : option Z) : result vError bytes :=
  match action with
  | None => Err ErrInvalidShieldedTx
  | Some v =>
      if negb (v =? ValidatorEnvelopeVersion) then Err ErrInvalidShieldedTx
      else encodeWith prefix actionType (VList [VNum v])
  end.

Definition decodeValidatorAction (data prefix : bytes) : result vError Z :=
  p ← payload prefix data;
  match decodeInto actionType (λ v, match v with VList [VNum a] => Some a | _ => None end) p with
  | Ok v => if negb (v =? ValidatorEnvelopeVersion) then Err ErrInvalidShieldedTx else Ok v
  | Err _ => Err ErrInvalidShieldedTx
  end.

Definition EncodeValidatorExit (action : option Z) := encodeValidatorAction ValidatorExitMagic action.
Definition EncodeValidatorWithdrawal (action : option Z) := encodeValidatorAction ValidatorWithdrawalMagic action.
Definition DecodeValidatorExit (data : bytes) := decodeValidatorAction data ValidatorExitMagic.
Definition DecodeValidatorWithdrawal (data : bytes) := decodeValidatorAction data ValidatorWithdrawalMagic.

Definition validateValidatorEnvelopeEncoding (data : bytes) : result vError unit :=
  if HasValidatorRegistrationPrefix data then _ ← DecodeValidatorRegistration data; Ok ()
  else if HasValidatorSlashPrefix data then _ ← DecodeValidatorSlash data; Ok ()
  else if HasValidatorExitPrefix data then _ ← DecodeValidatorExit data; Ok ()
  else if HasValidatorWithdrawalPrefix data then _ ← DecodeValidatorWithdrawal data; Ok ()
  else Err ErrInvalidShieldedTx.

Definition ValidatorAttestationDigest (height : Z) (blockHash : hash) : bytes :=
  keccak (str "TKM_VALIDATOR_ATTEST_V1" ++ be_bytes 8 height ++ hash_bytes blockHash).

(** [pqcrypto.Address] *)
Definition pqAddress (algorithm publicKey : bytes) : option address :=
  if negb (bool_decide (algorithm = AlgorithmMLDSA87)) then None
  else if negb (length publicKey =? MLDSA87PublicKeySize)%nat then None
  else Some (be_value (take 20 (drop 12 (keccak (str "tkmchain:pq-address:v1:" ++ algorithm ++ publicKey))))).

(** ** Storage slots *)

Definition ShieldedV3StateSlot (role : bytes) (data : bytes) : hash :=
  BytesToHash (sha512 (str "TKM_SHIELD3_STATE_V1/" ++ role ++ str "/" ++ data)).

Definition validatorRecordChunkCountSlot (addr : address) : hash :=
  ShieldedV3StateSlot (str "validator/record-chunk-count") (address_bytes addr).
Definition validatorRecordByteLengthSlot (addr : address) : hash :=
  ShieldedV3StateSlot (str "validator/record-byte-length") (address_bytes addr).
Definition validatorRecordChunkSlot (addr : address) (index : Z) : hash :=
  ShieldedV3StateSlot (str "validator/record-chunk") (address_bytes addr ++ be_bytes 8 index).
Definition validatorIndexSlot (index : Z) : hash := ShieldedV3StateSlot (str "validator/index") (be_bytes 8 index).
Definition validatorCountSlot : hash := ShieldedV3StateSlot (str "validator/count") [].
Definition validatorEvidenceSlot (h : hash) : hash := ShieldedV3StateSlot (str "validator/evidence") (hash_bytes h).

Definition uint64Hash (v : Z) : hash := BytesToHash (min_bytes v).
Definition uint64FromHash (h : hash) : Z := u64 h.

(** ** State *)

Context {U : Uint256} {S : Type} {W : WorldState S}.

Definition encodeValidatorRecord (r : ValidatorRecord) : result vError bytes :=
  match EncodeValue recordType (recordVal r) with None => Err ErrEncode | Some b => Ok b end.
Definition decodeValidatorRecord (raw : bytes) : result vError ValidatorRecord := decodeInto recordType recordOf raw.

Definition readValidatorRecord (st : S) (addr : address) : result vError ValidatorRecord :=
  let count := uint64FromHash (GetState st ShieldedPoolAddress (validatorRecordChunkCountSlot addr)) in
  if count =? 0 then Err ErrValidatorNotFound
  else
    let raw := concat ((λ i, hash_bytes (GetState st ShieldedPoolAddress (validatorRecordChunkSlot addr (Z.of_nat i))))
                       <$> seq 0 (Z.to_nat count)) in
    let length_ := uint64FromHash (GetState st ShieldedPoolAddress (validatorRecordByteLengthSlot addr)) in
    if (length_ =? 0) || (Z.of_nat (length raw) <? length_) then Err (ErrText "validator record has invalid encoded length")
    else decodeValidatorRecord (take (Z.to_nat length_) raw).

(** A chunk: 32 bytes of the encoding, filled up with zeros. *)
Definition chunkWord (raw : bytes) (i : nat) : hash :=
  let w := take 32 (drop (i * 32) raw) in BytesToHash (w ++ replicate (32 - length w) 0).

Definition writeChunks (st : S) (addr : address) (raw : bytes) (is_ : list nat) : S :=
  foldl (λ st i, SetState st ShieldedPoolAddress (validatorRecordChunkSlot addr (Z.of_nat i)) (chunkWord raw i)) st is_.

Definition writeValidatorRecord (st : S) (record : ValidatorRecord) : option vError * S :=
  match encodeValidatorRecord record with
  | Err e => (Some e, st)
  | Ok raw =>
      let count := ((length raw + 31) / 32)%nat in
      if (count =? 0)%nat || (256 <? count)%nat then (Some (ErrText "validator record exceeds state encoding limit"), st)
      else
        let st := writeChunks st record.(Address) raw (seq 0 count) in
        let st := SetState st ShieldedPoolAddress (validatorRecordChunkCountSlot record.(Address)) (uint64Hash (Z.of_nat count)) in
        let st := SetState st ShieldedPoolAddress (validatorRecordByteLengthSlot record.(Address)) (uint64Hash (Z.of_nat (length raw))) in
        (None, st)
  end.

Definition ValidatorCount (st : S) : Z := uint64FromHash (GetState st ShieldedPoolAddress validatorCountSlot).

Fixpoint readQueue (st : S) (n : nat) (i : Z) : result vError (list ValidatorRecord) :=
  match n with
  | O => Ok []
  | Datatypes.S n =>
      let h := GetState st ShieldedPoolAddress (validatorIndexSlot i) in
      if h =? zeroHash then Err (ErrText "validator activation queue is corrupt")
      else r ← readValidatorRecord st (BytesToAddress (hash_bytes h)); rs ← readQueue st n (i + 1); Ok (r :: rs)
  end.

Definition ValidatorRecords (st : S) : result vError (list ValidatorRecord) :=
  let count := ValidatorCount st in
  if ValidatorMaxSetSize <? count then Err ErrValidatorSetFull else readQueue st (Z.to_nat count) 0.

Definition byAddress (r r' : ValidatorRecord) : Prop := r.(Address) <= r'.(Address).
#[global] Instance byAddress_dec : RelDecision byAddress.
Proof. intros r r'. unfold byAddress. apply _. Defined.

(** [sort.Slice] by the bytes of the address, which compare like the numbers *)
Definition ActiveValidatorRecords (st : S) (height : Z) : result vError (list ValidatorRecord) :=
  records ← ValidatorRecords st;
  Ok (merge_sort byAddress (base.filter (λ r, activeAt r height) records)).

(** The loop of [SelectValidator] and the fallback behind it. *)
Fixpoint pickStake (choice : Z) (active : list ValidatorRecord) : option ValidatorRecord :=
  match active with
  | [] => None
  | r :: rest => if choice <? r.(Stake) then Some r else pickStake (choice - r.(Stake)) rest
  end.

(** The digest of height and seed that the choice is taken from. *)
Definition selectionDigest (height : Z) (seed : hash) : Z :=
  be_value (sha256 (str "TKM_VALIDATOR_SELECT_V1" ++ hash_bytes seed ++ be_bytes 8 height)).

Definition SelectValidator (st : S) (height : Z) (seed : hash) : result vError ValidatorRecord :=
  active ← ActiveValidatorRecords st height;
  match last active with
  | None => Err ErrValidatorNotFound
  | Some lst =>
      let total := zsum Stake active in
      let choice := selectionDigest height seed mod total in
      Ok (default lst (pickStake choice active))
  end.

(** ** Registration *)

Definition ValidateValidatorRegistrationBalance (st : S) (from : address) : result vError unit :=
  fail_if (GetBalance st from <? ValidatorBondWei + ValidatorRegistrationFeeWei) (ErrText "validator registration requires bond and fee balance").

(** The conditions on the transaction around every envelope. *)
Definition enveloped (config : ChainConfig.ChainConfig) (tx : vtx) (value : Z) : bool :=
  (tx.(vt_Type) =? PQTkmTxType) && bool_decide (tx.(vt_To) = Some ShieldedPoolAddress) && (tx.(vt_Value) =? value)
  && bool_decide (ChainConfig.ChainID config = Some tx.(vt_ChainId)).

Definition ValidateValidatorRegistrationBasics (config : ChainConfig.ChainConfig) (number time : Z) (tx : vtx) : result vError unit :=
  _ ← fail_if (negb (ChainConfig.IsAntartical config number time)) ErrValidatorNotActive;
  _ ← fail_if (negb (enveloped config tx ValidatorBondWei))
        (ErrText "validator registration requires a bond-sized PQ transaction to the reserved pool");
  e ← DecodeValidatorRegistration tx.(vt_Data);
  _ ← fail_if (negb (e.(vr_Version) =? ValidatorEnvelopeVersion) || (e.(vr_RewardAddress) =? zeroAddress)
               || (e.(vr_ActivationHeight) <? u64 number +₆₄ ValidatorActivationDelay))
        (ErrText "invalid validator registration activation or reward address");
  match tx.(vt_PQ) with
  | None => Err (ErrText "validator registration requires an ML-DSA-87 public key bound to the transaction")
  | Some (algorithm, publicKey) =>
      _ ← fail_if (negb (bool_decide (algorithm = AlgorithmMLDSA87)) || negb (length e.(vr_PublicKey) =? MLDSA87PublicKeySize)%nat
                   || negb (bool_decide (publicKey = e.(vr_PublicKey))))
            (ErrText "validator registration requires an ML-DSA-87 public key bound to the transaction");
      match pqAddress algorithm publicKey with
      | None => Err ErrAddress
      | Some address =>
          match Sender config number time tx with
          | None => Err ErrSender
          | Some from =>
              fail_if (negb (from =? address) || negb (e.(vr_RewardAddress) =? from))
                (ErrText "validator public key, sender, and reward address do not match")
          end
      end
  end.

(** [existing.Stake.Sign() > 0] of a record that can be read *)
Definition bonded (st : S) (from : address) : bool :=
  match readValidatorRecord st from with Ok r => 0 <? r.(Stake) | Err _ => false end.

Definition ValidateValidatorRegistrationState (st : S) (from : address) (data : bytes) (height : Z) : result vError unit :=
  e ← DecodeValidatorRegistration data;
  _ ← fail_if (bonded st from) ErrValidatorAlreadyRegistered;
  _ ← fail_if (ValidatorMaxSetSize <=? ValidatorCount st) ErrValidatorSetFull;
  fail_if (e.(vr_ActivationHeight) <? height +₆₄ ValidatorActivationDelay) (ErrText "validator activation is too soon").

(** The loop that looks for the sender among the [n] entries from [i] on *)
Fixpoint queued (st : S) (from : address) (n : nat) (i : Z) : bool :=
  match n with
  | O => false
  | Datatypes.S n =>
      (GetState st ShieldedPoolAddress (validatorIndexSlot i) =? BytesToHash (address_bytes from)) || queued st from n (i + 1)
  end.

(** An error and the state it leaves. *)
Definition ProcessValidatorRegistration (config : ChainConfig.ChainConfig) (number time : Z) (st : S) (tx : vtx) : option vError * S :=
  match ValidateValidatorRegistrationBasics config number time tx with
  | Err e => (Some e, st)
  | Ok _ =>
  match Sender config number time tx with
  | None => (Some ErrSender, st)
  | Some from =>
  match ValidateValidatorRegistrationState st from tx.(vt_Data) (u64 number) with
  | Err e => (Some e, st)
  | Ok _ =>
  match DecodeValidatorRegistration tx.(vt_Data) with
  | Err e => (Some e, st)
  | Ok e =>
      if GetBalance st from <? ValidatorRegistrationFeeWei then (Some (ErrText "validator registration fee cannot be burned"), st)
      else
        let st := SubBalance st from ValidatorRegistrationFeeWei in
        let record := {| Version := e.(vr_Version); Address := from; PublicKey := e.(vr_PublicKey); RewardAddress := e.(vr_RewardAddress);
                         Stake := ValidatorBondWei; ActivationHeight := e.(vr_ActivationHeight); ExitHeight := 0; JailedUntil := 0;
                         RegisteredAt := u64 number; SlashCount := 0 |} in
        match writeValidatorRecord st record with
        | (Some e, st) => (Some e, st)
        | (None, st) =>
            let index := ValidatorCount st in
            if queued st from (Z.to_nat index) 0 then (None, st)
            else
              let st := SetState st ShieldedPoolAddress (validatorIndexSlot index) (BytesToHash (address_bytes from)) in
              let st := SetState st ShieldedPoolAddress validatorCountSlot (uint64Hash (index +₆₄ 1)) in
              (None, st)
        end
  end
  end
  end
  end.

(** ** Exit and withdrawal *)

Definition ValidateValidatorActionBasics (config : ChainConfig.ChainConfig) (number time : Z) (tx : vtx) : result vError unit :=
  _ ← fail_if (negb (ChainConfig.IsAntartical config number time)) ErrValidatorNotActive;
  _ ← fail_if (negb (enveloped config tx 0)) (ErrText "validator action requires a zero-value PQ transaction to the reserved pool");
  _ ← fail_if (match tx.(vt_PQ) with
               | None => true
               | Some (algorithm, publicKey) =>
                   negb (bool_decide (algorithm = AlgorithmMLDSA87)) || negb (length publicKey =? MLDSA87PublicKeySize)%nat
               end) (ErrText "validator action requires an ML-DSA-87 transaction");
  if HasValidatorExitPrefix tx.(vt_Data) then _ ← DecodeValidatorExit tx.(vt_Data); Ok ()
  else if HasValidatorWithdrawalPrefix tx.(vt_Data) then _ ← DecodeValidatorWithdrawal tx.(vt_Data); Ok ()
  else Err ErrInvalidShieldedTx.

Definition ValidateValidatorActionState (st : S) (from : address) (data : bytes) (height : Z) : result vError unit :=
  match readValidatorRecord st from with
  | Err _ => Err ErrValidatorNotFound
  | Ok record =>
      if HasValidatorExitPrefix data then
        fail_if ((record.(Stake) =? 0) || negb (record.(ExitHeight) =? 0)) (ErrText "validator is not active or has already exited")
      else if HasValidatorWithdrawalPrefix data then
        fail_if ((record.(Stake) =? 0) || (record.(ExitHeight) =? 0) || (height <? record.(ExitHeight) +₆₄ ValidatorUnbondingPeriod))
          (ErrText "validator bond is still in its unbonding period")
      else Err ErrInvalidShieldedTx
  end.

Definition ProcessValidatorAction (config : ChainConfig.ChainConfig) (number time : Z) (st : S) (tx : vtx) : option vError * S :=
  match ValidateValidatorActionBasics config number time tx with
  | Err e => (Some e, st)
  | Ok _ =>
  match Sender config number time tx with
  | None => (Some ErrSender, st)
  | Some from =>
  match ValidateValidatorActionState st from tx.(vt_Data) (u64 number) with
  | Err e => (Some e, st)
  | Ok _ =>
  match readValidatorRecord st from with
  | Err e => (Some e, st)
  | Ok record =>
      if negb (bool_decide (snd <$> tx.(vt_PQ) = Some record.(PublicKey)))
      then (Some (ErrText "validator action public key does not match the registered validator"), st)
      else if HasValidatorExitPrefix tx.(vt_Data) then
        writeValidatorRecord st
          (withExit record record.(Stake) (u64 number) (u64 number +₆₄ ValidatorUnbondingPeriod) record.(SlashCount))
      else if GetBalance st ShieldedPoolAddress <? record.(Stake)
      then (Some (ErrText "validator bond reserve is unavailable for withdrawal"), st)
      else
        let st := SubBalance st ShieldedPoolAddress record.(Stake) in
        let st := AddBalance st from record.(Stake) in
        writeValidatorRecord st (withExit record 0 (u64 number) (u64 number) record.(SlashCount))
  end
  end
  end
  end.

(** ** Slashing *)

Definition ValidateValidatorSlashBasics (config : ChainConfig.ChainConfig) (number time : Z) (tx : vtx) : result vError unit :=
  _ ← fail_if (negb (ChainConfig.IsAntartical config number time)) ErrValidatorNotActive;
  _ ← fail_if (negb (enveloped config tx 0)) (ErrText "validator slash requires a zero-value PQ transaction to the reserved pool");
  e ← DecodeValidatorSlash tx.(vt_Data);
  _ ← fail_if (negb (e.(ve_Version) =? ValidatorEnvelopeVersion) || (e.(ve_Validator) =? zeroAddress) || (e.(ve_Height) =? 0)
               || (e.(ve_BlockHashA) =? e.(ve_BlockHashB))) ErrValidatorEvidenceInvalid;
  _ ← fail_if (negb (length e.(ve_PublicKey) =? MLDSA87PublicKeySize)%nat || (length e.(ve_SignatureA) =? 0)%nat
               || (length e.(ve_SignatureB) =? 0)%nat) ErrValidatorEvidenceInvalid;
  let digestA := ValidatorAttestationDigest e.(ve_Height) e.(ve_BlockHashA) in
  let digestB := ValidatorAttestationDigest e.(ve_Height) e.(ve_BlockHashB) in
  _ ← fail_if (negb (VerifyMLDSA87 e.(ve_PublicKey) digestA e.(ve_SignatureA))
               || negb (VerifyMLDSA87 e.(ve_PublicKey) digestB e.(ve_SignatureB))) ErrValidatorEvidenceInvalid;
  fail_if (negb (bool_decide (pqAddress AlgorithmMLDSA87 e.(ve_PublicKey) = Some e.(ve_Validator)))) ErrValidatorEvidenceInvalid.

(** [crypto.Keccak256Hash(tx.Data())] *)
Definition evidenceHash (tx : vtx) : hash := be_value (keccak tx.(vt_Data)).

Definition ProcessValidatorSlash (config : ChainConfig.ChainConfig) (number time : Z) (st : S) (tx : vtx) : option vError * S :=
  match ValidateValidatorSlashBasics config number time tx with
  | Err e => (Some e, st)
  | Ok _ =>
  match DecodeValidatorSlash tx.(vt_Data) with
  | Err e => (Some e, st)
  | Ok e =>
  match readValidatorRecord st e.(ve_Validator) with
  | Err e => (Some e, st)
  | Ok record =>
      if negb (bool_decide (record.(PublicKey) = e.(ve_PublicKey))) then (Some ErrValidatorEvidenceInvalid, st)
      else if negb (GetState st ShieldedPoolAddress (validatorEvidenceSlot (evidenceHash tx)) =? zeroHash)
      then (Some (ErrText "validator evidence was already processed"), st)
      else if (0 <? record.(Stake)) && (GetBalance st ShieldedPoolAddress <? record.(Stake))
      then (Some (ErrText "validator bond reserve is unavailable for slashing"), st)
      else
        let st := if 0 <? record.(Stake) then SubBalance st ShieldedPoolAddress record.(Stake) else st in
        match writeValidatorRecord st
                (withExit record 0 (u64 number) (u64 number +₆₄ ValidatorUnbondingPeriod) (record.(SlashCount) +₆₄ 1)) with
        | (Some e, st) => (Some e, st)
        | (None, st) => (None, SetState st ShieldedPoolAddress (validatorEvidenceSlot (evidenceHash tx)) tx.(vt_Hash))
        end
  end
  end
  end.

(** ** Dispatch and rewards *)

Definition validateValidatorProtocolBasics (config : ChainConfig.ChainConfig) (number time : Z) (tx : vtx) : result vError unit :=
  if HasValidatorRegistrationPrefix tx.(vt_Data) then ValidateValidatorRegistrationBasics config number time tx
  else if HasValidatorSlashPrefix tx.(vt_Data) then ValidateValidatorSlashBasics config number time tx
  else if HasValidatorExitPrefix tx.(vt_Data) || HasValidatorWithdrawalPrefix tx.(vt_Data)
  then ValidateValidatorActionBasics config number time tx
  else Err ErrInvalidShieldedTx.

(** One conditional handler call of the loop in [StateProcessor.Process]. *)
Definition guarded (c : bool) (handler : S → option vError * S) (r : option vError * S) : option vError * S :=
  match r with
  | (Some e, st) => (Some e, st)
  | (None, st) => if c then handler st else (None, st)
  end.

(** The three calls of [StateProcessor.Process] behind the execution of a transaction. *)
Definition processValidatorEnvelope (config : ChainConfig.ChainConfig) (number time : Z) (st : S) (tx : vtx) : option vError * S :=
  let active := ChainConfig.IsAntartical config number time in
  guarded (active && (HasValidatorExitPrefix tx.(vt_Data) || HasValidatorWithdrawalPrefix tx.(vt_Data)))
    (λ st, ProcessValidatorAction config number time st tx)
  (guarded (active && HasValidatorSlashPrefix tx.(vt_Data)) (λ st, ProcessValidatorSlash config number time st tx)
  (guarded (active && HasValidatorRegistrationPrefix tx.(vt_Data)) (λ st, ProcessValidatorRegistration config number time st tx)
  (None, st))).

(** The number and the parent hash of a header. *)
Definition BuildValidatorRewardTx (st : S) (header : option (Z * hash)) : result vError Rewards.Transaction :=
  match header with
  | None => Err ErrValidatorRewardInvalid
  | Some (number, parentHash) =>
      record ← SelectValidator st (u64 number) parentHash;
      let shares := Antartical.RewardSharesAt (u64 number) DefaultBlocksPerHalving in
      Ok (Rewards.NewValidatorRewardTx (u64 number) record.(RewardAddress) shares.(Antartical.Validator))
  end.

Definition ValidateValidatorRewardTransaction (st : S) (header : option (Z * hash)) (tx : option Rewards.Transaction)
  : result vError unit :=
  match header, tx with
  | Some (number, parentHash), Some t =>
      if negb (Rewards.IsValidatorRewardTx tx) then Err ErrValidatorRewardInvalid
      else
        record ← SelectValidator st (u64 number) parentHash;
        let shares := Antartical.RewardSharesAt (u64 number) DefaultBlocksPerHalving in
        fail_if (negb (bool_decide (t.(Rewards.tx_To) = Some record.(RewardAddress)))
                 || negb (t.(Rewards.tx_Value) =? default 0 shares.(Antartical.Validator))) ErrValidatorRewardInvalid
  | _, _ => Err ErrValidatorRewardInvalid
  end.

End Registry.
End ValidatorRegistry.
