(* ===== verification/ValidatorStore.v ===== *)
(** * The validator registry in storage

    What [ValidatorRegistry] keeps in the slots of the shielded pool's account:
    a record cut into chunks is read back as it was written, writing one record
    leaves every other slot of the registry alone, and the storage holds a queue
    of addresses, a map of records and a set of processed evidence. *)

From stdpp Require Import sorting.
From S2P Require Import Prelude Bytes RLP RLPStream RLPTypes State Emission ChainConfig Rewards ValidatorRegistry.
Import RLP RLPStream RLPTypes ValidatorRegistry.

Module ValidatorStore.

(** ** Records as bytes *)

Lemma denote_struct fs vs js : denoteFields denote fs vs js → denote (RStruct fs) (VList vs) (Lst js).
Proof. intros H. cbn [denote]. by eexists _, _. Qed.

Lemma denoteFields_cons den o t fs v vs i js :
  den t v i → denoteFields den fs vs js → denoteFields den ((o, t) :: fs) (v :: vs) (i :: js).
Proof. intros Hd Hf. left. by eexists _, _, _, _. Qed.

Lemma denote_uint x : is_u64 x → denote (RUint 64) (VNum x) (Str (min_bytes x)).
Proof. intros H. by exists x. Qed.

Lemma denote_be n x : denote (RByteArray n) (VBytes (be_bytes n x)) (Str (be_bytes n x)).
Proof. exists (be_bytes n x). by rewrite length_be_bytes. Qed.

(** ** Addresses as bytes *)

Lemma be_bytes_mod n x : be_bytes n (x mod 256 ^ Z.of_nat n) = be_bytes n x.
Proof.
  rewrite <- (be_bytes_value (be_bytes n x)) by apply be_bytes_ok. rewrite length_be_bytes. f_equal.
  unfold be_value, be_bytes. by rewrite digits_value_to_digits.
Qed.

Lemma BytesToHash_address a : is_address a → BytesToHash (address_bytes a) = a.
Proof.
  intros Ha. unfold BytesToHash, address_bytes. rewrite length_be_bytes. cbn [Nat.ltb Nat.leb].
  apply be_value_bytes. change (256 ^ Z.of_nat 20) with (2 ^ 160). done.
Qed.

Lemma be_bytes_split m n x : be_bytes (n + m) x = be_bytes m (x / 256 ^ Z.of_nat n) ++ be_bytes n x.
Proof.
  revert x. induction n as [|n IH]; intros x; [by rewrite Z.div_1_r, app_nil_r|]. unfold be_bytes in *. cbn [Nat.add to_digits].
  rewrite IH, <- app_assoc. do 2 f_equal. rewrite Z.div_div by (try apply Z.pow_nonzero; lia).
  by rewrite Nat2Z.inj_succ, Z.pow_succ_r by lia.
Qed.

Lemma BytesToAddress_hash a : is_address a → BytesToAddress (hash_bytes a) = a.
Proof.
  intros Ha. unfold BytesToAddress, hash_bytes. rewrite length_be_bytes. cbn [Nat.ltb Nat.leb Nat.sub].
  rewrite (be_bytes_split 12 20). rewrite drop_app_length' by (by rewrite length_be_bytes).
  apply be_value_bytes. change (256 ^ Z.of_nat 20) with (2 ^ 160). done.
Qed.

Section Store.
Context {X : Externals} (keySize_small : (MLDSA87PublicKeySize <= 4000)%nat).

(** What every record of the registry satisfies. *)
Record record_ok (r : ValidatorRecord) : Prop := {
  ro_version : is_u64 r.(Version);
  ro_address : is_address r.(Address) ∧ r.(Address) ≠ 0;
  ro_key : bytes_ok r.(PublicKey) ∧ length r.(PublicKey) = MLDSA87PublicKeySize;
  ro_reward : is_address r.(RewardAddress);
  ro_stake : r.(Stake) = 0 ∨ r.(Stake) = ValidatorBondWei;
  ro_activation : is_u64 r.(ActivationHeight);
  ro_exit : is_u64 r.(ExitHeight);
  ro_jailed : is_u64 r.(JailedUntil);
  ro_registered : is_u64 r.(RegisteredAt);
  ro_slashes : is_u64 r.(SlashCount);
}.

(** The tree a record is encoded as. *)
Definition recordItem (r : ValidatorRecord) : item :=
  Lst [Str (min_bytes r.(Version)); Str (address_bytes r.(Address)); Str r.(PublicKey); Str (address_bytes r.(RewardAddress));
       Str (min_bytes r.(Stake)); Str (min_bytes r.(ActivationHeight)); Str (min_bytes r.(ExitHeight)); Str (min_bytes r.(JailedUntil));
       Str (min_bytes r.(RegisteredAt)); Str (min_bytes r.(SlashCount))].

Lemma stake_bounds r : record_ok r → 0 <= r.(Stake) < 256 ^ 10.
Proof. intros H. destruct (ro_stake r H) as [->| ->]; vm_compute; intuition congruence. Qed.

Lemma record_denote r : record_ok r → denote recordType (recordVal r) (recordItem r).
Proof.
  intros H. pose proof (stake_bounds r H). destruct H. apply denote_struct.
  repeat apply denoteFields_cons; try (by apply denote_uint); try apply denote_be; [by eexists|exists (Stake r); split_and!; [done..|lia]|done].
Qed.

Lemma Str_small b n : bytes_ok b → (length b <= n)%nat → (n <= 4000)%nat → item_ok (Str b) ∧ (length (enc (Str b)) <= n + 9)%nat.
Proof.
  intros Hb Hl Hn. assert (Z.of_nat (length b) < two64) by (unfold two64; lia). split; [by constructor|].
  pose proof (encStr_length_le b ltac:(done)). cbn [enc]. lia.
Qed.

Lemma uint_small x : is_u64 x → item_ok (Str (min_bytes x)) ∧ (length (enc (Str (min_bytes x))) <= 17)%nat.
Proof.
  intros Hx. apply (Str_small _ 8); [apply min_bytes_spec; apply Hx|apply min_bytes_length; unfold is_u64, two64 in Hx; lia|lia].
Qed.

Lemma address_small a : item_ok (Str (address_bytes a)) ∧ (length (enc (Str (address_bytes a))) <= 29)%nat.
Proof. apply (Str_small _ 20); [apply be_bytes_ok|unfold address_bytes; by rewrite length_be_bytes|lia]. Qed.

Lemma record_small r : record_ok r → item_ok (recordItem r) ∧ (length (enc (recordItem r)) <= 4500)%nat.
Proof using keySize_small.
  intros H. pose proof (stake_bounds r H) as Hs. destruct H as [H1 H2 [H3 H3'] H4 _ H5 H6 H7 H8 H9].
  pose proof (uint_small _ H1) as [I1 L1]. pose proof (address_small r.(Address)) as [I2 L2].
  pose proof (Str_small r.(PublicKey) MLDSA87PublicKeySize H3 ltac:(lia) ltac:(lia)) as [I3 L3].
  pose proof (address_small r.(RewardAddress)) as [I4 L4].
  pose proof (Str_small (min_bytes r.(Stake)) 10 ltac:(apply min_bytes_spec; lia) ltac:(apply min_bytes_length; lia) ltac:(lia)) as [I5 L5].
  pose proof (uint_small _ H5) as [I6 L6]. pose proof (uint_small _ H6) as [I7 L7]. pose proof (uint_small _ H7) as [I8 L8].
  pose proof (uint_small _ H8) as [I9 L9]. pose proof (uint_small _ H9) as [I0 L0].
  unfold recordItem. set (js := [_; _; _; _; _; _; _; _; _; _]).
  assert (Hc : (length (concat (enc <$> js)) <= 4400)%nat).
  { subst js. cbn [fmap list_fmap concat]. rewrite !length_app. cbn [length]. lia. }
  split.
  - constructor; [|unfold two64; lia]. subst js. repeat (apply Forall_cons_2; [done|]). done.
  - assert (E : Z.of_nat (length (concat (enc <$> js))) < two64) by (unfold two64; lia).
    apply encList_length_le in E. cbn [enc]. clear -E Hc. lia.
Qed.

Lemma encode_record r : record_ok r → encodeValidatorRecord r = Ok (enc (recordItem r)).
Proof using keySize_small.
  intros H. destruct (record_small r H) as [Hok Hl]. pose proof (record_denote r H) as Hd.
  assert (Hw : wf_type recordType) by (vm_compute; exact I).
  assert (E : canon recordType (recordVal r) = recordItem r) by (apply (canon_denote recordType _ _ Hw Hd); vm_compute; exact I).
  unfold encodeValidatorRecord. rewrite (EncodeValue_canon recordType _ _ Hw Hd); rewrite E; [done|]. unfold two64. lia.
Qed.

Lemma recordOf_Val r : record_ok r → recordOf (recordVal r) = Some r.
Proof.
  intros [_ [Ha _] _ Hr]. unfold is_address in *. unfold recordOf, recordVal, address_bytes.
  rewrite !be_value_bytes by (change (256 ^ Z.of_nat 20) with (2 ^ 160); lia). by destruct r.
Qed.

Lemma decode_record r : record_ok r → decodeValidatorRecord (enc (recordItem r)) = Ok r.
Proof using keySize_small.
  intros H. destruct (record_small r H) as [Hok Hl]. unfold decodeValidatorRecord, decodeInto.
  rewrite (DecodeBytes_enc pooled recordType (recordVal r) (recordItem r)); [|vm_compute; exact I|by apply record_denote|done].
  by rewrite recordOf_Val.
Qed.

(** ** Slots *)

(** The slots of the registry by what they hold. *)
Inductive slotKey :=
| KCount
| KIndex (i : Z)
| KChunks (a : address)
| KLength (a : address)
| KChunk (a : address) (i : Z)
| KEvidence (h : hash).

#[global] Instance slotKey_eq_dec : EqDecision slotKey.
Proof. solve_decision. Defined.

Definition slotOf (k : slotKey) : hash :=
  match k with
  | KCount => validatorCountSlot
  | KIndex i => validatorIndexSlot i
  | KChunks a => validatorRecordChunkCountSlot a
  | KLength a => validatorRecordByteLengthSlot a
  | KChunk a i => validatorRecordChunkSlot a i
  | KEvidence h => validatorEvidenceSlot h
  end.

(** The keys in use, for the digests of evidence in [E]. *)
Definition key_ok (E : hash → Prop) (k : slotKey) : Prop :=
  match k with
  | KCount => True
  | KIndex i => 0 <= i < ValidatorMaxSetSize
  | KChunks a | KLength a => is_address a
  | KChunk a i => is_address a ∧ 0 <= i < 256
  | KEvidence h => E h
  end.

(** SHA-512 has no collision among the keys in use. *)
Class SlotsDistinct (E : hash → Prop) :=
  slots_distinct k k' : key_ok E k → key_ok E k' → slotOf k = slotOf k' → k = k'.

Context (E : hash → Prop) {Hslots : SlotsDistinct E}.
Context {U : Uint256} {S : Type} {W : WorldState S}.

Definition slot (st : S) (k : slotKey) : hash := GetState st ShieldedPoolAddress (slotOf k).
Definition setSlot (st : S) (k : slotKey) (v : hash) : S := SetState st ShieldedPoolAddress (slotOf k) v.

Lemma slot_set st k k' v : key_ok E k → key_ok E k' → slot (setSlot st k v) k' = if decide (k = k') then v else slot st k'.
Proof using Hslots.
  intros Hk Hk'. unfold slot, setSlot. rewrite GetState_SetState. destruct (decide (k = k')) as [->|Hne].
  - by rewrite decide_True.
  - rewrite decide_False; [done|]. intros [_ He]. apply Hne. by apply (slots_distinct (E := E)).
Qed.

(** Two states that the registry cannot tell apart. *)
Definition same_slots (st st' : S) : Prop := ∀ k, key_ok E k → slot st' k = slot st k.

(** ** Chunks *)

Lemma hash_bytes_chunk raw i :
  bytes_ok raw → hash_bytes (chunkWord raw i) = take 32 (drop (i * 32) raw) ++ replicate (32 - length (take 32 (drop (i * 32) raw))) 0.
Proof using.
  clear keySize_small.
  intros Hb. unfold chunkWord. set (w := take 32 _). assert (Hw : (length w <= 32)%nat) by (subst w; rewrite length_take; lia).
  assert (Hl : length (w ++ replicate (32 - length w) 0) = 32%nat) by (rewrite length_app, length_replicate; lia).
  rewrite BytesToHash_32 by done. unfold hash_bytes. rewrite <- Hl at 1. apply be_bytes_value.
  apply Forall_app. split; [by apply Forall_take, Forall_drop|]. by apply Forall_replicate.
Qed.

Lemma chunks_concat raw n :
  bytes_ok raw → (length raw <= 32 * n)%nat → ∃ pad, concat ((λ i, hash_bytes (chunkWord raw i)) <$> seq 0 n) = raw ++ pad ∧
    (length raw + length pad = 32 * n)%nat.
Proof using.
  clear keySize_small.
  revert raw. induction n as [|n IH]; intros raw Hb Hl.
  { destruct raw; [|cbn in Hl; lia]. by exists []. }
  destruct (IH (drop 32 raw)) as (pad & Ep & Hp); [by apply Forall_drop|rewrite length_drop; lia|].
  cbn [seq fmap list_fmap concat]. rewrite hash_bytes_chunk, drop_0 by done. rewrite <- fmap_S_seq, <- list_fmap_compose.
  assert (Ef : (λ i, hash_bytes (chunkWord raw i)) ∘ Datatypes.S <$> seq 0 n = (λ i, hash_bytes (chunkWord (drop 32 raw) i)) <$> seq 0 n).
  { apply list_fmap_ext. intros j i _. cbn [compose]. unfold chunkWord. rewrite drop_drop. done. }
  rewrite Ef, Ep. destruct (decide (length raw < 32)%nat) as [Hs|Hs].
  - rewrite take_ge, drop_ge by lia. exists (replicate (32 - length raw) 0 ++ pad). rewrite <- app_assoc. split; [done|].
    rewrite length_app, length_replicate. rewrite length_drop in Hp. lia.
  - exists pad. rewrite length_take_le by lia. cbn [replicate]. rewrite app_nil_r, app_assoc, take_drop. split; [done|].
    rewrite length_drop in Hp. lia.
Qed.

Lemma uint64Hash_id v : is_u64 v → uint64Hash v = v.
Proof using.
  clear keySize_small.
  intros Hv. unfold uint64Hash, BytesToHash. assert (length (min_bytes v) <= 8)%nat.
  { apply min_bytes_length. unfold is_u64, two64 in Hv. lia. }
  rewrite (proj2 (Nat.ltb_ge _ _)) by lia. by apply min_bytes_spec, Hv.
Qed.

(** ** Reading and writing a record *)

Definition chunkCount (raw : bytes) : nat := ((length raw + 31) / 32)%nat.

Lemma chunkCount_spec raw : (length raw <= 32 * chunkCount raw)%nat ∧ (32 * chunkCount raw < length raw + 32)%nat.
Proof using.
  clear keySize_small.
  unfold chunkCount. pose proof (Nat.div_mod_eq (length raw + 31) 32). pose proof (Nat.mod_upper_bound (length raw + 31) 32). lia.
Qed.

(** The storage holds the record under its address. *)
Definition stored (st : S) (r : ValidatorRecord) : Prop :=
  let raw := enc (recordItem r) in
  slot st (KChunks r.(Address)) = Z.of_nat (chunkCount raw) ∧ slot st (KLength r.(Address)) = Z.of_nat (length raw)
  ∧ ∀ i, (i < chunkCount raw)%nat → slot st (KChunk r.(Address) (Z.of_nat i)) = chunkWord raw i.

Lemma record_chunks r : record_ok r →
  bytes_ok (enc (recordItem r)) ∧ (0 < length (enc (recordItem r)) <= 4500)%nat ∧ (0 < chunkCount (enc (recordItem r)) <= 141)%nat.
Proof using keySize_small.
  intros H. destruct (record_small r H) as [Hok Hl]. set (raw := enc (recordItem r)) in *.
  assert (Hb : bytes_ok raw) by (by apply item_ok_enc_bytes). pose proof (enc_nonempty (recordItem r)) as Hne. fold raw in Hne.
  assert (length raw ≠ 0)%nat by (by destruct raw). pose proof (chunkCount_spec raw). split_and!; [done|lia..].
Qed.

Lemma read_stored st r : record_ok r → stored st r → readValidatorRecord st r.(Address) = Ok r.
Proof using keySize_small.
  intros H (Hc & Hl & Hi). destruct (record_chunks r H) as (Hb & Hlen & Hcnt). set (raw := enc (recordItem r)) in *.
  unfold readValidatorRecord. change (GetState st ShieldedPoolAddress (validatorRecordChunkCountSlot (Address r))) with (slot st (KChunks r.(Address))).
  change (GetState st ShieldedPoolAddress (validatorRecordByteLengthSlot (Address r))) with (slot st (KLength r.(Address))).
  rewrite Hc, Hl. unfold uint64FromHash. rewrite !u64_small by (unfold is_u64, two64; lia).
  rewrite (proj2 (Z.eqb_neq _ _)) by lia. rewrite !Nat2Z.id.
  destruct (chunks_concat raw (chunkCount raw) Hb) as (pad & Ep & Hpad); [apply chunkCount_spec|].
  rewrite (list_fmap_ext _ (λ i, hash_bytes (chunkWord raw i))), Ep.
  - rewrite (proj2 (Z.eqb_neq _ _)), (proj2 (Z.ltb_ge _ _)) by (rewrite ?length_app; lia). cbn [orb].
    rewrite take_app_length. by apply decode_record.
  - intros j i Hj%lookup_seq. f_equal. apply Hi. lia.
Qed.

(** Nonces and the storage of the other accounts are as before. *)
Definition foreign_same (st st' : S) : Prop :=
  (∀ b, GetNonce st' b = GetNonce st b) ∧ ∀ b k, b ≠ ShieldedPoolAddress → GetState st' b k = GetState st b k.

Lemma foreign_refl st : foreign_same st st.
Proof. done. Qed.

Lemma foreign_trans st1 st2 st3 : foreign_same st1 st2 → foreign_same st2 st3 → foreign_same st1 st3.
Proof. intros [H1 H2] [H3 H4]. split; intros; [by rewrite H3|by rewrite H4, H2]. Qed.

Lemma foreign_set st k v : foreign_same st (setSlot st k v).
Proof. split; intros; unfold setSlot; ws_simpl; [done|]. rewrite GetState_SetState, decide_False; [done|]. by intros [? _]. Qed.

Lemma GetBalance_setSlot st k v b : GetBalance (setSlot st k v) b = GetBalance st b.
Proof. apply GetBalance_SetState. Qed.

Lemma write_chunks st a raw l :
  is_address a → (∀ i, i ∈ l → (i < 256)%nat) →
  let st' := writeChunks st a raw l in
  (∀ k, key_ok E k → (∀ i, i ∈ l → k ≠ KChunk a (Z.of_nat i)) → slot st' k = slot st k)
  ∧ (∀ i, i ∈ l → slot st' (KChunk a (Z.of_nat i)) = chunkWord raw i)
  ∧ (∀ b, GetBalance st' b = GetBalance st b) ∧ foreign_same st st'.
Proof using keySize_small Hslots.
  intros Ha. induction l as [|i l IH] using rev_ind; intros Hl st'; subst st'; unfold writeChunks; [by split_and!; try set_solver|].
  rewrite foldl_app. cbn [foldl]. fold (writeChunks st a raw l). destruct IH as (H1 & H2 & H3 & H4); [set_solver|].
  set (st1 := writeChunks st a raw l) in *. pose proof (Hl i ltac:(set_solver)) as Hi.
  change (SetState st1 ShieldedPoolAddress (validatorRecordChunkSlot a (Z.of_nat i)) (chunkWord raw i))
    with (setSlot st1 (KChunk a (Z.of_nat i)) (chunkWord raw i)).
  assert (Hk : ∀ i, (i < 256)%nat → key_ok E (KChunk a (Z.of_nat i))) by (intros; split; [done|lia]).
  split_and!.
  - intros k Hok Hne. rewrite slot_set, decide_False by (eauto; intros Hk'; eapply (Hne i); set_solver). apply H1; set_solver.
  - intros j Hj. rewrite slot_set by eauto. case_decide as He; [injection He as He; f_equal; lia|].
    apply H2. apply elem_of_app in Hj as [Hj|Hj%list_elem_of_singleton]; [done|by subst].
  - intros b. by rewrite GetBalance_setSlot.
  - eapply foreign_trans; [done|apply foreign_set].
Qed.

(** The slots of one record. *)
Definition of_record (a : address) (k : slotKey) : Prop :=
  k = KChunks a ∨ k = KLength a ∨ ∃ i, k = KChunk a i.

Lemma write_record st r : record_ok r →
  ∃ st', writeValidatorRecord st r = (None, st') ∧ stored st' r ∧ (∀ k, key_ok E k → ¬ of_record r.(Address) k → slot st' k = slot st k)
    ∧ (∀ b, GetBalance st' b = GetBalance st b) ∧ foreign_same st st'.
Proof using keySize_small Hslots.
  intros H. destruct (record_chunks r H) as (Hb & Hlen & Hcnt). destruct (ro_address r H) as [Ha _].
  unfold writeValidatorRecord. rewrite encode_record by done. set (raw := enc (recordItem r)) in *.
  change ((length raw + 31) / 32)%nat with (chunkCount raw).
  rewrite (proj2 (Nat.eqb_neq _ _)), (proj2 (Nat.ltb_ge _ _)) by lia. cbn [orb].
  set (l := seq 0 (chunkCount raw)). assert (Hl : ∀ i, i ∈ l ↔ (i < chunkCount raw)%nat) by (intros i; unfold l; rewrite elem_of_seq; lia).
  destruct (write_chunks st (Address r) raw l Ha) as (H1 & H2 & H3 & H4); [intros i Hi%Hl; lia|].
  set (st1 := writeChunks st (Address r) raw l) in *. rewrite !uint64Hash_id by (unfold is_u64, two64; lia).
  set (c := Z.of_nat (chunkCount raw)) in *. set (n := Z.of_nat (length raw)) in *.
  exists (setSlot (setSlot st1 (KChunks (Address r)) c) (KLength (Address r)) n). split; [done|].
  split; [|split; [|split]].
  - unfold stored. fold raw. fold c. fold n. rewrite !slot_set by done. rewrite decide_False, !decide_True by done.
    split_and!; [done..|]. intros i Hi. assert (key_ok E (KChunk (Address r) (Z.of_nat i))) by (split; [done|lia]).
    rewrite !slot_set, !decide_False by done. by apply H2, Hl.
  - intros k Hk Hn. unfold of_record in Hn. rewrite !slot_set, !decide_False by (done || naive_solver).
    apply H1; [done|]. naive_solver.
  - intros b. by rewrite !GetBalance_setSlot.
  - eapply foreign_trans; [done|]. eapply foreign_trans; apply foreign_set.
Qed.

(** ** The registry *)

Record Registry := {
  rg_queue : list address;
  rg_records : gmap Z ValidatorRecord;
  rg_evidence : gset Z;
}.

Record holds (st : S) (R : Registry) : Prop := {
  h_count : slot st KCount = Z.of_nat (length R.(rg_queue));
  h_size : Z.of_nat (length R.(rg_queue)) <= ValidatorMaxSetSize;
  h_index i a : R.(rg_queue) !! i = Some a → slot st (KIndex (Z.of_nat i)) = a;
  h_nodup : NoDup R.(rg_queue);
  h_dom a : a ∈ R.(rg_queue) ↔ is_Some (R.(rg_records) !! a);
  h_record a r : R.(rg_records) !! a = Some r → record_ok r ∧ r.(Address) = a ∧ stored st r;
  h_none a : is_address a → R.(rg_records) !! a = None → slot st (KChunks a) = 0;
  h_evidence h : E h → slot st (KEvidence h) ≠ 0 ↔ h ∈ R.(rg_evidence);
}.

Definition emptyRegistry : Registry := {| rg_queue := []; rg_records := ∅; rg_evidence := ∅ |}.

Lemma holds_empty st : (∀ k, key_ok E k → slot st k = 0) → holds st emptyRegistry.
Proof.
  intros H. split; cbn.
  - by apply H.
  - done.
  - done.
  - constructor.
  - intros a. rewrite lookup_empty. split; [by intros ?%elem_of_nil|by intros [? ?]].
  - done.
  - intros a Ha _. by apply H.
  - intros h Hh. rewrite H by done. clear. set_solver.
Qed.

Lemma stored_same st st' r : record_ok r → (∀ k, key_ok E k → of_record r.(Address) k → slot st' k = slot st k) → stored st r → stored st' r.
Proof using keySize_small.
  intros Hr H (H1 & H2 & H3). destruct (ro_address r Hr) as [Ha _]. destruct (record_chunks r Hr) as (_ & _ & Hc). unfold of_record in H.
  unfold stored. rewrite !H by (cbn; eauto). split_and!; [done..|]. intros i Hi. rewrite H; [by apply H3|split; [done|lia]|eauto].
Qed.

Lemma holds_same st st' R : same_slots st st' → holds st R → holds st' R.
Proof using keySize_small.
  intros Hs [H1 H2 H3 H4 H5 H6 H7 H8]. split; try done.
  - by rewrite Hs.
  - intros i a Hi. rewrite Hs; [by apply H3|]. cbn. apply lookup_lt_Some in Hi. lia.
  - intros a r Hr. destruct (H6 a r Hr) as (Hok & He & Hst). split_and!; [done..|]. eapply stored_same; [done| |done]. intros. by apply Hs.
  - intros a Ha Hr. rewrite Hs; [by apply H7|done].
  - intros h Hh. rewrite Hs by done. by apply H8.
Qed.

Lemma read_some st R a r : holds st R → R.(rg_records) !! a = Some r → readValidatorRecord st a = Ok r.
Proof using keySize_small. intros H Hr. destruct (h_record _ _ H a r Hr) as (Hok & <- & Hst). by apply read_stored. Qed.

Lemma read_none st R a : holds st R → is_address a → R.(rg_records) !! a = None → readValidatorRecord st a = Err ErrValidatorNotFound.
Proof.
  intros H Ha Hr. unfold readValidatorRecord. pose proof (h_none _ _ H a Ha Hr) as Hs. unfold slot in Hs. cbn [slotOf] in Hs. by rewrite Hs.
Qed.

Lemma count_slot st n : slot st KCount = Z.of_nat n → Z.of_nat n <= ValidatorMaxSetSize → ValidatorCount st = Z.of_nat n.
Proof.
  intros H Hn. unfold ValidatorCount. change validatorCountSlot with (slotOf KCount). fold (slot st KCount). rewrite H.
  apply u64_small. clear -Hn. unfold is_u64, two64, ValidatorMaxSetSize in *. lia.
Qed.

Lemma count_queue st R : holds st R → ValidatorCount st = Z.of_nat (length R.(rg_queue)).
Proof. intros H. apply count_slot; [apply (h_count _ _ H)|apply (h_size _ _ H)]. Qed.

Lemma queue_address st R a : holds st R → a ∈ R.(rg_queue) → is_address a ∧ a ≠ 0.
Proof.
  intros H Ha. apply (h_dom _ _ H) in Ha as [r Hr]. destruct (h_record _ _ H a r Hr) as (Hok & <- & _). apply (ro_address r Hok).
Qed.

Lemma queued_spec st q from :
  (∀ i a, q !! i = Some a → slot st (KIndex (Z.of_nat i)) = a) → is_address from →
  queued st from (length q) 0 = bool_decide (from ∈ q).
Proof.
  intros Hq Hf. assert (Hg : ∀ q n, (∀ i a, q !! i = Some a → slot st (KIndex (Z.of_nat (n + i))) = a) →
    queued st from (length q) (Z.of_nat n) = bool_decide (from ∈ q)).
  { clear Hq q. induction q as [|a q IH]; intros n Hi; cbn [length queued]; [done|].
    change (GetState st ShieldedPoolAddress (validatorIndexSlot (Z.of_nat n))) with (slot st (KIndex (Z.of_nat n))).
    pose proof (Hi 0%nat a eq_refl) as H0. rewrite Nat.add_0_r in H0. rewrite H0, BytesToHash_address by done.
    replace (Z.of_nat n + 1) with (Z.of_nat (Datatypes.S n)) by (clear; lia). rewrite IH.
    - destruct (Z.eqb_spec a from) as [->|Hne]; cbn [orb]; symmetry; [apply bool_decide_true; by left|].
      apply bool_decide_ext. rewrite elem_of_cons. clear -Hne. naive_solver.
    - intros i b Hb. rewrite <- (Hi (Datatypes.S i) b Hb). do 2 f_equal. clear. lia. }
  by apply (Hg _ 0%nat).
Qed.

(** The record of an address, which joins the queue when it is new. *)
Definition putRecord (R : Registry) (r : ValidatorRecord) : Registry := {|
  rg_queue := if decide (r.(Address) ∈ R.(rg_queue)) then R.(rg_queue) else R.(rg_queue) ++ [r.(Address)];
  rg_records := <[r.(Address) := r]> R.(rg_records);
  rg_evidence := R.(rg_evidence);
|}.

Definition addEvidence (R : Registry) (h : hash) : Registry :=
  {| rg_queue := R.(rg_queue); rg_records := R.(rg_records); rg_evidence := {[h]} ∪ R.(rg_evidence) |}.

Lemma holds_put st st' R r :
  holds st R → record_ok r → stored st' r →
  (∀ k, key_ok E k → ¬ of_record r.(Address) k → k ≠ KCount → (∀ i, k ≠ KIndex i) → slot st' k = slot st k) →
  let q := (putRecord R r).(rg_queue) in
  Z.of_nat (length q) <= ValidatorMaxSetSize → slot st' KCount = Z.of_nat (length q) →
  (∀ i a, q !! i = Some a → slot st' (KIndex (Z.of_nat i)) = a) →
  holds st' (putRecord R r).
Proof using keySize_small Hslots.
  intros [H1 H2 H3 H4 H5 H6 H7 H8] Hok Hst Hsame q Hq Hc Hi. subst q. split; try done; cbn.
  - case_decide; [done|]. apply NoDup_app. split_and!; [done| |apply NoDup_singleton]. intros x Hx Hx'%list_elem_of_singleton. by subst.
  - intros a. assert (Hd : a ∈ (if decide (Address r ∈ rg_queue R) then rg_queue R else rg_queue R ++ [Address r])
      ↔ a = r.(Address) ∨ a ∈ rg_queue R) by (case_decide; set_solver).
    rewrite Hd, H5. rewrite lookup_insert_is_Some. destruct (decide (r.(Address) = a)); naive_solver.
  - intros a r' Hr. apply lookup_insert_Some in Hr as [[<- <-]|[Hne Hr]]; [done|]. destruct (H6 a r' Hr) as (Hok' & <- & Hst').
    split_and!; [done..|]. eapply stored_same; [done| |done]. intros k Hk Ho. apply Hsame; [done|..]; unfold of_record in *; naive_solver.
  - intros a Ha Hr. apply lookup_insert_None in Hr as [Hr Hne]. rewrite Hsame; [by apply H7|done|..]; unfold of_record; naive_solver.
  - intros h Hh. rewrite Hsame by (done || unfold of_record; naive_solver). by apply H8.
Qed.

Lemma holds_evidence st R h v : holds st R → E h → v ≠ 0 → holds (setSlot st (KEvidence h) v) (addEvidence R h).
Proof using keySize_small Hslots.
  intros H Hh Hv. assert (Hne : ∀ k, key_ok E k → k ≠ KEvidence h → slot (setSlot st (KEvidence h) v) k = slot st k).
  { intros k Hk Hn. by rewrite slot_set, decide_False by done. }
  destruct H as [H1 H2 H3 H4 H5 H6 H7 H8]. split; cbn; try done.
  - by rewrite Hne.
  - intros i a Hi. rewrite Hne; [by apply H3|apply lookup_lt_Some in Hi; cbn; lia|done].
  - intros a r Hr. destruct (H6 a r Hr) as (Hok & <- & Hst). split_and!; [done..|]. eapply stored_same; [done| |done].
    intros k Hk Ho. apply Hne; [done|]. unfold of_record in Ho. naive_solver.
  - intros a Ha Hr. rewrite Hne by done. by apply H7.
  - intros h' Hh'. rewrite slot_set by done. case_decide as Hd; [injection Hd as <-; set_solver|]. rewrite H8 by done.
    assert (h' ≠ h) by naive_solver. set_solver.
Qed.

End Store.
End ValidatorStore.
