(* ===== verification/ValidatorSteps.v ===== *)
(** * What the validator handlers do

    The registry as a step relation on queue, records and evidence; the handlers
    of [ValidatorRegistry] refine it, the bonds stay backed, a validator gets its
    bond back, and the choice of a validator is proportional to its stake. *)

From stdpp Require Import sorting.
From S2P Require Import Prelude Bytes RLP RLPStream RLPTypes State Emission ChainConfig Rewards ValidatorRegistry ValidatorStore.
Import RLP RLPStream RLPTypes ValidatorRegistry ValidatorStore.

Module ValidatorSteps.

(** The first early return of [H] was not taken. *)
Ltac next_guard H Hg := apply bind_ok in H as ([] & Hg & H); apply fail_if_ok in Hg.

Section Steps.
Context {X : Externals} (keySize_small : (MLDSA87PublicKeySize <= 4000)%nat).
Context (config : ChainConfig.ChainConfig).

(** ** The specification *)

(** The record a registration creates. *)
Definition newRecord (e : ValidatorRegistration) (from : address) (height : Z) : ValidatorRecord :=
  {| Version := e.(vr_Version); Address := from; PublicKey := e.(vr_PublicKey); RewardAddress := e.(vr_RewardAddress);
     Stake := ValidatorBondWei; ActivationHeight := e.(vr_ActivationHeight); ExitHeight := 0; JailedUntil := 0;
     RegisteredAt := height; SlashCount := 0 |}.

Definition exited (r : ValidatorRecord) (height : Z) : ValidatorRecord :=
  withExit r r.(Stake) height (height +₆₄ ValidatorUnbondingPeriod) r.(SlashCount).
Definition withdrawn (r : ValidatorRecord) (height : Z) : ValidatorRecord := withExit r 0 height height r.(SlashCount).
Definition slashed (r : ValidatorRecord) (height : Z) : ValidatorRecord :=
  withExit r 0 height (height +₆₄ ValidatorUnbondingPeriod) (r.(SlashCount) +₆₄ 1).

(** Two signatures of one key on different blocks of one height. *)
Definition equivocation (e : ValidatorSlashEvidence) (key : bytes) : Prop :=
  e.(ve_BlockHashA) ≠ e.(ve_BlockHashB) ∧ e.(ve_Height) ≠ 0 ∧ e.(ve_PublicKey) = key
  ∧ VerifyMLDSA87 key (ValidatorAttestationDigest e.(ve_Height) e.(ve_BlockHashA)) e.(ve_SignatureA) = true
  ∧ VerifyMLDSA87 key (ValidatorAttestationDigest e.(ve_Height) e.(ve_BlockHashB)) e.(ve_SignatureB) = true
  ∧ pqAddress AlgorithmMLDSA87 key = Some e.(ve_Validator).

(** The authorised changes, with what they pay (a debit is negative). *)
Inductive vstep (number time : Z) (tx : vtx) (R : Registry) : list (address * Z) → Registry → Prop :=
| vstep_register from e :
    DecodeValidatorRegistration tx.(vt_Data) = Ok e → tx.(vt_Value) = ValidatorBondWei →
    Sender config number time tx = Some from → pqAddress AlgorithmMLDSA87 e.(vr_PublicKey) = Some from →
    tx.(vt_PQ) = Some (AlgorithmMLDSA87, e.(vr_PublicKey)) → e.(vr_RewardAddress) = from →
    (∀ r, R.(rg_records) !! from = Some r → r.(Stake) = 0) → Z.of_nat (length R.(rg_queue)) < ValidatorMaxSetSize →
    u64 number +₆₄ ValidatorActivationDelay <= e.(vr_ActivationHeight) →
    vstep number time tx R [(from, - ValidatorRegistrationFeeWei)] (putRecord R (newRecord e from (u64 number)))
| vstep_exit from r :
    HasValidatorExitPrefix tx.(vt_Data) = true → tx.(vt_Value) = 0 → Sender config number time tx = Some from →
    R.(rg_records) !! from = Some r → snd <$> tx.(vt_PQ) = Some r.(PublicKey) → 0 < r.(Stake) → r.(ExitHeight) = 0 →
    vstep number time tx R [] (putRecord R (exited r (u64 number)))
| vstep_withdraw from r :
    HasValidatorWithdrawalPrefix tx.(vt_Data) = true → tx.(vt_Value) = 0 → Sender config number time tx = Some from →
    R.(rg_records) !! from = Some r → snd <$> tx.(vt_PQ) = Some r.(PublicKey) → 0 < r.(Stake) →
    r.(ExitHeight) ≠ 0 → r.(ExitHeight) +₆₄ ValidatorUnbondingPeriod <= u64 number →
    vstep number time tx R [(ShieldedPoolAddress, - r.(Stake)); (from, r.(Stake))] (putRecord R (withdrawn r (u64 number)))
| vstep_slash e r :
    DecodeValidatorSlash tx.(vt_Data) = Ok e → tx.(vt_Value) = 0 → R.(rg_records) !! e.(ve_Validator) = Some r →
    equivocation e r.(PublicKey) → evidenceHash tx ∉ R.(rg_evidence) →
    vstep number time tx R [(ShieldedPoolAddress, - r.(Stake))] (addEvidence (putRecord R (slashed r (u64 number))) (evidenceHash tx)).

Context (E : hash → Prop) {Hslots : SlotsDistinct E}.
Context {U : Uint256} {S : Type} {W : WorldState S}.

(** A transaction as the pool hands it over. *)
Record tx_ok (number time : Z) (tx : vtx) : Prop := {
  to_data : bytes_ok tx.(vt_Data);
  to_hash : tx.(vt_Hash) ≠ 0;
  to_evidence : E (evidenceHash tx);
  to_sender a : Sender config number time tx = Some a → is_address a;
}.

(** The balances move by the payments and nobody is overdrawn. *)
Definition paid (st st' : S) (pay : list (address * Z)) : Prop :=
  ∀ b, 0 <= GetBalance st b + credited pay b ∧ GetBalance st' b = (GetBalance st b + credited pay b) mod two256.

Definition refines_step (number time : Z) (tx : vtx) (st : S) (R : Registry) (res : option vError * S) : Prop :=
  match res with
  | (Some _, st') => st' = st
  | (None, st') => ∃ pay R', vstep number time tx R pay R' ∧ holds E st' R' ∧ paid st st' pay ∧ foreign_same st st'
  end.

(** ** Decoded data *)

Lemma payload_ok prefix data p :
  bytes_ok data → payload prefix data = Ok p → bytes_ok p ∧ Z.of_nat (length p) < two64.
Proof.
  intros Hb. unfold payload. destruct (_ || _) eqn:Hg; [done|]. intros [= <-]. apply orb_false_iff in Hg as [_ Hl]. apply Z.ltb_ge in Hl.
  split; [by apply Forall_drop|]. rewrite length_drop. unfold ShieldedV3MaxTxSize, two64 in *. lia.
Qed.

Lemma decodeInto_denote {A} t (of_ : rval → option A) b a :
  wf_type t → bytes_ok b → Z.of_nat (length b) < two64 → decodeInto t of_ b = Ok a →
  ∃ v i, of_ v = Some a ∧ denote t v i ∧ item_ok i.
Proof.
  intros Hw Hb Hl. unfold decodeInto. destruct (DecodeBytes pooled b t) as [v|] eqn:Ed; [|done].
  destruct (of_ v) eqn:Eo; [|done]. intros [= <-]. destruct (DecodeBytes_inv _ _ _ _ Hw Hb Hl Ed) as (i & Hd & Hok & _). eauto.
Qed.

Lemma registration_fields data e :
  bytes_ok data → DecodeValidatorRegistration data = Ok e →
  is_u64 e.(vr_Version) ∧ bytes_ok e.(vr_PublicKey) ∧ is_u64 e.(vr_ActivationHeight).
Proof.
  intros Hb He. apply bind_ok in He as (p & Hp & He). apply (payload_ok _ _ _ Hb) in Hp as [Hpb Hpl].
  apply decodeInto_denote in He as (v & i & Ho & Hd & Hok); [|vm_compute; exact I|done|done].
  cbn [denote registrationType denoteFields] in Hd. destruct Hd as (vs & js & -> & -> & Hd). inversion Hok as [|? Hj _]; subst.
  destruct Hd as [(v1 & vs1 & i1 & js1 & -> & -> & (n1 & -> & -> & Hn1) & Hd)|[? _]]; [|done].
  destruct Hd as [(v2 & vs2 & i2 & js2 & -> & -> & (b2 & -> & ->) & Hd)|[? _]]; [|done].
  destruct Hd as [(v3 & vs3 & i3 & js3 & -> & -> & (b3 & -> & -> & Hl3) & Hd)|[? _]]; [|done].
  destruct Hd as [(v4 & vs4 & i4 & js4 & -> & -> & (n4 & -> & -> & Hn4) & [-> ->])|[? _]]; [|done].
  cbn in Ho. injection Ho as <-. cbn. split_and!; [done| |done].
  apply Forall_inv_tail, Forall_inv in Hj. by inversion Hj.
Qed.
(** ** Payments *)

Lemma paid_nothing st : paid st st [].
Proof. intros b. cbn. pose proof (balance_range st b). rewrite Z.add_0_r, Z.mod_small; lia. Qed.

Lemma paid_same st st1 st' pay : (∀ b, GetBalance st' b = GetBalance st1 b) → paid st st1 pay → paid st st' pay.
Proof. intros Hs Hp b. rewrite Hs. apply Hp. Qed.

Lemma paid_debit st a v : 0 <= v <= GetBalance st a → paid st (SubBalance st a v) [(a, - v)].
Proof.
  intros Hv b. pose proof (balance_range st a). pose proof (balance_range st b). rewrite GetBalance_Sub, u256_sub_spec by lia. cbn.
  case_decide; [subst|]; (split; [lia|]); [f_equal; lia|]. rewrite Z.mod_small; lia.
Qed.

Lemma paid_transfer st a c v : 0 <= v <= GetBalance st a → paid st (AddBalance (SubBalance st a v) c v) [(a, - v); (c, v)].
Proof.
  intros Hv b. pose proof (balance_range st a). pose proof (balance_range st b).
  destruct (paid_debit st a v Hv b) as [H1 H2]. destruct (paid_debit st a v Hv c) as [_ H3]. cbn in H1, H2, H3 |- *.
  rewrite GetBalance_Add, u256_add_spec by lia. split; [repeat case_decide; lia|]. destruct (decide (c = b)) as [->|Hne].
  - rewrite H3, Zplus_mod_idemp_l. f_equal. lia.
  - by rewrite H2.
Qed.

Lemma foreign_debit st a v : foreign_same st (SubBalance st a v).
Proof. split; intros; by ws_simpl. Qed.

Lemma foreign_credit st a v : foreign_same st (AddBalance st a v).
Proof. split; intros; by ws_simpl. Qed.

Lemma holds_balance st st' R : (∀ a k, GetState st' a k = GetState st a k) → holds E st R → holds E st' R.
Proof using keySize_small. intros H. apply holds_same; [done|]. intros k _. apply H. Qed.

(** ** Registration *)

Lemma enveloped_value tx v : enveloped config tx v = true → tx.(vt_Value) = v.
Proof. unfold enveloped. by intros [[[_ _]%andb_prop H%Z.eqb_eq]%andb_prop _]%andb_prop. Qed.

Lemma registration_basics number time tx :
  ValidateValidatorRegistrationBasics config number time tx = Ok () →
  ∃ e from, DecodeValidatorRegistration tx.(vt_Data) = Ok e ∧ Sender config number time tx = Some from
    ∧ tx.(vt_Value) = ValidatorBondWei ∧ pqAddress AlgorithmMLDSA87 e.(vr_PublicKey) = Some from
    ∧ tx.(vt_PQ) = Some (AlgorithmMLDSA87, e.(vr_PublicKey)) ∧ length e.(vr_PublicKey) = MLDSA87PublicKeySize
    ∧ e.(vr_RewardAddress) = from ∧ from ≠ 0.
Proof.
  unfold ValidateValidatorRegistrationBasics. intros H.
  next_guard H Hact. next_guard H Hv. apply negb_false_iff in Hv.
  apply bind_ok in H as (e & He & H). next_guard H Hf.
  destruct (vt_PQ tx) as [[alg key]|]; [|done]. next_guard H Hk. bool_to_prop. subst.
  destruct (pqAddress _ _) as [a|] eqn:Ea; [|done]. destruct (Sender _ _ _ _) as [from|] eqn:Es; [|done].
  apply fail_if_ok in H. bool_to_prop. subst a. exists e, from. split_and!; try done.
  - by apply enveloped_value.
  - by apply Nat.eqb_eq.
  - by subst from.
Qed.

Lemma bonded_spec st R a :
  holds E st R → is_address a → bonded st a = false → ∀ r, R.(rg_records) !! a = Some r → r.(Stake) = 0.
Proof using keySize_small.
  intros H Ha Hb r Hr. unfold bonded in Hb. rewrite (read_some keySize_small E _ _ _ _ H Hr) in Hb. apply Z.ltb_ge in Hb.
  destruct (h_record _ _ _ H a r Hr) as (Hok & _ & _). pose proof (stake_bounds r Hok). lia.
Qed.

Lemma process_registration number time st R tx :
  tx_ok number time tx → holds E st R → refines_step number time tx st R (ProcessValidatorRegistration config number time st tx).
Proof using keySize_small Hslots.
  intros Htx H. unfold ProcessValidatorRegistration.
  destruct (ValidateValidatorRegistrationBasics config number time tx) as [[]|] eqn:Hb; [|done].
  apply registration_basics in Hb as (e & from & He & Hs & Hv & Hp & Hpq & Hk & Hr & H0). rewrite Hs.
  pose proof (to_sender _ _ _ Htx _ Hs) as Hfrom. destruct (registration_fields _ _ (to_data _ _ _ Htx) He) as (Hver & Hkb & Hact).
  destruct (ValidateValidatorRegistrationState st from _ _) as [[]|] eqn:Hst; [|done]. rewrite He.
  unfold ValidateValidatorRegistrationState in Hst. rewrite He in Hst. cbn [mbind result_bind] in Hst.
  next_guard Hst Hbond. next_guard Hst Hfull. apply fail_if_ok in Hst. rewrite (count_queue E _ _ H) in Hfull. bool_to_prop.
  destruct (GetBalance st from <? _) eqn:Hbal; [done|]. apply Z.ltb_ge in Hbal.
  change {| Version := vr_Version e |} with (newRecord e from (u64 number)).
  set (st1 := SubBalance st from ValidatorRegistrationFeeWei). set (r := newRecord e from (u64 number)).
  assert (Hok : record_ok r).
  { split; cbn; try done; [rewrite Hr; done|by right|apply u64_range]. }
  assert (H1 : holds E st1 R) by (apply (holds_balance st); [intros; unfold st1; by ws_simpl|done]).
  destruct (write_record keySize_small E st1 r Hok) as (st2 & -> & Hst2 & Hsame & Hbal2 & Hfor). cbn [Address newRecord] in Hsame.
  assert (Hfee : paid st st1 [(from, - ValidatorRegistrationFeeWei)]) by (apply paid_debit; split; [by vm_compute|done]).
  assert (Hfor' : foreign_same st st2) by (eapply foreign_trans; [apply foreign_debit|done]).
  assert (Hpaid : paid st st2 [(from, - ValidatorRegistrationFeeWei)]) by (by eapply paid_same).
  assert (Hstep : vstep number time tx R [(from, - ValidatorRegistrationFeeWei)] (putRecord R r)).
  { subst r. eapply vstep_register; try done. intros r Hr'. by eapply (bonded_spec st R from). }
  assert (Hc2 : slot st2 KCount = Z.of_nat (length R.(rg_queue))).
  { rewrite Hsame; [apply (h_count _ _ _ H1)|done|unfold of_record; naive_solver]. }
  assert (Hi2 : ∀ i a, rg_queue R !! i = Some a → slot st2 (KIndex (Z.of_nat i)) = a).
  { intros i a Hi. rewrite Hsame; [by apply (h_index _ _ _ H1)| |unfold of_record; naive_solver].
    apply lookup_lt_Some in Hi. cbn. lia. }
  rewrite (count_slot _ _ Hc2) by lia. rewrite Nat2Z.id, (queued_spec _ _ _ Hi2 Hfrom). case_bool_decide as Hin.
  - exists [(from, - ValidatorRegistrationFeeWei)], (putRecord R r). split_and!; try done.
    apply (holds_put keySize_small E st1); [done..|intros; by apply Hsame| | |]; cbn [rg_queue putRecord]; rewrite decide_True by done;
      [by apply h_size in H|done..].
  - rewrite BytesToHash_address by done. set (n := length (rg_queue R)) in *.
    rewrite u64_small, uint64Hash_id by (unfold is_u64, two64, ValidatorMaxSetSize in *; lia).
    exists [(from, - ValidatorRegistrationFeeWei)], (putRecord R r). split; [exact Hstep|].
    assert (Hkn : key_ok E (KIndex (Z.of_nat n))) by (cbn; lia).
    split; [|split; [by eapply paid_same; [|exact Hpaid]; intros b; rewrite !GetBalance_SetState|]].
    2: { eapply foreign_trans; [done|]. eapply foreign_trans; [apply (foreign_set _ (KIndex (Z.of_nat n)))|apply (foreign_set _ KCount)]. }
    change (holds E (setSlot (setSlot st2 (KIndex (Z.of_nat n)) from) KCount (Z.of_nat n + 1)) (putRecord R r)).
    apply (holds_put keySize_small E st1); [done..| | | | |]; cbn [rg_queue putRecord]; rewrite ?decide_False by done; rewrite ?length_app;
      cbn [length].
    + eapply stored_same; [done..| |exact Hst2]. intros k Hkk Ho. rewrite !(slot_set E), !decide_False by (unfold of_record in Ho; naive_solver). done.
    + intros k Hkk Ho Hnc Hni. rewrite !(slot_set E), !decide_False by (done || naive_solver). by apply Hsame.
    + lia.
    + rewrite (slot_set E), decide_True by done. lia.
    + intros i a Hi. assert (Hki : key_ok E (KIndex (Z.of_nat i))).
      { apply lookup_lt_Some in Hi. rewrite length_app in Hi. cbn in *. lia. }
      rewrite !(slot_set E), decide_False by done. apply lookup_snoc_Some in Hi as [[Hi Ha]|[Hi Ha]]; [|by rewrite decide_True by (by rewrite Hi)].
      rewrite decide_False; [by apply Hi2|]. intros [=]. fold n in Hi. lia.
Qed.

(** ** Changing a record *)

Lemma rewrite_record st st1 R r pay :
  holds E st R → r.(Address) ∈ R.(rg_queue) → record_ok r →
  (∀ a k, GetState st1 a k = GetState st a k) → paid st st1 pay → foreign_same st st1 →
  ∃ st', writeValidatorRecord st1 r = (None, st') ∧ holds E st' (putRecord R r) ∧ paid st st' pay ∧ foreign_same st st'.
Proof using keySize_small Hslots.
  intros H Hin Hok Hs Hp Hf. pose proof (holds_balance st st1 R Hs H) as H1.
  destruct (write_record keySize_small E st1 r Hok) as (st2 & Ew & Hst2 & Hsame & Hbal2 & Hfor). exists st2. split; [done|].
  split; [|split; [by eapply paid_same|by eapply foreign_trans]].
  apply (holds_put keySize_small E st1); [done..|intros; by apply Hsame| | |]; cbn [rg_queue putRecord]; rewrite decide_True by done.
  - by apply h_size in H.
  - rewrite Hsame; [apply (h_count _ _ _ H1)|done|unfold of_record; naive_solver].
  - intros i a Hi. rewrite Hsame; [by apply (h_index _ _ _ H1)| |unfold of_record; naive_solver].
    apply lookup_lt_Some in Hi. apply h_size in H. cbn. lia.
Qed.

Lemma withExit_ok r stake h j n :
  record_ok r → stake = 0 ∨ stake = ValidatorBondWei → is_u64 h → is_u64 j → is_u64 n → record_ok (withExit r stake h j n).
Proof. by intros [] ? ? ? ?. Qed.

Lemma exited_ok r h : record_ok r → record_ok (exited r (u64 h)).
Proof. intros H. apply withExit_ok; [done|by apply ro_stake|apply u64_range..|by apply ro_slashes]. Qed.

Lemma withdrawn_ok r h : record_ok r → record_ok (withdrawn r (u64 h)).
Proof. intros H. apply withExit_ok; [done|by left|apply u64_range..|by apply ro_slashes]. Qed.

Lemma slashed_ok r h : record_ok r → record_ok (slashed r (u64 h)).
Proof. intros H. apply withExit_ok; [done|by left|apply u64_range..]. Qed.

(** A record of the registry, found by reading. *)
Lemma read_inv st R a r :
  holds E st R → is_address a → readValidatorRecord st a = Ok r →
  R.(rg_records) !! a = Some r ∧ record_ok r ∧ r.(Address) = a ∧ a ∈ R.(rg_queue).
Proof using keySize_small.
  intros H Ha Hr. destruct (rg_records R !! a) as [r'|] eqn:Er.
  - rewrite (read_some keySize_small E _ _ _ _ H Er) in Hr. injection Hr as ->. destruct (h_record _ _ _ H a r Er) as (Hok & He & _).
    split_and!; [done..|]. apply (h_dom _ _ _ H). by exists r.
  - by rewrite (read_none E _ _ _ H Ha Er) in Hr.
Qed.

Lemma action_basics number time tx :
  ValidateValidatorActionBasics config number time tx = Ok () → tx.(vt_Value) = 0.
Proof.
  unfold ValidateValidatorActionBasics. intros H. next_guard H Ha. next_guard H Hv. apply negb_false_iff in Hv. by apply enveloped_value.
Qed.

Lemma process_action number time st R tx :
  tx_ok number time tx → holds E st R → refines_step number time tx st R (ProcessValidatorAction config number time st tx).
Proof using keySize_small Hslots.
  intros Htx H. unfold ProcessValidatorAction.
  destruct (ValidateValidatorActionBasics config number time tx) as [[]|] eqn:Hb; [|done]. apply action_basics in Hb.
  destruct (Sender config number time tx) as [from|] eqn:Hs; [|done]. pose proof (to_sender _ _ _ Htx _ Hs) as Hfrom.
  destruct (ValidateValidatorActionState st from _ _) as [[]|] eqn:Hst; [|done]. unfold ValidateValidatorActionState in Hst.
  destruct (readValidatorRecord st from) as [r|] eqn:Hr; [|done].
  destruct (read_inv _ _ _ _ H Hfrom Hr) as (HR & Hok & Ha & Hin). pose proof (stake_bounds r Hok) as Hstake.
  destruct (bool_decide (snd <$> _ = _)) eqn:Hpk; [|done]. apply bool_decide_eq_true in Hpk. cbn [negb].
  pose proof (u64_range number) as Hu. destruct (HasValidatorExitPrefix (vt_Data tx)) eqn:Hx.
  - apply fail_if_ok in Hst. bool_to_prop.
    destruct (rewrite_record st st R (exited r (u64 number)) []) as (st' & Ew & Hh & Hp & Hf);
      [done|by rewrite <- Ha in Hin|by apply exited_ok|done|apply paid_nothing|done|].
    unfold exited in Ew. rewrite Ew. exists [], (putRecord R (exited r (u64 number))). split; [|done].
    eapply vstep_exit; try done. lia.
  - destruct (HasValidatorWithdrawalPrefix (vt_Data tx)) eqn:Hwd; [|done]. apply fail_if_ok in Hst. bool_to_prop.
    destruct (GetBalance st ShieldedPoolAddress <? _) eqn:Hbal; [done|]. apply Z.ltb_ge in Hbal.
    destruct (rewrite_record st (AddBalance (SubBalance st ShieldedPoolAddress r.(Stake)) from r.(Stake)) R (withdrawn r (u64 number))
        [(ShieldedPoolAddress, - r.(Stake)); (from, r.(Stake))]) as (st' & Ew & Hh & Hp & Hf);
      [done|by rewrite <- Ha in Hin|by apply withdrawn_ok|intros; by ws_simpl|
       apply paid_transfer; lia|eapply foreign_trans; [apply foreign_debit|apply foreign_credit]|].
    unfold withdrawn in Ew. rewrite Ew. eexists _, (putRecord R (withdrawn r (u64 number))). split; [|done].
    eapply vstep_withdraw; try done. lia.
Qed.

(** ** Slashing *)

Lemma slash_fields data e : bytes_ok data → DecodeValidatorSlash data = Ok e → is_address e.(ve_Validator).
Proof.
  intros Hb He. apply bind_ok in He as (p & Hp & He). apply (payload_ok _ _ _ Hb) in Hp as [Hpb Hpl].
  apply decodeInto_denote in He as (v & i & Ho & Hd & Hok); [|vm_compute; exact I|done|done].
  unfold evidenceOf in Ho. cbn [denote evidenceType] in Hd. destruct Hd as (vs & js & -> & -> & Hd). cbn [denoteFields] in Hd.
  destruct Hd as [(v1 & vs1 & i1 & js1 & -> & -> & _ & Hd)|[? _]]; [|done].
  destruct Hd as [(v2 & vs2 & i2 & js2 & -> & -> & (b2 & -> & -> & Hl2) & Hd)|[? _]]; [|done].
  inversion Hok as [|? Hj _]; subst. apply Forall_inv_tail, Forall_inv in Hj. inversion Hj as [? Hb2 _|]; subst.
  assert (is_address (be_value b2)).
  { pose proof (be_value_bound b2 Hb2) as Hbd. rewrite Hl2 in Hbd. exact Hbd. }
  clear Hd Hok. repeat case_match; simplify_eq. done.
Qed.

Lemma slash_basics number time tx e :
  ValidateValidatorSlashBasics config number time tx = Ok () → DecodeValidatorSlash tx.(vt_Data) = Ok e →
  tx.(vt_Value) = 0 ∧ equivocation e e.(ve_PublicKey).
Proof.
  unfold ValidateValidatorSlashBasics. intros H He. next_guard H Ha. next_guard H Hv. apply negb_false_iff, enveloped_value in Hv.
  rewrite He in H. cbn [mbind result_bind] in H. next_guard H H1. next_guard H H2. next_guard H H3. apply fail_if_ok in H.
  bool_to_prop. by split_and!.
Qed.

Lemma process_slash number time st R tx :
  tx_ok number time tx → holds E st R → refines_step number time tx st R (ProcessValidatorSlash config number time st tx).
Proof using keySize_small Hslots.
  intros Htx H. unfold ProcessValidatorSlash.
  destruct (ValidateValidatorSlashBasics config number time tx) as [[]|] eqn:Hb; [|done].
  destruct (DecodeValidatorSlash (vt_Data tx)) as [e|] eqn:He; [|done]. destruct (slash_basics _ _ _ _ Hb He) as [Hv Heq].
  destruct (readValidatorRecord st (ve_Validator e)) as [r|] eqn:Hr; [|done].
  destruct (read_inv _ _ _ _ H (slash_fields _ _ (to_data _ _ _ Htx) He) Hr) as (HR & Hok & Ha & Hin).
  pose proof (stake_bounds r Hok) as Hstake. destruct (bool_decide (PublicKey r = _)) eqn:Hpk; [|done].
  apply bool_decide_eq_true in Hpk. cbn [negb]. rewrite <- Hpk in Heq.
  change (GetState st ShieldedPoolAddress (validatorEvidenceSlot (evidenceHash tx))) with (slot st (KEvidence (evidenceHash tx))).
  destruct (Z.eqb_spec (slot st (KEvidence (evidenceHash tx))) zeroHash) as [Hz|]; [|done]. cbn [negb].
  assert (Hnew : evidenceHash tx ∉ R.(rg_evidence)).
  { rewrite <- (h_evidence _ _ _ H); [by intros []|by apply to_evidence in Htx]. }
  destruct ((0 <? Stake r) && _) eqn:Hg; [done|].
  set (st1 := if 0 <? Stake r then _ else st).
  assert (H1 : (∀ a k, GetState st1 a k = GetState st a k) ∧ paid st st1 [(ShieldedPoolAddress, - r.(Stake))] ∧ foreign_same st st1).
  { subst st1. destruct (0 <? Stake r) eqn:Hpos; cbn [andb] in Hg; bool_to_prop.
    - split_and!; [intros; by ws_simpl|apply paid_debit; lia|apply foreign_debit].
    - split_and!; [done| |done]. intros b. cbn. pose proof (paid_nothing st b) as Hn. cbn in Hn. replace (Stake r) with 0 by lia. by case_decide. }
  destruct H1 as (Hs1 & Hp1 & Hf1).
  destruct (rewrite_record st st1 R (slashed r (u64 number)) [(ShieldedPoolAddress, - r.(Stake))] H) as (st' & Ew & Hh & Hp & Hf);
    [by rewrite <- Ha in Hin|by apply slashed_ok|done..|].
  unfold slashed in Ew. rewrite Ew. eexists _, (addEvidence (putRecord R (slashed r (u64 number))) (evidenceHash tx)).
  split; [by eapply vstep_slash|]. split; [|split; [eapply paid_same; [|exact Hp]; intros b; by rewrite GetBalance_SetState|]].
  - apply (holds_evidence keySize_small E); [done|by apply to_evidence in Htx|by apply to_hash in Htx].
  - eapply foreign_trans; [done|apply (foreign_set _ (KEvidence (evidenceHash tx)))].
Qed.

(** ** Dispatch *)

(** Two magic strings differ at a position that both have. *)
Lemma prefix_excl data p q : has_prefix data p = true → has_prefix p q || has_prefix q p = false → has_prefix data q = false.
Proof.
  revert p q. induction data as [|c data IH]; intros [|x p] [|y q] Hp Hn; try done; cbn [has_prefix] in *.
  apply andb_prop in Hp as [Hx%Z.eqb_eq Hp]. subst x. destruct (Z.eqb_spec y c) as [->|Hne]; [|done]. cbn [andb] in *.
  rewrite Z.eqb_refl in Hn. cbn [andb] in Hn. by eapply IH.
Qed.

(** At most one handler runs: the one of the envelope's kind. *)
Lemma dispatch number time st tx :
  processValidatorEnvelope config number time st tx =
    if negb (ChainConfig.IsAntartical config number time) then (None, st)
    else if HasValidatorRegistrationPrefix tx.(vt_Data) then ProcessValidatorRegistration config number time st tx
    else if HasValidatorSlashPrefix tx.(vt_Data) then ProcessValidatorSlash config number time st tx
    else if HasValidatorExitPrefix tx.(vt_Data) || HasValidatorWithdrawalPrefix tx.(vt_Data)
    then ProcessValidatorAction config number time st tx
    else (None, st).
Proof.
  unfold processValidatorEnvelope. destruct (ChainConfig.IsAntartical config number time); cbn [andb negb guarded]; [|done].
  unfold HasValidatorRegistrationPrefix, HasValidatorSlashPrefix, HasValidatorExitPrefix, HasValidatorWithdrawalPrefix.
  destruct (has_prefix (vt_Data tx) ValidatorRegistrationMagic) eqn:Hr.
  { rewrite !(prefix_excl _ _ _ Hr) by (by vm_compute). cbn [orb]. by destruct (ProcessValidatorRegistration _ _ _ _ _) as [[]]. }
  destruct (has_prefix (vt_Data tx) ValidatorSlashMagic) eqn:Hs; cbn [guarded].
  { rewrite !(prefix_excl _ _ _ Hs) by (by vm_compute). cbn [orb]. by destruct (ProcessValidatorSlash _ _ _ _ _) as [[]]. }
  done.
Qed.

Lemma process_refines number time st R tx :
  tx_ok number time tx → holds E st R →
  let res := processValidatorEnvelope config number time st tx in
  if ChainConfig.IsAntartical config number time && isValidatorProtocolEnvelope tx.(vt_Data)
  then refines_step number time tx st R res else res = (None, st).
Proof using keySize_small Hslots.
  intros Htx H res. subst res. rewrite dispatch. unfold isValidatorProtocolEnvelope. destruct (ChainConfig.IsAntartical _ _ _); [|done].
  cbn [andb negb]. destruct (HasValidatorRegistrationPrefix _); cbn [orb]; [by apply process_registration|].
  destruct (HasValidatorSlashPrefix _); cbn [orb]; [by apply process_slash|].
  destruct (HasValidatorExitPrefix _ || HasValidatorWithdrawalPrefix _); [by apply process_action|done].
Qed.

(** C9: The validator handlers implement the registry.  Whatever the storage
    holds for a registry, processing a transaction that is no active validator
    envelope changes nothing, a refused envelope changes nothing, and an accepted
    one is one of the four authorised steps: the storage then holds the registry
    after the step, the balances moved by exactly the fee, the withdrawn or the
    burnt bond without overdrawing anyone, and nonces and the storage of other
    accounts are as before.  Assumes that SHA-512 gives the keys in use different
    slots and that a record fits its chunks. *)
Theorem registry_refines number time st R tx :
  tx_ok number time tx → holds E st R →
  match processValidatorEnvelope config number time st tx with
  | (Some _, st') => st' = st
  | (None, st') =>
      if ChainConfig.IsAntartical config number time && isValidatorProtocolEnvelope tx.(vt_Data)
      then ∃ pay R', vstep number time tx R pay R' ∧ holds E st' R' ∧ paid st st' pay ∧ foreign_same st st'
      else st' = st
  end.
Proof using keySize_small Hslots.
  intros Htx H. pose proof (process_refines number time st R tx Htx H) as Hr. cbv zeta in Hr.
  destruct (_ && _); [exact Hr|]. by rewrite Hr.
Qed.

(** ** Bonds *)

Definition stakeOf (R : Registry) (a : address) : Z := from_option Stake 0 (R.(rg_records) !! a).

(** What the registry owes its validators. *)
Definition bondsOf (R : Registry) : Z := zsum (stakeOf R) R.(rg_queue).

Lemma zsum_update (f g : Z → Z) (l : list Z) a :
  NoDup l → a ∈ l → (∀ b, b ≠ a → g b = f b) → zsum g l = zsum f l - f a + g a.
Proof.
  intros Hn. induction Hn as [|x l Hx Hn IH]; intros Ha Hg; [by apply elem_of_nil in Ha|]. rewrite !zsum_cons.
  apply elem_of_cons in Ha as [->|Ha].
  - assert (He : zsum g l = zsum f l); [|lia]. clear -Hx Hg. induction l as [|y l IH]; [done|]. rewrite !zsum_cons.
    rewrite Hg, IH; set_solver.
  - rewrite IH by done. assert (x ≠ a) by (by intros ->). rewrite (Hg x) by done. lia.
Qed.

Lemma bonds_put st R r :
  holds E st R → bondsOf (putRecord R r) = bondsOf R - stakeOf R r.(Address) + r.(Stake).
Proof.
  intros H. assert (Hs : ∀ b, stakeOf (putRecord R r) b = if decide (r.(Address) = b) then r.(Stake) else stakeOf R b).
  { intros b. unfold stakeOf. cbn. rewrite lookup_insert. by case_decide. }
  assert (Hu : ∀ q, NoDup q → r.(Address) ∈ q → zsum (stakeOf (putRecord R r)) q = zsum (stakeOf R) q - stakeOf R r.(Address) + r.(Stake)).
  { intros q Hq Hin. rewrite (zsum_update (stakeOf R) _ q r.(Address)); [|done|done|].
    - by rewrite (Hs (Address r)), decide_True.
    - intros b Hb. by rewrite Hs, decide_False. }
  unfold bondsOf. cbn [rg_queue putRecord]. case_decide as Hin; [apply Hu; [by apply (h_nodup _ _ _ H)|done]|].
  assert (Hz : stakeOf R r.(Address) = 0).
  { unfold stakeOf. destruct (rg_records R !! Address r) eqn:Er; [|done]. exfalso. apply Hin, (h_dom _ _ _ H). by rewrite Er. }
  rewrite Hu, zsum_app; [cbn; lia| |set_solver].
  apply NoDup_app. split_and!; [by apply (h_nodup _ _ _ H)|set_solver|apply NoDup_singleton].
Qed.

(** An account of the registry has a stake and the others have none. *)
Lemma bonds_member st R a r : holds E st R → R.(rg_records) !! a = Some r → 0 <= r.(Stake) <= bondsOf R.
Proof.
  intros H Hr. destruct (h_record _ _ _ H a r Hr) as (Hok & Ha & _). pose proof (stake_bounds r Hok).
  assert (Hin : a ∈ R.(rg_queue)) by (apply (h_dom _ _ _ H); by exists r).
  assert (Hn : ∀ b, 0 <= stakeOf R b).
  { intros b. unfold stakeOf. destruct (rg_records R !! b) as [r'|] eqn:Eb; cbn; [|lia].
    destruct (h_record _ _ _ H b r' Eb) as (Hok' & _). pose proof (stake_bounds r' Hok'). lia. }
  assert (He : stakeOf R a = Stake r) by (unfold stakeOf; by rewrite Hr).
  split; [lia|]. rewrite <- He. unfold bondsOf. clear -Hin Hn. induction (rg_queue R) as [|x q IH]; [by apply elem_of_nil in Hin|].
  rewrite zsum_cons. pose proof (zsum_nonneg (stakeOf R) q (λ y _, Hn y)). pose proof (Hn x).
  apply elem_of_cons in Hin as [->|Hin]; [lia|]. specialize (IH Hin). lia.
Qed.

(** ** The chain around the registry *)

(** What the execution of a transaction does before its handler runs: the value
    of the transaction reaches the pool. *)
Definition deposited (tx : vtx) (st st1 : S) : Prop :=
  same_slots E st st1 ∧ GetBalance st1 ShieldedPoolAddress = GetBalance st ShieldedPoolAddress + tx.(vt_Value).

(** What other steps may do to the pool: never draw on it, or leave at least the bonds,
    if it held them. *)
Definition undrawn (st st' : S) : Prop := GetBalance st ShieldedPoolAddress <= GetBalance st' ShieldedPoolAddress.
Definition covering (st st' : S) : Prop :=
  ∀ R, holds E st R → bondsOf R <= GetBalance st ShieldedPoolAddress → bondsOf R <= GetBalance st' ShieldedPoolAddress.

(** One step of the chain that leaves the bond of [spared] alone: an accepted
    envelope, or anything else that does not write the slots of the registry and
    treats the pool as [env] says. *)
Inductive chain_step (env : S → S → Prop) (spared : address → Prop) (st st' : S) : Prop :=
| chain_env : same_slots E st st' → env st st' → chain_step env spared st st'
| chain_envelope number time tx st1 :
    tx_ok number time tx → Sender config number time tx ≠ Some ShieldedPoolAddress → deposited tx st st1 →
    ChainConfig.IsAntartical config number time = true → isValidatorProtocolEnvelope tx.(vt_Data) = true →
    processValidatorEnvelope config number time st1 tx = (None, st') →
    (∀ e, DecodeValidatorSlash tx.(vt_Data) = Ok e → ¬ spared e.(ve_Validator)) →
    (∀ a, HasValidatorWithdrawalPrefix tx.(vt_Data) = true → Sender config number time tx = Some a → ¬ spared a) →
    chain_step env spared st st'.

(** The registry and the reserve behind it. *)
Definition backed (st : S) (R : Registry) : Prop := holds E st R ∧ bondsOf R <= GetBalance st ShieldedPoolAddress.

(** The accounts in [spared] are bonded and have exited, or have no business here. *)
Definition keeps (spared : address → Prop) (R R' : Registry) : Prop :=
  ∀ a r, spared a → R.(rg_records) !! a = Some r → 0 < r.(Stake) → r.(ExitHeight) ≠ 0 → R'.(rg_records) !! a = Some r.

Lemma chain_step_backed spared st st' R :
  backed st R → chain_step covering spared st st' → ∃ R', backed st' R' ∧ keeps spared R R'.
Proof using keySize_small Hslots.
  intros [H Hb] [Hs Hle|number time tx st1 Htx Hsend [Hs Hdep] Ha He Hp Hsl Hwd].
  { exists R. split; [|by intros a]. split; [by eapply holds_same|by apply Hle]. }
  assert (H1 : holds E st1 R) by (by eapply holds_same).
  pose proof (process_refines number time st1 R tx Htx H1) as Hr. cbv zeta in Hr. rewrite Ha, He, Hp in Hr. cbn [andb refines_step] in Hr.
  destruct Hr as (pay & R' & Hstep & Hh & Hpay & _). exists R'. destruct (Hpay ShieldedPoolAddress) as [Hge Hbal].
  pose proof (balance_range st1 ShieldedPoolAddress) as Hrng. unfold backed.
  destruct Hstep as [from e Hd Hv Hsn _ _ _ Hz _ _|from r Hx Hv Hsn Hrec _ _ Hex|from r Hx Hv Hsn Hrec _ Hpos _ _|e r Hd Hv Hrec _ Hnew];
    cbn [credited foldr] in Hge, Hbal.
  - rewrite decide_False in Hge, Hbal by congruence. rewrite Z.mod_small in Hbal by lia. split; [split; [done|]|].
    + rewrite (bonds_put st1) by done. cbn [Address newRecord Stake]. assert (stakeOf R from = 0); [|lia].
      unfold stakeOf. destruct (rg_records R !! from) eqn:Er; [by apply Hz|done].
    + intros a r Hsp Hr Hpos Hexit. cbn. rewrite lookup_insert_ne; [done|]. intros <-. apply Hz in Hr. lia.
  - rewrite Z.mod_small in Hbal by lia. destruct (h_record _ _ _ H1 from r Hrec) as (_ & Hadr & _). split; [split; [done|]|].
    + rewrite (bonds_put st1) by done. cbn. unfold stakeOf. rewrite Hadr, Hrec. cbn. lia.
    + intros a r' Hsp Hr _ Hexit. cbn. rewrite lookup_insert_ne; [done|]. rewrite Hadr. intros <-. congruence.
  - destruct (h_record _ _ _ H1 from r Hrec) as (_ & Hadr & _). rewrite decide_True, decide_False in Hge, Hbal by congruence.
    rewrite Z.mod_small in Hbal by lia. split; [split; [done|]|].
    + rewrite (bonds_put st1) by done. cbn. unfold stakeOf. rewrite Hadr, Hrec. cbn. lia.
    + intros a r' Hsp Hr _ _. cbn. rewrite lookup_insert_ne; [done|]. rewrite Hadr. intros <-. by eapply (Hwd from).
  - destruct (h_record _ _ _ H1 _ r Hrec) as (Hok & Hadr & _). pose proof (stake_bounds r Hok). rewrite decide_True in Hge, Hbal by done.
    rewrite Z.mod_small in Hbal by lia. split; [split; [done|]|].
    + change (bondsOf (addEvidence ?R' _)) with (bondsOf R'). rewrite (bonds_put st1) by done. cbn. unfold stakeOf. rewrite Hadr, Hrec. cbn. lia.
    + intros a r' Hsp Hr _ _. cbn. rewrite lookup_insert_ne; [done|]. rewrite Hadr. intros <-. by eapply Hsl.
Qed.

Lemma chain_backed spared st st' R :
  backed st R → rtc (chain_step covering spared) st st' → ∃ R', backed st' R' ∧ keeps spared R R'.
Proof using keySize_small Hslots.
  intros Hb Hr. revert R Hb. induction Hr as [st|st st1 st' Hs _ IH]; intros R Hb; [exists R; by split; [|intros a]|].
  destruct (chain_step_backed _ _ _ _ Hb Hs) as (R1 & Hb1 & K1). destruct (IH R1 Hb1) as (R2 & Hb2 & K2). exists R2. split; [done|].
  intros a r Hsp Hr Hpos Hex. apply K2; [done|by apply K1|done..].
Qed.

Lemma undrawn_covering spared st st' : rtc (chain_step undrawn spared) st st' → rtc (chain_step covering spared) st st'.
Proof.
  apply rtc_subrel. clear st st'. intros st st' [Hs Hle|number time tx st1 ? ? ? ? ? ? ? ?]; [|by eapply chain_envelope].
  apply chain_env; [done|]. intros R _ Hb. unfold undrawn in Hle. lia.
Qed.

(** C35: Bonds are backed.  From a chain without validators, whatever
    registrations, exits, withdrawals and slashes were accepted, mixed with any
    other transactions that leave the registry's slots alone and do not draw on
    the pool, the storage holds a registry and the pool owns at least the sum of
    the bonds of its validators. *)
Theorem bonds_backed st st' :
  (∀ k, key_ok E k → slot st k = 0) → rtc (chain_step undrawn (λ _, False)) st st' →
  ∃ R, holds E st' R ∧ bondsOf R <= GetBalance st' ShieldedPoolAddress.
Proof using keySize_small Hslots.
  intros Hz Hr%undrawn_covering. destruct (chain_backed (λ _, False) st st' emptyRegistry) as (R & Hb & _); [|done|by exists R].
  split; [by apply holds_empty|]. apply balance_range.
Qed.

(** An exit or a withdrawal the account [a] signed with [key]. *)
Record action_tx (magic : bytes) (number time : Z) (tx : vtx) (a : address) (key : bytes) : Prop := {
  at_ok : tx_ok number time tx;
  at_active : ChainConfig.IsAntartical config number time = true;
  at_envelope : enveloped config tx 0 = true;
  at_key : tx.(vt_PQ) = Some (AlgorithmMLDSA87, key);
  at_data : ∃ v, decodeValidatorAction tx.(vt_Data) magic = Ok v;
  at_sender : Sender config number time tx = Some a;
}.

Lemma action_prefix data magic v : decodeValidatorAction data magic = Ok v → has_prefix data magic = true.
Proof.
  unfold decodeValidatorAction, payload. destruct (has_prefix data magic); [done|]. cbn. done.
Qed.

Lemma exit_dispatch number time st tx a key :
  action_tx ValidatorExitMagic number time tx a key →
  HasValidatorExitPrefix tx.(vt_Data) = true
  ∧ processValidatorEnvelope config number time st tx = ProcessValidatorAction config number time st tx.
Proof.
  intros [_ Hact _ _ [v Hv] _]. apply action_prefix in Hv. split; [done|]. rewrite dispatch, Hact. cbn [negb].
  unfold HasValidatorRegistrationPrefix, HasValidatorSlashPrefix. rewrite !(prefix_excl _ _ _ Hv) by (by vm_compute).
  unfold HasValidatorExitPrefix. by rewrite Hv.
Qed.

Lemma withdrawal_dispatch number time st tx a key :
  action_tx ValidatorWithdrawalMagic number time tx a key →
  HasValidatorExitPrefix tx.(vt_Data) = false ∧ HasValidatorWithdrawalPrefix tx.(vt_Data) = true
  ∧ processValidatorEnvelope config number time st tx = ProcessValidatorAction config number time st tx.
Proof.
  intros [_ Hact _ _ [v Hv] _]. apply action_prefix in Hv. split; [by apply (prefix_excl _ _ _ Hv)|]. split; [done|]. rewrite dispatch, Hact. cbn [negb].
  unfold HasValidatorRegistrationPrefix, HasValidatorSlashPrefix. rewrite !(prefix_excl _ _ _ Hv) by (by vm_compute).
  unfold HasValidatorWithdrawalPrefix. by rewrite Hv, orb_true_r.
Qed.

Lemma action_basics_ok magic number time tx a key :
  action_tx magic number time tx a key → magic = ValidatorExitMagic ∨ magic = ValidatorWithdrawalMagic →
  length key = MLDSA87PublicKeySize → ValidateValidatorActionBasics config number time tx = Ok ().
Proof.
  intros [_ Hact Henv Hkey [v Hv] _] Hm Hl. unfold ValidateValidatorActionBasics. rewrite Hact, Henv, Hkey. cbn [negb fail_if mbind result_bind].
  rewrite bool_decide_true, Hl, Nat.eqb_refl by done. cbn [negb orb fail_if mbind result_bind].
  pose proof (action_prefix _ _ _ Hv) as Hp. destruct Hm as [-> | ->].
  - unfold HasValidatorExitPrefix, DecodeValidatorExit. by rewrite Hp, Hv.
  - unfold HasValidatorExitPrefix, HasValidatorWithdrawalPrefix, DecodeValidatorWithdrawal.
    rewrite (prefix_excl _ _ ValidatorExitMagic Hp) by (by vm_compute). by rewrite Hp, Hv.
Qed.

Lemma exit_succeeds number time st R tx a r :
  holds E st R → R.(rg_records) !! a = Some r → 0 < r.(Stake) → r.(ExitHeight) = 0 →
  action_tx ValidatorExitMagic number time tx a r.(PublicKey) →
  ∃ st', processValidatorEnvelope config number time st tx = (None, st') ∧ holds E st' (putRecord R (exited r (u64 number)))
    ∧ (∀ b, GetBalance st' b = GetBalance st b).
Proof using keySize_small Hslots.
  intros H Hr Hpos Hex Hat. destruct (h_record _ _ _ H a r Hr) as (Hok & Hadr & _).
  destruct (exit_dispatch _ _ st _ _ _ Hat) as [Hx ->]. unfold ProcessValidatorAction.
  rewrite (action_basics_ok _ _ _ _ _ _ Hat) by (auto; apply (ro_key r Hok)). rewrite (at_sender _ _ _ _ _ _ Hat).
  unfold ValidateValidatorActionState. rewrite (read_some keySize_small E _ _ _ _ H Hr), Hx.
  rewrite (proj2 (Z.eqb_neq (Stake r) 0)), Hex by lia. cbn [orb negb Z.eqb fail_if]. rewrite (at_key _ _ _ _ _ _ Hat). cbn [fmap option_fmap option_map snd].
  rewrite bool_decide_true by done. cbn [negb].
  destruct (rewrite_record st st R (exited r (u64 number)) []) as (st' & Ew & Hh & Hp & _);
    [done|apply (h_dom _ _ _ H); cbn; rewrite Hadr; by exists r|by apply exited_ok|done|apply paid_nothing|done|].
  exists st'. split; [done|]. split; [done|]. intros b. destruct (Hp b) as [_ ->]. cbn. rewrite Z.add_0_r. apply Z.mod_small, balance_range.
Qed.

Lemma withdrawal_succeeds number time st R tx a r :
  backed st R → R.(rg_records) !! a = Some r → 0 < r.(Stake) → r.(ExitHeight) ≠ 0 →
  r.(ExitHeight) +₆₄ ValidatorUnbondingPeriod <= u64 number →
  action_tx ValidatorWithdrawalMagic number time tx a r.(PublicKey) →
  ∃ st', processValidatorEnvelope config number time st tx = (None, st') ∧ holds E st' (putRecord R (withdrawn r (u64 number)))
    ∧ paid st st' [(ShieldedPoolAddress, - r.(Stake)); (a, r.(Stake))].
Proof using keySize_small Hslots.
  intros [H Hb] Hr Hpos Hex Hdue Hat. destruct (h_record _ _ _ H a r Hr) as (Hok & Hadr & _). pose proof (bonds_member _ _ _ _ H Hr) as Hmem.
  destruct (withdrawal_dispatch _ _ st _ _ _ Hat) as (Hx & Hw & ->). unfold ProcessValidatorAction.
  rewrite (action_basics_ok _ _ _ _ _ _ Hat) by (auto; apply (ro_key r Hok)). rewrite (at_sender _ _ _ _ _ _ Hat).
  unfold ValidateValidatorActionState. rewrite (read_some keySize_small E _ _ _ _ H Hr), Hx, Hw.
  rewrite (proj2 (Z.eqb_neq (Stake r) 0)), (proj2 (Z.eqb_neq (ExitHeight r) 0)), (proj2 (Z.ltb_ge _ _) Hdue) by lia.
  cbn [orb fail_if]. rewrite (at_key _ _ _ _ _ _ Hat). cbn [fmap option_fmap option_map snd].
  rewrite bool_decide_true, (proj2 (Z.ltb_ge _ _)) by (done || lia). cbn [negb].
  destruct (rewrite_record st (AddBalance (SubBalance st ShieldedPoolAddress r.(Stake)) a r.(Stake)) R (withdrawn r (u64 number))
      [(ShieldedPoolAddress, - r.(Stake)); (a, r.(Stake))]) as (st' & Ew & Hh & Hp & _);
    [done|apply (h_dom _ _ _ H); cbn; rewrite Hadr; by exists r|by apply withdrawn_ok|intros; by ws_simpl|apply paid_transfer; lia|
     eapply foreign_trans; [apply foreign_debit|apply foreign_credit]|].
  by exists st'.
Qed.

(** C34: A validator gets its bond back.  While the bonds are backed, a registered
    validator that has not exited can exit; from then on, through any accepted
    envelopes of the registry that neither slash the validator nor draw its bond, and
    any other steps that leave the slots of the registry alone and the bonds covered by
    the money of the pool, its withdrawal is accepted at every height after the
    unbonding period and pays the whole bond out of the pool. *)
Theorem validator_bond_withdrawable st R a r n1 t1 tx1 :
  backed st R → R.(rg_records) !! a = Some r → 0 < r.(Stake) → r.(ExitHeight) = 0 →
  a ≠ ShieldedPoolAddress → u64 n1 ≠ 0 → action_tx ValidatorExitMagic n1 t1 tx1 a r.(PublicKey) →
  ∃ st1, processValidatorEnvelope config n1 t1 st tx1 = (None, st1) ∧
    ∀ st2 n2 t2 tx2, rtc (chain_step covering (λ b, b = a)) st1 st2 →
      u64 n1 +₆₄ ValidatorUnbondingPeriod <= u64 n2 → action_tx ValidatorWithdrawalMagic n2 t2 tx2 a r.(PublicKey) →
      ∃ st3, processValidatorEnvelope config n2 t2 st2 tx2 = (None, st3)
        ∧ GetBalance st3 a = (GetBalance st2 a + r.(Stake)) mod two256
        ∧ GetBalance st3 ShieldedPoolAddress = GetBalance st2 ShieldedPoolAddress - r.(Stake).
Proof using keySize_small Hslots.
  intros [H Hb] Hr Hpos Hex Hpool Hn1 Hat. destruct (h_record _ _ _ H a r Hr) as (_ & Hadr & _).
  destruct (exit_succeeds _ _ _ _ _ _ _ H Hr Hpos Hex Hat) as (st1 & Ep & Hh & Hbal). exists st1. split; [done|].
  intros st2 n2 t2 tx2 Hrun Hdue Hat2. set (R1 := putRecord R (exited r (u64 n1))) in *.
  assert (Hb1 : backed st1 R1).
  { split; [done|]. subst R1. rewrite (bonds_put st), Hbal by done. cbn. unfold stakeOf. rewrite Hadr, Hr. cbn. lia. }
  assert (Hr1 : R1.(rg_records) !! a = Some (exited r (u64 n1))) by (subst R1; cbn; by rewrite Hadr, lookup_insert_eq).
  destruct (chain_backed _ _ _ _ Hb1 Hrun) as (R2 & Hb2 & K2). pose proof (K2 a _ eq_refl Hr1 Hpos Hn1) as Hr2.
  destruct (withdrawal_succeeds n2 t2 st2 R2 tx2 a _ Hb2 Hr2 Hpos Hn1 Hdue Hat2) as (st3 & Ep3 & _ & Hp). exists st3. split; [done|].
  destruct (Hp a) as [_ Ha]. destruct (Hp ShieldedPoolAddress) as [Hge Hpl]. cbn in Ha, Hge, Hpl.
  pose proof (balance_range st2 ShieldedPoolAddress). destruct (bonds_member _ _ _ _ (proj1 Hb2) Hr2) as [_ Hm].
  rewrite decide_False, decide_True in Ha by congruence. rewrite decide_True, decide_False in Hge, Hpl by congruence. cbn in Hm, Ha, Hge, Hpl.
  split; [rewrite Ha; f_equal; lia|]. rewrite Hpl, Z.mod_small by lia. lia.
Qed.

(** ** Selection *)

Lemma records_queue st R : holds E st R → ValidatorRecords st = Ok (omap (λ a, R.(rg_records) !! a) R.(rg_queue)).
Proof using keySize_small.
  intros H. unfold ValidatorRecords. rewrite (count_queue E _ _ H). rewrite (proj2 (Z.ltb_ge _ _)) by (apply (h_size _ _ _ H)).
  rewrite Nat2Z.id. assert (Hg : ∀ q n, (∀ i a, q !! i = Some a → slot st (KIndex (Z.of_nat (n + i))) = a ∧ a ∈ R.(rg_queue)) →
    readQueue st (length q) (Z.of_nat n) = Ok (omap (λ a, R.(rg_records) !! a) q)).
  { induction q as [|a q IH]; intros n Hi; cbn [length readQueue]; [done|].
    change (GetState st ShieldedPoolAddress (validatorIndexSlot (Z.of_nat n))) with (slot st (KIndex (Z.of_nat n))).
    destruct (Hi 0%nat a eq_refl) as [H0 Hin]. rewrite Nat.add_0_r in H0. rewrite H0.
    destruct (queue_address E _ _ _ H Hin) as [Ha Hnz]. rewrite (proj2 (Z.eqb_neq a zeroHash)) by done.
    rewrite BytesToAddress_hash by done. apply (h_dom _ _ _ H) in Hin as [r Hr]. rewrite (read_some keySize_small E _ _ _ _ H Hr).
    cbn [mbind result_bind]. replace (Z.of_nat n + 1) with (Z.of_nat (Datatypes.S n)) by (clear; lia). rewrite IH.
    - cbn [mbind result_bind omap list_omap]. by rewrite Hr.
    - intros i b Hb. replace (Datatypes.S n + i)%nat with (n + Datatypes.S i)%nat by (clear; lia). by apply Hi. }
  apply (Hg _ 0%nat). intros i a Hi. split; [by apply (h_index _ _ _ H)|by eapply list_elem_of_lookup_2].
Qed.

#[global] Instance byAddress_total : Total byAddress.
Proof. intros x y. unfold byAddress. lia. Qed.

#[global] Instance byAddress_trans : Transitive byAddress.
Proof. intros x y z. unfold byAddress. lia. Qed.

(** The active records in the order of their addresses. *)
Definition activeOf (R : Registry) (height : Z) : list ValidatorRecord :=
  merge_sort byAddress (base.filter (λ r, activeAt r height) (omap (λ a, R.(rg_records) !! a) R.(rg_queue))).

Lemma elem_activeOf st R height r :
  holds E st R → r ∈ activeOf R height ↔ R.(rg_records) !! r.(Address) = Some r ∧ activeAt r height.
Proof.
  intros H. unfold activeOf. rewrite merge_sort_Permutation, list_elem_of_filter, list_elem_of_omap. split.
  - intros [Hact (a & _ & Hr)]. destruct (h_record _ _ _ H a r Hr) as (_ & <- & _). done.
  - intros [Hr Hact]. split; [done|]. exists r.(Address). split; [|done]. apply (h_dom _ _ _ H). by exists r.
Qed.

Lemma activeOf_distinct st R height : holds E st R → NoDup (Address <$> activeOf R height).
Proof.
  intros H. unfold activeOf. rewrite merge_sort_Permutation.
  assert (Hq : ∀ q, NoDup q → NoDup (Address <$> base.filter (λ r, activeAt r height) (omap (λ a, R.(rg_records) !! a) q))
    ∧ ∀ b, b ∈ Address <$> base.filter (λ r, activeAt r height) (omap (λ a, R.(rg_records) !! a) q) → b ∈ q).
  { induction 1 as [|a q Ha Hn [IH1 IH2]]; [split; [constructor|done]|]. cbn [omap list_omap].
    destruct (rg_records R !! a) as [r|] eqn:Er; [|set_solver]. destruct (h_record _ _ _ H a r Er) as (_ & Hadr & _).
    rewrite filter_cons. case_decide; [|set_solver]. cbn [fmap list_fmap]. rewrite Hadr. split; [|set_solver].
    constructor; [|done]. intros Hin. by apply Ha, IH2. }
  apply Hq, (h_nodup _ _ _ H).
Qed.

(** Choices that pick the validator at position [i]: an interval of the length of
    its stake. *)
Lemma pickStake_interval l i r c :
  (∀ x, x ∈ l → 0 < x.(Stake)) → NoDup (Address <$> l) → l !! i = Some r → 0 <= c →
  pickStake c l = Some r ↔ zsum Stake (take i l) <= c < zsum Stake (take i l) + r.(Stake).
Proof.
  revert i c. induction l as [|x l IH]; intros i c Hpos Hnd Hi Hc; [done|]. cbn [pickStake].
  cbn [fmap list_fmap] in Hnd. apply NoDup_cons in Hnd as [Hx Hnd]. pose proof (Hpos x ltac:(by left)) as Hx0.
  destruct i as [|i]; cbn [lookup list_lookup] in Hi.
  - injection Hi as ->. cbn [take]. change (zsum Stake []) with 0. case_if; [split; [lia|done]|]. split; [|lia]. intros Hp. exfalso.
    apply Hx. apply list_elem_of_fmap. exists r. split; [done|]. clear -Hp. revert Hp. generalize (c - Stake r).
    induction l as [|y l IH]; intros d Hd; [done|]. cbn in Hd. case_if_in Hd; [injection Hd as ->; by left|right; by eapply IH].
  - cbn [take]. rewrite zsum_cons. assert (Hne : x ≠ r).
    { intros ->. apply Hx. apply list_elem_of_fmap. exists r. split; [done|]. by eapply list_elem_of_lookup_2. }
    assert (Hs : 0 <= zsum Stake (take i l)).
    { apply zsum_nonneg. intros y Hy%elem_of_take. pose proof (Hpos y ltac:(by right)). lia. }
    case_if; [split; [by intros [=]|lia]|]. rewrite (IH i (c - Stake x)); [lia|..|done|lia]; [|done]. intros y Hy. apply Hpos. by right.
Qed.

Lemma pickStake_total l c :
  (∀ x, x ∈ l → 0 < x.(Stake)) → 0 <= c < zsum Stake l → ∃ r, pickStake c l = Some r ∧ r ∈ l.
Proof.
  revert c. induction l as [|x l IH]; intros c Hpos Hc; [cbn in Hc; lia|]. rewrite zsum_cons in Hc. cbn [pickStake].
  case_if; [exists x; split; [done|by left]|]. destruct (IH (c - Stake x)) as (r & Hr & Hin); [intros y Hy; apply Hpos; by right|lia|].
  exists r. split; [done|by right].
Qed.

(** The block's validator is chosen in proportion to the stakes.  The active
    set is exactly the registered validators that are bonded, activated, not exited
    and not jailed at the height, in the order of their addresses; with an empty set
    the choice is an error; otherwise it succeeds, and the validator at position [i]
    is chosen exactly when the digest of height and seed, reduced modulo the total
    stake, falls into its interval, whose length is its stake. *)
Theorem selection_proportional st R height seed :
  holds E st R →
  let active := activeOf R height in
  let total := zsum Stake active in
  let choice := selectionDigest height seed mod total in
  ActiveValidatorRecords st height = Ok active
  ∧ (∀ r, r ∈ active ↔ R.(rg_records) !! r.(Address) = Some r ∧ activeAt r height)
  ∧ StronglySorted byAddress active
  ∧ (active = [] → SelectValidator st height seed = Err ErrValidatorNotFound)
  ∧ (active ≠ [] → 0 <= choice < total ∧ ∃ r, SelectValidator st height seed = Ok r ∧ r ∈ active)
  ∧ ∀ i r, active !! i = Some r →
      SelectValidator st height seed = Ok r ↔ zsum Stake (take i active) <= choice < zsum Stake (take i active) + r.(Stake).
Proof using keySize_small Hslots.
  intros H active total choice. assert (Ha : ActiveValidatorRecords st height = Ok active).
  { unfold ActiveValidatorRecords. by rewrite (records_queue st R H). }
  assert (Hpos : ∀ x, x ∈ active → 0 < x.(Stake)).
  { intros x Hx. apply (elem_activeOf st) in Hx as [_ Hx]; [|done]. unfold activeAt in Hx. apply Is_true_true in Hx. bool_to_prop. done. }
  assert (Hch : active ≠ [] → 0 <= choice < total).
  { intros Hne. apply Z.mod_pos_bound. unfold total. destruct active as [|x l]; [done|]. rewrite zsum_cons.
    pose proof (Hpos x ltac:(by left)). assert (0 <= zsum Stake l); [|lia]. apply zsum_nonneg. intros y Hy. pose proof (Hpos y ltac:(by right)). lia. }
  assert (Hsel : ∀ r0, pickStake choice active = Some r0 → SelectValidator st height seed = Ok r0).
  { intros r0 Hp. unfold SelectValidator. rewrite Ha. cbn [mbind result_bind]. destruct (last active) eqn:El.
    - fold total choice. by rewrite Hp.
    - apply last_None in El. by rewrite El in Hp. }
  split; [done|]. split; [intros r; by apply (elem_activeOf st)|].
  split; [apply StronglySorted_merge_sort; apply _|].
  split. { intros Hnil. unfold SelectValidator. rewrite Ha, Hnil. done. }
  split. { intros Hne. split; [by apply Hch|]. destruct (pickStake_total active choice Hpos (Hch Hne)) as (r & Hr & Hin). eauto. }
  intros i r Hi. assert (Hne : active ≠ []) by (by intros ->). specialize (Hch Hne).
  destruct (pickStake_total active choice Hpos Hch) as (r' & Hr' & _). pose proof (Hsel r' Hr') as Hs. rewrite Hs.
  rewrite <- (pickStake_interval active i r choice Hpos (activeOf_distinct st R height H) Hi) by lia. rewrite Hr'. split; by intros [= ->].
Qed.

End Steps.
End ValidatorSteps.
