(* ===== verification/ValidatorDemo.v ===== *)
(** * A small registry

    Concrete functions for the code outside [core/validator_registry.go], with
    which the handlers run on flat maps: the theorems of [ValidatorSteps] applied
    to a validator that registers, exits and withdraws, and a history in which one
    piece of evidence slashes a validator twice. *)

From stdpp Require Import sorting.
From S2P Require Import Prelude Bytes RLP RLPStream RLPTypes State Emission ChainConfig Rewards ValidatorRegistry ValidatorStore ValidatorSteps.
Import RLP RLPStream RLPTypes ValidatorRegistry ValidatorStore ValidatorSteps.

Module ValidatorDemo.

(** ** Slots *)

Definition demoRoles : list bytes :=
  [str "validator/count"; str "validator/index"; str "validator/record-chunk-count"; str "validator/record-byte-length";
   str "validator/record-chunk"; str "validator/evidence"].

(** The position of the role, and the data as a number. *)
Fixpoint demoSlot (roles : list bytes) (tag : Z) (b : bytes) : Z :=
  match roles with
  | [] => 0
  | r :: rs =>
      let p := str "TKM_SHIELD3_STATE_V1/" ++ r ++ str "/" in
      if has_prefix b p then tag * 2 ^ 240 + be_value (drop (length p) b) mod 2 ^ 240 else demoSlot rs (tag + 1) b
  end.

Definition demoHash (b : bytes) : Z := foldl (λ h c, h * 3 + c) 0 b mod 256.

#[global] Instance DemoExternals : Externals := {
  Sender _ _ _ tx := (λ p, demoHash (str "tkmchain:pq-address:v1:" ++ p.1 ++ p.2)) <$> tx.(vt_PQ);
  VerifyMLDSA87 _ _ signature := bool_decide (signature = [1]);
  MLDSA87PublicKeySize := 1;
  keccak b := be_bytes 32 (demoHash b);
  sha256 b := be_bytes 32 (demoHash b);
  sha512 b := be_bytes 64 (demoSlot demoRoles 1 b);
  pooled := {| sr := []; remaining := 7; ssize := 0; kinderr := None; stack := [3]; skind := None; byteval := 0; limited := false |};
}.

Definition demoEvidence (h : hash) : Prop := 0 <= h < 256.

Lemma demo_hash x : 0 <= x < 2 ^ 256 → BytesToHash (be_bytes 64 x) = x.
Proof.
  intros Hx. unfold BytesToHash. rewrite length_be_bytes. cbn [Nat.ltb Nat.leb Nat.sub].
  rewrite (be_bytes_split 32 32), drop_app_length' by (by rewrite length_be_bytes).
  apply be_value_bytes. change (256 ^ Z.of_nat 32) with (2 ^ 256). done.
Qed.

Definition demoValue (k : slotKey) : Z * Z :=
  match k with
  | KCount => (1, 0)
  | KIndex i => (2, i)
  | KChunks a => (3, a)
  | KLength a => (4, a)
  | KChunk a i => (5, a * 2 ^ 64 + i)
  | KEvidence h => (6, h)
  end.

Lemma demo_state role d tag :
  demoSlot demoRoles 1 (str "TKM_SHIELD3_STATE_V1/" ++ role ++ str "/" ++ d) = tag * 2 ^ 240 + be_value d mod 2 ^ 240 →
  1 <= tag <= 6 → ShieldedV3StateSlot role d = tag * 2 ^ 240 + be_value d mod 2 ^ 240.
Proof.
  intros He Ht. unfold ShieldedV3StateSlot. cbn [sha512 DemoExternals]. rewrite He. apply demo_hash.
  pose proof (Z.mod_pos_bound (be_value d) (2 ^ 240) ltac:(done)). change (2 ^ 256) with (65536 * 2 ^ 240). lia.
Qed.

Lemma demo_slot k : key_ok demoEvidence k → slotOf k = (demoValue k).1 * 2 ^ 240 + (demoValue k).2 ∧ 0 <= (demoValue k).2 < 2 ^ 240.
Proof.
  assert (Hbe : ∀ n x, (n <= 28)%nat → 0 <= x < 256 ^ Z.of_nat n → be_value (be_bytes n x) mod 2 ^ 240 = x ∧ 0 <= x < 2 ^ 240).
  { intros n x Hn Hx. rewrite be_value_bytes by done. assert (256 ^ Z.of_nat n <= 256 ^ 28) by (apply Z.pow_le_mono_r; lia).
    change (256 ^ 28) with (2 ^ 224) in *. assert (2 ^ 224 < 2 ^ 240) by done. rewrite Z.mod_small; lia. }
  destruct k as [|i|a|a|a i|h]; cbn [key_ok demoValue fst snd slotOf]; intros Hk.
  - split; [by vm_compute|done].
  - destruct (Hbe 8%nat i) as [Hv Hr]; [lia|change (256 ^ Z.of_nat 8) with (2 ^ 64); unfold ValidatorMaxSetSize in Hk; lia|].
    split; [|done]. unfold validatorIndexSlot. rewrite (demo_state _ _ 2), Hv; [done|reflexivity|lia].
  - destruct (Hbe 20%nat a) as [Hv Hr]; [lia|exact Hk|]. split; [|done].
    unfold validatorRecordChunkCountSlot, address_bytes. rewrite (demo_state _ _ 3), Hv; [done|reflexivity|lia].
  - destruct (Hbe 20%nat a) as [Hv Hr]; [lia|exact Hk|]. split; [|done].
    unfold validatorRecordByteLengthSlot, address_bytes. rewrite (demo_state _ _ 4), Hv; [done|reflexivity|lia].
  - destruct Hk as [Ha Hi]. unfold is_address in Ha. assert (E28 : address_bytes a ++ be_bytes 8 i = be_bytes 28 (a * 2 ^ 64 + i)).
    { change 28%nat with (8 + 20)%nat. rewrite be_bytes_split. change (256 ^ Z.of_nat 8) with (2 ^ 64).
      rewrite Z.div_add_l, Z.div_small, Z.add_0_r by lia. f_equal. rewrite <- (be_bytes_mod 8 (a * 2 ^ 64 + i)), <- (be_bytes_mod 8 i).
      change (256 ^ Z.of_nat 8) with (2 ^ 64). by rewrite Z.add_comm, Z.mod_add. }
    destruct (Hbe 28%nat (a * 2 ^ 64 + i)) as [Hv Hr]; [lia|change (256 ^ Z.of_nat 28) with (2 ^ 160 * 2 ^ 64); lia|]. split; [|done].
    unfold validatorRecordChunkSlot. rewrite E28, (demo_state _ _ 5), Hv; [done|reflexivity|lia].
  - unfold demoEvidence in Hk. assert (Hv : be_value (hash_bytes h) mod 2 ^ 240 = h).
    { unfold hash_bytes. rewrite be_value_bytes by (change (256 ^ Z.of_nat 32) with (2 ^ 256); lia). apply Z.mod_small. lia. }
    split; [|lia]. unfold validatorEvidenceSlot. rewrite (demo_state _ _ 6), Hv; [done|reflexivity|lia].
Qed.

#[global] Instance demo_distinct : SlotsDistinct demoEvidence.
Proof.
  intros k k' Hk Hk' He. destruct (demo_slot k Hk) as [E1 B1]. destruct (demo_slot k' Hk') as [E2 B2]. rewrite E1, E2 in He.
  assert (Ht : (demoValue k).1 = (demoValue k').1 ∧ (demoValue k).2 = (demoValue k').2) by nia. clear E1 E2 B1 B2 He.
  destruct k, k'; cbn in Ht, Hk, Hk'; destruct Ht as [Ht Hv]; try lia; try done; f_equal; try lia.
Qed.

(** ** A history *)

#[local] Existing Instance RefUint256.
#[local] Existing Instance FlatWorldState.

Definition demoConfig : ChainConfig.ChainConfig := ChainConfig.demoMainnet [3].
Definition demoTime : Z := 1790812800.
Definition demoKey : bytes := [5].
Definition demoAddress : address := Eval vm_compute in demoHash (str "tkmchain:pq-address:v1:" ++ AlgorithmMLDSA87 ++ demoKey).

Definition demoBytes (r : result vError bytes) : bytes := match r with Ok b => b | Err _ => [] end.

Definition demoTx (value : Z) (data : bytes) : vtx :=
  {| vt_Type := PQTkmTxType; vt_To := Some ShieldedPoolAddress; vt_Value := value; vt_ChainId := 8979; vt_Data := data;
     vt_PQ := Some (AlgorithmMLDSA87, demoKey); vt_Hash := 99 |}.

Definition demoRegister (activation : Z) : vtx :=
  demoTx ValidatorBondWei (demoBytes (EncodeValidatorRegistration
    (Some {| vr_Version := 1; vr_PublicKey := demoKey; vr_RewardAddress := demoAddress; vr_ActivationHeight := activation |}))).
Definition demoExit : vtx := demoTx 0 (demoBytes (EncodeValidatorExit (Some 1))).
Definition demoWithdraw : vtx := demoTx 0 (demoBytes (EncodeValidatorWithdrawal (Some 1))).

(** The account pays the value into the pool, as the execution of the transaction does. *)
Definition demoDeposit (st : flatState) (tx : vtx) : flatState :=
  AddBalance (SubBalance st demoAddress tx.(vt_Value)) ShieldedPoolAddress tx.(vt_Value).
Definition demoRun (number : Z) (st : flatState) (tx : vtx) : option vError * flatState :=
  processValidatorEnvelope demoConfig number demoTime (demoDeposit st tx) tx.

Definition demoStart : flatState := AddBalance emptyFlat demoAddress (2000000 * Ether).
Definition demoRegistered : flatState := (demoRun 10 demoStart (demoRegister 730)).2.

Lemma demo_tx_ok number tx :
  tx.(vt_PQ) = Some (AlgorithmMLDSA87, demoKey) → tx.(vt_Hash) = 99 → bool_decide (bytes_ok tx.(vt_Data)) = true →
  tx_ok demoConfig demoEvidence number demoTime tx.
Proof.
  intros Hk Hh Hd. split.
  - by apply bool_decide_eq_true in Hd.
  - by rewrite Hh.
  - unfold evidenceHash. cbn [keccak DemoExternals]. rewrite be_value_bytes.
    + apply Z.mod_pos_bound. done.
    + assert (0 <= demoHash (vt_Data tx) < 256) by (apply Z.mod_pos_bound; done). change (256 ^ Z.of_nat 32) with (2 ^ 256). lia.
  - intros a. cbn [Sender DemoExternals]. rewrite Hk. cbn. intros [= <-]. done.
Qed.

Lemma demo_slots_empty k : key_ok demoEvidence k → slot demoStart k = 0.
Proof. done. Qed.

Lemma demo_key_small : (MLDSA87PublicKeySize <= 4000)%nat.
Proof. cbn. lia. Qed.

Lemma demo_deposited st tx :
  GetBalance (demoDeposit st tx) ShieldedPoolAddress = GetBalance st ShieldedPoolAddress + tx.(vt_Value) →
  deposited demoEvidence tx st (demoDeposit st tx).
Proof. intros H. split; [|done]. intros k _. unfold slot, demoDeposit. by rewrite GetState_Add, GetState_Sub. Qed.

Lemma registry_refines_witness :
  ∃ pay R', vstep demoConfig 10 demoTime (demoRegister 730) emptyRegistry pay R' ∧ holds demoEvidence demoRegistered R'
    ∧ paid (demoDeposit demoStart (demoRegister 730)) demoRegistered pay ∧ foreign_same (demoDeposit demoStart (demoRegister 730)) demoRegistered.
Proof.
  pose proof (registry_refines demo_key_small demoConfig demoEvidence 10 demoTime (demoDeposit demoStart (demoRegister 730)) emptyRegistry
    (demoRegister 730)) as H.
  assert (Ep : processValidatorEnvelope demoConfig 10 demoTime (demoDeposit demoStart (demoRegister 730)) (demoRegister 730)
    = (None, demoRegistered)) by (vm_compute; reflexivity).
  rewrite Ep in H. refine (H _ _).
  - apply demo_tx_ok; vm_compute; reflexivity.
  - apply holds_empty. done.
Defined.

Lemma bonds_backed_witness :
  ∃ R, holds demoEvidence demoRegistered R ∧ bondsOf R <= GetBalance demoRegistered ShieldedPoolAddress.
Proof.
  apply (bonds_backed demo_key_small demoConfig demoEvidence demoStart); [exact demo_slots_empty|].
  apply rtc_once. apply (chain_envelope _ _ _ _ _ _ 10 demoTime (demoRegister 730) (demoDeposit demoStart (demoRegister 730))).
  - apply demo_tx_ok; vm_compute; reflexivity.
  - vm_compute. discriminate.
  - apply demo_deposited. vm_compute. reflexivity.
  - vm_compute. reflexivity.
  - vm_compute. reflexivity.
  - vm_compute. reflexivity.
  - intros e _ [].
  - intros a _ _ [].
Defined.

Definition demoRecord : ValidatorRecord :=
  newRecord {| vr_Version := 1; vr_PublicKey := demoKey; vr_RewardAddress := demoAddress; vr_ActivationHeight := 730 |} demoAddress 10.

Lemma demo_registered :
  backed demoEvidence demoRegistered (putRecord emptyRegistry demoRecord).
Proof.
  pose proof (process_refines demo_key_small demoConfig demoEvidence 10 demoTime (demoDeposit demoStart (demoRegister 730)) emptyRegistry
    (demoRegister 730)) as H. cbv zeta in H.
  assert (Ep : processValidatorEnvelope demoConfig 10 demoTime (demoDeposit demoStart (demoRegister 730)) (demoRegister 730)
    = (None, demoRegistered)) by (vm_compute; reflexivity).
  rewrite Ep in H. destruct H as (pay & R' & Hs & Hh & _).
  - apply demo_tx_ok; vm_compute; reflexivity.
  - by apply holds_empty.
  - assert (ER : R' = putRecord emptyRegistry demoRecord).
    { inversion Hs as [from e Hd Hv Hsn| | |]; subst; [|done..].
      assert (Ed : DecodeValidatorRegistration (vt_Data (demoRegister 730)) =
        Ok {| vr_Version := 1; vr_PublicKey := demoKey; vr_RewardAddress := demoAddress; vr_ActivationHeight := 730 |}) by (vm_compute; reflexivity).
      rewrite Ed in Hd. injection Hd as <-. done. }
    rewrite ER in Hh. split; [done|]. vm_compute. discriminate.
Qed.

Lemma demo_action magic data number :
  ChainConfig.IsAntartical demoConfig number demoTime = true →
  decodeValidatorAction data magic = Ok 1 → bool_decide (bytes_ok data) = true →
  action_tx demoConfig demoEvidence magic number demoTime (demoTx 0 data) demoAddress demoKey.
Proof.
  intros Ha Hd Hb. split; [by apply demo_tx_ok|done|by vm_compute|done|by exists 1|by vm_compute].
Qed.

Lemma validator_bond_withdrawable_witness :
  ∃ st1 st3, processValidatorEnvelope demoConfig 1000 demoTime demoRegistered demoExit = (None, st1)
    ∧ processValidatorEnvelope demoConfig 22600 demoTime st1 demoWithdraw = (None, st3)
    ∧ GetBalance st3 demoAddress = (GetBalance st1 demoAddress + ValidatorBondWei) mod two256
    ∧ GetBalance st3 ShieldedPoolAddress = GetBalance st1 ShieldedPoolAddress - ValidatorBondWei.
Proof.
  destruct (validator_bond_withdrawable demo_key_small demoConfig demoEvidence demoRegistered (putRecord emptyRegistry demoRecord) demoAddress demoRecord
    1000 demoTime demoExit demo_registered) as (st1 & E1 & H1).
  - vm_compute. reflexivity.
  - vm_compute. reflexivity.
  - reflexivity.
  - vm_compute. discriminate.
  - vm_compute. discriminate.
  - apply demo_action; vm_compute; reflexivity.
  - destruct (H1 st1 22600 demoTime demoWithdraw (rtc_refl _ _)) as (st3 & E3 & Hb & Hp).
    + vm_compute. discriminate.
    + apply demo_action; vm_compute; reflexivity.
    + exists st1, st3. split; [exact E1|]. split; [exact E3|]. split; [exact Hb|exact Hp].
Defined.

Lemma selection_proportional_witness :
  ActiveValidatorRecords demoRegistered 730 = Ok [demoRecord]
  ∧ (SelectValidator demoRegistered 730 7 = Ok demoRecord ↔ 0 <= selectionDigest 730 7 mod ValidatorBondWei < ValidatorBondWei).
Proof.
  destruct (selection_proportional demo_key_small demoEvidence demoRegistered (putRecord emptyRegistry demoRecord) 730 7 (proj1 demo_registered))
    as (Ha & _ & _ & _ & _ & Hi).
  assert (El : activeOf (putRecord emptyRegistry demoRecord) 730 = [demoRecord]) by (vm_compute; reflexivity).
  rewrite El in Ha. split; [exact Ha|]. specialize (Hi 0%nat demoRecord). rewrite El in Hi. exact (Hi eq_refl).
Defined.

(** ** Evidence twice

    The evidence digest is the hash of the envelope.  Exchanging the two halves of
    the evidence gives another envelope that proves the same equivocation; a
    registration replaces the slashed record. *)

Definition demoSlash (a b : hash) : vtx :=
  demoTx 0 (demoBytes (EncodeValidatorSlash (Some {| ve_Version := 1; ve_Validator := demoAddress; ve_Height := 900;
    ve_BlockHashA := a; ve_BlockHashB := b; ve_SignatureA := [1]; ve_SignatureB := [1]; ve_PublicKey := demoKey |}))).

(** One history: registered, slashed at 1000 with evidence for the blocks 7 and 8,
    registered again at 1001, active again at 1721 although the slash jailed the
    validator until 22600, and slashed at 1722 with the same evidence turned round. *)
Definition demoSlashed : flatState := (demoRun 1000 demoRegistered (demoSlash 7 8)).2.
Definition demoReturned : flatState := (demoRun 1001 demoSlashed (demoRegister 1721)).2.
Definition demoTwice : flatState := (demoRun 1722 demoReturned (demoSlash 8 7)).2.

Lemma evidence_slashes_twice :
  (demoRun 1000 demoRegistered (demoSlash 7 8)).1 = None
  ∧ JailedUntil <$> (match readValidatorRecord demoSlashed demoAddress with Ok r => Some r | Err _ => None end) = Some 22600
  ∧ (demoRun 1001 demoSlashed (demoRegister 1721)).1 = None
  ∧ length <$> (match ActiveValidatorRecords demoReturned 1721 with Ok l => Some l | Err _ => None end) = Some 1%nat
  ∧ (demoRun 1722 demoReturned (demoSlash 7 8)).1 = Some (ErrText "validator evidence was already processed")
  ∧ (demoRun 1722 demoReturned (demoSlash 8 7)).1 = None
  ∧ GetBalance demoTwice ShieldedPoolAddress = 0.
Proof. vm_compute. repeat split. Qed.
End ValidatorDemo.
