(* ===== verification/ShieldedCrypto.v ===== *)
(** * The encrypted envelopes of the shielded pool

    [crypto/pqcrypto/shielded_v3.go], the view-key binding of [shielded_v3_binding.go],
    the stamp signature of [shielded_v3_stamp.go] and the phone context of [phone.go]:
    a fixed-size envelope with a public header, an ML-KEM-1024 ciphertext, a nonce and
    a padded payload under XChaCha20-Poly1305.

    ML-KEM, HKDF and the AEAD are the class [Primitives]; what their documentation
    promises is the class [PrimitiveLaws].  Random bytes are arguments, [None] where
    reading them fails. *)

From S2P Require Import Prelude Bytes State ValidatorRegistry.
Import ValidatorRegistry.

Module ShieldedCrypto.

(** ** Constants *)

(** Sizes of [crypto/mlkem] and [chacha20poly1305]. *)
Definition CiphertextSize1024 : nat := 1568.
Definition SeedSize : nat := 64.
Definition NonceSizeX : nat := 24.
Definition Overhead : nat := 16.
Definition KeySize : nat := 32.
Definition MLDSA87SeedSize : nat := 32.

Definition ShieldedV3Version : Z := 3.
Definition shieldedV3Suite : Z := 1.
Definition ShieldedV3MaxPlaintextSize : nat := Eval vm_compute in Z.to_nat 4096.
Definition shieldedV3HeaderSize : nat := 79.
Definition shieldedV3PaddedSize : nat := Eval vm_compute in (2 + ShieldedV3MaxPlaintextSize)%nat.
Definition ShieldedV3CiphertextSize : nat :=
  Eval vm_compute in (shieldedV3HeaderSize + CiphertextSize1024 + NonceSizeX + shieldedV3PaddedSize + Overhead)%nat.

(** A purpose is a byte. *)
Definition ShieldedV3Purpose := Z.
Definition ShieldedV3Incoming : ShieldedV3Purpose := 1.
Definition ShieldedV3Outgoing : ShieldedV3Purpose := 2.
Definition ShieldedV3Stamp : ShieldedV3Purpose := 3.
Definition ShieldedV3Disclosure : ShieldedV3Purpose := 4.
Definition ShieldedV3Phone : ShieldedV3Purpose := 5.

Inductive cError :=
| ErrInvalidShieldedV3Context
| ErrInvalidShieldedV3Ciphertext
| ErrShieldedV3PlaintextTooLarge
| ErrInvalidShieldedViewKey
| ErrInvalidPrivateKey
| ErrPrimitive. (** an error of HKDF, the AEAD or the random source *)

Record ShieldedV3Context := {
  cx_ChainID : Z;
  cx_Purpose : ShieldedV3Purpose;
  cx_Commitment : bytes;
}.
#[global] Instance ShieldedV3Context_eq_dec : EqDecision ShieldedV3Context.
Proof. solve_decision. Defined.

(** ** Primitives *)

Class Primitives := {
  dkOfRandom : bytes → bytes; (** [GenerateKey1024]: the seed *)
  dkValid : bytes → bool; (** [NewDecapsulationKey1024] accepts the seed *)
  ekOfSeed : bytes → bytes; (** [EncapsulationKey().Bytes()] *)
  ekValid : bytes → bool; (** [NewEncapsulationKey1024] accepts the key *)
  Encapsulate : bytes → bytes → bytes * bytes; (** key and randomness to shared secret and ciphertext *)
  Decapsulate : bytes → bytes → option bytes;
  hkdf_Key : bytes → bytes → bytes → nat → option bytes; (** secret, salt, info, length *)
  aead_Seal : bytes → bytes → bytes → bytes → bytes; (** key, nonce, plaintext, additional data *)
  aead_Open : bytes → bytes → bytes → bytes → option bytes;
}.

Class PrimitiveLaws `{Primitives} := {
  ek_valid seed : dkValid seed = true → ekValid (ekOfSeed seed) = true;
  generate_valid r : dkValid (dkOfRandom r) = true;
  decapsulate seed r : dkValid seed = true →
    Decapsulate seed (Encapsulate (ekOfSeed seed) r).2 = Some (Encapsulate (ekOfSeed seed) r).1;
  encapsulate_length pk r : length (Encapsulate pk r).2 = CiphertextSize1024;
  hkdf_length secret salt info n : (n <= 255 * 64)%nat → ∃ k, hkdf_Key secret salt info n = Some k ∧ length k = n;
  aead_length k n p a : length (aead_Seal k n p a) = (length p + Overhead)%nat;
  aead_roundtrip k n p a : length k = KeySize → length n = NonceSizeX → aead_Open k n (aead_Seal k n p a) a = Some p;
}.

Section Envelopes.
Context {X : Externals} {Pm : Primitives}.

(** [chacha20poly1305.NewX]: the cipher is its key. *)
Definition NewX (key : bytes) : option bytes := if (length key =? KeySize)%nat then Some key else None.

Definition validShieldedV3Purpose (purpose : ShieldedV3Purpose) : bool :=
  (ShieldedV3Incoming <=? purpose) && (purpose <=? ShieldedV3Phone).

Definition zeroCommitment : bytes := replicate 64 0.

Definition shieldedV3Header (context : ShieldedV3Context) : result cError bytes :=
  if (context.(cx_ChainID) =? 0) || negb (validShieldedV3Purpose context.(cx_Purpose)) || bool_decide (context.(cx_Commitment) = zeroCommitment)
  then Err ErrInvalidShieldedV3Context
  else Ok (str "TKPQ" ++ [ShieldedV3Version; shieldedV3Suite; context.(cx_Purpose)] ++ be_bytes 8 context.(cx_ChainID) ++ context.(cx_Commitment)).

(** ** Keys *)

Definition GenerateShieldedV3ViewKey (random : option bytes) : result cError (bytes * bytes) :=
  match random with
  | None => Err ErrPrimitive
  | Some r => Ok (dkOfRandom r, ekOfSeed (dkOfRandom r))
  end.

Definition of_option {A} (o : option A) (e : cError) : result cError A := match o with Some a => Ok a | None => Err e end.

Definition DeriveShieldedV3ViewKey (walletSecret : bytes) (chainID : Z) (purpose : ShieldedV3Purpose) : result cError bytes :=
  _ ← fail_if (length walletSecret <? MLDSA87SeedSize)%nat ErrInvalidPrivateKey;
  _ ← fail_if (negb (validShieldedV3Purpose purpose) || (chainID =? 0)) ErrInvalidShieldedV3Context;
  of_option (hkdf_Key walletSecret (be_bytes 8 chainID ++ [purpose]) (str "TKM_SHIELD3_MLKEM1024_VIEW_SEED_V1") SeedSize) ErrPrimitive.

Definition ShieldedV3ViewPublicKey (seed : bytes) : result cError bytes :=
  if dkValid seed then Ok (ekOfSeed seed) else Err ErrInvalidPrivateKey.

Definition shieldedV3RecordKey (shared publicKey header kemCiphertext : bytes) : result cError bytes :=
  of_option (hkdf_Key shared (sha512 (str "TKM_SHIELD3_ENCRYPTION_TRANSCRIPT_V1" ++ publicKey ++ header ++ kemCiphertext))
               (str "TKM_SHIELD3_XCHACHA20POLY1305_KEY_V1") KeySize) ErrPrimitive.

Definition shieldedV3AEAD (shared publicKey header kemCiphertext : bytes) : result cError bytes :=
  key ← shieldedV3RecordKey shared publicKey header kemCiphertext;
  of_option (NewX key) ErrPrimitive.

(** ** Sealing and opening *)

(** The length in two bytes, the text, zeros. *)
Definition padded (plaintext : bytes) : bytes :=
  be_bytes 2 (Z.of_nat (length plaintext)) ++ plaintext ++ replicate (ShieldedV3MaxPlaintextSize - length plaintext) 0.

Definition SealShieldedV3 (random : bytes) (nonce : option bytes) (publicKey plaintext : bytes) (context : ShieldedV3Context) : result cError bytes :=
  header ← shieldedV3Header context;
  _ ← fail_if (ShieldedV3MaxPlaintextSize <? length plaintext)%nat ErrShieldedV3PlaintextTooLarge;
  _ ← fail_if (negb (ekValid publicKey)) ErrInvalidShieldedViewKey;
  let '(shared, kemCiphertext) := Encapsulate publicKey random in
  aead ← shieldedV3AEAD shared publicKey header kemCiphertext;
  nonce ← of_option nonce ErrPrimitive;
  let result := header ++ kemCiphertext ++ nonce in
  Ok (result ++ aead_Seal aead nonce (padded plaintext) result).

(** [envelope[i:j]] *)
Definition slice (envelope : bytes) (i j : nat) : bytes := take (j - i) (drop i envelope).

Definition kemEnd : nat := Eval vm_compute in (shieldedV3HeaderSize + CiphertextSize1024)%nat.
Definition payloadStart : nat := Eval vm_compute in (kemEnd + NonceSizeX)%nat.

Definition openShieldedV3Payload (aead envelope : bytes) : result cError bytes :=
  match aead_Open aead (slice envelope kemEnd payloadStart) (drop payloadStart envelope) (take payloadStart envelope) with
  | None => Err ErrInvalidShieldedV3Ciphertext
  | Some padded =>
      let size := Z.to_nat (be_value (take 2 padded)) in
      if (ShieldedV3MaxPlaintextSize <? size)%nat then Err ErrInvalidShieldedV3Ciphertext
      else if existsb (λ b, negb (b =? 0)) (drop (2 + size) padded) then Err ErrInvalidShieldedV3Ciphertext
      else Ok (slice padded 2 (2 + size))
  end.

Definition OpenShieldedV3 (seed envelope : bytes) (context : ShieldedV3Context) : result cError bytes :=
  header ← shieldedV3Header context;
  _ ← fail_if (negb (length envelope =? ShieldedV3CiphertextSize)%nat || negb (bool_decide (take shieldedV3HeaderSize envelope = header)))
        ErrInvalidShieldedV3Ciphertext;
  _ ← fail_if (negb (dkValid seed)) ErrInvalidPrivateKey;
  let kemCiphertext := slice envelope shieldedV3HeaderSize kemEnd in
  shared ← of_option (Decapsulate seed kemCiphertext) ErrInvalidShieldedV3Ciphertext;
  aead ← shieldedV3AEAD shared (ekOfSeed seed) header kemCiphertext;
  openShieldedV3Payload aead envelope.

Definition ValidateShieldedV3CiphertextContext (data : bytes) (expected : ShieldedV3Context) : result cError unit :=
  fail_if (negb (validShieldedV3Purpose expected.(cx_Purpose)) || (expected.(cx_ChainID) =? 0)
           || negb (length data =? ShieldedV3CiphertextSize)%nat || negb (bool_decide (take 4 data = str "TKPQ"))
           || negb (bool_decide (data !! 4%nat = Some ShieldedV3Version)) || negb (bool_decide (data !! 5%nat = Some shieldedV3Suite))
           || negb (bool_decide (data !! 6%nat = Some expected.(cx_Purpose)))
           || negb (be_value (slice data 7 15) =? expected.(cx_ChainID))
           || negb (bool_decide (slice data 15 79 = expected.(cx_Commitment)))) ErrInvalidShieldedV3Ciphertext.

Definition OpenShieldedV3RecordKey (key envelope : bytes) (context : ShieldedV3Context) : result cError bytes :=
  _ ← ValidateShieldedV3CiphertextContext envelope context;
  aead ← of_option (NewX key) ErrInvalidShieldedV3Ciphertext;
  openShieldedV3Payload aead envelope.

(** [ShieldedV3RecordKey], which also opens the record before it gives the key out. *)
Definition ShieldedV3RecordKey (seed envelope : bytes) (context : ShieldedV3Context) : result cError bytes :=
  _ ← ValidateShieldedV3CiphertextContext envelope context;
  _ ← fail_if (negb (dkValid seed)) ErrInvalidPrivateKey;
  let kem := slice envelope shieldedV3HeaderSize kemEnd in
  shared ← of_option (Decapsulate seed kem) ErrInvalidShieldedV3Ciphertext;
  key ← shieldedV3RecordKey shared (ekOfSeed seed) (take shieldedV3HeaderSize envelope) kem;
  _ ← OpenShieldedV3RecordKey key envelope context;
  Ok key.

(** ** View-key bindings, stamps and phone contexts *)

Definition ShieldedV3ViewBindingMessage (chainID : Z) (purpose : ShieldedV3Purpose) (addr : address) (viewPublicKey : bytes) : result cError bytes :=
  _ ← fail_if ((chainID =? 0) || negb (validShieldedV3Purpose purpose)) ErrInvalidShieldedV3Context;
  _ ← fail_if (negb (ekValid viewPublicKey)) ErrInvalidShieldedViewKey;
  Ok (sha512 (str "TKM_SHIELD3_MLKEM1024_VIEW_BINDING_V1" ++ [ShieldedV3Version; purpose] ++ be_bytes 8 chainID ++ address_bytes addr ++ viewPublicKey)).

Definition VerifyShieldedV3ViewBinding (signingPublicKey : bytes) (chainID : Z) (purpose : ShieldedV3Purpose) (addr : address)
    (viewPublicKey signature : bytes) : bool :=
  if negb (bool_decide (pqAddress AlgorithmMLDSA87 signingPublicKey = Some addr)) then false
  else
    match ShieldedV3ViewBindingMessage chainID purpose addr viewPublicKey with
    | Ok message => VerifyMLDSA87 signingPublicKey message signature
    | Err _ => false
    end.

(** [pqcrypto.ShieldedV3StampRecord] *)
Record StampRecord := {
  sr_ChainID : Z;
  sr_Commitment : bytes;
  sr_Ciphertext : bytes;
  sr_Signature : bytes;
}.

Definition stampContext (r : StampRecord) : ShieldedV3Context :=
  {| cx_ChainID := r.(sr_ChainID); cx_Purpose := ShieldedV3Stamp; cx_Commitment := r.(sr_Commitment) |}.

Definition stampMessage (r : StampRecord) : bytes :=
  sha512 (str "TKM_SHIELD3_ADDRESS_STAMP_V1" ++ be_bytes 8 r.(sr_ChainID) ++ r.(sr_Commitment) ++ r.(sr_Ciphertext)).

Definition VerifyShieldedV3Stamp (publicKey : bytes) (record : StampRecord) : bool :=
  negb (record.(sr_ChainID) =? 0) && negb (bool_decide (record.(sr_Commitment) = zeroCommitment))
  && match ValidateShieldedV3CiphertextContext record.(sr_Ciphertext) (stampContext record) with Ok _ => true | Err _ => false end
  && VerifyMLDSA87 publicKey (stampMessage record) record.(sr_Signature).

Definition writePhoneV2Field (value : bytes) : bytes := be_bytes 8 (Z.of_nat (length value)) ++ value.

Definition PhoneV2Context (chainID : Z) (from to nonce : bytes) : ShieldedV3Context := {|
  cx_ChainID := chainID; cx_Purpose := ShieldedV3Phone;
  cx_Commitment := sha512 (str "TKM_PHONE_ANTARTICAL_CONTEXT_V1" ++ be_bytes 8 chainID ++ writePhoneV2Field from ++ writePhoneV2Field to
                           ++ writePhoneV2Field nonce) |}.

Definition ValidatePhoneV2Envelope (data : bytes) (chainID : Z) (from to nonce : bytes) : result cError unit :=
  ValidateShieldedV3CiphertextContext data (PhoneV2Context chainID from to nonce).

End Envelopes.

(** ** Round trip *)

Section Roundtrip.
Context {X : Externals} {Pm : Primitives} {HL : PrimitiveLaws}.

#[local] Ltac step := cbn [mbind result_bind fail_if negb orb of_option].

(** Contexts of the program: a chain identifier of 64 bits that is not zero, a known
    purpose, a commitment of 64 bytes that is not zero. *)
Definition context_ok (c : ShieldedV3Context) : Prop :=
  0 < c.(cx_ChainID) < 2 ^ 64 ∧ validShieldedV3Purpose c.(cx_Purpose) = true ∧ length c.(cx_Commitment) = 64%nat ∧ c.(cx_Commitment) ≠ zeroCommitment.

Definition headerOf (c : ShieldedV3Context) : bytes :=
  str "TKPQ" ++ [ShieldedV3Version; shieldedV3Suite; c.(cx_Purpose)] ++ be_bytes 8 c.(cx_ChainID) ++ c.(cx_Commitment).

Lemma header_of c : context_ok c → shieldedV3Header c = Ok (headerOf c) ∧ length (headerOf c) = shieldedV3HeaderSize.
Proof.
  intros (Hc & Hp & Hl & Hz). unfold shieldedV3Header. rewrite Hp, bool_decide_false by done.
  replace (cx_ChainID c =? 0) with false by lia. split; [done|]. unfold headerOf. rewrite !length_app, length_be_bytes, Hl. done.
Qed.

(** The public checks read the header back. *)
Lemma validate_header c c' rest : context_ok c → context_ok c' → length (headerOf c ++ rest) = ShieldedV3CiphertextSize →
  ValidateShieldedV3CiphertextContext (headerOf c ++ rest) c' = (if decide (c' = c) then Ok () else Err ErrInvalidShieldedV3Ciphertext).
Proof.
  intros (Hc & Hp & Hl & _) (Hc' & Hp' & Hl' & _) Hlen. unfold ValidateShieldedV3CiphertextContext. rewrite Hp', Hlen.
  assert (Hch : be_value (slice (headerOf c ++ rest) 7 15) = cx_ChainID c).
  { unfold slice, headerOf. rewrite <- !app_assoc. change (15 - 7)%nat with 8%nat.
    change (drop 7 _) with (be_bytes 8 (cx_ChainID c) ++ cx_Commitment c ++ rest). rewrite take_app_length' by (by rewrite length_be_bytes).
    apply be_value_bytes. change (256 ^ Z.of_nat 8) with (2 ^ 64). lia. }
  assert (Hco : slice (headerOf c ++ rest) 15 79 = cx_Commitment c).
  { unfold slice, headerOf. rewrite <- !app_assoc. change (79 - 15)%nat with 64%nat.
    change (drop 15 _) with (drop 8 (be_bytes 8 (cx_ChainID c) ++ cx_Commitment c ++ rest)).
    rewrite drop_app_length' by (by rewrite length_be_bytes). by apply take_app_length'. }
  rewrite Hch, Hco. change (take 4 _) with (str "TKPQ"). change (_ !! 4%nat) with (Some ShieldedV3Version).
  change (_ !! 5%nat) with (Some shieldedV3Suite). change ((headerOf c ++ rest) !! 6%nat) with (Some (cx_Purpose c)).
  rewrite Nat.eqb_refl, !(bool_decide_true (_ = _)) by done. replace (cx_ChainID c' =? 0) with false by lia. cbn [negb orb].
  destruct (decide (c' = c)) as [->|Hne].
  - rewrite !bool_decide_true, Z.eqb_refl by done. done.
  - unfold fail_if. match goal with |- (if ?b then _ else _) = _ => destruct b eqn:E end; [done|]. exfalso. apply Hne.
    apply orb_false_elim in E as [[E1 E2]%orb_false_elim E3]. apply negb_false_iff in E1, E2, E3.
    apply bool_decide_eq_true in E1, E3. injection E1 as E1. destruct c, c'; cbn in *. f_equal; [lia|done|done].
Qed.

(** *** The payload *)

Lemma padded_length p : (length p <= ShieldedV3MaxPlaintextSize)%nat → length (padded p) = shieldedV3PaddedSize.
Proof.
  intros Hp. unfold padded. rewrite !length_app, length_be_bytes, length_replicate. unfold shieldedV3PaddedSize, ShieldedV3MaxPlaintextSize in *. lia.
Qed.

Lemma open_payload key h nonce p : length key = KeySize → length h = kemEnd → length nonce = NonceSizeX →
  (length p <= ShieldedV3MaxPlaintextSize)%nat →
  openShieldedV3Payload key ((h ++ nonce) ++ aead_Seal key nonce (padded p) (h ++ nonce)) = Ok p.
Proof.
  intros Hk Hh Hn Hp. assert (Hhn : length (h ++ nonce) = payloadStart) by (rewrite length_app, Hh, Hn; done).
  unfold openShieldedV3Payload. rewrite drop_app_length', take_app_length' by done.
  assert (Hs : slice ((h ++ nonce) ++ aead_Seal key nonce (padded p) (h ++ nonce)) kemEnd payloadStart = nonce).
  { unfold slice. rewrite <- app_assoc, drop_app_length' by done. by apply take_app_length'. }
  rewrite Hs, aead_roundtrip by done. unfold padded.
  rewrite take_app_length' by (by rewrite length_be_bytes).
  assert (Hv : be_value (be_bytes 2 (Z.of_nat (length p))) = Z.of_nat (length p)).
  { apply be_value_bytes. change (256 ^ Z.of_nat 2) with 65536. unfold ShieldedV3MaxPlaintextSize in Hp. lia. }
  rewrite Hv, Nat2Z.id. destruct (Nat.ltb_spec ShieldedV3MaxPlaintextSize (length p)); [lia|].
  assert (Hd : drop (2 + length p) (be_bytes 2 (Z.of_nat (length p)) ++ p ++ replicate (ShieldedV3MaxPlaintextSize - length p) 0)
    = replicate (ShieldedV3MaxPlaintextSize - length p) 0).
  { rewrite app_assoc, drop_app_length'; [done|]. by rewrite length_app, length_be_bytes. }
  rewrite Hd. assert (He : existsb (λ b, negb (b =? 0)) (replicate (ShieldedV3MaxPlaintextSize - length p) 0) = false).
  { generalize (ShieldedV3MaxPlaintextSize - length p)%nat. intros n. by induction n. }
  rewrite He. f_equal. unfold slice. rewrite drop_app_length' by (by rewrite length_be_bytes).
  apply take_app_length'. lia.
Qed.

Lemma aead_key shared pk h kem : ∃ key, shieldedV3RecordKey shared pk h kem = Ok key ∧ shieldedV3AEAD shared pk h kem = Ok key ∧ length key = KeySize.
Proof.
  unfold shieldedV3AEAD, shieldedV3RecordKey.
  destruct (hkdf_length shared (sha512 (str "TKM_SHIELD3_ENCRYPTION_TRANSCRIPT_V1" ++ pk ++ h ++ kem))
    (str "TKM_SHIELD3_XCHACHA20POLY1305_KEY_V1") KeySize ltac:(unfold KeySize; lia)) as (key & -> & Hk).
  exists key. split_and!; [done| |done]. step. unfold NewX. by rewrite Hk.
Qed.

(** C37: Whatever is sealed for a view key opens with its seed, in the context it was
    sealed for and in no other: the envelope has the one fixed size and passes the
    public checks of consensus, the disclosure key of the record opens it as well,
    and every other context is refused by the checks, by the seed and by the key. *)
Theorem sealed_envelope_opens seed random nonce plaintext context :
  dkValid seed = true → length nonce = NonceSizeX → context_ok context → (length plaintext <= ShieldedV3MaxPlaintextSize)%nat →
  ∃ envelope key, SealShieldedV3 random (Some nonce) (ekOfSeed seed) plaintext context = Ok envelope
    ∧ length envelope = ShieldedV3CiphertextSize
    ∧ ValidateShieldedV3CiphertextContext envelope context = Ok ()
    ∧ OpenShieldedV3 seed envelope context = Ok plaintext
    ∧ ShieldedV3RecordKey seed envelope context = Ok key
    ∧ OpenShieldedV3RecordKey key envelope context = Ok plaintext
    ∧ ∀ context', context_ok context' → context' ≠ context →
        ValidateShieldedV3CiphertextContext envelope context' = Err ErrInvalidShieldedV3Ciphertext
        ∧ OpenShieldedV3 seed envelope context' = Err ErrInvalidShieldedV3Ciphertext
        ∧ ShieldedV3RecordKey seed envelope context' = Err ErrInvalidShieldedV3Ciphertext
        ∧ OpenShieldedV3RecordKey key envelope context' = Err ErrInvalidShieldedV3Ciphertext.
Proof.
  intros Hs Hn Hc Hp. destruct (header_of context Hc) as [Eh Lh]. set (h := headerOf context) in *.
  destruct (Encapsulate (ekOfSeed seed) random) as [shared kem] eqn:Ek.
  assert (Hkem : length kem = CiphertextSize1024) by (rewrite <- (encapsulate_length (ekOfSeed seed) random), Ek; done).
  assert (Hdec : Decapsulate seed kem = Some shared) by (pose proof (decapsulate seed random Hs) as E; rewrite Ek in E; exact E).
  destruct (aead_key shared (ekOfSeed seed) h kem) as (key & Erk & Eae & Lk).
  set (env := ((h ++ kem) ++ nonce) ++ aead_Seal key nonce (padded plaintext) ((h ++ kem) ++ nonce)).
  assert (Eenv : env = h ++ kem ++ nonce ++ aead_Seal key nonce (padded plaintext) ((h ++ kem) ++ nonce)) by (unfold env; by rewrite <- !app_assoc).
  assert (Lenv : length env = ShieldedV3CiphertextSize).
  { unfold env. rewrite !length_app, aead_length, Lh, Hkem, Hn, padded_length by done. done. }
  assert (Hhk : length (h ++ kem) = kemEnd) by (rewrite length_app, Lh, Hkem; done).
  assert (Hopen : openShieldedV3Payload key env = Ok plaintext) by (by apply open_payload).
  assert (Htake : take shieldedV3HeaderSize env = h) by (rewrite Eenv; by apply take_app_length').
  assert (Hslice : slice env shieldedV3HeaderSize kemEnd = kem).
  { unfold slice. rewrite Eenv, drop_app_length' by done. by apply take_app_length'. }
  assert (Hval : ∀ c, context_ok c → ValidateShieldedV3CiphertextContext env c = (if decide (c = context) then Ok () else Err ErrInvalidShieldedV3Ciphertext)).
  { intros c Hc'. rewrite Eenv. apply validate_header; [done|done|]. fold h. rewrite <- Eenv. exact Lenv. }
  assert (Hkey : OpenShieldedV3RecordKey key env context = Ok plaintext).
  { unfold OpenShieldedV3RecordKey. rewrite Hval, decide_True by done. cbn. unfold NewX. by rewrite Lk. }
  exists env, key. split_and!; [|done|by rewrite Hval, decide_True by done| | |exact Hkey|].
  - unfold SealShieldedV3. rewrite Eh. step. destruct (Nat.ltb_spec ShieldedV3MaxPlaintextSize (length plaintext)); [lia|].
    rewrite ek_valid by done. step. rewrite Ek, Eae. step. unfold env. by rewrite <- !app_assoc.
  - unfold OpenShieldedV3. rewrite Eh. step. rewrite Lenv, Htake, bool_decide_true, Hs by done. step. rewrite Hslice, Hdec. step.
    rewrite Eae. exact Hopen.
  - unfold ShieldedV3RecordKey. rewrite Hval, decide_True by done. step. rewrite Hs. step. rewrite Hslice, Hdec. step. rewrite Htake, Erk. step.
    by rewrite Hkey.
  - intros c' Hc' Hne. unfold ShieldedV3RecordKey, OpenShieldedV3RecordKey, OpenShieldedV3. rewrite Hval, decide_False by done.
    destruct (header_of c' Hc') as [-> _]. split_and!; [done| |done|done]. step. rewrite Lenv, Htake, bool_decide_false; [done|].
    intros E. apply Hne. pose proof (Hval c' Hc') as V. destruct (decide (c' = context)); [done|]. exfalso.
    rewrite Eenv, E, validate_header, decide_True in V; [done|done|done|done|].
    fold h in E. rewrite <- E, <- Eenv. exact Lenv.
Qed.

End Roundtrip.
End ShieldedCrypto.
