(* ===== verification/Merkle.v ===== *)
(** * Merkle trees of a list

    The reference definition the two accumulators of the shielded pool are
    compared with: a full binary tree over a list, filled up with a zero leaf, a
    node of which is given by its level and its index, and the path from a leaf to
    the root. *)

From S2P Require Import Prelude.

Module Merkle.

Section Tree.
Context {D : Type} (pair : D → D → D) (zero : D).

(** The node of a tree without leaves, by level. *)
Fixpoint zeroNode (level : nat) : D :=
  match level with
  | O => zero
  | S level => pair (zeroNode level) (zeroNode level)
  end.

(** The node at [level], the leaves being level 0. *)
Fixpoint node (l : list D) (level : nat) (i : Z) : D :=
  match level with
  | O => default zero (l !! Z.to_nat i)
  | S level => pair (node l level (2 * i)) (node l level (2 * i + 1))
  end.

Definition root (depth : nat) (l : list D) : D := node l depth 0.

(** What a verifier computes from a leaf, its index and the siblings on its path. *)
Fixpoint fold_path (current : D) (i : Z) (path : list D) : D :=
  match path with
  | [] => current
  | sibling :: path =>
      fold_path (if Z.even i then pair current sibling else pair sibling current) (Z.div2 i) path
  end.

(** The siblings of the nodes above leaf [i], from level [level] on. *)
Fixpoint siblings (l : list D) (n level : nat) (i : Z) : list D :=
  match n with
  | O => []
  | S n => node l level (Z.lxor i 1) :: siblings l n (S level) (Z.div2 i)
  end.

(** ** Indices *)

Lemma lxor_even i : 0 <= i → Z.even i = true → Z.lxor i 1 = i + 1.
Proof.
  intros Hi He. apply Z.even_spec in He as [c ->]. rewrite <- Z.add_nocarry_lxor; [done|].
  apply Z.bits_inj'. intros n Hn. rewrite Z.land_spec, Z.bits_0. destruct (decide (n = 0)) as [->|]; [by rewrite Z.testbit_even_0|].
  by rewrite (Z.bits_above_log2 1), andb_false_r by (cbn; lia).
Qed.

Lemma lxor_odd i : 0 <= i → Z.even i = false → Z.lxor i 1 = i - 1.
Proof.
  intros Hi He. rewrite <- Z.negb_odd in He. apply negb_false_iff, Z.odd_spec in He as [c ->].
  assert (E : Z.lxor (2 * c) 1 = 2 * c + 1) by (apply lxor_even; [lia|apply Z.even_spec; by exists c]).
  rewrite <- E, Z.lxor_assoc, Z.lxor_nilpotent, Z.lxor_0_r. lia.
Qed.

Lemma even_half i : Z.even i = true → i = 2 * Z.div2 i.
Proof. intros He. rewrite (Z.div2_odd i) at 1. by rewrite <- Z.negb_even, He, Z.add_0_r. Qed.

Lemma odd_half i : Z.even i = false → i = 2 * Z.div2 i + 1.
Proof. intros He. rewrite (Z.div2_odd i) at 1. by rewrite <- Z.negb_even, He. Qed.

Lemma pow2_S level : 2 ^ Z.of_nat (S level) = 2 * 2 ^ Z.of_nat level.
Proof. by rewrite Nat2Z.inj_succ, Z.pow_succ_r by lia. Qed.

Lemma div_half n level : n / 2 ^ Z.of_nat (S level) = Z.div2 (n / 2 ^ Z.of_nat level).
Proof. rewrite pow2_S, Z.div2_div, Z.div_div by lia. by rewrite Z.mul_comm. Qed.

Lemma div_spec n level : 0 <= n →
  0 <= n / 2 ^ Z.of_nat level ∧ n / 2 ^ Z.of_nat level * 2 ^ Z.of_nat level <= n < (n / 2 ^ Z.of_nat level + 1) * 2 ^ Z.of_nat level.
Proof.
  intros Hn. assert (0 < 2 ^ Z.of_nat level) by lia. split; [by apply Z.div_pos|].
  pose proof (Z.mul_div_le n (2 ^ Z.of_nat level) ltac:(lia)). pose proof (Z.mul_succ_div_gt n (2 ^ Z.of_nat level) ltac:(lia)). lia.
Qed.

(** ** Nodes *)

(** Nothing but zero leaves behind the end of the list. *)
Lemma node_zero l level i : 0 <= i → Z.of_nat (length l) <= i * 2 ^ Z.of_nat level → node l level i = zeroNode level.
Proof.
  revert i. induction level as [|level IH]; intros i Hi Hl; cbn [node zeroNode].
  - rewrite lookup_ge_None_2; [done|]. lia.
  - rewrite pow2_S in Hl. rewrite !IH by lia. done.
Qed.

Lemma node_nil level i : 0 <= i → node [] level i = zeroNode level.
Proof. intros Hi. apply node_zero; [done|]. cbn. lia. Qed.

(** A node depends on the leaves below it. *)
Lemma node_ext l l' level i : 0 <= i →
  (∀ j, i * 2 ^ Z.of_nat level <= Z.of_nat j < (i + 1) * 2 ^ Z.of_nat level → l !! j = l' !! j) → node l level i = node l' level i.
Proof.
  revert i. induction level as [|level IH]; intros i Hi H; cbn [node].
  - rewrite H; [done|]. cbn. lia.
  - rewrite pow2_S in H. rewrite !IH; [done|lia| |lia|]; intros j Hj; apply H; lia.
Qed.

(** Appending a leaf changes the nodes above it only. *)
Lemma node_snoc l x level i : 0 <= i → i ≠ Z.of_nat (length l) / 2 ^ Z.of_nat level → node (l ++ [x]) level i = node l level i.
Proof.
  intros Hi Hne. pose proof (div_spec (Z.of_nat (length l)) level ltac:(lia)) as [_ Hd].
  apply node_ext; [done|]. intros j Hj. assert (j ≠ length l) as Hn by nia.
  destruct (decide (j < length l)%nat); [by apply lookup_app_l|]. rewrite !lookup_ge_None_2; rewrite ?length_app; cbn; [done|lia..].
Qed.

Lemma node_leaf l i x : l !! i = Some x → node l 0 (Z.of_nat i) = x.
Proof. intros H. cbn [node]. by rewrite Nat2Z.id, H. Qed.

(** The parent of a node and its sibling. *)
Lemma node_up l level i : 0 <= i →
  node l (S level) (Z.div2 i)
  = if Z.even i then pair (node l level i) (node l level (Z.lxor i 1)) else pair (node l level (Z.lxor i 1)) (node l level i).
Proof.
  intros Hi. cbn [node]. destruct (Z.even i) eqn:He.
  - rewrite lxor_even by done. by rewrite <- even_half by done.
  - rewrite lxor_odd by done. rewrite <- odd_half by done. do 2 f_equal. pose proof (odd_half i He). lia.
Qed.

(** ** Paths *)

Lemma fold_siblings l n level i : 0 <= i →
  fold_path (node l level i) i (siblings l n level i) = node l (n + level) (i / 2 ^ Z.of_nat n).
Proof.
  revert level i. induction n as [|n IH]; intros level i Hi; cbn [fold_path siblings Nat.add]; [by rewrite Z.div_1_r|].
  rewrite <- node_up by done. rewrite IH by (apply Z.div2_nonneg; lia). rewrite Nat.add_succ_r. f_equal.
  rewrite Z.div2_div, pow2_S, Z.div_div by lia. done.
Qed.

(** A path computed for a leaf of the list leads to the root. *)
Lemma path_sound l depth i x : l !! i = Some x → Z.of_nat (length l) <= 2 ^ Z.of_nat depth →
  fold_path x (Z.of_nat i) (siblings l depth 0 (Z.of_nat i)) = root depth l.
Proof.
  intros Hx Hl. apply lookup_lt_Some in Hx as Hlt. rewrite <- (node_leaf l i x Hx), fold_siblings by lia.
  rewrite Nat.add_0_r, Z.div_small by lia. done.
Qed.
(** ** Frontiers *)

(** A list is extended with only one node per level at hand: the left sibling of the node that is being filled. *)
Definition frontier_ok (depth : nat) (l : list D) (f : nat → D) : Prop :=
  ∀ k, (k < depth)%nat → Z.even (Z.of_nat (length l) / 2 ^ Z.of_nat k) = false → f k = node l k (Z.of_nat (length l) / 2 ^ Z.of_nat k - 1).

Lemma length_snoc_Z (l : list D) x : Z.of_nat (length (l ++ [x])) = Z.of_nat (length l) + 1.
Proof. rewrite length_app. cbn. lia. Qed.

(** The node above the last leaf: an empty right half, or a left half kept on the frontier. *)
Lemma last_up_even l x k : let i := Z.of_nat (length l) / 2 ^ Z.of_nat k in
  Z.even i = true → node (l ++ [x]) (S k) (Z.div2 i) = pair (node (l ++ [x]) k i) (zeroNode k).
Proof.
  intros i He. destruct (div_spec (Z.of_nat (length l)) k ltac:(lia)) as [Hi Hd]. fold i in Hi, Hd.
  rewrite node_up, He, lxor_even by done. f_equal. apply node_zero; [lia|]. rewrite length_snoc_Z. lia.
Qed.

Lemma last_up_odd l x k depth f : let i := Z.of_nat (length l) / 2 ^ Z.of_nat k in
  (k < depth)%nat → frontier_ok depth l f → Z.even i = false → node (l ++ [x]) (S k) (Z.div2 i) = pair (f k) (node (l ++ [x]) k i).
Proof.
  intros i Hk Hf He. destruct (div_spec (Z.of_nat (length l)) k ltac:(lia)) as [Hi Hd]. fold i in Hi, Hd.
  assert (i ≠ 0) by (intros E; by rewrite E in He). rewrite node_up, He, lxor_odd by done. rewrite (Hf k Hk He). fold i. f_equal.
  apply node_snoc; fold i; lia.
Qed.

(** The next index, level by level: it stays, or moves on from an even node. *)
Lemma div_succ n k : 0 <= n → (n + 1) / 2 ^ Z.of_nat k = n / 2 ^ Z.of_nat k ∨ (n + 1) / 2 ^ Z.of_nat k = n / 2 ^ Z.of_nat k + 1.
Proof.
  intros Hn. destruct (div_spec n k Hn) as [Hi Hd]. destruct (div_spec (n + 1) k ltac:(lia)) as [Hi' Hd']. nia.
Qed.

(** The frontier after an append: the path's nodes where the index is even. *)
Lemma frontier_snoc depth l x f f' : frontier_ok depth l f →
  (∀ k, (k < depth)%nat → let i := Z.of_nat (length l) / 2 ^ Z.of_nat k in f' k = if Z.even i then node (l ++ [x]) k i else f k) →
  frontier_ok depth (l ++ [x]) f'.
Proof.
  intros Hf Hf' k Hk. rewrite length_snoc_Z, Hf' by done. destruct (div_spec (Z.of_nat (length l)) k ltac:(lia)) as [Hi Hd].
  set (i := Z.of_nat (length l) / 2 ^ Z.of_nat k) in *. destruct (div_succ (Z.of_nat (length l)) k ltac:(lia)) as [->| ->]; fold i.
  - intros He. assert (i ≠ 0) by (intros E; by rewrite E in He). rewrite He, (Hf k Hk He). fold i. symmetry. apply node_snoc; fold i; lia.
  - intros He. replace (Z.even i) with true by (rewrite Z.add_1_r, Z.even_succ, <- Z.negb_even in He; by destruct (Z.even i)).
    by rewrite Z.add_simpl_r.
Qed.

Lemma frontier_nil depth f : frontier_ok depth [] f.
Proof. intros k Hk He. cbn [length Z.of_nat] in He. by rewrite Z.div_0_l in He. Qed.
End Tree.

(** Equal roots of lists of one length: equal lists, or a collision of [pair]. *)
Definition collision {D} (pair : D → D → D) : Prop :=
  ∃ a b a' b', (a, b) ≠ (a', b') ∧ pair a b = pair a' b'.

Lemma node_commits {D} `{EqDecision D} (pair : D → D → D) zero l l' level i : 0 <= i →
  node pair zero l level i = node pair zero l' level i →
  collision pair ∨ ∀ j, i * 2 ^ Z.of_nat level <= Z.of_nat j < (i + 1) * 2 ^ Z.of_nat level → default zero (l !! j) = default zero (l' !! j).
Proof.
  revert i. induction level as [|level IH]; intros i Hi He; cbn [node] in He.
  - right. intros j Hj. replace (Z.to_nat i) with j in He by (cbn in Hj; lia). done.
  - set (a := node _ _ l level (2 * i)) in *. set (b := node _ _ l level (2 * i + 1)) in *.
    destruct (decide ((a, b) = (node pair zero l' level (2 * i), node pair zero l' level (2 * i + 1)))) as [Heq|Hne].
    + injection Heq as H1 H2. destruct (IH (2 * i) ltac:(lia) H1) as [Hc|IH1]; [by left|].
      destruct (IH (2 * i + 1) ltac:(lia) H2) as [Hc|IH2]; [by left|]. right. intros j Hj. rewrite pow2_S in Hj.
      destruct (decide (Z.of_nat j < (2 * i + 1) * 2 ^ Z.of_nat level)); [apply IH1|apply IH2]; lia.
    + left. by eexists _, _, _, _.
Qed.

Lemma root_commits {D} `{EqDecision D} (pair : D → D → D) zero depth l l' :
  length l = length l' → Z.of_nat (length l) <= 2 ^ Z.of_nat depth →
  root pair zero depth l = root pair zero depth l' → l = l' ∨ collision pair.
Proof.
  intros Hlen Hl Hr. destruct (node_commits pair zero l l' depth 0 ltac:(lia) Hr) as [Hc|H]; [by right|left].
  apply list_eq. intros j. destruct (decide (j < length l)%nat) as [Hj|Hj]; [|rewrite !lookup_ge_None_2; [done|lia..]].
  specialize (H j ltac:(lia)). destruct (lookup_lt_is_Some_2 l j Hj) as [x Hx].
  destruct (lookup_lt_is_Some_2 l' j) as [x' Hx']; [lia|]. rewrite Hx, Hx' in *. cbn in H. by subst.
Qed.

End Merkle.
