(* ===== verification/ShieldedTree.v ===== *)
(** * The commitment trees of the shielded pool

    [core/shielded_v3_state.go] and the registry half of [core/antartical_stamp.go]:
    two Merkle trees of depth 32 kept in storage slots, one of note commitments and
    one of stamp owners.  Every node that has a leaf below it is stored; appending
    a leaf rewrites the nodes above it and reads their siblings.

    The native library of [zk/shielded3] (the Tip5 hash and the proof system) is
    the argument [nativeCall]. *)

From S2P Require Import Prelude Bytes State ValidatorRegistry ValidatorStore Merkle.
Import ValidatorRegistry ValidatorStore.

Module ShieldedTree.

(** ** Digests *)

(** [shielded3.Digest], five words. *)
Definition Digest := list Z.
Definition MerkleDepth : nat := 32.
Definition fieldModulus : Z := 0xffffffff00000001.
Definition zeroDigest : Digest := replicate 5 0.

Definition canonical (words : list Z) : bool := forallb (λ w, w <? fieldModulus) words.

Definition le_bytes (n : nat) (x : Z) : bytes := reverse (be_bytes n x).
Definition appendWords (data : bytes) (words : list Z) : bytes := data ++ concat (le_bytes 8 <$> words).
Definition Digest_Bytes (d : Digest) : bytes := appendWords [] d.

(** [binary.LittleEndian.Uint64(data[i*8:])] *)
Definition leWord (data : bytes) (i : nat) : Z := be_value (reverse (take 8 (drop (i * 8) data))).

Definition ErrInvalidStatement : vError := ErrText "invalid Shield3 proof statement".

Definition DigestFromBytes (data : bytes) : result vError Digest :=
  if negb (length data =? 40)%nat then Err ErrInvalidStatement
  else
    let d := leWord data <$> seq 0 5 in
    if negb (canonical d) then Err ErrInvalidStatement else Ok d.

(** The native library: a mode, the request and the size of the answer. *)
Class Native := nativeCall : Z → bytes → nat → option bytes.

Section Hash.
Context {N : Native}.

Definition HashPair (left right : Digest) : result vError Digest :=
  if negb (canonical left) || negb (canonical right) then Err ErrInvalidStatement
  else
    match nativeCall 4 (Digest_Bytes left ++ Digest_Bytes right) 40 with
    | None => Err (ErrText "native")
    | Some out => DigestFromBytes out
    end.

Definition HashWords (words : list Z) : result vError Digest :=
  if (length words =? 0)%nat || (40 <? length words)%nat || negb (canonical words) then Err ErrInvalidStatement
  else
    match nativeCall 5 (appendWords [] words) 40 with
    | None => Err (ErrText "Shield3 hash")
    | Some out => DigestFromBytes out
    end.

Definition StampLeaf (chainID : Z) (owner : Digest) : result vError Digest :=
  HashWords ([3004; chainID mod 2 ^ 32; Z.shiftr chainID 32] ++ owner).

(** The digests of empty subtrees, [n] of them above [prev]. *)
Fixpoint v3ZeroLoop (n : nat) (prev : Digest) : result vError (list Digest) :=
  match n with
  | O => Ok []
  | Datatypes.S n => d ← HashPair prev prev; rest ← v3ZeroLoop n d; Ok (d :: rest)
  end.

Definition v3Zeroes : result vError (list Digest) := rest ← v3ZeroLoop MerkleDepth zeroDigest; Ok (zeroDigest :: rest).
End Hash.

(** ** Storage *)

Section Storage.
Context {X : Externals} {N : Native} {U : Uint256} {S : Type} {W : WorldState S}.

Definition getSlot (st : S) (role data : bytes) : hash := GetState st ShieldedPoolAddress (ShieldedV3StateSlot role data).
Definition setSlot (st : S) (role data : bytes) (v : hash) : S := SetState st ShieldedPoolAddress (ShieldedV3StateSlot role data) v.

Definition v3ReadDigest (st : S) (role data : bytes) : result vError Digest :=
  let head := getSlot st (role ++ str "/0") data in
  let tail := getSlot st (role ++ str "/1") data in
  if existsb (λ v, negb (v =? 0)) (take 24 (hash_bytes tail)) then Err ErrInvalidShieldedTx
  else DigestFromBytes (hash_bytes head ++ drop 24 (hash_bytes tail)).

Definition v3WriteDigest (st : S) (role key : bytes) (d : Digest) : S :=
  let raw := Digest_Bytes d in
  let st := setSlot st (role ++ str "/0") key (BytesToHash (take 32 raw)) in
  setSlot st (role ++ str "/1") key (BytesToHash (drop 32 raw)).

(** One of the two trees: the prefix of its roles, and the role of the index. *)
Record tree := { t_pre : bytes; t_id : bytes }.
Definition noteTree : tree := {| t_pre := []; t_id := str "commitment-index" |}.
Definition stampTree : tree := {| t_pre := str "stamp/"; t_id := str "stamp/owner-index" |}.

Definition ShieldedV3NextIndex (st : S) : Z := uint64FromHash (getSlot st (str "next-index") []).

Definition v3NodeKey (level : nat) (index : Z) : bytes := be_bytes 4 (Z.of_nat level) ++ be_bytes 8 index.

(** [v3Node] and [stampNode], which differ in the prefix. *)
Definition treeNode (t : tree) (st : S) (level : nat) (index : Z) (zeroes : list Digest) : result vError Digest :=
  let key := v3NodeKey level index in
  if getSlot st (t.(t_pre) ++ str "node-present") key =? zeroHash then Ok (default zeroDigest (zeroes !! level))
  else v3ReadDigest st (t.(t_pre) ++ str "node") key.

Definition v3Node (st : S) := treeNode noteTree st.
Definition stampNode (st : S) := treeNode stampTree st.

(** The loop both appends run, [n] levels below the root. *)
Fixpoint appendLoop (t : tree) (n level : nat) (cursor : Z) (current : Digest) (zeroes : list Digest) (st : S)
  : result vError Digest * S :=
  let key := v3NodeKey level cursor in
  let st := v3WriteDigest st (t.(t_pre) ++ str "node") key current in
  let st := setSlot st (t.(t_pre) ++ str "node-present") key (uint64Hash 1) in
  match n with
  | O => (Ok current, st)
  | Datatypes.S n =>
      match treeNode t st level (Z.lxor cursor 1) zeroes with
      | Err e => (Err e, st)
      | Ok sibling =>
          match (if Z.land cursor 1 =? 0 then HashPair current sibling else HashPair sibling current) with
          | Err e => (Err e, st)
          | Ok current => appendLoop t n (Datatypes.S level) (Z.shiftr cursor 1) current zeroes st
          end
      end
  end.

(** The writes behind the loop. *)
Definition finishAppend (t : tree) (id : Digest) (index : Z) (current : Digest) (txHash : hash) (st : S) : S :=
  let st := setSlot st t.(t_id) (Digest_Bytes id) (uint64Hash (index +₆₄ 1)) in
  let st := setSlot st (t.(t_pre) ++ str "next-index") [] (uint64Hash (index +₆₄ 1)) in
  let st := setSlot st (t.(t_pre) ++ str "root") (Digest_Bytes current) txHash in
  v3WriteDigest st (t.(t_pre) ++ str "current-root") [] current.

Definition appendShieldedV3Leaf (st : S) (commitment : Digest) (txHash : hash) : option vError * S :=
  let index := ShieldedV3NextIndex st in
  if 2 ^ Z.of_nat MerkleDepth <=? index then (Some ErrInvalidShieldedTx, st)
  else
    match v3Zeroes with
    | Err e => (Some e, st)
    | Ok zeroes =>
        match appendLoop noteTree MerkleDepth 0 index commitment zeroes st with
        | (Err e, st) => (Some e, st)
        | (Ok current, st) => (None, finishAppend noteTree commitment index current txHash st)
        end
    end.

Definition appendAntarticalStamp (st : S) (chainID : Z) (owner : Digest) (txHash : hash) : option vError * S :=
  let index := uint64FromHash (getSlot st (str "stamp/next-index") []) in
  if 2 ^ Z.of_nat MerkleDepth <=? index then (Some (ErrText "stamp registry is full"), st)
  else
    match v3Zeroes with
    | Err e => (Some e, st)
    | Ok zeroes =>
        match StampLeaf chainID owner with
        | Err e => (Some e, st)
        | Ok current =>
            match appendLoop stampTree MerkleDepth 0 index current zeroes st with
            | (Err e, st) => (Some e, st)
            | (Ok current, st) => (None, finishAppend stampTree owner index current txHash st)
            end
        end
    end.

(** [ShieldedV3Path] *)
Record ShieldedV3Path := {
  p_Commitment : Digest;
  p_Index : Z;
  p_Root : Digest;
  p_Path : list Digest;
  p_Found : bool;
}.

Fixpoint pathLoop (t : tree) (st : S) (n level : nat) (cursor : Z) (zeroes : list Digest) : result vError (list Digest) :=
  match n with
  | O => Ok []
  | Datatypes.S n =>
      d ← treeNode t st level (Z.lxor cursor 1) zeroes;
      rest ← pathLoop t st n (Datatypes.S level) (Z.shiftr cursor 1) zeroes;
      Ok (d :: rest)
  end.

Definition treePath (t : tree) (st : S) (id : Digest) : result vError ShieldedV3Path :=
  let index := uint64FromHash (getSlot st t.(t_id) (Digest_Bytes id)) in
  if index =? 0
  then Ok {| p_Commitment := id; p_Index := 0; p_Root := zeroDigest; p_Path := replicate MerkleDepth zeroDigest; p_Found := false |}
  else
    zeroes ← v3Zeroes;
    path ← pathLoop t st MerkleDepth 0 (index -₆₄ 1) zeroes;
    root ← v3ReadDigest st (t.(t_pre) ++ str "current-root") [];
    Ok {| p_Commitment := id; p_Index := index -₆₄ 1; p_Root := root; p_Path := path; p_Found := true |}.

Definition ShieldedV3CommitmentPath (st : S) (commitment : Digest) := treePath noteTree st commitment.
Definition AntarticalStampPath (st : S) (owner : Digest) := treePath stampTree st owner.

Definition ShieldedV3Root (st : S) : result vError Digest :=
  if ShieldedV3NextIndex st =? 0
  then zeroes ← v3Zeroes; Ok (default zeroDigest (zeroes !! MerkleDepth))
  else v3ReadDigest st (str "current-root") [].

End Storage.

End ShieldedTree.
