(* ===== verification/NoteTree.v ===== *)
(** * The commitment trees are Merkle trees

    The stored nodes of [ShieldedTree] are the nodes of the reference tree of
    [Merkle] over the leaves appended so far: appending succeeds until the tree is
    full, the stored root is the Merkle root of all leaves, and the path of a
    commitment leads from it to that root. *)

From S2P Require Import Prelude Bytes State ValidatorRegistry ValidatorStore Merkle ShieldedTree.
Import ValidatorRegistry ValidatorStore ShieldedTree.

Module NoteTree.

(** ** Digests as bytes *)

(** A digest: five field elements. *)
Definition digest_ok (d : Digest) : Prop := length d = 5%nat ∧ Forall (λ w, 0 <= w < fieldModulus) d.

Lemma canonical_ok d : digest_ok d → canonical d = true.
Proof. intros [_ H]. apply Is_true_true, forallb_True. eapply Forall_impl; [exact H|]. cbn. intros w Hw. apply Is_true_true. lia. Qed.

Lemma length_le_bytes n x : length (le_bytes n x) = n.
Proof. unfold le_bytes. by rewrite length_reverse, length_be_bytes. Qed.

Lemma word_at (l : list Z) i w : l !! i = Some w → take 8 (drop (i * 8) (concat (le_bytes 8 <$> l))) = le_bytes 8 w.
Proof.
  revert i. induction l as [|x l IH]; intros [|i] Hi; try done; cbn [fmap list_fmap concat]; cbn in Hi.
  - injection Hi as ->. cbn [Nat.mul]. rewrite drop_0, take_app_length'; [done|]. by rewrite length_le_bytes.
  - change (Datatypes.S i * 8)%nat with (8 + i * 8)%nat. rewrite <- drop_drop, drop_app_length' by (by rewrite length_le_bytes). by apply IH.
Qed.

Lemma length_words (l : list Z) : length (concat (le_bytes 8 <$> l)) = (8 * length l)%nat.
Proof. induction l as [|x l IH]; [done|]. cbn [fmap list_fmap concat length]. rewrite length_app, length_le_bytes, IH. lia. Qed.

Lemma leWord_bytes d i w : Forall (λ w, 0 <= w < fieldModulus) d → d !! i = Some w → leWord (Digest_Bytes d) i = w.
Proof.
  intros Hd Hi. unfold leWord, Digest_Bytes, appendWords. cbn [app]. rewrite (word_at _ _ _ Hi). unfold le_bytes. rewrite reverse_involutive.
  apply be_value_bytes. pose proof (Forall_lookup_1 _ _ _ _ Hd Hi) as Hw. cbn in Hw. change (256 ^ Z.of_nat 8) with 18446744073709551616.
  unfold fieldModulus in Hw. lia.
Qed.

Lemma DigestFromBytes_Bytes d : digest_ok d → DigestFromBytes (Digest_Bytes d) = Ok d.
Proof.
  intros Hd. pose proof (canonical_ok d Hd) as Hc. destruct Hd as [Hl Hw]. unfold DigestFromBytes.
  assert (Hb : length (Digest_Bytes d) = 40%nat) by (unfold Digest_Bytes, appendWords; cbn [app]; rewrite length_words, Hl; done).
  rewrite Hb. cbn [Nat.eqb negb]. assert (E : leWord (Digest_Bytes d) <$> seq 0 5 = d).
  { apply list_eq. intros i. rewrite list_lookup_fmap. destruct (decide (i < 5)%nat) as [Hi|Hi].
    - rewrite lookup_seq_lt by done. cbn [fmap option_fmap option_map Nat.add]. destruct (lookup_lt_is_Some_2 d i) as [w Hd]; [lia|].
      rewrite Hd. f_equal. by apply leWord_bytes.
    - rewrite lookup_seq_ge, lookup_ge_None_2 by lia. done. }
  by rewrite E, Hc.
Qed.

Lemma Digest_Bytes_inj d d' : digest_ok d → digest_ok d' → Digest_Bytes d = Digest_Bytes d' → d = d'.
Proof. intros H H' E. apply DigestFromBytes_Bytes in H, H'. rewrite E in H. rewrite H in H'. by apply Ok_inj in H'. Qed.

Lemma le_bytes_ok n x : bytes_ok (le_bytes n x).
Proof. apply Forall_reverse, be_bytes_ok. Qed.

Lemma Digest_Bytes_ok d : bytes_ok (Digest_Bytes d).
Proof.
  unfold Digest_Bytes, appendWords. cbn [app]. induction d as [|w d IH]; [constructor|]. cbn [fmap list_fmap concat].
  apply Forall_app. split; [apply le_bytes_ok|done].
Qed.

(** ** Slots in use *)

(** The roles under which the shielded pool stores its slots. *)
Definition treeRoles (t : tree) : list bytes :=
  [(t.(t_pre) ++ str "node") ++ str "/0"; (t.(t_pre) ++ str "node") ++ str "/1"; t.(t_pre) ++ str "node-present"; t.(t_id);
   t.(t_pre) ++ str "next-index"; t.(t_pre) ++ str "root"; (t.(t_pre) ++ str "current-root") ++ str "/0";
   (t.(t_pre) ++ str "current-root") ++ str "/1"].

Definition shieldedRoles : list bytes :=
  treeRoles noteTree ++ treeRoles stampTree
  ++ [str "stamp/address"; str "stamp/address-owner/0"; str "stamp/address-owner/1"; str "stamp/address-commitment/0";
      str "stamp/address-commitment/1"; str "nullifier"; str "commitment"; str "governance/address-vote/active";
      str "governance/address-vote/reason"; str "governance/address-vote/count"; str "governance/address-vote/suspended";
      str "oracle/round"; str "oracle/observation"; str "oracle/value-length"; str "oracle/value"; str "cross-chain/replay";
      str "cross-chain/payload-length"; str "cross-chain/payload"; str "validator/record-chunk-count"; str "validator/record-byte-length";
      str "validator/record-chunk"; str "validator/index"; str "validator/count"; str "validator/evidence"].

(** No role with its slash is the beginning of another. *)
Definition prefixFree (roles : list bytes) : bool :=
  forallb (λ r, forallb (λ r', bool_decide (r = r') || negb (has_prefix (r' ++ str "/") (r ++ str "/"))) roles) roles.

Lemma roles_prefix_free : prefixFree shieldedRoles = true.
Proof. vm_compute. reflexivity. Qed.

Lemma app_prefix (a b x y : bytes) : a ++ x = b ++ y → has_prefix a b = true ∨ has_prefix b a = true.
Proof.
  intros E. apply app_eq_inv in E as [(k & -> & _)|(k & -> & _)]; [left|right]; apply has_prefix_app.
Qed.

Lemma role_data_inj r d r' d' : r ∈ shieldedRoles → r' ∈ shieldedRoles → r ++ str "/" ++ d = r' ++ str "/" ++ d' → r = r' ∧ d = d'.
Proof.
  intros Hr Hr' E. assert (Hrr : r = r').
  { pose proof roles_prefix_free as Hf. unfold prefixFree in Hf. apply Is_true_true in Hf. rewrite forallb_True, Forall_forall in Hf.
    assert (Hfree : ∀ r r', r ∈ shieldedRoles → r' ∈ shieldedRoles → has_prefix (r' ++ str "/") (r ++ str "/") = true → r = r').
    { intros x y Hx Hy Hp. specialize (Hf x Hx). rewrite forallb_True, Forall_forall in Hf. specialize (Hf y Hy).
      rewrite Hp, orb_false_r in Hf. by apply bool_decide_unpack in Hf. }
    rewrite !app_assoc in E. apply app_prefix in E as [H|H]; [symmetry|]; by apply Hfree. }
  subst. by do 2 apply app_inv_head in E.
Qed.

Section Use.
Context {X : Externals} {N : Native} {U : Uint256} {S : Type} {W : WorldState S}.

(** The data in use under each role. *)
Context (P : bytes → bytes → Prop).
Definition used (r d : bytes) : Prop := r ∈ shieldedRoles ∧ P r d.

(** SHA-512, cut to 32 bytes, has no collision among the slots in use. *)
Class NoCollision :=
  no_collision r d r' d' : used r d → used r' d' → ShieldedV3StateSlot r d = ShieldedV3StateSlot r' d' →
    str "TKM_SHIELD3_STATE_V1/" ++ r ++ str "/" ++ d = str "TKM_SHIELD3_STATE_V1/" ++ r' ++ str "/" ++ d'.
Context {HC : NoCollision}.

Lemma slot_inj r d r' d' : used r d → used r' d' → ShieldedV3StateSlot r d = ShieldedV3StateSlot r' d' → r = r' ∧ d = d'.
Proof using HC.
  intros Hu Hu' E. apply (no_collision r d r' d' Hu Hu') in E. apply app_inv_head in E. by apply role_data_inj; [apply Hu|apply Hu'|].
Qed.

Lemma pool_slot_set st r d v r' d' : used r d → used r' d' →
  getSlot (setSlot st r d v) r' d' = if decide (r = r' ∧ d = d') then v else getSlot st r' d'.
Proof using HC.
  intros Hu Hu'. unfold getSlot, setSlot. rewrite GetState_SetState. destruct (decide (r = r' ∧ d = d')) as [[-> ->]|Hne].
  - by rewrite decide_True.
  - rewrite decide_False; [done|]. intros [_ He]. apply Hne. by apply slot_inj.
Qed.

Lemma slot_set_eq st r d v : getSlot (setSlot st r d v) r d = v.
Proof. apply GetState_SetState_eq. Qed.

Lemma slot_set_ne st r d v r' d' : used r d → used r' d' → ¬ (r = r' ∧ d = d') → getSlot (setSlot st r d v) r' d' = getSlot st r' d'.
Proof using HC. intros Hu Hu' Hne. rewrite pool_slot_set, decide_False; done. Qed.

(** What only writes to the slots of the pool leaves alone. *)
Record frame (Wr : bytes → bytes → Prop) (st st' : S) : Prop := {
  fr_slots r d : used r d → ¬ Wr r d → getSlot st' r d = getSlot st r d;
  fr_balance a : GetBalance st' a = GetBalance st a;
  fr_nonce a : GetNonce st' a = GetNonce st a;
  fr_code a : GetCodeSize st' a = GetCodeSize st a;
  fr_other a k : a ≠ ShieldedPoolAddress → GetState st' a k = GetState st a k;
  fr_rest k : (∀ r d, used r d → k ≠ ShieldedV3StateSlot r d) → GetState st' ShieldedPoolAddress k = GetState st ShieldedPoolAddress k;
}.

Lemma frame_refl Wr st : frame Wr st st.
Proof. by split. Qed.

Lemma frame_trans Wr st1 st2 st3 : frame Wr st1 st2 → frame Wr st2 st3 → frame Wr st1 st3.
Proof.
  intros [A1 A2 A3 A4 A5 A6] [B1 B2 B3 B4 B5 B6]. split; intros; [rewrite B1|rewrite B2|rewrite B3|rewrite B4|rewrite B5|rewrite B6]; auto.
Qed.

Lemma frame_weaken (Wr Wr' : bytes → bytes → Prop) st st' : (∀ r d, Wr r d → Wr' r d) → frame Wr st st' → frame Wr' st st'.
Proof. intros H [A1 A2 A3 A4 A5 A6]. split; auto. Qed.

Lemma frame_set Wr st r d v : used r d → Wr r d → frame Wr st (setSlot st r d v).
Proof using HC.
  intros Hu Hw. split; intros; unfold setSlot; ws_simpl; try done.
  - apply slot_set_ne; try done. intros [-> ->]. done.
  - apply GetState_SetState_ne. left. done.
  - apply GetState_SetState_ne. right. intros E. by eapply H.
Qed.

(** *** Digests in storage *)

Lemma frame_digest Wr st role key d :
  used (role ++ str "/0") key → used (role ++ str "/1") key → Wr (role ++ str "/0") key → Wr (role ++ str "/1") key →
  frame Wr st (v3WriteDigest st role key d).
Proof using HC. intros H0 H1 W0 W1. unfold v3WriteDigest. eapply frame_trans; by apply frame_set. Qed.

Lemma digest_split d : digest_ok d →
  hash_bytes (BytesToHash (take 32 (Digest_Bytes d))) = take 32 (Digest_Bytes d)
  ∧ hash_bytes (BytesToHash (drop 32 (Digest_Bytes d))) = replicate 24 0 ++ drop 32 (Digest_Bytes d).
Proof.
  intros [Hl _]. assert (Hb : length (Digest_Bytes d) = 40%nat) by (unfold Digest_Bytes, appendWords; cbn [app]; rewrite length_words, Hl; done).
  pose proof (Digest_Bytes_ok d) as Hok. set (raw := Digest_Bytes d) in *.
  assert (Hh : length (take 32 raw) = 32%nat) by (rewrite length_take; lia). assert (Ht : length (drop 32 raw) = 8%nat) by (rewrite length_drop; lia).
  unfold hash_bytes. split.
  - rewrite BytesToHash_32 by done. rewrite <- Hh at 1. apply be_bytes_value. by apply Forall_take.
  - unfold BytesToHash. rewrite Ht. cbn [Nat.ltb Nat.leb]. pose proof (Forall_drop is_byte 32 raw Hok) as Hd.
    generalize dependent (drop 32 raw). intros tl Ht Hd. pose proof (be_value_bound tl Hd) as Hv. rewrite Ht in Hv.
    rewrite (be_bytes_split 24 8), Z.div_small by done. change (be_bytes 24 0) with (replicate 24 0). f_equal. rewrite <- Ht. by apply be_bytes_value.
Qed.

Lemma read_write_digest st role key d : digest_ok d → used (role ++ str "/0") key → used (role ++ str "/1") key →
  v3ReadDigest (v3WriteDigest st role key d) role key = Ok d.
Proof using HC.
  intros Hd H0 H1. destruct (digest_split d Hd) as [E0 E1]. unfold v3ReadDigest, v3WriteDigest.
  rewrite slot_set_eq, (slot_set_ne _ _ _ _ _ _ H1 H0), slot_set_eq.
  2: { intros [E _]. apply app_inv_head in E. by vm_compute in E. }
  rewrite E0, E1, take_app_length', drop_app_length' by done. cbn [existsb replicate Z.eqb negb orb].
  rewrite take_drop. by apply DigestFromBytes_Bytes.
Qed.

Lemma read_frame Wr st st' role key : frame Wr st st' → used (role ++ str "/0") key → used (role ++ str "/1") key →
  ¬ Wr (role ++ str "/0") key → ¬ Wr (role ++ str "/1") key → v3ReadDigest st' role key = v3ReadDigest st role key.
Proof. intros Hf H0 H1 N0 N1. unfold v3ReadDigest. by rewrite !(fr_slots _ _ _ Hf). Qed.

(** ** The slots of one tree *)

Context (t : tree) (Dg : Digest → Prop).

Inductive tkey :=
| TNode0 (level : nat) (i : Z)
| TNode1 (level : nat) (i : Z)
| TPresent (level : nat) (i : Z)
| TId (d : Digest)
| TNext
| TRoot (d : Digest)
| TCur0
| TCur1.

Definition posOf (k : tkey) : nat :=
  match k with
  | TNode0 _ _ => 0 | TNode1 _ _ => 1 | TPresent _ _ => 2 | TId _ => 3 | TNext => 4 | TRoot _ => 5 | TCur0 => 6 | TCur1 => 7
  end.

Definition roleOf (k : tkey) : bytes :=
  match k with
  | TNode0 _ _ => (t.(t_pre) ++ str "node") ++ str "/0"
  | TNode1 _ _ => (t.(t_pre) ++ str "node") ++ str "/1"
  | TPresent _ _ => t.(t_pre) ++ str "node-present"
  | TId _ => t.(t_id)
  | TNext => t.(t_pre) ++ str "next-index"
  | TRoot _ => t.(t_pre) ++ str "root"
  | TCur0 => (t.(t_pre) ++ str "current-root") ++ str "/0"
  | TCur1 => (t.(t_pre) ++ str "current-root") ++ str "/1"
  end.

Definition dataOf (k : tkey) : bytes :=
  match k with
  | TNode0 level i | TNode1 level i | TPresent level i => v3NodeKey level i
  | TId d | TRoot d => Digest_Bytes d
  | _ => []
  end.

Definition key_use (k : tkey) : Prop :=
  match k with
  | TNode0 level i | TNode1 level i | TPresent level i => (level <= 32)%nat ∧ 0 <= i < 2 ^ 32
  | TId d | TRoot d => Dg d
  | _ => True
  end.

(** The digests that occur: hashing them succeeds. *)
Class Digests := {
  dg_ok d : Dg d → digest_ok d;
  dg_zero : Dg zeroDigest;
  dg_pair a b : Dg a → Dg b → ∃ d, HashPair a b = Ok d ∧ Dg d;
}.

(** The slots of the tree are in use, and its roles differ. *)
Class TreeUse := {
  tu_used k : key_use k → used (roleOf k) (dataOf k);
  tu_roles : NoDup (treeRoles t);
}.

Context {HD : Digests} {HT : TreeUse}.

Lemma nodeKey_inj level level' i i' : (level <= 32)%nat → (level' <= 32)%nat → 0 <= i < 2 ^ 32 → 0 <= i' < 2 ^ 32 →
  v3NodeKey level i = v3NodeKey level' i' → level = level' ∧ i = i'.
Proof.
  intros H1 H2 H3 H4 E. unfold v3NodeKey in E. apply app_inj_1 in E as [E1 E2]; [|by rewrite !length_be_bytes].
  apply be_bytes_inj in E1; [|change (256 ^ Z.of_nat 4) with (2 ^ 32); lia..].
  apply be_bytes_inj in E2; [|change (256 ^ Z.of_nat 8) with (2 ^ 64); lia..]. lia.
Qed.

Lemma key_inj k k' : key_use k → key_use k' → roleOf k = roleOf k' → dataOf k = dataOf k' → k = k'.
Proof using HD HT.
  intros Hk Hk' Hr Hd. assert (Hp : posOf k = posOf k').
  { apply (NoDup_lookup (treeRoles t) _ _ (roleOf k)); [apply tu_roles|by destruct k|]. rewrite Hr. by destruct k'. }
  destruct k, k'; try done; cbn in Hk, Hk', Hd; f_equal; try (eapply nodeKey_inj; [..|exact Hd]; tauto);
    apply Digest_Bytes_inj; try done; by apply dg_ok.
Qed.

Definition getK (st : S) (k : tkey) : hash := getSlot st (roleOf k) (dataOf k).
Definition keys (K : tkey → Prop) (r d : bytes) : Prop := ∃ k, key_use k ∧ K k ∧ r = roleOf k ∧ d = dataOf k.

Lemma keys_not K k : key_use k → ¬ K k → ¬ keys K (roleOf k) (dataOf k).
Proof using HD HT. intros Hk Hn (k' & Hk' & HK & Hr & Hd). apply Hn. by rewrite (key_inj k k'). Qed.

Lemma frame_mono (K K' : tkey → Prop) st st' : (∀ k, K k → K' k) → frame (keys K) st st' → frame (keys K') st st'.
Proof. intros H. apply frame_weaken. intros r d (k & Hk & HK & Hr). exists k. split_and!; [done|by apply H|apply Hr..]. Qed.

Lemma frame_get K st st' k : frame (keys K) st st' → key_use k → ¬ K k → getK st' k = getK st k.
Proof using HD HT. intros Hf Hk Hn. apply (fr_slots _ _ _ Hf); [by apply tu_used|by apply keys_not]. Qed.

Definition readNode (st : S) (level : nat) (i : Z) : result vError Digest := v3ReadDigest st (t.(t_pre) ++ str "node") (v3NodeKey level i).

Lemma frame_readNode K st st' level i : frame (keys K) st st' → (level <= 32)%nat → 0 <= i < 2 ^ 32 →
  ¬ K (TNode0 level i) → ¬ K (TNode1 level i) → readNode st' level i = readNode st level i.
Proof using HD HT.
  intros Hf Hl Hi N0 N1. pose proof (tu_used (TNode0 level i) ltac:(done)). pose proof (tu_used (TNode1 level i) ltac:(done)).
  unfold readNode. eapply read_frame; try done; [apply (keys_not K (TNode0 level i))|apply (keys_not K (TNode1 level i))]; done.
Qed.

Lemma frame_treeNode K st st' level i zs : frame (keys K) st st' → (level <= 32)%nat → 0 <= i < 2 ^ 32 →
  ¬ K (TNode0 level i) → ¬ K (TNode1 level i) → ¬ K (TPresent level i) → treeNode t st' level i zs = treeNode t st level i zs.
Proof using HD HT.
  intros Hf Hl Hi N0 N1 N2. unfold treeNode. fold (readNode st level i) (readNode st' level i).
  rewrite (frame_readNode K st st') by done.
  pose proof (frame_get K st st' (TPresent level i) Hf ltac:(done) N2) as E. unfold getK in E. cbn [roleOf dataOf] in E. by rewrite E.
Qed.

(** ** The reference tree *)

Definition hp (a b : Digest) : Digest := match HashPair a b with Ok d => d | Err _ => zeroDigest end.

Abbreviation node := (Merkle.node hp zeroDigest).
Abbreviation zeroNode := (Merkle.zeroNode hp zeroDigest).

Lemma HashPair_hp a b : Dg a → Dg b → HashPair a b = Ok (hp a b) ∧ Dg (hp a b).
Proof using HD. intros Ha Hb. destruct (dg_pair a b Ha Hb) as (d & E & Hd). unfold hp. by rewrite E. Qed.

Lemma zeroNode_dg level : Dg (zeroNode level).
Proof using HD. induction level as [|level IH]; [apply dg_zero|]. by apply HashPair_hp. Qed.

Lemma node_dg l level i : Forall Dg l → Dg (node l level i).
Proof using HD.
  intros Hl. revert i. induction level as [|level IH]; intros i; cbn [Merkle.node]; [|by apply HashPair_hp].
  destruct (l !! Z.to_nat i) eqn:E; [by eapply Forall_lookup_1|apply dg_zero].
Qed.

Definition zeroes : list Digest := zeroNode <$> seq 0 33.

Lemma v3Zeroes_ok : v3Zeroes = Ok zeroes.
Proof using HD.
  assert (H : ∀ n k, v3ZeroLoop n (zeroNode k) = Ok (zeroNode <$> seq (Datatypes.S k) n)).
  { induction n as [|n IH]; intros k; cbn [v3ZeroLoop seq fmap list_fmap]; [done|].
    destruct (HashPair_hp (zeroNode k) (zeroNode k)) as [E _]; [apply zeroNode_dg..|]. rewrite E. cbn [mbind result_bind].
    change (hp (zeroNode k) (zeroNode k)) with (zeroNode (Datatypes.S k)). by rewrite IH. }
  unfold v3Zeroes. change zeroDigest with (zeroNode 0). by rewrite H.
Qed.

Lemma zeroes_lookup level : (level <= 32)%nat → default zeroDigest (zeroes !! level) = zeroNode level.
Proof. intros Hl. unfold zeroes. rewrite list_lookup_fmap, lookup_seq_lt by lia. done. Qed.

#[local] Opaque Merkle.node Merkle.zeroNode zeroes.

(** ** Appending *)

(** The nodes above leaf [n], from [level] on. *)
Definition above (n : Z) (level : nat) (k : tkey) : Prop :=
  ∃ j, (level <= j <= 32)%nat ∧ (k = TNode0 j (n / 2 ^ Z.of_nat j) ∨ k = TNode1 j (n / 2 ^ Z.of_nat j) ∨ k = TPresent j (n / 2 ^ Z.of_nat j)).

Lemma div_range n j : 0 <= n < 2 ^ 32 → 0 <= n / 2 ^ Z.of_nat j < 2 ^ 32.
Proof.
  intros Hn. assert (1 <= 2 ^ Z.of_nat j) by lia. split; [apply Z.div_pos; lia|].
  apply Z.div_lt_upper_bound; [lia|]. nia.
Qed.

Lemma sibling_range i j : 0 <= i < 2 ^ (32 - Z.of_nat j) → (j < 32)%nat → 0 <= Z.lxor i 1 < 2 ^ (32 - Z.of_nat j).
Proof.
  intros Hi Hj. destruct (Z.even i) eqn:He.
  - rewrite Merkle.lxor_even by (done || lia). split; [lia|]. replace (32 - Z.of_nat j) with (1 + (31 - Z.of_nat j)) in * by lia.
    rewrite Z.pow_add_r in * by lia. pose proof (Merkle.even_half i He). lia.
  - rewrite Merkle.lxor_odd by (done || lia). pose proof (Merkle.odd_half i He). lia.
Qed.

Lemma div_range' n j : 0 <= n < 2 ^ 32 → (j <= 32)%nat → 0 <= n / 2 ^ Z.of_nat j < 2 ^ (32 - Z.of_nat j).
Proof.
  intros Hn Hj. split; [apply Z.div_pos; lia|]. apply Z.div_lt_upper_bound; [lia|]. rewrite <- Z.pow_add_r by lia.
  replace (Z.of_nat j + (32 - Z.of_nat j)) with 32 by lia. lia.
Qed.

Lemma sibling_ne i : 0 <= i → Z.lxor i 1 ≠ i.
Proof. intros Hi. destruct (Z.even i) eqn:He; [rewrite Merkle.lxor_even|rewrite Merkle.lxor_odd]; lia || done. Qed.

Lemma sibling_use n j : 0 <= n < 2 ^ 32 → (j < 32)%nat → 0 <= Z.lxor (n / 2 ^ Z.of_nat j) 1 < 2 ^ 32.
Proof.
  intros Hn Hj. pose proof (div_range' n j Hn ltac:(lia)) as Hd. apply sibling_range in Hd; [|done].
  assert (2 ^ (32 - Z.of_nat j) <= 2 ^ 32) by (apply Z.pow_le_mono_r; lia). lia.
Qed.

Lemma sibling_not_above n j level : 0 <= n →
  ¬ above n level (TNode0 j (Z.lxor (n / 2 ^ Z.of_nat j) 1)) ∧ ¬ above n level (TNode1 j (Z.lxor (n / 2 ^ Z.of_nat j) 1))
  ∧ ¬ above n level (TPresent j (Z.lxor (n / 2 ^ Z.of_nat j) 1)).
Proof.
  intros Hn. pose proof (sibling_ne (n / 2 ^ Z.of_nat j) ltac:(apply Z.div_pos; lia)).
  split_and!; intros (j' & _ & [E|[E|E]]); try discriminate E; injection E as <- E; by apply H.
Qed.

(** Writing one node. *)
Definition putNode (st : S) (level : nat) (i : Z) (d : Digest) : S :=
  setSlot (v3WriteDigest st (t.(t_pre) ++ str "node") (v3NodeKey level i) d) (t.(t_pre) ++ str "node-present") (v3NodeKey level i) (uint64Hash 1).

Lemma putNode_spec st n level d : 0 <= n < 2 ^ 32 → (level <= 32)%nat → Dg d →
  let i := n / 2 ^ Z.of_nat level in
  frame (keys (above n level)) st (putNode st level i d) ∧ getK (putNode st level i d) (TPresent level i) = 1
  ∧ readNode (putNode st level i d) level i = Ok d.
Proof using HC HD HT.
  intros Hn Hl Hd i. pose proof (div_range n level Hn : 0 <= i < 2 ^ 32) as Hi.
  assert (U0 : key_use (TNode0 level i)) by done. assert (U1 : key_use (TNode1 level i)) by done. assert (U2 : key_use (TPresent level i)) by done.
  assert (A : ∀ k, key_use k → k = TNode0 level i ∨ k = TNode1 level i ∨ k = TPresent level i → keys (above n level) (roleOf k) (dataOf k)).
  { intros k Hk Ho. exists k. split_and!; try done. exists level. split; [lia|done]. }
  unfold putNode. set (st1 := v3WriteDigest _ _ _ _).
  assert (F2 : frame (keys (λ k, k = TPresent level i)) st1 (setSlot st1 (t.(t_pre) ++ str "node-present") (v3NodeKey level i) (uint64Hash 1))).
  { apply frame_set; [apply (tu_used (TPresent level i) U2)|]. by exists (TPresent level i). }
  split_and!.
  - eapply frame_trans; [apply frame_digest|eapply frame_weaken; [|exact F2]].
    + apply (tu_used _ U0).
    + apply (tu_used _ U1).
    + apply (A _ U0). by left.
    + apply (A _ U1). right. by left.
    + intros r d' (k & Hk & -> & -> & ->). apply A; [done|]. by right; right.
  - unfold getK. cbn [roleOf dataOf]. rewrite slot_set_eq. rewrite uint64Hash_id by (unfold is_u64, two64; lia). done.
  - rewrite (frame_readNode _ _ _ level i F2) by done. apply read_write_digest; [by apply dg_ok|apply (tu_used _ U0)|apply (tu_used _ U1)].
Qed.

Lemma loop_cond cursor : 0 <= cursor → (Z.land cursor 1 =? 0) = Z.even cursor.
Proof.
  intros Hc. change 1 with (Z.ones 1). rewrite Z.land_ones by lia. change (2 ^ 1) with 2. rewrite Zmod_even. by destruct (Z.even cursor).
Qed.

Lemma loop_ok l n m level st : (m + level = 32)%nat → 0 <= n < 2 ^ 32 → Forall Dg l →
  (∀ j, (level <= j < 32)%nat →
    treeNode t st j (Z.lxor (n / 2 ^ Z.of_nat j) 1) zeroes = Ok (node l j (Z.lxor (n / 2 ^ Z.of_nat j) 1))) →
  ∃ st', appendLoop t m level (n / 2 ^ Z.of_nat level) (node l level (n / 2 ^ Z.of_nat level)) zeroes st
         = (Ok (node l 32 (n / 2 ^ 32)), st')
    ∧ frame (keys (above n level)) st st'
    ∧ ∀ j, (level <= j <= 32)%nat →
        getK st' (TPresent j (n / 2 ^ Z.of_nat j)) = 1 ∧ readNode st' j (n / 2 ^ Z.of_nat j) = Ok (node l j (n / 2 ^ Z.of_nat j)).
Proof using HC HD HT.
  revert level st. induction m as [|m IH]; intros level st Hm Hn Hl Hs;
    destruct (putNode_spec st n level (node l level (n / 2 ^ Z.of_nat level)) Hn ltac:(lia) ltac:(by apply node_dg)) as (Hf & Hp & Hr);
    cbn [appendLoop]; fold (putNode st level (n / 2 ^ Z.of_nat level) (node l level (n / 2 ^ Z.of_nat level)));
    set (st1 := putNode _ _ _ _) in *.
  - assert (level = 32%nat) as -> by lia. exists st1. split_and!; [done..|]. intros j Hj. assert (j = 32%nat) as -> by lia. done.
  - destruct (sibling_not_above n level level ltac:(lia)) as (N0 & N1 & N2).
    rewrite (frame_treeNode _ _ _ _ _ _ Hf), Hs by (try done; try lia; by apply sibling_use; lia).
    pose proof (div_range n level Hn) as Hi. rewrite loop_cond by lia.
    set (cur := n / 2 ^ Z.of_nat level) in *.
    assert (E : (if Z.even cur then HashPair (node l level cur) (node l level (Z.lxor cur 1))
                 else HashPair (node l level (Z.lxor cur 1)) (node l level cur)) = Ok (node l (Datatypes.S level) (Z.div2 cur))).
    { rewrite Merkle.node_up by lia. destruct (Z.even cur); apply HashPair_hp; by apply node_dg. }
    rewrite E. rewrite <- Z.div2_spec. unfold cur. rewrite <- Merkle.div_half.
    destruct (IH (Datatypes.S level) st1) as (st' & E' & Hf' & Hn'); [lia|done|done| |].
    { intros j Hj. destruct (sibling_not_above n j level ltac:(lia)) as (M0 & M1 & M2).
      rewrite (frame_treeNode _ _ _ _ _ _ Hf) by (try done; try lia; by apply sibling_use; lia). apply Hs. lia. }
    exists st'. rewrite E'. split_and!; [done| |].
    + eapply frame_trans; [exact Hf|]. eapply frame_weaken; [|exact Hf']. intros r d (k & Hk & (j & Hj & Ho) & Hrd).
      exists k. split_and!; try done; [exists j; split; [lia|done]|tauto..].
    + intros j Hj. destruct (decide (j = level)) as [->|Hne]; [|apply Hn'; lia]. fold cur.
      assert (Hno : ∀ k, k = TNode0 level cur ∨ k = TNode1 level cur ∨ k = TPresent level cur → ¬ above n (Datatypes.S level) k).
      { intros k Ho (j & Hj' & Ho'). destruct Ho as [->|[->| ->]], Ho' as [E1|[E1|E1]]; try discriminate E1; injection E1 as E1 _; lia. }
      assert (level <= 32)%nat by lia. rewrite (frame_get _ _ _ _ Hf'), (frame_readNode _ _ _ _ _ Hf') by (try done; try lia; apply Hno; tauto). done.
Qed.

(** The slots written behind the loop. *)
Definition finish_keys (id cur : Digest) (k : tkey) : Prop := k = TId id ∨ k = TNext ∨ k = TRoot cur ∨ k = TCur0 ∨ k = TCur1.

(** Two keys that differ. *)
Ltac key_ne :=
  let H := fresh in intros H; cbn beta delta [finish_keys] in H; repeat (destruct H as [H|H]); first [discriminate H | congruence].

(** The writes behind the loop. *)
Definition setK (st : S) (k : tkey) (v : hash) : S := setSlot st (roleOf k) (dataOf k) v.

Lemma getK_set st k k' v : key_use k → key_use k' → getK (setK st k v) k' = if decide (roleOf k = roleOf k' ∧ dataOf k = dataOf k') then v else getK st k'.
Proof using HC HT. intros Hk Hk'. unfold getK, setK. by apply pool_slot_set; apply tu_used. Qed.

Lemma frame_setK (K : tkey → Prop) st k v : key_use k → K k → frame (keys K) st (setK st k v).
Proof using HC HT. intros Hk HK. apply frame_set; [by apply tu_used|by exists k]. Qed.

Definition readRoot (st : S) : result vError Digest := v3ReadDigest st (t.(t_pre) ++ str "current-root") [].

Lemma finish_spec st id index cur h : Dg id → Dg cur → 0 <= index < 2 ^ 32 →
  let st' := finishAppend t id index cur h st in
  frame (keys (finish_keys id cur)) st st' ∧ getK st' (TId id) = index + 1 ∧ getK st' TNext = index + 1 ∧ getK st' (TRoot cur) = h
  ∧ readRoot st' = Ok cur.
Proof using HC HD HT.
  intros Hid Hcur Hi st'. assert (Hu : uint64Hash (index +₆₄ 1) = index + 1).
  { rewrite u64_add_no_wrap by (unfold is_u64, two64; lia). apply uint64Hash_id. unfold is_u64, two64. lia. }
  subst st'. unfold finishAppend. rewrite Hu.
  set (st1 := setSlot st _ _ _). set (st2 := setSlot st1 _ _ _). set (st3 := setSlot st2 _ _ _). set (st4 := v3WriteDigest _ _ _ _).
  assert (F1 : frame (keys (λ k, k = TId id)) st st1) by (by apply (frame_setK _ st (TId id))).
  assert (F2 : frame (keys (λ k, k = TNext)) st1 st2) by (by apply (frame_setK _ st1 TNext)).
  assert (F3 : frame (keys (λ k, k = TRoot cur)) st2 st3) by (by apply (frame_setK _ st2 (TRoot cur))).
  pose proof (tu_used TCur0 I) as U0. pose proof (tu_used TCur1 I) as U1.
  assert (F4 : frame (keys (λ k, k = TCur0 ∨ k = TCur1)) st3 st4).
  { apply frame_digest; [exact U0|exact U1|..]; [exists TCur0|exists TCur1]; split_and!; try done; [by left|by right]. }
  assert (E1 : getK st1 (TId id) = index + 1) by apply slot_set_eq. assert (E2 : getK st2 TNext = index + 1) by apply slot_set_eq.
  assert (E3 : getK st3 (TRoot cur) = h) by apply slot_set_eq.
  split_and!.
  - eapply frame_trans; [eapply frame_mono; [|exact F1]|eapply frame_trans; [eapply frame_mono; [|exact F2]|eapply frame_trans;
      [eapply frame_mono; [|exact F3]|eapply frame_mono; [|exact F4]]]]; unfold finish_keys; clear; tauto.
  - rewrite (frame_get _ _ _ _ F4), (frame_get _ _ _ _ F3), (frame_get _ _ _ _ F2) by (done || key_ne). done.
  - rewrite (frame_get _ _ _ _ F4), (frame_get _ _ _ _ F3) by (done || key_ne). done.
  - rewrite (frame_get _ _ _ _ F4) by (done || key_ne). done.
  - unfold readRoot, st4. rewrite read_write_digest; [done|by apply dg_ok|exact U0|exact U1].
Qed.

(** ** The tree a list of entries is stored as *)

(** An entry is the key of its index slot and its leaf. *)
Abbreviation entry := (Digest * Digest)%type.
Definition leaves (es : list entry) : list Digest := snd <$> es.
Definition treeRoot (es : list entry) : Digest := Merkle.root hp zeroDigest 32 (leaves es).

(** The slot holds one more than the last position of [d], and zero when there is none. *)
Definition id_at (ids : list Digest) (d : Digest) (v : Z) : Prop :=
  (v = 0 ∧ d ∉ ids) ∨ ∃ i, ids !! i = Some d ∧ (∀ j, (i < j)%nat → ids !! j ≠ Some d) ∧ v = Z.of_nat i + 1.

Record tree_holds (st : S) (es : list entry) : Prop := {
  th_size : Z.of_nat (length es) <= 2 ^ 32;
  th_dg : Forall (λ e, Dg e.1 ∧ Dg e.2) es;
  th_next : getK st TNext = Z.of_nat (length es);
  th_node level i : (level <= 32)%nat → 0 <= i < 2 ^ 32 → i * 2 ^ Z.of_nat level < Z.of_nat (length es) →
    getK st (TPresent level i) = 1 ∧ readNode st level i = Ok (node (leaves es) level i);
  th_absent level i : (level <= 32)%nat → 0 <= i < 2 ^ 32 → Z.of_nat (length es) <= i * 2 ^ Z.of_nat level →
    getK st (TPresent level i) = 0;
  th_id d : Dg d → id_at (fst <$> es) d (getK st (TId d));
  th_root : es ≠ [] → readRoot st = Ok (treeRoot es);
  th_known d : Dg d → getK st (TRoot d) ≠ 0 ↔ ∃ n, (0 < n <= length es)%nat ∧ d = treeRoot (take n es);
}.

Lemma length_leaves es : length (leaves es) = length es.
Proof. apply length_fmap. Qed.

Lemma leaves_dg es : Forall (λ e : entry, Dg e.1 ∧ Dg e.2) es → Forall Dg (leaves es).
Proof. intros H. apply Forall_fmap. eapply Forall_impl; [exact H|]. intros e He. apply He. Qed.

(** Every node is found, stored or not. *)
Lemma treeNode_holds st es level i : tree_holds st es → (level <= 32)%nat → 0 <= i < 2 ^ 32 →
  treeNode t st level i zeroes = Ok (node (leaves es) level i).
Proof.
  intros H Hl Hi. unfold treeNode. fold (readNode st level i).
  change (getSlot st (t.(t_pre) ++ str "node-present") (v3NodeKey level i)) with (getK st (TPresent level i)).
  destruct (decide (i * 2 ^ Z.of_nat level < Z.of_nat (length es))) as [Hs|Hs].
  - destruct (th_node _ _ H level i Hl Hi Hs) as [-> ->]. reflexivity.
  - rewrite (th_absent _ _ H level i Hl Hi) by lia. cbn. rewrite zeroes_lookup by done. f_equal. symmetry.
    apply Merkle.node_zero; [lia|]. rewrite length_leaves. lia.
Qed.

Lemma id_at_snoc ids d v id : id_at ids d v → id_at (ids ++ [id]) d (if decide (id = d) then Z.of_nat (length ids) + 1 else v).
Proof.
  intros Hv. destruct (decide (id = d)) as [->|Hne].
  - right. exists (length ids). split_and!; [|intros j Hj; rewrite lookup_ge_None_2; [done|rewrite length_app; cbn; lia]|done].
    by rewrite lookup_app_r, Nat.sub_diag by lia.
  - destruct Hv as [[-> Hn]|(i & Hi & Hj & ->)]; [left; split; [done|set_solver]|]. right. exists i.
    split_and!; [by apply lookup_app_l_Some| |done]. intros j Hj' Hjd. apply lookup_app_Some in Hjd as [Hjd|[_ Hjd]]; [by apply (Hj j)|].
    apply list_lookup_singleton_Some in Hjd as [_ Hjd]. done.
Qed.

(** What an append writes: the nodes above the new leaf, its index, the size and the root. *)
Definition appended (st st2 : S) (es : list entry) (id leaf : Digest) (h : hash) : Prop :=
  let n := Z.of_nat (length es) in
  let es' : list entry := es ++ [(id, leaf)] in
  (∀ level, (level <= 32)%nat → getK st2 (TPresent level (n / 2 ^ Z.of_nat level)) = 1
     ∧ readNode st2 level (n / 2 ^ Z.of_nat level) = Ok (node (leaves es') level (n / 2 ^ Z.of_nat level)))
  ∧ (∀ level i, (level <= 32)%nat → 0 <= i < 2 ^ 32 → i ≠ n / 2 ^ Z.of_nat level →
       getK st2 (TPresent level i) = getK st (TPresent level i) ∧ readNode st2 level i = readNode st level i)
  ∧ (∀ d, Dg d → getK st2 (TId d) = if decide (id = d) then n + 1 else getK st (TId d))
  ∧ (∀ d, Dg d → getK st2 (TRoot d) = if decide (treeRoot es' = d) then h else getK st (TRoot d))
  ∧ getK st2 TNext = n + 1 ∧ readRoot st2 = Ok (treeRoot es') ∧ frame (keys (λ _, True)) st st2.

Lemma leaves_snoc (es : list entry) id leaf : leaves (es ++ [(id, leaf)]) = leaves es ++ [leaf].
Proof. exact (fmap_app snd es [(id, leaf)]). Qed.

Lemma node_entry_snoc (es : list entry) id leaf level i : 0 <= i → i ≠ Z.of_nat (length es) / 2 ^ Z.of_nat level →
  node (leaves (es ++ [(id, leaf)])) level i = node (leaves es) level i.
Proof. intros Hi Hne. rewrite leaves_snoc. apply Merkle.node_snoc; [done|]. by rewrite length_leaves. Qed.

Lemma finish_appended st st1 (es : list entry) id leaf h :
  let n := Z.of_nat (length es) in
  let es' : list entry := es ++ [(id, leaf)] in
  0 <= n < 2 ^ 32 → Dg id → Dg (treeRoot es') → frame (keys (above n 0)) st st1 →
  (∀ j, (j <= 32)%nat → getK st1 (TPresent j (n / 2 ^ Z.of_nat j)) = 1
     ∧ readNode st1 j (n / 2 ^ Z.of_nat j) = Ok (node (leaves es') j (n / 2 ^ Z.of_nat j))) →
  appended st (finishAppend t id n (treeRoot es') h st1) es id leaf h.
Proof using HC HD HT.
  intros n es' Hn Hid Hr Hf Hw. destruct (finish_spec st1 id n (treeRoot es') h Hid Hr Hn) as (Hf2 & E1 & E2 & E3 & E4).
  set (st2 := finishAppend _ _ _ _ _ _) in *.
  assert (Hsame : ∀ k, key_use k → ¬ above n 0 k → ¬ finish_keys id (treeRoot es') k → getK st2 k = getK st k).
  { intros k Hk H1 H2. rewrite (frame_get _ _ _ _ Hf2), (frame_get _ _ _ _ Hf); done. }
  unfold appended. fold n es'. split_and!.
  - intros level Hl. pose proof (div_range n level Hn). rewrite (frame_get _ _ _ _ Hf2), (frame_readNode _ _ _ _ _ Hf2)
      by (done || key_ne). apply Hw. lia.
  - intros level i Hl Hi Hne.
    assert (Hno : ∀ k, k = TNode0 level i ∨ k = TNode1 level i ∨ k = TPresent level i → ¬ above n 0 k ∧ ¬ finish_keys id (treeRoot es') k).
    { intros k Ho. split; [intros (j & _ & Ho')|destruct Ho as [->|[->| ->]]; key_ne].
      destruct Ho as [->|[->| ->]], Ho' as [E|[E|E]]; try discriminate E; injection E as <- E; done. }
    split; [apply Hsame; [done|apply Hno; tauto..]|].
    rewrite (frame_readNode _ _ _ _ _ Hf2), (frame_readNode _ _ _ _ _ Hf) by (done || apply Hno; tauto). done.
  - intros d Hd. destruct (decide (id = d)) as [<-|Hne]; [done|].
    apply Hsame; [done|intros (j & _ & [Ho|[Ho|Ho]]); discriminate Ho|key_ne].
  - intros d Hd. destruct (decide (treeRoot es' = d)) as [<-|Hne]; [done|].
    apply Hsame; [done|intros (j & _ & [Ho|[Ho|Ho]]); discriminate Ho|key_ne].
  - done.
  - done.
  - eapply frame_trans; [eapply frame_mono; [|exact Hf]|eapply frame_mono; [|exact Hf2]]; done.
Qed.

Lemma append_writes st es id leaf h : tree_holds st es → Z.of_nat (length es) < 2 ^ 32 → Dg id → Dg leaf →
  let es' : list entry := es ++ [(id, leaf)] in
  ∃ st', appendLoop t 32 0 (Z.of_nat (length es)) leaf zeroes st = (Ok (treeRoot es'), st')
    ∧ appended st (finishAppend t id (Z.of_nat (length es)) (treeRoot es') h st') es id leaf h.
Proof using HC HD HT.
  intros H Hlt Hid Hleaf es'. set (n := Z.of_nat (length es)) in *. assert (Hn : 0 <= n < 2 ^ 32) by lia.
  assert (Hdg : Forall Dg (leaves es')) by (unfold es'; rewrite leaves_snoc; apply Forall_app; split; [apply leaves_dg, H|by apply Forall_singleton]).
  destruct (loop_ok (leaves es') n 32 0 st) as (st' & Eq & Hf & Hw); [lia|done|done| |].
  { intros j Hj. rewrite (treeNode_holds st es) by (done || lia || by apply sibling_use; lia). symmetry. f_equal.
    apply node_entry_snoc; [apply sibling_use; lia|]. apply sibling_ne. apply Z.div_pos; lia. }
  rewrite Z.div_1_r, Z.div_small in Eq by lia. change (node (leaves es') 32 0) with (treeRoot es') in Eq.
  assert (Hleaf' : node (leaves es') 0 n = leaf).
  { apply Merkle.node_leaf. unfold es'. rewrite leaves_snoc, lookup_app_r, length_leaves, Nat.sub_diag by (rewrite length_leaves; lia). done. }
  rewrite Hleaf' in Eq. exists st'. split; [done|]. apply finish_appended; [done|done|by apply node_dg|done|]. intros j Hj. apply Hw. lia.
Qed.

Lemma appended_holds st st2 es id leaf h : tree_holds st es → Z.of_nat (length es) < 2 ^ 32 → Dg id → Dg leaf → h ≠ 0 →
  appended st st2 es id leaf h → tree_holds st2 (es ++ [(id, leaf)]).
Proof.
  intros H Hlt Hid Hleaf Hh (Hon & Hpath & HI & HR & E1 & E2 & _). set (n := Z.of_nat (length es)) in *. set (es' := es ++ [(id, leaf)]) in *.
  assert (Hlen' : length es' = Datatypes.S (length es)) by (unfold es'; rewrite length_app; cbn; lia).
  split.
  - lia.
  - apply Forall_app. split; [apply H|by apply Forall_singleton].
  - rewrite E1. lia.
  - intros level i Hl Hi Hs. destruct (decide (i = n / 2 ^ Z.of_nat level)) as [->|Hne]; [by apply Hon|].
    destruct (Hpath level i Hl Hi Hne) as [-> ->]. unfold es'. rewrite node_entry_snoc by (done || lia). apply (th_node _ _ H); [done..|].
    pose proof (Merkle.div_spec n level ltac:(lia)). fold n. nia.
  - intros level i Hl Hi Hs. pose proof (Merkle.div_spec n level ltac:(lia)). destruct (Hpath level i Hl Hi) as [-> _]; [nia|].
    apply (th_absent _ _ H); [done..|]. fold n. lia.
  - intros d Hd. rewrite HI by done. pose proof (id_at_snoc (fst <$> es) d _ id (th_id _ _ H d Hd)) as Hs.
    rewrite length_fmap in Hs. unfold es'. by rewrite fmap_app.
  - done.
  - intros d Hd. rewrite HR by done. destruct (decide (treeRoot es' = d)) as [<-|Hne].
    + split; [|done]. intros _. exists (length es'). split; [lia|]. by rewrite take_ge.
    + rewrite (th_known _ _ H) by done. split; intros (m & Hm & Hd').
      * exists m. split; [lia|]. unfold es'. rewrite take_app_le by lia. done.
      * destruct (decide (m = length es')) as [->|]; [by rewrite take_ge in Hd'|]. exists m. split; [lia|].
        unfold es' in Hd'. rewrite take_app_le in Hd' by lia. done.
Qed.

(** *** Reading back *)

Lemma root_holds st es : tree_holds st es →
  (if getK st TNext =? 0 then z ← v3Zeroes; Ok (default zeroDigest (z !! MerkleDepth)) else readRoot st) = Ok (treeRoot es).
Proof using HD.
  intros H. rewrite (th_next _ _ H). destruct es as [|e es]; [|by rewrite <- (th_root _ _ H)].
  assert (E : treeRoot [] = zeroNode 32) by (exact (Merkle.node_nil hp zeroDigest 32 0 ltac:(lia))).
  cbn [length Z.of_nat Z.eqb]. rewrite v3Zeroes_ok, E. cbn [mbind result_bind]. by rewrite zeroes_lookup.
Qed.

Lemma pathLoop_holds st es n level cursor : tree_holds st es → (n + level = 32)%nat → 0 <= cursor < 2 ^ (32 - Z.of_nat level) →
  pathLoop t st n level cursor zeroes = Ok (Merkle.siblings hp zeroDigest (leaves es) n level cursor).
Proof.
  revert level cursor. induction n as [|n IH]; intros level cursor H Hn Hc; cbn [pathLoop Merkle.siblings]; [done|].
  pose proof (sibling_range cursor level Hc ltac:(lia)). assert (2 ^ (32 - Z.of_nat level) <= 2 ^ 32) by (apply Z.pow_le_mono_r; lia).
  rewrite (treeNode_holds st es) by (done || lia). cbn [mbind result_bind]. rewrite <- Z.div2_spec, IH; [done|done|lia|].
  rewrite Z.div2_div. split; [apply Z.div_pos; lia|]. apply Z.div_lt_upper_bound; [lia|].
  change 2 with (2 ^ 1) at 1. rewrite <- Z.pow_add_r by lia. replace (1 + (32 - Z.of_nat (Datatypes.S level))) with (32 - Z.of_nat level) by lia. lia.
Qed.

(** The path of an identifier of the list, from its last leaf to the root. *)
Lemma path_holds st es i d leaf : tree_holds st es → es !! i = Some (d, leaf) → (∀ j, (i < j)%nat → (fst <$> es) !! j ≠ Some d) →
  ∃ path, treePath t st d = Ok {| p_Commitment := d; p_Index := Z.of_nat i; p_Root := treeRoot es; p_Path := path; p_Found := true |}
    ∧ Merkle.fold_path hp leaf (Z.of_nat i) path = treeRoot es.
Proof using HD.
  intros H Hi Hlast. pose proof (th_size _ _ H) as Hsz. apply lookup_lt_Some in Hi as Hlt.
  destruct (Forall_lookup_1 _ _ _ _ (th_dg _ _ H) Hi) as [Hd _]. cbn in Hd.
  assert (Hv : getK st (TId d) = Z.of_nat i + 1).
  { destruct (th_id _ _ H d Hd) as [[_ Hn]|(k & Hk & Hl & ->)].
    - exfalso. apply Hn. apply (list_elem_of_lookup_2 _ i). by rewrite list_lookup_fmap, Hi.
    - destruct (lt_eq_lt_dec i k) as [[Hc|Hc]|Hc]; [by destruct (Hlast k Hc)|lia|]. exfalso. apply (Hl i Hc). by rewrite list_lookup_fmap, Hi. }
  unfold getK in Hv. cbn [roleOf dataOf] in Hv. unfold treePath. rewrite Hv. unfold uint64FromHash.
  rewrite (u64_small (Z.of_nat i + 1)) by (unfold is_u64, two64; lia). rewrite (proj2 (Z.eqb_neq _ _)) by lia.
  rewrite u64_sub_no_wrap, Z.add_simpl_r by (unfold is_u64, two64; lia). rewrite v3Zeroes_ok. cbn [mbind result_bind].
  rewrite (pathLoop_holds st es) by (done || cbn; lia). cbn [mbind result_bind].
  fold (readRoot st). rewrite (th_root _ _ H) by (by intros ->). cbn [mbind result_bind].
  exists (Merkle.siblings hp zeroDigest (leaves es) 32 0 (Z.of_nat i)). split; [done|].
  assert (Hleaf : leaves es !! i = Some leaf) by (unfold leaves; by rewrite list_lookup_fmap, Hi).
  rewrite (Merkle.path_sound hp zeroDigest (leaves es) 32 i leaf Hleaf); [done|]. by rewrite length_leaves.
Qed.

(** Only the slots of the tree matter. *)
Lemma tree_same st st' es : (∀ k, key_use k → getK st' k = getK st k) → tree_holds st es → tree_holds st' es.
Proof using.
  clear HC HD HT P. intros Hk H.
  assert (Hr : ∀ role key k0 k1, key_use k0 → key_use k1 → roleOf k0 = role ++ str "/0" → roleOf k1 = role ++ str "/1" →
    dataOf k0 = key → dataOf k1 = key → v3ReadDigest st' role key = v3ReadDigest st role key).
  { intros role key k0 k1 U0 U1 R0 R1 D0 D1. pose proof (Hk k0 U0) as E0. pose proof (Hk k1 U1) as E1. unfold getK in E0, E1.
    rewrite R0, D0 in E0. rewrite R1, D1 in E1. unfold v3ReadDigest. by rewrite E0, E1. }
  destruct H as [H1 H2 H3 H4 H5 H6 H7 H8]. split; try done.
  - by rewrite Hk.
  - intros level i Hl Hi Hs. destruct (H4 level i Hl Hi Hs) as [E1 E2]. rewrite Hk by done. split; [done|]. rewrite <- E2.
    by apply (Hr _ _ (TNode0 level i) (TNode1 level i)).
  - intros level i Hl Hi Hs. rewrite Hk by done. by apply H5.
  - intros d Hd. rewrite Hk by done. by apply H6.
  - intros Hne. rewrite <- (H7 Hne). by apply (Hr _ _ TCur0 TCur1).
  - intros d Hd. rewrite Hk by done. by apply H8.
Qed.

(** An empty tree. *)
Lemma holds_nil st : (∀ k, key_use k → getK st k = 0) → tree_holds st [].
Proof using.
  clear HC HD HT P. intros H. split; try done.
  - by apply H.
  - intros level i Hl Hi Hs. cbn in Hs. nia.
  - intros level i Hl Hi _. by apply H.
  - intros d Hd. left. split; [by apply H|set_solver].
  - intros d Hd. rewrite H by done. split; [done|]. intros (n & Hn & _). cbn in Hn. lia.
Qed.

End Use.

(** ** The note tree *)

Section Notes.
Context {X : Externals} {N : Native} {U : Uint256} {S : Type} {W : WorldState S}.

(** Commitments appended in order, each with the hash of its transaction. *)
Fixpoint appendAll (st : S) (cs : list (Digest * hash)) : option vError * S :=
  match cs with
  | [] => (None, st)
  | (c, h) :: cs =>
      match appendShieldedV3Leaf st c h with
      | (Some e, st) => (Some e, st)
      | (None, st) => appendAll st cs
      end
  end.

Context (P : bytes → bytes → Prop) (Dg : Digest → Prop).
Context {HC : NoCollision P} {HD : Digests Dg} {HT : TreeUse P noteTree Dg}.

Lemma next_holds st es : tree_holds noteTree Dg st es → ShieldedV3NextIndex st = Z.of_nat (length es).
Proof.
  intros H. unfold ShieldedV3NextIndex. change (getSlot st (str "next-index") []) with (getK noteTree st TNext).
  rewrite (th_next _ _ _ _ H). apply u64_small. pose proof (th_size _ _ _ _ H). unfold is_u64, two64. lia.
Qed.

Lemma append_leaf st es c h : tree_holds noteTree Dg st es → Z.of_nat (length es) < 2 ^ 32 → Dg c → h ≠ 0 →
  ∃ st', appendShieldedV3Leaf st c h = (None, st') ∧ tree_holds noteTree Dg st' (es ++ [(c, c)])
    ∧ frame P (keys noteTree Dg (λ _, True)) st st'.
Proof using HC HD HT.
  intros H Hlt Hc Hh. unfold appendShieldedV3Leaf. rewrite (next_holds st es H), (v3Zeroes_ok Dg).
  rewrite (proj2 (Z.leb_gt _ _)) by (unfold MerkleDepth; lia).
  destruct (append_writes P noteTree Dg st es c c h H Hlt Hc Hc) as (st' & E & Ha). change MerkleDepth with 32%nat. rewrite E.
  eexists. split; [done|]. split; [by eapply appended_holds|]. apply Ha.
Qed.

Lemma append_all st es cs : tree_holds noteTree Dg st es → Forall (λ '(c, h), Dg c ∧ h ≠ 0) cs → Z.of_nat (length es + length cs) <= 2 ^ 32 →
  ∃ st', appendAll st cs = (None, st') ∧ tree_holds noteTree Dg st' (es ++ ((λ c, (c, c)) <$> cs.*1))
    ∧ frame P (keys noteTree Dg (λ _, True)) st st'.
Proof using HC HD HT.
  revert st es. induction cs as [|[c h] cs IH]; intros st es H Hcs Hl; cbn [appendAll].
  { exists st. cbn. rewrite app_nil_r. split_and!; [done..|apply frame_refl]. }
  apply Forall_cons in Hcs as [[Hc Hh] Hcs]. cbn [length] in Hl.
  destruct (append_leaf st es c h H ltac:(lia) Hc Hh) as (st1 & -> & H1 & F1).
  destruct (IH st1 (es ++ [(c, c)]) H1 Hcs) as (st2 & -> & H2 & F2); [rewrite length_app; cbn; lia|].
  exists st2. split; [done|]. rewrite <- app_assoc in H2. split; [done|]. by eapply frame_trans.
Qed.

(** The entries of a list of commitments. *)
Definition notes (l : list Digest) : list (Digest * Digest) := (λ c, (c, c)) <$> l.

Lemma leaves_notes l : leaves (notes l) = l.
Proof. unfold leaves, notes. rewrite <- list_fmap_compose. apply list_fmap_id. Qed.

Lemma treeRoot_notes l : treeRoot (notes l) = Merkle.root hp zeroDigest 32 l.
Proof. unfold treeRoot. by rewrite leaves_notes. Qed.

Lemma notes_root st l : tree_holds noteTree Dg st (notes l) → ShieldedV3Root st = Ok (Merkle.root hp zeroDigest 32 l).
Proof using HD.
  intros H. rewrite <- treeRoot_notes, <- (root_holds noteTree Dg st (notes l) H). unfold ShieldedV3Root.
  by rewrite (next_holds st (notes l) H), (th_next _ _ _ _ H).
Qed.

Lemma notes_anchors st l d : tree_holds noteTree Dg st (notes l) → Dg d →
  getSlot st (str "root") (Digest_Bytes d) ≠ 0 ↔ ∃ n, (0 < n <= length l)%nat ∧ d = Merkle.root hp zeroDigest 32 (take n l).
Proof.
  intros H Hd. change (getSlot st (str "root") (Digest_Bytes d)) with (getK noteTree st (TRoot d)). rewrite (th_known _ _ _ _ H d Hd).
  assert (Hlen : length (notes l) = length l) by apply length_fmap. assert (Ht : ∀ n, take n (notes l) = notes (take n l)) by (intros; symmetry; apply fmap_take).
  split; intros (n & Hn & ->); exists n; (split; [lia|]); by rewrite Ht, treeRoot_notes.
Qed.

Lemma notes_path st l i c : tree_holds noteTree Dg st (notes l) → l !! i = Some c → (∀ j, (i < j)%nat → l !! j ≠ Some c) →
  ∃ path, ShieldedV3CommitmentPath st c
          = Ok {| p_Commitment := c; p_Index := Z.of_nat i; p_Root := Merkle.root hp zeroDigest 32 l; p_Path := path; p_Found := true |}
    ∧ Merkle.fold_path hp c (Z.of_nat i) path = Merkle.root hp zeroDigest 32 l.
Proof using HD.
  intros H Hi Hlast. rewrite <- treeRoot_notes. apply (path_holds noteTree Dg st (notes l) i c c H).
  - unfold notes. by rewrite list_lookup_fmap, Hi.
  - intros j Hj. unfold notes. rewrite <- list_fmap_compose, list_fmap_id. by apply Hlast.
Qed.

(** C16: Appending note commitments to the empty tree, one storage path at a time, never
    fails before the tree is full and keeps the Merkle tree of all of them: the
    root is that of the reference definition, the accepted anchors are exactly the
    roots of the non-empty prefixes, the path returned for a commitment leads from
    it to the root, nothing outside the tree's slots changes, and a full tree
    refuses the next leaf and stays as it is. *)
Theorem note_tree_root st cs :
  (∀ k, key_use Dg k → getK noteTree st k = 0) → Forall (λ '(c, h), Dg c ∧ h ≠ 0) cs → Z.of_nat (length cs) <= 2 ^ 32 →
  let l := cs.*1 in
  ∃ st', appendAll st cs = (None, st')
    ∧ ShieldedV3Root st' = Ok (Merkle.root hp zeroDigest 32 l)
    ∧ (∀ d, Dg d → getSlot st' (str "root") (Digest_Bytes d) ≠ 0 ↔
         ∃ n, (0 < n <= length l)%nat ∧ d = Merkle.root hp zeroDigest 32 (take n l))
    ∧ (∀ i c, l !! i = Some c → (∀ j, (i < j)%nat → l !! j ≠ Some c) →
         ∃ path, ShieldedV3CommitmentPath st' c
                 = Ok {| p_Commitment := c; p_Index := Z.of_nat i; p_Root := Merkle.root hp zeroDigest 32 l; p_Path := path; p_Found := true |}
           ∧ Merkle.fold_path hp c (Z.of_nat i) path = Merkle.root hp zeroDigest 32 l)
    ∧ frame P (keys noteTree Dg (λ _, True)) st st'
    ∧ (Z.of_nat (length cs) = 2 ^ 32 → ∀ c h, appendShieldedV3Leaf st' c h = (Some ErrInvalidShieldedTx, st')).
Proof using HC HD HT.
  intros H0 Hcs Hl l. destruct (append_all st [] cs (holds_nil noteTree Dg st H0) Hcs Hl) as (st' & E & H & F).
  change (tree_holds noteTree Dg st' (notes l)) in H. exists st'. split_and!; [done|by apply notes_root|..].
  - intros d Hd. by apply notes_anchors.
  - intros i c Hi Hlast. by apply notes_path.
  - done.
  - intros Hfull c h. unfold appendShieldedV3Leaf. rewrite (next_holds st' (notes l) H). unfold notes, l.
    rewrite !length_fmap, Hfull. done.
Qed.

End Notes.
End NoteTree.
