(* ===== verification/ShieldedDemo.v ===== *)
(** * A small shielded pool

    Concrete functions for SHA-512 and the native library, under which the slots
    in use are distinct and hashing succeeds: the theorems on the shielded pool's
    storage applied to a few entries on flat maps. *)

From S2P Require Import Prelude Bytes RLPStream State ValidatorRegistry ValidatorStore ShieldedCrypto Merkle ShieldedTree NoteTree.
Import RLPStream ValidatorRegistry ValidatorStore ShieldedCrypto ShieldedTree NoteTree.

Module ShieldedDemo.

(** ** A slot is the position of its role and its data *)

Definition le_value (d : bytes) : Z := be_value (reverse d).

Fixpoint demoSlot (roles : list bytes) (tag : Z) (b : bytes) : Z :=
  match roles with
  | [] => 0
  | r :: rs =>
      if has_prefix b (r ++ str "/") then tag * 2 ^ 240 + le_value (drop (length (r ++ str "/")) b) mod 2 ^ 240
      else demoSlot rs (tag + 1) b
  end.

Definition demoDigest (w : Z) : Digest := [w mod 256; 0; 0; 0; 0].

(** A hash of the two words a small digest has; every proof is accepted. *)
#[global] Instance DemoNative : Native := λ mode input size,
  if negb (mode =? 4) && negb (mode =? 5) then Some [79; 75; 10]
  else Some (Digest_Bytes (demoDigest (3 * default 0 (input !! 0%nat) + 5 * default 0 (input !! 40%nat) + default 0 (input !! 24%nat) + mode))).

Definition demoHash (b : bytes) : Z := foldl (λ h c, h * 3 + c) 1 b mod 256 + 1.

#[global] Instance DemoX : Externals := {
  Sender _ _ _ tx := (λ p, demoHash (p.1 ++ p.2)) <$> tx.(vt_PQ);
  VerifyMLDSA87 _ _ signature := bool_decide (signature = [1]);
  MLDSA87PublicKeySize := 1;
  keccak b := be_bytes 32 (demoHash b);
  sha256 b := be_bytes 32 (demoHash b);
  sha512 b := be_bytes 64 (demoSlot shieldedRoles 1 (drop 21 b));
  pooled := {| sr := []; remaining := 7; ssize := 0; kinderr := None; stack := [3]; skind := None; byteval := 0; limited := false |};
}.

(** The length of the data under a role. *)
Definition roleLength (r : bytes) : nat :=
  if bool_decide (r ∈ [str "root"; str "stamp/root"; str "commitment-index"; str "stamp/owner-index"; str "nullifier"; str "commitment"])
  then 40
  else if bool_decide (r ∈ [str "node/0"; str "node/1"; str "node-present"; str "stamp/node/0"; str "stamp/node/1"; str "stamp/node-present"])
  then 12
  else if bool_decide (r ∈ [str "governance/address-vote/active"; str "governance/address-vote/reason"]) then 60
  else if bool_decide (r ∈ [str "stamp/address"; str "stamp/address-owner/0"; str "stamp/address-owner/1"; str "stamp/address-commitment/0";
      str "stamp/address-commitment/1"; str "governance/address-vote/count"; str "governance/address-vote/suspended"])
  then 20
  else 0.

Definition demoP (r d : bytes) : Prop := bytes_ok d ∧ length d = roleLength r ∧ le_value d < 2 ^ 240.

Lemma pool_demo_hash x : 0 <= x < 2 ^ 256 → BytesToHash (be_bytes 64 x) = x.
Proof.
  intros Hx. unfold BytesToHash. rewrite length_be_bytes. cbn [Nat.ltb Nat.leb Nat.sub].
  rewrite (be_bytes_split 32 32), drop_app_length' by (by rewrite length_be_bytes).
  apply be_value_bytes. change (256 ^ Z.of_nat 32) with (2 ^ 256). done.
Qed.

Lemma le_value_range d : bytes_ok d → 0 <= le_value d.
Proof. intros Hd. apply (be_value_bound (reverse d)). by apply Forall_reverse. Qed.

Lemma le_value_inj d d' : bytes_ok d → bytes_ok d' → length d = length d' → le_value d = le_value d' → d = d'.
Proof.
  intros Hd Hd' Hl E. unfold le_value in E. rewrite <- (reverse_involutive d), <- (reverse_involutive d'). f_equal.
  rewrite <- (be_bytes_value (reverse d)), <- (be_bytes_value (reverse d')), E, !length_reverse, Hl by (by apply Forall_reverse). done.
Qed.

(** Roles are recognised whatever data follows. *)
Lemma prefix_role r r' d : r ∈ shieldedRoles → r' ∈ shieldedRoles → has_prefix (r ++ str "/" ++ d) (r' ++ str "/") = true → r = r'.
Proof. intros Hr Hr' Hp. apply has_prefix_spec in Hp as [x Hx]. rewrite <- app_assoc in Hx. by eapply role_data_inj in Hx as [-> _]. Qed.

Lemma demoSlot_role roles i r d tag : (∀ r, r ∈ roles → r ∈ shieldedRoles) → NoDup roles → roles !! i = Some r →
  demoSlot roles tag (r ++ str "/" ++ d) = (tag + Z.of_nat i) * 2 ^ 240 + le_value d mod 2 ^ 240.
Proof.
  revert i tag. induction roles as [|r0 roles IH]; intros i tag Hsub Hnd Hi; [done|]. apply NoDup_cons in Hnd as [Hni Hnd].
  cbn [demoSlot]. destruct i as [|i]; cbn in Hi.
  - injection Hi as ->. rewrite app_assoc, has_prefix_app, drop_app_length. by rewrite Z.add_0_r.
  - apply list_elem_of_lookup_2 in Hi as Hin. destruct (has_prefix (r ++ str "/" ++ d) (r0 ++ str "/")) eqn:Hp.
    + apply prefix_role in Hp as ->; [done|apply Hsub; set_solver..].
    + rewrite (IH i) by (done || set_solver). f_equal. f_equal. lia.
Qed.

Lemma roles_nodup : NoDup shieldedRoles.
Proof. apply (bool_decide_unpack _). vm_compute. exact I. Qed.

Lemma pool_demo_slot i r d : shieldedRoles !! i = Some r → bytes_ok d → le_value d < 2 ^ 240 →
  ShieldedV3StateSlot r d = (1 + Z.of_nat i) * 2 ^ 240 + le_value d.
Proof.
  intros Hi Hb Hd. unfold ShieldedV3StateSlot. cbn [sha512 DemoX].
  change (drop 21 (str "TKM_SHIELD3_STATE_V1/" ++ r ++ str "/" ++ d)) with (r ++ str "/" ++ d).
  pose proof (le_value_range d Hb). rewrite (demoSlot_role shieldedRoles i), Z.mod_small by (done || lia || apply roles_nodup).
  apply lookup_lt_Some in Hi. change (length shieldedRoles) with 40%nat in Hi. apply pool_demo_hash. change (2 ^ 256) with (65536 * 2 ^ 240). lia.
Qed.

#[global] Instance demo_free : NoCollision demoP.
Proof.
  intros r d r' d' [Hr (Hb & Hl & Hd)] [Hr' (Hb' & Hl' & Hd')] E.
  apply list_elem_of_lookup in Hr as [i Hi]. apply list_elem_of_lookup in Hr' as [i' Hi'].
  rewrite (pool_demo_slot i), (pool_demo_slot i') in E by done. pose proof (le_value_range d Hb). pose proof (le_value_range d' Hb').
  assert (i = i' ∧ le_value d = le_value d') as [-> Hv] by lia. rewrite Hi in Hi'. injection Hi' as <-.
  do 3 f_equal. apply le_value_inj; congruence.
Qed.

(** ** Small digests *)

Definition demoDg (d : Digest) : Prop := ∃ w, 0 <= w < 256 ∧ d = demoDigest w.

Lemma demoDigest_ok w : digest_ok (demoDigest w).
Proof.
  split; [done|]. pose proof (Z.mod_pos_bound w 256 ltac:(lia)). unfold demoDigest, fieldModulus. repeat apply Forall_cons_2; try lia. done.
Qed.

Lemma demoDg_intro w : demoDg (demoDigest w).
Proof. exists (w mod 256). split; [by apply Z.mod_pos_bound|]. unfold demoDigest. by rewrite Z.mod_mod. Qed.

#[global] Instance demo_digests : Digests demoDg.
Proof.
  split.
  - intros d (w & _ & ->). apply demoDigest_ok.
  - by exists 0.
  - intros a b (wa & _ & ->) (wb & _ & ->). unfold HashPair, nativeCall, DemoNative. cbn [Z.eqb Pos.eqb negb andb]. rewrite !canonical_ok by apply demoDigest_ok.
    cbn [negb orb]. rewrite DigestFromBytes_Bytes by apply demoDigest_ok. eexists. split; [done|]. apply demoDg_intro.
Qed.

Lemma le_value_be n x : (n <= 29)%nat → le_value (be_bytes n x) < 2 ^ 240.
Proof.
  intros Hn. unfold le_value. pose proof (be_value_bound (reverse (be_bytes n x)) ltac:(apply Forall_reverse, be_bytes_ok)) as [_ H].
  rewrite length_reverse, length_be_bytes in H. assert (256 ^ Z.of_nat n <= 256 ^ 29) by (apply Z.pow_le_mono_r; lia).
  assert (256 ^ 29 < 2 ^ 240) by done. lia.
Qed.

Lemma le_value_app a b : le_value (a ++ b) = le_value a + 256 ^ Z.of_nat (length a) * le_value b.
Proof. unfold le_value, be_value. rewrite reverse_app, digits_value_app, length_reverse by lia. lia. Qed.

Lemma le_value_digest d : demoDg d → 0 <= le_value (Digest_Bytes d) < 256.
Proof.
  intros (w & Hw & ->). unfold demoDigest. rewrite Z.mod_small by done. unfold Digest_Bytes, appendWords. cbn [app fmap list_fmap concat].
  assert (E0 : le_value (le_bytes 8 w) = w) by (unfold le_value, le_bytes; rewrite reverse_involutive; apply be_value_bytes; cbn; lia).
  assert (E : le_value (le_bytes 8 0 ++ le_bytes 8 0 ++ le_bytes 8 0 ++ le_bytes 8 0 ++ []) = 0) by (by vm_compute).
  rewrite le_value_app, E0, E. lia.
Qed.

Lemma length_digest d : demoDg d → length (Digest_Bytes d) = 40%nat.
Proof. intros (w & _ & ->). unfold Digest_Bytes, appendWords. cbn [app]. by rewrite length_words. Qed.

Lemma demo_used_digest r d : r ∈ shieldedRoles → roleLength r = 40%nat → demoDg d → used demoP r (Digest_Bytes d).
Proof.
  intros Hr Hl Hd. split; [done|]. split_and!; [apply Digest_Bytes_ok|by rewrite length_digest|]. pose proof (le_value_digest d Hd).
  assert (256 < 2 ^ 240) by done. lia.
Qed.

Lemma demo_used_node r level i : r ∈ shieldedRoles → roleLength r = 12%nat → used demoP r (v3NodeKey level i).
Proof.
  intros Hr Hl. split; [done|]. unfold v3NodeKey. split_and!.
  - apply Forall_app; split; apply be_bytes_ok.
  - by rewrite length_app, !length_be_bytes.
  - rewrite le_value_app, length_be_bytes.
    pose proof (be_value_bound (reverse (be_bytes 4 (Z.of_nat level))) ltac:(apply Forall_reverse, be_bytes_ok)) as [_ H1].
    pose proof (be_value_bound (reverse (be_bytes 8 i)) ltac:(apply Forall_reverse, be_bytes_ok)) as [_ H2].
    rewrite length_reverse, length_be_bytes in H1, H2. unfold le_value. change (256 ^ Z.of_nat 4) with (2 ^ 32) in *.
    change (256 ^ Z.of_nat 8) with (2 ^ 64) in *. assert (2 ^ 32 + 2 ^ 32 * 2 ^ 64 < 2 ^ 240) by done. lia.
Qed.

Lemma demo_used_nil r : r ∈ shieldedRoles → roleLength r = 0%nat → used demoP r [].
Proof. intros Hr Hl. split; [done|]. split_and!; [constructor|done|by vm_compute]. Qed.

#[global] Instance demo_notes : TreeUse demoP noteTree demoDg.
Proof.
  split; [|apply (bool_decide_unpack _); vm_compute; exact I].
  intros [level i|level i|level i|d| |d| |] Hk; cbn [key_use] in Hk;
    [apply demo_used_node|apply demo_used_node|apply demo_used_node|apply demo_used_digest; [| |done]|apply demo_used_nil
    |apply demo_used_digest; [| |done]|apply demo_used_nil|apply demo_used_nil];
    first [by vm_compute | apply (bool_decide_unpack _); vm_compute; exact I].
Qed.

#[global] Instance demo_stamps : TreeUse demoP stampTree demoDg.
Proof.
  split; [|apply (bool_decide_unpack _); vm_compute; exact I].
  intros [level i|level i|level i|d| |d| |] Hk; cbn [key_use] in Hk;
    [apply demo_used_node|apply demo_used_node|apply demo_used_node|apply demo_used_digest; [| |done]|apply demo_used_nil
    |apply demo_used_digest; [| |done]|apply demo_used_nil|apply demo_used_nil];
    first [by vm_compute | apply (bool_decide_unpack _); vm_compute; exact I].
Qed.

(** ** Witnesses *)

#[local] Existing Instance RefUint256.
#[local] Existing Instance FlatWorldState.

Lemma demo_empty t k : getK t emptyFlat k = 0.
Proof. done. Qed.

Definition demoNotes : list (Digest * hash) := [(demoDigest 7, 1); (demoDigest 9, 2); (demoDigest 7, 3)].

Lemma note_tree_root_witness :
  ∃ st', appendAll emptyFlat demoNotes = (None, st') ∧ ShieldedV3Root st' = Ok (Merkle.root hp zeroDigest 32 (demoNotes.*1)).
Proof.
  destruct (note_tree_root demoP demoDg emptyFlat demoNotes) as (st' & E & Hr & _).
  - intros k _. apply demo_empty.
  - repeat apply Forall_cons_2; [split; [apply demoDg_intro|done]..|constructor].
  - done.
  - exact (ex_intro _ st' (conj E Hr)).
Defined.

(** *** A sealed envelope *)

(** A key pair is a seed of 64 bytes, the shared secret the key, the cipher appends a tag. *)
#[local] Instance DemoPrimitives : Primitives := {
  dkOfRandom r := be_bytes SeedSize (be_value r);
  dkValid seed := (length seed =? SeedSize)%nat;
  ekOfSeed seed := seed;
  ekValid key := (length key =? SeedSize)%nat;
  Encapsulate key r := (key, be_bytes CiphertextSize1024 (be_value r));
  Decapsulate seed _ := Some seed;
  hkdf_Key _ _ _ n := if (n <=? Z.to_nat 16320)%nat then Some (replicate n 1) else None;
  aead_Seal _ _ p _ := p ++ replicate Overhead 9;
  aead_Open _ _ c _ := Some (take (length c - Overhead) c);
}.

#[local] Instance demo_laws : PrimitiveLaws.
Proof.
  split; cbn [DemoPrimitives dkOfRandom dkValid ekOfSeed ekValid Encapsulate Decapsulate hkdf_Key aead_Seal aead_Open fst snd].
  - done.
  - intros r. apply Nat.eqb_eq, length_be_bytes.
  - done.
  - intros pk r. apply length_be_bytes.
  - intros ? ? ? n Hn. destruct (Nat.leb_spec n (Z.to_nat 16320)); [|lia]. eexists. split; [reflexivity|apply length_replicate].
  - intros ? ? p ?. rewrite length_app, length_replicate. done.
  - intros ? ? p ? ? ?. f_equal. rewrite length_app, length_replicate, Nat.add_sub. by apply take_app_length'.
Qed.

Definition demoContext : ShieldedV3Context := {| cx_ChainID := 8979; cx_Purpose := ShieldedV3Stamp; cx_Commitment := replicate 64 1 |}.

Lemma sealed_envelope_opens_witness :
  ∃ envelope, SealShieldedV3 [7] (Some (replicate 24 2)) (replicate 64 3) (str "hello") demoContext = Ok envelope
    ∧ OpenShieldedV3 (replicate 64 3) envelope demoContext = Ok (str "hello").
Proof.
  destruct (sealed_envelope_opens (replicate 64 3) [7] (replicate 24 2) (str "hello") demoContext) as (envelope & key & Hs & _ & _ & Ho & _).
  - done.
  - done.
  - by apply (bool_decide_unpack _).
  - apply Nat.leb_le. done.
  - exists envelope. exact (conj Hs Ho).
Defined.

End ShieldedDemo.
