(* ===== verification/Stamps.v ===== *)
(** * Address stamps

    [core/antartical_stamp.go]: an address gets a stamp by a registration that
    carries an owner digest with a proof, for itself or sponsored by a stamped
    account.  The registry keeps, in slots of the shielded pool's account, the
    stamp of every address, its owner, and the tree of owners of [ShieldedTree].

    The stamp record's ciphertext and signature are checked as in [ShieldedCrypto];
    the owner proof goes through the native library. *)

From S2P Require Import Prelude Bytes RLP RLPStream RLPTypes State ChainConfig ValidatorRegistry ValidatorStore ShieldedCrypto Merkle ShieldedTree NoteTree.
Import RLP RLPStream RLPTypes ValidatorRegistry ValidatorStore ShieldedCrypto ShieldedTree NoteTree.

Module Stamps.

Definition AntarticalStampMagic : bytes := str "TKMSTAMP1".
Definition AntarticalStampSponsorshipLifetime : Z := 3600.

(** ** Data *)

Record AntarticalStampRegistration := {
  sg_Version : Z;
  sg_Owner : Digest;
  sg_Stamp : StampRecord;
  sg_Proof : bytes;
  sg_BeneficiaryPublicKey : option bytes; (** [None] is nil *)
  sg_ValidUntil : Z;
  sg_Authorization : option bytes;
}.

Definition beneficiaryKey (e : AntarticalStampRegistration) : bytes := default [] e.(sg_BeneficiaryPublicKey).

(** The fields of a transaction the intent binds, besides those of [vtx]. *)
Record stx := {
  sx_tx : vtx;
  sx_Nonce : Z;
  sx_GasTipCap : Z;
  sx_GasFeeCap : Z;
  sx_Gas : Z;
  sx_AccessList : list (address * list hash);
}.

Definition digestType : rtype := RArray 5 (RUint 64).
Definition stampType : rtype :=
  RStruct [(false, RUint 64); (false, digestType);
           (false, RStruct [(false, RUint 64); (false, RByteArray 64); (false, RByteSlice); (false, RByteSlice)]);
           (false, RByteSlice); (true, RByteSlice); (true, RUint 64); (true, RByteSlice)].

(** A byte slice that may be nil *)
Definition sliceVal (b : option bytes) : rval := match b with Some b => VBytes b | None => VNil end.
Definition sliceOf (v : rval) : option bytes := match v with VBytes b => Some b | _ => None end.

Definition stampVal (e : AntarticalStampRegistration) : rval :=
  VList [VNum e.(sg_Version); VList (VNum <$> e.(sg_Owner));
         VList [VNum e.(sg_Stamp).(sr_ChainID); VBytes e.(sg_Stamp).(sr_Commitment); VBytes e.(sg_Stamp).(sr_Ciphertext);
                VBytes e.(sg_Stamp).(sr_Signature)];
         VBytes e.(sg_Proof); sliceVal e.(sg_BeneficiaryPublicKey); VNum e.(sg_ValidUntil); sliceVal e.(sg_Authorization)].

Definition numOf (v : rval) : Z := match v with VNum n => n | _ => 0 end.

Definition stampOf (v : rval) : option AntarticalStampRegistration :=
  match v with
  | VList [VNum version; VList owner; VList [VNum chain; VBytes commitment; VBytes ciphertext; VBytes signature]; VBytes proof; key; until; auth] =>
      Some {| sg_Version := version; sg_Owner := numOf <$> owner;
              sg_Stamp := {| sr_ChainID := chain; sr_Commitment := commitment; sr_Ciphertext := ciphertext; sr_Signature := signature |};
              sg_Proof := proof; sg_BeneficiaryPublicKey := sliceOf key; sg_ValidUntil := numOf until; sg_Authorization := sliceOf auth |}
  | _ => None
  end.

(** [shieldedIntentPayload]; the lists of blobs and authorisations are nil here. *)
Definition authorizationType : rtype :=
  RStruct [(false, RU256); (false, RByteArray 20); (false, RUint 64); (false, RUint 8); (false, RU256); (false, RU256)].
Definition intentType : rtype :=
  RStruct [(false, RByteSlice); (false, RUint 8); (false, RBigInt); (false, RUint 64); (false, RBigInt); (false, RBigInt); (false, RUint 64);
           (false, RNilPtr String_ (RByteArray 20)); (false, RBigInt);
           (false, RSlice (RStruct [(false, RByteArray 20); (false, RSlice (RByteArray 32))]));
           (false, RUint 64); (false, RBigInt); (false, RSlice (RByteArray 32)); (false, RSlice authorizationType);
           (false, RByteSlice); (false, RByteSlice); (false, RByteSlice)].

Definition intentVal (domain : bytes) (tx : stx) (envelope : bytes) : rval :=
  let t := tx.(sx_tx) in
  VList [VBytes domain; VNum t.(vt_Type); VNum t.(vt_ChainId); VNum tx.(sx_Nonce); VNum tx.(sx_GasTipCap); VNum tx.(sx_GasFeeCap);
         VNum tx.(sx_Gas); match t.(vt_To) with Some a => VBytes (address_bytes a) | None => VNil end; VNum t.(vt_Value);
         VList ((λ '(a, ks), VList [VBytes (address_bytes a); VList ((λ k, VBytes (hash_bytes k)) <$> ks)]) <$> tx.(sx_AccessList));
         VNum 0; VNil; VNil; VNil;
         VBytes (default [] (fst <$> t.(vt_PQ))); VBytes (default [] (snd <$> t.(vt_PQ))); VBytes envelope].

(** ** Envelopes *)

Section Stamps.
Context {X : Externals} {N : Native}.

Definition HasAntarticalStampPrefix (data : bytes) : bool := has_prefix data AntarticalStampMagic.

Definition EncodeAntarticalStamp (e : option AntarticalStampRegistration) : result vError bytes :=
  match e with
  | None => Err ErrInvalidShieldedTx
  | Some e => encodeWith AntarticalStampMagic stampType (stampVal e)
  end.

Definition DecodeAntarticalStamp (data : bytes) : result vError AntarticalStampRegistration :=
  p ← payload AntarticalStampMagic data; decodeInto stampType stampOf p.

(** The registration without proof and authorisation. *)
Definition cleanStamp (e : AntarticalStampRegistration) : AntarticalStampRegistration :=
  {| sg_Version := e.(sg_Version); sg_Owner := e.(sg_Owner); sg_Stamp := e.(sg_Stamp); sg_Proof := [];
     sg_BeneficiaryPublicKey := e.(sg_BeneficiaryPublicKey); sg_ValidUntil := e.(sg_ValidUntil); sg_Authorization := None |}.

Definition AntarticalStampIntent (tx : stx) (e : AntarticalStampRegistration) : result vError bytes :=
  data ← EncodeAntarticalStamp (Some (cleanStamp e));
  match EncodeValue intentType (intentVal (str "TKM_ANTARTICAL_STAMP_REGISTRATION_V1") tx data) with
  | None => Err ErrEncode
  | Some encoded => Ok (sha512 encoded)
  end.

(** [shielded3.ValidProofEncoding] *)
Definition maxProofWords : Z := 2 ^ 20.
Definition validProof (proof : bytes) : bool :=
  let len := Z.of_nat (length proof) in
  let count := be_value (reverse (take 4 proof)) in
  (12 <=? len) && (len <=? 4 + maxProofWords * 8)
  && negb ((count =? 0) || (maxProofWords <? count) || negb (len =? 4 + count * 8))
  && forallb (λ i, leWord (drop 4 proof) i <? fieldModulus) (seq 0 (Z.to_nat count)).

(** [ownerRequest]; the intent is read as 16 big-endian words. *)
Definition ownerRequest (chainID : Z) (owner : Digest) (intent : bytes) : result vError bytes :=
  if (chainID =? 0) || bool_decide (owner = zeroDigest) || negb (canonical owner) then Err ErrInvalidStatement
  else Ok (appendWords (str "TKMS3OWN")
             ([chainID mod 2 ^ 32; Z.shiftr chainID 32] ++ owner ++ ((λ i, be_value (take 4 (drop (4 * i) intent))) <$> seq 0 16))).

Definition VerifyOwner (chainID : Z) (owner : Digest) (intent proof : bytes) : result vError unit :=
  request ← ownerRequest chainID owner intent;
  _ ← fail_if (negb (validProof proof)) (ErrText "invalid Shield3 proof");
  match nativeCall 7 (request ++ proof) 3 with
  | None => Err (ErrText "native")
  | Some out => fail_if (negb (bool_decide (out = [79; 75; 10]))) (ErrText "invalid Shield3 proof")
  end.

Definition chainUint64 (config : ChainConfig.ChainConfig) (c : Z) : bool :=
  match ChainConfig.ChainID config with Some id => bool_decide (is_u64 id) && (c =? id) | None => false end.

Definition ValidateAntarticalStampBasics (config : ChainConfig.ChainConfig) (number time : Z) (tx : stx) : result vError unit :=
  _ ← fail_if (bool_decide (ChainConfig.ChainID config = None) || negb (ChainConfig.IsAntartical config number time))
        (ErrText "stamp registration is not active until Antartical");
  _ ← fail_if (negb (enveloped config tx.(sx_tx) 0)) (ErrText "stamp registration requires a zero-value PQ transaction to the reserved pool");
  e ← DecodeAntarticalStamp tx.(sx_tx).(vt_Data);
  let algorithm := default [] (fst <$> tx.(sx_tx).(vt_PQ)) in
  publicKey ←
    (if negb (length (beneficiaryKey e) =? 0)%nat then
       _ ← fail_if ((e.(sg_ValidUntil) <=? time) || (AntarticalStampSponsorshipLifetime <? e.(sg_ValidUntil) -₆₄ time))
             (ErrText "stamp sponsorship authorization expired or exceeds one hour");
       match AntarticalStampIntent tx e with
       | Err _ => Err (ErrText "invalid beneficiary stamp sponsorship authorization")
       | Ok intent =>
           if VerifyMLDSA87 (beneficiaryKey e) intent (default [] e.(sg_Authorization)) then Ok (beneficiaryKey e)
           else Err (ErrText "invalid beneficiary stamp sponsorship authorization")
       end
     else if negb (e.(sg_ValidUntil) =? 0) || negb (length (default [] e.(sg_Authorization)) =? 0)%nat
     then Err (ErrText "incomplete stamp sponsorship authorization")
     else Ok (default [] (snd <$> tx.(sx_tx).(vt_PQ))));
  _ ← fail_if (negb (e.(sg_Version) =? 1) || negb (chainUint64 config e.(sg_Stamp).(sr_ChainID))
               || negb (bool_decide (algorithm = AlgorithmMLDSA87)) || negb (VerifyShieldedV3Stamp publicKey e.(sg_Stamp))
               || bool_decide (e.(sg_Owner) = zeroDigest) || negb (validProof e.(sg_Proof)))
        (ErrText "invalid signed stamp or owner proof");
  _ ← DigestFromBytes (Digest_Bytes e.(sg_Owner));
  Ok ().

Definition AntarticalStampBeneficiary (from : address) (e : AntarticalStampRegistration) : result vError address :=
  if (length (beneficiaryKey e) =? 0)%nat then Ok from
  else
    match pqAddress AlgorithmMLDSA87 (beneficiaryKey e) with
    | None => Err ErrAddress
    | Some a => if a =? from then Err (ErrText "stamp sponsor must differ from beneficiary") else Ok a
    end.

Definition ValidateAntarticalStampProof (tx : stx) : result vError unit :=
  e ← DecodeAntarticalStamp tx.(sx_tx).(vt_Data);
  intent ← AntarticalStampIntent tx e;
  VerifyOwner e.(sg_Stamp).(sr_ChainID) e.(sg_Owner) intent e.(sg_Proof).

(** ** State *)

Context {U : Uint256} {S : Type} {W : WorldState S}.

Definition IsAntarticalStamped (st : S) (a : address) : bool :=
  negb (getSlot st (str "stamp/address") (address_bytes a) =? zeroHash).

(** The sponsorship window at admission, [time] being zero when it is not known. *)
Definition ValidateAntarticalStampRegistrationState (st : S) (from : address) (data : bytes) (time : Z) : result vError unit :=
  e ← DecodeAntarticalStamp data;
  _ ← fail_if (negb (length (beneficiaryKey e) =? 0)%nat
               && (negb (IsAntarticalStamped st from) || (e.(sg_ValidUntil) =? 0) || (e.(sg_ValidUntil) <=? time)
                   || (negb (time =? 0) && (AntarticalStampSponsorshipLifetime <? e.(sg_ValidUntil) -₆₄ time))))
        (ErrText "stamp sponsorship requires a confirmed sponsor and unexpired authorization");
  beneficiary ← AntarticalStampBeneficiary from e;
  _ ← fail_if (IsAntarticalStamped st beneficiary) (ErrText "address stamp is already registered");
  fail_if (negb (getSlot st (str "stamp/owner-index") (Digest_Bytes e.(sg_Owner)) =? zeroHash)) (ErrText "stamp owner is already registered").

Record AntarticalStampStatus := {
  ss_Registered : bool;
  ss_Owner : Digest;
  ss_Commitment : bytes;
  ss_TransactionHash : hash;
}.

Definition AntarticalStampForAddress (st : S) (a : address) : result vError AntarticalStampStatus :=
  let h := getSlot st (str "stamp/address") (address_bytes a) in
  if h =? zeroHash
  then Ok {| ss_Registered := false; ss_Owner := zeroDigest; ss_Commitment := replicate 64 0; ss_TransactionHash := h |}
  else
    owner ← v3ReadDigest st (str "stamp/address-owner") (address_bytes a);
    Ok {| ss_Registered := true; ss_Owner := owner;
          ss_Commitment := hash_bytes (getSlot st (str "stamp/address-commitment/0") (address_bytes a))
                           ++ hash_bytes (getSlot st (str "stamp/address-commitment/1") (address_bytes a));
          ss_TransactionHash := h |}.

(** The writes of an accepted registration behind the append to the tree. *)
Definition writeStamp (st : S) (beneficiary : address) (e : AntarticalStampRegistration) (txHash : hash) : S :=
  let st := if GetNonce st ShieldedPoolAddress =? 0 then SetNonce st ShieldedPoolAddress 1 else st in
  let key := address_bytes beneficiary in
  let st := setSlot st (str "stamp/address") key txHash in
  let st := v3WriteDigest st (str "stamp/address-owner") key e.(sg_Owner) in
  let st := setSlot st (str "stamp/address-commitment/0") key (BytesToHash (take 32 e.(sg_Stamp).(sr_Commitment))) in
  setSlot st (str "stamp/address-commitment/1") key (BytesToHash (drop 32 e.(sg_Stamp).(sr_Commitment))).

(** Reverting to the snapshot is going back to the state it was taken of. *)
Definition ProcessAntarticalStamp (config : ChainConfig.ChainConfig) (number time : Z) (st : S) (tx : stx) : option vError * S :=
  let txHash := tx.(sx_tx).(vt_Hash) in
  match ValidateAntarticalStampBasics config number time tx with
  | Err e => (Some e, st)
  | Ok _ =>
  match Sender config number time tx.(sx_tx) with
  | None => (Some ErrSender, st)
  | Some from =>
  match DecodeAntarticalStamp tx.(sx_tx).(vt_Data) with
  | Err e => (Some e, st)
  | Ok e =>
  match AntarticalStampBeneficiary from e with
  | Err e => (Some e, st)
  | Ok beneficiary =>
      if negb (length (beneficiaryKey e) =? 0)%nat && negb (IsAntarticalStamped st from)
      then (Some (ErrText "illegal transaction: address has no confirmed Antartical stamp"), st)
      else
        let existing := getSlot st (str "stamp/address") (address_bytes beneficiary) in
        if existing =? txHash then (None, st)
        else if negb (existing =? zeroHash)
        then (Some (ErrText "illegal transaction: address stamp is immutable and already registered"), st)
        else if negb (GetCodeSize st ShieldedPoolAddress =? 0) then (Some (ErrText "stamp registry must not contain executable code"), st)
        else if negb (getSlot st (str "stamp/owner-index") (Digest_Bytes e.(sg_Owner)) =? zeroHash)
        then (Some (ErrText "stamp owner is already registered"), st)
        else
          match ValidateAntarticalStampProof tx with
          | Err _ => (Some (ErrText "illegal stamp ownership proof"), st)
          | Ok _ =>
              match appendAntarticalStamp st e.(sg_Stamp).(sr_ChainID) e.(sg_Owner) txHash with
              | (Some e, _) => (Some e, st)
              | (None, st) => (None, writeStamp st beneficiary e txHash)
              end
          end
  end
  end
  end
  end.

End Stamps.
End Stamps.
