(* ===== verification/StampRegistry.v ===== *)
(** * The stamp registry

    [Stamps] keeps a list of stamps: one per address and one per owner, in the
    order of registration.  An accepted registration appends one stamp, for the
    sender or for a beneficiary that signed for it; a refused one changes nothing. *)

From S2P Require Import Prelude Bytes State ChainConfig ValidatorRegistry ValidatorStore ShieldedCrypto Merkle ShieldedTree NoteTree Stamps.
Import ValidatorRegistry ValidatorStore ShieldedCrypto ShieldedTree NoteTree Stamps.

Module StampRegistry.

Record stamp := {
  m_address : address;
  m_owner : Digest;
  m_chain : Z;
  m_hash : hash;
}.

(** A role is in a closed list. *)
Ltac in_roles := apply (bool_decide_unpack _); vm_compute; exact I.

Section Registry.
Context {X : Externals} {N : Native} {U : Uint256} {S : Type} {W : WorldState S}.
Context (P : bytes → bytes → Prop) (Dg : Digest → Prop).
Context {HC : NoCollision P} {HD : Digests Dg} {HT : TreeUse P stampTree Dg}.

(** The slots of a stamp, by address. *)
Definition stampRoles : list bytes :=
  [str "stamp/address"; str "stamp/address-owner" ++ str "/0"; str "stamp/address-owner" ++ str "/1"; str "stamp/address-commitment/0";
   str "stamp/address-commitment/1"].

Class StampUse := stamp_use r a : r ∈ stampRoles → is_address a → used P r (address_bytes a).
Context {HS : StampUse}.

Definition leafOf (m : stamp) : Digest := match StampLeaf m.(m_chain) m.(m_owner) with Ok d => d | Err _ => zeroDigest end.
Definition entries (L : list stamp) : list (Digest * Digest) := (λ m, (m.(m_owner), leafOf m)) <$> L.
Definition addrs (L : list stamp) : list address := m_address <$> L.
Definition owners (L : list stamp) : list Digest := m_owner <$> L.

Definition stampSlot (st : S) (a : address) : hash := getSlot st (str "stamp/address") (address_bytes a).
Definition stampOwner (st : S) (a : address) : result vError Digest := v3ReadDigest st (str "stamp/address-owner") (address_bytes a).

Record stamps_hold (st : S) (L : list stamp) : Prop := {
  sh_tree : tree_holds stampTree Dg st (entries L);
  sh_some m : m ∈ L → is_address m.(m_address) ∧ m.(m_hash) ≠ 0 ∧ stampSlot st m.(m_address) = m.(m_hash)
    ∧ stampOwner st m.(m_address) = Ok m.(m_owner);
  sh_none a : is_address a → a ∉ addrs L → stampSlot st a = 0;
  sh_addrs : NoDup (addrs L);
  sh_owners : NoDup (owners L);
}.

(** ** Slots of stamps and of the tree *)

Definition byAddress (a : address) (r d : bytes) : Prop := r ∈ stampRoles ∧ d = address_bytes a.

Lemma address_bytes_inj a b : is_address a → is_address b → address_bytes a = address_bytes b → a = b.
Proof. intros Ha Hb. apply be_bytes_inj; by change (256 ^ Z.of_nat 20) with (2 ^ 160). Qed.

Lemma tree_not_stamp k r : r ∈ stampRoles → roleOf stampTree k ≠ r.
Proof.
  intros Hr E. assert (Hi : roleOf stampTree k ∈ treeRoles stampTree).
  { apply (list_elem_of_lookup_2 _ (posOf k)). by destruct k. }
  assert (Hd : bool_decide (Forall (λ r, r ∉ treeRoles stampTree) stampRoles) = true) by (by vm_compute).
  apply bool_decide_eq_true in Hd. rewrite Forall_forall in Hd. apply (Hd r Hr). by rewrite <- E.
Qed.

Lemma tree_key_used k : key_use Dg k → used P (roleOf stampTree k) (dataOf k).
Proof using HT. apply (tu_used P stampTree Dg). Qed.

(** Writes to the slots of stamps do not touch the tree. *)
Lemma tree_frame Wr st st' es : (∀ r d, Wr r d → r ∈ stampRoles) → frame P Wr st st' → tree_holds stampTree Dg st es → tree_holds stampTree Dg st' es.
Proof using HT.
  intros HW Hf. apply tree_same. intros k Hk. apply (fr_slots _ _ _ _ Hf); [by apply tree_key_used|].
  intros Hw%HW. by apply (tree_not_stamp k) in Hw.
Qed.

(** Writes to the tree do not touch the slots of stamps. *)
Lemma stamp_frame st st' a : frame P (keys stampTree Dg (λ _, True)) st st' → is_address a →
  stampSlot st' a = stampSlot st a ∧ stampOwner st' a = stampOwner st a.
Proof using HC HD HS HT.
  intros Hf Ha. assert (Hr : ∀ r, r ∈ stampRoles → getSlot st' r (address_bytes a) = getSlot st r (address_bytes a)).
  { intros r Hr. apply (fr_slots _ _ _ _ Hf); [by apply stamp_use|]. intros (k & _ & _ & E & _). by apply (tree_not_stamp k r). }
  unfold stampSlot, stampOwner, v3ReadDigest. rewrite !Hr by (unfold stampRoles; set_solver). done.
Qed.

(** Only the slots of the registry matter. *)
Lemma stamps_same st st' L :
  (∀ r d, used P r d → r ∈ treeRoles stampTree ++ stampRoles → getSlot st' r d = getSlot st r d) → stamps_hold st L → stamps_hold st' L.
Proof using HC HD HS HT.
  intros Hs [H1 H2 H3 H4 H5]. assert (Hr : ∀ r a, r ∈ stampRoles → is_address a → getSlot st' r (address_bytes a) = getSlot st r (address_bytes a)).
  { intros r a Hr Ha. apply Hs; [by apply stamp_use|]. apply elem_of_app. by right. }
  assert (Ha : ∀ a, is_address a → stampSlot st' a = stampSlot st a ∧ stampOwner st' a = stampOwner st a).
  { intros a Ha. unfold stampSlot, stampOwner, v3ReadDigest. rewrite !Hr by (done || in_roles). done. }
  split; try done.
  - eapply tree_same; [|exact H1]. intros k Hk. apply Hs; [by apply tree_key_used|]. apply elem_of_app. left.
    apply (list_elem_of_lookup_2 _ (posOf k)). by destruct k.
  - intros m Hm. destruct (H2 m Hm) as (Hm1 & Hm2 & Hm3 & Hm4). destruct (Ha _ Hm1) as [-> ->]. done.
  - intros a Haa Hn. destruct (Ha a Haa) as [-> _]. by apply H3.
Qed.

(** ** Writing a stamp *)

(** What registrations do not touch. *)
Record kept (st st' : S) : Prop := {
  kp_balance a : GetBalance st' a = GetBalance st a;
  kp_code a : GetCodeSize st' a = GetCodeSize st a;
  kp_nonce a : a ≠ ShieldedPoolAddress → GetNonce st' a = GetNonce st a;
  kp_state a k : a ≠ ShieldedPoolAddress → GetState st' a k = GetState st a k;
}.

Lemma frame_kept Wr st st' : frame P Wr st st' → kept st st'.
Proof. intros [_ H1 H2 H3 H4]. by split. Qed.

Lemma kept_trans st1 st2 st3 : kept st1 st2 → kept st2 st3 → kept st1 st3.
Proof. intros [A1 A2 A3 A4] [B1 B2 B3 B4]. split; intros; [rewrite B1|rewrite B2|rewrite B3|rewrite B4]; auto. Qed.

(** The pool's account is given a nonce. *)
Definition pinNonce (st : S) : S := if GetNonce st ShieldedPoolAddress =? 0 then SetNonce st ShieldedPoolAddress 1 else st.

Lemma pinNonce_spec st : kept st (pinNonce st) ∧ ∀ a k, GetState (pinNonce st) a k = GetState st a k.
Proof.
  unfold pinNonce. destruct (_ =? 0); [|by split]. split; [split|]; intros; ws_simpl; try done. rewrite decide_False; done.
Qed.

Lemma pinNonce_tree st es : tree_holds stampTree Dg st es → tree_holds stampTree Dg (pinNonce st) es.
Proof.
  apply tree_same. intros k _. apply pinNonce_spec.
Qed.

Lemma writeStamp_spec st b e h : is_address b → digest_ok e.(sg_Owner) →
  let st' := writeStamp st b e h in
  frame P (byAddress b) (pinNonce st) st' ∧ stampSlot st' b = h ∧ stampOwner st' b = Ok e.(sg_Owner).
Proof using HC HS.
  intros Hb Hd st'. assert (Hu : ∀ r, r ∈ stampRoles → used P r (address_bytes b)) by (intros r Hr; by apply stamp_use).
  assert (U0 : used P (str "stamp/address") (address_bytes b)) by (apply Hu; in_roles).
  assert (U1 : used P (str "stamp/address-owner" ++ str "/0") (address_bytes b)) by (apply Hu; in_roles).
  assert (U2 : used P (str "stamp/address-owner" ++ str "/1") (address_bytes b)) by (apply Hu; in_roles).
  assert (U3 : used P (str "stamp/address-commitment/0") (address_bytes b)) by (apply Hu; in_roles).
  assert (U4 : used P (str "stamp/address-commitment/1") (address_bytes b)) by (apply Hu; in_roles).
  subst st'. unfold writeStamp. fold (pinNonce st). set (st0 := pinNonce st).
  set (st1 := setSlot st0 _ _ _). set (st2 := v3WriteDigest st1 _ _ _). set (st3 := setSlot st2 _ _ _). set (st4 := setSlot st3 _ _ _).
  assert (F : ∀ r st v, used P r (address_bytes b) → frame P (λ r' d, r' = r ∧ d = address_bytes b) st (setSlot st r (address_bytes b) v))
    by (intros r s v Hr; by apply frame_set).
  pose proof (F _ st0 h U0) as F1. fold st1 in F1.
  assert (F2 : frame P (λ r d, (r = str "stamp/address-owner" ++ str "/0" ∨ r = str "stamp/address-owner" ++ str "/1") ∧ d = address_bytes b) st1 st2)
    by (by apply (frame_digest P); try done; tauto).
  pose proof (F _ st2 (BytesToHash (take 32 (sr_Commitment (sg_Stamp e)))) U3 : frame P _ st2 st3) as F3.
  pose proof (F _ st3 (BytesToHash (drop 32 (sr_Commitment (sg_Stamp e)))) U4 : frame P _ st3 st4) as F4.
  split_and!.
  - eapply frame_trans; [eapply frame_weaken; [|exact F1]|eapply frame_trans; [eapply frame_weaken; [|exact F2]|eapply frame_trans;
      [eapply frame_weaken; [|exact F3]|eapply frame_weaken; [|exact F4]]]]; intros r d [Hr ->]; (split; [|done]);
      repeat destruct Hr as [Hr|Hr]; subst r; in_roles.
  - unfold stampSlot. rewrite (fr_slots _ _ _ _ F4), (fr_slots _ _ _ _ F3), (fr_slots _ _ _ _ F2) by (done || intros [Hr _]; vm_compute in Hr; naive_solver).
    apply slot_set_eq.
  - unfold stampOwner. rewrite (read_frame P _ _ _ _ _ F4), (read_frame P _ _ _ _ _ F3) by (done || intros [Hr _]; by vm_compute in Hr).
    by apply (read_write_digest P).
Qed.

(** The slots in use that are not the registry's are as before. *)
Definition pool_same (st st' : S) : Prop :=
  ∀ r d, used P r d → r ∉ treeRoles stampTree ++ stampRoles → getSlot st' r d = getSlot st r d.

Lemma written_same st st1 b e h : is_address b → digest_ok e.(sg_Owner) → frame P (keys stampTree Dg (λ _, True)) st st1 →
  kept st (writeStamp st1 b e h) ∧ pool_same st (writeStamp st1 b e h).
Proof using HC HD HS HT.
  intros Hb Hd Hf. destruct (writeStamp_spec st1 b e h Hb Hd) as (Fw & _). destruct (pinNonce_spec st1) as [Kp Sp]. split.
  - eapply kept_trans; [by eapply frame_kept|]. eapply kept_trans; [exact Kp|by eapply frame_kept].
  - intros r d Hu Hr. rewrite (fr_slots _ _ _ _ Fw); [|done|intros [Hin _]; apply Hr, elem_of_app; by right].
    transitivity (getSlot st1 r d); [apply Sp|]. apply (fr_slots _ _ _ _ Hf); [done|]. intros (k & _ & _ & -> & _). apply Hr, elem_of_app. left.
    apply (list_elem_of_lookup_2 _ (posOf k)). by destruct k.
Qed.

(** ** Registration *)

(** The digests and addresses of the transaction are ones in use. *)
Record tx_ok (config : ChainConfig.ChainConfig) (number time : Z) (tx : stx) : Prop := {
  to_hash : tx.(sx_tx).(vt_Hash) ≠ 0;
  to_owner e : DecodeAntarticalStamp tx.(sx_tx).(vt_Data) = Ok e →
    Dg e.(sg_Owner) ∧ ∀ d, StampLeaf e.(sg_Stamp).(sr_ChainID) e.(sg_Owner) = Ok d → Dg d;
  to_sender from : Sender config number time tx.(sx_tx) = Some from → is_address from;
  to_key k a : pqAddress AlgorithmMLDSA87 k = Some a → is_address a;
}.

Lemma append_stamp st L chain owner h : tree_holds stampTree Dg st (entries L) → Dg owner → h ≠ 0 →
  (∀ d, StampLeaf chain owner = Ok d → Dg d) →
  match appendAntarticalStamp st chain owner h with
  | (Some _, _) => True
  | (None, st') => (∃ leaf, StampLeaf chain owner = Ok leaf ∧ tree_holds stampTree Dg st' (entries L ++ [(owner, leaf)]))
      ∧ frame P (keys stampTree Dg (λ _, True)) st st'
  end.
Proof using HC HD HT.
  intros H Ho Hh Hleaf. unfold appendAntarticalStamp. pose proof (th_size _ _ _ _ H) as Hsz.
  assert (En : uint64FromHash (getSlot st (str "stamp/next-index") []) = Z.of_nat (length (entries L))).
  { change (getSlot st (str "stamp/next-index") []) with (getK stampTree st TNext). rewrite (th_next _ _ _ _ H). apply u64_small.
    unfold is_u64, two64. lia. }
  rewrite En, (v3Zeroes_ok Dg). destruct (2 ^ Z.of_nat MerkleDepth <=? Z.of_nat (length (entries L))) eqn:Hf; [done|].
  destruct (StampLeaf chain owner) as [leaf|] eqn:El; [|done].
  assert (Hlt : Z.of_nat (length (entries L)) < 2 ^ 32) by (change (2 ^ Z.of_nat MerkleDepth) with (2 ^ 32) in Hf; lia).
  destruct (append_writes P stampTree Dg st (entries L) owner leaf h H Hlt Ho) as (st' & E & Ha); [by apply Hleaf|].
  change MerkleDepth with 32%nat. rewrite E. split; [|apply Ha]. exists leaf. split; [done|].
  eapply appended_holds; try done. by apply Hleaf.
Qed.

Lemma fresh_owner st L d : stamps_hold st L → Dg d → getSlot st (str "stamp/owner-index") (Digest_Bytes d) = 0 → d ∉ owners L.
Proof.
  intros H Hd Hs. change (getSlot st (str "stamp/owner-index") (Digest_Bytes d)) with (getK stampTree st (TId d)) in Hs.
  assert (Ho : (entries L).*1 = owners L) by (unfold entries, owners; by rewrite <- list_fmap_compose).
  pose proof (th_id _ _ _ _ (sh_tree _ _ H) d Hd) as Hid. rewrite Ho, Hs in Hid. destruct Hid as [[_ Hid]|(i & _ & _ & Hi)]; [done|lia].
Qed.

Lemma holds_snoc st st1 L e b leaf h : stamps_hold st L → is_address b → b ∉ addrs L → Dg e.(sg_Owner) → e.(sg_Owner) ∉ owners L → h ≠ 0 →
  StampLeaf e.(sg_Stamp).(sr_ChainID) e.(sg_Owner) = Ok leaf →
  tree_holds stampTree Dg st1 (entries L ++ [(e.(sg_Owner), leaf)]) → frame P (keys stampTree Dg (λ _, True)) st st1 →
  stamps_hold (writeStamp st1 b e h)
    (L ++ [{| m_address := b; m_owner := e.(sg_Owner); m_chain := e.(sg_Stamp).(sr_ChainID); m_hash := h |}]).
Proof using HC HD HS HT.
  intros H Hb Hnb Hd Hno Hh Hl Ht Hf. set (m := {| m_address := b |}).
  destruct (writeStamp_spec st1 b e h Hb (dg_ok Dg _ Hd)) as (Fw & E1 & E2). set (st2 := writeStamp _ _ _ _) in *.
  assert (Hsame : ∀ a, is_address a → a ≠ b → stampSlot st2 a = stampSlot st a ∧ stampOwner st2 a = stampOwner st a).
  { intros a Ha Hne. destruct (stamp_frame st st1 a Hf Ha) as [<- <-]. destruct (pinNonce_spec st1) as [_ Hp].
    assert (Hr : ∀ r, r ∈ stampRoles → getSlot st2 r (address_bytes a) = getSlot st1 r (address_bytes a)).
    { intros r Hr. rewrite (fr_slots _ _ _ _ Fw) by (first [by apply stamp_use|intros [_ E]; apply Hne; by apply address_bytes_inj]). apply Hp. }
    unfold stampSlot, stampOwner, v3ReadDigest. rewrite !Hr by in_roles. done. }
  split.
  - unfold entries. rewrite fmap_app. cbn [fmap list_fmap]. unfold leafOf. cbn [m_chain m_owner m]. rewrite Hl.
    eapply tree_frame; [|exact Fw|by apply pinNonce_tree]. intros r d [Hr _]. done.
  - intros m' Hm'. apply elem_of_app in Hm' as [Hm'| ->%list_elem_of_singleton]; [|done].
    destruct (sh_some _ _ H m' Hm') as (Ha & Hm & Es & Eo). destruct (Hsame (m_address m') Ha) as [-> ->]; [|done].
    intros E. rewrite <- E in Hnb. apply Hnb. apply list_elem_of_fmap. by exists m'.
  - intros a Ha Hna. unfold addrs in Hna. rewrite fmap_app, elem_of_app in Hna. destruct (Hsame a Ha) as [-> _].
    + intros ->. apply Hna. right. by left.
    + apply (sh_none _ _ H); [done|]. intros Hin. apply Hna. by left.
  - unfold addrs. rewrite fmap_app. apply NoDup_app. split_and!; [apply H| |apply NoDup_singleton].
    intros a Hin Ha%list_elem_of_singleton. by rewrite Ha in Hin.
  - unfold owners. rewrite fmap_app. apply NoDup_app. split_and!; [apply H| |apply NoDup_singleton].
    intros a Hin Ha%list_elem_of_singleton. by rewrite Ha in Hin.
Qed.

(** The sender registers its own address, or a stamped sender one that signed for it. *)
Definition authorised (config : ChainConfig.ChainConfig) (number time : Z) (L : list stamp) (tx : stx) (m : stamp) : Prop :=
  ∃ from e intent, Sender config number time tx.(sx_tx) = Some from ∧ DecodeAntarticalStamp tx.(sx_tx).(vt_Data) = Ok e
    ∧ AntarticalStampIntent tx e = Ok intent ∧ VerifyOwner m.(m_chain) m.(m_owner) intent e.(sg_Proof) = Ok ()
    ∧ m.(m_owner) = e.(sg_Owner) ∧ m.(m_hash) = tx.(sx_tx).(vt_Hash)
    ∧ (beneficiaryKey e = [] ∧ m.(m_address) = from
       ∨ from ∈ addrs L ∧ m.(m_address) ≠ from ∧ pqAddress AlgorithmMLDSA87 (beneficiaryKey e) = Some m.(m_address)
         ∧ time < e.(sg_ValidUntil) ∧ VerifyMLDSA87 (beneficiaryKey e) intent (default [] e.(sg_Authorization)) = true).

Lemma stamped_iff st L a : stamps_hold st L → is_address a → IsAntarticalStamped st a = true ↔ a ∈ addrs L.
Proof.
  intros H Ha. unfold IsAntarticalStamped. fold (stampSlot st a). split.
  - intros Hs. destruct (decide (a ∈ addrs L)); [done|]. rewrite (sh_none _ _ H) in Hs by done. done.
  - intros (m & -> & Hm)%list_elem_of_fmap. destruct (sh_some _ _ H m Hm) as (_ & Hh & -> & _). apply negb_true_iff, Z.eqb_neq. done.
Qed.

(** A sponsored registration was signed by its beneficiary and has not expired. *)
Lemma basics_sponsor config number time tx e : ValidateAntarticalStampBasics config number time tx = Ok () →
  DecodeAntarticalStamp tx.(sx_tx).(vt_Data) = Ok e → beneficiaryKey e ≠ [] →
  time < e.(sg_ValidUntil) ∧ ∃ intent, AntarticalStampIntent tx e = Ok intent
    ∧ VerifyMLDSA87 (beneficiaryKey e) intent (default [] e.(sg_Authorization)) = true.
Proof.
  intros Hb He Hk. unfold ValidateAntarticalStampBasics in Hb. rewrite He in Hb.
  apply bind_ok in Hb as ([] & _ & Hb). apply bind_ok in Hb as ([] & _ & Hb). cbn [mbind result_bind] in Hb.
  apply bind_ok in Hb as (pk & Hpk & _). destruct (beneficiaryKey e) as [|x xs] eqn:Ek; [done|]. cbn [length Nat.eqb negb] in Hpk.
  apply bind_ok in Hpk as ([] & Hg & Hpk). apply fail_if_ok, orb_false_iff in Hg as [Hg _]. split; [lia|].
  destruct (AntarticalStampIntent tx e) as [intent|]; [|done]. exists intent. split; [done|].
  by destruct (VerifyMLDSA87 (x :: xs) intent (default [] e.(sg_Authorization))).
Qed.

Lemma beneficiary_cases from e b : AntarticalStampBeneficiary from e = Ok b →
  beneficiaryKey e = [] ∧ b = from ∨ beneficiaryKey e ≠ [] ∧ b ≠ from ∧ pqAddress AlgorithmMLDSA87 (beneficiaryKey e) = Some b.
Proof.
  unfold AntarticalStampBeneficiary. destruct (beneficiaryKey e) as [|x xs]; cbn [length Nat.eqb].
  - intros E%Ok_inj. by left.
  - destruct (pqAddress _ _) as [a|]; [|done]. destruct (a =? from) eqn:Ea; [done|]. intros <-%Ok_inj. right. split_and!; [done|lia|done].
Qed.

Lemma proof_checked tx e : DecodeAntarticalStamp tx.(sx_tx).(vt_Data) = Ok e → ValidateAntarticalStampProof tx = Ok () →
  ∃ intent, AntarticalStampIntent tx e = Ok intent ∧ VerifyOwner e.(sg_Stamp).(sr_ChainID) e.(sg_Owner) intent e.(sg_Proof) = Ok ().
Proof.
  intros He Hp. unfold ValidateAntarticalStampProof in Hp. rewrite He in Hp. cbn [mbind result_bind] in Hp.
  apply bind_ok in Hp as (intent & Hi & Hp). by exists intent.
Qed.

(** One registration on a registry. *)
Lemma process_step config number time st L tx : stamps_hold st L → tx_ok config number time tx →
  match ProcessAntarticalStamp config number time st tx with
  | (Some _, st') => st' = st
  | (None, st') =>
      st' = st ∧ (∃ m, m ∈ L ∧ m.(m_hash) = tx.(sx_tx).(vt_Hash))
      ∨ ∃ m, (m.(m_address) ∉ addrs L) ∧ (m.(m_owner) ∉ owners L) ∧ authorised config number time L tx m ∧ stamps_hold st' (L ++ [m]) ∧ kept st st' ∧ pool_same st st'
  end.
Proof using HC HD HS HT.
  intros H Htx. unfold ProcessAntarticalStamp.
  destruct (ValidateAntarticalStampBasics config number time tx) as [[]|] eqn:Hbas; [|done].
  destruct (Sender config number time (sx_tx tx)) as [from|] eqn:Hs; [|done].
  destruct (DecodeAntarticalStamp _) as [e|] eqn:He; [|done]. destruct (AntarticalStampBeneficiary from e) as [b|] eqn:Hb; [|done].
  destruct (to_owner _ _ _ _ Htx e He) as [Ho Hleaf]. pose proof (to_sender _ _ _ _ Htx from Hs) as Hfrom.
  apply beneficiary_cases in Hb. assert (Hba : is_address b).
  { destruct Hb as [[_ ->]|(_ & _ & Hb)]; [done|]. by apply (to_key _ _ _ _ Htx) in Hb. }
  match goal with |- context [if ?c then _ else _] => destruct c eqn:Hsp end; [done|]. fold (stampSlot st b).
  destruct (stampSlot st b =? vt_Hash (sx_tx tx)) eqn:Hex.
  { left. split; [done|]. destruct (decide (b ∈ addrs L)) as [Hin|Hn].
    - apply list_elem_of_fmap in Hin as (m & -> & Hm). exists m. split; [done|]. destruct (sh_some _ _ H m Hm) as (_ & _ & E & _). lia.
    - rewrite (sh_none _ _ H b Hba Hn) in Hex. pose proof (to_hash _ _ _ _ Htx). lia. }
  destruct (negb (stampSlot st b =? zeroHash)) eqn:Hz; [done|]. destruct (negb (GetCodeSize _ _ =? 0)); [done|].
  destruct (negb (getSlot st (str "stamp/owner-index") _ =? zeroHash)) eqn:Hi; [done|].
  destruct (ValidateAntarticalStampProof tx) as [[]|] eqn:Hpr; [|done].
  pose proof (append_stamp st L e.(sg_Stamp).(sr_ChainID) e.(sg_Owner) tx.(sx_tx).(vt_Hash) (sh_tree _ _ H) Ho (to_hash _ _ _ _ Htx) Hleaf) as Ha.
  destruct (appendAntarticalStamp _ _ _ _) as [[?|] st1]; [done|]. destruct Ha as ((leaf & El & Ht) & Hf). right.
  apply negb_false_iff, Z.eqb_eq in Hz, Hi. assert (Hno : e.(sg_Owner) ∉ owners L) by (by eapply fresh_owner).
  assert (Hnb : b ∉ addrs L).
  { intros Hin. apply (stamped_iff st L b H Hba) in Hin. unfold IsAntarticalStamped in Hin. fold (stampSlot st b) in Hin. by rewrite Hz in Hin. }
  eexists. split; [|split; [|split; [|split; [eapply holds_snoc; try done; apply (to_hash _ _ _ _ Htx)|]]]]; [exact Hnb|exact Hno| |].
  - destruct (proof_checked tx e He Hpr) as (intent & Hint & Hv). exists from, e, intent. split_and!; try done.
    destruct Hb as [[Hk ->]|(Hk & Hne & Hpq)]; [by left|]. right.
    destruct (basics_sponsor config number time tx e Hbas He Hk) as (Htime & intent' & Hint' & Hsig). rewrite Hint in Hint'. apply Ok_inj in Hint'.
    subst intent'. split_and!; try done. apply (stamped_iff st L from H Hfrom). destruct (beneficiaryKey e); [done|].
    by apply negb_false_iff in Hsp.
  - apply written_same; [done|by apply (dg_ok Dg)|done].
Qed.

(** The path of a stamp's owner. *)
Lemma stamp_path st L i m : stamps_hold st L → L !! i = Some m →
  ∃ path, AntarticalStampPath st m.(m_owner)
          = Ok {| p_Commitment := m.(m_owner); p_Index := Z.of_nat i; p_Root := treeRoot (entries L); p_Path := path; p_Found := true |}
    ∧ Merkle.fold_path hp (leafOf m) (Z.of_nat i) path = treeRoot (entries L).
Proof using HD.
  intros H Hi. apply (path_holds stampTree Dg st (entries L) i m.(m_owner) (leafOf m) (sh_tree _ _ H)).
  - unfold entries. by rewrite list_lookup_fmap, Hi.
  - intros j Hj E. unfold entries in E. rewrite <- list_fmap_compose in E. cbn [compose] in E.
    assert (j = i); [|lia]. apply (NoDup_lookup (owners L) _ _ m.(m_owner) (sh_owners _ _ H)); [exact E|].
    unfold owners. by rewrite list_lookup_fmap, Hi.
Qed.

(** C17: Stamp registration.  On a registry of stamps, one per address and one per owner,
    a registration is refused and changes nothing, or repeats the transaction that
    is already recorded, or appends exactly one stamp of a new owner for a new
    address, which is the sender's or one whose key signed for a stamped sponsor,
    with the owner's proof verified; nothing else in the state changes.  The
    stamped addresses are those of the list, and the path returned for every
    owner leads from its leaf to the root of the tree. *)
Theorem stamp_registration config number time st L tx : stamps_hold st L → tx_ok config number time tx →
  match ProcessAntarticalStamp config number time st tx with
  | (Some _, st') => st' = st
  | (None, st') =>
      st' = st ∧ (∃ m, m ∈ L ∧ m.(m_hash) = tx.(sx_tx).(vt_Hash))
      ∨ ∃ m, (m.(m_address) ∉ addrs L) ∧ (m.(m_owner) ∉ owners L) ∧ authorised config number time L tx m ∧ stamps_hold st' (L ++ [m]) ∧ kept st st' ∧ pool_same st st'
  end
  ∧ (∀ a, is_address a → IsAntarticalStamped st a = true ↔ a ∈ addrs L)
  ∧ (∀ i m, L !! i = Some m →
       ∃ path, AntarticalStampPath st m.(m_owner)
               = Ok {| p_Commitment := m.(m_owner); p_Index := Z.of_nat i; p_Root := treeRoot (entries L); p_Path := path; p_Found := true |}
         ∧ Merkle.fold_path hp (leafOf m) (Z.of_nat i) path = treeRoot (entries L)).
Proof using HC HD HS HT.
  intros H Htx. split_and!; [by apply process_step|intros a Ha; by apply stamped_iff|intros i m Hi; by apply stamp_path].
Qed.

End Registry.
End StampRegistry.
