(* ===== verification/Token.v ===== *)
(** * Token policy state machine

    [TokenState.Apply] of [consensus/antartical/profile.go] with the capability
    flags of [core/tkmasset/manifest.go].  [nil] big integers are [None]; the
    balance map holds one integer per account, created on first use. *)

From S2P Require Import Prelude.

Module Token.

Inductive error := ErrInvalidTokenOperation | ErrTokenPolicyViolation | ErrProfileInactive.

Definition FlagMintable : Z := Z.shiftl 1 0.
Definition FlagBurnable : Z := Z.shiftl 1 1.
Definition FlagPausable : Z := Z.shiftl 1 2.
Definition FlagShielded : Z := Z.shiftl 1 5.
Definition FlagRoyalty : Z := Z.shiftl 1 6.

Definition hasFlag (flags flag : Z) : bool := negb (Z.land flags flag =? 0).

(** [TokenOperationKind]; any other byte is [TokenOther]. *)
Inductive TokenOperationKind :=
  TokenTransfer | TokenMint | TokenBurn | TokenPause | TokenUnpause | TokenShield | TokenOther.

#[global] Instance TokenOperationKind_eq_dec : EqDecision TokenOperationKind.
Proof. solve_decision. Defined.

Record TokenPolicy := {
  AssetID : hash;
  Admin : address;
  Flags : Z;
  MaxSupply : option Z;
  RoyaltyBPS : Z;
  RoyaltyRecipient : address;
}.

Record TokenOperation := {
  Kind : TokenOperationKind;
  Actor : address;
  From : address;
  To : address;
  Amount : option Z;
}.

Record TokenState := {
  TotalSupply : option Z;
  Balances : gmap Z Z;
  Paused : bool;
}.

Definition setSupply (s : TokenState) (v : Z) : TokenState :=
  {| TotalSupply := Some v; Balances := s.(Balances); Paused := s.(Paused) |}.
Definition setBalance (s : TokenState) (a : address) (v : Z) : TokenState :=
  {| TotalSupply := s.(TotalSupply); Balances := <[a := v]> s.(Balances); Paused := s.(Paused) |}.
Definition setPaused (s : TokenState) (p : bool) : TokenState :=
  {| TotalSupply := s.(TotalSupply); Balances := s.(Balances); Paused := p |}.

(** [balance]: the account's integer; a missing one is created as zero. *)
Definition balance (s : TokenState) (a : address) : Z := default 0 (s.(Balances) !! a).
Definition touch (s : TokenState) (a : address) : TokenState := setBalance s a (balance s a).
Definition supply (s : TokenState) : Z := default 0 s.(TotalSupply).

(** [s.balance(a).Add(s.balance(a), v)] and its subtraction. *)
Definition addTo (s : TokenState) (a : address) (v : Z) : TokenState := setBalance s a (balance s a + v).

(** The guards on policy and operation before the switch. *)
Definition policyMalformed (policy : TokenPolicy) : bool :=
  bool_decide (policy.(Admin) = zeroAddress)
  || match policy.(MaxSupply) with Some m => m <? 0 | None => false end
  || (10000 <? policy.(RoyaltyBPS))
  || (0 <? policy.(RoyaltyBPS)) && bool_decide (policy.(RoyaltyRecipient) = zeroAddress).

Definition isPauseKind (k : TokenOperationKind) : bool :=
  bool_decide (k = TokenPause) || bool_decide (k = TokenUnpause).

Definition amountOf (op : TokenOperation) : Z := default 0 op.(Amount).

(** The royalty of a transfer. *)
Definition royaltyFee (policy : TokenPolicy) (amount : Z) : Z :=
  if hasFlag policy.(Flags) FlagRoyalty && (0 <? policy.(RoyaltyBPS))
  then amount * policy.(RoyaltyBPS) / 10000 else 0.

(** The switch of [Apply], on a state whose supply is set. *)
Definition applyKind (s : TokenState) (policy : TokenPolicy) (op : TokenOperation) : TokenState * option error :=
  let amount := amountOf op in
  let notAdmin := bool_decide (op.(Actor) ≠ policy.(Admin)) in
  let violation s := (s, Some ErrTokenPolicyViolation) in
  match op.(Kind) with
  | TokenMint =>
      if negb (hasFlag policy.(Flags) FlagMintable) || notAdmin || bool_decide (op.(To) = zeroAddress) then violation s
      else
        let next := supply s + amount in
        if match policy.(MaxSupply) with Some m => m <? next | None => false end then violation s
        else (addTo (setSupply s next) op.(To) amount, None)
  | TokenBurn =>
      if negb (hasFlag policy.(Flags) FlagBurnable) || bool_decide (op.(Actor) ≠ op.(From))
         || bool_decide (op.(From) = zeroAddress) then violation s
      else if balance s op.(From) <? amount then violation (touch s op.(From))
      else let s := addTo s op.(From) (- amount) in (setSupply s (supply s - amount), None)
  | TokenTransfer =>
      if bool_decide (op.(From) = zeroAddress) || bool_decide (op.(To) = zeroAddress)
         || bool_decide (op.(Actor) ≠ op.(From)) then violation s
      else if balance s op.(From) <? amount then violation (touch s op.(From))
      else if hasFlag policy.(Flags) FlagRoyalty && (0 <? policy.(RoyaltyBPS))
              && (bool_decide (policy.(RoyaltyRecipient) = zeroAddress) || (10000 <? policy.(RoyaltyBPS)))
      then violation (touch s op.(From))
      else
        let fee := royaltyFee policy amount in
        let s := addTo s op.(From) (- amount) in
        let s := addTo s op.(To) (amount - fee) in
        let s := if 0 <? fee then addTo s policy.(RoyaltyRecipient) fee else s in
        (s, None)
  | TokenPause =>
      if negb (hasFlag policy.(Flags) FlagPausable) || notAdmin then violation s else (setPaused s true, None)
  | TokenUnpause =>
      if negb (hasFlag policy.(Flags) FlagPausable) || notAdmin then violation s else (setPaused s false, None)
  | TokenShield => if negb (hasFlag policy.(Flags) FlagShielded) then violation s else (s, None)
  | TokenOther => (s, Some ErrInvalidTokenOperation)
  end.

(** [TokenState.Apply]: the state after the call, and the error it returns. *)
Definition Apply (s : TokenState) (policy : TokenPolicy) (op : TokenOperation) : TokenState * option error :=
  if bool_decide (policy.(AssetID) = zeroHash) || bool_decide (op.(Actor) = zeroAddress) || policyMalformed policy
  then (s, Some ErrInvalidTokenOperation)
  else if negb (isPauseKind op.(Kind)) && match op.(Amount) with None => true | Some a => a <? 0 end
  then (s, Some ErrInvalidTokenOperation)
  else
    let s := setSupply s (supply s) in
    if negb (isPauseKind op.(Kind)) && negb (bool_decide (op.(Kind) = TokenShield)) && (amountOf op =? 0)
    then (s, Some ErrInvalidTokenOperation)
    else if s.(Paused) && negb (bool_decide (op.(Kind) = TokenUnpause))
    then (s, Some ErrTokenPolicyViolation)
    else applyKind s policy op.

Definition AntarticalProfileVersion : Z := 1.
Definition VersionedMetadataActive (version : Z) : bool := AntarticalProfileVersion <=? version.

Definition ApplyAtVersion (s : TokenState) (policy : TokenPolicy) (op : TokenOperation) (version : Z) : TokenState * option error :=
  if negb (VersionedMetadataActive version) then (s, Some ErrProfileInactive) else Apply s policy op.

(** ** Supply accounting *)

Definition total (m : gmap Z Z) : Z := map_fold (λ _ v acc, v + acc) 0 m.

Lemma total_insert_fresh m a v : m !! a = None → total (<[a := v]> m) = v + total m.
Proof. intros H. unfold total. by rewrite map_fold_insert_L by (done || lia). Qed.

Lemma total_insert m a v : total (<[a := v]> m) = total m - default 0 (m !! a) + v.
Proof.
  destruct (m !! a) as [w|] eqn:E; cbn.
  - rewrite <- (insert_delete_id m a w E) at 2. rewrite <- (insert_delete_eq m a v).
    rewrite !total_insert_fresh by apply lookup_delete_eq. lia.
  - rewrite total_insert_fresh by done. lia.
Qed.

Lemma total_addTo s a v : total (addTo s a v).(Balances) = total s.(Balances) + v.
Proof. unfold addTo, setBalance, balance. cbn. rewrite total_insert. lia. Qed.

Lemma supply_addTo s a v : supply (addTo s a v) = supply s.
Proof. done. Qed.

Lemma total_touch s a : total (touch s a).(Balances) = total s.(Balances).
Proof. unfold touch, setBalance, balance. cbn. rewrite total_insert. lia. Qed.

Lemma balance_addTo s a v b : balance (addTo s a v) b = balance s b + (if decide (a = b) then v else 0).
Proof.
  unfold balance at 1, addTo, setBalance. cbn. rewrite lookup_insert. case_decide; subst; cbn; [done|].
  unfold balance. lia.
Qed.

Lemma balance_touch s a b : balance (touch s a) b = balance s b.
Proof.
  unfold touch, setBalance. unfold balance at 1. cbn. rewrite lookup_insert. case_decide; by subst.
Qed.

(** Supply equals the sum of the balances, none of which is negative, and stays
    within the policy's cap. *)
Definition token_inv (policy : TokenPolicy) (s : TokenState) : Prop :=
  supply s = total s.(Balances) ∧ (∀ a, 0 <= balance s a) ∧
  match policy.(MaxSupply) with Some m => 0 <= m → supply s <= m | None => True end.

Lemma royaltyFee_bounds policy amount :
  policyMalformed policy = false → 0 <= amount → 0 <= royaltyFee policy amount <= amount.
Proof.
  intros Hp Ha. unfold policyMalformed in Hp. bool_to_prop. unfold royaltyFee. case_if; [|lia]. bool_to_prop.
  split; [apply Z.div_pos; nia|]. apply Z.div_le_upper_bound; nia.
Qed.

Create Rewrite HintDb token.
#[local] Hint Rewrite total_addTo total_touch balance_addTo balance_touch : token.

Lemma inv_touch policy s a : token_inv policy s → token_inv policy (touch s a).
Proof.
  intros (Hs&Hb&Hm). split_and!; [by rewrite total_touch|intros b; by rewrite balance_touch|done].
Qed.

Lemma inv_mint policy s a v :
  0 <= v → token_inv policy s → match policy.(MaxSupply) with Some m => supply s + v <= m | None => True end →
  token_inv policy (addTo (setSupply s (supply s + v)) a v).
Proof.
  intros Hv (Hs&Hb&Hm) Hcap. split_and!.
  - rewrite total_addTo. cbn. lia.
  - intros b. rewrite balance_addTo. change (balance (setSupply _ _) b) with (balance s b).
    specialize (Hb b). case_decide; lia.
  - destruct policy.(MaxSupply); [|done]. cbn. lia.
Qed.

Lemma inv_burn policy s a v :
  0 <= v <= balance s a → token_inv policy s →
  let s' := addTo s a (- v) in token_inv policy (setSupply s' (supply s' - v)).
Proof.
  intros Hv (Hs&Hb&Hm). cbn zeta. split_and!.
  - change (Balances (setSupply ?s _)) with (Balances s). rewrite total_addTo.
    change (supply (setSupply _ ?x)) with x. change (supply (addTo ?s _ _)) with (supply s). lia.
  - intros b. change (balance (setSupply ?s _) b) with (balance s b). rewrite balance_addTo.
    specialize (Hb b). case_decide; subst; lia.
  - destruct policy.(MaxSupply); [|done].
    change (supply (setSupply _ ?x)) with x. change (supply (addTo ?s _ _)) with (supply s). lia.
Qed.

(** Moving [v] out of one account and [v] in total into others keeps the books. *)
Lemma inv_transfer policy s a b r v fee :
  0 <= fee <= v → v <= balance s a → token_inv policy s →
  token_inv policy (addTo (addTo (addTo s a (- v)) b (v - fee)) r fee) ∧
  (fee = 0 → token_inv policy (addTo (addTo s a (- v)) b (v - fee))).
Proof.
  intros Hv Ha (Hs&Hb&Hm). split; [|intros ->]; split_and!; try done.
  - rewrite !total_addTo, !supply_addTo. lia.
  - intros c. rewrite !balance_addTo. specialize (Hb c). repeat case_decide; subst; lia.
  - rewrite !total_addTo, !supply_addTo. lia.
  - intros c. rewrite !balance_addTo. specialize (Hb c). repeat case_decide; subst; lia.
Qed.

Lemma applyKind_inv policy s op :
  policyMalformed policy = false → (isPauseKind op.(Kind) = true ∨ 0 <= amountOf op) →
  token_inv policy s → token_inv policy (applyKind s policy op).1.
Proof.
  intros Hp Ha Hinv. unfold applyKind. pose proof (royaltyFee_bounds policy (amountOf op) Hp) as Hf.
  destruct op.(Kind) eqn:E; cbn in Ha; try (destruct Ha as [?|Ha]; [done|]).
  - repeat (case_if; cbn; [by first [apply inv_touch | idtac]|]). bool_to_prop.
    destruct (inv_transfer policy s op.(From) op.(To) policy.(RoyaltyRecipient) (amountOf op)
      (royaltyFee policy (amountOf op)) (Hf Ha) ltac:(lia) Hinv) as [Hi1 Hi2].
    cbn zeta. case_if; [done|]. apply Hi2. lia.
  - case_if; [done|]. cbn zeta. case_if; [done|]. apply inv_mint; [done|done|].
    destruct policy.(MaxSupply); [|done]. bool_to_prop. lia.
  - repeat (case_if; cbn; [by first [apply inv_touch | idtac]|]). bool_to_prop.
    apply (inv_burn policy s op.(From)); [lia|done].
  - case_if; done.
  - case_if; done.
  - case_if; done.
  - done.
Qed.

Lemma setSupply_inv policy s : token_inv policy s → token_inv policy (setSupply s (supply s)).
Proof. done. Qed.

Lemma Apply_inv policy s op : token_inv policy s → token_inv policy (Apply s policy op).1.
Proof.
  intros Hinv. unfold Apply. destruct (policyMalformed policy) eqn:Hp; [by rewrite orb_true_r|].
  repeat (case_if; [done|]). cbn zeta. repeat (case_if; [done|]).
  apply applyKind_inv; [done| |done]. destruct (isPauseKind op.(Kind)); [by left|right].
  cbn in *. unfold amountOf in *. destruct op.(Amount); cbn in *; bool_to_prop; lia || done.
Qed.

(** C31: over any sequence of operations, accepted or refused, the total supply
    stays equal to the sum of all balances, no balance becomes negative, and the
    supply never exceeds the policy's maximum. *)
Theorem token_supply_invariant (policy : TokenPolicy) (ops : list TokenOperation) (s : TokenState)
    (Hinv : token_inv policy s) :
  token_inv policy (foldl (λ s op, (Apply s policy op).1) s ops).
Proof. revert s Hinv. induction ops as [|op ops IH]; intros s Hinv; [done|]. cbn. by apply IH, Apply_inv. Qed.

Lemma Apply_ok s policy op s' :
  Apply s policy op = (s', None) →
  policyMalformed policy = false ∧ (s.(Paused) = true → op.(Kind) = TokenUnpause) ∧
  (isPauseKind op.(Kind) = true ∨ 0 <= amountOf op) ∧
  applyKind (setSupply s (supply s)) policy op = (s', None).
Proof.
  unfold Apply. intros H. split_guard H E1; [done|]. split_guard H E2; [done|]. cbn zeta in H.
  split_guard H E3; [done|]. split_guard H E4; [done|]. apply orb_false_iff in E1 as [_ E1].
  split_and!; [done| | |done].
  - intros Hp. change (Paused (setSupply s _)) with (Paused s) in E4. rewrite Hp in E4. cbn in E4. by bool_to_prop.
  - destruct (isPauseKind op.(Kind)); [by left|right]. cbn in E2. unfold amountOf.
    destruct op.(Amount); cbn in *; bool_to_prop; [lia|done].
Qed.

(** Who may change what.  If an operation is accepted then it runs only while
    the token is not paused (unless it unpauses), every balance it lowers belongs
    to its actor, and it raises the supply only as a mint by the administrator of
    a mintable asset. *)
Theorem token_access_control (policy : TokenPolicy) (s s' : TokenState) (op : TokenOperation)
    (Hok : Apply s policy op = (s', None)) :
  (s.(Paused) = true → op.(Kind) = TokenUnpause) ∧
  (∀ a, balance s' a < balance s a → op.(Actor) = a) ∧
  (supply s < supply s' → op.(Kind) = TokenMint ∧ op.(Actor) = policy.(Admin) ∧ hasFlag policy.(Flags) FlagMintable = true) ∧
  (s'.(Paused) ≠ s.(Paused) → op.(Actor) = policy.(Admin)).
Proof.
  apply Apply_ok in Hok as (Hp&Hpause&Ham&Hk). split; [done|]. clear Hpause.
  set (t := setSupply s (supply s)) in *. change (supply s) with (supply t).
  change (s.(Paused)) with (t.(Paused)).
  assert (Hbal : ∀ a, balance s a = balance t a) by done. setoid_rewrite Hbal. clearbody t. clear Hbal s.
  unfold applyKind in Hk. destruct op.(Kind) eqn:E; cbn in Ham; try (destruct Ham as [?|Ham]; [done|]).
  - pose proof (royaltyFee_bounds policy (amountOf op) Hp Ham) as Hf.
    repeat (case_if_in Hk; [done|]). cbn zeta in Hk. injection Hk as <-. split_and!; bool_to_prop.
    + intros a. destruct (decide (op.(Actor) = op.(From))) as [->|]; [|tauto].
      case_if; rewrite ?balance_addTo; repeat case_decide; subst; try done; lia.
    + case_if; rewrite ?supply_addTo; lia.
    + by case_if.
  - repeat (case_if_in Hk; [done|]). cbn zeta in Hk. injection Hk as <-. bool_to_prop.
    destruct (decide (op.(Actor) = policy.(Admin))); [|tauto]. split_and!; try done. intros a. rewrite balance_addTo. change (balance (setSupply _ _) a) with (balance t a).
    case_decide; lia.
  - repeat (case_if_in Hk; [done|]). injection Hk as <-. bool_to_prop. split_and!; try done.
    + intros a. change (balance (setSupply ?s _) a) with (balance s a). rewrite balance_addTo.
      destruct (decide (op.(Actor) = op.(From))) as [->|]; [|tauto]. case_decide; [done|lia].
    + change (supply (setSupply _ ?x)) with x. rewrite supply_addTo. lia.
  - case_if_in Hk; [done|]. injection Hk as <-. bool_to_prop.
    destruct (decide (op.(Actor) = policy.(Admin))); [|tauto].
    split_and!; [by intros a; change (balance (setPaused t _) a) with (balance t a); lia|by change (supply (setPaused t _)) with (supply t); lia|done].
  - case_if_in Hk; [done|]. injection Hk as <-. bool_to_prop.
    destruct (decide (op.(Actor) = policy.(Admin))); [|tauto].
    split_and!; [by intros a; change (balance (setPaused t _) a) with (balance t a); lia|by change (supply (setPaused t _)) with (supply t); lia|done].
  - case_if_in Hk; [done|]. injection Hk as <-. split_and!; [lia..|done].
  - done.
Qed.

(** ** Concrete policies *)

Definition demoPolicy : TokenPolicy :=
  {| AssetID := 1; Admin := 7; Flags := Z.lor FlagMintable (Z.lor FlagBurnable FlagRoyalty);
     MaxSupply := Some 1000; RoyaltyBPS := 250; RoyaltyRecipient := 9 |}.

Definition emptyToken : TokenState := {| TotalSupply := None; Balances := ∅; Paused := false |}.

Definition demoOps : list TokenOperation :=
  [{| Kind := TokenMint; Actor := 7; From := 0; To := 1; Amount := Some 600 |};
   {| Kind := TokenMint; Actor := 7; From := 0; To := 1; Amount := Some 600 |};
   {| Kind := TokenTransfer; Actor := 1; From := 1; To := 2; Amount := Some 400 |};
   {| Kind := TokenBurn; Actor := 2; From := 2; To := 0; Amount := Some 90 |}].

Lemma token_supply_invariant_witness :
  token_inv demoPolicy emptyToken ∧
  token_inv demoPolicy (foldl (λ s op, (Apply s demoPolicy op).1) emptyToken demoOps).
Proof.
  assert (H : token_inv demoPolicy emptyToken) by (split_and!; [done|by intros a|by cbn; lia]).
  split; [done|]. by apply token_supply_invariant.
Defined.

Lemma token_access_control_witness :
  let s := (Apply emptyToken demoPolicy {| Kind := TokenMint; Actor := 7; From := 0; To := 1; Amount := Some 600 |}).1 in
  let op := {| Kind := TokenTransfer; Actor := 1; From := 1; To := 2; Amount := Some 400 |} in
  balance (Apply s demoPolicy op).1 1 < balance s 1 ∧ (∀ a, balance (Apply s demoPolicy op).1 a < balance s a → op.(Actor) = a).
Proof.
  intros s op. split; [by vm_compute|].
  apply (token_access_control demoPolicy s (Apply s demoPolicy op).1 op). by vm_compute.
Defined.
End Token.
