(* ===== verification/Assets.v ===== *)
(** * TKM asset manifests

    [core/tkmasset/manifest.go]: the canonical encoding of an asset's identity,
    the trailer that carries it in a contract's runtime code, and the asset
    identifier.  Strings are the byte strings Go sees; Keccak-256 is a
    parameter. *)

From S2P Require Import Prelude Bytes.

Module Assets.

Definition Magic : bytes := str "TKMASSET".
Definition Version : Z := 1.
Definition maxNameBytes : nat := 96.
Definition maxSymbolBytes : nat := 32.
Definition maxMetadataBytes : nat := 512.
Definition precompileInputLength : nat := (32 + 20 + 1 + 32)%nat.

Definition KindFungible : Z := 1.
Definition KindNonFungible : Z := 2.
Definition KindMulti : Z := 3.
Definition FlagSoulbound : Z := Z.shiftl 1 7.
(** The nine flags [FlagMintable] .. [FlagUpgradeable]. *)
Definition knownFlags : Z := Z.shiftl 1 9 - 1.

Record Manifest := {
  Kind : Z;
  ChainID : option Z;
  Decimals : Z;
  Flags : Z;
  PolicyHash : hash;
  Name : bytes;
  Symbol : bytes;
  MetadataURI : bytes;
}.

Inductive error := ErrKindOrChain | ErrNFTDecimals | ErrUnknownFlags | ErrSoulbound | ErrText
  | ErrTextTooLong | ErrHeader | ErrTruncatedLength | ErrTruncatedField | ErrTrailingBytes
  | ErrAssetIDInputs | ErrPrecompileInput | ErrTooLarge | ErrTrailerHeader | ErrTrailerLength.

(** [utf8.ValidString]: continuation bytes with the ranges of the Unicode
    table. *)
Definition in_range (lo hi b : Z) : bool := (lo <=? b) && (b <=? hi).

Fixpoint utf8_valid (s : bytes) : bool :=
  match s with
  | [] => true
  | b0 :: s1 =>
      if in_range 0 0x7F b0 then utf8_valid s1
      else match s1 with
      | [] => false
      | b1 :: s2 =>
          if in_range 0xC2 0xDF b0 then in_range 0x80 0xBF b1 && utf8_valid s2
          else match s2 with
          | [] => false
          | b2 :: s3 =>
              if in_range 0xE0 0xEF b0 then
                (if b0 =? 0xE0 then in_range 0xA0 0xBF b1
                 else if b0 =? 0xED then in_range 0x80 0x9F b1 else in_range 0x80 0xBF b1)
                && in_range 0x80 0xBF b2 && utf8_valid s3
              else match s3 with
              | [] => false
              | b3 :: s4 =>
                  in_range 0xF0 0xF4 b0
                  && (if b0 =? 0xF0 then in_range 0x90 0xBF b1
                      else if b0 =? 0xF4 then in_range 0x80 0x8F b1 else in_range 0x80 0xBF b1)
                  && in_range 0x80 0xBF b2 && in_range 0x80 0xBF b3 && utf8_valid s4
              end
          end
      end
  end.

Definition validText (value : bytes) (min max : nat) : bool :=
  (min <=? length value)%nat && (length value <=? max)%nat && utf8_valid value.

Definition Kind_Valid (k : Z) : bool := (KindFungible <=? k) && (k <=? KindMulti).

(** A chain identifier is set, non-negative and of at most 256 bits. *)
Definition validChainID (c : option Z) : bool :=
  match c with Some c => (0 <=? c) && (c <? two256) | None => false end.

Definition Validate (m : Manifest) : result error unit :=
  _ ← fail_if (negb (Kind_Valid m.(Kind)) || negb (validChainID m.(ChainID))) ErrKindOrChain;
  _ ← fail_if ((m.(Kind) =? KindNonFungible) && negb (m.(Decimals) =? 0)) ErrNFTDecimals;
  _ ← fail_if (negb (Z.land m.(Flags) (Z.lxor knownFlags (2 ^ 32 - 1)) =? 0)) ErrUnknownFlags;
  _ ← fail_if (negb (Z.land m.(Flags) FlagSoulbound =? 0) && (m.(Kind) =? KindFungible)) ErrSoulbound;
  fail_if (negb (validText m.(Name) 1 maxNameBytes) || negb (validText m.(Symbol) 1 maxSymbolBytes)
           || negb (validText m.(MetadataURI) 0 maxMetadataBytes)) ErrText.

(** A text field: two bytes of length and the bytes. *)
Definition encodeText (field : bytes) : bytes := be_bytes 2 (Z.of_nat (length field)) ++ field.

(** The payload after the marker and version. *)
Definition manifestPayload (m : Manifest) : bytes :=
  [m.(Kind)] ++ be_bytes 32 (default 0 m.(ChainID)) ++ [m.(Decimals)] ++ be_bytes 4 m.(Flags)
  ++ hash_bytes m.(PolicyHash) ++ encodeText m.(Name) ++ encodeText m.(Symbol) ++ encodeText m.(MetadataURI).

Definition MarshalBinary (m : Manifest) : result error bytes :=
  _ ← Validate m;
  _ ← fail_if ((65535 <? Z.of_nat (length m.(Name))) || (65535 <? Z.of_nat (length m.(Symbol)))
               || (65535 <? Z.of_nat (length m.(MetadataURI)))) ErrTextTooLong;
  Ok (Magic ++ [Version] ++ manifestPayload m).

(** One iteration of the field loop on the bytes from the current offset. *)
Definition decodeText (rest : bytes) : result error (bytes * bytes) :=
  if (length rest <? 2)%nat then Err ErrTruncatedLength
  else
    let len := Z.to_nat (be_value (take 2 rest)) in
    let rest := drop 2 rest in
    if (length rest <? len)%nat then Err ErrTruncatedField else Ok (take len rest, drop len rest).

Definition UnmarshalBinary (data : bytes) : result error Manifest :=
  if (length data <? length Magic + 1 + 1 + 32 + 1 + 4 + 32 + 6)%nat
     || negb (bool_decide (take (length Magic) data = Magic))
     || negb (nth (length Magic) data 0 =? Version)
  then Err ErrHeader
  else
    let rest := drop (length Magic + 1) data in
    let kind := nth 0 rest 0 in
    let rest := drop 1 rest in
    let chain := be_value (take 32 rest) in
    let rest := drop 32 rest in
    let decimals := nth 0 rest 0 in
    let rest := drop 1 rest in
    let flags := be_value (take 4 rest) in
    let rest := drop 4 rest in
    let policy := be_value (take 32 rest) in
    let rest := drop 32 rest in
    '(name, rest) ← decodeText rest;
    '(symbol, rest) ← decodeText rest;
    '(metadata, rest) ← decodeText rest;
    if negb (length rest =? 0)%nat then Err ErrTrailingBytes
    else
      let m := {| Kind := kind; ChainID := Some chain; Decimals := decimals; Flags := flags;
                  PolicyHash := policy; Name := name; Symbol := symbol; MetadataURI := metadata |} in
      _ ← Validate m;
      Ok m.

(** ** Runtime-code trailer *)

(** [int] is 64 bits wide. *)
Definition maxInt : Z := 2 ^ 63 - 1.

Definition trailerCapacity (runtimeLen payloadLen : Z) : result error Z :=
  let trailerHeaderLen := Z.of_nat (length Magic) + 1 + 4 in
  _ ← fail_if ((runtimeLen <? 0) || (payloadLen <? 0) || (2 ^ 32 - 1 <? payloadLen)) ErrTooLarge;
  _ ← fail_if ((maxInt - trailerHeaderLen <? payloadLen) || (maxInt - trailerHeaderLen - payloadLen <? runtimeLen)) ErrTooLarge;
  Ok (runtimeLen + trailerHeaderLen + payloadLen).

Definition AppendTrailer (runtime : bytes) (m : Manifest) : result error bytes :=
  canonical ← MarshalBinary m;
  let payload := drop (length Magic + 1) canonical in
  _ ← trailerCapacity (Z.of_nat (length runtime)) (Z.of_nat (length payload));
  Ok (runtime ++ Magic ++ [Version] ++ be_bytes 4 (Z.of_nat (length payload)) ++ payload).

(** [None] is the [found = false] result. *)
Definition ParseRuntimeCode (code : bytes) : option (result error Manifest) :=
  match last_index_of code Magic with
  | None => None
  | Some index => Some (
      let tail := drop (index + length Magic) code in
      if (length tail <? 1 + 4)%nat || negb (nth 0 tail 0 =? Version) then Err ErrTrailerHeader
      else
        let len := Z.to_nat (be_value (take 4 (drop 1 tail))) in
        let payload := drop 5 tail in
        if (len =? 0)%nat || negb (length payload =? len)%nat then Err ErrTrailerLength
        else UnmarshalBinary (Magic ++ [Version] ++ payload))
  end.

(** ** Identifiers *)
Section Identifiers.
Context (keccak256 : bytes → hash).

Definition ManifestHash (m : Manifest) : result error hash :=
  encoded ← MarshalBinary m; Ok (keccak256 encoded).

Definition assetIDInput (chainID : Z) (contract : address) (kind : Z) (manifestHash : hash) : bytes :=
  str "TKM_ASSET_ID_V1" ++ be_bytes 32 chainID ++ address_bytes contract ++ [kind] ++ hash_bytes manifestHash.

Definition AssetID (chainID : option Z) (contract : address) (kind : Z) (manifestHash : hash) : result error hash :=
  if negb (validChainID chainID) || bool_decide (contract = zeroAddress) || negb (Kind_Valid kind)
  then Err ErrAssetIDInputs
  else Ok (keccak256 (assetIDInput (default 0 chainID) contract kind manifestHash)).

Definition PrecompileInput (chainID : option Z) (contract : address) (kind : Z) (manifestHash : hash) : result error bytes :=
  if negb (validChainID chainID) || bool_decide (contract = zeroAddress) || negb (Kind_Valid kind)
  then Err ErrAssetIDInputs
  else Ok (be_bytes 32 (default 0 chainID) ++ address_bytes contract ++ [kind] ++ hash_bytes manifestHash).

Definition AssetIDFromPrecompileInput (input : bytes) : result error hash :=
  if negb (length input =? precompileInputLength)%nat then Err ErrPrecompileInput
  else
    let chainID := be_value (take 32 input) in
    let contract := BytesToAddress (take 20 (drop 32 input)) in
    let kind := nth 52 input 0 in
    let manifestHash := BytesToHash (drop 53 input) in
    AssetID (Some chainID) contract kind manifestHash.
End Identifiers.

(** ** Encoding and decoding *)

(** The Go types of the fields. *)
Definition well_typed (m : Manifest) : Prop :=
  is_byte m.(Decimals) ∧ 0 <= m.(Flags) < 2 ^ 32 ∧ is_hash m.(PolicyHash) ∧
  bytes_ok m.(Name) ∧ bytes_ok m.(Symbol) ∧ bytes_ok m.(MetadataURI).

Lemma length_encodeText f : length (encodeText f) = (2 + length f)%nat.
Proof. unfold encodeText. by rewrite length_app, length_be_bytes. Qed.

Lemma decode_encodeText f rest :
  Z.of_nat (length f) < 65536 → decodeText (encodeText f ++ rest) = Ok (f, rest).
Proof.
  intros Hf. unfold decodeText. rewrite length_app, length_encodeText. rewrite (proj2 (Nat.ltb_ge _ _)) by lia.
  unfold encodeText. rewrite <- app_assoc. rewrite take_app_length', drop_app_length' by by rewrite length_be_bytes.
  rewrite be_value_bytes, Nat2Z.id by (change (256 ^ Z.of_nat 2) with 65536; lia).
  rewrite length_app, (proj2 (Nat.ltb_ge _ _)) by lia. by rewrite take_app_length, drop_app_length.
Qed.

Lemma decodeText_ok rest f rest' :
  bytes_ok rest → decodeText rest = Ok (f, rest') →
  rest = encodeText f ++ rest' ∧ bytes_ok f ∧ bytes_ok rest'.
Proof.
  intros Hok. unfold decodeText. destruct (Nat.ltb_spec (length rest) 2); [done|]. cbn zeta.
  destruct (Nat.ltb_spec (length (drop 2 rest)) (Z.to_nat (be_value (take 2 rest)))) as [|Hlen]; [done|].
  intros [= <- <-]. rewrite <- (take_drop 2 rest) in Hok at 1. apply Forall_app in Hok as [H2 Hd].
  pose proof (be_value_bound _ H2) as Hv.
  set (n := Z.to_nat (be_value (take 2 rest))) in *.
  rewrite <- (take_drop n (drop 2 rest)) in Hd. apply Forall_app in Hd as [Ht Hr].
  split; [|done]. unfold encodeText. rewrite <- app_assoc, take_drop.
  assert (Hn : Z.of_nat (length (take n (drop 2 rest))) = be_value (take 2 rest)) by (rewrite length_take; lia).
  rewrite Hn. assert (Hl2 : length (take 2 rest) = 2%nat) by (rewrite length_take; lia).
  rewrite <- Hl2 at 1. rewrite be_bytes_value by done. by rewrite take_drop.
Qed.

(** Decoding a header followed by [rest]. *)
Lemma UnmarshalBinary_header kind c32 d f4 p32 rest :
  length c32 = 32%nat → length f4 = 4%nat → length p32 = 32%nat → (6 <= length rest)%nat →
  UnmarshalBinary (Magic ++ [Version] ++ [kind] ++ c32 ++ [d] ++ f4 ++ p32 ++ rest) =
    ('(name, rest) ← decodeText rest;
     '(symbol, rest) ← decodeText rest;
     '(metadata, rest) ← decodeText rest;
     if negb (length rest =? 0)%nat then Err ErrTrailingBytes
     else
       let m := {| Kind := kind; ChainID := Some (be_value c32); Decimals := d; Flags := be_value f4;
                   PolicyHash := be_value p32; Name := name; Symbol := symbol; MetadataURI := metadata |} in
       _ ← Validate m; Ok m).
Proof.
  intros Hc Hf Hp Hr. unfold UnmarshalBinary.
  rewrite !length_app, Hc, Hf, Hp. cbn [length]. rewrite (proj2 (Nat.ltb_ge _ _)) by (cbn; lia).
  rewrite take_app_length. rewrite bool_decide_true by done.
  rewrite app_nth2 by lia. rewrite Nat.sub_diag.
  change (nth 0 ([Version] ++ ?l) 0) with Version. rewrite Z.eqb_refl. cbn [negb orb].
  rewrite app_assoc. rewrite drop_app_length' by (by rewrite length_app).
  change (nth 0 ([kind] ++ ?l) 0) with kind. change (drop 1 ([kind] ++ ?l)) with l.
  rewrite take_app_length', drop_app_length' by done.
  change (nth 0 ([d] ++ ?l) 0) with d. change (drop 1 ([d] ++ ?l)) with l.
  rewrite take_app_length', drop_app_length' by done.
  by rewrite take_app_length', drop_app_length' by done.
Qed.

Lemma manifest_marshal_ok m data :
  MarshalBinary m = Ok data →
  Validate m = Ok tt ∧ data = Magic ++ [Version] ++ manifestPayload m ∧
  Z.of_nat (length m.(Name)) < 65536 ∧ Z.of_nat (length m.(Symbol)) < 65536 ∧ Z.of_nat (length m.(MetadataURI)) < 65536.
Proof.
  unfold MarshalBinary. intros ([]&Hv&H)%bind_ok. apply bind_ok in H as (?&Hl%fail_if_ok&H).
  injection H as <-. bool_to_prop. split_and!; [done|done|lia..].
Qed.

Lemma Validate_chain m : Validate m = Ok tt → ∃ c, m.(ChainID) = Some c ∧ 0 <= c < two256.
Proof.
  unfold Validate. intros (?&H%fail_if_ok&_)%bind_ok. bool_to_prop.
  destruct m.(ChainID) as [c|]; [|done]. exists c. cbn in *. bool_to_prop. split; [done|lia].
Qed.

Lemma Validate_kind m : Validate m = Ok tt → 1 <= m.(Kind) <= 3.
Proof.
  unfold Validate. intros (?&H%fail_if_ok&_)%bind_ok. apply orb_false_iff in H as [H _].
  apply negb_false_iff in H. unfold Kind_Valid, KindFungible, KindMulti in H. bool_to_prop. lia.
Qed.

Lemma unmarshal_payload m :
  well_typed m → Validate m = Ok tt →
  Z.of_nat (length m.(Name)) < 65536 → Z.of_nat (length m.(Symbol)) < 65536 → Z.of_nat (length m.(MetadataURI)) < 65536 →
  UnmarshalBinary (Magic ++ [Version] ++ manifestPayload m) = Ok m.
Proof.
  intros (Hd&Hf&Hp&_) Hv HN HS HM. destruct (Validate_chain m Hv) as (c&Hc&Hcr).
  unfold manifestPayload. rewrite UnmarshalBinary_header; rewrite ?length_be_bytes; try done.
  2:{ rewrite !length_app, !length_encodeText. lia. }
  rewrite decode_encodeText by done. cbn [mbind result_bind].
  rewrite decode_encodeText by done. cbn [mbind result_bind].
  rewrite <- (app_nil_r (encodeText m.(MetadataURI))), decode_encodeText by done. cbn [mbind result_bind negb length Nat.eqb].
  rewrite Hc. cbn [default from_option]. unfold hash_bytes, id.
  rewrite !be_value_bytes by done.
  replace {| Kind := _ |} with m; [by rewrite Hv|]. destruct m; cbn in *. by subst.
Qed.

Lemma split_at {A} n (l : list A) : (n <= length l)%nat → ∃ a b, l = a ++ b ∧ length a = n.
Proof. intros H. exists (take n l), (drop n l). rewrite take_drop, length_take. split; [done|lia]. Qed.

Lemma split_one {A} (l : list A) : (1 <= length l)%nat → ∃ x b, l = [x] ++ b.
Proof. destruct l as [|x b]; cbn; [lia|]. by exists x, b. Qed.

Lemma unmarshal_header_split data m :
  UnmarshalBinary data = Ok m →
  ∃ kind c32 d f4 p32 rest,
    data = Magic ++ [Version] ++ [kind] ++ c32 ++ [d] ++ f4 ++ p32 ++ rest ∧
    length c32 = 32%nat ∧ length f4 = 4%nat ∧ length p32 = 32%nat ∧ (6 <= length rest)%nat.
Proof.
  unfold UnmarshalBinary. destruct (_ || _) eqn:E; [done|]. intros _.
  apply orb_false_iff in E as [E Hver]. apply orb_false_iff in E as [Hlen Hmag].
  apply Nat.ltb_ge in Hlen. change (length Magic) with 8%nat in *. bool_to_prop.
  destruct (split_at 8 data) as (a&b&->&Ha); [lia|]. rewrite take_app_length' in Hmag by done. subst a.
  rewrite app_nth2 in Hver by lia. rewrite Ha, Nat.sub_diag in Hver. rewrite length_app, Ha in Hlen.
  destruct (split_one b) as (v&b1&->); [lia|]. cbn in Hver. subst v. rewrite length_app in Hlen. cbn [length] in Hlen.
  destruct (split_one b1) as (kind&b2&->); [lia|]. rewrite length_app in Hlen. cbn [length] in Hlen.
  destruct (split_at 32 b2) as (c32&b3&->&?); [lia|]. rewrite length_app in Hlen.
  destruct (split_one b3) as (d&b4&->); [lia|]. rewrite length_app in Hlen. cbn [length] in Hlen.
  destruct (split_at 4 b4) as (f4&b5&->&?); [lia|]. rewrite length_app in Hlen.
  destruct (split_at 32 b5) as (p32&b6&->&?); [lia|]. rewrite length_app in Hlen.
  exists kind, c32, d, f4, p32, b6. split_and!; try done. lia.
Qed.

Lemma be_value_bound_n n l : bytes_ok l → length l = n → 0 <= be_value l < 256 ^ Z.of_nat n.
Proof. intros H <-. by apply be_value_bound. Qed.

Lemma be_bytes_value_n n l : bytes_ok l → length l = n → be_bytes n (be_value l) = l.
Proof. intros H <-. by apply be_bytes_value. Qed.

Lemma validText_max v lo hi : validText v lo hi = true → (length v <= hi)%nat.
Proof. unfold validText. intros H. bool_to_prop. by apply Nat.leb_le. Qed.

Lemma Validate_text m :
  Validate m = Ok tt →
  (length m.(Name) <= 96)%nat ∧ (length m.(Symbol) <= 32)%nat ∧ (length m.(MetadataURI) <= 512)%nat.
Proof.
  unfold Validate. intros (?&_&H)%bind_ok. do 3 (apply bind_ok in H as (?&_&H)). apply fail_if_ok in H.
  bool_to_prop. split_and!; by eapply validText_max.
Qed.

Lemma MarshalBinary_valid m : Validate m = Ok tt → MarshalBinary m = Ok (Magic ++ [Version] ++ manifestPayload m).
Proof.
  intros Hv. unfold MarshalBinary. rewrite Hv. destruct (Validate_text m Hv) as (?&?&?). cbn [mbind result_bind].
  rewrite !(proj2 (Z.ltb_ge _ _)) by lia. done.
Qed.

(** Every accepted encoding is the canonical one. *)
Lemma unmarshal_canonical data m :
  bytes_ok data → UnmarshalBinary data = Ok m → MarshalBinary m = Ok data ∧ well_typed m.
Proof.
  intros Hok Hu. destruct (unmarshal_header_split data m Hu) as (kind&c32&d&f4&p32&rest&->&Hc&Hf&Hp&Hr).
  rewrite !Forall_app in Hok. destruct Hok as (_&_&_&Oc&Od&Of&Op&Or).
  rewrite UnmarshalBinary_header in Hu by done.
  apply bind_ok in Hu as ([name r1]&E1&Hu). destruct (decodeText_ok _ _ _ Or E1) as (->&On&O1).
  apply bind_ok in Hu as ([symbol r2]&E2&Hu). destruct (decodeText_ok _ _ _ O1 E2) as (->&Os&O2).
  apply bind_ok in Hu as ([metadata r3]&E3&Hu). destruct (decodeText_ok _ _ _ O2 E3) as (->&Om&_).
  destruct r3; [|done]. cbn [length Nat.eqb negb] in Hu. cbn zeta in Hu.
  apply bind_ok in Hu as ([]&Hv&Hm). injection Hm as <-.
  split.
  - rewrite MarshalBinary_valid by done. f_equal. unfold manifestPayload, hash_bytes.
    cbn [Kind ChainID Decimals Flags PolicyHash Name Symbol MetadataURI default from_option]. unfold id.
    rewrite !be_bytes_value_n by done. by rewrite app_nil_r.
  - apply Forall_cons in Od as [Od _].
    split_and!; cbn; try done; [by apply (be_value_bound_n 4)|by apply (be_value_bound_n 4)|by apply (be_value_bound_n 32)..].
Qed.

(** The manifest encoding is a bijection between valid manifests and the byte
    strings [UnmarshalBinary] accepts: decoding inverts encoding, and no other
    byte string decodes to the same manifest. *)
Theorem manifest_roundtrip (m : Manifest) (data : bytes)
    (Hm : well_typed m) (Hdata : MarshalBinary m = Ok data) :
  UnmarshalBinary data = Ok m ∧
  ∀ data', bytes_ok data' → UnmarshalBinary data' = Ok m → data' = data.
Proof.
  destruct (manifest_marshal_ok m data Hdata) as (Hv&->&?&?&?). split; [by apply unmarshal_payload|].
  intros data' Hok Hu. destruct (unmarshal_canonical data' m Hok Hu) as [Hc _]. congruence.
Qed.

(** ** The trailer *)

Lemma length_manifestPayload m :
  length (manifestPayload m) = (76 + length m.(Name) + length m.(Symbol) + length m.(MetadataURI))%nat.
Proof.
  unfold manifestPayload, hash_bytes. rewrite !length_app, !length_encodeText, !length_be_bytes. cbn. lia.
Qed.

(** With no marker in the payload, the last marker of the code is the trailer's. *)
Lemma last_marker runtime x y kind p :
  0 <= x < 84 → 1 <= kind <= 3 → index_of (kind :: p) Magic = None →
  last_index_of (runtime ++ Magic ++ [Version; 0; 0; x; y] ++ kind :: p) Magic = Some (length runtime).
Proof.
  intros Hx Hk Hp. apply last_index_of_app. apply last_index_of_None in Hp.
  change Magic with [84; 75; 77; 65; 83; 83; 69; 84] in *. unfold Version. cbn [app] in *.
  cbn -[Z.eqb] in Hp |- *. rewrite Hp.
  replace (84 =? x) with false by (symmetry; apply Z.eqb_neq; lia).
  replace (75 =? kind) with false by (symmetry; apply Z.eqb_neq; lia).
  rewrite ?andb_false_r. cbn. done.
Qed.

Lemma be_bytes_4_small n : 0 <= n < 65536 → be_bytes 4 n = [0; 0; n / 256; n mod 256].
Proof.
  intros Hn. unfold be_bytes. cbn -[Z.div Z.modulo].
  assert (n / 256 < 256) by divlia. assert (0 <= n / 256) by divlia.
  rewrite (Z.mod_small (n / 256) 256) by lia. rewrite (Z.div_small (n / 256) 256) by lia. done.
Qed.

(** The manifest appended to a contract's runtime code is read back from it,
    whatever the code is, as long as the manifest itself does not contain the
    marker. *)
Theorem trailer_roundtrip (runtime code : bytes) (m : Manifest)
    (Hm : well_typed m) (Hcode : AppendTrailer runtime m = Ok code)
    (Hfree : index_of (manifestPayload m) Magic = None) :
  ParseRuntimeCode code = Some (Ok m).
Proof.
  unfold AppendTrailer in Hcode. apply bind_ok in Hcode as (canonical&Hmar&Hcode).
  destruct (manifest_marshal_ok m canonical Hmar) as (Hv&->&HN&HS&HM).
  change (drop (length Magic + 1) (Magic ++ [Version] ++ manifestPayload m)) with (manifestPayload m) in Hcode.
  apply bind_ok in Hcode as (?&_&Hcode). apply Ok_inj in Hcode. subst code.
  pose proof (length_manifestPayload m) as Hlen. destruct (Validate_text m Hv) as (?&?&?).
  pose proof (Validate_kind m Hv) as Hk.
  assert (Hpay : ∃ p, manifestPayload m = m.(Kind) :: p) by (eexists; reflexivity). destruct Hpay as [p Hpay].
  set (n := Z.of_nat (length (manifestPayload m))) in *.
  assert (0 < n < 65536) by lia. assert (0 <= n / 256 < 84) by divlia.
  rewrite be_bytes_4_small by lia. unfold ParseRuntimeCode.
  change ([Version] ++ [0; 0; n / 256; n mod 256] ++ manifestPayload m)
    with ([Version; 0; 0; n / 256; n mod 256] ++ manifestPayload m).
  rewrite Hpay at 1. rewrite Hpay in Hfree. rewrite last_marker by done. f_equal.
  rewrite (app_assoc runtime), drop_app_length' by by rewrite length_app.
  rewrite length_app. cbn [length app nth drop]. rewrite (proj2 (Nat.ltb_ge _ _)) by lia.
  change (Version =? Version) with true. cbn [negb orb].
  assert (Hval : be_value (take 4 [0; 0; n / 256; n mod 256]) = n).
  { change (take 4 ?l) with l. rewrite <- be_bytes_4_small by lia. apply be_value_bytes.
    change (256 ^ Z.of_nat 4) with 4294967296. lia. }
  change (take 4 (0 :: 0 :: n / 256 :: n mod 256 :: manifestPayload m)) with (take 4 [0; 0; n / 256; n mod 256]).
  rewrite Hval. unfold n at 1 2. rewrite Nat2Z.id, Nat.eqb_refl, (proj2 (Nat.eqb_neq _ 0)) by lia. cbn [negb orb].
  by apply unmarshal_payload.
Qed.

Definition demoManifest (name : bytes) : Manifest :=
  {| Kind := KindMulti; ChainID := Some 8979; Decimals := 6; Flags := 3; PolicyHash := 77;
     Name := name; Symbol := str "GLD"; MetadataURI := [] |}.

Lemma demo_well_typed : well_typed (demoManifest (str "Gold")).
Proof. repeat split; try done; repeat constructor; done. Qed.

Lemma manifest_roundtrip_witness :
  UnmarshalBinary (Magic ++ [Version] ++ manifestPayload (demoManifest (str "Gold"))) = Ok (demoManifest (str "Gold")).
Proof. apply manifest_roundtrip; [apply demo_well_typed|by vm_compute]. Defined.

Lemma trailer_roundtrip_witness :
  ParseRuntimeCode ([0x60; 0x00] ++ Magic ++ [Version]
    ++ be_bytes 4 (Z.of_nat (length (manifestPayload (demoManifest (str "Gold"))))) ++ manifestPayload (demoManifest (str "Gold")))
  = Some (Ok (demoManifest (str "Gold"))).
Proof. apply (trailer_roundtrip [0x60; 0x00]); [apply demo_well_typed|by vm_compute|by vm_compute]. Defined.

(** A valid asset whose name contains the marker cannot be read back. *)
Lemma trailer_marker_in_name :
  ∃ code, AppendTrailer [] (demoManifest (str "TKMASSET gold")) = Ok code ∧
    ParseRuntimeCode code = Some (Err ErrTrailerHeader).
Proof. eexists. split; [by vm_compute|by vm_compute]. Qed.

(** The precompile input carries exactly the arguments of [AssetID]. *)
Lemma precompile_input_roundtrip keccak256 chainID contract kind h input :
  is_address contract → is_hash h →
  PrecompileInput chainID contract kind h = Ok input →
  AssetIDFromPrecompileInput keccak256 input = AssetID keccak256 chainID contract kind h.
Proof.
  intros Ha Hh. unfold PrecompileInput. destruct (_ || _) eqn:E; [done|]. intros <-%Ok_inj.
  apply orb_false_iff in E as [E Ekind]. apply orb_false_iff in E as [Echain Econtract]. apply negb_false_iff in Echain.
  destruct chainID as [c|]; [|done]. cbn in Echain. bool_to_prop. cbn [default from_option]. unfold id.
  unfold AssetIDFromPrecompileInput, address_bytes, hash_bytes.
  rewrite !length_app, !length_be_bytes. change (negb _) with false. cbv iota zeta.
  rewrite take_app_length', drop_app_length' by by rewrite length_be_bytes.
  rewrite take_app_length' by by rewrite length_be_bytes.
  rewrite be_value_bytes by (split; [lia|done]).
  rewrite BytesToAddress_20, (be_value_bytes 20 contract) by (done || apply length_be_bytes).
  rewrite app_nth2 by (rewrite length_be_bytes; lia). rewrite length_be_bytes. cbn [Nat.sub].
  rewrite app_nth2 by (rewrite length_be_bytes; lia). rewrite length_be_bytes.
  change (nth _ ([kind] ++ _) 0) with kind.
  rewrite !app_assoc. rewrite drop_app_length' by (rewrite !length_app, !length_be_bytes; done).
  by rewrite BytesToHash_32, be_value_bytes by (done || apply length_be_bytes).
Qed.

(** Asset identifiers of different deployments hash different inputs. *)
Lemma assetIDInput_injective c1 c2 a1 a2 k1 k2 h1 h2 :
  0 <= c1 < two256 → 0 <= c2 < two256 → is_address a1 → is_address a2 → is_hash h1 → is_hash h2 →
  assetIDInput c1 a1 k1 h1 = assetIDInput c2 a2 k2 h2 → c1 = c2 ∧ a1 = a2 ∧ k1 = k2 ∧ h1 = h2.
Proof.
  intros ?????? H. unfold assetIDInput, address_bytes, hash_bytes in H.
  apply app_inj_1 in H as [_ H]; [|done].
  apply app_inj_1 in H as [Hc H]; [|by rewrite !length_be_bytes].
  apply app_inj_1 in H as [Ha H]; [|by rewrite !length_be_bytes].
  apply app_inj_1 in H as [Hk H]; [|done]. injection Hk as ->.
  split_and!; [by apply (be_bytes_inj 32)|by apply (be_bytes_inj 20)|done|by apply (be_bytes_inj 32)].
Qed.
End Assets.
