(* ===== verification/AddressVotes.v ===== *)
(** * Address votes

    [core/address_vote.go]: stamped accounts vote to suspend an address; fifteen
    active votes suspend it, a voter may take its own vote back, and each act burns
    50 TKM.  Votes are counted per owner of a stamp, in slots of the shielded
    pool's account. *)

From S2P Require Import Prelude Bytes RLP RLPStream RLPTypes State ChainConfig Assets ValidatorRegistry ValidatorStore ShieldedCrypto ShieldedTree NoteTree Stamps StampRegistry.
Import RLP RLPStream RLPTypes ValidatorRegistry ValidatorStore ShieldedCrypto ShieldedTree NoteTree Stamps StampRegistry.

Module AddressVotes.

Definition AddressVoteMagic : bytes := str "TKMVOTE1".
Definition AddressVoteVersion : Z := 1.
Definition AddressVoteThreshold : Z := 15.
Definition AddressVoteMaxReason : nat := 160.
Definition AddressVoteBurnTKM : Z := 50.

Inductive voteError :=
| ErrAddressVoteAlreadyCast
| ErrAddressVoteNotFound
| ErrAddressVoteSuspended
| ErrAddressVoteInsufficientBalance
| ErrUnstampedAddress
| ErrVote (e : vError).

Definition AddressVoteBurnWei : Z := AddressVoteBurnTKM * Ether.

Record AddressVote := {
  av_Version : Z;
  av_Unvote : bool;
  av_Target : address;
  av_Reason : bytes;
}.

Record AddressVoteStatus := {
  as_Address : address;
  as_ActiveVotes : Z;
  as_Threshold : Z;
  as_Suspended : bool;
}.

Definition voteType : rtype := RStruct [(false, RUint 64); (false, RBool); (false, RByteArray 20); (true, RByteSlice)].

(** An empty string is the zero value of its type and left out. *)
Definition voteVal (v : AddressVote) : rval :=
  VList [VNum v.(av_Version); VBool v.(av_Unvote); VBytes (address_bytes v.(av_Target));
         match v.(av_Reason) with [] => VNil | r => VBytes r end].
Definition voteOf (v : rval) : option AddressVote :=
  match v with
  | VList [VNum version; VBool unvote; VBytes target; reason] =>
      Some {| av_Version := version; av_Unvote := unvote; av_Target := be_value target; av_Reason := default [] (sliceOf reason) |}
  | _ => None
  end.

(** An error of the code called, as an error of a vote. *)
Definition lift {A} (r : result vError A) : result voteError A := match r with Ok a => Ok a | Err e => Err (ErrVote e) end.

Section Votes.
Context {X : Externals}.

Definition HasAddressVotePrefix (data : bytes) : bool := has_prefix data AddressVoteMagic.

Definition EncodeAddressVote (vote : option AddressVote) : result vError bytes :=
  match vote with
  | None => Err ErrInvalidShieldedTx
  | Some v => encodeWith AddressVoteMagic voteType (voteVal v)
  end.

Definition DecodeAddressVote (data : bytes) : result vError AddressVote :=
  p ← payload AddressVoteMagic data; decodeInto voteType voteOf p.

Definition validateAddressVotePayload (vote : AddressVote) : result vError unit :=
  _ ← fail_if (negb (vote.(av_Version) =? AddressVoteVersion) || (vote.(av_Target) =? zeroAddress) || (vote.(av_Target) =? ShieldedPoolAddress))
        (ErrText "invalid address vote target or version");
  if vote.(av_Unvote) then fail_if (negb (bool_decide (vote.(av_Reason) = []))) (ErrText "unvote must not include a reason")
  else fail_if (bool_decide (vote.(av_Reason) = []) || (AddressVoteMaxReason <? length vote.(av_Reason))%nat || negb (Assets.utf8_valid vote.(av_Reason)))
         (ErrText "vote reason must be valid UTF-8 and between 1 and 160 bytes").

Definition ValidateAddressVoteBasics (config : ChainConfig.ChainConfig) (number time : Z) (tx : vtx) : result vError unit :=
  _ ← fail_if (bool_decide (ChainConfig.ChainID config = None) || negb (ChainConfig.IsAntartical config number time))
        (ErrText "address voting is not active until Antartical");
  _ ← fail_if (negb (enveloped config tx 0)) (ErrText "address vote requires a zero-value PQ transaction to the reserved pool");
  vote ← DecodeAddressVote tx.(vt_Data);
  validateAddressVotePayload vote.

(** ** State *)

Context {U : Uint256} {S : Type} {W : WorldState S}.

Definition ValidateAddressVoteBalance (st : S) (voter : address) : result voteError unit :=
  fail_if (GetBalance st voter <? AddressVoteBurnWei) ErrAddressVoteInsufficientBalance.

Definition addressVoteOwner (st : S) (voter : address) : result voteError bytes :=
  _ ← fail_if (negb (IsAntarticalStamped st voter)) ErrUnstampedAddress;
  owner ← lift (v3ReadDigest st (str "stamp/address-owner") (address_bytes voter));
  _ ← fail_if (bool_decide (owner = zeroDigest)) ErrUnstampedAddress;
  Ok (Digest_Bytes owner).

Definition addressVoteKey (target : address) (owner : bytes) : bytes := address_bytes target ++ owner.

(** The four slots of a vote and of its target. *)
Definition activeRole : bytes := str "governance/address-vote/active".
Definition reasonRole : bytes := str "governance/address-vote/reason".
Definition countRole : bytes := str "governance/address-vote/count".
Definition suspendedRole : bytes := str "governance/address-vote/suspended".

Definition IsAddressSuspended (st : S) (a : address) : bool := negb (getSlot st suspendedRole (address_bytes a) =? zeroHash).
Definition AddressVoteCount (st : S) (a : address) : Z := uint64FromHash (getSlot st countRole (address_bytes a)).

Definition GetAddressVoteStatus (st : S) (a : address) : AddressVoteStatus :=
  {| as_Address := a; as_ActiveVotes := AddressVoteCount st a; as_Threshold := AddressVoteThreshold; as_Suspended := IsAddressSuspended st a |}.

Definition ValidateAddressVoteState (st : S) (from : address) (data : bytes) : result voteError unit :=
  vote ← lift (DecodeAddressVote data);
  _ ← lift (validateAddressVotePayload vote);
  _ ← fail_if (vote.(av_Target) =? from) (ErrVote (ErrText "an address cannot vote on itself"));
  owner ← addressVoteOwner st from;
  let active := getSlot st activeRole (addressVoteKey vote.(av_Target) owner) in
  let count := AddressVoteCount st vote.(av_Target) in
  if vote.(av_Unvote) then fail_if (active =? zeroHash) ErrAddressVoteNotFound
  else
    _ ← fail_if (negb (active =? zeroHash)) ErrAddressVoteAlreadyCast;
    fail_if ((AddressVoteThreshold <=? count) || IsAddressSuspended st vote.(av_Target)) ErrAddressVoteSuspended.

Definition ProcessAddressVote (st : S) (from : address) (data : bytes) (txHash : hash) : option voteError * S :=
  match lift (DecodeAddressVote data) with
  | Err e => (Some e, st)
  | Ok vote =>
  match ValidateAddressVoteState st from data with
  | Err e => (Some e, st)
  | Ok _ =>
  match addressVoteOwner st from with
  | Err e => (Some e, st)
  | Ok owner =>
      let key := addressVoteKey vote.(av_Target) owner in
      let target := address_bytes vote.(av_Target) in
      let count := AddressVoteCount st vote.(av_Target) in
      if vote.(av_Unvote) then
        if count =? 0 then (Some (ErrVote (ErrText "address vote count underflow")), st)
        else
          match ValidateAddressVoteBalance st from with
          | Err e => (Some e, st)
          | Ok _ =>
              let st := SubBalance st from AddressVoteBurnWei in
              let st := setSlot st activeRole key zeroHash in
              let st := setSlot st reasonRole key zeroHash in
              let count := count -₆₄ 1 in
              let st := setSlot st countRole target (uint64Hash count) in
              (None, if count <? AddressVoteThreshold then setSlot st suspendedRole target zeroHash else st)
          end
      else if AddressVoteThreshold <=? count then (Some ErrAddressVoteSuspended, st)
      else
        match ValidateAddressVoteBalance st from with
        | Err e => (Some e, st)
        | Ok _ =>
            let st := SubBalance st from AddressVoteBurnWei in
            let st := setSlot st activeRole key txHash in
            let st := setSlot st reasonRole key (be_value (keccak vote.(av_Reason))) in
            let count := count +₆₄ 1 in
            let st := setSlot st countRole target (uint64Hash count) in
            (None, if AddressVoteThreshold <=? count then setSlot st suspendedRole target txHash else st)
        end
  end
  end
  end.

End Votes.
End AddressVotes.
