(* ===== verification/VoteRegistry.v ===== *)
(** * Votes are counted per owner

    The slots of [AddressVotes] hold, for every target, the set of stamp owners
    with an active vote: the count is the size of the set, and an address is
    suspended exactly while fifteen owners vote against it. *)

From S2P Require Import Prelude Bytes RLP RLPStream RLPTypes State ChainConfig ValidatorRegistry ValidatorStore ShieldedCrypto ShieldedTree NoteTree ShieldedDemo Stamps StampRegistry AddressVotes.
Import RLP RLPStream RLPTypes ValidatorRegistry ValidatorStore ShieldedCrypto ShieldedTree NoteTree Stamps StampRegistry AddressVotes.

Module VoteRegistry.

(** The owners that vote against each target. *)
Definition Votes := address → gset Digest.

Definition setVotes (V : Votes) (target : address) (owners : gset Digest) : Votes := λ a, if decide (a = target) then owners else V a.

(** What a vote or unvote of an owner makes of the votes. *)
Definition cast (V : Votes) (vote : AddressVote) (owner : Digest) : Votes :=
  setVotes V vote.(av_Target) (if vote.(av_Unvote) then V vote.(av_Target) ∖ {[owner]} else V vote.(av_Target) ∪ {[owner]}).

Definition voteRoles : list bytes := [activeRole; reasonRole; countRole; suspendedRole].

Section Registry.
Context {X : Externals} {N : Native} {U : Uint256} {S : Type} {W : WorldState S}.
Context (P : bytes → bytes → Prop) (Dg : Digest → Prop).
Context {HC : NoCollision P} {HD : Digests Dg} {HT : TreeUse P stampTree Dg} {HS : StampUse P}.

Class VoteUse := {
  vu_vote r a d : r ∈ [activeRole; reasonRole] → is_address a → Dg d → used P r (addressVoteKey a (Digest_Bytes d));
  vu_target r a : r ∈ [countRole; suspendedRole] → is_address a → used P r (address_bytes a);
}.
Context {HV : VoteUse}.

Definition activeSlot (st : S) (a : address) (d : Digest) : hash := getSlot st activeRole (addressVoteKey a (Digest_Bytes d)).
Definition countSlot (st : S) (a : address) : hash := getSlot st countRole (address_bytes a).
Definition suspendedSlot (st : S) (a : address) : hash := getSlot st suspendedRole (address_bytes a).

Record votes_hold (st : S) (V : Votes) : Prop := {
  vh_active a d : is_address a → Dg d → activeSlot st a d ≠ 0 ↔ d ∈ V a;
  vh_dg a d : d ∈ V a → Dg d;
  vh_count a : is_address a → countSlot st a = Z.of_nat (size (V a));
  vh_bound a : Z.of_nat (size (V a)) <= AddressVoteThreshold;
  vh_suspended a : is_address a → suspendedSlot st a ≠ 0 ↔ Z.of_nat (size (V a)) = AddressVoteThreshold;
}.

Lemma voteKey_inj a a' d d' : is_address a → is_address a' → Dg d → Dg d' →
  addressVoteKey a (Digest_Bytes d) = addressVoteKey a' (Digest_Bytes d') → a = a' ∧ d = d'.
Proof using HD.
  intros Ha Ha' Hd Hd' E. unfold addressVoteKey in E. apply app_inj_1 in E as [E1 E2]; [|unfold address_bytes; by rewrite !length_be_bytes].
  split; [by apply address_bytes_inj|]. apply Digest_Bytes_inj; [by apply (dg_ok Dg)..|done].
Qed.

Lemma count_holds st V a : votes_hold st V → is_address a → AddressVoteCount st a = Z.of_nat (size (V a)).
Proof.
  intros H Ha. unfold AddressVoteCount. fold (countSlot st a). rewrite (vh_count _ _ H a Ha). apply u64_small.
  pose proof (vh_bound _ _ H a). unfold is_u64, two64, AddressVoteThreshold in *. lia.
Qed.

Lemma suspended_holds st V a : votes_hold st V → is_address a → IsAddressSuspended st a = bool_decide (Z.of_nat (size (V a)) = AddressVoteThreshold).
Proof.
  intros H Ha. unfold IsAddressSuspended. fold (suspendedSlot st a). pose proof (vh_suspended _ _ H a Ha) as Hs.
  destruct (Z.eqb_spec (suspendedSlot st a) zeroHash) as [E|E]; cbn [negb]; symmetry.
  - apply bool_decide_false. intros Hn. by apply Hs in Hn.
  - apply bool_decide_true. by apply Hs.
Qed.

(** ** The writes of a vote *)

Definition writeVote (st : S) (key target : bytes) (active reason : hash) (count : Z) (suspended : option hash) : S :=
  let st := setSlot st activeRole key active in
  let st := setSlot st reasonRole key reason in
  let st := setSlot st countRole target (uint64Hash count) in
  match suspended with Some h => setSlot st suspendedRole target h | None => st end.

Definition written (a : address) (d : Digest) (r x : bytes) : Prop :=
  (r ∈ [activeRole; reasonRole] ∧ x = addressVoteKey a (Digest_Bytes d)) ∨ (r ∈ [countRole; suspendedRole] ∧ x = address_bytes a).

Lemma writeVote_spec st a d active reason count suspended : is_address a → Dg d → is_u64 count →
  let st' := writeVote st (addressVoteKey a (Digest_Bytes d)) (address_bytes a) active reason count suspended in
  frame P (written a d) st st' ∧ activeSlot st' a d = active ∧ countSlot st' a = count
  ∧ suspendedSlot st' a = default (suspendedSlot st a) suspended.
Proof using HC HV.
  intros Ha Hd Hc st'.
  assert (U1 : used P activeRole (addressVoteKey a (Digest_Bytes d))) by (apply vu_vote; [in_roles|done|done]).
  assert (U2 : used P reasonRole (addressVoteKey a (Digest_Bytes d))) by (apply vu_vote; [in_roles|done|done]).
  assert (U3 : used P countRole (address_bytes a)) by (apply vu_target; [in_roles|done]).
  assert (U4 : used P suspendedRole (address_bytes a)) by (apply vu_target; [in_roles|done]).
  assert (Hne : NoDup voteRoles) by (apply (bool_decide_unpack _); vm_compute; exact I).
  assert (D : activeRole ≠ reasonRole ∧ activeRole ≠ countRole ∧ activeRole ≠ suspendedRole ∧ countRole ≠ reasonRole ∧ countRole ≠ suspendedRole
    ∧ suspendedRole ≠ reasonRole) by (split_and!; by vm_compute).
  destruct D as (D1 & D2 & D3 & D4 & D5 & D6). subst st'. unfold writeVote. rewrite uint64Hash_id by done.
  set (st1 := setSlot st _ _ _). set (st2 := setSlot st1 _ _ _). set (st3 := setSlot st2 _ _ _).
  assert (F3 : frame P (written a d) st st3).
  { eapply frame_trans; [apply (frame_set P); [exact U1|left; split; [in_roles|done]]|]. eapply frame_trans; [apply (frame_set P); [exact U2|left; split; [in_roles|done]]|].
    apply (frame_set P); [exact U3|right; split; [in_roles|done]]. }
  assert (E3 : activeSlot st3 a d = active ∧ countSlot st3 a = count ∧ suspendedSlot st3 a = suspendedSlot st a).
  { unfold activeSlot, countSlot, suspendedSlot, st3, st2, st1. rewrite !(pool_slot_set P) by done.
    repeat (first [rewrite decide_True by done | rewrite decide_False by (intros [? _]; congruence)]). done. }
  destruct suspended as [h|]; [|by destruct E3 as (-> & -> & ->)]. destruct E3 as (E1 & E2 & E3). split_and!.
  - eapply frame_trans; [exact F3|]. apply (frame_set P); [exact U4|right; split; [in_roles|done]].
  - unfold activeSlot in *. rewrite (slot_set_ne P); [done|done|done|intros [? _]; congruence].
  - unfold countSlot in *. rewrite (slot_set_ne P); [done|done|done|intros [? _]; congruence].
  - apply slot_set_eq.
Qed.

Lemma written_ne a d a' d' : is_address a → is_address a' → Dg d → Dg d' →
  ((a', d') ≠ (a, d) → ¬ written a d activeRole (addressVoteKey a' (Digest_Bytes d')))
  ∧ (a' ≠ a → ¬ written a d countRole (address_bytes a') ∧ ¬ written a d suspendedRole (address_bytes a')).
Proof using HD.
  intros Ha Ha' Hd Hd'.
  assert (D : (activeRole ∉ [countRole; suspendedRole]) ∧ (countRole ∉ [activeRole; reasonRole]) ∧ (suspendedRole ∉ [activeRole; reasonRole]))
    by (split_and!; apply (bool_decide_unpack _); vm_compute; exact I).
  destruct D as (D1 & D2 & D3). split.
  - intros Hne [[_ E]|[E _]]; [|done]. apply Hne. apply voteKey_inj in E as [-> ->]; done.
  - intros Hne. split; intros [[E _]|[_ E]]; try done; apply Hne; by apply address_bytes_inj.
Qed.

(** The votes after the writes. *)
Lemma votes_cast st st0 V vote d h reason : votes_hold st V → (∀ r x, getSlot st0 r x = getSlot st r x) →
  let a := vote.(av_Target) in
  is_address a → Dg d → h ≠ 0 →
  (if vote.(av_Unvote) then d ∈ V a else (d ∉ V a) ∧ Z.of_nat (size (V a)) < AddressVoteThreshold) →
  let count := Z.of_nat (size (cast V vote d a)) in
  let st' := writeVote st0 (addressVoteKey a (Digest_Bytes d)) (address_bytes a) (if vote.(av_Unvote) then 0 else h) reason count
               (if vote.(av_Unvote) then Some 0 else if AddressVoteThreshold <=? count then Some h else None) in
  votes_hold st' (cast V vote d) ∧ frame P (written a d) st0 st'.
Proof using HC HD HS HT HV.
  intros H H0 a Ha Hd Hh Hg count. pose proof (vh_bound _ _ H a) as Hb.
  assert (Hsz : (size (cast V vote d a) = if vote.(av_Unvote) then size (V a) - 1 else size (V a) + 1)%nat).
  { unfold cast, setVotes. rewrite decide_True by done. unfold a in *. destruct vote.(av_Unvote).
    - rewrite size_difference by set_solver. by rewrite size_singleton.
    - destruct Hg as [Hg _]. rewrite size_union by set_solver. by rewrite size_singleton. }
  assert (Hcnt : 0 <= count <= AddressVoteThreshold).
  { unfold count. rewrite Hsz. destruct vote.(av_Unvote); [lia|]. destruct Hg as [_ Hg]. lia. }
  edestruct (writeVote_spec st0 a d (if vote.(av_Unvote) then 0 else h) reason count
    (if vote.(av_Unvote) then Some 0 else if AddressVoteThreshold <=? count then Some h else None) Ha Hd) as (F & E1 & E2 & E3);
    [unfold is_u64, two64; unfold AddressVoteThreshold in *; lia|].
  set (st' := writeVote _ _ _ _ _ _ _) in *. split; [|done].
  assert (Hoth : ∀ a', a' ≠ a → cast V vote d a' = V a') by (intros; unfold cast, setVotes; by rewrite decide_False).
  assert (Hset : cast V vote d a = if vote.(av_Unvote) then V a ∖ {[d]} else V a ∪ {[d]}) by (unfold cast, setVotes; by rewrite decide_True).
  assert (Hact : ∀ a' d', is_address a' → Dg d' → (a', d') ≠ (a, d) → activeSlot st' a' d' = activeSlot st a' d').
  { intros a' d' Ha' Hd' Hne. unfold activeSlot. rewrite (fr_slots _ _ _ _ F), H0; [done|apply vu_vote; [in_roles|done|done]|].
    by apply written_ne. }
  assert (Hsl : ∀ a', is_address a' → a' ≠ a → countSlot st' a' = countSlot st a' ∧ suspendedSlot st' a' = suspendedSlot st a').
  { intros a' Ha' Hne. unfold countSlot, suspendedSlot. destruct (written_ne a d a' d Ha Ha' Hd Hd) as [_ Hw]. destruct (Hw Hne) as [W1 W2].
    rewrite !(fr_slots _ _ _ _ F), !H0; [done| |done| |done]; (apply vu_target; [in_roles|done]). }
  split.
  - intros a' d' Ha' Hd'. destruct (decide ((a', d') = (a, d))) as [[= -> ->]|Hne].
    + rewrite E1, Hset. destruct vote.(av_Unvote); set_solver.
    + rewrite Hact by done. rewrite (vh_active _ _ H) by done. destruct (decide (a' = a)) as [->|Hna]; [|by rewrite Hoth].
      rewrite Hset. assert (d' ≠ d) by congruence. destruct vote.(av_Unvote); set_solver.
  - intros a' d' Hin. destruct (decide (a' = a)) as [->|Hna]; [|rewrite Hoth in Hin by done; by apply (vh_dg _ _ H a')].
    rewrite Hset in Hin. destruct vote.(av_Unvote); [apply (vh_dg _ _ H a); set_solver|].
    apply elem_of_union in Hin as [Hin|Hin]; [by apply (vh_dg _ _ H a)|]. apply elem_of_singleton in Hin as ->. done.
  - intros a' Ha'. destruct (decide (a' = a)) as [->|Hna]; [done|]. rewrite Hoth by done. destruct (Hsl a' Ha' Hna) as [-> _].
    by apply (vh_count _ _ H).
  - intros a'. destruct (decide (a' = a)) as [->|Hna]; [apply Hcnt|]. rewrite Hoth by done. apply H.
  - intros a' Ha'. destruct (decide (a' = a)) as [->|Hna].
    + rewrite E3. fold count. unfold count in *. rewrite Hsz in *. destruct vote.(av_Unvote); cbn [default from_option id].
      * unfold AddressVoteThreshold in *. split; [done|lia].
      * destruct (Z.leb_spec AddressVoteThreshold (Z.of_nat (size (V a) + 1))); cbn [default from_option id]; [split; [lia|done]|].
        assert (Hs0 : suspendedSlot st0 a = suspendedSlot st a) by apply H0. rewrite Hs0, (vh_suspended _ _ H) by done. lia.
    + rewrite Hoth by done. destruct (Hsl a' Ha' Hna) as [_ ->]. by apply (vh_suspended _ _ H).
Qed.

(** ** Votes *)

(** A decoded target is an address. *)
Lemma decoded_target data vote : bytes_ok data → DecodeAddressVote data = Ok vote → is_address vote.(av_Target).
Proof.
  intros Hb E. unfold DecodeAddressVote, payload in E. destruct (_ || _) eqn:Hp; [done|]. cbn [mbind result_bind] in E.
  apply orb_false_iff in Hp as [_ Hlen]. set (p := drop _ data) in E. assert (Hpb : bytes_ok p) by (by apply Forall_drop).
  unfold decodeInto in E. destruct (DecodeBytes pooled p voteType) as [v|] eqn:Ed; [|done].
  apply DecodeBytes_inv in Ed as (i & Hd & Hok & _); [|by vm_compute|done|].
  2: { unfold p. rewrite length_drop. unfold ShieldedV3MaxTxSize, two64 in *. lia. }
  destruct (voteOf v) as [vt|] eqn:Ev; [|done]. apply Ok_inj in E as ->. unfold voteOf in Ev.
  destruct v as [| | | |vs]; try done. destruct vs as [|[] [|[] [|[] [|r [|]]]]]; try done. injection Ev as <-. cbn [av_Target].
  cbn [denote] in Hd. destruct Hd as (vs & js & [= <-] & -> & Hf). inversion Hok as [|js' Hjs _]; subst.
  destruct Hf as [(v0 & vs0 & j0 & js0 & [= <- <-] & -> & _ & Hf)|[? _]]; [|done].
  destruct Hf as [(v1 & vs1 & j1 & js1 & [= <- <-] & -> & _ & Hf)|[? _]]; [|done].
  destruct Hf as [(v2 & vs2 & j2 & js2 & [= <- <-] & -> & Hd2 & _)|[? _]]; [|done].
  destruct Hd2 as (tgt & [= <-] & -> & Hl). apply Forall_cons in Hjs as [_ Hjs]. apply Forall_cons in Hjs as [_ Hjs]. apply Forall_cons in Hjs as [Hj _].
  inversion Hj as [b' Hb' _|]; subst. pose proof (be_value_bound _ Hb') as Hv. rewrite Hl in Hv. exact Hv.
Qed.

(** When a vote with these data is accepted, and who casts it. *)
Definition eligible (st : S) (L : list stamp) (V : Votes) (from : address) (data : bytes) (vote : AddressVote) (m : stamp) : Prop :=
  DecodeAddressVote data = Ok vote ∧ validateAddressVotePayload vote = Ok () ∧ vote.(av_Target) ≠ from
  ∧ m ∈ L ∧ m.(m_address) = from ∧ m.(m_owner) ≠ zeroDigest ∧ AddressVoteBurnWei <= GetBalance st from
  ∧ (if vote.(av_Unvote) then m.(m_owner) ∈ V vote.(av_Target)
     else (m.(m_owner) ∉ V vote.(av_Target)) ∧ Z.of_nat (size (V vote.(av_Target))) < AddressVoteThreshold).

Lemma owner_of st L from : stamps_hold Dg st L → is_address from →
  (∃ m, m ∈ L ∧ m.(m_address) = from
     ∧ addressVoteOwner st from = if bool_decide (m.(m_owner) = zeroDigest) then Err ErrUnstampedAddress else Ok (Digest_Bytes m.(m_owner)))
  ∨ (from ∉ addrs L) ∧ addressVoteOwner st from = Err ErrUnstampedAddress.
Proof.
  intros H Hf. unfold addressVoteOwner. destruct (IsAntarticalStamped st from) eqn:Hs.
  - left. apply (stamped_iff Dg st L from H Hf) in Hs as (m & E & Hm)%list_elem_of_fmap. exists m. split; [done|]. split; [done|].
    destruct (sh_some _ _ _ H m Hm) as (_ & _ & _ & Ho). unfold stampOwner in Ho. rewrite <- E in Ho. cbn [negb fail_if mbind result_bind].
    rewrite Ho. cbn [lift mbind result_bind]. by destruct (bool_decide _).
  - right. split; [|done]. intros Hin. apply (stamped_iff Dg st L from H Hf) in Hin. congruence.
Qed.

Lemma unique_stamp st L m m' : stamps_hold Dg st L → m ∈ L → m' ∈ L → m.(m_address) = m'.(m_address) → m = m'.
Proof.
  intros H Hm Hm' E. apply list_elem_of_lookup in Hm as [i Hi]. apply list_elem_of_lookup in Hm' as [j Hj].
  assert (i = j); [|congruence]. eapply (NoDup_lookup (addrs L)); [apply H| |]; unfold addrs; rewrite list_lookup_fmap; [by rewrite Hi|rewrite Hj].
  cbn. by rewrite E.
Qed.

Lemma m_owner_dg st L m : stamps_hold Dg st L → m ∈ L → Dg m.(m_owner).
Proof.
  intros H Hm. pose proof (th_dg _ _ _ _ (sh_tree _ _ _ H)) as Hd. unfold entries in Hd. rewrite Forall_fmap, Forall_forall in Hd. apply (Hd m Hm).
Qed.

Lemma slots_SubBalance st a v r x : getSlot (SubBalance st a v) r x = getSlot st r x.
Proof. apply GetState_Sub. Qed.

(** The state of an accepted vote. *)
Lemma accepted_state st V L vote m h reason : stamps_hold Dg st L → votes_hold st V → m ∈ L → is_address vote.(av_Target) → h ≠ 0 →
  AddressVoteBurnWei <= GetBalance st m.(m_address) →
  (if vote.(av_Unvote) then m.(m_owner) ∈ V vote.(av_Target)
   else (m.(m_owner) ∉ V vote.(av_Target)) ∧ Z.of_nat (size (V vote.(av_Target))) < AddressVoteThreshold) →
  let count := Z.of_nat (size (cast V vote m.(m_owner) vote.(av_Target))) in
  let st' := writeVote (SubBalance st m.(m_address) AddressVoteBurnWei) (addressVoteKey vote.(av_Target) (Digest_Bytes m.(m_owner)))
               (address_bytes vote.(av_Target)) (if vote.(av_Unvote) then 0 else h) reason count
               (if vote.(av_Unvote) then Some 0 else if AddressVoteThreshold <=? count then Some h else None) in
  votes_hold st' (cast V vote m.(m_owner)) ∧ stamps_hold Dg st' L
  ∧ ∀ b, GetBalance st' b = GetBalance st b - (if decide (b = m.(m_address)) then AddressVoteBurnWei else 0).
Proof using HC HD HS HT HV.
  intros HL HVo Hm Ha Hh Hbal Hg count.
  destruct (votes_cast st (SubBalance st (m_address m) AddressVoteBurnWei) V vote m.(m_owner) h reason HVo) as [Hv F];
    [intros; apply slots_SubBalance|done|by eapply m_owner_dg|done|done|].
  fold count in Hv, F. set (st' := writeVote _ _ _ _ _ _ _) in *. split_and!; [done| |].
  - eapply (stamps_same P Dg st); [|done]. intros r d Hu Hr. rewrite (fr_slots _ _ _ _ F), slots_SubBalance; [done|done|].
    assert (Hd : bool_decide (Forall (λ r, r ∉ voteRoles) (treeRoles stampTree ++ stampRoles)) = true) by (by vm_compute).
    apply bool_decide_eq_true in Hd. rewrite Forall_forall in Hd. specialize (Hd r Hr). unfold voteRoles in Hd.
    intros [[E _]|[E _]]; apply Hd; clear -E; set_solver.
  - intros b. rewrite (fr_balance _ _ _ _ F), GetBalance_Sub by done. pose proof (balance_range st (m_address m)) as Hr.
    destruct (decide (m_address m = b)) as [<-|Hne]; [rewrite decide_True by done|rewrite decide_False by congruence; lia].
    rewrite u256_sub_spec, Z.mod_small; [done|]. assert (0 < AddressVoteBurnWei) by done. lia.
Qed.

(** The guards of a vote, in terms of the registry. *)
Lemma validate_vote st V L from data vote m : stamps_hold Dg st L → votes_hold st V → is_address vote.(av_Target) →
  DecodeAddressVote data = Ok vote → m ∈ L → addressVoteOwner st from = Ok (Digest_Bytes m.(m_owner)) →
  ValidateAddressVoteState st from data = Ok () ↔
  validateAddressVotePayload vote = Ok () ∧ vote.(av_Target) ≠ from
  ∧ (if vote.(av_Unvote) then m.(m_owner) ∈ V vote.(av_Target)
     else (m.(m_owner) ∉ V vote.(av_Target)) ∧ Z.of_nat (size (V vote.(av_Target))) < AddressVoteThreshold).
Proof.
  intros HL HVo Ha He Hm Ho. unfold ValidateAddressVoteState. rewrite He, Ho. cbn [lift mbind result_bind].
  destruct (validateAddressVotePayload vote) as [[]|]; cbn [lift mbind result_bind]; [|naive_solver].
  destruct (Z.eqb_spec (av_Target vote) from) as [|Hne]; cbn [fail_if mbind result_bind]; [naive_solver|].
  fold (activeSlot st (av_Target vote) m.(m_owner)). pose proof (vh_active _ _ HVo (av_Target vote) m.(m_owner) Ha ltac:(by eapply m_owner_dg)) as Hact.
  rewrite (count_holds st V _ HVo Ha), (suspended_holds st V _ HVo Ha). pose proof (vh_bound _ _ HVo (av_Target vote)).
  destruct (vote.(av_Unvote)), (Z.eqb_spec (activeSlot st (av_Target vote) m.(m_owner)) zeroHash) as [E|E]; cbn [negb fail_if mbind result_bind].
  - split; [done|]. intros (_ & _ & Hin). by apply Hact in Hin.
  - split; [|done]. intros _. split_and!; try done. by apply Hact.
  - assert (Hni : m.(m_owner) ∉ V vote.(av_Target)) by (intros Hin; by apply Hact in Hin).
    destruct (Z.leb_spec AddressVoteThreshold (Z.of_nat (size (V (av_Target vote))))); cbn [orb fail_if]; [split; [done|]; intros (_ & _ & _ & ?); lia|].
    rewrite bool_decide_false by lia. cbn [fail_if]. split; [|done]. intros _. by split_and!.
  - split; [done|]. intros (_ & _ & Hni & _). by apply Hact in E.
Qed.

Lemma cast_size_vote V vote d : vote.(av_Unvote) = false → d ∉ V vote.(av_Target) →
  Z.of_nat (size (cast V vote d vote.(av_Target))) = Z.of_nat (size (V vote.(av_Target))) + 1.
Proof. intros E Hn. unfold cast, setVotes. rewrite decide_True, E by done. rewrite size_union, size_singleton by set_solver. lia. Qed.

Lemma cast_size_unvote V vote d : vote.(av_Unvote) = true → d ∈ V vote.(av_Target) →
  Z.of_nat (size (cast V vote d vote.(av_Target))) = Z.of_nat (size (V vote.(av_Target))) - 1.
Proof.
  intros E Hin. unfold cast, setVotes. rewrite decide_True, E by done. rewrite size_difference, size_singleton by set_solver.
  assert (size (V (av_Target vote)) ≠ 0%nat); [|lia]. apply size_non_empty_iff. set_solver.
Qed.

(** What [ProcessAddressVote] computes behind its guards. *)
Lemma process_accepted st V L from data vote m h : stamps_hold Dg st L → votes_hold st V → is_address vote.(av_Target) →
  DecodeAddressVote data = Ok vote → m ∈ L → addressVoteOwner st from = Ok (Digest_Bytes m.(m_owner)) →
  ValidateAddressVoteState st from data = Ok () →
  let count := Z.of_nat (size (cast V vote m.(m_owner) vote.(av_Target))) in
  ProcessAddressVote st from data h =
    if GetBalance st from <? AddressVoteBurnWei then (Some ErrAddressVoteInsufficientBalance, st)
    else (None, writeVote (SubBalance st from AddressVoteBurnWei) (addressVoteKey vote.(av_Target) (Digest_Bytes m.(m_owner)))
               (address_bytes vote.(av_Target)) (if vote.(av_Unvote) then 0 else h)
               (if vote.(av_Unvote) then 0 else be_value (keccak vote.(av_Reason))) count
               (if vote.(av_Unvote) then Some 0 else if AddressVoteThreshold <=? count then Some h else None)).
Proof.
  intros HL HVo Ha He Hm Ho Hval count. apply (validate_vote st V L from data vote m HL HVo Ha He Hm Ho) in Hval as Hg. destruct Hg as (_ & _ & Hg).
  pose proof (vh_bound _ _ HVo (av_Target vote)) as Hb. unfold ProcessAddressVote, ValidateAddressVoteBalance. rewrite He, Hval, Ho. cbn [lift].
  rewrite (count_holds st V _ HVo Ha). unfold AddressVoteThreshold in *. destruct vote.(av_Unvote) eqn:Eu.
  - pose proof (cast_size_unvote V vote m.(m_owner) Eu Hg) as Hc. fold count in Hc. assert (0 <= count) by (unfold count; lia).
    rewrite (proj2 (Z.eqb_neq _ _)) by lia. destruct (GetBalance st from <? AddressVoteBurnWei); cbn [fail_if]; [done|].
    rewrite u64_sub_no_wrap by (unfold is_u64, two64; lia). rewrite <- Hc, (proj2 (Z.ltb_lt _ _)) by lia. done.
  - destruct Hg as [Hni Hlt]. pose proof (cast_size_vote V vote m.(m_owner) Eu Hni) as Hc. fold count in Hc.
    rewrite (proj2 (Z.leb_gt _ _)) by lia. destruct (GetBalance st from <? AddressVoteBurnWei); cbn [fail_if]; [done|].
    rewrite u64_add_no_wrap by (unfold is_u64, two64; lia). rewrite <- Hc. unfold writeVote. by destruct (15 <=? count).
Qed.

Lemma process_refused st from data vote h e : DecodeAddressVote data = Ok vote → addressVoteOwner st from = Err e →
  ∃ e', ProcessAddressVote st from data h = (Some e', st).
Proof. intros He Ho. unfold ProcessAddressVote. rewrite He. cbn [lift]. destruct (ValidateAddressVoteState st from data); [rewrite Ho|]; by eexists. Qed.

(** C36: Address votes.  A vote or unvote is accepted exactly when it is well formed, its
    sender is stamped, is not its own target and can pay, and its owner has no
    active vote and fewer than fifteen others do (or, to take it back, has one).
    It then changes the vote of that owner on that target, burns exactly 50 TKM of
    the sender and leaves everything else; a refused vote changes nothing.  The
    count is at every time the number of owners with an active vote, and an
    address is suspended exactly while fifteen owners vote against it. *)
Theorem address_votes_counted st V L from data h : stamps_hold Dg st L → votes_hold st V → is_address from → bytes_ok data → h ≠ 0 →
  match ProcessAddressVote st from data h with
  | (None, st') => ∃ vote m, eligible st L V from data vote m ∧ votes_hold st' (cast V vote m.(m_owner)) ∧ stamps_hold Dg st' L
      ∧ ∀ b, GetBalance st' b = GetBalance st b - (if decide (b = from) then AddressVoteBurnWei else 0)
  | (Some _, st') => st' = st ∧ ¬ ∃ vote m, eligible st L V from data vote m
  end
  ∧ ∀ a, is_address a →
      AddressVoteCount st a = Z.of_nat (size (V a)) ∧ IsAddressSuspended st a = bool_decide (size (V a) = 15%nat) ∧ (size (V a) <= 15)%nat.
Proof using HC HD HS HT HV.
  intros HL HVo Hf Hb Hh. split.
  2: { intros a Ha. pose proof (vh_bound _ _ HVo a) as Hs. unfold AddressVoteThreshold in Hs. rewrite (count_holds st V a HVo Ha), (suspended_holds st V a HVo Ha).
       split_and!; [done| |lia]. apply bool_decide_ext. unfold AddressVoteThreshold. lia. }
  assert (Herr : ∀ e, ProcessAddressVote st from data h = (Some e, st) → (¬ ∃ vote m, eligible st L V from data vote m) →
    match ProcessAddressVote st from data h with
    | (None, st') => ∃ vote m, eligible st L V from data vote m ∧ votes_hold st' (cast V vote m.(m_owner)) ∧ stamps_hold Dg st' L
        ∧ ∀ b, GetBalance st' b = GetBalance st b - (if decide (b = from) then AddressVoteBurnWei else 0)
    | (Some _, st') => st' = st ∧ ¬ ∃ vote m, eligible st L V from data vote m
    end) by (intros e -> ?; done).
  destruct (DecodeAddressVote data) as [vote|e] eqn:He.
  2: { eapply Herr; [unfold ProcessAddressVote; by rewrite He|]. intros (v & m & E & _). congruence. }
  pose proof (decoded_target data vote Hb He) as Ha.
  destruct (owner_of st L from HL Hf) as [(m & Hm & Em & Ho)|[Hn Ho]].
  2: { destruct (process_refused st from data vote h _ He Ho) as [e Ee]. apply (Herr e Ee). intros (v & m & _ & _ & _ & Hm & Em & _); apply Hn; rewrite <- Em; apply list_elem_of_fmap; by exists m. }
  assert (Heq : ∀ v m', eligible st L V from data v m' → v = vote ∧ m' = m).
  { intros v m' (E & _ & _ & Hm' & Em' & _). split; [congruence|]. eapply unique_stamp; try done. congruence. }
  destruct (bool_decide (m_owner m = zeroDigest)) eqn:Hz.
  { apply bool_decide_eq_true in Hz. destruct (process_refused st from data vote h _ He Ho) as [e Ee]. apply (Herr e Ee). intros (v & m' & Hel); destruct (Heq v m' Hel) as [-> ->]; by destruct Hel as (_ & _ & _ & _ & _ & Hnz & _). }
  apply bool_decide_eq_false in Hz. pose proof (validate_vote st V L from data vote m HL HVo Ha He Hm Ho) as Hval.
  destruct (ValidateAddressVoteState st from data) as [[]|e] eqn:Hv.
  2: { eapply Herr; [unfold ProcessAddressVote; rewrite He; cbn [lift]; by rewrite Hv|].
       intros (v & m' & Hel). destruct (Heq v m' Hel) as [-> ->]. destruct Hel as (_ & H1 & H2 & _ & _ & _ & _ & H3). assert (Hok : Err e = Ok ()) by (apply Hval; done). done. }
  destruct (proj1 Hval eq_refl) as (Hp & Hne & Hg). pose proof (process_accepted st V L from data vote m h HL HVo Ha He Hm Ho Hv) as Hpr.
  destruct (Z.ltb_spec (GetBalance st from) AddressVoteBurnWei) as [Hlow|Hbal].
  { eapply Herr; [done|]. intros (v & m' & Hel). destruct (Heq v m' Hel) as [-> ->]. destruct Hel as (_ & _ & _ & _ & _ & _ & H & _). lia. }
  rewrite Hpr. exists vote, m. subst from. split; [by repeat split|]. by apply accepted_state.
Qed.

End Registry.
End VoteRegistry.
