(* ===== verification/VoteDemo.v ===== *)
(** * A stamp and a vote

    The theorems of [StampRegistry] and [VoteRegistry] applied to one account that
    registers its stamp and then votes against an address. *)

From S2P Require Import Prelude Bytes RLP RLPStream RLPTypes State ChainConfig ValidatorRegistry ValidatorStore ShieldedCrypto Merkle ShieldedTree NoteTree ShieldedDemo Stamps StampRegistry AddressVotes VoteRegistry.
Import RLP RLPStream RLPTypes ValidatorRegistry ValidatorStore ShieldedCrypto ShieldedTree NoteTree ShieldedDemo Stamps StampRegistry AddressVotes VoteRegistry.

Module VoteDemo.

#[local] Existing Instance RefUint256.
#[local] Existing Instance FlatWorldState.

(** ** Slots *)

Lemma le_value_address a : le_value (address_bytes a) < 2 ^ 160.
Proof.
  pose proof (be_value_bound (reverse (address_bytes a)) ltac:(apply Forall_reverse, be_bytes_ok)) as [_ H].
  unfold address_bytes in *. rewrite length_reverse, length_be_bytes in H. exact H.
Qed.

#[global] Instance demo_stamp_use : StampUse demoP.
Proof.
  intros r a Hr Ha. assert (Hd : bool_decide (Forall (λ r, r ∈ shieldedRoles ∧ roleLength r = 20%nat) stampRoles) = true) by (by vm_compute).
  apply bool_decide_eq_true in Hd. rewrite Forall_forall in Hd. destruct (Hd r Hr) as [H1 H2]. split; [done|]. split_and!.
  - apply be_bytes_ok.
  - rewrite H2. unfold address_bytes. by rewrite length_be_bytes.
  - pose proof (le_value_address a). assert (2 ^ 160 < 2 ^ 240) by done. lia.
Qed.

#[global] Instance demo_vote_use : VoteUse demoP demoDg.
Proof.
  split.
  - intros r a d Hr Ha Hd. assert (Hs : bool_decide (Forall (λ r, r ∈ shieldedRoles ∧ roleLength r = 60%nat) [activeRole; reasonRole]) = true) by (by vm_compute).
    apply bool_decide_eq_true in Hs. rewrite Forall_forall in Hs. destruct (Hs r Hr) as [H1 H2]. split; [done|]. unfold addressVoteKey. split_and!.
    + apply Forall_app. split; [apply be_bytes_ok|apply Digest_Bytes_ok].
    + rewrite length_app, length_digest, H2 by done. unfold address_bytes. by rewrite length_be_bytes.
    + rewrite le_value_app. pose proof (le_value_address a). pose proof (le_value_digest d Hd).
      assert (El : length (address_bytes a) = 20%nat) by apply length_be_bytes. rewrite El. change (256 ^ Z.of_nat 20) with (2 ^ 160).
      assert (2 ^ 160 + 2 ^ 160 * 256 < 2 ^ 240) by done. nia.
  - intros r a Hr Ha. assert (Hs : bool_decide (Forall (λ r, r ∈ shieldedRoles ∧ roleLength r = 20%nat) [countRole; suspendedRole]) = true) by (by vm_compute).
    apply bool_decide_eq_true in Hs. rewrite Forall_forall in Hs. destruct (Hs r Hr) as [H1 H2]. split; [done|]. split_and!.
    + apply be_bytes_ok.
    + rewrite H2. unfold address_bytes. by rewrite length_be_bytes.
    + pose proof (le_value_address a). assert (2 ^ 160 < 2 ^ 240) by done. lia.
Qed.

(** ** A registration *)

Definition demoConfig : ChainConfig.ChainConfig := ChainConfig.demoMainnet [3].
Definition demoTime : Z := 1790812800.
Definition demoKey : bytes := [5].
Definition demoFrom : address := Eval vm_compute in demoHash (AlgorithmMLDSA87 ++ demoKey).
Definition demoBytes (r : result vError bytes) : bytes := match r with Ok b => b | Err _ => [] end.

Definition demoTx (data : bytes) : stx := {|
  sx_tx := {| vt_Type := PQTkmTxType; vt_To := Some ShieldedPoolAddress; vt_Value := 0; vt_ChainId := 8979; vt_Data := data;
              vt_PQ := Some (AlgorithmMLDSA87, demoKey); vt_Hash := 99 |};
  sx_Nonce := 0; sx_GasTipCap := 1; sx_GasFeeCap := 1; sx_Gas := 100000; sx_AccessList := [] |}.

Definition demoStamp : AntarticalStampRegistration := {|
  sg_Version := 1; sg_Owner := demoDigest 7;
  sg_Stamp := {| sr_ChainID := 8979; sr_Commitment := replicate 64 1;
                sr_Ciphertext := headerOf demoContext ++ replicate (ShieldedV3CiphertextSize - shieldedV3HeaderSize) 0; sr_Signature := [1] |};
  sg_Proof := [1; 0; 0; 0] ++ replicate 8 0; sg_BeneficiaryPublicKey := None; sg_ValidUntil := 0; sg_Authorization := None |}.
Definition demoStampTx : stx := demoTx (demoBytes (EncodeAntarticalStamp (Some demoStamp))).

Definition demoStart : flatState := AddBalance emptyFlat demoFrom (200 * Ether).
Definition demoStamped : flatState := (ProcessAntarticalStamp demoConfig 10 demoTime demoStart demoStampTx).2.

Example demo_decoded : DecodeAntarticalStamp demoStampTx.(sx_tx).(vt_Data) = Ok demoStamp.
Proof. vm_compute. reflexivity. Qed.

Example demo_accepted : (ProcessAntarticalStamp demoConfig 10 demoTime demoStart demoStampTx).1 = None.
Proof. vm_compute. reflexivity. Qed.

Lemma demo_hash_range b : 0 <= demoHash b < 2 ^ 160.
Proof. unfold demoHash. pose proof (Z.mod_pos_bound (foldl (λ h c, h * 3 + c) 1 b) 256 ltac:(lia)). assert (257 < 2 ^ 160) by done. lia. Qed.

Lemma demo_stamp_tx : tx_ok demoDg demoConfig 10 demoTime demoStampTx.
Proof.
  split.
  - done.
  - intros e He. rewrite demo_decoded in He. apply Ok_inj in He as <-. split; [apply demoDg_intro|]. intros d Hd.
    assert (Hx : match StampLeaf 8979 (demoDigest 7) with Ok d => d = demoDigest (default 0 (head d)) | Err _ => True end) by (by vm_compute).
    cbn [sg_Stamp sr_ChainID sg_Owner demoStamp] in Hd. rewrite Hd in Hx. rewrite Hx. apply demoDg_intro.
  - intros from Hs. cbn in Hs. injection Hs as <-. apply demo_hash_range.
  - intros k a Ha. unfold pqAddress in Ha. destruct (negb _); [done|]. destruct (negb _); [done|]. injection Ha as <-.
    unfold is_address. assert (Hb : bytes_ok (take 20 (drop 12 (be_bytes 32 (demoHash (str "tkmchain:pq-address:v1:" ++ AlgorithmMLDSA87 ++ k)))))) by apply Forall_take, Forall_drop, be_bytes_ok.
    pose proof (be_value_bound _ Hb) as Hv. rewrite length_take, length_drop, length_be_bytes in Hv. exact Hv.
Qed.

Lemma demo_holds_start : stamps_hold demoDg demoStart [].
Proof.
  split.
  - apply holds_nil. intros k _. done.
  - intros m Hm. by apply not_elem_of_nil in Hm.
  - intros a _ _. done.
  - constructor.
  - constructor.
Qed.

Lemma demo_sender m : authorised demoConfig 10 demoTime [] demoStampTx m → m.(m_address) = demoFrom.
Proof.
  intros (from & e & i & Hs & _ & _ & _ & _ & _ & Hb). injection Hs as <-.
  destruct Hb as [[_ ->]|(Hin & _)]; [done|]. by apply not_elem_of_nil in Hin.
Qed.

Lemma stamp_registration_witness : ∃ m, stamps_hold demoDg demoStamped [m] ∧ pool_same demoP demoStart demoStamped ∧ m.(m_address) = demoFrom.
Proof.
  pose proof (stamp_registration demoP demoDg demoConfig 10 demoTime demoStart [] demoStampTx demo_holds_start demo_stamp_tx) as [H _].
  unfold demoStamped. pose proof demo_accepted as Ha. destruct (ProcessAntarticalStamp _ _ _ _ _) as [[e|] st']; [done|].
  destruct H as [[_ (m & Hm & _)]|(m & _ & _ & Hau & Hh & _ & Hp)]; [by apply not_elem_of_nil in Hm|].
  exists m. split; [exact Hh|]. split; [exact Hp|]. by apply demo_sender.
Defined.

(** The registry after the registration. *)
Lemma demo_stamped : ∃ m, stamps_hold demoDg demoStamped [m] ∧ pool_same demoP demoStart demoStamped.
Proof.
  pose proof (process_step demoP demoDg demoConfig 10 demoTime demoStart [] demoStampTx demo_holds_start demo_stamp_tx) as H.
  unfold demoStamped. pose proof demo_accepted as Ha. destruct (ProcessAntarticalStamp _ _ _ _ _) as [[e|] st']; [done|].
  destruct H as [[_ (m & Hm & _)]|(m & _ & _ & _ & Hh & _ & Hp)]; [by apply not_elem_of_nil in Hm|]. by exists m.
Qed.

(** ** A vote *)

Definition demoVote : AddressVote := {| av_Version := 1; av_Unvote := false; av_Target := 0x1234; av_Reason := str "fraud" |}.
Definition demoVoteData : bytes := Eval vm_compute in demoBytes (EncodeAddressVote (Some demoVote)).

Example demo_vote_decoded : DecodeAddressVote demoVoteData = Ok demoVote.
Proof. vm_compute. reflexivity. Qed.

Example demo_vote_accepted : (ProcessAddressVote demoStamped demoFrom demoVoteData 77).1 = None.
Proof. vm_compute. reflexivity. Qed.

Lemma demo_no_votes st : (∀ r d, r ∈ voteRoles → used demoP r d → getSlot st r d = 0) → votes_hold demoDg st (λ _, ∅).
Proof.
  intros H. split.
  - intros a d Ha Hd. unfold activeSlot. rewrite H; [set_solver|in_roles|apply (vu_vote demoP demoDg); [in_roles|done|done]].
  - set_solver.
  - intros a Ha. unfold countSlot. rewrite H; [done|in_roles|apply (vu_target demoP demoDg); [in_roles|done]].
  - intros a. by rewrite size_empty.
  - intros a Ha. unfold suspendedSlot. rewrite H; [done|in_roles|apply (vu_target demoP demoDg); [in_roles|done]].
Qed.

(** A stamped account votes; it is the first vote against the address. *)
Lemma address_votes_counted_witness :
  ∃ L m, stamps_hold demoDg demoStamped L
    ∧ votes_hold demoDg (ProcessAddressVote demoStamped demoFrom demoVoteData 77).2 (cast (λ _, ∅) demoVote m.(m_owner)).
Proof.
  destruct demo_stamped as (m & HL & Hp).
  assert (HV : votes_hold demoDg demoStamped (λ _, ∅)).
  { apply demo_no_votes. intros r d Hr Hu. rewrite Hp; [done|done|].
    assert (Hd : bool_decide (Forall (λ r, r ∉ treeRoles stampTree ++ stampRoles) voteRoles) = true) by (by vm_compute).
    apply bool_decide_eq_true in Hd. rewrite Forall_forall in Hd. by apply Hd. }
  assert (Hb : bytes_ok demoVoteData) by (apply (bool_decide_unpack _); vm_compute; exact I).
  pose proof (address_votes_counted demoP demoDg demoStamped (λ _, ∅) [m] demoFrom demoVoteData 77 HL HV
    ltac:(by vm_compute) Hb ltac:(done)) as [H _].
  pose proof demo_vote_accepted as Ha. destruct (ProcessAddressVote demoStamped demoFrom demoVoteData 77) as [[e|] st']; [done|].
  destruct H as (vote & m' & (Hdec & _) & Hv & HL' & _). rewrite demo_vote_decoded in Hdec. apply Ok_inj in Hdec as <-.
  exists [m], m'. split; [exact HL|exact Hv].
Defined.

End VoteDemo.
