(* ===== verification/ShieldedEnvelopes.v ===== *)
(** * The wire formats of the shielded transactions

    The envelopes Shield3 to Shield6 carried in the data of a transaction to the
    shielded pool: [core/shielded_v3.go], [core/shielded_v4.go], [core/shielded_v5.go],
    [core/shielded_v6.go] and [core/shielded_v6_decode.go].  An envelope is a magic
    prefix and the RLP of a struct with optional trailing fields.

    The big integers of the structs are never nil once decoded, so they are numbers
    here; a slice that may be nil is an option. *)

From S2P Require Import Prelude Bytes RLP RLPStream RLPTypes State ValidatorRegistry ShieldedTree Stamps.
Import RLP RLPStream RLPTypes ValidatorRegistry ShieldedTree Stamps.

Module ShieldedEnvelopes.

(** ** Assets *)

Definition AssetTKM : Z := 1.
Definition AssetPTKM : Z := 2.
Definition NormalizeAssetID (assetID : Z) : Z := if assetID =? 0 then AssetTKM else assetID.
Definition IsSupportedAsset (assetID : Z) : bool :=
  let assetID := NormalizeAssetID assetID in (assetID =? AssetTKM) || (assetID =? AssetPTKM).

Definition InputSlots : nat := 4.
Definition OutputSlots : nat := 4.
Definition Shield5InputSlots : nat := 16.

(** ** Shield3, Shield4 and Shield5 *)

Definition ShieldedV3Magic : bytes := str "TKMSHIELD3".
Definition ShieldedV4Magic : bytes := str "TKMSHIELD4".
Definition ShieldedV5Magic : bytes := str "TKMSHIELD5".

(** [ShieldedV3Output] and [ShieldedV4Output] *)
Record ShieldedV3Output := {
  so_Commitment : Digest;
  so_Incoming : bytes;
  so_Outgoing : bytes;
  so_Stamp : bytes;
  so_OneTimeKey : option bytes;
}.

Record ShieldedV3Transaction := {
  s3_Version : Z;
  s3_Deposit : bool;
  s3_Anchor : Digest;
  s3_Nullifier : Digest;
  s3_StampRoot : Digest;
  s3_Outputs : list ShieldedV3Output;
  s3_WithdrawalRecipient : address;
  s3_WithdrawalValue : Z;
  s3_GasSponsorValue : Z;
  s3_Proof : bytes;
  s3_AdditionalNullifiers : list Digest;
  s3_InputCount : Z;
  s3_Relayed : bool;
  s3_ValidUntil : Z;
  s3_AssetID : Z;
  s3_FeeMode : Z;
}.

(** [ShieldedV4Transaction] adds the link tag. *)
Record ShieldedV4Transaction := {
  s4_base : ShieldedV3Transaction;
  s4_LinkTag : Digest;
}.

(** [ShieldedV5Transaction] adds twelve nullifiers. *)
Record ShieldedV5Transaction := {
  s5_base : ShieldedV4Transaction;
  s5_AdditionalNullifiersV5 : list Digest;
}.

Definition outputType : rtype :=
  RStruct [(false, digestType); (false, RByteSlice); (false, RByteSlice); (false, RByteSlice); (true, RByteSlice)].

(** The fields from the withdrawal on, which the three structs share. *)
Definition tailType : list (bool * rtype) :=
  [(false, RByteArray 20); (false, RBigInt); (false, RBigInt); (false, RByteSlice); (true, RArray (InputSlots - 1) digestType);
   (true, RUint 64); (true, RBool); (true, RUint 64); (true, RUint 64); (true, RUint 64)].

Definition v3Type : rtype :=
  RStruct ([(false, RUint 64); (false, RBool); (false, digestType); (false, digestType); (false, digestType); (false, RArray OutputSlots outputType)]
           ++ tailType).
Definition v4Fields : list (bool * rtype) :=
  [(false, RUint 64); (false, RBool); (false, digestType); (false, digestType); (false, digestType); (false, digestType);
   (false, RArray OutputSlots outputType)] ++ tailType.
Definition v4Type : rtype := RStruct v4Fields.
Definition v5Type : rtype := RStruct (v4Fields ++ [(true, RArray (Shield5InputSlots - InputSlots) digestType)]).

(** *** Values *)

Definition digestVal (d : Digest) : rval := VList (VNum <$> d).
Definition digestOf (v : rval) : Digest := match v with VList l => numOf <$> l | _ => [] end.
Definition digestsOf (v : rval) : list Digest := match v with VList l => digestOf <$> l | _ => [] end.
Definition boolOf (v : rval) : bool := match v with VBool b => b | _ => false end.
Definition bytesOf (v : rval) : bytes := match v with VBytes b => b | _ => [] end.

Definition outputVal (o : ShieldedV3Output) : rval :=
  VList [digestVal o.(so_Commitment); VBytes o.(so_Incoming); VBytes o.(so_Outgoing); VBytes o.(so_Stamp); sliceVal o.(so_OneTimeKey)].
Definition outputOf (v : rval) : option ShieldedV3Output :=
  match v with
  | VList [c; i; o; s; k] =>
      Some {| so_Commitment := digestOf c; so_Incoming := bytesOf i; so_Outgoing := bytesOf o; so_Stamp := bytesOf s; so_OneTimeKey := sliceOf k |}
  | _ => None
  end.
Definition outputsOf (v : rval) : option (list ShieldedV3Output) := match v with VList l => mapM outputOf l | _ => None end.

Definition tailVal (e : ShieldedV3Transaction) : list rval :=
  [VBytes (address_bytes e.(s3_WithdrawalRecipient)); VNum e.(s3_WithdrawalValue); VNum e.(s3_GasSponsorValue); VBytes e.(s3_Proof);
   VList (digestVal <$> e.(s3_AdditionalNullifiers)); VNum e.(s3_InputCount); VBool e.(s3_Relayed); VNum e.(s3_ValidUntil);
   VNum e.(s3_AssetID); VNum e.(s3_FeeMode)].

Definition v3Val (e : ShieldedV3Transaction) : rval :=
  VList ([VNum e.(s3_Version); VBool e.(s3_Deposit); digestVal e.(s3_Anchor); digestVal e.(s3_Nullifier); digestVal e.(s3_StampRoot);
          VList (outputVal <$> e.(s3_Outputs))] ++ tailVal e).
Definition v4Vals (e : ShieldedV4Transaction) : list rval :=
  let b := e.(s4_base) in
  [VNum b.(s3_Version); VBool b.(s3_Deposit); digestVal b.(s3_Anchor); digestVal b.(s3_Nullifier); digestVal b.(s3_StampRoot);
   digestVal e.(s4_LinkTag); VList (outputVal <$> b.(s3_Outputs))] ++ tailVal b.
Definition v4Val (e : ShieldedV4Transaction) : rval := VList (v4Vals e).
Definition v5Val (e : ShieldedV5Transaction) : rval :=
  VList (v4Vals e.(s5_base) ++ [VList (digestVal <$> e.(s5_AdditionalNullifiersV5))]).

Definition baseOf (version deposit anchor nullifier stampRoot outputs : rval) (tail : list rval) : option ShieldedV3Transaction :=
  match outputsOf outputs, tail with
  | Some outputs, [recipient; withdrawal; sponsor; proof; additional; count; relayed; until; asset; mode] =>
      Some {| s3_Version := numOf version; s3_Deposit := boolOf deposit; s3_Anchor := digestOf anchor; s3_Nullifier := digestOf nullifier;
              s3_StampRoot := digestOf stampRoot; s3_Outputs := outputs; s3_WithdrawalRecipient := be_value (bytesOf recipient);
              s3_WithdrawalValue := numOf withdrawal; s3_GasSponsorValue := numOf sponsor; s3_Proof := bytesOf proof;
              s3_AdditionalNullifiers := digestsOf additional; s3_InputCount := numOf count; s3_Relayed := boolOf relayed;
              s3_ValidUntil := numOf until; s3_AssetID := numOf asset; s3_FeeMode := numOf mode |}
  | _, _ => None
  end.

Definition v3Of (v : rval) : option ShieldedV3Transaction :=
  match v with VList (ver :: dep :: anc :: nul :: root :: outs :: tail) => baseOf ver dep anc nul root outs tail | _ => None end.
Definition v4Of (v : rval) : option ShieldedV4Transaction :=
  match v with
  | VList (ver :: dep :: anc :: nul :: root :: tag :: outs :: tail) =>
      (λ b, {| s4_base := b; s4_LinkTag := digestOf tag |}) <$> baseOf ver dep anc nul root outs tail
  | _ => None
  end.
Definition v5Of (v : rval) : option ShieldedV5Transaction :=
  match v with
  | VList l =>
      match last l with
      | Some more => (λ b, {| s5_base := b; s5_AdditionalNullifiersV5 := digestsOf more |}) <$> v4Of (VList (take (length l - 1) l))
      | None => None
      end
  | _ => None
  end.

(** *** Encoding and decoding *)

Section Coding.
Context {X : Externals}.

Definition HasShieldedV3Prefix (data : bytes) : bool := has_prefix data ShieldedV3Magic.
Definition HasShieldedV4Prefix (data : bytes) : bool := has_prefix data ShieldedV4Magic.
Definition HasShieldedV5Prefix (data : bytes) : bool := has_prefix data ShieldedV5Magic.

Definition EncodeShieldedV3Transaction (e : ShieldedV3Transaction) : result vError bytes := encodeWith ShieldedV3Magic v3Type (v3Val e).
Definition EncodeShieldedV4Transaction (e : ShieldedV4Transaction) : result vError bytes := encodeWith ShieldedV4Magic v4Type (v4Val e).
Definition EncodeShieldedV5Transaction (e : ShieldedV5Transaction) : result vError bytes := encodeWith ShieldedV5Magic v5Type (v5Val e).

(** The envelope of a payload; [Ok None] is another kind of data. *)
Definition decodeEnvelope {A} (prefix : bytes) (max : Z) (t : rtype) (of_ : rval → option A) (data : bytes) : result vError (option A) :=
  if negb (has_prefix data prefix) then Ok None
  else if max <? Z.of_nat (length data) then Err ErrInvalidShieldedTx
  else
    match decodeInto t of_ (drop (length prefix) data) with
    | Err _ => Err ErrInvalidShieldedTx
    | Ok e => Ok (Some e)
    end.

Definition DecodeShieldedV3Transaction := decodeEnvelope ShieldedV3Magic ShieldedV3MaxTxSize v3Type v3Of.
Definition DecodeShieldedV4Transaction := decodeEnvelope ShieldedV4Magic ShieldedV3MaxTxSize v4Type v4Of.
Definition DecodeShieldedV5Transaction := decodeEnvelope ShieldedV5Magic ShieldedV3MaxTxSize v5Type v5Of.

End Coding.

(** ** The first two versions *)

Definition shieldedTxMagic : bytes := str "TKMSHIELD1".

Record ShieldedOutput := {
  lo_Commitment : hash;
  lo_PayloadHash : hash;
  lo_EphemeralPubKey : bytes;
  lo_ViewTag : bytes;
  lo_EncryptedPayload : bytes;
  lo_Nonce : bytes;
}.

Record ShieldedSpend := {
  ls_Nullifier : hash;
  ls_Anchor : hash;
  ls_Proof : bytes;
  ls_EncryptedSpendData : bytes;
}.

(** An optional integer that is left out is nil. *)
Record ShieldedTransaction := {
  lt_Version : Z;
  lt_Spends : list ShieldedSpend;
  lt_Outputs : list ShieldedOutput;
  lt_BalanceCommitment : hash;
  lt_BindingSig : bytes;
  lt_WithdrawalRecipient : address;
  lt_WithdrawalValue : option Z;
  lt_GasSponsorValue : option Z;
  lt_MigrationOutputRandomness : list hash;
}.

Definition legacyType : rtype :=
  RStruct [(false, RUint 64);
           (false, RSlice (RStruct [(false, RByteArray 32); (false, RByteArray 32); (false, RByteSlice); (false, RByteSlice)]));
           (false, RSlice (RStruct [(false, RByteArray 32); (false, RByteArray 32); (false, RByteSlice); (false, RByteSlice); (false, RByteSlice);
                                    (false, RByteSlice)]));
           (false, RByteArray 32); (false, RByteSlice); (true, RByteArray 20); (true, RBigInt); (true, RBigInt); (true, RSlice (RByteArray 32))].

Definition listOf {A} (of_ : rval → option A) (v : rval) : option (list A) := match v with VList l => mapM of_ l | VNil => Some [] | _ => None end.
Definition intOf (v : rval) : option Z := match v with VNum n => Some n | _ => None end.
Definition hashOf (v : rval) : hash := be_value (bytesOf v).

Definition legacySpendOf (v : rval) : option ShieldedSpend :=
  match v with
  | VList [nullifier; anchor; proof; data] =>
      Some {| ls_Nullifier := hashOf nullifier; ls_Anchor := hashOf anchor; ls_Proof := bytesOf proof; ls_EncryptedSpendData := bytesOf data |}
  | _ => None
  end.
Definition legacyOutputOf (v : rval) : option ShieldedOutput :=
  match v with
  | VList [commitment; payload; key; tag; encrypted; nonce] =>
      Some {| lo_Commitment := hashOf commitment; lo_PayloadHash := hashOf payload; lo_EphemeralPubKey := bytesOf key; lo_ViewTag := bytesOf tag;
              lo_EncryptedPayload := bytesOf encrypted; lo_Nonce := bytesOf nonce |}
  | _ => None
  end.
Definition legacyOf (v : rval) : option ShieldedTransaction :=
  match v with
  | VList [version; spends; outputs; balance; sig; recipient; withdrawal; sponsor; randomness] =>
      spends ← listOf legacySpendOf spends; outputs ← listOf legacyOutputOf outputs; randomness ← listOf (λ v, Some (hashOf v)) randomness;
      Some {| lt_Version := numOf version; lt_Spends := spends; lt_Outputs := outputs; lt_BalanceCommitment := hashOf balance;
              lt_BindingSig := bytesOf sig; lt_WithdrawalRecipient := hashOf recipient; lt_WithdrawalValue := intOf withdrawal;
              lt_GasSponsorValue := intOf sponsor; lt_MigrationOutputRandomness := randomness |}
  | _ => None
  end.

Section CodingLegacy.
Context {X : Externals}.

Definition DecodeShieldedTransaction (data : bytes) : result vError (option ShieldedTransaction) :=
  if negb (has_prefix data shieldedTxMagic) then Ok None
  else e ← decodeInto legacyType legacyOf (drop (length shieldedTxMagic) data); Ok (Some e).

End CodingLegacy.

(** ** Shield6 *)

Definition ShieldedV6Magic : bytes := str "TKMSHIELD6".
Definition ShieldedV6MaxTxSize : Z := 256 * 1024.
Definition ShieldedV6MaxCiphertext : Z := 4096.
Definition ShieldedV6MaxInputs : nat := 16.
Definition ShieldedV6MaxOutputs : nat := 16.
Definition ShieldedV6BoundVersion : Z := 7.
Definition ShieldedV6BindingVersion : Z := 8.
Definition ShieldedV6MaxRecipientProof : Z := 4096.
Definition RingSize : nat := 16.
Definition PointSize : nat := 32.
Definition ScalarSize : nat := 32.
Definition CLSAGSize : nat := Eval vm_compute in (RingSize * ScalarSize + ScalarSize + PointSize)%nat.
Definition MaxRangeProofBundleSize : Z := 2 * 8192 + 16.

Record ShieldedV6Input := {
  i6_RingIndices : list Z;
  i6_KeyImage : bytes;
  i6_PseudoOutput : bytes;
  i6_Signature : bytes;
}.

Record ShieldedV6Output := {
  o6_OneTimeKey : bytes;
  o6_EphemeralKey : bytes;
  o6_Commitment : bytes;
  o6_AmountLimbs : list bytes;
  o6_EncryptedNote : bytes;
}.

Record ShieldedV6RecipientRoots := {
  rr_StampRoot : Digest;
  rr_BindingRoot : Digest;
  rr_Anchor : hash;
}.

Record ShieldedV6RecipientProofs := {
  rp_Roots : list ShieldedV6RecipientRoots;
  rp_Proofs : list bytes;
}.

Record ShieldedV6BindingRegistration := {
  br_Owner : Digest;
  br_Commitment : Digest;
  br_Proof : bytes;
}.

Record ShieldedV6Transaction := {
  s6_Version : Z;
  s6_AssetID : Z;
  s6_Deposit : bool;
  s6_DepositMask : bytes;
  s6_WithdrawalRecipient : address;
  s6_WithdrawalValue : Z;
  s6_Inputs : list ShieldedV6Input;
  s6_Outputs : list ShieldedV6Output;
  s6_RangeProof : bytes;
  s6_Recipients : option ShieldedV6RecipientProofs;
  s6_Binding : option ShieldedV6BindingRegistration;
  s6_ValidUntil : Z;
}.

Definition pointType : rtype := RByteArray PointSize.
Definition input6Type : rtype :=
  RStruct [(false, RArray RingSize (RUint 64)); (false, pointType); (false, pointType); (false, RByteArray CLSAGSize)].
Definition output6Type : rtype :=
  RStruct [(false, pointType); (false, pointType); (false, pointType); (false, RArray 2 pointType); (false, RByteSlice)].
Definition recipientsType : rtype :=
  RStruct [(false, RSlice (RStruct [(false, digestType); (false, digestType); (false, RByteArray 32)])); (false, RSlice RByteSlice)].
Definition bindingType : rtype := RStruct [(false, digestType); (false, digestType); (false, RByteSlice)].
Definition v6Type : rtype :=
  RStruct [(false, RUint 64); (false, RUint 64); (false, RBool); (false, RByteArray ScalarSize); (false, RByteArray 20); (false, RBigInt);
           (false, RSlice input6Type); (false, RSlice output6Type); (false, RByteSlice); (true, RNilPtr List_ recipientsType);
           (true, RNilPtr List_ bindingType); (true, RUint 64)].

(** *** Values *)

Definition input6Val (i : ShieldedV6Input) : rval :=
  VList [VList (VNum <$> i.(i6_RingIndices)); VBytes i.(i6_KeyImage); VBytes i.(i6_PseudoOutput); VBytes i.(i6_Signature)].
Definition output6Val (o : ShieldedV6Output) : rval :=
  VList [VBytes o.(o6_OneTimeKey); VBytes o.(o6_EphemeralKey); VBytes o.(o6_Commitment); VList (VBytes <$> o.(o6_AmountLimbs));
         VBytes o.(o6_EncryptedNote)].
Definition rootsVal (r : ShieldedV6RecipientRoots) : rval :=
  VList [digestVal r.(rr_StampRoot); digestVal r.(rr_BindingRoot); VBytes (hash_bytes r.(rr_Anchor))].
Definition recipientsVal (r : ShieldedV6RecipientProofs) : rval := VList [VList (rootsVal <$> r.(rp_Roots)); VList (VBytes <$> r.(rp_Proofs))].
Definition bindingVal (b : ShieldedV6BindingRegistration) : rval :=
  VList [digestVal b.(br_Owner); digestVal b.(br_Commitment); VBytes b.(br_Proof)].
Definition ptrVal {A} (val : A → rval) (p : option A) : rval := match p with Some a => val a | None => VNil end.

Definition v6Val (e : ShieldedV6Transaction) : rval :=
  VList [VNum e.(s6_Version); VNum e.(s6_AssetID); VBool e.(s6_Deposit); VBytes e.(s6_DepositMask); VBytes (address_bytes e.(s6_WithdrawalRecipient));
         VNum e.(s6_WithdrawalValue); VList (input6Val <$> e.(s6_Inputs)); VList (output6Val <$> e.(s6_Outputs)); VBytes e.(s6_RangeProof);
         ptrVal recipientsVal e.(s6_Recipients); ptrVal bindingVal e.(s6_Binding); VNum e.(s6_ValidUntil)].

Definition input6Of (v : rval) : option ShieldedV6Input :=
  match v with
  | VList [VList ring; VBytes image; VBytes pseudo; VBytes signature] =>
      Some {| i6_RingIndices := numOf <$> ring; i6_KeyImage := image; i6_PseudoOutput := pseudo; i6_Signature := signature |}
  | _ => None
  end.
Definition output6Of (v : rval) : option ShieldedV6Output :=
  match v with
  | VList [VBytes key; VBytes ephemeral; VBytes commitment; VList limbs; note] =>
      Some {| o6_OneTimeKey := key; o6_EphemeralKey := ephemeral; o6_Commitment := commitment; o6_AmountLimbs := bytesOf <$> limbs;
              o6_EncryptedNote := bytesOf note |}
  | _ => None
  end.
Definition rootsOf (v : rval) : option ShieldedV6RecipientRoots :=
  match v with
  | VList [stamp; binding; VBytes anchor] =>
      Some {| rr_StampRoot := digestOf stamp; rr_BindingRoot := digestOf binding; rr_Anchor := be_value anchor |}
  | _ => None
  end.
Definition recipientsOf (v : rval) : option (option ShieldedV6RecipientProofs) :=
  match v with
  | VNil => Some None
  | VList [roots; proofs] =>
      roots ← listOf rootsOf roots; proofs ← listOf (λ v, Some (bytesOf v)) proofs; Some (Some {| rp_Roots := roots; rp_Proofs := proofs |})
  | _ => None
  end.
Definition bindingOf (v : rval) : option (option ShieldedV6BindingRegistration) :=
  match v with
  | VNil => Some None
  | VList [owner; commitment; proof] => Some (Some {| br_Owner := digestOf owner; br_Commitment := digestOf commitment; br_Proof := bytesOf proof |})
  | _ => None
  end.

Definition v6Of (v : rval) : option ShieldedV6Transaction :=
  match v with
  | VList [version; asset; deposit; mask; recipient; withdrawal; inputs; outputs; range; recipients; binding; until] =>
      inputs ← listOf input6Of inputs; outputs ← listOf output6Of outputs; recipients ← recipientsOf recipients; binding ← bindingOf binding;
      Some {| s6_Version := numOf version; s6_AssetID := numOf asset; s6_Deposit := boolOf deposit; s6_DepositMask := bytesOf mask;
              s6_WithdrawalRecipient := be_value (bytesOf recipient); s6_WithdrawalValue := numOf withdrawal; s6_Inputs := inputs;
              s6_Outputs := outputs; s6_RangeProof := bytesOf range; s6_Recipients := recipients; s6_Binding := binding;
              s6_ValidUntil := numOf until |}
  | _ => None
  end.

(** *** Bounds before decoding *)

(** The loop of [shieldedV6List]; every turn consumes a byte, so the length of the content is enough fuel. *)
Fixpoint v6ListLoop (fuel : nat) (content : bytes) (max : nat) : result vError (list bytes) :=
  match content, fuel with
  | [], _ => Ok []
  | _, O => Err ErrInvalidShieldedTx
  | _, S fuel =>
      match max with
      | O => Err ErrInvalidShieldedTx
      | S max =>
          match Split content with
          | Err _ => Err ErrInvalidShieldedTx
          | Ok (_, _, rest) =>
              parts ← v6ListLoop fuel rest max;
              Ok (take (length content - length rest) content :: parts)
          end
      end
  end.

Definition shieldedV6List (raw : bytes) (max : nat) : result vError (list bytes) :=
  match SplitList raw with
  | Ok (content, []) => v6ListLoop (length content) content max
  | _ => Err ErrInvalidShieldedTx
  end.

Definition shieldedV6String (raw : bytes) (max : Z) : result vError unit :=
  match SplitString raw with
  | Ok (content, []) => fail_if (max <? Z.of_nat (length content)) ErrInvalidShieldedTx
  | _ => Err ErrInvalidShieldedTx
  end.

Fixpoint eachOf {A} (f : A → result vError unit) (l : list A) : result vError unit :=
  match l with [] => Ok () | a :: l => _ ← f a; eachOf f l end.

Definition preflightOutput (output : bytes) : result vError unit :=
  parts ← shieldedV6List output 5;
  match parts with
  | [_; _; _; _; note] => shieldedV6String note ShieldedV6MaxCiphertext
  | _ => Err ErrInvalidShieldedTx
  end.

Definition preflightRecipients (field : option bytes) : result vError unit :=
  match field with
  | None => Ok ()
  | Some raw =>
      bundle ← shieldedV6List raw 2;
      match bundle with
      | [] => Ok ()
      | [roots; proofs] =>
          _ ← shieldedV6List roots ShieldedV6MaxOutputs;
          proofs ← shieldedV6List proofs ShieldedV6MaxOutputs;
          eachOf (λ proof, shieldedV6String proof ShieldedV6MaxRecipientProof) proofs
      | _ => Err ErrInvalidShieldedTx
      end
  end.

Definition preflightBinding (field : option bytes) : result vError unit :=
  match field with
  | None => Ok ()
  | Some raw =>
      binding ← shieldedV6List raw 3;
      match binding with
      | [] => Ok ()
      | [_; _; proof] => shieldedV6String proof ShieldedV6MaxRecipientProof
      | _ => Err ErrInvalidShieldedTx
      end
  end.

Definition shieldedV6Preflight (raw : bytes) : result vError unit :=
  fields ← shieldedV6List raw 12;
  match fields with
  | _ :: _ :: _ :: _ :: _ :: _ :: inputs :: outputs :: range :: more =>
      _ ← shieldedV6List inputs ShieldedV6MaxInputs;
      outputs ← shieldedV6List outputs ShieldedV6MaxOutputs;
      _ ← eachOf preflightOutput outputs;
      _ ← shieldedV6String range MaxRangeProofBundleSize;
      _ ← preflightRecipients (more !! 0%nat);
      preflightBinding (more !! 1%nat)
  | _ => Err ErrInvalidShieldedTx
  end.

(** *** Encoding and decoding *)

Section Coding6.
Context {X : Externals}.

Definition HasShieldedV6Prefix (data : bytes) : bool := has_prefix data ShieldedV6Magic.

Definition EncodeShieldedV6Transaction (e : ShieldedV6Transaction) : result vError bytes := encodeWith ShieldedV6Magic v6Type (v6Val e).

Definition DecodeShieldedV6Transaction (data : bytes) : result vError (option ShieldedV6Transaction) :=
  if negb (HasShieldedV6Prefix data) then Ok None
  else
    _ ← fail_if (ShieldedV6MaxTxSize <? Z.of_nat (length data)) ErrInvalidShieldedTx;
    match shieldedV6Preflight (drop (length ShieldedV6Magic) data) with
    | Err _ => Err ErrInvalidShieldedTx
    | Ok _ =>
        match decodeInto v6Type v6Of (drop (length ShieldedV6Magic) data) with
        | Err _ => Err ErrInvalidShieldedTx
        | Ok e => Ok (Some e)
        end
    end.

End Coding6.
End ShieldedEnvelopes.
