(* ===== verification/Ledger.v ===== *)
(** * The confidential ledger

    [core/confidential_ledger.go] and the asset state of [core/shielded_v3_state.go]:
    the pool account holds the money behind the private notes, the wrapped asset and
    the validator bonds, and the ledger keeps, per asset, how much of it backs notes. *)

From S2P Require Import Prelude Bytes State ChainConfig ValidatorRegistry ShieldedTree Stamps ShieldedEnvelopes.
Import ValidatorRegistry ShieldedTree Stamps ShieldedEnvelopes.

Module Ledger.

Definition ShieldedFeePublic : Z := 0.
Definition ShieldedFeePrepaid : Z := 1.
Definition ConfidentialPrepaidGas : Z := 7000000.

Record ConfidentialLedgerTotals := {
  OpeningBacking : Z;
  Deposited : Z;
  Withdrawn : Z;
  FeesBurned : Z;
  Backing : Z;
  Initialized : bool;
}.

(** [common.BytesToHash(x.Bytes())] *)
Definition bigToHash (x : Z) : hash := BytesToHash (min_bytes x).

Section Ledger.
Context {X : Externals} {U : Uint256} {S : Type} {W : WorldState S}.

(** ** Slots of an asset *)

Definition ShieldedV3StateSlotForAsset (assetID : Z) (role data : bytes) : hash :=
  let assetID := NormalizeAssetID assetID in
  if assetID =? AssetTKM then ShieldedV3StateSlot role data
  else BytesToHash (sha512 (str "TKM_SHIELD3_STATE_ASSET_V1/" ++ be_bytes 8 assetID ++ (str "/" ++ role ++ str "/") ++ data)).

Definition getAsset (st : S) (assetID : Z) (role data : bytes) : hash :=
  GetState st ShieldedPoolAddress (ShieldedV3StateSlotForAsset assetID role data).
Definition setAsset (st : S) (assetID : Z) (role data : bytes) (v : hash) : S :=
  SetState st ShieldedPoolAddress (ShieldedV3StateSlotForAsset assetID role data) v.

Definition ShieldedV3NullifierTransactionForAsset (st : S) (assetID : Z) (n : Digest) : hash := getAsset st assetID (str "nullifier") (Digest_Bytes n).

Definition shieldedV3AssetSupply (st : S) (assetID : Z) : Z := getAsset st assetID (str "supply") [].
Definition setShieldedV3AssetSupply (st : S) (assetID supply : Z) : S := setAsset st assetID (str "supply") [] (bigToHash supply).

(** The native backing of the wrapped asset may only be spent by burning it. *)
Definition shieldedV3SpendablePoolReserve (st : S) (assetID : Z) : Z :=
  let reserve := GetBalance st ShieldedPoolAddress in
  if NormalizeAssetID assetID =? AssetPTKM then reserve
  else
    let protected := shieldedV3AssetSupply st AssetPTKM in
    if reserve <=? protected then 0 else reserve - protected.

(** ** Totals *)

Definition ledgerRole (role : bytes) : bytes := str "confidential-ledger/v1/" ++ role.
Definition ledgerSlot (asset : Z) (role : bytes) : hash := ShieldedV3StateSlotForAsset asset (ledgerRole role) [].

Definition ConfidentialLedgerState (st : S) (asset : Z) : ConfidentialLedgerTotals :=
  let read role := GetState st ShieldedPoolAddress (ledgerSlot asset role) in
  {| OpeningBacking := read (str "opening"); Deposited := read (str "deposited"); Withdrawn := read (str "withdrawn");
     FeesBurned := read (str "fees"); Backing := read (str "backing"); Initialized := negb (read (str "initialized") =? 0) |}.

Definition commitLedger (st : S) (asset : Z) (l : ConfidentialLedgerTotals) : S :=
  foldl (λ st '(role, value), SetState st ShieldedPoolAddress (ledgerSlot asset role) (bigToHash value)) st
    [(str "opening", l.(OpeningBacking)); (str "deposited", l.(Deposited)); (str "withdrawn", l.(Withdrawn)); (str "fees", l.(FeesBurned));
     (str "backing", l.(Backing)); (str "initialized", 1)].

(** The loop over the bonds. *)
Fixpoint withoutBonds (reserve : Z) (records : list ValidatorRecord) : result vError Z :=
  match records with
  | [] => Ok reserve
  | r :: records =>
      if (r.(Stake) <? 0) || (two256 <=? r.(Stake)) then Err (ErrText "invalid validator reserve")
      else withoutBonds (reserve - r.(Stake)) records
  end.

Definition confidentialNativeReserve (st : S) : result vError Z :=
  records ← ValidatorRecords st;
  reserve ← withoutBonds (GetBalance st ShieldedPoolAddress) records;
  let reserve := reserve - shieldedV3AssetSupply st AssetPTKM in
  if reserve <? 0 then Err (ErrText "shared pool liabilities exceed backing") else Ok reserve.

Definition badValue (n : Z) : bool := (n <? 0) || (two256 <=? n).

Definition ledgerTransition (st : S) (asset deposit withdrawal fee : Z) : result vError ConfidentialLedgerTotals :=
  let l := ConfidentialLedgerState st asset in
  reserve ← confidentialNativeReserve st;
  let native := ConfidentialLedgerState st AssetTKM in
  _ ← fail_if (native.(Initialized) && (reserve <? native.(Backing))) (ErrText "confidential native ledger backing shortfall");
  let reserve := if asset =? AssetPTKM then shieldedV3AssetSupply st asset else reserve in
  let l := if l.(Initialized) then l
           else {| OpeningBacking := reserve; Deposited := l.(Deposited); Withdrawn := l.(Withdrawn); FeesBurned := l.(FeesBurned);
                   Backing := reserve; Initialized := true |} in
  _ ← fail_if ((reserve <? 0) || (reserve <? l.(Backing))) (ErrText "confidential ledger backing shortfall");
  _ ← fail_if (existsb badValue [deposit; withdrawal; fee]) (ErrText "invalid confidential ledger value");
  let l := {| OpeningBacking := l.(OpeningBacking); Deposited := l.(Deposited) + deposit; Withdrawn := l.(Withdrawn) + withdrawal;
              FeesBurned := l.(FeesBurned) + fee; Backing := l.(Backing) + deposit - withdrawal - fee; Initialized := l.(Initialized) |} in
  _ ← fail_if (existsb badValue [l.(Deposited); l.(Withdrawn); l.(FeesBurned); l.(Backing)]) (ErrText "confidential ledger overdraw or overflow");
  Ok l.

(** ** Prepaid fees *)

Definition validateConfidentialLedgerShape (config : ChainConfig.ChainConfig) (number time : Z) (tx : stx) (deposit : bool)
    (sponsor mode asset : Z) : result vError unit :=
  let active := ChainConfig.IsConfidentialLedger config number time in
  _ ← fail_if ((ShieldedFeePrepaid <? mode) || (negb (mode =? ShieldedFeePublic) && negb active)) ErrInvalidShieldedTx;
  if negb active then Ok ()
  else if mode =? ShieldedFeePublic then fail_if (negb (sponsor =? 0)) ErrInvalidShieldedTx
  else
    _ ← fail_if (deposit || negb (asset =? AssetTKM) || negb (tx.(sx_tx).(vt_Value) =? 0) || negb (tx.(sx_Gas) =? ConfidentialPrepaidGas)
                 || (tx.(sx_GasFeeCap) <=? 0) || negb (tx.(sx_GasFeeCap) =? tx.(sx_GasTipCap))) ErrInvalidShieldedTx;
    let expected := tx.(sx_Gas) * tx.(sx_GasFeeCap) in
    fail_if ((two256 <=? expected) || negb (sponsor =? expected)) ErrInvalidShieldedTx.

Definition confidentialFeeTicket (h : hash) : hash := ShieldedV3StateSlot (str "confidential-ledger/v1/fee-ticket") (hash_bytes h).

Definition burnConfidentialFee (st : S) (txHash : hash) (fee : Z) : S :=
  let st := SubBalance st ShieldedPoolAddress fee in
  SetState st ShieldedPoolAddress (confidentialFeeTicket txHash) (bigToHash fee).

End Ledger.
End Ledger.
