(* ===== verification/ShieldedOnly.v ===== *)
(** * The shielded-only policy

    [core/shielded_only.go]: after the shielded-only fork a transaction must be a
    private spend, a Shield6 boundary, a stamp or a validator envelope; a legacy note
    may leave to its own account once Shield6 is active. *)

From S2P Require Import Prelude Bytes State ChainConfig ValidatorRegistry ShieldedTree Stamps AddressVotes ShieldedEnvelopes.
Import ValidatorRegistry ShieldedTree Stamps AddressVotes ShieldedEnvelopes.

Module ShieldedOnly.

Definition ErrPublicPaymentDisabled : vError := ErrText "shielded-only fork requires a private Shield3/Shield4 spend".
Definition ErrValidatorTransactionsNotActive : vError := ErrText "validator registry transactions are not active yet".

Definition ErrAddressSuspended : vError := ErrText "illegal transaction: address is suspended by address votes".

Section Policy.
Context {X : Externals} {N : Native}.

(** A PQ transaction to the shielded pool. *)
Definition toPool (txType : Z) (to : option address) : bool := (txType =? PQTkmTxType) && bool_decide (to = Some ShieldedPoolAddress).

Definition validShieldedV6BindingShape (e : ShieldedV6Transaction) : bool :=
  (e.(s6_Version) =? ShieldedV6BindingVersion) && (e.(s6_AssetID) =? 1) && match e.(s6_Binding) with Some _ => true | None => false end
  && match e.(s6_Recipients) with None => true | Some _ => false end && negb e.(s6_Deposit) && bool_decide (e.(s6_DepositMask) = replicate 32 0)
  && (e.(s6_WithdrawalRecipient) =? 0) && (e.(s6_WithdrawalValue) =? 0) && (length e.(s6_Inputs) =? 0)%nat && (length e.(s6_Outputs) =? 0)%nat
  && (length e.(s6_RangeProof) =? 0)%nat.

(** What the policy looks at in an envelope: deposit, recipient, withdrawal, sponsor. *)
Definition publicFields (e : ShieldedV3Transaction) : bool * address * Z * Z :=
  (e.(s3_Deposit), e.(s3_WithdrawalRecipient), e.(s3_WithdrawalValue), e.(s3_GasSponsorValue)).

(** The envelope of a version, as the switch over the prefixes decodes it; the asset
    identifier is read from Shield4 and Shield5 only. *)
Definition spendFields (data : bytes) : option (bool * address * Z * Z * Z) :=
  if HasShieldedV5Prefix data then
    match DecodeShieldedV5Transaction data with
    | Ok (Some e) => let b := e.(s5_base).(s4_base) in if b.(s3_Version) =? 5 then Some (publicFields b, b.(s3_AssetID)) else None
    | _ => None
    end
  else if HasShieldedV4Prefix data then
    match DecodeShieldedV4Transaction data with
    | Ok (Some e) => let b := e.(s4_base) in if b.(s3_Version) =? 4 then Some (publicFields b, b.(s3_AssetID)) else None
    | _ => None
    end
  else if HasShieldedV3Prefix data then
    match DecodeShieldedV3Transaction data with
    | Ok (Some b) => if b.(s3_Version) =? 3 then Some (publicFields b, 0) else None
    | _ => None
    end
  else None.

Definition isShieldedLegacySelfExit (tx : vtx) (sender : address) : bool :=
  if negb (toPool tx.(vt_Type) tx.(vt_To)) || negb (tx.(vt_Value) =? 0) then false
  else
    match spendFields tx.(vt_Data) with
    | None => false
    | Some (deposit, recipient, withdrawal, sponsor, assetID) =>
        negb deposit && (NormalizeAssetID assetID =? AssetTKM) && (0 <? withdrawal) && (withdrawal <? 2 ^ 128) && (recipient =? sender) && (sponsor =? 0)
    end.

(** The boundaries of Shield6. *)
Definition shield6Fields (txType : Z) (to : option address) (value : Z) (data : bytes) : result vError unit :=
  _ ← fail_if (negb (toPool txType to)) ErrPublicPaymentDisabled;
  match DecodeShieldedV6Transaction data with
  | Ok (Some e) =>
      _ ← fail_if (negb (e.(s6_Version) =? 6) && negb (e.(s6_Version) =? ShieldedV6BoundVersion) && negb (e.(s6_Version) =? ShieldedV6BindingVersion))
            ErrPublicPaymentDisabled;
      if e.(s6_Version) =? ShieldedV6BindingVersion
      then fail_if (negb (value =? 0) || negb (validShieldedV6BindingShape e)) ErrPublicPaymentDisabled
      else
        let withdrawal := 0 <? e.(s6_WithdrawalValue) in
        let noRecipient := e.(s6_WithdrawalRecipient) =? 0 in
        let noInputs := (length e.(s6_Inputs) =? 0)%nat in
        if e.(s6_Deposit) then fail_if ((value <=? 0) || withdrawal || negb noRecipient || negb noInputs) ErrPublicPaymentDisabled
        else if withdrawal then fail_if (negb (value =? 0) || noRecipient || noInputs) ErrPublicPaymentDisabled
        else fail_if (negb (value =? 0) || negb noRecipient || noInputs) ErrPublicPaymentDisabled
  | _ => Err ErrPublicPaymentDisabled
  end.

(** [shieldedOnlyFields]; the sponsor value it returns is not used by its callers. *)
Definition shieldedOnlyFields (txType : Z) (to : option address) (value : Z) (data : bytes) : result vError unit :=
  if HasShieldedV6Prefix data then shield6Fields txType to value data
  else
    _ ← fail_if ((negb (toPool txType to) || negb (value =? 0))
                 && (negb (toPool txType to) || negb (HasValidatorRegistrationPrefix data) || negb (value =? ValidatorBondWei))) ErrPublicPaymentDisabled;
    if isValidatorProtocolEnvelope data then
      _ ← fail_if (negb (toPool txType to)) ErrPublicPaymentDisabled;
      if HasValidatorRegistrationPrefix data then
        _ ← fail_if (negb (value =? ValidatorBondWei)) ErrPublicPaymentDisabled;
        fail_if (match DecodeValidatorRegistration data with Ok _ => false | Err _ => true end) ErrPublicPaymentDisabled
      else
        _ ← fail_if (negb (value =? 0)) ErrPublicPaymentDisabled;
        fail_if (match validateValidatorEnvelopeEncoding data with Ok _ => false | Err _ => true end) ErrPublicPaymentDisabled
    else if HasAntarticalStampPrefix data then
      fail_if (match DecodeAntarticalStamp data with Ok _ => false | Err _ => true end) ErrPublicPaymentDisabled
    else
      match spendFields data with
      | None => Err ErrPublicPaymentDisabled
      | Some (deposit, recipient, withdrawal, sponsor, _) =>
          _ ← fail_if (deposit || negb (withdrawal =? 0) || negb (recipient =? 0)) ErrPublicPaymentDisabled;
          fail_if (negb (sponsor =? 0)) ErrPublicPaymentDisabled
      end.

Definition ValidateShieldedOnlyTransaction (config : ChainConfig.ChainConfig) (number time : Z) (tx : vtx) : result vError unit :=
  if ChainConfig.IsAntartical config number time && isValidatorProtocolEnvelope tx.(vt_Data) then
    if negb (ChainConfig.IsValidatorTransactionsActive config number time) then Err ErrValidatorTransactionsNotActive
    else validateValidatorProtocolBasics config number time tx
  else if negb (ChainConfig.IsShieldedOnly config number time) then Ok ()
  else if ChainConfig.IsShield6 config number time
          && match Sender config number time tx with Some sender => isShieldedLegacySelfExit tx sender | None => false end
  then Ok ()
  else shieldedOnlyFields tx.(vt_Type) tx.(vt_To) tx.(vt_Value) tx.(vt_Data).

(** ** Stamped accounts

    [ValidateAntarticalStampState] of [core/antartical_stamp.go]: who may send what. *)

Context {U : Uint256} {S : Type} {W : WorldState S}.

(** The sender is not suspended and has a stamp. *)
Definition stampedSender (st : S) (from : address) : result voteError unit :=
  _ ← fail_if (IsAddressSuspended st from) (ErrVote ErrAddressSuspended);
  fail_if (negb (IsAntarticalStamped st from)) ErrUnstampedAddress.

(** Recipient and value of the withdrawal of an envelope. *)
Definition withdrawalOf (data : bytes) : result vError (option (address * Z)) :=
  let public (b : ShieldedV3Transaction) := (b.(s3_WithdrawalRecipient), b.(s3_WithdrawalValue)) in
  if HasShieldedV5Prefix data then e ← DecodeShieldedV5Transaction data; Ok (option_map (λ e, public e.(s5_base).(s4_base)) e)
  else if HasShieldedV4Prefix data then e ← DecodeShieldedV4Transaction data; Ok (option_map (λ e, public e.(s4_base)) e)
  else if HasShieldedV3Prefix data then e ← DecodeShieldedV3Transaction data; Ok (option_map public e)
  else e ← DecodeShieldedTransaction data; Ok (option_map (λ e, (e.(lt_WithdrawalRecipient), default 0 e.(lt_WithdrawalValue))) e).

Definition ValidateAntarticalStampState (st : S) (from : address) (to : option address) (value : Z) (data : bytes) : result voteError unit :=
  let pool := bool_decide (to = Some ShieldedPoolAddress) in
  let illegal := ErrVote (ErrText "illegal value transfer") in
  if HasAntarticalStampPrefix data then
    _ ← fail_if (negb pool || negb (value =? 0)) illegal;
    e ← lift (DecodeAntarticalStamp data);
    fail_if (negb (length (beneficiaryKey e) =? 0)%nat && negb (IsAntarticalStamped st from)) ErrUnstampedAddress
  else if HasAddressVotePrefix data then
    _ ← fail_if (negb pool || negb (value =? 0)) illegal;
    ValidateAddressVoteState st from data
  else if HasValidatorRegistrationPrefix data then
    _ ← fail_if (negb pool || negb (value =? ValidatorBondWei)) illegal;
    stampedSender st from
  else if HasValidatorSlashPrefix data || (HasValidatorExitPrefix data || HasValidatorWithdrawalPrefix data) then
    _ ← fail_if (negb pool || negb (value =? 0)) illegal;
    stampedSender st from
  else
    _ ← stampedSender st from;
    _ ← fail_if ((0 <? value) && match to with
                                 | None => true
                                 | Some a => negb (a =? ShieldedPoolAddress) && negb (IsAntarticalStamped st a)
                                 end) ErrUnstampedAddress;
    w ← lift (withdrawalOf data);
    fail_if match w with Some (recipient, v) => (0 <? v) && negb (IsAntarticalStamped st recipient) | None => false end ErrUnstampedAddress.

End Policy.
End ShieldedOnly.
