(* ===== verification/ShieldedSpend.v ===== *)
(** * Shielded spends

    The consensus rules of the Shield3, Shield4 and Shield5 transactions:
    [core/shielded_v3.go], [core/shielded_v4.go], [core/shielded_v4_state.go],
    [core/shielded_v5.go], [core/shielded_v5_state.go] and the statements of
    [zk/shielded3].  A transaction spends notes, named by their nullifiers, and creates
    four; it may carry a deposit in, or release a withdrawal and a gas sponsorship.
    The three versions share their tree, their nullifiers and their money.

    The proofs are checked by the native library. *)

From S2P Require Import Prelude Bytes RLPTypes State ChainConfig ValidatorRegistry ShieldedCrypto ShieldedTree Stamps AddressVotes ShieldedEnvelopes Ledger ShieldedOnly.
Import RLPTypes ValidatorRegistry ShieldedCrypto ShieldedTree Stamps AddressVotes ShieldedEnvelopes Ledger ShieldedOnly.

Module ShieldedSpend.

Definition MaxSendTKM : Z := 5000000.
Definition MaxSendWei : Z := MaxSendTKM * 10 ^ 18.

(** ** Fields *)

Definition shieldedV3AssetID (e : ShieldedV3Transaction) : Z := NormalizeAssetID e.(s3_AssetID).

Section Spend.
Context {X : Externals} {N : Native}.

(** The loop over the nullifiers: the first [count] are distinct and not zero, the others zero. *)
Fixpoint nullifierLoop (all : list Digest) (i count : Z) (seen : list Digest) : result vError unit :=
  match all with
  | [] => Ok ()
  | n :: all =>
      _ ← DigestFromBytes (Digest_Bytes n);
      if i <? count then
        if bool_decide (n = zeroDigest) || bool_decide (n ∈ seen) then Err ErrInvalidShieldedTx else nullifierLoop all (i + 1) count (n :: seen)
      else if negb (bool_decide (n = zeroDigest)) then Err ErrInvalidShieldedTx
      else nullifierLoop all (i + 1) count seen
  end.

Definition activeNullifiers (deposit : bool) (inputCount slots : Z) (all : list Digest) : result vError (list Digest) :=
  let count := if negb deposit && (inputCount =? 0) then 1 else inputCount in
  _ ← fail_if ((slots <? count) || negb (bool_decide (deposit = (count =? 0)))) ErrInvalidShieldedTx;
  _ ← nullifierLoop all 0 count [];
  Ok (take (Z.to_nat count) all).

Definition ShieldedV3Nullifiers (e : ShieldedV3Transaction) : result vError (list Digest) :=
  activeNullifiers e.(s3_Deposit) e.(s3_InputCount) 4 (e.(s3_Nullifier) :: e.(s3_AdditionalNullifiers)).
Definition ShieldedV4Nullifiers (e : ShieldedV4Transaction) : result vError (list Digest) := ShieldedV3Nullifiers e.(s4_base).
Definition ShieldedV5Nullifiers (e : ShieldedV5Transaction) : result vError (list Digest) :=
  let b := e.(s5_base).(s4_base) in
  activeNullifiers b.(s3_Deposit) b.(s3_InputCount) 16 (b.(s3_Nullifier) :: b.(s3_AdditionalNullifiers) ++ e.(s5_AdditionalNullifiersV5)).

(** [ValidateShieldedV3Time], [ValidateShieldedV4Time] *)
Definition ValidateShieldedV3Time (e : ShieldedV3Transaction) (time : Z) : result vError unit :=
  if e.(s3_Relayed) then
    fail_if (e.(s3_Deposit) || negb (e.(s3_WithdrawalValue) =? 0) || (e.(s3_ValidUntil) <=? time)
             || (AntarticalStampSponsorshipLifetime <? e.(s3_ValidUntil) - time)) ErrInvalidShieldedTx
  else fail_if (negb (e.(s3_ValidUntil) =? 0)) ErrInvalidShieldedTx.

(** ** Intents *)

Definition cleanV3 (e : ShieldedV3Transaction) : ShieldedV3Transaction := {|
  s3_Version := e.(s3_Version); s3_Deposit := e.(s3_Deposit); s3_Anchor := e.(s3_Anchor); s3_Nullifier := e.(s3_Nullifier);
  s3_StampRoot := e.(s3_StampRoot); s3_Outputs := e.(s3_Outputs); s3_WithdrawalRecipient := e.(s3_WithdrawalRecipient);
  s3_WithdrawalValue := e.(s3_WithdrawalValue); s3_GasSponsorValue := e.(s3_GasSponsorValue); s3_Proof := [];
  s3_AdditionalNullifiers := e.(s3_AdditionalNullifiers); s3_InputCount := e.(s3_InputCount); s3_Relayed := e.(s3_Relayed);
  s3_ValidUntil := e.(s3_ValidUntil); s3_AssetID := e.(s3_AssetID); s3_FeeMode := e.(s3_FeeMode) |}.
Definition cleanV4 (e : ShieldedV4Transaction) : ShieldedV4Transaction := {| s4_base := cleanV3 e.(s4_base); s4_LinkTag := e.(s4_LinkTag) |}.
Definition cleanV5 (e : ShieldedV5Transaction) : ShieldedV5Transaction :=
  {| s5_base := cleanV4 e.(s5_base); s5_AdditionalNullifiersV5 := e.(s5_AdditionalNullifiersV5) |}.

Definition intentOf (domain : bytes) (tx : stx) (envelope : result vError bytes) : result vError bytes :=
  data ← envelope;
  match EncodeValue intentType (intentVal domain tx data) with
  | None => Err ErrEncode
  | Some encoded => Ok (sha512 encoded)
  end.

Definition ShieldedV3Intent (tx : stx) (e : ShieldedV3Transaction) : result vError bytes :=
  intentOf (str "TKM_SHIELD3_TRANSACTION_INTENT_V1") tx (EncodeShieldedV3Transaction (cleanV3 e)).
Definition ShieldedV4Intent (tx : stx) (e : ShieldedV4Transaction) : result vError bytes :=
  intentOf (str "TKM_SHIELD4_TRANSACTION_INTENT_V1") tx (EncodeShieldedV4Transaction (cleanV4 e)).
Definition ShieldedV5Intent (tx : stx) (e : ShieldedV5Transaction) : result vError bytes :=
  intentOf (str "TKM_SHIELD5_TRANSACTION_INTENT_V1") tx (EncodeShieldedV5Transaction (cleanV5 e)).

(** ** Statements *)

(** [Amount]: eight little-endian limbs of 32 bits. *)
Definition Amount := list Z.
Definition AmountFromBig (value : Z) : result vError Amount :=
  if (value <? 0) || (two256 <=? value) then Err ErrInvalidStatement
  else Ok ((λ i, be_value (slice (be_bytes 32 value) (28 - 4 * i) (32 - 4 * i))) <$> seq 0 8).

Record Statement := {
  t_Deposit : bool;
  t_ChainID : Z;
  t_AssetID : Z;
  t_PublicValue : Amount;
  t_GasSponsor : Amount;
  t_Intent : bytes;
  t_Anchor : Digest;
  t_Nullifier : Digest;
  t_Outputs : list Digest;
  t_OneTimeKeys : list Digest;
  t_StampRoot : Digest;
  t_AdditionalNullifiers : list Digest;
  t_InputCount : Z;
}.

(** The loop over the nullifiers of a statement. *)
Fixpoint statementNullifiers (all : list Digest) (i count : Z) (seen : list Digest) : bool :=
  match all with
  | [] => true
  | n :: all =>
      if i <? count then
        if bool_decide (n = zeroDigest) || bool_decide (n ∈ seen) then false else statementNullifiers all (i + 1) count (n :: seen)
      else bool_decide (n = zeroDigest) && statementNullifiers all (i + 1) count seen
  end.

Definition publicWords : nat := 108.

Definition words (s : Statement) : result vError (list Z) :=
  let noRefs := bool_decide (s.(t_Anchor) = zeroDigest) || bool_decide (s.(t_Nullifier) = zeroDigest) in
  let refs := negb (bool_decide (s.(t_Anchor) = zeroDigest)) || negb (bool_decide (s.(t_Nullifier) = zeroDigest)) in
  _ ← fail_if ((s.(t_ChainID) =? 0) || (negb s.(t_Deposit) && noRefs) || (s.(t_Deposit) && refs)) ErrInvalidStatement;
  let ws := [s.(t_ChainID) mod 2 ^ 32; Z.shiftr s.(t_ChainID) 32; s.(t_AssetID) mod 2 ^ 32; Z.shiftr s.(t_AssetID) 32]
            ++ s.(t_PublicValue) ++ ((λ i, be_value (slice s.(t_Intent) (4 * i) (4 * i + 4))) <$> seq 0 16)
            ++ s.(t_Anchor) ++ s.(t_Nullifier) ++ concat s.(t_Outputs) ++ [if s.(t_Deposit) then 1 else 0] ++ s.(t_GasSponsor) ++ s.(t_StampRoot) in
  _ ← fail_if (bool_decide (s.(t_StampRoot) = zeroDigest) || negb (canonical ws)) ErrInvalidStatement;
  let count := if negb s.(t_Deposit) && (s.(t_InputCount) =? 0) then 1 else s.(t_InputCount) in
  _ ← fail_if ((4 <? count) || negb (bool_decide (s.(t_Deposit) = (count =? 0)))) ErrInvalidStatement;
  _ ← fail_if (negb (statementNullifiers (s.(t_Nullifier) :: s.(t_AdditionalNullifiers)) 0 count [])) ErrInvalidStatement;
  let ws := ws ++ concat s.(t_AdditionalNullifiers) ++ [count] ++ concat s.(t_OneTimeKeys) in
  _ ← fail_if (negb (length ws =? publicWords)%nat || negb (canonical ws)) ErrInvalidStatement;
  Ok ws.

Definition wordsV4 (s : Statement) (linkTag : Digest) : result vError (list Z) :=
  base ← words s;
  _ ← (if s.(t_Deposit) then fail_if (negb (bool_decide (linkTag = zeroDigest))) ErrInvalidStatement
       else fail_if (bool_decide (linkTag = zeroDigest) || negb (canonical linkTag)) ErrInvalidStatement);
  let ws := base ++ linkTag in
  _ ← fail_if (negb (length ws =? publicWords + 5)%nat || negb (canonical ws)) ErrInvalidStatement;
  Ok ws.

Definition withCount (s : Statement) (count : Z) : Statement := {|
  t_Deposit := s.(t_Deposit); t_ChainID := s.(t_ChainID); t_AssetID := s.(t_AssetID); t_PublicValue := s.(t_PublicValue);
  t_GasSponsor := s.(t_GasSponsor); t_Intent := s.(t_Intent); t_Anchor := s.(t_Anchor); t_Nullifier := s.(t_Nullifier); t_Outputs := s.(t_Outputs);
  t_OneTimeKeys := s.(t_OneTimeKeys); t_StampRoot := s.(t_StampRoot); t_AdditionalNullifiers := s.(t_AdditionalNullifiers); t_InputCount := count |}.

Definition shield5PublicWords : nat := 173.

(** The count of a Shield5 statement replaces the capped one at word 87. *)
Definition wordsV5 (s : Statement) (linkTag : Digest) (more : list Digest) : result vError (list Z) :=
  let count := if negb s.(t_Deposit) && (s.(t_InputCount) =? 0) then 1 else s.(t_InputCount) in
  _ ← fail_if ((16 <? count) || negb (bool_decide (s.(t_Deposit) = (count =? 0)))) ErrInvalidStatement;
  v4 ← wordsV4 (withCount s (Z.min count 4)) linkTag;
  let all := s.(t_Nullifier) :: s.(t_AdditionalNullifiers) ++ more in
  _ ← fail_if (negb (statementNullifiers all 0 count []) || negb (forallb canonical (take (Z.to_nat count) all))) ErrInvalidStatement;
  let ws := <[87%nat := count]> v4 ++ concat (drop 4 all) in
  _ ← fail_if (negb (length ws =? shield5PublicWords)%nat || negb (canonical ws)) ErrInvalidStatement;
  Ok ws.

Definition verifyWith (magic : bytes) (mode : Z) (ws : result vError (list Z)) (proof : bytes) : result vError unit :=
  ws ← ws;
  _ ← fail_if (negb (validProof proof)) (ErrText "invalid Shield3 STARK proof");
  match nativeCall mode (appendWords magic ws ++ proof) 3 with
  | None => Err (ErrText "native")
  | Some out => fail_if (negb (bool_decide (out = [79; 75; 10]))) (ErrText "invalid Shield3 STARK proof")
  end.

Definition Verify (s : Statement) (proof : bytes) : result vError unit := verifyWith (str "TKMS3STK") 1 (words s) proof.
Definition VerifyV4 (s : Statement) (linkTag : Digest) (proof : bytes) : result vError unit :=
  verifyWith (str "TKMS4STK") 8 (wordsV4 s linkTag) proof.
Definition VerifyV5 (s : Statement) (linkTag : Digest) (more : list Digest) (proof : bytes) : result vError unit :=
  verifyWith (str "TKMS5STK") 13 (wordsV5 s linkTag more) proof.

Fixpoint oneTimeKeys (outputs : list ShieldedV3Output) : result vError (list Digest) :=
  match outputs with
  | [] => Ok []
  | o :: outputs => key ← DigestFromBytes (default [] o.(so_OneTimeKey)); keys ← oneTimeKeys outputs; Ok (key :: keys)
  end.

(** The statement of an envelope, given its intent and its input count. *)
Definition statementOf (tx : stx) (e : ShieldedV3Transaction) (intent : result vError bytes) (inputCount : Z) : result vError Statement :=
  _ ← fail_if (negb (tx.(sx_tx).(vt_ChainId) <? two64)) ErrInvalidShieldedTx;
  let value := if e.(s3_Deposit) then tx.(sx_tx).(vt_Value) else e.(s3_WithdrawalValue) + e.(s3_GasSponsorValue) in
  amount ← AmountFromBig value;
  intent ← intent;
  sponsor ← AmountFromBig e.(s3_GasSponsorValue);
  keys ← oneTimeKeys e.(s3_Outputs);
  Ok {| t_Deposit := e.(s3_Deposit); t_ChainID := tx.(sx_tx).(vt_ChainId); t_AssetID := shieldedV3AssetID e; t_PublicValue := amount;
        t_GasSponsor := sponsor; t_Intent := intent; t_Anchor := e.(s3_Anchor); t_Nullifier := e.(s3_Nullifier);
        t_Outputs := so_Commitment <$> e.(s3_Outputs); t_OneTimeKeys := keys; t_StampRoot := e.(s3_StampRoot);
        t_AdditionalNullifiers := e.(s3_AdditionalNullifiers); t_InputCount := inputCount mod 2 ^ 32 |}.

Definition ShieldedV3Statement (tx : stx) (e : ShieldedV3Transaction) : result vError Statement :=
  _ ← fail_if (negb (IsSupportedAsset e.(s3_AssetID))) ErrInvalidShieldedTx;
  statementOf tx e (ShieldedV3Intent tx e) e.(s3_InputCount).

Definition spendCount (e : ShieldedV3Transaction) : Z := if negb e.(s3_Deposit) && (e.(s3_InputCount) =? 0) then 1 else e.(s3_InputCount).

Definition ShieldedV4Statement (tx : stx) (e : ShieldedV4Transaction) : result vError (Statement * Digest) :=
  _ ← fail_if (negb (IsSupportedAsset e.(s4_base).(s3_AssetID))) ErrInvalidShieldedTx;
  _ ← fail_if (4 <? spendCount e.(s4_base)) ErrInvalidShieldedTx;
  s ← statementOf tx e.(s4_base) (ShieldedV4Intent tx e) (spendCount e.(s4_base));
  Ok (s, e.(s4_LinkTag)).

Definition ShieldedV5Statement (tx : stx) (e : ShieldedV5Transaction) : result vError (Statement * Digest * list Digest) :=
  let b := e.(s5_base).(s4_base) in
  _ ← fail_if (16 <? spendCount b) ErrInvalidShieldedTx;
  s ← statementOf tx b (ShieldedV5Intent tx e) (spendCount b);
  Ok (s, e.(s5_base).(s4_LinkTag), e.(s5_AdditionalNullifiersV5)).

(** ** Checks without state *)

Definition ShieldedV3OutputContext (chainID : Z) (purpose : ShieldedV3Purpose) (d : Digest) : ShieldedV3Context :=
  {| cx_ChainID := chainID; cx_Purpose := purpose; cx_Commitment := sha512 (str "TKM_SHIELD3_NOTE_ENCRYPTION_CONTEXT_V1" ++ Digest_Bytes d) |}.

Definition validateV3Ciphertext (data : bytes) (ctx : ShieldedV3Context) : bool :=
  match ValidateShieldedV3CiphertextContext data ctx with Ok _ => true | Err _ => false end.

(** The loop over the outputs: commitments and one-time keys are canonical, not zero and distinct, every record is framed for its role. *)
Fixpoint outputLoop (chainID : Z) (outputs : list ShieldedV3Output) (seen : list Digest) (seenOneTime : list bytes) : bool :=
  match outputs with
  | [] => true
  | out :: outputs =>
      let key := default [] out.(so_OneTimeKey) in
      if bool_decide (out.(so_Commitment) = zeroDigest) || bool_decide (out.(so_Commitment) ∈ seen) then false
      else if negb (length key =? 40)%nat || bool_decide (key = replicate 40 0) || bool_decide (key ∈ seenOneTime) then false
      else if negb (is_ok (DigestFromBytes (Digest_Bytes out.(so_Commitment)))) || negb (is_ok (DigestFromBytes key)) then false
      else if forallb (λ '(data, role), validateV3Ciphertext data (ShieldedV3OutputContext chainID role out.(so_Commitment)))
                [(out.(so_Incoming), ShieldedV3Incoming); (out.(so_Outgoing), ShieldedV3Outgoing); (out.(so_Stamp), ShieldedV3Stamp)]
      then outputLoop chainID outputs (out.(so_Commitment) :: seen) (key :: seenOneTime)
      else false
  end.

Definition sameChain (config : ChainConfig.ChainConfig) (tx : stx) : bool :=
  match config.(ChainConfig.ChainID) with Some c => tx.(sx_tx).(vt_ChainId) =? c | None => false end.
Definition configChain (config : ChainConfig.ChainConfig) : Z := default 0 config.(ChainConfig.ChainID).

(** [tx.Gas * tx.GasFeeCap] *)
Definition gasCost (tx : stx) : Z := tx.(sx_Gas) * tx.(sx_GasFeeCap).

(** The rules on public values and references that Shield3, Shield4 and Shield5 share, from the
    asset to the sponsor. *)
Definition valueRules (config : ChainConfig.ChainConfig) (number time : Z) (tx : stx) (e : ShieldedV3Transaction) : result vError unit :=
  _ ← fail_if (negb (IsSupportedAsset e.(s3_AssetID))) ErrInvalidShieldedTx;
  _ ← fail_if ((e.(s3_WithdrawalValue) <? 0) || (e.(s3_GasSponsorValue) <? 0)) ErrInvalidShieldedTx;
  _ ← validateConfidentialLedgerShape config number time tx e.(s3_Deposit) e.(s3_GasSponsorValue) e.(s3_FeeMode) (shieldedV3AssetID e);
  ValidateShieldedV3Time e time.

Definition relayRule (config : ChainConfig.ChainConfig) (number time : Z) (tx : stx) (e : ShieldedV3Transaction) : bool :=
  e.(s3_Relayed) && negb (ChainConfig.IsShieldedOnly config number time) && negb (ChainConfig.IsConfidentialLedger config number time)
  && negb (e.(s3_GasSponsorValue) =? gasCost tx).

Definition withdrawalRule (e : ShieldedV3Transaction) : bool :=
  (MaxSendWei <? e.(s3_WithdrawalValue)) || negb (bool_decide ((0 <? e.(s3_WithdrawalValue)) = negb (e.(s3_WithdrawalRecipient) =? 0))).

(** A deposit refers to no note and releases nothing; a spend carries no value. *)
Definition shapeRule (tx : stx) (e : ShieldedV3Transaction) (linkTag : option Digest) : bool :=
  let isZero d := bool_decide (d = zeroDigest) in
  let value := tx.(sx_tx).(vt_Value) in
  if e.(s3_Deposit) then
    (value <=? 0) || (MaxSendWei <? value) || negb (e.(s3_WithdrawalValue) + e.(s3_GasSponsorValue) =? 0)
    || negb (isZero e.(s3_Anchor)) || negb (isZero e.(s3_Nullifier)) || match linkTag with Some t => negb (isZero t) | None => false end
  else
    negb (value =? 0) || isZero e.(s3_Anchor) || isZero e.(s3_Nullifier) || match linkTag with Some t => isZero t | None => false end.

Definition sponsorRule (tx : stx) (e : ShieldedV3Transaction) : bool :=
  (gasCost tx <? e.(s3_GasSponsorValue)) || ((shieldedV3AssetID e =? AssetPTKM) && negb (e.(s3_GasSponsorValue) =? 0)).

Definition shieldedV3Basics (config : ChainConfig.ChainConfig) (number time : Z) (tx : stx) : result vError ShieldedV3Transaction :=
  _ ← ValidateShieldedOnlyTransaction config number time tx.(sx_tx);
  _ ← fail_if (negb (ChainConfig.IsAntartical config number time) || negb (ChainConfig.IsPrivacyCommitments config number time)) ErrInvalidShieldedTx;
  _ ← fail_if (negb (toPool tx.(sx_tx).(vt_Type) tx.(sx_tx).(vt_To))) ErrInvalidShieldedTx;
  _ ← fail_if (negb (sameChain config tx) || negb (bool_decide (is_u64 (configChain config)))) ErrInvalidShieldedTx;
  e ← DecodeShieldedV3Transaction tx.(sx_tx).(vt_Data);
  match e with
  | None => Err ErrInvalidShieldedTx
  | Some e =>
      _ ← fail_if (negb (e.(s3_Version) =? 3)) ErrInvalidShieldedTx;
      _ ← valueRules config number time tx e;
      _ ← fail_if (negb (is_ok (ShieldedV3Nullifiers e))) ErrInvalidShieldedTx;
      _ ← fail_if (relayRule config number time tx e) ErrInvalidShieldedTx;
      _ ← fail_if (withdrawalRule e) ErrInvalidShieldedTx;
      _ ← fail_if (shapeRule tx e None) ErrInvalidShieldedTx;
      _ ← fail_if (negb (forallb (λ d, is_ok (DigestFromBytes (Digest_Bytes d))) [e.(s3_Anchor); e.(s3_Nullifier)])) ErrInvalidShieldedTx;
      _ ← fail_if (sponsorRule tx e) ErrInvalidShieldedTx;
      _ ← fail_if (negb (outputLoop (configChain config) e.(s3_Outputs) [] [])) ErrInvalidShieldedTx;
      _ ← fail_if (negb (validProof e.(s3_Proof))) ErrInvalidShieldedTx;
      Ok e
  end.

Definition shieldedV4Basics (config : ChainConfig.ChainConfig) (number time : Z) (tx : stx) : result vError ShieldedV4Transaction :=
  _ ← ValidateShieldedOnlyTransaction config number time tx.(sx_tx);
  _ ← fail_if (negb (ChainConfig.IsAntartical config number time) || negb (ChainConfig.IsPrivacyCommitments config number time)) ErrInvalidShieldedTx;
  _ ← fail_if (negb (toPool tx.(sx_tx).(vt_Type) tx.(sx_tx).(vt_To))) ErrInvalidShieldedTx;
  _ ← fail_if (negb (sameChain config tx) || negb (bool_decide (is_u64 (configChain config)))) ErrInvalidShieldedTx;
  e ← DecodeShieldedV4Transaction tx.(sx_tx).(vt_Data);
  match e with
  | None => Err ErrInvalidShieldedTx
  | Some e =>
      let b := e.(s4_base) in
      _ ← fail_if (negb (b.(s3_Version) =? 4)) ErrInvalidShieldedTx;
      _ ← valueRules config number time tx b;
      _ ← fail_if (negb (is_ok (ShieldedV4Nullifiers e))) ErrInvalidShieldedTx;
      _ ← fail_if (relayRule config number time tx b) ErrInvalidShieldedTx;
      _ ← fail_if (withdrawalRule b) ErrInvalidShieldedTx;
      _ ← fail_if (shapeRule tx b (Some e.(s4_LinkTag))) ErrInvalidShieldedTx;
      _ ← fail_if (negb (forallb (λ d, is_ok (DigestFromBytes (Digest_Bytes d))) [b.(s3_Anchor); b.(s3_Nullifier); b.(s3_StampRoot); e.(s4_LinkTag)]))
            ErrInvalidShieldedTx;
      _ ← fail_if (sponsorRule tx b) ErrInvalidShieldedTx;
      _ ← fail_if (negb (outputLoop (configChain config) b.(s3_Outputs) [] [])) ErrInvalidShieldedTx;
      _ ← fail_if (negb (validProof b.(s3_Proof))) ErrInvalidShieldedTx;
      Ok e
  end.

(** The fields a Shield5 envelope shares with Shield4, its count capped. *)
Definition shieldedV5AsV4 (e : ShieldedV5Transaction) : ShieldedV4Transaction :=
  let b := e.(s5_base).(s4_base) in
  {| s4_base := {|
       s3_Version := 4; s3_Deposit := b.(s3_Deposit); s3_Anchor := b.(s3_Anchor); s3_Nullifier := b.(s3_Nullifier);
       s3_StampRoot := b.(s3_StampRoot); s3_Outputs := b.(s3_Outputs); s3_WithdrawalRecipient := b.(s3_WithdrawalRecipient);
       s3_WithdrawalValue := b.(s3_WithdrawalValue); s3_GasSponsorValue := b.(s3_GasSponsorValue); s3_Proof := b.(s3_Proof);
       s3_AdditionalNullifiers := b.(s3_AdditionalNullifiers); s3_InputCount := Z.min b.(s3_InputCount) 4; s3_Relayed := b.(s3_Relayed);
       s3_ValidUntil := b.(s3_ValidUntil); s3_AssetID := b.(s3_AssetID); s3_FeeMode := b.(s3_FeeMode) |};
     s4_LinkTag := e.(s5_base).(s4_LinkTag) |}.

Definition shieldedV5Basics (config : ChainConfig.ChainConfig) (number time : Z) (tx : stx) : result vError ShieldedV5Transaction :=
  _ ← fail_if (negb (ChainConfig.IsShield5 config number time)) ErrInvalidShieldedTx;
  e ← DecodeShieldedV5Transaction tx.(sx_tx).(vt_Data);
  match e with
  | None => Err ErrInvalidShieldedTx
  | Some e =>
      let b := e.(s5_base).(s4_base) in
      _ ← fail_if (negb (b.(s3_Version) =? 5)) ErrInvalidShieldedTx;
      _ ← fail_if (negb (is_ok (ShieldedV5Nullifiers e))) ErrInvalidShieldedTx;
      _ ← ValidateShieldedOnlyTransaction config number time tx.(sx_tx);
      _ ← fail_if (negb (toPool tx.(sx_tx).(vt_Type) tx.(sx_tx).(vt_To)) || negb (sameChain config tx)) ErrInvalidShieldedTx;
      _ ← valueRules config number time tx (shieldedV5AsV4 e).(s4_base);
      _ ← fail_if (gasCost tx <? b.(s3_GasSponsorValue)) ErrInvalidShieldedTx;
      _ ← fail_if (relayRule config number time tx b) ErrInvalidShieldedTx;
      _ ← fail_if (withdrawalRule b) ErrInvalidShieldedTx;
      _ ← fail_if (shapeRule tx b (Some e.(s5_base).(s4_LinkTag))) ErrInvalidShieldedTx;
      _ ← fail_if (sponsorRule tx b) ErrInvalidShieldedTx;
      _ ← fail_if (negb (outputLoop (configChain config mod two64) b.(s3_Outputs) [] [])) ErrInvalidShieldedTx;
      _ ← fail_if (negb (validProof b.(s3_Proof))) ErrInvalidShieldedTx;
      Ok e
  end.

(** ** Checks against the state *)

Context {U : Uint256} {S : Type} {W : WorldState S}.

Definition ShieldedV4StateSlot (role data : bytes) : hash := BytesToHash (sha512 ((str "TKM_SHIELD4_STATE_V1/" ++ role ++ str "/") ++ data)).

(** The slot of a link tag, in storage or in the block, by asset. *)
Definition linkSlot (assetID : Z) (prefix : bytes) (tag : Digest) : hash :=
  if NormalizeAssetID assetID =? AssetTKM then ShieldedV4StateSlot (prefix ++ str "link-tag") (Digest_Bytes tag)
  else ShieldedV3StateSlotForAsset assetID (str "shield4/" ++ prefix ++ str "link-tag") (Digest_Bytes tag).

Definition shieldedV4LinkTagTransactionForAsset (st : S) (assetID : Z) (tag : Digest) : hash :=
  GetState st ShieldedPoolAddress (linkSlot assetID [] tag).

(** [validateShieldedV3State] and [validateShieldedV4State]; a Shield3 envelope has no link tag. *)
Definition spendState (st : S) (tx : stx) (e : ShieldedV3Transaction) (linkTag : option Digest) : result voteError unit :=
  let assetID := shieldedV3AssetID e in
  _ ← fail_if (negb (GetCodeSize st ShieldedPoolAddress =? 0)) (ErrVote ErrInvalidShieldedTx);
  _ ← fail_if (bool_decide (e.(s3_StampRoot) = zeroDigest) || (getSlot st (str "stamp/root") (Digest_Bytes e.(s3_StampRoot)) =? zeroHash))
        (ErrVote ErrInvalidShieldedTx);
  _ ← fail_if ((0 <? e.(s3_WithdrawalValue)) && negb (IsAntarticalStamped st e.(s3_WithdrawalRecipient))) ErrUnstampedAddress;
  nullifiers ← lift (ShieldedV3Nullifiers e);
  _ ← (if e.(s3_Deposit) then Ok ()
       else
         _ ← fail_if (existsb (λ n, negb (ShieldedV3NullifierTransactionForAsset st assetID n =? zeroHash)) nullifiers) (ErrVote ErrInvalidShieldedTx);
         _ ← fail_if (match linkTag with Some t => negb (shieldedV4LinkTagTransactionForAsset st assetID t =? zeroHash) | None => false end)
               (ErrVote ErrInvalidShieldedTx);
         fail_if (getSlot st (str "root") (Digest_Bytes e.(s3_Anchor)) =? zeroHash) (ErrVote ErrInvalidShieldedTx));
  _ ← fail_if (existsb (λ o, negb (getAsset st assetID (str "commitment") (Digest_Bytes o.(so_Commitment)) =? zeroHash)) e.(s3_Outputs))
        (ErrVote ErrInvalidShieldedTx);
  _ ← (if assetID =? AssetPTKM then
         let supply := shieldedV3AssetSupply st assetID in
         _ ← fail_if (GetBalance st ShieldedPoolAddress <? supply) (ErrVote ErrInvalidShieldedTx);
         if e.(s3_Deposit) then fail_if (two256 <=? supply + tx.(sx_tx).(vt_Value)) (ErrVote ErrInvalidShieldedTx)
         else fail_if (supply <? e.(s3_WithdrawalValue)) (ErrVote ErrInvalidShieldedTx)
       else Ok ());
  let release := e.(s3_WithdrawalValue) + e.(s3_GasSponsorValue) in
  _ ← fail_if ((two256 <=? release) || (shieldedV3SpendablePoolReserve st assetID <? release)) (ErrVote ErrInvalidShieldedTx);
  fail_if (2 ^ 32 - 3 <=? ShieldedV3NextIndex st) (ErrVote ErrInvalidShieldedTx).

Definition validateShieldedV3State (st : S) (tx : stx) (e : ShieldedV3Transaction) : result voteError unit := spendState st tx e None.
Definition validateShieldedV4State (st : S) (tx : stx) (e : ShieldedV4Transaction) : result voteError unit :=
  spendState st tx e.(s4_base) (Some e.(s4_LinkTag)).
Definition validateShieldedV5State (st : S) (tx : stx) (e : ShieldedV5Transaction) : result voteError unit :=
  let shared := shieldedV5AsV4 e in
  _ ← validateShieldedV4State st tx shared;
  all ← lift (ShieldedV5Nullifiers e);
  fail_if (existsb (λ n, negb (ShieldedV3NullifierTransactionForAsset st (shieldedV3AssetID shared.(s4_base)) n =? zeroHash)) (drop 4 all))
    (ErrVote ErrInvalidShieldedTx).

(** ** Effects *)

(** The loop over the outputs; an error makes the caller restore the snapshot. *)
Fixpoint appendOutputs (st : S) (assetID : Z) (outputs : list ShieldedV3Output) (txHash : hash) : option vError * S :=
  match outputs with
  | [] => (None, st)
  | o :: outputs =>
      match appendShieldedV3Leaf st o.(so_Commitment) txHash with
      | (Some err, st) => (Some err, st)
      | (None, st) => appendOutputs (setAsset st assetID (str "commitment") (Digest_Bytes o.(so_Commitment)) txHash) assetID outputs txHash
      end
  end.

Definition blockNullifier (assetID : Z) (n : Digest) : hash := ShieldedV3StateSlotForAsset assetID (str "block-nullifier") (Digest_Bytes n).

(** The payments out of the pool. *)
Definition release (st : S) (to : address) (value : Z) : S :=
  if 0 <? value then AddBalance (SubBalance st ShieldedPoolAddress value) to value else st.

(** From the first write to the last: nullifiers, supply of the wrapped asset, link tag, ledger, prepaid fee, releases. *)
Definition applySpend (st : S) (tx : stx) (e : ShieldedV3Transaction) (nullifiers : list Digest) (linkTag : option Digest)
    (ledger : option ConfidentialLedgerTotals) (sender : address) : S :=
  let assetID := shieldedV3AssetID e in
  let txHash := tx.(sx_tx).(vt_Hash) in
  let st := foldl (λ st n, setAsset st assetID (str "nullifier") (Digest_Bytes n) txHash) st nullifiers in
  let st := if assetID =? AssetPTKM then
              let supply := shieldedV3AssetSupply st assetID in
              setShieldedV3AssetSupply st assetID (if e.(s3_Deposit) then supply + tx.(sx_tx).(vt_Value) else supply - e.(s3_WithdrawalValue))
            else st in
  let st := match linkTag with
            | Some t => if e.(s3_Deposit) then st else SetState st ShieldedPoolAddress (linkSlot assetID [] t) txHash
            | None => st
            end in
  let '(st, publicSponsor) :=
    match ledger with
    | Some l =>
        let st := commitLedger st assetID l in
        if e.(s3_FeeMode) =? ShieldedFeePrepaid then (burnConfidentialFee st txHash e.(s3_GasSponsorValue), 0) else (st, e.(s3_GasSponsorValue))
    | None => (st, e.(s3_GasSponsorValue))
    end in
  let st := release st e.(s3_WithdrawalRecipient) e.(s3_WithdrawalValue) in
  release st sender publicSponsor.

(** The part behind the checks: duplicates in the block, the ledger, the proof, the sender, the writes. *)
Definition spend (config : ChainConfig.ChainConfig) (number time : Z) (st : S) (tx : stx) (seen : gset hash) (e : ShieldedV3Transaction)
    (nullifiers : list Digest) (linkTag : option Digest) (proved : result vError unit) : option voteError * S * gset hash :=
  let assetID := shieldedV3AssetID e in
  let linkKey := match linkTag with Some t => [linkSlot assetID (str "block-") t] | None => [] end in
  if existsb (λ k, bool_decide (k ∈ seen)) ((blockNullifier assetID <$> nullifiers) ++ linkKey) then (Some (ErrVote ErrInvalidShieldedTx), st, seen)
  else
    match (if ChainConfig.IsConfidentialLedger config number time
           then l ← ledgerTransition st assetID (if e.(s3_Deposit) then tx.(sx_tx).(vt_Value) else 0) e.(s3_WithdrawalValue) e.(s3_GasSponsorValue);
                Ok (Some l)
           else Ok None) with
    | Err err => (Some (ErrVote err), st, seen)
    | Ok ledger =>
        match proved with
        | Err err => (Some (ErrVote err), st, seen)
        | Ok _ =>
            match Sender config number time tx.(sx_tx) with
            | None => (Some (ErrVote ErrSender), st, seen)
            | Some sender =>
                match appendOutputs st assetID e.(s3_Outputs) tx.(sx_tx).(vt_Hash) with
                | (Some err, _) => (Some (ErrVote err), st, seen)
                | (None, st) =>
                    (None, applySpend st tx e nullifiers linkTag ledger sender,
                     seen ∪ list_to_set ((blockNullifier assetID <$> nullifiers) ++ (if e.(s3_Deposit) then [] else linkKey)))
                end
            end
        end
    end.

Definition processShieldedV3 (config : ChainConfig.ChainConfig) (number time : Z) (st : S) (tx : stx) (seen : gset hash) : option voteError * S * gset hash :=
  match (e ← lift (shieldedV3Basics config number time tx);
         _ ← validateShieldedV3State st tx e;
         nullifiers ← lift (ShieldedV3Nullifiers e);
         Ok (e, nullifiers)) with
  | Err err => (Some err, st, seen)
  | Ok (e, nullifiers) =>
      spend config number time st tx seen e nullifiers None (s ← ShieldedV3Statement tx e; Verify s e.(s3_Proof))
  end.

Definition processShieldedV4 (config : ChainConfig.ChainConfig) (number time : Z) (st : S) (tx : stx) (seen : gset hash) : option voteError * S * gset hash :=
  match (e ← lift (shieldedV4Basics config number time tx);
         _ ← validateShieldedV4State st tx e;
         nullifiers ← lift (ShieldedV4Nullifiers e);
         Ok (e, nullifiers)) with
  | Err err => (Some err, st, seen)
  | Ok (e, nullifiers) =>
      spend config number time st tx seen e.(s4_base) nullifiers (Some e.(s4_LinkTag))
        ('(s, tag) ← ShieldedV4Statement tx e; VerifyV4 s tag e.(s4_base).(s3_Proof))
  end.

Definition processShieldedV5 (config : ChainConfig.ChainConfig) (number time : Z) (st : S) (tx : stx) (seen : gset hash) : option voteError * S * gset hash :=
  match (e ← lift (shieldedV5Basics config number time tx);
         from ← match Sender config number time tx.(sx_tx) with Some a => Ok a | None => Err (ErrVote ErrSender) end;
         _ ← ValidateAntarticalStampState st from tx.(sx_tx).(vt_To) tx.(sx_tx).(vt_Value) tx.(sx_tx).(vt_Data);
         _ ← validateShieldedV5State st tx e;
         nullifiers ← lift (ShieldedV5Nullifiers e);
         Ok (e, nullifiers)) with
  | Err err => (Some err, st, seen)
  | Ok (e, nullifiers) =>
      spend config number time st tx seen e.(s5_base).(s4_base) nullifiers (Some e.(s5_base).(s4_LinkTag))
        ('(s, tag, more) ← ShieldedV5Statement tx e; VerifyV5 s tag more e.(s5_base).(s4_base).(s3_Proof))
  end.

End Spend.
End ShieldedSpend.
