(* ===== verification/Shielded6.v ===== *)
(** * Shield6: ring signatures over an output accumulator

    [core/shielded_v6.go], [core/shielded_v6_state.go], [core/shielded_v6_recipient.go]
    and [core/shielded_v6_recipient_state.go]: outputs are appended to a Merkle
    accumulator of which only the frontier is stored; an input names a ring of sixteen
    outputs and a key image, which may be recorded once.

    The arithmetic on curve points (decoding, CLSAG, range proofs, commitment
    equations) and the Groth16 verifiers of the recipient relation are the class
    [Shield6Crypto]. *)

From S2P Require Import Prelude Bytes RLPTypes State ChainConfig ValidatorRegistry ShieldedTree Stamps AddressVotes ShieldedEnvelopes Ledger ShieldedOnly ShieldedSpend.
Import RLPTypes ValidatorRegistry ShieldedTree Stamps AddressVotes ShieldedEnvelopes Ledger ShieldedOnly ShieldedSpend.

Module Shielded6.

Definition ShieldedV6OutputTreeDepth : nat := 32.
Definition ShieldedV6MaxLifetime : Z := 3600.

(** [shielded6.RingMember]: one-time key and commitment. *)
Definition RingMember := (bytes * bytes)%type.

(** What the recipient relation proves about an output. *)
Record RecipientStatement := {
  rs_ChainID : Z;
  rs_AssetID : Z;
  rs_OutputPosition : Z;
  rs_Roots : ShieldedV6RecipientRoots;
  rs_Intent : bytes;
  rs_Output : ShieldedV6Output;
}.

Class Shield6Crypto := {
  decodePoint : bytes → bool → bool; (** a point, the identity only if allowed *)
  decodeScalar : bytes → bool;
  clsagVerify : bytes → list RingMember → bytes → bytes → bytes → bool; (** message, ring, key image, pseudo-output, signature *)
  VerifyRangeProof128 : list (bytes * list bytes) → bytes → bool;
  VerifyDepositCommitment : list bytes → Z → bytes → bool;
  VerifyCommitmentBalance128 : list bytes → list bytes → Z → bool;
  recipientKey : bytes → bool; (** the verification key is well formed *)
  recipientVerify : bytes → RecipientStatement → bytes → bool;
  registrationVerify : bytes → Z → Digest → Digest → bytes → bytes → bool;
}.

Section Shield6.
Context {X : Externals} {N : Native} {C : Shield6Crypto}.

Definition ValidatePublicKey (encoded : bytes) : bool := decodePoint encoded false.
Definition ValidateCommitmentEncoding (encoded : bytes) : bool := decodePoint encoded false.

(** ** Intent *)

Definition blankInput (i : ShieldedV6Input) : ShieldedV6Input :=
  {| i6_RingIndices := i.(i6_RingIndices); i6_KeyImage := replicate PointSize 0; i6_PseudoOutput := replicate PointSize 0;
     i6_Signature := replicate CLSAGSize 0 |}.

Definition shieldedV6IntentEnvelope (e : ShieldedV6Transaction) : ShieldedV6Transaction := {|
  s6_Version := e.(s6_Version); s6_AssetID := e.(s6_AssetID); s6_Deposit := e.(s6_Deposit); s6_DepositMask := e.(s6_DepositMask);
  s6_WithdrawalRecipient := e.(s6_WithdrawalRecipient); s6_WithdrawalValue := e.(s6_WithdrawalValue);
  s6_Inputs := blankInput <$> e.(s6_Inputs); s6_Outputs := e.(s6_Outputs); s6_RangeProof := e.(s6_RangeProof);
  s6_Recipients := option_map (λ r, {| rp_Roots := r.(rp_Roots); rp_Proofs := [] |}) e.(s6_Recipients);
  s6_Binding := option_map (λ b, {| br_Owner := b.(br_Owner); br_Commitment := b.(br_Commitment); br_Proof := [] |}) e.(s6_Binding);
  s6_ValidUntil := e.(s6_ValidUntil) |}.

Definition ShieldedV6Intent (tx : stx) (e : ShieldedV6Transaction) : result vError bytes :=
  data ← EncodeShieldedV6Transaction (shieldedV6IntentEnvelope e);
  match EncodeValue intentType (intentVal (str "TKM_SHIELD6_CLSAG_RINGCT_INTENT_V1") tx data) with
  | None => Err ErrEncode
  | Some encoded => Ok (keccak encoded)
  end.

(** ** Recipient proofs *)

Definition ValidateShieldedV6Time (e : ShieldedV6Transaction) (time : Z) : result vError unit :=
  if e.(s6_Version) =? 6 then fail_if (negb (e.(s6_ValidUntil) =? 0)) ErrInvalidShieldedTx
  else
    fail_if ((negb (e.(s6_Version) =? ShieldedV6BoundVersion) && negb (e.(s6_Version) =? ShieldedV6BindingVersion))
             || (e.(s6_ValidUntil) <=? time) || (ShieldedV6MaxLifetime <? e.(s6_ValidUntil) - time)) ErrInvalidShieldedTx.

Definition validateShieldedV6BindingBasics (tx : stx) (e : ShieldedV6Transaction) : result vError ShieldedV6BindingRegistration :=
  let chain := tx.(sx_tx).(vt_ChainId) in
  _ ← fail_if (negb (validShieldedV6BindingShape e) || (e.(s6_ValidUntil) =? 0) || negb (tx.(sx_tx).(vt_Value) =? 0) || negb (bool_decide (is_u64 chain))
               || (chain =? 0)) ErrInvalidShieldedTx;
  match e.(s6_Binding) with
  | None => Err ErrInvalidShieldedTx
  | Some b =>
      _ ← fail_if (negb (is_ok (DigestFromBytes (Digest_Bytes b.(br_Commitment)))) || bool_decide (b.(br_Commitment) = zeroDigest)) ErrInvalidShieldedTx;
      _ ← fail_if (negb (is_ok (DigestFromBytes (Digest_Bytes b.(br_Owner)))) || bool_decide (b.(br_Owner) = zeroDigest) || (length b.(br_Proof) =? 0)%nat
                   || (ShieldedV6MaxRecipientProof <? Z.of_nat (length b.(br_Proof)))) ErrInvalidShieldedTx;
      Ok b
  end.

(** [shieldedV6PinnedVerifier]; its cache holds a key that was checked before. *)
Definition MaxVerifyingKeyBytes : Z := 64 * 1024.
Definition shieldedV6PinnedVerifier (encoded : bytes) (pin : hash) : result vError bytes :=
  _ ← fail_if ((length encoded =? 0)%nat || (MaxVerifyingKeyBytes <? Z.of_nat (length encoded)) || (pin =? zeroHash)
               || negb (be_value (sha256 encoded) =? pin)) ErrInvalidShieldedTx;
  _ ← fail_if (negb (recipientKey encoded)) (ErrText "recipient relation: invalid verification key");
  Ok encoded.

Definition ValidateShieldedV6RegistrationProof (config : ChainConfig.ChainConfig) (tx : stx) (e : ShieldedV6Transaction) : result vError unit :=
  b ← validateShieldedV6BindingBasics tx e;
  verifier ← shieldedV6PinnedVerifier config.(ChainConfig.Shield6RegistrationKey) config.(ChainConfig.Shield6RegistrationKeyHash);
  intent ← ShieldedV6Intent tx e;
  fail_if (negb (registrationVerify verifier tx.(sx_tx).(vt_ChainId) b.(br_Owner) b.(br_Commitment) intent b.(br_Proof))) ErrInvalidShieldedTx.

Definition ShieldedV6RecipientStatement (tx : stx) (e : ShieldedV6Transaction) (index : nat) (roots : ShieldedV6RecipientRoots)
    (output : ShieldedV6Output) : result vError RecipientStatement :=
  _ ← fail_if (negb (bool_decide (is_u64 tx.(sx_tx).(vt_ChainId)))) ErrInvalidShieldedTx;
  intent ← ShieldedV6Intent tx e;
  Ok {| rs_ChainID := tx.(sx_tx).(vt_ChainId); rs_AssetID := e.(s6_AssetID); rs_OutputPosition := Z.of_nat index; rs_Roots := roots; rs_Intent := intent;
        rs_Output := output |}.

(** The loop over the proofs. *)
Fixpoint recipientLoop (tx : stx) (e : ShieldedV6Transaction) (verifier : bytes) (index : nat) (proofs : list bytes)
    (roots : list ShieldedV6RecipientRoots) (outputs : list ShieldedV6Output) : result vError unit :=
  match proofs, roots, outputs with
  | proof :: proofs, r :: roots, o :: outputs =>
      _ ← fail_if ((length proof =? 0)%nat || (ShieldedV6MaxRecipientProof <? Z.of_nat (length proof))) ErrInvalidShieldedTx;
      s ← ShieldedV6RecipientStatement tx e index r o;
      _ ← fail_if (negb (recipientVerify verifier s proof)) ErrInvalidShieldedTx;
      recipientLoop tx e verifier (Datatypes.S index) proofs roots outputs
  | _, _, _ => Ok ()
  end.

Definition ValidateShieldedV6RecipientProof (config : ChainConfig.ChainConfig) (tx : stx) (e : ShieldedV6Transaction) : result vError unit :=
  _ ← fail_if (negb (e.(s6_Version) =? ShieldedV6BoundVersion)) ErrInvalidShieldedTx;
  match e.(s6_Recipients) with
  | None => Err ErrInvalidShieldedTx
  | Some r =>
      _ ← fail_if (negb (length r.(rp_Proofs) =? length e.(s6_Outputs))%nat || negb (length r.(rp_Roots) =? length e.(s6_Outputs))%nat) ErrInvalidShieldedTx;
      verifier ← shieldedV6PinnedVerifier config.(ChainConfig.Shield6RecipientKey) config.(ChainConfig.Shield6RecipientKeyHash);
      recipientLoop tx e verifier 0 r.(rp_Proofs) r.(rp_Roots) e.(s6_Outputs)
  end.

(** ** Checks without state *)

Fixpoint distinctZ (l : list Z) : bool := match l with [] => true | x :: l => negb (bool_decide (x ∈ l)) && distinctZ l end.

Fixpoint inputLoop (inputs : list ShieldedV6Input) (seen : list bytes) : bool :=
  match inputs with
  | [] => true
  | i :: inputs =>
      if bool_decide (i.(i6_KeyImage) = replicate PointSize 0) || bool_decide (i.(i6_PseudoOutput) = replicate PointSize 0)
         || bool_decide (i.(i6_Signature) = replicate CLSAGSize 0) then false
      else if negb (ValidatePublicKey i.(i6_KeyImage)) || negb (ValidateCommitmentEncoding i.(i6_PseudoOutput)) then false
      else if bool_decide (i.(i6_KeyImage) ∈ seen) then false
      else distinctZ i.(i6_RingIndices) && inputLoop inputs (i.(i6_KeyImage) :: seen)
  end.

Fixpoint output6Loop (outputs : list ShieldedV6Output) (seen : list bytes) : bool :=
  match outputs with
  | [] => true
  | o :: outputs =>
      if bool_decide (o.(o6_OneTimeKey) = replicate PointSize 0) || bool_decide (o.(o6_EphemeralKey) = replicate PointSize 0)
         || bool_decide (o.(o6_Commitment) = replicate PointSize 0) || (length o.(o6_EncryptedNote) =? 0)%nat
         || (ShieldedV6MaxCiphertext <? Z.of_nat (length o.(o6_EncryptedNote))) then false
      else if negb (ValidatePublicKey o.(o6_OneTimeKey)) || negb (ValidatePublicKey o.(o6_EphemeralKey)) then false
      else if bool_decide (o.(o6_OneTimeKey) ∈ seen) then false
      else output6Loop outputs (o.(o6_OneTimeKey) :: seen)
  end.

(** Deposit, withdrawal or private transfer. *)
Definition boundary6 (tx : stx) (e : ShieldedV6Transaction) : bool :=
  let ins := length e.(s6_Inputs) in
  let outs := length e.(s6_Outputs) in
  let value := tx.(sx_tx).(vt_Value) in
  if e.(s6_Deposit) then
    (0 <? value) && (value <? 2 ^ 128) && (e.(s6_WithdrawalValue) =? 0) && (e.(s6_WithdrawalRecipient) =? 0) && (ins =? 0)%nat && negb (outs =? 0)%nat
    && (outs <=? ShieldedV6MaxOutputs)%nat && decodeScalar e.(s6_DepositMask)
  else
    (value =? 0) && bool_decide (e.(s6_DepositMask) = replicate ScalarSize 0) && negb (ins =? 0)%nat && (ins <=? ShieldedV6MaxInputs)%nat
    && (outs <=? ShieldedV6MaxOutputs)%nat
    && (if 0 <? e.(s6_WithdrawalValue) then negb (e.(s6_WithdrawalRecipient) =? 0) else (e.(s6_WithdrawalRecipient) =? 0) && negb (outs =? 0)%nat).

Definition rangeProofSize (e : ShieldedV6Transaction) : bool :=
  if (length e.(s6_Outputs) =? 0)%nat then (length e.(s6_RangeProof) =? 0)%nat
  else negb (length e.(s6_RangeProof) =? 0)%nat && (Z.of_nat (length e.(s6_RangeProof)) <=? MaxRangeProofBundleSize).

Definition shieldedV6Basics (config : ChainConfig.ChainConfig) (number time : Z) (tx : stx) : result vError ShieldedV6Transaction :=
  _ ← fail_if (negb (ChainConfig.IsShield6 config number time)) ErrInvalidShieldedTx;
  _ ← ValidateShieldedOnlyTransaction config number time tx.(sx_tx);
  _ ← fail_if (negb (toPool tx.(sx_tx).(vt_Type) tx.(sx_tx).(vt_To))) ErrInvalidShieldedTx;
  _ ← fail_if (negb (sameChain config tx)) ErrInvalidShieldedTx;
  e ← DecodeShieldedV6Transaction tx.(sx_tx).(vt_Data);
  match e with
  | None => Err ErrInvalidShieldedTx
  | Some e =>
      let bound := ChainConfig.IsShield6Recipients config number time in
      let registration := bound && (e.(s6_Version) =? ShieldedV6BindingVersion) in
      _ ← (if bound then
             _ ← ValidateShieldedV6Time e time;
             if registration then ValidateShieldedV6RegistrationProof config tx e
             else fail_if (negb (e.(s6_Version) =? ShieldedV6BoundVersion) || match e.(s6_Binding) with Some _ => true | None => false end) ErrInvalidShieldedTx
           else fail_if (negb (e.(s6_Version) =? 6) || match e.(s6_Recipients), e.(s6_Binding) with None, None => false | _, _ => true end
                         || negb (e.(s6_ValidUntil) =? 0)) ErrInvalidShieldedTx);
      if registration then Ok e
      else
        _ ← fail_if (negb (e.(s6_AssetID) =? AssetTKM)) ErrInvalidShieldedTx;
        _ ← fail_if ((e.(s6_WithdrawalValue) <? 0) || (2 ^ 128 <=? e.(s6_WithdrawalValue))) ErrInvalidShieldedTx;
        _ ← fail_if ((e.(s6_Deposit) || (0 <? e.(s6_WithdrawalValue))) && negb (ChainConfig.IsConfidentialLedger config number time)) ErrInvalidShieldedTx;
        _ ← fail_if (negb (boundary6 tx e)) ErrInvalidShieldedTx;
        _ ← fail_if (negb (rangeProofSize e)) ErrInvalidShieldedTx;
        _ ← fail_if (negb (inputLoop e.(s6_Inputs) [])) ErrInvalidShieldedTx;
        _ ← fail_if (negb (output6Loop e.(s6_Outputs) [])) ErrInvalidShieldedTx;
        _ ← (if bound then ValidateShieldedV6RecipientProof config tx e else Ok ());
        Ok e
  end.

Definition ValidateShieldedV6Proof (tx : stx) : result vError unit :=
  match DecodeShieldedV6Transaction tx.(sx_tx).(vt_Data) with
  | Ok (Some e) =>
      if e.(s6_Version) =? ShieldedV6BindingVersion then _ ← validateShieldedV6BindingBasics tx e; Ok ()
      else
        _ ← fail_if (negb (length e.(s6_Outputs) =? 0)%nat
                     && negb (VerifyRangeProof128 ((λ o, (o.(o6_Commitment), o.(o6_AmountLimbs))) <$> e.(s6_Outputs)) e.(s6_RangeProof))) ErrInvalidShieldedTx;
        if e.(s6_Deposit)
        then fail_if (negb (VerifyDepositCommitment (o6_Commitment <$> e.(s6_Outputs)) tx.(sx_tx).(vt_Value) e.(s6_DepositMask))) ErrInvalidShieldedTx
        else fail_if (negb (VerifyCommitmentBalance128 (i6_PseudoOutput <$> e.(s6_Inputs)) (o6_Commitment <$> e.(s6_Outputs)) e.(s6_WithdrawalValue)))
               ErrInvalidShieldedTx
  | _ => Err ErrInvalidShieldedTx
  end.

(** [shielded6.VerifyCLSAG] *)
Fixpoint ringOk (ring : list RingMember) (seen : list bytes) : bool :=
  match ring with
  | [] => true
  | (key, commitment) :: ring =>
      if bool_decide (key ∈ seen) then false
      else decodePoint key false && decodePoint commitment true && ringOk ring (key :: seen)
  end.
Definition VerifyCLSAG (message : bytes) (ring : list RingMember) (keyImage pseudoOutput encoded : bytes) : bool :=
  (length ring =? RingSize)%nat && (length encoded =? CLSAGSize)%nat && ringOk ring [] && decodePoint keyImage false && decodePoint pseudoOutput false
  && clsagVerify message ring keyImage pseudoOutput encoded.

(** ** State *)

Context {U : Uint256} {S : Type} {W : WorldState S}.

Definition ShieldedV6StateSlot (role key : bytes) : hash := BytesToHash (keccak ((str "TKM_SHIELD6_STATE_V1/" ++ role ++ str "/") ++ key)).
Definition get6 (st : S) (role key : bytes) : hash := GetState st ShieldedPoolAddress (ShieldedV6StateSlot role key).
Definition set6 (st : S) (role key : bytes) (v : hash) : S := SetState st ShieldedPoolAddress (ShieldedV6StateSlot role key) v.

Definition ShieldedV6OutputCount (st : S) : Z := uint64FromHash (get6 st (str "output-count") []).
Definition ShieldedV6KeyImageCount (st : S) : Z := uint64FromHash (get6 st (str "key-image-count") []).
Definition shieldedV6IndexKey (index : Z) : bytes := be_bytes 8 index.

Definition ShieldedV6KeyImageAt (st : S) (index : Z) : result vError bytes :=
  _ ← fail_if (ShieldedV6KeyImageCount st <=? index) ErrInvalidShieldedTx;
  let image := hash_bytes (get6 st (str "key-image-index") (shieldedV6IndexKey index)) in
  _ ← fail_if (negb (ValidatePublicKey image)) ErrInvalidShieldedTx;
  Ok image.

Definition shieldedV6ReadOutput (st : S) (index : Z) : result vError RingMember :=
  _ ← fail_if (ShieldedV6OutputCount st <=? index) ErrInvalidShieldedTx;
  let key := hash_bytes (get6 st (str "output-key") (shieldedV6IndexKey index)) in
  let commitment := hash_bytes (get6 st (str "output-commitment") (shieldedV6IndexKey index)) in
  _ ← fail_if (bool_decide (key = replicate PointSize 0) || bool_decide (commitment = replicate PointSize 0)) ErrInvalidShieldedTx;
  Ok (key, commitment).

Definition ShieldedV6OutputTransactionAt (st : S) (index : Z) : result vError hash :=
  _ ← fail_if (ShieldedV6OutputCount st <=? index) ErrInvalidShieldedTx;
  let txHash := get6 st (str "output-tx") (shieldedV6IndexKey index) in
  _ ← fail_if (txHash =? zeroHash) ErrInvalidShieldedTx;
  Ok txHash.

Definition ShieldedV6KeyImageTransaction (st : S) (keyImage : bytes) : hash :=
  if negb (ValidatePublicKey keyImage) then zeroHash else get6 st (str "key-image") keyImage.

(** *** The accumulator *)

Definition shieldedV6HashNode (left right : hash) : hash :=
  BytesToHash (keccak (str "TKM_SHIELD6_ACCUMULATOR_NODE_V1" ++ hash_bytes left ++ hash_bytes right)).

Definition emptyLeaf : hash := BytesToHash (keccak (str "TKM_SHIELD6_ACCUMULATOR_EMPTY_LEAF_V1")).

Fixpoint emptyNodesLoop (n : nat) (current : hash) : list hash :=
  match n with O => [] | Datatypes.S n => let next := shieldedV6HashNode current current in next :: emptyNodesLoop n next end.
Definition shieldedV6EmptyNodes : list hash := emptyLeaf :: emptyNodesLoop ShieldedV6OutputTreeDepth emptyLeaf.

Definition ShieldedV6OutputRoot (st : S) : hash :=
  let root := get6 st (str "output-root") [] in
  if (root =? zeroHash) && (ShieldedV6OutputCount st =? 0) then nth ShieldedV6OutputTreeDepth shieldedV6EmptyNodes zeroHash else root.

Definition levelKey (level : nat) : bytes := be_bytes 4 (Z.of_nat level).
Definition frontier (st : S) (level : nat) : hash := get6 st (str "accumulator-frontier") (levelKey level).

Definition accumulatorLeaf (count : Z) (output : ShieldedV6Output) : hash :=
  BytesToHash (keccak (str "TKM_SHIELD6_ACCUMULATOR_LEAF_V1" ++ be_bytes 8 count ++ output.(o6_OneTimeKey) ++ output.(o6_Commitment))).

(** The nodes the append reads are present. *)
Definition frontierMissing (st : S) (count : Z) : bool :=
  existsb (λ level, Z.testbit count (Z.of_nat level) && (frontier st level =? zeroHash)) (seq 0 ShieldedV6OutputTreeDepth).

(** The loop over the levels, [n] of them left. *)
Fixpoint frontierLoop (n level : nat) (frontierIndex : Z) (current : hash) (zeroes : list hash) (st : S) : hash * S :=
  match n with
  | O => (current, st)
  | Datatypes.S n =>
      if Z.land frontierIndex 1 =? 0
      then frontierLoop n (Datatypes.S level) (Z.shiftr frontierIndex 1) (shieldedV6HashNode current (nth level zeroes zeroHash)) zeroes
             (set6 st (str "accumulator-frontier") (levelKey level) current)
      else frontierLoop n (Datatypes.S level) (Z.shiftr frontierIndex 1) (shieldedV6HashNode (frontier st level) current) zeroes st
  end.

Definition shieldedV6AppendOutput (st : S) (output : ShieldedV6Output) (txHash : hash) : option vError * S :=
  let count := ShieldedV6OutputCount st in
  if negb (ValidatePublicKey output.(o6_OneTimeKey)) || negb (ValidateCommitmentEncoding output.(o6_Commitment)) then (Some ErrInvalidShieldedTx, st)
  else if 2 ^ 32 <=? count then (Some ErrInvalidShieldedTx, st)
  else if negb (get6 st (str "key-index") output.(o6_OneTimeKey) =? zeroHash) then (Some ErrInvalidShieldedTx, st)
  else if frontierMissing st count then (Some ErrInvalidShieldedTx, st)
  else
    let '(current, st) := frontierLoop ShieldedV6OutputTreeDepth 0 count (accumulatorLeaf count output) shieldedV6EmptyNodes st in
    let key := shieldedV6IndexKey count in
    let st := set6 st (str "output-key") key (BytesToHash output.(o6_OneTimeKey)) in
    let st := set6 st (str "output-commitment") key (BytesToHash output.(o6_Commitment)) in
    let st := set6 st (str "output-tx") key txHash in
    let st := set6 st (str "key-index") output.(o6_OneTimeKey) (uint64Hash (count +₆₄ 1)) in
    let st := set6 st (str "output-count") [] (uint64Hash (count +₆₄ 1)) in
    (None, set6 st (str "output-root") [] current).

Definition shieldedV6AppendKeyImage (st : S) (image : bytes) (txHash : hash) : option vError * S :=
  let count := ShieldedV6KeyImageCount st in
  if negb (ValidatePublicKey image) || (txHash =? zeroHash) then (Some ErrInvalidShieldedTx, st)
  else if negb (get6 st (str "key-image") image =? zeroHash) then (Some ErrInvalidShieldedTx, st)
  else if count =? two64 - 1 then (Some ErrInvalidShieldedTx, st)
  else
    let st := set6 st (str "key-image-index") (shieldedV6IndexKey count) (BytesToHash image) in
    let st := set6 st (str "key-image-count") [] (uint64Hash (count +₆₄ 1)) in
    (None, set6 st (str "key-image") image txHash).

(** *** Bindings of recipient keys *)

Definition bindingTree : tree := {| t_pre := str "shield6-binding/"; t_id := str "shield6-binding/owner-index" |}.

Definition ShieldedV6BindingCount (st : S) : Z := uint64FromHash (getSlot st (str "shield6-binding/count") []).

Definition ShieldedV6BindingRoot (st : S) : result vError Digest :=
  if ShieldedV6BindingCount st =? 0 then zeroes ← v3Zeroes; Ok (nth MerkleDepth zeroes zeroDigest)
  else v3ReadDigest st (str "shield6-binding/current-root") [].

Definition shieldedV6BindingNode (st : S) := treeNode bindingTree st.

Definition validateShieldedV6BindingRegistration (st : S) (from : address) (commitment : Digest) : result voteError Digest :=
  match AntarticalStampForAddress st from with
  | Err _ => Err ErrUnstampedAddress
  | Ok stamp =>
      _ ← fail_if (negb stamp.(ss_Registered) || IsAddressSuspended st from) ErrUnstampedAddress;
      _ ← fail_if (negb (getSlot st (str "shield6-binding/owner-index") (Digest_Bytes stamp.(ss_Owner)) =? zeroHash)) (ErrVote ErrInvalidShieldedTx);
      _ ← fail_if (2 ^ 32 <=? ShieldedV6BindingCount st) (ErrVote ErrInvalidShieldedTx);
      _ ← fail_if (negb (is_ok (DigestFromBytes (Digest_Bytes commitment))) || bool_decide (commitment = zeroDigest)) (ErrVote ErrInvalidShieldedTx);
      Ok stamp.(ss_Owner)
  end.

(** [recipient.AuthorizedBindingLeaf] *)
Definition AuthorizedBindingLeaf (chainID : Z) (owner commitment : Digest) : result vError Digest :=
  if (chainID =? 0) || negb (canonical owner) || bool_decide (owner = zeroDigest) || negb (canonical commitment) || bool_decide (commitment = zeroDigest)
  then Err (ErrText "invalid authorized recipient key binding")
  else HashWords ([6007; 2; chainID mod 2 ^ 32; Z.shiftr chainID 32] ++ owner ++ commitment).

Definition processShieldedV6Binding (st : S) (tx : stx) (from : address) (b : ShieldedV6BindingRegistration) : option voteError * S :=
  match validateShieldedV6BindingRegistration st from b.(br_Commitment) with
  | Err err => (Some err, st)
  | Ok owner =>
      if negb (bool_decide (owner = b.(br_Owner))) then (Some (ErrVote ErrInvalidShieldedTx), st)
      else
        match AuthorizedBindingLeaf (tx.(sx_tx).(vt_ChainId) mod two64) owner b.(br_Commitment), v3Zeroes with
        | Ok leaf, Ok zeroes =>
            let index := ShieldedV6BindingCount st in
            match appendLoop bindingTree MerkleDepth 0 index leaf zeroes st with
            | (Err err, _) => (Some (ErrVote err), st)
            | (Ok current, st) =>
                let st := setSlot st (str "shield6-binding/owner-index") (Digest_Bytes owner) (uint64Hash (index +₆₄ 1)) in
                let st := v3WriteDigest st (str "shield6-binding/commitment") (Digest_Bytes owner) b.(br_Commitment) in
                let st := setSlot st (str "shield6-binding/count") [] (uint64Hash (index +₆₄ 1)) in
                let st := setSlot st (str "shield6-binding/root") (Digest_Bytes current) tx.(sx_tx).(vt_Hash) in
                (None, v3WriteDigest st (str "shield6-binding/current-root") [] current)
            end
        | Err err, _ => (Some (ErrVote err), st)
        | _, Err err => (Some (ErrVote err), st)
        end
  end.

Definition ShieldedV6RecipientAnchor (chainID : Z) (stampRoot bindingRoot : Digest) : hash :=
  BytesToHash (keccak (str "TKM_SHIELD6_REGISTRY_ANCHOR_V2" ++ shieldedV6IndexKey chainID ++ Digest_Bytes stampRoot ++ Digest_Bytes bindingRoot)).

Definition validateShieldedV6RecipientRoots (st : S) (tx : stx) (e : ShieldedV6Transaction) : result vError unit :=
  match e.(s6_Recipients) with
  | None => Ok ()
  | Some r =>
      _ ← fail_if (negb (length r.(rp_Roots) =? length e.(s6_Outputs))%nat) ErrInvalidShieldedTx;
      fail_if (existsb (λ r, negb (bool_decide (is_u64 tx.(sx_tx).(vt_ChainId)))
                             || negb (r.(rr_Anchor) =? ShieldedV6RecipientAnchor tx.(sx_tx).(vt_ChainId) r.(rr_StampRoot) r.(rr_BindingRoot))
                             || (getSlot st (str "stamp/root") (Digest_Bytes r.(rr_StampRoot)) =? zeroHash)
                             || (getSlot st (str "shield6-binding/root") (Digest_Bytes r.(rr_BindingRoot)) =? zeroHash)) r.(rp_Roots)) ErrInvalidShieldedTx
  end.

(** *** Spends *)

Fixpoint readRing (st : S) (count : Z) (indices : list Z) : result vError (list RingMember) :=
  match indices with
  | [] => Ok []
  | index :: indices =>
      _ ← fail_if (count <=? index) ErrInvalidShieldedTx;
      member ← shieldedV6ReadOutput st index;
      members ← readRing st count indices;
      Ok (member :: members)
  end.

Fixpoint inputState (st : S) (count : Z) (intent : bytes) (inputs : list ShieldedV6Input) (seen : list bytes) : result vError unit :=
  match inputs with
  | [] => Ok ()
  | i :: inputs =>
      members ← readRing st count i.(i6_RingIndices);
      _ ← fail_if (negb (get6 st (str "key-image") i.(i6_KeyImage) =? zeroHash)) ErrInvalidShieldedTx;
      _ ← fail_if (bool_decide (i.(i6_KeyImage) ∈ seen)) ErrInvalidShieldedTx;
      _ ← fail_if (negb (VerifyCLSAG intent members i.(i6_KeyImage) i.(i6_PseudoOutput) i.(i6_Signature))) ErrInvalidShieldedTx;
      inputState st count intent inputs (i.(i6_KeyImage) :: seen)
  end.

(** [validateShieldedV6State] of an envelope that is not a registration. *)
Definition validateShieldedV6State (st : S) (tx : stx) (e : ShieldedV6Transaction) : result vError unit :=
  _ ← (if (length e.(s6_Outputs) =? 0)%nat then Ok () else validateShieldedV6RecipientRoots st tx e);
  let count := ShieldedV6OutputCount st in
  _ ← fail_if (2 ^ 32 <? count) ErrInvalidShieldedTx;
  intent ← ShieldedV6Intent tx e;
  inputState st count intent e.(s6_Inputs) [].

Fixpoint appendAll6 {A} (f : S → A → option vError * S) (st : S) (l : list A) : option vError * S :=
  match l with
  | [] => (None, st)
  | a :: l => match f st a with (Some err, st) => (Some err, st) | (None, st) => appendAll6 f st l end
  end.

Definition blockKeyImage (i : ShieldedV6Input) : hash := ShieldedV6StateSlot (str "block-key-image") i.(i6_KeyImage).

Definition processShieldedV6 (config : ChainConfig.ChainConfig) (number time : Z) (st : S) (tx : stx) (seen : gset hash) : option voteError * S * gset hash :=
  let txHash := tx.(sx_tx).(vt_Hash) in
  match (_ ← fail_if (negb (GetCodeSize st ShieldedPoolAddress =? 0)) (ErrVote ErrInvalidShieldedTx);
         e ← lift (shieldedV6Basics config number time tx);
         from ← match Sender config number time tx.(sx_tx) with Some a => Ok a | None => Err (ErrVote ErrSender) end;
         _ ← ValidateAntarticalStampState st from tx.(sx_tx).(vt_To) tx.(sx_tx).(vt_Value) tx.(sx_tx).(vt_Data);
         Ok (e, from)) with
  | Err err => (Some err, st, seen)
  | Ok (e, from) =>
      match (if e.(s6_Version) =? ShieldedV6BindingVersion then e.(s6_Binding) else None) with
      | Some b => (processShieldedV6Binding st tx from b, seen)
      | None =>
          let public := e.(s6_Deposit) || (0 <? e.(s6_WithdrawalValue)) in
          match (_ ← fail_if ((0 <? e.(s6_WithdrawalValue)) && negb (IsAntarticalStamped st e.(s6_WithdrawalRecipient))) ErrInvalidShieldedTx;
                 _ ← ValidateShieldedV6Proof tx;
                 _ ← validateShieldedV6State st tx e;
                 _ ← fail_if (existsb (λ i, bool_decide (blockKeyImage i ∈ seen)) e.(s6_Inputs)) ErrInvalidShieldedTx;
                 if public then l ← ledgerTransition st AssetTKM (if e.(s6_Deposit) then tx.(sx_tx).(vt_Value) else 0) e.(s6_WithdrawalValue) 0; Ok (Some l)
                 else Ok None) with
          | Err err => (Some (ErrVote err), st, seen)
          | Ok ledger =>
              match appendAll6 (λ st o, shieldedV6AppendOutput st o txHash) st e.(s6_Outputs) with
              | (Some err, _) => (Some (ErrVote err), st, seen)
              | (None, st1) =>
                  match appendAll6 (λ st i, shieldedV6AppendKeyImage st i.(i6_KeyImage) txHash) st1 e.(s6_Inputs) with
                  | (Some err, _) => (Some (ErrVote err), st, seen)
                  | (None, st2) =>
                      let st3 := match ledger with Some l => commitLedger st2 AssetTKM l | None => st2 end in
                      (None, release st3 e.(s6_WithdrawalRecipient) e.(s6_WithdrawalValue), seen ∪ list_to_set (blockKeyImage <$> e.(s6_Inputs)))
                  end
              end
          end
      end
  end.

End Shield6.
End Shielded6.
