(* ===== verification/PoolSlots.v ===== *)
(** * The slots of the pool account

    The shielded pool keeps the note tree, the stamps, the votes, the validators, the
    ledger, the outputs of Shield6 and the notes of the first pool in the storage of one account, at hashes of
    role and data.  The prefixes of the hashed strings are listed here; none is the
    beginning of another, so that slots in use are distinct as long as the hash
    functions do not collide on them. *)

From S2P Require Import Prelude Bytes State ValidatorRegistry ValidatorStore ShieldedTree NoteTree ShieldedEnvelopes Ledger ShieldedSpend Shielded6.
Import ValidatorRegistry ValidatorStore ShieldedTree NoteTree ShieldedEnvelopes Ledger ShieldedSpend Shielded6.

Module PoolSlots.

(** The two hash functions. *)
Inductive hfun := Sha512 | Keccak.
#[global] Instance hfun_eq : EqDecision hfun.
Proof. solve_decision. Defined.

Definition prefix := (hfun * bytes)%type.

(** ** Prefixes *)

Definition pre3 (role : bytes) : prefix := (Sha512, str "TKM_SHIELD3_STATE_V1/" ++ role ++ str "/").
Definition preAsset (assetID : Z) (role : bytes) : prefix :=
  (Sha512, str "TKM_SHIELD3_STATE_ASSET_V1/" ++ be_bytes 8 assetID ++ str "/" ++ role ++ str "/").
Definition pre4 (role : bytes) : prefix := (Sha512, str "TKM_SHIELD4_STATE_V1/" ++ role ++ str "/").
Definition pre6 (role : bytes) : prefix := (Keccak, str "TKM_SHIELD6_STATE_V1/" ++ role ++ str "/").

(** The prefix of a role of an asset. *)
Definition preFor (assetID : Z) (role : bytes) : prefix := if assetID =? AssetTKM then pre3 role else preAsset assetID role.
Definition linkPre (assetID : Z) : prefix := if assetID =? AssetTKM then pre4 (str "link-tag") else preAsset assetID (str "shield4/link-tag").

Definition ledgerRoles : list bytes :=
  ledgerRole <$> [str "opening"; str "deposited"; str "withdrawn"; str "fees"; str "backing"; str "initialized"].

Definition roles6 : list bytes :=
  [str "output-count"; str "key-image-count"; str "output-root"; str "key-image-index"; str "output-key"; str "output-commitment"; str "output-tx";
   str "key-image"; str "accumulator-frontier"; str "key-index"].

(** The slots of the first pool carry no role of their own. *)
Definition preL (name : bytes) : prefix := (Keccak, name).
Definition legacyNames : list bytes :=
  [str "TKM_SHIELDED_COMMITMENT_V1"; str "TKM_SHIELDED_NULLIFIER_V1"; str "TKM_SHIELDED_MERKLE_NEXT_INDEX_V1"; str "TKM_SHIELDED_MERKLE_FRONTIER_V1";
   str "TKM_SHIELDED_COMMITMENT_INDEX_V1"; str "TKM_SHIELDED_COMMITMENT_PATH_V1"; str "TKM_SHIELDED_MERKLE_ROOT_V1"].

Definition poolPrefixes : list prefix :=
  (pre3 <$> shieldedRoles ++ ledgerRoles
            ++ [str "confidential-ledger/v1/fee-ticket"; str "shield6-binding/count"; str "shield6-binding/commitment/0"; str "shield6-binding/commitment/1"]
            ++ treeRoles bindingTree)
  ++ (preAsset AssetPTKM <$> [str "nullifier"; str "commitment"; str "supply"; str "shield4/link-tag"] ++ ledgerRoles)
  ++ [pre4 (str "link-tag")] ++ (pre6 <$> roles6) ++ (preL <$> legacyNames).

Definition independent (p q : prefix) : bool := bool_decide (p = q) || negb (bool_decide (p.1 = q.1) && has_prefix q.2 p.2).

Lemma prefixes_independent : forallb (λ p, forallb (independent p) poolPrefixes) poolPrefixes = true.
Proof. vm_compute. reflexivity. Qed.

(** Prefix and data are read off the hashed string. *)
Lemma prefix_data_inj (p q : prefix) d d' : p ∈ poolPrefixes → q ∈ poolPrefixes → p.1 = q.1 → p.2 ++ d = q.2 ++ d' → p = q ∧ d = d'.
Proof.
  intros Hp Hq Hf E. assert (Hpq : p = q).
  { pose proof prefixes_independent as Hi. apply Is_true_true in Hi. rewrite forallb_True, Forall_forall in Hi.
    assert (Hfree : ∀ p q, p ∈ poolPrefixes → q ∈ poolPrefixes → p.1 = q.1 → has_prefix q.2 p.2 = true → p = q).
    { intros x y Hx Hy Hf' Hp'. specialize (Hi x Hx). rewrite forallb_True, Forall_forall in Hi. specialize (Hi y Hy). unfold independent in Hi.
      rewrite Hp', (bool_decide_eq_true_2 _ Hf'), orb_false_r in Hi. by apply bool_decide_unpack in Hi. }
    apply app_prefix in E as [H|H]; [symmetry|]; by apply Hfree. }
  subst. split; [done|]. by apply app_inv_head in E.
Qed.

(** A concrete prefix is listed; two concrete prefixes differ. *)
Ltac in_prefixes := apply (bool_decide_unpack _); vm_compute; exact I.
Ltac prefix_ne := let E := fresh in intros E; apply (f_equal snd) in E; vm_compute in E; discriminate E.

Section Slots.
Context {X : Externals} {N : Native} {U : Uint256} {S : Type} {W : WorldState S}.

Definition slotAt (p : prefix) (d : bytes) : hash :=
  BytesToHash (match p.1 with Sha512 => sha512 (p.2 ++ d) | Keccak => keccak (p.2 ++ d) end).

Lemma slot3 role d : ShieldedV3StateSlot role d = slotAt (pre3 role) d.
Proof. unfold slotAt, pre3, ShieldedV3StateSlot. cbn [fst snd]. by rewrite <- !app_assoc. Qed.

Lemma slotFor assetID role d : NormalizeAssetID assetID = assetID → ShieldedV3StateSlotForAsset assetID role d = slotAt (preFor assetID role) d.
Proof.
  intros Ha. unfold ShieldedV3StateSlotForAsset, preFor. rewrite Ha. destruct (assetID =? AssetTKM); [apply slot3|].
  unfold slotAt, preAsset. cbn [fst snd]. by rewrite <- !app_assoc.
Qed.

Lemma slotLink assetID t : NormalizeAssetID assetID = assetID → linkSlot assetID [] t = slotAt (linkPre assetID) (Digest_Bytes t).
Proof.
  intros Ha. unfold linkSlot, linkPre. rewrite Ha. destruct (assetID =? AssetTKM) eqn:E.
  - unfold ShieldedV4StateSlot, slotAt, pre4. cbn [fst snd]. by rewrite <- !app_assoc.
  - rewrite slotFor by done. unfold preFor. by rewrite E.
Qed.

Lemma slot6 role d : ShieldedV6StateSlot role d = slotAt (pre6 role) d.
Proof. unfold slotAt, pre6, ShieldedV6StateSlot. cbn [fst snd]. by rewrite <- !app_assoc. Qed.

(** The data in use under each prefix. *)
Context (Q : prefix → bytes → Prop).
Definition inUse (p : prefix) (d : bytes) : Prop := p ∈ poolPrefixes ∧ Q p d.

(** The hash functions, cut to 32 bytes, have no collision among the slots in use. *)
Class PoolDistinct :=
  pool_distinct p d q d' : inUse p d → inUse q d' → slotAt p d = slotAt q d' → p.1 = q.1 ∧ p.2 ++ d = q.2 ++ d'.
Context {HQ : PoolDistinct}.

Lemma slotAt_inj p d q d' : inUse p d → inUse q d' → slotAt p d = slotAt q d' → p = q ∧ d = d'.
Proof using HQ. intros Hp Hq E. apply pool_distinct in E as [Hf E]; [|done..]. apply prefix_data_inj; [apply Hp|apply Hq|done..]. Qed.

(** The slots of Shield3 among them. *)
Definition use3 (r d : bytes) : Prop := Q (pre3 r) d.

Lemma pre3_listed r : r ∈ shieldedRoles → pre3 r ∈ poolPrefixes.
Proof. intros Hr. unfold poolPrefixes. rewrite elem_of_app. left. apply list_elem_of_fmap_2. rewrite elem_of_app. by left. Qed.

Lemma used_inUse r d : used use3 r d → inUse (pre3 r) d.
Proof. intros [Hr Hd]. split; [by apply pre3_listed|done]. Qed.

#[global] Instance pool_no_collision : NoCollision use3.
Proof using HQ.
  intros r d r' d' Hu Hu' E. rewrite !slot3 in E. apply slotAt_inj in E as [Ep ->]; [|by apply used_inUse..]. apply (f_equal snd) in Ep. unfold pre3 in Ep.
  cbn [snd] in Ep. apply app_inv_head, app_inv_tail in Ep. by subst.
Qed.

(** ** Writes *)

Definition getP (st : S) (p : prefix) (d : bytes) : hash := GetState st ShieldedPoolAddress (slotAt p d).
Definition setP (st : S) (p : prefix) (d : bytes) (v : hash) : S := SetState st ShieldedPoolAddress (slotAt p d) v.

Lemma getP_setP_eq st p d v : getP (setP st p d v) p d = v.
Proof. apply GetState_SetState_eq. Qed.

Lemma getP_setP_ne st p d v q d' : inUse p d → inUse q d' → ¬ (p = q ∧ d = d') → getP (setP st p d v) q d' = getP st q d'.
Proof using HQ. intros Hp Hq Hne. apply GetState_SetState_ne. right. intros E. apply Hne. by apply slotAt_inj. Qed.

(** What only writes to the slots [Wr] leaves alone; money is accounted for apart. *)
Record sameBut (Wr : prefix → bytes → Prop) (st st' : S) : Prop := {
  sb_slots p d : inUse p d → ¬ Wr p d → getP st' p d = getP st p d;
  sb_nonce a : GetNonce st' a = GetNonce st a;
  sb_code a : GetCodeSize st' a = GetCodeSize st a;
  sb_other a k : a ≠ ShieldedPoolAddress → GetState st' a k = GetState st a k;
}.

Lemma sameBut_refl Wr st : sameBut Wr st st.
Proof. by split. Qed.

Lemma sameBut_trans Wr st1 st2 st3 : sameBut Wr st1 st2 → sameBut Wr st2 st3 → sameBut Wr st1 st3.
Proof. intros [A1 A2 A3 A4] [B1 B2 B3 B4]. split; intros; [rewrite B1|rewrite B2|rewrite B3|rewrite B4]; auto. Qed.

Lemma sameBut_weaken (Wr Wr' : prefix → bytes → Prop) st st' : (∀ p d, Wr p d → Wr' p d) → sameBut Wr st st' → sameBut Wr' st st'.
Proof. intros H [A1 A2 A3 A4]. split; auto. Qed.

Lemma sameBut_set (Wr : prefix → bytes → Prop) st p d v : inUse p d → Wr p d → sameBut Wr st (setP st p d v).
Proof using HQ.
  intros Hu Hw. split; intros; unfold setP; ws_simpl; try done.
  - apply getP_setP_ne; try done. intros [-> ->]. done.
  - apply GetState_SetState_ne. left. done.
Qed.

Lemma sameBut_add Wr st a v : sameBut Wr st (AddBalance st a v).
Proof. split; intros; unfold getP; by ws_simpl. Qed.
Lemma sameBut_sub Wr st a v : sameBut Wr st (SubBalance st a v).
Proof. split; intros; unfold getP; by ws_simpl. Qed.

(** The same, and no money moves. *)
Definition quiet (Wr : prefix → bytes → Prop) (st st' : S) : Prop := sameBut Wr st st' ∧ ∀ a, GetBalance st' a = GetBalance st a.

Lemma quiet_refl Wr st : quiet Wr st st.
Proof. split; [apply sameBut_refl|done]. Qed.
Lemma quiet_trans Wr st1 st2 st3 : quiet Wr st1 st2 → quiet Wr st2 st3 → quiet Wr st1 st3.
Proof. intros [A1 A2] [B1 B2]. split; [by eapply sameBut_trans|]. intros a. by rewrite B2. Qed.
Lemma quiet_weaken (Wr Wr' : prefix → bytes → Prop) st st' : (∀ p d, Wr p d → Wr' p d) → quiet Wr st st' → quiet Wr' st st'.
Proof. intros H [A1 A2]. split; [by eapply sameBut_weaken|done]. Qed.
Lemma quiet_set (Wr : prefix → bytes → Prop) st p d v : inUse p d → Wr p d → quiet Wr st (setP st p d v).
Proof using HQ. intros Hu Hw. split; [by apply sameBut_set|]. intros a. unfold setP. by ws_simpl. Qed.
Lemma quiet_get Wr st st' p d : quiet Wr st st' → inUse p d → ¬ Wr p d → getP st' p d = getP st p d.
Proof. intros [H _]. apply (sb_slots _ _ _ H). Qed.

(** A frame of the note tree is one of the pool. *)
Lemma frame_sameBut (Wr : bytes → bytes → Prop) st st' : frame use3 Wr st st' →
  sameBut (λ p d, ∃ r, p = pre3 r ∧ used use3 r d ∧ Wr r d) st st'.
Proof using HQ.
  intros F. split; [|apply F..]. intros p d Hp Hn. unfold getP.
  destruct (decide (p ∈ pre3 <$> shieldedRoles)) as [Hin|Hout].
  - apply list_elem_of_fmap in Hin as (r & -> & Hr). rewrite <- slot3. apply (fr_slots _ _ _ _ F); [by split; [|apply Hp]|].
    intros Hw. apply Hn. exists r. split; [done|]. split; [by split; [|apply Hp]|done].
  - apply (fr_rest _ _ _ _ F). intros r d' Hu E. rewrite slot3 in E. apply slotAt_inj in E as [-> _]; [|done|by apply used_inUse].
    apply Hout. apply list_elem_of_fmap_2, Hu.
Qed.

End Slots.
End PoolSlots.
