(* ===== verification/Accumulator.v ===== *)
(** * The output accumulator of Shield6 is a Merkle tree

    [Shielded6] stores one node per level, the frontier, and no path: its root is the
    Merkle root of all outputs, whatever their number.  The outputs stay readable by
    their index, and a one-time key names one output. *)

From S2P Require Import Prelude Bytes State ValidatorRegistry ValidatorStore Merkle ShieldedTree NoteTree ShieldedEnvelopes Shielded6 PoolSlots.
Import ValidatorRegistry ValidatorStore ShieldedTree NoteTree ShieldedEnvelopes Shielded6 PoolSlots.

Module Accumulator.

(** Two slots with different prefixes. *)
Ltac other6 := let E := fresh in intros [E _]; revert E; prefix_ne.

Section Accumulator.
Context {X : Externals} {N : Native} {C : Shield6Crypto} {U : Uint256} {S : Type} {W : WorldState S}.
Context (Q : prefix → bytes → Prop) (K : bytes → Prop).
Context {HQ : PoolDistinct Q}.

(** The slots of the accumulator are in use, for the keys [K]. *)
Class OutputUse := {
  ou_single r : r ∈ [str "output-count"; str "output-root"] → inUse Q (pre6 r) [];
  ou_level k : (k < 32)%nat → inUse Q (pre6 (str "accumulator-frontier")) (levelKey k);
  ou_index r i : r ∈ [str "output-key"; str "output-commitment"; str "output-tx"] → 0 <= i < 2 ^ 32 → inUse Q (pre6 r) (shieldedV6IndexKey i);
  ou_key k : K k → inUse Q (pre6 (str "key-index")) k;
}.
Context {HU : OutputUse}.

(** An output and the hash of its transaction. *)
Abbreviation entry := (ShieldedV6Output * hash)%type.
Definition point (b : bytes) : Prop := bytes_ok b ∧ length b = PointSize ∧ b ≠ replicate PointSize 0.

Record output_ok (o : ShieldedV6Output) : Prop := {
  oo_key : point o.(o6_OneTimeKey) ∧ ValidatePublicKey o.(o6_OneTimeKey) = true;
  oo_commitment : point o.(o6_Commitment) ∧ ValidateCommitmentEncoding o.(o6_Commitment) = true;
  oo_use : K o.(o6_OneTimeKey);
}.

Definition oneTimeKeysOf (es : list entry) : list bytes := (λ e, e.1.(o6_OneTimeKey)) <$> es.
Definition leavesFrom (i : nat) (es : list entry) : list hash := imap (λ j e, accumulatorLeaf (Z.of_nat (i + j)) e.1) es.
Definition leaves6 (es : list entry) : list hash := leavesFrom 0 es.

Abbreviation node6 := (Merkle.node shieldedV6HashNode emptyLeaf).
Definition root6 (es : list entry) : hash := Merkle.root shieldedV6HashNode emptyLeaf 32 (leaves6 es).

Lemma leaves6_snoc es e : leaves6 (es ++ [e]) = leaves6 es ++ [accumulatorLeaf (Z.of_nat (length es)) e.1].
Proof. unfold leaves6, leavesFrom. rewrite imap_app. cbn. by rewrite Nat.add_0_r. Qed.

Lemma length_leaves6 es : length (leaves6 es) = length es.
Proof. apply length_imap. Qed.

Lemma emptyNodes_nth k n : (k <= n)%nat →
  nth k (emptyLeaf :: emptyNodesLoop n emptyLeaf) zeroHash = Merkle.zeroNode shieldedV6HashNode emptyLeaf k.
Proof.
  assert (H : ∀ n j k, (k < n)%nat → nth k (emptyNodesLoop n (Merkle.zeroNode shieldedV6HashNode emptyLeaf j)) zeroHash
    = Merkle.zeroNode shieldedV6HashNode emptyLeaf (Datatypes.S (j + k))).
  { clear. induction n as [|n IH]; intros j k Hk; [lia|]. cbn [emptyNodesLoop]. destruct k as [|k]; cbn [nth]; [by rewrite Nat.add_0_r|].
    rewrite (IH (Datatypes.S j)) by lia. by rewrite Nat.add_succ_r. }
  intros Hk. destruct k as [|k]; [done|]. cbn [nth]. apply (H n 0%nat k). lia.
Qed.

(** ** The state of the accumulator *)

Record holds6 (st : S) (es : list entry) : Prop := {
  h6_size : Z.of_nat (length es) <= 2 ^ 32;
  h6_ok : Forall (λ e, output_ok e.1) es;
  h6_count : getP st (pre6 (str "output-count")) [] = Z.of_nat (length es);
  h6_frontier : Merkle.frontier_ok shieldedV6HashNode emptyLeaf 32 (leaves6 es) (frontier st);
  h6_root : getP st (pre6 (str "output-root")) [] = if decide (es = []) then 0 else root6 es;
  h6_at i o h : es !! i = Some (o, h) →
    getP st (pre6 (str "output-key")) (shieldedV6IndexKey (Z.of_nat i)) = BytesToHash o.(o6_OneTimeKey)
    ∧ getP st (pre6 (str "output-commitment")) (shieldedV6IndexKey (Z.of_nat i)) = BytesToHash o.(o6_Commitment)
    ∧ getP st (pre6 (str "output-tx")) (shieldedV6IndexKey (Z.of_nat i)) = h;
  h6_keys k : K k → getP st (pre6 (str "key-index")) k ≠ 0 ↔ k ∈ oneTimeKeysOf es;
}.

(** The slots of the accumulator. *)
Definition outputSlot (p : prefix) (d : bytes) : Prop :=
  p ∈ pre6 <$> [str "output-count"; str "output-root"; str "accumulator-frontier"; str "output-key"; str "output-commitment"; str "output-tx"; str "key-index"].

Lemma get6_P st r d : get6 st r d = getP st (pre6 r) d.
Proof. unfold get6, getP. by rewrite slot6. Qed.
Lemma set6_P st r d v : set6 st r d v = setP st (pre6 r) d v.
Proof. unfold set6, setP. by rewrite slot6. Qed.

Lemma count6 st es : holds6 st es → ShieldedV6OutputCount st = Z.of_nat (length es).
Proof.
  intros H. unfold ShieldedV6OutputCount. rewrite get6_P, (h6_count _ _ H). apply u64_small. pose proof (h6_size _ _ H). unfold is_u64, two64. lia.
Qed.

Lemma levelKey_inj j k : (j < 32)%nat → (k < 32)%nat → levelKey j = levelKey k → j = k.
Proof. intros Hj Hk E. apply be_bytes_inj in E; [lia|change (256 ^ Z.of_nat 4) with (2 ^ 32); lia..]. Qed.

Lemma v6IndexKey_inj i j : 0 <= i < 2 ^ 64 → 0 <= j < 2 ^ 64 → shieldedV6IndexKey i = shieldedV6IndexKey j → i = j.
Proof. intros Hi Hj. apply be_bytes_inj; by change (256 ^ Z.of_nat 8) with (2 ^ 64). Qed.

(** ** The loop *)

Definition frontierFrom (level : nat) (p : prefix) (d : bytes) : Prop :=
  ∃ k, (level <= k < 32)%nat ∧ p = pre6 (str "accumulator-frontier") ∧ d = levelKey k.

Lemma frontier_kept level st st' k : quiet Q (frontierFrom level) st st' → (k < level)%nat → (k < 32)%nat → frontier st' k = frontier st k.
Proof using HU.
  intros Hq Hk H32. unfold frontier. rewrite !get6_P. apply (quiet_get Q _ _ _ _ _ Hq); [by apply ou_level|].
  intros (j & Hj & _ & E). apply levelKey_inj in E; lia.
Qed.

Lemma frontierLoop_ok l x n level st :
  let i k := Z.of_nat (length l) / 2 ^ Z.of_nat k in
  (n + level = 32)%nat → Merkle.frontier_ok shieldedV6HashNode emptyLeaf 32 l (frontier st) →
  ∃ st', frontierLoop n level (i level) (node6 (l ++ [x]) level (i level)) shieldedV6EmptyNodes st = (node6 (l ++ [x]) 32 (i 32%nat), st')
    ∧ quiet Q (frontierFrom level) st st'
    ∧ ∀ k, (level <= k < 32)%nat → frontier st' k = if Z.even (i k) then node6 (l ++ [x]) k (i k) else frontier st k.
Proof using HQ HU.
  intros i. revert level st. induction n as [|n IH]; intros level st Hn Hf; cbn [frontierLoop].
  { replace level with 32%nat by lia. exists st. split_and!; [done|apply quiet_refl|lia]. }
  assert (Hland : (Z.land (i level) 1 =? 0) = Z.even (i level)).
  { change 1 with (Z.ones 1). rewrite Z.land_ones by lia. by rewrite Zeven_mod. }
  assert (Hshift : Z.shiftr (i level) 1 = i (Datatypes.S level)) by (unfold i; by rewrite Merkle.div_half, Z.div2_spec).
  rewrite Hland, Hshift. destruct (Z.even (i level)) eqn:He.
  - set (st1 := set6 st _ _ _). assert (Hq1 : quiet Q (frontierFrom level) st st1).
    { unfold st1. rewrite set6_P. apply quiet_set; [done|apply ou_level; lia|]. exists level. split; [lia|done]. }
    assert (Hhere : frontier st1 level = node6 (l ++ [x]) level (i level)) by (unfold frontier, st1; rewrite get6_P, set6_P; apply getP_setP_eq).
    assert (Hrest : ∀ k, (level < k < 32)%nat → frontier st1 k = frontier st k).
    { intros k Hk. unfold frontier, st1. rewrite !get6_P, set6_P. apply (getP_setP_ne Q); [apply ou_level; lia..|].
      intros [_ E]. apply levelKey_inj in E; lia. }
    destruct (IH (Datatypes.S level) st1) as (st' & E & Hq & Hv); [lia| |].
    { intros k Hk Hodd. destruct (decide (k = level)) as [->|Hne]; [exfalso; exact (eq_true_false_abs _ He Hodd)|].
      destruct (decide (k < level)%nat); [|rewrite Hrest by lia; by apply Hf].
      rewrite <- (Hf k Hk Hodd). unfold frontier, st1. rewrite !get6_P, set6_P. apply (getP_setP_ne Q); [apply ou_level; lia..|].
      intros [_ E]. apply levelKey_inj in E; lia. }
    exists st'. split_and!.
    + rewrite <- E. f_equal. unfold shieldedV6EmptyNodes. rewrite emptyNodes_nth by (unfold ShieldedV6OutputTreeDepth; lia).
      rewrite (Merkle.div_half (Z.of_nat (length l)) level : i (Datatypes.S level) = _). symmetry. by apply Merkle.last_up_even.
    + eapply quiet_trans; [done|]. eapply quiet_weaken; [|done]. intros p d (k & Hk & Hp). exists k. split; [lia|done].
    + intros k Hk. destruct (decide (k = level)) as [->|Hne].
      * rewrite He, (frontier_kept _ _ _ _ Hq) by lia. done.
      * rewrite Hv, Hrest by lia. done.
  - destruct (IH (Datatypes.S level) st) as (st' & E & Hq & Hv); [lia|done|]. exists st'. split_and!.
    + rewrite <- E. f_equal. rewrite (Merkle.div_half (Z.of_nat (length l)) level : i (Datatypes.S level) = _). symmetry.
      apply (Merkle.last_up_odd _ _ _ _ _ 32); [lia|done|done].
    + eapply quiet_weaken; [|done]. intros p d (k & Hk & Hp). exists k. split; [lia|done].
    + intros k Hk. destruct (decide (k = level)) as [->|Hne]; [rewrite He; by apply (frontier_kept (Datatypes.S level)); [|lia|lia]|]. apply Hv. lia.
Qed.

(** ** One output *)

(** A slot in use. *)
Ltac use6 := solve [apply ou_single; set_solver+ | apply ou_level; lia | apply ou_index; [set_solver+|lia] | by apply ou_key].

(** The writes behind the loop. *)
Definition finish6 (st : S) (count : Z) (o : ShieldedV6Output) (current h : hash) : S :=
  let st := setP st (pre6 (str "output-key")) (shieldedV6IndexKey count) (BytesToHash o.(o6_OneTimeKey)) in
  let st := setP st (pre6 (str "output-commitment")) (shieldedV6IndexKey count) (BytesToHash o.(o6_Commitment)) in
  let st := setP st (pre6 (str "output-tx")) (shieldedV6IndexKey count) h in
  let st := setP st (pre6 (str "key-index")) o.(o6_OneTimeKey) (uint64Hash (count +₆₄ 1)) in
  let st := setP st (pre6 (str "output-count")) [] (uint64Hash (count +₆₄ 1)) in
  setP st (pre6 (str "output-root")) [] current.

Lemma finish6_quiet st count o current h : 0 <= count < 2 ^ 32 → K o.(o6_OneTimeKey) → quiet Q outputSlot st (finish6 st count o current h).
Proof using HQ HU.
  intros Hc Hk. unfold finish6. repeat (eapply quiet_trans; [|apply quiet_set; [done|use6|unfold outputSlot; set_solver+]]). apply quiet_refl.
Qed.

Lemma finish6_at st count o current h i : 0 <= count < 2 ^ 32 → 0 <= i < 2 ^ 32 → K o.(o6_OneTimeKey) →
  let st' := finish6 st count o current h in
  let at_ (r : bytes) v := getP st' (pre6 r) (shieldedV6IndexKey i) = if decide (i = count) then v else getP st (pre6 r) (shieldedV6IndexKey i) in
  at_ (str "output-key") (BytesToHash o.(o6_OneTimeKey)) ∧ at_ (str "output-commitment") (BytesToHash o.(o6_Commitment)) ∧ at_ (str "output-tx") h.
Proof using HQ HU.
  intros Hc Hi Hk st' at_. unfold at_, st', finish6. clear at_ st'.
  assert (Hne : i ≠ count → shieldedV6IndexKey count ≠ shieldedV6IndexKey i) by (intros Hne E; apply v6IndexKey_inj in E; lia).
  split_and!; (destruct (decide (i = count)) as [->|Hn]; [|specialize (Hne Hn)]);
    repeat (first [rewrite getP_setP_eq; reflexivity | rewrite (getP_setP_ne Q); [|use6|use6|first [other6|by intros [_ E]]]]); done.
Qed.

Lemma finish6_single st count o current h : 0 <= count < 2 ^ 32 → K o.(o6_OneTimeKey) → let st' := finish6 st count o current h in
  getP st' (pre6 (str "output-count")) [] = count + 1 ∧ getP st' (pre6 (str "output-root")) [] = current
  ∧ (∀ k, (k < 32)%nat → frontier st' k = frontier st k)
  ∧ (∀ k, K k → getP st' (pre6 (str "key-index")) k = if decide (k = o.(o6_OneTimeKey)) then count + 1 else getP st (pre6 (str "key-index")) k).
Proof using HQ HU.
  intros Hc Hk st'. unfold st', finish6, frontier. clear st'.
  assert (Hv : uint64Hash (count +₆₄ 1) = count + 1) by (rewrite u64_add_no_wrap by (unfold is_u64, two64; lia); apply uint64Hash_id; unfold is_u64, two64; lia).
  rewrite Hv. split_and!.
  - rewrite (getP_setP_ne Q) by first [use6|other6]. apply getP_setP_eq.
  - apply getP_setP_eq.
  - intros k H32. rewrite !get6_P. repeat (rewrite (getP_setP_ne Q) by first [use6|other6]). done.
  - intros k Hkk. destruct (decide (k = o.(o6_OneTimeKey))) as [->|Hn];
      repeat (first [rewrite getP_setP_eq; reflexivity | rewrite (getP_setP_ne Q); [|use6|use6|first [other6|by intros [_ E]]]]); done.
Qed.

Lemma frontier_present st es : holds6 st es →
  (∀ k, (k < 32)%nat → Z.even (Z.of_nat (length es) / 2 ^ Z.of_nat k) = false → node6 (leaves6 es) k (Z.of_nat (length es) / 2 ^ Z.of_nat k - 1) ≠ 0) →
  frontierMissing st (Z.of_nat (length es)) = false.
Proof.
  intros H Hz. unfold frontierMissing. apply not_true_iff_false. intros Hex. apply existsb_exists in Hex as (k & Hk & Hb).
  apply in_seq in Hk. unfold ShieldedV6OutputTreeDepth in Hk. apply andb_true_iff in Hb as [Ht Hf]. apply Z.eqb_eq in Hf.
  assert (He : Z.even (Z.of_nat (length es) / 2 ^ Z.of_nat k) = false).
  { rewrite <- Z.shiftr_div_pow2 by lia. rewrite <- Z.negb_odd, <- Z.bit0_odd, Z.shiftr_spec, Z.add_0_l, Ht by lia. done. }
  pose proof (h6_frontier _ _ H k ltac:(lia)) as Hfr. rewrite length_leaves6 in Hfr. specialize (Hfr He). rewrite Hf in Hfr.
  by apply (Hz k); [lia|done|].
Qed.

Lemma finish6_holds st st1 es o h : holds6 st es → Z.of_nat (length es) < 2 ^ 32 → output_ok o → o.(o6_OneTimeKey) ∉ oneTimeKeysOf es →
  quiet Q (frontierFrom 0) st st1 → Merkle.frontier_ok shieldedV6HashNode emptyLeaf 32 (leaves6 (es ++ [(o, h)])) (frontier st1) →
  holds6 (finish6 st1 (Z.of_nat (length es)) o (root6 (es ++ [(o, h)])) h) (es ++ [(o, h)]).
Proof using HQ HU.
  intros H Hlt Ho Hnew Hq Hf. assert (Hlen : length (es ++ [(o, h)]) = Datatypes.S (length es)) by (rewrite length_app; cbn; lia).
  assert (Hc : 0 <= Z.of_nat (length es) < 2 ^ 32) by lia.
  assert (Hkeep : ∀ p d, inUse Q p d → p ≠ pre6 (str "accumulator-frontier") → getP st1 p d = getP st p d).
  { intros p d Hp Hn. apply (quiet_get Q _ _ _ _ _ Hq Hp). intros (k & _ & E & _). done. }
  destruct (finish6_single st1 (Z.of_nat (length es)) o (root6 (es ++ [(o, h)])) h Hc (oo_use _ Ho)) as (F1 & F2 & F3 & F4).
  set (st2 := finish6 _ _ _ _ _) in *. split.
  - lia.
  - apply Forall_app. split; [apply H|by apply Forall_singleton].
  - rewrite F1. lia.
  - intros k Hk He. rewrite F3 by done. by apply Hf.
  - rewrite F2, decide_False; [done|]. intros E%app_eq_nil. by destruct E.
  - intros i o' h' Hi. apply lookup_lt_Some in Hi as Hil.  rewrite length_app in Hil. cbn [length] in Hil.
    destruct (finish6_at st1 (Z.of_nat (length es)) o (root6 (es ++ [(o, h)])) h (Z.of_nat i) Hc ltac:(lia) (oo_use _ Ho)) as (A1 & A2 & A3).
    fold st2 in A1, A2, A3. rewrite A1, A2, A3. destruct (decide (Z.of_nat i = Z.of_nat (length es))) as [Heq|Hne].
    + apply Nat2Z.inj in Heq as ->. rewrite lookup_app_r, Nat.sub_diag in Hi by lia. cbn in Hi. by simplify_eq.
    + rewrite lookup_app_l in Hi by lia. rewrite !Hkeep by first [use6|prefix_ne]. by apply (h6_at _ _ H).
  - intros k Hk. rewrite F4 by done. unfold oneTimeKeysOf. rewrite fmap_app, elem_of_app. cbn [fmap list_fmap fst]. rewrite list_elem_of_singleton.
    destruct (decide (k = o.(o6_OneTimeKey))) as [->|Hne]; [split; [by right|lia]|]. rewrite Hkeep by first [use6|prefix_ne].
    rewrite (h6_keys _ _ H k Hk). unfold oneTimeKeysOf. tauto.
Qed.

Lemma append6_writes st es o h : holds6 st es → Z.of_nat (length es) < 2 ^ 32 → output_ok o → o.(o6_OneTimeKey) ∉ oneTimeKeysOf es →
  frontierMissing st (Z.of_nat (length es)) = false →
  ∃ st', shieldedV6AppendOutput st o h = (None, st') ∧ holds6 st' (es ++ [(o, h)]) ∧ quiet Q outputSlot st st'.
Proof using HQ HU.
  intros H Hlt Ho Hnew Hfr. unfold shieldedV6AppendOutput. rewrite (count6 st es H), (proj2 (oo_key _ Ho)), (proj2 (oo_commitment _ Ho)).
  rewrite (proj2 (Z.leb_gt _ _)) by lia. cbn [negb orb]. rewrite get6_P.
  destruct (decide (getP st (pre6 (str "key-index")) o.(o6_OneTimeKey) = 0)) as [->|Hn];
    [|by apply (h6_keys _ _ H _ (oo_use _ Ho)) in Hn]. cbn [Z.eqb negb]. rewrite Hfr.
  pose proof (frontierLoop_ok (leaves6 es) (accumulatorLeaf (Z.of_nat (length es)) o) 32 0 st eq_refl (h6_frontier _ _ H)) as (st1 & E & Hq & Hv).
  rewrite length_leaves6, !Z.div_1_r, Z.div_small in E by lia.
  assert (Hleaf : node6 (leaves6 es ++ [accumulatorLeaf (Z.of_nat (length es)) o]) 0 (Z.of_nat (length es)) = accumulatorLeaf (Z.of_nat (length es)) o).
  { apply Merkle.node_leaf. rewrite lookup_app_r, length_leaves6, Nat.sub_diag by (rewrite length_leaves6; lia). done. }
  rewrite Hleaf in E. change ShieldedV6OutputTreeDepth with 32%nat. rewrite E. rewrite !set6_P.
  assert (Hr : node6 (leaves6 es ++ [accumulatorLeaf (Z.of_nat (length es)) o]) 32 0 = root6 (es ++ [(o, h)])) by (unfold root6, Merkle.root; rewrite leaves6_snoc; cbn [fst]; reflexivity).
  rewrite Hr. eexists. split; [reflexivity|]. fold (finish6 st1 (Z.of_nat (length es)) o (root6 (es ++ [(o, h)])) h). split.
  - apply (finish6_holds st); try done. rewrite leaves6_snoc. apply (Merkle.frontier_snoc _ _ _ _ _ (frontier st)); [apply H|]. intros k Hk. apply Hv. lia.
  - eapply quiet_trans; [|apply finish6_quiet; [lia|apply Ho]]. eapply quiet_weaken; [|exact Hq].
    intros p d (k & _ & -> & _). unfold outputSlot. set_solver+.
Qed.

Lemma append6 st es o h : holds6 st es → Z.of_nat (length es) < 2 ^ 32 → output_ok o → o.(o6_OneTimeKey) ∉ oneTimeKeysOf es →
  (∀ k, (k < 32)%nat → Z.even (Z.of_nat (length es) / 2 ^ Z.of_nat k) = false → node6 (leaves6 es) k (Z.of_nat (length es) / 2 ^ Z.of_nat k - 1) ≠ 0) →
  ∃ st', shieldedV6AppendOutput st o h = (None, st') ∧ holds6 st' (es ++ [(o, h)]) ∧ quiet Q outputSlot st st'.
Proof using HQ HU. intros H Hlt Ho Hnew Hz. apply append6_writes; try done. by apply frontier_present. Qed.

(** An output with well-formed points. *)
Definition output_points (o : ShieldedV6Output) : Prop := point o.(o6_OneTimeKey) ∧ point o.(o6_Commitment) ∧ K o.(o6_OneTimeKey).

(** An accepted output was a new one. *)
Lemma append6_inv st st' es o h : holds6 st es → output_points o → shieldedV6AppendOutput st o h = (None, st') →
  holds6 st' (es ++ [(o, h)]) ∧ quiet Q outputSlot st st' ∧ (o.(o6_OneTimeKey) ∉ oneTimeKeysOf es).
Proof using HQ HU.
  intros H (Pk & Pc & Hk) E. pose proof E as E0. unfold shieldedV6AppendOutput in E. rewrite (count6 st es H) in E.
  destruct (negb (ValidatePublicKey _) || _) eqn:Hv; [done|]. apply orb_false_iff in Hv as [Hv1 Hv2]. apply negb_false_iff in Hv1, Hv2.
  destruct (Z.leb_spec (2 ^ 32) (Z.of_nat (length es))) as [|Hlt]; [done|]. destruct (negb (_ =? _)) eqn:Hn; [done|]. apply negb_false_iff, Z.eqb_eq in Hn.
  destruct (frontierMissing _ _) eqn:Hf; [done|]. clear E. assert (Ho : output_ok o) by (by split).
  assert (Hnew : o.(o6_OneTimeKey) ∉ oneTimeKeysOf es) by (rewrite get6_P in Hn; intros Hin; by apply (h6_keys _ _ H _ Hk) in Hin).
  destruct (append6_writes st es o h H Hlt Ho Hnew Hf) as (st2 & E2 & H2 & Q2). rewrite E2 in E0. by injection E0 as ->.
Qed.

(** ** All outputs *)

Definition appendEntries (st : S) (es : list entry) : option vError * S := appendAll6 (λ st e, shieldedV6AppendOutput st e.1 e.2) st es.

(** No node on the frontier of a prefix is the zero hash, which stands for an absent one. *)
Definition noZeroNode (es : list entry) : Prop :=
  ∀ m k, (m < length es)%nat → (k < 32)%nat → let i := Z.of_nat m / 2 ^ Z.of_nat k in
  Z.even i = false → node6 (leaves6 (take m es)) k (i - 1) ≠ 0.

Lemma append_entries st es new : holds6 st es → Forall (λ e, output_ok e.1) new → NoDup (oneTimeKeysOf (es ++ new)) →
  Z.of_nat (length (es ++ new)) <= 2 ^ 32 → noZeroNode (es ++ new) →
  ∃ st', appendEntries st new = (None, st') ∧ holds6 st' (es ++ new) ∧ quiet Q outputSlot st st'.
Proof using HQ HU.
  revert st es. induction new as [|[o h] new IH]; intros st es H Hok Hnd Hlen Hz.
  { exists st. rewrite app_nil_r. split_and!; [done..|apply quiet_refl]. }
  apply Forall_cons in Hok as [Ho Hok]. cbn [appendEntries appendAll6 fst snd].
  assert (Hsplit : es ++ (o, h) :: new = (es ++ [(o, h)]) ++ new) by (by rewrite <- app_assoc).
  assert (Hlen' : length (es ++ (o, h) :: new) = (length es + Datatypes.S (length new))%nat) by (rewrite length_app; done).
  destruct (append6 st es o h H) as (st1 & E & H1 & Hq1); [lia|done| | |].
  - unfold oneTimeKeysOf in Hnd. rewrite fmap_app in Hnd. apply NoDup_app in Hnd as (_ & Hd & _). intros Hin. apply (Hd _ Hin). cbn. set_solver+.
  - intros k Hk He. specialize (Hz (length es) k ltac:(lia) Hk He). by rewrite take_app_length in Hz.
  - unfold appendEntries in *. cbn [appendAll6 fst snd]. rewrite E. rewrite Hsplit in *. destruct (IH st1 (es ++ [(o, h)]) H1 Hok Hnd Hlen Hz) as (st2 & E2 & H2 & Hq2).
    exists st2. split_and!; [done..|by eapply quiet_trans].
Qed.

Lemma output_at st es i o h : holds6 st es → es !! i = Some (o, h) →
  shieldedV6ReadOutput st (Z.of_nat i) = Ok (o.(o6_OneTimeKey), o.(o6_Commitment))
  ∧ (h ≠ 0 → ShieldedV6OutputTransactionAt st (Z.of_nat i) = Ok h).
Proof.
  intros H Hi. apply lookup_lt_Some in Hi as Hl. destruct (h6_at _ _ H i o h Hi) as (A1 & A2 & A3).
  pose proof (Forall_lookup_1 _ _ _ _ (h6_ok _ _ H) Hi) as [[(Hb & Hn & Hz) _] [(Hb' & Hn' & Hz') _] _]. cbn [fst] in *.
  assert (Hp : ∀ b, bytes_ok b → length b = PointSize → hash_bytes (BytesToHash b) = b).
  { intros b Hok Hlen. unfold hash_bytes. rewrite BytesToHash_32 by done. replace 32%nat with (length b) by done. by apply be_bytes_value. }
  unfold shieldedV6ReadOutput, ShieldedV6OutputTransactionAt. rewrite (count6 st es H), !get6_P, A1, A2, A3, !Hp by done.
  rewrite (proj2 (Z.leb_gt _ _)) by lia. rewrite !bool_decide_eq_false_2 by done. cbn [mbind result_bind fail_if orb]. split; [done|].
  intros Hh. unfold zeroHash. by rewrite (proj2 (Z.eqb_neq _ _)) by done.
Qed.

Lemma root_at st es : holds6 st es → (es ≠ [] → root6 es ≠ 0) → ShieldedV6OutputRoot st = root6 es.
Proof.
  intros H Hr. unfold ShieldedV6OutputRoot. rewrite get6_P, (h6_root _ _ H), (count6 st es H). unfold ShieldedV6OutputTreeDepth.
  unfold shieldedV6EmptyNodes, ShieldedV6OutputTreeDepth. rewrite emptyNodes_nth by done.
  destruct (decide (es = [])) as [->|Hne].
  - unfold zeroHash, root6, Merkle.root. cbn [length Z.of_nat Z.eqb andb]. symmetry. exact (Merkle.node_nil shieldedV6HashNode emptyLeaf 32 0 ltac:(lia)).
  - unfold zeroHash. by rewrite (proj2 (Z.eqb_neq _ _) (Hr Hne)).
Qed.

(** Nothing is written to the accumulator yet. *)
Definition empty6 (st : S) : Prop := ∀ p d, inUse Q p d → outputSlot p d → getP st p d = 0.

Lemma empty_holds st : empty6 st → holds6 st [].
Proof using HU.
  intros H. split; try done.
  - apply H; [apply ou_single; set_solver+|unfold outputSlot; set_solver+].
  - rewrite decide_True by done. apply H; [apply ou_single; set_solver+|unfold outputSlot; set_solver+].
  - intros k Hk. rewrite H; [set_solver+|by apply ou_key|unfold outputSlot; set_solver+].
Qed.

(** C11: Appending Shield6 outputs with only one stored node per level never fails before the
    accumulator is full, and its root is the Merkle root of all outputs under the
    reference definition; every output can be read back by its index with its
    transaction, nothing behind the last one can, no other slot and no money
    changes; and an output whose one-time key or commitment is not the encoding of
    a point of the curve, an output whose one-time key is used, and any output once
    the accumulator is full, is refused without a write.  The outputs appended are
    well-formed with distinct keys, and no node on the frontier nor the root is the
    zero hash, which the code takes for an absent node. *)
Theorem output_accumulator_root st es :
  empty6 st → Forall (λ e, output_ok e.1 ∧ e.2 ≠ 0) es → NoDup (oneTimeKeysOf es) → Z.of_nat (length es) <= 2 ^ 32 → noZeroNode es → (es ≠ [] → root6 es ≠ 0) →
  ∃ st', appendEntries st es = (None, st')
    ∧ ShieldedV6OutputRoot st' = root6 es
    ∧ ShieldedV6OutputCount st' = Z.of_nat (length es)
    ∧ (∀ i o h, es !! i = Some (o, h) →
         shieldedV6ReadOutput st' (Z.of_nat i) = Ok (o.(o6_OneTimeKey), o.(o6_Commitment)) ∧ ShieldedV6OutputTransactionAt st' (Z.of_nat i) = Ok h)
    ∧ (∀ i, Z.of_nat (length es) <= i → shieldedV6ReadOutput st' i = Err ErrInvalidShieldedTx)
    ∧ quiet Q outputSlot st st'
    ∧ (∀ o h, ValidatePublicKey o.(o6_OneTimeKey) = false ∨ ValidateCommitmentEncoding o.(o6_Commitment) = false
           ∨ (K o.(o6_OneTimeKey) ∧ o.(o6_OneTimeKey) ∈ oneTimeKeysOf es) ∨ Z.of_nat (length es) = 2 ^ 32 →
         shieldedV6AppendOutput st' o h = (Some ErrInvalidShieldedTx, st')).
Proof using HQ HU.
  intros H0 Hes Hnd Hlen Hz Hr.
  destruct (append_entries st [] es (empty_holds st H0)) as (st' & E & H & Hq); [eapply Forall_impl; [exact Hes|]; by intros ? []|done..|]. cbn [app] in H.
  exists st'. split_and!; [done|exact (root_at st' es H Hr)|by apply count6| | |done|].
  - intros i o h Hi. destruct (output_at st' es i o h H Hi) as [A B]. split; [done|]. apply B. by apply (Forall_lookup_1 _ _ _ _ Hes Hi).
  - intros i Hi. unfold shieldedV6ReadOutput. rewrite (count6 st' es H), (proj2 (Z.leb_le _ _)) by done. done.
  - intros o h Hor. unfold shieldedV6AppendOutput. rewrite (count6 st' es H).
    destruct (ValidatePublicKey _); [|done]. destruct (ValidateCommitmentEncoding _); [|done]. cbn [negb orb].
    destruct (Z.leb_spec (2 ^ 32) (Z.of_nat (length es))) as [|Hlt]; [done|]. destruct Hor as [?|[?|[[Hk Hin]|?]]]; [done|done| |lia]. rewrite get6_P.
    apply (h6_keys _ _ H _ Hk) in Hin. unfold zeroHash. by rewrite (proj2 (Z.eqb_neq _ _)) by done.
Qed.

End Accumulator.
End Accumulator.
