(* ===== verification/PoolLedger.v ===== *)
(** * The ledger in storage

    The totals of [Ledger] as slots of the pool account: what a commit writes and
    leaves alone, the validator bonds that stay outside, and the accounts of one
    transition. *)

From S2P Require Import Prelude Bytes RLPStream State ValidatorRegistry ValidatorStore ShieldedTree NoteTree ShieldedEnvelopes Ledger ShieldedSpend PoolSlots.
Import RLPStream ValidatorRegistry ValidatorStore ShieldedTree NoteTree ShieldedEnvelopes Ledger ShieldedSpend PoolSlots.

Module PoolLedger.

Definition asset (a : Z) : Prop := a = AssetTKM ∨ a = AssetPTKM.
#[global] Instance asset_dec a : Decision (asset a).
Proof. unfold asset. apply _. Defined.

Lemma asset_normal a : asset a → NormalizeAssetID a = a.
Proof. by intros [->| ->]. Qed.

Lemma bigToHash_id x : 0 <= x < two256 → bigToHash x = x.
Proof.
  intros Hx. unfold bigToHash. assert (Hl : (length (min_bytes x) <= 32)%nat) by (apply min_bytes_length; by change (256 ^ Z.of_nat 32) with two256).
  unfold BytesToHash. rewrite (proj2 (Nat.ltb_ge _ _)) by lia. apply min_bytes_spec. lia.
Qed.

(** Money in, money out: the totals agree. *)
Definition balanced (l : ConfidentialLedgerTotals) : Prop :=
  l.(OpeningBacking) + l.(Deposited) = l.(Backing) + l.(Withdrawn) + l.(FeesBurned).

Definition in_range (l : ConfidentialLedgerTotals) : Prop :=
  Forall (λ x, 0 <= x < two256) [l.(OpeningBacking); l.(Deposited); l.(Withdrawn); l.(FeesBurned); l.(Backing)].

(** The ledger before its first use. *)
Definition untouched (l : ConfidentialLedgerTotals) : Prop := l.(Deposited) = 0 ∧ l.(Withdrawn) = 0 ∧ l.(FeesBurned) = 0.

Definition ledger_ok (l : ConfidentialLedgerTotals) : Prop := if l.(Initialized) then balanced l else untouched l.

Section Ledger.
Context {X : Externals} {N : Native} {U : Uint256} {S : Type} {W : WorldState S}.
Context (Q : prefix → bytes → Prop) (Tx : hash → Prop).
Context {HQ : PoolDistinct Q}.

(** The slots of the ledger, of the transactions [Tx] and of the validators. *)
Class LedgerUse := {
  lu_ledger a r : asset a → r ∈ ledgerRoles → inUse Q (preFor a r) [];
  lu_supply : inUse Q (preAsset AssetPTKM (str "supply")) [];
  lu_ticket h : Tx h → inUse Q (pre3 (str "confidential-ledger/v1/fee-ticket")) (hash_bytes h);
  lu_count : inUse Q (pre3 (str "validator/count")) [];
  lu_index i : inUse Q (pre3 (str "validator/index")) (be_bytes 8 i);
  lu_record r a : r ∈ [str "validator/record-chunk-count"; str "validator/record-byte-length"] → inUse Q (pre3 r) (address_bytes a);
  lu_chunk a i : inUse Q (pre3 (str "validator/record-chunk")) (address_bytes a ++ be_bytes 8 i);
}.
Context {HL : LedgerUse}.

(** ** Commits *)

Lemma ledgerSlot_P a r : asset a → ledgerSlot a r = slotAt (preFor a (ledgerRole r)) [].
Proof. intros Ha. apply slotFor. by apply asset_normal. Qed.

Lemma ledger_state st a : asset a → ConfidentialLedgerState st a =
  let read r := getP st (preFor a (ledgerRole r)) [] in
  {| OpeningBacking := read (str "opening"); Deposited := read (str "deposited"); Withdrawn := read (str "withdrawn"); FeesBurned := read (str "fees");
     Backing := read (str "backing"); Initialized := negb (read (str "initialized") =? 0) |}.
Proof. intros Ha. unfold ConfidentialLedgerState, getP. by rewrite !ledgerSlot_P by done. Qed.

Lemma ledger_same st st' a : asset a → (∀ r, r ∈ ledgerRoles → getP st' (preFor a r) [] = getP st (preFor a r) []) →
  ConfidentialLedgerState st' a = ConfidentialLedgerState st a.
Proof. intros Ha H. rewrite !ledger_state by done. cbv beta zeta. rewrite !H by (unfold ledgerRoles; set_solver+). done. Qed.

Definition ledgerWrites (a : Z) (p : prefix) (d : bytes) : Prop := p ∈ preFor a <$> ledgerRoles.

Lemma commit_writes st a l : asset a → commitLedger st a l =
  let put st r v := setP st (preFor a (ledgerRole r)) [] (bigToHash v) in
  put (put (put (put (put (put st (str "opening") l.(OpeningBacking)) (str "deposited") l.(Deposited)) (str "withdrawn") l.(Withdrawn))
    (str "fees") l.(FeesBurned)) (str "backing") l.(Backing)) (str "initialized") 1.
Proof. intros Ha. unfold commitLedger, setP. cbn [foldl]. by rewrite !ledgerSlot_P by done. Qed.

Ltac ledger_use := apply lu_ledger; [done|unfold ledgerRoles; set_solver+].

Lemma commit_quiet st a l : asset a → quiet Q (ledgerWrites a) st (commitLedger st a l).
Proof using HQ HL.
  intros Ha. rewrite commit_writes by done. cbv beta zeta.
  repeat (eapply quiet_trans; [|apply quiet_set; [done|ledger_use|unfold ledgerWrites, ledgerRoles; set_solver+]]). apply quiet_refl.
Qed.

Lemma commit_reads st a l : asset a → in_range l → ConfidentialLedgerState (commitLedger st a l) a =
  {| OpeningBacking := l.(OpeningBacking); Deposited := l.(Deposited); Withdrawn := l.(Withdrawn); FeesBurned := l.(FeesBurned);
     Backing := l.(Backing); Initialized := true |}.
Proof using HQ HL.
  intros Ha Hr. unfold in_range in Hr. rewrite !Forall_cons in Hr. destruct Hr as (R1 & R2 & R3 & R4 & R5 & _).
  rewrite ledger_state, commit_writes by done. cbv beta zeta. rewrite !bigToHash_id by (done || (unfold two256; lia)).
  f_equal; [..|apply (f_equal (λ v, negb (v =? 0)) (y := 1))];
    repeat first [rewrite getP_setP_eq; reflexivity
                 | rewrite (getP_setP_ne Q); [|ledger_use|ledger_use|destruct Ha as [->| ->]; intros [E _]; revert E; prefix_ne]].
Qed.

(** ** Bonds *)

Definition validatorSlot (p : prefix) : Prop :=
  p ∈ pre3 <$> [str "validator/count"; str "validator/index"; str "validator/record-chunk-count"; str "validator/record-byte-length"; str "validator/record-chunk"].

Lemma records_same st st' : (∀ p d, inUse Q p d → validatorSlot p → getP st' p d = getP st p d) → ValidatorRecords st' = ValidatorRecords st.
Proof using HL.
  intros H. assert (Hget : ∀ r d, inUse Q (pre3 r) d → validatorSlot (pre3 r) →
    GetState st' ShieldedPoolAddress (ShieldedV3StateSlot r d) = GetState st ShieldedPoolAddress (ShieldedV3StateSlot r d)).
  { intros r d Hu Hv. rewrite slot3. by apply H. }
  assert (Hrec : ∀ a, readValidatorRecord st' a = readValidatorRecord st a).
  { intros a. unfold readValidatorRecord, validatorRecordChunkCountSlot, validatorRecordByteLengthSlot, validatorRecordChunkSlot.
    rewrite !Hget by first [apply lu_record; set_solver+|unfold validatorSlot; set_solver+]. 
    rewrite (list_fmap_ext (λ i, hash_bytes (GetState st' _ _)) (λ i, hash_bytes (GetState st ShieldedPoolAddress
      (ShieldedV3StateSlot (str "validator/record-chunk") (address_bytes a ++ be_bytes 8 (Z.of_nat i)))))); [done|].
    intros _ i _. f_equal. apply Hget; [apply lu_chunk|unfold validatorSlot; set_solver+]. }
  assert (Hq : ∀ n i, readQueue st' n i = readQueue st n i).
  { induction n as [|n IH]; intros i; [done|]. cbn [readQueue]. unfold validatorIndexSlot.
    rewrite Hget by first [apply lu_index|unfold validatorSlot; set_solver+]. by rewrite Hrec, IH. }
  unfold ValidatorRecords, ValidatorCount, validatorCountSlot. rewrite Hget by first [apply lu_count|unfold validatorSlot; set_solver+]. by rewrite Hq.
Qed.

Lemma withoutBonds_shift records x y : withoutBonds x records = match withoutBonds y records with Ok z => Ok (z + (x - y)) | Err e => Err e end.
Proof.
  revert x y. induction records as [|r records IH]; intros x y; cbn [withoutBonds]; [f_equal; lia|]. destruct (_ || _); [done|].
  rewrite (IH _ (y - r.(Stake))). destruct (withoutBonds _ _); [|done]. f_equal. lia.
Qed.

(** The money outside the bonds and the wrapped asset, whatever its sign. *)
Definition unbonded (st : S) : result vError Z :=
  records ← ValidatorRecords st; reserve ← withoutBonds (GetBalance st ShieldedPoolAddress) records; Ok (reserve - shieldedV3AssetSupply st AssetPTKM).

Lemma native_reserve st r : confidentialNativeReserve st = Ok r ↔ unbonded st = Ok r ∧ 0 <= r.
Proof.
  unfold confidentialNativeReserve, unbonded. destruct (ValidatorRecords st) as [records|]; cbn [mbind result_bind]; [|by split; [|intros []]].
  destruct (withoutBonds _ _) as [x|]; cbn [mbind result_bind]; [|by split; [|intros []]].
  destruct (Z.ltb_spec (x - shieldedV3AssetSupply st AssetPTKM) 0); split; [done|intros [E%Ok_inj ?]; lia|intros E%Ok_inj; by subst|by intros [E%Ok_inj ?]; subst].
Qed.

Lemma unbonded_moves st st' r : (∀ p d, inUse Q p d → validatorSlot p → getP st' p d = getP st p d) → unbonded st = Ok r →
  unbonded st' = Ok (r + (GetBalance st' ShieldedPoolAddress - GetBalance st ShieldedPoolAddress)
                     - (shieldedV3AssetSupply st' AssetPTKM - shieldedV3AssetSupply st AssetPTKM)).
Proof using HL.
  intros Hv. unfold unbonded. rewrite (records_same _ _ Hv). destruct (ValidatorRecords st) as [records|]; cbn [mbind result_bind]; [|done].
  rewrite (withoutBonds_shift _ (GetBalance st' ShieldedPoolAddress) (GetBalance st ShieldedPoolAddress)). destruct (withoutBonds _ _); cbn [mbind result_bind]; [|done].
  intros E%Ok_inj. f_equal. lia.
Qed.

(** ** Transitions *)

Lemma badValue_false x : badValue x = false ↔ 0 <= x < two256.
Proof. unfold badValue. lia. Qed.

(** The ledger a transition starts from: at its first use it opens with the reserve. *)
Definition opened (l : ConfidentialLedgerTotals) (reserve : Z) : ConfidentialLedgerTotals :=
  if l.(Initialized) then l
  else {| OpeningBacking := reserve; Deposited := l.(Deposited); Withdrawn := l.(Withdrawn); FeesBurned := l.(FeesBurned);
          Backing := reserve; Initialized := true |}.

Lemma transition_ok st a d w f l' : asset a → ledgerTransition st a d w f = Ok l' →
  let l := ConfidentialLedgerState st a in
  ∃ native, confidentialNativeReserve st = Ok native
    ∧ (∀ (Hi : (ConfidentialLedgerState st AssetTKM).(Initialized) = true), (ConfidentialLedgerState st AssetTKM).(Backing) <= native)
    ∧ let reserve := if a =? AssetPTKM then shieldedV3AssetSupply st a else native in
      let l0 := opened l reserve in
      0 <= reserve ∧ l0.(Backing) <= reserve ∧ Forall (λ x, 0 <= x < two256) [d; w; f]
      ∧ l' = {| OpeningBacking := l0.(OpeningBacking); Deposited := l0.(Deposited) + d; Withdrawn := l0.(Withdrawn) + w; FeesBurned := l0.(FeesBurned) + f;
                Backing := l0.(Backing) + d - w - f; Initialized := true |}
      ∧ Forall (λ x, 0 <= x < two256) [l'.(Deposited); l'.(Withdrawn); l'.(FeesBurned); l'.(Backing)].
Proof.
  intros Ha H l. unfold ledgerTransition in H. fold l in H. apply bind_ok in H as (native & Hn & H). exists native. split; [done|].
  apply bind_ok in H as ([] & Hg & H). apply fail_if_ok in Hg.
  apply bind_ok in H as ([] & Hg2 & H). apply fail_if_ok in Hg2. apply bind_ok in H as ([] & Hg3 & H). apply fail_if_ok in Hg3.
  apply bind_ok in H as ([] & Hg4 & H). apply fail_if_ok in Hg4. apply Ok_inj in H. cbn [existsb] in Hg3, Hg4.
  split; [intros Hi; rewrite Hi in Hg; cbn [andb] in Hg; lia|].
  set (reserve := if a =? AssetPTKM then _ else _) in *.
  change (if l.(Initialized) then l else _) with (opened l reserve) in *. set (l0 := opened l reserve) in *.
  assert (Hinit : l0.(Initialized) = true) by (unfold l0, opened; by destruct (l.(Initialized)) eqn:E). rewrite Hinit in H.
  repeat match goal with Hx : _ || _ = false |- _ => apply orb_false_iff in Hx as [? ?] end.
  repeat match goal with Hx : badValue _ = false |- _ => apply badValue_false in Hx end.
  cbv zeta. fold l0. split; [lia|]. split; [lia|]. split; [repeat apply Forall_cons_2; auto|]. split; [done|]. rewrite <- H. cbn. repeat apply Forall_cons_2; auto.
Qed.

Lemma opened_balanced l reserve : ledger_ok l → balanced (opened l reserve).
Proof. unfold ledger_ok, opened, balanced, untouched. destruct (Initialized l) eqn:E; [done|]. cbn. lia. Qed.

Lemma transition_balanced st a d w f l' : asset a → ledger_ok (ConfidentialLedgerState st a) → ledgerTransition st a d w f = Ok l' →
  balanced l' ∧ l'.(Initialized) = true.
Proof.
  intros Ha Hok H. apply transition_ok in H as (native & _ & _ & _ & _ & _ & -> & _); [|done]. split; [|done].
  pose proof (opened_balanced _ (if a =? AssetPTKM then shieldedV3AssetSupply st a else native) Hok) as Hb. unfold balanced in *. cbn. lia.
Qed.

Lemma withoutBonds_le records x y : withoutBonds x records = Ok y → y <= x.
Proof.
  revert x. induction records as [|r records IH]; intros x; cbn [withoutBonds]; [intros E%Ok_inj; lia|].
  destruct (Z.ltb_spec r.(Stake) 0), (Z.leb_spec two256 r.(Stake)); cbn [orb]; try done. intros E%IH. lia.
Qed.

Lemma native_le st r : confidentialNativeReserve st = Ok r → 0 <= shieldedV3AssetSupply st AssetPTKM →
  0 <= r ∧ r + shieldedV3AssetSupply st AssetPTKM <= GetBalance st ShieldedPoolAddress.
Proof.
  intros H Hs. apply native_reserve in H as [H Hr]. split; [done|]. unfold unbonded in H. apply bind_ok in H as (records & _ & H).
  apply bind_ok in H as (x & Hx & H). apply withoutBonds_le in Hx. apply Ok_inj in H. lia.
Qed.

Lemma transition_range st a d w f l' : asset a → 0 <= shieldedV3AssetSupply st AssetPTKM < two256 →
  0 <= (ConfidentialLedgerState st a).(OpeningBacking) < two256 → ledgerTransition st a d w f = Ok l' → in_range l' ∧ l'.(Initialized) = true.
Proof.
  intros Ha Hs Ho H. apply transition_ok in H as (native & Hn & _ & Hr & _ & _ & -> & Hv); [|done].
  pose proof (native_le st native Hn ltac:(lia)) as [Hn0 Hnle]. pose proof (balance_range st ShieldedPoolAddress) as Hb. split; [|done].
  cbn [Deposited Withdrawn FeesBurned Backing] in Hv. unfold in_range. cbn [OpeningBacking Deposited Withdrawn FeesBurned Backing].
  apply Forall_cons_2; [|done]. unfold opened in *. destruct (ConfidentialLedgerState st a).(Initialized); [done|]. cbn [OpeningBacking].
  destruct Ha as [->| ->]; cbn [Z.eqb AssetTKM AssetPTKM Pos.eqb] in *; lia.
Qed.

End Ledger.
End PoolLedger.
