(* ===== verification/SpendRefinement.v ===== *)
(** * A pool of notes

    The abstract pool: the notes in their order, the nullifiers that were revealed, the
    commitments created, the link tags and the supply of the wrapped asset.  A spend
    reveals new nullifiers against an earlier root and appends notes.  The Shield3,
    Shield4 and Shield5 transactions of [ShieldedSpend] implement it. *)

From S2P Require Import Prelude Bytes State ChainConfig ValidatorRegistry ValidatorStore Merkle ShieldedTree NoteTree Stamps AddressVotes ShieldedEnvelopes Ledger ShieldedOnly ShieldedSpend PoolSlots PoolLedger.
Import ValidatorRegistry ValidatorStore ShieldedTree NoteTree Stamps AddressVotes ShieldedEnvelopes Ledger ShieldedOnly ShieldedSpend PoolSlots PoolLedger.

Module SpendRefinement.

(** ** The abstract pool *)

Record pool := {
  p_notes : list Digest;
  p_spent : list (Z * Digest);   (** asset and nullifier *)
  p_created : list (Z * Digest); (** asset and commitment *)
  p_links : list (Z * Digest);   (** asset and link tag *)
  p_supply : Z;
}.

Record spendOp := {
  o_asset : Z;
  o_deposit : bool;
  o_value : Z; (** what the transaction carries in *)
  o_withdrawal : Z;
  o_anchor : Digest;
  o_nullifiers : list Digest;
  o_outputs : list Digest;
  o_link : option Digest;
}.

Definition o_tags (o : spendOp) : list Digest := match o.(o_link) with Some t => if o.(o_deposit) then [] else [t] | None => [] end.

(** A deposit raises the supply of the wrapped asset, a withdrawal lowers it. *)
Definition newSupply (p : pool) (o : spendOp) : Z :=
  if o.(o_asset) =? AssetPTKM then (if o.(o_deposit) then p.(p_supply) + o.(o_value) else p.(p_supply) - o.(o_withdrawal)) else p.(p_supply).

Definition after (p : pool) (o : spendOp) : pool := {|
  p_notes := p.(p_notes) ++ o.(o_outputs);
  p_spent := p.(p_spent) ++ (pair o.(o_asset) <$> o.(o_nullifiers));
  p_created := p.(p_created) ++ (pair o.(o_asset) <$> o.(o_outputs));
  p_links := p.(p_links) ++ (pair o.(o_asset) <$> o_tags o);
  p_supply := newSupply p o;
|}.

Section Refinement.
Context {X : Externals} {N : Native} {U : Uint256} {S : Type} {W : WorldState S}.

(** The root of some of the notes, oldest first. *)
Definition earlierRoot (notes : list Digest) (d : Digest) : Prop :=
  ∃ n, (0 < n <= length notes)%nat ∧ d = Merkle.root hp zeroDigest 32 (take n notes).

Inductive pool_step (p : pool) (o : spendOp) : pool → Prop :=
| step_spend :
    asset o.(o_asset) →
    NoDup (p.(p_spent) ++ (pair o.(o_asset) <$> o.(o_nullifiers))) →
    NoDup (p.(p_created) ++ (pair o.(o_asset) <$> o.(o_outputs))) →
    NoDup (p.(p_links) ++ (pair o.(o_asset) <$> o_tags o)) →
    (if o.(o_deposit) then o.(o_nullifiers) = [] ∧ o.(o_withdrawal) = 0 else o.(o_nullifiers) ≠ [] ∧ earlierRoot p.(p_notes) o.(o_anchor)) →
    0 <= newSupply p o < two256 →
    pool_step p o (after p o).

(** ** Marks in storage *)

Context (Q : prefix → bytes → Prop) (Dg : Digest → Prop) (Tx : hash → Prop).
Context {HQ : PoolDistinct Q} {HD : Digests Dg} {HT : TreeUse (use3 Q) noteTree Dg} {HL : LedgerUse Q Tx}.

Definition nullPre (a : Z) : prefix := preFor a (str "nullifier").
Definition createPre (a : Z) : prefix := preFor a (str "commitment").

Class SpendUse := spend_use pre a d : pre ∈ [nullPre; createPre; linkPre] → asset a → Dg d → inUse Q (pre a) (Digest_Bytes d).
Context {HS : SpendUse}.

(** Slots with one of these prefixes. *)
Definition touches (ps : list prefix) (p : prefix) (d : bytes) : Prop := p ∈ ps.

Lemma touches_weaken ps ps' st st' : ps ⊆ ps' → sameBut Q (touches ps) st st' → sameBut Q (touches ps') st st'.
Proof. intros H. apply sameBut_weaken. intros p d. apply H. Qed.

(** The digests marked under a prefix, by asset. *)
Definition marks (st : S) (pre : Z → prefix) (log : list (Z * Digest)) : Prop :=
  ∀ a d, asset a → Dg d → getP st (pre a) (Digest_Bytes d) ≠ 0 ↔ (a, d) ∈ log.

Lemma marks_kept st st' pre log ps : pre ∈ [nullPre; createPre; linkPre] → sameBut Q (touches ps) st st' → (∀ a, asset a → pre a ∉ ps) →
  marks st pre log → marks st' pre log.
Proof using HS. intros Hp Hs Hn H a d Ha Hd. rewrite (sb_slots _ _ _ _ Hs); [by apply H|by apply spend_use|by apply Hn]. Qed.

Lemma pre_asset_inj pre a b : pre ∈ [nullPre; createPre; linkPre] → asset a → asset b → pre a = pre b → a = b.
Proof.
  intros Hp Ha Hb E. rewrite !elem_of_cons, elem_of_nil in Hp. destruct Hp as [->|[->|[->|[]]]], Ha as [->| ->], Hb as [->| ->]; try done;
    exfalso; revert E; prefix_ne.
Qed.

Lemma marks_set st pre log a d h : pre ∈ [nullPre; createPre; linkPre] → asset a → Dg d → h ≠ 0 → marks st pre log →
  marks (setP st (pre a) (Digest_Bytes d) h) pre (log ++ [(a, d)]).
Proof using HQ HS HD.
  intros Hp Ha Hd Hh H b d' Hb Hd'. rewrite elem_of_app, list_elem_of_singleton. destruct (decide (pre a = pre b ∧ Digest_Bytes d = Digest_Bytes d')) as [[E1 E2]|Hne].
  - apply (pre_asset_inj pre a b) in E1 as ->; [|done..]. apply Digest_Bytes_inj in E2 as ->; [|by eapply dg_ok..]. rewrite getP_setP_eq. split; [by right|done].
  - rewrite (getP_setP_ne Q) by (done || by apply spend_use). rewrite (H b d') by done. split; [by left|]. intros [|E]; [done|]. injection E as -> ->. by destruct Hne.
Qed.

(** All of them in turn. *)
Definition markAll (st : S) (p : prefix) (h : hash) (l : list Digest) : S := foldl (λ st d, setP st p (Digest_Bytes d) h) st l.

Lemma markAll_ok st pre log a h l : pre ∈ [nullPre; createPre; linkPre] → asset a → Forall Dg l → h ≠ 0 → marks st pre log →
  marks (markAll st (pre a) h l) pre (log ++ (pair a <$> l)) ∧ quiet Q (touches [pre a]) st (markAll st (pre a) h l).
Proof using HQ HS HD.
  intros Hp Ha Hl Hh. revert st log. induction l as [|d l IH]; intros st log H; cbn [markAll foldl fmap list_fmap].
  { rewrite app_nil_r. split; [done|apply quiet_refl]. }
  apply Forall_cons in Hl as [Hd Hl]. destruct (IH Hl _ _ (marks_set st pre log a d h Hp Ha Hd Hh H)) as [M F]. rewrite <- app_assoc in M.
  split; [done|]. eapply quiet_trans; [apply quiet_set; [done|by apply spend_use|]|exact F]. apply list_elem_of_here.
Qed.

(** ** The state of the pool *)

Record pool_holds (st : S) (p : pool) : Prop := {
  ph_tree : tree_holds noteTree Dg st (notes p.(p_notes));
  ph_spent : marks st nullPre p.(p_spent);
  ph_created : marks st createPre p.(p_created);
  ph_links : marks st linkPre p.(p_links);
  ph_supply : getP st (preAsset AssetPTKM (str "supply")) [] = p.(p_supply) ∧ 0 <= p.(p_supply) < two256;
  ph_opening a : asset a → 0 <= (ConfidentialLedgerState st a).(OpeningBacking) < two256;
  ph_distinct : NoDup p.(p_spent) ∧ NoDup p.(p_created) ∧ NoDup p.(p_links);
}.

Definition treePs : list prefix := pre3 <$> treeRoles noteTree.

Lemma tree_kept st st' ps l : sameBut Q (touches ps) st st' → Forall (λ p, p ∉ ps) treePs →
  tree_holds noteTree Dg st (notes l) → tree_holds noteTree Dg st' (notes l).
Proof using HT.
  intros Hs Hn. apply tree_same. intros k Hk. unfold getK, getSlot. rewrite !slot3. apply (sb_slots _ _ _ _ Hs).
  - apply used_inUse. by eapply tu_used.
  - rewrite Forall_forall in Hn. apply Hn. apply list_elem_of_fmap_2. apply (list_elem_of_lookup_2 _ (posOf k)). by destruct k.
Qed.

Lemma leaf_quiet st st' : frame (use3 Q) (keys noteTree Dg (λ _, True)) st st' → quiet Q (touches treePs) st st'.
Proof using HQ.
  intros F. split; [|apply F]. eapply sameBut_weaken; [|by apply frame_sameBut]. intros p d (r & -> & _ & k & _ & _ & -> & _).
  apply list_elem_of_fmap_2. apply (list_elem_of_lookup_2 _ (posOf k)). by destruct k.
Qed.

Lemma asset_set st a d r h : asset a → setAsset st a r d h = setP st (preFor a r) d h.
Proof. intros Ha. unfold setAsset, setP. by rewrite slotFor by (by apply asset_normal). Qed.

Lemma asset_get st a d r : asset a → getAsset st a r d = getP st (preFor a r) d.
Proof. intros Ha. unfold getAsset, getP. by rewrite slotFor by (by apply asset_normal). Qed.

(** The outputs become notes. *)
Lemma outputs_appended st st' l created a outs h : asset a → Forall (λ o, Dg o.(so_Commitment)) outs → h ≠ 0 →
  tree_holds noteTree Dg st (notes l) → marks st createPre created → appendOutputs st a outs h = (None, st') →
  let cs := so_Commitment <$> outs in
  tree_holds noteTree Dg st' (notes (l ++ cs)) ∧ marks st' createPre (created ++ (pair a <$> cs)) ∧ quiet Q (touches (treePs ++ [createPre a])) st st'.
Proof using HQ HS HD HT.
  intros Ha Ho Hh. revert st l created. induction outs as [|o outs IH]; intros st l created Ht Hm E; cbn [appendOutputs] in E.
  { injection E as <-. cbn. rewrite !app_nil_r. split_and!; [done..|apply quiet_refl]. }
  apply Forall_cons in Ho as [Hc Ho].
  assert (Hlt : Z.of_nat (length (notes l)) < 2 ^ 32).
  { destruct (Z.lt_ge_cases (Z.of_nat (length (notes l))) (2 ^ 32)) as [|Hge]; [done|]. exfalso. unfold appendShieldedV3Leaf in E.
    rewrite (next_holds Dg st _ Ht), (proj2 (Z.leb_le _ _)) in E by (unfold MerkleDepth; lia). done. }
  destruct (append_leaf (use3 Q) Dg st (notes l) o.(so_Commitment) h Ht Hlt Hc Hh) as (st1 & E1 & Ht1 & F1). rewrite E1, asset_set in E by done.
  change [(so_Commitment o, so_Commitment o)] with (notes [so_Commitment o]) in Ht1. unfold notes in Ht1. rewrite <- fmap_app in Ht1. fold (notes (l ++ [so_Commitment o])) in Ht1.
  apply leaf_quiet in F1. assert (Hin : createPre ∈ [nullPre; createPre; linkPre]) by set_solver+.
  assert (F2 : quiet Q (touches [createPre a]) st1 (setP st1 (createPre a) (Digest_Bytes o.(so_Commitment)) h)).
  { apply quiet_set; [done|by apply spend_use|apply list_elem_of_here]. }
  set (st2 := setP st1 (createPre a) (Digest_Bytes o.(so_Commitment)) h) in *. change (appendOutputs st2 a outs h = (None, st')) in E.
  destruct (IH Ho st2 (l ++ [o.(so_Commitment)]) (created ++ [(a, o.(so_Commitment))])) as (T & M & F); [| |exact E|].
  - eapply tree_kept; [apply F2| |exact Ht1]. destruct Ha as [->| ->]; apply (bool_decide_unpack _); vm_compute; exact I.
  - apply marks_set; try done. eapply marks_kept; [done|apply F1| |exact Hm]. intros b [->| ->]; apply (bool_decide_unpack _); vm_compute; exact I.
  - cbn [fmap list_fmap]. rewrite <- !app_assoc in *. split_and!; [done..|].
    eapply quiet_trans; [eapply quiet_weaken; [|exact F1]|eapply quiet_trans; [eapply quiet_weaken; [|exact F2]|exact F]]; unfold touches; set_solver+.
Qed.

(** ** Money *)

(** Every balance changes by [d], modulo [2^256]. *)
Definition moves (d : address → Z) (st st' : S) : Prop := ∀ a, GetBalance st' a = (GetBalance st a + d a) mod two256.

Definition only (a : address) (v : Z) (b : address) : Z := if decide (a = b) then v else 0.

Lemma moves_none (d : address → Z) st st' : (∀ a, d a = 0) → (∀ a, GetBalance st' a = GetBalance st a) → moves d st st'.
Proof. intros H0 H a. rewrite H0, Z.add_0_r, Z.mod_small, H; [done|apply balance_range]. Qed.

Lemma moves_trans d1 d2 d st1 st2 st3 : moves d1 st1 st2 → moves d2 st2 st3 → (∀ a, d a = d1 a + d2 a) → moves d st1 st3.
Proof. intros H1 H2 Hd a. rewrite H2, H1, Zplus_mod_idemp_l, Hd. f_equal. lia. Qed.

Lemma moves_add st a v : 0 <= v < two256 → moves (only a v) st (AddBalance st a v).
Proof.
  intros Hv b. rewrite GetBalance_Add by done. unfold only. destruct (decide (a = b)) as [->|].
  - by rewrite u256_add_spec.
  - rewrite Z.add_0_r, Z.mod_small; [done|apply balance_range].
Qed.

Lemma moves_sub st a v : 0 <= v < two256 → moves (only a (- v)) st (SubBalance st a v).
Proof.
  intros Hv b. rewrite GetBalance_Sub by done. unfold only. destruct (decide (a = b)) as [->|].
  - by rewrite u256_sub_spec.
  - rewrite Z.add_0_r, Z.mod_small; [done|apply balance_range].
Qed.

(** A payment out of the pool. *)
Lemma release_ok ps st to v : 0 <= v < two256 →
  moves (λ a, only ShieldedPoolAddress (- v) a + only to v a) st (release st to v) ∧ sameBut Q (touches ps) st (release st to v).
Proof.
  intros Hv. unfold release. destruct (Z.ltb_spec 0 v) as [Hp|Hz].
  - split; [by eapply moves_trans; [apply moves_sub|apply moves_add|]|]. eapply sameBut_trans; [apply sameBut_sub|apply sameBut_add].
  - split; [|apply sameBut_refl]. apply moves_none; [|done]. intros a. unfold only. repeat case_decide; lia.
Qed.

(** ** From the first write to the last *)

Definition supplyPre : prefix := preAsset AssetPTKM (str "supply").
Definition ticketPre : prefix := pre3 (str "confidential-ledger/v1/fee-ticket").
Definition ledgerPs (a : Z) : list prefix := preFor a <$> ledgerRoles.
Definition writtenPs (a : Z) : list prefix := [nullPre a; supplyPre; linkPre a; ticketPre] ++ ledgerPs a.

Lemma asset_markAll st a h l : asset a → foldl (λ st n, setAsset st a (str "nullifier") (Digest_Bytes n) h) st l = markAll st (nullPre a) h l.
Proof. intros Ha. revert st. induction l as [|n l IH]; intros st; [done|]. cbn [foldl markAll]. rewrite asset_set by done. apply IH. Qed.

Definition supplyStage (st : S) (a : Z) (deposit : bool) (value withdrawal : Z) : S :=
  if a =? AssetPTKM then
    let supply := shieldedV3AssetSupply st a in
    setShieldedV3AssetSupply st a (if deposit then supply + value else supply - withdrawal)
  else st.

Lemma supply_P st : shieldedV3AssetSupply st AssetPTKM = getP st supplyPre [].
Proof. apply asset_get. by right. Qed.

Lemma supplyStage_ok st p o : asset o.(o_asset) → getP st supplyPre [] = p.(p_supply) → 0 <= newSupply p o < two256 →
  let st' := supplyStage st o.(o_asset) o.(o_deposit) o.(o_value) o.(o_withdrawal) in
  getP st' supplyPre [] = newSupply p o ∧ quiet Q (touches [supplyPre]) st st'.
Proof using HQ HL.
  intros Ha Hs Hr. unfold supplyStage, newSupply in *. destruct (o_asset o =? AssetPTKM) eqn:E; [|split; [done|apply quiet_refl]].
  apply Z.eqb_eq in E. rewrite E, supply_P, Hs. unfold setShieldedV3AssetSupply. rewrite asset_set by (by right).
  rewrite bigToHash_id by (by destruct (o_deposit o)). fold supplyPre. split; [rewrite getP_setP_eq; by destruct (o_deposit o)|].
  apply quiet_set; [done|apply (lu_supply Q Tx)|apply list_elem_of_here].
Qed.

Definition linkStage (st : S) (a : Z) (deposit : bool) (link : option Digest) (h : hash) : S :=
  match link with Some t => if deposit then st else SetState st ShieldedPoolAddress (linkSlot a [] t) h | None => st end.

Lemma linkStage_ok st o h log : asset o.(o_asset) → Forall Dg (o_tags o) → h ≠ 0 → marks st linkPre log →
  let st' := linkStage st o.(o_asset) o.(o_deposit) o.(o_link) h in
  marks st' linkPre (log ++ (pair o.(o_asset) <$> o_tags o)) ∧ quiet Q (touches [linkPre o.(o_asset)]) st st'.
Proof using HQ HS HD.
  intros Ha Ht Hh Hm st'. assert (E : st' = markAll st (linkPre o.(o_asset)) h (o_tags o)).
  { unfold st', linkStage, o_tags. destruct (o_link o) as [t|]; [|done]. destruct (o_deposit o); [done|]. unfold markAll, setP. cbn [foldl].
    by rewrite slotLink by (by apply asset_normal). }
  rewrite E. apply markAll_ok; try done. set_solver+.
Qed.

(** The ledger is committed; a prepaid fee is burned with it. *)
Definition ledgerStage (st : S) (a : Z) (h : hash) (ledger : option ConfidentialLedgerTotals) (mode fee : Z) : S * Z :=
  match ledger with
  | Some l => let st := commitLedger st a l in if mode =? ShieldedFeePrepaid then (burnConfidentialFee st h fee, 0) else (st, fee)
  | None => (st, fee)
  end.

(** What is burned, and what the sender is paid. *)
Definition burned (ledger : option ConfidentialLedgerTotals) (mode fee : Z) : Z :=
  match ledger with Some _ => if mode =? ShieldedFeePrepaid then fee else 0 | None => 0 end.

Lemma ledgerStage_ok st a h ledger mode fee : asset a → Tx h → 0 <= fee < two256 →
  let '(st', sponsor) := ledgerStage st a h ledger mode fee in
  sponsor = fee - burned ledger mode fee ∧ sameBut Q (touches (ticketPre :: ledgerPs a)) st st'
  ∧ moves (only ShieldedPoolAddress (- burned ledger mode fee)) st st'
  ∧ ConfidentialLedgerState st' a = ConfidentialLedgerState (match ledger with Some l => commitLedger st a l | None => st end) a.
Proof using HQ HL.
  intros Ha Hx Hf. assert (H0 : ∀ a b, only a (- 0) b = 0) by (intros; unfold only; by case_decide).
  unfold ledgerStage, burned. destruct ledger as [l|]; [|split_and!; [lia|apply sameBut_refl|by apply moves_none|done]].
  assert (Hc : quiet Q (touches (ticketPre :: ledgerPs a)) st (commitLedger st a l)).
  { eapply quiet_weaken; [|by apply (commit_quiet Q Tx)]. unfold ledgerWrites, touches. intros p d Hp. rewrite elem_of_cons. by right. }
  destruct (mode =? ShieldedFeePrepaid); [|split_and!; [lia|apply Hc|apply moves_none; [done|apply Hc]|done]].
  assert (Hb : quiet Q (touches [ticketPre]) (SubBalance (commitLedger st a l) ShieldedPoolAddress fee) (burnConfidentialFee (commitLedger st a l) h fee)).
  { unfold burnConfidentialFee, confidentialFeeTicket. rewrite slot3. apply quiet_set; [done|by apply (lu_ticket Q Tx)|apply list_elem_of_here]. }
  assert (Hs : sameBut Q (touches [ticketPre]) (commitLedger st a l) (burnConfidentialFee (commitLedger st a l) h fee)).
  { eapply sameBut_trans; [apply sameBut_sub|apply Hb]. }
  split_and!; [lia| | |].
  - eapply sameBut_trans; [apply Hc|]. eapply touches_weaken; [|exact Hs]. set_solver+.
  - apply (moves_trans (λ _, 0) (only ShieldedPoolAddress (- fee)) _ _ (commitLedger st a l)); [apply moves_none; [done|apply Hc]| |done].
    apply (moves_trans (only ShieldedPoolAddress (- fee)) (λ _, 0) _ _ _ _ (moves_sub _ _ _ Hf)); [apply moves_none; [done|apply Hb]|]. intros; lia.
  - apply ledger_same; [done|]. intros r Hr. apply (sb_slots _ _ _ _ Hs); [by apply (lu_ledger Q Tx)|].
    unfold touches. rewrite list_elem_of_singleton. unfold ledgerRoles in Hr. rewrite !fmap_cons, fmap_nil, !elem_of_cons, elem_of_nil in Hr.
    destruct Ha as [->| ->], Hr as [->|[->|[->|[->|[->|[->|[]]]]]]]; prefix_ne.
Qed.

(** The operation a transaction stands for. *)
Definition opOf (tx : stx) (e : ShieldedV3Transaction) (nullifiers : list Digest) (link : option Digest) : spendOp := {|
  o_asset := shieldedV3AssetID e; o_deposit := e.(s3_Deposit); o_value := tx.(sx_tx).(vt_Value); o_withdrawal := e.(s3_WithdrawalValue);
  o_anchor := e.(s3_Anchor); o_nullifiers := nullifiers; o_outputs := so_Commitment <$> e.(s3_Outputs); o_link := link |}.

Lemma applySpend_stages st tx e nullifiers link ledger sender : asset (shieldedV3AssetID e) →
  applySpend st tx e nullifiers link ledger sender =
  let a := shieldedV3AssetID e in
  let h := tx.(sx_tx).(vt_Hash) in
  let st := markAll st (nullPre a) h nullifiers in
  let st := supplyStage st a e.(s3_Deposit) tx.(sx_tx).(vt_Value) e.(s3_WithdrawalValue) in
  let st := linkStage st a e.(s3_Deposit) link h in
  let '(st, sponsor) := ledgerStage st a h ledger e.(s3_FeeMode) e.(s3_GasSponsorValue) in
  release (release st e.(s3_WithdrawalRecipient) e.(s3_WithdrawalValue)) sender sponsor.
Proof. intros Ha. unfold applySpend. by rewrite asset_markAll. Qed.

(** What a spend pays: to the recipient, to the sender, and out of the pool. *)
Definition payments (e : ShieldedV3Transaction) (sender : address) (burn : Z) (a : address) : Z :=
  only e.(s3_WithdrawalRecipient) e.(s3_WithdrawalValue) a + only sender (e.(s3_GasSponsorValue) - burn) a
  + only ShieldedPoolAddress (- (e.(s3_WithdrawalValue) + e.(s3_GasSponsorValue))) a.

Lemma in_writtenPs a ps : asset a → ps ⊆ writtenPs a → Forall (λ p, p ∉ ps) treePs ∧ (∀ b, asset b → createPre b ∉ ps).
Proof.
  intros Ha Hps. assert (H : Forall (λ p, p ∉ writtenPs a) treePs ∧ ∀ b, asset b → createPre b ∉ writtenPs a).
  { destruct Ha as [->| ->]; (split; [apply (bool_decide_unpack _); vm_compute; exact I|]); intros b [->| ->]; apply (bool_decide_unpack _); vm_compute; exact I. }
  destruct H as [H1 H2]. split; [|intros b Hb Hin; by apply (H2 b Hb), Hps]. eapply Forall_impl; [exact H1|]. intros p Hp Hin. by apply Hp, Hps.
Qed.

(** A prefix not in a list is not in a part of it. *)
Ltac sub_asset H := let b := fresh in let Hb := fresh in let Hi := fresh in intros b Hb Hi; apply (H b Hb); revert Hi; set_solver+.
Ltac sub_in H := let Hi := fresh in intros Hi; apply H; revert Hi; unfold touches; set_solver+.

(** The prefixes of the stages differ. *)
Lemma stage_prefixes a : asset a →
  (∀ b, asset b → nullPre b ∉ (supplyPre :: linkPre a :: ticketPre :: ledgerPs a)) ∧ (∀ b, asset b → linkPre b ∉ (nullPre a :: supplyPre :: ticketPre :: ledgerPs a))
  ∧ (supplyPre ∉ (nullPre a :: linkPre a :: ticketPre :: ledgerPs a)) ∧ Forall (λ p, p ∉ [nullPre a; supplyPre; linkPre a]) (ledgerPs a).
Proof.
  intros [->| ->]; split_and!; try (intros b [->| ->]); apply (bool_decide_unpack _); vm_compute; exact I.
Qed.

Lemma ledger_kept st st' ps a : asset a → sameBut Q (touches ps) st st' → Forall (λ p, p ∉ ps) (ledgerPs a) →
  ConfidentialLedgerState st' a = ConfidentialLedgerState st a.
Proof using HL.
  intros Ha Hs Hn. apply ledger_same; [done|]. intros r Hr. apply (sb_slots _ _ _ _ Hs); [by apply (lu_ledger Q Tx)|].
  rewrite Forall_forall in Hn. apply Hn. by apply list_elem_of_fmap_2.
Qed.

Definition ledgerAfter (st : S) (a : Z) (ledger : option ConfidentialLedgerTotals) : ConfidentialLedgerTotals :=
  match ledger with Some l => l | None => ConfidentialLedgerState st a end.

Lemma applySpend_ok st p tx e nullifiers link ledger sender :
  let o := opOf tx e nullifiers link in let a := o.(o_asset) in let h := tx.(sx_tx).(vt_Hash) in
  let st' := applySpend st tx e nullifiers link ledger sender in
  (asset a) → Tx h → h ≠ 0 → Forall Dg nullifiers → Forall Dg (o_tags o) → 0 <= e.(s3_WithdrawalValue) < two256 → 0 <= e.(s3_GasSponsorValue) < two256 →
  0 <= newSupply p o < two256 → (∀ l, ledger = Some l → in_range l ∧ l.(Initialized) = true) →
  marks st nullPre p.(p_spent) → marks st linkPre p.(p_links) → getP st supplyPre [] = p.(p_supply) →
  sameBut Q (touches (writtenPs a)) st st' ∧ marks st' nullPre (after p o).(p_spent) ∧ marks st' linkPre (after p o).(p_links)
  ∧ getP st' supplyPre [] = newSupply p o ∧ moves (payments e sender (burned ledger e.(s3_FeeMode) e.(s3_GasSponsorValue))) st st'
  ∧ ConfidentialLedgerState st' a = ledgerAfter st a ledger.
Proof using HQ HS HD HL.
  intros o a h st' Ha Hx Hh Hn Ht Hw Hg Hsup Hled Mn Ml Hs. unfold st'. rewrite applySpend_stages by done. cbv zeta.
  change (shieldedV3AssetID e) with a. change (tx.(sx_tx).(vt_Hash)) with h.
  assert (Pn : nullPre ∈ [nullPre; createPre; linkPre]) by set_solver+. assert (Pl : linkPre ∈ [nullPre; createPre; linkPre]) by set_solver+.
  destruct (stage_prefixes a Ha) as (N1 & N2 & N3 & N4).
  destruct (markAll_ok st nullPre p.(p_spent) a h nullifiers Pn Ha Hn Hh Mn) as [Mn1 [F1 B1]]. set (st1 := markAll _ _ _ _) in *.
  destruct (supplyStage_ok st1 p o Ha) as [Hs2 [F2 B2]]; [|done|].
  { rewrite (sb_slots _ _ _ _ F1); [done|apply (lu_supply Q Tx)|sub_in N3]. }
  change (o.(o_asset)) with a in Hs2, F2, B2. cbn [opOf o o_deposit o_value o_withdrawal] in Hs2, F2, B2. set (st2 := supplyStage _ _ _ _ _) in *.
  destruct (linkStage_ok st2 o h p.(p_links) Ha Ht Hh) as [Ml3 [F3 B3]].
  { eapply marks_kept; [done|exact F2|sub_asset N2|]. eapply marks_kept; [done|exact F1|sub_asset N2|done]. }
  change (o.(o_asset)) with a in Ml3, F3, B3. cbn [opOf o o_deposit o_link] in Ml3, F3, B3. set (st3 := linkStage _ _ _ _ _) in *.
  pose proof (ledgerStage_ok st3 a h ledger e.(s3_FeeMode) e.(s3_GasSponsorValue) Ha Hx Hg) as H4.
  destruct (ledgerStage st3 a h ledger _ _) as [st4 sponsor]. destruct H4 as (-> & F4 & M4 & L4). set (burn := burned _ _ _) in *.
  assert (Hburn : 0 <= e.(s3_GasSponsorValue) - burn < two256) by (unfold burn, burned; destruct ledger; [destruct (_ =? _)|]; lia).
  destruct (release_ok [] st4 e.(s3_WithdrawalRecipient) e.(s3_WithdrawalValue) Hw) as [M5 F5].
  destruct (release_ok [] (release st4 e.(s3_WithdrawalRecipient) e.(s3_WithdrawalValue)) sender _ Hburn) as [M6 F6].
  set (st6 := release _ sender _) in *. pose proof (sameBut_trans _ _ _ _ _ F5 F6) as F56.
  assert (F46 : sameBut Q (touches (ticketPre :: ledgerPs a)) st3 st6).
  { eapply sameBut_trans; [exact F4|]. eapply touches_weaken; [|exact F56]. set_solver+. }
  split_and!.
  - eapply sameBut_trans; [eapply touches_weaken; [|exact F1]; unfold writtenPs; set_solver+|].
    eapply sameBut_trans; [eapply touches_weaken; [|exact F2]; unfold writtenPs; set_solver+|].
    eapply sameBut_trans; [eapply touches_weaken; [|exact F3]; unfold writtenPs; set_solver+|]. eapply touches_weaken; [|exact F46]. unfold writtenPs. set_solver+.
  - eapply marks_kept; [done|exact F46|sub_asset N1|]. eapply marks_kept; [done|exact F3|sub_asset N1|]. eapply marks_kept; [done|exact F2|sub_asset N1|done].
  - eapply marks_kept; [done|exact F46|sub_asset N2|done].
  - rewrite (sb_slots _ _ _ _ F46), (sb_slots _ _ _ _ F3); [done|apply (lu_supply Q Tx)|sub_in N3|apply (lu_supply Q Tx)|sub_in N3].
  - apply (moves_trans (λ _, 0) (payments e sender burn) _ _ st3); [apply moves_none; [done|intros x; by rewrite B3, B2, B1]| |done].
    eapply moves_trans; [exact M4|eapply moves_trans; [exact M5|exact M6|reflexivity]|]. intros x. unfold payments, only. repeat case_decide; lia.
  - rewrite (ledger_kept _ _ _ _ Ha F56) by (apply Forall_forall; intros; set_solver+). rewrite L4. unfold ledgerAfter. destruct ledger as [l|].
    + destruct (Hled l eq_refl) as [Hr Hi]. rewrite (commit_reads Q Tx) by done. destruct l. cbn in Hi. by subst.
    + rewrite (ledger_kept st2 st3 [linkPre a]), (ledger_kept st1 st2 [supplyPre]), (ledger_kept st st1 [nullPre a]); try done;
        (eapply Forall_impl; [exact N4|]; intros q Hq Hin; apply Hq; revert Hin; rewrite list_elem_of_singleton; intros ->; set_solver+).
Qed.

(** ** A whole spend *)

(** What the checks of a transaction establish. *)
Record checked (st : S) (tx : stx) (e : ShieldedV3Transaction) (nullifiers : list Digest) (link : option Digest) : Prop := {
  ck_asset : asset (shieldedV3AssetID e);
  ck_values : 0 <= e.(s3_WithdrawalValue) ∧ 0 <= e.(s3_GasSponsorValue) ∧ 0 <= tx.(sx_tx).(vt_Value);
  ck_distinct : NoDup nullifiers ∧ NoDup (so_Commitment <$> e.(s3_Outputs));
  ck_count : if e.(s3_Deposit) then nullifiers = [] ∧ e.(s3_WithdrawalValue) = 0 else nullifiers ≠ [];
  ck_unspent : Forall (λ n, getP st (nullPre (shieldedV3AssetID e)) (Digest_Bytes n) = 0) nullifiers;
  ck_tag : Forall (λ t, getP st (linkPre (shieldedV3AssetID e)) (Digest_Bytes t) = 0) (o_tags (opOf tx e nullifiers link));
  ck_anchor : e.(s3_Deposit) = false → getSlot st (str "root") (Digest_Bytes e.(s3_Anchor)) ≠ 0;
  ck_new : Forall (λ o, getP st (createPre (shieldedV3AssetID e)) (Digest_Bytes o.(so_Commitment)) = 0) e.(s3_Outputs);
  ck_supply : shieldedV3AssetID e = AssetPTKM →
    if e.(s3_Deposit) then getP st supplyPre [] + tx.(sx_tx).(vt_Value) < two256 else e.(s3_WithdrawalValue) <= getP st supplyPre [];
  ck_reserve : e.(s3_WithdrawalValue) + e.(s3_GasSponsorValue) <= GetBalance st ShieldedPoolAddress;
  ck_carried : if e.(s3_Deposit) then e.(s3_GasSponsorValue) = 0 else tx.(sx_tx).(vt_Value) = 0;
  ck_sponsor : shieldedV3AssetID e = AssetPTKM → e.(s3_GasSponsorValue) = 0;
}.

(** The digests of an envelope are in use. *)
Record envelope_use (tx : stx) (e : ShieldedV3Transaction) (nullifiers : list Digest) (link : option Digest) : Prop := {
  eu_hash : Tx tx.(sx_tx).(vt_Hash) ∧ tx.(sx_tx).(vt_Hash) ≠ 0;
  eu_anchor : Dg e.(s3_Anchor);
  eu_nullifiers : Forall Dg nullifiers;
  eu_outputs : Forall (λ o, Dg o.(so_Commitment)) e.(s3_Outputs);
  eu_tag t : link = Some t → Dg t;
}.

Lemma marks_fresh st pre log a l : asset a → Forall Dg l → marks st pre log → Forall (λ d, getP st (pre a) (Digest_Bytes d) = 0) l → NoDup log → NoDup l →
  NoDup (log ++ (pair a <$> l)).
Proof.
  intros Ha Hd Hm Hz Hlog Hl. apply NoDup_app. split_and!; [done| |apply NoDup_fmap_2; [|done]; by intros ?? [=]].
  intros [b d] Hin Hin'. apply list_elem_of_fmap in Hin' as (d' & [= -> ->] & Hd'). rewrite Forall_forall in Hz, Hd. apply (Hm a d' Ha (Hd _ Hd')) in Hin. by apply Hin, Hz.
Qed.

Lemma eu_tags tx e nullifiers link : envelope_use tx e nullifiers link → Forall Dg (o_tags (opOf tx e nullifiers link)).
Proof.
  intros H. unfold o_tags. cbn [opOf o_link o_deposit]. destruct link as [t|] eqn:E; [|done]. destruct (s3_Deposit e); [done|].
  apply Forall_singleton. by apply (eu_tag _ _ _ _ H).
Qed.

Lemma checked_step st p tx e nullifiers link : pool_holds st p → envelope_use tx e nullifiers link → checked st tx e nullifiers link →
  let o := opOf tx e nullifiers link in pool_step p o (after p o) ∧ 0 <= newSupply p o < two256.
Proof.
  intros H Hu C o. destruct H as [H1 H2 H3 H4 [H5 H5'] _ (D1 & D2 & D3)]. destruct C as [C1 (C2 & C2' & C2'') [C3 C3'] C4 C5 C6 C7 C8 C9 C10 _ _].
  assert (Hsup : 0 <= newSupply p o < two256).
  { unfold newSupply. cbn [o opOf o_asset o_deposit o_value o_withdrawal]. destruct (Z.eqb_spec (shieldedV3AssetID e) AssetPTKM) as [E|]; [|done].
    specialize (C9 E). unfold supplyPre in C9. rewrite H5 in C9. destruct (s3_Deposit e); lia. }
  split; [|done]. apply step_spend; try done.
  - apply (marks_fresh st nullPre); try done. apply Hu.
  - apply (marks_fresh st createPre); try done; [apply Forall_fmap, Hu|]. by apply Forall_fmap.
  - apply (marks_fresh st linkPre); try done; [by apply eu_tags|]. unfold o_tags. cbn. destruct link; [|constructor]. destruct (s3_Deposit e); [constructor|apply NoDup_singleton].
  - cbn [o opOf o_deposit o_nullifiers o_withdrawal o_anchor]. destruct (s3_Deposit e); [done|]. split; [done|].
    apply (notes_anchors Dg st p.(p_notes)); [done|apply Hu|by apply C7].
Qed.

(** What an accepted spend leaves behind. *)
Record spent (st : S) (p : pool) (tx : stx) (e : ShieldedV3Transaction) (nullifiers : list Digest) (link : option Digest)
    (ledger : option ConfidentialLedgerTotals) (sender : address) (st' : S) : Prop := {
  sp_step : let o := opOf tx e nullifiers link in pool_step p o (after p o) ∧ pool_holds st' (after p o);
  sp_ledger : ConfidentialLedgerState st' (shieldedV3AssetID e) = ledgerAfter st (shieldedV3AssetID e) ledger;
  sp_money : moves (payments e sender (burned ledger e.(s3_FeeMode) e.(s3_GasSponsorValue))) st st'
    ∧ e.(s3_WithdrawalValue) + e.(s3_GasSponsorValue) <= GetBalance st ShieldedPoolAddress;
  sp_rest : sameBut Q (touches (treePs ++ createPre (shieldedV3AssetID e) :: writtenPs (shieldedV3AssetID e))) st st';
}.

Lemma written_ps a : asset a →
  Forall (λ p, p ∉ writtenPs a) treePs ∧ (∀ b, asset b → createPre b ∉ writtenPs a)
  ∧ (∀ b, asset b → nullPre b ∉ (treePs ++ [createPre a])) ∧ (∀ b, asset b → linkPre b ∉ (treePs ++ [createPre a]))
  ∧ (supplyPre ∉ (treePs ++ [createPre a]))
  ∧ (∀ b, asset b → Forall (λ p, p ∉ (treePs ++ [createPre a])) (ledgerPs b))
  ∧ (∀ b, asset b → b ≠ a → Forall (λ p, p ∉ (treePs ++ createPre a :: writtenPs a)) (ledgerPs b)).
Proof.
  intros [->| ->]; split_and!; try (intros b [->| ->]);
    first [apply (bool_decide_unpack _); vm_compute; exact I | by intros [] | intros _; apply (bool_decide_unpack _); vm_compute; exact I].
Qed.

Lemma applied st p tx e nullifiers link ledger sender st1 :
  pool_holds st p → envelope_use tx e nullifiers link → checked st tx e nullifiers link →
  (∀ l, ledger = Some l → in_range l ∧ l.(Initialized) = true) →
  appendOutputs st (shieldedV3AssetID e) e.(s3_Outputs) tx.(sx_tx).(vt_Hash) = (None, st1) →
  spent st p tx e nullifiers link ledger sender (applySpend st1 tx e nullifiers link ledger sender).
Proof using HQ HS HD HT HL.
  intros H Hu C Hl E. set (a := shieldedV3AssetID e) in *. pose proof (ck_asset _ _ _ _ _ C) as Ha. change (asset a) in Ha.
  destruct (checked_step st p tx e nullifiers link H Hu C) as [Hstep Hsup]. destruct (eu_hash _ _ _ _ Hu) as [Hx Hh].
  destruct (outputs_appended st st1 p.(p_notes) p.(p_created) a e.(s3_Outputs) _ Ha (eu_outputs _ _ _ _ Hu) Hh (ph_tree _ _ H) (ph_created _ _ H) E)
    as (T1 & M1 & F1 & B1).
  destruct (written_ps a Ha) as (N1 & N2 & N3 & N4 & N5 & N6 & N7). destruct (ck_values _ _ _ _ _ C) as (V1 & V2 & _).
  pose proof (ck_reserve _ _ _ _ _ C) as Hres. pose proof (balance_range st ShieldedPoolAddress) as Hbal.
  destruct (applySpend_ok st1 p tx e nullifiers link ledger sender Ha Hx Hh (eu_nullifiers _ _ _ _ Hu) (eu_tags _ _ _ _ Hu) ltac:(lia) ltac:(lia) Hsup Hl)
    as (F2 & M2 & M3 & S2 & B2 & L2).
  { eapply marks_kept; [set_solver+|exact F1|exact N3|apply H]. }
  { eapply marks_kept; [set_solver+|exact F1|exact N4|apply H]. }
  { rewrite (sb_slots _ _ _ _ F1); [exact (proj1 (ph_supply _ _ H))|apply (lu_supply Q Tx)|exact N5]. }
  set (st' := applySpend _ _ _ _ _ _ _) in *. change (o_asset (opOf tx e nullifiers link)) with a in *.
  assert (L1 : ∀ b, asset b → ConfidentialLedgerState st1 b = ConfidentialLedgerState st b) by (intros b Hb; eapply ledger_kept; [done|exact F1|by apply N6]).
  assert (L2' : ConfidentialLedgerState st' a = ledgerAfter st a ledger) by (rewrite L2; unfold ledgerAfter; destruct ledger; [done|by apply L1]).
  assert (Fall : sameBut Q (touches (treePs ++ createPre a :: writtenPs a)) st st').
  { eapply sameBut_trans; [eapply touches_weaken; [|exact F1]|eapply touches_weaken; [|exact F2]]; set_solver+. }
  split; [split; [done|] |done| |done].
  - split.
    + eapply tree_kept; [exact F2|done|exact T1].
    + done.
    + eapply marks_kept; [set_solver+|exact F2|exact N2|exact M1].
    + done.
    + done.
    + intros b Hb. destruct (decide (b = a)) as [->|Hne].
      * rewrite L2'. unfold ledgerAfter. destruct ledger as [l|]; [|by apply H]. destruct (Hl l eq_refl) as [Hr _]. unfold in_range in Hr. by apply Forall_cons in Hr as [Hr _].
      * rewrite (ledger_kept _ _ _ _ Hb Fall (N7 b Hb Hne)). by apply H.
    + inversion Hstep. split_and!; done.
  - split; [|done]. apply (moves_trans (λ _, 0) (payments e sender (burned ledger e.(s3_FeeMode) e.(s3_GasSponsorValue))) _ _ st1); [by apply moves_none|done|done].
Qed.

End Refinement.
End SpendRefinement.
