(* ===== verification/SpendSafety.v ===== *)
(** * Shielded spends are safe

    The Shield3, Shield4 and Shield5 transactions refine the abstract pool of
    [SpendRefinement], whatever their version: a refused one changes nothing, and an
    accepted one is a step of the pool.  No nullifier is accepted twice, in one block
    or in many. *)

From S2P Require Import Prelude Bytes RLPTypes State ChainConfig ValidatorRegistry ValidatorStore Merkle ShieldedTree NoteTree Stamps AddressVotes ShieldedEnvelopes Ledger ShieldedOnly ShieldedSpend PoolSlots PoolLedger SpendRefinement.
Import RLPTypes ValidatorRegistry ValidatorStore ShieldedTree NoteTree Stamps AddressVotes ShieldedEnvelopes Ledger ShieldedOnly ShieldedSpend PoolSlots PoolLedger SpendRefinement.

Module SpendSafety.

Inductive version := V3 | V4 | V5.

Lemma lift_ok {A} (r : result vError A) a : lift r = Ok a → r = Ok a.
Proof. destruct r; cbn; intros E; [by apply Ok_inj in E as ->|done]. Qed.

Lemma existsb_false_Forall {A} (f : A → bool) l : existsb f l = false → Forall (λ a, f a = false) l.
Proof. induction l as [|a l IH]; cbn [existsb]; [constructor|]. intros [H1 H2]%orb_false_iff. constructor; auto. Qed.

(** ** Lists of nullifiers and outputs *)

Section Lists.
Context {X : Externals} {N : Native}.

Lemma nullifierLoop_ok all i count seen : nullifierLoop all i count seen = Ok () →
  NoDup (take (Z.to_nat (count - i)) all) ∧ Forall (λ n, n ∉ seen) (take (Z.to_nat (count - i)) all).
Proof.
  revert i seen. induction all as [|n all IH]; intros i seen H; cbn [nullifierLoop] in H.
  { rewrite take_nil. split; constructor. }
  apply bind_ok in H as (d & _ & H). destruct (Z.ltb_spec i count) as [Hi|Hi].
  - destruct (bool_decide (n = zeroDigest) || bool_decide (n ∈ seen)) eqn:E; [done|]. apply orb_false_iff in E as [_ E]. apply bool_decide_eq_false in E.
    apply IH in H as [H1 H2]. replace (Z.to_nat (count - i)) with (Datatypes.S (Z.to_nat (count - (i + 1)))) by lia. cbn [take]. split.
    + constructor; [|done]. intros Hin. rewrite Forall_forall in H2. apply (H2 n Hin). set_solver+.
    + constructor; [done|]. eapply Forall_impl; [exact H2|]. set_solver+.
  - replace (Z.to_nat (count - i)) with 0%nat by lia. rewrite take_0. split; constructor.
Qed.

Lemma activeNullifiers_ok deposit inputCount slots n all ns : 0 <= inputCount → activeNullifiers deposit inputCount slots (n :: all) = Ok ns →
  let count := if negb deposit && (inputCount =? 0) then 1 else inputCount in
  NoDup ns ∧ ns = take (Z.to_nat count) (n :: all) ∧ count <= slots ∧ (if deposit then ns = [] else ns ≠ []).
Proof.
  intros Hc H count. unfold activeNullifiers in H. fold count in H. apply bind_ok in H as ([] & Hg & H). apply fail_if_ok in Hg. apply orb_false_iff in Hg as [Hs Hd].
  apply bind_ok in H as ([] & Hl & H). apply Ok_inj in H. apply nullifierLoop_ok in Hl as [Hnd _]. rewrite Z.sub_0_r, H in Hnd.
  split; [done|]. split; [done|]. split; [lia|]. apply negb_false_iff, bool_decide_eq_true in Hd.
  assert (Hpos : 0 <= count) by (unfold count; destruct (_ && _); lia). destruct deposit.
  - symmetry in Hd. apply Z.eqb_eq in Hd. rewrite <- H, Hd. done.
  - symmetry in Hd. apply Z.eqb_neq in Hd. rewrite <- H. replace (Z.to_nat count) with (Datatypes.S (Z.to_nat (count - 1))) by lia. done.
Qed.

Lemma outputLoop_ok chain outs seen keys : outputLoop chain outs seen keys = true →
  NoDup (so_Commitment <$> outs) ∧ Forall (λ o, o.(so_Commitment) ∉ seen) outs.
Proof.
  revert seen keys. induction outs as [|o outs IH]; intros seen keys H; cbn [outputLoop] in H; [split; constructor|].
  destruct (bool_decide (so_Commitment o = zeroDigest) || bool_decide (so_Commitment o ∈ seen)) eqn:E; [done|].
  apply orb_false_iff in E as [_ E]. apply bool_decide_eq_false in E. destruct (_ || _); [done|]. destruct (_ || _); [done|]. destruct (forallb _ _); [|done].
  apply IH in H as [H1 H2]. rewrite Forall_forall in H2. split.
  - cbn. constructor; [|done]. intros Hin. apply list_elem_of_fmap in Hin as (o' & Eo & Hin). apply (H2 o' Hin). rewrite Eo. set_solver+.
  - constructor; [done|]. apply Forall_forall. intros o' Hin Hs. apply (H2 o' Hin). set_solver.
Qed.
End Lists.

(** ** Fixed sizes *)

(** A value of the type that the decoder can return. *)
Definition typed (ty : rtype) (v : rval) : Prop := (∃ i, denote ty v i) ∨ v = zeroOf ty.

Lemma fields_typed fs vs js : denoteFields denote fs vs js → Forall2 (λ f v, typed f.2 v) fs vs.
Proof.
  revert vs js. induction fs as [|[o t] fs IH]; intros vs js H; cbn [denoteFields] in H; [by destruct H as [-> _]|].
  destruct H as [(v & vs' & i & js' & -> & -> & Hv & H)|(_ & _ & ->)].
  - constructor; [left; by exists i|by eapply IH].
  - apply Forall2_fmap_r, Forall_Forall2_diag, Forall_true. intros f. by right.
Qed.

Lemma typed_uint bits v : typed (RUint bits) v → 0 <= numOf v.
Proof. intros [(i & n & -> & _ & Hn)| ->]; cbn; lia. Qed.

Lemma typed_array n t v : typed (RArray n t) v → length (digestsOf v) = n.
Proof. intros [(i & vs & js & -> & _ & _ & <-)| ->]; cbn; [apply length_fmap|]. by rewrite length_fmap, length_replicate. Qed.

Section Wire.
Context {X : Externals}.

Lemma decoded_fields {A} magic max fs (of_ : rval → option A) data e : wf_type (RStruct fs) → bytes_ok data → max < two64 →
  decodeEnvelope magic max (RStruct fs) of_ data = Ok (Some e) → ∃ vs, of_ (VList vs) = Some e ∧ Forall2 (λ f v, typed f.2 v) fs vs.
Proof.
  intros Hw Hb Hm H. unfold decodeEnvelope in H. destruct (negb _); [done|]. destruct (Z.ltb_spec max (Z.of_nat (length data))); [done|].
  destruct (decodeInto _ _ _) as [e'|] eqn:Hd; [|done]. injection H as ->. unfold decodeInto in Hd. destruct (DecodeBytes _ _ _) as [v|] eqn:Ed; [|done].
  destruct (of_ v) as [a|] eqn:Hof; [|done]. injection Hd as ->.
  apply DecodeBytes_inv in Ed as (i & (vs & js & -> & _ & Hf) & _); [|done|by apply Forall_drop|rewrite length_drop; lia].
  exists vs. split; [done|by eapply fields_typed].
Qed.

(** The nullifier arrays have their size, the count is a [uint64]. *)
Definition sized (e : ShieldedV3Transaction) : Prop := length e.(s3_AdditionalNullifiers) = 3%nat ∧ 0 <= e.(s3_InputCount).

Lemma base_sized ver dep anc nul root outs tail e : baseOf ver dep anc nul root outs tail = Some e → Forall2 (λ f v, typed f.2 v) tailType tail → sized e.
Proof.
  intros H Ht. unfold baseOf in H. destruct (outputsOf outs); [|done].
  do 10 (destruct tail as [|? tail]; [done|]). destruct tail; [|done]. injection H as <-.
  unfold tailType in Ht. do 4 (apply Forall2_cons in Ht as [_ Ht]). apply Forall2_cons in Ht as [Ha Ht]. apply Forall2_cons in Ht as [Hc _].
  split; cbn [s3_AdditionalNullifiers s3_InputCount]; [by apply typed_array in Ha|by eapply typed_uint].
Qed.

Lemma v3_sized data e : bytes_ok data → DecodeShieldedV3Transaction data = Ok (Some e) → sized e.
Proof.
  intros Hb H. apply decoded_fields in H as (vs & Hof & Hf); [|by vm_compute|done|done].
  do 6 (destruct vs as [|? vs]; [done|]). do 6 (apply Forall2_cons in Hf as [_ Hf]). by eapply base_sized.
Qed.

Lemma v4Of_sized vs e : v4Of (VList vs) = Some e → Forall2 (λ f v, typed f.2 v) v4Fields vs → sized e.(s4_base).
Proof.
  intros Hof Hf. do 7 (destruct vs as [|? vs]; [done|]). cbn [v4Of] in Hof. destruct (baseOf _ _ _ _ _ _ _) as [b|] eqn:Hb'; [|done]. injection Hof as <-.
  do 7 (apply Forall2_cons in Hf as [_ Hf]). by eapply base_sized.
Qed.

Lemma v4_sized data e : bytes_ok data → DecodeShieldedV4Transaction data = Ok (Some e) → sized e.(s4_base).
Proof. intros Hb H. apply decoded_fields in H as (vs & Hof & Hf); [|by vm_compute|done|done]. by eapply v4Of_sized. Qed.

Lemma v5_sized data e : bytes_ok data → DecodeShieldedV5Transaction data = Ok (Some e) → sized e.(s5_base).(s4_base).
Proof.
  intros Hb H. apply decoded_fields in H as (vs & Hof & Hf); [|by vm_compute|done|done]. unfold v5Of in Hof. destruct (last vs); [|done].
  apply Forall2_app_inv_l in Hf as (vs1 & vs2 & H1 & H2 & ->). apply Forall2_length in H2 as Hl. rewrite length_app, <- Hl, Nat.add_sub, take_app_length in Hof.
  destruct (v4Of (VList vs1)) as [b|] eqn:E; [|done]. injection Hof as <-. by eapply v4Of_sized.
Qed.
End Wire.

(** ** The three versions *)

Section Safety.
Context {X : Externals} {N : Native} {U : Uint256} {S : Type} {W : WorldState S}.

(** The fields a version shares with the others, its nullifiers and its link tag. *)
Definition readSpend (v : version) (data : bytes) : option (ShieldedV3Transaction * list Digest * option Digest) :=
  match v with
  | V3 => match DecodeShieldedV3Transaction data with
          | Ok (Some e) => match ShieldedV3Nullifiers e with Ok ns => Some (e, ns, None) | Err _ => None end
          | _ => None
          end
  | V4 => match DecodeShieldedV4Transaction data with
          | Ok (Some e) => match ShieldedV4Nullifiers e with Ok ns => Some (e.(s4_base), ns, Some e.(s4_LinkTag)) | Err _ => None end
          | _ => None
          end
  | V5 => match DecodeShieldedV5Transaction data with
          | Ok (Some e) => match ShieldedV5Nullifiers e with Ok ns => Some (e.(s5_base).(s4_base), ns, Some e.(s5_base).(s4_LinkTag)) | Err _ => None end
          | _ => None
          end
  end.

(** The native verifier accepts the proof for the statement of the transaction. *)
Definition proofAccepted (v : version) (tx : stx) : Prop :=
  match v with
  | V3 => ∃ e s, DecodeShieldedV3Transaction tx.(sx_tx).(vt_Data) = Ok (Some e) ∧ ShieldedV3Statement tx e = Ok s ∧ Verify s e.(s3_Proof) = Ok ()
  | V4 => ∃ e s t, DecodeShieldedV4Transaction tx.(sx_tx).(vt_Data) = Ok (Some e) ∧ ShieldedV4Statement tx e = Ok (s, t)
      ∧ VerifyV4 s t e.(s4_base).(s3_Proof) = Ok ()
  | V5 => ∃ e s t more, DecodeShieldedV5Transaction tx.(sx_tx).(vt_Data) = Ok (Some e) ∧ ShieldedV5Statement tx e = Ok (s, t, more)
      ∧ VerifyV5 s t more e.(s5_base).(s4_base).(s3_Proof) = Ok ()
  end.

Definition processSpend (v : version) (config : ChainConfig.ChainConfig) (number time : Z) (st : S) (tx : stx) (seen : gset hash)
  : option voteError * S * gset hash :=
  match v with
  | V3 => processShieldedV3 config number time st tx seen
  | V4 => processShieldedV4 config number time st tx seen
  | V5 => processShieldedV5 config number time st tx seen
  end.

(** The ledger of a transaction, where it is active. *)
Definition ledgerOf (config : ChainConfig.ChainConfig) (number time : Z) (st : S) (tx : stx) (e : ShieldedV3Transaction) : result vError (option ConfidentialLedgerTotals) :=
  if ChainConfig.IsConfidentialLedger config number time
  then l ← ledgerTransition st (shieldedV3AssetID e) (if e.(s3_Deposit) then tx.(sx_tx).(vt_Value) else 0) e.(s3_WithdrawalValue) e.(s3_GasSponsorValue); Ok (Some l)
  else Ok None.

Lemma spend_cases config number time st tx seen e ns link proved err st' seen' :
  spend config number time st tx seen e ns link proved = (err, st', seen') →
  match err with
  | Some _ => st' = st ∧ seen' = seen
  | None => ∃ ledger sender st1, ledgerOf config number time st tx e = Ok ledger ∧ proved = Ok () ∧ Sender config number time tx.(sx_tx) = Some sender
      ∧ appendOutputs st (shieldedV3AssetID e) e.(s3_Outputs) tx.(sx_tx).(vt_Hash) = (None, st1) ∧ st' = applySpend st1 tx e ns link ledger sender
      ∧ Forall (λ n, (blockNullifier (shieldedV3AssetID e) n ∉ seen) ∧ blockNullifier (shieldedV3AssetID e) n ∈ seen') ns ∧ seen ⊆ seen'
  end.
Proof.
  unfold spend. destruct (existsb _ _) eqn:Hs; [by intros [= <- <- <-]|]. fold (ledgerOf config number time st tx e).
  destruct (ledgerOf _ _ _ _ _ _) as [ledger|]; [|by intros [= <- <- <-]]. destruct proved as [[]|]; [|by intros [= <- <- <-]].
  destruct (Sender _ _ _ _) as [sender|] eqn:Hf; [|by intros [= <- <- <-]]. destruct (appendOutputs _ _ _ _) as [[?|] st1]; [by intros [= <- <- <-]|].
  intros [= <- <- <-]. exists ledger, sender, st1. split_and!; try done; [|set_solver+]. rewrite existsb_app in Hs. apply orb_false_iff in Hs as [Hs _].
  apply existsb_false_Forall in Hs. rewrite Forall_fmap in Hs. apply Forall_forall. intros n Hn. rewrite Forall_forall in Hs.
  specialize (Hs n Hn). cbn in Hs. apply bool_decide_eq_false in Hs. split; [done|].
  apply elem_of_union_r, elem_of_list_to_set, elem_of_app. left. by apply list_elem_of_fmap_2.
Qed.

Lemma reserve_le st a : 0 <= shieldedV3AssetSupply st AssetPTKM → shieldedV3SpendablePoolReserve st a <= GetBalance st ShieldedPoolAddress.
Proof.
  intros Hs. pose proof (balance_range st ShieldedPoolAddress). unfold shieldedV3SpendablePoolReserve. cbv zeta.
  destruct (_ =? _); [lia|]. destruct (_ <=? _); lia.
Qed.

(** What the check against the state establishes. *)
Record state_checked (st : S) (tx : stx) (e : ShieldedV3Transaction) (ns : list Digest) (link : option Digest) : Prop := {
  sc_unspent : e.(s3_Deposit) = false → Forall (λ n, getP st (nullPre (shieldedV3AssetID e)) (Digest_Bytes n) = 0) ns;
  sc_tag : e.(s3_Deposit) = false → ∀ t, link = Some t → getP st (linkPre (shieldedV3AssetID e)) (Digest_Bytes t) = 0;
  sc_anchor : e.(s3_Deposit) = false → getSlot st (str "root") (Digest_Bytes e.(s3_Anchor)) ≠ 0;
  sc_new : Forall (λ o, getP st (createPre (shieldedV3AssetID e)) (Digest_Bytes o.(so_Commitment)) = 0) e.(s3_Outputs);
  sc_supply : shieldedV3AssetID e = AssetPTKM →
    if e.(s3_Deposit) then getP st supplyPre [] + tx.(sx_tx).(vt_Value) < two256 else e.(s3_WithdrawalValue) <= getP st supplyPre [];
  sc_reserve : e.(s3_WithdrawalValue) + e.(s3_GasSponsorValue) <= GetBalance st ShieldedPoolAddress;
}.

Lemma spendState_ok st tx e link ns : asset (shieldedV3AssetID e) → 0 <= getP st supplyPre [] → ShieldedV3Nullifiers e = Ok ns →
  spendState st tx e link = Ok () → state_checked st tx e ns link.
Proof.
  intros Ha Hs Hn H. unfold spendState in H. set (a := shieldedV3AssetID e) in *.
  do 3 apply bind_ok in H as ([] & _ & H). apply bind_ok in H as (ns' & Hn' & H). apply lift_ok in Hn'. rewrite Hn in Hn'. apply Ok_inj in Hn' as <-.
  apply bind_ok in H as ([] & Hd & H). apply bind_ok in H as ([] & Ho & H). apply fail_if_ok in Ho. apply bind_ok in H as ([] & Hp & H).
  apply bind_ok in H as ([] & Hr & _). apply fail_if_ok in Hr. apply orb_false_iff in Hr as [_ Hr]. rewrite <- supply_P in Hs. pose proof (reserve_le st a Hs).
  assert (Hsp : e.(s3_Deposit) = false → Forall (λ n, getP st (nullPre a) (Digest_Bytes n) = 0) ns
    ∧ (∀ t, link = Some t → getP st (linkPre a) (Digest_Bytes t) = 0) ∧ getSlot st (str "root") (Digest_Bytes e.(s3_Anchor)) ≠ 0).
  { intros Ed. rewrite Ed in Hd. apply bind_ok in Hd as ([] & H1 & Hd). apply bind_ok in Hd as ([] & H2 & H3).
    apply fail_if_ok in H1, H2, H3. apply existsb_false_Forall in H1. split_and!.
    - eapply Forall_impl; [exact H1|]. intros n Hz. cbn in Hz. apply negb_false_iff, Z.eqb_eq in Hz.
      unfold ShieldedV3NullifierTransactionForAsset in Hz. by rewrite asset_get in Hz.
    - intros t ->. apply negb_false_iff, Z.eqb_eq in H2. unfold shieldedV4LinkTagTransactionForAsset in H2. by rewrite slotLink in H2 by (by apply asset_normal).
    - by apply Z.eqb_neq in H3. }
  split; fold a; try (intros Ed; apply Hsp in Ed; tauto).
  - apply existsb_false_Forall in Ho. eapply Forall_impl; [exact Ho|]. intros o Hz. cbn in Hz. apply negb_false_iff, Z.eqb_eq in Hz. by rewrite asset_get in Hz.
  - intros E. rewrite E in Hp. cbn [Z.eqb AssetPTKM Pos.eqb] in Hp. apply bind_ok in Hp as ([] & _ & Hp). rewrite supply_P in Hp. destruct (s3_Deposit e); apply fail_if_ok in Hp; lia.
  - lia.
Qed.

(** What the checks without state establish. *)
Record basics_checked (tx : stx) (e : ShieldedV3Transaction) : Prop := {
  bc_asset : asset (shieldedV3AssetID e);
  bc_values : 0 <= e.(s3_WithdrawalValue) ∧ 0 <= e.(s3_GasSponsorValue);
  bc_carried : if e.(s3_Deposit) then e.(s3_WithdrawalValue) = 0 ∧ e.(s3_GasSponsorValue) = 0 else tx.(sx_tx).(vt_Value) = 0;
  bc_sponsor : shieldedV3AssetID e = AssetPTKM → e.(s3_GasSponsorValue) = 0;
  bc_outputs : NoDup (so_Commitment <$> e.(s3_Outputs));
}.

Lemma checks_join st tx e ns link : 0 <= tx.(sx_tx).(vt_Value) → NoDup ns → (if e.(s3_Deposit) then ns = [] else ns ≠ []) →
  basics_checked tx e → state_checked st tx e ns link → checked st tx e ns link.
Proof.
  intros Hv Hnd Hne [B1 [B2 B2'] B3 B4 B5] [C1 C2 C3 C4 C5 C6]. split; try done.
  - destruct (s3_Deposit e); [|done]. split; [done|apply B3].
  - destruct (s3_Deposit e) eqn:Ed; [rewrite Hne; constructor|by apply C1].
  - unfold o_tags. cbn [opOf o_link o_deposit]. destruct link as [t|]; [|constructor]. destruct (s3_Deposit e); [constructor|]. apply Forall_singleton. by apply C2.
  - destruct (s3_Deposit e); [apply B3|done].
Qed.

Lemma supported a : IsSupportedAsset a = true → asset (NormalizeAssetID a).
Proof. unfold IsSupportedAsset, asset. intros [H%Z.eqb_eq|H%Z.eqb_eq]%orb_true_iff; auto. Qed.

Lemma basics_join config number time tx e tag chain : valueRules config number time tx e = Ok () → shapeRule tx e tag = false → sponsorRule tx e = false →
  outputLoop chain e.(s3_Outputs) [] [] = true → basics_checked tx e.
Proof.
  intros Hv Hs Hsp Ho. unfold valueRules in Hv. apply bind_ok in Hv as ([] & H1 & Hv). apply bind_ok in Hv as ([] & H2 & _). apply fail_if_ok in H1, H2.
  apply negb_false_iff in H1. apply orb_false_iff in H2 as [H2 H3]. split.
  - by apply supported.
  - lia.
  - unfold shapeRule in Hs. destruct (s3_Deposit e); repeat match goal with Hx : _ || _ = false |- _ => apply orb_false_iff in Hx as [? ?] end; lia.
  - intros E. unfold sponsorRule in Hsp. apply orb_false_iff in Hsp as [_ Hsp]. rewrite E in Hsp. cbn [Z.eqb AssetPTKM Pos.eqb andb] in Hsp. lia.
  - by eapply outputLoop_ok.
Qed.

(** The transaction as Go's types have it. *)
Definition tx_typed (tx : stx) : Prop := bytes_ok tx.(sx_tx).(vt_Data) ∧ 0 <= tx.(sx_tx).(vt_Value).

Lemma v3_nullifiers e ns : sized e → ShieldedV3Nullifiers e = Ok ns →
  NoDup ns ∧ ns = take (Z.to_nat (spendCount e)) (e.(s3_Nullifier) :: e.(s3_AdditionalNullifiers)) ∧ spendCount e <= 4 ∧ (if e.(s3_Deposit) then ns = [] else ns ≠ []).
Proof. intros [_ Hc]. by apply activeNullifiers_ok. Qed.

Lemma v3_checked config number time st tx e : tx_typed tx → 0 <= getP st supplyPre [] →
  shieldedV3Basics config number time tx = Ok e → validateShieldedV3State st tx e = Ok () →
  DecodeShieldedV3Transaction tx.(sx_tx).(vt_Data) = Ok (Some e) ∧ ∀ ns, ShieldedV3Nullifiers e = Ok ns → checked st tx e ns None.
Proof.
  intros [Hb Hv] Hs H Hst. unfold shieldedV3Basics in H. do 4 apply bind_ok in H as ([] & _ & H). apply bind_ok in H as (o & Hd & H). destruct o as [e'|]; [|done].
  apply bind_ok in H as ([] & _ & H). apply bind_ok in H as ([] & Hval & H). do 3 apply bind_ok in H as ([] & _ & H). apply bind_ok in H as ([] & Hsh & H).
  apply bind_ok in H as ([] & _ & H). apply bind_ok in H as ([] & Hsp & H). apply bind_ok in H as ([] & Ho & H). apply bind_ok in H as ([] & _ & H). apply Ok_inj in H as ->.
  apply fail_if_ok in Hsh, Hsp, Ho. apply negb_false_iff in Ho. pose proof (basics_join _ _ _ _ _ _ _ Hval Hsh Hsp Ho) as Hbc. split; [done|]. intros ns Hn.
  destruct (v3_nullifiers e ns (v3_sized _ _ Hb Hd) Hn) as (Hnd & _ & _ & Hne). apply checks_join; try done. eapply spendState_ok; [apply Hbc|done|done|done].
Qed.

Lemma v4_checked config number time st tx e : tx_typed tx → 0 <= getP st supplyPre [] →
  shieldedV4Basics config number time tx = Ok e → validateShieldedV4State st tx e = Ok () →
  DecodeShieldedV4Transaction tx.(sx_tx).(vt_Data) = Ok (Some e) ∧ ∀ ns, ShieldedV4Nullifiers e = Ok ns → checked st tx e.(s4_base) ns (Some e.(s4_LinkTag)).
Proof.
  intros [Hb Hv] Hs H Hst. unfold shieldedV4Basics in H. do 4 apply bind_ok in H as ([] & _ & H). apply bind_ok in H as (o & Hd & H). destruct o as [e'|]; [|done].
  cbv zeta in H. apply bind_ok in H as ([] & _ & H). apply bind_ok in H as ([] & Hval & H). do 3 apply bind_ok in H as ([] & _ & H). apply bind_ok in H as ([] & Hsh & H).
  apply bind_ok in H as ([] & _ & H). apply bind_ok in H as ([] & Hsp & H). apply bind_ok in H as ([] & Ho & H). apply bind_ok in H as ([] & _ & H). apply Ok_inj in H as ->.
  apply fail_if_ok in Hsh, Hsp, Ho. apply negb_false_iff in Ho. pose proof (basics_join _ _ _ _ _ _ _ Hval Hsh Hsp Ho) as Hbc. split; [done|]. intros ns Hn.
  destruct (v3_nullifiers e.(s4_base) ns (v4_sized _ _ Hb Hd) Hn) as (Hnd & _ & _ & Hne). apply checks_join; try done. eapply spendState_ok; [apply Hbc|done|done|done].
Qed.

(** A Shield5 envelope reveals the nullifiers of its Shield4 part and those behind them. *)
Lemma v5_nullifiers e ns ns4 : sized e.(s5_base).(s4_base) → ShieldedV5Nullifiers e = Ok ns → ShieldedV3Nullifiers (shieldedV5AsV4 e).(s4_base) = Ok ns4 →
  NoDup ns ∧ take 4 ns = ns4 ∧ (if e.(s5_base).(s4_base).(s3_Deposit) then ns = [] else ns ≠ []).
Proof.
  intros [Hl Hc] Hn Hn4. set (b := e.(s5_base).(s4_base)) in *. apply activeNullifiers_ok in Hn as (Hnd & E & _ & Hne); [|done].
  assert (Hs4 : sized (shieldedV5AsV4 e).(s4_base)) by (split; cbn; [done|fold b; lia]).
  apply v3_nullifiers in Hn4 as (_ & E4 & _ & _); [|done]. split_and!; [done| |done].
  change ((shieldedV5AsV4 e).(s4_base).(s3_Nullifier)) with b.(s3_Nullifier) in E4.
  change ((shieldedV5AsV4 e).(s4_base).(s3_AdditionalNullifiers)) with b.(s3_AdditionalNullifiers) in E4.
  assert (Hk : spendCount (shieldedV5AsV4 e).(s4_base) = Z.min (spendCount b) 4).
  { unfold spendCount. cbn [shieldedV5AsV4 s4_base s3_InputCount s3_Deposit]. fold b. destruct (s3_Deposit b); cbn [negb andb]; [done|].
    destruct (Z.eqb_spec (s3_InputCount b) 0) as [->|]; [done|]. destruct (Z.eqb_spec (Z.min (s3_InputCount b) 4) 0); lia. }
  rewrite E4, E, Hk. fold (spendCount b). rewrite take_take, Z2Nat.inj_min, Nat.min_comm. change (Z.to_nat 4) with 4%nat.
  rewrite app_comm_cons, take_app_le; [done|]. change (Z.to_nat (spendCount b) `min` 4 <= Datatypes.S (length b.(s3_AdditionalNullifiers)))%nat. rewrite Hl. lia.
Qed.

Lemma v5_checked config number time st tx e : tx_typed tx → 0 <= getP st supplyPre [] →
  shieldedV5Basics config number time tx = Ok e → validateShieldedV5State st tx e = Ok () →
  DecodeShieldedV5Transaction tx.(sx_tx).(vt_Data) = Ok (Some e)
  ∧ ∀ ns, ShieldedV5Nullifiers e = Ok ns → checked st tx e.(s5_base).(s4_base) ns (Some e.(s5_base).(s4_LinkTag)).
Proof.
  intros [Hb Hv] Hs H Hst. unfold shieldedV5Basics in H. apply bind_ok in H as ([] & _ & H). apply bind_ok in H as (o & Hd & H). destruct o as [e'|]; [|done].
  cbv zeta in H. do 4 apply bind_ok in H as ([] & _ & H). apply bind_ok in H as ([] & Hval & H). do 3 apply bind_ok in H as ([] & _ & H). apply bind_ok in H as ([] & Hsh & H).
  apply bind_ok in H as ([] & Hsp & H). apply bind_ok in H as ([] & Ho & H). apply bind_ok in H as ([] & _ & H). apply Ok_inj in H as ->.
  apply fail_if_ok in Hsh, Hsp, Ho. apply negb_false_iff in Ho. pose proof (basics_join _ _ _ _ (shieldedV5AsV4 e).(s4_base) (Some e.(s5_base).(s4_LinkTag)) (configChain config mod two64) Hval Hsh Hsp Ho) as [B1 B2 B3 B4 B5]. split; [done|]. intros ns Hn.
  unfold validateShieldedV5State in Hst. apply bind_ok in Hst as ([] & Hst & Hmore). apply bind_ok in Hmore as (ns' & Hn' & Hmore). apply lift_ok in Hn'.
  rewrite Hn in Hn'. apply Ok_inj in Hn' as <-. apply fail_if_ok, existsb_false_Forall in Hmore.
  destruct (ShieldedV3Nullifiers (shieldedV5AsV4 e).(s4_base)) as [ns4|err] eqn:Hn4.
  2: { exfalso. unfold validateShieldedV4State, spendState in Hst. do 3 apply bind_ok in Hst as ([] & _ & Hst). rewrite Hn4 in Hst. done. }
  destruct (v5_nullifiers e ns ns4 (v5_sized _ _ Hb Hd) Hn Hn4) as (Hnd & Ht & Hne).
  pose proof (spendState_ok st tx (shieldedV5AsV4 e).(s4_base) (Some (shieldedV5AsV4 e).(s4_LinkTag)) ns4 B1 Hs Hn4 Hst) as [C1 C2 C3 C4 C5 C6].
  apply checks_join; [done|done|done|by split|]. split; try done. intros Ed. rewrite <- (take_drop 4 ns), Ht. apply Forall_app. split; [by apply C1|].
  eapply Forall_impl; [exact Hmore|]. intros n Hz. cbn in Hz. apply negb_false_iff, Z.eqb_eq in Hz.
  unfold ShieldedV3NullifierTransactionForAsset in Hz. by rewrite asset_get in Hz.
Qed.

Lemma process_cases v config number time st tx seen err st' seen' : tx_typed tx → 0 <= getP st supplyPre [] →
  processSpend v config number time st tx seen = (err, st', seen') →
  match err with
  | Some _ => st' = st ∧ seen' = seen
  | None => ∃ e ns link ledger sender st1, readSpend v tx.(sx_tx).(vt_Data) = Some (e, ns, link) ∧ checked st tx e ns link ∧ proofAccepted v tx
      ∧ ledgerOf config number time st tx e = Ok ledger ∧ Sender config number time tx.(sx_tx) = Some sender
      ∧ appendOutputs st (shieldedV3AssetID e) e.(s3_Outputs) tx.(sx_tx).(vt_Hash) = (None, st1) ∧ st' = applySpend st1 tx e ns link ledger sender
      ∧ Forall (λ n, (blockNullifier (shieldedV3AssetID e) n ∉ seen) ∧ blockNullifier (shieldedV3AssetID e) n ∈ seen') ns ∧ seen ⊆ seen'
  end.
Proof.
  intros Htx Hs. destruct v; cbn [processSpend].
  - unfold processShieldedV3. destruct (lift (shieldedV3Basics config number time tx) ≫= _) as [[e ns]|] eqn:E; [|by intros [= <- <- <-]].
    apply bind_ok in E as (e' & Hb & E). apply lift_ok in Hb. apply bind_ok in E as ([] & Hst & E). apply bind_ok in E as (ns' & Hn & E). apply lift_ok in Hn.
    apply Ok_inj in E as [= -> ->]. destruct (v3_checked _ _ _ _ _ _ Htx Hs Hb Hst) as [Hd Hc]. intros H%spend_cases. destruct err; [done|].
    destruct H as (ledger & sender & st1 & Hl & Hp & H). apply bind_ok in Hp as (s0 & Hs0 & Hp).
    exists e, ns, None, ledger, sender, st1. split; [cbn; by rewrite Hd, Hn|]. split; [by apply Hc|]. split; [by exists e, s0|done].
  - unfold processShieldedV4. destruct (lift (shieldedV4Basics config number time tx) ≫= _) as [[e ns]|] eqn:E; [|by intros [= <- <- <-]].
    apply bind_ok in E as (e' & Hb & E). apply lift_ok in Hb. apply bind_ok in E as ([] & Hst & E). apply bind_ok in E as (ns' & Hn & E). apply lift_ok in Hn.
    apply Ok_inj in E as [= -> ->]. destruct (v4_checked _ _ _ _ _ _ Htx Hs Hb Hst) as [Hd Hc]. intros H%spend_cases. destruct err; [done|].
    destruct H as (ledger & sender & st1 & Hl & Hp & H). apply bind_ok in Hp as ([s0 t] & Hs0 & Hp).
    exists e.(s4_base), ns, (Some e.(s4_LinkTag)), ledger, sender, st1. split; [cbn; by rewrite Hd, Hn|]. split; [by apply Hc|]. split; [by exists e, s0, t|done].
  - unfold processShieldedV5. destruct (lift (shieldedV5Basics config number time tx) ≫= _) as [[e ns]|] eqn:E; [|by intros [= <- <- <-]].
    apply bind_ok in E as (e' & Hb & E). apply lift_ok in Hb. apply bind_ok in E as (from & _ & E). apply bind_ok in E as ([] & _ & E).
    apply bind_ok in E as ([] & Hst & E). apply bind_ok in E as (ns' & Hn & E). apply lift_ok in Hn.
    apply Ok_inj in E as [= -> ->]. destruct (v5_checked _ _ _ _ _ _ Htx Hs Hb Hst) as [Hd Hc]. intros H%spend_cases. destruct err; [done|].
    destruct H as (ledger & sender & st1 & Hl & Hp & H). apply bind_ok in Hp as ([[s0 t] more] & Hs0 & Hp).
    exists e.(s5_base).(s4_base), ns, (Some e.(s5_base).(s4_LinkTag)), ledger, sender, st1. split; [cbn; by rewrite Hd, Hn|].
    split; [by apply Hc|]. split; [by exists e, s0, t, more|done].
Qed.

(** ** Theorems *)

Context (Q : prefix → bytes → Prop) (Dg : Digest → Prop) (Tx : hash → Prop).
Context {HQ : PoolDistinct Q} {HD : Digests Dg} {HT : TreeUse (use3 Q) noteTree Dg} {HL : LedgerUse Q Tx} {HS : SpendUse Q Dg}.

(** The envelope's digests and the transaction's hash are in use. *)
Definition in_use (v : version) (tx : stx) : Prop :=
  ∀ e ns link, readSpend v tx.(sx_tx).(vt_Data) = Some (e, ns, link) → envelope_use Dg Tx tx e ns link.

Lemma spend_step v config number time st p tx seen st' seen' :
  pool_holds Dg st p → tx_typed tx → in_use v tx → processSpend v config number time st tx seen = (None, st', seen') →
  ∃ e ns link ledger sender, readSpend v tx.(sx_tx).(vt_Data) = Some (e, ns, link) ∧ proofAccepted v tx
    ∧ Sender config number time tx.(sx_tx) = Some sender ∧ ledgerOf config number time st tx e = Ok ledger
    ∧ checked st tx e ns link ∧ spent Q Dg st p tx e ns link ledger sender st'
    ∧ Forall (λ n, (blockNullifier (shieldedV3AssetID e) n ∉ seen) ∧ blockNullifier (shieldedV3AssetID e) n ∈ seen') ns ∧ seen ⊆ seen'.
Proof using HQ HD HT HL HS.
  intros H Htx Hu Hp. destruct (ph_supply _ _ _ H) as [Hs Hs']. apply process_cases in Hp; [|done|unfold supplyPre; rewrite Hs; lia].
  destruct Hp as (e & ns & link & ledger & sender & st1 & Hr & Hc & Hpr & Hl & Hf & Ha & -> & Hseen). exists e, ns, link, ledger, sender.
  split; [done|]. split; [done|]. split; [done|]. split; [done|]. split; [done|]. split; [|done]. apply (applied Q Dg Tx); try done; [by apply Hu|]. intros l ->. unfold ledgerOf in Hl.
  destruct (ChainConfig.IsConfidentialLedger _ _ _); [|done]. apply bind_ok in Hl as (l' & Hl & E). apply Ok_inj in E as [= ->].
  eapply transition_range; [apply Hc| |apply H, Hc|exact Hl]. rewrite supply_P. unfold supplyPre. by rewrite Hs.
Qed.

(** C1: The Shield3, Shield4 and Shield5 transactions refine the abstract pool of notes.  A
    refused transaction changes neither the state nor the nullifiers seen in the
    block.  An accepted one had its proof accepted for its own statement and takes
    one step of the pool: its nullifiers are distinct and were never revealed for
    the asset, its anchor is the root of some of the notes so far, its commitments
    and its link tag are new, the outputs become notes in the Merkle tree, the supply
    of the wrapped asset follows deposits and withdrawals without overflow; the pool
    pays the withdrawal and the sponsorship, which it holds, to the recipient and the
    sender, or burns the prepaid fee, and nothing else changes. *)
Theorem shielded_spend_refines v config number time st p tx seen err st' seen' :
  pool_holds Dg st p → tx_typed tx → in_use v tx → processSpend v config number time st tx seen = (err, st', seen') →
  match err with
  | Some _ => st' = st ∧ seen' = seen
  | None => ∃ e ns link ledger sender, readSpend v tx.(sx_tx).(vt_Data) = Some (e, ns, link) ∧ proofAccepted v tx
      ∧ Sender config number time tx.(sx_tx) = Some sender ∧ ledgerOf config number time st tx e = Ok ledger
      ∧ (let o := opOf tx e ns link in pool_step p o (after p o) ∧ pool_holds Dg st' (after p o))
      ∧ ConfidentialLedgerState st' (shieldedV3AssetID e) = ledgerAfter st (shieldedV3AssetID e) ledger
      ∧ (∀ a, GetBalance st' a = (GetBalance st a + payments e sender (burned ledger e.(s3_FeeMode) e.(s3_GasSponsorValue)) a) mod two256)
      ∧ e.(s3_WithdrawalValue) + e.(s3_GasSponsorValue) <= GetBalance st ShieldedPoolAddress
      ∧ sameBut Q (touches (treePs ++ createPre (shieldedV3AssetID e) :: writtenPs (shieldedV3AssetID e))) st st'
      ∧ Forall (λ n, (blockNullifier (shieldedV3AssetID e) n ∉ seen) ∧ blockNullifier (shieldedV3AssetID e) n ∈ seen') ns
  end.
Proof using HQ HD HT HL HS.
  intros H Htx Hu Hp. destruct err as [err|].
  - destruct (ph_supply _ _ _ H) as [Hs Hs']. apply process_cases in Hp; [done|done|unfold supplyPre; rewrite Hs; lia].
  - destruct (spend_step _ _ _ _ _ _ _ _ _ _ H Htx Hu Hp) as (e & ns & link & ledger & sender & R & P & F & L & _ & [A1 A2 [A3 A4] A5] & Hseen & _).
    by exists e, ns, link, ledger, sender.
Qed.

(** The slots that the pool is made of. *)
Definition poolSlot (p : prefix) : Prop :=
  p ∈ treePs ++ [supplyPre] ++ (nullPre <$> [AssetTKM; AssetPTKM]) ++ (createPre <$> [AssetTKM; AssetPTKM]) ++ (linkPre <$> [AssetTKM; AssetPTKM])
      ++ ledgerPs AssetTKM ++ ledgerPs AssetPTKM.

Lemma asset_listed {A} (f : Z → A) a : asset a → f a ∈ f <$> [AssetTKM; AssetPTKM].
Proof. intros [->| ->]; set_solver+. Qed.

Lemma pool_kept st st' p : (∀ q d, inUse Q q d → poolSlot q → getP st' q d = getP st q d) → pool_holds Dg st p → pool_holds Dg st' p.
Proof using HT HL HS.
  intros H [H1 H2 H3 H4 [H5 H5'] H6 H7].
  assert (Hm : ∀ pre log, pre ∈ [nullPre; createPre; linkPre] → marks Dg st pre log → marks Dg st' pre log).
  { intros pre log Hpre M a d Ha Hd. rewrite H; [by apply M|by apply (spend_use Q Dg)|]. rewrite !elem_of_cons, elem_of_nil in Hpre. unfold poolSlot. rewrite !elem_of_app.
    destruct Hpre as [->|[->|[->|[]]]]; pose proof (asset_listed nullPre a Ha); pose proof (asset_listed createPre a Ha); pose proof (asset_listed linkPre a Ha); tauto. }
  split.
  - eapply tree_same; [|exact H1]. intros k Hk. unfold getK, getSlot. rewrite !slot3. apply H; [by apply used_inUse, (tu_used (use3 Q) noteTree Dg)|].
    unfold poolSlot. apply elem_of_app. left. apply list_elem_of_fmap_2. apply (list_elem_of_lookup_2 _ (posOf k)). by destruct k.
  - apply Hm; [set_solver+|done].
  - apply Hm; [set_solver+|done].
  - apply Hm; [set_solver+|done].
  - split; [|done]. rewrite H; [done|apply (lu_supply Q Tx)|unfold poolSlot; set_solver+].
  - intros a Ha. rewrite (ledger_same st st' a Ha); [by apply H6|]. intros r Hr. apply H; [by apply (lu_ledger Q Tx)|].
    assert (preFor a r ∈ ledgerPs a) by (by apply list_elem_of_fmap_2). unfold poolSlot. rewrite !elem_of_app. destruct Ha as [->| ->]; tauto.
  - done.
Qed.

(** The link tags that an accepted transaction records. *)
Definition linkTags (tx : stx) (e : ShieldedV3Transaction) (ns : list Digest) (link : option Digest) : list (Z * Digest) :=
  pair (shieldedV3AssetID e) <$> o_tags (opOf tx e ns link).

(** A stretch of the chain: the nullifiers and the link tags of the spends accepted,
    in order, with whatever else happens to the state outside the pool's slots. *)
Inductive history : S → list (Z * Digest) → list (Z * Digest) → S → Prop :=
| history_start st : history st [] [] st
| history_spend st log tags st1 v config number time tx seen st2 seen' e ns link :
    history st log tags st1 → tx_typed tx → in_use v tx → processSpend v config number time st1 tx seen = (None, st2, seen') →
    readSpend v tx.(sx_tx).(vt_Data) = Some (e, ns, link) →
    history st (log ++ (pair (shieldedV3AssetID e) <$> ns)) (tags ++ linkTags tx e ns link) st2
| history_other st log tags st1 st2 :
    history st log tags st1 → (∀ q d, inUse Q q d → poolSlot q → getP st2 q d = getP st1 q d) → history st log tags st2.

Lemma history_holds st log tags st' p : history st log tags st' → pool_holds Dg st p →
  ∃ p', pool_holds Dg st' p' ∧ p'.(p_spent) = p.(p_spent) ++ log ∧ p'.(p_links) = p.(p_links) ++ tags.
Proof using HQ HD HT HL HS.
  intros Hh. induction Hh as [st|st log tags st1 v config number time tx seen st2 seen' e ns link _ IH Htx Hu Hp Hr|st log tags st1 st2 _ IH Hk]; intros H.
  - exists p. by rewrite !app_nil_r.
  - destruct (IH H) as (p1 & H1 & E1 & E2).
    destruct (spend_step _ _ _ _ _ _ _ _ _ _ H1 Htx Hu Hp) as (e' & ns' & link' & ledger & sender & R & _ & _ & _ & _ & [[_ H2] _ _ _] & _).
    rewrite R in Hr. injection Hr as -> -> ->. eexists. split; [exact H2|]. cbn [after p_spent p_links]. rewrite E1, E2, <- !app_assoc. by split.
  - destruct (IH H) as (p1 & H1 & E1 & E2). exists p1. split; [by eapply pool_kept|done].
Qed.

(** A transaction that would record a mark again is refused without any change. *)
Lemma reuse_refused v config number time st p tx seen err st2 seen' e ns link :
  pool_holds Dg st p → tx_typed tx → in_use v tx → readSpend v tx.(sx_tx).(vt_Data) = Some (e, ns, link) →
  (∃ n, n ∈ ns ∧ (shieldedV3AssetID e, n) ∈ p.(p_spent)) ∨ (∃ x, x ∈ linkTags tx e ns link ∧ x ∈ p.(p_links)) →
  processSpend v config number time st tx seen = (err, st2, seen') → is_Some err ∧ st2 = st ∧ seen' = seen.
Proof using HQ HD HT HL HS.
  intros H' Htx Hu Hr Hold Hp. destruct err as [err|].
  - destruct (ph_supply _ _ _ H') as [Hs Hs']. apply process_cases in Hp; [done|done|unfold supplyPre; rewrite Hs; lia].
  - exfalso. destruct (spend_step _ _ _ _ _ _ _ _ _ _ H' Htx Hu Hp) as (e' & ns' & link' & ledger & sender & R & _ & _ & _ & _ & [[Hst _] _ _ _] & _).
    rewrite R in Hr. injection Hr as -> -> ->. inversion Hst as [_ Hn _ Ht _ _]. destruct Hold as [(n & Hin & Hx)|(x & Hin & Hx)].
    + apply NoDup_app in Hn as (_ & Hd & _). apply (Hd _ Hx). by apply list_elem_of_fmap_2.
    + apply NoDup_app in Ht as (_ & Hd & _). by apply (Hd _ Hx).
Qed.

(** C2: No note is spent twice and no link tag is used twice.  However Shield3, Shield4
    and Shield5 transactions are mixed, in one block or in many, and whatever else
    happens in between that leaves the pool's own slots as they are, the nullifiers
    of all accepted spends are pairwise distinct for each asset and none was
    revealed before; so are the link tags of the accepted Shield4 and Shield5
    spends.  Each nullifier and each tag stays recorded in the state, and every
    later transaction that reveals a recorded nullifier, or spends under a
    recorded tag, is refused without any change. *)
Theorem no_double_spend st log tags st' p :
  pool_holds Dg st p → history st log tags st' →
  (NoDup log ∧ ∀ x, x ∈ log → x ∉ p.(p_spent))
  ∧ (NoDup tags ∧ ∀ x, x ∈ tags → x ∉ p.(p_links))
  ∧ (∀ a n, asset a → Dg n → (a, n) ∈ p.(p_spent) ++ log ↔ ShieldedV3NullifierTransactionForAsset st' a n ≠ 0)
  ∧ (∀ a t, asset a → Dg t → (a, t) ∈ p.(p_links) ++ tags ↔ shieldedV4LinkTagTransactionForAsset st' a t ≠ 0)
  ∧ ∀ v config number time tx seen err st2 seen' e ns link,
      tx_typed tx → in_use v tx → readSpend v tx.(sx_tx).(vt_Data) = Some (e, ns, link) →
      (∃ n, n ∈ ns ∧ (shieldedV3AssetID e, n) ∈ p.(p_spent) ++ log)
      ∨ (∃ t, link = Some t ∧ e.(s3_Deposit) = false ∧ (shieldedV3AssetID e, t) ∈ p.(p_links) ++ tags) →
      processSpend v config number time st' tx seen = (err, st2, seen') → is_Some err ∧ st2 = st' ∧ seen' = seen.
Proof using HQ HD HT HL HS.
  intros H Hh. destruct (history_holds _ _ _ _ _ Hh H) as (p' & H' & E1 & E2). destruct (ph_distinct _ _ _ H') as (Hnd & _ & Htd). rewrite E1 in Hnd. rewrite E2 in Htd.
  apply NoDup_app in Hnd as (_ & Hx & Hnd). apply NoDup_app in Htd as (_ & Hy & Htd). split_and!; [done|intros x ? ?; by apply (Hx x)|done|intros x ? ?; by apply (Hy x)| | |].
  - intros a n Ha Hn. unfold ShieldedV3NullifierTransactionForAsset. rewrite asset_get by done. rewrite <- E1. symmetry. by apply (ph_spent _ _ _ H').
  - intros a t Ha Ht. unfold shieldedV4LinkTagTransactionForAsset. rewrite slotLink by (by apply asset_normal). rewrite <- E2. symmetry. by apply (ph_links _ _ _ H').
  - intros v config number time tx seen err st2 seen' e ns link Htx Hu Hr Hold. apply (reuse_refused v config number time st' p' tx seen err st2 seen' e ns link); [done..|].
    rewrite E1, E2. destruct Hold as [?|(t & -> & Hd & Ht)]; [by left|right]. exists (shieldedV3AssetID e, t). split; [|done].
    unfold linkTags, o_tags. cbn [opOf o_link o_deposit]. rewrite Hd. by apply list_elem_of_singleton.
Qed.

End Safety.
End SpendSafety.
