(* ===== verification/LedgerSafety.v ===== *)
(** * The ledger stays balanced and backed

    Where the confidential ledger is active, every accepted Shield3, Shield4 or
    Shield5 transaction keeps the totals of both assets balanced, and the money of
    the pool outside bonds and wrapped notes covers the native backing. *)

From S2P Require Import Prelude Bytes State ChainConfig ValidatorRegistry ValidatorStore ShieldedTree NoteTree Stamps AddressVotes ShieldedEnvelopes Ledger ShieldedSpend PoolSlots PoolLedger SpendRefinement SpendSafety.
Import ValidatorRegistry ValidatorStore ShieldedTree NoteTree Stamps AddressVotes ShieldedEnvelopes Ledger ShieldedSpend PoolSlots PoolLedger SpendRefinement SpendSafety.

Module LedgerSafety.

Section Safety.
Context {X : Externals} {N : Native} {U : Uint256} {S : Type} {W : WorldState S}.
Context (Q : prefix → bytes → Prop) (Dg : Digest → Prop) (Tx : hash → Prop).
Context {HQ : PoolDistinct Q} {HD : Digests Dg} {HT : TreeUse (use3 Q) noteTree Dg} {HL : LedgerUse Q Tx} {HS : SpendUse Q Dg}.

(** The totals agree, and the money is there. *)
Record backed (st : S) : Prop := {
  bk_ok a : asset a → ledger_ok (ConfidentialLedgerState st a);
  bk_native : (ConfidentialLedgerState st AssetTKM).(Initialized) = true →
    ∃ r, confidentialNativeReserve st = Ok r ∧ (ConfidentialLedgerState st AssetTKM).(Backing) <= r;
  bk_wrapped : (ConfidentialLedgerState st AssetPTKM).(Initialized) = true →
    (ConfidentialLedgerState st AssetPTKM).(Backing) <= shieldedV3AssetSupply st AssetPTKM;
}.

(** ** The money of the pool *)

Lemma no_validator_slots a p : asset a → validatorSlot p → p ∉ (treePs ++ createPre a :: writtenPs a).
Proof.
  intros Ha Hv. assert (H : Forall (λ p, p ∉ (treePs ++ createPre a :: writtenPs a))
    (pre3 <$> [str "validator/count"; str "validator/index"; str "validator/record-chunk-count"; str "validator/record-byte-length"; str "validator/record-chunk"])).
  { destruct Ha as [->| ->]; apply (bool_decide_unpack _); vm_compute; exact I. }
  rewrite Forall_forall in H. by apply H.
Qed.

(** The pool after the payments and the transfer of the transaction's value. *)
Lemma pool_money st st' e sender burn value : moves (payments e sender burn) st st' → e.(s3_WithdrawalRecipient) ≠ ShieldedPoolAddress → sender ≠ ShieldedPoolAddress →
  0 <= e.(s3_WithdrawalValue) → 0 <= e.(s3_GasSponsorValue) → 0 <= value →
  e.(s3_WithdrawalValue) + e.(s3_GasSponsorValue) <= GetBalance st ShieldedPoolAddress → GetBalance st ShieldedPoolAddress + value < two256 →
  GetBalance (AddBalance st' ShieldedPoolAddress value) ShieldedPoolAddress
  = GetBalance st ShieldedPoolAddress - (e.(s3_WithdrawalValue) + e.(s3_GasSponsorValue)) + value.
Proof.
  intros M Hr Hs Hw Hg Hv Hle Hlt. pose proof (balance_range st ShieldedPoolAddress).
  assert (Hb : GetBalance st' ShieldedPoolAddress = GetBalance st ShieldedPoolAddress - (e.(s3_WithdrawalValue) + e.(s3_GasSponsorValue))).
  { rewrite M. unfold payments, only. rewrite !decide_False, decide_True by done. rewrite Z.mod_small; lia. }
  rewrite GetBalance_Add, decide_True, u256_add_spec, Hb, Z.mod_small by (done || lia). lia.
Qed.

Lemma ledger_add st a v b : ConfidentialLedgerState (AddBalance st a v) b = ConfidentialLedgerState st b.
Proof. unfold ConfidentialLedgerState. by rewrite !GetState_Add. Qed.

Lemma supply_add st a v : shieldedV3AssetSupply (AddBalance st a v) AssetPTKM = shieldedV3AssetSupply st AssetPTKM.
Proof. unfold shieldedV3AssetSupply, getAsset. apply GetState_Add. Qed.

(** The reserve moves with the money and against the supply. *)
Lemma reserve_moves st st' e value r : asset (shieldedV3AssetID e) →
  sameBut Q (touches (treePs ++ createPre (shieldedV3AssetID e) :: writtenPs (shieldedV3AssetID e))) st st' →
  unbonded st = Ok r → let st2 := AddBalance st' ShieldedPoolAddress value in
  unbonded st2 = Ok (r + (GetBalance st2 ShieldedPoolAddress - GetBalance st ShieldedPoolAddress)
                     - (shieldedV3AssetSupply st2 AssetPTKM - shieldedV3AssetSupply st AssetPTKM)).
Proof using HL.
  intros Ha F Hr st2. apply (unbonded_moves Q Tx); [|done]. intros p d Hp Hv. unfold st2, getP. rewrite GetState_Add. apply (sb_slots _ _ _ _ F); [done|].
  by apply no_validator_slots.
Qed.

(** C5: The confidential ledger stays balanced and backed.  With the ledger active, take an
    accepted Shield3, Shield4 or Shield5 transaction and the transfer of its value
    that follows: for both assets what was opened with and deposited is still
    what backs notes plus what was withdrawn and burned, the pool's money
    outside validator bonds and wrapped supply covers the native backing, and
    the recorded supply of the wrapped asset covers its own.  The pool itself is neither
    the sender nor the recipient, and its balance does not overflow. *)
Theorem ledger_stays_backed v config number time st p tx seen st' seen' :
  ChainConfig.IsConfidentialLedger config number time = true → pool_holds Dg st p → backed st → tx_typed tx → in_use Dg Tx v tx →
  processSpend v config number time st tx seen = (None, st', seen') →
  (∀ e ns link, readSpend v tx.(sx_tx).(vt_Data) = Some (e, ns, link) → e.(s3_WithdrawalRecipient) ≠ ShieldedPoolAddress) →
  Sender config number time tx.(sx_tx) ≠ Some ShieldedPoolAddress → GetBalance st ShieldedPoolAddress + tx.(sx_tx).(vt_Value) < two256 →
  backed (AddBalance st' ShieldedPoolAddress tx.(sx_tx).(vt_Value)).
Proof using HQ HD HT HL HS.
  intros Hact H [K1 K2 K3] Htx Hu Hp Hrec Hsend Hlt.
  destruct (spend_step Q Dg Tx _ _ _ _ _ _ _ _ _ _ H Htx Hu Hp) as (e & ns & link & ledger & sender & R & _ & F & L & C & [[_ Hph] SL [SM SR] SB] & _).
  destruct C as [Ha (V1 & V2 & V3') _ Hdep _ _ _ _ _ _ Hcar Hspo]. set (a := shieldedV3AssetID e) in *. set (value := tx.(sx_tx).(vt_Value)) in *.
  unfold ledgerOf in L. rewrite Hact in L. apply bind_ok in L as (l & L & El). apply Ok_inj in El as <-. cbn [ledgerAfter] in SL.
  destruct (transition_ok st a _ _ _ _ Ha L) as (native & Hn & Hnb & HT').
  destruct (transition_balanced st a _ _ _ _ Ha (K1 a Ha) L) as [Hbal Hini]. set (st2 := AddBalance st' ShieldedPoolAddress value).
  assert (Hmoney : GetBalance st2 ShieldedPoolAddress = GetBalance st ShieldedPoolAddress - (s3_WithdrawalValue e + s3_GasSponsorValue e) + value).
  { eapply pool_money; [exact SM|by eapply Hrec|congruence|done..]. }
  apply native_reserve in Hn as Hn'. destruct Hn' as [Hub Hn0]. pose proof (reserve_moves st st' e value native Ha SB Hub) as Hub2. cbv zeta in Hub2. fold st2 in Hub2.
  assert (HsupE : shieldedV3AssetSupply st2 AssetPTKM = (after p (opOf tx e ns link)).(p_supply)).
  { unfold st2. rewrite supply_add, supply_P. exact (proj1 (ph_supply _ _ _ Hph)). }
  assert (HsupS : shieldedV3AssetSupply st AssetPTKM = p.(p_supply)) by (rewrite supply_P; exact (proj1 (ph_supply _ _ _ H))).
  assert (Hother : ∀ b, asset b → b ≠ a → ConfidentialLedgerState st2 b = ConfidentialLedgerState st b).
  { intros b Hb Hne. unfold st2. rewrite ledger_add. destruct (written_ps a Ha) as (_ & _ & _ & _ & _ & _ & N7). by eapply (ledger_kept Q Tx); [..|apply N7]. }
  assert (Hthis : ConfidentialLedgerState st2 a = l) by (unfold st2; by rewrite ledger_add).
  rewrite HsupE, HsupS, Hmoney in Hub2. unfold after, newSupply in HsupE, Hub2. cbn [p_supply opOf o_asset o_deposit o_value o_withdrawal] in HsupE, Hub2. fold a value in HsupE, Hub2.
  clear Hp Hu Hph SM SB SL Hrec Hsend H Htx. destruct HT' as (R1 & R2 & _ & El & Rl). rewrite Forall_cons in Rl. destruct Rl as [_ Rl].
  do 2 (rewrite Forall_cons in Rl; destruct Rl as [_ Rl]). apply Forall_cons in Rl as [Rb _].
  destruct Ha as [Ea|Ea]; rewrite Ea in *; cbn [Z.eqb AssetTKM AssetPTKM Pos.eqb] in *.
  - assert (Hk : 0 <= native + (GetBalance st ShieldedPoolAddress - (s3_WithdrawalValue e + s3_GasSponsorValue e) + value - GetBalance st ShieldedPoolAddress)
      - (p_supply p - p_supply p) ∧ l.(Backing) <= native - (s3_WithdrawalValue e + s3_GasSponsorValue e) + value).
    { rewrite El in Rb |- *. cbn [Backing] in *. destruct (s3_Deposit e); lia. }
    split.
    + intros b [->| ->]; [rewrite Hthis; unfold ledger_ok; by rewrite Hini|]. rewrite Hother by first [by right|done]. apply K1. by right.
    + intros _. rewrite Hthis. eexists. split; [apply native_reserve; split; [exact Hub2|]|]; lia.
    + rewrite Hother by first [by right|done]. rewrite HsupE. intros Hi. rewrite <- HsupS. by apply K3.
  - specialize (Hspo eq_refl). split.
    + intros b [->| ->]; [|rewrite Hthis; unfold ledger_ok; by rewrite Hini]. rewrite Hother by first [by left|done]. apply K1. by left.
    + rewrite Hother by first [by left|done]. intros Hi. specialize (Hnb Hi). eexists. split; [apply native_reserve; split; [exact Hub2|]|]; destruct (s3_Deposit e); lia.
    + intros _. rewrite Hthis, HsupE, El. cbn [Backing]. destruct (s3_Deposit e); lia.
Qed.

End Safety.
End LedgerSafety.
