(* ===== verification/RingSpend.v ===== *)
(** * Ring spends

    The Shield6 transactions of [Shielded6] on the accumulator of [Accumulator]: an
    accepted one proves that it spends one of sixteen earlier outputs per input,
    without saying which, and records a key image that no other spend can use. *)

From S2P Require Import Prelude Bytes State ChainConfig ValidatorRegistry ValidatorStore Merkle ShieldedTree NoteTree Stamps AddressVotes ShieldedEnvelopes Ledger ShieldedOnly ShieldedSpend Shielded6 PoolSlots PoolLedger SpendRefinement SpendSafety Accumulator.
Import ValidatorRegistry ValidatorStore ShieldedTree NoteTree Stamps AddressVotes ShieldedEnvelopes Ledger ShieldedOnly ShieldedSpend Shielded6 PoolSlots PoolLedger SpendRefinement SpendSafety Accumulator.

Module RingSpend.

Section Ring.
Context {X : Externals} {N : Native} {C : Shield6Crypto} {U : Uint256} {S : Type} {W : WorldState S}.
Context (Q : prefix → bytes → Prop) (K : bytes → Prop) (Tx : hash → Prop).
Context {HQ : PoolDistinct Q} {HU : OutputUse Q K} {HL : LedgerUse Q Tx}.

(** The key images in use. *)
Context (I : bytes → Prop).
Class ImageUse := {
  iu_count : inUse Q (pre6 (str "key-image-count")) [];
  iu_index i : 0 <= i < two64 → inUse Q (pre6 (str "key-image-index")) (shieldedV6IndexKey i);
  iu_image k : I k → inUse Q (pre6 (str "key-image")) k;
}.
Context {HI : ImageUse}.

(** ** The recorded key images *)

Record images_hold (st : S) (ims : list bytes) : Prop := {
  ih_size : Z.of_nat (length ims) < two64;
  ih_count : getP st (pre6 (str "key-image-count")) [] = Z.of_nat (length ims);
  ih_at i k : ims !! i = Some k → getP st (pre6 (str "key-image-index")) (shieldedV6IndexKey (Z.of_nat i)) = BytesToHash k;
  ih_spent k : I k → getP st (pre6 (str "key-image")) k ≠ 0 ↔ k ∈ ims;
  ih_distinct : NoDup ims;
}.

Definition imageSlot (p : prefix) (d : bytes) : Prop := p ∈ pre6 <$> [str "key-image-count"; str "key-image-index"; str "key-image"].

Lemma images_kept st st' ims Wr : sameBut Q Wr st st' → (∀ p d, imageSlot p d → ¬ Wr p d) → images_hold st ims → images_hold st' ims.
Proof using HI.
  intros Hs Hn [H1 H2 H3 H4 H5]. assert (Hk : ∀ r d, inUse Q (pre6 r) d → imageSlot (pre6 r) d → getP st' (pre6 r) d = getP st (pre6 r) d).
  { intros r d Hr Hi. apply (sb_slots _ _ _ _ Hs); [done|by apply Hn]. }
  split; try done.
  - rewrite Hk; [done|apply iu_count|unfold imageSlot; set_solver+].
  - intros i k Hi. apply lookup_lt_Some in Hi as Hl. rewrite Hk; [by apply H3|apply iu_index; lia|unfold imageSlot; set_solver+].
  - intros k Hi. rewrite Hk; [by apply H4|by apply iu_image|unfold imageSlot; set_solver+].
Qed.

Lemma outputs_kept st st' es Wr : sameBut Q Wr st st' → (∀ p d, outputSlot p d → ¬ Wr p d) → holds6 K st es → holds6 K st' es.
Proof using HU.
  intros Hs Hn [H1 H2 H3 H4 H5 H6 H7]. assert (Hk : ∀ r d, inUse Q (pre6 r) d → outputSlot (pre6 r) d → getP st' (pre6 r) d = getP st (pre6 r) d).
  { intros r d Hr Hi. apply (sb_slots _ _ _ _ Hs); [done|by apply Hn]. }
  split; try done.
  - rewrite Hk; [done|apply (ou_single Q K); set_solver+|unfold outputSlot; set_solver+].
  - intros k Hlt He. unfold frontier. rewrite get6_P, Hk; [rewrite <- get6_P; by apply H4|by apply (ou_level Q K)|unfold outputSlot; set_solver+].
  - rewrite Hk; [done|apply (ou_single Q K); set_solver+|unfold outputSlot; set_solver+].
  - intros i o h Hi. apply lookup_lt_Some in Hi as Hl. rewrite !Hk; [by apply H6|..]; first [apply (ou_index Q K); [set_solver+|lia]|unfold outputSlot; set_solver+].
  - intros k Hi. rewrite Hk; [by apply H7|by apply (ou_key Q K)|unfold outputSlot; set_solver+].
Qed.

Lemma append_image st st' ims k h : images_hold st ims → I k → shieldedV6AppendKeyImage st k h = (None, st') →
  images_hold st' (ims ++ [k]) ∧ quiet Q imageSlot st st'.
Proof using HQ HI.
  intros [H1 H2 H3 H4 H5] Hk E. unfold shieldedV6AppendKeyImage in E. destruct (negb _ || (h =? zeroHash)) eqn:Hv; [done|].
  apply orb_false_iff in Hv as [_ Hh]. apply Z.eqb_neq in Hh. destruct (negb (_ =? _)) eqn:Hz; [done|]. apply negb_false_iff, Z.eqb_eq in Hz. rewrite get6_P in Hz.
  assert (Hc : ShieldedV6KeyImageCount st = Z.of_nat (length ims)) by (unfold ShieldedV6KeyImageCount; rewrite get6_P, H2; apply u64_small; split; lia).
  rewrite Hc in E. destruct (Z.eqb_spec (Z.of_nat (length ims)) (two64 - 1)) as [|Hne]; [done|]. injection E as <-. rewrite !set6_P.
  assert (Hu : uint64Hash (Z.of_nat (length ims) +₆₄ 1) = Z.of_nat (length ims) + 1) by (rewrite u64_add_no_wrap by (unfold is_u64, two64 in H1, Hne |- *; lia); apply uint64Hash_id; unfold is_u64, two64 in H1, Hne |- *; lia).
  rewrite Hu. set (n := Z.of_nat (length ims)) in *.
  assert (U1 : inUse Q (pre6 (str "key-image-index")) (shieldedV6IndexKey n)) by (apply iu_index; lia). pose proof iu_count as U2. pose proof (iu_image k Hk) as U3.
  split.
  2: { repeat (eapply quiet_trans; [|apply quiet_set; [done|eassumption|unfold imageSlot; set_solver+]]). apply quiet_refl. }
  assert (Hnew : k ∉ ims) by (intros Hin; by apply (H4 k Hk) in Hin). split.
  - rewrite length_app. cbn. lia.
  - rewrite (getP_setP_ne Q), getP_setP_eq by first [done|other6]. rewrite length_app. cbn. lia.
  - intros i k' Hi. apply lookup_lt_Some in Hi as Hl. rewrite length_app in Hl. cbn [length] in Hl.
    assert (U4 : inUse Q (pre6 (str "key-image-index")) (shieldedV6IndexKey (Z.of_nat i))) by (apply iu_index; lia).
    do 2 rewrite (getP_setP_ne Q) by first [done|other6]. destruct (decide (Z.of_nat i = n)) as [E|E].
    + rewrite E, getP_setP_eq. apply Nat2Z.inj in E as ->. rewrite lookup_app_r, Nat.sub_diag in Hi by done. cbn in Hi. by injection Hi as ->.
    + rewrite (getP_setP_ne Q); [|done|done|]; [|intros [_ Ek]; apply v6IndexKey_inj in Ek; unfold two64 in H1; lia]. rewrite lookup_app_l in Hi by lia. by apply H3.
  - intros k' Hk'. rewrite elem_of_app, list_elem_of_singleton. destruct (decide (k' = k)) as [->|Hkk].
    + rewrite getP_setP_eq. split; [by right|done].
    + rewrite (getP_setP_ne Q); [|done|by apply iu_image|by intros [_ E]]. do 2 rewrite (getP_setP_ne Q) by first [done|by apply iu_image|other6].
      rewrite (H4 k' Hk'). tauto.
  - apply NoDup_app. split_and!; [done|by intros x Hx ->%list_elem_of_singleton|apply NoDup_singleton].
Qed.

(** *** Several at once *)

Lemma append_outputs6 st st' es outs h : holds6 K st es → Forall (output_points K) outs →
  appendAll6 (λ st o, shieldedV6AppendOutput st o h) st outs = (None, st') → holds6 K st' (es ++ ((λ o, (o, h)) <$> outs)) ∧ quiet Q outputSlot st st'.
Proof using HQ HU.
  revert st es. induction outs as [|o outs IH]; intros st es H Ho E; cbn [appendAll6] in E; cbn [fmap list_fmap].
  { injection E as <-. rewrite app_nil_r. split; [done|apply quiet_refl]. }
  apply Forall_cons in Ho as [Ho Hos]. destruct (shieldedV6AppendOutput st o h) as [[?|] st1] eqn:E1; [done|].
  destruct (append6_inv Q K st st1 es o h H Ho E1) as (H1 & Q1 & _). destruct (IH st1 (es ++ [(o, h)]) H1 Hos E) as [H2 Q2].
  rewrite <- app_assoc in H2. split; [done|by eapply quiet_trans].
Qed.

Lemma append_images st st' ims ins h : images_hold st ims → Forall (λ i, I i.(i6_KeyImage)) ins →
  appendAll6 (λ st i, shieldedV6AppendKeyImage st i.(i6_KeyImage) h) st ins = (None, st') →
  images_hold st' (ims ++ (i6_KeyImage <$> ins)) ∧ quiet Q imageSlot st st'.
Proof using HQ HI.
  revert st ims. induction ins as [|i ins IH]; intros st ims H Hi E; cbn [appendAll6] in E; cbn [fmap list_fmap].
  { injection E as <-. rewrite app_nil_r. split; [done|apply quiet_refl]. }
  apply Forall_cons in Hi as [Hi His]. destruct (shieldedV6AppendKeyImage st (i6_KeyImage i) h) as [[?|] st1] eqn:E1; [done|].
  destruct (append_image st st1 ims (i6_KeyImage i) h H Hi E1) as [H1 Q1]. destruct (IH st1 (ims ++ [i6_KeyImage i]) H1 His E) as [H2 Q2].
  rewrite <- app_assoc in H2. split; [done|by eapply quiet_trans].
Qed.

(** ** Rings *)

(** The members of a ring are the outputs its indices name. *)
Definition ringOf (es : list (ShieldedV6Output * hash)) (indices : list Z) (ring : list RingMember) : Prop :=
  Forall2 (λ i m, ∃ o h, es !! Z.to_nat i = Some (o, h) ∧ m = (o.(o6_OneTimeKey), o.(o6_Commitment))) indices ring.

Lemma readRing_ok st es indices ring : holds6 K st es → Forall (λ i, 0 <= i) indices → readRing st (ShieldedV6OutputCount st) indices = Ok ring → ringOf es indices ring.
Proof.
  intros H. revert ring. induction indices as [|i indices IH]; intros ring Hi E; cbn [readRing] in E; [apply Ok_inj in E as <-; constructor|].
  apply Forall_cons in Hi as [Hi His]. apply bind_ok in E as ([] & Hg & E). apply fail_if_ok in Hg. rewrite (count6 K st es H) in Hg.
  apply bind_ok in E as (m & Hm & E). apply bind_ok in E as (ms & Hms & E). apply Ok_inj in E as <-. constructor; [|by apply IH].
  destruct (lookup_lt_is_Some_2 es (Z.to_nat i)) as [[o h] Ho]; [lia|]. exists o, h. split; [done|].
  destruct (output_at K st es _ o h H Ho) as [A _]. rewrite Z2Nat.id, Hm in A by done. by apply Ok_inj in A.
Qed.

(** What the loop over the inputs establishes. *)
Definition inputSpends (es : list (ShieldedV6Output * hash)) (ims : list bytes) (intent : bytes) (i : ShieldedV6Input) : Prop :=
  (i.(i6_KeyImage) ∉ ims) ∧ ∃ ring, ringOf es i.(i6_RingIndices) ring ∧ VerifyCLSAG intent ring i.(i6_KeyImage) i.(i6_PseudoOutput) i.(i6_Signature) = true.

Lemma inputState_ok st es ims intent inputs seen : holds6 K st es → images_hold st ims →
  Forall (λ i, I i.(i6_KeyImage) ∧ Forall (λ j, 0 <= j) i.(i6_RingIndices)) inputs →
  inputState st (ShieldedV6OutputCount st) intent inputs seen = Ok () → Forall (inputSpends es ims intent) inputs.
Proof.
  intros H Hm. revert seen. induction inputs as [|i inputs IH]; intros seen Hi E; cbn [inputState] in E; [constructor|].
  apply Forall_cons in Hi as [[Hk Hr] Hi]. apply bind_ok in E as (ring & Hring & E). apply bind_ok in E as ([] & Hz & E). apply bind_ok in E as ([] & _ & E).
  apply bind_ok in E as ([] & Hv & E). apply fail_if_ok in Hz, Hv. apply negb_false_iff in Hz, Hv. apply Z.eqb_eq in Hz. rewrite get6_P in Hz.
  constructor; [|by eapply IH]. split; [intros Hin; by apply (ih_spent _ _ Hm _ Hk) in Hin|]. exists ring. split; [by eapply readRing_ok|done].
Qed.

(** ** A whole transaction *)

(** The envelope as Go's types have it, its keys and images in use. *)
Record envelope6 (tx : stx) (e : ShieldedV6Transaction) : Prop := {
  e6_outputs : Forall (output_points K) e.(s6_Outputs);
  e6_inputs : Forall (λ i, I i.(i6_KeyImage) ∧ Forall (λ j, 0 <= j) i.(i6_RingIndices)) e.(s6_Inputs);
  e6_value : 0 <= tx.(sx_tx).(vt_Value);
}.

(** The slots of the ledger hold what it wrote. *)
Record ledger_words (st : S) : Prop := {
  lw_supply : 0 <= getP st supplyPre [] < two256;
  lw_opening : 0 <= (ConfidentialLedgerState st AssetTKM).(OpeningBacking) < two256;
}.

Definition public6 (e : ShieldedV6Transaction) : bool := e.(s6_Deposit) || (0 <? e.(s6_WithdrawalValue)).

Definition ledger6 (st : S) (tx : stx) (e : ShieldedV6Transaction) : result vError (option ConfidentialLedgerTotals) :=
  if public6 e then l ← ledgerTransition st AssetTKM (if e.(s6_Deposit) then tx.(sx_tx).(vt_Value) else 0) e.(s6_WithdrawalValue) 0; Ok (Some l) else Ok None.

Lemma process6_cases config number time st tx seen err st' seen' e :
  DecodeShieldedV6Transaction tx.(sx_tx).(vt_Data) = Ok (Some e) → e.(s6_Version) ≠ ShieldedV6BindingVersion →
  processShieldedV6 config number time st tx seen = (err, st', seen') →
  match err with
  | Some _ => st' = st ∧ seen' = seen
  | None => ∃ ledger st1 st2, 0 <= e.(s6_WithdrawalValue) < 2 ^ 128 ∧ (e.(s6_Deposit) = true → e.(s6_WithdrawalValue) = 0) ∧ ValidateShieldedV6Proof tx = Ok () ∧ validateShieldedV6State st tx e = Ok () ∧ ledger6 st tx e = Ok ledger
      ∧ appendAll6 (λ st o, shieldedV6AppendOutput st o tx.(sx_tx).(vt_Hash)) st e.(s6_Outputs) = (None, st1)
      ∧ appendAll6 (λ st i, shieldedV6AppendKeyImage st i.(i6_KeyImage) tx.(sx_tx).(vt_Hash)) st1 e.(s6_Inputs) = (None, st2)
      ∧ st' = release (match ledger with Some l => commitLedger st2 AssetTKM l | None => st2 end) e.(s6_WithdrawalRecipient) e.(s6_WithdrawalValue)
  end.
Proof.
  intros Hd Hv. unfold processShieldedV6. cbv zeta. destruct (fail_if _ _ ≫= _) as [[e' from]|] eqn:E; [|by intros [= <- <- <-]].
  apply bind_ok in E as ([] & _ & E). apply bind_ok in E as (e2 & Hb & E). apply lift_ok in Hb. apply bind_ok in E as (f & _ & E). apply bind_ok in E as ([] & _ & E).
  apply Ok_inj in E as [= -> ->]. assert (He : e' = e ∧ 0 <= e'.(s6_WithdrawalValue) < 2 ^ 128 ∧ (e'.(s6_Deposit) = true → e'.(s6_WithdrawalValue) = 0)).
  { unfold shieldedV6Basics in Hb. do 4 apply bind_ok in Hb as ([] & _ & Hb). rewrite Hd in Hb. cbn [mbind result_bind] in Hb.
    rewrite (proj2 (Z.eqb_neq _ _) Hv), andb_false_r in Hb. apply bind_ok in Hb as ([] & _ & Hb). apply bind_ok in Hb as ([] & _ & Hb).
    apply bind_ok in Hb as ([] & Hw & Hb). apply fail_if_ok, orb_false_iff in Hw as [Hw Hw']. apply bind_ok in Hb as ([] & _ & Hb). apply bind_ok in Hb as ([] & Hbd & Hb).
    do 4 apply bind_ok in Hb as ([] & _ & Hb). apply Ok_inj in Hb as <-. split; [done|]. split; [lia|]. intros Ed. apply fail_if_ok, negb_false_iff in Hbd.
    unfold boundary6 in Hbd. rewrite Ed in Hbd. repeat (apply andb_true_iff in Hbd as [Hbd ?]). lia. }
  destruct He as (-> & Hw & Hdw). rewrite (proj2 (Z.eqb_neq _ _) Hv). destruct (fail_if _ _ ≫= _) as [ledger|] eqn:E; [|by intros [= <- <- <-]].
  apply bind_ok in E as ([] & _ & E). apply bind_ok in E as ([] & Hp & E). apply bind_ok in E as ([] & Hs & E). apply bind_ok in E as ([] & _ & E).
  destruct (appendAll6 _ st _) as [[?|] st1] eqn:E1; [by intros [= <- <- <-]|]. destruct (appendAll6 _ st1 _) as [[?|] st2] eqn:E2; [by intros [= <- <- <-]|].
  intros [= <- <- <-]. by exists ledger, st1, st2.
Qed.

Definition ring_slots (p : prefix) (d : bytes) : Prop := outputSlot p d ∨ imageSlot p d ∨ ledgerWrites AssetTKM p d.

Lemma slots_apart p d : (outputSlot p d → ¬ imageSlot p d) ∧ (ledgerWrites AssetTKM p d → ¬ outputSlot p d ∧ ¬ imageSlot p d).
Proof.
  unfold outputSlot, imageSlot, ledgerWrites. split.
  - intros H1 H2. assert (H : Forall (λ q, q ∉ (pre6 <$> [str "key-image-count"; str "key-image-index"; str "key-image"]))
      (pre6 <$> [str "output-count"; str "output-root"; str "accumulator-frontier"; str "output-key"; str "output-commitment"; str "output-tx"; str "key-index"]))
      by (apply (bool_decide_unpack _); vm_compute; exact Logic.I). rewrite Forall_forall in H. by apply (H p).
  - intros H1. assert (H : Forall (λ q, q ∉ (pre6 <$> roles6)) (preFor AssetTKM <$> ledgerRoles)) by (apply (bool_decide_unpack _); vm_compute; exact Logic.I).
    rewrite Forall_forall in H. specialize (H p H1). split; intros H2; apply H; revert H2; unfold roles6; set_solver+.
Qed.

Lemma ledger_untouched st st' Wr : sameBut Q Wr st st' → (∀ p d, ledgerWrites AssetTKM p d → ¬ Wr p d) → ConfidentialLedgerState st' AssetTKM = ConfidentialLedgerState st AssetTKM.
Proof using HL.
  intros Hs Hn. apply ledger_same; [by left|]. intros r Hr. apply (sb_slots _ _ _ _ Hs); [apply (lu_ledger Q Tx); [by left|done]|].
  apply Hn. by apply list_elem_of_fmap_2.
Qed.

Lemma withdrawal_covered st tx e l : ledger_words st → e.(s6_Deposit) = false → ledger6 st tx e = Ok (Some l) → e.(s6_WithdrawalValue) <= GetBalance st ShieldedPoolAddress.
Proof.
  intros [Hs Ho] Hd H. unfold ledger6 in H. destruct (public6 e); [|done]. apply bind_ok in H as (l' & H & _). rewrite Hd in H.
  apply transition_ok in H as (native & Hn & _ & _ & Hb & _ & El & Hr); [|by left]. rewrite <- supply_P in Hs. apply native_le in Hn as [Hn0 Hn]; [|lia].
  rewrite !Forall_cons in Hr. destruct Hr as (_ & _ & _ & Hr & _). rewrite El in Hr. cbn [Backing] in Hr. cbn [Z.eqb AssetTKM AssetPTKM Pos.eqb] in *. lia.
Qed.

Lemma committed6 st2 ledger : (∀ l, ledger = Some l → in_range l ∧ l.(Initialized) = true) →
  let st3 := match ledger with Some l => commitLedger st2 AssetTKM l | None => st2 end in
  quiet Q (ledgerWrites AssetTKM) st2 st3 ∧ ConfidentialLedgerState st3 AssetTKM = ledgerAfter st2 AssetTKM ledger.
Proof using HQ HL.
  intros Hl. destruct ledger as [l|]; [|split; [apply quiet_refl|done]]. destruct (Hl l eq_refl) as [Hr Hi]. split; [apply (commit_quiet Q Tx); by left|].
  rewrite (commit_reads Q Tx) by first [by left|done]. cbn. destruct l. cbn in Hi. by subst.
Qed.

(** C10: A Shield6 transaction spends outputs of the accumulator at most once; envelopes that
    register a recipient, which have neither inputs nor outputs, are left out.  A refused one changes
    nothing.  An accepted one had its range and balance proofs accepted; for each
    input the CLSAG signature on the transaction's intent verified against the
    ring of the outputs that its indices name, all of them appended before; its key image
    was not recorded and now is, each once and in order; the new outputs extend the
    accumulator; the public withdrawal, which the pool holds, goes from the pool to
    the recipient; and nothing but the accumulator, the key images and the native
    ledger changes. *)
Theorem ring_spends_once config number time st es ims tx seen err st' seen' e :
  holds6 K st es → images_hold st ims → ledger_words st →
  DecodeShieldedV6Transaction tx.(sx_tx).(vt_Data) = Ok (Some e) → e.(s6_Version) ≠ ShieldedV6BindingVersion → envelope6 tx e →
  processShieldedV6 config number time st tx seen = (err, st', seen') →
  match err with
  | Some _ => st' = st ∧ seen' = seen
  | None =>
      ValidateShieldedV6Proof tx = Ok ()
      ∧ (∃ intent, ShieldedV6Intent tx e = Ok intent ∧ Forall (inputSpends es ims intent) e.(s6_Inputs))
      ∧ holds6 K st' (es ++ ((λ o, (o, tx.(sx_tx).(vt_Hash))) <$> e.(s6_Outputs)))
      ∧ images_hold st' (ims ++ (i6_KeyImage <$> e.(s6_Inputs))) ∧ NoDup (ims ++ (i6_KeyImage <$> e.(s6_Inputs)))
      ∧ (∀ a, GetBalance st' a = (GetBalance st a + (only ShieldedPoolAddress (- e.(s6_WithdrawalValue)) a + only e.(s6_WithdrawalRecipient) e.(s6_WithdrawalValue) a))
                                 mod two256)
      ∧ e.(s6_WithdrawalValue) <= GetBalance st ShieldedPoolAddress
      ∧ (∃ ledger, ledger6 st tx e = Ok ledger ∧ ConfidentialLedgerState st' AssetTKM = ledgerAfter st AssetTKM ledger)
      ∧ sameBut Q ring_slots st st'
  end.
Proof using HQ HU HL HI.
  intros H Hm Hw Hd Hv He Hp. apply (process6_cases _ _ _ _ _ _ _ _ _ e Hd Hv) in Hp. destruct err; [done|].
  destruct Hp as (ledger & st1 & st2 & Hwv & Hdw & Hpr & Hs & Hl & E1 & E2 & ->).
  destruct (append_outputs6 st st1 es _ _ H (e6_outputs _ _ He) E1) as [H1 Q1].
  assert (Hm1 : images_hold st1 ims) by (eapply images_kept; [apply Q1| |done]; intros p d Hi Ho; by apply (proj1 (slots_apart p d) Ho)).
  destruct (append_images st1 st2 ims _ _ Hm1 ltac:(eapply Forall_impl; [apply He|]; by intros ? []) E2) as [Hm2 Q2].
  assert (Hrange : ∀ l, ledger = Some l → in_range l ∧ l.(Initialized) = true).
  { intros l ->. unfold ledger6 in Hl. destruct (public6 e); [|done]. apply bind_ok in Hl as (l' & Hl & E). apply Ok_inj in E as [= ->].
    eapply transition_range; [by left|rewrite supply_P; apply Hw|apply Hw|exact Hl]. }
  destruct (committed6 st2 ledger Hrange) as [Q3 L3]. set (st3 := match ledger with Some l => _ | None => st2 end) in *.
  assert (Hw256 : 0 <= e.(s6_WithdrawalValue) < two256) by (unfold two256; lia).
  destruct (release_ok Q [] st3 e.(s6_WithdrawalRecipient) e.(s6_WithdrawalValue) Hw256) as [M4 F4]. set (st4 := release _ _ _) in *.
  assert (Hap : ∀ p d, ledgerWrites AssetTKM p d → ¬ outputSlot p d ∧ ¬ imageSlot p d) by (intros p d; apply slots_apart).
  assert (Hoi : ∀ p d, outputSlot p d → ¬ imageSlot p d) by (intros p d; apply slots_apart).
  assert (Hn : ∀ (R : prefix → bytes → Prop) p d, R p d → ¬ touches [] p d) by (intros ??? _ Hin; by apply elem_of_nil in Hin).
  assert (H4 : holds6 K st4 (es ++ ((λ o, (o, tx.(sx_tx).(vt_Hash))) <$> e.(s6_Outputs)))).
  { eapply outputs_kept; [exact F4|by apply Hn|]. eapply outputs_kept; [apply Q3|intros p d Ho Hlw; by apply (proj1 (Hap p d Hlw))|]. by eapply outputs_kept; [apply Q2|exact Hoi|]. }
  assert (M5 : images_hold st4 (ims ++ (i6_KeyImage <$> e.(s6_Inputs)))).
  { eapply images_kept; [exact F4|by apply Hn|]. eapply images_kept; [apply Q3|intros p d Hi Hlw; by apply (proj2 (Hap p d Hlw))|done]. }
  split_and!; try done.
  - unfold validateShieldedV6State in Hs. apply bind_ok in Hs as ([] & _ & Hs). apply bind_ok in Hs as ([] & _ & Hs). apply bind_ok in Hs as (intent & Hi & Hs).
    exists intent. split; [done|]. by eapply inputState_ok; [..|apply He|exact Hs].
  - apply M5.
  - intros a. rewrite M4, (proj2 Q3), (proj2 Q2), (proj2 Q1). done.
  - destruct (s6_Deposit e) eqn:Ed; [rewrite Hdw by done; apply balance_range|]. destruct ledger as [l|]; [by eapply withdrawal_covered|].
    unfold ledger6, public6 in Hl. rewrite Ed in Hl. cbn [orb] in Hl. pose proof (balance_range st ShieldedPoolAddress). destruct (Z.ltb_spec 0 (s6_WithdrawalValue e)); [|lia].
    by apply bind_ok in Hl as (? & _ & ?).
  - exists ledger. split; [done|]. rewrite (ledger_untouched _ _ _ F4) by (by apply Hn). rewrite L3. unfold ledgerAfter. destruct ledger; [done|].
    rewrite (ledger_untouched st1 st2 imageSlot), (ledger_untouched st st1 outputSlot); [done|apply Q1|intros p d Hlw; by apply (Hap p d)|apply Q2|intros p d Hlw; by apply (Hap p d)].
  - eapply sameBut_trans; [eapply sameBut_weaken; [|apply Q1]; by left|]. eapply sameBut_trans; [eapply sameBut_weaken; [|apply Q2]; by right; left|].
    eapply sameBut_trans; [eapply sameBut_weaken; [|apply Q3]; by right; right|]. eapply sameBut_weaken; [|exact F4]. intros p d Hin. by apply elem_of_nil in Hin.
Qed.

End Ring.
End RingSpend.
