(* ===== verification/PoolDemo.v ===== *)
(** * A small pool

    Concrete functions for SHA-512 and Keccak under which all slots of the pool in use
    are distinct, and the theorems on spends applied to a deposit and a spend. *)

From S2P Require Import Prelude Bytes RLPStream RLPTypes State ChainConfig ValidatorRegistry ValidatorStore ShieldedCrypto Merkle ShieldedTree NoteTree ShieldedDemo Stamps AddressVotes ShieldedEnvelopes Ledger ShieldedSpend Shielded6 PoolSlots PoolLedger SpendRefinement SpendSafety LedgerSafety Accumulator RingSpend.
Import RLPStream RLPTypes ValidatorRegistry ValidatorStore ShieldedCrypto ShieldedTree NoteTree ShieldedDemo Stamps AddressVotes ShieldedEnvelopes Ledger ShieldedSpend Shielded6 PoolSlots PoolLedger SpendRefinement SpendSafety LedgerSafety Accumulator RingSpend.

Module PoolDemo.

(** ** A slot is the position of its prefix and its data *)

Fixpoint slotNumber (ps : list prefix) (f : hfun) (tag : Z) (b : bytes) : Z :=
  match ps with
  | [] => 0
  | p :: ps =>
      if bool_decide (p.1 = f) && has_prefix b p.2 then tag * 2 ^ 240 + le_value (drop (length p.2) b) mod 2 ^ 240 else slotNumber ps f (tag + 1) b
  end.

#[global] Instance PoolX : Externals := {
  Sender _ _ _ tx := (λ p, demoHash (p.1 ++ p.2)) <$> tx.(vt_PQ);
  VerifyMLDSA87 _ _ signature := bool_decide (signature = [1]);
  MLDSA87PublicKeySize := 1;
  keccak b := be_bytes 32 (let s := slotNumber poolPrefixes Keccak 1 b in if s =? 0 then demoHash b else s);
  sha256 b := be_bytes 32 (demoHash b);
  sha512 b := be_bytes 64 (slotNumber poolPrefixes Sha512 1 b);
  pooled := {| sr := []; remaining := 7; ssize := 0; kinderr := None; stack := [3]; skind := None; byteval := 0; limited := false |};
}.

Lemma slotNumber_range ps f tag b : 1 <= tag → 0 <= slotNumber ps f tag b < (tag + Z.of_nat (length ps)) * 2 ^ 240.
Proof.
  revert tag. induction ps as [|p ps IH]; intros tag Ht; cbn [slotNumber length]; [lia|].
  pose proof (Z.mod_pos_bound (le_value (drop (length p.2) b)) (2 ^ 240) ltac:(done)). destruct (_ && _); [nia|]. specialize (IH (tag + 1) ltac:(lia)). lia.
Qed.

(** Prefixes are recognised whatever data follows. *)
Lemma slotNumber_at ps i p d tag : (∀ q, q ∈ ps → q ∈ poolPrefixes) → NoDup ps → ps !! i = Some p →
  slotNumber ps p.1 tag (p.2 ++ d) = (tag + Z.of_nat i) * 2 ^ 240 + le_value d mod 2 ^ 240.
Proof.
  revert i tag. induction ps as [|q ps IH]; intros i tag Hsub Hnd Hi; [done|]. apply NoDup_cons in Hnd as [Hni Hnd]. cbn [slotNumber].
  destruct i as [|i]; cbn in Hi.
  - injection Hi as ->. rewrite bool_decide_eq_true_2, has_prefix_app, drop_app_length by done. cbn [andb]. by rewrite Z.add_0_r.
  - apply list_elem_of_lookup_2 in Hi as Hin. destruct (bool_decide (q.1 = p.1) && has_prefix (p.2 ++ d) q.2) eqn:E.
    + apply andb_true_iff in E as [Ef Ep]. apply bool_decide_eq_true in Ef. apply has_prefix_spec in Ep as [x Ex].
      destruct (prefix_data_inj p q d x) as [-> _]; [apply Hsub, list_elem_of_further, Hin|apply Hsub, list_elem_of_here|done|done|done].
    + rewrite (IH i); [f_equal; f_equal; lia|intros q' Hq'; apply Hsub, list_elem_of_further, Hq'|done|done].
Qed.

Lemma prefixes_nodup : NoDup poolPrefixes.
Proof. apply (bool_decide_unpack _). vm_compute. exact I. Qed.

Definition demoCount : Z := Eval vm_compute in Z.of_nat (length poolPrefixes).

Lemma slotAt_number i p d : poolPrefixes !! i = Some p → bytes_ok d → le_value d < 2 ^ 240 → slotAt p d = (1 + Z.of_nat i) * 2 ^ 240 + le_value d.
Proof.
  intros Hi Hb Hd. pose proof (le_value_range d Hb) as H0. pose proof (slotNumber_at poolPrefixes i p d 1 ltac:(done) prefixes_nodup Hi) as E.
  rewrite (Z.mod_small (le_value d)) in E by lia. apply lookup_lt_Some in Hi as Hl. change (length poolPrefixes) with (Z.to_nat demoCount) in Hl. unfold demoCount in Hl.
  assert (Hr : 0 <= (1 + Z.of_nat i) * 2 ^ 240 + le_value d < 2 ^ 256) by (change (2 ^ 256) with (65536 * 2 ^ 240); lia).
  unfold slotAt. destruct p as [[|] p]; cbn [fst snd] in *; unfold sha512, keccak; cbn [PoolX]; rewrite E.
  - by apply pool_demo_hash.
  - cbv zeta. rewrite (proj2 (Z.eqb_neq _ _)) by lia. rewrite BytesToHash_32 by apply length_be_bytes. apply be_value_bytes. by change (256 ^ Z.of_nat 32) with (2 ^ 256).
Qed.

(** The length of the data under a prefix. *)
Definition dataLength (p : prefix) : nat :=
  if bool_decide (p ∈ (pre3 <$> [str "root"; str "stamp/root"; str "commitment-index"; str "stamp/owner-index"; str "nullifier"; str "commitment"])
                      ++ (preAsset AssetPTKM <$> [str "nullifier"; str "commitment"; str "shield4/link-tag"]) ++ [pre4 (str "link-tag")]) then 40
  else if bool_decide (p ∈ pre3 <$> [str "node/0"; str "node/1"; str "node-present"]) then 12
  else if bool_decide (p ∈ pre3 <$> [str "stamp/address"; str "validator/record-chunk-count"; str "validator/record-byte-length"]) then 20
  else if bool_decide (p ∈ pre3 (str "validator/index") :: (pre6 <$> [str "key-image-index"; str "output-key"; str "output-commitment"; str "output-tx"])) then 8
  else if bool_decide (p = pre3 (str "validator/record-chunk")) then 28
  else if bool_decide (p ∈ pre3 (str "confidential-ledger/v1/fee-ticket") :: (pre6 <$> [str "key-image"; str "key-index"])) then 32
  else if bool_decide (p = pre6 (str "accumulator-frontier")) then 4
  else 0.

Definition demoQ (p : prefix) (d : bytes) : Prop := bytes_ok d ∧ length d = dataLength p ∧ le_value d < 2 ^ 240.

#[global] Instance demo_distinct : PoolDistinct demoQ.
Proof.
  intros p d q d' [Hp (Hb & Hl & Hd)] [Hq (Hb' & Hl' & Hd')] E.
  apply list_elem_of_lookup in Hp as [i Hi]. apply list_elem_of_lookup in Hq as [i' Hi'].
  rewrite (slotAt_number i), (slotAt_number i') in E by done. pose proof (le_value_range d Hb). pose proof (le_value_range d' Hb').
  assert (i = i' ∧ le_value d = le_value d') as [-> Hv] by lia. rewrite Hi in Hi'. injection Hi' as <-.
  split; [done|]. f_equal. apply le_value_inj; congruence.
Qed.

(** *** Data in use *)

Ltac in_list := apply (bool_decide_unpack _); vm_compute; exact I.

Lemma use_digest p d : p ∈ poolPrefixes → dataLength p = 40%nat → demoDg d → inUse demoQ p (Digest_Bytes d).
Proof.
  intros Hp Hl Hd. split; [done|]. split_and!; [apply Digest_Bytes_ok|by rewrite length_digest|]. pose proof (le_value_digest d Hd). assert (256 < 2 ^ 240) by done. lia.
Qed.

Lemma use_be p n x : p ∈ poolPrefixes → dataLength p = n → (n <= 29)%nat → inUse demoQ p (be_bytes n x).
Proof. intros Hp Hl Hn. split; [done|]. split_and!; [apply be_bytes_ok|by rewrite length_be_bytes|by apply le_value_be]. Qed.

Lemma use_app p n m x y : p ∈ poolPrefixes → dataLength p = (n + m)%nat → (n + m <= 29)%nat → inUse demoQ p (be_bytes n x ++ be_bytes m y).
Proof.
  intros Hp Hl Hn. split; [done|]. split_and!.
  - apply Forall_app. split; apply be_bytes_ok.
  - by rewrite length_app, !length_be_bytes.
  - unfold le_value. pose proof (be_value_bound (reverse (be_bytes n x ++ be_bytes m y)) ltac:(apply Forall_reverse, Forall_app; split; apply be_bytes_ok)) as [_ H].
    rewrite length_reverse, length_app, !length_be_bytes in H. assert (256 ^ Z.of_nat (n + m) <= 256 ^ 29) by (apply Z.pow_le_mono_r; lia). assert (256 ^ 29 < 2 ^ 240) by done. lia.
Qed.

Lemma use_nil p : p ∈ poolPrefixes → dataLength p = 0%nat → inUse demoQ p [].
Proof. intros Hp Hl. split; [done|]. split_and!; [constructor|done|by vm_compute]. Qed.

Lemma use3_role r d : r ∈ shieldedRoles → inUse demoQ (pre3 r) d → used (use3 demoQ) r d.
Proof. intros Hr Hu. split; [done|apply Hu]. Qed.

#[global] Instance pool_demo_notes : TreeUse (use3 demoQ) noteTree demoDg.
Proof.
  split; [|in_list]. intros [level i|level i|level i|d| |d| |] Hk; cbn [key_use] in Hk; (apply use3_role; [cbn [roleOf noteTree t_pre t_id]; in_list|]);
    cbn [dataOf]; first [apply use_app|apply use_digest; [..|done]|apply use_nil]; first [by vm_compute|in_list|lia].
Qed.

#[global] Instance demo_spends : SpendUse demoQ demoDg.
Proof.
  intros pre a d Hp Ha Hd. rewrite !elem_of_cons, elem_of_nil in Hp. destruct Hp as [->|[->|[->|[]]]], Ha as [->| ->]; (apply use_digest; [in_list|by vm_compute|done]).
Qed.

(** Transactions whose hash ends in two zero bytes. *)
Definition demoTx (h : hash) : Prop := 0 <= h < two256 ∧ le_value (hash_bytes h) < 2 ^ 240.

#[global] Instance demo_ledger : LedgerUse demoQ demoTx.
Proof.
  split.
  - intros a r Ha Hr. unfold ledgerRoles in Hr. rewrite !fmap_cons, fmap_nil, !elem_of_cons, elem_of_nil in Hr.
    destruct Ha as [->| ->], Hr as [->|[->|[->|[->|[->|[->|[]]]]]]]; (apply use_nil; [in_list|by vm_compute]).
  - apply use_nil; [in_list|by vm_compute].
  - intros h [Hh Hl]. split; [in_list|]. split_and!; [apply be_bytes_ok|unfold hash_bytes; rewrite length_be_bytes; by vm_compute|done].
  - apply use_nil; [in_list|by vm_compute].
  - intros i. apply use_be; [in_list|by vm_compute|lia].
  - intros r a Hr. rewrite !elem_of_cons, elem_of_nil in Hr. destruct Hr as [->|[->|[]]]; (apply use_be; [in_list|by vm_compute|lia]).
  - intros a i. apply use_app; [in_list|by vm_compute|lia].
Qed.

(** Points whose encoding ends in two zero bytes. *)
Definition demoPoint (k : bytes) : Prop := point k ∧ le_value k < 2 ^ 240.

Lemma use_point p k : p ∈ poolPrefixes → dataLength p = 32%nat → demoPoint k → inUse demoQ p k.
Proof. intros Hp Hl [(Hb & Hn & _) Hv]. split; [done|]. split_and!; [done|by rewrite Hn|done]. Qed.

#[global] Instance demo_outputs : OutputUse demoQ demoPoint.
Proof.
  split.
  - intros r Hr. rewrite !elem_of_cons, elem_of_nil in Hr. destruct Hr as [->|[->|[]]]; (apply use_nil; [in_list|by vm_compute]).
  - intros k Hk. apply use_be; [in_list|by vm_compute|lia].
  - intros r i Hr Hi. rewrite !elem_of_cons, elem_of_nil in Hr. destruct Hr as [->|[->|[->|[]]]]; (apply use_be; [in_list|by vm_compute|lia]).
  - intros k Hk. apply use_point; [in_list|by vm_compute|done].
Qed.

#[global] Instance demo_images : ImageUse demoQ demoPoint.
Proof.
  split; [apply use_nil; [in_list|by vm_compute]|intros i Hi; apply use_be; [in_list|by vm_compute|lia]|intros k Hk; apply use_point; [in_list|by vm_compute|done]].
Qed.

(** ** A deposit and a spend *)

#[local] Existing Instance RefUint256.
#[local] Existing Instance FlatWorldState.

Definition poolConfig : ChainConfig.ChainConfig := {|
  ChainConfig.ChainID := Some 8979; ChainConfig.MergeOverride := false; ChainConfig.HomesteadBlock := None; ChainConfig.DAOForkBlock := None;
  ChainConfig.EIP150Block := None; ChainConfig.EIP155Block := None; ChainConfig.EIP158Block := None; ChainConfig.ByzantiumBlock := None;
  ChainConfig.ConstantinopleBlock := None; ChainConfig.PetersburgBlock := None; ChainConfig.IstanbulBlock := None; ChainConfig.BerlinBlock := None;
  ChainConfig.LondonBlock := Some 0; ChainConfig.RandomXTxBlock := None; ChainConfig.RandomXMoneroBlock := None; ChainConfig.ArrowGlacierBlock := None;
  ChainConfig.GrayGlacierBlock := None; ChainConfig.ShanghaiTime := None; ChainConfig.CancunTime := None; ChainConfig.PragueTime := None;
  ChainConfig.OsakaTime := None; ChainConfig.BPO1Time := None; ChainConfig.BPO2Time := None; ChainConfig.BPO3Time := None; ChainConfig.BPO4Time := None;
  ChainConfig.BPO5Time := None; ChainConfig.AmsterdamTime := None; ChainConfig.UBTTime := None; ChainConfig.EDATime := None; ChainConfig.KyotoTime := None;
  ChainConfig.PhoneTime := None; ChainConfig.PrivacyCommitmentTime := Some 0; ChainConfig.QuantumResistantTime := None;
  ChainConfig.PQMigrationRecoveryTime := None; ChainConfig.AntarticalTime := Some 0; ChainConfig.UsernameNetworkTime := None;
  ChainConfig.ValidatorTransactionTime := None; ChainConfig.ShieldedOnlyTime := None; ChainConfig.ConfidentialLedgerTime := Some 0;
  ChainConfig.Shield5Time := Some 0; ChainConfig.Shield6Time := Some 0; ChainConfig.Shield6RecipientTime := None; ChainConfig.Shield6RecipientKey := [];
  ChainConfig.Shield6RecipientKeyHash := 0; ChainConfig.Shield6RegistrationKey := []; ChainConfig.Shield6RegistrationKeyHash := 0;
  ChainConfig.Shield6RecipientProvingKeyHash := 0; ChainConfig.Shield6RegistrationProvingKeyHash := 0; ChainConfig.EnableUBTAtGenesis := false;
  ChainConfig.MainKingAddress := 0; ChainConfig.PostQuantumMainKingAddress := 0; ChainConfig.ShieldedGroth16VerifyingKey := [] |}.

Definition spendTx (value : Z) (h : hash) (data : bytes) : stx := {|
  sx_tx := {| vt_Type := PQTkmTxType; vt_To := Some ShieldedPoolAddress; vt_Value := value; vt_ChainId := 8979; vt_Data := data;
              vt_PQ := Some (AlgorithmMLDSA87, [5]); vt_Hash := h |};
  sx_Nonce := 0; sx_GasTipCap := 1; sx_GasFeeCap := 1; sx_Gas := 100000; sx_AccessList := [] |}.

Definition bytesOr (r : result vError bytes) : bytes := match r with Ok b => b | Err _ => [] end.

(** A record of an output: the header of its context and filler. *)
Definition demoRecord (purpose : ShieldedV3Purpose) (c : Digest) : bytes :=
  headerOf (ShieldedV3OutputContext 8979 purpose c) ++ replicate (ShieldedV3CiphertextSize - shieldedV3HeaderSize) 0.

Definition demoOutput (w : Z) : ShieldedV3Output := {|
  so_Commitment := demoDigest w; so_Incoming := demoRecord ShieldedV3Incoming (demoDigest w); so_Outgoing := demoRecord ShieldedV3Outgoing (demoDigest w);
  so_Stamp := demoRecord ShieldedV3Stamp (demoDigest w); so_OneTimeKey := Some (Digest_Bytes (demoDigest (w + 100))) |}.

Definition demoEnvelope (deposit : bool) (anchor nullifier : Digest) (outputs : list Z) (to : address) (withdrawal : Z) : ShieldedV3Transaction := {|
  s3_Version := 3; s3_Deposit := deposit; s3_Anchor := anchor; s3_Nullifier := nullifier; s3_StampRoot := demoDigest 1; s3_Outputs := demoOutput <$> outputs;
  s3_WithdrawalRecipient := to; s3_WithdrawalValue := withdrawal; s3_GasSponsorValue := 0; s3_Proof := [1; 0; 0; 0] ++ replicate 8 0;
  s3_AdditionalNullifiers := replicate 3 zeroDigest; s3_InputCount := if deposit then 0 else 1; s3_Relayed := false; s3_ValidUntil := 0; s3_AssetID := 0;
  s3_FeeMode := 0 |}.

(** A pool with some money, a stamp root and a stamped recipient. *)
Definition demoTo : address := 0x55.
Definition stampedPool : flatState :=
  setP (setP (AddBalance emptyFlat ShieldedPoolAddress 100) (pre3 (str "stamp/root")) (Digest_Bytes (demoDigest 1)) 1)
    (pre3 (str "stamp/address")) (address_bytes demoTo) 1.

Definition depositEnvelope : ShieldedV3Transaction := demoEnvelope true zeroDigest zeroDigest [11; 12; 13; 14] 0 0.
Definition depositTx : stx := spendTx 50 65536 (bytesOr (EncodeShieldedV3Transaction depositEnvelope)).
Abbreviation deposited := (processSpend V3 poolConfig 10 20 stampedPool depositTx ∅).

Example deposit_read : readSpend V3 depositTx.(sx_tx).(vt_Data) = Some (depositEnvelope, [], None).
Proof. vm_compute. reflexivity. Qed.

Example deposit_accepted : deposited.1.1 = None.
Proof. vm_compute. reflexivity. Qed.

(** The value of the deposit arrives behind it. *)
Definition funded : flatState := AddBalance deposited.1.2 ShieldedPoolAddress 50.
Definition demoAnchor : Digest := Eval vm_compute in match ShieldedV3Root funded with Ok d => d | Err _ => zeroDigest end.

Definition spendEnvelope : ShieldedV3Transaction := demoEnvelope false demoAnchor (demoDigest 9) [21; 22; 23; 24] demoTo 30.
Definition spendingTx : stx := spendTx 0 131072 (bytesOr (EncodeShieldedV3Transaction spendEnvelope)).
Abbreviation spending := (processSpend V3 poolConfig 10 20 funded spendingTx ∅).

Example spend_read : readSpend V3 spendingTx.(sx_tx).(vt_Data) = Some (spendEnvelope, [demoDigest 9], None).
Proof. vm_compute. reflexivity. Qed.

Example spend_accepted : spending.1.1 = None ∧ GetBalance spending.1.2 ShieldedPoolAddress = 120 ∧ GetBalance spending.1.2 demoTo = 30.
Proof. vm_compute. done. Qed.

(** A Shield4 spend of another note under a link tag. *)
Definition demoAnchor2 : Digest := Eval vm_compute in match ShieldedV3Root spending.1.2 with Ok d => d | Err _ => zeroDigest end.
Definition linkedEnvelope : ShieldedV4Transaction :=
  let b := demoEnvelope false demoAnchor2 (demoDigest 19) [31; 32; 33; 34] demoTo 20 in {|
  s4_base := {|
    s3_Version := 4; s3_Deposit := b.(s3_Deposit); s3_Anchor := b.(s3_Anchor); s3_Nullifier := b.(s3_Nullifier); s3_StampRoot := b.(s3_StampRoot);
    s3_Outputs := b.(s3_Outputs); s3_WithdrawalRecipient := b.(s3_WithdrawalRecipient); s3_WithdrawalValue := b.(s3_WithdrawalValue);
    s3_GasSponsorValue := b.(s3_GasSponsorValue); s3_Proof := b.(s3_Proof); s3_AdditionalNullifiers := b.(s3_AdditionalNullifiers);
    s3_InputCount := b.(s3_InputCount); s3_Relayed := b.(s3_Relayed); s3_ValidUntil := b.(s3_ValidUntil); s3_AssetID := b.(s3_AssetID);
    s3_FeeMode := b.(s3_FeeMode) |};
  s4_LinkTag := demoDigest 33 |}.
Definition linkedTx : stx := spendTx 0 196608 (bytesOr (EncodeShieldedV4Transaction linkedEnvelope)).
Abbreviation linked := (processSpend V4 poolConfig 10 20 spending.1.2 linkedTx ∅).

Example linked_read : readSpend V4 linkedTx.(sx_tx).(vt_Data) = Some (linkedEnvelope.(s4_base), [demoDigest 19], Some (demoDigest 33)).
Proof. vm_compute. reflexivity. Qed.

Example linked_accepted : linked.1.1 = None.
Proof. vm_compute. reflexivity. Qed.

(** *** The start *)

Lemma stampedPool_zero p d : inUse demoQ p d → p ∉ [pre3 (str "stamp/root"); pre3 (str "stamp/address")] → getP stampedPool p d = 0.
Proof.
  intros Hu Hn. unfold stampedPool. rewrite !(getP_setP_ne demoQ); try done.
  - apply use_digest; [in_list|by vm_compute|apply demoDg_intro].
  - intros [<- _]. apply Hn. set_solver+.
  - apply use_be; [in_list|by vm_compute|lia].
  - intros [<- _]. apply Hn. set_solver+.
Qed.

Definition noPool : pool := {| p_notes := []; p_spent := []; p_created := []; p_links := []; p_supply := 0 |}.

Ltac not_stamp := apply (bool_decide_unpack _); vm_compute; exact I.

Lemma no_marks pre : pre ∈ [nullPre; createPre; linkPre] → marks demoDg stampedPool pre [].
Proof.
  intros Hp a d Ha Hd. rewrite stampedPool_zero; [set_solver+|by apply (spend_use demoQ demoDg)|].
  rewrite !elem_of_cons, elem_of_nil in Hp. destruct Hp as [->|[->|[->|[]]]], Ha as [->| ->]; not_stamp.
Qed.

Lemma start_ledger a : asset a → ConfidentialLedgerState stampedPool a =
  {| OpeningBacking := 0; Deposited := 0; Withdrawn := 0; FeesBurned := 0; Backing := 0; Initialized := false |}.
Proof.
  intros Ha. assert (H : ∀ r, r ∈ ledgerRoles → getP stampedPool (preFor a r) [] = 0).
  { intros r Hr. apply stampedPool_zero; [by apply (lu_ledger demoQ demoTx)|].
    assert (Hn : Forall (λ r, preFor a r ∉ [pre3 (str "stamp/root"); pre3 (str "stamp/address")]) ledgerRoles) by (destruct Ha as [->| ->]; not_stamp).
    rewrite Forall_forall in Hn. by apply Hn. }
  rewrite ledger_state by done. cbv beta zeta. rewrite !H by (unfold ledgerRoles; set_solver+). reflexivity.
Qed.

Lemma start_holds : pool_holds demoDg stampedPool noPool.
Proof.
  split; try (apply no_marks; set_solver+).
  - apply holds_nil. intros k Hk. unfold getK, getSlot. rewrite slot3. fold (getP stampedPool (pre3 (roleOf noteTree k)) (dataOf k)).
    apply stampedPool_zero; [apply used_inUse; by apply (tu_used (use3 demoQ) noteTree demoDg)|]. destruct k; not_stamp.
  - split; [apply stampedPool_zero; [apply (lu_supply demoQ demoTx)|not_stamp]|done].
  - intros a Ha. by rewrite start_ledger.
  - split_and!; constructor.
Qed.

Lemma start_backed : backed stampedPool.
Proof. split; [intros a Ha; by rewrite start_ledger|rewrite start_ledger by (by left); done|rewrite start_ledger by (by right); done]. Qed.

(** *** The transactions *)

Lemma typed_tx value h data : bool_decide (bytes_ok data) = true → 0 <= value → tx_typed (spendTx value h data).
Proof. intros Hb Hv. split; [by apply bool_decide_eq_true in Hb|done]. Qed.

Lemma deposit_typed : tx_typed depositTx.
Proof. apply typed_tx; [vm_compute; reflexivity|done]. Qed.
Lemma spending_typed : tx_typed spendingTx.
Proof. apply typed_tx; [vm_compute; reflexivity|done]. Qed.

Lemma demo_envelope_use deposit anchor nullifier outputs to withdrawal ns value h data : demoTx h → h ≠ 0 → demoDg anchor → Forall demoDg ns →
  envelope_use demoDg demoTx (spendTx value h data) (demoEnvelope deposit anchor nullifier outputs to withdrawal) ns None.
Proof.
  intros Hx Hh Ha Hn. split; try done. cbn [demoEnvelope s3_Outputs]. apply Forall_fmap, Forall_true. intros w. apply demoDg_intro.
Qed.

Lemma deposit_use : in_use demoDg demoTx V3 depositTx.
Proof.
  intros e ns link H. rewrite deposit_read in H. injection H as <- <- <-. apply demo_envelope_use; [by vm_compute|done|by exists 0|constructor].
Qed.
Lemma spending_use : in_use demoDg demoTx V3 spendingTx.
Proof.
  intros e ns link H. rewrite spend_read in H. injection H as <- <- <-. apply demo_envelope_use; [by vm_compute|done| |].
  - exists (default 0 (head demoAnchor)). split; [by vm_compute|by vm_compute].
  - apply Forall_singleton. apply demoDg_intro.
Qed.

(** A result that is accepted. *)
Lemma accepted_eq (r : option voteError * flatState * gset hash) : r.1.1 = None → r = (None, r.1.2, r.2).
Proof. destruct r as [[? ?] ?]. cbn. by intros ->. Qed.

Lemma deposited_eq : processSpend V3 poolConfig 10 20 stampedPool depositTx ∅ = (None, deposited.1.2, deposited.2).
Proof. exact (accepted_eq _ deposit_accepted). Qed.

Lemma spending_eq : processSpend V3 poolConfig 10 20 funded spendingTx ∅ = (None, spending.1.2, spending.2).
Proof. exact (accepted_eq _ (proj1 spend_accepted)). Qed.

(** *** Witnesses *)

Lemma shielded_spend_refines_witness :
  ∃ p, pool_holds demoDg deposited.1.2 p ∧ p.(p_notes) = demoDigest <$> [11; 12; 13; 14].
Proof.
  pose proof (shielded_spend_refines demoQ demoDg demoTx V3 poolConfig 10 20 stampedPool noPool depositTx ∅ None deposited.1.2 deposited.2
    start_holds deposit_typed deposit_use deposited_eq) as (e & ns & link & ledger & sender & Hr & _ & _ & _ & [_ H] & _).
  rewrite deposit_read in Hr. injection Hr as <- <- <-. eexists. split; [exact H|]. reflexivity.
Defined.

Lemma linked_use : in_use demoDg demoTx V4 linkedTx.
Proof.
  intros e ns link H. rewrite linked_read in H. injection H as <- <- <-. split.
  - split; by vm_compute.
  - exists (default 0 (head demoAnchor2)). split; [by vm_compute|by vm_compute].
  - apply Forall_singleton. apply demoDg_intro.
  - change (Forall (λ o, demoDg o.(so_Commitment)) (demoOutput <$> [31; 32; 33; 34])). apply Forall_fmap, Forall_true. intros w. apply demoDg_intro.
  - intros t [= <-]. apply demoDg_intro.
Qed.

Lemma linked_typed : tx_typed linkedTx.
Proof. apply typed_tx; [vm_compute; reflexivity|done]. Qed.

Lemma linked_eq : processSpend V4 poolConfig 10 20 spending.1.2 linkedTx ∅ = (None, linked.1.2, linked.2).
Proof. exact (accepted_eq _ linked_accepted). Qed.

(** A deposit, its value, a Shield3 spend and a Shield4 spend. *)
Abbreviation demoLog := [(AssetTKM, demoDigest 9); (AssetTKM, demoDigest 19)].
Abbreviation demoTags := [(AssetTKM, demoDigest 33)].

Lemma demo_history : history demoQ demoDg demoTx stampedPool demoLog demoTags linked.1.2.
Proof.
  change demoLog with ((([] ++ (pair (shieldedV3AssetID depositEnvelope) <$> [])) ++ (pair (shieldedV3AssetID spendEnvelope) <$> [demoDigest 9])) ++ (pair (shieldedV3AssetID linkedEnvelope.(s4_base)) <$> [demoDigest 19])).
  change demoTags with ((([] ++ linkTags depositTx depositEnvelope [] None) ++ linkTags spendingTx spendEnvelope [demoDigest 9] None) ++ linkTags linkedTx linkedEnvelope.(s4_base) [demoDigest 19] (Some (demoDigest 33))).
  eapply history_spend; [|exact linked_typed|exact linked_use|exact linked_eq|exact linked_read].
  eapply history_spend; [|exact spending_typed|exact spending_use|exact spending_eq|exact spend_read].
  eapply history_other; [|intros q d _ _; unfold funded, getP; apply GetState_Add].
  eapply history_spend; [apply history_start|exact deposit_typed|exact deposit_use|exact deposited_eq|exact deposit_read].
Qed.

Lemma refused_state (r : option voteError * flatState * gset hash) st seen :
  (∀ err st2 seen', r = (err, st2, seen') → is_Some err ∧ st2 = st ∧ seen' = seen) → r.1.2 = st.
Proof. destruct r as [[err st2] seen']. intros H. by destruct (H _ _ _ eq_refl) as (_ & -> & _). Qed.

Lemma no_double_spend_witness :
  ShieldedV3NullifierTransactionForAsset linked.1.2 AssetTKM (demoDigest 9) ≠ 0 ∧ shieldedV4LinkTagTransactionForAsset linked.1.2 AssetTKM (demoDigest 33) ≠ 0
  ∧ NoDup demoLog ∧ (processSpend V4 poolConfig 11 21 linked.1.2 linkedTx ∅).1.2 = linked.1.2.
Proof.
  destruct (no_double_spend demoQ demoDg demoTx stampedPool demoLog demoTags linked.1.2 noPool start_holds demo_history) as ([Hnd _] & _ & Hs & Ht & Hr).
  split; [apply Hs; [by left|apply demoDg_intro|]; apply list_elem_of_here|]. split; [apply Ht; [by left|apply demoDg_intro|]; apply list_elem_of_here|]. split; [exact Hnd|].
  apply (refused_state _ linked.1.2 ∅). intros err st2 seen' E.
  refine (Hr V4 poolConfig 11 21 linkedTx ∅ err st2 seen' linkedEnvelope.(s4_base) [demoDigest 19] (Some (demoDigest 33)) linked_typed linked_use linked_read _ E).
  right. exists (demoDigest 33). split; [reflexivity|]. split; [reflexivity|]. apply list_elem_of_here.
Defined.

Lemma ledger_stays_backed_witness : backed funded.
Proof.
  change funded with (AddBalance deposited.1.2 ShieldedPoolAddress depositTx.(sx_tx).(vt_Value)).
  apply (ledger_stays_backed demoQ demoDg demoTx V3 poolConfig 10 20 stampedPool noPool depositTx ∅ deposited.1.2 deposited.2).
  - by vm_compute.
  - exact start_holds.
  - exact start_backed.
  - exact deposit_typed.
  - exact deposit_use.
  - exact deposited_eq.
  - intros e ns link H. rewrite deposit_read in H. injection H as <- <- <-. done.
  - by vm_compute.
  - by vm_compute.
Defined.

End PoolDemo.
