(* ===== verification/RingDemo.v ===== *)
(** * A ring spend

    The theorems of [Accumulator] and [RingSpend] applied to sixteen outputs and to a
    transaction that spends one of them, on the small pool of [PoolDemo]. *)

From S2P Require Import Prelude Bytes State ChainConfig ValidatorRegistry ValidatorStore Merkle ShieldedTree NoteTree ShieldedDemo Stamps AddressVotes ShieldedEnvelopes Ledger ShieldedSpend Shielded6 PoolSlots PoolLedger SpendRefinement Accumulator RingSpend PoolDemo.
Import ValidatorRegistry ValidatorStore ShieldedTree NoteTree ShieldedDemo Stamps AddressVotes ShieldedEnvelopes Ledger ShieldedSpend Shielded6 PoolSlots PoolLedger SpendRefinement Accumulator RingSpend PoolDemo.

Module RingDemo.

#[local] Existing Instance RefUint256.
#[local] Existing Instance FlatWorldState.

(** Every point decodes and every proof is accepted. *)
#[local] Instance DemoCrypto : Shield6Crypto := {
  decodePoint _ _ := true;
  decodeScalar _ := true;
  clsagVerify _ _ _ _ _ := true;
  VerifyRangeProof128 _ _ := true;
  VerifyDepositCommitment _ _ _ := true;
  VerifyCommitmentBalance128 _ _ _ := true;
  recipientKey _ := true;
  recipientVerify _ _ _ := true;
  registrationVerify _ _ _ _ _ _ := true;
}.

Definition ringPoint (w : Z) : bytes := w :: replicate 31 0.
Definition ringOutput (w : Z) : ShieldedV6Output := {|
  o6_OneTimeKey := ringPoint w; o6_EphemeralKey := ringPoint 1; o6_Commitment := ringPoint (w + 100); o6_AmountLimbs := replicate 2 (ringPoint 1);
  o6_EncryptedNote := [7] |}.

Definition ringEntries : list (ShieldedV6Output * hash) := (λ w, (ringOutput (Z.of_nat w), 65536)) <$> seq 1 16.

(** A stamped sender. *)
Definition ringFrom : address := Eval vm_compute in demoHash (AlgorithmMLDSA87 ++ [5]).
Definition ringStart : flatState := setP emptyFlat (pre3 (str "stamp/address")) (address_bytes ringFrom) 1.

Lemma ringStart_zero p d : inUse demoQ p d → p ≠ pre3 (str "stamp/address") → getP ringStart p d = 0.
Proof.
  intros Hu Hn. unfold ringStart. rewrite (getP_setP_ne demoQ); [done| |done|by intros [<- _]]. apply use_be; [in_list|by vm_compute|lia].
Qed.

Lemma ring_empty : empty6 demoQ ringStart.
Proof.
  intros p d Hu Ho. apply ringStart_zero; [done|]. intros ->. unfold outputSlot in Ho. revert Ho. apply (bool_decide_unpack _). vm_compute. exact I.
Qed.

(** *** Outputs *)

Lemma ringPoint_ok w : 1 <= w < 256 → demoPoint (ringPoint w).
Proof.
  intros Hw. split; [split_and!|].
  - constructor; [unfold is_byte; lia|]. apply Forall_replicate. unfold is_byte. lia.
  - done.
  - intros [= E]. lia.
  - unfold ringPoint. change (w :: replicate 31 0) with ([w] ++ replicate 31 0). rewrite le_value_app.
    assert (E : le_value (replicate 31 0) = 0) by (by vm_compute). rewrite E. assert (E1 : le_value [w] = w) by (unfold le_value; cbn; lia). rewrite E1.
    assert (256 < 2 ^ 240) by done. lia.
Qed.

Lemma ring_output_ok w : 1 <= w < 100 → output_ok demoPoint (ringOutput w).
Proof.
  intros Hw. split.
  - split; [apply ringPoint_ok; lia|done].
  - split; [cbn [ringOutput o6_Commitment]; apply ringPoint_ok; lia|done].
  - cbn [ringOutput o6_OneTimeKey]. apply ringPoint_ok. lia.
Qed.

Lemma ring_entries_ok : Forall (λ e, output_ok demoPoint e.1 ∧ e.2 ≠ 0) ringEntries.
Proof. apply Forall_fmap, Forall_seq. intros j Hj. cbn. split; [apply ring_output_ok; lia|done]. Qed.

Lemma ring_keys : NoDup (oneTimeKeysOf ringEntries).
Proof. apply (bool_decide_unpack _). vm_compute. exact I. Qed.

(** No hash of the small pool is zero. *)
Lemma keccak_nonzero b : BytesToHash (keccak b) ≠ 0.
Proof.
  unfold keccak, PoolX. set (s := slotNumber poolPrefixes Keccak 1 b). cbv zeta.
  assert (Hs : 0 <= s < 2 ^ 256).
  { pose proof (slotNumber_range poolPrefixes Keccak 1 b ltac:(lia)) as Hr. fold s in Hr. change (length poolPrefixes) with (Z.to_nat demoCount) in Hr. unfold demoCount in Hr.
    change (2 ^ 256) with (65536 * 2 ^ 240). lia. }
  assert (Hh : 1 <= demoHash b < 2 ^ 256).
  { unfold demoHash. pose proof (Z.mod_pos_bound (foldl (λ h c, h * 3 + c) 1 b) 256 ltac:(lia)). assert (257 < 2 ^ 256) by done. lia. }
  rewrite BytesToHash_32 by apply length_be_bytes. rewrite be_value_bytes; change (256 ^ Z.of_nat 32) with (2 ^ 256); destruct (Z.eqb_spec s 0); lia.
Qed.

Lemma hashes_nonzero : (∀ a b, shieldedV6HashNode a b ≠ 0) ∧ emptyLeaf ≠ 0 ∧ ∀ i o, accumulatorLeaf i o ≠ 0.
Proof. unfold shieldedV6HashNode, emptyLeaf, accumulatorLeaf. split_and!; intros; apply keccak_nonzero. Qed.

Lemma node_nonzero l k i : Forall (λ x, x ≠ 0) l → Merkle.node shieldedV6HashNode emptyLeaf l k i ≠ 0.
Proof.
  destruct hashes_nonzero as (H1 & H2 & _). intros Hl. destruct k as [|k]; cbn [Merkle.node]; [|apply H1].
  destruct (l !! Z.to_nat i) as [x|] eqn:E; cbn [default from_option id]; [|apply H2]. by apply (Forall_lookup_1 _ _ _ _ Hl E).
Qed.

Lemma leaves_nonzero es : Forall (λ x, x ≠ 0) (leaves6 es).
Proof.
  apply Forall_lookup_2. intros i x H. unfold leaves6, leavesFrom in H. rewrite list_lookup_imap in H. destruct (es !! i) as [e|]; [|done].
  apply (inj Some) in H. rewrite <- H. apply hashes_nonzero.
Qed.

Lemma ring_no_zero es : noZeroNode es ∧ root6 es ≠ 0.
Proof. split; [intros m k _ _ i _|]; apply node_nonzero, leaves_nonzero. Qed.

Lemma output_accumulator_root_witness :
  ∃ st', appendEntries ringStart ringEntries = (None, st') ∧ ShieldedV6OutputRoot st' = root6 ringEntries ∧ ShieldedV6OutputCount st' = 16.
Proof.
  destruct (output_accumulator_root demoQ demoPoint ringStart ringEntries) as (st' & E & Hr & Hc & _).
  - exact ring_empty.
  - exact ring_entries_ok.
  - exact ring_keys.
  - done.
  - apply ring_no_zero.
  - intros _. apply ring_no_zero.
  - exact (ex_intro _ st' (conj E (conj Hr Hc))).
Defined.

(** *** A spend *)

Abbreviation ringState := ((appendEntries ringStart ringEntries).2).

Definition ringEnvelope : ShieldedV6Transaction := {|
  s6_Version := 6; s6_AssetID := 1; s6_Deposit := false; s6_DepositMask := replicate 32 0; s6_WithdrawalRecipient := 0; s6_WithdrawalValue := 0;
  s6_Inputs := [{| i6_RingIndices := Z.of_nat <$> seq 0 16; i6_KeyImage := ringPoint 99; i6_PseudoOutput := ringPoint 98; i6_Signature := replicate CLSAGSize 1 |}];
  s6_Outputs := [ringOutput 50]; s6_RangeProof := [1]; s6_Recipients := None; s6_Binding := None; s6_ValidUntil := 0 |}.

Definition ringTx : stx := spendTx 0 131072 (bytesOr (EncodeShieldedV6Transaction ringEnvelope)).
Abbreviation ringResult := (processShieldedV6 poolConfig 10 20 ringState ringTx ∅).

Example ring_decoded : DecodeShieldedV6Transaction ringTx.(sx_tx).(vt_Data) = Ok (Some ringEnvelope).
Proof. vm_compute. reflexivity. Qed.

Example ring_accepted : ringResult.1.1 = None.
Proof. vm_compute. reflexivity. Qed.

Lemma ring_state : holds6 demoPoint ringState ringEntries ∧ quiet demoQ outputSlot ringStart ringState.
Proof.
  destruct (append_entries demoQ demoPoint ringStart [] ringEntries (empty_holds demoQ demoPoint ringStart ring_empty)) as (st' & E & H & Hq).
  - eapply Forall_impl; [exact ring_entries_ok|]. by intros ? [].
  - exact ring_keys.
  - done.
  - apply ring_no_zero.
  - rewrite E. cbn [snd app] in *. by split.
Qed.

Lemma ring_zero p d : inUse demoQ p d → p ≠ pre3 (str "stamp/address") → ¬ outputSlot p d → getP ringState p d = 0.
Proof. intros Hu Hn Ho. rewrite (quiet_get demoQ _ _ _ _ _ (proj2 ring_state) Hu Ho). by apply ringStart_zero. Qed.

Ltac not_output := first [prefix_ne | unfold outputSlot; apply (bool_decide_unpack _); vm_compute; exact I].

Lemma ring_images : images_hold demoPoint ringState [].
Proof.
  split.
  - reflexivity.
  - apply ring_zero; [apply (iu_count demoQ demoPoint)|not_output|not_output].
  - intros i k Hi. rewrite lookup_nil in Hi. discriminate Hi.
  - intros k Hk. rewrite ring_zero; [set_solver+|by apply (iu_image demoQ demoPoint)|not_output|not_output].
  - constructor.
Qed.

Lemma ring_words : ledger_words ringState.
Proof.
  split.
  - rewrite ring_zero; [done|apply (lu_supply demoQ demoTx)|not_output|not_output].
  - rewrite ledger_state by (by left). cbv beta zeta. cbn [OpeningBacking].
    rewrite ring_zero; [done|apply (lu_ledger demoQ demoTx); [by left|unfold ledgerRoles; set_solver+]|not_output|not_output].
Qed.

Lemma ring_envelope : envelope6 demoPoint demoPoint ringTx ringEnvelope.
Proof.
  split; [|apply Forall_singleton; split; [apply ringPoint_ok; lia|]|done].
  - apply Forall_singleton. split_and!; [apply ringPoint_ok; lia|cbn [ringOutput o6_Commitment]; apply ringPoint_ok; lia|cbn [ringOutput o6_OneTimeKey]; apply ringPoint_ok; lia].
  - apply (bool_decide_unpack _). vm_compute. exact I.
Qed.

Lemma ring_eq : processShieldedV6 poolConfig 10 20 ringState ringTx ∅ = (None, ringResult.1.2, ringResult.2).
Proof. exact (accepted_eq _ ring_accepted). Qed.

Lemma ring_spends_once_witness : images_hold demoPoint ringResult.1.2 [ringPoint 99] ∧ ∃ es, holds6 demoPoint ringResult.1.2 es ∧ length es = 17%nat.
Proof.
  pose proof (ring_spends_once demoQ demoPoint demoTx demoPoint poolConfig 10 20 ringState ringEntries [] ringTx ∅ None ringResult.1.2 ringResult.2 ringEnvelope
    (proj1 ring_state) ring_images ring_words ring_decoded ltac:(done) ring_envelope ring_eq) as (_ & _ & H & Hi & _).
  split; [exact Hi|]. eexists. split; [exact H|]. reflexivity.
Defined.

End RingDemo.
