(* ===== verification/RLPValues.v ===== *)
(** * What a decoded value looks like

    Every value the typed decoder returns is a value of its type: integers in range,
    arrays of their length, bytes that are bytes. *)

From S2P Require Import Prelude Bytes RLP RLPStream RLPTypes ValidatorRegistry.
Import RLP RLPStream RLPTypes ValidatorRegistry.

Module RLPValues.

Section Fields.
Context (ht : rtype → rval → Prop).
(** An optional field may have the zero value of its type. *)
Fixpoint hasFields (fs : list (bool * rtype)) (vs : list rval) : Prop :=
  match fs, vs with
  | [], [] => True
  | (optional, t) :: fs, v :: vs => (ht t v ∨ (optional = true ∧ v = zeroOf t)) ∧ hasFields fs vs
  | _, _ => False
  end.
End Fields.

Fixpoint hasType (ty : rtype) (v : rval) {struct ty} : Prop :=
  match ty with
  | RUint bits => ∃ n, v = VNum n ∧ 0 <= n < 2 ^ bits
  | RBool => ∃ b, v = VBool b
  | RByteSlice => ∃ b, v = VBytes b ∧ bytes_ok b
  | RByteArray n => ∃ b, v = VBytes b ∧ bytes_ok b ∧ length b = n
  | RBigInt => ∃ n, v = VNum n ∧ 0 <= n
  | RU256 => ∃ n, v = VNum n ∧ 0 <= n < 2 ^ 256
  | RPtr t => hasType t v
  | RNilPtr _ t => v = VNil ∨ hasType t v
  | RSlice t => ∃ vs, v = VList vs ∧ Forall (hasType t) vs
  | RArray n t => ∃ vs, v = VList vs ∧ Forall (hasType t) vs ∧ length vs = n
  | RStruct fs => ∃ vs, v = VList vs ∧ hasFields hasType fs vs
  end.

Lemma zero_fields fs : forallb fst fs → hasFields hasType fs ((λ f, zeroOf f.2) <$> fs).
Proof. induction fs as [|[o t] fs IH]; [done|]. cbn. intros [Ho Hfs]%andb_True. split; [right; split; [by destruct o|done]|by apply IH]. Qed.

Lemma fields_have fs vs js : Forall (λ f, ∀ v i, denote f.2 v i → item_ok i → wf_type f.2 → hasType f.2 v) fs →
  optionalSuffix fs → forallb (λ f, wf_type f.2) fs → denoteFields denote fs vs js → Forall item_ok js → hasFields hasType fs vs.
Proof.
  intros IH. revert vs js. induction IH as [|[o t] fs Ht _ IH]; intros vs js Hs Hw Hd Hok; cbn [denoteFields] in Hd; [by destruct Hd as [-> _]|].
  cbn [optionalSuffix] in Hs. apply andb_True in Hs as [Hs1 Hs2]. cbn [forallb snd] in Hw. apply andb_True in Hw as [Hw1 Hw2].
  destruct Hd as [(v & vs' & i & js' & -> & -> & Hv & Hd)|(-> & -> & ->)].
  - apply Forall_cons in Hok as [Hi Hok]. split; [left; by eapply Ht|by eapply IH].
  - cbn [negb orb] in Hs1. apply (zero_fields ((true, t) :: fs)). done.
Qed.

Lemma elements_have t vs js : (∀ v i, denote t v i → item_ok i → hasType t v) → Forall2 (denote t) vs js → Forall item_ok js → Forall (hasType t) vs.
Proof. intros IH H. induction H as [|v i vs js Hv _ IHl]; intros Hok; [constructor|]. apply Forall_cons in Hok as [Hi Hok]. constructor; eauto. Qed.

Lemma denote_hasType ty v i : denote ty v i → item_ok i → wf_type ty → hasType ty v.
Proof.
  revert v i. induction ty as [bits| | |n| | |t IH|k t IH|t IH|n t IH|fs IH] using rtype_ind'; intros v i Hd Hok Hw; cbn [denote hasType] in *.
  - destruct Hd as (m & -> & _ & H). eauto.
  - destruct Hd as (b & -> & _). eauto.
  - destruct Hd as (b & -> & ->). inversion Hok. eauto.
  - destruct Hd as (b & -> & -> & Hl). inversion Hok. eauto.
  - destruct Hd as (m & -> & _ & H). eauto.
  - destruct Hd as (m & -> & _ & H). eauto.
  - cbn [wf_type] in Hw. apply andb_True in Hw as [_ Hw]. by eapply IH.
  - cbn [wf_type] in Hw. rewrite !andb_True in Hw. destruct Hd as [[-> _]|[Hd _]]; [by left|right]. eapply IH; [done..|apply Hw].
  - destruct Hd as (vs & js & -> & -> & H). inversion Hok. exists vs. split; [done|]. eapply elements_have; [|done|done]. eauto.
  - destruct Hd as (vs & js & -> & -> & H & Hl). inversion Hok. exists vs. split; [done|]. split; [|done]. eapply elements_have; [|done|done]. eauto.
  - destruct Hd as (vs & js & -> & -> & H). inversion Hok. exists vs. split; [done|]. cbn [wf_type] in Hw. apply andb_True in Hw as [Hs Hw].
    eapply fields_have; [done| |done|done|done]. unfold wf_fields in Hs. destruct fs as [|[[] t] fs]; done.
Qed.

Section Decode.
Context {X : Externals}.

Lemma decodeInto_typed {A} ty (of_ : rval → option A) b a : wf_type ty → bytes_ok b → Z.of_nat (length b) < two64 →
  decodeInto ty of_ b = Ok a → ∃ v, hasType ty v ∧ of_ v = Some a.
Proof.
  intros Hw Hb Hl E. unfold decodeInto in E. destruct (DecodeBytes pooled b ty) as [v|] eqn:Ed; [|done].
  apply DecodeBytes_inv in Ed as (i & Hd & Hok & _); [|done..]. destruct (of_ v) as [a'|] eqn:Ev; [|done]. apply Ok_inj in E as ->.
  exists v. split; [by eapply denote_hasType|done].
Qed.

Lemma envelope_typed {A} prefix ty (of_ : rval → option A) data a : wf_type ty → bytes_ok data →
  (p ← payload prefix data; decodeInto ty of_ p) = Ok a → ∃ v, hasType ty v ∧ of_ v = Some a.
Proof.
  intros Hw Hb E. unfold payload in E. destruct (_ || _) eqn:Hp; [done|]. cbn [mbind result_bind] in E. apply orb_false_iff in Hp as [_ Hlen].
  eapply decodeInto_typed; [done| | |done]; [by apply Forall_drop|]. rewrite length_drop. unfold ShieldedV3MaxTxSize, two64 in *. lia.
Qed.

End Decode.

(** A big-endian array of [n] bytes is a number of that size. *)
Lemma be_value_sized b n : bytes_ok b → length b = n → 0 <= be_value b < 256 ^ Z.of_nat n.
Proof. intros Hb <-. by apply be_value_bound. Qed.

End RLPValues.
