(* ===== verification/Oracle.v ===== *)
(** * Oracle feeds and cross-chain messages

    [consensus/antartical/oracle.go], [consensus/antartical/crosschain.go] and
    [core/oracle_crosschain.go]: signed observations of a feed and signed messages from
    another chain, each alone or with the signatures of two thirds of the active
    validators, are recorded in slots of the shielded pool's account.

    The recovery of a secp256k1 key from a signature is an argument.  A decoded big
    integer is never nil, so chain identifiers are numbers. *)

From stdpp Require Import sorting.
From S2P Require Import Prelude Bytes RLP RLPStream RLPTypes State ChainConfig ValidatorRegistry ShieldedTree ShieldedEnvelopes.
Import RLP RLPStream RLPTypes ValidatorRegistry ShieldedTree ShieldedEnvelopes.

Module Oracle.

Definition OracleObservationMagic : bytes := str "TKM-ORACLE-ENVELOPE-V1".
Definition OracleQuorumMagic : bytes := str "TKM-ORACLE-QUORUM-V1".
Definition CrossChainMessageMagic : bytes := str "TKM-XCHAIN-ENVELOPE-V1".
Definition CrossChainQuorumMagic : bytes := str "TKM-XCHAIN-QUORUM-V1".
Definition MaxOracleValueBytes : Z := 4096.
Definition MaxCrossChainPayload : Z := 64 * 1024.
Definition SignatureLength : nat := 65.

Inductive relayError :=
| ErrProfileInactive
| ErrOracleEnvelope
| ErrOracleReplay
| ErrCrossChainEnvelope
| ErrCrossChainReplay
| ErrInvalidOracleObservation
| ErrInvalidOracleQuorum
| ErrInvalidCrossChainMessage
| ErrInvalidCrossChainQuorum
| ErrRelayEncode.

(** [crypto.SigToPub] and [crypto.PubkeyToAddress]: the signer of a hash. *)
Class Secp256k1 := SigToAddress : bytes → bytes → option address.

(** ** Data *)

Record OracleObservation := {
  oo_FeedID : hash;
  oo_Round : Z;
  oo_Value : bytes;
  oo_Timestamp : Z;
  oo_Signer : address;
  oo_Signature : bytes;
}.

Record CrossChainMessage := {
  cm_SourceChainID : Z;
  cm_DestinationChainID : Z;
  cm_Nonce : Z;
  cm_Sender : address;
  cm_Target : address;
  cm_Payload : bytes;
}.

Record CrossChainAttestation := {
  ca_Signer : address;
  ca_Signature : bytes;
}.

Record SignedCrossChainMessage := {
  sm_Message : CrossChainMessage;
  sm_Signer : address;
  sm_Signature : bytes;
}.

Record CrossChainQuorumEnvelope := {
  cq_Version : Z;
  cq_Message : CrossChainMessage;
  cq_Attestations : list CrossChainAttestation;
}.

(** *** As RLP *)

Definition hashType : rtype := RByteArray 32.
Definition addressType : rtype := RByteArray 20.
Definition hashVal (h : hash) : rval := VBytes (hash_bytes h).
Definition addressVal (a : address) : rval := VBytes (address_bytes a).

Definition observationType : rtype :=
  RStruct [(false, hashType); (false, RUint 64); (false, RByteSlice); (false, RUint 64); (false, addressType); (false, RByteSlice)].
Definition observationVal (o : OracleObservation) : rval :=
  VList [hashVal o.(oo_FeedID); VNum o.(oo_Round); VBytes o.(oo_Value); VNum o.(oo_Timestamp); addressVal o.(oo_Signer); VBytes o.(oo_Signature)].
Definition observationOf (v : rval) : option OracleObservation :=
  match v with
  | VList [VBytes feed; VNum round; VBytes value; VNum time; VBytes signer; VBytes signature] =>
      Some {| oo_FeedID := be_value feed; oo_Round := round; oo_Value := value; oo_Timestamp := time; oo_Signer := be_value signer;
              oo_Signature := signature |}
  | _ => None
  end.

(** A version and the observations. *)
Definition oracleQuorumType : rtype := RStruct [(false, RUint 64); (false, RSlice observationType)].
Definition oracleQuorumVal (version : Z) (os : list OracleObservation) : rval := VList [VNum version; VList (observationVal <$> os)].
Definition oracleQuorumOf (v : rval) : option (Z * list OracleObservation) :=
  match v with VList [VNum version; os] => pair version <$> listOf observationOf os | _ => None end.

Definition messageType : rtype :=
  RStruct [(false, RBigInt); (false, RBigInt); (false, RUint 64); (false, addressType); (false, addressType); (false, RByteSlice)].
Definition messageVal (m : CrossChainMessage) : rval :=
  VList [VNum m.(cm_SourceChainID); VNum m.(cm_DestinationChainID); VNum m.(cm_Nonce); addressVal m.(cm_Sender); addressVal m.(cm_Target);
         VBytes m.(cm_Payload)].
Definition messageOf (v : rval) : option CrossChainMessage :=
  match v with
  | VList [VNum source; VNum destination; VNum nonce; VBytes sender; VBytes target; VBytes payload] =>
      Some {| cm_SourceChainID := source; cm_DestinationChainID := destination; cm_Nonce := nonce; cm_Sender := be_value sender;
              cm_Target := be_value target; cm_Payload := payload |}
  | _ => None
  end.

Definition attestationType : rtype := RStruct [(false, addressType); (false, RByteSlice)].
Definition attestationVal (a : CrossChainAttestation) : rval := VList [addressVal a.(ca_Signer); VBytes a.(ca_Signature)].
Definition attestationOf (v : rval) : option CrossChainAttestation :=
  match v with VList [VBytes signer; VBytes signature] => Some {| ca_Signer := be_value signer; ca_Signature := signature |} | _ => None end.

Definition signedMessageType : rtype := RStruct [(false, messageType); (false, addressType); (false, RByteSlice)].
Definition signedMessageVal (m : SignedCrossChainMessage) : rval := VList [messageVal m.(sm_Message); addressVal m.(sm_Signer); VBytes m.(sm_Signature)].
Definition signedMessageOf (v : rval) : option SignedCrossChainMessage :=
  match v with
  | VList [m; VBytes signer; VBytes signature] =>
      (λ m, {| sm_Message := m; sm_Signer := be_value signer; sm_Signature := signature |}) <$> messageOf m
  | _ => None
  end.

Definition crossChainQuorumType : rtype := RStruct [(false, RUint 64); (false, messageType); (false, RSlice attestationType)].
Definition crossChainQuorumVal (e : CrossChainQuorumEnvelope) : rval :=
  VList [VNum e.(cq_Version); messageVal e.(cq_Message); VList (attestationVal <$> e.(cq_Attestations))].
Definition crossChainQuorumOf (v : rval) : option CrossChainQuorumEnvelope :=
  match v with
  | VList [VNum version; m; attestations] =>
      match messageOf m, listOf attestationOf attestations with
      | Some m, Some l => Some {| cq_Version := version; cq_Message := m; cq_Attestations := l |}
      | _, _ => None
      end
  | _ => None
  end.

(** An error of a codec becomes the error of the envelope. *)
Definition as_ {A} (e : relayError) (r : result vError A) : result relayError A := match r with Ok a => Ok a | Err _ => Err e end.

Section Relays.
Context {X : Externals} {Sg : Secp256k1}.

(** ** Hashes and signatures *)

(** [crypto.Keccak256Hash] of an RLP list *)
Definition hashOfList (t : list rtype) (vs : list rval) (e : relayError) : result relayError hash :=
  match EncodeValue (RStruct (pair false <$> t)) (VList vs) with None => Err e | Some blob => Ok (BytesToHash (keccak blob)) end.

Definition OracleObservation_Hash (o : OracleObservation) (chainID : Z) : result relayError hash :=
  _ ← fail_if ((chainID <=? 0) || (o.(oo_FeedID) =? zeroHash) || (o.(oo_Signer) =? zeroAddress) || (length o.(oo_Value) =? 0)%nat)
        ErrInvalidOracleObservation;
  hashOfList [hashType; RBigInt; hashType; RUint 64; RByteSlice; RUint 64; addressType]
    [hashVal (BytesToHash (str "TKM-ORACLE-1")); VNum chainID; hashVal o.(oo_FeedID); VNum o.(oo_Round); VBytes o.(oo_Value);
     VNum o.(oo_Timestamp); addressVal o.(oo_Signer)] ErrRelayEncode.

(** The signature recovers to the signer. *)
Definition signedBy (h : hash) (signature : bytes) (signer : address) : bool := bool_decide (SigToAddress (hash_bytes h) signature = Some signer).

Definition OracleObservation_Verify (o : OracleObservation) (chainID : Z) : result relayError unit :=
  match OracleObservation_Hash o chainID with
  | Err _ => Err ErrInvalidOracleObservation
  | Ok h =>
      fail_if (negb (length o.(oo_Signature) =? SignatureLength)%nat || negb (signedBy h o.(oo_Signature) o.(oo_Signer))) ErrInvalidOracleObservation
  end.

Definition CrossChainMessage_Hash (m : CrossChainMessage) : result relayError hash :=
  _ ← fail_if ((m.(cm_SourceChainID) <=? 0) || (m.(cm_DestinationChainID) <=? 0) || (m.(cm_Sender) =? zeroAddress) || (m.(cm_Target) =? zeroAddress))
        ErrInvalidCrossChainMessage;
  hashOfList [hashType; RBigInt; RBigInt; RUint 64; addressType; addressType; hashType]
    [hashVal (BytesToHash (str "TKM-XCHAIN-1")); VNum m.(cm_SourceChainID); VNum m.(cm_DestinationChainID); VNum m.(cm_Nonce);
     addressVal m.(cm_Sender); addressVal m.(cm_Target); hashVal (BytesToHash (keccak m.(cm_Payload)))] ErrRelayEncode.
Definition ReplayKey (m : CrossChainMessage) : result relayError hash := CrossChainMessage_Hash m.

Definition CrossChainAttestation_Verify (a : CrossChainAttestation) (m : CrossChainMessage) : result relayError unit :=
  _ ← fail_if ((a.(ca_Signer) =? zeroAddress) || negb (length a.(ca_Signature) =? SignatureLength)%nat) ErrInvalidCrossChainQuorum;
  digest ← CrossChainMessage_Hash m;
  fail_if (negb (signedBy digest a.(ca_Signature) a.(ca_Signer))) ErrInvalidCrossChainQuorum.

Definition SignedCrossChainMessage_Verify (m : SignedCrossChainMessage) : result relayError unit :=
  _ ← fail_if ((m.(sm_Signer) =? zeroAddress) || negb (length m.(sm_Signature) =? SignatureLength)%nat) ErrInvalidCrossChainMessage;
  digest ← CrossChainMessage_Hash m.(sm_Message);
  fail_if (negb (signedBy digest m.(sm_Signature) m.(sm_Signer))) ErrInvalidCrossChainMessage.

(** *** [common.Address.Hex] *)

Definition hexDigit (n : Z) : Z := if n <? 10 then 48 + n else 87 + n.
Definition hexEncode (b : bytes) : bytes := concat ((λ x, [hexDigit (x / 16); hexDigit (x mod 16)]) <$> b).

(** A letter is upper case where the digit of the hash is above 7. *)
Definition checksumHex (a : address) : bytes :=
  let buf := hexEncode (address_bytes a) in
  let h := keccak buf in
  str "0x" ++ imap (λ i c, let x := nth (i / 2) h 0 in
                           let d := if Nat.even i then Z.shiftr x 4 else Z.land x 15 in
                           if (57 <? c) && (7 <? d) then c - 32 else c) buf.

(** Go's [<] on strings *)
Definition string_lt (a b : bytes) : bool := match bytes_compare a b with Lt => true | _ => false end.

(** ** Quorums *)

(** The loop over the observations; [prev] is the one before. *)
Fixpoint observationLoop (chainID : Z) (first : OracleObservation) (prev : option OracleObservation) (seen : list address)
    (os : list OracleObservation) : bool :=
  match os with
  | [] => true
  | o :: os =>
      match prev with
      | Some p =>
          negb (string_lt (checksumHex o.(oo_Signer)) (checksumHex p.(oo_Signer))) && (o.(oo_FeedID) =? first.(oo_FeedID))
          && (o.(oo_Round) =? first.(oo_Round)) && (o.(oo_Timestamp) =? first.(oo_Timestamp)) && bool_decide (o.(oo_Value) = first.(oo_Value))
      | None => true
      end
      && negb (bool_decide (o.(oo_Signer) ∈ seen))
      && match OracleObservation_Verify o chainID with Ok _ => true | Err _ => false end
      && observationLoop chainID first (Some o) (o.(oo_Signer) :: seen) os
  end.

Definition VerifyOracleQuorum (chainID : Z) (os : list OracleObservation) (committeeSize numerator denominator : Z) : result relayError unit :=
  let n := Z.of_nat (length os) in
  _ ← fail_if ((n =? 0) || (committeeSize =? 0) || (denominator =? 0) || (denominator <? numerator) || (committeeSize <? n)) ErrInvalidOracleQuorum;
  _ ← fail_if (n * denominator <? committeeSize * numerator) ErrInvalidOracleQuorum;
  match os with
  | [] => Err ErrInvalidOracleQuorum
  | first :: _ => fail_if (negb (observationLoop chainID first None [] os)) ErrInvalidOracleQuorum
  end.

Fixpoint attestationLoop (m : CrossChainMessage) (committee : gset address) (prev : option address) (seen : list address)
    (l : list CrossChainAttestation) : bool :=
  match l with
  | [] => true
  | a :: l =>
      match prev with
      | Some p => negb (match bytes_compare (address_bytes a.(ca_Signer)) (address_bytes p) with Gt => false | _ => true end)
      | None => true
      end
      && bool_decide (a.(ca_Signer) ∈ committee) && negb (bool_decide (a.(ca_Signer) ∈ seen))
      && match CrossChainAttestation_Verify a m with Ok _ => true | Err _ => false end
      && attestationLoop m committee (Some a.(ca_Signer)) (a.(ca_Signer) :: seen) l
  end.

Definition VerifyCrossChainQuorum (m : CrossChainMessage) (l : list CrossChainAttestation) (committee : gset address)
    (numerator denominator : Z) : result relayError unit :=
  let n := Z.of_nat (length l) in
  let size := Z.of_nat (size committee) in
  _ ← fail_if ((n =? 0) || (size =? 0) || (denominator =? 0) || (denominator <? numerator)) ErrInvalidCrossChainQuorum;
  _ ← fail_if (n * denominator <? size * numerator) ErrInvalidCrossChainQuorum;
  fail_if (negb (attestationLoop m committee None [] l)) ErrInvalidCrossChainQuorum.

(** *** Canonical order; [sort.Slice] leaves the order of equal signers open *)

Definition byHex (o o' : OracleObservation) : Prop := string_lt (checksumHex o'.(oo_Signer)) (checksumHex o.(oo_Signer)) = false.
#[global] Instance byHex_dec : RelDecision byHex.
Proof. intros o o'. unfold byHex. apply _. Defined.
Definition SortOracleObservations (os : list OracleObservation) : list OracleObservation := merge_sort byHex os.

Definition bySigner (a a' : CrossChainAttestation) : Prop := a.(ca_Signer) <= a'.(ca_Signer).
#[global] Instance bySigner_dec : RelDecision bySigner.
Proof. intros a a'. unfold bySigner. apply _. Defined.

(** ** Envelopes *)

Definition HasOracleQuorumPrefix (data : bytes) : bool := has_prefix data OracleQuorumMagic.
Definition HasOracleObservationPrefix (data : bytes) : bool := has_prefix data OracleObservationMagic || HasOracleQuorumPrefix data.
Definition HasCrossChainQuorumPrefix (data : bytes) : bool := has_prefix data CrossChainQuorumMagic.
Definition HasCrossChainMessagePrefix (data : bytes) : bool := has_prefix data CrossChainMessageMagic || HasCrossChainQuorumPrefix data.

Definition EncodeOracleObservation (o : OracleObservation) : result relayError bytes :=
  as_ ErrRelayEncode (encodeWith OracleObservationMagic observationType (observationVal o)).
Definition DecodeOracleObservation (data : bytes) : result relayError OracleObservation :=
  as_ ErrOracleEnvelope (p ← payload OracleObservationMagic data; decodeInto observationType observationOf p).

Definition EncodeOracleQuorum (os : list OracleObservation) : result relayError bytes :=
  _ ← fail_if (length os =? 0)%nat ErrOracleEnvelope;
  as_ ErrRelayEncode (encodeWith OracleQuorumMagic oracleQuorumType (oracleQuorumVal 1 (SortOracleObservations os))).
Definition DecodeOracleQuorum (data : bytes) : result relayError (list OracleObservation) :=
  e ← as_ ErrOracleEnvelope (p ← payload OracleQuorumMagic data; decodeInto oracleQuorumType oracleQuorumOf p);
  _ ← fail_if (negb (e.1 =? 1) || (length e.2 =? 0)%nat) ErrOracleEnvelope;
  Ok e.2.

Definition EncodeCrossChainMessage (m : SignedCrossChainMessage) : result relayError bytes :=
  as_ ErrRelayEncode (encodeWith CrossChainMessageMagic signedMessageType (signedMessageVal m)).
Definition DecodeCrossChainMessage (data : bytes) : result relayError SignedCrossChainMessage :=
  as_ ErrCrossChainEnvelope (p ← payload CrossChainMessageMagic data; decodeInto signedMessageType signedMessageOf p).

Definition EncodeCrossChainQuorum (m : CrossChainMessage) (l : list CrossChainAttestation) : result relayError bytes :=
  _ ← fail_if (length l =? 0)%nat ErrCrossChainEnvelope;
  as_ ErrRelayEncode (encodeWith CrossChainQuorumMagic crossChainQuorumType
    (crossChainQuorumVal {| cq_Version := 1; cq_Message := m; cq_Attestations := merge_sort bySigner l |})).
Definition DecodeCrossChainQuorum (data : bytes) : result relayError CrossChainQuorumEnvelope :=
  e ← as_ ErrCrossChainEnvelope (p ← payload CrossChainQuorumMagic data; decodeInto crossChainQuorumType crossChainQuorumOf p);
  _ ← fail_if (negb (e.(cq_Version) =? 1) || (length e.(cq_Attestations) =? 0)%nat) ErrCrossChainEnvelope;
  Ok e.

(** ** State *)

Context {U : Uint256} {S : Type} {W : WorldState S}.

(** Feed and round as data of a slot. *)
Definition roundKey (feed : hash) (round : Z) : bytes := hash_bytes feed ++ be_bytes 8 round.

Definition oracleRoundSlot (feed : hash) : hash := ShieldedV3StateSlot (str "oracle/round") (hash_bytes feed).
Definition oracleObservationSlot (feed : hash) (round : Z) : hash := ShieldedV3StateSlot (str "oracle/observation") (roundKey feed round).
Definition oracleValueLengthSlot (feed : hash) (round : Z) : hash := ShieldedV3StateSlot (str "oracle/value-length") (roundKey feed round).
Definition oracleValueChunkSlot (feed : hash) (round index : Z) : hash :=
  ShieldedV3StateSlot (str "oracle/value") (roundKey feed round ++ be_bytes 8 index).
Definition crossChainReplaySlot (key : hash) : hash := ShieldedV3StateSlot (str "cross-chain/replay") (hash_bytes key).
Definition crossChainPayloadLengthSlot (key : hash) : hash := ShieldedV3StateSlot (str "cross-chain/payload-length") (hash_bytes key).
Definition crossChainPayloadChunkSlot (key : hash) (index : Z) : hash :=
  ShieldedV3StateSlot (str "cross-chain/payload") (hash_bytes key ++ be_bytes 8 index).

(** The loop that appends words until [length] bytes are read; every pass appends 32,
    so [length] passes are enough. *)
Fixpoint readWords (fuel : nat) (st : S) (slot : Z → hash) (index length_ : Z) (value : bytes) : bytes :=
  match fuel with
  | O => value
  | Datatypes.S fuel =>
      if Z.of_nat (length value) <? length_
      then readWords fuel st slot (index +₆₄ 1) length_ (value ++ hash_bytes (GetState st ShieldedPoolAddress (slot index)))
      else value
  end.

(** The bytes stored in words with their length, if it is in range. *)
Definition readBlob (st : S) (lengthSlot : hash) (slot : Z → hash) (max : Z) : option bytes :=
  let length_ := uint64FromHash (GetState st ShieldedPoolAddress lengthSlot) in
  if (length_ =? 0) || (max <? length_) then None
  else Some (take (Z.to_nat length_) (readWords (Z.to_nat length_) st slot 0 length_ [])).

Definition writeBlob (st : S) (lengthSlot : hash) (slot : Z → hash) (raw : bytes) : S :=
  let st := SetState st ShieldedPoolAddress lengthSlot (uint64Hash (Z.of_nat (length raw))) in
  foldl (λ st i, SetState st ShieldedPoolAddress (slot (Z.of_nat i)) (chunkWord raw i)) st (seq 0 ((length raw + 31) / 32)).

Definition OracleObservationValue (st : S) (feed : hash) (round : Z) : option bytes :=
  readBlob st (oracleValueLengthSlot feed round) (oracleValueChunkSlot feed round) MaxOracleValueBytes.
Definition CrossChainPayload (st : S) (key : hash) : option bytes :=
  readBlob st (crossChainPayloadLengthSlot key) (crossChainPayloadChunkSlot key) MaxCrossChainPayload.

(** The transaction around an envelope; a configuration without a chain identifier is
    refused here, where the code would panic. *)
Definition relayTx (config : ChainConfig.ChainConfig) (tx : vtx) : bool :=
  bool_decide (tx.(vt_To) = Some ShieldedPoolAddress) && (tx.(vt_Value) =? 0) && bool_decide (ChainConfig.ChainID config = Some tx.(vt_ChainId)).

(** [err == nil && len(active) != 0] *)
Definition committeeExists (st : S) (number : Z) : bool :=
  match ActiveValidatorRecords st (u64 number) with Ok (_ :: _) => true | _ => false end.

(** The observation of an oracle transaction. *)
Definition oracleObservation (config : ChainConfig.ChainConfig) (number : Z) (st : S) (tx : vtx) (sender : address) : result relayError OracleObservation :=
  let chainID := tx.(vt_ChainId) in
  if HasOracleQuorumPrefix tx.(vt_Data) then
    os ← DecodeOracleQuorum tx.(vt_Data);
    match ActiveValidatorRecords st (u64 number) with
    | Err _ | Ok [] => Err ErrInvalidOracleQuorum
    | Ok active =>
        let committee := list_to_set (Address <$> active) : gset address in
        _ ← fail_if (negb (forallb (λ o, bool_decide (o.(oo_Signer) ∈ committee)) os)) ErrInvalidOracleQuorum;
        _ ← VerifyOracleQuorum chainID os (Z.of_nat (length active)) 2 3;
        match os with o :: _ => Ok o | [] => Err ErrInvalidOracleQuorum end
    end
  else
    o ← DecodeOracleObservation tx.(vt_Data);
    _ ← fail_if (negb (o.(oo_Signer) =? sender) || match OracleObservation_Verify o chainID with Ok _ => false | Err _ => true end) ErrOracleEnvelope;
    _ ← fail_if (committeeExists st number) ErrInvalidOracleQuorum;
    Ok o.

Definition recordObservation (st : S) (o : OracleObservation) (chainID : Z) : S :=
  let pool := ShieldedPoolAddress in
  let st := SetState st pool (oracleRoundSlot o.(oo_FeedID)) (uint64Hash o.(oo_Round)) in
  let h := match OracleObservation_Hash o chainID with Ok h => h | Err _ => zeroHash end in
  let st := SetState st pool (oracleObservationSlot o.(oo_FeedID) o.(oo_Round)) h in
  writeBlob st (oracleValueLengthSlot o.(oo_FeedID) o.(oo_Round)) (oracleValueChunkSlot o.(oo_FeedID) o.(oo_Round)) o.(oo_Value).

Definition ProcessOracleTransaction (config : ChainConfig.ChainConfig) (number time : Z) (st : S) (tx : vtx) (sender : address) : option relayError * S :=
  if negb (ChainConfig.IsAntartical config number time) then (Some ErrProfileInactive, st)
  else if negb (relayTx config tx) then (Some ErrOracleEnvelope, st)
  else
    match oracleObservation config number st tx sender with
    | Err e => (Some e, st)
    | Ok o =>
        let n := Z.of_nat (length o.(oo_Value)) in
        if (n =? 0) || (MaxOracleValueBytes <? n) then (Some ErrOracleEnvelope, st)
        else if o.(oo_Round) <=? uint64FromHash (GetState st ShieldedPoolAddress (oracleRoundSlot o.(oo_FeedID))) then (Some ErrOracleReplay, st)
        else (None, recordObservation st o tx.(vt_ChainId))
    end.

(** The message of a cross-chain transaction. *)
Definition crossChainMessage (config : ChainConfig.ChainConfig) (number : Z) (st : S) (tx : vtx) (sender : address) : result relayError CrossChainMessage :=
  if HasCrossChainQuorumPrefix tx.(vt_Data) then
    e ← DecodeCrossChainQuorum tx.(vt_Data);
    match ActiveValidatorRecords st (u64 number) with
    | Err _ | Ok [] => Err ErrInvalidCrossChainQuorum
    | Ok active =>
        _ ← VerifyCrossChainQuorum e.(cq_Message) e.(cq_Attestations) (list_to_set (Address <$> active)) 2 3;
        Ok e.(cq_Message)
    end
  else
    m ← DecodeCrossChainMessage tx.(vt_Data);
    _ ← fail_if (negb (m.(sm_Signer) =? sender) || match SignedCrossChainMessage_Verify m with Ok _ => false | Err _ => true end) ErrCrossChainEnvelope;
    _ ← fail_if (committeeExists st number) ErrInvalidCrossChainQuorum;
    Ok m.(sm_Message).

Definition recordMessage (st : S) (key : hash) (payload : bytes) (txHash : hash) : S :=
  let st := SetState st ShieldedPoolAddress (crossChainReplaySlot key) txHash in
  writeBlob st (crossChainPayloadLengthSlot key) (crossChainPayloadChunkSlot key) payload.

Definition ProcessCrossChainTransaction (config : ChainConfig.ChainConfig) (number time : Z) (st : S) (tx : vtx) (sender : address)
    : option relayError * S :=
  if negb (ChainConfig.IsAntartical config number time) then (Some ErrProfileInactive, st)
  else if negb (relayTx config tx) then (Some ErrCrossChainEnvelope, st)
  else
    match crossChainMessage config number st tx sender with
    | Err e => (Some e, st)
    | Ok m =>
        let n := Z.of_nat (length m.(cm_Payload)) in
        if negb (m.(cm_DestinationChainID) =? tx.(vt_ChainId)) || (m.(cm_SourceChainID) =? tx.(vt_ChainId)) then (Some ErrCrossChainEnvelope, st)
        else if (n =? 0) || (MaxCrossChainPayload <? n) then (Some ErrCrossChainEnvelope, st)
        else
          match ReplayKey m with
          | Err e => (Some e, st)
          | Ok key =>
              if negb (GetState st ShieldedPoolAddress (crossChainReplaySlot key) =? zeroHash) then (Some ErrCrossChainReplay, st)
              else (None, recordMessage st key m.(cm_Payload) tx.(vt_Hash))
          end
    end.

End Relays.
End Oracle.
