(* ===== verification/OracleFeeds.v ===== *)
(** * Feeds and messages are recorded once

    The slots of [Oracle] hold a log of accepted reports, at most one for a feed and a
    round and with rising rounds, and the set of messages relayed so far; a value or
    payload cut into words is read back as it was reported. *)

From stdpp Require Import sorting.
From S2P Require Import Prelude Bytes RLP RLPStream RLPTypes RLPValues State ChainConfig ValidatorRegistry ValidatorStore ShieldedTree NoteTree ShieldedEnvelopes Oracle.
Import RLP RLPStream RLPTypes RLPValues ValidatorRegistry ValidatorStore ShieldedTree NoteTree ShieldedEnvelopes Oracle.

Module OracleFeeds.

Definition is_hash (h : hash) : Prop := 0 <= h < two256.

Lemma hash_bytes_inj h h' : is_hash h → is_hash h' → hash_bytes h = hash_bytes h' → h = h'.
Proof. intros H H' E. unfold hash_bytes in E. apply (f_equal be_value) in E. rewrite !be_value_bytes in E; [done|exact H'|exact H]. Qed.

Lemma be8_inj i j : is_u64 i → is_u64 j → be_bytes 8 i = be_bytes 8 j → i = j.
Proof. intros H H' E. apply (f_equal be_value) in E. rewrite !be_value_bytes in E; [done|exact H'|exact H]. Qed.

Lemma Forall_fresh {A} (f : A → address) a seen l : Forall (λ x, f x ∉ f a :: seen) l ↔ (f a ∉ f <$> l) ∧ Forall (λ x, f x ∉ seen) l.
Proof.
  induction l as [|x l IH]; cbn [fmap list_fmap]; [by split; [split; [apply not_elem_of_nil|]|]|].
  rewrite !Forall_cons, IH, !not_elem_of_cons. clear IH. split; intros; destruct_and!; split_and!; try done; congruence.
Qed.

(** ** Decoded envelopes *)

Definition observation_ok (o : OracleObservation) : Prop := is_hash o.(oo_FeedID) ∧ is_u64 o.(oo_Round) ∧ bytes_ok o.(oo_Value).

Lemma observation_typed v o : hasType observationType v → observationOf v = Some o → observation_ok o.
Proof.
  intros (vs & -> & H) E. cbn [hasFields] in H. destruct vs as [|v1 [|v2 [|v3 [|v4 [|v5 [|v6 []]]]]]]; try (exfalso; tauto).
  destruct H as ([H1|[? _]] & [H2|[? _]] & [H3|[? _]] & [H4|[? _]] & [H5|[? _]] & [H6|[? _]] & _); try done.
  destruct H1 as (b1 & -> & Hb1 & Hl1), H2 as (n2 & -> & Hn2), H3 as (b3 & -> & Hb3), H4 as (n4 & -> & _), H5 as (b5 & -> & _), H6 as (b6 & -> & _).
  injection E as <-. split_and!; [exact (be_value_sized _ 32 Hb1 Hl1)|done|done].
Qed.

Lemma listOf_typed {A} t (of_ : rval → option A) (Pr : A → Prop) v l : (∀ v a, hasType t v → of_ v = Some a → Pr a) →
  hasType (RSlice t) v → listOf of_ v = Some l → Forall Pr l.
Proof.
  intros H (vs & -> & Hvs) E. cbn [listOf] in E. apply mapM_Some in E. revert Hvs. induction E as [|v a vs l Ev _ IH]; intros Hvs; [constructor|].
  apply Forall_cons in Hvs as [Hv Hvs]. constructor; eauto.
Qed.

Lemma as_ok {A} e (r : result vError A) a : as_ e r = Ok a → r = Ok a.
Proof. by destruct r; intros [= ->]. Qed.

Section Feeds.
Context {X : Externals} {Sg : Secp256k1} {U : Uint256} {S : Type} {W : WorldState S}.

Lemma decode_observation data o : bytes_ok data → DecodeOracleObservation data = Ok o → observation_ok o.
Proof.
  intros Hb E. apply as_ok in E. apply envelope_typed in E as (v & Hv & Ev); [|by vm_compute|done]. by eapply observation_typed.
Qed.

Lemma decode_quorum data os : bytes_ok data → DecodeOracleQuorum data = Ok os → Forall observation_ok os.
Proof.
  intros Hb E. unfold DecodeOracleQuorum in E. apply bind_ok in E as ([version l] & E & Hq). apply as_ok in E.
  apply bind_ok in Hq as ([] & _ & [= <-]). cbn [snd].
  apply envelope_typed in E as (v & (vs & -> & Hv) & Ev); [|by vm_compute|done]. cbn [hasFields] in Hv.
  destruct vs as [|v1 [|v2 []]]; try (exfalso; tauto). destruct Hv as ([(n & -> & _)|[? _]] & [H2|[? _]] & _); try done.
  cbn [oracleQuorumOf] in Ev. destruct (listOf observationOf v2) as [l'|] eqn:El; [|done]. injection Ev as <- <-.
  eapply listOf_typed; [|done|done]. apply observation_typed.
Qed.

(** ** Blobs *)

Section Blobs.
Context (P : bytes → bytes → Prop) {HC : NoCollision P}.
Context (lr cr : bytes).

Abbreviation chunkData := (λ k i, k ++ be_bytes 8 i).
Definition blob (st : S) (max : Z) (k : bytes) : option bytes :=
  readBlob st (ShieldedV3StateSlot lr k) (λ i, ShieldedV3StateSlot cr (chunkData k i)) max.
Definition putBlob (st : S) (k raw : bytes) : S :=
  writeBlob st (ShieldedV3StateSlot lr k) (λ i, ShieldedV3StateSlot cr (chunkData k i)) raw.

(** The slots of a blob. *)
Definition ofBlob (k : bytes) (n : nat) (r d : bytes) : Prop := (r = lr ∧ d = k) ∨ (r = cr ∧ ∃ i, (i < n)%nat ∧ d = chunkData k (Z.of_nat i)).

(** [raw] is stored under [k]. *)
Definition storedBlob (st : S) (k raw : bytes) : Prop :=
  getSlot st lr k = Z.of_nat (length raw) ∧ ∀ i, (i < chunkCount raw)%nat → getSlot st cr (chunkData k (Z.of_nat i)) = chunkWord raw i.

Lemma readWords_spec st slot raw fuel n : bytes_ok raw → Z.of_nat (length raw) < two64 →
  (∀ i, (i < chunkCount raw)%nat → GetState st ShieldedPoolAddress (slot (Z.of_nat i)) = chunkWord raw i) →
  (n <= chunkCount raw)%nat → (length raw <= n * 32 + fuel)%nat →
  readWords fuel st slot (Z.of_nat n) (Z.of_nat (length raw)) (concat ((λ i, hash_bytes (chunkWord raw i)) <$> seq 0 n))
  = concat ((λ i, hash_bytes (chunkWord raw i)) <$> seq 0 (chunkCount raw)).
Proof.
  intros Hb Hlt Hs. pose proof (chunkCount_spec raw) as [Hc1 Hc2]. revert n. induction fuel as [|fuel IH]; intros n Hn Hf.
  { assert (n = chunkCount raw) as -> by lia. done. }
  assert (Hlen : ∀ n, length (concat ((λ i, hash_bytes (chunkWord raw i)) <$> seq 0 n)) = (n * 32)%nat).
  { intros m. induction m as [|m IHm]; [done|]. rewrite seq_S, fmap_app, concat_app, length_app, IHm. cbn [fmap list_fmap concat Nat.add].
    rewrite app_nil_r. unfold hash_bytes. rewrite length_be_bytes. lia. }
  cbn [readWords]. rewrite Hlen. destruct (Z.ltb_spec (Z.of_nat (n * 32)) (Z.of_nat (length raw))) as [Hlt'|Hge].
  - assert (Hnc : (n < chunkCount raw)%nat) by lia. rewrite (Hs n Hnc).
    rewrite u64_add_no_wrap by (unfold is_u64, two64 in *; lia). replace (Z.of_nat n + 1) with (Z.of_nat (Datatypes.S n)) by lia.
    rewrite <- (IH (Datatypes.S n)) by lia. f_equal. rewrite seq_S, fmap_app, concat_app. cbn [fmap list_fmap concat Nat.add]. by rewrite app_nil_r.
  - assert (n = chunkCount raw) as -> by lia. done.
Qed.

Lemma read_storedBlob st max k raw : bytes_ok raw → 0 < Z.of_nat (length raw) <= max → max < two64 → storedBlob st k raw → blob st max k = Some raw.
Proof using.
  intros Hb Hl Hm [Hlen Hch]. unfold blob, readBlob. unfold getSlot in Hlen. rewrite Hlen. unfold uint64FromHash.
  rewrite u64_small by (unfold is_u64; lia). rewrite (proj2 (Z.eqb_neq _ _)), (proj2 (Z.ltb_ge _ _)) by lia. cbn [orb].
  rewrite Nat2Z.id. change (@nil Z) with (concat ((λ i, hash_bytes (chunkWord raw i)) <$> seq 0 0)). change 0 with (Z.of_nat 0) at 1.
  rewrite readWords_spec by (done || lia). destruct (chunks_concat raw (chunkCount raw)) as (pad & -> & _); [done|apply chunkCount_spec|].
  f_equal. by rewrite take_app_length.
Qed.

Lemma putBlob_spec st k raw : Z.of_nat (length raw) < two64 → lr ≠ cr → used P lr k → (∀ i, (i < chunkCount raw)%nat → used P cr (chunkData k (Z.of_nat i))) →
  frame P (ofBlob k (chunkCount raw)) st (putBlob st k raw) ∧ storedBlob (putBlob st k raw) k raw.
Proof using HC.
  intros Hl Hne Hk Hc. unfold putBlob, writeBlob. fold (chunkCount raw). rewrite uint64Hash_id by (unfold is_u64; lia).
  change (SetState st ShieldedPoolAddress (ShieldedV3StateSlot lr k) (Z.of_nat (length raw))) with (setSlot st lr k (Z.of_nat (length raw))).
  set (st0 := setSlot st lr k _). assert (F0 : frame P (ofBlob k (chunkCount raw)) st st0) by (apply (frame_set P); [done|by left]).
  assert (E0 : getSlot st0 lr k = Z.of_nat (length raw)) by apply slot_set_eq.
  set (step := λ st i, SetState st ShieldedPoolAddress (ShieldedV3StateSlot cr (chunkData k (Z.of_nat i))) (chunkWord raw i)).
  assert (H : ∀ n, (n <= chunkCount raw)%nat → let st' := foldl step st0 (seq 0 n) in
    frame P (ofBlob k (chunkCount raw)) st st' ∧ getSlot st' lr k = Z.of_nat (length raw)
    ∧ ∀ i, (i < n)%nat → getSlot st' cr (chunkData k (Z.of_nat i)) = chunkWord raw i).
  { induction n as [|n IH]; intros Hn; [by split_and!; [..|lia]|]. destruct IH as (F & El & Ec); [lia|]. cbv zeta. rewrite seq_S, foldl_app. cbn [foldl Nat.add].
    set (st1 := foldl step st0 (seq 0 n)) in *. change (step st1 n) with (setSlot st1 cr (chunkData k (Z.of_nat n)) (chunkWord raw n)).
    assert (Hu : used P cr (chunkData k (Z.of_nat n))) by (apply Hc; lia). split_and!.
    - eapply frame_trans; [exact F|]. apply (frame_set P); [done|]. right. split; [done|]. exists n. split; [lia|done].
    - rewrite (slot_set_ne P); [done|done|done|intros [? _]; congruence].
    - intros i Hi. destruct (decide (i = n)) as [->|Hin]; [apply slot_set_eq|]. rewrite (slot_set_ne P); [apply Ec; lia|done|apply Hc; lia|].
      intros [_ E]. apply app_inv_head, be8_inj in E; [lia|..]; pose proof (chunkCount_spec raw); unfold is_u64, two64 in *; lia. }
  destruct (H (chunkCount raw)) as (F & El & Ec); [done|]. by split.
Qed.

Lemma read_noBlob st max k : getSlot st lr k = 0 → blob st max k = None.
Proof. intros E. unfold blob, readBlob. unfold getSlot in E. by rewrite E. Qed.

(** Writes elsewhere keep a blob. *)
Lemma storedBlob_frame (Wr : bytes → bytes → Prop) st st' k raw : frame P Wr st st' → used P lr k → (∀ i, (i < chunkCount raw)%nat → used P cr (chunkData k (Z.of_nat i))) →
  ¬ Wr lr k → (∀ i, (i < chunkCount raw)%nat → ¬ Wr cr (chunkData k (Z.of_nat i))) → storedBlob st k raw → storedBlob st' k raw.
Proof.
  intros F Hk Hc Nk Nc [El Ec]. split; [by rewrite (fr_slots _ _ _ _ F)|]. intros i Hi. rewrite (fr_slots _ _ _ _ F) by auto. by apply Ec.
Qed.

End Blobs.
(** ** Quorums *)

(** The signature of the observation recovers to its signer. *)
Definition signed (chainID : Z) (o : OracleObservation) : Prop := OracleObservation_Verify o chainID = Ok ().

(** Two observations of the same report. *)
Definition sameReport (o o' : OracleObservation) : Prop :=
  o.(oo_FeedID) = o'.(oo_FeedID) ∧ o.(oo_Round) = o'.(oo_Round) ∧ o.(oo_Timestamp) = o'.(oo_Timestamp) ∧ o.(oo_Value) = o'.(oo_Value).

Lemma observationLoop_spec chainID first prev seen os :
  observationLoop chainID first prev seen os = true ↔
    Forall (signed chainID) os ∧ NoDup (oo_Signer <$> os) ∧ Forall (λ o, o.(oo_Signer) ∉ seen) os
    ∧ (match prev with Some p => Sorted byHex (p :: os) | None => Sorted byHex os end)
    ∧ Forall (λ o, sameReport o first) (match prev with Some _ => os | None => tail os end).
Proof.
  revert prev seen. induction os as [|o os IH]; intros prev seen; cbn [observationLoop].
  { split; [intros _|done]. split_and!; try constructor; destruct prev; repeat constructor. }
  rewrite !andb_true_iff, IH, negb_true_iff, bool_decide_eq_false. unfold signed. cbn [fmap list_fmap tail].
  assert (Hv : match OracleObservation_Verify o chainID with Ok _ => true | Err _ => false end = true ↔ OracleObservation_Verify o chainID = Ok ())
    by (destruct (OracleObservation_Verify o chainID) as [[]|]; done). rewrite Hv. clear Hv.
  rewrite !Forall_cons, NoDup_cons. rewrite (Forall_fresh oo_Signer). destruct prev as [p|].
  - rewrite !andb_true_iff, negb_true_iff, !Z.eqb_eq, bool_decide_eq_true. rewrite Forall_cons. unfold sameReport at 2. 
    assert (Hs : Sorted byHex (p :: o :: os) ↔ Sorted byHex (o :: os) ∧ byHex p o).
    { split; [intros H; inversion H as [|? ? Hs Hh]; subst; inversion Hh; done|intros [H1 H2]; constructor; [done|by constructor]]. }
    rewrite Hs. unfold byHex at 3. tauto.
  - tauto.
Qed.

Definition byBytes (a a' : CrossChainAttestation) : Prop := bytes_compare (address_bytes a'.(ca_Signer)) (address_bytes a.(ca_Signer)) = Gt.

Lemma attestationLoop_spec m committee prev seen l :
  attestationLoop m committee prev seen l = true ↔
    Forall (λ a, CrossChainAttestation_Verify a m = Ok () ∧ a.(ca_Signer) ∈ committee) l ∧ NoDup (ca_Signer <$> l)
    ∧ Forall (λ a, a.(ca_Signer) ∉ seen) l
    ∧ Sorted byBytes l ∧ (match prev, l with Some p, a :: _ => bytes_compare (address_bytes a.(ca_Signer)) (address_bytes p) = Gt | _, _ => True end).
Proof.
  revert prev seen. induction l as [|a l IH]; intros prev seen; cbn [attestationLoop].
  { split; [intros _|done]. split_and!; try constructor; by destruct prev. }
  rewrite !andb_true_iff, IH, negb_true_iff, bool_decide_eq_false, bool_decide_eq_true. cbn [fmap list_fmap].
  assert (Hv : match CrossChainAttestation_Verify a m with Ok _ => true | Err _ => false end = true ↔ CrossChainAttestation_Verify a m = Ok ())
    by (destruct (CrossChainAttestation_Verify a m) as [[]|]; done). rewrite Hv. clear Hv.
  rewrite !Forall_cons, NoDup_cons. rewrite (Forall_fresh ca_Signer).
  assert (Hs : Sorted byBytes (a :: l) ↔ Sorted byBytes l ∧ match l with a' :: _ => bytes_compare (address_bytes (ca_Signer a')) (address_bytes (ca_Signer a)) = Gt | [] => True end).
  { split; [intros H; inversion H as [|? ? H1 Hh]; subst; destruct l; [done|]; by inversion Hh|]. intros [H1 H2]. constructor; [done|]. destruct l; by constructor. }
  rewrite Hs. destruct prev as [p|]; [|tauto]. destruct (bytes_compare (address_bytes (ca_Signer a)) (address_bytes p)); cbn [negb]; intuition done.
Qed.

(** ** The log of reports *)

Record report := { rp_feed : hash; rp_round : Z; rp_value : bytes }.
Definition reportOf (o : OracleObservation) : report := {| rp_feed := o.(oo_FeedID); rp_round := o.(oo_Round); rp_value := o.(oo_Value) |}.

(** Newest first: the last accepted round of a feed, and the value of a round. *)
Fixpoint latest (L : list report) (f : hash) : Z :=
  match L with [] => 0 | rp :: L => if decide (rp.(rp_feed) = f) then rp.(rp_round) else latest L f end.
Fixpoint valueAt (L : list report) (f : hash) (r : Z) : option bytes :=
  match L with [] => None | rp :: L => if decide (rp.(rp_feed) = f ∧ rp.(rp_round) = r) then Some rp.(rp_value) else valueAt L f r end.

Definition roundRole : bytes := str "oracle/round".
Definition observationRole : bytes := str "oracle/observation".
Definition lengthRole : bytes := str "oracle/value-length".
Definition valueRole : bytes := str "oracle/value".

Section Log.
Context (P : bytes → bytes → Prop) {HC : NoCollision P}.
Context (Fd : hash → Prop).

(** The slots of the feeds in use. *)
Class OracleUse := {
  ou_hash f : Fd f → is_hash f;
  ou_round f : Fd f → used P roundRole (hash_bytes f);
  ou_key role f r : role ∈ [observationRole; lengthRole] → Fd f → is_u64 r → used P role (roundKey f r);
  ou_chunk f r i : Fd f → is_u64 r → 0 <= i < 128 → used P valueRole (roundKey f r ++ be_bytes 8 i);
}.
Context {HU : OracleUse}.

Record report_ok (rp : report) : Prop := {
  ro_feed : Fd rp.(rp_feed);
  ro_round : is_u64 rp.(rp_round);
  ro_bytes : bytes_ok rp.(rp_value);
  ro_size : 0 < Z.of_nat (length rp.(rp_value)) <= MaxOracleValueBytes;
}.

Record feeds_hold (st : S) (L : list report) : Prop := {
  fh_round f : Fd f → getSlot st roundRole (hash_bytes f) = latest L f;
  fh_some rp : rp ∈ L → report_ok rp ∧ rp.(rp_round) <= latest L rp.(rp_feed)
                         ∧ storedBlob lengthRole valueRole st (roundKey rp.(rp_feed) rp.(rp_round)) rp.(rp_value);
  fh_none f r : Fd f → is_u64 r → valueAt L f r = None → getSlot st lengthRole (roundKey f r) = 0;
}.

Lemma valueAt_Some L f r v : valueAt L f r = Some v → ∃ rp, rp ∈ L ∧ rp.(rp_feed) = f ∧ rp.(rp_round) = r ∧ rp.(rp_value) = v.
Proof.
  induction L as [|rp L IH]; [done|]. cbn [valueAt]. case_decide as Hd.
  - intros [= <-]. exists rp. split; [by left|]. by destruct Hd.
  - intros H. destruct (IH H) as (rp' & Hin & ?). exists rp'. split; [by right|done].
Qed.

Lemma roundKey_inj f r f' r' : is_hash f → is_hash f' → is_u64 r → is_u64 r' → roundKey f r = roundKey f' r' → f = f' ∧ r = r'.
Proof.
  intros Hf Hf' Hr Hr' E. unfold roundKey in E. apply app_inj_1 in E as [E1 E2]; [|unfold hash_bytes; by rewrite !length_be_bytes].
  split; [by apply hash_bytes_inj|by apply be8_inj].
Qed.

(** What is stored is what is read. *)
Lemma feed_read st L f r : feeds_hold st L → Fd f → is_u64 r → OracleObservationValue st f r = valueAt L f r.
Proof.
  intros H Hf Hr. change (OracleObservationValue st f r) with (blob lengthRole valueRole st MaxOracleValueBytes (roundKey f r)).
  destruct (valueAt L f r) as [v|] eqn:E; [|by apply read_noBlob, (fh_none _ _ H)].
  apply valueAt_Some in E as (rp & Hin & <- & <- & <-). destruct (fh_some _ _ H rp Hin) as (Hok & _ & Hs).
  apply read_storedBlob; [apply Hok|apply Hok|done|done].
Qed.

(** The slots an accepted report writes. *)
Definition ofReport (f : hash) (r : Z) (role d : bytes) : Prop :=
  (role = roundRole ∧ d = hash_bytes f) ∨ (role ∈ [observationRole; lengthRole] ∧ d = roundKey f r)
  ∨ (role = valueRole ∧ ∃ i, 0 <= i < 128 ∧ d = roundKey f r ++ be_bytes 8 i).

Lemma roles_differ : NoDup [roundRole; observationRole; lengthRole; valueRole].
Proof. apply (bool_decide_unpack _). vm_compute. exact I. Qed.

Lemma chunks_128 raw : Z.of_nat (length raw) <= MaxOracleValueBytes → (chunkCount raw <= 128)%nat.
Proof. pose proof (chunkCount_spec raw). unfold MaxOracleValueBytes. lia. Qed.

Lemma record_spec st o chainID : report_ok (reportOf o) →
  let st' := recordObservation st o chainID in
  let k := roundKey o.(oo_FeedID) o.(oo_Round) in
  frame P (ofReport o.(oo_FeedID) o.(oo_Round)) st st' ∧ getSlot st' roundRole (hash_bytes o.(oo_FeedID)) = o.(oo_Round)
  ∧ storedBlob lengthRole valueRole st' k o.(oo_Value).
Proof using HC HU.
  intros [Hf Hr Hb Hs] st' k. cbn [rp_feed rp_round rp_value reportOf] in *. 
  pose proof roles_differ as Hd. rewrite !NoDup_cons, !not_elem_of_cons in Hd. destruct Hd as ((D1 & D2 & D3 & _) & (D4 & D5 & _) & (D6 & _) & _).
  set (h := match OracleObservation_Hash o chainID with Ok h => h | Err _ => zeroHash end).
  set (st1 := setSlot st roundRole (hash_bytes (oo_FeedID o)) (oo_Round o)). set (st2 := setSlot st1 observationRole k h).
  assert (Est : st' = putBlob lengthRole valueRole st2 k (oo_Value o)) by (unfold st', recordObservation; by rewrite uint64Hash_id by done). clearbody st'. subst st'.
  assert (Io : observationRole ∈ [observationRole; lengthRole]) by (by left). assert (Il : lengthRole ∈ [observationRole; lengthRole]) by (by right; left).
  assert (Ho : used P observationRole k) by (by apply ou_key). assert (Hk : used P lengthRole k) by (by apply ou_key).
  pose proof (ou_round _ Hf) as Hu. assert (Hch : ∀ i, (i < chunkCount (oo_Value o))%nat → used P valueRole (k ++ be_bytes 8 (Z.of_nat i))).
  { intros i Hi. apply ou_chunk; [done|done|]. pose proof (chunks_128 (oo_Value o)). lia. }
  destruct (putBlob_spec P lengthRole valueRole st2 k (oo_Value o)) as [F Hst]; [unfold MaxOracleValueBytes, two64 in *; lia|done..|].
  set (Wr := ofReport (oo_FeedID o) (oo_Round o)).
  assert (F1 : frame P Wr st st1) by (apply (frame_set P); [done|by left]).
  assert (F2 : frame P Wr st1 st2) by (apply (frame_set P); [done|right; left; done]).
  split_and!; [|..|done].
  - eapply frame_trans; [exact F1|]. eapply frame_trans; [exact F2|].
    eapply frame_weaken; [|exact F]. intros r d [[-> ->]|[-> (i & Hi & ->)]]; [right; left; done|]. right; right. split; [done|].
    exists (Z.of_nat i). split; [|done]. pose proof (chunks_128 (oo_Value o)). lia.
  - rewrite (fr_slots _ _ _ _ F); [|done|intros [[? _]|[? _]]; congruence]. unfold st2. rewrite (slot_set_ne P); [apply slot_set_eq|done|done|].
    intros [? _]. congruence.
Qed.

(** An accepted report touches no other round. *)
Lemma report_elsewhere f r f' r' : Fd f → Fd f' → is_u64 r → is_u64 r' → (f, r) ≠ (f', r') →
  ¬ ofReport f r lengthRole (roundKey f' r') ∧ ∀ i, ¬ ofReport f r valueRole (roundKey f' r' ++ be_bytes 8 i).
Proof using HU.
  intros Hf Hf' Hr Hr' Hne. assert (Hk : roundKey f r ≠ roundKey f' r').
  { intros E. apply Hne. apply roundKey_inj in E as [-> ->]; [done|by apply ou_hash..|done|done]. }
  pose proof roles_differ as Hd. rewrite !NoDup_cons, !not_elem_of_cons in Hd. destruct Hd as ((D1 & D2 & D3 & _) & (D4 & D5 & _) & (D6 & _) & _).
  split.
  - intros [[E _]|[[_ E]|[E _]]]; congruence.
  - intros i [[E _]|[[E _]|[_ (j & _ & E)]]]; [congruence| |].
    + apply elem_of_cons in E as [E|E%list_elem_of_singleton]; congruence.
    + apply app_inj_1 in E as [E _]; [congruence|]. unfold roundKey, hash_bytes. by rewrite !length_app, !length_be_bytes.
Qed.

Lemma round_elsewhere f r f' : Fd f → Fd f' → f ≠ f' → ¬ ofReport f r roundRole (hash_bytes f').
Proof using HU.
  intros Hf Hf' Hne. pose proof roles_differ as Hd. rewrite !NoDup_cons, !not_elem_of_cons in Hd. destruct Hd as ((D1 & D2 & D3 & _) & _).
  intros [[_ E]|[[E _]|[E _]]]; [|apply elem_of_cons in E as [E|E%list_elem_of_singleton]; congruence|congruence].
  apply Hne. symmetry. apply hash_bytes_inj; [by apply ou_hash..|done].
Qed.

Lemma record_holds st L o chainID : feeds_hold st L → report_ok (reportOf o) → latest L o.(oo_FeedID) < o.(oo_Round) →
  feeds_hold (recordObservation st o chainID) (reportOf o :: L).
Proof using HC HU.
  intros H Hok Hlt. destruct (record_spec st o chainID Hok) as (F & Er & Es). set (st' := recordObservation st o chainID) in *.
  destruct Hok as [Hf Hr Hb Hs] eqn:Eok. cbn [rp_feed rp_round rp_value reportOf] in *.
  assert (Hne : ∀ rp, rp ∈ L → (oo_FeedID o, oo_Round o) ≠ (rp_feed rp, rp_round rp)).
  { intros rp Hin [= E1 E2]. destruct (fh_some _ _ H rp Hin) as (_ & Hle & _). rewrite <- E1, <- E2 in Hle. lia. }
  assert (Hmono : ∀ f, latest L f <= latest (reportOf o :: L) f) by (intros f; cbn [latest rp_feed reportOf rp_round]; case_decide; subst; lia).
  split.
  - intros f Hf'. cbn [latest reportOf rp_feed rp_round]. case_decide as Hd; [by subst|].
    rewrite (fr_slots _ _ _ _ F); [by apply (fh_round _ _ H)|by apply ou_round|by apply round_elsewhere].
  - intros rp Hin. apply elem_of_cons in Hin as [->|Hin].
    + split; [exact Hok|]. cbn [latest reportOf rp_feed rp_round]. rewrite decide_True by done. split; [lia|done].
    + destruct (fh_some _ _ H rp Hin) as (Hrp & Hle & Hst). split; [done|]. split; [specialize (Hmono (rp_feed rp)); lia|].
      destruct (report_elsewhere (oo_FeedID o) (oo_Round o) (rp_feed rp) (rp_round rp)) as [N1 N2]; [done|apply Hrp|done|apply Hrp|by apply Hne|].
      eapply (storedBlob_frame P); [exact F|apply ou_key; [by right; left|apply Hrp..]| |exact N1|intros i _; apply N2|exact Hst].
      intros i Hi. apply ou_chunk; [apply Hrp..|]. pose proof (chunks_128 (rp_value rp) ltac:(apply Hrp)). lia.
  - intros f r Hf' Hr' Hn. cbn [valueAt reportOf rp_feed rp_round] in Hn. case_decide as Hd; [done|].
    destruct (report_elsewhere (oo_FeedID o) (oo_Round o) f r) as [N1 _]; [done..|intros [= E1 E2]; by apply Hd|].
    rewrite (fr_slots _ _ _ _ F); [by apply (fh_none _ _ H)|apply ou_key; [by right; left|done..]|exact N1].
Qed.

(** ** Who may report *)

(** Two thirds of the active validators signed the report, or, as long as there are
    none, the sender did. *)
Definition reported (number : Z) (st : S) (tx : vtx) (sender : address) (o : OracleObservation) : Prop :=
  if HasOracleQuorumPrefix tx.(vt_Data) then
    ∃ os active, DecodeOracleQuorum tx.(vt_Data) = Ok (o :: os) ∧ ActiveValidatorRecords st (u64 number) = Ok active
      ∧ Forall (λ o', signed tx.(vt_ChainId) o' ∧ o'.(oo_Signer) ∈ Address <$> active) (o :: os) ∧ Forall (λ o', sameReport o' o) os
      ∧ NoDup (oo_Signer <$> o :: os) ∧ Sorted byHex (o :: os)
      ∧ 2 * Z.of_nat (length active) <= 3 * Z.of_nat (length (o :: os)) ∧ (length (o :: os) <= length active)%nat
  else
    DecodeOracleObservation tx.(vt_Data) = Ok o ∧ o.(oo_Signer) = sender ∧ signed tx.(vt_ChainId) o ∧ committeeExists st number = false.

Lemma verify_quorum chainID o os n : VerifyOracleQuorum chainID (o :: os) n 2 3 = Ok () ↔
  Forall (signed chainID) (o :: os) ∧ Forall (λ o', sameReport o' o) os ∧ NoDup (oo_Signer <$> o :: os) ∧ Sorted byHex (o :: os)
  ∧ 2 * n <= 3 * Z.of_nat (length (o :: os)) <= 3 * n.
Proof.
  unfold VerifyOracleQuorum. set (k := Z.of_nat (length (o :: os))). assert (Hk : 0 < k) by (unfold k; cbn [length]; lia). split.
  - intros ([] & H1%fail_if_ok & H)%bind_ok. apply bind_ok in H as ([] & H2%fail_if_ok & H%fail_if_ok). rewrite !orb_false_iff in H1.
    apply negb_false_iff, observationLoop_spec in H as (A & B & _ & C & D). split_and!; [done..|lia|lia].
  - intros (A & B & C & D & E). assert (Hb : (k =? 0) || (n =? 0) || (3 =? 0) || (3 <? 2) || (n <? k) = false) by lia. rewrite Hb. cbn [fail_if mbind result_bind].
    rewrite (proj2 (Z.ltb_ge _ _)) by lia. cbn [fail_if mbind result_bind].
    rewrite (proj2 (observationLoop_spec chainID o None [] (o :: os))); [done|]. split_and!; [done|done| |done|done].
    apply Forall_forall. intros x _. apply not_elem_of_nil.
Qed.

Lemma reported_iff config number st tx sender o : oracleObservation config number st tx sender = Ok o ↔ reported number st tx sender o.
Proof.
  unfold oracleObservation, reported. destruct (HasOracleQuorumPrefix tx.(vt_Data)).
  - split.
    + intros (os & Hd & H)%bind_ok. destruct (ActiveValidatorRecords st (u64 number)) as [[|r active]|] eqn:Ea; [done| |done].
      apply bind_ok in H as ([] & Hc%fail_if_ok & H). apply bind_ok in H as ([] & Hq & H). destruct os as [|o0 os]; [done|]. apply Ok_inj in H as ->.
      apply negb_false_iff, Is_true_true in Hc. rewrite forallb_True, Forall_forall in Hc. apply verify_quorum in Hq as (A & B & C & D & E).
      exists os, (r :: active). split_and!; try done; [|cbn [length] in *; lia..]. rewrite Forall_forall in A |- *. intros x Hx. split; [by apply A|].
      specialize (Hc x Hx). apply bool_decide_unpack in Hc. by apply elem_of_list_to_set in Hc.
    + intros (os & active & -> & Ha & A & B & C & D & E1 & E2). cbn [mbind result_bind]. rewrite Ha.
      destruct active as [|r active]; [cbn [length] in E2; lia|].
      assert (Hc : forallb (λ o', bool_decide (oo_Signer o' ∈ (list_to_set (Address <$> r :: active) : gset address))) (o :: os) = true).
      { apply Is_true_true. rewrite forallb_True. eapply Forall_impl; [exact A|]. intros x [_ Hx]. cbv beta. apply bool_decide_pack. rewrite elem_of_list_to_set. exact Hx. }
      rewrite Hc. cbn [negb fail_if mbind result_bind]. rewrite (proj2 (verify_quorum _ _ _ _)); [done|]. split_and!; try done; [|lia..].
      eapply Forall_impl; [exact A|]. by intros x [? _].
  - unfold signed. split.
    + intros (o' & -> & H)%bind_ok. apply bind_ok in H as ([] & H1%fail_if_ok & H). apply bind_ok in H as ([] & H2%fail_if_ok & [= ->]).
      apply orb_false_iff in H1 as [H0 H1]. destruct (OracleObservation_Verify o _) as [[]|]; [|done]. split_and!; try done. lia.
    + intros (H1 & <- & H3 & H4). rewrite H1. cbn [mbind result_bind]. by rewrite H3, H4, Z.eqb_refl.
Qed.

Lemma reported_ok number st tx sender o : bytes_ok tx.(vt_Data) → reported number st tx sender o → observation_ok o.
Proof.
  intros Hb. unfold reported. destruct (HasOracleQuorumPrefix _).
  - intros (os & _ & Hd & _). apply decode_quorum in Hd; [|done]. by apply Forall_cons in Hd as [? _].
  - intros (Hd & _). by eapply decode_observation.
Qed.

Lemma latest_u64 st L f : feeds_hold st L → is_u64 (latest L f).
Proof.
  intros H. assert (Ha : Forall (λ rp, is_u64 rp.(rp_round)) L) by (apply Forall_forall; intros rp Hin; apply (fh_some _ _ H rp Hin)). clear H.
  induction Ha as [|rp L Hr _ IH]; [done|]. cbn [latest]. by case_decide.
Qed.

(** When an oracle transaction is accepted. *)
Definition reportable (config : ChainConfig.ChainConfig) (number time : Z) (st : S) (L : list report) (tx : vtx) (sender : address)
    (o : OracleObservation) : Prop :=
  ChainConfig.IsAntartical config number time = true ∧ relayTx config tx = true ∧ reported number st tx sender o
  ∧ 0 < Z.of_nat (length o.(oo_Value)) <= MaxOracleValueBytes ∧ latest L o.(oo_FeedID) < o.(oo_Round).

(** C18: Oracle feeds.  A transaction is accepted exactly when its report is signed by two
    thirds of the active validators, each once and all of the same feed, round, time and
    value (or by its sender while there is no committee), is of admissible size and newer
    than the last round of its feed.  It then adds the report to the log and writes only
    the slots of that feed and round; a refused one changes nothing.  What
    [OracleObservationValue] returns is at every time the value logged for the feed and
    round, or nothing. *)
Theorem oracle_feed_log config number time st L tx sender : feeds_hold st L → bytes_ok tx.(vt_Data) →
  (∀ o, reported number st tx sender o → Fd o.(oo_FeedID)) →
  match ProcessOracleTransaction config number time st tx sender with
  | (None, st') => ∃ o, reportable config number time st L tx sender o ∧ feeds_hold st' (reportOf o :: L)
      ∧ frame P (ofReport o.(oo_FeedID) o.(oo_Round)) st st'
  | (Some _, st') => st' = st ∧ ¬ ∃ o, reportable config number time st L tx sender o
  end
  ∧ ∀ f r, Fd f → is_u64 r → OracleObservationValue st f r = valueAt L f r.
Proof using HC HU.
  intros H Hb HF. split; [|intros; by apply feed_read]. unfold ProcessOracleTransaction, reportable.
  destruct (ChainConfig.IsAntartical config number time); cbn [negb]; [|split; [done|by intros (? & [=] & _)]].
  destruct (relayTx config tx); cbn [negb]; [|split; [done|by intros (? & _ & [=] & _)]].
  destruct (oracleObservation config number st tx sender) as [o|e] eqn:Eo.
  2: { split; [done|]. intros (o & _ & _ & Hr & _). apply (reported_iff config) in Hr. congruence. }
  apply reported_iff in Eo as Hr. assert (Huniq : ∀ o', reported number st tx sender o' → o' = o).
  { intros o' Ho'. apply (reported_iff config) in Ho'. congruence. }
  pose proof (HF o Hr) as Hf. pose proof (reported_ok _ _ _ _ _ Hb Hr) as (_ & Hu & Hv).
  destruct (_ || _) eqn:Hlen.
  { split; [done|]. intros (o' & _ & _ & Hr' & Hl & _). apply Huniq in Hr' as ->. lia. }
  assert (Er : uint64FromHash (GetState st ShieldedPoolAddress (oracleRoundSlot (oo_FeedID o))) = latest L (oo_FeedID o)).
  { change (oracleRoundSlot (oo_FeedID o)) with (ShieldedV3StateSlot roundRole (hash_bytes (oo_FeedID o))).
    change (GetState st ShieldedPoolAddress _) with (getSlot st roundRole (hash_bytes (oo_FeedID o))). rewrite (fh_round _ _ H) by done.
    apply u64_small. by eapply latest_u64. }
  rewrite Er. destruct (Z.leb_spec (oo_Round o) (latest L (oo_FeedID o))) as [Hle|Hlt].
  { split; [done|]. intros (o' & _ & _ & Hr' & _ & Hl). apply Huniq in Hr' as ->. lia. }
  assert (Hok : report_ok (reportOf o)) by (split; cbn; [done|done|done|lia]).
  exists o. split_and!; try done; [lia|lia|by apply record_holds|by apply record_spec].
Qed.

End Log.

(** ** Messages *)

Definition replayRole : bytes := str "cross-chain/replay".
Definition payloadLengthRole : bytes := str "cross-chain/payload-length".
Definition payloadRole : bytes := str "cross-chain/payload".

Section Messages.
Context (P : bytes → bytes → Prop) {HC : NoCollision P}.
Context (Ky : hash → Prop).

Class MessageUse := {
  mu_hash k : Ky k → is_hash k;
  mu_key role k : role ∈ [replayRole; payloadLengthRole] → Ky k → used P role (hash_bytes k);
  mu_chunk k i : Ky k → 0 <= i < 2048 → used P payloadRole (hash_bytes k ++ be_bytes 8 i);
}.
Context {HU : MessageUse}.

Definition payload_ok (raw : bytes) : Prop := bytes_ok raw ∧ 0 < Z.of_nat (length raw) <= MaxCrossChainPayload.

(** The payloads relayed so far, by replay key. *)
Record messages_hold (st : S) (M : gmap hash bytes) : Prop := {
  mh_replay k : Ky k → getSlot st replayRole (hash_bytes k) ≠ 0 ↔ is_Some (M !! k);
  mh_some k raw : M !! k = Some raw → Ky k ∧ payload_ok raw ∧ storedBlob payloadLengthRole payloadRole st (hash_bytes k) raw;
  mh_none k : Ky k → M !! k = None → getSlot st payloadLengthRole (hash_bytes k) = 0;
}.

Lemma message_read st M k : messages_hold st M → Ky k → CrossChainPayload st k = M !! k.
Proof.
  intros H Hk. change (CrossChainPayload st k) with (blob payloadLengthRole payloadRole st MaxCrossChainPayload (hash_bytes k)).
  destruct (M !! k) as [raw|] eqn:E; [|by apply read_noBlob, (mh_none _ _ H)]. destruct (mh_some _ _ H k raw E) as (_ & [Hb Hl] & Hs).
  by apply read_storedBlob.
Qed.

Definition ofMessage (k : hash) (role d : bytes) : Prop :=
  (role ∈ [replayRole; payloadLengthRole] ∧ d = hash_bytes k) ∨ (role = payloadRole ∧ ∃ i, 0 <= i < 2048 ∧ d = hash_bytes k ++ be_bytes 8 i).

Lemma message_roles_differ : NoDup [replayRole; payloadLengthRole; payloadRole].
Proof. apply (bool_decide_unpack _). vm_compute. exact I. Qed.

Lemma chunks_2048 raw : Z.of_nat (length raw) <= MaxCrossChainPayload → (chunkCount raw <= 2048)%nat.
Proof. pose proof (chunkCount_spec raw). unfold MaxCrossChainPayload. lia. Qed.

Lemma message_elsewhere k k' : Ky k → Ky k' → k ≠ k' →
  (∀ role, role ∈ [replayRole; payloadLengthRole] → ¬ ofMessage k role (hash_bytes k')) ∧ ∀ i, ¬ ofMessage k payloadRole (hash_bytes k' ++ be_bytes 8 i).
Proof using HU.
  intros Hk Hk' Hne. assert (Hb : hash_bytes k ≠ hash_bytes k') by (intros E; apply Hne; apply hash_bytes_inj; [by apply mu_hash..|done]).
  pose proof message_roles_differ as Hd. rewrite !NoDup_cons, !not_elem_of_cons in Hd. destruct Hd as ((D1 & D2 & _) & (D3 & _) & _). split.
  - intros role Hr [[_ E]|[-> _]]; [congruence|]. apply elem_of_cons in Hr as [E|E%list_elem_of_singleton]; congruence.
  - intros i [[E _]|[_ (j & _ & E)]]; [apply elem_of_cons in E as [E|E%list_elem_of_singleton]; congruence|].
    apply app_inj_1 in E as [E _]; [congruence|]. unfold hash_bytes. by rewrite !length_be_bytes.
Qed.

Lemma message_spec st k raw h : Ky k → payload_ok raw →
  let st' := recordMessage st k raw h in
  frame P (ofMessage k) st st' ∧ getSlot st' replayRole (hash_bytes k) = h ∧ storedBlob payloadLengthRole payloadRole st' (hash_bytes k) raw.
Proof using HC HU.
  intros Hk [Hb Hl] st'. set (st1 := setSlot st replayRole (hash_bytes k) h).
  assert (Est : st' = putBlob payloadLengthRole payloadRole st1 (hash_bytes k) raw) by done. clearbody st'. subst st'.
  pose proof message_roles_differ as Hd. rewrite !NoDup_cons, !not_elem_of_cons in Hd. destruct Hd as ((D1 & D2 & _) & (D3 & _) & _).
  assert (Ir : replayRole ∈ [replayRole; payloadLengthRole]) by (by left). assert (Il : payloadLengthRole ∈ [replayRole; payloadLengthRole]) by (by right; left).
  assert (U1 : used P replayRole (hash_bytes k)) by (by apply mu_key). assert (U2 : used P payloadLengthRole (hash_bytes k)) by (by apply mu_key).
  pose proof (chunks_2048 raw) as Hc.
  destruct (putBlob_spec P payloadLengthRole payloadRole st1 (hash_bytes k) raw) as [F Hst];
    [unfold MaxCrossChainPayload, two64 in *; lia|done|done|intros i Hi; apply mu_chunk; [done|lia]|].
  assert (F1 : frame P (ofMessage k) st st1) by (apply (frame_set P); [done|by left]).
  split_and!; [|..|done].
  - eapply frame_trans; [exact F1|]. eapply frame_weaken; [|exact F]. intros r d [[-> ->]|[-> (i & Hi & ->)]]; [by left|]. right. split; [done|].
    exists (Z.of_nat i). split; [lia|done].
  - rewrite (fr_slots _ _ _ _ F); [apply slot_set_eq|done|]. intros [[? _]|[? _]]; congruence.
Qed.

Lemma message_holds st M k raw h : messages_hold st M → Ky k → payload_ok raw → h ≠ 0 → M !! k = None →
  messages_hold (recordMessage st k raw h) (<[k := raw]> M).
Proof using HC HU.
  intros H Hk Hok Hh Hn. destruct (message_spec st k raw h Hk Hok) as (F & Er & Es). set (st' := recordMessage st k raw h) in *.
  assert (Ir : replayRole ∈ [replayRole; payloadLengthRole]) by (by left). assert (Il : payloadLengthRole ∈ [replayRole; payloadLengthRole]) by (by right; left).
  split.
  - intros k' Hk'. destruct (decide (k = k')) as [<-|Hne]; [rewrite lookup_insert_eq, Er; by split|]. rewrite lookup_insert_ne by done.
    rewrite (fr_slots _ _ _ _ F); [by apply (mh_replay _ _ H)|by apply mu_key|by apply message_elsewhere].
  - intros k' raw'. destruct (decide (k = k')) as [<-|Hne]; [rewrite lookup_insert_eq; by intros [= <-]|]. rewrite lookup_insert_ne by done. intros E.
    destruct (mh_some _ _ H k' raw' E) as (Hk' & Hok' & Hs). split; [done|]. split; [done|]. destruct (message_elsewhere k k' Hk Hk' Hne) as [N1 N2].
    eapply (storedBlob_frame P); [exact F|by apply mu_key| |by apply N1|intros i _; apply N2|exact Hs].
    intros i Hi. apply mu_chunk; [done|]. pose proof (chunks_2048 raw' ltac:(apply Hok')). lia.
  - intros k' Hk'. destruct (decide (k = k')) as [<-|Hne]; [by rewrite lookup_insert_eq|]. rewrite lookup_insert_ne by done. intros E.
    rewrite (fr_slots _ _ _ _ F); [by apply (mh_none _ _ H)|by apply mu_key|by apply message_elsewhere].
Qed.

(** *** Who may relay *)

Definition attested (number : Z) (st : S) (tx : vtx) (sender : address) (m : CrossChainMessage) : Prop :=
  if HasCrossChainQuorumPrefix tx.(vt_Data) then
    ∃ e active, DecodeCrossChainQuorum tx.(vt_Data) = Ok e ∧ e.(cq_Message) = m ∧ ActiveValidatorRecords st (u64 number) = Ok active
      ∧ active ≠ [] ∧ e.(cq_Attestations) ≠ []
      ∧ Forall (λ a, CrossChainAttestation_Verify a m = Ok () ∧ a.(ca_Signer) ∈ Address <$> active) e.(cq_Attestations)
      ∧ NoDup (ca_Signer <$> e.(cq_Attestations)) ∧ Sorted byBytes e.(cq_Attestations)
      ∧ 2 * Z.of_nat (size (list_to_set (Address <$> active) : gset address)) <= 3 * Z.of_nat (length e.(cq_Attestations))
  else
    ∃ s, DecodeCrossChainMessage tx.(vt_Data) = Ok s ∧ s.(sm_Message) = m ∧ s.(sm_Signer) = sender ∧ SignedCrossChainMessage_Verify s = Ok ()
      ∧ committeeExists st number = false.

Lemma verify_attestations m l (committee : gset address) : VerifyCrossChainQuorum m l committee 2 3 = Ok () ↔
  l ≠ [] ∧ committee ≠ ∅ ∧ Forall (λ a, CrossChainAttestation_Verify a m = Ok () ∧ a.(ca_Signer) ∈ committee) l
  ∧ NoDup (ca_Signer <$> l) ∧ Sorted byBytes l ∧ 2 * Z.of_nat (size committee) <= 3 * Z.of_nat (length l).
Proof.
  unfold VerifyCrossChainQuorum. assert (Hs : size committee = 0%nat ↔ committee = ∅) by (rewrite size_empty_iff; apply leibniz_equiv_iff).
  assert (Hl : length l = 0%nat ↔ l = []) by apply length_zero_iff_nil. split.
  - intros ([] & H1%fail_if_ok & H)%bind_ok. apply bind_ok in H as ([] & H2%fail_if_ok & H%fail_if_ok). rewrite !orb_false_iff in H1.
    apply negb_false_iff, attestationLoop_spec in H as (A & B & _ & C & _). split_and!; try done; [rewrite <- Hl; lia|rewrite <- Hs; lia|lia].
  - intros (A & B & C & D & E & F). rewrite <- Hl in A. rewrite <- Hs in B.
    assert (Hb : (Z.of_nat (length l) =? 0) || (Z.of_nat (size committee) =? 0) || (3 =? 0) || (3 <? 2) = false) by lia.
    rewrite Hb. cbn [fail_if mbind result_bind]. rewrite (proj2 (Z.ltb_ge _ _)) by lia. cbn [fail_if mbind result_bind].
    rewrite (proj2 (attestationLoop_spec m committee None [] l)); [done|]. split_and!; try done. apply Forall_forall. intros x _. apply not_elem_of_nil.
Qed.

Lemma attested_iff config number st tx sender m : crossChainMessage config number st tx sender = Ok m ↔ attested number st tx sender m.
Proof.
  unfold crossChainMessage, attested. destruct (HasCrossChainQuorumPrefix tx.(vt_Data)).
  - assert (Hset : ∀ (active : list ValidatorRecord) l, Forall (λ a, CrossChainAttestation_Verify a m = Ok () ∧ a.(ca_Signer) ∈ (list_to_set (Address <$> active) : gset address)) l
      ↔ Forall (λ a, CrossChainAttestation_Verify a m = Ok () ∧ a.(ca_Signer) ∈ Address <$> active) l)
      by (intros; rewrite !Forall_forall; by setoid_rewrite elem_of_list_to_set).
    split.
    + intros (e & Hd & H)%bind_ok. destruct (ActiveValidatorRecords st (u64 number)) as [[|r active]|] eqn:Ea; [done| |done].
      apply bind_ok in H as ([] & Hq & [= <-]). apply verify_attestations in Hq as (A & B & C & D & E & F). exists e, (r :: active).
      split_and!; try done. by apply Hset.
    + intros (e & active & Hd & <- & Ha & Hn & Hl & A & B & C & D). rewrite Hd. cbn [mbind result_bind]. rewrite Ha. destruct active as [|r active]; [done|].
      rewrite (proj2 (verify_attestations _ _ _)); [done|]. split_and!; try done; [|by apply Hset].
      intros E. assert (Hin : Address r ∈ (list_to_set (Address <$> r :: active) : gset address)) by (apply elem_of_list_to_set; by left). rewrite E in Hin. set_solver.
  - split.
    + intros (s & Hd & H)%bind_ok. apply bind_ok in H as ([] & H1%fail_if_ok & H). apply bind_ok in H as ([] & H2%fail_if_ok & [= <-]).
      apply orb_false_iff in H1 as [H0 H1]. destruct (SignedCrossChainMessage_Verify s) as [[]|] eqn:Ev; [|done]. exists s. split_and!; try done. lia.
    + intros (s & Hd & <- & <- & Hv & Hc). rewrite Hd. cbn [mbind result_bind]. by rewrite Hv, Hc, Z.eqb_refl.
Qed.

Lemma message_typed v m : hasType messageType v → messageOf v = Some m → bytes_ok m.(cm_Payload).
Proof.
  intros (vs & -> & H) E. cbn [hasFields] in H. destruct vs as [|v1 [|v2 [|v3 [|v4 [|v5 [|v6 []]]]]]]; try (exfalso; tauto).
  destruct H as ([H1|[? _]] & [H2|[? _]] & [H3|[? _]] & [H4|[? _]] & [H5|[? _]] & [H6|[? _]] & _); try done.
  destruct H1 as (b1 & -> & _), H2 as (n2 & -> & _), H3 as (b3 & -> & _), H4 as (n4 & -> & _), H5 as (b5 & -> & _), H6 as (b6 & -> & Hb6).
  by injection E as <-.
Qed.

Lemma attested_payload number st tx sender m : bytes_ok tx.(vt_Data) → attested number st tx sender m → bytes_ok m.(cm_Payload).
Proof.
  intros Hb. unfold attested. destruct (HasCrossChainQuorumPrefix _).
  - intros (e & _ & Hd & <- & _). unfold DecodeCrossChainQuorum in Hd. apply bind_ok in Hd as (e' & E & Hd). apply bind_ok in Hd as (_ & _ & [= <-]).
    apply as_ok, envelope_typed in E as (v & (vs & -> & Hv) & Ev); [|by vm_compute|done]. cbn [hasFields] in Hv.
    destruct vs as [|v1 [|v2 [|v3 []]]]; try (exfalso; tauto). destruct Hv as ([(n & -> & _)|[? _]] & [H2|[? _]] & _); try done.
    cbn [crossChainQuorumOf] in Ev. destruct (messageOf v2) as [m|] eqn:Em; [|done]. destruct (listOf _ v3); [|done]. injection Ev as <-.
    by eapply message_typed.
  - intros (s & Hd & <- & _). apply as_ok, envelope_typed in Hd as (v & (vs & -> & Hv) & Ev); [|by vm_compute|done]. cbn [hasFields] in Hv.
    destruct vs as [|v1 [|v2 [|v3 []]]]; try (exfalso; tauto). destruct Hv as ([H1|[? _]] & [(b2 & -> & _)|[? _]] & [(b3 & -> & _)|[? _]] & _); try done.
    cbn [signedMessageOf] in Ev. destruct (messageOf v1) as [m|] eqn:Em; [|done]. injection Ev as <-. by eapply message_typed.
Qed.

(** When a message is accepted, and its replay key. *)
Definition relayable (config : ChainConfig.ChainConfig) (number time : Z) (st : S) (M : gmap hash bytes) (tx : vtx) (sender : address)
    (m : CrossChainMessage) (k : hash) : Prop :=
  ChainConfig.IsAntartical config number time = true ∧ relayTx config tx = true ∧ attested number st tx sender m
  ∧ m.(cm_DestinationChainID) = tx.(vt_ChainId) ∧ m.(cm_SourceChainID) ≠ tx.(vt_ChainId)
  ∧ 0 < Z.of_nat (length m.(cm_Payload)) <= MaxCrossChainPayload ∧ ReplayKey m = Ok k ∧ M !! k = None.

(** C19: Cross-chain messages.  A message is accepted exactly when two thirds of the active
    validators attest it, each once (or its sender signed it while there is no
    committee), it is sent to this chain from another, its payload has an admissible size
    and its replay key was never relayed.  It is then recorded under that key with its
    payload, and only the slots of the key are written; a refused one changes nothing.
    [CrossChainPayload] returns the payload relayed under a key, or nothing. *)
Theorem cross_chain_relayed_once config number time st M tx sender : messages_hold st M → bytes_ok tx.(vt_Data) → tx.(vt_Hash) ≠ 0 →
  (∀ m k, attested number st tx sender m → ReplayKey m = Ok k → Ky k) →
  match ProcessCrossChainTransaction config number time st tx sender with
  | (None, st') => ∃ m k, relayable config number time st M tx sender m k ∧ messages_hold st' (<[k := m.(cm_Payload)]> M) ∧ frame P (ofMessage k) st st'
  | (Some _, st') => st' = st ∧ ¬ ∃ m k, relayable config number time st M tx sender m k
  end
  ∧ ∀ k, Ky k → CrossChainPayload st k = M !! k.
Proof using HC HU.
  intros H Hb Hh HK. split; [|intros; by apply message_read]. unfold ProcessCrossChainTransaction, relayable.
  destruct (ChainConfig.IsAntartical config number time); cbn [negb]; [|split; [done|by intros (? & ? & [=] & _)]].
  destruct (relayTx config tx); cbn [negb]; [|split; [done|by intros (? & ? & _ & [=] & _)]].
  destruct (crossChainMessage config number st tx sender) as [m|e] eqn:Em.
  2: { split; [done|]. intros (m & k & _ & _ & Ha & _). apply (attested_iff config) in Ha. congruence. }
  apply attested_iff in Em as Ha. assert (Huniq : ∀ m', attested number st tx sender m' → m' = m).
  { intros m' Hm'. apply (attested_iff config) in Hm'. congruence. }
  destruct (negb _ || _) eqn:Hchain.
  { split; [done|]. intros (m' & k & _ & _ & Ha' & H1 & H2 & _). apply Huniq in Ha' as ->. lia. }
  destruct ((Z.of_nat (length (cm_Payload m)) =? 0) || _) eqn:Hlen.
  { split; [done|]. intros (m' & k & _ & _ & Ha' & _ & _ & Hl & _). apply Huniq in Ha' as ->. lia. }
  destruct (ReplayKey m) as [k|e] eqn:Ek.
  2: { split; [done|]. intros (m' & k & _ & _ & Ha' & _ & _ & _ & Ek' & _). apply Huniq in Ha' as ->. congruence. }
  pose proof (HK m k Ha Ek) as Hk. pose proof (mh_replay _ _ H k Hk) as Hrep.
  change (GetState st ShieldedPoolAddress (crossChainReplaySlot k)) with (getSlot st replayRole (hash_bytes k)).
  destruct (Z.eqb_spec (getSlot st replayRole (hash_bytes k)) zeroHash) as [Ez|Ez]; cbn [negb].
  - assert (Hn : M !! k = None) by (apply eq_None_not_Some; rewrite <- Hrep; by intros ?). assert (Hok : payload_ok (cm_Payload m)).
    { split; [by eapply attested_payload|lia]. }
    exists m, k. split_and!; try done; try lia; [by apply message_holds|by apply message_spec].
  - split; [done|]. intros (m' & k' & _ & _ & Ha' & _ & _ & _ & Ek' & Hn). apply Huniq in Ha' as ->. assert (k' = k) as -> by congruence.
    apply Hrep in Ez as [? ?]. congruence.
Qed.

End Messages.
End Feeds.
End OracleFeeds.
