(* ===== verification/OracleDemo.v ===== *)
(** * A report and a message of a committee of one

    The theorems of [OracleFeeds] applied to a state with one active validator, which
    signs a report of a feed and a message from another chain. *)

From S2P Require Import Prelude Bytes RLP RLPStream RLPTypes State ChainConfig ValidatorRegistry ValidatorStore ShieldedTree NoteTree ShieldedDemo Oracle OracleFeeds.
Import RLP RLPStream RLPTypes ValidatorRegistry ValidatorStore ShieldedTree NoteTree Oracle OracleFeeds.

Module OracleDemo.

#[local] Existing Instance RefUint256.
#[local] Existing Instance FlatWorldState.

(** ** Hash functions without collisions among the slots in use *)

Fixpoint relaySlot (roles : list bytes) (tag : Z) (b : bytes) : Z :=
  match roles with
  | [] => 0
  | r :: roles => if has_prefix b (r ++ str "/") then tag * 2 ^ 240 + be_value (drop (length (r ++ str "/")) b) mod 2 ^ 240 else relaySlot roles (tag + 1) b
  end.

#[global] Instance RelayX : Externals := {
  Sender _ _ _ _ := Some 7;
  VerifyMLDSA87 _ _ _ := true;
  MLDSA87PublicKeySize := 1;
  keccak b := be_bytes 32 (ShieldedDemo.demoHash b);
  sha256 b := be_bytes 32 (ShieldedDemo.demoHash b);
  sha512 b := be_bytes 64 (relaySlot shieldedRoles 1 (drop 21 b));
  pooled := {| sr := []; remaining := 7; ssize := 0; kinderr := None; stack := [3]; skind := None; byteval := 0; limited := false |};
}.

(** A signature is the signer and 64 zeros. *)
#[global] Instance RelaySecp : Secp256k1 := λ _ signature, head signature.

Definition relayLengths : list (bytes * nat) :=
  [(roundRole, 32); (observationRole, 40); (lengthRole, 40); (valueRole, 48); (replayRole, 32); (payloadLengthRole, 32); (payloadRole, 40)]%nat.

Definition relayP (r d : bytes) : Prop := bytes_ok d ∧ (r, length d) ∈ relayLengths ∧ be_value d < 2 ^ 240.

Lemma relaySlot_role roles i r d tag : (∀ r, r ∈ roles → r ∈ shieldedRoles) → NoDup roles → roles !! i = Some r →
  relaySlot roles tag (r ++ str "/" ++ d) = (tag + Z.of_nat i) * 2 ^ 240 + be_value d mod 2 ^ 240.
Proof.
  revert i tag. induction roles as [|r0 roles IH]; intros i tag Hsub Hnd Hi; [done|]. apply NoDup_cons in Hnd as [Hni Hnd].
  cbn [relaySlot]. destruct i as [|i]; cbn in Hi.
  - injection Hi as ->. rewrite app_assoc, has_prefix_app, drop_app_length. by rewrite Z.add_0_r.
  - apply list_elem_of_lookup_2 in Hi as Hin. destruct (has_prefix (r ++ str "/" ++ d) (r0 ++ str "/")) eqn:Hp.
    + apply ShieldedDemo.prefix_role in Hp as ->; [done|apply Hsub; set_solver..].
    + rewrite (IH i) by (done || set_solver). f_equal. f_equal. lia.
Qed.

Lemma relay_slot i r d : shieldedRoles !! i = Some r → bytes_ok d → be_value d < 2 ^ 240 →
  ShieldedV3StateSlot r d = (1 + Z.of_nat i) * 2 ^ 240 + be_value d.
Proof.
  intros Hi Hb Hd. unfold ShieldedV3StateSlot. cbn [sha512 RelayX].
  change (drop 21 (str "TKM_SHIELD3_STATE_V1/" ++ r ++ str "/" ++ d)) with (r ++ str "/" ++ d).
  pose proof (be_value_bound d Hb) as [H0 _]. rewrite (relaySlot_role shieldedRoles i), Z.mod_small by (done || lia || apply ShieldedDemo.roles_nodup).
  apply lookup_lt_Some in Hi. change (length shieldedRoles) with 40%nat in Hi. apply ShieldedDemo.pool_demo_hash. change (2 ^ 256) with (65536 * 2 ^ 240). lia.
Qed.

(** The data under a role have one length. *)
Lemma relayLength_unique r n n' : (r, n) ∈ relayLengths → (r, n') ∈ relayLengths → n = n'.
Proof.
  intros H H'. assert (Hd : bool_decide (Forall (λ p, Forall (λ q, p.1 = q.1 → p.2 = q.2) relayLengths) relayLengths) = true) by (by vm_compute).
  apply bool_decide_eq_true in Hd. rewrite Forall_forall in Hd. specialize (Hd _ H). rewrite Forall_forall in Hd. by apply (Hd _ H').
Qed.

#[global] Instance relay_free : NoCollision relayP.
Proof.
  intros r d r' d' [Hr (Hb & Hl & Hd)] [Hr' (Hb' & Hl' & Hd')] E.
  apply list_elem_of_lookup in Hr as [i Hi]. apply list_elem_of_lookup in Hr' as [i' Hi'].
  rewrite (relay_slot i), (relay_slot i') in E by done. pose proof (be_value_bound d Hb). pose proof (be_value_bound d' Hb').
  assert (i = i' ∧ be_value d = be_value d') as [-> Hv] by lia. rewrite Hi in Hi'. injection Hi' as <-.
  do 3 f_equal. rewrite <- (be_bytes_value d Hb), <- (be_bytes_value d' Hb'), Hv. f_equal. by eapply relayLength_unique.
Qed.

(** ** Small identifiers *)

Definition small (x : hash) : Prop := 0 <= x < 2 ^ 112.

#[global] Instance small_dec x : Decision (small x).
Proof. unfold small. apply _. Defined.

Lemma small_hash x : small x → is_hash x.
Proof. unfold small, is_hash, two256. assert (2 ^ 112 < 2 ^ 256) by done. lia. Qed.

Lemma be_value_snoc n y b : 0 <= y < 256 ^ Z.of_nat n → be_value (b ++ be_bytes n y) = be_value b * 256 ^ Z.of_nat n + y.
Proof.
  intros Hy. unfold be_value at 1. rewrite digits_value_app by lia. rewrite length_be_bytes. fold (be_value b). fold (be_value (be_bytes n y)).
  by rewrite be_value_bytes.
Qed.

Lemma small_bytes x : small x → be_value (hash_bytes x) = x.
Proof. intros Hx. apply be_value_bytes. change (256 ^ Z.of_nat 32) with two256. by apply small_hash. Qed.

Lemma small_round x r : small x → is_u64 r → be_value (roundKey x r) = x * 2 ^ 64 + r.
Proof. intros Hx Hr. unfold roundKey. rewrite be_value_snoc, small_bytes by done. done. Qed.

Lemma used_relay r d n : (r, n) ∈ relayLengths → bytes_ok d → length d = n → be_value d < 2 ^ 240 → used relayP r d.
Proof.
  intros Hr Hb Hl Hd. split; [|split; [done|by rewrite Hl]].
  assert (Hs : bool_decide (Forall (λ p, p.1 ∈ shieldedRoles) relayLengths) = true) by (by vm_compute). apply bool_decide_eq_true in Hs.
  rewrite Forall_forall in Hs. by apply (Hs _ Hr).
Qed.

Ltac in_lengths := apply (bool_decide_unpack _); vm_compute; exact I.

Lemma bytes_ok_app (a b : bytes) : bytes_ok a → bytes_ok b → bytes_ok (a ++ b).
Proof. intros. by apply Forall_app. Qed.

#[global] Instance small_oracle : OracleUse relayP small.
Proof.
  assert (H1 : 2 ^ 112 * 2 ^ 64 < 2 ^ 240) by done. assert (H2 : 2 ^ 112 * 2 ^ 64 * 2 ^ 64 = 2 ^ 240) by done. split.
  - apply small_hash.
  - intros f Hf. eapply (used_relay _ _ 32); [in_lengths|apply be_bytes_ok|apply length_be_bytes|]. rewrite small_bytes by done. unfold small in Hf. lia.
  - intros role f r Hr Hf Hu. eapply (used_relay _ _ 40); [|apply bytes_ok_app; apply be_bytes_ok| |].
    + apply elem_of_cons in Hr as [->|Hr%list_elem_of_singleton]; [|rewrite Hr]; in_lengths.
    + unfold roundKey, hash_bytes. by rewrite length_app, !length_be_bytes.
    + rewrite small_round by done. unfold small in Hf. unfold is_u64, two64 in Hu. change 18446744073709551616 with (2 ^ 64) in Hu. nia.
  - intros f r i Hf Hu Hi. eapply (used_relay _ _ 48); [in_lengths|apply bytes_ok_app; [apply bytes_ok_app|]; apply be_bytes_ok| |].
    + unfold roundKey, hash_bytes. by rewrite !length_app, !length_be_bytes.
    + rewrite be_value_snoc by (cbn; lia). rewrite small_round by done. unfold small in Hf. unfold is_u64, two64 in Hu.
      change (256 ^ Z.of_nat 8) with (2 ^ 64). change 18446744073709551616 with (2 ^ 64) in Hu. assert (128 < 2 ^ 64) by done. nia.
Qed.

#[global] Instance small_message : MessageUse relayP small.
Proof.
  assert (H1 : 2 ^ 112 * 2 ^ 64 < 2 ^ 240) by done. split.
  - apply small_hash.
  - intros role k Hr Hk. eapply (used_relay _ _ 32); [|apply be_bytes_ok|apply length_be_bytes|].
    + apply elem_of_cons in Hr as [->|Hr%list_elem_of_singleton]; [|rewrite Hr]; in_lengths.
    + rewrite small_bytes by done. unfold small in Hk. assert (2 ^ 112 < 2 ^ 240) by done. lia.
  - intros k i Hk Hi. eapply (used_relay _ _ 40); [in_lengths|apply bytes_ok_app; apply be_bytes_ok| |].
    + unfold hash_bytes. by rewrite length_app, !length_be_bytes.
    + rewrite be_value_snoc by (cbn; lia). rewrite small_bytes by done. unfold small in Hk. change (256 ^ Z.of_nat 8) with (2 ^ 64).
      assert (2048 < 2 ^ 64) by done. nia.
Qed.

(** ** A committee of one *)

Definition relayConfig : ChainConfig.ChainConfig := ChainConfig.demoMainnet [3].
Definition relayTime : Z := 1790812800.

Definition relayValidator : ValidatorRecord := {| Version := 1; Address := 7; PublicKey := [5]; RewardAddress := 7; Stake := 1; ActivationHeight := 1;
  ExitHeight := 0; JailedUntil := 0; RegisteredAt := 0; SlashCount := 0 |}.
Definition relayState : flatState :=
  SetState (SetState (writeValidatorRecord emptyFlat relayValidator).2 ShieldedPoolAddress validatorCountSlot 1) ShieldedPoolAddress (validatorIndexSlot 0) 7.

Definition relayData (r : result relayError bytes) : bytes := match r with Ok b => b | Err _ => [] end.
Definition relayTxOf (data : bytes) : vtx := {| vt_Type := PQTkmTxType; vt_To := Some ShieldedPoolAddress; vt_Value := 0; vt_ChainId := 8979;
  vt_Data := data; vt_PQ := None; vt_Hash := 99 |}.
Definition signature7 : bytes := 7 :: replicate 64 0.

Definition relayReport : OracleObservation := {| oo_FeedID := 5; oo_Round := 3; oo_Value := str "forty-two, written on more than thirty-two bytes"; oo_Timestamp := 9;
  oo_Signer := 7; oo_Signature := signature7 |}.
Definition relayMessage : CrossChainMessage := {| cm_SourceChainID := 1; cm_DestinationChainID := 8979; cm_Nonce := 4; cm_Sender := 11; cm_Target := 12;
  cm_Payload := str "pay" |}.

Definition oracleTx : vtx := Eval vm_compute in relayTxOf (relayData (EncodeOracleQuorum [relayReport])).
Definition messageTx : vtx := Eval vm_compute in relayTxOf (relayData (EncodeCrossChainQuorum relayMessage [{| ca_Signer := 7; ca_Signature := signature7 |}])).

Example oracle_decoded : DecodeOracleQuorum oracleTx.(vt_Data) = Ok [relayReport].
Proof. vm_compute. reflexivity. Qed.
Example oracle_accepted : (ProcessOracleTransaction relayConfig 10 relayTime relayState oracleTx 1).1 = None.
Proof. vm_compute. reflexivity. Qed.
Definition relayAttestations : list CrossChainAttestation := [{| ca_Signer := 7; ca_Signature := signature7 |}].
Example message_decoded :
  DecodeCrossChainQuorum messageTx.(vt_Data) = Ok {| cq_Version := 1; cq_Message := relayMessage; cq_Attestations := relayAttestations |}.
Proof. vm_compute. reflexivity. Qed.
Example message_accepted : (ProcessCrossChainTransaction relayConfig 10 relayTime relayState messageTx 1).1 = None.
Proof. vm_compute. reflexivity. Qed.

(** The slots of the committee are not those of feeds and messages. *)
Lemma relay_untouched r d : used relayP r d → getSlot relayState r d = 0.
Proof.
  intros [Hr (Hb & Hl & Hd)]. unfold getSlot. cbn [GetState FlatWorldState].
  destruct (fs_storage relayState !! (ShieldedPoolAddress, ShieldedV3StateSlot r d)) as [v|] eqn:E; [exfalso|done].
  apply elem_of_map_to_list in E. apply list_elem_of_lookup in Hr as [i Hi]. rewrite (relay_slot i) in E by done.
  assert (Hc : bool_decide (Forall (λ p, Forall (λ q, shieldedRoles !! Z.to_nat (p.1.2 / 2 ^ 240 - 1) ≠ Some q.1) relayLengths)
    (map_to_list (fs_storage relayState))) = true) by (vm_compute; reflexivity).
  apply bool_decide_eq_true in Hc. rewrite Forall_forall in Hc. specialize (Hc _ E). rewrite Forall_forall in Hc.
  apply (Hc _ Hl). cbn [fst snd].
  rewrite Z.div_add_l, Z.div_small by (done || (pose proof (be_value_bound d Hb); lia)). by replace (Z.to_nat (1 + Z.of_nat i + 0 - 1)) with i by lia.
Qed.

Lemma relay_no_reports : feeds_hold small relayState [].
Proof.
  split.
  - intros f Hf. apply relay_untouched. by apply (ou_round relayP small).
  - intros rp Hin. by apply not_elem_of_nil in Hin.
  - intros f r Hf Hr _. apply relay_untouched. apply (ou_key relayP small); [by right; left|done..].
Qed.

Lemma relay_no_messages : messages_hold small relayState ∅.
Proof.
  split.
  - intros k Hk. rewrite relay_untouched by (apply (mu_key relayP small); [by left|done]). rewrite lookup_empty. split; [done|by intros [? ?]].
  - intros k raw E. by rewrite lookup_empty in E.
  - intros k Hk _. apply relay_untouched. apply (mu_key relayP small); [by right; left|done].
Qed.

Lemma reported_report o : reported 10 relayState oracleTx 1 o → o = relayReport.
Proof.
  unfold reported. replace (HasOracleQuorumPrefix (vt_Data oracleTx)) with true by (by vm_compute).
  intros (os & _ & E & _). rewrite oracle_decoded in E. apply Ok_inj in E. congruence.
Qed.

Lemma attested_message m : attested 10 relayState messageTx 1 m → m = relayMessage.
Proof.
  unfold attested. replace (HasCrossChainQuorumPrefix (vt_Data messageTx)) with true by (by vm_compute).
  intros (e & _ & E & <- & _). rewrite message_decoded in E. apply Ok_inj in E. by subst.
Qed.

(** The report is accepted, and its value is read back. *)
Lemma oracle_feed_log_witness :
  ∃ st', ProcessOracleTransaction relayConfig 10 relayTime relayState oracleTx 1 = (None, st') ∧ feeds_hold small st' [reportOf relayReport].
Proof.
  assert (Hb : bytes_ok oracleTx.(vt_Data)) by (apply (bool_decide_unpack _); vm_compute; exact I).
  assert (HF : ∀ o, reported 10 relayState oracleTx 1 o → small o.(oo_FeedID)) by (intros o ->%reported_report; by vm_compute).
  pose proof (oracle_feed_log relayP small relayConfig 10 relayTime relayState [] oracleTx 1 relay_no_reports Hb HF) as [H _].
  pose proof oracle_accepted as Ha. destruct (ProcessOracleTransaction _ _ _ _ _ _) as [[e|] st']; [done|].
  destruct H as (o & (_ & _ & Hr & _) & Hh & _). apply reported_report in Hr as ->. by exists st'.
Defined.

(** The message is accepted, and its payload is read back. *)
Lemma cross_chain_relayed_once_witness :
  ∃ st' k, ProcessCrossChainTransaction relayConfig 10 relayTime relayState messageTx 1 = (None, st') ∧ ReplayKey relayMessage = Ok k
    ∧ messages_hold small st' {[k := relayMessage.(cm_Payload)]}.
Proof.
  assert (Hb : bytes_ok messageTx.(vt_Data)) by (apply (bool_decide_unpack _); vm_compute; exact I).
  assert (HK : ∀ m k, attested 10 relayState messageTx 1 m → ReplayKey m = Ok k → small k).
  { intros m k ->%attested_message E. assert (Hx : match ReplayKey relayMessage with Ok k => bool_decide (small k) | Err _ => true end = true) by (by vm_compute).
    rewrite E in Hx. by apply bool_decide_eq_true in Hx. }
  pose proof (cross_chain_relayed_once relayP small relayConfig 10 relayTime relayState ∅ messageTx 1 relay_no_messages Hb ltac:(done) HK) as [H _].
  pose proof message_accepted as Ha. destruct (ProcessCrossChainTransaction _ _ _ _ _ _) as [[e|] st']; [done|].
  destruct H as (m & k & (_ & _ & Hm & _ & _ & _ & Ek & _) & Hh & _). apply attested_message in Hm as ->. exists st', k. split_and!; [done|done|exact Hh].
Defined.

End OracleDemo.
