(* ===== verification/Headers.v ===== *)
(** * Block headers and what their extra data carries

    [types.Header] with its hash, and the records that the Antartical fork puts into the
    extra data: the block hash anchor ([consensus/antartical/anchors.go]) with the check
    of the RandomX engine ([consensus/randomx/anchor_validation.go]), the metadata record
    ([metadata.go]), the finality certificate ([finality.go]), and the asset registry
    commitment ([profile.go]); the witnesses and light-client proofs of [witness.go]; the
    gas vectors of [gas.go] and [profile.go].  The block validator's checks on these
    records are in [BlockValidator].

    The hash, the recovery of keys and the verification of signatures are arguments.
    Pointers to headers are not nil. *)

From stdpp Require Import sorting.
From S2P Require Import Prelude Bytes RLP RLPStream RLPTypes State ChainConfig ValidatorRegistry ShieldedTree ShieldedCrypto ShieldedEnvelopes Oracle.
Import RLP RLPStream RLPTypes ValidatorRegistry ShieldedTree ShieldedCrypto ShieldedEnvelopes Oracle.

Module Headers.

Inductive headerError :=
| ErrInvalidBlockHashAnchor
| ErrMissingBlockHashAnchor
| ErrAnchorExtraOverflow
| ErrInvalidHeaderMetadata
| ErrInvalidFinalityCertificate
| ErrInvalidFinalityEnvelope
| ErrInvalidLightClientProof
| ErrInvalidAssetRegistry
| ErrInvalidTypedDomain
| ErrInvalidShieldedAssetBind
| ErrGasDimensionExceeded
| ErrInactive
| ErrUnknownAncestor
| ErrHeader (msg : string). (** [fmt.Errorf] *)

(** ** Headers *)

Record Header := {
  ParentHash : hash;
  UncleHash : hash;
  Coinbase : address;
  Root : hash;
  TxHash : hash;
  ReceiptHash : hash;
  Bloom : bytes;
  Difficulty : option Z;
  Number : option Z;
  GasLimit : Z;
  GasUsed : Z;
  Time : Z;
  Extra : bytes;
  MixDigest : hash;
  Nonce : bytes;
  BaseFee : option Z;
  WithdrawalsHash : option hash;
  BlobGasUsed : option Z;
  ExcessBlobGas : option Z;
  ParentBeaconRoot : option hash;
  RequestsHash : option hash;
  BlockAccessListHash : option hash;
  SlotNumber : option Z;
}.

Definition BloomByteLength : nat := 256.

Definition setExtra (h : Header) (extra : bytes) : Header :=
  {| ParentHash := h.(ParentHash); UncleHash := h.(UncleHash); Coinbase := h.(Coinbase); Root := h.(Root); TxHash := h.(TxHash);
     ReceiptHash := h.(ReceiptHash); Bloom := h.(Bloom); Difficulty := h.(Difficulty); Number := h.(Number); GasLimit := h.(GasLimit);
     GasUsed := h.(GasUsed); Time := h.(Time); Extra := extra; MixDigest := h.(MixDigest); Nonce := h.(Nonce); BaseFee := h.(BaseFee);
     WithdrawalsHash := h.(WithdrawalsHash); BlobGasUsed := h.(BlobGasUsed); ExcessBlobGas := h.(ExcessBlobGas);
     ParentBeaconRoot := h.(ParentBeaconRoot); RequestsHash := h.(RequestsHash); BlockAccessListHash := h.(BlockAccessListHash);
     SlotNumber := h.(SlotNumber) |}.

Definition headerType : rtype := RStruct (
  (pair false <$> [hashType; hashType; addressType; hashType; hashType; hashType; RByteArray BloomByteLength; RBigInt; RBigInt; RUint 64; RUint 64;
                   RUint 64; RByteSlice; hashType; RByteArray 8])
  ++ (pair true <$> [RBigInt; RPtr hashType; RPtr (RUint 64); RPtr (RUint 64); RPtr hashType; RPtr hashType; RPtr hashType; RPtr (RUint 64)])).

Definition optNum (o : option Z) : rval := match o with Some n => VNum n | None => VNil end.
Definition optHash (o : option hash) : rval := match o with Some h => hashVal h | None => VNil end.

Definition headerVal (h : Header) : rval := VList (
  [hashVal h.(ParentHash); hashVal h.(UncleHash); addressVal h.(Coinbase); hashVal h.(Root); hashVal h.(TxHash); hashVal h.(ReceiptHash);
   VBytes h.(Bloom); optNum h.(Difficulty); optNum h.(Number); VNum h.(GasLimit); VNum h.(GasUsed); VNum h.(Time); VBytes h.(Extra);
   hashVal h.(MixDigest); VBytes h.(Nonce)]
  ++ [optNum h.(BaseFee); optHash h.(WithdrawalsHash); optNum h.(BlobGasUsed); optNum h.(ExcessBlobGas); optHash h.(ParentBeaconRoot);
      optHash h.(RequestsHash); optHash h.(BlockAccessListHash); optNum h.(SlotNumber)]).

(** [crypto.UnmarshalPubkey] with [crypto.PubkeyToAddress], and [crypto.VerifySignature] *)
Class PublicKeys := {
  PubkeyAddress : bytes → option address;
  VerifySignature : bytes → bytes → bytes → bool;
}.

Section Records.
Context {X : Externals} {Sg : Secp256k1} {Pk : PublicKeys}.

(** [crypto.Keccak256Hash] of several slices *)
Definition Keccak256Hash (parts : list bytes) : hash := BytesToHash (keccak (concat parts)).

(** [rlpHash] writes nothing when the value cannot be encoded. *)
Definition Header_Hash (h : Header) : hash := Keccak256Hash [default [] (EncodeValue headerType (headerVal h))].

(** ** Block hash anchors *)

Definition blockHashAnchorMagic : bytes := str "TKM_BLOCK_HASH_ANCHOR_V1".
Definition BlockHashAnchorEncodedSize : nat := length blockHashAnchorMagic + 8 + 32 + 32.
Definition MaximumExtraDataSize : Z := 32.
Definition AntarticalMaximumExtraDataSize : Z := 128.

Record BlockHashAnchor := { an_Height : Z; an_Hash : hash; an_Rolling : hash }.

Definition BlockHashAnchorCommitment (previous : hash) (height : Z) (blockHash : hash) : hash :=
  Keccak256Hash [blockHashAnchorMagic; hash_bytes previous; be_bytes 8 height; hash_bytes blockHash].

Definition ValidateBlockHashAnchor (anchor : BlockHashAnchor) (blockNumber : Z) (parentHash previousRolling : hash) : result headerError unit :=
  _ ← fail_if ((blockNumber =? 0) || negb (anchor.(an_Height) =? blockNumber - 1) || negb (anchor.(an_Hash) =? parentHash)) ErrInvalidBlockHashAnchor;
  fail_if (negb (anchor.(an_Rolling) =? BlockHashAnchorCommitment previousRolling anchor.(an_Height) parentHash)) ErrInvalidBlockHashAnchor.

(** [extra[i:j]] *)
Definition slice (b : bytes) (i j : nat) : bytes := take (j - i) (drop i b).

(** The marker occurs after the one at [index]. *)
Definition markerAfter (extra marker : bytes) (index : nat) : bool :=
  match index_of (drop (index + length marker) extra) marker with Some _ => true | None => false end.

(** [None]: no anchor *)
Definition BlockHashAnchorFromHeaderExtra (extra : bytes) : result headerError (option BlockHashAnchor) :=
  match index_of extra blockHashAnchorMagic with
  | None => Ok None
  | Some index =>
      _ ← fail_if (markerAfter extra blockHashAnchorMagic index || negb (index + BlockHashAnchorEncodedSize =? length extra)%nat) ErrInvalidBlockHashAnchor;
      let start := (index + length blockHashAnchorMagic)%nat in
      Ok (Some {| an_Height := be_value (slice extra start (start + 8)); an_Hash := BytesToHash (slice extra (start + 8) (start + 8 + 32));
                  an_Rolling := BytesToHash (slice extra (start + 8 + 32) (start + 8 + 32 + 32)) |})
  end.

Definition encodeAnchor (anchor : BlockHashAnchor) : bytes :=
  blockHashAnchorMagic ++ be_bytes 8 anchor.(an_Height) ++ hash_bytes anchor.(an_Hash) ++ hash_bytes anchor.(an_Rolling).

Definition AttachBlockHashAnchor (extra : bytes) (anchor : BlockHashAnchor) : result headerError bytes :=
  base ← match index_of extra blockHashAnchorMagic with
         | None => Ok extra
         | Some index =>
             _ ← fail_if (markerAfter extra blockHashAnchorMagic index || negb (index + BlockHashAnchorEncodedSize =? length extra)%nat)
                   ErrInvalidBlockHashAnchor;
             Ok (take index extra)
         end;
  _ ← fail_if (AntarticalMaximumExtraDataSize <? Z.of_nat (length base) + Z.of_nat BlockHashAnchorEncodedSize) ErrAnchorExtraOverflow;
  Ok (base ++ encodeAnchor anchor).

(** *** The check of the engine *)

(** [parentCandidates] from its end; [GetHeader] is the chain. *)
Definition findParent (GetHeader : hash → Z → option Header) (header : Header) (number : Z) (parentCandidates : list Header) : option Header :=
  match List.find (λ c, (Header_Hash c =? header.(ParentHash)) && match c.(Number) with Some n => u64 n +₆₄ 1 =? u64 number | None => false end)
          (rev parentCandidates) with
  | Some c => Some c
  | None => GetHeader header.(ParentHash) (u64 (u64 number - 1))
  end.

(** A header without a number is not checked; the engine of the chain is RandomX. *)
Definition verifyBlockHashAnchor (config : ChainConfig.ChainConfig) (GetHeader : hash → Z → option Header) (header : Header)
    (parentCandidates : list Header) : result headerError unit :=
  match header.(Number) with
  | None => Ok ()
  | Some number =>
      found ← BlockHashAnchorFromHeaderExtra header.(Extra);
      if negb (ChainConfig.IsAntartical config number header.(Time)) then
        fail_if (bool_decide (found ≠ None) || (MaximumExtraDataSize <? Z.of_nat (length header.(Extra)))) (ErrHeader "pre-Antartical extra data")
      else
        match found with
        | None => Err ErrMissingBlockHashAnchor
        | Some anchor =>
            _ ← fail_if (AntarticalMaximumExtraDataSize <? Z.of_nat (length header.(Extra))) (ErrHeader "extra data exceeds");
            _ ← fail_if (number =? 0) ErrInvalidBlockHashAnchor;
            match findParent GetHeader header number parentCandidates with
            | None => Err ErrUnknownAncestor
            | Some parent =>
                parentAnchor ← BlockHashAnchorFromHeaderExtra parent.(Extra);
                let parentNumber := default 0 parent.(Number) in
                previousRolling ←
                  if ChainConfig.IsAntartical config parentNumber parent.(Time) then
                    match parentAnchor with
                    | None => if 0 <? parentNumber then Err ErrMissingBlockHashAnchor else Ok zeroHash
                    | Some a => Ok a.(an_Rolling)
                    end
                  else match parentAnchor with Some _ => Err (ErrHeader "pre-Antartical parent") | None => Ok zeroHash end;
                ValidateBlockHashAnchor anchor (u64 number) header.(ParentHash) previousRolling
            end
        end
  end.

(** ** Gas vectors *)

Definition maxUint64 : Z := two64 - 1.
Definition saturatingAdd (a b : Z) : Z := if maxUint64 - b <? a then maxUint64 else a + b.

Record GasVector := { gv_Execution : Z; gv_StateRead : Z; gv_StateWrite : Z; gv_Blob : Z }.

Definition GasVector_Add (g o : GasVector) : GasVector :=
  {| gv_Execution := saturatingAdd g.(gv_Execution) o.(gv_Execution); gv_StateRead := saturatingAdd g.(gv_StateRead) o.(gv_StateRead);
     gv_StateWrite := saturatingAdd g.(gv_StateWrite) o.(gv_StateWrite); gv_Blob := saturatingAdd g.(gv_Blob) o.(gv_Blob) |}.
Definition GasVector_Fits (g limit : GasVector) : bool :=
  (g.(gv_Execution) <=? limit.(gv_Execution)) && (g.(gv_StateRead) <=? limit.(gv_StateRead)) && (g.(gv_StateWrite) <=? limit.(gv_StateWrite))
  && (g.(gv_Blob) <=? limit.(gv_Blob)).
Definition GasVector_Charge (g : GasVector) (limit : option GasVector) (amount : GasVector) : result headerError unit :=
  match limit with
  | None => Err ErrGasDimensionExceeded
  | Some limit =>
      _ ← fail_if ((maxUint64 - amount.(gv_Execution) <? g.(gv_Execution)) || (maxUint64 - amount.(gv_StateRead) <? g.(gv_StateRead))
                   || (maxUint64 - amount.(gv_StateWrite) <? g.(gv_StateWrite)) || (maxUint64 - amount.(gv_Blob) <? g.(gv_Blob))) ErrGasDimensionExceeded;
      fail_if (negb (GasVector_Fits (GasVector_Add g amount) limit)) ErrGasDimensionExceeded
  end.

Record ProtocolGasVector := { pg_EVM : Z; pg_TVM : Z; pg_Proof : Z; pg_Blob : Z }.

Definition ProtocolGasVector_Add (g o : ProtocolGasVector) : ProtocolGasVector :=
  {| pg_EVM := saturatingAdd g.(pg_EVM) o.(pg_EVM); pg_TVM := saturatingAdd g.(pg_TVM) o.(pg_TVM); pg_Proof := saturatingAdd g.(pg_Proof) o.(pg_Proof);
     pg_Blob := saturatingAdd g.(pg_Blob) o.(pg_Blob) |}.
Definition ProtocolGasVector_Fits (g limit : ProtocolGasVector) : bool :=
  (g.(pg_EVM) <=? limit.(pg_EVM)) && (g.(pg_TVM) <=? limit.(pg_TVM)) && (g.(pg_Proof) <=? limit.(pg_Proof)) && (g.(pg_Blob) <=? limit.(pg_Blob)).
Definition ProtocolGasVector_Charge (g : ProtocolGasVector) (limit : option ProtocolGasVector) (amount : ProtocolGasVector) : result headerError unit :=
  match limit with
  | None => Err ErrGasDimensionExceeded
  | Some limit =>
      fail_if ((maxUint64 - amount.(pg_EVM) <? g.(pg_EVM)) || (maxUint64 - amount.(pg_TVM) <? g.(pg_TVM)) || (maxUint64 - amount.(pg_Proof) <? g.(pg_Proof))
               || (maxUint64 - amount.(pg_Blob) <? g.(pg_Blob)) || negb (ProtocolGasVector_Fits (ProtocolGasVector_Add g amount) limit))
        ErrGasDimensionExceeded
  end.

(** ** Header metadata *)

Definition headerMetadataMagic : bytes := str "TKM_ANTARTICAL_META_V1".
Definition AntarticalProfileVersion : Z := 1.
Definition VersionedMetadataActive (version : Z) : bool := AntarticalProfileVersion <=? version.

Record HeaderMetadata := {
  hm_Version : Z;
  hm_GasLimits : ProtocolGasVector;
  hm_StateWitness : hash;
  hm_AssetRegistry : hash;
  hm_ConflictTranscript : hash;
  hm_Randomness : hash;
  hm_Oracle : hash;
  hm_CrossChain : hash;
  hm_PrecompileRegistry : hash;
  hm_Finality : hash;
}.

Definition EmptyCommitment (domain : bytes) : hash := Keccak256Hash [str "TKM_ANTARTICAL_EMPTY_V1"; domain].

Definition NewHeaderMetadata (limits : ProtocolGasVector) : HeaderMetadata :=
  {| hm_Version := AntarticalProfileVersion; hm_GasLimits := limits; hm_StateWitness := EmptyCommitment (str "state-witness");
     hm_AssetRegistry := EmptyCommitment (str "asset-registry"); hm_ConflictTranscript := EmptyCommitment (str "conflict-transcript");
     hm_Randomness := EmptyCommitment (str "randomness"); hm_Oracle := EmptyCommitment (str "oracle");
     hm_CrossChain := EmptyCommitment (str "cross-chain"); hm_PrecompileRegistry := EmptyCommitment (str "precompile-registry");
     hm_Finality := EmptyCommitment (str "finality") |}.

(** [headerMetadataWire]: version, gas limits, commitments *)
Definition commitments (m : HeaderMetadata) : list hash :=
  [m.(hm_StateWitness); m.(hm_AssetRegistry); m.(hm_ConflictTranscript); m.(hm_Randomness); m.(hm_Oracle); m.(hm_CrossChain);
   m.(hm_PrecompileRegistry); m.(hm_Finality)].
Definition wireType : rtype := RStruct [(false, RUint 64); (false, RSlice (RUint 64)); (false, RSlice hashType)].
Definition wire (m : HeaderMetadata) : rval :=
  VList [VNum m.(hm_Version); VList (VNum <$> [m.(hm_GasLimits).(pg_EVM); m.(hm_GasLimits).(pg_TVM); m.(hm_GasLimits).(pg_Proof); m.(hm_GasLimits).(pg_Blob)]);
         VList (hashVal <$> commitments m)].
Definition wireOf (v : rval) : option (Z * list Z * list hash) :=
  match v with
  | VList [VNum version; limits; cs] =>
      match listOf (λ v, match v with VNum n => Some n | _ => None end) limits, listOf (λ v, Some (hashOf v)) cs with
      | Some limits, Some cs => Some (version, limits, cs)
      | _, _ => None
      end
  | _ => None
  end.

Definition HeaderMetadata_validate (m : HeaderMetadata) : result headerError unit :=
  _ ← fail_if (negb (m.(hm_Version) =? AntarticalProfileVersion)) ErrInvalidHeaderMetadata;
  fail_if (existsb (λ c, c =? zeroHash) (commitments m)) ErrInvalidHeaderMetadata.

Definition HeaderMetadata_Commitment (m : HeaderMetadata) : result headerError hash :=
  _ ← HeaderMetadata_validate m;
  match EncodeValue wireType (wire m) with
  | None => Err ErrInvalidHeaderMetadata
  | Some b => Ok (Keccak256Hash [str "TKM_ANTARTICAL_HEADER_META_V1"; b])
  end.

(** Magic, length in four bytes, payload. *)
Definition framed (magic payload : bytes) : bytes := magic ++ be_bytes 4 (Z.of_nat (length payload)) ++ payload.
Definition maxUint32 : Z := 2 ^ 32 - 1.

Definition HeaderMetadata_Encode (m : HeaderMetadata) : result headerError bytes :=
  _ ← HeaderMetadata_validate m;
  match EncodeValue wireType (wire m) with
  | None => Err ErrInvalidHeaderMetadata
  | Some b => if maxUint32 <? Z.of_nat (length b) then Err ErrInvalidHeaderMetadata else Ok (framed headerMetadataMagic b)
  end.

(** The length in the four bytes at [start]. *)
Definition sizeAt (b : bytes) (start : nat) : nat := Z.to_nat (be_value (slice b start (start + 4))).

(** The payload of a framed record that takes the whole slice. *)
Definition unframe (magic encoded : bytes) : option bytes :=
  let start := length magic in
  if (length encoded <? start + 4)%nat || negb (bool_decide (take start encoded = magic)) then None
  else
    let size := sizeAt encoded start in
    if (size =? 0)%nat || negb (start + 4 + size =? length encoded)%nat then None else Some (drop (start + 4) encoded).

Definition DecodeHeaderMetadata (encoded : bytes) : result headerError HeaderMetadata :=
  match unframe headerMetadataMagic encoded with
  | None => Err ErrInvalidHeaderMetadata
  | Some payload =>
      match decodeInto wireType wireOf payload with
      | Ok (version, [evm; tvm; proof; blob], [w; a; t; r; o; c; p; f]) =>
          let m := {| hm_Version := version; hm_GasLimits := {| pg_EVM := evm; pg_TVM := tvm; pg_Proof := proof; pg_Blob := blob |};
                      hm_StateWitness := w; hm_AssetRegistry := a; hm_ConflictTranscript := t; hm_Randomness := r; hm_Oracle := o;
                      hm_CrossChain := c; hm_PrecompileRegistry := p; hm_Finality := f |} in
          _ ← HeaderMetadata_validate m;
          Ok m
      | _ => Err ErrInvalidHeaderMetadata
      end
  end.

(** The place of the anchor, when it ends the extra data. *)
Definition anchorSuffix (extra : bytes) : option nat :=
  match index_of extra blockHashAnchorMagic with
  | Some i => if (i + BlockHashAnchorEncodedSize =? length extra)%nat then Some i else None
  | None => None
  end.

(** Everything before the last metadata record. *)
Definition beforeMetadata (extra : bytes) : bytes := match last_index_of extra headerMetadataMagic with Some i => take i extra | None => extra end.

Definition AttachHeaderMetadata (extra : bytes) (metadata : HeaderMetadata) : result headerError bytes :=
  encoded ← HeaderMetadata_Encode metadata;
  match anchorSuffix extra with
  | Some i => Ok (beforeMetadata (take i extra) ++ encoded ++ drop i extra)
  | None => Ok (beforeMetadata extra ++ encoded)
  end.

(** The end of the framed record that starts at [i]. *)
Definition recordEnd (extra marker : bytes) (i : nat) : option nat :=
  let start := (i + length marker)%nat in
  if (length extra <? start + 4)%nat then None
  else
    let size := sizeAt extra start in
    let end_ := (start + 4 + size)%nat in
    if (size =? 0)%nat || (length extra <? end_)%nat then None else Some end_.

(** [None]: no record *)
Definition HeaderMetadataFromExtra (extra : bytes) : result headerError (option HeaderMetadata) :=
  match last_index_of extra headerMetadataMagic with
  | None => Ok None
  | Some i =>
      _ ← fail_if (negb (bool_decide (index_of extra headerMetadataMagic = Some i))) ErrInvalidHeaderMetadata;
      match recordEnd extra headerMetadataMagic i with
      | None => Err ErrInvalidHeaderMetadata
      | Some end_ => m ← DecodeHeaderMetadata (slice extra i end_); Ok (Some m)
      end
  end.

(** ** Finality certificates *)


Definition finalityEnvelopeMagic : bytes := str "TKM_ANTARTICAL_FINALITY_V1".

Record FinalityCertificate := {
  fc_Slot : Z;
  fc_BlockHash : hash;
  fc_CommitteeSize : Z;
  fc_Signers : list address;
  fc_PublicKeys : list bytes;
  fc_Signatures : list bytes;
}.

Definition certificateType : rtype :=
  RStruct [(false, RUint 64); (false, hashType); (false, RUint 64); (false, RSlice addressType); (false, RSlice RByteSlice); (false, RSlice RByteSlice)].
Definition certificateVal (c : FinalityCertificate) : rval :=
  VList [VNum c.(fc_Slot); hashVal c.(fc_BlockHash); VNum c.(fc_CommitteeSize); VList (addressVal <$> c.(fc_Signers));
         VList (VBytes <$> c.(fc_PublicKeys)); VList (VBytes <$> c.(fc_Signatures))].
Definition certificateOf (v : rval) : option FinalityCertificate :=
  match v with
  | VList [VNum slot; VBytes blockHash; VNum size; signers; keys; signatures] =>
      match listOf (λ v, match v with VBytes b => Some (be_value b) | _ => None end) signers,
            listOf (λ v, Some (bytesOf v)) keys, listOf (λ v, Some (bytesOf v)) signatures with
      | Some signers, Some keys, Some signatures =>
          Some {| fc_Slot := slot; fc_BlockHash := be_value blockHash; fc_CommitteeSize := size; fc_Signers := signers; fc_PublicKeys := keys;
                  fc_Signatures := signatures |}
      | _, _, _ => None
      end
  | _ => None
  end.

(** One signature of a certificate: an ML-DSA-87 key by its size, or a secp256k1 key. *)
Definition signatureValid (blockHash : hash) (signer : address) (publicKey signature : bytes) : bool :=
  if (length publicKey =? MLDSA87PublicKeySize)%nat then
    bool_decide (pqAddress AlgorithmMLDSA87 publicKey = Some signer) && VerifyMLDSA87 publicKey (hash_bytes blockHash) signature
  else
    (length signature =? SignatureLength)%nat && bool_decide (PubkeyAddress publicKey = Some signer)
    && VerifySignature publicKey (hash_bytes blockHash) (take 64 signature).

(** The loop over the signers, their keys and signatures; the lists have equal lengths. *)
Fixpoint signerLoop (blockHash : hash) (prev : option address) (seen : list address) (signers : list address) (keys signatures : list bytes) : bool :=
  match signers, keys, signatures with
  | signer :: signers, key :: keys, signature :: signatures =>
      negb (signer =? zeroAddress) && negb (bool_decide (signer ∈ seen))
      && match prev with
         | Some p => match bytes_compare (address_bytes signer) (address_bytes p) with Gt => true | _ => false end
         | None => true
         end
      && negb (length key =? 0)%nat && signatureValid blockHash signer key signature
      && signerLoop blockHash (Some signer) (signer :: seen) signers keys signatures
  | _, _, _ => true
  end.

Definition FinalityCertificate_Verify (c : FinalityCertificate) (numerator denominator : Z) : result headerError unit :=
  let n := Z.of_nat (length c.(fc_Signers)) in
  let committeeSize := if c.(fc_CommitteeSize) =? 0 then n else c.(fc_CommitteeSize) in
  _ ← fail_if ((c.(fc_Slot) =? 0) || (c.(fc_BlockHash) =? zeroHash) || (n =? 0) || (committeeSize <? n)
               || negb (length c.(fc_Signers) =? length c.(fc_PublicKeys))%nat || negb (length c.(fc_Signers) =? length c.(fc_Signatures))%nat
               || (denominator =? 0) || (denominator <? numerator)) ErrInvalidFinalityCertificate;
  _ ← fail_if (negb (signerLoop c.(fc_BlockHash) None [] c.(fc_Signers) c.(fc_PublicKeys) c.(fc_Signatures))) ErrInvalidFinalityCertificate;
  fail_if (n * denominator <? committeeSize * numerator) ErrInvalidFinalityCertificate.

Definition EncodeFinalityCertificate (c : FinalityCertificate) : result headerError bytes :=
  _ ← FinalityCertificate_Verify c 0 1;
  match EncodeValue certificateType (certificateVal c) with
  | None => Err ErrInvalidFinalityEnvelope
  | Some p =>
      if (length p =? 0)%nat || (maxUint32 <? Z.of_nat (length p)) then Err ErrInvalidFinalityEnvelope else Ok (framed finalityEnvelopeMagic p)
  end.

Definition decodeFinalityCertificate (encoded : bytes) : result headerError FinalityCertificate :=
  match unframe finalityEnvelopeMagic encoded with
  | None => Err ErrInvalidFinalityEnvelope
  | Some payload =>
      match decodeInto certificateType certificateOf payload with
      | Err _ => Err ErrInvalidFinalityEnvelope
      | Ok c =>
          _ ← fail_if (c.(fc_Slot) =? 0) ErrInvalidFinalityEnvelope;
          _ ← FinalityCertificate_Verify c 0 1;
          Ok c
      end
  end.

(** The place of the only certificate, if there is one, with its decoding. *)
Definition locateCertificate (extra : bytes) : result headerError (option (nat * nat * FinalityCertificate)) :=
  match index_of extra finalityEnvelopeMagic with
  | None => Ok None
  | Some i =>
      _ ← fail_if (markerAfter extra finalityEnvelopeMagic i) ErrInvalidFinalityEnvelope;
      match recordEnd extra finalityEnvelopeMagic i with
      | None => Err ErrInvalidFinalityEnvelope
      | Some end_ => c ← decodeFinalityCertificate (slice extra i end_); Ok (Some (i, end_, c))
      end
  end.

(** The extra data without the certificate, and whether there was one. *)
Definition FinalityCertificateFromHeaderExtra (extra : bytes) : result headerError (bytes * bool) :=
  r ← locateCertificate extra;
  match r with
  | None => Ok (extra, false)
  | Some (i, end_, _) => Ok (take i extra ++ drop end_ extra, true)
  end.

Definition DecodeFinalityCertificateFromHeaderExtra (extra : bytes) : result headerError (option FinalityCertificate) :=
  r ← locateCertificate extra;
  match r with None => Ok None | Some (_, _, c) => Ok (Some c) end.

Definition AttachFinalityCertificate (extra : bytes) (c : FinalityCertificate) : result headerError bytes :=
  encoded ← EncodeFinalityCertificate c;
  '(base, found) ← FinalityCertificateFromHeaderExtra extra;
  let extra := if found : bool then base else extra in
  match anchorSuffix extra with
  | Some i => Ok (take i extra ++ encoded ++ drop i extra)
  | None => Ok (extra ++ encoded)
  end.

Definition encodeAny (ts : list rtype) (vs : list rval) : option bytes := EncodeValue (RStruct (pair false <$> ts)) (VList vs).

Definition LightClientFinalityDigest (chainID : option Z) (blockHash : hash) : result headerError hash :=
  match chainID with
  | None => Err ErrInvalidLightClientProof
  | Some chainID =>
      _ ← fail_if ((chainID <=? 0) || (two256 <=? chainID) || (blockHash =? zeroHash)) ErrInvalidLightClientProof;
      match encodeAny [RByteSlice; RBigInt; hashType] [VBytes (str "TKM_LIGHT_CLIENT_V1"); VNum chainID; hashVal blockHash] with
      | None => Err ErrInvalidLightClientProof
      | Some blob => Ok (Keccak256Hash [blob])
      end
  end.

Definition HeaderFinalityDigest (chainID : option Z) (header : Header) : result headerError hash :=
  '(base, _) ← FinalityCertificateFromHeaderExtra header.(Extra);
  LightClientFinalityDigest chainID (Header_Hash (setExtra header base)).

Definition FinalityCertificateCommitment (c : FinalityCertificate) : result headerError hash :=
  match EncodeValue certificateType (certificateVal c) with
  | None => Err ErrInvalidFinalityCertificate
  | Some b => Ok (Keccak256Hash [finalityEnvelopeMagic; b])
  end.

Definition hexLe (a b : address) : Prop := string_lt (checksumHex b) (checksumHex a) = false.
#[global] Instance hexLe_dec : RelDecision hexLe.
Proof. intros a b. unfold hexLe. apply _. Defined.
Definition SortedSigners (signers : list address) : list address := merge_sort hexLe signers.

(** ** Witnesses and light clients *)

Record StateWitness := { sw_Root : hash; sw_Nodes : list bytes }.

Definition witnessCommitment (w : StateWitness) : option hash :=
  (λ blob, Keccak256Hash [str "TKM-STATE-WITNESS-1"; blob])
    <$> encodeAny [hashType; RSlice RByteSlice] [hashVal w.(sw_Root); VList (VBytes <$> w.(sw_Nodes))].
Definition witnessVerify (w : StateWitness) (expected : hash) : bool := bool_decide (witnessCommitment w = Some expected).

Definition bytesLe (a b : bytes) : Prop := bytes_compare a b ≠ Gt.
#[global] Instance bytesLe_dec : RelDecision bytesLe.
Proof. intros a b. unfold bytesLe. destruct (bytes_compare a b); [left|left|right]; congruence. Defined.

Definition CanonicalCommitment (w : StateWitness) : option hash :=
  (λ blob, Keccak256Hash [blob])
    <$> encodeAny [hashType; hashType; RSlice RByteSlice]
          [hashVal (BytesToHash (str "TKM-STATE-WITNESS-V2")); hashVal w.(sw_Root); VList (VBytes <$> merge_sort bytesLe w.(sw_Nodes))].
Definition VerifyCanonical (w : StateWitness) (expected : hash) : bool := bool_decide (CanonicalCommitment w = Some expected).
Definition CommitmentAtVersion (w : StateWitness) (version : Z) : option hash :=
  if VersionedMetadataActive version then CanonicalCommitment w else witnessCommitment w.

Record StatelessLightClientProof := {
  lp_ChainID : option Z;
  lp_BlockNumber : Z;
  lp_BlockHash : hash;
  lp_StateRoot : hash;
  lp_WitnessCommitment : hash;
  lp_Witness : StateWitness;
  lp_Certificate : FinalityCertificate;
}.

Definition LightClientProof_Verify (p : StatelessLightClientProof) (numerator denominator : Z) : result headerError unit :=
  match LightClientFinalityDigest p.(lp_ChainID) p.(lp_BlockHash) with
  | Err _ => Err ErrInvalidLightClientProof
  | Ok digest =>
      _ ← fail_if ((p.(lp_StateRoot) =? zeroHash) || (p.(lp_WitnessCommitment) =? zeroHash) || negb (p.(lp_Witness).(sw_Root) =? p.(lp_StateRoot))
                   || negb (p.(lp_Certificate).(fc_Slot) =? p.(lp_BlockNumber)) || negb (p.(lp_Certificate).(fc_BlockHash) =? digest))
            ErrInvalidLightClientProof;
      _ ← fail_if (negb (VerifyCanonical p.(lp_Witness) p.(lp_WitnessCommitment))) ErrInvalidLightClientProof;
      match FinalityCertificate_Verify p.(lp_Certificate) numerator denominator with
      | Ok _ => Ok ()
      | Err _ => Err ErrInvalidLightClientProof
      end
  end.
Definition LightClientProof_VerifyAtVersion (p : StatelessLightClientProof) (version numerator denominator : Z) : result headerError unit :=
  _ ← fail_if (negb (VersionedMetadataActive version)) ErrInactive;
  LightClientProof_Verify p numerator denominator.

(** [DeriveRandomness]: the slot in its shortest big-endian form. *)
Definition DeriveRandomness (parentMix blockHash : hash) (slot : Z) : hash :=
  Keccak256Hash [str "TKM-RANDOMNESS-1"; hash_bytes parentMix; hash_bytes blockHash; min_bytes slot].

(** ** Asset registry *)

Definition assetRegistryExtraMagic : bytes := str "TKM_ASSET_REGISTRY_V1".

Record AssetRegistryEntry := { ae_AssetID : hash; ae_ManifestHash : hash; ae_RuntimeCodeHash : hash }.

Definition byAsset (a b : AssetRegistryEntry) : Prop := bytes_compare (hash_bytes a.(ae_AssetID)) (hash_bytes b.(ae_AssetID)) ≠ Gt.
#[global] Instance byAsset_dec : RelDecision byAsset.
Proof. intros a b. unfold byAsset. destruct (bytes_compare _ _); [left|left|right]; congruence. Defined.

(** The leaves of the sorted entries; [prev] is the entry before. *)
Fixpoint registryLeaves (prev : option AssetRegistryEntry) (items : list AssetRegistryEntry) : result headerError (list hash) :=
  match items with
  | [] => Ok []
  | entry :: items =>
      _ ← fail_if ((entry.(ae_AssetID) =? zeroHash) || (entry.(ae_ManifestHash) =? zeroHash) || (entry.(ae_RuntimeCodeHash) =? zeroHash)
                   || match prev with Some p => p.(ae_AssetID) =? entry.(ae_AssetID) | None => false end) ErrInvalidAssetRegistry;
      match encodeAny [RByteSlice; hashType; hashType; hashType]
              [VBytes (str "TKM_ASSET_REGISTRY_LEAF_V1"); hashVal entry.(ae_AssetID); hashVal entry.(ae_ManifestHash); hashVal entry.(ae_RuntimeCodeHash)] with
      | None => Err ErrInvalidAssetRegistry
      | Some blob => leaves ← registryLeaves (Some entry) items; Ok (Keccak256Hash [blob] :: leaves)
      end
  end.

Definition registryNode (l r : hash) : hash := Keccak256Hash [str "TKM_ASSET_REGISTRY_NODE_V1"; hash_bytes l; hash_bytes r].

(** One level: a leaf without a neighbour is paired with itself. *)
Fixpoint registryLevel (leaves : list hash) : list hash :=
  match leaves with
  | l :: r :: leaves => registryNode l r :: registryLevel leaves
  | [l] => [registryNode l l]
  | [] => []
  end.

(** Every level has fewer leaves, so their number is enough fuel. *)
Fixpoint registryRoot (fuel : nat) (leaves : list hash) : hash :=
  match fuel, leaves with
  | S fuel, _ :: _ :: _ => registryRoot fuel (registryLevel leaves)
  | _, leaf :: _ => leaf
  | _, [] => zeroHash
  end.

Definition AssetRegistryCommitment (entries : list AssetRegistryEntry) : result headerError hash :=
  match entries with
  | [] => Ok (Keccak256Hash [assetRegistryExtraMagic; str "empty"])
  | _ =>
      leaves ← registryLeaves None (merge_sort byAsset entries);
      Ok (Keccak256Hash [assetRegistryExtraMagic; hash_bytes (registryRoot (length leaves) leaves)])
  end.

Definition AttachAssetRegistryCommitment (extra : bytes) (root : hash) : bytes := extra ++ assetRegistryExtraMagic ++ hash_bytes root.
Definition AttachAssetRegistryCommitmentAtVersion (extra : bytes) (root : hash) (version : Z) : bytes :=
  if VersionedMetadataActive version then AttachAssetRegistryCommitment extra root else extra.

(** [None]: no commitment *)
Definition AssetRegistryCommitmentFromHeaderExtra (extra : bytes) : result headerError (option hash) :=
  match last_index_of extra assetRegistryExtraMagic with
  | None => Ok None
  | Some index =>
      _ ← fail_if (negb (length extra =? index + length assetRegistryExtraMagic + 32)%nat) ErrInvalidAssetRegistry;
      Ok (Some (BytesToHash (drop (index + length assetRegistryExtraMagic) extra)))
  end.

Definition ShieldedAssetNullifierBinding (chainID : Z) (assetID tokenID nullifier : hash) : hash :=
  Keccak256Hash [str "TKM_SHIELDED_ASSET_NULLIFIER_V1"; be_bytes 8 chainID; hash_bytes assetID; hash_bytes tokenID; hash_bytes nullifier].
Definition ValidateShieldedAssetNullifierBinding (chainID : Z) (assetID tokenID nullifier binding : hash) : result headerError unit :=
  fail_if ((chainID =? 0) || (assetID =? zeroHash) || (nullifier =? zeroHash) || (binding =? zeroHash)
           || negb (ShieldedAssetNullifierBinding chainID assetID tokenID nullifier =? binding)) ErrInvalidShieldedAssetBind.

(** ** Typed transactions *)

Record TypedTransactionDomain := { td_ChainID : option Z; td_Contract : address; td_Type : Z }.

Definition domainValidate (d : TypedTransactionDomain) : result headerError Z :=
  match d.(td_ChainID) with
  | None => Err ErrInvalidTypedDomain
  | Some chainID =>
      _ ← fail_if ((chainID <=? 0) || (two256 <=? chainID) || (d.(td_Contract) =? zeroAddress) || (d.(td_Type) =? 0)) ErrInvalidTypedDomain;
      Ok chainID
  end.

Definition domainDigest (d : TypedTransactionDomain) (payload : bytes) : result headerError hash :=
  chainID ← domainValidate d;
  match encodeAny [hashType; RBigInt; addressType; RUint 8; hashType]
          [hashVal (BytesToHash (str "TKM_TYPED_TX_DOMAIN_V1")); VNum chainID; addressVal d.(td_Contract); VNum d.(td_Type); hashVal (Keccak256Hash [payload])] with
  | None => Err ErrInvalidTypedDomain
  | Some encoded => Ok (Keccak256Hash [encoded])
  end.

Record TypedTransaction := {
  tt_Sender : address;
  tt_Domain : TypedTransactionDomain;
  tt_Payload : bytes;
  tt_Algorithm : bytes;
  tt_PublicKey : bytes;
  tt_Signature : bytes;
}.

Definition TypedTransaction_Verify (tx : TypedTransaction) : result headerError unit :=
  _ ← fail_if (tx.(tt_Sender) =? zeroAddress) ErrInvalidTypedDomain;
  digest ← domainDigest tx.(tt_Domain) tx.(tt_Payload);
  if bool_decide (tx.(tt_Algorithm) = AlgorithmMLDSA87) then
    _ ← fail_if (negb (VerifyMLDSA87 tx.(tt_PublicKey) (hash_bytes digest) tx.(tt_Signature))) ErrInvalidTypedDomain;
    fail_if (negb (bool_decide (pqAddress tx.(tt_Algorithm) tx.(tt_PublicKey) = Some tx.(tt_Sender)))) ErrInvalidTypedDomain
  else
    _ ← fail_if (negb (length tx.(tt_Algorithm) =? 0)%nat || negb (length tx.(tt_PublicKey) =? 0)%nat || negb (length tx.(tt_Signature) =? SignatureLength)%nat)
          ErrInvalidTypedDomain;
    fail_if (negb (signedBy digest tx.(tt_Signature) tx.(tt_Sender))) ErrInvalidTypedDomain.
Definition TypedTransaction_VerifyAtVersion (tx : TypedTransaction) (version : Z) : result headerError unit :=
  _ ← fail_if (negb (VersionedMetadataActive version)) ErrInactive;
  TypedTransaction_Verify tx.

End Records.
End Headers.
