(* ===== verification/BlockValidator.v ===== *)
(** * The block validator

    [core/block_validator.go], with the receipts of [core/types/receipt.go], the roots it
    recomputes and the two historical exceptions of [core/receipt_compat.go]: what of a
    block body, and of the result of executing it, must match the header.

    The chain database, the table of checkpoints and the root of the state after the
    block are arguments.  The engine is RandomX, which admits no uncles.  A
    state that is missing where its root is due is an error here, a panic in the code. *)

From S2P Require Import Prelude Bytes RLP RLPStream RLPTypes State ChainConfig StackTrie StateTransition ValidatorRegistry ShieldedTree ShieldedCrypto ShieldedEnvelopes Oracle Headers.
Import RLP RLPStream RLPTypes StackTrie StateTransition ValidatorRegistry ShieldedTree ShieldedCrypto ShieldedEnvelopes Oracle Headers.

Module BlockValidator.

Inductive blockError :=
| ErrBlockOversized
| ErrKnownBlock
| ErrBlockAncestor
| ErrPrunedAncestor
| ErrBlockMetadata (e : headerError)
| ErrBlock (msg : string).

(** ** Receipts *)

Record Log := { lg_Address : address; lg_Topics : list hash; lg_Data : bytes }.

Record Receipt := {
  rc_Type : Z;
  rc_PostState : bytes;
  rc_Status : Z;
  rc_CumulativeGasUsed : Z;
  rc_Bloom : bytes;
  rc_Logs : list Log;
}.

Definition ReceiptStatusFailed : Z := 0.
Definition receiptStatusFailedRLP : bytes := [].
Definition receiptStatusSuccessfulRLP : bytes := [0x01].

Definition statusEncoding (r : Receipt) : bytes :=
  if (length r.(rc_PostState) =? 0)%nat then
    if r.(rc_Status) =? ReceiptStatusFailed then receiptStatusFailedRLP else receiptStatusSuccessfulRLP
  else r.(rc_PostState).

Definition logType : rtype := RStruct [(false, addressType); (false, RSlice hashType); (false, RByteSlice)].
Definition logVal (l : Log) : rval := VList [addressVal l.(lg_Address); VList (hashVal <$> l.(lg_Topics)); VBytes l.(lg_Data)].
Definition receiptType : rtype := RStruct [(false, RByteSlice); (false, RUint 64); (false, RByteArray BloomByteLength); (false, RSlice logType)].
Definition receiptVal (r : Receipt) : rval :=
  VList [VBytes (statusEncoding r); VNum r.(rc_CumulativeGasUsed); VBytes r.(rc_Bloom); VList (logVal <$> r.(rc_Logs))].

(** [Receipts.EncodeIndex]; the types 1 to 4 are those of Ethereum. *)
Definition EncodeIndex (r : Receipt) : bytes :=
  let data := default [] (EncodeValue receiptType (receiptVal r)) in
  if r.(rc_Type) =? 0 then data
  else r.(rc_Type) :: (if bool_decide (r.(rc_Type) ∈ [1; 2; 3; 4; RandomXTxType; PQTkmTxType]) then data else []).

(** [bitutil.ORBytes] *)
Definition ORBytes (a b : bytes) : bytes := zip_with Z.lor a b.

Definition MergeBloom (receipts : list Receipt) : bytes :=
  foldl (λ bin r, if (length r.(rc_Logs) =? 0)%nat then bin else ORBytes bin r.(rc_Bloom)) (replicate BloomByteLength 0) receipts.

(** ** Blocks *)

(** A transaction of a body: its encoding in the list root, its blobs, and whether a
    sidecar is attached. *)
Record BodyTx := { bt_Encoding : bytes; bt_BlobHashes : list hash; bt_Sidecar : bool }.

Record Block := {
  bk_Header : Header;
  bk_Size : Z;
  bk_Transactions : list BodyTx;
  bk_Uncles : list Header;
  bk_Withdrawals : option (list bytes);
}.

Record ProcessResult := {
  rs_Receipts : list Receipt;
  rs_Requests : option (list bytes);
  rs_GasUsed : Z;
  rs_ConflictTranscript : hash;
}.

Definition MaxBlockSize : Z := 8388608.
Definition BlobTxBlobGasPerBlob : Z := 2 ^ 17.

Section Validator.
Context {X : Externals} {Sg : Secp256k1} {Pk : PublicKeys} {U : Uint256} {S : Type} {W : WorldState S}.
Context (config : ChainConfig.ChainConfig).
Context (HasBlockAndState HasBlock : hash → Z → bool).

Definition EmptyUncleHash : hash := Keccak256Hash [[0xC0]].
Definition CalcUncleHash (uncles : list Header) : hash :=
  match uncles with
  | [] => EmptyUncleHash
  | _ => Keccak256Hash [default [] (EncodeValue (RSlice headerType) (VList (headerVal <$> uncles)))]
  end.

(** SHA-256 of the SHA-256 hashes; a request without data is left out. *)
Definition CalcRequestsHash (requests : list bytes) : hash :=
  BytesToHash (sha256 (concat (sha256 <$> filter (λ item, (1 < length item)%nat) requests))).

Definition listRoot (l : list bytes) : option bytes := DeriveSha keccak l NewStackTrie.
Definition NumberU64 (b : Block) : Z := u64 (default 0 b.(bk_Header).(Number)).

(** The loop over the transactions, counting blobs. *)
Fixpoint blobLoop (txs : list BodyTx) (blobs : Z) : result blockError Z :=
  match txs with
  | [] => Ok blobs
  | tx :: txs =>
      _ ← fail_if tx.(bt_Sidecar) (ErrBlock "sidecar");
      blobLoop txs (blobs + Z.of_nat (length tx.(bt_BlobHashes)))
  end.

Definition ValidateBody (block : Block) : result blockError unit :=
  let header := block.(bk_Header) in
  let number := default 0 header.(Number) in
  _ ← fail_if ((ChainConfig.IsOsaka config number header.(Time) || ChainConfig.IsAntartical config number header.(Time))
               && (MaxBlockSize <? block.(bk_Size))) ErrBlockOversized;
  _ ← fail_if (HasBlockAndState (Header_Hash header) (NumberU64 block)) ErrKnownBlock;
  _ ← match HeaderMetadataFromExtra header.(Extra) with Err e => Err (ErrBlockMetadata e) | Ok _ => Ok () end;
  _ ← fail_if (0 <? length block.(bk_Uncles))%nat ErrBlockAncestor;
  _ ← fail_if (negb (CalcUncleHash block.(bk_Uncles) =? header.(UncleHash))) (ErrBlock "uncle root");
  _ ← fail_if (negb (bool_decide (listRoot (bt_Encoding <$> block.(bk_Transactions)) = Some (hash_bytes header.(TxHash))))) (ErrBlock "transaction root");
  _ ← match header.(WithdrawalsHash), block.(bk_Withdrawals) with
      | Some _, None => Err (ErrBlock "missing withdrawals")
      | Some h, Some ws => fail_if (negb (bool_decide (listRoot ws = Some (hash_bytes h)))) (ErrBlock "withdrawals root")
      | None, Some _ => Err (ErrBlock "withdrawals present")
      | None, None => Ok ()
      end;
  blobs ← blobLoop block.(bk_Transactions) 0;
  _ ← match header.(BlobGasUsed) with
      | Some used => fail_if (negb (u64 blobs =? used / BlobTxBlobGasPerBlob)) (ErrBlock "blob gas used")
      | None => fail_if (0 <? blobs) (ErrBlock "data blobs")
      end;
  if negb (HasBlockAndState header.(ParentHash) (u64 (NumberU64 block - 1))) then
    if negb (HasBlock header.(ParentHash) (u64 (NumberU64 block - 1))) then Err ErrBlockAncestor else Err ErrPrunedAncestor
  else Ok ().

(** ** The result of execution *)

Definition historicalBrokenPqReceiptRootBlocks : gmap Z hash :=
  {[ 20146 := 0x4ad9f0d3caec69b43c547254b041060514dd689c2b50bf03cfec32e9559b749d;
     20173 := 0xca3393c0164ea2b7ae776c3e5b90ae4a717ee46a81c0303895eb1344b2b7ab5c ]}.

Definition historicalEncodeIndex (r : Receipt) : bytes := if r.(rc_Type) =? PQTkmTxType then [PQTkmTxType] else EncodeIndex r.

Context (GetCheckpoint : Z → option hash) (IntermediateRoot : S → bool → hash).

Definition acceptHistoricalBrokenPqReceiptRoot (number : Z) (blockHash receiptHash : hash) (receipts : list Receipt) : bool :=
  bool_decide (historicalBrokenPqReceiptRootBlocks !! number = Some blockHash) && bool_decide (GetCheckpoint number = Some blockHash)
  && existsb (λ r, r.(rc_Type) =? PQTkmTxType) receipts
  && bool_decide (listRoot (historicalEncodeIndex <$> receipts) = Some (hash_bytes receiptHash)).

(** The checks on the metadata record. *)
Definition checkMetadata (active : bool) (header : Header) (res : ProcessResult) (metadata : option HeaderMetadata) : result blockError unit :=
  _ ← fail_if (bool_decide (metadata ≠ None) && negb active) (ErrBlock "metadata before activation");
  _ ← fail_if (negb (header.(GasUsed) =? res.(rs_GasUsed))) (ErrBlock "gas used");
  match metadata with
  | None => Ok ()
  | Some m =>
      _ ← fail_if (m.(hm_GasLimits).(pg_EVM) <? res.(rs_GasUsed)) (ErrBlock "EVM gas limit");
      fail_if (negb (res.(rs_ConflictTranscript) =? zeroHash) && negb (m.(hm_ConflictTranscript) =? res.(rs_ConflictTranscript))) (ErrBlock "conflict transcript")
  end.

(** The checks on the finality certificate. *)
Definition checkFinality (active : bool) (block : Block) (st : option S) (metadata : option HeaderMetadata) : result blockError unit :=
  let header := block.(bk_Header) in
  let number := default 0 header.(Number) in
  match DecodeFinalityCertificateFromHeaderExtra header.(Extra) with
  | Err e => Err (ErrBlockMetadata e)
  | Ok (Some cert) =>
      _ ← fail_if (negb active) (ErrBlock "certificate before activation");
      _ ← fail_if (negb (cert.(fc_Slot) =? NumberU64 block)) (ErrBlock "slot");
      _ ← match HeaderFinalityDigest (ChainConfig.ChainID config) header with
          | Err _ => Err (ErrBlock "digest")
          | Ok digest => fail_if (negb (cert.(fc_BlockHash) =? digest)) (ErrBlock "digest")
          end;
      match st with
      | None => Err (ErrBlock "no state")
      | Some st =>
          match ActiveValidatorRecords st (NumberU64 block) with
          | Err _ | Ok [] => Err (ErrBlock "no committee")
          | Ok validators =>
              let committee := list_to_set (Address <$> validators) : gset address in
              _ ← fail_if (negb (cert.(fc_CommitteeSize) =? Z.of_nat (length validators))) (ErrBlock "committee size");
              _ ← fail_if (negb (forallb (λ a, bool_decide (a ∈ committee)) cert.(fc_Signers))) (ErrBlock "signer");
              _ ← match FinalityCertificate_Verify cert 2 3 with Err e => Err (ErrBlockMetadata e) | Ok _ => Ok () end;
              match metadata with
              | None => Ok ()
              | Some m =>
                  match FinalityCertificateCommitment cert with
                  | Err _ => Err (ErrBlock "commitment")
                  | Ok commitment => fail_if (negb (m.(hm_Finality) =? commitment)) (ErrBlock "commitment")
                  end
              end
          end
      end
  | Ok None =>
      if ChainConfig.IsAntarticalConsensusFeatureActive config ChainConfig.FeatureSingleSlotFinality number header.(Time) then
        match st with
        | None => Ok ()
        | Some st =>
            match ActiveValidatorRecords st (NumberU64 block) with
            | Err _ => Err (ErrBlock "committee")
            | Ok validators => fail_if (0 <? length validators)%nat (ErrBlock "certificate required")
            end
        end
      else Ok ()
  end.

Definition ValidateState (block : Block) (st : option S) (res : option ProcessResult) (stateless : bool) : result blockError unit :=
  match res with
  | None => Err (ErrBlock "no result")
  | Some res =>
      let header := block.(bk_Header) in
      let number := default 0 header.(Number) in
      match HeaderMetadataFromExtra header.(Extra) with
      | Err e => Err (ErrBlockMetadata e)
      | Ok metadata =>
          let active := ChainConfig.IsAntartical config number header.(Time) in
          _ ← checkMetadata active header res metadata;
          _ ← checkFinality active block st metadata;
          _ ← fail_if (negb (bool_decide (MergeBloom res.(rs_Receipts) = header.(Bloom)))) (ErrBlock "bloom");
          if stateless then Ok ()
          else
            _ ← fail_if (negb (bool_decide (listRoot (EncodeIndex <$> res.(rs_Receipts)) = Some (hash_bytes header.(ReceiptHash))))
                         && negb (acceptHistoricalBrokenPqReceiptRoot (NumberU64 block) (Header_Hash header) header.(ReceiptHash) res.(rs_Receipts)))
                  (ErrBlock "receipt root");
            _ ← match header.(RequestsHash), res.(rs_Requests) with
                | Some h, requests => fail_if (negb (CalcRequestsHash (default [] requests) =? h)) (ErrBlock "requests hash")
                | None, Some _ => Err (ErrBlock "requests")
                | None, None => Ok ()
                end;
            match st with
            | None => Err (ErrBlock "no state")
            | Some st => fail_if (negb (header.(Root) =? IntermediateRoot st (ChainConfig.IsEIP158 config number))) (ErrBlock "state root")
            end
      end
  end.

End Validator.
End BlockValidator.
