(* ===== verification/HeaderFacts.v ===== *)
(** * Facts about headers and framed records

    Encodings determine values, hashes of headers determine headers up to a collision of
    Keccak, and framed records are found again where they were put. *)

From S2P Require Import Prelude Bytes RLP RLPStream RLPTypes TrieNode TrieMap State ChainConfig ValidatorRegistry ValidatorStore ShieldedTree ShieldedCrypto ShieldedEnvelopes RLPValues Oracle Headers.
Import RLP RLPStream RLPTypes TrieNode TrieMap ValidatorRegistry ValidatorStore ShieldedTree ShieldedCrypto ShieldedEnvelopes RLPValues Oracle Headers.

Module HeaderFacts.

(** ** Encodings *)

(** A value that a tree of sizes below 2^64 stands for. *)
Definition encodable (ty : rtype) (v : rval) : Prop :=
  (∃ i, denote ty v i) ∧ item_ok (canon ty v) ∧ Z.of_nat (length (enc (canon ty v))) < two64.

Lemma EncodeValue_encodable ty v : wf_type ty → encodable ty v → EncodeValue ty v = Some (enc (canon ty v)).
Proof. intros Hw ([i Hd] & _ & Hl). by eapply EncodeValue_canon. Qed.

(** Without optional fields there is one tree. *)
Lemma encodable_plain ty v i : wf_type ty → plain ty → denote ty v i → item_ok i → Z.of_nat (length (enc i)) < two64 → encodable ty v.
Proof. intros Hw Hp Hd Hok Hl. pose proof (canon_denote ty v i Hw Hd) as [_ Hc]. split; [by exists i|by rewrite Hc by done]. Qed.

Lemma short_string b : bytes_ok b → (length b <= 32)%nat → item_ok (Str b) ∧ (length (enc (Str b)) <= 41)%nat.
Proof.
  intros Hb Hl. assert (Z.of_nat (length b) < two64) by (unfold two64; lia). split; [by constructor|].
  pose proof (encStr_length_le b ltac:(done)). cbn [enc]. lia.
Qed.

(** Three short strings. *)
Lemma three_small a b c : bytes_ok a → bytes_ok b → bytes_ok c → (length a <= 32)%nat → (length b <= 32)%nat → (length c <= 32)%nat →
  item_ok (Lst [Str a; Str b; Str c]) ∧ Z.of_nat (length (enc (Lst [Str a; Str b; Str c]))) < two64.
Proof.
  intros Ha Hb Hc La Lb Lc. destruct (short_string a Ha La) as [Ia Ka]. destruct (short_string b Hb Lb) as [Ib Kb].
  destruct (short_string c Hc Lc) as [Ic Kc].
  assert (Hl : Z.of_nat (length (concat (enc <$> [Str a; Str b; Str c]))) <= 200) by (cbn [fmap list_fmap concat]; rewrite !length_app; cbn [length]; lia).
  assert (Hl' : Z.of_nat (length (concat (enc <$> [Str a; Str b; Str c]))) < two64) by (unfold two64; lia). split.
  - constructor; [by repeat (apply Forall_cons_2; [done|])|done].
  - cbn [enc]. pose proof (encList_length_le _ Hl'). unfold two64. lia.
Qed.

Lemma EncodeValue_inj ty v v' : wf_type ty → encodable ty v → encodable ty v' → EncodeValue ty v = EncodeValue ty v' → v = v'.
Proof.
  intros Hw Hv Hv'. rewrite !EncodeValue_encodable by done. intros [= E]. destruct Hv as ([i Hd] & Hok & _), Hv' as ([i' Hd'] & Hok' & _).
  apply canon_denote in Hd as [Hd _]; [|done]. apply canon_denote in Hd' as [Hd' _]; [|done].
  pose proof (DecodeBytes_enc sampleStream ty v _ Hw Hd Hok) as H. rewrite E, (DecodeBytes_enc sampleStream ty v' _ Hw Hd' Hok') in H. by injection H.
Qed.

Lemma EncodeValue_roundtrip pooled ty v b : wf_type ty → encodable ty v → EncodeValue ty v = Some b → DecodeBytes pooled b ty = Ok v.
Proof.
  intros Hw Hv. rewrite EncodeValue_encodable by done. intros [= <-]. destruct Hv as ([i Hd] & Hok & _).
  apply canon_denote in Hd as [Hd _]; [|done]. by apply DecodeBytes_enc.
Qed.

Lemma hashVal_inj h h' : is_hash h → is_hash h' → hashVal h = hashVal h' → h = h'.
Proof.
  intros Hh Hh' E. assert (Eb : hash_bytes h = hash_bytes h') by exact (f_equal bytesOf E). apply (f_equal be_value) in Eb.
  unfold hash_bytes in Eb. by rewrite !be_value_bytes in Eb.
Qed.

Lemma addressVal_inj a a' : is_address a → is_address a' → addressVal a = addressVal a' → a = a'.
Proof.
  intros Hh Hh' E. assert (Eb : address_bytes a = address_bytes a') by exact (f_equal bytesOf E). apply (f_equal be_value) in Eb.
  unfold address_bytes in Eb. by rewrite !be_value_bytes in Eb.
Qed.

(** ** Headers *)

(** The fields are in range. *)
Record header_ok (h : Header) : Prop := {
  ho_parent : is_hash h.(ParentHash);
  ho_uncle : is_hash h.(UncleHash);
  ho_coinbase : is_address h.(Coinbase);
  ho_root : is_hash h.(Root);
  ho_tx : is_hash h.(TxHash);
  ho_receipt : is_hash h.(ReceiptHash);
  ho_mix : is_hash h.(MixDigest);
  ho_withdrawals : 0 <= default 0 h.(WithdrawalsHash) < 2 ^ 256;
  ho_beacon : 0 <= default 0 h.(ParentBeaconRoot) < 2 ^ 256;
  ho_requests : 0 <= default 0 h.(RequestsHash) < 2 ^ 256;
  ho_access : 0 <= default 0 h.(BlockAccessListHash) < 2 ^ 256;
  ho_encodable : encodable headerType (headerVal h);
}.

Lemma optNum_inj o o' : optNum o = optNum o' → o = o'.
Proof. by destruct o, o'; cbn; intros; simplify_eq. Qed.

Lemma optHash_inj o o' : 0 <= default 0 o < 2 ^ 256 → 0 <= default 0 o' < 2 ^ 256 → optHash o = optHash o' → o = o'.
Proof. destruct o, o'; cbn [optHash default id]; intros H H' E; try done. f_equal. by apply hashVal_inj. Qed.

Definition listVals (v : rval) : list rval := match v with VList l => l | _ => [] end.
Definition numOf (v : rval) : Z := match v with VNum n => n | _ => 0 end.

Lemma headerVal_inj h h' : header_ok h → header_ok h' → headerVal h = headerVal h' → h = h'.
Proof.
  intros H H' E. assert (El : ∀ n, nth n (listVals (headerVal h)) VNil = nth n (listVals (headerVal h')) VNil) by (intros n; by rewrite E). clear E.
  destruct H, H', h, h'. unfold headerVal in El. cbn [listVals app] in *.
  f_equal; [apply hashVal_inj; [done..|exact (El 0%nat)]|apply hashVal_inj; [done..|exact (El 1%nat)]|apply addressVal_inj; [done..|exact (El 2%nat)]
    |apply hashVal_inj; [done..|exact (El 3%nat)]|apply hashVal_inj; [done..|exact (El 4%nat)]|apply hashVal_inj; [done..|exact (El 5%nat)]
    |exact (f_equal bytesOf (El 6%nat))|apply optNum_inj, (El 7%nat)|apply optNum_inj, (El 8%nat)|exact (f_equal numOf (El 9%nat))
    |exact (f_equal numOf (El 10%nat))|exact (f_equal numOf (El 11%nat))|exact (f_equal bytesOf (El 12%nat))|apply hashVal_inj; [done..|exact (El 13%nat)]
    |exact (f_equal bytesOf (El 14%nat))|apply optNum_inj, (El 15%nat)|apply optHash_inj; [done..|exact (El 16%nat)]|apply optNum_inj, (El 17%nat)
    |apply optNum_inj, (El 18%nat)|apply optHash_inj; [done..|exact (El 19%nat)]|apply optHash_inj; [done..|exact (El 20%nat)]
    |apply optHash_inj; [done..|exact (El 21%nat)]|apply optNum_inj, (El 22%nat)].
Qed.

Section Hashes.
Context {X : Externals} {Sg : Secp256k1} {Pk : PublicKeys} {HK : Keccak256 keccak}.

Lemma Keccak256Hash_inj p p' : Keccak256Hash p = Keccak256Hash p' → concat p = concat p' ∨ collision keccak.
Proof.
  unfold Keccak256Hash. rewrite !BytesToHash_32 by apply keccak_length. intros E. destruct (decide (concat p = concat p')) as [?|Hne]; [by left|right].
  exists (concat p), (concat p'). split; [done|]. rewrite <- (be_bytes_value (keccak (concat p))), <- (be_bytes_value (keccak (concat p'))) by apply keccak_bytes.
  by rewrite !keccak_length, E.
Qed.

Lemma Keccak256Hash_is_hash p : is_hash (Keccak256Hash p).
Proof. unfold Keccak256Hash. rewrite BytesToHash_32 by apply keccak_length. exact (be_value_sized _ 32 (keccak_bytes _) (keccak_length _)). Qed.

(** The block hash determines the header. *)
Lemma Header_Hash_inj h h' : header_ok h → header_ok h' → Header_Hash h = Header_Hash h' → h = h' ∨ collision keccak.
Proof.
  intros H H' E. apply Keccak256Hash_inj in E as [E|]; [|by right]. left. apply headerVal_inj; [done|done|].
  pose proof (ho_encodable h H) as He. pose proof (ho_encodable h' H') as He'. apply (EncodeValue_inj headerType); [done|done|done|].
  rewrite !EncodeValue_encodable in * by done. cbn [default concat id] in E. rewrite !app_nil_r in E. by f_equal.
Qed.

End Hashes.
End HeaderFacts.
