(* ===== verification/AnchorChain.v ===== *)
(** * What the block hash anchors commit to

    The anchor of a header that the engine accepts is the rolling commitment of every
    ancestor since the fork. *)

From S2P Require Import Prelude Bytes TrieNode TrieMap ChainConfig ValidatorRegistry Oracle Headers HeaderFacts.
Import TrieNode TrieMap ValidatorRegistry Oracle Headers HeaderFacts.

Module AnchorChain.

Section Anchors.
Context {X : Externals} {Sg : Secp256k1} {Pk : PublicKeys} {HK : Keccak256 keccak}.

(** The commitment to the blocks [L], newest first, the newest at height [n]. *)
Fixpoint rollingOf (n : Z) (L : list hash) : hash :=
  match L with [] => zeroHash | h :: L => BlockHashAnchorCommitment (rollingOf (n - 1) L) n h end.

Lemma rollingOf_is_hash n L : is_hash (rollingOf n L).
Proof. destruct L; [by unfold is_hash, zeroHash|apply Keccak256Hash_is_hash]. Qed.

Lemma commitment_inj p n h p' n' h' : is_hash p → is_hash p' → is_u64 n → is_u64 n' → is_hash h → is_hash h' →
  BlockHashAnchorCommitment p n h = BlockHashAnchorCommitment p' n' h' → (p = p' ∧ n = n' ∧ h = h') ∨ collision keccak.
Proof.
  intros Hp Hp' Hn Hn' Hh Hh' E. apply Keccak256Hash_inj in E as [E|]; [|by right]. left. cbn [concat] in E. rewrite !app_nil_r in E.
  apply app_inv_head in E. apply app_inj_1 in E as [Ep E]; [|by unfold hash_bytes; rewrite !length_be_bytes].
  apply app_inj_1 in E as [En Eh]; [|by rewrite !length_be_bytes].
  split_and!; [by apply (be_bytes_inj 32)|by apply (be_bytes_inj 8)|by apply (be_bytes_inj 32)].
Qed.

(** A preimage of the zero hash, which stands for "no ancestor". *)
Definition zeroPreimage : Prop := ∃ parts, Keccak256Hash parts = zeroHash.

Lemma rollingOf_inj n L L' : Forall is_hash L → Forall is_hash L' → is_u64 n → Z.of_nat (length L) <= n + 1 → Z.of_nat (length L') <= n + 1 →
  rollingOf n L = rollingOf n L' → L = L' ∨ collision keccak ∨ zeroPreimage.
Proof.
  revert n L'. induction L as [|h L IH]; intros n [|h' L'] HL HL' Hn Hl Hl' E; cbn [rollingOf] in E; [by left|by right; right; eexists|by right; right; eexists|].
  apply Forall_cons in HL as [Hh HL]. apply Forall_cons in HL' as [Hh' HL']. cbn [length] in Hl, Hl'.
  apply commitment_inj in E as [(E & _ & ->)|]; [|by right; left|apply rollingOf_is_hash|apply rollingOf_is_hash|done..].
  destruct L as [|h1 L], L' as [|h1' L']; [by left|by right; right; eexists|by right; right; eexists|].
  destruct (IH (n - 1) (h1' :: L')) as [->|?]; cbn [length] in *; try done; try lia; [unfold is_u64 in *; lia|by left|by right].
Qed.

(** ** Accepted chains *)

(** A header at a height below 2^64. *)
Definition atHeight (h : Header) (n : Z) : Prop := h.(Number) = Some n ∧ is_u64 n.

(** A chain of headers that the engine accepts, from the first with an anchor; [L] are
    the hashes of the ancestors, from the parent on. *)
Inductive accepted (config : ChainConfig.ChainConfig) (GetHeader : hash → Z → option Header) : Header → Z → list hash → Prop :=
| accepted_first h n candidates parent :
    atHeight h n → is_hash h.(ParentHash) → ChainConfig.IsAntartical config n h.(Time) = true →
    verifyBlockHashAnchor config GetHeader h candidates = Ok () →
    findParent GetHeader h n candidates = Some parent → BlockHashAnchorFromHeaderExtra parent.(Extra) = Ok None →
    accepted config GetHeader h n [h.(ParentHash)]
| accepted_next h n candidates parent L :
    atHeight h n → is_hash h.(ParentHash) → ChainConfig.IsAntartical config n h.(Time) = true →
    verifyBlockHashAnchor config GetHeader h candidates = Ok () →
    findParent GetHeader h n candidates = Some parent → accepted config GetHeader parent (n - 1) L →
    accepted config GetHeader h n (h.(ParentHash) :: L).

(** What the engine checks. *)
Lemma verify_inv config GetHeader h n candidates parent : atHeight h n → ChainConfig.IsAntartical config n h.(Time) = true →
  verifyBlockHashAnchor config GetHeader h candidates = Ok () → findParent GetHeader h n candidates = Some parent →
  ∃ anchor parentAnchor, BlockHashAnchorFromHeaderExtra h.(Extra) = Ok (Some anchor) ∧ BlockHashAnchorFromHeaderExtra parent.(Extra) = Ok parentAnchor
    ∧ 0 < n ∧ anchor.(an_Height) = n - 1 ∧ anchor.(an_Hash) = h.(ParentHash) ∧ Z.of_nat (length h.(Extra)) <= AntarticalMaximumExtraDataSize
    ∧ anchor.(an_Rolling) = BlockHashAnchorCommitment (match parentAnchor with Some a => a.(an_Rolling) | None => zeroHash end) (n - 1) h.(ParentHash).
Proof.
  intros [En Hn] Ha E Ep. unfold verifyBlockHashAnchor in E. rewrite En in E. apply bind_ok in E as (found & Ef & E). rewrite Ha in E. cbn [negb] in E.
  destruct found as [anchor|]; [|done]. apply bind_ok in E as (_ & Hlen%fail_if_ok & E). apply bind_ok in E as (_ & Hz%fail_if_ok & E). rewrite Ep in E.
  apply bind_ok in E as (parentAnchor & Epa & E). apply bind_ok in E as (prev & Eprev & E). unfold ValidateBlockHashAnchor in E.
  apply bind_ok in E as (_ & H1%fail_if_ok & H2%fail_if_ok). rewrite u64_small in H1 by done. exists anchor, parentAnchor.
  assert (prev = match parentAnchor with Some a => a.(an_Rolling) | None => zeroHash end) as ->.
  { destruct (ChainConfig.IsAntartical config (default 0 (Number parent)) (Time parent)), parentAnchor; try destruct (0 <? default 0 (Number parent));
      congruence. }
  unfold is_u64 in Hn. rewrite !orb_false_iff, !negb_false_iff, !Z.eqb_eq, !Z.eqb_neq in H1. rewrite negb_false_iff, Z.eqb_eq in H2.
  destruct H1 as ((? & Hh) & ?). rewrite Hh in H2. split_and!; try done; lia.
Qed.

Lemma accepted_anchor config GetHeader h n L : accepted config GetHeader h n L →
  BlockHashAnchorFromHeaderExtra h.(Extra) = Ok (Some {| an_Height := n - 1; an_Hash := h.(ParentHash); an_Rolling := rollingOf (n - 1) L |})
  ∧ Forall is_hash L ∧ Z.of_nat (length L) <= n ∧ is_u64 n.
Proof.
  induction 1 as [h n candidates parent Hn Hp Ha Hv Ef Eanc|h n candidates parent L Hn Hp Ha Hv Ef HL (IH & IHh & IHl & IHn)];
    destruct (verify_inv _ _ _ _ _ _ Hn Ha Hv Ef) as ([ah ahh ar] & pa & Ea & Epa & Hpos & E1 & E2 & _ & E3); cbn [an_Height an_Hash an_Rolling] in E1, E2, E3; subst.
  - rewrite Eanc in Epa. apply Ok_inj in Epa as <-. split_and!; [done|by apply Forall_singleton|cbn [length]; lia|apply Hn].
  - rewrite IH in Epa. apply Ok_inj in Epa as <-. split_and!; [done|by constructor|cbn [length]; lia|apply Hn].
Qed.

(** C21: block hash anchors.  The anchor of a header that the engine accepts, with all its
    ancestors since the fork, names its height and parent and is the rolling commitment
    of the hashes of those ancestors.  Two such headers of the same height, on whatever
    chains, with the same rolling commitment have the same ancestors since the fork, or
    exhibit a collision of Keccak or a preimage of the zero hash. *)
Theorem anchor_commits_ancestry config config' GetHeader GetHeader' h h' n L L' anchor anchor' :
  accepted config GetHeader h n L → accepted config' GetHeader' h' n L' →
  BlockHashAnchorFromHeaderExtra h.(Extra) = Ok (Some anchor) → BlockHashAnchorFromHeaderExtra h'.(Extra) = Ok (Some anchor') →
  anchor = {| an_Height := n - 1; an_Hash := h.(ParentHash); an_Rolling := rollingOf (n - 1) L |}
  ∧ (anchor.(an_Rolling) = anchor'.(an_Rolling) → L = L' ∨ collision keccak ∨ zeroPreimage).
Proof using HK.
  intros H H' E E'. apply accepted_anchor in H as (Ea & HL & Hl & Hn). apply accepted_anchor in H' as (Ea' & HL' & Hl' & _).
  rewrite Ea in E. rewrite Ea' in E'. apply Ok_inj in E, E'. injection E as <-. injection E' as <-. split; [done|]. cbn [an_Rolling].
  destruct L as [|x L], L' as [|x' L']; try (intros Er; cbn [rollingOf] in Er; first [by left|by right; right; eexists]).
  apply rollingOf_inj; [done|done| |lia|lia]. cbn [length] in Hl. unfold is_u64 in *. lia.
Qed.

End Anchors.
End AnchorChain.
