(* ===== verification/Finality.v ===== *)
(** * Finality certificates

    Two certificates of one committee share a third of it, certificates are found again
    in the extra data they were attached to, and they never fit a header that the
    RandomX engine accepts. *)

From S2P Require Import Prelude Bytes RLP RLPStream RLPTypes TrieNode TrieMap State ChainConfig ValidatorRegistry ValidatorStore ShieldedTree ShieldedCrypto ShieldedEnvelopes RLPValues Oracle Headers BlockValidator HeaderFacts AnchorChain.
Import RLP RLPStream RLPTypes TrieNode TrieMap ValidatorRegistry ValidatorStore ShieldedTree ShieldedCrypto ShieldedEnvelopes RLPValues Oracle Headers BlockValidator HeaderFacts AnchorChain.

Module Finality.

Section Certificates.
Context {X : Externals} {Sg : Secp256k1} {Pk : PublicKeys}.

(** ** Where a certificate is *)

Lemma slice_length b i j : (j <= length b)%nat → length (slice b i j) = (j - i)%nat.
Proof. intros H. unfold slice. rewrite length_take, length_drop. lia. Qed.

Lemma slice_lookup b i j k : (i + k < j)%nat → slice b i j !! k = b !! (i + k)%nat.
Proof. intros H. unfold slice. rewrite lookup_take_lt by lia. by rewrite lookup_drop. Qed.

Lemma unframe_inv magic encoded p : unframe magic encoded = Some p →
  encoded = magic ++ slice encoded (length magic) (length magic + 4) ++ p ∧ length p = sizeAt encoded (length magic) ∧ (0 < length p)%nat.
Proof.
  unfold unframe. case_match eqn:H1; [done|]. case_match eqn:H2; [done|]. intros E. injection E as <-.
  rewrite orb_false_iff, negb_false_iff, bool_decide_eq_true in H1. destruct H1 as [Hl Hm]. rewrite orb_false_iff, negb_false_iff in H2. destruct H2 as [Hz Hs].
  apply Nat.ltb_ge in Hl. apply Nat.eqb_neq in Hz. apply Nat.eqb_eq in Hs. rewrite length_drop. split_and!; [|lia|lia].
  rewrite <- Hm at 1. unfold slice. replace (length magic + 4 - length magic)%nat with 4%nat by lia.
  rewrite <- (take_drop (length magic) encoded) at 1. f_equal. rewrite <- (take_drop 4 (drop (length magic) encoded)) at 1. f_equal. by rewrite drop_drop.
Qed.

(** Everything [locateCertificate] checks. *)
Lemma locate_inv extra i end_ c : locateCertificate extra = Ok (Some (i, end_, c)) →
  ∃ p, index_of extra finalityEnvelopeMagic = Some i ∧ (end_ <= length extra)%nat ∧ end_ = (i + length finalityEnvelopeMagic + 4 + length p)%nat
    ∧ slice extra i end_ = finalityEnvelopeMagic ++ slice extra (i + length finalityEnvelopeMagic) (i + length finalityEnvelopeMagic + 4) ++ p
    ∧ length p = sizeAt extra (i + length finalityEnvelopeMagic)
    ∧ decodeInto certificateType certificateOf p = Ok c ∧ FinalityCertificate_Verify c 0 1 = Ok ().
Proof.
  unfold locateCertificate. destruct (index_of extra finalityEnvelopeMagic) as [i'|] eqn:Ei; [|done]. intros E.
  apply bind_ok in E as (_ & _ & E). destruct (recordEnd _ _ _) as [e|] eqn:Ee; [|done]. apply bind_ok in E as (c' & Ec & E). injection E as -> -> ->.
  unfold recordEnd in Ee. destruct (_ <? _)%nat eqn:Hl; [done|]. destruct (_ || _) eqn:H2; [done|]. apply (inj Some) in Ee. apply Nat.ltb_ge in Hl.
  rewrite orb_false_iff in H2. destruct H2 as [Hz%Nat.eqb_neq He%Nat.ltb_ge].
  unfold decodeFinalityCertificate in Ec. destruct (unframe _ _) as [p|] eqn:Ep; [|done]. apply unframe_inv in Ep as (Es & Hp & Hp0).
  destruct (decodeInto _ _ _) as [c'|] eqn:Ed; [|done]. apply bind_ok in Ec as (_ & _ & Ec). apply bind_ok in Ec as ([] & Ev & Ec). apply Ok_inj in Ec as ->.
  set (m := length finalityEnvelopeMagic) in *.
  assert (Esl : slice (slice extra i end_) m (m + 4) = slice extra (i + m) (i + m + 4)).
  { apply list_eq. intros k. destruct (decide (k < 4)%nat) as [Hk|Hk].
    - rewrite !slice_lookup by lia. by replace (i + (m + k))%nat with (i + m + k)%nat by lia.
    - rewrite !(proj2 (lookup_ge_None _ _)); [done|..]; rewrite slice_length; lia || rewrite slice_length; lia. }
  assert (Hs : sizeAt (slice extra i end_) m = sizeAt extra (i + m)) by (unfold sizeAt; by rewrite Esl).
  exists p. rewrite <- Esl. split_and!; done || lia.
Qed.

(** ** What an encoded certificate looks like *)

Lemma enc_length_pos i : (1 <= length (enc i))%nat.
Proof. pose proof (enc_nonempty i). destruct (enc i); [done|cbn; lia]. Qed.

Lemma encList_lower js : (1 + length (concat (enc <$> js)) <= length (enc (Lst js)))%nat.
Proof. cbn [enc]. unfold encList. rewrite length_app. unfold puthead. case_if; cbn [length]; lia. Qed.

Lemma elem_lower j js : j ∈ js → (length (enc j) <= length (concat (enc <$> js)))%nat.
Proof. intros (l & r & ->)%list_elem_of_split. rewrite fmap_app, concat_app, length_app. cbn [fmap list_fmap concat]. rewrite length_app. lia. Qed.

Lemma encStr_32 b : length b = 32%nat → enc (Str b) = 0xA0 :: b.
Proof. intros H. cbn [enc]. rewrite encStr_long by (destruct b as [|? [|? b]]; done). by rewrite H. Qed.

Lemma field_inv t fs vs js : denoteFields denote ((false, t) :: fs) vs js →
  ∃ v vs' i js', vs = v :: vs' ∧ js = i :: js' ∧ denote t v i ∧ denoteFields denote fs vs' js'.
Proof. intros [H|([=] & _)]. done. Qed.

Lemma certificate_fields v i c : denote certificateType v i → certificateOf v = Some c →
  ∃ h size signers keys signatures, length h = 32%nat ∧ i = Lst [Str (min_bytes c.(fc_Slot)); Str h; size; Lst signers; keys; signatures]
    ∧ length signers = length c.(fc_Signers) ∧ Forall (λ j, ∃ b, j = Str b ∧ length b = 20%nat) signers.
Proof.
  intros (vs & js & -> & -> & Hf) Ec. apply field_inv in Hf as (? & ? & ? & ? & -> & -> & (slot & -> & -> & _) & Hf).
  apply field_inv in Hf as (? & ? & ? & ? & -> & -> & (h & -> & -> & Hh) & Hf). apply field_inv in Hf as (? & ? & size & ? & -> & -> & (n & -> & -> & _) & Hf).
  apply field_inv in Hf as (? & ? & ? & ? & -> & -> & (sv & signers & -> & -> & Hsg) & Hf). apply field_inv in Hf as (kv & ? & keys & ? & -> & -> & _ & Hf).
  apply field_inv in Hf as (gv & ? & signatures & ? & -> & -> & _ & [-> ->]). cbn [certificateOf listOf] in Ec.
  destruct (mapM _ sv) as [sl|] eqn:Es; [|done]. destruct (listOf _ kv) as [kl|]; [|done]. destruct (listOf _ gv) as [gl|]; [|done].
  injection Ec as <-. cbn [fc_Slot fc_Signers]. exists h, (Str (min_bytes n)), signers, keys, signatures. split_and!; [done|done| |].
  - apply mapM_Some_1, Forall2_length in Es. rewrite <- Es. symmetry. by eapply Forall2_length.
  - clear -Hsg. induction Hsg as [|v j vs js (b & -> & -> & Hb) _ IH]; constructor; eauto.
Qed.

(** The payload begins with the head of a long list, and a slot below 128 is followed by
    the tag of the block hash. *)
Lemma certificate_payload p c : bytes_ok p → (length p <= 98)%nat → decodeInto certificateType certificateOf p = Ok c → c.(fc_Signers) ≠ [] →
  (58 <= length p)%nat ∧ p !! 0%nat = Some 0xF8 ∧ ∀ x, p !! 2%nat = Some x → x < 0x80 → p !! 3%nat = Some 0xA0.
Proof.
  intros Hb Hl E Hs. unfold decodeInto in E. destruct (DecodeBytes pooled p certificateType) as [v|] eqn:Ed; [|done].
  apply DecodeBytes_inv in Ed as (i & Hd & Hok & ->); [|done|done|unfold two64; lia]. destruct (certificateOf v) as [c'|] eqn:Ec; [|done]. apply Ok_inj in E as ->.
  destruct (certificate_fields v i c Hd Ec) as (h & size & signers & keys & signatures & Hh & -> & Hlen & Hsg).
  pose proof (enc_length_pos size) as L1. pose proof (enc_length_pos (Str (min_bytes c.(fc_Slot)))) as L0. pose proof (encList_lower signers) as L2.
  assert (L3 : (21 <= length (concat (enc <$> signers)))%nat).
  { destruct signers as [|j signers]; [destruct (fc_Signers c); done|]. apply Forall_cons in Hsg as [(b & -> & Hb20) _].
    etrans; [|apply elem_lower; left]. cbn [enc]. rewrite encStr_long by (destruct b as [|? [|? b]]; done). rewrite length_app, !Hb20. by vm_compute; lia. }
  set (rest := enc (Lst signers) ++ enc keys ++ enc signatures ++ []) in *.
  assert (Ep : enc (Lst [Str (min_bytes (fc_Slot c)); Str h; size; Lst signers; keys; signatures])
    = encList (enc (Str (min_bytes (fc_Slot c))) ++ (0xA0 :: h) ++ enc size ++ rest)) by (rewrite <- (encStr_32 h) by done; reflexivity).
  rewrite Ep in *. clear Ep. set (content := enc (Str (min_bytes (fc_Slot c))) ++ _) in *.
  assert (Hcl : (57 <= length content)%nat).
  { unfold content, rest. rewrite !length_app. cbn [length]. rewrite Hh. lia. }
  pose proof (encList_length content) as Hc2. unfold encList in *. unfold puthead in *. rewrite (proj2 (Z.ltb_ge _ _)) in * by lia. unfold putint in *.
  rewrite (proj2 (Z.ltb_lt (Z.of_nat (length content)) (2 ^ 8))) in * by lia. rewrite length_be_bytes in *. cbn [length app] in *.
  split_and!; [rewrite length_app, length_be_bytes; lia|done|]. intros x Hx Hlt.
  assert (H23 : ∀ k, (0xF7 + Z.of_nat 1 :: be_bytes 1 (Z.of_nat (length content)) ++ content) !! (S (S k)) = content !! k) by reflexivity.
  rewrite H23 in Hx |- *. unfold content in Hx |- *. cbn [enc] in Hx |- *.
  destruct (min_bytes (fc_Slot c)) as [|s0 [|s1 sl]] eqn:Em; cbn [encStr] in Hx |- *.
  - cbn in Hx. injection Hx as <-. lia.
  - destruct (s0 <=? 0x7F); [reflexivity|]. cbn in Hx. injection Hx as <-. lia.
  - unfold puthead in Hx. case_match; cbn in Hx; injection Hx as <-; lia.
Qed.

(** ** Certificates and anchors do not fit together *)

Lemma marker_at s sep i k : index_of s sep = Some i → (k < length sep)%nat → s !! (i + k)%nat = sep !! k.
Proof.
  intros Hi Hk. apply index_of_Some in Hi as [[t Ht] _]. assert (Hl : length (take i s) = i).
  { apply (f_equal length) in Ht. rewrite !length_app in Ht. rewrite length_take in *. lia. }
  rewrite Ht, lookup_app_r by lia. rewrite Hl. replace (i + k - i)%nat with k by lia. by rewrite lookup_app_l.
Qed.

(** The four bytes of a length: one of the first three is not zero only for lengths of
    at least 256. *)
Lemma size_bytes b start k x : bytes_ok b → (start + 4 <= length b)%nat → (sizeAt b start <= 98)%nat → (k < 3)%nat → b !! (start + k)%nat = Some x → x = 0.
Proof.
  intros Hb Hl Hs Hk Hx. unfold sizeAt in Hs. set (s := slice b start (start + 4)) in *.
  assert (Hsl : length s = 4%nat) by (unfold s; rewrite slice_length; lia). assert (Hsb : bytes_ok s) by (unfold s, slice; by apply Forall_take, Forall_drop).
  assert (Hsk : s !! k = Some x) by (unfold s; rewrite slice_lookup by lia; done). clearbody s.
  destruct s as [|b0 [|b1 [|b2 [|b3 [|]]]]]; try done. unfold be_value, digits_value in Hs. cbn in Hs. rewrite !Forall_cons in Hsb.
  unfold is_byte in Hsb. destruct k as [|[|[|k]]]; [| | |lia]; cbn in Hsk; injection Hsk as <-; lia.
Qed.

(** An accepted header of the fork has at most 128 bytes of extra data, of which the
    anchor is the last 96: a certificate would have to overlap the anchor. *)
Lemma certificate_not_anchored extra anchor i end_ c : bytes_ok extra → Z.of_nat (length extra) <= AntarticalMaximumExtraDataSize →
  BlockHashAnchorFromHeaderExtra extra = Ok (Some anchor) → locateCertificate extra ≠ Ok (Some (i, end_, c)).
Proof.
  intros Hb Hl Ha Hc. unfold BlockHashAnchorFromHeaderExtra in Ha. destruct (index_of extra blockHashAnchorMagic) as [a|] eqn:Ea; [|done].
  apply bind_ok in Ha as (_ & Hf%fail_if_ok & _). rewrite orb_false_iff, negb_false_iff, Nat.eqb_eq in Hf. destruct Hf as [_ Hend].
  change BlockHashAnchorEncodedSize with 96%nat in Hend. unfold AntarticalMaximumExtraDataSize in Hl.
  apply locate_inv in Hc as (p & Ei & He & -> & Esl & Hsz & Ed & Ev). change (length finalityEnvelopeMagic) with 26%nat in *.
  assert (Hs : fc_Signers c ≠ []). { intros Es. unfold FinalityCertificate_Verify in Ev. rewrite Es in Ev. cbn in Ev. by rewrite !orb_true_r in Ev. }
  assert (Hp : bytes_ok p). {
    assert (Hsb : bytes_ok (slice extra i (i + 26 + 4 + length p))) by (unfold slice; by apply Forall_take, Forall_drop). rewrite Esl in Hsb.
    by apply Forall_app in Hsb as [_ [_ Hsb]%Forall_app]. }
  destruct (certificate_payload p c Hp ltac:(lia) Ed Hs) as (Hpl & P0 & P3).
  assert (A : ∀ k, (k < 24)%nat → extra !! (a + k)%nat = blockHashAnchorMagic !! k) by (intros; by apply marker_at).
  assert (M : ∀ k, (k < 26)%nat → extra !! (i + k)%nat = finalityEnvelopeMagic !! k) by (intros; by apply marker_at).
  assert (P : ∀ k, (k < length p)%nat → extra !! (i + (30 + k))%nat = p !! k).
  { intros k Hk. rewrite <- (slice_lookup extra i (i + 26 + 4 + length p)) by lia. rewrite Esl, app_assoc. rewrite lookup_app_r; rewrite length_app, slice_length by lia.
    - f_equal. change (length finalityEnvelopeMagic) with 26%nat. lia.
    - change (length finalityEnvelopeMagic) with 26%nat. lia. }
  destruct (decide (a < i)%nat) as [Hai|Hai].
  { assert (Hk : ∃ k, i = (a + S k)%nat ∧ (k < 8)%nat) by (exists (i - a - 1)%nat; lia). destruct Hk as (k & -> & Hk).
    specialize (A (S k) ltac:(lia)). specialize (M 0%nat ltac:(lia)). rewrite Nat.add_0_r, A in M. clear -M Hk.
    do 8 (destruct k as [|k]; [by vm_compute in M|]). lia. }
  assert (Hd : ∃ d, a = (i + d)%nat ∧ (d <= 32)%nat) by (exists (a - i)%nat; lia). destruct Hd as (d & -> & Hd).
  assert (A0 := A 0%nat ltac:(lia)). assert (A1 := A 1%nat ltac:(lia)). assert (A2 := A 2%nat ltac:(lia)). assert (A4 := A 4%nat ltac:(lia)).
  rewrite <- !Nat.add_assoc in A0, A1, A2, A4. rewrite Nat.add_0_r in A0. clear A.
  destruct (decide (d < 25)%nat) as [Hd1|Hd1].
  { rewrite M in A0, A1 by lia. destruct d as [|d]; [rewrite M in A4 by lia; by vm_compute in A4|]. clear -A0 A1 Hd1.
    do 24 (destruct d as [|d]; [first [by vm_compute in A0|by vm_compute in A1]|]). lia. }
  destruct (decide (d = 25)%nat) as [->|]; [rewrite M in A0 by lia; by vm_compute in A0|].
  destruct (decide (d < 29)%nat) as [Hd2|Hd2].
  { assert (Hz : 84 = 0); [|done]. apply (size_bytes extra (i + 26) (d - 26)); [done|lia|lia|lia|]. replace (i + 26 + (d - 26))%nat with (i + d)%nat by lia. done. }
  assert (Q : ∀ k x, (k < length p)%nat → extra !! (i + (30 + k))%nat = Some x → p !! k = Some x) by (intros k x Hk <-; symmetry; by apply P).
  destruct (decide (d = 29)%nat) as [->|]; [apply (Q 0%nat) in A1; [by rewrite P0 in A1|lia]|].
  destruct (decide (d = 30)%nat) as [->|]; [apply (Q 0%nat) in A0; [by rewrite P0 in A0|lia]|].
  destruct (decide (d = 31)%nat) as [->|].
  { apply (Q 2%nat) in A1; [|lia]. apply (Q 3%nat) in A2; [|lia]. by rewrite (P3 _ A1) in A2. }
  assert (d = 32%nat) as -> by lia. apply (Q 2%nat) in A0; [|lia]. apply (Q 3%nat) in A1; [|lia]. by rewrite (P3 _ A0) in A1.
Qed.

Lemma metadata_large encoded m : bytes_ok encoded → Z.of_nat (length encoded) < two64 → DecodeHeaderMetadata encoded = Ok m → (264 <= length encoded)%nat.
Proof.
  intros Hb Hl E. unfold DecodeHeaderMetadata in E. destruct (unframe _ _) as [p|] eqn:Ep; [|done]. apply unframe_inv in Ep as (Es & _ & _).
  destruct (decodeInto _ _ _) as [[[version limits] cs]|] eqn:Ed; [|done]. unfold decodeInto in Ed.
  assert (Hpl : (length p <= length encoded)%nat) by (pose proof (f_equal length Es) as Hel; rewrite !length_app in Hel; lia).
  assert (Hp : bytes_ok p) by (rewrite Es in Hb; by apply Forall_app in Hb as [_ [_ Hb]%Forall_app]).
  destruct (DecodeBytes pooled p wireType) as [v|] eqn:Ev; [|done]. apply DecodeBytes_inv in Ev as (i & (vs & js & -> & -> & Hf) & _ & ->); [|done|done|lia].
  apply field_inv in Hf as (? & ? & j1 & ? & -> & -> & (slot & -> & _) & Hf). apply field_inv in Hf as (lv & ? & j2 & ? & -> & -> & _ & Hf).
  apply field_inv in Hf as (? & ? & ? & ? & -> & -> & (cv & cj & -> & -> & Hc) & [-> ->]). cbn [wireOf listOf] in Ed.
  destruct (listOf _ lv) as [ll|]; [|done]. destruct (mapM _ cv) as [cs'|] eqn:Ec; [|done]. apply Ok_inj in Ed. injection Ed as -> -> ->.
  assert (Hcs : length cs = 8%nat) by (destruct limits as [|? [|? [|? [|? [|]]]]]; try done; by destruct cs as [|? [|? [|? [|? [|? [|? [|? [|? [|]]]]]]]]]).
  apply mapM_Some_1, Forall2_length in Ec. assert (Hlen : length (concat (enc <$> cj)) = (33 * length cj)%nat).
  { clear -Hc. induction Hc as [|v j vs js (b & -> & -> & Hb) _ IH]; [done|]. cbn [fmap list_fmap concat]. rewrite length_app, IH, encStr_32 by done. cbn [length]. lia. }
  apply Forall2_length in Hc. pose proof (encList_lower [j1; j2; Lst cj]) as H1. pose proof (encList_lower cj) as H2.
  pose proof (elem_lower (Lst cj) [j1; j2; Lst cj] ltac:(by do 2 right; left)) as H3. lia.
Qed.

(** The anchor and the bound that the engine checks. *)
Lemma verify_extra config GetHeader h n candidates : h.(Number) = Some n → ChainConfig.IsAntartical config n h.(Time) = true →
  verifyBlockHashAnchor config GetHeader h candidates = Ok () →
  (∃ anchor, BlockHashAnchorFromHeaderExtra h.(Extra) = Ok (Some anchor)) ∧ Z.of_nat (length h.(Extra)) <= AntarticalMaximumExtraDataSize.
Proof.
  intros En Ha E. unfold verifyBlockHashAnchor in E. rewrite En in E. apply bind_ok in E as (found & Ef & E). rewrite Ha in E. cbn [negb] in E.
  destruct found as [anchor|]; [|done]. apply bind_ok in E as (_ & Hlen%fail_if_ok & E). split; [by exists anchor|]. apply Z.ltb_ge in Hlen. done.
Qed.

Lemma bare_extra extra anchor : bytes_ok extra → Z.of_nat (length extra) <= AntarticalMaximumExtraDataSize →
  BlockHashAnchorFromHeaderExtra extra = Ok (Some anchor) →
  (∀ c, DecodeFinalityCertificateFromHeaderExtra extra ≠ Ok (Some c)) ∧ ∀ m, HeaderMetadataFromExtra extra ≠ Ok (Some m).
Proof.
  intros Hb Hl Ha. split.
  - intros c E. unfold DecodeFinalityCertificateFromHeaderExtra in E. apply bind_ok in E as (r & Er & E). destruct r as [[[i e] c']|]; [|done].
    by eapply certificate_not_anchored.
  - intros m E. unfold HeaderMetadataFromExtra in E. destruct (last_index_of _ _) as [i|]; [|done]. apply bind_ok in E as (_ & _ & E).
    destruct (recordEnd _ _ _) as [e|]; [|done]. apply bind_ok in E as (m' & Em & _). unfold AntarticalMaximumExtraDataSize in Hl.
    assert (Hs : (length (slice extra i e) <= length extra)%nat) by (unfold slice; rewrite length_take, length_drop; lia).
    apply metadata_large in Em; [lia| |unfold two64; lia]. unfold slice. by apply Forall_take, Forall_drop.
Qed.

(** ** Quorums *)

(** A valid signature of the validator over the digest. *)
Definition voted (digest : hash) (a : address) : Prop := ∃ key signature, signatureValid digest a key signature = true.

Lemma signerLoop_spec digest prev seen signers keys signatures : length signers = length keys → length signers = length signatures →
  signerLoop digest prev seen signers keys signatures = true →
  NoDup signers ∧ Forall (λ a, a ∉ seen) signers ∧ Forall (voted digest) signers.
Proof.
  revert prev seen keys signatures. induction signers as [|a signers IH]; intros prev seen [|key keys] [|signature signatures] Hk Hs E; try done.
  { split_and!; constructor. }
  cbn [signerLoop] in E. rewrite !andb_true_iff, !negb_true_iff, bool_decide_eq_false in E. destruct E as (((((_ & Hseen) & _) & _) & Hv) & E).
  cbn in Hk, Hs. apply IH in E as (Hnd & Hf & Hvs); [|lia|lia]. rewrite Forall_forall in Hf. split_and!.
  - apply NoDup_cons. split; [|done]. intros Ha. apply (Hf a Ha). by left.
  - apply Forall_cons. split; [done|]. apply Forall_forall. intros x Hx Hin. apply (Hf x Hx). by right.
  - apply Forall_cons. split; [by exists key, signature|done].
Qed.

Lemma Verify_spec c num den : FinalityCertificate_Verify c num den = Ok () → c.(fc_CommitteeSize) ≠ 0 →
  NoDup c.(fc_Signers) ∧ Forall (voted c.(fc_BlockHash)) c.(fc_Signers) ∧ c.(fc_CommitteeSize) * num <= Z.of_nat (length c.(fc_Signers)) * den.
Proof.
  intros E Hne. unfold FinalityCertificate_Verify in E. rewrite (proj2 (Z.eqb_neq _ _)) in E by done.
  apply bind_ok in E as (_ & H1%fail_if_ok & E). apply bind_ok in E as (_ & H2%fail_if_ok & H3%fail_if_ok).
  rewrite !orb_false_iff, !negb_false_iff, !Nat.eqb_eq in H1. destruct H1 as ((((_ & Hk) & Hs) & _) & _). apply negb_false_iff in H2.
  apply signerLoop_spec in H2 as (Hnd & _ & Hv); [|done|done]. split_and!; [done|done|lia].
Qed.

(** Two quorums of two thirds share a third. *)
Lemma quorums_meet (A B V : list address) : NoDup A → NoDup B → (∀ a, a ∈ A → a ∈ V) → (∀ a, a ∈ B → a ∈ V) →
  2 * Z.of_nat (length V) <= 3 * Z.of_nat (length A) → 2 * Z.of_nat (length V) <= 3 * Z.of_nat (length B) →
  ∃ C, NoDup C ∧ (∀ a, a ∈ C → a ∈ A ∧ a ∈ B ∧ a ∈ V) ∧ Z.of_nat (length V) <= 3 * Z.of_nat (length C).
Proof.
  intros HA HB HAV HBV H2 H3. exists (filter (.∈ B) A). split_and!; [by apply NoDup_filter|intros a [? ?]%list_elem_of_filter; auto|].
  assert (Hu : (length (filter (.∉ B) A ++ B) <= length V)%nat).
  { apply submseteq_length, NoDup_submseteq.
    - apply NoDup_app. split_and!; [by apply NoDup_filter|by intros a [? ?]%list_elem_of_filter|done].
    - intros a [Ha|Ha]%elem_of_app; [apply list_elem_of_filter in Ha as [_ Ha]|]; auto. }
  rewrite length_app in Hu. assert (Hs : length A = (length (filter (.∈ B) A) + length (filter (.∉ B) A))%nat).
  { clear. induction A as [|a A IH]; [done|]. rewrite !filter_cons. repeat case_decide; cbn; try done; rewrite IH; lia. }
  lia.
Qed.

Section Blocks.
Context {U : Uint256} {S : Type} {W : WorldState S} {HK : Keccak256 keccak}.
Context (config : ChainConfig.ChainConfig) (GetCheckpoint : Z → option hash) (IntermediateRoot : S → bool → hash).
Local Abbreviation ValidateState := (ValidateState config GetCheckpoint IntermediateRoot).

(** What the validator checked of a certificate. *)
Lemma ValidateState_certificate block st res stateless c :
  ValidateState block st res stateless = Ok () → DecodeFinalityCertificateFromHeaderExtra block.(bk_Header).(Extra) = Ok (Some c) →
  ∃ s validators, st = Some s ∧ ActiveValidatorRecords s (NumberU64 block) = Ok validators ∧ validators ≠ []
    ∧ HeaderFinalityDigest (ChainConfig.ChainID config) block.(bk_Header) = Ok c.(fc_BlockHash)
    ∧ c.(fc_Slot) = NumberU64 block ∧ c.(fc_CommitteeSize) = Z.of_nat (length validators)
    ∧ (∀ a, a ∈ c.(fc_Signers) → a ∈ Address <$> validators) ∧ FinalityCertificate_Verify c 2 3 = Ok ().
Proof.
  intros E Ec. unfold BlockValidator.ValidateState in E. destruct res as [res|]; [|done]. destruct (HeaderMetadataFromExtra _) as [metadata|]; [|done].
  apply bind_ok in E as (_ & _ & E). apply bind_ok in E as ([] & E & _). unfold checkFinality in E. rewrite Ec in E.
  apply bind_ok in E as (_ & _ & E). apply bind_ok in E as (_ & Hslot%fail_if_ok & E). apply bind_ok in E as ([] & Hd & E).
  destruct (HeaderFinalityDigest _ _) as [digest|] eqn:Ed; [|done]. apply fail_if_ok, negb_false_iff, Z.eqb_eq in Hd as <-.
  destruct st as [s|]; [|done]. destruct (ActiveValidatorRecords _ _) as [[|r rs]|] eqn:Er; [done| |done].
  apply bind_ok in E as (_ & Hsize%fail_if_ok & E). apply bind_ok in E as (_ & Hsg%fail_if_ok & E). apply bind_ok in E as ([] & Hv & _).
  rewrite negb_false_iff, Z.eqb_eq in Hslot, Hsize. rewrite negb_false_iff, forallb_forall in Hsg.
  exists s, (r :: rs). split_and!; try done.
  - intros a Ha. apply list_elem_of_In, Hsg, bool_decide_eq_true in Ha. by apply elem_of_list_to_set in Ha.
  - destruct (FinalityCertificate_Verify c 2 3) as [[]|]; done.
Qed.

(** The header that is signed: without the certificate. *)
Definition signedHeader (h : Header) : Header :=
  match FinalityCertificateFromHeaderExtra h.(Extra) with Ok (base, _) => setExtra h base | Err _ => h end.

Lemma digest_encodable chainID h : 0 <= chainID < two256 →
  encodable (RStruct (pair false <$> [RByteSlice; RBigInt; hashType])) (VList [VBytes (str "TKM_LIGHT_CLIENT_V1"); VNum chainID; hashVal h]).
Proof.
  intros Hc. destruct (three_small (str "TKM_LIGHT_CLIENT_V1") (min_bytes chainID) (hash_bytes h)) as [Hok Hl].
  - apply (bool_decide_unpack _). by vm_compute.
  - apply min_bytes_spec. lia.
  - apply be_bytes_ok.
  - by vm_compute; lia.
  - apply min_bytes_length. exact Hc.
  - unfold hash_bytes. by rewrite length_be_bytes.
  - eapply encodable_plain; [done|done| |exact Hok|exact Hl]. apply denote_struct. apply denoteFields_cons; [by eexists|].
    apply denoteFields_cons; [exists chainID; by split_and!; [..|lia]|]. apply denoteFields_cons; [apply denote_be|done].
Qed.

Lemma digest_inj chainID d d' h h' : LightClientFinalityDigest chainID h = Ok d → LightClientFinalityDigest chainID h' = Ok d' →
  is_hash h → is_hash h' → d = d' → h = h' ∨ collision keccak.
Proof using HK.
  intros E E' Hh Hh' ->. unfold LightClientFinalityDigest in *. destruct chainID as [chainID|]; [|done].
  apply bind_ok in E as (_ & H1%fail_if_ok & E). apply bind_ok in E' as (_ & _ & E'). unfold encodeAny in E, E'.
  destruct (EncodeValue _ (VList [_; _; hashVal h])) as [b|] eqn:Eb; [|done]. destruct (EncodeValue _ (VList [_; _; hashVal h'])) as [b'|] eqn:Eb'; [|done].
  apply Ok_inj in E, E'. rewrite <- E' in E. apply Keccak256Hash_inj in E as [E|]; [|by right]. left. cbn [concat] in E. rewrite !app_nil_r in E. subst b'.
  rewrite <- Eb in Eb'. apply EncodeValue_inj in Eb'; [|done|apply digest_encodable; lia|apply digest_encodable; lia].
  symmetry. apply hashVal_inj; [done|done|exact (f_equal (λ v, nth 2 (listVals v) VNil) Eb')].
Qed.

(** C20: finality is accountable.  Let two blocks with certificates pass the validator,
    against states with the same active validators.  Then at least a third of these
    validators signed the digests of both blocks.  The digests differ unless the blocks
    have the same header (the certificate apart), or Keccak collides; so no two
    different blocks are final unless a third of the committee signed both. *)
Theorem finality_accountable blockA blockB sA sB resA resB statelessA statelessB cA cB validators :
  ValidateState blockA (Some sA) resA statelessA = Ok () → ValidateState blockB (Some sB) resB statelessB = Ok () →
  DecodeFinalityCertificateFromHeaderExtra blockA.(bk_Header).(Extra) = Ok (Some cA) →
  DecodeFinalityCertificateFromHeaderExtra blockB.(bk_Header).(Extra) = Ok (Some cB) →
  ActiveValidatorRecords sA (NumberU64 blockA) = Ok validators → ActiveValidatorRecords sB (NumberU64 blockB) = Ok validators →
  header_ok (signedHeader blockA.(bk_Header)) → header_ok (signedHeader blockB.(bk_Header)) →
  ∃ dA dB both, HeaderFinalityDigest (ChainConfig.ChainID config) blockA.(bk_Header) = Ok dA
    ∧ HeaderFinalityDigest (ChainConfig.ChainID config) blockB.(bk_Header) = Ok dB
    ∧ NoDup both ∧ Z.of_nat (length validators) <= 3 * Z.of_nat (length both)
    ∧ (∀ a, a ∈ both → a ∈ Address <$> validators ∧ voted dA a ∧ voted dB a)
    ∧ (dA = dB → signedHeader blockA.(bk_Header) = signedHeader blockB.(bk_Header) ∨ collision keccak).
Proof using HK.
  intros EA EB CA CB VA VB HA HB.
  destruct (ValidateState_certificate _ _ _ _ _ EA CA) as (sA' & vA & [= <-] & VA' & Hne & DA & _ & SA & InA & FA).
  destruct (ValidateState_certificate _ _ _ _ _ EB CB) as (sB' & vB & [= <-] & VB' & _ & DB & _ & SB & InB & FB).
  rewrite VA in VA'. rewrite VB in VB'. apply Ok_inj in VA' as <-, VB' as <-.
  assert (Hn : Z.of_nat (length validators) ≠ 0) by (destruct validators; [done|cbn; lia]).
  apply Verify_spec in FA as (NA & WA & QA); [|by rewrite SA]. apply Verify_spec in FB as (NB & WB & QB); [|by rewrite SB]. rewrite SA in QA. rewrite SB in QB.
  destruct (quorums_meet cA.(fc_Signers) cB.(fc_Signers) (Address <$> validators)) as (both & Hnd & Hin & Hlen);
    [done|done|done|done|rewrite length_fmap; lia|rewrite length_fmap; lia|]. rewrite length_fmap in Hlen. rewrite Forall_forall in WA, WB.
  exists cA.(fc_BlockHash), cB.(fc_BlockHash), both. split_and!; [done|done|done|done| |].
  - intros a (HaA & HaB & HaV)%Hin. auto.
  - intros Ed. unfold HeaderFinalityDigest in DA, DB. unfold signedHeader in *.
    destruct (FinalityCertificateFromHeaderExtra (Extra (bk_Header blockA))) as [[baseA fA]|]; [|done].
    destruct (FinalityCertificateFromHeaderExtra (Extra (bk_Header blockB))) as [[baseB fB]|]; [|done].
    cbn [mbind result_bind] in DA, DB. destruct (digest_inj _ _ _ _ _ DA DB) as [Eh|]; [apply Keccak256Hash_is_hash|apply Keccak256Hash_is_hash|done| |by right].
    by apply Header_Hash_inj.
Qed.

(** No room for certificates.  A header of the fork that the RandomX engine accepts
    carries neither a finality certificate nor a metadata record that the validator can
    read: its extra data has at most 128 bytes, and the anchor takes the last 96.  A
    block that both accept is therefore never final. *)
Theorem anchored_header_bare GetHeader candidates n block st res stateless :
  bytes_ok block.(bk_Header).(Extra) → block.(bk_Header).(Number) = Some n → ChainConfig.IsAntartical config n block.(bk_Header).(Time) = true →
  verifyBlockHashAnchor config GetHeader block.(bk_Header) candidates = Ok () →
  (∀ c, DecodeFinalityCertificateFromHeaderExtra block.(bk_Header).(Extra) ≠ Ok (Some c))
  ∧ (∀ m, HeaderMetadataFromExtra block.(bk_Header).(Extra) ≠ Ok (Some m))
  ∧ (ValidateState block st res stateless = Ok () →
     DecodeFinalityCertificateFromHeaderExtra block.(bk_Header).(Extra) = Ok None ∧ HeaderMetadataFromExtra block.(bk_Header).(Extra) = Ok None).
Proof.
  intros Hb En Ha Hv. destruct (verify_extra _ _ _ _ _ En Ha Hv) as [[anchor Ea] Hl]. destruct (bare_extra _ _ Hb Hl Ea) as [Hc Hm].
  split_and!; [done|done|]. intros E. unfold BlockValidator.ValidateState in E. destruct res as [res|]; [|done].
  destruct (HeaderMetadataFromExtra _) as [[m|]|] eqn:Em; [by destruct (Hm m)| |done]. split; [|done].
  apply bind_ok in E as (_ & _ & E). apply bind_ok in E as ([] & E & _). unfold checkFinality in E.
  destruct (DecodeFinalityCertificateFromHeaderExtra _) as [[c|]|]; [by destruct (Hc c)|done|done].
Qed.

End Blocks.
End Certificates.
End Finality.
