(* ===== verification/BlockRoots.v ===== *)
(** * What a header fixes of its block

    The roots that the validator recomputes determine the body and the receipts. *)

From S2P Require Import Prelude Bytes RLP RLPStream RLPTypes TrieNode TrieSpec Trie TrieMap StackTrie State ChainConfig StateTransition ValidatorRegistry Oracle Headers BlockValidator HeaderFacts.
Import RLP RLPStream RLPTypes TrieNode TrieSpec Trie TrieMap StackTrie StateTransition ValidatorRegistry Oracle Headers BlockValidator HeaderFacts.

Module BlockRoots.

Section Roots.
Context {X : Externals} {Sg : Secp256k1} {Pk : PublicKeys} {U : Uint256} {S : Type} {W : WorldState S} {HK : Keccak256 keccak}.

(** The root of the empty list is the hash of the empty string's encoding. *)
Context (HE : keccak EmptyString = EmptyRootHash).

Lemma listRoot_inj l l' r : list_ok l → list_ok l' → listRoot l = Some r → listRoot l' = Some r → l = l' ∨ collision keccak.
Proof using HE HK.
  intros Hl Hl' E E'. unfold listRoot in *. destruct (DeriveSha_spec keccak l NewStackTrie Hl) as (h & Eh & Hr).
  destruct (DeriveSha_spec keccak l' NewStackTrie Hl') as (h' & Eh' & Hr'). rewrite E in Eh. rewrite E' in Eh'. injection Eh as <-. injection Eh' as <-.
  destruct (root_of_binding keccak (indexMap l) (indexMap l') r) as [Em|]; [done|by apply indexMap_small..|done|done| |by right].
  left. by apply indexMap_inj.
Qed.

Context (config : ChainConfig.ChainConfig) (HasBlockAndState HasBlock : hash → Z → bool).
Context (GetCheckpoint : Z → option hash) (IntermediateRoot : S → bool → hash).
Local Abbreviation ValidateBody := (ValidateBody config HasBlockAndState HasBlock).
Local Abbreviation ValidateState := (ValidateState config GetCheckpoint IntermediateRoot).

(** What the validator recomputed of a body. *)
Lemma ValidateBody_roots block : ValidateBody block = Ok () →
  let header := block.(bk_Header) in
  block.(bk_Uncles) = [] ∧ listRoot (bt_Encoding <$> block.(bk_Transactions)) = Some (hash_bytes header.(TxHash))
  ∧ match header.(WithdrawalsHash), block.(bk_Withdrawals) with
    | Some h, Some ws => listRoot ws = Some (hash_bytes h)
    | None, None => True
    | _, _ => False
    end.
Proof.
  intros E. unfold BlockValidator.ValidateBody in E. apply bind_ok in E as (_ & _ & E). apply bind_ok in E as (_ & _ & E). apply bind_ok in E as (_ & _ & E).
  apply bind_ok in E as (_ & Hu%fail_if_ok & E). apply bind_ok in E as (_ & _ & E). apply bind_ok in E as (_ & Ht%fail_if_ok & E).
  apply bind_ok in E as ([] & Hw & _). apply negb_false_iff, bool_decide_eq_true in Ht. split_and!; [by destruct (bk_Uncles block)|done|].
  destruct (WithdrawalsHash _), (bk_Withdrawals block); try done. by apply fail_if_ok, negb_false_iff, bool_decide_eq_true in Hw.
Qed.

Lemma ValidateState_receipts block st res : ValidateState block st (Some res) false = Ok () →
  listRoot (EncodeIndex <$> res.(rs_Receipts)) = Some (hash_bytes block.(bk_Header).(ReceiptHash))
  ∨ historicalBrokenPqReceiptRootBlocks !! NumberU64 block = Some (Header_Hash block.(bk_Header)).
Proof.
  intros E. unfold BlockValidator.ValidateState in E. destruct (HeaderMetadataFromExtra _); [|done]. apply bind_ok in E as (_ & _ & E).
  apply bind_ok in E as (_ & _ & E). apply bind_ok in E as (_ & _ & E). apply bind_ok in E as (_ & Hr%fail_if_ok & _).
  apply andb_false_iff in Hr as [Hr|Hr]; apply negb_false_iff in Hr; [left; by apply bool_decide_eq_true in Hr|right].
  unfold acceptHistoricalBrokenPqReceiptRoot in Hr. rewrite !andb_true_iff in Hr. destruct Hr as (((Hr & _) & _) & _). by apply bool_decide_eq_true in Hr.
Qed.

Definition withdrawals_ok (block : Block) : Prop := match block.(bk_Withdrawals) with Some ws => list_ok ws | None => True end.

(** C22: the header fixes the block.  Two blocks with the same header that pass the
    validator have no uncles, the same transactions in the same order and the same
    withdrawals, or exhibit a collision of Keccak; and two results of executing them
    that pass it have the same receipts, the two blocks of the chain's history with a
    broken receipt root apart. *)
Theorem header_fixes_block b b' st st' res res' :
  b.(bk_Header) = b'.(bk_Header) → ValidateBody b = Ok () → ValidateBody b' = Ok () →
  list_ok (bt_Encoding <$> b.(bk_Transactions)) → list_ok (bt_Encoding <$> b'.(bk_Transactions)) → withdrawals_ok b → withdrawals_ok b' →
  (b.(bk_Uncles) = [] ∧ b'.(bk_Uncles) = []
   ∧ bt_Encoding <$> b.(bk_Transactions) = bt_Encoding <$> b'.(bk_Transactions) ∧ b.(bk_Withdrawals) = b'.(bk_Withdrawals)
   ∨ collision keccak)
  ∧ (ValidateState b st (Some res) false = Ok () → ValidateState b' st' (Some res') false = Ok () →
     list_ok (EncodeIndex <$> res.(rs_Receipts)) → list_ok (EncodeIndex <$> res'.(rs_Receipts)) →
     EncodeIndex <$> res.(rs_Receipts) = EncodeIndex <$> res'.(rs_Receipts) ∨ collision keccak
     ∨ historicalBrokenPqReceiptRootBlocks !! NumberU64 b = Some (Header_Hash b.(bk_Header))).
Proof using HE HK.
  intros Eh E E' Ht Ht' Hw Hw'. split.
  - destruct (ValidateBody_roots b E) as (Hu & Rt & Rw). destruct (ValidateBody_roots b' E') as (Hu' & Rt' & Rw'). rewrite <- Eh in Rt', Rw'.
    destruct (listRoot_inj _ _ _ Ht Ht' Rt Rt') as [Et|]; [|by right]. unfold withdrawals_ok in *.
    destruct (WithdrawalsHash (bk_Header b)) as [h|], (bk_Withdrawals b) as [ws|], (bk_Withdrawals b') as [ws'|]; try done; [|by left].
    destruct (listRoot_inj _ _ _ Hw Hw' Rw Rw') as [->|]; [by left|by right].
  - intros S1 S2 H1 H2. apply ValidateState_receipts in S1 as [R1|]; [|by right; right]. apply ValidateState_receipts in S2 as [R2|Hh].
    + rewrite <- Eh in R2. destruct (listRoot_inj _ _ _ H1 H2 R1 R2) as [?|?]; [by left|by right; left].
    + right; right. unfold NumberU64 in *. by rewrite Eh.
Qed.

End Roots.
End BlockRoots.
