(* ===== verification/HeaderDemo.v ===== *)
(** * Headers to run the checks on

    Two blocks with certificates of a committee of one, a chain of two anchored headers,
    and a block with a transaction: the theorems of [Finality], [AnchorChain] and
    [BlockRoots] applied to them. *)

From S2P Require Import Prelude Bytes RLP RLPStream RLPTypes TrieNode TrieSpec Trie TrieMap StackTrie State ChainConfig ValidatorRegistry ValidatorStore ShieldedTree ShieldedDemo Oracle OracleDemo Headers BlockValidator HeaderFacts AnchorChain Finality BlockRoots.
Import RLP RLPStream RLPTypes TrieNode TrieSpec Trie TrieMap StackTrie ValidatorRegistry ValidatorStore Oracle OracleDemo Headers BlockValidator HeaderFacts AnchorChain Finality BlockRoots.

Module HeaderDemo.

#[local] Existing Instance RefUint256.
#[local] Existing Instance FlatWorldState.

(** A key is the address it belongs to and a zero. *)
#[global] Instance RelayKeys : PublicKeys := { PubkeyAddress key := head key; VerifySignature _ _ _ := true }.

#[global] Instance relay_keccak : Keccak256 keccak.
Proof. split; intros b; cbn [keccak RelayX]; [apply length_be_bytes|apply be_bytes_ok]. Qed.

Definition headerWith (parent : hash) (number time : Z) (extra : bytes) : Header :=
  {| ParentHash := parent; UncleHash := 1; Coinbase := 2; Root := 3; TxHash := 4; ReceiptHash := 5; Bloom := replicate BloomByteLength 0;
     Difficulty := Some 6; Number := Some number; GasLimit := 7; GasUsed := 0; Time := time; Extra := extra; MixDigest := 8; Nonce := replicate 8 0;
     BaseFee := Some 9; WithdrawalsHash := None; BlobGasUsed := None; ExcessBlobGas := None; ParentBeaconRoot := None; RequestsHash := None;
     BlockAccessListHash := None; SlotNumber := None |}.

Lemma headerWith_ok parent number time extra : is_hash parent → encodable headerType (headerVal (headerWith parent number time extra)) →
  header_ok (headerWith parent number time extra).
Proof. intros Hp He. assert (0 < 2 ^ 160 ∧ 0 < 2 ^ 256) by done. split; cbn; unfold is_hash, is_address in *; try done; lia. Qed.

(** A tree of strings. *)
Lemma strings_ok (bs : list bytes) : Forall (λ b, bytes_ok b ∧ Z.of_nat (length b) < two64) bs → Z.of_nat (length (concat (enc <$> (Str <$> bs)))) < two64 →
  item_ok (Lst (Str <$> bs)).
Proof. intros Hb Hl. constructor; [|done]. apply Forall_fmap. eapply Forall_impl; [done|]. intros b [? ?]. by constructor. Qed.

Definition stringsOf (i : item) : list bytes := match i with Lst l => (λ j, match j with Str b => b | Lst _ => [] end) <$> l | Str _ => [] end.

Lemma decoded_encodable ty v b : wf_type ty → bytes_ok b → Z.of_nat (length b) < two64 → DecodeBytes pooled b ty = Ok v →
  item_ok (canon ty v) → Z.of_nat (length (enc (canon ty v))) < two64 → encodable ty v.
Proof. intros Hw Hb Hl E Hok Hs. apply DecodeBytes_inv in E as (i & Hd & _); [|done..]. split; [by exists i|done]. Qed.

Ltac header_encodable :=
  match goal with |- encodable headerType ?v =>
    let b := eval vm_compute in (default [] (EncodeValue headerType v)) in
    apply (decoded_encodable headerType v b);
    [done|apply (bool_decide_unpack _); vm_compute; exact I|by vm_compute|by vm_compute| |by vm_compute];
    let c := eval vm_compute in (stringsOf (canon headerType v)) in
    replace (canon headerType v) with (Lst (Str <$> c)) by (by vm_compute);
    apply strings_ok; [apply (bool_decide_unpack _); vm_compute; exact I|by vm_compute]
  end.

(** ** Certificates *)

Definition certificateFor (header : Header) : FinalityCertificate :=
  {| fc_Slot := 10; fc_BlockHash := match HeaderFinalityDigest (ChainConfig.ChainID relayConfig) header with Ok d => d | Err _ => 0 end;
     fc_CommitteeSize := 1; fc_Signers := [7]; fc_PublicKeys := [[7; 0]]; fc_Signatures := [replicate 65 0] |}.

Definition finalBlock (extra : bytes) : Block :=
  let header := headerWith 11 10 relayTime extra in
  {| bk_Header := setExtra header (match AttachFinalityCertificate extra (certificateFor header) with Ok e => e | Err _ => [] end);
     bk_Size := 1000; bk_Transactions := []; bk_Uncles := []; bk_Withdrawals := None |}.

Definition finalA : Block := Eval vm_compute in finalBlock (str "a").
Definition finalB : Block := Eval vm_compute in finalBlock (str "b").
Definition emptyResult : ProcessResult := {| rs_Receipts := []; rs_Requests := None; rs_GasUsed := 0; rs_ConflictTranscript := 0 |}.
Definition certA : FinalityCertificate := Eval vm_compute in certificateFor (headerWith 11 10 relayTime (str "a")).
Definition certB : FinalityCertificate := Eval vm_compute in certificateFor (headerWith 11 10 relayTime (str "b")).

Example finalA_valid : ValidateState relayConfig (λ _, None) (λ _ _, 0) finalA (Some relayState) (Some emptyResult) true = Ok ().
Proof. vm_compute. reflexivity. Qed.
Example finalB_valid : ValidateState relayConfig (λ _, None) (λ _ _, 0) finalB (Some relayState) (Some emptyResult) true = Ok ().
Proof. vm_compute. reflexivity. Qed.
Example signedA : signedHeader finalA.(bk_Header) = headerWith 11 10 relayTime (str "a").
Proof. vm_compute. reflexivity. Qed.
Example signedB : signedHeader finalB.(bk_Header) = headerWith 11 10 relayTime (str "b").
Proof. vm_compute. reflexivity. Qed.

Lemma plainA_ok : header_ok (headerWith 11 10 relayTime (str "a")).
Proof. apply headerWith_ok; [by unfold is_hash|]. header_encodable. Qed.
Lemma plainB_ok : header_ok (headerWith 11 10 relayTime (str "b")).
Proof. apply headerWith_ok; [by unfold is_hash|]. header_encodable. Qed.

(** The validator signed both blocks. *)
Lemma finality_accountable_witness :
  ∃ dA dB (both : list address), HeaderFinalityDigest (ChainConfig.ChainID relayConfig) finalA.(bk_Header) = Ok dA
    ∧ HeaderFinalityDigest (ChainConfig.ChainID relayConfig) finalB.(bk_Header) = Ok dB ∧ 1 <= 3 * Z.of_nat (length both).
Proof.
  destruct (finality_accountable relayConfig (λ _, None) (λ _ _, 0) finalA finalB relayState relayState (Some emptyResult) (Some emptyResult) true true
    certA certB [relayValidator]) as (dA & dB & both & H1 & H2 & _ & H3 & _).
  - exact finalA_valid.
  - exact finalB_valid.
  - vm_compute. reflexivity.
  - vm_compute. reflexivity.
  - vm_compute. reflexivity.
  - vm_compute. reflexivity.
  - rewrite signedA. exact plainA_ok.
  - rewrite signedB. exact plainB_ok.
  - exists dA, dB, both. split_and!; [exact H1|exact H2|exact H3].
Defined.

(** ** Anchors *)

Definition oldParent : Header := headerWith 11 8 1 (str "old").
Definition anchorOf (height : Z) (h rolling : hash) : bytes := encodeAnchor {| an_Height := height; an_Hash := h; an_Rolling := rolling |}.
Definition firstHash : hash := Eval vm_compute in Header_Hash oldParent.
Definition firstRolling : hash := Eval vm_compute in BlockHashAnchorCommitment 0 8 firstHash.
Definition firstAnchored : Header := Eval vm_compute in headerWith firstHash 9 relayTime (anchorOf 8 firstHash firstRolling).
Definition secondHash : hash := Eval vm_compute in Header_Hash firstAnchored.
Definition secondAnchored : Header :=
  Eval vm_compute in headerWith secondHash 10 relayTime (str "x" ++ anchorOf 9 secondHash (BlockHashAnchorCommitment firstRolling 9 secondHash)).
Definition anchorDb (h : hash) (n : Z) : option Header := if n =? 8 then Some oldParent else if n =? 9 then Some firstAnchored else None.

Lemma second_accepted : accepted relayConfig anchorDb secondAnchored 10 [secondHash; firstHash].
Proof.
  apply (accepted_next relayConfig anchorDb secondAnchored 10 [] firstAnchored [firstHash]); [by split|by vm_compute|by vm_compute|by vm_compute|by vm_compute|].
  apply (accepted_first relayConfig anchorDb firstAnchored 9 [] oldParent); [by split|by vm_compute..].
Qed.

Definition secondAnchor : BlockHashAnchor :=
  Eval vm_compute in {| an_Height := 9; an_Hash := secondHash; an_Rolling := BlockHashAnchorCommitment firstRolling 9 secondHash |}.

(** The anchor of the second header commits to both ancestors. *)
Lemma anchor_commits_ancestry_witness :
  secondAnchor = {| an_Height := 10 - 1; an_Hash := secondHash; an_Rolling := rollingOf (10 - 1) [secondHash; firstHash] |}.
Proof.
  apply (anchor_commits_ancestry relayConfig relayConfig anchorDb anchorDb secondAnchored secondAnchored 10 [secondHash; firstHash] [secondHash; firstHash]
    secondAnchor secondAnchor); [exact second_accepted|exact second_accepted|vm_compute; reflexivity|vm_compute; reflexivity].
Defined.

Definition anchoredBlock : Block :=
  {| bk_Header := secondAnchored; bk_Size := 1000; bk_Transactions := []; bk_Uncles := []; bk_Withdrawals := None |}.

(** The accepted header carries no certificate. *)
Lemma anchored_header_bare_witness :
  verifyBlockHashAnchor relayConfig anchorDb secondAnchored [] = Ok () ∧ ∀ c, DecodeFinalityCertificateFromHeaderExtra secondAnchored.(Extra) ≠ Ok (Some c).
Proof.
  assert (E : verifyBlockHashAnchor relayConfig anchorDb secondAnchored [] = Ok ()) by (vm_compute; reflexivity). split; [exact E|].
  apply (anchored_header_bare relayConfig (λ _, None) (λ _ _, 0) anchorDb [] 10 anchoredBlock (Some relayState) None false);
    [apply (bool_decide_unpack _); vm_compute; exact I|reflexivity|vm_compute; reflexivity|exact E].
Defined.

(** ** A body *)

Definition ToyX : Externals := {|
  Sender _ _ _ _ := Some 7;
  VerifyMLDSA87 _ _ _ := true;
  MLDSA87PublicKeySize := 1;
  ValidatorRegistry.keccak := toyHash;
  sha256 := toyHash;
  sha512 := toyHash;
  pooled := pooled;
|}.

Definition rootOf (l : list bytes) : hash := match DeriveSha toyHash l NewStackTrie with Some r => be_value r | None => 0 end.
Definition bodyTx : BodyTx := {| bt_Encoding := [1; 2]; bt_BlobHashes := []; bt_Sidecar := false |}.
Definition bodyReceipt : Receipt :=
  {| rc_Type := 2; rc_PostState := []; rc_Status := 1; rc_CumulativeGasUsed := 0; rc_Bloom := replicate BloomByteLength 0; rc_Logs := [] |}.

Definition bodyHeader : Header := Eval vm_compute in
  {| ParentHash := 11; UncleHash := @CalcUncleHash ToyX []; Coinbase := 2; Root := 3; TxHash := rootOf [[1; 2]];
     ReceiptHash := rootOf [EncodeIndex bodyReceipt]; Bloom := replicate BloomByteLength 0;
     Difficulty := Some 6; Number := Some 10; GasLimit := 7; GasUsed := 0; Time := relayTime; Extra := []; MixDigest := 8; Nonce := replicate 8 0;
     BaseFee := Some 9; WithdrawalsHash := Some (rootOf [[3]]); BlobGasUsed := None; ExcessBlobGas := None; ParentBeaconRoot := None;
     RequestsHash := None; BlockAccessListHash := None; SlotNumber := None |}.
Definition bodyBlock : Block :=
  {| bk_Header := bodyHeader; bk_Size := 1000; bk_Transactions := [bodyTx]; bk_Uncles := []; bk_Withdrawals := Some [[3]] |}.
Definition bodyResult : ProcessResult := {| rs_Receipts := [bodyReceipt]; rs_Requests := None; rs_GasUsed := 0; rs_ConflictTranscript := 0 |}.

(** The block with itself. *)
Lemma header_fixes_block_witness :
  bt_Encoding <$> bodyBlock.(bk_Transactions) = [[1; 2]]
  ∧ (bodyBlock.(bk_Uncles) = [] ∧ bodyBlock.(bk_Uncles) = [] ∧ bt_Encoding <$> bodyBlock.(bk_Transactions) = bt_Encoding <$> bodyBlock.(bk_Transactions)
     ∧ bodyBlock.(bk_Withdrawals) = bodyBlock.(bk_Withdrawals) ∨ collision toyHash).
Proof.
  assert (E : @ValidateBody ToyX relayConfig (λ _ n, n =? 9) (λ _ _, true) bodyBlock = Ok ()) by (vm_compute; reflexivity).
  assert (HE : toyHash EmptyString = EmptyRootHash) by (vm_compute; reflexivity).
  assert (Ht : list_ok (bt_Encoding <$> bodyBlock.(bk_Transactions))) by (split; [vm_compute; reflexivity|apply (bool_decide_unpack _); vm_compute; exact I]).
  assert (Hw : withdrawals_ok bodyBlock) by (split; [vm_compute; reflexivity|apply (bool_decide_unpack _); vm_compute; exact I]).
  pose proof (@header_fixes_block ToyX RelayKeys _ flatState _ toyHash_ok HE relayConfig (λ _ n, n =? 9) (λ _ _, true) (λ _, None) (λ _ _, 3)
    bodyBlock bodyBlock (Some relayState) (Some relayState) bodyResult bodyResult eq_refl E E Ht Ht Hw Hw) as [H _].
  split; [reflexivity|exact H].
Defined.

(** Its execution passes the validator. *)
Example body_executed :
  @ValidateState ToyX RelayKeys _ flatState _ relayConfig (λ _, None) (λ _ _, 3) bodyBlock (Some relayState) (Some bodyResult) false = Ok ().
Proof. vm_compute. reflexivity. Qed.

End HeaderDemo.
