(* ===== verification/RewardTail.v ===== *)
(** * The reward tail of a block

    [core/state_processor.go]: the reward transactions at the end of a block, which
    [processBlockRewardTxs] compares with those the engine expects before the engine pays
    them ([Rewards.distributeBodyRewardTransactions]). *)

From S2P Require Import Prelude Bytes RLPTypes State Emission ChainConfig Rewards ValidatorRegistry BlockValidator.
Import Emission.RandomX Emission.Antartical Rewards ValidatorRegistry BlockValidator.

Module RewardTail.

(** ** Definitions *)

Definition ReceiptStatusSuccessful : Z := 1.

Inductive tailError :=
| ErrTailValidator (e : vError)
| ErrTailValidatorCount (have : nat)
| ErrTailCount (have want : nat)
| ErrTailTransaction (i : nat)
| ErrTailInvalid
| ErrTailBaseCount.

(** What the processor reads of [params.ChainConfig]: the fork schedule, whether RandomX
    is configured, and the kings the configuration lists. *)
Record TailConfig := {
  tc_chain : ChainConfig.ChainConfig;
  tc_RandomX : bool;
  tc_RotatingKingAddresses : list address;
}.

Definition rewardTxReceipts (txs : list Transaction) (cumulativeGas : Z) : list Receipt :=
  (λ tx, {| rc_Type := tx.(tx_Type); rc_PostState := []; rc_Status := ReceiptStatusSuccessful; rc_CumulativeGasUsed := cumulativeGas;
            rc_Bloom := replicate 256 0; rc_Logs := [] |}) <$> txs.

Definition acceptNoRotatingKingRewardTail (c : TailConfig) (txs : list Transaction) : bool :=
  if negb c.(tc_RandomX) || bool_decide (ChainConfig.MainKingAddress c.(tc_chain) = zeroAddress) || negb (length c.(tc_RotatingKingAddresses) =? 0)%nat
     || (length txs =? 0)%nat then false
  else forallb (λ tx, IsBlockRewardTx (Some tx)) txs.

(** The loop counts [halvings] down and stops below one coin. *)
Fixpoint legacyHalvings (halvings : nat) (reward : Z) : Z :=
  match halvings with
  | O => reward
  | S halvings => let reward := reward / 2 in if reward <? oneTKM then 0 else legacyHalvings halvings reward
  end.

Definition legacyRandomXBlockReward (blockNumber : Z) : Z :=
  let blocksPerHalving := 4 * 365 * 24 * 60 * 60 / 120 in
  legacyHalvings (Z.to_nat (blockNumber / blocksPerHalving)) (200 * oneTKM).

Definition legacyNoRotatingKingRewardTransactions (c : TailConfig) (header : Header) : list Transaction :=
  let mainKing := ChainConfig.MainKingAddressAt c.(tc_chain) header.(Number) header.(Time) in
  if negb c.(tc_RandomX) || bool_decide (mainKing = zeroAddress) || negb (length c.(tc_RotatingKingAddresses) =? 0)%nat then []
  else
    let blockNumber := u64 header.(Number) in
    let blockReward := legacyRandomXBlockReward blockNumber in
    if blockReward =? 0 then []
    else
      let mainKingReward := blockReward * 10 / 100 in
      let rotatingKingReward := blockReward * 40 / 100 in
      let minerReward := blockReward - (mainKingReward + rotatingKingReward) in
      [NewBlockRewardTx blockNumber BlockRewardMainKing mainKing (Some mainKingReward);
       NewBlockRewardTx blockNumber BlockRewardRotatingKing zeroAddress (Some rotatingKingReward);
       NewBlockRewardTx blockNumber BlockRewardMiner header.(Coinbase) (Some minerReward)].

Section Tail.
Context {X : Externals} {U : Uint256} {S : Type} {W : WorldState S} (txHash : Transaction → hash).

Definition sameLength (txs c : list Transaction) : bool := (length c =? length txs)%nat.

(** [txs[i].Hash() == candidate[i].Hash()] *)
Definition sameAt (txs c : list Transaction) (i : nat) : bool :=
  match txs !! i, c !! i with Some t, Some t' => txHash t =? txHash t' | _, _ => false end.

Definition matchingMixedRewardTransactions (txs : list Transaction) (candidates : list (list Transaction)) : option (list Transaction) :=
  match List.find (sameLength txs) candidates with
  | None => None
  | Some expected =>
      if forallb (λ i, existsb (λ c, sameLength txs c && sameAt txs c i) candidates) (seq 0 (length txs)) then Some expected else None
  end.

(** The first index at which the hashes differ. *)
Definition firstMismatch (txs expected : list Transaction) : option nat :=
  List.find (λ i, negb (sameAt txs expected i)) (seq 0 (length expected)).

Definition matchingRewardTransactions (txs : list Transaction) (candidates : list (list Transaction)) : result tailError (list Transaction) :=
  match List.find (λ c, negb (length c =? 0)%nat && sameRewardTransactions txHash txs c) candidates with
  | Some candidate => Ok candidate
  | None =>
      match matchingMixedRewardTransactions txs candidates with
      | Some mixed => Ok mixed
      | None =>
          match List.find (λ c, negb (length c =? 0)%nat) candidates with
          | None => Err (ErrTailCount (length txs) 0)
          | Some expected =>
              if negb (length txs =? length expected)%nat then Err (ErrTailCount (length txs) (length expected))
              else match firstMismatch txs expected with Some i => Err (ErrTailTransaction i) | None => Err ErrTailInvalid end
          end
      end
  end.

(** The loop over the tail: the other transactions and the number of validator rewards. *)
Fixpoint splitTail (st : S) (header : option (Z * hash)) (txs base : list Transaction) (validatorRewards : nat)
    : result tailError (list Transaction * nat) :=
  match txs with
  | [] => Ok (base, validatorRewards)
  | tx :: txs =>
      if IsValidatorRewardTx (Some tx) then
        match ValidateValidatorRewardTransaction st header (Some tx) with
        | Err e => Err (ErrTailValidator e)
        | Ok _ => splitTail st header txs base (validatorRewards + 1)
        end
      else splitTail st header txs (base ++ [tx]) validatorRewards
  end.

(** The candidates of the RandomX engine and the processor's own. *)
Definition tailCandidates (c : TailConfig) (rx : Engine) (rk : address) (header : Header) : list (list Transaction) :=
  let candidates := CompatibleRewardTransactions txHash rx rk header in
  let legacy := legacyNoRotatingKingRewardTransactions c header in
  if (0 <? length legacy)%nat then candidates ++ [legacy] else candidates.

Definition processBlockRewardTxs (c : TailConfig) (rx : Engine) (rk : address) (txs : list Transaction) (header : Header) (parentHash : hash)
    (cumulativeGas : Z) (st : S) : result tailError (list Receipt) :=
  '(base, validatorRewards) ← splitTail st (Some (header.(Number), parentHash)) txs [] 0;
  match ActiveValidatorRecords st (u64 header.(Number)) with
  | Err e => Err (ErrTailValidator e)
  | Ok active =>
      _ ← fail_if ((0 <? length active)%nat && negb (validatorRewards =? 1)%nat) (ErrTailValidatorCount validatorRewards);
      _ ← fail_if ((length active =? 0)%nat && negb (validatorRewards =? 0)%nat) (ErrTailValidator ErrValidatorRewardInvalid);
      if acceptNoRotatingKingRewardTail c base then Ok (rewardTxReceipts txs cumulativeGas)
      else
        expected ← matchingRewardTransactions base (tailCandidates c rx rk header);
        _ ← fail_if (negb (length expected =? length base)%nat) ErrTailBaseCount;
        Ok (rewardTxReceipts txs cumulativeGas)
  end.
End Tail.

(** ** Acceptance *)

Section Accept.
Context {X : Externals} {U : Uint256} {S : Type} {W : WorldState S} (txHash : Transaction → hash).

(** The tail without its validator rewards. *)
Definition baseOf (txs : list Transaction) : list Transaction := filter (λ tx, IsValidatorRewardTx (Some tx) = false) txs.
Definition validatorsOf (txs : list Transaction) : list Transaction := filter (λ tx, IsValidatorRewardTx (Some tx) = true) txs.

Lemma splitTail_spec st h txs base n : 
  splitTail st h txs base n = Ok (base ++ baseOf txs, (n + length (validatorsOf txs))%nat)
    ∧ Forall (λ tx, ValidateValidatorRewardTransaction st h (Some tx) = Ok ()) (validatorsOf txs)
  ∨ (∃ e, splitTail st h txs base n = Err e) ∧ ¬ Forall (λ tx, ValidateValidatorRewardTransaction st h (Some tx) = Ok ()) (validatorsOf txs).
Proof.
  revert base n. induction txs as [|tx txs IH]; intros base n.
  { left. cbn. rewrite app_nil_r, Nat.add_0_r. by repeat constructor. }
  unfold baseOf, validatorsOf in *. cbn [splitTail]. rewrite !filter_cons. destruct (IsValidatorRewardTx (Some tx)) eqn:Ev.
  - rewrite decide_False, decide_True by done. destruct (ValidateValidatorRewardTransaction _ _ _) as [[]|e] eqn:Ed.
    + destruct (IH base (n + 1)%nat) as [[E HF]|[E HF]]; [left|right]; cbn [length].
      * split; [rewrite E; do 2 f_equal; lia|by constructor].
      * split; [done|]. by intros [_ ?]%Forall_cons.
    + right. split; [by eexists|]. intros [? _]%Forall_cons. congruence.
  - rewrite decide_True, decide_False by done. destruct (IH (base ++ [tx]) n) as [[E HF]|[E HF]]; [left|by right].
    split; [|done]. by rewrite E, <- app_assoc.
Qed.

(** Each transaction has the hash of the one that some candidate of this length has in
    its place. *)
Definition matchesMixed (txs : list Transaction) (candidates : list (list Transaction)) : Prop :=
  (∃ c, c ∈ candidates ∧ length c = length txs)
  ∧ ∀ i t, txs !! i = Some t → ∃ c t', c ∈ candidates ∧ length c = length txs ∧ c !! i = Some t' ∧ txHash t = txHash t'.

Lemma sameLength_spec txs c : sameLength txs c = true ↔ length c = length txs.
Proof. apply Nat.eqb_eq. Qed.

Lemma same_at txs c : sameRewardTransactions txHash txs c = true ↔ length c = length txs ∧ ∀ i t t', txs !! i = Some t → c !! i = Some t' → txHash t = txHash t'.
Proof.
  revert c. induction txs as [|t txs IH]; intros [|t' c]; cbn; try (by split; [done|intros [? _]]).
  rewrite andb_true_iff, Z.eqb_eq, IH. split.
  - intros (Ht & Hl & H). split; [lia|]. intros [|i] u u'; cbn; [by intros [= <-] [= <-]|apply H].
  - intros (Hl & H). split_and!; [by apply (H O)|lia|]. intros i u u'. apply (H (Datatypes.S i)).
Qed.

Lemma find_some_iff {A} (f : A → bool) l : (∃ x, List.find f l = Some x) ↔ ∃ x, x ∈ l ∧ f x = true.
Proof.
  split.
  - intros [x [Hx Hf]%List.find_some]. exists x. by rewrite list_elem_of_In.
  - intros (x & Hx%list_elem_of_In & Hf). destruct (List.find f l) as [y|] eqn:E; [by eexists|]. by rewrite (List.find_none _ _ E x Hx) in Hf.
Qed.

Lemma mixed_spec txs candidates : (∃ m, matchingMixedRewardTransactions txHash txs candidates = Some m) ↔ matchesMixed txs candidates.
Proof.
  unfold matchingMixedRewardTransactions, matchesMixed.
  assert (Hall : forallb (λ i, existsb (λ c, sameLength txs c && sameAt txHash txs c i) candidates) (seq 0 (length txs)) = true
    ↔ ∀ i t, txs !! i = Some t → ∃ c t', c ∈ candidates ∧ length c = length txs ∧ c !! i = Some t' ∧ txHash t = txHash t').
  { rewrite forallb_forall. split.
    - intros H i t Ht. pose proof (lookup_lt_Some _ _ _ Ht) as Hi. specialize (H i ltac:(apply in_seq; lia)).
      apply existsb_exists in H as (c & Hc & [Hl%sameLength_spec Hs]%andb_true_iff). unfold sameAt in Hs. rewrite Ht in Hs.
      destruct (c !! i) as [t'|] eqn:Ec; [|done]. exists c, t'. rewrite list_elem_of_In. split_and!; try done. by apply Z.eqb_eq.
    - intros H i [_ Hi]%in_seq. destruct (lookup_lt_is_Some_2 txs i Hi) as [t Ht]. destruct (H i t Ht) as (c & t' & Hc & Hl & Ec & Eh).
      apply existsb_exists. exists c. rewrite <- list_elem_of_In. split; [done|]. apply andb_true_iff. split; [by apply sameLength_spec|].
      unfold sameAt. rewrite Ht, Ec. by apply Z.eqb_eq. }
  rewrite <- Hall. setoid_rewrite <- sameLength_spec. rewrite <- find_some_iff. destruct (List.find (sameLength txs) candidates) as [e|].
  - destruct (forallb _ _); split.
    + intros _. split; [by eexists|done].
    + intros _. by eexists.
    + by intros [? [=]].
    + by intros [_ ?].
  - split; [by intros [? [=]]|by intros [[? [=]] _]].
Qed.

Lemma find_exact txs candidates c :
  List.find (λ c, negb (length c =? 0)%nat && sameRewardTransactions txHash txs c) candidates = Some c → length c = length txs ∧ matchesMixed txs candidates.
Proof.
  intros [Hc [_ Hs]%andb_true_iff]%List.find_some. apply same_at in Hs as [Hl Hs]. rewrite <- list_elem_of_In in Hc. split; [done|].
  split; [by exists c|]. intros i t Ht. destruct (lookup_lt_is_Some_2 c i) as [t' Ht']; [rewrite Hl; by eapply lookup_lt_Some|].
  exists c, t'. split_and!; eauto.
Qed.

Lemma matching_spec txs candidates : (∃ e, matchingRewardTransactions txHash txs candidates = Ok e ∧ length e = length txs) ↔ matchesMixed txs candidates.
Proof.
  unfold matchingRewardTransactions. destruct (List.find _ candidates) as [c|] eqn:Ef.
  { apply find_exact in Ef as [Hl Hm]. split; [done|]. intros _. by exists c. }
  rewrite <- mixed_spec. destruct (matchingMixedRewardTransactions _ _ _) as [m|] eqn:Em.
  - split; [by eexists|]. intros _. exists m. split; [done|]. unfold matchingMixedRewardTransactions in Em.
    destruct (List.find (sameLength txs) candidates) as [e|] eqn:Es; [|done]. apply List.find_some in Es as [_ Es]. apply sameLength_spec in Es.
    destruct (forallb _ _); [|done]. by injection Em as <-.
  - split; [|by intros [? [=]]]. intros (e & E & _). repeat case_match; done.
Qed.

(** A configuration that names a main king and lists no rotating kings. *)
Definition kingless (c : TailConfig) : Prop :=
  c.(tc_RandomX) = true ∧ ChainConfig.MainKingAddress c.(tc_chain) ≠ zeroAddress ∧ c.(tc_RotatingKingAddresses) = [].

Lemma accept_spec c txs : acceptNoRotatingKingRewardTail c txs = true ↔ kingless c ∧ txs ≠ [] ∧ Forall (λ tx, IsBlockRewardTx (Some tx) = true) txs.
Proof.
  unfold acceptNoRotatingKingRewardTail, kingless.
  destruct c.(tc_RandomX); cbn [negb orb]; [|split; [done|by intros [[? _] _]]]. case_bool_decide as Hm; cbn [orb]; [split; [done|by intros [(_ & ? & _) _]]|].
  destruct c.(tc_RotatingKingAddresses); cbn [length Nat.eqb negb orb]; [|split; [done|by intros [(_ & _ & ?) _]]].
  destruct txs as [|t txs]; cbn [length Nat.eqb]; [split; [done|by intros (_ & ? & _)]|]. rewrite forallb_forall, List.Forall_forall. naive_solver.
Qed.

(** The validator rewards of a tail: each is the one the registry prescribes, and there
    is one exactly when validators are active. *)
Definition validatorsRewarded (st : S) (header : Header) (parentHash : hash) (txs : list Transaction) : Prop :=
  Forall (λ tx, ValidateValidatorRewardTransaction st (Some (header.(Number), parentHash)) (Some tx) = Ok ()) (validatorsOf txs)
  ∧ ∃ active, ActiveValidatorRecords st (u64 header.(Number)) = Ok active ∧ length (validatorsOf txs) = if decide (active = []) then 0%nat else 1%nat.

(** The reward tail of a block is accepted exactly when its validator rewards are
    those of the registry and either the configuration lists no rotating kings, in which
    case any reward transactions pass, or every other transaction is, by its hash, the one
    that a reward list of the engine of the same length has in its place. *)
Lemma processBlockRewardTxs_spec c rx rk txs header parentHash gas st rs :
  processBlockRewardTxs txHash c rx rk txs header parentHash gas st = Ok rs ↔
  rs = rewardTxReceipts txs gas ∧ validatorsRewarded st header parentHash txs
  ∧ (kingless c ∧ baseOf txs ≠ [] ∧ Forall (λ tx, IsBlockRewardTx (Some tx) = true) (baseOf txs) ∨ matchesMixed (baseOf txs) (tailCandidates txHash c rx rk header)).
Proof.
  unfold processBlockRewardTxs, validatorsRewarded. rewrite <- accept_spec, <- matching_spec.
  destruct (splitTail_spec st (Some (Number header, parentHash)) txs [] 0) as [[-> HF]|[[e ->] HF]]; [|split; [done|naive_solver]].
  cbn [mbind result_bind app Nat.add]. cbv iota. set (v := length (validatorsOf txs)). destruct (ActiveValidatorRecords _ _) as [active|e]; [|split; [done|naive_solver]].
  setoid_rewrite bind_ok. setoid_rewrite fail_if_ok. split.
  - intros (_ & H1 & E). apply bind_ok in E as (_ & H2%fail_if_ok & E).
    assert (Hv : v = if decide (active = []) then 0%nat else 1%nat).
    { destruct active; cbn in H1, H2; [rewrite decide_True by done|rewrite decide_False by done]; apply negb_false_iff, Nat.eqb_eq in H2 || apply negb_false_iff, Nat.eqb_eq in H1; done. }
    destruct (acceptNoRotatingKingRewardTail c (baseOf txs)); [apply Ok_inj in E as <-; split_and!; eauto|].
    apply bind_ok in E as (expected & Em & E). apply bind_ok in E as (_ & Hl%fail_if_ok & E). apply Ok_inj in E as <-.
    apply negb_false_iff, Nat.eqb_eq in Hl. split_and!; eauto.
  - intros (-> & (_ & active' & Ea & Hv) & Hm). apply Ok_inj in Ea as <-. exists (). split; [destruct active; [done|]; cbn; by rewrite Hv|].
    apply bind_ok. exists (). rewrite fail_if_ok. split; [destruct active; [by rewrite Hv|done]|].
    destruct (acceptNoRotatingKingRewardTail c (baseOf txs)); [done|]. destruct Hm as [?|(e & -> & Hl)]; [done|]. cbn. by rewrite Hl, Nat.eqb_refl.
Qed.
End Accept.

(** ** What an accepted tail mints *)

Section Mint.
Context {X : Externals} {U : Uint256} {S : Type} {W : WorldState S} (txHash : Transaction → hash).

Lemma payRewardTx_mints rx (s : S) tx : 0 <= tx.(tx_Value) < two256 →
  ∃ l, payRewardTx rx s tx = Ok (credit s l) ∧ credits_ok l ∧ credit_total l <= tx.(tx_Value).
Proof.
  intros Hv. unfold payRewardTx. assert (Hnil : ∃ l, Ok s = Ok (E := panic) (credit s l) ∧ credits_ok l ∧ credit_total l <= tx.(tx_Value)).
  { exists []. split_and!; [done|constructor|cbn; lia]. }
  destruct tx.(tx_To) as [to|]; [|done]. destruct (tx.(tx_Value) =? 0); [done|]. case_decide; [done|].
  rewrite pay_ok by done. eexists. split_and!; [done|repeat constructor; lia|cbn; lia].
Qed.

Lemma pay_tail rx (s : S) txs : Forall (λ tx, 0 <= tx.(tx_Value) < two256) txs →
  ∃ l, foldl (λ acc tx, s ← acc; payRewardTx rx s tx) (Ok s) txs = Ok (credit s l) ∧ credits_ok l ∧ credit_total l <= zsum tx_Value txs.
Proof.
  revert s. induction txs as [|tx txs IH]; intros s HF.
  { exists []. split_and!; [done|constructor|done]. }
  apply Forall_cons in HF as [Hv HF]. destruct (payRewardTx_mints rx s tx Hv) as (l & El & Ol & Tl). destruct (IH (credit s l) HF) as (l' & El' & Ol' & Tl').
  exists (l ++ l'). cbn [foldl]. change (Ok s ≫= ?f) with (f s). cbv beta. rewrite El, El', credit_app. split; [done|].
  split; [by apply Forall_app|]. rewrite credit_total_app, zsum_cons. lia.
Qed.

Lemma tail_split f txs : zsum f txs = zsum f (baseOf txs) + zsum f (validatorsOf txs).
Proof.
  induction txs as [|tx txs IH]; [done|]. unfold baseOf, validatorsOf in *. rewrite !filter_cons. destruct (IsValidatorRewardTx (Some tx)).
  - rewrite decide_False, decide_True by done. rewrite !zsum_cons. lia.
  - rewrite decide_True, decide_False by done. rewrite !zsum_cons. lia.
Qed.

Lemma tail_forall (P : Transaction → Prop) txs : Forall P (baseOf txs) → Forall P (validatorsOf txs) → Forall P txs.
Proof.
  rewrite !Forall_forall. intros Hb Hv tx Htx. destruct (IsValidatorRewardTx (Some tx)) eqn:E.
  - apply Hv, list_elem_of_filter. done.
  - apply Hb, list_elem_of_filter. done.
Qed.

(** What a tail without rewards before it is paid. *)
Lemma distribute_tail rx (s : S) front txs : no_rewards front → txs ≠ [] → Forall (λ tx, IsBlockRewardTx (Some tx) = true) txs →
  distributeBodyRewardTransactions rx s (front ++ txs) = Some (foldl (λ acc tx, s ← acc; payRewardTx rx s tx) (Ok s) txs).
Proof.
  intros Hf Hne Hr. unfold distributeBodyRewardTransactions. rewrite rewardSuffix_app by done. destruct txs as [|tx txs]; [done|].
  cbn [rewardSuffix]. pose proof (Forall_inv Hr) as Ht. cbv beta in Ht. rewrite Ht.
  assert (forallb (λ tx, IsBlockRewardTx (Some tx)) (tx :: txs) = true) as -> by (rewrite forallb_forall; by apply List.Forall_forall). done.
Qed.

(** The shares of a block without the validator's. *)
Definition baseShares (number : Z) : Z :=
  let sh := RewardSharesAt number RandomX.DefaultBlocksPerHalving in default 0 sh.(MainKing) + default 0 sh.(Rotating) + default 0 sh.(Miner).
Definition validatorShare (number : Z) : Z := default 0 (RewardSharesAt number RandomX.DefaultBlocksPerHalving).(Validator).

Lemma share_range number : 0 <= validatorShare number < two256 ∧ 0 <= baseShares number.
Proof.
  unfold validatorShare, baseShares. change RandomX.DefaultBlocksPerHalving with RandomX.BlocksPerHalving. rewrite RewardSharesAt_period.
  set (k := Z.to_nat _). unfold sharesAfter. cbn [Validator MainKing Rotating Miner default from_option id].
  assert (Hp : 0 < 2 ^ Z.of_nat k) by (apply Z.pow_pos_nonneg; lia).
  assert (Hc : ∀ x, 0 <= x → 0 <= x / 2 ^ Z.of_nat k <= x).
  { intros x Hx. split; [by apply Z.div_pos|]. apply Z.div_le_upper_bound; [lia|]. nia. }
  pose proof (Hc (70 * oneTKM) ltac:(done)). pose proof (Hc (90 * oneTKM) ltac:(done)). pose proof (Hc (35 * oneTKM) ltac:(done)). pose proof (Hc (5 * oneTKM) ltac:(done)).
  assert (70 * oneTKM < two256) by done. lia.
Qed.

Lemma shareMarkers_total n sh : shares_ok sh →
  Forall (λ tx, 0 <= tx.(tx_Value) < two256) (markerTxs n (shareMarkers sh))
  ∧ zsum tx_Value (markerTxs n (shareMarkers sh)) <= sh.(sh_mainKingReward) + sh.(sh_rotatingKingReward) + sh.(sh_minerReward).
Proof.
  intros (?&?&?). unfold shareMarkers, markerTxs. repeat case_match; cbn; (split; [repeat constructor; cbn; lia|lia]).
Qed.

Lemma antartical_base rx rk header : antarticalActive rx header = true →
  Forall (λ tx, IsBlockRewardTx (Some tx) = true ∧ 0 <= tx.(tx_Value) < two256) (RewardTransactions rx rk header)
  ∧ zsum tx_Value (RewardTransactions rx rk header) <= baseShares header.(Number).
Proof.
  intros Ha. rewrite RewardTransactions_markers. set (sh := rewardMarkerShares _ _ _ _).
  assert (Hsh : shares_ok sh ∧ sh.(sh_mainKingReward) + sh.(sh_rotatingKingReward) + sh.(sh_minerReward) <= baseShares header.(Number)).
  { unfold sh, rewardMarkerShares. rewrite Ha. case_match; [cbn; pose proof (share_range header.(Number)); split; [by repeat split|lia]|].
    split; [apply antarticalSplit_ok|]. unfold antarticalSplit, baseShares. cbv zeta.
    repeat case_decide; cbn [sh_mainKingReward sh_rotatingKingReward sh_minerReward mkShares]; lia. }
  destruct Hsh as [Hok Hle]. destruct (shareMarkers_total header.(Number) sh Hok) as [HF Ht]. split; [|lia].
  rewrite Forall_forall in HF |- *. intros tx Htx. split; [|by apply HF].
  pose proof (markerTxs_reward header.(Number) (shareMarkers sh)) as Hr. rewrite forallb_forall in Hr. by apply Hr, list_elem_of_In.
Qed.

Lemma validator_paid st h ph tx : ValidateValidatorRewardTransaction st (Some (h, ph)) (Some tx) = Ok () →
  IsBlockRewardTx (Some tx) = true ∧ tx.(tx_Value) = validatorShare (u64 h).
Proof.
  unfold ValidateValidatorRewardTransaction. destruct (IsValidatorRewardTx (Some tx)) eqn:Ev; [|done]. cbn [negb]. intros E.
  apply bind_ok in E as (r & _ & [_ Hv%negb_false_iff%Z.eqb_eq]%fail_if_ok%orb_false_iff). split; [|done].
  unfold IsValidatorRewardTx, BlockRewardKind in Ev. by destruct (IsBlockRewardTx (Some tx)).
Qed.

Lemma antartical_candidates c rx rk header : c.(tc_RotatingKingAddresses) ≠ [] → antarticalActive rx header = true →
  tailCandidates txHash c rx rk header = [RewardTransactions rx rk header].
Proof.
  intros Hk Ha. unfold tailCandidates, legacyNoRotatingKingRewardTransactions, CompatibleRewardTransactions. rewrite Ha.
  destruct c.(tc_RotatingKingAddresses); [done|]. cbn [length Nat.eqb negb]. by rewrite orb_true_r.
Qed.

(** A list that has the hashes of the only candidate is the candidate. *)
Lemma matches_single txs cand : (∀ t t', t ∈ cand → txHash t' = txHash t → t' = t) → matchesMixed txHash txs [cand] → txs = cand.
Proof.
  intros Hinj [(c & ->%list_elem_of_singleton & Hl) Hm]. apply list_eq. intros i. destruct (txs !! i) as [t|] eqn:Et.
  - destruct (Hm i t Et) as (c & t' & ->%list_elem_of_singleton & _ & Ec & Eh). rewrite Ec. f_equal. apply Hinj; [by eapply list_elem_of_lookup_2|done].
  - symmetry. apply lookup_ge_None. apply lookup_ge_None in Et. lia.
Qed.

(** C6: once Antartical is active, and when the configuration lists rotating kings, the
    reward transactions of an accepted block are the ones of the engine and one validator
    reward exactly when validators are active; the engine's finalisation then pays them
    without a panic, and mints at most the shares of the main king, the rotating king and
    the miner of that height and the validator's for the validator reward. *)
Theorem reward_tail_mints_shares c rx rk front txs header parentHash gas (st s : S) rs :
  c.(tc_RotatingKingAddresses) ≠ [] → antarticalActive rx header = true → is_u64 header.(Number) →
  (∀ t t', t ∈ RewardTransactions rx rk header → txHash t' = txHash t → t' = t) →
  no_rewards front → txs ≠ [] → processBlockRewardTxs txHash c rx rk txs header parentHash gas st = Ok rs →
  baseOf txs = RewardTransactions rx rk header ∧ validatorsRewarded st header parentHash txs
  ∧ ∃ s', distributeBodyRewardTransactions rx s (front ++ txs) = Some (Ok s')
        ∧ mints_at_most (baseShares header.(Number) + Z.of_nat (length (validatorsOf txs)) * validatorShare header.(Number)) s s'.
Proof.
  intros Hk Ha Hn Hinj Hf Hne E. apply processBlockRewardTxs_spec in E as (_ & Hv & Hm).
  assert (Hb : baseOf txs = RewardTransactions rx rk header).
  { destruct Hm as [[(_ & _ & ?) _]|Hm]; [done|]. rewrite antartical_candidates in Hm by done. by apply matches_single. }
  split_and!; [done|done|]. destruct (antartical_base rx rk header Ha) as [HB Hsum]. rewrite <- Hb in HB, Hsum. destruct Hv as [HV _].
  assert (HV' : Forall (λ tx, IsBlockRewardTx (Some tx) = true ∧ tx.(tx_Value) = validatorShare header.(Number)) (validatorsOf txs)).
  { eapply Forall_impl; [exact HV|]. intros tx Ht%validator_paid. by rewrite u64_small in Ht. }
  pose proof (share_range header.(Number)) as [Hr _].
  rewrite distribute_tail; [|done|done|].
  2: { apply tail_forall; [eapply Forall_impl; [exact HB|]|eapply Forall_impl; [exact HV'|]]; by intros tx [? _]. }
  destruct (pay_tail rx s txs) as (l & -> & Ol & Tl).
  { apply tail_forall; [eapply Forall_impl; [exact HB|]; by intros tx [_ ?]|eapply Forall_impl; [exact HV'|]]. intros tx [_ ->]. done. }
  eexists. split; [done|]. apply mints_credit; [done|]. rewrite tail_split in Tl.
  assert (zsum tx_Value (validatorsOf txs) = Z.of_nat (length (validatorsOf txs)) * validatorShare header.(Number)); [|lia].
  clear -HV'. induction HV' as [|tx l [_ Ht] _ IH]; [done|]. rewrite zsum_cons, IH, Ht. cbn [length]. lia.
Qed.

(** C7: under a configuration that names a main king and lists no rotating kings, such
    as the one of the main network, the amounts of reward transactions are not checked: a
    block without active validators may end in reward transactions of any amounts to any
    accounts, the processor accepts it and the finalisation pays them. *)
Theorem kingless_tail_unchecked c rx rk front header parentHash gas (st s : S) markers :
  kingless c → ActiveValidatorRecords st (u64 header.(Number)) = Ok [] → no_rewards front → markers ≠ [] → markers_ok markers →
  Forall (λ m, m.1.1 ≠ BlockRewardValidator) markers →
  let tail := markerTxs header.(Number) markers in
  processBlockRewardTxs txHash c rx rk tail header parentHash gas st = Ok (rewardTxReceipts tail gas)
  ∧ distributeBodyRewardTransactions rx s (front ++ tail) = Some (Ok (credit s (markerCredits rx markers))).
Proof.
  intros Hk Ha Hf Hne Hok Hkind tail. split; [|by apply distributeBody_markers].
  pose proof (markerTxs_reward header.(Number) markers) as Hr. rewrite forallb_forall in Hr.
  assert (Hnv : Forall (λ tx, IsValidatorRewardTx (Some tx) = false) tail).
  { unfold tail, markerTxs. rewrite Forall_fmap. assert (H : Forall _ markers) by (apply Forall_and; split; [exact Hkind|exact Hok]).
    eapply Forall_impl; [exact H|]. intros [[kind to] v] [Hkd [Hrange _]]. cbn in *.
    unfold IsValidatorRewardTx, BlockRewardKind. rewrite NewBlockRewardTx_is_reward. apply bool_decide_false. unfold NewBlockRewardTx, rewardData. cbn [tx_Data].
    rewrite app_assoc, last_snoc, Z.mod_small by done. congruence. }
  assert (Hbase : baseOf tail = tail ∧ validatorsOf tail = []).
  { clear -Hnv. unfold baseOf, validatorsOf. induction Hnv as [|tx l Ht _ [IH1 IH2]]; [done|]. rewrite !filter_cons, IH1, IH2, decide_True, decide_False by (done || by rewrite Ht). done. }
  destruct Hbase as [Hb Hv]. apply processBlockRewardTxs_spec. split; [done|]. split; [|left; rewrite Hb; split_and!; [done| |]].
  - split; rewrite Hv; [constructor|]. exists []. by rewrite decide_True.
  - by destruct markers as [|[[??]?] ?].
  - apply List.Forall_forall. intros tx. apply Hr.
Qed.

End Mint.

End RewardTail.
