(* ===== verification/RewardDemo.v ===== *)
(** * Reward tails of concrete blocks

    The theorems of [RewardTail] applied to a block that rewards the validator of
    [ValidatorDemo], and to a block under the configuration of the main network, whose
    miner pays itself a million coins. *)

From S2P Require Import Prelude Bytes State Emission ChainConfig Rewards ValidatorRegistry ValidatorDemo BlockValidator RewardTail.
Import Rewards ValidatorRegistry ValidatorDemo BlockValidator RewardTail.

Module RewardDemo.

#[local] Existing Instance RefUint256.
#[local] Existing Instance FlatWorldState.

Definition tailEngine : Engine := {|
  rx_config := None; rx_mainKing := 7; rx_rotatingKings := [11; 22]; rx_rotatingKingActivations := ∅; rx_rotationInterval := 100;
  rx_chainAntartical := Some (λ _ _, true) |}.
Definition tailHeader : Header := {| Number := 800; Time := demoTime; Coinbase := 42 |}.
Definition tailConfig (kings : list address) : TailConfig := {| tc_chain := demoConfig; tc_RandomX := true; tc_RotatingKingAddresses := kings |}.

(** The place of a transaction among the expected ones. *)
Definition tailHash (t : Transaction) : hash :=
  match list_find (λ u, t = u) (RewardTransactions tailEngine 11 tailHeader) with Some (i, _) => Z.of_nat i + 1 | None => 0 end.

Definition demoTail : list Transaction :=
  RewardTransactions tailEngine 11 tailHeader ++ match BuildValidatorRewardTx demoRegistered (Some (800, 9)) with Ok tx => [tx] | Err _ => [] end.

Lemma tail_hash t t' : t ∈ RewardTransactions tailEngine 11 tailHeader → tailHash t' = tailHash t → t' = t.
Proof.
  unfold tailHash. intros Ht. destruct (list_find (λ u, t = u) _) as [[i u]|] eqn:E.
  - apply list_find_Some in E as (Ei & <- & _). destruct (list_find (λ u, t' = u) _) as [[j u']|] eqn:E'; [|intros H; lia].
    apply list_find_Some in E' as (Ej & -> & _). intros H. assert (j = i) as -> by lia. congruence.
  - apply list_find_None in E. rewrite Forall_forall in E. by destruct (E t Ht).
Qed.

Lemma reward_tail_mints_shares_witness :
  ∃ s', distributeBodyRewardTransactions tailEngine demoRegistered ([] ++ demoTail) = Some (Ok s')
    ∧ mints_at_most (baseShares 800 + 1 * validatorShare 800) demoRegistered s'.
Proof.
  destruct (reward_tail_mints_shares tailHash (tailConfig [11; 22]) tailEngine 11 [] demoTail tailHeader 9 0 demoRegistered demoRegistered (rewardTxReceipts demoTail 0))
    as (_ & _ & s' & E & Hm); [done|done|done|exact tail_hash|constructor|by vm_compute|by vm_compute|]. exists s'. split; [exact E|]. exact Hm.
Defined.

(** One million coins for the miner. *)
Definition greedy : list (Z * address * Z) := [(BlockRewardMiner, 42, 1000000 * oneTKM)].

Lemma kingless_tail_unchecked_witness :
  distributeBodyRewardTransactions tailEngine demoStart ([] ++ markerTxs 800 greedy) = Some (Ok (credit demoStart [(42, 1000000 * oneTKM)])).
Proof.
  destruct (kingless_tail_unchecked tailHash (tailConfig []) tailEngine 11 [] tailHeader 9 0 demoStart demoStart greedy) as [_ E]; [|by vm_compute|constructor|done|..|exact E].
  - split_and!; [done|by vm_compute|done].
  - by repeat constructor.
  - by repeat constructor.
Defined.

(** Before Antartical, without an active king, the lists of the engine differ in who gets
    the king's share; a tail that takes the larger amounts of two of them is accepted and
    pays 140 percent of the block reward. *)
Definition oldEngine : Engine := {|
  rx_config := Some {| PostQuantumMainKingAddress := 0; QuantumResistantTime := None; AntarticalTime := None |};
  rx_mainKing := 7; rx_rotatingKings := []; rx_rotatingKingActivations := ∅; rx_rotationInterval := 100; rx_chainAntartical := None |}.
Definition mixedMarkers : list (Z * address * Z) :=
  let reward := RandomX.CalculateBlockReward 800 in
  [(BlockRewardMainKing, 7, reward * 50 / 100); (BlockRewardRotatingKing, 0, reward * 40 / 100); (BlockRewardMiner, 42, reward * 50 / 100)].

Lemma mixed_tail_overpays :
  let header := {| Number := 800; Time := 0; Coinbase := 42 |} in
  let tail := markerTxs 800 mixedMarkers in
  processBlockRewardTxs (λ t, rewardKind t + 4 * t.(tx_Value)) (tailConfig [11]) oldEngine 0 tail header 9 0 demoStart = Ok (rewardTxReceipts tail 0)
  ∧ credit_total (markerCredits oldEngine mixedMarkers) = RandomX.CalculateBlockReward 800 * 140 / 100.
Proof. split; by vm_compute. Qed.

End RewardDemo.
