(* ===== verification/AccountAbstraction.v ===== *)
(** * Account abstraction

    [consensus/antartical/account.go] and [core/account_abstraction.go]: user operations,
    their hash and signature, and their execution through the reserved entry point.

    Calls into the EVM are an argument.  A string is read and written like a byte slice. *)

From S2P Require Import Prelude Bytes RLP RLPStream RLPTypes State ChainConfig FeeMarket ValidatorRegistry ShieldedTree ShieldedCrypto ShieldedEnvelopes Oracle Headers.
Import RLP RLPStream RLPTypes FeeMarket ValidatorRegistry ShieldedTree ShieldedCrypto ShieldedEnvelopes Oracle Headers.

Module AccountAbstraction.

Definition AccountAbstractionMagic : bytes := str "TKM-AA-ENTRYPOINT-V1".
Definition userOperationMagic : bytes := str "TKM_USER_OPERATION_V1".
Definition TKMEntryPointAddress : address := 0x4337.

Inductive aaError :=
| ErrAAInactive
| ErrAccountAbstractionEnvelope
| ErrAccountAbstractionNonce
| ErrAccountAbstractionTarget
| ErrAccountAbstractionPaymaster
| ErrInvalidUserOperation
| ErrInvalidOperationSig
| ErrAAGas (e : feeError)
| ErrAACall (e : Z).

Record UserOperation := {
  uo_Sender : address;
  uo_Nonce : Z;
  uo_InitCode : bytes;
  uo_CallData : bytes;
  uo_CallGasLimit : Z;
  uo_VerificationGasLimit : Z;
  uo_PreVerificationGas : Z;
  uo_MaxFeePerGas : Z;
  uo_MaxPriorityFeePerGas : Z;
  uo_PaymasterAndData : bytes;
  uo_Algorithm : bytes;
  uo_PublicKey : bytes;
  uo_Signature : bytes;
}.

(** [userOperationWire] *)
Definition operationType : rtype := RStruct (pair false <$>
  [RByteSlice; addressType; RBigInt; RByteSlice; RByteSlice; RBigInt; RBigInt; RBigInt; RBigInt; RBigInt; RByteSlice; RByteSlice; RByteSlice; RByteSlice]).
Definition operationVal (op : UserOperation) : rval :=
  VList [VBytes userOperationMagic; addressVal op.(uo_Sender); VNum op.(uo_Nonce); VBytes op.(uo_InitCode); VBytes op.(uo_CallData);
         VNum op.(uo_CallGasLimit); VNum op.(uo_VerificationGasLimit); VNum op.(uo_PreVerificationGas); VNum op.(uo_MaxFeePerGas);
         VNum op.(uo_MaxPriorityFeePerGas); VBytes op.(uo_PaymasterAndData); VBytes op.(uo_Algorithm); VBytes op.(uo_PublicKey); VBytes op.(uo_Signature)].
(** The magic and the operation *)
Definition operationOf (v : rval) : option (bytes * UserOperation) :=
  match v with
  | VList [VBytes magic; VBytes sender; VNum nonce; VBytes initCode; VBytes callData; VNum callGas; VNum verificationGas; VNum preGas; VNum maxFee;
           VNum maxPriority; VBytes paymaster; VBytes algorithm; VBytes publicKey; VBytes signature] =>
      Some (magic, {| uo_Sender := be_value sender; uo_Nonce := nonce; uo_InitCode := initCode; uo_CallData := callData; uo_CallGasLimit := callGas;
                      uo_VerificationGasLimit := verificationGas; uo_PreVerificationGas := preGas; uo_MaxFeePerGas := maxFee;
                      uo_MaxPriorityFeePerGas := maxPriority; uo_PaymasterAndData := paymaster; uo_Algorithm := algorithm; uo_PublicKey := publicKey;
                      uo_Signature := signature |})
  | _ => None
  end.

Definition bad256 (n : Z) : bool := (n <? 0) || (two256 <=? n).

Definition operationValidate (op : UserOperation) : result aaError unit :=
  _ ← fail_if ((op.(uo_Sender) =? zeroAddress) || (op.(uo_Nonce) <? 0)) ErrInvalidUserOperation;
  _ ← fail_if (existsb bad256 [op.(uo_CallGasLimit); op.(uo_VerificationGasLimit); op.(uo_PreVerificationGas); op.(uo_MaxFeePerGas); op.(uo_MaxPriorityFeePerGas)])
        ErrInvalidUserOperation;
  _ ← fail_if (two256 <=? op.(uo_Nonce)) ErrInvalidUserOperation;
  fail_if (op.(uo_MaxFeePerGas) <? op.(uo_MaxPriorityFeePerGas)) ErrInvalidUserOperation.

(** The chain identifier has at most 256 bits. *)
Definition abiAddressWord (a : address) : bytes := replicate 12 0 ++ address_bytes a.
Definition abiBigWord (n : Z) : bytes := be_bytes 32 n.

Section Operations.
Context {X : Externals} {Sg : Secp256k1}.

Definition packedOperation (op : UserOperation) : bytes :=
  abiAddressWord op.(uo_Sender) ++ abiBigWord op.(uo_Nonce) ++ keccak op.(uo_InitCode) ++ keccak op.(uo_CallData) ++ abiBigWord op.(uo_CallGasLimit)
  ++ abiBigWord op.(uo_VerificationGasLimit) ++ abiBigWord op.(uo_PreVerificationGas) ++ abiBigWord op.(uo_MaxFeePerGas)
  ++ abiBigWord op.(uo_MaxPriorityFeePerGas) ++ keccak op.(uo_PaymasterAndData).

Definition signingTuple (op : UserOperation) (chainID : Z) (entryPoint : address) : result aaError bytes :=
  match operationValidate op with
  | Err _ => Err ErrInvalidUserOperation
  | Ok _ =>
      _ ← fail_if ((chainID <=? 0) || (entryPoint =? zeroAddress)) ErrInvalidUserOperation;
      Ok (keccak (packedOperation op) ++ abiAddressWord entryPoint ++ abiBigWord chainID)
  end.

Definition operationHash (op : UserOperation) (chainID : Z) (entryPoint : address) : result aaError hash :=
  tuple ← signingTuple op chainID entryPoint; Ok (BytesToHash (keccak tuple)).

Definition operationEncode (op : UserOperation) : result aaError bytes :=
  _ ← operationValidate op;
  match EncodeValue operationType (operationVal op) with Some b => Ok b | None => Err ErrInvalidUserOperation end.

Definition DecodeUserOperation (encoded : bytes) : result aaError UserOperation :=
  match decodeInto operationType operationOf encoded with
  | Err _ => Err ErrInvalidUserOperation
  | Ok (magic, op) =>
      _ ← fail_if (negb (bool_decide (magic = userOperationMagic))) ErrInvalidUserOperation;
      _ ← operationValidate op;
      Ok op
  end.

Definition operationVerify (op : UserOperation) (chainID : Z) (entryPoint : address) : result aaError unit :=
  match operationHash op chainID entryPoint with
  | Err _ => Err ErrInvalidOperationSig
  | Ok h =>
      if bool_decide (op.(uo_Algorithm) = AlgorithmMLDSA87) then
        _ ← fail_if ((length op.(uo_PublicKey) =? 0)%nat || negb (VerifyMLDSA87 op.(uo_PublicKey) (hash_bytes h) op.(uo_Signature))) ErrInvalidOperationSig;
        fail_if (negb (bool_decide (pqAddress op.(uo_Algorithm) op.(uo_PublicKey) = Some op.(uo_Sender)))) ErrInvalidOperationSig
      else
        _ ← fail_if (negb (length op.(uo_Algorithm) =? 0)%nat || negb (length op.(uo_PublicKey) =? 0)%nat || negb (length op.(uo_Signature) =? SignatureLength)%nat)
              ErrInvalidOperationSig;
        fail_if (negb (signedBy h op.(uo_Signature) op.(uo_Sender))) ErrInvalidOperationSig
  end.

Definition HasAccountAbstractionPrefix (data : bytes) : bool := has_prefix data AccountAbstractionMagic.
Definition EncodeAccountAbstraction (op : UserOperation) : result aaError bytes := b ← operationEncode op; Ok (AccountAbstractionMagic ++ b).
Definition DecodeAccountAbstraction (data : bytes) : result aaError UserOperation :=
  _ ← fail_if (negb (HasAccountAbstractionPrefix data) || (ShieldedV3MaxTxSize <? Z.of_nat (length data))) ErrAccountAbstractionEnvelope;
  match DecodeUserOperation (drop (length AccountAbstractionMagic) data) with Ok op => Ok op | Err _ => Err ErrAccountAbstractionEnvelope end.

(** The first 20 bytes are the target. *)
Definition accountAbstractionCallData (data : bytes) : result aaError (address * bytes) :=
  _ ← fail_if (length data <? 20)%nat ErrAccountAbstractionTarget;
  let target := BytesToAddress (take 20 data) in
  _ ← fail_if ((target =? zeroAddress) || (target =? TKMEntryPointAddress)) ErrAccountAbstractionTarget;
  Ok (target, drop 20 data).

Context {U : Uint256} {S : Type} {W : WorldState S}.

Definition accountAbstractionNonceSlot (sender : address) : hash := ShieldedV3StateSlot (str "account-abstraction/nonce") (address_bytes sender).
Definition accountAbstractionNonce (st : S) (sender : address) : Z := uint64FromHash (GetState st ShieldedPoolAddress (accountAbstractionNonceSlot sender)).
Definition setAccountAbstractionNonce (st : S) (sender : address) (nonce : Z) : S :=
  SetState st ShieldedPoolAddress (accountAbstractionNonceSlot sender) (uint64Hash nonce).

(** [evm.Call] without value: caller, target, input, gas to the state, the gas left and
    the error. *)
Class EntryCalls := evmCall : S → address → address → bytes → GasBudget → S * GasBudget * option Z.
Context {Ev : EntryCalls}.

(** What the checks before the reservation give. *)
Record checkedOperation := {
  ck_op : UserOperation;
  ck_target : address;
  ck_input : bytes;
}.

Definition checkOperation (config : ChainConfig.ChainConfig) (number time : Z) (st : S) (tx : vtx) : result aaError checkedOperation :=
  _ ← fail_if (negb (ChainConfig.IsAntartical config number time)) ErrAAInactive;
  _ ← fail_if (negb (tx.(vt_Type) =? PQTkmTxType) || negb (bool_decide (tx.(vt_To) = Some TKMEntryPointAddress)) || negb (tx.(vt_Value) =? 0)
               || negb (bool_decide (ChainConfig.ChainID config = Some tx.(vt_ChainId)))) ErrAccountAbstractionEnvelope;
  op ← DecodeAccountAbstraction tx.(vt_Data);
  _ ← operationVerify op tx.(vt_ChainId) TKMEntryPointAddress;
  _ ← fail_if (two64 <=? op.(uo_Nonce)) ErrAccountAbstractionNonce;
  _ ← fail_if (negb (op.(uo_Nonce) =? accountAbstractionNonce st op.(uo_Sender))) ErrAccountAbstractionNonce;
  '(target, input) ← accountAbstractionCallData op.(uo_CallData);
  _ ← fail_if ((two64 <=? op.(uo_CallGasLimit)) || (two64 <=? op.(uo_VerificationGasLimit)) || (two64 <=? op.(uo_PreVerificationGas)))
        ErrAccountAbstractionEnvelope;
  _ ← fail_if ((op.(uo_CallGasLimit) =? 0) || (op.(uo_VerificationGasLimit) =? 0)) ErrAccountAbstractionEnvelope;
  _ ← fail_if ((maxUint64 - op.(uo_VerificationGasLimit) <? op.(uo_PreVerificationGas))
               || (op.(uo_CallGasLimit) <? op.(uo_PreVerificationGas) + op.(uo_VerificationGasLimit))) ErrAccountAbstractionEnvelope;
  _ ← fail_if (maxUint64 - op.(uo_VerificationGasLimit) <? op.(uo_CallGasLimit)) ErrAccountAbstractionEnvelope;
  Ok {| ck_op := op; ck_target := target; ck_input := input |}.

(** A call of the entry point in the course of validation; the state and the budget after
    it, or the error. *)
Definition entryCall (st : S) (to : address) (input : bytes) (budget : GasBudget) : S * result aaError GasBudget :=
  match evmCall st TKMEntryPointAddress to input budget with
  | (st, next, None) => (st, Ok next)
  | (st, _, Some e) => (st, Err (ErrAACall e))
  end.

Definition runFactory (st : S) (op : UserOperation) (budget : GasBudget) : S * result aaError GasBudget :=
  if (length op.(uo_InitCode) =? 0)%nat then (st, Ok budget)
  else
    match accountAbstractionCallData op.(uo_InitCode) with
    | Err e => (st, Err e)
    | Ok (factory, input) => if GetCodeSize st factory =? 0 then (st, Err ErrAccountAbstractionEnvelope) else entryCall st factory input budget
    end.

Definition runPaymaster (st : S) (op : UserOperation) (budget : GasBudget) : S * result aaError GasBudget :=
  if (length op.(uo_PaymasterAndData) =? 0)%nat then (st, Ok budget)
  else if (length op.(uo_PaymasterAndData) <? 20)%nat then (st, Err ErrAccountAbstractionPaymaster)
  else
    let paymaster := BytesToAddress (take 20 op.(uo_PaymasterAndData)) in
    if (paymaster =? zeroAddress) || (GetCodeSize st paymaster =? 0) then (st, Err ErrAccountAbstractionPaymaster)
    else entryCall st paymaster (drop 20 op.(uo_PaymasterAndData)) budget.

(** The call of the operation and the settlement with the gas pool: the gas used, the
    error, the state and the pool. *)
Definition executeOperation (st : S) (gp : GasPool) (c : checkedOperation) (reserved : Z) (verificationBudget : GasBudget) : Z * option aaError * S * GasPool :=
  let op := c.(ck_op) in
  let verificationUsed := op.(uo_VerificationGasLimit) -₆₄ verificationBudget.(RegularGas) in
  match evmCall st op.(uo_Sender) c.(ck_target) c.(ck_input) (NewGasBudget op.(uo_CallGasLimit)) with
  | (st, left_, callErr) =>
      let usedCall := op.(uo_CallGasLimit) -₆₄ left_.(RegularGas) in
      let used := verificationUsed +₆₄ usedCall in
      let used := if used <? op.(uo_PreVerificationGas) then op.(uo_PreVerificationGas) else used in
      match ReturnGas gp (reserved -₆₄ used) used with
      | Err e => (0, Some (ErrAAGas e), st, gp)
      | Ok gp =>
          match callErr with
          | Some e => (used, Some (ErrAACall e), st, gp)
          | None => (used, None, setAccountAbstractionNonce st op.(uo_Sender) (op.(uo_Nonce) +₆₄ 1), gp)
          end
      end
  end.

Definition ProcessAccountAbstraction (config : ChainConfig.ChainConfig) (number time : Z) (st : S) (gp : GasPool) (tx : vtx)
    : Z * option aaError * S * GasPool :=
  match checkOperation config number time st tx with
  | Err e => (0, Some e, st, gp)
  | Ok c =>
      let op := c.(ck_op) in
      let reserved := op.(uo_CallGasLimit) +₆₄ op.(uo_VerificationGasLimit) in
      match SubGas gp reserved with
      | Err e => (0, Some (ErrAAGas e), st, gp)
      | Ok gp =>
          if op.(uo_CallGasLimit) <? op.(uo_VerificationGasLimit) then (0, Some ErrAccountAbstractionEnvelope, st, gp)
          else
            match runFactory st op (NewGasBudget op.(uo_VerificationGasLimit)) with
            | (st, Err e) => (0, Some e, st, gp)
            | (st, Ok budget) =>
                match runPaymaster st op budget with
                | (st, Err e) => (0, Some e, st, gp)
                | (st, Ok budget) => executeOperation st gp c reserved budget
                end
            end
      end
  end.

End Operations.
End AccountAbstraction.
