(* ===== verification/UserOperations.v ===== *)
(** * What user operations do

    The operations of one account are executed once each, in the order of their nonces,
    and the gas pool of the block is charged what they used. *)

From S2P Require Import Prelude Bytes RLP RLPStream RLPTypes State ChainConfig FeeMarket ValidatorRegistry ValidatorStore ShieldedTree Oracle Headers AccountAbstraction.
Import RLP RLPStream RLPTypes FeeMarket ValidatorRegistry ValidatorStore ShieldedTree Oracle Headers AccountAbstraction.

Module UserOperations.

Section Operations.
Context {X : Externals} {Sg : Secp256k1} {U : Uint256} {S : Type} {W : WorldState S} {Ev : EntryCalls (S := S)}.

(** The EVM leaves at most the gas it got, and does not write the storage of the pool's
    account, which has no code. *)
Class EntryLaws := {
  call_left st a b d g : 0 <= g.(RegularGas) → 0 <= (evmCall st a b d g).1.2.(RegularGas) <= g.(RegularGas);
  call_pool st a b d g k : GetState (evmCall st a b d g).1.1 ShieldedPoolAddress k = GetState st ShieldedPoolAddress k;
}.
Context {HL : EntryLaws}.

(** The accounts in use have nonce slots of their own. *)
Context (Us : address → Prop).
Class NonceUse := nonce_slot_inj a b : Us a → Us b → accountAbstractionNonceSlot a = accountAbstractionNonceSlot b → a = b.
Context {HN : NonceUse}.

(** ** Nonces *)

Lemma nonce_set st a b n : Us a → Us b → is_u64 n →
  accountAbstractionNonce (setAccountAbstractionNonce st a n) b = if decide (a = b) then n else accountAbstractionNonce st b.
Proof using HN.
  intros Ha Hb Hn. unfold accountAbstractionNonce, setAccountAbstractionNonce. rewrite GetState_SetState, uint64Hash_id by done. case_decide as Hd.
  - destruct Hd as [_ Hd]. apply (nonce_slot_inj a b Ha Hb) in Hd as ->. rewrite decide_True by done. by apply u64_small.
  - case_decide as Hd'; [subst; by destruct Hd|done].
Qed.

(** The same nonces. *)
Definition sameNonces (st st' : S) : Prop := ∀ a, accountAbstractionNonce st' a = accountAbstractionNonce st a.

Lemma call_nonces st a b d g : sameNonces st (evmCall st a b d g).1.1.
Proof using HL. intros x. unfold accountAbstractionNonce. by rewrite call_pool. Qed.

Lemma entryCall_spec st to input g st' r : 0 <= g.(RegularGas) → entryCall st to input g = (st', r) →
  sameNonces st st' ∧ ∀ next, r = Ok next → 0 <= next.(RegularGas) <= g.(RegularGas).
Proof using HL.
  intros Hg E. unfold entryCall in E. pose proof (call_nonces st TKMEntryPointAddress to input g) as Hn. pose proof (call_left st TKMEntryPointAddress to input g Hg) as Hl.
  destruct (evmCall st TKMEntryPointAddress to input g) as [[s next] [e|]]; injection E as <- <-; split; try done. intros next' En. apply Ok_inj in En as <-. done.
Qed.

Lemma runFactory_spec st op g st' r : 0 <= g.(RegularGas) → runFactory st op g = (st', r) →
  sameNonces st st' ∧ ∀ next, r = Ok next → 0 <= next.(RegularGas) <= g.(RegularGas).
Proof using HL.
  intros Hg E. unfold runFactory in E. repeat case_match; try (injection E as <- <-; split; [done|]; intros next En; by (discriminate || (apply Ok_inj in En as <-; lia))).
  by eapply entryCall_spec.
Qed.

Lemma runPaymaster_spec st op g st' r : 0 <= g.(RegularGas) → runPaymaster st op g = (st', r) →
  sameNonces st st' ∧ ∀ next, r = Ok next → 0 <= next.(RegularGas) <= g.(RegularGas).
Proof using HL.
  intros Hg E. unfold runPaymaster in E. repeat case_match; try (injection E as <- <-; split; [done|]; intros next En; by (discriminate || (apply Ok_inj in En as <-; lia))).
  by eapply entryCall_spec.
Qed.

(** ** One operation *)

(** The operation of a transaction, signed by its sender for this chain. *)
Definition authorised (tx : vtx) (op : UserOperation) : Prop :=
  DecodeAccountAbstraction tx.(vt_Data) = Ok op ∧ operationVerify op tx.(vt_ChainId) TKMEntryPointAddress = Ok ().

Lemma checkOperation_spec config number time st tx c : checkOperation config number time st tx = Ok c →
  let op := c.(ck_op) in
  authorised tx op ∧ ChainConfig.ChainID config = Some tx.(vt_ChainId) ∧ op.(uo_Nonce) = accountAbstractionNonce st op.(uo_Sender) ∧ is_u64 op.(uo_Nonce)
  ∧ 0 <= op.(uo_PreVerificationGas) ∧ 0 < op.(uo_VerificationGasLimit) ∧ op.(uo_PreVerificationGas) + op.(uo_VerificationGasLimit) <= op.(uo_CallGasLimit)
  ∧ op.(uo_CallGasLimit) + op.(uo_VerificationGasLimit) < two64.
Proof.
  intros E. unfold checkOperation in E. apply bind_ok in E as (_ & _ & E). apply bind_ok in E as (_ & H1%fail_if_ok & E). apply bind_ok in E as (op & Eo & E).
  apply bind_ok in E as ([] & Ev' & E). apply bind_ok in E as (_ & H2%fail_if_ok & E). apply bind_ok in E as (_ & H3%fail_if_ok & E).
  apply bind_ok in E as ([target input] & _ & E). apply bind_ok in E as (_ & H4%fail_if_ok & E). apply bind_ok in E as (_ & H5%fail_if_ok & E).
  apply bind_ok in E as (_ & H6%fail_if_ok & E). apply bind_ok in E as (_ & H7%fail_if_ok & E). apply Ok_inj in E as <-. cbn [ck_op].
  assert (Hv : operationValidate op = Ok ()).
  { unfold DecodeAccountAbstraction in Eo. apply bind_ok in Eo as (_ & _ & Eo). destruct (DecodeUserOperation _) as [op'|] eqn:Ed; [|done]. apply Ok_inj in Eo as ->.
    unfold DecodeUserOperation in Ed. destruct (decodeInto _ _ _) as [[magic op']|]; [|done]. apply bind_ok in Ed as (_ & _ & Ed).
    apply bind_ok in Ed as ([] & Hv & Ed). by apply Ok_inj in Ed as ->. }
  unfold operationValidate in Hv. apply bind_ok in Hv as (_ & V1%fail_if_ok & Hv). apply bind_ok in Hv as (_ & V2%fail_if_ok & Hv).
  rewrite !orb_false_iff, !negb_false_iff, !bool_decide_eq_true in H1. cbn [existsb] in V2. unfold bad256 in V2. unfold maxUint64, is_u64 in *.
  split_and!; [by split|apply H1|lia..].
Qed.

(** The gas of an operation. *)
Definition charged (op : UserOperation) (gp gp' : GasPool) (used : Z) : Prop :=
  op.(uo_PreVerificationGas) <= used <= op.(uo_CallGasLimit) + op.(uo_VerificationGasLimit)
  ∧ gp'.(remaining) = gp.(remaining) - used ∧ gp'.(cumulativeUsed) = gp.(cumulativeUsed) +₆₄ used ∧ gp'.(initial) = gp.(initial).

Lemma executeOperation_spec st gp c reserved budget used st' gp' : let op := c.(ck_op) in
  reserved = op.(uo_CallGasLimit) + op.(uo_VerificationGasLimit) → 0 <= op.(uo_PreVerificationGas) <= op.(uo_CallGasLimit) → 0 < op.(uo_VerificationGasLimit) →
  reserved < two64 → 0 <= gp.(remaining) → gp.(remaining) + reserved < two64 → is_u64 op.(uo_Nonce) →
  0 <= budget.(RegularGas) <= op.(uo_VerificationGasLimit) → executeOperation st gp c reserved budget = (used, None, st', gp') →
  op.(uo_PreVerificationGas) <= used <= reserved ∧ gp'.(remaining) = gp.(remaining) + reserved - used ∧ gp'.(cumulativeUsed) = gp.(cumulativeUsed) +₆₄ used
  ∧ gp'.(initial) = gp.(initial) ∧ ∃ st0, sameNonces st st0 ∧ st' = setAccountAbstractionNonce st0 op.(uo_Sender) (op.(uo_Nonce) +₆₄ 1).
Proof using HL.
  intros op Hr Hpre Hver Hr64 Hrem Hsum Hn Hb E. unfold executeOperation in E. fold op in E. set (g := NewGasBudget (uo_CallGasLimit op)) in *.
  assert (Hg : 0 <= g.(RegularGas)) by (cbn; lia). pose proof (call_nonces st op.(uo_Sender) c.(ck_target) c.(ck_input) g) as Hsn.
  pose proof (call_left st op.(uo_Sender) c.(ck_target) c.(ck_input) g Hg) as Hl.
  destruct (evmCall st op.(uo_Sender) c.(ck_target) c.(ck_input) g) as [[st0 left_] callErr]. cbn [fst snd RegularGas NewGasBudget g] in Hl, Hsn.
  rewrite (u64_small (uo_VerificationGasLimit op - RegularGas budget)), (u64_small (uo_CallGasLimit op - RegularGas left_)) in E by (unfold is_u64; lia).
  set (total := uo_VerificationGasLimit op - RegularGas budget + (uo_CallGasLimit op - RegularGas left_)) in *. rewrite (u64_small total) in E by (unfold is_u64; lia).
  set (u := if total <? uo_PreVerificationGas op then uo_PreVerificationGas op else total) in *.
  assert (Hu : uo_PreVerificationGas op <= u <= reserved) by (unfold u; destruct (Z.ltb_spec total (uo_PreVerificationGas op)); lia).
  unfold ReturnGas in E. rewrite (u64_small (reserved - u)) in E by (unfold is_u64; lia). destruct (maxU64 - (reserved - u) <? remaining gp); [done|]. destruct callErr; [done|]. injection E as <- <- <-.
  cbn [remaining cumulativeUsed initial]. rewrite (u64_small (gp.(remaining) + (reserved - u))) by (unfold is_u64; lia).
  split_and!; [lia|lia|lia|done|done|]. by exists st0.
Qed.

(** A pool whose numbers are words. *)
Definition pool_ok (gp : GasPool) : Prop := is_u64 gp.(remaining).

Lemma process_spec config number time st gp tx used st' gp' : pool_ok gp → ProcessAccountAbstraction config number time st gp tx = (used, None, st', gp') →
  ∃ op, authorised tx op ∧ ChainConfig.ChainID config = Some tx.(vt_ChainId) ∧ op.(uo_Nonce) = accountAbstractionNonce st op.(uo_Sender) ∧ is_u64 op.(uo_Nonce)
    ∧ charged op gp gp' used ∧ pool_ok gp' ∧ ∃ st0, sameNonces st st0 ∧ st' = setAccountAbstractionNonce st0 op.(uo_Sender) (op.(uo_Nonce) +₆₄ 1).
Proof using HL.
  intros Hgp E. unfold ProcessAccountAbstraction in E. destruct (checkOperation config number time st tx) as [c|] eqn:Ec; [|done].
  apply checkOperation_spec in Ec as (Ha & Hchain & Hn & Hn64 & Hpre & Hver & Hcall & Hsum). set (op := c.(ck_op)) in *. unfold pool_ok, is_u64 in Hgp.
  rewrite (u64_small (uo_CallGasLimit op + uo_VerificationGasLimit op)) in E by (unfold is_u64; lia). set (reserved := uo_CallGasLimit op + uo_VerificationGasLimit op) in *.
  unfold SubGas in E. destruct (Z.ltb_spec gp.(remaining) reserved) as [|Hres]; [done|]. rewrite (u64_small (gp.(remaining) - reserved)) in E by (unfold is_u64; lia).
  set (gp1 := {| remaining := _; initial := _; cumulativeUsed := _ |}) in E. case_match; [done|].
  destruct (runFactory st op _) as [st1 [b1|]] eqn:Ef; [|done]. apply runFactory_spec in Ef as [S1 L1]; [|cbn; lia]. specialize (L1 b1 eq_refl). cbn in L1.
  destruct (runPaymaster st1 op b1) as [st2 [b2|]] eqn:Ep; [|done]. apply runPaymaster_spec in Ep as [S2 L2]; [|lia]. specialize (L2 b2 eq_refl).
  apply executeOperation_spec in E as (Hu & Er & Ecu & Ei & st3 & S3 & ->); [|done|fold op; lia|done|done|cbn; lia|cbn; lia|done|fold op; lia].
  fold op in Hu. cbn in Er, Ecu, Ei. exists op. split_and!; try done.
  - unfold charged. split_and!; [lia|lia|lia|done|done].
  - unfold pool_ok, is_u64. lia.
  - exists st3. split; [|done]. intros a. by rewrite (S3 a), (S2 a), (S1 a).
Qed.

(** ** The operations of a chain *)

(** An operation that was executed: its transaction, the operation and the gas charged. *)
Record executed := { ex_tx : vtx; ex_op : UserOperation; ex_used : Z }.

(** A stretch of the chain: the operations executed, in order, between any other steps,
    among them the execution of the transactions that carry the operations.  These
    may change the state and the gas pool (a new block brings a new pool) but not the
    nonces of operations; [others] is the gas they took from the pool. *)
Inductive operations (config : ChainConfig.ChainConfig) (st : S) (gp : GasPool) : list executed → Z → S → GasPool → Prop :=
| operations_start : operations config st gp [] 0 st gp
| operations_run ops others st1 gp1 number time tx used st2 gp2 op :
    operations config st gp ops others st1 gp1 → ProcessAccountAbstraction config number time st1 gp1 tx = (used, None, st2, gp2) →
    DecodeAccountAbstraction tx.(vt_Data) = Ok op →
    operations config st gp (ops ++ [{| ex_tx := tx; ex_op := op; ex_used := used |}]) others st2 gp2
| operations_other ops others st1 gp1 st2 gp2 :
    operations config st gp ops others st1 gp1 → (∀ a, Us a → accountAbstractionNonce st2 a = accountAbstractionNonce st1 a) → pool_ok gp2 →
    operations config st gp ops (others + (gp1.(remaining) - gp2.(remaining))) st2 gp2.

(** The operations of one account. *)
Definition noncesOf (a : address) (ops : list executed) : list Z := (λ o, o.(ex_op).(uo_Nonce)) <$> filter (λ o, o.(ex_op).(uo_Sender) = a) ops.

(** Their nonces follow each other. *)
Definition consecutive (n : Z) (l : list Z) : Prop := l = (λ i, n + Z.of_nat i) <$> seq 0 (length l).

Lemma consecutive_snoc n l : consecutive n l → consecutive n (l ++ [n + Z.of_nat (length l)]).
Proof. unfold consecutive. intros Hl. rewrite length_app. cbn [length]. rewrite Nat.add_1_r, seq_S, fmap_app, <- Hl. done. Qed.

Lemma noncesOf_snoc a ops o : noncesOf a (ops ++ [o]) = noncesOf a ops ++ if decide (o.(ex_op).(uo_Sender) = a) then [o.(ex_op).(uo_Nonce)] else [].
Proof. unfold noncesOf. rewrite filter_app, fmap_app. f_equal. rewrite filter_cons, filter_nil. by case_decide. Qed.

(** The nonce behind an operation. *)
Lemma nonce_after st st0 op : sameNonces st st0 → Us op.(uo_Sender) → op.(uo_Nonce) = accountAbstractionNonce st op.(uo_Sender) → 0 <= op.(uo_Nonce) → op.(uo_Nonce) + 1 < two64 →
  ∀ a, Us a → accountAbstractionNonce (setAccountAbstractionNonce st0 op.(uo_Sender) (op.(uo_Nonce) +₆₄ 1)) a
    = accountAbstractionNonce st a + if decide (op.(uo_Sender) = a) then 1 else 0.
Proof using HN.
  intros S0 Hs Hn H0 H1 a Ha. rewrite nonce_set by (done || apply u64_range). rewrite (S0 a). case_decide as Hd; [subst a|lia].
  rewrite u64_small by (unfold is_u64; lia). lia.
Qed.

(** C23: The entry point for user operations.  Let operations be executed, in one block
    or in many, with anything else in between that leaves their nonces alone, the
    execution of the enclosing transactions included.  Every operation was signed by
    its sender for this chain and the entry point; those of one account have the
    nonces that follow the stored one, so none is executed twice or out of order, and
    the stored nonce counts them, as long as it stays below [2^64]; each is charged at
    least its pre-verification gas and at most its limits, and what the gas pool lost
    is the sum of these charges and what the other steps took.  (The policy for
    private execution refuses the enclosing transactions at present.) *)
Theorem user_operations_in_order config st gp ops others st' gp' : pool_ok gp →
  operations config st gp ops others st' gp' →
  (∀ o, o ∈ ops → Us o.(ex_op).(uo_Sender) ∧ accountAbstractionNonce st o.(ex_op).(uo_Sender) + Z.of_nat (length ops) < two64) →
  Forall (λ o, authorised o.(ex_tx) o.(ex_op) ∧ ChainConfig.ChainID config = Some o.(ex_tx).(vt_ChainId)
               ∧ o.(ex_op).(uo_PreVerificationGas) <= o.(ex_used) <= o.(ex_op).(uo_CallGasLimit) + o.(ex_op).(uo_VerificationGasLimit)) ops
  ∧ (∀ a, Us a → consecutive (accountAbstractionNonce st a) (noncesOf a ops)
                 ∧ accountAbstractionNonce st' a = accountAbstractionNonce st a + Z.of_nat (length (noncesOf a ops)))
  ∧ gp'.(remaining) = gp.(remaining) - zsum ex_used ops - others ∧ pool_ok gp'.
Proof using HL HN.
  intros Hgp H. induction H as [|ops others st1 gp1 number time tx used st2 gp2 op _ IH Ep Ed|ops others st1 gp1 st2 gp2 _ IH Hk Hgp2]; intros Hus.
  - split_and!; [constructor|intros a Ha; split; [done|cbn; lia]|cbn; lia|done].
  - destruct IH as (HF & HC & HR & Hgp1).
    { intros o Ho. destruct (Hus o ltac:(set_solver)) as [HU Hlt]. rewrite length_app in Hlt. split; [done|lia]. }
    apply process_spec in Ep as (op' & Ha & Hchain & Hn & Hn64 & (Hu & Hrem & _) & Hgp2 & st0 & S0 & ->); [|done].
    assert (op' = op) as -> by (destruct Ha as [Ha _]; rewrite Ed in Ha; by apply Ok_inj in Ha). unfold is_u64 in Hn64.
    set (o := {| ex_tx := tx; ex_op := op; ex_used := used |}) in *. destruct (Hus o ltac:(set_solver)) as [Hs Hlt]. cbn [o ex_op] in Hs, Hlt. rewrite length_app in Hlt. cbn [length] in Hlt.
    assert (Hlen : (length (noncesOf op.(uo_Sender) ops) <= length ops)%nat) by (unfold noncesOf; rewrite length_fmap; apply length_filter).
    destruct (HC _ Hs) as [_ Hns]. pose proof (nonce_after st1 st0 op S0 Hs Hn ltac:(lia) ltac:(lia)) as Hafter. split_and!; [| | |done].
    + apply Forall_app. split; [done|]. apply Forall_singleton. done.
    + intros a HUa. destruct (HC a HUa) as [Hc Hl]. rewrite Hafter, noncesOf_snoc by done. cbn [o ex_op]. case_decide as Hd.
      * subst a. rewrite Hn, Hl, length_app. cbn [length]. split; [by apply consecutive_snoc|lia].
      * rewrite app_nil_r. split; [done|lia].
    + rewrite zsum_app, zsum_cons. cbn [zsum o ex_used]. change (zsum ex_used []) with 0. lia.
  - destruct (IH Hus) as (HF & HC & HR & _). split_and!; [done| |lia|done]. intros a Ha. rewrite Hk by done. by apply HC.
Qed.

End Operations.
End UserOperations.
