(* ===== verification/UserDemo.v ===== *)
(** * Two user operations

    The theorem of [UserOperations] applied to two operations of one account, with an EVM
    that uses half of its gas. *)

From S2P Require Import Prelude Bytes RLP RLPStream RLPTypes State ChainConfig FeeMarket ValidatorRegistry ShieldedTree Oracle OracleDemo AccountAbstraction UserOperations.
Import RLP RLPStream RLPTypes FeeMarket ValidatorRegistry Oracle OracleDemo AccountAbstraction UserOperations.

Module UserDemo.

#[local] Existing Instance RefUint256.
#[local] Existing Instance FlatWorldState.

#[global] Instance HalfGas : EntryCalls (S := flatState) := λ st _ _ _ g, (st, NewGasBudget (g.(RegularGas) / 2), None).

#[global] Instance half_laws : EntryLaws.
Proof.
  split; [|done]. intros st a b d g Hg. unfold evmCall, HalfGas. cbn [fst snd RegularGas NewGasBudget].
  split; [apply Z.div_pos; lia|apply Z.div_le_upper_bound; lia].
Qed.

Definition onlySeven (a : address) : Prop := a = 7.
#[global] Instance seven_slots : NonceUse onlySeven.
Proof. intros a b -> -> _. done. Qed.

Definition demoOperation (nonce : Z) : UserOperation :=
  {| uo_Sender := 7; uo_Nonce := nonce; uo_InitCode := []; uo_CallData := address_bytes 9 ++ [1; 2]; uo_CallGasLimit := 1000; uo_VerificationGasLimit := 100;
     uo_PreVerificationGas := 700; uo_MaxFeePerGas := 5; uo_MaxPriorityFeePerGas := 1; uo_PaymasterAndData := []; uo_Algorithm := []; uo_PublicKey := [];
     uo_Signature := signature7 |}.
Definition operationTx (nonce : Z) : vtx :=
  {| vt_Type := PQTkmTxType; vt_To := Some TKMEntryPointAddress; vt_Value := 0; vt_ChainId := 8979;
     vt_Data := match EncodeAccountAbstraction (demoOperation nonce) with Ok b => b | Err _ => [] end; vt_PQ := None; vt_Hash := 1 |}.
Definition demoPool : GasPool := NewGasPool 10000.

(** The first operation, another transaction that pays an account for 300 gas, and the second operation. *)
Definition firstRun : Z * option aaError * flatState * GasPool := ProcessAccountAbstraction relayConfig 10 relayTime emptyFlat demoPool (operationTx 0).
Definition between : flatState := AddBalance firstRun.1.2 3 50.
Definition poolBetween : GasPool := {| remaining := 9000; initial := 10000; cumulativeUsed := 1000 |}.
Definition secondRun : Z * option aaError * flatState * GasPool := ProcessAccountAbstraction relayConfig 10 relayTime between poolBetween (operationTx 1).

Definition demoExecuted : list executed :=
  [{| ex_tx := operationTx 0; ex_op := demoOperation 0; ex_used := 700 |}; {| ex_tx := operationTx 1; ex_op := demoOperation 1; ex_used := 700 |}].

Lemma operation_read n : n = 0 ∨ n = 1 → DecodeAccountAbstraction (operationTx n).(vt_Data) = Ok (demoOperation n).
Proof. intros [->| ->]; vm_compute; reflexivity. Qed.

Lemma run_eq (r : Z * option aaError * flatState * GasPool) : r.1.1 = (700, None) → r = (700, None, r.1.2, r.2).
Proof. destruct r as [[[u e] st] gp]. cbn. by intros [= -> ->]. Qed.

Lemma first_run : ProcessAccountAbstraction relayConfig 10 relayTime emptyFlat demoPool (operationTx 0) = (700, None, firstRun.1.2, firstRun.2).
Proof. unfold firstRun. apply run_eq. vm_compute. reflexivity. Qed.
Lemma second_run : ProcessAccountAbstraction relayConfig 10 relayTime between poolBetween (operationTx 1) = (700, None, secondRun.1.2, secondRun.2).
Proof. unfold secondRun. apply run_eq. vm_compute. reflexivity. Qed.

Lemma operations_demo : operations onlySeven relayConfig emptyFlat demoPool demoExecuted (0 + (firstRun.2.(remaining) - poolBetween.(remaining))) secondRun.1.2 secondRun.2.
Proof.
  change demoExecuted with (([] ++ [{| ex_tx := operationTx 0; ex_op := demoOperation 0; ex_used := 700 |}]) ++ [{| ex_tx := operationTx 1; ex_op := demoOperation 1; ex_used := 700 |}]).
  refine (operations_run onlySeven relayConfig emptyFlat demoPool _ _ between poolBetween 10 relayTime _ _ _ _ _ _ second_run (operation_read 1 (or_intror eq_refl))).
  refine (operations_other onlySeven relayConfig emptyFlat demoPool _ 0 firstRun.1.2 firstRun.2 between poolBetween _ _ _);
    [|intros a _; unfold between, accountAbstractionNonce; by rewrite GetState_Add|split; vm_compute; congruence].
  exact (operations_run onlySeven relayConfig emptyFlat demoPool _ _ emptyFlat demoPool 10 relayTime _ _ _ _ _ (operations_start _ _ _ _) first_run (operation_read 0 (or_introl eq_refl))).
Qed.

(** Both are executed, in order, for 700 gas each. *)
Lemma user_operations_in_order_witness :
  consecutive 0 (noncesOf 7 demoExecuted) ∧ accountAbstractionNonce secondRun.1.2 7 = 0 + 2 ∧ secondRun.2.(remaining) = 10000 - 1400 - (9300 - 9000).
Proof.
  destruct (user_operations_in_order onlySeven relayConfig emptyFlat demoPool demoExecuted _ secondRun.1.2 secondRun.2 ltac:(split; vm_compute; congruence) operations_demo) as (_ & H1 & H2 & _).
  - intros o Hin. apply elem_of_cons in Hin as [->| ->%list_elem_of_singleton]; split; vm_compute; reflexivity.
  - destruct (H1 7 eq_refl) as [H3 H4]. split; [exact H3|]. split; [exact H4|]. exact H2.
Defined.

End UserDemo.
