(* ===== verification/PrivateExecution.v ===== *)
(** * Private execution

    [core/private_tvm.go]: transitions of the private virtual machine, which replace one
    hidden storage root by another under a proof of [zk/shielded3]; and
    [core/private_execution.go]: which transactions may execute at all once Antartical is
    active. *)

From S2P Require Import Prelude Bytes RLPTypes State ChainConfig Rewards ValidatorRegistry ShieldedCrypto ShieldedTree Stamps AddressVotes ShieldedEnvelopes ShieldedOnly ShieldedSpend.
Import RLPTypes ValidatorRegistry ShieldedCrypto ShieldedTree Stamps AddressVotes ShieldedEnvelopes ShieldedOnly ShieldedSpend.

Module PrivateExecution.

Definition PrivateTVMMagic : bytes := str "TKMPRIVATEVM1".
Definition PrivateTVMVerifyGas : Z := 3000000.
Definition PrivateTVMMaxDataSize : Z := ShieldedV3MaxTxSize.
Definition privateTVMMaxCiphertext : nat := 16 * 1024.
Definition privateTVMRootRole : bytes := str "private-tvm/root".
Definition privateTVMPublicWords : nat := 34.
Definition MaxProofSize : Z := 4 + maxProofWords * 8.
Definition ErrInvalidPrivateTVM : vError := ErrText "invalid private TVM transaction".
Definition ErrPublicExecutionDisabled : vError :=
  ErrText "transparent EVM/TVM execution is disabled after Antartical; use a Shield3 or Shield4 private envelope".

Record PrivateTVMTransaction := {
  pv_Version : Z;
  pv_CodeHash : Digest;
  pv_OldRoot : Digest;
  pv_NewRoot : Digest;
  pv_Operation : Z;
  pv_Ciphertext : bytes;
  pv_Proof : bytes;
}.

Definition privateType : rtype := RStruct (pair false <$> [RUint 64; digestType; digestType; digestType; RUint 64; RByteSlice; RByteSlice]).
Definition privateVal (e : PrivateTVMTransaction) : rval :=
  VList [VNum e.(pv_Version); VList (VNum <$> e.(pv_CodeHash)); VList (VNum <$> e.(pv_OldRoot)); VList (VNum <$> e.(pv_NewRoot)); VNum e.(pv_Operation);
         VBytes e.(pv_Ciphertext); VBytes e.(pv_Proof)].
Definition privateOf (v : rval) : option PrivateTVMTransaction :=
  match v with
  | VList [VNum version; VList code; VList old; VList new; VNum operation; VBytes ciphertext; VBytes proof] =>
      Some {| pv_Version := version; pv_CodeHash := numOf <$> code; pv_OldRoot := numOf <$> old; pv_NewRoot := numOf <$> new; pv_Operation := operation; pv_Ciphertext := ciphertext;
              pv_Proof := proof |}
  | _ => None
  end.

Definition withoutProof (e : PrivateTVMTransaction) : PrivateTVMTransaction := {|
  pv_Version := e.(pv_Version); pv_CodeHash := e.(pv_CodeHash); pv_OldRoot := e.(pv_OldRoot); pv_NewRoot := e.(pv_NewRoot);
  pv_Operation := e.(pv_Operation); pv_Ciphertext := e.(pv_Ciphertext); pv_Proof := [] |}.

(** [shielded3.PrivateTVMStatement] *)
Record PrivateTVMStatement := {
  ps_ChainID : Z;
  ps_CodeHash : Digest;
  ps_OldRoot : Digest;
  ps_NewRoot : Digest;
  ps_Intent : bytes;
  ps_Operation : Z;
}.

Definition privateTVMWords (s : PrivateTVMStatement) : result vError (list Z) :=
  _ ← fail_if ((s.(ps_ChainID) =? 0) || bool_decide (s.(ps_CodeHash) = zeroDigest) || bool_decide (s.(ps_Intent) = replicate 64 0) || (1 <? s.(ps_Operation)))
        ErrInvalidStatement;
  let ws := [s.(ps_ChainID) mod 2 ^ 32; Z.shiftr s.(ps_ChainID) 32] ++ s.(ps_CodeHash) ++ s.(ps_OldRoot) ++ s.(ps_NewRoot)
            ++ ((λ i, be_value (slice s.(ps_Intent) (4 * i) (4 * i + 4))) <$> seq 0 16) ++ [s.(ps_Operation)] in
  _ ← fail_if (negb (length ws =? privateTVMPublicWords)%nat || negb (canonical ws)) ErrInvalidStatement;
  Ok ws.

Section Private.
Context {X : Externals} {N : Native}.

Definition HasPrivateTVMPrefix (data : bytes) : bool := has_prefix data PrivateTVMMagic.
Definition EncodePrivateTVMTransaction (e : PrivateTVMTransaction) : result vError bytes := encodeWith PrivateTVMMagic privateType (privateVal e).

(** [None]: other data. *)
Definition DecodePrivateTVMTransaction (data : bytes) : result vError (option PrivateTVMTransaction) :=
  if negb (HasPrivateTVMPrefix data) then Ok None
  else if PrivateTVMMaxDataSize <? Z.of_nat (length data) then Err ErrInvalidPrivateTVM
  else
    match decodeInto privateType privateOf (drop (length PrivateTVMMagic) data) with
    | Err _ => Err ErrInvalidPrivateTVM
    | Ok e => Ok (Some e)
    end.

Definition PrivateTVMIntent (tx : stx) (e : PrivateTVMTransaction) : result vError bytes :=
  intentOf (str "TKM_PRIVATE_TVM_INTENT_V1") tx (EncodePrivateTVMTransaction (withoutProof e)).

Definition privateTVMStatement (config : ChainConfig.ChainConfig) (tx : stx) (e : PrivateTVMTransaction) : result vError PrivateTVMStatement :=
  match ChainConfig.ChainID config with
  | None => Err ErrInvalidPrivateTVM
  | Some id =>
      _ ← fail_if (negb (bool_decide (is_u64 id))) ErrInvalidPrivateTVM;
      intent ← PrivateTVMIntent tx e;
      Ok {| ps_ChainID := id; ps_CodeHash := e.(pv_CodeHash); ps_OldRoot := e.(pv_OldRoot); ps_NewRoot := e.(pv_NewRoot); ps_Intent := intent;
            ps_Operation := e.(pv_Operation) mod 256 |}
  end.

Definition ValidatePrivateTVMBasics (config : ChainConfig.ChainConfig) (number time : Z) (tx : stx) : result vError PrivateTVMTransaction :=
  let t := tx.(sx_tx) in
  _ ← fail_if (negb (ChainConfig.IsAntartical config number time) || negb (ChainConfig.IsPrivacyCommitments config number time)) ErrInvalidPrivateTVM;
  _ ← fail_if (negb (toPool t.(vt_Type) t.(vt_To)) || negb (t.(vt_Value) =? 0)) ErrInvalidPrivateTVM;
  _ ← fail_if (negb (bool_decide (ChainConfig.ChainID config = Some t.(vt_ChainId)))) ErrInvalidPrivateTVM;
  d ← DecodePrivateTVMTransaction t.(vt_Data);
  match d with
  | None => Err ErrInvalidPrivateTVM
  | Some e =>
      _ ← fail_if (negb (e.(pv_Version) =? 1) || (1 <? e.(pv_Operation)) || bool_decide (e.(pv_CodeHash) = zeroDigest)
                   || bool_decide (e.(pv_OldRoot) = zeroDigest) || bool_decide (e.(pv_NewRoot) = zeroDigest)) ErrInvalidPrivateTVM;
      _ ← fail_if ((length e.(pv_Ciphertext) =? 0)%nat || (privateTVMMaxCiphertext <? length e.(pv_Ciphertext))%nat || negb (validProof e.(pv_Proof)))
            ErrInvalidPrivateTVM;
      _ ← privateTVMStatement config tx e;
      Ok e
  end.

Definition VerifyPrivateTVM (s : PrivateTVMStatement) (proof : bytes) : result vError unit := verifyWith (str "TKMPTVM1") 12 (privateTVMWords s) proof.

Definition ValidatePrivateTVMProof (config : ChainConfig.ChainConfig) (number time : Z) (tx : stx) : result vError unit :=
  e ← ValidatePrivateTVMBasics config number time tx;
  statement ← privateTVMStatement config tx e;
  match VerifyPrivateTVM statement e.(pv_Proof) with Err _ => Err ErrInvalidPrivateTVM | Ok _ => Ok () end.

(** The data that is charged and the gas of the proof. *)
Definition PrivateTVMGasData (data : bytes) : result vError (bytes * Z) :=
  d ← DecodePrivateTVMTransaction data;
  match d with
  | None => Ok (data, 0)
  | Some e =>
      _ ← fail_if (MaxProofSize <? Z.of_nat (length e.(pv_Proof))) ErrInvalidPrivateTVM;
      encoded ← EncodePrivateTVMTransaction (withoutProof e);
      Ok (encoded, PrivateTVMVerifyGas + Z.of_nat (length e.(pv_Proof)))
  end.

(** ** Policy *)

Definition isBlockReward (tx : stx) : bool :=
  let t := tx.(sx_tx) in
  Rewards.IsBlockRewardTx (Some {| Rewards.tx_Type := t.(vt_Type); Rewards.tx_Nonce := tx.(sx_Nonce); Rewards.tx_To := t.(vt_To); Rewards.tx_Value := t.(vt_Value);
                                   Rewards.tx_Gas := tx.(sx_Gas); Rewards.tx_GasPrice := tx.(sx_GasFeeCap); Rewards.tx_Data := t.(vt_Data) |}).

Definition validatePrivateExecutionFields (config : ChainConfig.ChainConfig) (number time txType : Z) (to : option address) (value : Z) (data : bytes)
    (blockReward : bool) : result vError unit :=
  let antartical := ChainConfig.IsAntartical config number time in
  if antartical && isValidatorProtocolEnvelope data && negb (ChainConfig.IsValidatorTransactionsActive config number time)
  then Err ErrValidatorTransactionsNotActive
  else if ChainConfig.IsShieldedOnly config number time then shieldedOnlyFields txType to value data
  else if negb antartical || blockReward then Ok ()
  else if negb (txType =? PQTkmTxType) then Err ErrPublicExecutionDisabled
  else if HasAntarticalStampPrefix data then Ok ()
  else if HasAddressVotePrefix data then Ok ()
  else if HasValidatorRegistrationPrefix data || HasValidatorSlashPrefix data || HasValidatorExitPrefix data || HasValidatorWithdrawalPrefix data then Ok ()
  else if HasShieldedV3Prefix data || HasShieldedV4Prefix data || HasShieldedV5Prefix data || HasShieldedV6Prefix data then Ok ()
  else Err ErrPublicExecutionDisabled.

Definition ValidatePrivateExecutionMessage (config : ChainConfig.ChainConfig) (number time txType : Z) (to : option address) (value : Z) (data : bytes)
    : result vError unit :=
  validatePrivateExecutionFields config number time txType to value data false.

Definition ValidatePrivateExecutionPolicy (config : ChainConfig.ChainConfig) (number time : Z) (tx : stx) : result vError unit :=
  let t := tx.(sx_tx) in
  let pq := t.(vt_Type) =? PQTkmTxType in
  _ ← ValidateShieldedOnlyTransaction config number time t;
  if negb (ChainConfig.IsAntartical config number time) then Ok ()
  else if pq && HasAntarticalStampPrefix t.(vt_Data) then ValidateAntarticalStampBasics config number time tx
  else if pq && HasAddressVotePrefix t.(vt_Data) then ValidateAddressVoteBasics config number time t
  else if pq && HasValidatorRegistrationPrefix t.(vt_Data) then ValidateValidatorRegistrationBasics config number time t
  else if pq && HasValidatorSlashPrefix t.(vt_Data) then ValidateValidatorSlashBasics config number time t
  else if pq && (HasValidatorExitPrefix t.(vt_Data) || HasValidatorWithdrawalPrefix t.(vt_Data)) then ValidateValidatorActionBasics config number time t
  else validatePrivateExecutionFields config number time t.(vt_Type) t.(vt_To) t.(vt_Value) t.(vt_Data) (isBlockReward tx).

(** ** Transitions *)

Context {U : Uint256} {S : Type} {W : WorldState S}.

Definition PrivateTVMStateRoot (st : S) : result vError Digest := v3ReadDigest st privateTVMRootRole [].

Definition processPrivateTVM (config : ChainConfig.ChainConfig) (number time : Z) (st : S) (tx : stx) : option vError * S :=
  match ValidatePrivateTVMProof config number time tx with
  | Err e => (Some e, st)
  | Ok _ =>
      match DecodePrivateTVMTransaction tx.(sx_tx).(vt_Data) with
      | Ok (Some e) =>
          match PrivateTVMStateRoot st with
          | Err err => (Some err, st)
          | Ok current =>
              if bool_decide (current = zeroDigest) && (e.(pv_Operation) =? 0) then (Some ErrInvalidPrivateTVM, st)
              else if negb (bool_decide (current = zeroDigest)) && negb (bool_decide (current = e.(pv_OldRoot))) then (Some ErrInvalidPrivateTVM, st)
              else
                match PrivateTVMIntent tx e with
                | Err err => (Some err, st)
                | Ok intent =>
                    if negb (getSlot st (str "private-tvm/intent") intent =? 0) then (Some ErrInvalidPrivateTVM, st)
                    else
                      let st := v3WriteDigest st privateTVMRootRole [] e.(pv_NewRoot) in
                      (None, setSlot st (str "private-tvm/intent") intent tx.(sx_tx).(vt_Hash))
                end
          end
      | _ => (Some ErrInvalidPrivateTVM, st)
      end
  end.

Definition ProcessPrivateTVMForMiner := processPrivateTVM.

End Private.
End PrivateExecution.
