(* ===== verification/PrivateRoots.v ===== *)
(** * What private execution guarantees

    The transitions of the private virtual machine form one chain of roots, each under a
    proof of its own; and once Antartical is active only private envelopes execute. *)

From S2P Require Import Prelude Bytes RLPTypes RLPValues State ChainConfig FeeMarket StateTransition ValidatorRegistry ShieldedTree NoteTree Stamps AddressVotes ShieldedEnvelopes ShieldedOnly ShieldedSpend Oracle AccountAbstraction PrivateExecution.
Import RLPTypes RLPValues ValidatorRegistry ShieldedTree NoteTree Stamps AddressVotes ShieldedEnvelopes ShieldedOnly ShieldedSpend Oracle AccountAbstraction PrivateExecution.

Module PrivateRoots.

(** ** Private transitions *)

Section Roots.
Context {X : Externals} {N : Native} {U : Uint256} {S : Type} {W : WorldState S}.

Definition intentRole : bytes := str "private-tvm/intent".

(** The intents in use, and the root, have slots of their own. *)
Context (P : bytes → Prop).
Class TVMUse := {
  root_slots : ShieldedV3StateSlot (privateTVMRootRole ++ str "/0") [] ≠ ShieldedV3StateSlot (privateTVMRootRole ++ str "/1") [];
  intent_slots i j : P i → P j → ShieldedV3StateSlot intentRole i = ShieldedV3StateSlot intentRole j → i = j;
  intent_root0 i : P i → ShieldedV3StateSlot intentRole i ≠ ShieldedV3StateSlot (privateTVMRootRole ++ str "/0") [];
  intent_root1 i : P i → ShieldedV3StateSlot intentRole i ≠ ShieldedV3StateSlot (privateTVMRootRole ++ str "/1") [];
}.
Context {HT : TVMUse}.

Definition spent (st : S) (intent : bytes) : Prop := getSlot st intentRole intent ≠ 0.

(** The state after a transition. *)
Definition transition (st : S) (root : Digest) (intent : bytes) (txHash : hash) : S := setSlot (v3WriteDigest st privateTVMRootRole [] root) intentRole intent txHash.

Lemma transition_root st root intent txHash : P intent → digest_ok root → PrivateTVMStateRoot (transition st root intent txHash) = Ok root.
Proof using HT.
  intros Hi Hd. destruct (digest_split root Hd) as [E0 E1]. unfold PrivateTVMStateRoot, transition, v3ReadDigest, v3WriteDigest, getSlot, setSlot.
  pose proof root_slots. pose proof (intent_root0 intent Hi). pose proof (intent_root1 intent Hi).
  rewrite !GetState_SetState. repeat case_decide; try (exfalso; tauto || (destruct_and?; congruence)). clear -E0 E1 Hd.
  rewrite E0, E1, take_app_length', drop_app_length' by done. cbn [existsb replicate Z.eqb negb orb].
  rewrite take_drop. by apply DigestFromBytes_Bytes.
Qed.

Lemma transition_spent st root intent txHash i : P intent → P i →
  getSlot (transition st root intent txHash) intentRole i = if decide (intent = i) then txHash else getSlot st intentRole i.
Proof using HT.
  intros Hi Hj. unfold transition, v3WriteDigest, getSlot, setSlot. pose proof (intent_root0 i Hj). pose proof (intent_root1 i Hj). case_decide as Hd.
  - subst. by rewrite GetState_SetState_eq.
  - rewrite !GetState_SetState_ne; [done|right; congruence..|]. right. intros E. by apply Hd, intent_slots.
Qed.

Lemma digest_typed l : Forall (hasType (RUint 64)) l → length l = 5%nat → canonical (numOf <$> l) = true → digest_ok (numOf <$> l).
Proof.
  intros Ht Hl Hc. split; [by rewrite length_fmap|]. apply Forall_fmap. apply Is_true_true, forallb_True in Hc. rewrite Forall_fmap in Hc.
  rewrite Forall_forall in Ht, Hc |- *. intros v Hv. destruct (Ht v Hv) as (n & -> & Hn). specialize (Hc _ Hv). cbn in *. apply Is_true_true in Hc. lia.
Qed.

(** The new root of a proved transition is a digest. *)
Lemma proved_root config number time tx e : bytes_ok tx.(sx_tx).(vt_Data) →
  ValidatePrivateTVMProof config number time tx = Ok () → DecodePrivateTVMTransaction tx.(sx_tx).(vt_Data) = Ok (Some e) →
  digest_ok e.(pv_NewRoot) ∧ e.(pv_NewRoot) ≠ zeroDigest ∧ 0 <= e.(pv_Operation) <= 1.
Proof.
  intros Hb Hv Hd. unfold ValidatePrivateTVMProof in Hv. apply bind_ok in Hv as (e' & He & Hv). apply bind_ok in Hv as (s & Hs & Hv).
  unfold ValidatePrivateTVMBasics in He. do 3 apply bind_ok in He as (_ & _ & He). apply bind_ok in He as (d & Hd' & He). rewrite Hd in Hd'. apply Ok_inj in Hd' as <-.
  apply bind_ok in He as (_ & Hf%fail_if_ok & He). apply bind_ok in He as (_ & _ & He). apply bind_ok in He as (_ & _ & He). apply Ok_inj in He as <-.
  rewrite !orb_false_iff, !bool_decide_eq_false in Hf. destruct Hf as [[[[_ Hop] _] _] Hnz].
  unfold VerifyPrivateTVM, verifyWith in Hv. destruct (privateTVMWords s) as [ws|] eqn:Ew; [|done].
  unfold privateTVMWords in Ew. apply bind_ok in Ew as (_ & _ & Ew). apply bind_ok in Ew as (_ & [_ Hc%negb_false_iff]%fail_if_ok%orb_false_iff & _).
  unfold canonical in Hc. rewrite !forallb_app, !andb_true_iff in Hc. destruct Hc as (_ & _ & _ & Hc & _).
  assert (Hn : s.(ps_NewRoot) = e.(pv_NewRoot)).
  { unfold privateTVMStatement in Hs. destruct (ChainConfig.ChainID config); [|done]. apply bind_ok in Hs as (_ & _ & Hs). apply bind_ok in Hs as (i & _ & Hs).
    by apply Ok_inj in Hs as <-. }
  rewrite Hn in Hc. unfold DecodePrivateTVMTransaction in Hd. case_match; [done|]. destruct (Z.ltb_spec PrivateTVMMaxDataSize (Z.of_nat (length (vt_Data (sx_tx tx))))); [done|].
  destruct (decodeInto _ _ _) as [e'|] eqn:Ed; [|done]. apply Ok_inj in Hd as [= ->].
  apply decodeInto_typed in Ed as (v & Ht & Ev); [|done|by apply Forall_drop|rewrite length_drop; unfold PrivateTVMMaxDataSize, ShieldedV3MaxTxSize, two64 in *; lia].
  unfold privateOf in Ev. destruct v as [| | | |vs]; try done.
  repeat (case_match; try done). injection Ev as <-. subst. cbn in Ht, Hc, Hop, Hnz |- *. destruct Ht as (? & [= <-] & Ht).
  destruct Ht as (_ & _ & _ & [(? & [= <-] & Hvs & Hl)|[? _]] & [(? & [= <-] & Hr)|[? _]] & _); try done. split_and!; [by apply digest_typed|done|lia|lia].
Qed.
(** What an accepted transaction says. *)
Definition proved (config : ChainConfig.ChainConfig) (number time : Z) (tx : stx) (e : PrivateTVMTransaction) (intent : bytes) : Prop :=
  ValidatePrivateTVMProof config number time tx = Ok () ∧ DecodePrivateTVMTransaction tx.(sx_tx).(vt_Data) = Ok (Some e) ∧ PrivateTVMIntent tx e = Ok intent.

(** It starts from the current root, or initialises it by a write. *)
Definition follows (current : Digest) (e : PrivateTVMTransaction) : Prop :=
  if decide (current = zeroDigest) then e.(pv_Operation) = 1 else e.(pv_OldRoot) = current.

Lemma process_private config number time st tx st' : bytes_ok tx.(sx_tx).(vt_Data) → processPrivateTVM config number time st tx = (None, st') →
  ∃ e intent current, proved config number time tx e intent ∧ digest_ok e.(pv_NewRoot) ∧ PrivateTVMStateRoot st = Ok current ∧ follows current e
    ∧ ¬ spent st intent ∧ st' = transition st e.(pv_NewRoot) intent tx.(sx_tx).(vt_Hash).
Proof.
  intros Hb E. unfold processPrivateTVM in E. destruct (ValidatePrivateTVMProof config number time tx) as [[]|] eqn:Ev; [|done].
  destruct (DecodePrivateTVMTransaction _) as [[e|]|] eqn:Ed; try done. destruct (proved_root config number time tx e Hb Ev Ed) as (Hr & Hz & Hop).
  destruct (PrivateTVMStateRoot st) as [current|] eqn:Er; [|done]. destruct (bool_decide (current = zeroDigest) && (e.(pv_Operation) =? 0)) eqn:Hz1; [done|].
  destruct (negb (bool_decide (current = zeroDigest)) && negb (bool_decide (current = e.(pv_OldRoot)))) eqn:Hz2; [done|].
  destruct (PrivateTVMIntent tx e) as [intent|] eqn:Ei; [|done]. destruct (negb (_ =? 0)) eqn:Hs; [done|]. injection E as <-.
  exists e, intent, current. split_and!; try done.
  - unfold follows. destruct (decide (current = zeroDigest)) as [Hd|Hd].
    + rewrite (bool_decide_true (current = zeroDigest)) in Hz1 by done. cbn [andb] in Hz1. apply Z.eqb_neq in Hz1. lia.
    + rewrite (bool_decide_false (current = zeroDigest)) in Hz2 by done. cbn in Hz2. apply negb_false_iff, bool_decide_eq_true in Hz2. done.
  - intros Hsp. apply Hsp. apply negb_false_iff in Hs. by apply Z.eqb_eq.
Qed.

(** Nothing of the private machine changes. *)
Definition privateSame (st st' : S) : Prop :=
  getSlot st' (privateTVMRootRole ++ str "/0") [] = getSlot st (privateTVMRootRole ++ str "/0") []
  ∧ getSlot st' (privateTVMRootRole ++ str "/1") [] = getSlot st (privateTVMRootRole ++ str "/1") []
  ∧ ∀ i, P i → getSlot st' intentRole i = getSlot st intentRole i.

(** A stretch of the chain: the private transactions accepted, each with the number and
    time of its block, between any other steps that leave the slots of the private
    machine alone, among them the execution of these transactions themselves. *)
Inductive transitions (config : ChainConfig.ChainConfig) (st : S) : list (Z * Z * stx) → S → Prop :=
| transitions_start : transitions config st [] st
| transitions_private txs st1 number time tx st2 :
    transitions config st txs st1 → processPrivateTVM config number time st1 tx = (None, st2) → transitions config st (txs ++ [(number, time, tx)]) st2
| transitions_other txs st1 st2 : transitions config st txs st1 → privateSame st1 st2 → transitions config st txs st2.

Fixpoint rootChain (current : Digest) (es : list PrivateTVMTransaction) (final : Digest) : Prop :=
  match es with
  | [] => final = current
  | e :: es => follows current e ∧ rootChain e.(pv_NewRoot) es final
  end.

Lemma rootChain_snoc current es e final : rootChain current es final → follows final e → rootChain current (es ++ [e]) e.(pv_NewRoot).
Proof. revert current. induction es as [|e' es IH]; intros current Hc Hf; cbn in *; [by subst|]. destruct Hc as [? ?]. split; [done|by apply IH]. Qed.

Lemma privateSame_root st st' : privateSame st st' → PrivateTVMStateRoot st' = PrivateTVMStateRoot st.
Proof. intros (H0 & H1 & _). unfold PrivateTVMStateRoot, v3ReadDigest. by rewrite H0, H1. Qed.

Lemma transition_spends st root intent txHash i : P intent → P i → txHash ≠ 0 → spent (transition st root intent txHash) i ↔ i = intent ∨ spent st i.
Proof using HT. intros Hn Hi Hh. unfold spent. rewrite transition_spent by done. case_decide as Hdec; [subst|]; naive_solver. Qed.

Lemma proved_intents config txs es intents :
  Forall (λ t, bytes_ok t.2.(sx_tx).(vt_Data) ∧ t.2.(sx_tx).(vt_Hash) ≠ 0 ∧ ∀ e intent, proved config t.1.1 t.1.2 t.2 e intent → P intent) txs →
  Forall3 (λ t e intent, proved config t.1.1 t.1.2 t.2 e intent) txs es intents → Forall P intents.
Proof.
  intros HF H3. induction H3 as [|t e i txs es ints Ht _ IH]; [constructor|]. apply Forall_cons in HF as [(_ & _ & HP) HF]. constructor; [by eapply HP|by apply IH].
Qed.

(** C24: The transitions of the private virtual machine.  Let private transactions be
    accepted, in one block or in many, from a state with some private root, with
    anything else in between that leaves the slots of the private machine alone, the
    execution of these transactions included.  Every one carries a proof that the native
    verifier accepted for its own fields, roots and intent; each starts from the root
    the previous one left, the first from the stored root or, when there is none, with
    a write; the last new root is stored; and their intents are distinct, were not
    spent before and are afterwards.  (The policy for private execution refuses the
    enclosing transactions at present.) *)
Theorem private_roots_chain config st txs st' current : PrivateTVMStateRoot st = Ok current → transitions config st txs st' →
  Forall (λ t, bytes_ok t.2.(sx_tx).(vt_Data) ∧ t.2.(sx_tx).(vt_Hash) ≠ 0 ∧ ∀ e intent, proved config t.1.1 t.1.2 t.2 e intent → P intent) txs →
  ∃ es intents final, Forall3 (λ t e intent, proved config t.1.1 t.1.2 t.2 e intent) txs es intents
    ∧ PrivateTVMStateRoot st' = Ok final ∧ rootChain current es final
    ∧ NoDup intents ∧ Forall (λ i, ¬ spent st i ∧ spent st' i) intents
    ∧ ∀ i, P i → i ∉ intents → (spent st' i ↔ spent st i).
Proof using HT.
  intros Hr H. induction H as [|txs st1 number time tx st2 _ IH Ep|txs st1 st2 _ IH Hs]; intros HF.
  - exists [], [], current. split_and!; [constructor|done|done|constructor|constructor|done].
  - apply Forall_app in HF as [HF Hx]. apply Forall_singleton in Hx as (Hb & Hh & HP). cbn [fst snd] in *. destruct (IH HF) as (es & intents & final & H3 & Hf & Hch & Hnd & Hsp & Hrest).
    apply process_private in Ep as (e & intent & cur & Hp & Hd & Hc & Hfol & Hns & ->); [|done]. rewrite Hf in Hc. apply Ok_inj in Hc as <-.
    pose proof (HP e intent Hp) as HPi. pose proof (λ i Hi, transition_spends st1 e.(pv_NewRoot) intent tx.(sx_tx).(vt_Hash) i HPi Hi Hh) as Hst.
    pose proof (proved_intents _ _ _ _ HF H3) as Hin.
    rewrite Forall_forall in Hin, Hsp. assert (Hni : intent ∉ intents) by (intros Hi; by apply Hns, Hsp).
    exists (es ++ [e]), (intents ++ [intent]), e.(pv_NewRoot). split_and!.
    + apply Forall3_app; [done|]. apply Forall3_cons; [done|apply Forall3_nil].
    + by apply transition_root.
    + by eapply rootChain_snoc.
    + apply NoDup_app. split_and!; [done|set_solver|apply NoDup_singleton].
    + apply Forall_app. split; [|apply Forall_singleton; split; [rewrite <- Hrest by done; done|apply Hst; [done|by left]]].
      apply Forall_forall. intros i Hi. destruct (Hsp i Hi) as [Hs1 Hs2]. split; [done|]. apply Hst; [by apply Hin|by right].
    + intros i Hi Hn. rewrite Hst by done. rewrite <- (Hrest i Hi) by set_solver. set_solver.
  - destruct (IH HF) as (es & intents & final & H3 & Hf & Hch & Hnd & Hsp & Hrest). exists es, intents, final.
    pose proof (proved_intents _ _ _ _ HF H3) as Hin.
    assert (Hk : ∀ i, P i → spent st2 i ↔ spent st1 i) by (intros i Hi; unfold spent; by rewrite (proj2 (proj2 Hs))).
    split_and!; [done|by rewrite (privateSame_root _ _ Hs)|done|done| |intros i Hi Hn; rewrite Hk by done; by apply Hrest].
    rewrite Forall_forall in Hin, Hsp |- *. intros i Hi. rewrite Hk by (by apply Hin). by apply Hsp.
Qed.
End Roots.

(** ** Who may execute *)

Section Policy.
Context {X : Externals} {N : Native}.

(** The envelopes of the private protocol. *)
Definition privateEnvelope (data : bytes) : bool :=
  HasAntarticalStampPrefix data || HasAddressVotePrefix data || isValidatorProtocolEnvelope data
  || (HasShieldedV3Prefix data || HasShieldedV4Prefix data || HasShieldedV5Prefix data || HasShieldedV6Prefix data).

(** The envelopes that other handlers of the processor are for. *)
Definition otherEnvelope (data : bytes) : bool :=
  HasPrivateTVMPrefix data || HasAccountAbstractionPrefix data || HasOracleObservationPrefix data || HasCrossChainMessagePrefix data.

Definition privateMagics : list bytes :=
  [AntarticalStampMagic; AddressVoteMagic; ValidatorRegistrationMagic; ValidatorSlashMagic; ValidatorExitMagic; ValidatorWithdrawalMagic;
   ShieldedV3Magic; ShieldedV4Magic; ShieldedV5Magic; ShieldedV6Magic].
Definition otherMagics : list bytes := [PrivateTVMMagic; AccountAbstractionMagic; OracleObservationMagic; OracleQuorumMagic; CrossChainMessageMagic; CrossChainQuorumMagic].

(** None of these magics is a prefix of one of the others. *)
Lemma envelopes_disjoint data : privateEnvelope data = true → otherEnvelope data = false.
Proof.
  assert (Hex : ∀ ms, existsb (has_prefix data) ms = true ↔ ∃ m, m ∈ ms ∧ ∃ t, data = m ++ t).
  { intros ms. rewrite existsb_exists. setoid_rewrite has_prefix_spec. by setoid_rewrite list_elem_of_In. }
  assert (privateEnvelope data = existsb (has_prefix data) privateMagics) as ->.
  { unfold privateEnvelope, isValidatorProtocolEnvelope. cbn [existsb privateMagics]. rewrite orb_false_r, <- !orb_assoc. done. }
  assert (otherEnvelope data = existsb (has_prefix data) otherMagics) as ->.
  { unfold otherEnvelope, HasOracleObservationPrefix, HasOracleQuorumPrefix, HasCrossChainMessagePrefix, HasCrossChainQuorumPrefix. cbn [existsb otherMagics]. rewrite orb_false_r, <- !orb_assoc. done. }
  intros (m & Hm & t & Ht)%Hex. apply not_true_is_false. intros (m' & Hm' & t' & Ht')%Hex. rewrite Ht in Ht'. apply app_prefix in Ht'.
  assert (Hd : forallb (λ m, forallb (λ m', negb (has_prefix m m') && negb (has_prefix m' m)) otherMagics) privateMagics = true) by by vm_compute.
  rewrite forallb_forall in Hd. specialize (Hd m ltac:(by apply list_elem_of_In)). rewrite forallb_forall in Hd.
  specialize (Hd m' ltac:(by apply list_elem_of_In)). apply andb_true_iff in Hd as [H1 H2]. destruct Ht' as [E|E]; by rewrite E in *.
Qed.

Lemma toPool_spec txType to : toPool txType to = true ↔ txType = PQTkmTxType ∧ to = Some ShieldedPoolAddress.
Proof. unfold toPool. by rewrite andb_true_iff, Z.eqb_eq, bool_decide_eq_true. Qed.

Lemma shieldedOnly_private txType to value data : shieldedOnlyFields txType to value data = Ok () →
  txType = PQTkmTxType ∧ to = Some ShieldedPoolAddress ∧ privateEnvelope data = true.
Proof.
  intros E. unfold shieldedOnlyFields, shield6Fields in E. unfold privateEnvelope. destruct (HasShieldedV6Prefix data) eqn:E6.
  { apply bind_ok in E as (_ & Hp%fail_if_ok%negb_false_iff%toPool_spec & _). destruct Hp. split_and!; [done|done|]. by rewrite !orb_true_r. }
  apply bind_ok in E as (_ & Hp%fail_if_ok & E). assert (Ht : toPool txType to = true) by (by destruct (toPool txType to)).
  apply toPool_spec in Ht as [-> ->]. split_and!; [done|done|]. destruct (isValidatorProtocolEnvelope data); [by rewrite orb_true_r|].
  destruct (HasAntarticalStampPrefix data); [done|]. unfold spendFields in E. destruct (HasShieldedV5Prefix data); [by rewrite !orb_true_r|].
  destruct (HasShieldedV4Prefix data); [by rewrite !orb_true_r|]. destruct (HasShieldedV3Prefix data); [by rewrite !orb_true_r|done].
Qed.

Lemma message_private config number time txType to value data : ChainConfig.IsAntartical config number time = true →
  ValidatePrivateExecutionMessage config number time txType to value data = Ok () →
  txType = PQTkmTxType ∧ privateEnvelope data = true
  ∧ (isValidatorProtocolEnvelope data = true → ChainConfig.IsValidatorTransactionsActive config number time = true)
  ∧ (ChainConfig.IsShieldedOnly config number time = true → to = Some ShieldedPoolAddress ∧ shieldedOnlyFields txType to value data = Ok ()).
Proof.
  intros Ha E. unfold ValidatePrivateExecutionMessage, validatePrivateExecutionFields in E. rewrite Ha in E. cbn [andb negb orb] in E.
  destruct (isValidatorProtocolEnvelope data && _) eqn:Hv; [done|].
  assert (Hv' : isValidatorProtocolEnvelope data = true → ChainConfig.IsValidatorTransactionsActive config number time = true).
  { intros Hd. rewrite Hd in Hv. by destruct (ChainConfig.IsValidatorTransactionsActive config number time). }
  destruct (ChainConfig.IsShieldedOnly config number time).
  { pose proof (shieldedOnly_private _ _ _ _ E) as (? & ? & ?). split_and!; done. }
  destruct (Z.eqb_spec txType PQTkmTxType); [|done]. cbn [negb] in E. split_and!; [done| |done|done]. unfold privateEnvelope, isValidatorProtocolEnvelope.
  destruct (HasAntarticalStampPrefix data); [done|]. destruct (HasAddressVotePrefix data); [done|].
  destruct (_ || HasValidatorWithdrawalPrefix data); [done|]. cbn [orb]. by destruct (_ || HasShieldedV6Prefix data).
Qed.

(** What the policy admits to the state transition. *)
Context {U : Uint256} {O : StateTransition.Uint256Overflow} {S : Type} {W : WorldState S} {T : StateTransition.TxState S} {C : StateTransition.Components S}.

(** The state transition calls this policy. *)
Class PolicyComponent :=
  policy_is config number time txType to value data :
    StateTransition.ValidatePrivateExecutionMessage config number time txType to value data
    = match ValidatePrivateExecutionMessage config number time txType to value data with Ok _ => Ok () | Err _ => Err StateTransition.ErrPrivateExecution end.
Context {HP : PolicyComponent}.

(** C8: once Antartical is active, a transaction that executes without an error of the
    state transition is a post-quantum transaction with an envelope of the private
    protocol (a stamp, a vote, a validator operation or a shielded transaction), validator
    operations only after their own fork, and after the shielded-only fork it goes to the
    pool and meets the rules of that fork.  In particular the envelopes of the private
    virtual machine, of account abstraction, oracles and cross-chain messages never
    execute. *)
Theorem only_private_execution ctx msg pool st r t : 
  ChainConfig.IsAntartical ctx.(StateTransition.bc_config) ctx.(StateTransition.BlockNumber) ctx.(StateTransition.Time) = true →
  msg.(StateTransition.SkipTransactionChecks) = false → StateTransition.ApplyMessage ctx msg pool st = (Ok r, t) →
  msg.(StateTransition.TxType) = PQTkmTxType
  ∧ privateEnvelope msg.(StateTransition.Data) = true ∧ otherEnvelope msg.(StateTransition.Data) = false
  ∧ (isValidatorProtocolEnvelope msg.(StateTransition.Data) = true →
     ChainConfig.IsValidatorTransactionsActive ctx.(StateTransition.bc_config) ctx.(StateTransition.BlockNumber) ctx.(StateTransition.Time) = true)
  ∧ (ChainConfig.IsShieldedOnly ctx.(StateTransition.bc_config) ctx.(StateTransition.BlockNumber) ctx.(StateTransition.Time) = true →
     msg.(StateTransition.To) = Some ShieldedPoolAddress
     ∧ shieldedOnlyFields msg.(StateTransition.TxType) msg.(StateTransition.To) msg.(StateTransition.Value) msg.(StateTransition.Data) = Ok ()).
Proof using HP.
  intros Ha Hs E. unfold StateTransition.ApplyMessage, StateTransition.execute in E. destruct (StateTransition.preCheck ctx msg _) as [t'|] eqn:Ep; [clear E|done].
  unfold StateTransition.preCheck in Ep. apply bind_ok in Ep as (u0 & Hu0 & Ep). apply bind_ok in Ep as (u2 & Hc & Ep). unfold StateTransition.checkTransaction in Hc. rewrite Hs in Hc.
  apply bind_ok in Hc as (u1 & Hu1 & Hc). apply bind_ok in Hc as ([] & Hm & Hc). rewrite policy_is in Hm.
  destruct (ValidatePrivateExecutionMessage _ _ _ _ _ _ _) as [[]|] eqn:Em; [|done].
  apply message_private in Em as (H1 & H2 & H3 & H4); [|done]. split_and!; [done|done|by apply envelopes_disjoint|done|done].
Qed.

End Policy.
End PrivateRoots.
