(* ===== verification/PrivateDemo.v ===== *)
(** * A private machine with two transitions

    The theorems of [PrivateRoots] applied to two transitions with a verifier that accepts
    them, and to a shielded deposit that executes after Antartical. *)

From S2P Require Import Prelude Bytes RLPTypes State ChainConfig FeeMarket StateTransition GasAccounting ValidatorRegistry ValidatorDemo ShieldedTree Stamps ShieldedEnvelopes ShieldedSpend PrivateExecution PrivateRoots.
Import FeeMarket ValidatorRegistry ShieldedTree Stamps ShieldedEnvelopes PrivateExecution PrivateRoots.

Module PrivateDemo.

#[local] Existing Instance RefUint256.
#[local] Existing Instance FlatWorldState.

(** A hash that mixes all bytes. *)
Definition mix (b : bytes) : Z :=
  foldl (λ h c, (h * 0x9e3779b97f4a7c15f39cc0605cedc8341082276bf3a27251f86c6a11d0c18e952767f0b153d27b7f0347045b5bf1827f01886f0928403002c1d64ba40f335e37 + c + 1) mod 2 ^ 512) 1 b.

#[local] Instance MixX : Externals := {
  Sender _ _ _ _ := Some 1;
  VerifyMLDSA87 _ _ _ := true;
  MLDSA87PublicKeySize := 1;
  keccak b := be_bytes 32 (mix b / 2 ^ 256);
  sha256 b := be_bytes 32 (mix b / 2 ^ 256);
  sha512 b := be_bytes 64 (mix b);
  pooled := @pooled ValidatorDemo.DemoExternals;
}.

(** A verifier that accepts every transition. *)
#[local] Instance Accepting : Native := λ mode _ _, if mode =? 12 then Some [79; 75; 10] else None.

Definition privateConfig : ChainConfig.ChainConfig := ChainConfig.demoMainnet [3].
Definition privateTime : Z := 1790812800.

Definition privateProof : bytes := [1; 0; 0; 0] ++ replicate 8 0.
Definition privateEnvelopeOf (old new : Z) : PrivateTVMTransaction :=
  {| pv_Version := 1; pv_CodeHash := [1; 2; 3; 4; 5]; pv_OldRoot := [old; 0; 0; 0; 7]; pv_NewRoot := [new; 0; 0; 0; 7]; pv_Operation := 1;
     pv_Ciphertext := [8; 9]; pv_Proof := privateProof |}.
Definition privateTx (hash : Z) (e : PrivateTVMTransaction) : stx :=
  {| sx_tx := {| vt_Type := PQTkmTxType; vt_To := Some ShieldedPoolAddress; vt_Value := 0; vt_ChainId := 8979;
                 vt_Data := match EncodePrivateTVMTransaction e with Ok b => b | Err _ => [] end; vt_PQ := Some ([1], [2]); vt_Hash := hash |};
     sx_Nonce := 3; sx_GasTipCap := 1; sx_GasFeeCap := 2; sx_Gas := 100000; sx_AccessList := [] |}.
Definition privateTxs : list (Z * Z * stx) :=
  Eval vm_compute in [(10, privateTime, privateTx 21 (privateEnvelopeOf 1 2)); (11, privateTime, privateTx 22 (privateEnvelopeOf 2 3))].

Definition intentsOf (txs : list (Z * Z * stx)) : list bytes :=
  omap (λ t, match DecodePrivateTVMTransaction t.2.(sx_tx).(vt_Data) with Ok (Some e) => match PrivateTVMIntent t.2 e with Ok i => Some i | Err _ => None end | _ => None end) txs.
Definition privateIntents : list bytes := Eval vm_compute in intentsOf privateTxs.
Definition inUse (i : bytes) : Prop := i ∈ privateIntents.

(** The slots of the root and of the intents. *)
Definition privateSlots : list hash :=
  [ShieldedV3StateSlot (privateTVMRootRole ++ str "/0") []; ShieldedV3StateSlot (privateTVMRootRole ++ str "/1") []]
  ++ (ShieldedV3StateSlot intentRole <$> privateIntents).

Lemma private_slots : NoDup privateSlots.
Proof. apply (bool_decide_unpack _). by vm_compute. Qed.

#[local] Instance private_use : TVMUse inUse.
Proof.
  pose proof private_slots as Hn. unfold privateSlots in Hn. apply NoDup_app in Hn as (H2 & Hd & Hi).
  assert (Hin : ∀ i, inUse i → ShieldedV3StateSlot intentRole i ∈ ShieldedV3StateSlot intentRole <$> privateIntents) by (intros i Hu; by apply list_elem_of_fmap_2).
  split.
  - apply NoDup_cons in H2 as [H2 _]. intros E. apply H2. rewrite E. by left.
  - intros i j [a Ha]%list_elem_of_lookup_1 [b Hb]%list_elem_of_lookup_1 E. eapply NoDup_lookup in Hi as Hab; [|rewrite list_lookup_fmap, Ha; done|rewrite list_lookup_fmap, Hb, E; done].
    congruence.
  - intros i Hu E. eapply Hd; [|by apply Hin]. rewrite E. by left.
  - intros i Hu E. eapply Hd; [|by apply Hin]. rewrite E. right. by left.
Qed.

Lemma private_intents t e intent : t ∈ privateTxs → proved privateConfig t.1.1 t.1.2 t.2 e intent → inUse intent.
Proof.
  intros Ht (_ & Hd & Hi). assert (privateIntents = intentsOf privateTxs) as Ep by by vm_compute. unfold inUse. rewrite Ep. unfold intentsOf.
  apply list_elem_of_omap. exists t. split; [done|]. by rewrite Hd, Hi.
Qed.

(** The first transition, a payment to some account, and the second one. *)
Definition firstTransition : option vError * flatState := processPrivateTVM privateConfig 10 privateTime emptyFlat (privateTx 21 (privateEnvelopeOf 1 2)).
Definition paid : flatState := AddBalance firstTransition.2 3 50.
Definition secondTransition : option vError * flatState := processPrivateTVM privateConfig 11 privateTime paid (privateTx 22 (privateEnvelopeOf 2 3)).

Lemma transition_eq (r : option vError * flatState) : r.1 = None → r = (None, r.2).
Proof. destruct r as [? ?]. cbn. by intros ->. Qed.

Lemma first_transition : processPrivateTVM privateConfig 10 privateTime emptyFlat (privateTx 21 (privateEnvelopeOf 1 2)) = (None, firstTransition.2).
Proof. unfold firstTransition. apply transition_eq. vm_compute. reflexivity. Qed.
Lemma second_transition : processPrivateTVM privateConfig 11 privateTime paid (privateTx 22 (privateEnvelopeOf 2 3)) = (None, secondTransition.2).
Proof. unfold secondTransition. apply transition_eq. vm_compute. reflexivity. Qed.
Lemma pay_same (st : flatState) a v : privateSame inUse st (AddBalance st a v).
Proof. unfold privateSame, getSlot. split; [apply GetState_Add|]. split; [apply GetState_Add|]. intros i _. apply GetState_Add. Qed.
Lemma payment_private : privateSame inUse firstTransition.2 paid.
Proof. exact (pay_same firstTransition.2 3 50). Qed.

Lemma private_runs : transitions inUse privateConfig emptyFlat privateTxs secondTransition.2.
Proof.
  assert (E : privateTxs = ([] ++ [(10, privateTime, privateTx 21 (privateEnvelopeOf 1 2))]) ++ [(11, privateTime, privateTx 22 (privateEnvelopeOf 2 3))]) by (vm_compute; reflexivity).
  rewrite E. refine (transitions_private inUse privateConfig emptyFlat _ paid _ _ _ _ _ second_transition).
  refine (transitions_other inUse privateConfig emptyFlat _ firstTransition.2 paid _ payment_private).
  exact (transitions_private inUse privateConfig emptyFlat _ emptyFlat _ _ _ _ (transitions_start _ _ _) first_transition).
Qed.

Lemma private_ok : Forall (λ t, bytes_ok t.2.(sx_tx).(vt_Data) ∧ t.2.(sx_tx).(vt_Hash) ≠ 0 ∧ ∀ e intent, proved privateConfig t.1.1 t.1.2 t.2 e intent → inUse intent)
  privateTxs.
Proof.
  apply Forall_forall. intros t Ht. split; [|split; [|intros e intent; by apply private_intents]]; revert t Ht; apply Forall_forall; apply (bool_decide_unpack _); by vm_compute.
Qed.

Lemma private_start : PrivateTVMStateRoot emptyFlat = Ok zeroDigest.
Proof. by vm_compute. Qed.

Lemma private_roots_chain_witness :
  ∃ es (intents : list bytes) final, PrivateTVMStateRoot secondTransition.2 = Ok final ∧ rootChain zeroDigest es final ∧ NoDup intents ∧ length intents = 2%nat.
Proof.
  destruct (private_roots_chain inUse privateConfig emptyFlat privateTxs secondTransition.2 zeroDigest private_start private_runs private_ok) as (es & intents & final & H3 & Hf & Hc & Hn & _).
  exists es, intents, final. split; [exact Hf|]. split; [exact Hc|]. split; [exact Hn|]. apply Forall3_length_lr in H3. rewrite <- H3. reflexivity.
Defined.

(** ** A deposit after Antartical *)

#[local] Existing Instance RefUint256.
#[local] Existing Instance StateTransition.RefUint256Overflow.
#[local] Existing Instance GasAccounting.DemoTxState.

Definition policyComponents : StateTransition.Components flatState := {|
  StateTransition.evm_Call _ st _ _ data g _ := (data, {| RegularGas := g.(RegularGas) / 2; StateGas := 0 |}, st, None);
  StateTransition.evm_Create _ st _ data g _ := (data, {| RegularGas := g.(RegularGas) / 2; StateGas := 0 |}, st, None);
  StateTransition.shieldedFeeMode _ := None;
  StateTransition.confidentialFeeTicket h := h;
  StateTransition.ShieldedV3GasData data := Ok (data, 0);
  StateTransition.HasAntarticalStampPrefix := HasAntarticalStampPrefix;
  StateTransition.stampSlot a := a;
  StateTransition.ValidateAntarticalStampState _ _ _ _ _ := Ok ();
  StateTransition.ValidatePrivateExecutionMessage config number time txType to value data :=
    match ValidatePrivateExecutionMessage config number time txType to value data with Ok _ => Ok () | Err _ => Err StateTransition.ErrPrivateExecution end;
  StateTransition.HasPQMigrationDataPrefix _ := false;
  StateTransition.ValidPQMigrationDataForRecipient _ _ := false;
  StateTransition.Authority _ := None;
  StateTransition.stampBeneficiary a _ := Ok a;
|}.
#[local] Existing Instance policyComponents.

#[local] Instance policy_component : PolicyComponent.
Proof. intros config number time txType to value data. done. Defined.

Definition depositContext : StateTransition.blockContext := {|
  StateTransition.bc_config := privateConfig; StateTransition.BlockNumber := 10; StateTransition.Time := privateTime; StateTransition.BaseFee := Some 7;
  StateTransition.BlobBaseFee := Some 1; StateTransition.Coinbase := 3; StateTransition.hasRandom := false; StateTransition.NoBaseFee := false |}.

Definition depositMessage : StateTransition.Message := {|
  StateTransition.shieldedTransactionHash := 9; StateTransition.antarticalStampTransactionHash := 0; StateTransition.antarticalStampBeneficiary := 0;
  StateTransition.To := Some ShieldedPoolAddress; StateTransition.From := 1; StateTransition.Nonce := 0; StateTransition.Value := 100; StateTransition.GasLimit := 90000;
  StateTransition.GasPrice := 10; StateTransition.GasFeeCap := 12; StateTransition.GasTipCap := 3; StateTransition.Data := ShieldedV3Magic ++ [1];
  StateTransition.AccessList := []; StateTransition.BlobGasFeeCap := 0; StateTransition.BlobHashes := None; StateTransition.SetCodeAuthorizations := None;
  StateTransition.TxType := PQTkmTxType; StateTransition.SkipNonceChecks := false; StateTransition.SkipTransactionChecks := false |}.

Definition depositRun : result StateTransition.stError StateTransition.ExecutionResult * StateTransition.transition :=
  StateTransition.ApplyMessage depositContext depositMessage None (AddBalance emptyFlat 1 5000000).

Lemma deposit_runs : ∃ r t, depositRun = (Ok r, t).
Proof.
  assert (H : match depositRun.1 with Ok _ => true | Err _ => false end = true) by by vm_compute.
  destruct depositRun as [[r|] t]; [by exists r, t|discriminate].
Qed.

Lemma only_private_execution_witness :
  ∃ r t, depositRun = (Ok r, t) ∧ privateEnvelope (ShieldedV3Magic ++ [1]) = true ∧ otherEnvelope (ShieldedV3Magic ++ [1]) = false.
Proof.
  destruct deposit_runs as (r & t & E). exists r, t. split; [exact E|].
  destruct (only_private_execution depositContext depositMessage None (AddBalance emptyFlat 1 5000000) r t) as (_ & H1 & H2 & _); [by vm_compute|reflexivity|exact E|].
  split; [exact H1|exact H2].
Defined.

End PrivateDemo.
