(* ===== verification/LegacyPool.v ===== *)
(** * The first shielded pool

    [core/shielded_tx.go]: the envelopes of the versions 1 and 2, whose notes are leaves of
    a Merkle tree of MiMC hashes kept as a frontier and as the path of every leaf, and the
    dispatch of the shielded envelopes of all versions; with the migration marker of
    [core/types/pq_migration.go].

    MiMC and the Groth16 verifiers built on it come from a library and are arguments.  Field elements
    are numbers; the code panics on hashes that are not canonical, which the envelope
    checks exclude.  A list that may be nil encodes as nil when it is empty. *)

From S2P Require Import Prelude Bytes RLPTypes State ChainConfig ValidatorRegistry ShieldedCrypto ShieldedTree Stamps AddressVotes ShieldedEnvelopes Ledger ShieldedOnly ShieldedSpend Shielded6 PrivateExecution.
Import RLPTypes ValidatorRegistry ShieldedCrypto ShieldedTree Stamps AddressVotes ShieldedEnvelopes Ledger ShieldedOnly ShieldedSpend Shielded6 PrivateExecution.

Module LegacyPool.

Definition shieldedTxIntentDomain : bytes := str "TKM_SHIELDED_INTENT_V1".
Definition shieldedTxIntentDomainV2 : bytes := str "TKM_SHIELDED_INTENT_V2".
Definition shieldedMinEncryptedOutputBytes : nat := 32.
Definition shieldedMinNonceBytes : nat := 12.
Definition shieldedMaxEncryptedBytes : nat := 16 * 1024.
Definition shieldedMaxProofBytes : Z := 192 * 1024.
Definition shieldedMaxSpendsPerTx : nat := 16.
Definition shieldedOutputSlots : nat := 4.
Definition shieldedMerkleDepth : nat := 32.
Definition shieldedDomainNode : Z := 1002.
Definition ShieldedTxVersionV1 : Z := 1.
Definition ShieldedTxVersionV2 : Z := 2.
Definition MainnetShieldedV2Time : Z := 1787302800.
Definition MainnetShieldedGasSponsorTime : Z := 1787403600.
Definition MainnetShieldedGroth16RecoveryTime : Z := 1787227200.

(** The order of the scalar field of BN254. *)
Definition frModulus : Z := 21888242871839275222246405745257275088548364400416034343698204186575808495617.
Definition isCanonicalShieldedFieldHash (h : hash) : bool := h <? frModulus.

Definition IsMainnetShieldedV2 (config : ChainConfig.ChainConfig) (time : Z) : bool :=
  bool_decide (ChainConfig.ChainID config = Some 8979) && (MainnetShieldedV2Time <=? time).
Definition IsMainnetShieldedGasSponsor (config : ChainConfig.ChainConfig) (time : Z) : bool :=
  bool_decide (ChainConfig.ChainID config = Some 8979) && (MainnetShieldedGasSponsorTime <=? time).

(** The fields of a transaction that only these envelopes bind. *)
Record ltx := {
  lx_tx : stx;
  lx_BlobGas : Z;
  lx_BlobGasFeeCap : Z;
  lx_BlobHashes : list hash;
  lx_Authorizations : list (Z * address * Z * Z * Z * Z);
}.

Record ShieldedProofContext := {
  pc_Version : Z;
  pc_Sender : address;
  pc_ChainID : Z;
  pc_BlockNumber : Z;
  pc_TxHash : hash;
  pc_SpendIndex : nat;
  pc_Nullifier : hash;
  pc_Anchor : hash;
  pc_BalanceCommitment : hash;
  pc_PublicValue : Z;
  pc_OutputCommitments : list hash;
  pc_BindingSig : bytes;
}.

Record ShieldedMerklePath := {
  mp_Commitment : hash;
  mp_Index : Z;
  mp_Root : hash;
  mp_Path : list hash;
  mp_PathIndex : list Z;
}.

(** ** Encoding *)

Definition sliceOrNil (l : list rval) : rval := match l with [] => VNil | _ => VList l end.

Definition legacySpendVal (s : ShieldedEnvelopes.ShieldedSpend) : rval :=
  VList [VBytes (hash_bytes s.(ls_Nullifier)); VBytes (hash_bytes s.(ls_Anchor)); VBytes s.(ls_Proof); VBytes s.(ls_EncryptedSpendData)].
Definition legacyOutputVal (o : ShieldedOutput) : rval :=
  VList [VBytes (hash_bytes o.(lo_Commitment)); VBytes (hash_bytes o.(lo_PayloadHash)); VBytes o.(lo_EphemeralPubKey); VBytes o.(lo_ViewTag);
         VBytes o.(lo_EncryptedPayload); VBytes o.(lo_Nonce)].
Definition bigVal (n : option Z) : rval := match n with Some n => VNum n | None => VNil end.
Definition legacyVal (e : ShieldedTransaction) : rval :=
  VList [VNum e.(lt_Version); VList (legacySpendVal <$> e.(lt_Spends)); VList (legacyOutputVal <$> e.(lt_Outputs)); VBytes (hash_bytes e.(lt_BalanceCommitment));
         VBytes e.(lt_BindingSig); VBytes (address_bytes e.(lt_WithdrawalRecipient)); bigVal e.(lt_WithdrawalValue); bigVal e.(lt_GasSponsorValue);
         sliceOrNil ((λ h, VBytes (hash_bytes h)) <$> e.(lt_MigrationOutputRandomness))].

Definition stripShieldedProofs (e : ShieldedTransaction) : ShieldedTransaction := {|
  lt_Version := e.(lt_Version);
  lt_Spends := (λ s, {| ls_Nullifier := s.(ls_Nullifier); ls_Anchor := s.(ls_Anchor); ls_Proof := []; ls_EncryptedSpendData := s.(ls_EncryptedSpendData) |}) <$> e.(lt_Spends);
  lt_Outputs := e.(lt_Outputs); lt_BalanceCommitment := e.(lt_BalanceCommitment); lt_BindingSig := replicate 32 0;
  lt_WithdrawalRecipient := e.(lt_WithdrawalRecipient); lt_WithdrawalValue := e.(lt_WithdrawalValue); lt_GasSponsorValue := e.(lt_GasSponsorValue);
  lt_MigrationOutputRandomness := e.(lt_MigrationOutputRandomness) |}.

(** [shieldedIntentPayload] without the fields of the signature. *)
Definition legacyIntentVal (domain : bytes) (tx : ltx) (envelope : bytes) : rval :=
  let s := tx.(lx_tx) in
  let t := s.(sx_tx) in
  VList [VBytes domain; VNum t.(vt_Type); VNum t.(vt_ChainId); VNum s.(sx_Nonce); VNum s.(sx_GasTipCap); VNum s.(sx_GasFeeCap);
         VNum s.(sx_Gas); match t.(vt_To) with Some a => VBytes (address_bytes a) | None => VNil end; VNum t.(vt_Value);
         VList ((λ '(a, ks), VList [VBytes (address_bytes a); VList ((λ k, VBytes (hash_bytes k)) <$> ks)]) <$> s.(sx_AccessList));
         VNum tx.(lx_BlobGas); VNum tx.(lx_BlobGasFeeCap); VList ((λ h, VBytes (hash_bytes h)) <$> tx.(lx_BlobHashes));
         VList ((λ '(chain, a, nonce, v, r, s), VList [VNum chain; VBytes (address_bytes a); VNum nonce; VNum v; VNum r; VNum s]) <$> tx.(lx_Authorizations));
         VBytes []; VBytes []; VBytes envelope].

(** ** Migration markers *)

Definition pqMigrationDataMagic : bytes := str "TKMPQMIG1".
Record PQMigration := { pm_Address : address; pm_Algorithm : bytes; pm_PublicKey : bytes }.
Definition migrationType : rtype := RStruct [(false, RByteArray 20); (false, RByteSlice); (false, RByteSlice)].
Definition migrationVal (m : PQMigration) : rval := VList [VBytes (address_bytes m.(pm_Address)); VBytes m.(pm_Algorithm); VBytes m.(pm_PublicKey)].
Definition migrationOf (v : rval) : option PQMigration :=
  match v with
  | VList [VBytes a; VBytes algorithm; VBytes key] => Some {| pm_Address := be_value a; pm_Algorithm := algorithm; pm_PublicKey := key |}
  | _ => None
  end.

Definition ErrInvalidPQMigrationData : vError := ErrText "invalid post-quantum migration data".
Definition ErrPQMigrationAddress : vError := ErrText "post-quantum migration address mismatch".
Definition IsPQMigrationTxType (txType : Z) : bool := (txType =? 0) || (txType =? 1) || (txType =? 2).

Section Migration.
Context {X : Externals}.

Definition migrationAddress (algorithm publicKey : bytes) (a : address) : result vError unit :=
  match pqAddress algorithm publicKey with
  | None => Err ErrAddress
  | Some derived => fail_if (negb (derived =? a)) ErrPQMigrationAddress
  end.
Definition NewPQMigrationData (a : address) (algorithm publicKey : bytes) : result vError bytes :=
  _ ← migrationAddress algorithm publicKey a;
  encodeWith pqMigrationDataMagic migrationType (migrationVal {| pm_Address := a; pm_Algorithm := algorithm; pm_PublicKey := publicKey |}).
Definition HasPQMigrationDataPrefix (data : bytes) : bool := has_prefix data pqMigrationDataMagic.
Definition ParsePQMigrationData (data : bytes) : result vError PQMigration :=
  _ ← fail_if (negb (HasPQMigrationDataPrefix data)) ErrInvalidPQMigrationData;
  m ← decodeInto migrationType migrationOf (drop (length pqMigrationDataMagic) data);
  _ ← migrationAddress m.(pm_Algorithm) m.(pm_PublicKey) m.(pm_Address);
  Ok m.
Definition ValidPQMigrationDataForRecipient (data : bytes) (recipient : address) : bool :=
  match ParsePQMigrationData data with Ok m => m.(pm_Address) =? recipient | Err _ => false end.
Definition IsPQMigrationTx (tx : vtx) : bool :=
  match tx.(vt_To) with
  | None => false
  | Some to => (0 <? tx.(vt_Value)) && IsPQMigrationTxType tx.(vt_Type) && ValidPQMigrationDataForRecipient tx.(vt_Data) to
  end.
End Migration.

(** ** Values *)

Definition isShieldedDeposit (e : ShieldedTransaction) (value : Z) : bool :=
  (0 <? value) && match e.(lt_Spends) with [s] => (s.(ls_Nullifier) =? zeroHash) && (s.(ls_Anchor) =? zeroHash) | _ => false end.
Definition positive (n : option Z) : Z := match n with Some n => if n <=? 0 then 0 else n | None => 0 end.
Definition shieldedWithdrawalValue (e : ShieldedTransaction) : Z := positive e.(lt_WithdrawalValue).
Definition shieldedGasSponsorValue (e : ShieldedTransaction) : Z := positive e.(lt_GasSponsorValue).
Definition shieldedPublicValue (e : ShieldedTransaction) (value : Z) : Z :=
  let publicRelease := shieldedWithdrawalValue e + shieldedGasSponsorValue e in
  if 0 <? publicRelease then publicRelease else value.

(** ** The shape of an envelope *)

(** The loop over the spends; [n] is their number. *)
Fixpoint spendShapes (n : nat) (i : nat) (spends : list ShieldedEnvelopes.ShieldedSpend) (seen : list hash) : result vError unit :=
  match spends with
  | [] => Ok ()
  | s :: spends =>
      let isDepositProof := (s.(ls_Nullifier) =? zeroHash) && (s.(ls_Anchor) =? zeroHash) in
      _ ← fail_if (negb isDepositProof && ((s.(ls_Nullifier) =? zeroHash) || (s.(ls_Anchor) =? zeroHash))) ErrInvalidShieldedTx;
      _ ← fail_if (negb (isCanonicalShieldedFieldHash s.(ls_Nullifier)) || negb (isCanonicalShieldedFieldHash s.(ls_Anchor))) ErrInvalidShieldedTx;
      _ ← fail_if ((length s.(ls_Proof) =? 0)%nat || (shieldedMaxProofBytes <? Z.of_nat (length s.(ls_Proof)))
                   || (shieldedMaxEncryptedBytes <? length s.(ls_EncryptedSpendData))%nat) ErrInvalidShieldedTx;
      if negb isDepositProof then
        if bool_decide (s.(ls_Nullifier) ∈ seen) then Err ErrInvalidShieldedTx else spendShapes n (Datatypes.S i) spends (s.(ls_Nullifier) :: seen)
      else
        _ ← fail_if (negb (n =? 1)%nat || negb (i =? 0)%nat) ErrInvalidShieldedTx;
        spendShapes n (Datatypes.S i) spends seen
  end.

Fixpoint outputShapes (outputs : list ShieldedOutput) (seen : list hash) : result vError unit :=
  match outputs with
  | [] => Ok ()
  | o :: outputs =>
      _ ← fail_if ((o.(lo_Commitment) =? zeroHash) || negb (isCanonicalShieldedFieldHash o.(lo_Commitment)) || (o.(lo_PayloadHash) =? zeroHash)
                   || (length o.(lo_EncryptedPayload) <? shieldedMinEncryptedOutputBytes)%nat || (shieldedMaxEncryptedBytes <? length o.(lo_EncryptedPayload))%nat
                   || (length o.(lo_Nonce) <? shieldedMinNonceBytes)%nat) ErrInvalidShieldedTx;
      if bool_decide (o.(lo_Commitment) ∈ seen) then Err ErrInvalidShieldedTx else outputShapes outputs (o.(lo_Commitment) :: seen)
  end.

Definition validateShieldedEnvelope (e : ShieldedTransaction) (expectedVersion : Z) : result vError unit :=
  _ ← fail_if (negb (e.(lt_Version) =? expectedVersion)) ErrInvalidShieldedTx;
  _ ← fail_if ((length e.(lt_Spends) =? 0)%nat && (length e.(lt_Outputs) =? 0)%nat) ErrInvalidShieldedTx;
  _ ← fail_if (shieldedMaxSpendsPerTx <? length e.(lt_Spends))%nat ErrInvalidShieldedTx;
  _ ← fail_if (negb (length e.(lt_Outputs) =? shieldedOutputSlots)%nat) ErrInvalidShieldedTx;
  _ ← fail_if ((0 <? length e.(lt_Spends))%nat && (length e.(lt_BindingSig) =? 0)%nat) ErrInvalidShieldedTx;
  _ ← fail_if (negb (length e.(lt_BindingSig) =? 32)%nat) ErrInvalidShieldedTx;
  _ ← fail_if (negb (isCanonicalShieldedFieldHash (BytesToHash e.(lt_BindingSig)))) ErrInvalidShieldedTx;
  _ ← spendShapes (length e.(lt_Spends)) 0 e.(lt_Spends) [];
  _ ← fail_if ((e.(lt_BalanceCommitment) =? zeroHash) || negb (isCanonicalShieldedFieldHash e.(lt_BalanceCommitment))) ErrInvalidShieldedTx;
  outputShapes e.(lt_Outputs) [].

(** ** Hashes and verifiers *)

(** The MiMC hash of a sequence of field elements. *)
Class FieldHash := mimcSum : list Z → Z.
(** A verifier, applied to the public inputs and a proof. *)
Definition ShieldedProofVerifier : Type := ShieldedProofContext → bytes → bool.
(** The verifier a node has installed and those of the keys in the configuration and in the
    parameters, where there are such keys. *)
Class LegacyVerifier := {
  configuredVerifier : option ShieldedProofVerifier;
  v2ShieldedGroth16VerifierFromParams : ChainConfig.ChainConfig → option ShieldedProofVerifier;
  shieldedGroth16VerifierFromChainConfig : ChainConfig.ChainConfig → option ShieldedProofVerifier;
  upgradedShieldedGroth16VerifierFromParams : ChainConfig.ChainConfig → option ShieldedProofVerifier;
  recoveryShieldedGroth16VerifierFromParams : ChainConfig.ChainConfig → option ShieldedProofVerifier;
}.

Definition unavailableShieldedVerifier : ShieldedProofVerifier := λ _ _, false.
Definition fallbackShieldedVerifier (primary fallback : ShieldedProofVerifier) : ShieldedProofVerifier := λ ctx proof, primary ctx proof || fallback ctx proof.

Section Pool.
Context {X : Externals} {N : Native} {C6 : Shield6Crypto} {F : FieldHash} {V : LegacyVerifier}.

Definition shieldedFieldHash (domain : Z) (inputs : list Z) : Z := mimcSum (domain :: inputs).
Definition shieldedHashNode (left right : hash) : hash := shieldedFieldHash shieldedDomainNode [left; right].

Definition EncodeShieldedTransaction (e : ShieldedTransaction) : result vError bytes := encodeWith shieldedTxMagic legacyType (legacyVal e).

Definition ShieldedTransactionIntentHash (tx : ltx) (e : ShieldedTransaction) : result vError hash :=
  cleanData ← EncodeShieldedTransaction (stripShieldedProofs e);
  let domain := if e.(lt_Version) =? ShieldedTxVersionV2 then shieldedTxIntentDomainV2 else shieldedTxIntentDomain in
  match EncodeValue intentType (legacyIntentVal domain tx cleanData) with
  | None => Err ErrEncode
  | Some encoded => Ok (BytesToHash (keccak encoded))
  end.

(** The openings of the outputs of a migration, [i] being the first index. *)
Fixpoint migrationOutputs (i : nat) (sender : address) (randomness : list hash) (outputs : list ShieldedOutput) : result vError unit :=
  match randomness, outputs with
  | r :: randomness, o :: outputs =>
      _ ← fail_if ((r =? zeroHash) || negb (isCanonicalShieldedFieldHash r)) ErrInvalidShieldedTx;
      let recipient := if (i =? 0)%nat then sender else 0 in
      _ ← fail_if (negb (o.(lo_Commitment) =? shieldedFieldHash 2001 [recipient; 1; 0; r])) ErrInvalidShieldedTx;
      migrationOutputs (Datatypes.S i) sender randomness outputs
  | _, _ => Ok ()
  end.

(** What Antartical leaves of version 2: migration withdrawals to the signer. *)
Definition migrationOnly (config : ChainConfig.ChainConfig) (number time : Z) (tx : stx) (e : ShieldedTransaction) : result vError unit :=
  match Sender config number time tx.(sx_tx) with
  | None => Err ErrInvalidShieldedTx
  | Some sender =>
      _ ← fail_if (negb (e.(lt_Version) =? ShieldedTxVersionV2) || isShieldedDeposit e tx.(sx_tx).(vt_Value) || (shieldedWithdrawalValue e <=? 0)
                   || negb (e.(lt_WithdrawalRecipient) =? sender) || negb (shieldedGasSponsorValue e =? 0) || negb (length e.(lt_Spends) =? 1)%nat) ErrInvalidShieldedTx;
      _ ← fail_if (negb (length e.(lt_MigrationOutputRandomness) =? shieldedOutputSlots)%nat) ErrInvalidShieldedTx;
      migrationOutputs 0 sender e.(lt_MigrationOutputRandomness) e.(lt_Outputs)
  end.

(** The money an envelope moves in the open. *)
Definition publicMoves (config : ChainConfig.ChainConfig) (time : Z) (tx : stx) (e : ShieldedTransaction) : result vError unit :=
  let value := tx.(sx_tx).(vt_Value) in
  let isDeposit := isShieldedDeposit e value in
  let withdrawalValue := shieldedWithdrawalValue e in
  let gasSponsorValue := shieldedGasSponsorValue e in
  _ ← fail_if (default 0 e.(lt_WithdrawalValue) <? 0) ErrInvalidShieldedTx;
  _ ← fail_if (default 0 e.(lt_GasSponsorValue) <? 0) ErrInvalidShieldedTx;
  _ ← fail_if (negb (value =? 0) && negb isDeposit) ErrInvalidShieldedTx;
  _ ← (if 0 <? withdrawalValue then
         fail_if (isDeposit || negb (value =? 0) || negb (length e.(lt_Spends) =? 1)%nat || (e.(lt_WithdrawalRecipient) =? zeroAddress)
                  || (two64 <=? withdrawalValue)) ErrInvalidShieldedTx
       else fail_if (negb (e.(lt_WithdrawalRecipient) =? zeroAddress)) ErrInvalidShieldedTx);
  _ ← (if 0 <? gasSponsorValue then
         _ ← fail_if (negb (IsMainnetShieldedGasSponsor config time)) ErrInvalidShieldedTx;
         _ ← fail_if (negb (e.(lt_Version) =? ShieldedTxVersionV2) || isDeposit || negb (value =? 0) || negb (length e.(lt_Spends) =? 1)%nat) ErrInvalidShieldedTx;
         fail_if (tx.(sx_Gas) * tx.(sx_GasFeeCap) <? gasSponsorValue) ErrInvalidShieldedTx
       else Ok ());
  _ ← fail_if (two64 <=? withdrawalValue + gasSponsorValue) ErrInvalidShieldedTx;
  fail_if ((value =? 0) && (length e.(lt_Spends) =? 0)%nat) ErrInvalidShieldedTx.

(** [None]: the transaction carries no such envelope. *)
Definition validateShieldedTransactionEnvelope (config : ChainConfig.ChainConfig) (number time : Z) (tx : stx) : result vError (option ShieldedTransaction) :=
  let t := tx.(sx_tx) in
  let active := ChainConfig.IsPrivacyCommitments config number time in
  match DecodeShieldedTransaction t.(vt_Data) with
  | Err _ => Err ErrInvalidShieldedTx
  | Ok None =>
      if active then
        if ChainConfig.IsValidatorTransactionsActive config number time && isValidatorProtocolEnvelope t.(vt_Data)
        then _ ← validateValidatorProtocolBasics config number time t; Ok None
        else if ChainConfig.IsPQMigrationAllowed config number time && IsPQMigrationTx t then Ok None
        else Err ErrInvalidShieldedTx
      else Ok None
  | Ok (Some e) =>
      _ ← fail_if (negb active) ErrInvalidShieldedTx;
      _ ← fail_if (negb (bool_decide (t.(vt_To) = Some ShieldedPoolAddress))) ErrInvalidShieldedTx;
      _ ← validateShieldedEnvelope e (if IsMainnetShieldedV2 config time then ShieldedTxVersionV2 else ShieldedTxVersionV1);
      _ ← publicMoves config time tx e;
      let antartical := ChainConfig.IsAntartical config number time in
      _ ← fail_if (negb antartical && (0 <? length e.(lt_MigrationOutputRandomness))%nat) ErrInvalidShieldedTx;
      _ ← (if antartical then migrationOnly config number time tx e else Ok ());
      Ok (Some e)
  end.

Definition activeShieldedProofVerifier (config : ChainConfig.ChainConfig) (time version : Z) : ShieldedProofVerifier :=
  match configuredVerifier with
  | Some verifier => verifier
  | None =>
      if version =? ShieldedTxVersionV2 then default unavailableShieldedVerifier (v2ShieldedGroth16VerifierFromParams config)
      else
        let configVerifier := shieldedGroth16VerifierFromChainConfig config in
        let upgradeVerifier := upgradedShieldedGroth16VerifierFromParams config in
        match (if MainnetShieldedGroth16RecoveryTime <=? time then recoveryShieldedGroth16VerifierFromParams config else None) with
        | Some recoveryVerifier => recoveryVerifier
        | None =>
            match upgradeVerifier, configVerifier with
            | Some primary, Some fallback => fallbackShieldedVerifier primary fallback
            | Some verifier, None | None, Some verifier => verifier
            | None, None => unavailableShieldedVerifier
            end
        end
  end.

(** A proof that fails for the block may be one for block zero. *)
Definition verifyShieldedSpend (config : ChainConfig.ChainConfig) (time version : Z) (ctx : ShieldedProofContext) (proof : bytes) : bool :=
  let verifier := activeShieldedProofVerifier config time version in
  verifier ctx proof
  || negb (ctx.(pc_BlockNumber) =? 0)
     && verifier {| pc_Version := ctx.(pc_Version); pc_Sender := ctx.(pc_Sender); pc_ChainID := ctx.(pc_ChainID); pc_BlockNumber := 0; pc_TxHash := ctx.(pc_TxHash);
                    pc_SpendIndex := ctx.(pc_SpendIndex); pc_Nullifier := ctx.(pc_Nullifier); pc_Anchor := ctx.(pc_Anchor);
                    pc_BalanceCommitment := ctx.(pc_BalanceCommitment); pc_PublicValue := ctx.(pc_PublicValue); pc_OutputCommitments := ctx.(pc_OutputCommitments);
                    pc_BindingSig := ctx.(pc_BindingSig) |} proof.

(** ** Slots *)

Definition legacySlot (parts : list bytes) : hash := BytesToHash (keccak (concat parts)).
Definition shieldedCommitmentSlot (c : hash) : hash := legacySlot [str "TKM_SHIELDED_COMMITMENT_V1"; hash_bytes c].
Definition shieldedNullifierSlot (n : hash) : hash := legacySlot [str "TKM_SHIELDED_NULLIFIER_V1"; hash_bytes n].
Definition ShieldedMerkleNextIndexSlot : hash := legacySlot [str "TKM_SHIELDED_MERKLE_NEXT_INDEX_V1"].
Definition ShieldedMerkleFrontierSlot (level : nat) : hash := legacySlot [str "TKM_SHIELDED_MERKLE_FRONTIER_V1"; hash_bytes (uint64Hash (Z.of_nat level))].
Definition ShieldedCommitmentIndexSlot (c : hash) : hash := legacySlot [str "TKM_SHIELDED_COMMITMENT_INDEX_V1"; hash_bytes c].
Definition ShieldedCommitmentPathSlot (c : hash) (level : nat) : hash :=
  legacySlot [str "TKM_SHIELDED_COMMITMENT_PATH_V1"; hash_bytes c; hash_bytes (uint64Hash (Z.of_nat level))].
Definition ShieldedMerkleRootSlot (root : hash) : hash := legacySlot [str "TKM_SHIELDED_MERKLE_ROOT_V1"; hash_bytes root].

(** ** The tree *)

(** [n] more levels above a zero node. *)
Fixpoint zeroLoop (n : nat) (current : hash) : list hash :=
  match n with O => [] | Datatypes.S n => let next := shieldedHashNode current current in next :: zeroLoop n next end.
Definition shieldedMerkleZeroHashes : list hash := zeroHash :: zeroLoop 31 zeroHash.

Definition computeShieldedMerkleRoot (commitment : hash) (path : list hash) (pathIndex : list Z) : hash :=
  foldl (λ root level, let sibling := nth level path zeroHash in
                       if nth level pathIndex 0 =? 1 then shieldedHashNode sibling root else shieldedHashNode root sibling)
    commitment (seq 0 shieldedMerkleDepth).

Context {U : Uint256} {S : Type} {W : WorldState S}.

Definition getL (st : S) (k : hash) : hash := GetState st ShieldedPoolAddress k.
Definition setL (st : S) (k v : hash) : S := SetState st ShieldedPoolAddress k v.

Definition ShieldedNullifierTransaction (st : S) (n : hash) : hash := getL st (shieldedNullifierSlot n).
Definition ShieldedNullifierSpent (st : S) (n : hash) : bool := negb (ShieldedNullifierTransaction st n =? zeroHash).
Definition ShieldedMerkleNextIndex (st : S) : Z := uint64FromHash (getL st ShieldedMerkleNextIndexSlot).
Definition shieldedMerkleRootKnown (st : S) (root : hash) : bool :=
  if root =? zeroHash then false else negb (getL st (ShieldedMerkleRootSlot root) =? zeroHash).

(** The directions of a path. *)
Definition pathBits (index : Z) : list Z := (λ level, if Z.testbit index (Z.of_nat level) then 1 else 0) <$> seq 0 shieldedMerkleDepth.

Definition ShieldedCommitmentPath (st : S) (commitment : hash) : option ShieldedMerklePath :=
  let indexPlusOne := uint64FromHash (getL st (ShieldedCommitmentIndexSlot commitment)) in
  if indexPlusOne =? 0 then None
  else
    let index := indexPlusOne - 1 in
    let path := (λ level, getL st (ShieldedCommitmentPathSlot commitment level)) <$> seq 0 shieldedMerkleDepth in
    Some {| mp_Commitment := commitment; mp_Index := index; mp_Root := computeShieldedMerkleRoot commitment path (pathBits index);
            mp_Path := path; mp_PathIndex := pathBits index |}.

Definition ShieldedNextMerklePath (st : S) (commitment : hash) : ShieldedMerklePath :=
  let index := ShieldedMerkleNextIndex st in
  let path := (λ level, if Z.testbit index (Z.of_nat level) then getL st (ShieldedMerkleFrontierSlot level)
                        else nth level shieldedMerkleZeroHashes zeroHash) <$> seq 0 shieldedMerkleDepth in
  {| mp_Commitment := commitment; mp_Index := index; mp_Root := computeShieldedMerkleRoot commitment path (pathBits index);
     mp_Path := path; mp_PathIndex := pathBits index |}.

(** The loop over the levels, [n] of them left. *)
Fixpoint leafLoop (n level : nat) (index : Z) (commitment current : hash) (zeroes : list hash) (st : S) : hash * S :=
  match n with
  | O => (current, st)
  | Datatypes.S n =>
      let '(sibling, next, st) :=
        if negb (Z.testbit index (Z.of_nat level)) then
          let sibling := nth level zeroes zeroHash in
          (sibling, shieldedHashNode current sibling, setL st (ShieldedMerkleFrontierSlot level) current)
        else
          let sibling := getL st (ShieldedMerkleFrontierSlot level) in (sibling, shieldedHashNode sibling current, st) in
      leafLoop n (Datatypes.S level) index commitment next zeroes (setL st (ShieldedCommitmentPathSlot commitment level) sibling)
  end.

Definition appendShieldedMerkleLeaf (st : S) (commitment txHash : hash) : option vError * S :=
  let index := ShieldedMerkleNextIndex st in
  if 2 ^ 32 <=? index then (Some ErrInvalidShieldedTx, st)
  else
    let '(current, st) := leafLoop shieldedMerkleDepth 0 index commitment commitment shieldedMerkleZeroHashes st in
    let st := setL st (ShieldedCommitmentIndexSlot commitment) (uint64Hash (index +₆₄ 1)) in
    let st := setL st ShieldedMerkleNextIndexSlot (uint64Hash (index +₆₄ 1)) in
    (None, setL st (ShieldedMerkleRootSlot current) txHash).

(** ** Transactions *)

(** The loop over the spends from index [i] on; [verify] checks a proof. *)
Fixpoint spendLoop (isDeposit : bool) (txHash : hash) (verify : nat → ShieldedEnvelopes.ShieldedSpend → bool) (i : nat) (spends : list ShieldedEnvelopes.ShieldedSpend)
    (st : S) (seen : gset hash) : option vError * S * gset hash :=
  match spends with
  | [] => (None, st, seen)
  | s :: spends =>
      if (if isDeposit then negb (i =? 0)%nat else negb (shieldedMerkleRootKnown st s.(ls_Anchor))) then (Some ErrInvalidShieldedTx, st, seen)
      else if bool_decide (s.(ls_Nullifier) ∈ seen) then (Some ErrInvalidShieldedTx, st, seen)
      else if negb isDeposit && ShieldedNullifierSpent st s.(ls_Nullifier) then (Some ErrInvalidShieldedTx, st, seen)
      else if negb (verify i s) then (Some ErrInvalidShieldedTx, st, seen)
      else if isDeposit then spendLoop isDeposit txHash verify (Datatypes.S i) spends st seen
      else spendLoop isDeposit txHash verify (Datatypes.S i) spends (setL st (shieldedNullifierSlot s.(ls_Nullifier)) txHash) ({[s.(ls_Nullifier)]} ∪ seen)
  end.

Fixpoint outputLoop (txHash : hash) (outputs : list ShieldedOutput) (st : S) : option vError * S :=
  match outputs with
  | [] => (None, st)
  | o :: outputs =>
      let slot := shieldedCommitmentSlot o.(lo_Commitment) in
      if negb (getL st slot =? zeroHash) then (Some ErrInvalidShieldedTx, st)
      else
        match appendShieldedMerkleLeaf (setL st slot o.(lo_PayloadHash)) o.(lo_Commitment) txHash with
        | (Some e, st) => (Some e, st)
        | (None, st) => outputLoop txHash outputs st
        end
  end.

(** The checks before the first write: the envelope, the new ledger, the intent and the
    sender. *)
Definition legacyChecks (config : ChainConfig.ChainConfig) (number time : Z) (st : S) (tx : ltx)
    : result vError (option (ShieldedTransaction * option ConfidentialLedgerTotals * hash * address)) :=
  envelope ← validateShieldedTransactionEnvelope config number time tx.(lx_tx);
  match envelope with
  | None => Ok None
  | Some e =>
      let publicRelease := shieldedWithdrawalValue e + shieldedGasSponsorValue e in
      ledger ← (if ChainConfig.IsConfidentialLedger config number time then l ← ledgerTransition st AssetTKM 0 publicRelease 0; Ok (Some l) else Ok None);
      _ ← fail_if ((0 <? publicRelease) && (GetBalance st ShieldedPoolAddress <? publicRelease)) ErrInvalidShieldedTx;
      intentHash ← ShieldedTransactionIntentHash tx e;
      sender ← (if e.(lt_Version) =? ShieldedTxVersionV2
                then match Sender config number time tx.(lx_tx).(sx_tx) with Some a => Ok a | None => Err ErrInvalidShieldedTx end
                else Ok zeroAddress);
      Ok (Some (e, ledger, intentHash, sender))
  end.

Definition proofContext (config : ChainConfig.ChainConfig) (number : Z) (value : Z) (e : ShieldedTransaction) (intentHash : hash) (sender : address)
    (i : nat) (s : ShieldedEnvelopes.ShieldedSpend) : ShieldedProofContext := {|
  pc_Version := e.(lt_Version); pc_Sender := sender; pc_ChainID := default 0 (ChainConfig.ChainID config); pc_BlockNumber := number; pc_TxHash := intentHash;
  pc_SpendIndex := i; pc_Nullifier := s.(ls_Nullifier); pc_Anchor := s.(ls_Anchor); pc_BalanceCommitment := e.(lt_BalanceCommitment);
  pc_PublicValue := shieldedPublicValue e value; pc_OutputCommitments := lo_Commitment <$> e.(lt_Outputs); pc_BindingSig := e.(lt_BindingSig) |}.

Definition processLegacy (config : ChainConfig.ChainConfig) (number time : Z) (st : S) (tx : ltx) (seen : gset hash) : option vError * S * gset hash :=
  match legacyChecks config number time st tx with
  | Err e => (Some e, st, seen)
  | Ok None => (None, st, seen)
  | Ok (Some (e, ledger, intentHash, sender)) =>
      let value := tx.(lx_tx).(sx_tx).(vt_Value) in
      let txHash := tx.(lx_tx).(sx_tx).(vt_Hash) in
      let verify i s := verifyShieldedSpend config time e.(lt_Version) (proofContext config number value e intentHash sender i s) s.(ls_Proof) in
      match spendLoop (isShieldedDeposit e value) txHash verify 0 e.(lt_Spends) st seen with
      | (Some err, st, seen) => (Some err, st, seen)
      | (None, st, seen) =>
          let st := release st e.(lt_WithdrawalRecipient) (shieldedWithdrawalValue e) in
          let st := release st sender (shieldedGasSponsorValue e) in
          match outputLoop txHash e.(lt_Outputs) st with
          | (Some err, st) => (Some err, st, seen)
          | (None, st) => (None, match ledger with Some l => commitLedger st AssetTKM l | None => st end, seen)
          end
      end
  end.

(** ** Admission *)

(** What the transaction pool checks of an envelope without the state. *)
Definition ValidateShieldedTransactionBasics (config : ChainConfig.ChainConfig) (number time : Z) (tx : stx) : result vError unit :=
  let data := tx.(sx_tx).(vt_Data) in
  let privacy := ChainConfig.IsPrivacyCommitments config number time in
  if HasShieldedV6Prefix data then
    _ ← fail_if (negb (ChainConfig.IsShield6 config number time)) ErrInvalidShieldedTx;
    _ ← shieldedV6Basics config number time tx;
    ValidateShieldedV6Proof tx
  else if HasShieldedV5Prefix data then
    _ ← fail_if (negb (ChainConfig.IsShield5 config number time)) ErrInvalidShieldedTx;
    _ ← shieldedV5Basics config number time tx; Ok ()
  else
    _ ← ValidateShieldedOnlyTransaction config number time tx.(sx_tx);
    if HasPrivateTVMPrefix data then _ ← ValidatePrivateTVMBasics config number time tx; Ok ()
    else if HasAntarticalStampPrefix data then ValidateAntarticalStampBasics config number time tx
    else if ChainConfig.IsValidatorTransactionsActive config number time && isValidatorProtocolEnvelope data
    then validateValidatorProtocolBasics config number time tx.(sx_tx)
    else if HasShieldedV4Prefix data && (negb (ChainConfig.IsAntartical config number time) || negb privacy) then Err ErrInvalidShieldedTx
    else if HasShieldedV4Prefix data && privacy then _ ← shieldedV4Basics config number time tx; Ok ()
    else if HasShieldedV3Prefix data && privacy then _ ← shieldedV3Basics config number time tx; Ok ()
    else _ ← validateShieldedTransactionEnvelope config number time tx; Ok ().

(** The end of [ValidateShieldedTransactionState], for the envelopes of the first pool. *)
Definition legacyState (st : S) (tx : stx) : result vError unit :=
  match DecodeShieldedTransaction tx.(sx_tx).(vt_Data) with
  | Err _ => Err ErrInvalidShieldedTx
  | Ok None => Ok ()
  | Ok (Some e) =>
      _ ← (if negb (isShieldedDeposit e tx.(sx_tx).(vt_Value))
           then fail_if (existsb (λ s, negb (shieldedMerkleRootKnown st s.(ls_Anchor)) || ShieldedNullifierSpent st s.(ls_Nullifier)) e.(lt_Spends)) ErrInvalidShieldedTx
           else Ok ());
      fail_if (existsb (λ o, negb (getL st (shieldedCommitmentSlot o.(lo_Commitment)) =? zeroHash)) e.(lt_Outputs)) ErrInvalidShieldedTx
  end.

(** ** Dispatch *)

Definition asVote (r : option vError * S * gset hash) : option voteError * S * gset hash := (option_map ErrVote r.1.1, r.1.2, r.2).

(** The checks of Antartical: [None] when the envelope goes on to the pools. *)
Definition antarticalDispatch (config : ChainConfig.ChainConfig) (number time : Z) (st : S) (tx : stx) : option (option voteError * S) :=
  let t := tx.(sx_tx) in
  if HasAntarticalStampPrefix t.(vt_Data) then let r := ProcessAntarticalStamp config number time st tx in Some (option_map ErrVote r.1, r.2)
  else
    match Sender config number time t with
    | None => Some (Some (ErrVote ErrSender), st)
    | Some from =>
        match ValidateAntarticalStampState st from t.(vt_To) t.(vt_Value) t.(vt_Data) with
        | Err e => Some (Some e, st)
        | Ok _ => if HasPrivateTVMPrefix t.(vt_Data) || isValidatorProtocolEnvelope t.(vt_Data) then Some (None, st) else None
        end
    end.

(** Every [return] of [ProcessShieldedTransaction] in turn. *)
Definition ProcessShieldedTransaction (config : ChainConfig.ChainConfig) (number time : Z) (st : S) (tx : ltx) (seen : gset hash)
    : option voteError * S * gset hash :=
  let s := tx.(lx_tx) in
  let data := s.(sx_tx).(vt_Data) in
  let antartical := ChainConfig.IsAntartical config number time in
  let privacy := ChainConfig.IsPrivacyCommitments config number time in
  let fail e := (Some (ErrVote e), st, seen) in
  if HasShieldedV6Prefix data then
    if negb (ChainConfig.IsShield6 config number time) then fail ErrInvalidShieldedTx else processShieldedV6 config number time st s seen
  else if HasShieldedV5Prefix data then
    if negb (ChainConfig.IsShield5 config number time) then fail ErrInvalidShieldedTx else processShieldedV5 config number time st s seen
  else
    match ValidateShieldedOnlyTransaction config number time s.(sx_tx) with
    | Err e => fail e
    | Ok _ =>
        match (if ChainConfig.IsValidatorTransactionsActive config number time && isValidatorProtocolEnvelope data
               then validateValidatorProtocolBasics config number time s.(sx_tx) else Ok ()) with
        | Err e => fail e
        | Ok _ =>
            if HasShieldedV4Prefix data && (negb antartical || negb privacy) then fail ErrInvalidShieldedTx
            else
              match (if antartical then antarticalDispatch config number time st s else None) with
              | Some (err, st) => (err, st, seen)
              | None =>
                  if HasShieldedV4Prefix data && privacy then processShieldedV4 config number time st s seen
                  else if HasShieldedV3Prefix data && privacy then processShieldedV3 config number time st s seen
                  else asVote (processLegacy config number time st tx seen)
              end
        end
    end.
End Pool.
End LegacyPool.
