(* ===== verification/LegacyTree.v ===== *)
(** * The tree of the first pool

    [LegacyPool] stores, beside the frontier, the path of every note at the time it was
    appended.  Here the stored state is related to the list of all notes: the roots that
    may serve as anchors are those of the prefixes of the list, and the path of a note
    leads to the root of the prefix that ends with it. *)

From S2P Require Import Prelude Bytes State ValidatorRegistry ValidatorStore Merkle ShieldedTree NoteTree ShieldedEnvelopes PoolSlots LegacyPool.
Import ValidatorRegistry ValidatorStore ShieldedTree NoteTree ShieldedEnvelopes PoolSlots LegacyPool.

Module LegacyTree.

Definition commitmentL : prefix := preL (str "TKM_SHIELDED_COMMITMENT_V1").
Definition nullifierL : prefix := preL (str "TKM_SHIELDED_NULLIFIER_V1").
Definition nextL : prefix := preL (str "TKM_SHIELDED_MERKLE_NEXT_INDEX_V1").
Definition frontierL : prefix := preL (str "TKM_SHIELDED_MERKLE_FRONTIER_V1").
Definition indexL : prefix := preL (str "TKM_SHIELDED_COMMITMENT_INDEX_V1").
Definition pathL : prefix := preL (str "TKM_SHIELDED_COMMITMENT_PATH_V1").
Definition rootL : prefix := preL (str "TKM_SHIELDED_MERKLE_ROOT_V1").

Definition levelL (k : nat) : bytes := hash_bytes (uint64Hash (Z.of_nat k)).
Definition pathKey (c : hash) (k : nat) : bytes := hash_bytes c ++ levelL k.

Lemma field_bytes_inj a b : 0 <= a < two256 → 0 <= b < two256 → hash_bytes a = hash_bytes b → a = b.
Proof. intros Ha Hb. apply be_bytes_inj; by change (256 ^ Z.of_nat 32) with two256. Qed.

Lemma levelL_inj j k : (j < 32)%nat → (k < 32)%nat → levelL j = levelL k → j = k.
Proof.
  intros Hj Hk. unfold levelL. rewrite !uint64Hash_id by (unfold is_u64, two64; lia). intros E. apply field_bytes_inj in E; unfold two256; lia.
Qed.

Lemma pathKey_inj a b j k : 0 <= a < two256 → 0 <= b < two256 → (j < 32)%nat → (k < 32)%nat → pathKey a j = pathKey b k → a = b ∧ j = k.
Proof.
  intros Ha Hb Hj Hk E. apply app_inj_1 in E as [E1 E2]; [|unfold hash_bytes; by rewrite !length_be_bytes].
  split; [by apply field_bytes_inj|by apply levelL_inj].
Qed.

#[local] Opaque levelL pathKey.

(** The prefixes of the tree; the nullifiers are apart. *)
Definition treeSlot (p : prefix) (d : bytes) : Prop := p ∈ [commitmentL; nextL; frontierL; indexL; pathL; rootL].

(** Two slots with different prefixes. *)
Ltac otherL := let E := fresh in intros [E _]; revert E; prefix_ne.

Section Tree.
Context {X : Externals} {F : FieldHash} {U : Uint256} {S : Type} {W : WorldState S}.
Context (Q : prefix → bytes → Prop) (K : hash → Prop).
Context {HQ : PoolDistinct Q}.

(** The hashes [K], with all values of the field hash among them, have slots in use. *)
Class LegacyUse := {
  gu_hash h : K h → 0 <= h < two256;
  gu_node a b : K (shieldedHashNode a b);
  gu_next : inUse Q nextL [];
  gu_frontier k : (k < 32)%nat → inUse Q frontierL (levelL k);
  gu_hashes p h : p ∈ [commitmentL; nullifierL; indexL; rootL] → K h → inUse Q p (hash_bytes h);
  gu_path h k : K h → (k < 32)%nat → inUse Q pathL (pathKey h k);
}.
Context {HU : LegacyUse}.

Ltac in_slots := apply (bool_decide_unpack _); vm_compute; exact I.
Ltac useL :=
  lazymatch goal with
  | |- inUse _ nextL _ => apply gu_next
  | |- inUse _ frontierL _ => apply gu_frontier; lia
  | |- inUse _ pathL _ => apply gu_path; [assumption|lia]
  | |- _ => apply gu_hashes; [in_slots|assumption]
  end.

(** ** Slots *)

Lemma slotL name d : legacySlot [str name; d] = slotAt (preL (str name)) d.
Proof. unfold legacySlot, slotAt, preL. cbn [concat fst snd]. by rewrite app_nil_r. Qed.
Lemma slotL_nil name : legacySlot [str name] = slotAt (preL (str name)) [].
Proof. unfold legacySlot, slotAt, preL. cbn [concat fst snd]. done. Qed.

Lemma get_commitment st c : getL st (shieldedCommitmentSlot c) = getP st commitmentL (hash_bytes c).
Proof. unfold getL, shieldedCommitmentSlot. by rewrite slotL. Qed.
Lemma set_commitment st c v : setL st (shieldedCommitmentSlot c) v = setP st commitmentL (hash_bytes c) v.
Proof. unfold setL, shieldedCommitmentSlot. by rewrite slotL. Qed.
Lemma get_nullifier st c : getL st (shieldedNullifierSlot c) = getP st nullifierL (hash_bytes c).
Proof. unfold getL, shieldedNullifierSlot. by rewrite slotL. Qed.
Lemma set_nullifier st c v : setL st (shieldedNullifierSlot c) v = setP st nullifierL (hash_bytes c) v.
Proof. unfold setL, shieldedNullifierSlot. by rewrite slotL. Qed.
Lemma get_index st c : getL st (ShieldedCommitmentIndexSlot c) = getP st indexL (hash_bytes c).
Proof. unfold getL, ShieldedCommitmentIndexSlot. by rewrite slotL. Qed.
Lemma set_index st c v : setL st (ShieldedCommitmentIndexSlot c) v = setP st indexL (hash_bytes c) v.
Proof. unfold setL, ShieldedCommitmentIndexSlot. by rewrite slotL. Qed.
Lemma get_root st c : getL st (ShieldedMerkleRootSlot c) = getP st rootL (hash_bytes c).
Proof. unfold getL, ShieldedMerkleRootSlot. by rewrite slotL. Qed.
Lemma set_root st c v : setL st (ShieldedMerkleRootSlot c) v = setP st rootL (hash_bytes c) v.
Proof. unfold setL, ShieldedMerkleRootSlot. by rewrite slotL. Qed.
Lemma get_next st : getL st ShieldedMerkleNextIndexSlot = getP st nextL [].
Proof. unfold getL, ShieldedMerkleNextIndexSlot. by rewrite slotL_nil. Qed.
Lemma set_next st v : setL st ShieldedMerkleNextIndexSlot v = setP st nextL [] v.
Proof. unfold setL, ShieldedMerkleNextIndexSlot. by rewrite slotL_nil. Qed.
Lemma get_frontier st k : getL st (ShieldedMerkleFrontierSlot k) = getP st frontierL (levelL k).
Proof. unfold getL, ShieldedMerkleFrontierSlot. by rewrite slotL. Qed.
Lemma set_frontier st k v : setL st (ShieldedMerkleFrontierSlot k) v = setP st frontierL (levelL k) v.
Proof. unfold setL, ShieldedMerkleFrontierSlot. by rewrite slotL. Qed.
Lemma slot_path c k : ShieldedCommitmentPathSlot c k = slotAt pathL (pathKey c k).
Proof. with_strategy transparent [levelL pathKey] (unfold ShieldedCommitmentPathSlot, legacySlot, slotAt, pathL, preL, pathKey, levelL; cbn [concat fst snd]; by rewrite app_nil_r). Qed.
Lemma get_path st c k : getL st (ShieldedCommitmentPathSlot c k) = getP st pathL (pathKey c k).
Proof. unfold getL. by rewrite slot_path. Qed.
Lemma set_path st c k v : setL st (ShieldedCommitmentPathSlot c k) v = setP st pathL (pathKey c k) v.
Proof. unfold setL. by rewrite slot_path. Qed.

(** ** One level *)

Abbreviation nodeL := (Merkle.node shieldedHashNode zeroHash).
Abbreviation zeroL := (Merkle.zeroNode shieldedHashNode zeroHash).
Definition frontierAt (st : S) (k : nat) : hash := getP st frontierL (levelL k).

Lemma zeroLoop_nth n k : (k <= n)%nat → nth k (zeroHash :: zeroLoop n zeroHash) zeroHash = zeroL k.
Proof.
  assert (H : ∀ n j k, (k < n)%nat → nth k (zeroLoop n (zeroL j)) zeroHash = zeroL (Datatypes.S (j + k))).
  { clear. induction n as [|n IH]; intros j k Hk; [lia|]. cbn [zeroLoop]. destruct k as [|k]; cbn [nth]; [by rewrite Nat.add_0_r|].
    rewrite (IH (Datatypes.S j)) by lia. by rewrite Nat.add_succ_r. }
  intros Hk. destruct k as [|k]; [done|]. cbn [nth]. apply (H n 0%nat k). lia.
Qed.

Lemma zeroes_nth k : (k < 32)%nat → nth k shieldedMerkleZeroHashes zeroHash = zeroL k.
Proof. intros Hk. apply zeroLoop_nth. lia. Qed.

Lemma testbit_half n k : 0 <= n → Z.testbit n (Z.of_nat k) = negb (Z.even (n / 2 ^ Z.of_nat k)).
Proof. intros Hn. rewrite Z.testbit_odd, Z.shiftr_div_pow2 by lia. by rewrite <- Z.negb_even. Qed.

(** The sibling of the node above a new leaf. *)
Lemma sibling_last l x k f : let i := Z.of_nat (length l) / 2 ^ Z.of_nat k in (k < 32)%nat → Merkle.frontier_ok shieldedHashNode zeroHash 32 l f →
  nodeL (l ++ [x]) k (Z.lxor i 1) = if Z.even i then zeroL k else f k.
Proof.
  intros i Hk Hf. destruct (Merkle.div_spec (Z.of_nat (length l)) k ltac:(lia)) as [Hi Hd]. fold i in Hi, Hd. destruct (Z.even i) eqn:He.
  - rewrite Merkle.lxor_even by done. apply Merkle.node_zero; [lia|]. rewrite Merkle.length_snoc_Z. lia.
  - assert (i ≠ 0) by (intros E; by rewrite E in He). rewrite Merkle.lxor_odd by done. rewrite (Hf k Hk He). fold i. apply Merkle.node_snoc; fold i; lia.
Qed.

(** The writes at one level of the loop. *)
Definition levelWrites (st : S) (c : hash) (level : nat) (even : bool) (current sibling : hash) : S :=
  setP (if even then setP st frontierL (levelL level) current else st) pathL (pathKey c level) sibling.

Definition loopSlot (c : hash) (level : nat) (p : prefix) (d : bytes) : Prop :=
  ∃ k, (level <= k < 32)%nat ∧ (p = frontierL ∧ d = levelL k ∨ p = pathL ∧ d = pathKey c k).

Lemma levelWrites_quiet st c level even current sibling : K c → (level < 32)%nat → quiet Q (loopSlot c level) st (levelWrites st c level even current sibling).
Proof using HQ HU.
  intros Hc Hl. unfold levelWrites. eapply quiet_trans; [|apply quiet_set; [done|useL|exists level; split; [lia|right; split; reflexivity]]].
  destruct even; [|apply quiet_refl]. apply quiet_set; [done|useL|]. exists level. split; [lia|left; split; reflexivity].
Qed.

Lemma levelWrites_at st c level even current sibling k : K c → (level < 32)%nat → (k < 32)%nat → let st' := levelWrites st c level even current sibling in
  frontierAt st' k = (if decide (k = level) then if even then current else frontierAt st k else frontierAt st k)
  ∧ getP st' pathL (pathKey c k) = (if decide (k = level) then sibling else getP st pathL (pathKey c k)).
Proof using HQ HU.
  intros Hc Hl Hk st'. unfold st', levelWrites, frontierAt. clear st'. pose proof (gu_hash _ Hc) as Hr. split.
  - rewrite (getP_setP_ne Q); [|useL|useL|otherL]. destruct even; [|by destruct (decide _)]. destruct (decide (k = level)) as [->|Hn]; [apply getP_setP_eq|].
    apply (getP_setP_ne Q); [useL|useL|]. intros [_ E]. apply Hn. symmetry. by apply levelL_inj.
  - destruct (decide (k = level)) as [->|Hn]; [apply getP_setP_eq|]. rewrite (getP_setP_ne Q); [|useL|useL|].
    + destruct even; [|done]. apply (getP_setP_ne Q); [useL|useL|otherL].
    + intros [_ E]. apply Hn. symmetry. by apply pathKey_inj in E as [_ ?].
Qed.

(** What the loop leaves below its first level. *)
Lemma loop_kept c level st st' k : quiet Q (loopSlot c level) st st' → K c → (k < level)%nat → (k < 32)%nat →
  frontierAt st' k = frontierAt st k ∧ getP st' pathL (pathKey c k) = getP st pathL (pathKey c k).
Proof using HU.
  intros Hq Hc Hk H32. pose proof (gu_hash _ Hc) as Hr.
  split; (apply (quiet_get Q _ _ _ _ _ Hq); [useL|]); intros (j & Hj & [[Ep Ed]|[Ep Ed]]); try (revert Ep; prefix_ne).
  - apply levelL_inj in Ed; lia.
  - apply pathKey_inj in Ed as [_ Ed]; lia || done.
Qed.

(** The node above a new leaf, by level. *)
Definition above (l : list hash) (k : nat) : Z := Z.of_nat (length l) / 2 ^ Z.of_nat k.

Lemma leafLoop_step l x n level st : (level < 32)%nat → Merkle.frontier_ok shieldedHashNode zeroHash 32 l (frontierAt st) →
  leafLoop (Datatypes.S n) level (Z.of_nat (length l)) x (nodeL (l ++ [x]) level (above l level)) shieldedMerkleZeroHashes st
  = leafLoop n (Datatypes.S level) (Z.of_nat (length l)) x (nodeL (l ++ [x]) (Datatypes.S level) (above l (Datatypes.S level))) shieldedMerkleZeroHashes
      (levelWrites st x level (Z.even (above l level)) (nodeL (l ++ [x]) level (above l level)) (nodeL (l ++ [x]) level (Z.lxor (above l level) 1))).
Proof.
  intros Hl Hf. cbn [leafLoop]. rewrite testbit_half by lia. fold (above l level). rewrite negb_involutive.
  rewrite (sibling_last l x level _ Hl Hf : nodeL (l ++ [x]) level (Z.lxor (above l level) 1) = if Z.even (above l level) then zeroL level else frontierAt st level).
  replace (above l (Datatypes.S level)) with (Z.div2 (above l level)) by (unfold above; by rewrite Merkle.div_half).
  assert (Hi : 0 <= above l level) by (apply Z.div_pos; lia). unfold levelWrites. rewrite Merkle.node_up by done.
  rewrite (sibling_last l x level _ Hl Hf : nodeL (l ++ [x]) level (Z.lxor (above l level) 1) = if Z.even (above l level) then zeroL level else frontierAt st level).
  destruct (Z.even (above l level)); rewrite ?set_frontier, ?get_frontier, set_path, ?zeroes_nth by done; done.
Qed.

Lemma leafLoop_ok l x n level st : K x → (n + level = 32)%nat → Merkle.frontier_ok shieldedHashNode zeroHash 32 l (frontierAt st) →
  ∃ st', leafLoop n level (Z.of_nat (length l)) x (nodeL (l ++ [x]) level (above l level)) shieldedMerkleZeroHashes st = (nodeL (l ++ [x]) 32 (above l 32%nat), st')
    ∧ quiet Q (loopSlot x level) st st'
    ∧ ∀ k, (level <= k < 32)%nat → frontierAt st' k = (if Z.even (above l k) then nodeL (l ++ [x]) k (above l k) else frontierAt st k)
        ∧ getP st' pathL (pathKey x k) = nodeL (l ++ [x]) k (Z.lxor (above l k) 1).
Proof using HQ HU.
  intros Hx Hn Hf. revert level st Hn Hf. induction n as [|n IH]; intros level st Hn Hf.
  { cbn [leafLoop]. replace level with 32%nat by lia. exists st. split_and!; [done|apply quiet_refl|lia]. }
  rewrite (leafLoop_step l x n level st ltac:(lia) Hf).  set (sib := nodeL _ _ (Z.lxor _ 1)). set (cur := nodeL _ _ (above l level)).
  set (st1 := levelWrites _ _ _ _ _ _).
  assert (Hat : ∀ k, (k < 32)%nat → frontierAt st1 k = (if decide (k = level) then if Z.even (above l level) then cur else frontierAt st k else frontierAt st k)
    ∧ getP st1 pathL (pathKey x k) = (if decide (k = level) then sib else getP st pathL (pathKey x k))) by (intros k Hk; apply levelWrites_at; [done|lia|done]).
  destruct (IH (Datatypes.S level) st1) as (st' & E & Hq & Hv); [lia| |].
  { intros k Hk Hodd. rewrite (proj1 (Hat k Hk)). destruct (decide (k = level)) as [->|]; [|by apply Hf]. fold (above l level) in Hodd. rewrite Hodd. by apply Hf. }
  exists st'. split_and!; [done| |].
  - eapply quiet_trans; [apply levelWrites_quiet; [done|lia]|]. eapply quiet_weaken; [|exact Hq]. intros p d (k & Hk & Hp). exists k. split; [lia|done].
  - intros k Hk. destruct (decide (k = level)) as [->|Hne].
    + destruct (loop_kept _ _ _ _ level Hq Hx) as [-> ->]; [lia|lia|]. destruct (Hat level ltac:(lia)) as [-> ->]. by rewrite !decide_True by done.
    + destruct (Hv k ltac:(lia)) as [-> ->]. destruct (Hat k ltac:(lia)) as [-> _]. by rewrite decide_False by done.
Qed.
(** ** The state of the tree *)

Record note := { n_commitment : hash; n_payload : hash; n_tx : hash }.
Definition leaves (ns : list note) : list hash := n_commitment <$> ns.

(** The root when the tree held [m] notes. *)
Definition rootAfter (ns : list note) (m : nat) : hash := Merkle.root shieldedHashNode zeroHash 32 (take m (leaves ns)).
Definition pastRoot (ns : list note) (r : hash) : Prop := ∃ m, (0 < m <= length ns)%nat ∧ r = rootAfter ns m.
(** The siblings on the path of note [i] when it was appended. *)
Definition siblingAt (ns : list note) (i k : nat) : hash := nodeL (take (Datatypes.S i) (leaves ns)) k (Z.lxor (Z.of_nat i / 2 ^ Z.of_nat k) 1).

Definition note_ok (n : note) : Prop := K n.(n_commitment) ∧ n.(n_payload) ≠ 0 ∧ n.(n_tx) ≠ 0.

Record holdsL (st : S) (ns : list note) : Prop := {
  hl_size : Z.of_nat (length ns) <= 2 ^ 32;
  hl_ok : Forall note_ok ns;
  hl_nodup : NoDup (leaves ns);
  hl_next : getP st nextL [] = Z.of_nat (length ns);
  hl_frontier : Merkle.frontier_ok shieldedHashNode zeroHash 32 (leaves ns) (frontierAt st);
  hl_at i n : ns !! i = Some n →
    getP st commitmentL (hash_bytes n.(n_commitment)) = n.(n_payload)
    ∧ getP st indexL (hash_bytes n.(n_commitment)) = Z.of_nat i + 1
    ∧ ∀ k, (k < 32)%nat → getP st pathL (pathKey n.(n_commitment) k) = siblingAt ns i k;
  hl_new c : K c → c ∉ leaves ns → getP st commitmentL (hash_bytes c) = 0 ∧ getP st indexL (hash_bytes c) = 0;
  hl_root r : K r → getP st rootL (hash_bytes r) ≠ 0 ↔ pastRoot ns r;
}.

Lemma length_notes ns : length (leaves ns) = length ns.
Proof. apply length_fmap. Qed.
Lemma notes_snoc ns n : leaves (ns ++ [n]) = leaves ns ++ [n.(n_commitment)].
Proof. unfold leaves. by rewrite fmap_app. Qed.

Lemma next_index st ns : holdsL st ns → ShieldedMerkleNextIndex st = Z.of_nat (length ns).
Proof.
  intros H. unfold ShieldedMerkleNextIndex. rewrite get_next, (hl_next _ _ H). apply u64_small. pose proof (hl_size _ _ H). unfold is_u64, two64. lia.
Qed.

Lemma take_leaves_app ns new m : (m <= length ns)%nat → take m (leaves (ns ++ new)) = take m (leaves ns).
Proof. intros Hm. unfold leaves. rewrite fmap_app. apply take_app_le. by rewrite length_fmap. Qed.

Lemma rootAfter_app ns new m : (m <= length ns)%nat → rootAfter (ns ++ new) m = rootAfter ns m.
Proof. intros Hm. unfold rootAfter. by rewrite take_leaves_app. Qed.

Lemma siblingAt_snoc ns n i k : (i < length ns)%nat → siblingAt (ns ++ [n]) i k = siblingAt ns i k.
Proof. intros Hi. unfold siblingAt. by rewrite take_leaves_app by lia. Qed.

Lemma pastRoot_snoc ns n r : pastRoot (ns ++ [n]) r ↔ pastRoot ns r ∨ r = rootAfter (ns ++ [n]) (Datatypes.S (length ns)).
Proof.
  unfold pastRoot. rewrite length_app. cbn [length]. split.
  - intros (m & Hm & ->). destruct (decide (m = Datatypes.S (length ns))) as [->|Hn]; [by right|]. left. exists m. split; [lia|]. apply rootAfter_app. lia.
  - intros [(m & Hm & ->)| ->]; [exists m|eexists; split; [|reflexivity]; lia]. split; [lia|]. symmetry. apply rootAfter_app. lia.
Qed.

(** ** One note *)

(** All writes for a note behind those of the loop. *)
Definition finishL (st : S) (c : hash) (index : Z) (current txHash : hash) : S :=
  let st := setP st indexL (hash_bytes c) (uint64Hash (index +₆₄ 1)) in
  let st := setP st nextL [] (uint64Hash (index +₆₄ 1)) in
  setP st rootL (hash_bytes current) txHash.

Lemma hashes_ne c c' : K c → K c' → c ≠ c' → hash_bytes c ≠ hash_bytes c'.
Proof using HU. intros Hc Hc' Hn E. apply Hn. apply field_bytes_inj in E; [done|by apply gu_hash..]. Qed.

Lemma finishL_quiet st c index current h : K c → K current → quiet Q treeSlot st (finishL st c index current h).
Proof using HQ HU.
  intros Hc Hr. unfold finishL. repeat (eapply quiet_trans; [|apply quiet_set; [done|useL|unfold treeSlot; in_slots]]). apply quiet_refl.
Qed.

Lemma finishL_reads st c index current h : K c → K current → 0 <= index < 2 ^ 32 → let st' := finishL st c index current h in
  getP st' nextL [] = index + 1
  ∧ (∀ c', K c' → getP st' indexL (hash_bytes c') = if decide (c' = c) then index + 1 else getP st indexL (hash_bytes c'))
  ∧ (∀ r, K r → getP st' rootL (hash_bytes r) = if decide (r = current) then h else getP st rootL (hash_bytes r))
  ∧ (∀ c', K c' → getP st' commitmentL (hash_bytes c') = getP st commitmentL (hash_bytes c'))
  ∧ (∀ k, (k < 32)%nat → frontierAt st' k = frontierAt st k)
  ∧ (∀ c' k, K c' → (k < 32)%nat → getP st' pathL (pathKey c' k) = getP st pathL (pathKey c' k)).
Proof using HQ HU.
  intros Hc Hr Hi st'. unfold st', finishL, frontierAt. clear st'.
  assert (Hv : uint64Hash (index +₆₄ 1) = index + 1) by (rewrite u64_add_no_wrap by (unfold is_u64, two64; lia); apply uint64Hash_id; unfold is_u64, two64; lia).
  rewrite Hv. split_and!; intros.
  - rewrite (getP_setP_ne Q); [|useL|useL|otherL]. apply getP_setP_eq.
  - do 2 (rewrite (getP_setP_ne Q); [|useL|useL|otherL]). destruct (decide (c' = c)) as [->|Hn]; [apply getP_setP_eq|].
    apply (getP_setP_ne Q); [useL|useL|]. intros [_ E]. revert E. apply hashes_ne; [done|done|]. congruence.
  - destruct (decide (r = current)) as [->|Hn]; [apply getP_setP_eq|]. rewrite (getP_setP_ne Q); [|useL|useL|].
    + do 2 (rewrite (getP_setP_ne Q); [|useL|useL|otherL]). done.
    + intros [_ E]. revert E. apply hashes_ne; [done|done|]. congruence.
  - do 3 (rewrite (getP_setP_ne Q); [|useL|useL|otherL]). done.
  - do 3 (rewrite (getP_setP_ne Q); [|useL|useL|otherL]). done.
  - do 3 (rewrite (getP_setP_ne Q); [|useL|useL|otherL]). done.
Qed.

Lemma node_K l k i : K (nodeL l (Datatypes.S k) i).
Proof using HU. cbn [Merkle.node]. apply gu_node. Qed.

Lemma rootAfter_K ns m : K (rootAfter ns m).
Proof using HU. unfold rootAfter, Merkle.root. apply node_K. Qed.

Lemma rootAfter_last ns n : rootAfter (ns ++ [n]) (Datatypes.S (length ns)) = nodeL (leaves ns ++ [n.(n_commitment)]) 32 0.
Proof. unfold rootAfter, Merkle.root. rewrite notes_snoc, take_ge; [done|]. rewrite length_app, length_notes. cbn [length]. lia. Qed.

(** The slots behind the loop of an append. *)
Lemma loop_reads st ns n : holdsL st ns → Z.of_nat (length ns) < 2 ^ 32 → K n.(n_commitment) → let c := n.(n_commitment) in
  ∃ st1, leafLoop 32 0 (Z.of_nat (length ns)) c c shieldedMerkleZeroHashes (setP st commitmentL (hash_bytes c) n.(n_payload))
      = (rootAfter (ns ++ [n]) (Datatypes.S (length ns)), st1)
    ∧ quiet Q treeSlot st st1
    ∧ Merkle.frontier_ok shieldedHashNode zeroHash 32 (leaves (ns ++ [n])) (frontierAt st1)
    ∧ (∀ k, (k < 32)%nat → getP st1 pathL (pathKey c k) = siblingAt (ns ++ [n]) (length ns) k)
    ∧ (∀ c' k, K c' → c' ≠ c → (k < 32)%nat → getP st1 pathL (pathKey c' k) = getP st pathL (pathKey c' k))
    ∧ (∀ c', K c' → getP st1 commitmentL (hash_bytes c') = if decide (c' = c) then n.(n_payload) else getP st commitmentL (hash_bytes c'))
    ∧ (∀ p d, inUse Q p d → p ∈ [indexL; rootL] → getP st1 p d = getP st p d).
Proof using HQ HU.
  intros H Hlt Hc c. set (st0 := setP st _ _ _).
  assert (Hq0 : quiet Q (λ p d, p = commitmentL ∧ d = hash_bytes c) st st0) by (apply quiet_set; [done|useL|done]).
  assert (Hf0 : ∀ k, (k < 32)%nat → frontierAt st0 k = frontierAt st k).
  { intros k Hk. apply (quiet_get Q _ _ _ _ _ Hq0); [useL|]. otherL. }
  destruct (leafLoop_ok (leaves ns) c 32 0 st0 Hc eq_refl) as (st1 & E & Hq & Hv).
  { intros k Hk He. rewrite Hf0 by done. by apply H. }
  assert (Hleaf : nodeL (leaves ns ++ [c]) 0 (above (leaves ns) 0) = c).
  { unfold above. rewrite Z.div_1_r. apply Merkle.node_leaf. rewrite lookup_app_r, Nat.sub_diag by done. done. }
  assert (Htop : above (leaves ns) 32 = 0) by (unfold above; rewrite length_notes; apply Z.div_small; lia).
  rewrite Hleaf, Htop, length_notes in E. exists st1. rewrite rootAfter_last. split_and!.
  - exact E.
  - eapply quiet_trans.
    + eapply quiet_weaken; [|exact Hq0]. intros p d [-> _]. unfold treeSlot. in_slots.
    + eapply quiet_weaken; [|exact Hq]. intros p d (k & _ & [[-> _]|[-> _]]); unfold treeSlot; in_slots.
  - rewrite notes_snoc. apply (Merkle.frontier_snoc _ _ _ _ _ (frontierAt st)); [apply H|]. intros k Hk. rewrite <- Hf0 by done. exact (proj1 (Hv k ltac:(lia))).
  - intros k Hk. destruct (Hv k ltac:(lia)) as [_ ->]. unfold siblingAt, above. rewrite length_notes, notes_snoc, take_ge; [done|].
    rewrite length_app, length_notes. cbn [length]. lia.
  - intros c' k Hc' Hn Hk. rewrite (quiet_get Q _ _ _ _ _ Hq); [|useL|].
    + apply (quiet_get Q _ _ _ _ _ Hq0); [useL|otherL].
    + intros (j & Hj & [[Ep _]|[_ Ed]]); [revert Ep; prefix_ne|]. apply pathKey_inj in Ed as [? _]; [done|by apply gu_hash..|done|lia].
  - intros c' Hc'. rewrite (quiet_get Q _ _ _ _ _ Hq); [|useL|by intros (j & _ & [[Ep _]|[Ep _]]); revert Ep; prefix_ne].
    destruct (decide (c' = c)) as [->|Hn]; [apply getP_setP_eq|]. apply (quiet_get Q _ _ _ _ _ Hq0); [useL|]. intros [_ Ed]. revert Ed. by apply hashes_ne.
  - intros p d Hu Hp. rewrite !elem_of_cons, elem_of_nil in Hp. destruct Hp as [->|[->|[]]];
      (rewrite (quiet_get Q _ _ _ _ _ Hq); [apply (quiet_get Q _ _ _ _ _ Hq0); [done|otherL]|done|by intros (j & _ & [[Ep _]|[Ep _]]); revert Ep; prefix_ne]).
Qed.

Lemma append_ok st ns n : holdsL st ns → Z.of_nat (length ns) < 2 ^ 32 → note_ok n → n.(n_commitment) ∉ leaves ns →
  ∃ st', appendShieldedMerkleLeaf (setL st (shieldedCommitmentSlot n.(n_commitment)) n.(n_payload)) n.(n_commitment) n.(n_tx) = (None, st')
    ∧ holdsL st' (ns ++ [n]) ∧ quiet Q treeSlot st st'.
Proof using HQ HU.
  intros H Hlt Hn Hnew. pose proof Hn as (Hc & Hp & Ht). destruct (loop_reads st ns n H Hlt Hc) as (st1 & E & Hq & Hf & Hpath & Hrest & Hcom & Hkeep).
  set (c := n.(n_commitment)) in *. set (r := rootAfter (ns ++ [n]) (Datatypes.S (length ns))) in *.
  assert (Hr : K r) by apply rootAfter_K. assert (Hi : 0 <= Z.of_nat (length ns) < 2 ^ 32) by lia.
  exists (finishL st1 c (Z.of_nat (length ns)) r n.(n_tx)). split_and!.
  - unfold appendShieldedMerkleLeaf. rewrite set_commitment.
    assert (Hidx : ShieldedMerkleNextIndex (setP st commitmentL (hash_bytes c) n.(n_payload)) = Z.of_nat (length ns)).
    { rewrite <- (next_index st ns H). unfold ShieldedMerkleNextIndex. rewrite !get_next. f_equal. apply (getP_setP_ne Q); [useL|useL|otherL]. }
    rewrite Hidx, (proj2 (Z.leb_gt _ _)) by lia. change shieldedMerkleDepth with 32%nat. rewrite E. by rewrite set_index, set_next, set_root.
  - destruct (finishL_reads st1 c (Z.of_nat (length ns)) r n.(n_tx) Hc Hr Hi) as (F1 & F2 & F3 & F4 & F5 & F6). set (st2 := finishL _ _ _ _ _) in *. split.
    + rewrite length_app. cbn [length]. lia.
    + apply Forall_app. split; [apply H|by apply Forall_singleton].
    + rewrite notes_snoc. apply NoDup_app. split_and!; [apply H| |apply NoDup_singleton]. intros x Hx ->%list_elem_of_singleton. done.
    + rewrite F1, length_app. cbn [length]. lia.
    + intros k Hk He. rewrite F5 by done. by apply Hf.
    + intros i n' Hl. destruct (decide (i = length ns)) as [->|Hne].
      * rewrite lookup_app_r, Nat.sub_diag in Hl by lia. cbn in Hl. injection Hl as <-. fold c.
        rewrite F4, F2, Hcom, !decide_True by done. split_and!; [done..|]. intros k Hk. rewrite F6 by done. by apply Hpath.
      * apply lookup_lt_Some in Hl as Hlen. rewrite length_app in Hlen. cbn [length] in Hlen. rewrite lookup_app_l in Hl by lia.
        pose proof (Forall_lookup_1 _ _ _ _ (hl_ok _ _ H) Hl) as (Hc' & _). destruct (hl_at _ _ H i n' Hl) as (A1 & A2 & A3).
        assert (n'.(n_commitment) ≠ c) as Hnc by (intros E'; apply Hnew; rewrite <- E'; apply list_elem_of_fmap_2; by eapply list_elem_of_lookup_2).
        rewrite F4, F2, Hcom, !decide_False by done. rewrite Hkeep by first [useL|in_slots]. split; [exact A1|]. split; [exact A2|].
        intros k Hk. rewrite F6, Hrest, siblingAt_snoc by (done || lia). by apply A3.
    + intros c' Hc' Hn'. rewrite notes_snoc, not_elem_of_app in Hn'. destruct Hn' as [Hn1 Hn2]. rewrite list_elem_of_singleton in Hn2. fold c in Hn2.
      rewrite F4, F2, Hcom, !decide_False by done. rewrite Hkeep by first [useL|in_slots]. exact (hl_new _ _ H c' Hc' Hn1).
    + intros r' Hr'. rewrite F3, pastRoot_snoc by done. fold r. destruct (decide (r' = r)) as [->|Hne]; [split; [intros _; right; reflexivity|intros _; exact Ht]|].
      rewrite Hkeep by first [useL|in_slots]. rewrite (hl_root _ _ H r' Hr'). tauto.
  - eapply quiet_trans; [exact Hq|]. by apply finishL_quiet.
Qed.

(** ** Paths *)

Lemma pathBits_nth i k : 0 <= i → (k < 32)%nat → (nth k (pathBits i) 0 =? 1) = negb (Z.even (i / 2 ^ Z.of_nat k)).
Proof.
  intros Hi Hk. rewrite <- testbit_half by done. unfold pathBits. rewrite (nth_lookup_Some _ _ _ (if Z.testbit i (Z.of_nat k) then 1 else 0)).
  - by destruct (Z.testbit i _).
  - rewrite list_lookup_fmap. change shieldedMerkleDepth with 32%nat. by rewrite lookup_seq_lt by done.
Qed.

Lemma compute_up l i path n level : 0 <= i → (level + n <= 32)%nat →
  (∀ k, (k < 32)%nat → nth k path zeroHash = nodeL l k (Z.lxor (i / 2 ^ Z.of_nat k) 1)) →
  foldl (λ root level, let sibling := nth level path zeroHash in
           if nth level (pathBits i) 0 =? 1 then shieldedHashNode sibling root else shieldedHashNode root sibling)
    (nodeL l level (i / 2 ^ Z.of_nat level)) (seq level n) = nodeL l (level + n) (i / 2 ^ Z.of_nat (level + n)).
Proof.
  intros Hi Hn Hp. revert level Hn. induction n as [|n IH]; intros level Hn; cbn [seq foldl]; [by rewrite Nat.add_0_r|].
  assert (Hd : 0 <= i / 2 ^ Z.of_nat level) by (apply Z.div_pos; lia). cbv zeta. rewrite Hp, pathBits_nth by lia.
  replace (level + Datatypes.S n)%nat with (Datatypes.S level + n)%nat by lia. rewrite <- IH by lia. f_equal.
  rewrite Merkle.div_half, Merkle.node_up by done. by destruct (Z.even _).
Qed.

Lemma compute_root l i x path : l !! i = Some x → Z.of_nat (length l) <= 2 ^ 32 →
  (∀ k, (k < 32)%nat → nth k path zeroHash = nodeL l k (Z.lxor (Z.of_nat i / 2 ^ Z.of_nat k) 1)) →
  computeShieldedMerkleRoot x path (pathBits (Z.of_nat i)) = Merkle.root shieldedHashNode zeroHash 32 l.
Proof.
  intros Hx Hl Hp. apply lookup_lt_Some in Hx as Hi. pose proof (compute_up l (Z.of_nat i) path 32 0 ltac:(lia) ltac:(lia) Hp) as E.
  rewrite Z.div_1_r, (Merkle.node_leaf _ _ _ _ _ Hx), Z.div_small in E by (cbn [Nat.add]; lia).
  unfold computeShieldedMerkleRoot, Merkle.root. change shieldedMerkleDepth with 32%nat. exact E.
Qed.

Definition pathOf (ns : list note) (i : nat) : list hash := siblingAt ns i <$> seq 0 32.

Lemma pathOf_app ns new i : (i < length ns)%nat → pathOf (ns ++ new) i = pathOf ns i.
Proof. intros Hi. unfold pathOf. apply list_fmap_ext. intros _ k _. unfold siblingAt. by rewrite take_leaves_app by lia. Qed.

Lemma pathOf_nth ns i k : (k < 32)%nat → nth k (pathOf ns i) zeroHash = siblingAt ns i k.
Proof. intros Hk. apply nth_lookup_Some. unfold pathOf. rewrite list_lookup_fmap. by rewrite lookup_seq_lt by done. Qed.

Lemma path_root ns i n : ns !! i = Some n → Z.of_nat (length ns) <= 2 ^ 32 →
  computeShieldedMerkleRoot n.(n_commitment) (pathOf ns i) (pathBits (Z.of_nat i)) = rootAfter ns (Datatypes.S i).
Proof.
  intros Hi Hl. apply compute_root.
  - rewrite lookup_take_lt by lia. unfold leaves. by rewrite list_lookup_fmap, Hi.
  - rewrite length_take, length_notes. lia.
  - apply pathOf_nth.
Qed.

(** The stored path of a note. *)
Lemma commitment_path st ns i n : holdsL st ns → ns !! i = Some n →
  ShieldedCommitmentPath st n.(n_commitment)
  = Some {| mp_Commitment := n.(n_commitment); mp_Index := Z.of_nat i; mp_Root := rootAfter ns (Datatypes.S i); mp_Path := pathOf ns i; mp_PathIndex := pathBits (Z.of_nat i) |}.
Proof.
  intros H Hi. destruct (hl_at _ _ H i n Hi) as (_ & A2 & A3). pose proof (hl_size _ _ H) as Hs. apply lookup_lt_Some in Hi as Hlt.
  assert (Hu : uint64FromHash (Z.of_nat i + 1) = Z.of_nat i + 1) by (apply u64_small; unfold is_u64, two64; lia).
  unfold ShieldedCommitmentPath. rewrite get_index, A2, Hu, (proj2 (Z.eqb_neq _ _)) by lia. rewrite Z.add_simpl_r.
  assert (Hp : (λ level, getL st (ShieldedCommitmentPathSlot n.(n_commitment) level)) <$> seq 0 shieldedMerkleDepth = pathOf ns i).
  { apply list_fmap_ext. intros j k Hk. apply lookup_seq in Hk as [-> Hk]. rewrite get_path. apply A3. exact Hk. }
  rewrite Hp, path_root by done. reflexivity.
Qed.

Lemma no_path st ns c : holdsL st ns → K c → c ∉ leaves ns → ShieldedCommitmentPath st c = None.
Proof. intros H Hc Hn. unfold ShieldedCommitmentPath. by rewrite get_index, (proj2 (hl_new _ _ H c Hc Hn)). Qed.

(** The path a note will have. *)
Lemma next_path st ns n : holdsL st ns → Z.of_nat (length ns) < 2 ^ 32 →
  ShieldedNextMerklePath st n.(n_commitment)
  = {| mp_Commitment := n.(n_commitment); mp_Index := Z.of_nat (length ns); mp_Root := rootAfter (ns ++ [n]) (Datatypes.S (length ns));
       mp_Path := pathOf (ns ++ [n]) (length ns); mp_PathIndex := pathBits (Z.of_nat (length ns)) |}.
Proof.
  intros H Hlt. unfold ShieldedNextMerklePath. rewrite (next_index st ns H). set (path := (λ level, _) <$> _). assert (Hp : path = pathOf (ns ++ [n]) (length ns)).
  { apply list_fmap_ext. intros j k Hk. apply lookup_seq in Hk as [-> Hk]. change shieldedMerkleDepth with 32%nat in Hk. cbn [Nat.add] in *.
    unfold siblingAt. rewrite notes_snoc, take_ge by (rewrite length_app, length_notes; cbn [length]; lia).
    rewrite <- (length_notes ns), (sibling_last (leaves ns) n.(n_commitment) j (frontierAt st) Hk (hl_frontier _ _ H)).
    rewrite testbit_half, get_frontier, zeroes_nth by (done || lia). by destruct (Z.even _). }
  rewrite Hp, path_root; [reflexivity|by rewrite lookup_app_r, Nat.sub_diag by lia|]. rewrite length_app. cbn [length]. lia.
Qed.

(** ** All notes of a transaction *)

Definition notesOf (txHash : hash) (outputs : list ShieldedOutput) : list note :=
  (λ o, {| n_commitment := o.(lo_Commitment); n_payload := o.(lo_PayloadHash); n_tx := txHash |}) <$> outputs.

Lemma outputLoop_cons txHash o outputs st ns : holdsL st ns → let n := {| n_commitment := o.(lo_Commitment); n_payload := o.(lo_PayloadHash); n_tx := txHash |} in
  note_ok n →
  if decide ((n.(n_commitment) ∉ leaves ns) ∧ Z.of_nat (length ns) < 2 ^ 32) then
    ∃ st1, outputLoop txHash (o :: outputs) st = outputLoop txHash outputs st1 ∧ holdsL st1 (ns ++ [n]) ∧ quiet Q treeSlot st st1
  else ∃ st1, outputLoop txHash (o :: outputs) st = (Some ErrInvalidShieldedTx, st1).
Proof using HQ HU.
  intros H n Hn. cbn [outputLoop]. rewrite get_commitment. change o.(lo_Commitment) with n.(n_commitment). change o.(lo_PayloadHash) with n.(n_payload).
  change txHash with n.(n_tx) at 1 2. destruct (decide (n.(n_commitment) ∈ leaves ns)) as [Hin|Hout].
  - rewrite decide_False by (by intros [? _]). unfold leaves in Hin. apply list_elem_of_fmap in Hin as (n' & En & Hin). apply list_elem_of_lookup in Hin as [i Hi].
    destruct (hl_at _ _ H i n' Hi) as (A1 & _). pose proof (Forall_lookup_1 _ _ _ _ (hl_ok _ _ H) Hi) as (_ & Hp & _).
    rewrite En, A1. unfold zeroHash. rewrite (proj2 (Z.eqb_neq _ _) Hp). cbn [negb]. by exists st.
  - rewrite (proj1 (hl_new _ _ H _ (proj1 Hn) Hout)). unfold zeroHash. cbn [Z.eqb negb].
    destruct (decide (Z.of_nat (length ns) < 2 ^ 32)) as [Hlt|Hge].
    + rewrite decide_True by done. destruct (append_ok st ns n H Hlt Hn Hout) as (st1 & E & H1 & Hq). rewrite E. by exists st1.
    + rewrite decide_False by (by intros [_ ?]). unfold appendShieldedMerkleLeaf.
      assert (Hidx : ShieldedMerkleNextIndex (setL st (shieldedCommitmentSlot n.(n_commitment)) n.(n_payload)) = Z.of_nat (length ns)).
      { rewrite <- (next_index st ns H). unfold ShieldedMerkleNextIndex. rewrite !get_next, set_commitment. f_equal. pose proof (proj1 Hn) as Hc.
        apply (getP_setP_ne Q); [useL|useL|otherL]. }
      rewrite Hidx, (proj2 (Z.leb_le _ _)) by lia. eauto.
Qed.

(** The loop accepts new notes while there is room, and nothing else. *)
Lemma outputs_accepted txHash outputs st ns : holdsL st ns → Forall note_ok (notesOf txHash outputs) → Z.of_nat (length ns) <= 2 ^ 32 →
  let ns' := ns ++ notesOf txHash outputs in
  if decide (NoDup (leaves ns') ∧ Z.of_nat (length ns') <= 2 ^ 32)
  then ∃ st', outputLoop txHash outputs st = (None, st') ∧ holdsL st' ns' ∧ quiet Q treeSlot st st'
  else ∃ st', outputLoop txHash outputs st = (Some ErrInvalidShieldedTx, st').
Proof using HQ HU.
  revert st ns. induction outputs as [|o outputs IH]; intros st ns H Hok Hlen; cbn [notesOf fmap list_fmap] in *.
  { rewrite app_nil_r. rewrite decide_True by (split; [apply H|done]). exists st. split_and!; [done..|apply quiet_refl]. }
  apply Forall_cons in Hok as [Hn Hok]. set (n := {| n_commitment := _ |}) in *. pose proof (outputLoop_cons txHash o outputs st ns H Hn) as Hstep. fold n in Hstep.
  fold (notesOf txHash outputs) in *. assert (Hsplit : ns ++ n :: notesOf txHash outputs = (ns ++ [n]) ++ notesOf txHash outputs) by (by rewrite <- app_assoc).
  destruct (decide ((n.(n_commitment) ∉ leaves ns) ∧ _)) as [[Hnew Hlt]|Hno].
  - destruct Hstep as (st1 & E & H1 & Hq1). rewrite E, Hsplit. specialize (IH st1 (ns ++ [n]) H1 Hok ltac:(rewrite length_app; cbn [length]; lia)).
    destruct (decide _); [|done]. destruct IH as (st2 & E2 & H2 & Hq2). exists st2. split_and!; [done..|by eapply quiet_trans].
  - rewrite decide_False; [done|]. intros [Hnd Hl]. apply Hno. split.
    + unfold leaves in Hnd |- *. rewrite fmap_app in Hnd. apply NoDup_app in Hnd as (_ & Hd & _). intros Hin. apply (Hd _ Hin). cbn [fmap list_fmap]. apply list_elem_of_here.
    + rewrite length_app in Hl. cbn [length] in Hl. lia.
Qed.
End Tree.
End LegacyTree.
