(* ===== verification/LegacySpends.v ===== *)
(** * Spends of the first pool

    What a transaction accepted by [LegacyPool.processLegacy] does to the notes and the
    nullifiers, to the money of the pool and to the ledger; and what holds in every state
    the chain reaches. *)

From S2P Require Import Prelude Bytes RLPTypes State ChainConfig ValidatorRegistry ValidatorStore Merkle ShieldedTree NoteTree Stamps AddressVotes ShieldedEnvelopes Ledger ShieldedOnly ShieldedSpend Shielded6 PoolSlots PoolLedger SpendRefinement RingSpend LegacyPool LegacyTree.
Import RLPTypes ValidatorRegistry ValidatorStore ShieldedTree NoteTree Stamps AddressVotes ShieldedEnvelopes Ledger ShieldedOnly ShieldedSpend Shielded6 PoolSlots PoolLedger SpendRefinement RingSpend LegacyPool LegacyTree.

Module LegacySpends.

Section Spends.
Context {X : Externals} {N : Native} {C6 : Shield6Crypto} {F : FieldHash} {V : LegacyVerifier} {U : Uint256} {S : Type} {W : WorldState S}.
Context (Q : prefix → bytes → Prop) (K Tx : hash → Prop).
Context {HQ : PoolDistinct Q} {HU : LegacyUse Q K} {HL : LedgerUse Q Tx}.

(** ** Nullifiers *)

Definition nullifierSlots (p : prefix) (d : bytes) : Prop := p = nullifierL.
Definition nullifiersOf (spends : list ShieldedEnvelopes.ShieldedSpend) : list hash := ls_Nullifier <$> spends.

(** Exactly the nullifiers [spent] are recorded. *)
Definition spentAre (st : S) (spent : gset hash) : Prop := ∀ n, K n → ShieldedNullifierSpent st n = true ↔ n ∈ spent.

Lemma spent_P st n : ShieldedNullifierSpent st n = negb (getP st nullifierL (hash_bytes n) =? 0).
Proof. unfold ShieldedNullifierSpent, ShieldedNullifierTransaction. by rewrite get_nullifier. Qed.

Lemma use_nullifier n : K n → inUse Q nullifierL (hash_bytes n).
Proof using HU. intros Hn. apply (gu_hashes Q K); [|done]. apply (bool_decide_unpack _). vm_compute. exact I. Qed.

Lemma mark_nullifier st spent n h : spentAre st spent → K n → h ≠ 0 → let st' := setL st (shieldedNullifierSlot n) h in
  spentAre st' ({[n]} ∪ spent) ∧ quiet Q nullifierSlots st st'.
Proof using HQ HU.
  intros H Hn Hh st'. unfold st'. rewrite set_nullifier. split.
  - intros m Hm. rewrite spent_P, elem_of_union, elem_of_singleton. destruct (decide (m = n)) as [->|Hne].
    + rewrite getP_setP_eq, (proj2 (Z.eqb_neq _ _) Hh). cbn [negb]. split; [intros _; by left|done].
    + rewrite (getP_setP_ne Q); [|by apply use_nullifier..|].
      * rewrite <- spent_P, (H m Hm). split; [by right|by intros [?|?]].
      * intros [_ E]. apply (field_bytes_inj n m) in E; [congruence|by apply (gu_hash Q K)..].
  - apply quiet_set; [done|by apply use_nullifier|done].
Qed.

(** What the pool knows of a spend that is accepted. *)
Definition anchored (ns : list note) (s : ShieldedEnvelopes.ShieldedSpend) : Prop := pastRoot ns s.(ls_Anchor) ∧ s.(ls_Anchor) ≠ 0.

Lemma root_known st ns r : holdsL K st ns → K r → shieldedMerkleRootKnown st r = true → pastRoot ns r ∧ r ≠ 0.
Proof.
  intros H Hr E. unfold shieldedMerkleRootKnown in E. destruct (Z.eqb_spec r zeroHash) as [|Hz]; [done|]. apply negb_true_iff, Z.eqb_neq in E. rewrite get_root in E.
  split; [by apply (hl_root _ _ _ H r Hr)|exact Hz].
Qed.

Definition spend_hashes (s : ShieldedEnvelopes.ShieldedSpend) : Prop := K s.(ls_Nullifier) ∧ K s.(ls_Anchor).

(** The tree does not see other slots. *)
Lemma holds_kept st st' ns Wr : sameBut Q Wr st st' → (∀ p d, treeSlot p d → ¬ Wr p d) → holdsL K st ns → holdsL K st' ns.
Proof using HU.
  intros Hs Hn H. assert (Hk : ∀ p d, inUse Q p d → treeSlot p d → getP st' p d = getP st p d) by (intros p d Hu Ht; apply (sb_slots _ _ _ _ Hs); [done|by apply Hn]).
  assert (Hg : ∀ p h, p ∈ [commitmentL; indexL; rootL] → K h → getP st' p (hash_bytes h) = getP st p (hash_bytes h)).
  { intros p h Hp Hh. rewrite !elem_of_cons, elem_of_nil in Hp.
    destruct Hp as [->|[->|[->|[]]]]; (apply Hk; [apply (gu_hashes Q K); [|done]|unfold treeSlot]; apply (bool_decide_unpack _); vm_compute; exact I). }
  assert (Hl : ∀ p, p ∈ [commitmentL; indexL; rootL] ∨ p = nextL ∨ p = frontierL ∨ p = pathL → ∀ d, treeSlot p d).
  { intros p Hp d. unfold treeSlot. rewrite !elem_of_cons, elem_of_nil in *. tauto. }
  assert (Hm : commitmentL ∈ [commitmentL; indexL; rootL] ∧ indexL ∈ [commitmentL; indexL; rootL] ∧ rootL ∈ [commitmentL; indexL; rootL]).
  { rewrite !elem_of_cons. tauto. }
  destruct Hm as (M1 & M2 & M3). split; try apply H.
  - rewrite Hk by first [apply (gu_next Q K)|apply Hl; tauto]. apply H.
  - intros k Hk' He. unfold frontierAt. rewrite Hk by first [by apply (gu_frontier Q K)|apply Hl; tauto]. by apply H.
  - intros i n Hi. pose proof (Forall_lookup_1 _ _ _ _ (hl_ok _ _ _ H) Hi) as (Hc & _). destruct (hl_at _ _ _ H i n Hi) as (A1 & A2 & A3).
    rewrite !Hg by done. split; [exact A1|]. split; [exact A2|]. intros k Hk'. rewrite Hk by first [by apply (gu_path Q K)|apply Hl; tauto]. by apply A3.
  - intros c Hc Hc'. rewrite !Hg by done. exact (hl_new _ _ _ H c Hc Hc').
  - intros r Hr. rewrite Hg by done. exact (hl_root _ _ _ H r Hr).
Qed.

Lemma spent_kept st st' spent Wr : sameBut Q Wr st st' → (∀ d, ¬ Wr nullifierL d) → spentAre st spent → spentAre st' spent.
Proof using HU.
  intros Hs Hn H n Hk. rewrite spent_P, (sb_slots _ _ _ _ Hs), <- spent_P; [by apply H|by apply use_nullifier|apply Hn].
Qed.

Lemma tree_no_nullifier p d : treeSlot p d → ¬ nullifierSlots p d.
Proof.
  unfold treeSlot, nullifierSlots. intros Ht ->. revert Ht. apply (bool_decide_unpack _). vm_compute. exact I.
Qed.

(** The loop of a transfer: known anchors, accepted proofs, new nullifiers. *)
Lemma spends_accepted h verify i spends st ns spent seen st' seen' : holdsL K st ns → spentAre st spent → Forall spend_hashes spends → h ≠ 0 →
  spendLoop false h verify i spends st seen = (None, st', seen') →
  Forall (anchored ns) spends ∧ (∀ j s, spends !! j = Some s → verify (i + j)%nat s = true)
  ∧ NoDup (nullifiersOf spends) ∧ (∀ n, n ∈ nullifiersOf spends → n ∉ spent ∪ seen)
  ∧ holdsL K st' ns ∧ spentAre st' (list_to_set (nullifiersOf spends) ∪ spent) ∧ seen' = list_to_set (nullifiersOf spends) ∪ seen
  ∧ quiet Q nullifierSlots st st'.
Proof using HQ HU.
  intros H Hs Hok Hh. revert i st spent seen H Hs. induction spends as [|s spends IH]; intros i st spent seen H Hs E; cbn [spendLoop] in E.
  { injection E as <- <-. cbn [nullifiersOf fmap list_fmap list_to_set]. rewrite !(left_id_L ∅ (∪)). 
    split_and!; [constructor|done|apply NoDup_nil_2|intros n Hn; by apply elem_of_nil in Hn|done|done|done|apply quiet_refl]. }
  apply Forall_cons in Hok as [[Hn Ha] Hok]. destruct (shieldedMerkleRootKnown st _) eqn:Hr; cbn [negb] in E; [|done].
  destruct (bool_decide _) eqn:Hseen; [done|]. apply bool_decide_eq_false in Hseen. cbn [andb negb] in E.
  destruct (ShieldedNullifierSpent st _) eqn:Hsp; [done|]. destruct (verify i s) eqn:Hv; cbn [negb] in E; [|done].
  destruct (mark_nullifier st spent s.(ls_Nullifier) h Hs Hn Hh) as [Hs1 Q1]. set (st1 := setL _ _ _) in *.
  assert (H1 : holdsL K st1 ns) by (eapply holds_kept; [apply Q1|apply tree_no_nullifier|done]).
  destruct (IH Hok _ _ _ _ H1 Hs1 E) as (I1 & I2 & I3 & I4 & I5 & I6 & I7 & I8).
  assert (Hfresh : s.(ls_Nullifier) ∉ spent) by (intros Hin; apply (Hs _ Hn) in Hin; congruence).
  cbn [nullifiersOf fmap list_fmap list_to_set]. fold (nullifiersOf spends). split_and!.
  - apply Forall_cons. split; [exact (root_known st ns _ H Ha Hr)|done].
  - intros [|j] s' Hj; cbn in Hj; [injection Hj as <-; by rewrite Nat.add_0_r|]. specialize (I2 j s' Hj). by rewrite Nat.add_succ_r.
  - apply NoDup_cons. split; [|done]. intros Hin. apply (I4 _ Hin). apply elem_of_union_l, elem_of_union_l. by apply elem_of_singleton.
  - intros n Hin. apply elem_of_cons in Hin as [->|Hin]; [by rewrite elem_of_union; intros [?|?]|]. specialize (I4 n Hin).
    rewrite !elem_of_union in I4. rewrite elem_of_union. intros [?|?]; apply I4; [left|right]; by right.
  - done.
  - replace ({[s.(ls_Nullifier)]} ∪ list_to_set (nullifiersOf spends) ∪ spent) with (list_to_set (nullifiersOf spends) ∪ ({[s.(ls_Nullifier)]} ∪ spent)); [done|].
    by rewrite (assoc_L (∪)), (comm_L (∪) (list_to_set _)).
  - rewrite I7. by rewrite (assoc_L (∪)), (comm_L (∪) (list_to_set _)).
  - by eapply quiet_trans.
Qed.
(** ** Envelopes *)

Lemma output_shapes outputs seen : outputShapes outputs seen = Ok () → Forall (λ o, o.(lo_PayloadHash) ≠ 0) outputs.
Proof.
  revert seen. induction outputs as [|o outputs IH]; intros seen E; cbn [outputShapes] in E; [constructor|].
  apply bind_ok in E as ([] & Hc & E). apply fail_if_ok in Hc. destruct (bool_decide _); [done|]. apply Forall_cons. split; [|by eapply IH].
  repeat match goal with Hx : _ || _ = false |- _ => apply orb_false_iff in Hx as [? ?] end. unfold zeroHash in *. lia.
Qed.

Lemma release_range e : 0 <= shieldedWithdrawalValue e ∧ 0 <= shieldedGasSponsorValue e.
Proof.
  assert (H : ∀ n, 0 <= positive n) by (intros [n|]; cbn [positive]; [destruct (Z.leb_spec n 0); lia|done]). split; apply H.
Qed.

(** What a checked envelope guarantees to the state. *)
Lemma envelope_checked config number time tx r : validateShieldedTransactionEnvelope config number time tx = Ok r →
  DecodeShieldedTransaction tx.(sx_tx).(vt_Data) = Ok r
  ∧ match r with
    | None => True
    | Some e => Forall (λ o, o.(lo_PayloadHash) ≠ 0) e.(lt_Outputs) ∧ shieldedWithdrawalValue e + shieldedGasSponsorValue e < two64
        ∧ (if ChainConfig.IsAntartical config number time then migrationOnly config number time tx e = Ok () else True)
        ∧ publicMoves config time tx e = Ok ()
    end.
Proof.
  unfold validateShieldedTransactionEnvelope. destruct (DecodeShieldedTransaction _) as [[e|]|]; [|intros E|done].
  - intros E. apply bind_ok in E as ([] & _ & E). apply bind_ok in E as ([] & _ & E). apply bind_ok in E as ([] & Hv & E).
    apply bind_ok in E as ([] & Hm & E). apply bind_ok in E as ([] & _ & E). apply bind_ok in E as ([] & Ha & E). apply Ok_inj in E as <-.
    split; [done|]. split_and!; [| |by destruct (ChainConfig.IsAntartical _ _ _)|done].
    + unfold validateShieldedEnvelope in Hv. do 9 (apply bind_ok in Hv as ([] & _ & Hv)). by eapply output_shapes.
    + unfold publicMoves in Hm. do 5 (apply bind_ok in Hm as ([] & _ & Hm)). apply bind_ok in Hm as ([] & Hm & _). apply fail_if_ok in Hm. lia.
  - assert (r = None) as ->; [|done]. destruct (ChainConfig.IsPrivacyCommitments _ _ _); [|by apply Ok_inj in E].
    destruct (_ && _); [apply bind_ok in E as ([] & _ & E); by apply Ok_inj in E|]. destruct (_ && _); [by apply Ok_inj in E|done].
Qed.

Lemma outputs_four config number time tx e : validateShieldedTransactionEnvelope config number time tx = Ok (Some e) → length e.(lt_Outputs) = shieldedOutputSlots.
Proof.
  unfold validateShieldedTransactionEnvelope. destruct (DecodeShieldedTransaction _) as [[e'|]|]; [|intros E|done].
  - intros E. do 2 (apply bind_ok in E as ([] & _ & E)). apply bind_ok in E as ([] & Hv & E). do 3 (apply bind_ok in E as ([] & _ & E)). apply Ok_inj in E as [= ->].
    unfold validateShieldedEnvelope in Hv. do 3 (apply bind_ok in Hv as ([] & _ & Hv)). apply bind_ok in Hv as ([] & Hv & _). apply fail_if_ok in Hv. by apply negb_false_iff, Nat.eqb_eq in Hv.
  - destruct (ChainConfig.IsPrivacyCommitments _ _ _); [|done]. destruct (_ && _); [by apply bind_ok in E as ([] & _ & E)|]. by destruct (_ && _).
Qed.

(** ** The pool as a value *)

Record lpool := { lp_notes : list note; lp_spent : gset hash }.
Definition represents (st : S) (p : lpool) : Prop := holdsL K st p.(lp_notes) ∧ spentAre st p.(lp_spent).

(** One transaction: a deposit spends nothing. *)
Record transfer (p : lpool) (h : hash) (e : ShieldedTransaction) (deposit : bool) (p' : lpool) : Prop := {
  tr_anchors (Hd : deposit = false) : Forall (anchored p.(lp_notes)) e.(lt_Spends);
  tr_unspent (Hd : deposit = false) : NoDup (nullifiersOf e.(lt_Spends)) ∧ ∀ n, n ∈ nullifiersOf e.(lt_Spends) → n ∉ p.(lp_spent);
  tr_notes : p'.(lp_notes) = p.(lp_notes) ++ notesOf h e.(lt_Outputs);
  tr_distinct : NoDup (leaves p'.(lp_notes));
  tr_room : Z.of_nat (length p'.(lp_notes)) <= 2 ^ 32;
  tr_spent : p'.(lp_spent) = if deposit then p.(lp_spent) else list_to_set (nullifiersOf e.(lt_Spends)) ∪ p.(lp_spent);
}.

Lemma deposit_loop h verify i spends st seen st' seen' : spendLoop true h verify i spends st seen = (None, st', seen') →
  st' = st ∧ seen' = seen ∧ ∀ j s, spends !! j = Some s → verify (i + j)%nat s = true.
Proof.
  revert i. induction spends as [|s spends IH]; intros i E; cbn [spendLoop] in E; [by injection E as <- <-|].
  destruct (negb (i =? 0)%nat); [done|]. destruct (bool_decide _); [done|]. cbn [negb andb] in E. destruct (verify i s) eqn:Hv; cbn [negb] in E; [|done].
  apply IH in E as (-> & -> & Hr). split_and!; [done..|]. intros [|j] s' Hj; cbn in Hj; [injection Hj as <-; by rewrite Nat.add_0_r|].
  specialize (Hr j s' Hj). by rewrite Nat.add_succ_r.
Qed.

(** The hashes of an envelope are in use. *)
Definition envelope_hashes (e : ShieldedTransaction) : Prop := Forall spend_hashes e.(lt_Spends) ∧ Forall (λ o, K o.(lo_Commitment)) e.(lt_Outputs).

Lemma spend_stage deposit h verify spends st p seen st' seen' : represents st p → Forall spend_hashes spends → h ≠ 0 →
  spendLoop deposit h verify 0 spends st seen = (None, st', seen') →
  (deposit = false → Forall (anchored p.(lp_notes)) spends ∧ NoDup (nullifiersOf spends) ∧ ∀ n, n ∈ nullifiersOf spends → n ∉ p.(lp_spent))
  ∧ (∀ j s, spends !! j = Some s → verify j s = true)
  ∧ represents st' {| lp_notes := p.(lp_notes); lp_spent := if deposit then p.(lp_spent) else list_to_set (nullifiersOf spends) ∪ p.(lp_spent) |}
  ∧ quiet Q nullifierSlots st st'
  ∧ seen' = (if deposit then seen else list_to_set (nullifiersOf spends) ∪ seen) ∧ (deposit = false → ∀ n, n ∈ nullifiersOf spends → n ∉ seen).
Proof using HQ HU.
  intros [H Hs] Hok Hh E. destruct deposit.
  - apply deposit_loop in E as (-> & -> & Hv). split_and!; [done|exact Hv|by split|apply quiet_refl|done|done].
  - destruct (spends_accepted h verify 0 spends st _ _ seen st' seen' H Hs Hok Hh E) as (I1 & I2 & I3 & I4 & I5 & I6 & I7 & I8). split_and!; [|exact I2|by split|done|done|].
    + intros _. split_and!; [done..|]. intros n Hn Hin. apply (I4 n Hn). by apply elem_of_union_l.
    + intros _ n Hn Hin. apply (I4 n Hn). by apply elem_of_union_r.
Qed.

(** The ledger after the money released. *)
Definition ledgerL (config : ChainConfig.ChainConfig) (number time : Z) (st : S) (e : ShieldedTransaction) : result vError (option ConfidentialLedgerTotals) :=
  if ChainConfig.IsConfidentialLedger config number time
  then l ← ledgerTransition st AssetTKM 0 (shieldedWithdrawalValue e + shieldedGasSponsorValue e) 0; Ok (Some l) else Ok None.

Lemma checks_ok config number time st tx r : legacyChecks config number time st tx = Ok r →
  match r with
  | None => DecodeShieldedTransaction tx.(lx_tx).(sx_tx).(vt_Data) = Ok None
  | Some (e, ledger, intentHash, sender) =>
      validateShieldedTransactionEnvelope config number time tx.(lx_tx) = Ok (Some e) ∧ ledgerL config number time st e = Ok ledger
      ∧ shieldedWithdrawalValue e + shieldedGasSponsorValue e <= GetBalance st ShieldedPoolAddress
      ∧ ShieldedTransactionIntentHash tx e = Ok intentHash
      ∧ (if e.(lt_Version) =? ShieldedTxVersionV2 then Sender config number time tx.(lx_tx).(sx_tx) = Some sender else sender = zeroAddress)
  end.
Proof.
  unfold legacyChecks. intros E. apply bind_ok in E as ([e|] & He & E); [|apply Ok_inj in E as <-; by apply envelope_checked in He as [? _]].
  apply bind_ok in E as (ledger & Hl & E). apply bind_ok in E as ([] & Hb & E). apply fail_if_ok in Hb. apply bind_ok in E as (intent & Hi & E).
  apply bind_ok in E as (sender & Hs & E). apply Ok_inj in E as <-. pose proof (release_range e). pose proof (balance_range st ShieldedPoolAddress).
  split_and!; [done|done|lia|done|]. destruct (_ =? _); [|by apply Ok_inj in Hs]. destruct (Sender _ _ _ _); [|done]. by apply Ok_inj in Hs as ->.
Qed.

Lemma ledger_apart p d : ledgerWrites AssetTKM p d → (¬ treeSlot p d) ∧ ¬ nullifierSlots p d.
Proof.
  unfold ledgerWrites, treeSlot, nullifierSlots. intros Hp.
  assert (Hall : Forall (λ p, (p ∉ [commitmentL; nextL; frontierL; indexL; pathL; rootL]) ∧ p ≠ nullifierL) (preFor AssetTKM <$> ledgerRoles))
    by (apply (bool_decide_unpack _); vm_compute; exact I).
  rewrite Forall_forall in Hall. by apply Hall.
Qed.

Definition legacySlots (p : prefix) (d : bytes) : Prop := treeSlot p d ∨ nullifierSlots p d ∨ ledgerWrites AssetTKM p d.

(** Every payment of a transaction. *)
Definition released (e : ShieldedTransaction) (sender : address) (a : address) : Z :=
  let w := shieldedWithdrawalValue e in let g := shieldedGasSponsorValue e in
  only ShieldedPoolAddress (- (w + g)) a + only e.(lt_WithdrawalRecipient) w a + only sender g a.

Lemma release_stage st e sender : shieldedWithdrawalValue e + shieldedGasSponsorValue e < two64 →
  let st' := release (release st e.(lt_WithdrawalRecipient) (shieldedWithdrawalValue e)) sender (shieldedGasSponsorValue e) in
  moves (released e sender) st st' ∧ sameBut Q (touches []) st st'.
Proof.
  intros Hr st'. pose proof (release_range e) as [Hw Hg].
  destruct (release_ok Q [] st e.(lt_WithdrawalRecipient) (shieldedWithdrawalValue e)) as [M1 F1]; [unfold two64, two256 in *; lia|].
  destruct (release_ok Q [] (release st e.(lt_WithdrawalRecipient) (shieldedWithdrawalValue e)) sender (shieldedGasSponsorValue e)) as [M2 F2]; [unfold two64, two256 in *; lia|].
  split; [|by eapply sameBut_trans]. eapply moves_trans; [exact M1|exact M2|]. intros a. unfold released, only. repeat case_decide; lia.
Qed.

(** From the first write to the last. *)
Lemma writes_stage st1 p e h sender ledger st2 : represents st1 p → h ≠ 0 → Forall (λ o, K o.(lo_Commitment) ∧ o.(lo_PayloadHash) ≠ 0) e.(lt_Outputs) →
  shieldedWithdrawalValue e + shieldedGasSponsorValue e < two64 → (∀ l, ledger = Some l → in_range l ∧ l.(Initialized) = true) →
  outputLoop h e.(lt_Outputs) (release (release st1 e.(lt_WithdrawalRecipient) (shieldedWithdrawalValue e)) sender (shieldedGasSponsorValue e)) = (None, st2) →
  let st3 := match ledger with Some l => commitLedger st2 AssetTKM l | None => st2 end in
  let ns := p.(lp_notes) ++ notesOf h e.(lt_Outputs) in
  represents st3 {| lp_notes := ns; lp_spent := p.(lp_spent) |} ∧ NoDup (leaves ns) ∧ Z.of_nat (length ns) <= 2 ^ 32
  ∧ moves (released e sender) st1 st3 ∧ ConfidentialLedgerState st3 AssetTKM = ledgerAfter st1 AssetTKM ledger ∧ sameBut Q legacySlots st1 st3.
Proof using HQ HU HL.
  intros [H Hs] Hh Hok Hr Hl E st3 ns. destruct (release_stage st1 e sender Hr) as [M F0]. set (st0 := release (release _ _ _) _ _) in *.
  assert (H0 : holdsL K st0 p.(lp_notes)) by (eapply holds_kept; [exact F0| |done]; intros q d _ Hin; by apply elem_of_nil in Hin).
  assert (Hnotes : Forall (note_ok K) (notesOf h e.(lt_Outputs))) by (apply Forall_fmap; eapply Forall_impl; [exact Hok|]; by intros o []).
  pose proof (outputs_accepted Q K h e.(lt_Outputs) st0 _ H0 Hnotes (hl_size _ _ _ H)) as Ho. cbv zeta in Ho. fold ns in Ho.
  destruct (decide _) as [[Hnd Hlen]|]; [|destruct Ho as (st' & E'); congruence]. destruct Ho as (st' & E' & H2 & Q2).
  rewrite E' in E. injection E as ->. destruct (committed6 Q Tx st2 ledger Hl) as [Q3 L3]. fold st3 in Q3, L3.
  assert (Hn : ∀ (R : prefix → bytes → Prop) q d, R q d → ¬ touches [] q d) by (intros ??? _ Hin; by apply elem_of_nil in Hin).
  split_and!; [split| | | | |]; try done.
  - eapply holds_kept; [apply Q3| |done]. intros q d Ht Hlw. exact (proj1 (ledger_apart q d Hlw) Ht).
  - eapply spent_kept; [apply Q3|intros d Hlw; exact (proj2 (ledger_apart _ d Hlw) eq_refl)|]. eapply spent_kept; [apply Q2|intros d Ht; exact (tree_no_nullifier _ d Ht eq_refl)|].
    eapply spent_kept; [exact F0|intros d Hin; by apply elem_of_nil in Hin|done].
  - intros a. rewrite (proj2 Q3), (proj2 Q2). apply M.
  - rewrite L3. destruct ledger; [done|]. cbn [ledgerAfter]. rewrite (ledger_untouched Q Tx st0 st2 treeSlot), (ledger_untouched Q Tx st1 st0 (touches []));
      [done|done|by apply Hn|apply Q2|intros q d Hlw; exact (proj1 (ledger_apart q d Hlw))].
  - eapply sameBut_trans; [eapply sameBut_weaken; [|exact F0]; intros q d Hin; by apply elem_of_nil in Hin|].
    eapply sameBut_trans; [eapply sameBut_weaken; [|apply Q2]; by left|]. eapply sameBut_weaken; [|apply Q3]. by right; right.
Qed.

Lemma process_represents config number time st p tx seen st' seen' :
  represents st p → ledger_words st → tx.(lx_tx).(sx_tx).(vt_Hash) ≠ 0 →
  (∀ e, DecodeShieldedTransaction tx.(lx_tx).(sx_tx).(vt_Data) = Ok (Some e) → envelope_hashes e) →
  processLegacy config number time st tx seen = (None, st', seen') →
  let value := tx.(lx_tx).(sx_tx).(vt_Value) in
  (DecodeShieldedTransaction tx.(lx_tx).(sx_tx).(vt_Data) = Ok None ∧ st' = st ∧ seen' = seen)
  ∨ ∃ e p' intentHash sender ledger, DecodeShieldedTransaction tx.(lx_tx).(sx_tx).(vt_Data) = Ok (Some e)
    ∧ transfer p tx.(lx_tx).(sx_tx).(vt_Hash) e (isShieldedDeposit e value) p' ∧ represents st' p'
    ∧ ShieldedTransactionIntentHash tx e = Ok intentHash
    ∧ (if e.(lt_Version) =? ShieldedTxVersionV2 then Sender config number time tx.(lx_tx).(sx_tx) = Some sender else sender = zeroAddress)
    ∧ (∀ i s, e.(lt_Spends) !! i = Some s → ∃ height, (height = number ∨ height = 0) ∧
         activeShieldedProofVerifier config time e.(lt_Version) (proofContext config height value e intentHash sender i s) s.(ls_Proof) = true)
    ∧ shieldedWithdrawalValue e + shieldedGasSponsorValue e <= GetBalance st ShieldedPoolAddress
    ∧ moves (released e sender) st st'
    ∧ ledgerL config number time st e = Ok ledger ∧ ConfidentialLedgerState st' AssetTKM = ledgerAfter st AssetTKM ledger
    ∧ sameBut Q legacySlots st st'
    ∧ seen' = (if isShieldedDeposit e value then seen else list_to_set (nullifiersOf e.(lt_Spends)) ∪ seen)
    ∧ (isShieldedDeposit e value = false → ∀ n, n ∈ nullifiersOf e.(lt_Spends) → n ∉ seen).
Proof using HQ HU HL.
  intros Hp Hw Hh Hk E value. unfold processLegacy in E. destruct (legacyChecks _ _ _ _ _) as [[[[[e ledger] intent] sender]|]|] eqn:Hc; [| |done].
  2: { injection E as -> ->. left. split; [by apply checks_ok in Hc|done]. }
  right. apply checks_ok in Hc as (Hv & Hl & Hb & Hi & Hsd). apply envelope_checked in Hv as (Hd & Hpay & Hr & _ & _). destruct (Hk e Hd) as [Hks Hko].
  fold value in E. destruct (spendLoop _ _ _ _ _ _ _) as [[[|] st1] seen1] eqn:Es; [done|].
  destruct (spend_stage _ _ _ _ _ p _ _ _ Hp Hks Hh Es) as (Hsp & Hver & Hp1 & Q1 & Hse & Hsn).
  destruct (outputLoop _ _ _) as [[|] st2] eqn:Eo; [done|]. injection E as <- <-.
  assert (Hrange : ∀ l, ledger = Some l → in_range l ∧ l.(Initialized) = true).
  { intros l ->. unfold ledgerL in Hl. destruct (ChainConfig.IsConfidentialLedger _ _ _); [|done]. apply bind_ok in Hl as (l' & Hl & E). apply Ok_inj in E as [= ->].
    eapply transition_range; [by left|rewrite supply_P; apply Hw|apply Hw|exact Hl]. }
  destruct (writes_stage st1 _ e _ sender ledger st2 Hp1 Hh) as (R1 & R2 & R3 & R4 & R5 & R6); [by apply Forall_and|done|done|exact Eo|].
  set (st3 := match ledger with Some l => _ | None => _ end) in *. cbn [lp_notes lp_spent] in *.
  eexists e, _, intent, sender, ledger. split_and!; [done| |exact R1|done|exact Hsd| |done| |done| | |exact Hse|exact Hsn].
  - split; cbn [lp_notes lp_spent]; try done; intros Hdep; by destruct (Hsp Hdep) as (? & ? & ?).
  - intros i s His. specialize (Hver i s His). unfold verifyShieldedSpend in Hver. apply orb_true_iff in Hver as [Hver|Hver]; [exists number; split; [by left|done]|].
    apply andb_true_iff in Hver as [_ Hver]. exists 0. split; [by right|done].
  - intros a. rewrite R4, (proj2 Q1). done.
  - rewrite R5. destruct ledger; [done|]. cbn [ledgerAfter]. apply (ledger_untouched Q Tx st st1 nullifierSlots); [apply Q1|]. intros q d Hlw. exact (proj2 (ledger_apart q d Hlw)).
  - eapply sameBut_trans; [eapply sameBut_weaken; [|apply Q1]; by right; left|done].
Qed.

(** C12: An accepted transaction of the first pool is a transfer of the pool as a value: unless
    it is a deposit, its anchors are roots the tree had after some note, its nullifiers are
    distinct, were never recorded in a state nor seen in the block, and from then on are; its outputs are new
    notes at the end of the list, which fits the tree; for each spend the
    active verifier accepted the proof for the intent of the transaction, at the height of the
    block or at height zero; the pool, which holds the sum, pays the withdrawal to its
    recipient and the gas sponsorship to the signer of a version-2 envelope; the native ledger makes its transition where it is active; and
    nothing else changes.  Without an envelope nothing changes at all. *)
Theorem legacy_pool_refines config number time st p tx seen st' seen' :
  represents st p → ledger_words st → tx.(lx_tx).(sx_tx).(vt_Hash) ≠ 0 →
  (∀ e, DecodeShieldedTransaction tx.(lx_tx).(sx_tx).(vt_Data) = Ok (Some e) → envelope_hashes e) →
  processLegacy config number time st tx seen = (None, st', seen') →
  let value := tx.(lx_tx).(sx_tx).(vt_Value) in
  (DecodeShieldedTransaction tx.(lx_tx).(sx_tx).(vt_Data) = Ok None ∧ st' = st ∧ seen' = seen)
  ∨ ∃ e p' intentHash sender ledger, DecodeShieldedTransaction tx.(lx_tx).(sx_tx).(vt_Data) = Ok (Some e)
    ∧ transfer p tx.(lx_tx).(sx_tx).(vt_Hash) e (isShieldedDeposit e value) p' ∧ represents st' p'
    ∧ ShieldedTransactionIntentHash tx e = Ok intentHash
    ∧ (if e.(lt_Version) =? ShieldedTxVersionV2 then Sender config number time tx.(lx_tx).(sx_tx) = Some sender else sender = zeroAddress)
    ∧ (∀ i s, e.(lt_Spends) !! i = Some s → ∃ height, (height = number ∨ height = 0) ∧
         activeShieldedProofVerifier config time e.(lt_Version) (proofContext config height value e intentHash sender i s) s.(ls_Proof) = true)
    ∧ shieldedWithdrawalValue e + shieldedGasSponsorValue e <= GetBalance st ShieldedPoolAddress
    ∧ moves (released e sender) st st'
    ∧ ledgerL config number time st e = Ok ledger ∧ ConfidentialLedgerState st' AssetTKM = ledgerAfter st AssetTKM ledger
    ∧ sameBut Q legacySlots st st'
    ∧ seen' = (if isShieldedDeposit e value then seen else list_to_set (nullifiersOf e.(lt_Spends)) ∪ seen)
    ∧ (isShieldedDeposit e value = false → ∀ n, n ∈ nullifiersOf e.(lt_Spends) → n ∉ seen).
Proof using HQ HU HL. apply process_represents. Qed.

(** ** Reachable states *)

Definition poolSlot (p : prefix) (d : bytes) : Prop := treeSlot p d ∨ nullifierSlots p d.
Definition emptyL (st : S) : Prop := ∀ p d, inUse Q p d → poolSlot p d → getP st p d = 0.

(** From an empty pool, by accepted transactions and by steps that leave its slots alone. *)
Inductive reached : S → Prop :=
  | reached_empty st : emptyL st → reached st
  | reached_tx st config number time tx seen st' seen' :
      reached st → ledger_words st → tx.(lx_tx).(sx_tx).(vt_Hash) ≠ 0 →
      (∀ e, DecodeShieldedTransaction tx.(lx_tx).(sx_tx).(vt_Data) = Ok (Some e) → envelope_hashes e) →
      processLegacy config number time st tx seen = (None, st', seen') → reached st'
  | reached_other st st' Wr : reached st → sameBut Q Wr st st' → (∀ p d, poolSlot p d → ¬ Wr p d) → reached st'.

Lemma empty_represents st : emptyL st → represents st {| lp_notes := []; lp_spent := ∅ |}.
Proof using HU.
  intros H. assert (Hz : ∀ p h, p ∈ [commitmentL; nullifierL; indexL; rootL] → K h → getP st p (hash_bytes h) = 0).
  { intros p h Hp Hh. apply H; [by apply (gu_hashes Q K)|]. unfold poolSlot, treeSlot, nullifierSlots. rewrite !elem_of_cons, elem_of_nil in *. tauto. }
  assert (Hm : ∀ p, p ∈ [commitmentL; nullifierL; indexL; rootL] ↔ p = commitmentL ∨ p = nullifierL ∨ p = indexL ∨ p = rootL)
    by (intros p; rewrite !elem_of_cons, elem_of_nil; tauto).
  split; cbn [lp_notes lp_spent].
  - split.
    + done.
    + constructor.
    + apply NoDup_nil_2.
    + apply H; [apply (gu_next Q K)|]. left. unfold treeSlot. rewrite !elem_of_cons. tauto.
    + apply Merkle.frontier_nil.
    + done.
    + intros c Hc _. rewrite !Hz by (done || apply Hm; tauto). done.
    + intros r Hr. rewrite Hz by (done || apply Hm; tauto). split; [done|]. intros (m & Hm' & _). cbn [length] in Hm'. lia.
  - intros n Hn. rewrite spent_P, Hz by (done || apply Hm; tauto). done.
Qed.

Lemma represents_kept st st' p Wr : sameBut Q Wr st st' → (∀ q d, poolSlot q d → ¬ Wr q d) → represents st p → represents st' p.
Proof using HU.
  intros Hs Hn [H1 H2]. split; [eapply holds_kept; [exact Hs|intros q d Ht; apply Hn; by left|done]|].
  eapply spent_kept; [exact Hs|intros d; apply Hn; by right|done].
Qed.

(** A step of the state as one of the value: notes and nullifiers only grow. *)
Lemma represents_step config number time st p tx seen st' seen' :
  represents st p → ledger_words st → tx.(lx_tx).(sx_tx).(vt_Hash) ≠ 0 →
  (∀ e, DecodeShieldedTransaction tx.(lx_tx).(sx_tx).(vt_Data) = Ok (Some e) → envelope_hashes e) →
  processLegacy config number time st tx seen = (None, st', seen') →
  ∃ new p', represents st' p' ∧ p'.(lp_notes) = p.(lp_notes) ++ new ∧ p.(lp_spent) ⊆ p'.(lp_spent)
    ∧ ∀ e, DecodeShieldedTransaction tx.(lx_tx).(sx_tx).(vt_Data) = Ok (Some e) → new = notesOf tx.(lx_tx).(sx_tx).(vt_Hash) e.(lt_Outputs).
Proof using HQ HU HL.
  intros Hp Hw Hh Hk E. destruct (process_represents config number time st p tx seen st' seen' Hp Hw Hh Hk E) as [(Ed & -> & _)|(e & p' & _ & _ & _ & Ed & [_ _ T1 _ _ T2] & Hp' & _)].
  - exists [], p. rewrite app_nil_r. split_and!; [done..|]. intros e Ee. congruence.
  - exists (notesOf tx.(lx_tx).(sx_tx).(vt_Hash) e.(lt_Outputs)), p'. split_and!; [done..| |intros e' Ee; congruence].
    rewrite T2. destruct (isShieldedDeposit _ _); [done|]. apply union_subseteq_r.
Qed.

Lemma reached_represents st : reached st → ∃ p, represents st p.
Proof using HQ HU HL.
  induction 1 as [st H|st config number time tx seen st' seen' _ [p Hp] Hw Hh Hk E|st st' Wr _ [p Hp] Hs Hn].
  - eexists. by apply empty_represents.
  - destruct (represents_step _ _ _ _ _ _ _ _ _ Hp Hw Hh Hk E) as (new & p' & Hp' & _). by exists p'.
  - exists p. by eapply represents_kept.
Qed.

Lemma path_note st ns c path : holdsL K st ns → K c → ShieldedCommitmentPath st c = Some path →
  ∃ i n, ns !! i = Some n ∧ c = n.(n_commitment)
    ∧ path = {| mp_Commitment := c; mp_Index := Z.of_nat i; mp_Root := rootAfter ns (Datatypes.S i); mp_Path := pathOf ns i; mp_PathIndex := pathBits (Z.of_nat i) |}.
Proof.
  intros H Hc E. destruct (decide (c ∈ leaves ns)) as [Hin|Hout]; [|by rewrite (no_path K st ns c H Hc Hout) in E].
  unfold leaves in Hin. apply list_elem_of_fmap in Hin as (n & -> & Hin). apply list_elem_of_lookup in Hin as [i Hi]. exists i, n.
  rewrite (commitment_path K st ns i n H Hi) in E. by injection E as <-.
Qed.

Lemma past_known st ns r : holdsL K st ns → K r → r ≠ 0 → pastRoot ns r → shieldedMerkleRootKnown st r = true.
Proof.
  intros H Hr Hz Hp. unfold shieldedMerkleRootKnown, zeroHash. rewrite (proj2 (Z.eqb_neq _ _) Hz), get_root. apply negb_true_iff, Z.eqb_neq.
  by apply (hl_root _ _ _ H r Hr).
Qed.

(** A commitment is recorded exactly when it has a path. *)
Lemma recorded_path st ns c : holdsL K st ns → K c → getL st (shieldedCommitmentSlot c) ≠ zeroHash ↔ is_Some (ShieldedCommitmentPath st c).
Proof.
  intros H Hc. rewrite get_commitment. destruct (decide (c ∈ leaves ns)) as [Hin|Hout].
  - unfold leaves in Hin. apply list_elem_of_fmap in Hin as (n & -> & Hin). apply list_elem_of_lookup in Hin as [i Hi]. rewrite (commitment_path K st ns i n H Hi).
    destruct (hl_at _ _ _ H i n Hi) as (-> & _). destruct (Forall_lookup_1 _ _ _ _ (hl_ok _ _ _ H) Hi) as (_ & Hp & _). by split.
  - rewrite (no_path K st ns c H Hc Hout), (proj1 (hl_new _ _ _ H c Hc Hout)). split; [done|by intros []].
Qed.

(** The path of the [j]-th of several new notes is the one predicted once those before it are there. *)
Lemma outputs_predicted h outputs st st' ns : holdsL K st ns → holdsL K st' (ns ++ notesOf h outputs) → ∀ j o, outputs !! j = Some o →
  ∃ stj, outputLoop h (take j outputs) st = (None, stj) ∧ ShieldedCommitmentPath st' o.(lo_Commitment) = Some (ShieldedNextMerklePath stj o.(lo_Commitment)).
Proof using HQ HU.
  intros H H' j o Hj. set (n := {| n_commitment := o.(lo_Commitment); n_payload := o.(lo_PayloadHash); n_tx := h |}).
  assert (Hsplit : notesOf h outputs = notesOf h (take j outputs) ++ n :: notesOf h (drop (Datatypes.S j) outputs))
    by (unfold notesOf; rewrite <- (take_drop_middle outputs j o Hj) at 1; by rewrite fmap_app).
  rewrite Hsplit in H'. apply lookup_lt_Some in Hj as Hlt. set (before := notesOf h (take j outputs)) in *.
  pose proof (hl_ok _ _ _ H') as Hok. pose proof (hl_nodup _ _ _ H') as Hnd. pose proof (hl_size _ _ _ H') as Hsize.
  rewrite !Forall_app in Hok. unfold leaves in Hnd. rewrite app_assoc, fmap_app in Hnd. rewrite app_assoc, length_app in Hsize. cbn [length] in Hsize.
  pose proof (outputs_accepted Q K h (take j outputs) st ns H (proj1 (proj2 Hok)) (hl_size _ _ _ H)) as Ho. cbv zeta in Ho. fold before in Ho.
  rewrite decide_True in Ho by (split; [by apply NoDup_app in Hnd as (? & _)|lia]). destruct Ho as (stj & E & Hh & _). exists stj. split; [exact E|].
  change o.(lo_Commitment) with n.(n_commitment). rewrite (next_path K stj _ n Hh ltac:(lia)).
  rewrite app_assoc, cons_middle, (app_assoc _ [n]) in H'. rewrite (commitment_path K st' _ (length (ns ++ before)) n H').
  - rewrite rootAfter_app, pathOf_app by (rewrite !length_app; cbn [length]; lia). done.
  - rewrite <- app_assoc, lookup_app_r, Nat.sub_diag by lia. done.
Qed.

Lemma processed_four config number time st tx seen st' seen' e : processLegacy config number time st tx seen = (None, st', seen') →
  DecodeShieldedTransaction tx.(lx_tx).(sx_tx).(vt_Data) = Ok (Some e) → length e.(lt_Outputs) = shieldedOutputSlots.
Proof.
  intros E Hd. unfold processLegacy in E. destruct (legacyChecks _ _ _ _ _) as [[[[[e' ledger] intent] sender]|]|] eqn:Hc; [| |done]; apply checks_ok in Hc; [|congruence].
  destruct Hc as (Hv & _). pose proof (outputs_four _ _ _ _ _ Hv) as Ho. apply envelope_checked in Hv as (Hd' & _). congruence.
Qed.

(** C13: In every state the chain reaches, every note of the first pool can be spent.  Each index
    below the next one belongs to a note with a stored path, a commitment is
    recorded exactly when it has one, no two notes have one index, and the path leads
    from the commitment to a root that is accepted as an anchor (unless it is the zero
    hash).  An accepted transaction with an envelope adds its four outputs at the
    next four indices, each with the path that was predicted once the outputs before
    it were in the tree.  No later transaction takes this away: the path of a
    note stays the same, its root stays known and spent nullifiers stay spent. *)
Theorem legacy_notes_spendable st : reached st →
  ShieldedMerkleNextIndex st <= 2 ^ 32
  ∧ (∀ i, 0 <= i < ShieldedMerkleNextIndex st → ∃ c path, K c ∧ ShieldedCommitmentPath st c = Some path ∧ path.(mp_Index) = i)
  ∧ (∀ c, K c → getL st (shieldedCommitmentSlot c) ≠ zeroHash ↔ is_Some (ShieldedCommitmentPath st c))
  ∧ (∀ c path, K c → ShieldedCommitmentPath st c = Some path →
       path.(mp_Commitment) = c ∧ 0 <= path.(mp_Index) < ShieldedMerkleNextIndex st
       ∧ path.(mp_Root) = computeShieldedMerkleRoot c path.(mp_Path) path.(mp_PathIndex)
       ∧ (path.(mp_Root) ≠ 0 → shieldedMerkleRootKnown st path.(mp_Root) = true)
       ∧ ∀ c' path', K c' → ShieldedCommitmentPath st c' = Some path' → path'.(mp_Index) = path.(mp_Index) → c' = c)
  ∧ (∀ config number time tx seen st' seen',
       ledger_words st → tx.(lx_tx).(sx_tx).(vt_Hash) ≠ 0 →
       (∀ e, DecodeShieldedTransaction tx.(lx_tx).(sx_tx).(vt_Data) = Ok (Some e) → envelope_hashes e) →
       processLegacy config number time st tx seen = (None, st', seen') →
       (∀ e, DecodeShieldedTransaction tx.(lx_tx).(sx_tx).(vt_Data) = Ok (Some e) →
          length e.(lt_Outputs) = shieldedOutputSlots
          ∧ ShieldedMerkleNextIndex st' = ShieldedMerkleNextIndex st + Z.of_nat (length e.(lt_Outputs))
          ∧ ∀ j o, e.(lt_Outputs) !! j = Some o →
              (∃ path, ShieldedCommitmentPath st' o.(lo_Commitment) = Some path ∧ path.(mp_Index) = ShieldedMerkleNextIndex st + Z.of_nat j)
              ∧ ∃ stj, outputLoop tx.(lx_tx).(sx_tx).(vt_Hash) (take j e.(lt_Outputs)) st = (None, stj)
                  ∧ ShieldedCommitmentPath st' o.(lo_Commitment) = Some (ShieldedNextMerklePath stj o.(lo_Commitment)))
       ∧ (∀ c path, K c → ShieldedCommitmentPath st c = Some path → ShieldedCommitmentPath st' c = Some path)
       ∧ (∀ r, K r → shieldedMerkleRootKnown st r = true → shieldedMerkleRootKnown st' r = true)
       ∧ (∀ n, K n → ShieldedNullifierSpent st n = true → ShieldedNullifierSpent st' n = true)).
Proof using HQ HU HL.
  intros Hre. apply reached_represents in Hre as [p Hp]. pose proof Hp as [H Hs]. rewrite (next_index K st _ H). pose proof (hl_size _ _ _ H) as Hsize.
  split_and!; [done| |intros c; exact (recorded_path st _ c H)| |].
  - intros i Hi. destruct (lookup_lt_is_Some_2 p.(lp_notes) (Z.to_nat i)) as [n Hn]; [lia|]. exists n.(n_commitment). eexists.
    split; [by apply (Forall_lookup_1 _ _ _ _ (hl_ok _ _ _ H) Hn)|]. split; [exact (commitment_path K st _ _ n H Hn)|]. cbn [mp_Index]. lia.
  - intros c path Hc E. destruct (path_note st _ c path H Hc E) as (i & n & Hi & -> & ->). apply lookup_lt_Some in Hi as Hlt.
    cbn [mp_Commitment mp_Index mp_Root mp_Path mp_PathIndex]. split_and!; [done|lia|lia| | |].
    + symmetry. by apply path_root.
    + intros Hz. apply (past_known st _ _ H); [apply (rootAfter_K Q K)|done|]. exists (Datatypes.S i). split; [lia|done].
    + intros c' path' Hc' E'. destruct (path_note st _ c' path' H Hc' E') as (i' & n' & Hi' & -> & ->). cbn [mp_Index]. intros Heq. apply Nat2Z.inj in Heq as ->. congruence.
  - intros config number time tx seen st' seen' Hw Hh Hk E. destruct (represents_step _ _ _ _ _ _ _ _ _ Hp Hw Hh Hk E) as (new & p' & [H' Hs'] & Hn & Hsub & Hnew).
    split_and!.
    + intros e Ed. rewrite (next_index K st' _ H'), Hn, (Hnew e Ed), length_app. unfold notesOf at 1. rewrite length_fmap. split; [by eapply processed_four|]. split; [lia|].
      intros j o Hj. rewrite Hn, (Hnew e Ed) in H'. split; [|by eapply outputs_predicted].
      change o.(lo_Commitment) with (n_commitment {| n_commitment := o.(lo_Commitment); n_payload := o.(lo_PayloadHash); n_tx := tx.(lx_tx).(sx_tx).(vt_Hash) |}).
      eexists. split; [apply (commitment_path K st' _ (length p.(lp_notes) + j)%nat _ H')|cbn [mp_Index]; lia].
      rewrite lookup_app_r by lia. replace (_ + j - _)%nat with j by lia. unfold notesOf. by rewrite list_lookup_fmap, Hj.
    + intros c path Hc Ep. destruct (path_note st _ c path H Hc Ep) as (i & n & Hi & -> & ->). apply lookup_lt_Some in Hi as Hlt.
      rewrite (commitment_path K st' _ i n H'); [|rewrite Hn; by apply lookup_app_l_Some]. rewrite Hn. by rewrite rootAfter_app, pathOf_app by lia.
    + intros r Hr Ek. apply (root_known st _ r H Hr) in Ek as [(m & Hm & ->) Hz]. apply (past_known st' _ _ H' Hr Hz). exists m. rewrite Hn, length_app. split; [lia|]. symmetry. apply rootAfter_app. lia.
    + intros n Hn' Es. apply (Hs' n Hn'), Hsub. by apply Hs.
Qed.

(** ** Admission *)

Lemma unknown_fresh st ns c : holdsL K st ns → K c → c ∉ leaves ns → (getL st (shieldedCommitmentSlot c) =? zeroHash) = true.
Proof. intros H Hc Hn. rewrite get_commitment, (proj1 (hl_new _ _ _ H c Hc Hn)). done. Qed.

(** What the chain accepts, the transaction pool admits. *)
Lemma accepted_admitted config number time st p tx seen st' seen' :
  represents st p → ledger_words st → tx.(lx_tx).(sx_tx).(vt_Hash) ≠ 0 →
  (∀ e, DecodeShieldedTransaction tx.(lx_tx).(sx_tx).(vt_Data) = Ok (Some e) → envelope_hashes e) →
  processLegacy config number time st tx seen = (None, st', seen') → legacyState st tx.(lx_tx) = Ok ().
Proof using HQ HU HL.
  intros Hp Hw Hh Hk E. unfold legacyState.
  destruct (process_represents config number time st p tx seen st' seen' Hp Hw Hh Hk E) as [(Ed & _)|(e & p' & _ & _ & _ & Ed & [T1 T2 T3 T4 _ _] & _)];
    rewrite Ed; [done|]. destruct Hp as [H Hs]. destruct (Hk e Ed) as [Hks Hko].
  assert (Ho : existsb (λ o, negb (getL st (shieldedCommitmentSlot o.(lo_Commitment)) =? zeroHash)) e.(lt_Outputs) = false).
  { apply not_true_iff_false. intros (o & Hin & Hb)%existsb_exists. apply list_elem_of_In in Hin. rewrite T3 in T4. unfold leaves in T4. rewrite fmap_app in T4.
    apply NoDup_app in T4 as (_ & Hd & _). rewrite (unknown_fresh st _ _ H) in Hb; [done|rewrite Forall_forall in Hko; by apply Hko|].
    intros Hl. apply (Hd _ Hl). unfold notesOf. rewrite <- list_fmap_compose. apply list_elem_of_fmap. by exists o. }
  rewrite Ho. destruct (isShieldedDeposit e _) eqn:Hdep; cbn [negb]; [done|]. specialize (T1 eq_refl). destruct (T2 eq_refl) as [_ T2'].
  assert (Hsp : existsb (λ s, negb (shieldedMerkleRootKnown st s.(ls_Anchor)) || ShieldedNullifierSpent st s.(ls_Nullifier)) e.(lt_Spends) = false).
  { apply not_true_iff_false. intros (s & Hin & Hb)%existsb_exists. apply list_elem_of_In in Hin. rewrite Forall_forall in Hks, T1. destruct (Hks s Hin) as [Hn Ha].
    apply orb_true_iff in Hb as [Hb|Hb].
    - apply negb_true_iff in Hb. destruct (T1 s Hin) as [Hpast Hz]. rewrite (past_known st _ _ H Ha Hz Hpast) in Hb. done.
    - apply (Hs _ Hn) in Hb. apply (T2' s.(ls_Nullifier)); [by apply list_elem_of_fmap_2|done]. }
  by rewrite Hsp.
Qed.

(** Before the privacy and the Antartical forks the dispatch accepts transactions without effect only. *)
Lemma dispatch_before_forks config number time st tx seen st' seen' :
  ChainConfig.IsPrivacyCommitments config number time = false → ChainConfig.IsAntartical config number time = false →
  ProcessShieldedTransaction config number time st tx seen = (None, st', seen') → st' = st ∧ seen' = seen.
Proof.
  intros Hp Ha E. unfold ProcessShieldedTransaction, ChainConfig.IsShield6, ChainConfig.IsShield5 in E. rewrite Hp, Ha in E. cbn [andb negb orb] in E.
  rewrite !andb_false_r, !andb_true_r in E. do 2 (destruct (_ : bool) in E; [done|]). destruct (ValidateShieldedOnlyTransaction _ _ _ _); [|done].
  destruct (if _ && _ then _ else _); [|done]. destruct (HasShieldedV4Prefix _); [done|]. unfold asVote, processLegacy in E.
  destruct (legacyChecks _ _ _ _ _) as [[[[[e ledger] intent] sender]|]|] eqn:Hc; [|by injection E as -> ->|done].
  apply checks_ok in Hc as (Hv & _). unfold validateShieldedTransactionEnvelope in Hv. rewrite Hp in Hv. by destruct (DecodeShieldedTransaction _) as [[?|]|].
Qed.

(** ** After Antartical *)

(** An output of a migration, [i] being its position: a note of value zero with a known opening. *)
Definition zeroNote (sender : address) (i : nat) (o : ShieldedOutput) : Prop :=
  ∃ r, r ≠ 0 ∧ r < frModulus ∧ o.(lo_Commitment) = shieldedFieldHash 2001 [if (i =? 0)%nat then sender else 0; 1; 0; r].

Lemma migration_outputs i sender rs outputs : migrationOutputs i sender rs outputs = Ok () → length rs = length outputs →
  ∀ j o, outputs !! j = Some o → zeroNote sender (i + j) o.
Proof.
  revert i outputs. induction rs as [|r rs IH]; intros i [|o outputs] E Hlen j o' Hj; try done. cbn [migrationOutputs] in E.
  apply bind_ok in E as ([] & H1 & E). apply fail_if_ok in H1. apply bind_ok in E as ([] & H2 & E). apply fail_if_ok in H2.
  apply negb_false_iff, Z.eqb_eq in H2. apply orb_false_iff in H1 as [Hz Hc]. apply negb_false_iff in Hc. unfold isCanonicalShieldedFieldHash, zeroHash in *.
  destruct j as [|j]; cbn in Hj; [injection Hj as <-; rewrite Nat.add_0_r; exists r; split_and!; [lia..|exact H2]|].
  rewrite Nat.add_succ_r. apply (IH (Datatypes.S i) outputs E); [by injection Hlen|done].
Qed.

Lemma moves_withdrawal config time tx e : publicMoves config time tx e = Ok () → 0 < shieldedWithdrawalValue e → tx.(sx_tx).(vt_Value) = 0.
Proof.
  intros H Hw. unfold publicMoves in H. do 3 (apply bind_ok in H as ([] & _ & H)). apply bind_ok in H as ([] & H & _).
  rewrite (proj2 (Z.ltb_lt _ _) Hw) in H. apply fail_if_ok in H. repeat match goal with Hx : _ || _ = false |- _ => apply orb_false_iff in Hx as [? ?] end. lia.
Qed.

(** C14: Once Antartical is active the first pool only pays out: an accepted envelope is of version
    2 with one spend, withdraws a positive amount to the signer of the transaction and
    sponsors no gas, brings no money in, and proves exactly the withdrawn amount as its
    public value; and its four outputs are openings of zero-value notes, for the
    signer and for nobody, so that no value stays in the old tree. *)
Theorem antartical_legacy_migrates config number time st tx seen st' seen' :
  ChainConfig.IsAntartical config number time = true → processLegacy config number time st tx seen = (None, st', seen') →
  (DecodeShieldedTransaction tx.(lx_tx).(sx_tx).(vt_Data) = Ok None ∧ st' = st)
  ∨ ∃ e s sender, DecodeShieldedTransaction tx.(lx_tx).(sx_tx).(vt_Data) = Ok (Some e)
    ∧ Sender config number time tx.(lx_tx).(sx_tx) = Some sender
    ∧ e.(lt_Version) = ShieldedTxVersionV2 ∧ e.(lt_Spends) = [s] ∧ e.(lt_WithdrawalRecipient) = sender
    ∧ 0 < shieldedWithdrawalValue e < two64 ∧ shieldedGasSponsorValue e = 0 ∧ tx.(lx_tx).(sx_tx).(vt_Value) = 0
    ∧ shieldedPublicValue e tx.(lx_tx).(sx_tx).(vt_Value) = shieldedWithdrawalValue e
    ∧ length e.(lt_Outputs) = shieldedOutputSlots ∧ ∀ i o, e.(lt_Outputs) !! i = Some o → zeroNote sender i o.
Proof.
  intros Ha E. unfold processLegacy in E. destruct (legacyChecks _ _ _ _ _) as [[[[[e ledger] intent] sender']|]|] eqn:Hc; [| |done].
  2: { injection E as -> _. left. split; [by apply checks_ok in Hc|done]. }
  right. apply checks_ok in Hc as (Hv & _). pose proof (outputs_four _ _ _ _ _ Hv) as Ho. apply envelope_checked in Hv as (Hd & _ & Hr & Hm & Hp).
  rewrite Ha in Hm. unfold migrationOnly in Hm. destruct (Sender config number time _) as [sender|]; [|done].
  apply bind_ok in Hm as ([] & Hs & Hm). apply fail_if_ok in Hs. apply bind_ok in Hm as ([] & Hn & Hm). apply fail_if_ok in Hn.
  repeat match goal with Hx : _ || _ = false |- _ => apply orb_false_iff in Hx as [? ?] end.
  repeat match goal with Hx : negb _ = false |- _ => apply negb_false_iff in Hx end.
  destruct e.(lt_Spends) as [|s [|]] eqn:Esp; try done. pose proof (release_range e).
  assert (Hv0 : tx.(lx_tx).(sx_tx).(vt_Value) = 0) by (eapply moves_withdrawal; [exact Hp|lia]).
  exists e, s, sender. split_and!; try done; try lia.
  - unfold shieldedPublicValue. rewrite (proj2 (Z.ltb_lt _ _)) by lia. lia.
  - intros i o Hi. eapply (migration_outputs 0 sender); [exact Hm| |exact Hi]. rewrite Ho. by apply Nat.eqb_eq.
Qed.
End Spends.
End LegacySpends.
