(* ===== verification/LegacyDemo.v ===== *)
(** * A deposit and a migration

    The theorems of [LegacySpends] applied to a deposit into the first pool and to the
    withdrawal that moves it out after Antartical, on the small pool of [PoolDemo]. *)

From S2P Require Import Prelude Bytes RLPTypes State ChainConfig ValidatorRegistry ValidatorStore Merkle ShieldedTree NoteTree ShieldedDemo Stamps AddressVotes ShieldedEnvelopes Ledger ShieldedSpend Shielded6 PoolSlots PoolLedger SpendRefinement RingSpend PoolDemo LegacyPool LegacyTree LegacySpends.
Import RLPTypes ValidatorRegistry ValidatorStore ShieldedTree NoteTree ShieldedDemo Stamps AddressVotes ShieldedEnvelopes Ledger ShieldedSpend Shielded6 PoolSlots PoolLedger SpendRefinement RingSpend PoolDemo LegacyPool LegacyTree LegacySpends.

Module LegacyDemo.

#[local] Existing Instance RefUint256.
#[local] Existing Instance FlatWorldState.

(** ** Hashes *)

(** The slots of the paths, which hold two words, are below all others, and those of the
    levels, which are small numbers, above them. *)
Definition pathNumber (d : bytes) : Z := (be_value (take 32 d) mod 2 ^ 120) * 2 ^ 120 + be_value (drop 32 d) mod 2 ^ 120.

#[local] Instance LegacyX : Externals := {
  Sender := @Sender PoolX;
  VerifyMLDSA87 := @VerifyMLDSA87 PoolX;
  MLDSA87PublicKeySize := @MLDSA87PublicKeySize PoolX;
  keccak b := if has_prefix b pathL.2 then be_bytes 32 (pathNumber (drop (length pathL.2) b)) 
              else if has_prefix b frontierL.2 then be_bytes 32 (65535 * 2 ^ 240 + be_value (drop (length frontierL.2) b) mod 2 ^ 240) else @keccak PoolX b;
  sha256 := @sha256 PoolX;
  sha512 := @sha512 PoolX;
  pooled := @pooled PoolX;
}.

(** Field elements whose encoding ends in two zero bytes. *)
#[local] Instance LegacyField : FieldHash := λ l, 65536 * (1 + foldl (λ h x, h * 31 + x + 7) 5 l mod 2 ^ 64).
Definition legacyK (h : hash) : Prop := 0 <= h < 2 ^ 120 ∧ le_value (hash_bytes h) < 2 ^ 240.
#[local] Instance legacyK_dec h : Decision (legacyK h).
Proof. unfold legacyK. apply _. Defined.

(** The proof [[1]] is accepted. *)
#[local] Instance LegacyAccepts : LegacyVerifier := {
  configuredVerifier := None;
  v2ShieldedGroth16VerifierFromParams _ := Some (λ _ proof, bool_decide (proof = [1]));
  shieldedGroth16VerifierFromChainConfig _ := Some (λ _ proof, bool_decide (proof = [1]));
  upgradedShieldedGroth16VerifierFromParams _ := None;
  recoveryShieldedGroth16VerifierFromParams _ := None;
}.
#[local] Instance LegacyShield6 : Shield6Crypto := {
  decodePoint _ _ := true;
  decodeScalar _ := true;
  clsagVerify _ _ _ _ _ := true;
  VerifyRangeProof128 _ _ := true;
  VerifyDepositCommitment _ _ _ := true;
  VerifyCommitmentBalance128 _ _ _ := true;
  recipientKey _ := true;
  recipientVerify _ _ _ := true;
  registrationVerify _ _ _ _ _ _ := true;
}.

(** ** Transactions *)

Definition migrationTime : Z := 2000000000.
Definition legacyConfig : ChainConfig.ChainConfig := Eval vm_compute in
  let c := poolConfig in {|
  ChainConfig.ChainID := Some 8979; ChainConfig.MergeOverride := false; ChainConfig.HomesteadBlock := None; ChainConfig.DAOForkBlock := None;
  ChainConfig.EIP150Block := None; ChainConfig.EIP155Block := None; ChainConfig.EIP158Block := None; ChainConfig.ByzantiumBlock := None;
  ChainConfig.ConstantinopleBlock := None; ChainConfig.PetersburgBlock := None; ChainConfig.IstanbulBlock := None; ChainConfig.BerlinBlock := None;
  ChainConfig.LondonBlock := Some 0; ChainConfig.RandomXTxBlock := None; ChainConfig.RandomXMoneroBlock := None; ChainConfig.ArrowGlacierBlock := None;
  ChainConfig.GrayGlacierBlock := None; ChainConfig.ShanghaiTime := None; ChainConfig.CancunTime := None; ChainConfig.PragueTime := None;
  ChainConfig.OsakaTime := None; ChainConfig.BPO1Time := None; ChainConfig.BPO2Time := None; ChainConfig.BPO3Time := None; ChainConfig.BPO4Time := None;
  ChainConfig.BPO5Time := None; ChainConfig.AmsterdamTime := None; ChainConfig.UBTTime := None; ChainConfig.EDATime := None; ChainConfig.KyotoTime := None;
  ChainConfig.PhoneTime := None; ChainConfig.PrivacyCommitmentTime := Some 0; ChainConfig.QuantumResistantTime := None;
  ChainConfig.PQMigrationRecoveryTime := None; ChainConfig.AntarticalTime := Some 2000000000; ChainConfig.UsernameNetworkTime := None;
  ChainConfig.ValidatorTransactionTime := None; ChainConfig.ShieldedOnlyTime := None; ChainConfig.ConfidentialLedgerTime := Some 2000000000;
  ChainConfig.Shield5Time := None; ChainConfig.Shield6Time := None; ChainConfig.Shield6RecipientTime := None; ChainConfig.Shield6RecipientKey := [];
  ChainConfig.Shield6RecipientKeyHash := 0; ChainConfig.Shield6RegistrationKey := []; ChainConfig.Shield6RegistrationKeyHash := 0;
  ChainConfig.Shield6RecipientProvingKeyHash := 0; ChainConfig.Shield6RegistrationProvingKeyHash := 0; ChainConfig.EnableUBTAtGenesis := false;
  ChainConfig.MainKingAddress := 0; ChainConfig.PostQuantumMainKingAddress := 0; ChainConfig.ShieldedGroth16VerifyingKey := [] |}.

Definition legacyTx (value : Z) (h : hash) (e : ShieldedTransaction) : ltx := {|
  lx_tx := spendTx value h (bytesOr (EncodeShieldedTransaction e)); lx_BlobGas := 0; lx_BlobGasFeeCap := 0; lx_BlobHashes := []; lx_Authorizations := [] |}.

Definition legacyOutput (c : hash) : ShieldedOutput := {|
  lo_Commitment := c; lo_PayloadHash := 7; lo_EphemeralPubKey := []; lo_ViewTag := []; lo_EncryptedPayload := replicate 32 1; lo_Nonce := replicate 12 2 |}.

Definition depositNotes : ShieldedTransaction := {|
  lt_Version := 1; lt_Spends := [{| ls_Nullifier := 0; ls_Anchor := 0; ls_Proof := [1]; ls_EncryptedSpendData := [] |}];
  lt_Outputs := legacyOutput <$> [65536; 131072; 196608; 262144]; lt_BalanceCommitment := 9; lt_BindingSig := replicate 32 0;
  lt_WithdrawalRecipient := 0; lt_WithdrawalValue := None; lt_GasSponsorValue := None; lt_MigrationOutputRandomness := [] |}.

Definition legacyStart : flatState := AddBalance emptyFlat ShieldedPoolAddress 100.
Definition depositLegacy : ltx := legacyTx 50 65536 depositNotes.
Abbreviation afterDeposit := (processLegacy legacyConfig 10 20 legacyStart depositLegacy ∅).
(** The value of the deposit arrives behind it. *)
Definition fundedLegacy : flatState := AddBalance afterDeposit.1.2 ShieldedPoolAddress 50.

Definition signer : address := Eval vm_compute in demoHash (AlgorithmMLDSA87 ++ [5]).
Definition legacyAnchor : hash := Eval vm_compute in match ShieldedCommitmentPath fundedLegacy 262144 with Some p => p.(mp_Root) | None => 0 end.
Definition zeroNotes : list hash := (λ '(a, r), shieldedFieldHash 2001 [a; 1; 0; r]) <$> [(signer, 3); (0, 4); (0, 5); (0, 6)].
Definition migration : ShieldedTransaction := {|
  lt_Version := 2; lt_Spends := [{| ls_Nullifier := 6553600; ls_Anchor := legacyAnchor; ls_Proof := [1]; ls_EncryptedSpendData := [] |}];
  lt_Outputs := legacyOutput <$> zeroNotes; lt_BalanceCommitment := 9; lt_BindingSig := replicate 32 0;
  lt_WithdrawalRecipient := signer; lt_WithdrawalValue := Some 30; lt_GasSponsorValue := Some 0; lt_MigrationOutputRandomness := [3; 4; 5; 6] |}.
Definition migrateLegacy : ltx := legacyTx 0 131072 migration.
Abbreviation afterMigration := (processLegacy legacyConfig 30 migrationTime fundedLegacy migrateLegacy ∅).

(** ** Slots *)

(** The data under a prefix, as a number of thirty bytes. *)
Definition payload (p : prefix) (d : bytes) : Z :=
  if bool_decide (p = pathL) then pathNumber d else if bool_decide (p = frontierL) then be_value d else le_value d.
Definition legacyLength (p : prefix) : nat :=
  if bool_decide (p = pathL) then 64 else if bool_decide (p ∈ [commitmentL; nullifierL; frontierL; indexL; rootL]) then 32 else dataLength p.
Definition legacyQ (p : prefix) (d : bytes) : Prop :=
  bytes_ok d ∧ length d = legacyLength p ∧ payload p d < 2 ^ 240
  ∧ if bool_decide (p = pathL) then be_value (take 32 d) < 2 ^ 120 ∧ be_value (drop 32 d) < 2 ^ 120 else True.

Definition region (p : prefix) (r : Z) : Prop :=
  p = pathL ∧ r = 0 ∨ p = frontierL ∧ r = 65535 ∨ p ≠ pathL ∧ p ≠ frontierL ∧ ∃ i, poolPrefixes !! i = Some p ∧ r = 1 + Z.of_nat i.

Lemma region_inj p q r : region p r → region q r → p = q.
Proof.
  assert (Hl : ∀ i p, poolPrefixes !! i = Some p → Z.of_nat i < 65534).
  { intros i x Hi. apply lookup_lt_Some in Hi. change (length poolPrefixes) with (Z.to_nat demoCount) in Hi. unfold demoCount in Hi. lia. }
  intros [[-> ->]|[[-> ->]|(_ & _ & i & Hi & ->)]] [[-> E]|[[-> E]|(_ & _ & j & Hj & E)]]; try done; try lia.
  - apply Hl in Hj. lia.
  - apply Hl in Hi. lia.
  - assert (i = j) as -> by lia. congruence.
Qed.

Lemma pathNumber_range d : 0 <= pathNumber d < 2 ^ 240.
Proof.
  unfold pathNumber. pose proof (Z.mod_pos_bound (be_value (take 32 d)) (2 ^ 120) ltac:(done)). pose proof (Z.mod_pos_bound (be_value (drop 32 d)) (2 ^ 120) ltac:(done)).
  change (2 ^ 240) with (2 ^ 120 * 2 ^ 120). nia.
Qed.

Lemma payload_range p d : bytes_ok d → 0 <= payload p d.
Proof.
  intros Hb. unfold payload. destruct (bool_decide _); [apply pathNumber_range|]. destruct (bool_decide _); [by apply be_value_bound|by apply le_value_range].
Qed.

(** A word of 32 bytes is read back. *)
Lemma word_value x : 0 <= x < 65536 * 2 ^ 240 → BytesToHash (be_bytes 32 x) = x.
Proof. intros Hx. rewrite BytesToHash_32 by apply length_be_bytes. apply be_value_bytes. change (256 ^ Z.of_nat 32) with (65536 * 2 ^ 240). lia. Qed.

Lemma slot_other p d : p ∈ poolPrefixes → p ≠ pathL → p ≠ frontierL → slotAt p d = @slotAt PoolX p d.
Proof.
  intros Hp H1 H2. unfold slotAt. destruct p as [[|] p]; cbn [fst snd]; [done|]. unfold keccak, LegacyX.
  assert (Hn : ∀ q, q ∈ poolPrefixes → q.1 = Keccak → (Keccak, p) ≠ q → has_prefix (p ++ d) q.2 = false).
  { intros q Hq Hf Hne. apply not_true_iff_false. intros [x Ex]%has_prefix_spec. apply Hne. by destruct (prefix_data_inj (Keccak, p) q d x). }
  rewrite !Hn; first [done|in_list].
Qed.

Lemma slot_code p d : inUse legacyQ p d → ∃ r, region p r ∧ slotAt p d = r * 2 ^ 240 + payload p d.
Proof.
  intros [Hp (Hb & _ & Hd & _)]. pose proof (payload_range p d Hb) as H0. destruct (decide (p = pathL)) as [->|H1]; [|destruct (decide (p = frontierL)) as [->|H2]].
  - exists 0. split; [by left|]. unfold payload in *. rewrite bool_decide_eq_true_2 in * by done.
    assert (E : slotAt pathL d = BytesToHash (be_bytes 32 (pathNumber d))).
    { change (slotAt pathL d) with (BytesToHash (keccak (pathL.2 ++ d))). apply (f_equal BytesToHash). unfold keccak, LegacyX. by rewrite has_prefix_app, drop_app_length. }
    rewrite E, word_value by lia. lia.
  - exists 65535. split; [by right; left|]. unfold payload in *. rewrite bool_decide_eq_false_2, bool_decide_eq_true_2 in * by (done || prefix_ne).
    assert (E : slotAt frontierL d = BytesToHash (be_bytes 32 (65535 * 2 ^ 240 + be_value d mod 2 ^ 240))).
    { change (slotAt frontierL d) with (BytesToHash (keccak (frontierL.2 ++ d))). apply (f_equal BytesToHash). unfold keccak, LegacyX. rewrite has_prefix_app, drop_app_length.
      assert (En : has_prefix (frontierL.2 ++ d) pathL.2 = false); [|by rewrite En].
      apply not_true_iff_false. intros [x Ex]%has_prefix_spec. destruct (prefix_data_inj frontierL pathL d x) as [E _]; [in_list|in_list|done|done|]. revert E. prefix_ne. }
    rewrite E, (Z.mod_small (be_value d)) by lia. apply word_value. lia.
  - apply list_elem_of_lookup in Hp as Hi. destruct Hi as [i Hi]. exists (1 + Z.of_nat i). split; [right; right; eauto|].
    unfold payload in *. rewrite !bool_decide_eq_false_2 in * by done. rewrite slot_other by done. by apply slotAt_number.
Qed.

Lemma pathNumber_inj d d' : bytes_ok d → bytes_ok d' → length d = 64%nat → length d' = 64%nat → be_value (take 32 d) < 2 ^ 120 ∧ be_value (drop 32 d) < 2 ^ 120 →
  be_value (take 32 d') < 2 ^ 120 ∧ be_value (drop 32 d') < 2 ^ 120 → pathNumber d = pathNumber d' → d = d'.
Proof.
  intros Hb Hb' Hl Hl' [H1 H2] [H3 H4]. unfold pathNumber.
  assert (Hpos : ∀ x, bytes_ok x → 0 <= be_value x) by (intros x Hx; by apply be_value_bound).
  assert (Hr : ∀ x y, bytes_ok x → bytes_ok y → length x = length y → be_value x = be_value y → x = y).
  { intros x y Hx Hy Hlen Ev. rewrite <- (be_bytes_value x), <- (be_bytes_value y) by done. by rewrite Hlen, Ev. }
  pose proof (Hpos (take 32 d) ltac:(by apply Forall_take)). pose proof (Hpos (drop 32 d) ltac:(by apply Forall_drop)).
  pose proof (Hpos (take 32 d') ltac:(by apply Forall_take)). pose proof (Hpos (drop 32 d') ltac:(by apply Forall_drop)).
  rewrite !Z.mod_small by lia. intros E. assert (be_value (take 32 d) = be_value (take 32 d') ∧ be_value (drop 32 d) = be_value (drop 32 d')) as [E1 E2] by lia.
  rewrite <- (take_drop 32 d), <- (take_drop 32 d').
  f_equal; apply Hr; first [by apply Forall_take|by apply Forall_drop|rewrite ?length_take, ?length_drop; lia|done].
Qed.

#[local] Instance legacy_distinct : PoolDistinct legacyQ.
Proof.
  intros p d q d' Hp Hq E. destruct (slot_code p d Hp) as (r & Hr & Ep), (slot_code q d' Hq) as (r' & Hr' & Eq).
  destruct Hp as [Hp (Hb & Hl & Hd & Hw)], Hq as [Hq (Hb' & Hl' & Hd' & Hw')]. pose proof (payload_range p d Hb). pose proof (payload_range q d' Hb').
  assert (r = r' ∧ payload p d = payload q d') as [-> Hv] by lia. pose proof (region_inj p q r' Hr Hr') as <-. split; [done|]. f_equal.
  unfold payload in Hv. unfold legacyLength in Hl, Hl'. destruct (bool_decide (p = pathL)); [by apply pathNumber_inj|].
  destruct (bool_decide (p = frontierL)); [|by apply le_value_inj; [..|congruence|]]. rewrite <- (be_bytes_value d), <- (be_bytes_value d') by done. by rewrite Hv, Hl, Hl'.
Qed.

Lemma use_old p d : inUse demoQ p d → p.1 = Sha512 → inUse legacyQ p d.
Proof.
  intros [Hp (Hb & Hl & Hd)] Hs. split; [done|]. assert (Hn : ∀ name, p ≠ preL name) by (intros name ->; discriminate Hs).
  assert (Ho : p ∉ [commitmentL; nullifierL; frontierL; indexL; rootL]) by (rewrite !elem_of_cons, elem_of_nil; intros [E|[E|[E|[E|[E|[]]]]]]; by apply (Hn _ E)).
  unfold legacyQ, legacyLength, payload. rewrite !bool_decide_eq_false_2 by first [exact Ho|apply Hn]. done.
Qed.

#[local] Instance legacy_ledger : LedgerUse legacyQ demoTx.
Proof.
  pose proof demo_ledger as [L1 L2 L3 L4 L5 L6 L7]. split; intros; apply use_old; auto. unfold preFor. by destruct (_ =? _).
Qed.

Lemma use_hash p h : p ∈ [commitmentL; nullifierL; indexL; rootL] → legacyK h → inUse legacyQ p (hash_bytes h).
Proof.
  intros Hp [_ Hh]. rewrite !elem_of_cons, elem_of_nil in Hp. destruct Hp as [->|[->|[->|[->|[]]]]];
    (split; [in_list|]; split_and!; [apply be_bytes_ok|unfold hash_bytes; by rewrite length_be_bytes|exact Hh|exact I]).
Qed.

Lemma le_value_shifted k : 0 <= k → le_value (hash_bytes (65536 * k)) < 2 ^ 240.
Proof.
  intros Hk. assert (E : hash_bytes (65536 * k) = be_bytes 30 k ++ [0; 0]).
  { change (hash_bytes (65536 * k)) with ((be_bytes 30 (65536 * k / 256 / 256) ++ [(65536 * k / 256) mod 256]) ++ [(65536 * k) mod 256]).
    replace (65536 * k) with (k * 256 * 256) by lia. rewrite !Z.div_mul, !Z.mod_mul by lia. by rewrite <- app_assoc. }
  rewrite E, le_value_app, length_be_bytes. assert (E0 : le_value [0; 0] = 0) by done. rewrite E0.
  unfold le_value. pose proof (be_value_bound (reverse (be_bytes 30 k)) ltac:(apply Forall_reverse, be_bytes_ok)) as [_ H].
  rewrite length_reverse, length_be_bytes in H. change (256 ^ Z.of_nat 30) with (2 ^ 240) in *. lia.
Qed.

Lemma hash_small h : 0 <= h < 2 ^ 120 → be_value (hash_bytes h) = h.
Proof. intros Hh. apply be_value_bytes. change (256 ^ Z.of_nat 32) with (2 ^ 136 * 2 ^ 120). lia. Qed.

Lemma level_small k : (k < 32)%nat → levelL k = hash_bytes (Z.of_nat k).
Proof. intros Hk. unfold levelL. by rewrite uint64Hash_id by (unfold is_u64, two64; lia). Qed.

#[local] Instance legacy_use : LegacyUse legacyQ legacyK.
Proof.
  split.
  - intros h [Hh _]. change two256 with (2 ^ 136 * 2 ^ 120). lia.
  - intros a b. unfold shieldedHashNode, shieldedFieldHash, mimcSum, LegacyField.
    set (k := 1 + _ mod 2 ^ 64). assert (Hk : 0 <= k <= 2 ^ 64) by (unfold k; pose proof (Z.mod_pos_bound (foldl (λ h x, h * 31 + x + 7) 5 [shieldedDomainNode; a; b]) (2 ^ 64) ltac:(done)); lia).
    split; [change (2 ^ 120) with (2 ^ 56 * 2 ^ 64); lia|apply le_value_shifted; lia].
  - split; [in_list|]. split_and!; [constructor|done|done|done].
  - intros k Hk. rewrite level_small by done. split; [in_list|]. split_and!; [apply be_bytes_ok|unfold hash_bytes; by rewrite length_be_bytes| |exact I].
    unfold payload. rewrite bool_decide_eq_false_2, bool_decide_eq_true_2 by (done || prefix_ne). rewrite hash_small; [|lia]. assert (32 < 2 ^ 240) by done. lia.
  - intros p h. apply use_hash.
  - intros h k [Hh _] Hk. unfold pathKey. rewrite level_small by done.
    assert (Hl : length (hash_bytes h) = 32%nat) by apply length_be_bytes. split; [in_list|]. split_and!.
    + apply Forall_app. split; apply be_bytes_ok.
    + by rewrite length_app, Hl.
    + unfold payload. rewrite bool_decide_eq_true_2 by done. apply pathNumber_range.
    + rewrite bool_decide_eq_true_2 by done. rewrite take_app_length', drop_app_length', !hash_small by (done || lia). lia.
Qed.

(** ** The history *)

Lemma legacy_accepted_eq (r : option vError * flatState * gset hash) : r.1.1 = None → r = (None, r.1.2, r.2).
Proof. destruct r as [[? ?] ?]. cbn. by intros ->. Qed.

Lemma depositNotes_read : DecodeShieldedTransaction depositLegacy.(lx_tx).(sx_tx).(vt_Data) = Ok (Some depositNotes).
Proof. vm_compute. reflexivity. Qed.
Lemma migration_read : DecodeShieldedTransaction migrateLegacy.(lx_tx).(sx_tx).(vt_Data) = Ok (Some migration).
Proof. vm_compute. reflexivity. Qed.

Lemma legacy_deposited : processLegacy legacyConfig 10 20 legacyStart depositLegacy ∅ = (None, afterDeposit.1.2, afterDeposit.2).
Proof. apply legacy_accepted_eq. vm_compute. reflexivity. Qed.
Lemma legacy_migrated : processLegacy legacyConfig 30 migrationTime fundedLegacy migrateLegacy ∅ = (None, afterMigration.1.2, afterMigration.2).
Proof. apply legacy_accepted_eq. vm_compute. reflexivity. Qed.

Lemma deposit_hashes e : DecodeShieldedTransaction depositLegacy.(lx_tx).(sx_tx).(vt_Data) = Ok (Some e) → envelope_hashes legacyK e.
Proof.
  rewrite depositNotes_read. intros [= <-]. split; unfold spend_hashes; apply (bool_decide_unpack _); vm_compute; exact I.
Qed.
Lemma migration_hashes e : DecodeShieldedTransaction migrateLegacy.(lx_tx).(sx_tx).(vt_Data) = Ok (Some e) → envelope_hashes legacyK e.
Proof.
  rewrite migration_read. intros [= <-]. split; unfold spend_hashes; apply (bool_decide_unpack _); vm_compute; exact I.
Qed.

Definition wordsB (st : flatState) : bool :=
  let s := getP st supplyPre [] in let o := (ConfidentialLedgerState st AssetTKM).(OpeningBacking) in (0 <=? s) && (s <? two256) && (0 <=? o) && (o <? two256).
Lemma words_intro st : wordsB st = true → ledger_words st.
Proof. unfold wordsB. intros H. split; lia. Qed.
Lemma start_words : ledger_words legacyStart.
Proof. apply words_intro. vm_compute. reflexivity. Qed.
Lemma funded_words : ledger_words fundedLegacy.
Proof. apply words_intro. vm_compute. reflexivity. Qed.

Lemma start_empty : emptyL legacyQ legacyStart.
Proof. intros p d _ _. unfold legacyStart, getP. rewrite GetState_Add. reflexivity. Qed.

Lemma funded_reached : reached legacyQ legacyK fundedLegacy.
Proof.
  eapply (reached_other _ _ afterDeposit.1.2 _ (λ _ _, False)); [|unfold fundedLegacy; apply sameBut_add|intros ? ? _ []].
  apply (reached_tx _ _ legacyStart legacyConfig 10 20 depositLegacy ∅ _ afterDeposit.2); [apply reached_empty, start_empty|exact start_words|discriminate|exact deposit_hashes|exact legacy_deposited].
Qed.

Lemma signer_paid : GetBalance afterMigration.1.2 signer = 30.
Proof. vm_compute. reflexivity. Qed.

(** ** Witnesses *)

Lemma legacy_pool_refines_witness :
  ∃ p p', represents legacyK fundedLegacy p ∧ represents legacyK afterMigration.1.2 p'
    ∧ transfer p 131072 migration false p' ∧ GetBalance afterMigration.1.2 signer = 30.
Proof.
  destruct (reached_represents legacyQ legacyK demoTx fundedLegacy funded_reached) as [p Hp].
  pose proof (legacy_pool_refines legacyQ legacyK demoTx legacyConfig 30 migrationTime fundedLegacy p migrateLegacy ∅ afterMigration.1.2 afterMigration.2
    Hp funded_words ltac:(discriminate) migration_hashes legacy_migrated) as [[E _]|(e & p' & i & s & l & E & T & R & _)]; rewrite migration_read in E; [discriminate E|].
  injection E as <-. exists p, p'. split; [exact Hp|]. split; [exact R|]. split; [exact T|exact signer_paid].
Defined.

Lemma funded_next : ShieldedMerkleNextIndex fundedLegacy = 4.
Proof. vm_compute. reflexivity. Qed.

(** The four notes of the deposit, and those of the migration behind them. *)
Lemma legacy_notes_spendable_witness :
  (∀ i, 0 <= i < 4 → ∃ c path, ShieldedCommitmentPath fundedLegacy c = Some path ∧ path.(mp_Index) = i
     ∧ path.(mp_Root) = computeShieldedMerkleRoot c path.(mp_Path) path.(mp_PathIndex))
  ∧ ShieldedMerkleNextIndex afterMigration.1.2 = 8
  ∧ ∀ j o, migration.(lt_Outputs) !! j = Some o → ∃ path, ShieldedCommitmentPath afterMigration.1.2 o.(lo_Commitment) = Some path ∧ path.(mp_Index) = 4 + Z.of_nat j.
Proof.
  destruct (legacy_notes_spendable legacyQ legacyK demoTx fundedLegacy funded_reached) as (_ & Hall & _ & Hp & Hstep). rewrite funded_next in Hall, Hp, Hstep. split.
  - intros i Hi. destruct (Hall i Hi) as (c & path & Hc & E & Ei). exists c, path. destruct (Hp c path Hc E) as (_ & _ & Hr & _). split; [exact E|]. split; [exact Ei|exact Hr].
  - destruct (Hstep legacyConfig 30 migrationTime migrateLegacy ∅ afterMigration.1.2 afterMigration.2 funded_words ltac:(discriminate) migration_hashes legacy_migrated) as (He & _).
    destruct (He migration migration_read) as (Hl & Hn & Ho). split; [rewrite Hn, Hl; reflexivity|]. intros j o Hj. exact (proj1 (Ho j o Hj)).
Defined.

Lemma antartical_legacy_migrates_witness :
  ∃ e, DecodeShieldedTransaction migrateLegacy.(lx_tx).(sx_tx).(vt_Data) = Ok (Some e) ∧ e.(lt_WithdrawalRecipient) = signer
    ∧ ∀ i o, e.(lt_Outputs) !! i = Some o → zeroNote signer i o.
Proof.
  destruct (antartical_legacy_migrates legacyConfig 30 migrationTime fundedLegacy migrateLegacy ∅ afterMigration.1.2 afterMigration.2 eq_refl legacy_migrated)
    as [[E _]|(e & s & sender & E & Hs & _ & _ & Hr & _ & _ & _ & _ & _ & Ho)]; [rewrite migration_read in E; discriminate E|].
  assert (Hsig : sender = signer) by (injection Hs as <-; reflexivity). exists e. rewrite <- Hsig. split; [exact E|]. split; [exact Hr|exact Ho].
Defined.
End LegacyDemo.
