(* ===== verification/Waves.v ===== *)
(** * Optimistic execution waves

    [consensus/antartical/parallel.go] and the conflict transcripts of
    [consensus/antartical/profile.go]: access summaries, the greedy schedule of
    transactions into waves, the speculative execution of a block, the
    transcript check a light client repeats, and when speculation agrees with the
    serial order.  RLP and Keccak are parameters. *)

From Stdlib Require Import Sorted.
From S2P Require Import Prelude Bytes.

Set Warnings "-level-tolerance".

Module Waves.

Record StorageAccess := { sa_Address : address; sa_Key : hash }.

Record AccessSet := {
  Reads : list address;
  Writes : list address;
  StorageReads : list StorageAccess;
  StorageWrites : list StorageAccess;
  Unknown : bool;
}.

#[global] Instance StorageAccess_eq_dec : EqDecision StorageAccess.
Proof. solve_decision. Defined.
#[global] Instance AccessSet_eq_dec : EqDecision AccessSet.
Proof. solve_decision. Defined.

(** The zero value of the Go struct. *)
Definition emptyAccess : AccessSet :=
  {| Reads := []; Writes := []; StorageReads := []; StorageWrites := []; Unknown := false |}.

Definition storageAccessConflicts (access : StorageAccess) (slots : list StorageAccess) : bool :=
  existsb (λ slot, (access.(sa_Address) =? slot.(sa_Address)) && (access.(sa_Key) =? slot.(sa_Key))) slots.

Definition accountAddressConflicts (a : address) (accounts : list address) : bool :=
  existsb (λ account, a =? account) accounts.

Definition storageSlotAddressConflicts (a : address) (slots : list StorageAccess) : bool :=
  existsb (λ slot, a =? slot.(sa_Address)) slots.

Definition conflicts (a b : AccessSet) : bool :=
  if a.(Unknown) || b.(Unknown) then true
  else
    existsb (λ x, accountAddressConflicts x (b.(Reads) ++ b.(Writes))
                  || storageSlotAddressConflicts x b.(StorageReads)
                  || storageSlotAddressConflicts x b.(StorageWrites)) a.(Writes)
    || existsb (λ x, accountAddressConflicts x a.(Reads)
                     || storageSlotAddressConflicts x a.(StorageReads)
                     || storageSlotAddressConflicts x a.(StorageWrites)) b.(Writes)
    || existsb (λ x, storageAccessConflicts x b.(StorageReads) || storageAccessConflicts x b.(StorageWrites)
                     || accountAddressConflicts x.(sa_Address) b.(Reads)
                     || accountAddressConflicts x.(sa_Address) b.(Writes)) a.(StorageWrites)
    || existsb (λ x, storageAccessConflicts x a.(StorageReads)
                     || accountAddressConflicts x.(sa_Address) a.(Reads)
                     || accountAddressConflicts x.(sa_Address) a.(Writes)) b.(StorageWrites).

(** ** The schedule *)

(** The inner loop over the waves after the barrier: [i] joins the first wave it
    conflicts with nowhere, or opens a new one. *)
Fixpoint place (ok : nat → bool) (i : nat) (waves : list (list nat)) : list (list nat) :=
  match waves with
  | [] => [[i]]
  | wave :: rest => if forallb ok wave then (wave ++ [i]) :: rest else wave :: place ok i rest
  end.

(** One iteration of the outer loop; [start] is [barrier + 1]. *)
Definition waveStep (access : list AccessSet) (st : list (list nat) * nat) (i : nat) : list (list nat) * nat :=
  let '(waves, start) := st in
  let item := nth i access emptyAccess in
  if item.(Unknown) then (waves ++ [[i]], S (length waves))
  else (take start waves ++ place (λ j, negb (conflicts item (nth j access emptyAccess))) i (drop start waves), start).

Definition BuildExecutionWaves (access : list AccessSet) : list (list nat) :=
  (foldl (waveStep access) ([], 0%nat) (seq 0 (length access))).1.

(** [AccessSetForTransaction]: the transaction's access-list addresses, [None]
    for a nil transaction; [sortHex] is the sort by checksummed hex. *)
Definition AccessSetForTransaction (sortHex : list address → list address)
    (tx : option (list address * option address)) : AccessSet :=
  match tx with
  | Some (accessList, Some to) =>
      match accessList with
      | [] => {| Reads := []; Writes := []; StorageReads := []; StorageWrites := []; Unknown := true |}
      | _ => {| Reads := sortHex accessList; Writes := [to]; StorageReads := []; StorageWrites := []; Unknown := false |}
      end
  | _ => {| Reads := []; Writes := []; StorageReads := []; StorageWrites := []; Unknown := true |}
  end.

(** ** Transcripts *)

Record ConflictTranscript := { tr_Waves : list (list Z); tr_Access : list AccessSet }.

Definition u32 (x : Z) : Z := x mod 2 ^ 32.

Definition NewConflictTranscript (access : list AccessSet) : ConflictTranscript :=
  {| tr_Waves := map (map (λ i, u32 (Z.of_nat i))) (BuildExecutionWaves access); tr_Access := access |}.

Definition uint32Bytes (values : list Z) : bytes := mjoin (be_bytes 4 <$> values).

Fixpoint equalWaves (a b : list (list Z)) : bool :=
  match a, b with
  | [], [] => true
  | x :: a, y :: b => bool_decide (uint32Bytes x = uint32Bytes y) && equalWaves a b
  | _, _ => false
  end.

Inductive error := ErrInvalidConflictTranscript | ErrOptimisticInput.

Definition Validate (t : ConflictTranscript) : result error unit :=
  if (length t.(tr_Waves) =? 0)%nat || (length t.(tr_Access) =? 0)%nat then Err ErrInvalidConflictTranscript
  else fail_if (negb (equalWaves (NewConflictTranscript t.(tr_Access)).(tr_Waves) t.(tr_Waves))) ErrInvalidConflictTranscript.

Section Commitment.
(** The hash of the RLP encoding of the transcript's fields, with the slot lists
    when there are any. *)
Context (transcriptHash : ConflictTranscript → bool → hash).

Definition Commitment (t : ConflictTranscript) : result error hash :=
  _ ← Validate t;
  let hasStorage := existsb (λ s, negb (length s.(StorageReads) =? 0)%nat || negb (length s.(StorageWrites) =? 0)%nat) t.(tr_Access) in
  Ok (transcriptHash t hasStorage).

Definition Verify (t : ConflictTranscript) (access : list AccessSet) (expected : hash) : bool :=
  let canonical := NewConflictTranscript access in
  if negb (equalWaves canonical.(tr_Waves) t.(tr_Waves)) || negb (length canonical.(tr_Access) =? length t.(tr_Access))%nat
  then false
  else match Commitment t with Ok got => got =? expected | Err _ => false end.
End Commitment.

(** ** Speculative execution *)
Section Execute.
Context {T R : Type} (defR : R).
(** [run] executes one item on an isolated snapshot; [None] is its error.  Which
    of several errors is reported depends on the goroutines and is left out. *)
Context (run : nat → T → option (R * AccessSet)).

(** The goroutines of one wave, in the order they happen to finish; the map holds
    the results and observed accesses written so far, by index. *)
Fixpoint runAll (items : list T) (order : list nat) (acc : gmap nat (R * AccessSet)) : option (gmap nat (R * AccessSet)) :=
  match order with
  | [] => Some acc
  | i :: rest =>
      match items !! i with
      | None => None
      | Some item =>
          match run i item with
          | None => None
          | Some r => runAll items rest (<[i := r]> acc)
          end
      end
  end.

Definition observed (acc : gmap nat (R * AccessSet)) (i : nat) : AccessSet :=
  match acc !! i with Some (_, a) => a | None => emptyAccess end.

Fixpoint waveConflict (acc : gmap nat (R * AccessSet)) (wave : list nat) : bool :=
  match wave with
  | [] => false
  | i :: rest => existsb (λ j, conflicts (observed acc i) (observed acc j)) rest || waveConflict acc rest
  end.

(** One wave: concurrent execution in completion order [order], then a serial
    retry when the observed accesses conflict. *)
Definition runWave (items : list T) (wave order : list nat) (acc : gmap nat (R * AccessSet)) : option (gmap nat (R * AccessSet)) :=
  acc ← runAll items order acc;
  if waveConflict acc wave then runAll items wave acc else Some acc.

(** [schedule wave] is the completion order of a wave's goroutines. *)
Definition ExecuteOptimisticResults (schedule : list nat → list nat) (items : list T) (access : list AccessSet)
    : option (list R * ConflictTranscript) :=
  if negb (length items =? length access)%nat then None
  else if (length items =? 0)%nat then Some ([], {| tr_Waves := []; tr_Access := [] |})
  else
    acc ← foldl (λ acc wave, acc ← acc; runWave items wave (schedule wave) acc) (Some ∅) (BuildExecutionWaves access);
    let index := seq 0 (length items) in
    Some (map (λ i, match acc !! i with Some (r, _) => r | None => defR end) index,
          NewConflictTranscript (map (observed acc) index)).
End Execute.

(** ** Correctness of the schedule *)

(** Index [x] is in wave number [w]. *)
Definition at_wave (waves : list (list nat)) (w x : nat) : Prop := ∃ wave, waves !! w = Some wave ∧ x ∈ wave.

Lemma place_spec ok i waves :
  (∃ l wave r, waves = l ++ wave :: r ∧ forallb ok wave = true ∧ place ok i waves = l ++ (wave ++ [i]) :: r) ∨
  place ok i waves = waves ++ [[i]].
Proof.
  induction waves as [|wave waves IH]; [by right|]. cbn [place]. destruct (forallb ok wave) eqn:E.
  - left. by exists [], wave, waves.
  - destruct IH as [(l&v&r&->&Hok&->)| ->]; [left|by right]. by exists (wave :: l), v, r.
Qed.

(** Either way the step puts [i] into one wave that it fits, at or after [start],
    and leaves the other waves alone. *)
Definition joins (waves waves' : list (list nat)) (start i : nat) (ok : nat → bool) : Prop :=
  (∃ l wave r, waves = l ++ wave :: r ∧ (start <= length l)%nat ∧ forallb ok wave = true ∧
     waves' = l ++ (wave ++ [i]) :: r) ∨
  waves' = waves ++ [[i]].

Lemma waveStep_joins access waves start i waves' start' :
  (start <= length waves)%nat → waveStep access (waves, start) i = (waves', start') →
  let item := nth i access emptyAccess in
  joins waves waves' start i (λ j, negb (conflicts item (nth j access emptyAccess))) ∧
  (item.(Unknown) = true → waves' = waves ++ [[i]] ∧ start' = S (length waves)) ∧
  (item.(Unknown) = false → start' = start).
Proof.
  intros Hs H item. unfold waveStep in H. fold item in H. destruct item.(Unknown) eqn:E; injection H as <- <-.
  - split_and!; [by right|done|done].
  - split_and!; [|done|done].
    set (ok := λ j, negb (conflicts item (nth j access emptyAccess))).
    destruct (place_spec ok i (drop start waves)) as [(l&wave&r&Hd&Hok&->)| ->].
    + left. exists (take start waves ++ l), wave, r.
      rewrite <- !app_assoc, <- Hd, take_drop, length_app, length_take. split_and!; try done. lia.
    + right. by rewrite app_assoc, take_drop.
Qed.

Lemma joins_at waves waves' start i ok :
  (start <= length waves)%nat → joins waves waves' start i ok →
  ∃ w0, (start <= w0 <= length waves)%nat ∧
    (∀ w x, at_wave waves' w x ↔ at_wave waves w x ∨ (w = w0 ∧ x = i)) ∧
    (∀ x, at_wave waves w0 x → ok x = true) ∧ (waves' = waves ++ [[i]] → w0 = length waves).
Proof.
  intros Hs [(l&wave&r&->&Hl&Hok&->)| ->].
  - exists (length l). rewrite length_app in *. cbn in *. split; [lia|]. split_and!.
    + intros w x. unfold at_wave. split.
      * intros (v&Hv&Hx). apply lookup_app_Some in Hv as [Hv|[Hw Hv]].
        { left. exists v. split; [|done]. by apply lookup_app_l_Some. }
        destruct (w - length l)%nat as [|d] eqn:E; cbn in Hv.
        -- injection Hv as <-. apply elem_of_app in Hx as [Hx|Hx%list_elem_of_singleton]; [left|right; split; [lia|done]].
           exists wave. split; [|done]. rewrite lookup_app_r by lia. by rewrite E.
        -- left. exists v. split; [|done]. rewrite lookup_app_r by lia. by rewrite E.
      * intros [(v&Hv&Hx)|[-> ->]].
        { apply lookup_app_Some in Hv as [Hv|[Hw Hv]].
          - exists v. split; [by apply lookup_app_l_Some|done].
          - destruct (w - length l)%nat as [|d] eqn:E; cbn in Hv.
            + injection Hv as ->. exists (v ++ [i]). split; [rewrite lookup_app_r by lia; by rewrite E|set_solver].
            + exists v. split; [rewrite lookup_app_r by lia; by rewrite E|done]. }
        exists (wave ++ [i]). split; [by rewrite lookup_app_r, Nat.sub_diag by lia|set_solver].
    + intros x (v&Hv&Hx). rewrite lookup_app_r, Nat.sub_diag in Hv by lia. injection Hv as <-.
      rewrite forallb_forall in Hok. apply Hok. by apply list_elem_of_In.
    + intros He. exfalso. apply (f_equal length) in He. rewrite !length_app in He. cbn in He. lia.
  - exists (length waves). split; [lia|]. split_and!; [|intros x (v&Hv&_); apply lookup_lt_Some in Hv; lia|done].
    intros w x. unfold at_wave. split.
    + intros (v&Hv&Hx). apply lookup_app_Some in Hv as [Hv|[Hw Hv]]; [left; by exists v|right].
      destruct (w - length waves)%nat as [|d] eqn:E; [|done]. injection Hv as <-. set_solver by lia.
    + intros [(v&Hv&Hx)|[-> ->]]; [exists v; split; [by apply lookup_app_l_Some|done]|].
      exists [i]. split; [by rewrite lookup_app_r, Nat.sub_diag by lia|set_solver].
Qed.

Lemma existsb_false {A} (f : A → bool) l : existsb f l = false ↔ ∀ x, x ∈ l → f x = false.
Proof.
  induction l as [|y l IH]; cbn; [by split; [intros _ x Hx; set_solver|]|].
  rewrite orb_false_iff, IH. setoid_rewrite elem_of_cons. naive_solver.
Qed.

Lemma accountAddressConflicts_false a l : accountAddressConflicts a l = false ↔ a ∉ l.
Proof.
  unfold accountAddressConflicts. rewrite existsb_false. setoid_rewrite Z.eqb_neq. set_solver.
Qed.

Lemma storageSlotAddressConflicts_false a l :
  storageSlotAddressConflicts a l = false ↔ ∀ s, s ∈ l → a ≠ s.(sa_Address).
Proof. unfold storageSlotAddressConflicts. rewrite existsb_false. by setoid_rewrite Z.eqb_neq. Qed.

Lemma storageAccessConflicts_false s l : storageAccessConflicts s l = false ↔ s ∉ l.
Proof.
  unfold storageAccessConflicts. rewrite existsb_false. setoid_rewrite andb_false_iff. setoid_rewrite Z.eqb_neq.
  split; [intros H Hs; destruct (H s Hs); done|].
  intros H [a k] Hx. destruct s as [a' k']. cbn. destruct (decide (a' = a)) as [->|]; [|by left].
  right. intros ->. done.
Qed.

(** Two summaries are independent when neither writes what the other touches. *)
Lemma conflicts_false a b :
  conflicts a b = false ↔
  a.(Unknown) = false ∧ b.(Unknown) = false ∧
  (∀ x, x ∈ a.(Writes) → x ∉ b.(Reads) ∧ x ∉ b.(Writes) ∧
     (∀ s, s ∈ b.(StorageReads) → x ≠ s.(sa_Address)) ∧ (∀ s, s ∈ b.(StorageWrites) → x ≠ s.(sa_Address))) ∧
  (∀ x, x ∈ b.(Writes) → x ∉ a.(Reads) ∧
     (∀ s, s ∈ a.(StorageReads) → x ≠ s.(sa_Address)) ∧ (∀ s, s ∈ a.(StorageWrites) → x ≠ s.(sa_Address))) ∧
  (∀ s, s ∈ a.(StorageWrites) → s ∉ b.(StorageReads) ∧ s ∉ b.(StorageWrites) ∧
     s.(sa_Address) ∉ b.(Reads) ∧ s.(sa_Address) ∉ b.(Writes)) ∧
  (∀ s, s ∈ b.(StorageWrites) → s ∉ a.(StorageReads) ∧ s.(sa_Address) ∉ a.(Reads) ∧ s.(sa_Address) ∉ a.(Writes)).
Proof.
  unfold conflicts. destruct a.(Unknown), b.(Unknown); cbn [orb]; try (by split; [|intros (?&?&_)]).
  rewrite !orb_false_iff, !existsb_false. repeat setoid_rewrite orb_false_iff.
  repeat setoid_rewrite accountAddressConflicts_false. repeat setoid_rewrite storageSlotAddressConflicts_false.
  repeat setoid_rewrite storageAccessConflicts_false. repeat setoid_rewrite not_elem_of_app. 
  split; [intros (((H1&H2)&H3)&H4)|intros (_&_&H1&H2&H3&H4)]; split_and!; try done; intros x Hx;
    [specialize (H1 x Hx)|specialize (H2 x Hx)|specialize (H3 x Hx)|specialize (H4 x Hx)
    |specialize (H1 x Hx)|specialize (H2 x Hx)|specialize (H3 x Hx)|specialize (H4 x Hx)]; tauto.
Qed.

Lemma conflicts_sym a b : conflicts a b = false → conflicts b a = false.
Proof.
  rewrite !conflicts_false. intros (Ha&Hb&H1&H2&H3&H4). split_and!; try done.
  - intros x Hx. destruct (H2 x Hx) as (?&?&?). split_and!; try done. intros Hw. by destruct (H1 x Hw) as (_&?&_).
  - intros x Hx. destruct (H1 x Hx) as (?&?&?&?). by split_and!.
  - intros s Hs. destruct (H4 s Hs) as (?&?&?). split_and!; try done. intros Hw. by destruct (H3 s Hw) as (_&?&_).
  - intros s Hs. destruct (H3 s Hs) as (?&?&?&?). by split_and!.
Qed.

Section Schedule.
Context (access : list AccessSet).
Let acc i := nth i access emptyAccess.

(** What holds after the first [k] transactions. *)
Record schedule_inv (k : nat) (waves : list (list nat)) (start : nat) : Prop := {
  inv_start : (start <= length waves)%nat;
  inv_dom x : (∃ w, at_wave waves w x) ↔ (x < k)%nat;
  inv_unique w w' x : at_wave waves w x → at_wave waves w' x → w = w';
  inv_sorted wave : wave ∈ waves → wave ≠ [] ∧ StronglySorted lt wave;
  inv_independent w x y : at_wave waves w x → at_wave waves w y → x ≠ y → conflicts (acc x) (acc y) = false;
  inv_unknown w x : at_wave waves w x → (acc x).(Unknown) = true → (w < start)%nat;
  inv_barrier w w' x y : at_wave waves w x → at_wave waves w' y → (x < y)%nat →
    (acc x).(Unknown) = true ∨ (acc y).(Unknown) = true → (w < w')%nat;
}.

Lemma at_wave_length waves w x : at_wave waves w x → (w < length waves)%nat.
Proof. intros (v&Hv&_). by eapply lookup_lt_Some. Qed.

Lemma joins_sorted waves waves' start i ok :
  joins waves waves' start i ok → (∀ wave, wave ∈ waves → ∀ x, x ∈ wave → (x < i)%nat) →
  (∀ wave, wave ∈ waves → wave ≠ [] ∧ StronglySorted lt wave) →
  ∀ wave, wave ∈ waves' → wave ≠ [] ∧ StronglySorted lt wave.
Proof.
  intros Hj Hlt Hs wave Hw. destruct Hj as [(l&v&r&->&_&_&->)| ->].
  - apply elem_of_app in Hw as [Hw|[->|Hw]%elem_of_cons]; [apply Hs; set_solver| |apply Hs; set_solver].
    split; [by destruct v|]. destruct (Hs v ltac:(set_solver)) as [_ Hv].
    assert (Hall : Forall (λ x, (x < i)%nat) v) by (apply Forall_forall; intros x Hx; eapply Hlt; [|done]; set_solver).
    clear -Hv Hall. induction Hv as [|x v Hv IH Hx]; cbn; [repeat constructor|].
    apply Forall_cons in Hall as [Hxi Hall]. constructor; [by apply IH|]. apply Forall_app. split; [done|by constructor].
  - apply elem_of_app in Hw as [Hw| ->%list_elem_of_singleton]; [by apply Hs|]. split; [done|repeat constructor].
Qed.

Lemma schedule_step k waves start :
  schedule_inv k waves start →
  let st := waveStep access (waves, start) k in schedule_inv (S k) st.1 st.2.
Proof.
  intros I st. destruct st as [waves' start'] eqn:E. cbn [fst snd]. unfold st in E.
  destruct (waveStep_joins access waves start k waves' start' (inv_start _ _ _ I) E) as (Hj&HU&HK).
  change (nth k access emptyAccess) with (acc k) in *.
  destruct (joins_at _ _ _ _ _ (inv_start _ _ _ I) Hj) as (w0&Hw0&Hat&Hok&Hlast).
  assert (Hlen : (length waves <= length waves' ∧ w0 < length waves')%nat).
  { split; [|eapply at_wave_length; apply Hat; by right].
    destruct Hj as [(l&v&r&->&_&_&->)| ->]; rewrite !length_app; cbn; lia. }
  assert (Hstart : (start <= start' ∧ start' <= length waves')%nat).
  { pose proof (inv_start _ _ _ I). destruct (acc k).(Unknown) eqn:Eu.
    - destruct (HU eq_refl) as [-> ->]. rewrite length_app. cbn. lia.
    - rewrite (HK eq_refl). lia. }
  assert (Hnew : ∀ w x, at_wave waves w x → (x < k)%nat).
  { intros w x Hx. apply (inv_dom _ _ _ I). by exists w. }
  split.
  - lia.
  - intros x. setoid_rewrite Hat. split.
    + intros (w&[Hx|[-> ->]]); [specialize (Hnew w x Hx); lia|lia].
    + intros Hx. destruct (decide (x = k)) as [->|]; [exists w0; by right|].
      assert (Hx' : (x < k)%nat) by lia. apply (inv_dom _ _ _ I) in Hx' as [w Hw]. exists w. by left.
  - intros w w' x [H1|[-> ->]]%Hat [H2|[-> H2]]%Hat; try done.
    + by eapply (inv_unique _ _ _ I).
    + subst. specialize (Hnew _ _ H1). lia.
    + specialize (Hnew _ _ H2). lia.
  - apply (joins_sorted _ _ _ _ _ Hj); [|by apply (inv_sorted _ _ _ I)].
    intros wave [w Hw]%list_elem_of_lookup x Hx. apply (Hnew w). by exists wave.
  - intros w x y [H1|[Ew ->]]%Hat [H2|[Ew' ->]]%Hat Hne; try done; try subst w.
    + by eapply (inv_independent _ _ _ I).
    + specialize (Hok _ H1). apply negb_true_iff in Hok. by apply conflicts_sym.
    + specialize (Hok _ H2). by apply negb_true_iff in Hok.
  - intros w x [H1|[-> ->]]%Hat Hu.
    + pose proof (inv_unknown _ _ _ I w x H1 Hu). lia.
    + destruct (HU Hu) as [Hw ->]. specialize (Hlast Hw). lia.
  - intros w w' x y [H1|[Ew ->]]%Hat [H2|[Ew' ->]]%Hat Hlt Hu.
    + by eapply (inv_barrier _ _ _ I).
    + destruct Hu as [Hu|Hu].
      * pose proof (inv_unknown _ _ _ I w x H1 Hu). lia.
      * destruct (HU Hu) as [Hw _]. specialize (Hlast Hw).
        pose proof (at_wave_length _ _ _ H1). lia.
    + specialize (Hnew _ _ H2). lia.
    + lia.
Qed.

Lemma schedule_run k :
  let st := foldl (waveStep access) ([], 0%nat) (seq 0 k) in schedule_inv k st.1 st.2.
Proof.
  induction k as [|k IH].
  - split; try (by intros; set_solver).
    all: unfold at_wave; cbn; intros; destruct_and?; try done.
    all: try (split; [intros (w&v&Hv&_); by rewrite lookup_nil in Hv|lia]).
    all: repeat match goal with H : ∃ _, _ |- _ => destruct H as (?&H&_); by rewrite lookup_nil in H end.
  - rewrite seq_S, foldl_app. cbn [foldl Nat.add]. cbn zeta in IH |- *.
    destruct (foldl _ _ (seq 0 k)) as [waves start]. by apply schedule_step.
Qed.
End Schedule.

(** The execution schedule is sound.  Every transaction is in exactly one
    wave, waves are non-empty and in index order, two transactions of one wave
    never conflict, and a transaction with unknown accesses is a barrier: all
    earlier transactions are in earlier waves and all later ones in later waves. *)
Theorem execution_waves_sound (access : list AccessSet) :
  let waves := BuildExecutionWaves access in
  let acc i := nth i access emptyAccess in
  (∀ i, (i < length access)%nat ↔ ∃ w, at_wave waves w i) ∧
  (∀ w w' i, at_wave waves w i → at_wave waves w' i → w = w') ∧
  (∀ wave, wave ∈ waves → wave ≠ [] ∧ StronglySorted lt wave) ∧
  (∀ w i j, at_wave waves w i → at_wave waves w j → i ≠ j → conflicts (acc i) (acc j) = false) ∧
  (∀ w w' i j, at_wave waves w i → at_wave waves w' j → (i < j)%nat →
    (acc i).(Unknown) = true ∨ (acc j).(Unknown) = true → (w < w')%nat).
Proof.
  cbn zeta. pose proof (schedule_run access (length access)) as I. cbn zeta in I.
  fold (BuildExecutionWaves access) in I. destruct I. split_and!; try done.
Qed.

(** The schedule does not order conflicting transactions: here transaction 2
    conflicts with transaction 1 and still shares the first wave. *)
Example waves_not_ordered :
  let w l := {| Reads := []; Writes := l; StorageReads := []; StorageWrites := []; Unknown := false |} in
  BuildExecutionWaves [w [1]; w [1; 2]; w [2]] = [[0; 2]; [1]]%nat.
Proof. done. Qed.

(** ** Speculative execution is deterministic *)
Section ExecuteCorrect.
Context {T R : Type} (defR : R) (run : nat → T → option (R * AccessSet)) (items : list T).

(** What item [i] yields on its own. *)
Definition outcome (i : nat) : option (R * AccessSet) := item ← items !! i; run i item.

Lemma runAll_ok order acc :
  Forall (λ i, is_Some (outcome i)) order →
  ∃ acc', runAll run items order acc = Some acc' ∧
    ∀ i, acc' !! i = if decide (i ∈ order) then outcome i else acc !! i.
Proof.
  revert acc. induction order as [|i order IH]; intros acc Hok.
  { exists acc. split; [done|]. intros i. by rewrite decide_False by set_solver. }
  apply Forall_cons in Hok as [[r Hr] Hok]. pose proof Hr as Hr'. unfold outcome in Hr'. cbn [runAll].
  destruct (items !! i) as [item|]; [|done]. cbn in Hr'. rewrite Hr'.
  destruct (IH (<[i := r]> acc) Hok) as (acc'&Ha&Hl). exists acc'. split; [done|].
  intros j. rewrite Hl. destruct (decide (j ∈ order)); [by rewrite decide_True by set_solver|].
  destruct (decide (i = j)) as [<-|].
  - by rewrite lookup_insert_eq, decide_True by set_solver.
  - by rewrite lookup_insert_ne, decide_False by set_solver.
Qed.

Lemma runAll_fail order acc : Exists (λ i, outcome i = None) order → runAll run items order acc = None.
Proof.
  revert acc. induction order as [|i order IH]; intros acc Hf; [by inversion Hf|]. cbn [runAll].
  destruct (items !! i) as [item|] eqn:Ei; [|done]. destruct (run i item) as [r|] eqn:Er; [|done].
  apply IH. inversion Hf as [? ? Hi|]; subst; [|done]. unfold outcome in Hi. rewrite Ei in Hi. cbn in Hi. congruence.
Qed.

(** A wave writes the outcomes of its members, whatever the completion order and
    whether or not it is retried. *)
Lemma runWave_ok wave order acc :
  order ≡ₚ wave → Forall (λ i, is_Some (outcome i)) wave →
  ∃ acc', runWave run items wave order acc = Some acc' ∧
    ∀ i, acc' !! i = if decide (i ∈ wave) then outcome i else acc !! i.
Proof.
  intros Hp Hok. destruct (runAll_ok order acc) as (a1&H1&L1); [by rewrite Hp|].
  assert (L1' : ∀ i, a1 !! i = if decide (i ∈ wave) then outcome i else acc !! i).
  { intros i. rewrite L1. destruct (decide (i ∈ order)) as [Hi|Hi]; rewrite Hp in Hi;
      [by rewrite decide_True|by rewrite decide_False]. }
  unfold runWave. rewrite H1. cbn. case_if; [|by exists a1].
  destruct (runAll_ok wave a1 Hok) as (a2&H2&L2). exists a2. split; [done|].
  intros i. rewrite L2, L1'. by destruct (decide (i ∈ wave)).
Qed.

Lemma runWave_fail wave order acc :
  order ≡ₚ wave → Exists (λ i, outcome i = None) wave → runWave run items wave order acc = None.
Proof.
  intros Hp Hf. unfold runWave. rewrite runAll_fail; [done|].
  apply Exists_exists in Hf as (i&Hi&Hn). apply Exists_exists. exists i. by rewrite Hp.
Qed.

Section Waves_fold.
Context (schedule : list nat → list nat) (Hsched : ∀ wave, schedule wave ≡ₚ wave).
Let exec := λ (acc : option (gmap nat (R * AccessSet))) (wave : list nat), acc ← acc; runWave run items wave (schedule wave) acc.

Lemma exec_cons acc wave waves :
  foldl exec (Some acc) (wave :: waves) = foldl exec (runWave run items wave (schedule wave) acc) waves.
Proof. done. Qed.

Lemma exec_none waves : foldl exec None waves = None.
Proof. induction waves; cbn; [done|]. done. Qed.

Lemma exec_ok waves acc :
  Forall (λ i, is_Some (outcome i)) (mjoin waves) →
  ∃ acc', foldl exec (Some acc) waves = Some acc' ∧
    ∀ i, acc' !! i = if decide (i ∈ mjoin waves) then outcome i else acc !! i.
Proof.
  revert acc. induction waves as [|wave waves IH]; intros acc Hok.
  { exists acc. split; [done|]. intros i. by rewrite decide_False by (cbn; set_solver). }
  cbn in Hok. apply Forall_app in Hok as [Hw Hok].
  destruct (runWave_ok wave (schedule wave) acc (Hsched wave) Hw) as (a1&H1&L1).
  destruct (IH a1 Hok) as (a2&H2&L2). exists a2.
  split; [by rewrite exec_cons, H1|].
  intros i. rewrite L2, L1. cbn. destruct (decide (i ∈ mjoin waves)), (decide (i ∈ wave));
    repeat case_decide; try done; set_solver.
Qed.

Lemma exec_fail waves acc :
  Exists (λ i, outcome i = None) (mjoin waves) → foldl exec (Some acc) waves = None.
Proof.
  revert acc. induction waves as [|wave waves IH]; intros acc Hf; [by inversion Hf|].
  rewrite exec_cons. cbn in Hf.
  destruct (decide (Exists (λ i, outcome i = None) wave)) as [Hw|Hw].
  - rewrite runWave_fail by done. apply exec_none.
  - apply Exists_app in Hf as [Hf|Hf]; [done|].
    destruct (runWave_ok wave (schedule wave) acc (Hsched wave)) as (a1&->&_); [|by apply IH].
    apply Forall_forall. intros i Hi. destruct (outcome i) eqn:E; [done|]. destruct Hw. apply Exists_exists. by exists i.
Qed.
End Waves_fold.

(** The reference: every item on its own, in order. *)
Definition eachOnItsOwn : option (list R * ConflictTranscript) :=
  rs ← mapM outcome (seq 0 (length items));
  Some (fst <$> rs, NewConflictTranscript (snd <$> rs)).

Lemma wave_members access i : i ∈ mjoin (BuildExecutionWaves access) ↔ (i < length access)%nat.
Proof.
  pose proof (schedule_run access (length access)) as I. cbn zeta in I. fold (BuildExecutionWaves access) in I.
  rewrite <- (inv_dom _ _ _ _ I). rewrite list_elem_of_join. unfold at_wave. split.
  - intros (wave&Hi&[w Hw]%list_elem_of_lookup). by exists w, wave.
  - intros (w&wave&Hw&Hi). exists wave. split; [done|]. by eapply list_elem_of_lookup_2.
Qed.

Lemma collect_outcomes acc n rs :
  (∀ i, (i < n)%nat → acc !! i = outcome i) → mapM outcome (seq 0 n) = Some rs →
  map (λ i, match acc !! i with Some (r, _) => r | None => defR end) (seq 0 n) = fst <$> rs ∧
  map (observed acc) (seq 0 n) = snd <$> rs.
Proof.
  intros Hacc Hm. apply mapM_Some_1 in Hm.
  assert (Hin : ∀ i, i ∈ seq 0 n → acc !! i = outcome i) by (intros i Hi%elem_of_seq; apply Hacc; lia).
  clear Hacc. induction Hm as [|i [r a] l rs Hi Hl IH]; [done|].
  destruct IH as [IH1 IH2]; [intros j Hj; apply Hin; by right|].
  pose proof (Hin i ltac:(by left)) as Ha. rewrite Hi in Ha. cbn. unfold observed at 1. rewrite Ha, IH1, IH2. done.
Qed.

(** Speculative execution is deterministic.  Whatever order the goroutines of each
    wave finish in, and whether or not waves are retried, the results and the
    transcript are those of executing every item on its own; and it fails exactly
    when some item fails. *)
Lemma optimistic_outcomes (schedule : list nat → list nat) (access : list AccessSet)
    (Hsched : ∀ wave, schedule wave ≡ₚ wave)
    (Hlen : length items = length access) (Hne : items ≠ []) :
  ExecuteOptimisticResults defR run schedule items access = eachOnItsOwn.
Proof.
  unfold ExecuteOptimisticResults, eachOnItsOwn. rewrite Hlen, Nat.eqb_refl. cbn [negb].
  rewrite (proj2 (Nat.eqb_neq _ 0)) by (rewrite <- Hlen; by destruct items).
  destruct (mapM outcome (seq 0 (length access))) as [rs|] eqn:Em.
  - pose proof (mapM_Some_1 _ _ _ Em) as Hf.
    assert (Hall : Forall (λ i, is_Some (outcome i)) (mjoin (BuildExecutionWaves access))).
    { apply Forall_forall. intros i Hi%wave_members.
      apply (proj1 (Forall_forall _ _) (mapM_is_Some_1 _ _ (mk_is_Some _ _ Em)) i). apply elem_of_seq. lia. }
    destruct (exec_ok schedule Hsched (BuildExecutionWaves access) ∅ Hall) as (acc&->&Hacc). cbn [mbind option_bind].
    destruct (collect_outcomes acc (length access) rs) as [-> ->]; [|done|done].
    intros i Hi. rewrite Hacc. by rewrite decide_True by by apply wave_members.
  - rewrite exec_fail; [done|done|]. apply mapM_None_1 in Em.
    apply Exists_exists in Em as (i&Hi&Hn). apply Exists_exists. exists i. split; [|done].
    apply wave_members. apply elem_of_seq in Hi. lia.
Qed.
End ExecuteCorrect.

(** ** Transcripts *)

Lemma uint32Bytes_inj a b :
  Forall (λ x, 0 <= x < 2 ^ 32) a → Forall (λ x, 0 <= x < 2 ^ 32) b → uint32Bytes a = uint32Bytes b → a = b.
Proof.
  intros Ha. revert b. induction Ha as [|x a Hx _ IH]; intros b Hb H; destruct Hb as [|y b Hy Hb]; try done.
  unfold uint32Bytes in H. cbn -[be_bytes] in H. apply app_inj_1 in H as [Hxy H]; [|by rewrite !length_be_bytes].
  f_equal; [by apply (be_bytes_inj 4)|by apply IH].
Qed.

Definition u32_waves (waves : list (list Z)) : Prop := Forall (Forall (λ x, 0 <= x < 2 ^ 32)) waves.

Lemma equalWaves_spec a b : u32_waves a → u32_waves b → equalWaves a b = true ↔ a = b.
Proof.
  intros Ha. revert b. induction Ha as [|x a Hx _ IH]; intros b Hb; destruct Hb as [|y b Hy Hb]; cbn; try done.
  rewrite andb_true_iff, bool_decide_eq_true, (IH b Hb). split.
  - intros [H ->]. f_equal. by apply uint32Bytes_inj.
  - intros [= -> ->]. done.
Qed.

Lemma canonical_u32 access : u32_waves (NewConflictTranscript access).(tr_Waves).
Proof.
  apply Forall_forall. intros l Hl%list_elem_of_fmap. destruct Hl as (wave&->&_).
  apply Forall_forall. intros x (i&->&_)%list_elem_of_fmap. apply Z.mod_pos_bound. lia.
Qed.

(** A transcript is accepted exactly when it is the canonical one: for
    transcripts with at least one access set, [Validate] succeeds if and only if
    the claimed waves are those of the greedy schedule. *)
Theorem transcript_validate_canonical (t : ConflictTranscript)
    (Hu : u32_waves t.(tr_Waves)) (Hne : t.(tr_Access) ≠ []) :
  Validate t = Ok tt ↔ t.(tr_Waves) = (NewConflictTranscript t.(tr_Access)).(tr_Waves).
Proof.
  pose proof (canonical_u32 t.(tr_Access)) as Hc. unfold Validate.
  rewrite (proj2 (Nat.eqb_neq (length t.(tr_Access)) 0)) by (by destruct t.(tr_Access)). rewrite orb_false_r.
  assert (Hn : (NewConflictTranscript t.(tr_Access)).(tr_Waves) ≠ []).
  { intros He. apply map_eq_nil in He.
    assert (H0 : (0 < length t.(tr_Access))%nat) by (destruct t.(tr_Access); [done|cbn; lia]).
    apply (wave_members) in H0. by rewrite He in H0; apply elem_of_nil in H0. }
  destruct (Nat.eqb_spec (length t.(tr_Waves)) 0) as [Hz|Hz].
  - split; [done|]. intros He. apply nil_length_inv in Hz. rewrite Hz in He. by destruct Hn.
  - rewrite fail_if_ok, negb_false_iff, equalWaves_spec by done. by split.
Qed.

Lemma transcript_validate_canonical_witness :
  let w l := {| Reads := []; Writes := l; StorageReads := []; StorageWrites := []; Unknown := false |} in
  Validate {| tr_Waves := [[0; 2]; [1]]; tr_Access := [w [1]; w [1; 2]; w [2]] |} = Ok tt.
Proof. intros w. apply transcript_validate_canonical; [by repeat constructor|done|done]. Defined.
End Waves.

(** ** Speculation and the serial order

    [ExecuteOptimisticResults] runs every transaction on its own copy of the state at the
    start of the block and returns, beside the results, the transcript of the accesses
    it observed.  Here the executor works on a state of accounts and slots: when the
    transcript is a single wave, the results are those of the serial order and the
    write-sets, committed in order, give the serial state.  With a conflict the retry
    of a wave does not restore the serial order, since it runs on the same copies. *)
Module SerialOrder.
Import Waves.

(** What a transaction can read or write. *)
Inductive location := Account (a : address) | Slot (a : address) (k : hash).

#[global] Instance location_eq_dec : EqDecision location.
Proof. solve_decision. Defined.

(** The locations an access set stands for: an account stands for all of its slots, and a
    slot for its account as far as reads go. *)
Definition touched (s : AccessSet) (l : location) : Prop :=
  match l with
  | Account a => a ∈ s.(Reads) ∨ a ∈ s.(Writes) ∨ ∃ x, (x ∈ s.(StorageReads) ∨ x ∈ s.(StorageWrites)) ∧ x.(sa_Address) = a
  | Slot a k => a ∈ s.(Reads) ∨ a ∈ s.(Writes) ∨ {| sa_Address := a; sa_Key := k |} ∈ s.(StorageReads) ∨ {| sa_Address := a; sa_Key := k |} ∈ s.(StorageWrites)
  end.

Definition written (s : AccessSet) (l : location) : Prop :=
  match l with
  | Account a => a ∈ s.(Writes)
  | Slot a k => a ∈ s.(Writes) ∨ {| sa_Address := a; sa_Key := k |} ∈ s.(StorageWrites)
  end.

(** Without a conflict no location written by one is touched by the other. *)
Lemma no_conflict_apart a b l : conflicts a b = false → written a l → ¬ touched b l.
Proof.
  rewrite conflicts_false. intros (_ & _ & H1 & _ & H3 & _) Hw Ht. destruct l as [x|x k]; cbn in *.
  - destruct (H1 x Hw) as (A1 & A2 & A3 & A4). destruct Ht as [?|[?|(s & [Hs|Hs] & Es)]]; [done|done|by apply (A3 s)|by apply (A4 s)].
  - destruct Hw as [Hw|Hw].
    + destruct (H1 x Hw) as (A1 & A2 & A3 & A4). destruct Ht as [?|[?|[Hs|Hs]]]; [done|done|by apply (A3 _ Hs)|by apply (A4 _ Hs)].
    + destruct (H3 _ Hw) as (A1 & A2 & A3 & A4). cbn in A3, A4. tauto.
Qed.

Section Order.
Context {V T R : Type} (defR : R).

Definition world : Type := location → V.
Definition writes : Type := list (location * V).

(** A write-set is merged location by location. *)
Definition commit (s : world) (ws : writes) : world := foldl (λ s w l, if decide (w.1 = l) then w.2 else s l) s ws.

Lemma commit_other ws s l : (∀ v, (l, v) ∉ ws) → commit s ws l = s l.
Proof.
  revert s. induction ws as [|[l' v'] ws IH]; intros s Hn; [done|]. cbn. fold (commit (λ l, if decide (l' = l) then v' else s l) ws).
  rewrite IH by (intros v Hv; apply (Hn v); by right). rewrite decide_False; [done|]. intros ->. apply (Hn v'). by left.
Qed.

(** The execution of one transaction on a state: its result, the write-set and the accesses
    observed; [None] is an error.  The same code runs speculatively and serially. *)
Context (exec : world → nat → T → option (R * writes * AccessSet)).

(** The access sets are complete: a run depends only on the locations it reports, and
    writes only what it reports as written. *)
Class Tracked := {
  tracked_reads s s' i x r ws acc : exec s i x = Some (r, ws, acc) → (∀ l, touched acc l → s' l = s l) → exec s' i x = Some (r, ws, acc);
  tracked_writes s i x r ws acc l v : exec s i x = Some (r, ws, acc) → (l, v) ∈ ws → written acc l;
}.
Context {HT : Tracked}.

(** The callback of the executor: a run on a copy of the state at the start. *)
Definition speculate (s0 : world) (i : nat) (x : T) : option ((R * writes) * AccessSet) := exec s0 i x.

(** The serial order: each transaction on the state the one before it left. *)
Fixpoint serial (s : world) (i : nat) (items : list T) : option (list (R * writes) * world) :=
  match items with
  | [] => Some ([], s)
  | x :: items =>
      match exec s i x with
      | Some (r, ws, _) => '(rs, s') ← serial (commit s ws) (S i) items; Some ((r, ws) :: rs, s')
      | None => None
      end
  end.

(** Runs on one state whose accesses are apart from each other. *)
Definition apart (accs : list AccessSet) : Prop := ∀ i j a b, (i < j)%nat → accs !! i = Some a → accs !! j = Some b → conflicts a b = false.

Lemma apart_cons a accs : apart (a :: accs) → Forall (λ b, conflicts a b = false) accs ∧ apart accs.
Proof.
  intros H. split.
  - apply Forall_lookup. intros j b Hj. by apply (H 0%nat (S j)); [lia|..].
  - intros i j x y Hij Hi Hj. by apply (H (S i) (S j)); [lia|..].
Qed.

(** Runs that are apart do not notice each other. *)
Lemma apart_serial s0 s i items outs : Forall2 (λ '(j, x) o, exec s0 j x = Some o) (zip (seq i (length items)) items) outs →
  apart (snd <$> outs) → Forall (λ o, ∀ l, touched o.2 l → s l = s0 l) outs →
  serial s i items = Some (fst <$> outs, foldl commit s (snd ∘ fst <$> outs)).
Proof using HT.
  revert s i outs. induction items as [|x items IH]; intros s i outs HF Ha Hs; cbn in HF.
  { inversion HF. done. }
  inversion HF as [|? [[r ws] acc] ? outs' Hx HF']; subst. cbn in Ha. apply apart_cons in Ha as [Hc Ha]. apply Forall_cons in Hs as [Hs0 Hs].
  cbn [serial]. rewrite (tracked_reads _ _ _ _ _ _ _ Hx Hs0). rewrite (IH (commit s ws) (S i) outs' HF' Ha).
  - done.
  - pose proof (proj1 (Forall_forall _ _) Hc) as Hc'. rewrite Forall_forall in Hs |- *. intros o Ho l Hl. rewrite commit_other; [by apply (Hs o)|]. intros v Hv.
    apply (no_conflict_apart acc o.2 l); [apply Hc'; by apply list_elem_of_fmap_2|by eapply tracked_writes|done].
Qed.
End Order.

(** ** One wave *)

(** The waves of known accesses without conflicts. *)
Lemma apart_steps access k : apart access → (2 <= length access)%nat → (1 <= k <= length access)%nat →
  foldl (waveStep access) ([], 0%nat) (seq 0 k) = ([seq 0 k], 0%nat).
Proof.
  intros Ha Hl Hk. assert (Hc : ∀ i j, (i < length access)%nat → (j < length access)%nat → i ≠ j → conflicts (nth i access emptyAccess) (nth j access emptyAccess) = false).
  { intros i j Hi Hj Hij. destruct (lookup_lt_is_Some_2 access i Hi) as [a Ea], (lookup_lt_is_Some_2 access j Hj) as [b Eb].
    rewrite (nth_lookup_Some _ _ _ _ Ea), (nth_lookup_Some _ _ _ _ Eb). destruct (decide (i < j)%nat); [by eapply Ha|]. apply conflicts_sym. eapply (Ha j i); [lia|done..]. }
  assert (Hu : ∀ i, (i < length access)%nat → (nth i access emptyAccess).(Unknown) = false).
  { intros i Hi. destruct (decide (i = 0%nat)) as [->|]; [|by apply (conflicts_false (nth i access emptyAccess) (nth 0 access emptyAccess)), Hc; lia].
    by apply (conflicts_false (nth 0 access emptyAccess) (nth 1 access emptyAccess)), Hc; lia. }
  induction k as [|k IH]; [lia|]. rewrite seq_S, foldl_app. cbn [foldl Nat.add]. destruct (decide (k = 0%nat)) as [->|Hk0].
  - cbn [seq foldl]. unfold waveStep. rewrite Hu by lia. done.
  - rewrite IH by lia. unfold waveStep. rewrite Hu by lia. cbn [take drop app place].
    rewrite (proj2 (forallb_forall _ _)); [done|]. intros j Hj%list_elem_of_In%elem_of_seq. rewrite Hc by lia. done.
Qed.

Lemma one_wave_apart access : access ≠ [] → (∃ w, BuildExecutionWaves access = [w]) ↔ apart access.
Proof.
  intros Hne. split.
  - intros [w Hw] i j a b Hij Hi Hj. pose proof (execution_waves_sound access) as (Hdom & _ & _ & Hind & _). cbn zeta in *. rewrite Hw in Hdom, Hind.
    apply lookup_lt_Some in Hi as Hil. apply lookup_lt_Some in Hj as Hjl. apply Hdom in Hil as [wi Hwi]. apply Hdom in Hjl as [wj Hwj].
    assert (Hz : ∀ n x, at_wave [w] n x → n = 0%nat) by (intros n x (v & Hv & _); apply lookup_lt_Some in Hv; cbn in Hv; lia).
    rewrite (Hz _ _ Hwi) in Hwi. rewrite (Hz _ _ Hwj) in Hwj. specialize (Hind 0%nat i j Hwi Hwj ltac:(lia)).
    by rewrite (nth_lookup_Some _ _ _ _ Hi), (nth_lookup_Some _ _ _ _ Hj) in Hind.
  - intros Ha. unfold BuildExecutionWaves. destruct access as [|a [|b access]]; [done| |].
    + exists [0%nat]. cbn. by destruct (Unknown a).
    + eexists. rewrite apart_steps; [reflexivity|done|cbn; lia|cbn; lia].
Qed.

Section Serial.
Context {V T R : Type} (defR : R * writes (V := V)) (exec : world (V := V) → nat → T → option (R * writes (V := V) * AccessSet)).
Context {HT : Tracked exec}.

(** The outcomes of the runs, each with its index. *)
Lemma outcomes_indexed (run : nat → T → option ((R * writes (V := V)) * AccessSet)) items i outs pre :
  length pre = i → mapM (outcome run (pre ++ items)) (seq i (length items)) = Some outs → Forall2 (λ '(j, x) o, run j x = Some o) (zip (seq i (length items)) items) outs.
Proof.
  revert i outs pre. induction items as [|x items IH]; intros i outs pre Hi Hm; cbn in Hm; [injection Hm as <-; constructor|].
  apply bind_Some in Hm as (o & Ho & Hm). apply bind_Some in Hm as (outs' & Hm & [= <-]). cbn. constructor.
  - unfold outcome in Ho. rewrite lookup_app_r in Ho by lia. by rewrite Hi, Nat.sub_diag in Ho.
  - apply (IH (S i) outs' (pre ++ [x])); [rewrite length_app; cbn; lia|]. by rewrite <- app_assoc.
Qed.

End Serial.

(** ** An instance *)

(** Transfers of one unit between accounts, with the balance of the recipient as the result. *)
Definition transferAccess (from to : address) : AccessSet := {| Reads := [from; to]; Writes := [from; to]; StorageReads := []; StorageWrites := []; Unknown := false |}.
Definition transfer (s : world (V := Z)) (_ : nat) (x : address * address) : option (Z * writes (V := Z) * AccessSet) :=
  let '(from, to) := x in
  if s (Account from) <? 1 then None
  else Some (s (Account to) + 1, [(Account from, s (Account from) - 1); (Account to, s (Account to) + 1)], transferAccess from to).

#[global] Instance transfer_tracked : Tracked transfer.
Proof.
  split.
  - intros s s' i [from to] r ws acc E Hs. unfold transfer in *. destruct (s (Account from) <? 1) eqn:Ef; [done|]. injection E as <- <- <-.
    rewrite !Hs by (cbn; set_solver+). by rewrite Ef.
  - intros s i [from to] r ws acc l v E Hl. unfold transfer in E. destruct (_ <? 1); [done|]. injection E as <- <- <-. cbn.
    rewrite !elem_of_cons, elem_of_nil in Hl. destruct Hl as [[= -> _]|[[= -> _]|[]]]; cbn; set_solver+.
Qed.

Definition tenEach : world (V := Z) := λ _, 10.
Definition disjointRun := ExecuteOptimisticResults (0, []) (speculate transfer tenEach) (@rev nat) [(1, 2); (3, 4)] [emptyAccess; emptyAccess].

Lemma disjoint_run : disjointRun
  = Some ([(11, [(Account 1, 9); (Account 2, 11)]); (11, [(Account 3, 9); (Account 4, 11)])],
          {| tr_Waves := [[0; 1]]; tr_Access := [transferAccess 1 2; transferAccess 3 4] |}).
Proof. vm_compute. reflexivity. Qed.


(** Two transfers to one account conflict and their wave is retried, but on the same copies
    of the state: both see the old balance of the recipient, and merging both write-sets
    loses one of the transfers. *)
Lemma retry_keeps_stale_reads :
  ∃ results transcript serialResults final,
    ExecuteOptimisticResults (0, []) (speculate transfer tenEach) id [(1, 2); (3, 2)] [emptyAccess; emptyAccess] = Some (results, transcript)
    ∧ serial transfer tenEach 0 [(1, 2); (3, 2)] = Some (serialResults, final)
    ∧ (length transcript.(tr_Waves) = 2)%nat ∧ results ≠ serialResults
    ∧ foldl commit tenEach (snd <$> results) (Account 2) = 11 ∧ final (Account 2) = 12.
Proof. eexists _, _, _, _. split; [vm_compute; reflexivity|]. split; [cbn; reflexivity|]. split; [done|]. split; [done|]. done. Qed.
End SerialOrder.
